(* ===== verification/_CoqProject ===== *)
-Q . S2P
Prelude.v
Floats.v
Crc32.v
OrderedMap.v
LogCodec.v
LogStore.v
LogReplay.v
LogDurability.v
LogScan.v
LogCorrect.v
KvInterface.v
Mtls.v
AgentState.v
AgentKeys.v
AgentItems.v
AgentRecords.v
BlobStore.v
StateWal.v
ArtIndex.v
Lpm.v
ArtWal.v
DramTier.v
Scheduler.v
Quota.v
Bloom.v
Hrw.v
ArtSnapshot.v
Ring.v
Ingest.v
Boundary.v
ColdTier.v
NvmeTier.v
TierManager.v
Epoch.v
Locator.v
Events.v
HeadlessNode.v
NodeCorrect.v
Access.v
Membership.v
Etcd.v
EtcdWire.v
Registrar.v
Directory.v
Abi.v
NodeService.v
Cluster.v
ServiceCorrect.v
TensorCodec.v
Transport.v
Nixl.v
Replication.v
AgentRouter.v
ControlPlane.v
SdkClient.v
SdkLangGraph.v
Adapter.v
Vllm.v
Identity.v
