(* ===== verification/Prelude.v ===== *)
(** * Agent State Storage: verification library

    A shallow embedding of the repository's programs, the storage node above all: their
    components as Rocq definitions with the source's names, translated from the C++, Go and
    Python under src/src, and the theorems that make them correct.

    ** The program

    A node stores two kinds of state. _Agent state_ is sessions, records and blobs that
    clients reach through the AgentState service: every call is resolved to a tenant by
    the peer's certificate, items and records live in an ordered, log-structured
    key-value store, and blobs in files. _KV-cache state_ is payloads that inference
    engines upload under a sequence of tokens and look up by longest prefix: an engine
    reserves a pinned slot, fills it, publishes a watermark and seals it; the node stages
    the bytes in the DRAM tier, indexes a leaf in a radix tree and announces it; a lookup
    takes a counted reference to the leaf of the longest match, and a fetch reads the
    payload from the hottest of the DRAM, NVMe and cold tiers. Around these are the
    write-ahead logs and snapshots that make both durable, and scheduling, quotas,
    access decisions, egress control, sketches and a tensor codec.

    Nodes form a cluster. Each registers in etcd, keeps a directory of the others and ranks
    them for a key by rendezvous hashing; the data service of a node answers a call itself
    or forwards it to the node the ranking, a sketch or a handle names, and payloads move
    between nodes over a transport. A standby subscribes to a node's events and pulls what
    is sealed there. The control plane publishes the view of the cluster and the union of
    the sketches; the agent beside an engine follows the view and answers, over
    shared-memory rings, which node to ask. Applications use the agent state through a
    Python client, which LangGraph's checkpoints and long-term store are built on; engines
    use the cache through adapters over the C interface. The operator publishes which
    certificates belong to a tenant, and nodes follow.

    ** Files and sources (paths below src/src, mostly kvstore-node/src)

    - Foundations: this file (byte strings, fixed-width integers, lists, fields of maps,
      tactics); Crc32.v (the two CRC-32 routines); OrderedMap.v ([std::map]).
    - Ordered log store, session/ordered_log_store.cpp: LogCodec.v (records), LogStore.v
      (the operations on map and file), LogReplay.v, LogDurability.v and LogScan.v (their
      lemmas), LogCorrect.v (the theorems).
    - AgentState service, session/agent_state_service.cpp: KvInterface.v (what the service
      needs of a store, as a class with laws that the log store satisfies), Mtls.v (peer
      identities, security/mtls.cpp), AgentState.v (the handlers), AgentKeys.v,
      AgentItems.v, AgentRecords.v (the theorems), BlobStore.v (session/blob_store.cpp and
      the blob handlers).
    - Prefix index: ArtIndex.v (prefix/art_index.cpp), Lpm.v (prefix/lpm.cpp), ArtWal.v
      (prefix/art_wal.cpp), ArtSnapshot.v (prefix/art_snapshot.cpp), Epoch.v
      (prefix/epoch.cpp).
    - Tiers: Ingest.v (tier/pinned_tier.cpp, ingest/mutable_buffer.cpp,
      ingest/watermark.cpp), DramTier.v (tier/dram_tier.cpp), NvmeTier.v
      (tier/nvme_tier.cpp), ColdTier.v (tier/cold_tier.cpp and its backends and
      decorators, behind an interface with laws), TierManager.v (tier/tier_manager.cpp).
    - The node: Locator.v (core/common: locators, identities, hashes), Events.v
      (prefix/kv_event_stream.cpp), StateWal.v (persist/state_wal.cpp), HeadlessNode.v
      (core-abi/src/headless_node.cpp, which composes all of the above), NodeCorrect.v
      (its theorems).
    - Around them: Scheduler.v (transport/priority_scheduler.cpp), Quota.v (qos), Bloom.v
      (routing/bloom_sketch.cpp), Ring.v (kvagent/src/shmem_ring/sq_cq.cpp), Boundary.v
      (security/boundary_guard.cpp and regulated mode), Access.v (security/rbac.cpp,
      security/audit.cpp), Membership.v (cluster/membership_fsm.cpp, drain_gate.cpp),
      Floats.v (IEEE doubles), TensorCodec.v (codec/kv_tensor_codec.cpp).
    - The cluster: Hrw.v (routing/hrw.cpp), Etcd.v and EtcdWire.v
      (cluster/etcd_client.cpp, cluster/http_etcd_client.cpp), Registrar.v
      (cluster/node_registrar.cpp), Directory.v (cluster/node_directory.cpp,
      cluster/bloom_publisher.cpp), Abi.v (core-abi/src/kv_abi.cpp), NodeService.v
      (grpc/node_data_service.cpp), Cluster.v (several such servers and the calls in
      progress), ServiceCorrect.v (the service on the node), Transport.v
      (transport/tcp_backend.cpp and the loopback), Nixl.v (transport/nixl_wrapper.cpp),
      Replication.v (core-abi/src/replication).
    - Other programs: AgentRouter.v (kvagent), ControlPlane.v (control-plane/internal),
      SdkClient.v and SdkLangGraph.v (sdk/python), Adapter.v (adapters/core and
      adapters/sglang), Vllm.v (adapters/vllm), Identity.v (the publisher of identities in
      operator/internal/controller and cluster/identity_watcher.cpp).

    Components meet at interfaces. A class states what one needs of another and the laws
    the theorems use; the other's file gives the instance: the ordered store of the service
    (KvInterface.v), the cold tier (ColdTier.v), the node behind the C interface (Abi.v),
    the source of a replica (Replication.v), the backend of a transfer (Nixl.v), the
    service as a client sees it (SdkClient.v) and the slots an engine writes (Adapter.v).

    ** How the code is modelled

    A class is a record of its fields and each method a function on it that returns its
    result and the new record, with every early return. A 32- or 64-bit integer is a [Z]
    that is wrapped ([u32], [u64]) where the code computes with it. Bytes are
    [list byte]. Hash maps are [gmap]s; where an order is visible the model is a list.
    A call that takes a mutex for its whole length is one step. Where a call releases it
    in the middle (NVMe, quotas, access decisions) or is lock-free (the ring, the
    epochs), its atomic parts are steps of their own, and the theorems are about every
    interleaving of them. Memory is that of x86-TSO for the epochs, whose protocol depends
    on it (Epoch.v), and sequentially consistent elsewhere. System calls are outcomes:
    a script says what each [write], [fsync] or [rename] does, and a theorem without
    a hypothesis on the script holds whatever fails. A crash is what is left in the files.
    Libraries that are not in the repository (BLAKE3, zstd, AES-GCM, HTTP) are parameters,
    with their documented behaviour as named hypotheses or class laws.

    ** What is proved

    The comment before each theorem states its conditions; in short:

    - Durability: an acknowledged batch of the log store survives every sequence of
      failed appends (whose rollback succeeds), compactions, crashes and restarts; the two
      write-ahead logs, as long as no append failed, and the snapshots restore exactly what
      was acknowledged; a failed blob upload changes no blob, and leaves at most a
      temporary file that the next start removes.
    - Service: each handler's effect on a session or a tenant's records, and that calls
      of one tenant neither change nor depend on another's keys.
    - Index: the radix tree is a finite map and its lookup the longest-prefix match;
      reclamation frees nothing that a reader can reach, as long as it and the writer exclude
      each other and a thread holds one guard at a time.
    - Tiers: each tier is a map from keys to payloads up to the evictions it reports, over
      faults (but for failed submissions to io_uring) and, where no two calls on one key
      overlap, interleavings; the manager returns only what was stored for a key, and the
      hottest copy.
    - Node: slots and references are never leaked or dropped too early in any sequence of
      calls; an upload under a key that is not in DRAM is fetched back unchanged whatever
      other clients do meanwhile; a state entry outlives its eviction.
    - Concurrency and policy: the ring delivers every element once, quotas hold under
      interleaving, no scheduled item is lost, access decisions are never staler than the
      cache's lifetime, regulated mode starts only with every egress covered.
    - Codec: the decoder returns what the encoder predicted from, within half a quantisation
      step of the data, and never reads beyond a buffer whatever the bytes.
    - Cluster: a directory converges to the registrations, if none is missed at its start,
      and these last as long as they are renewed; routed calls end whatever else happens; a
      handle serves only its owner; what is uploaded through the service is found and fetched
      through it; a transfer returns, and brings exactly the bytes of the peer; a standby
      serves what its primary sealed and, with one poller, applies nothing twice.
    - Control plane and agent: published views are the membership, published sketches miss no
      key, an agent sends nothing to a node whose drain marker was read and answers with
      routes that are fresh.
    - Clients: a conversation, a checkpoint and a search are read back exactly, however the
      server cuts its pages; what an engine stores uncompressed through an adapter it
      retrieves, layer by layer, and handles of lookups are released once.
    - Identities: a publication leaves exactly the allow-list of the tenant, one document for
      each key, and the registry of a node that gets every change is what is published.

    Where the code does less than it says, a theorem or example shows the state it
    reaches: log records of 4 GiB, appends after a failed append, overlapping NVMe calls
    on one key, an io_uring submission that failed and runs later, nested epoch guards and
    memory orders that are too weak, tier keys shared by tenants, a claimed leaf whose
    removal is not logged, a drain marker that closes another node's gate, chunks a standby
    loses or applies twice, registrations and markers missed at the start of a watch, payloads of a partial
    chunk, a name that keeps its access after it was replaced, identities that share a key.

    ** Fuel and bounds

    Loops that are not structural take fuel that the caller computes from the input: a
    record of a log is at least a constant number of bytes, so the length of the file
    bounds the replay; an eviction removes an entry, so the number of entries bounds the
    eviction loops; the snapshot reader consumes a byte at least every second call. The
    theorems about the operations have no hypothesis on fuel: the operations give
    themselves enough, which the lemmas about the loops show. Counters that the code
    leaves to grow are bounded where a theorem says so: fewer than 2^32 open handles,
    fewer than 2^64 reservations, ring cursors below 2^62. The loops of a client over the
    pages of a server it does not know have as fuel the number of requests; their theorems
    say that one more than there are entries is enough, and that with it they answer.

    ** Not modelled

    UCX, the RocksDB store and the seal path through it, X.509 decoding, request signing,
    the encodings of JSON and protobuf, and opening sockets and channels: they are input and
    output through third-party libraries. Logging, metrics and tracing: output only. The
    main programs: flags and start-up. The operator, but for its publisher of identities, and
    the command line: they translate between Kubernetes, etcd and a terminal. Of the engine
    adapters, those that repeat the calls of the modelled one for other engines, the wrappers
    for Rust and TensorRT-LLM, and what reads the objects of an engine. The asynchronous
    twins of the Python client repeat the synchronous calls. Inside the node the races of one call with
    another, the restore of the tree at start and the callback threads of event
    subscriptions, but for those of a standby, are left out. *)

From Stdlib Require Import ZArith Lia NArith.
From Stdlib Require Export Strings.Byte.
From stdpp Require Export base list gmap option numbers strings.

Open Scope Z_scope.

(** ** Automation *)

Create HintDb store discriminated.
Create HintDb bytesdb.

(** Break the innermost [match] scrutinee of the goal, or of a hypothesis. *)
Ltac break_match :=
  match goal with
  | |- context [match ?e with _ => _ end] =>
      lazymatch e with
      | context [match _ with _ => _ end] => fail
      | _ => let E := fresh "E" in destruct e eqn:E
      end
  end.

Ltac break_match_in H :=
  match type of H with
  | context [match ?e with _ => _ end] =>
      lazymatch e with
      | context [match _ with _ => _ end] => fail
      | _ => let E := fresh "E" in destruct e eqn:E
      end
  end.

(** Turn boolean comparisons in the context into propositions. *)
Ltac reflect_bools :=
  repeat match goal with
  | H : (_ && _)%bool = true |- _ => apply andb_true_iff in H as [? ?]
  | H : (_ || _)%bool = false |- _ => apply orb_false_iff in H as [? ?]
  | H : negb _ = true |- _ => apply negb_true_iff in H
  | H : negb _ = false |- _ => apply negb_false_iff in H
  | H : Z.leb _ _ = true |- _ => apply Z.leb_le in H
  | H : Z.leb _ _ = false |- _ => apply Z.leb_gt in H
  | H : Z.ltb _ _ = true |- _ => apply Z.ltb_lt in H
  | H : Z.ltb _ _ = false |- _ => apply Z.ltb_ge in H
  | H : Z.eqb _ _ = true |- _ => apply Z.eqb_eq in H
  | H : Z.eqb _ _ = false |- _ => apply Z.eqb_neq in H
  | H : Nat.leb _ _ = true |- _ => apply Nat.leb_le in H
  | H : Nat.leb _ _ = false |- _ => apply Nat.leb_gt in H
  | H : Nat.ltb _ _ = true |- _ => apply Nat.ltb_lt in H
  | H : Nat.ltb _ _ = false |- _ => apply Nat.ltb_ge in H
  | H : Nat.eqb _ _ = true |- _ => apply Nat.eqb_eq in H
  | H : Nat.eqb _ _ = false |- _ => apply Nat.eqb_neq in H
  | H : bool_decide _ = true |- _ => apply bool_decide_eq_true in H
  | H : bool_decide _ = false |- _ => apply bool_decide_eq_false in H
  end.

(** ** Bytes *)

Notation bytes := (list byte).

#[global] Instance byte_eq_decision : EqDecision byte := Byte.byte_eq_dec.
#[global] Program Instance byte_countable : Countable byte :=
  inj_countable Byte.to_N Byte.of_N _.
Next Obligation. exact Byte.of_to_N. Qed.

(** The value of an [uint8_t]. *)
Definition byte_val (b : byte) : Z := Z.of_N (Byte.to_N b).

(** [static_cast<uint8_t>]: keep the low eight bits. *)
Definition byte_of (z : Z) : byte :=
  default Byte.x00 (Byte.of_N (Z.to_N (z mod 256))).

Lemma byte_val_bound b : 0 <= byte_val b < 256.
Proof.
  unfold byte_val. pose proof (Byte.to_N_bounded b). lia.
Qed.

Lemma byte_val_of z : byte_val (byte_of z) = z mod 256.
Proof.
  unfold byte_of, byte_val. pose proof (Z.mod_pos_bound z 256 ltac:(lia)).
  destruct (Byte.of_N (Z.to_N (z mod 256))) as [b|] eqn:E; simpl.
  - apply Byte.to_of_N in E. rewrite E. lia.
  - apply Byte.of_N_None_iff in E. lia.
Qed.

Lemma byte_of_val b : byte_of (byte_val b) = b.
Proof.
  unfold byte_of. rewrite Z.mod_small by apply byte_val_bound.
  unfold byte_val. rewrite N2Z.id, Byte.of_to_N. done.
Qed.

Lemma byte_val_inj a b : byte_val a = byte_val b -> a = b.
Proof. intros H. rewrite <- (byte_of_val a), <- (byte_of_val b). by f_equal. Qed.

(** Lengths as integers: [size_t] of an in-memory object. *)
Notation zlen l := (Z.of_nat (length l)).

(** Unsigned conversion at 32 and 64 bits. *)
Definition u32 (z : Z) : Z := z mod 2 ^ 32.
Definition u64 (z : Z) : Z := z mod 2 ^ 64.

Lemma u32_small z : 0 <= z < 2 ^ 32 -> u32 z = z.
Proof. apply Z.mod_small. Qed.
Lemma u64_small z : 0 <= z < 2 ^ 64 -> u64 z = z.
Proof. apply Z.mod_small. Qed.
Lemma u32_bound z : 0 <= u32 z < 2 ^ 32.
Proof. apply Z.mod_pos_bound. lia. Qed.
Lemma u64_bound z : 0 <= u64 z < 2 ^ 64.
Proof. apply Z.mod_pos_bound. lia. Qed.

(** ** Fixed-width integers on the wire *)

(** Little-endian: byte [i] is [(v >> 8*i) & 0xFF]. *)
Definition put_le (n : nat) (v : Z) : bytes :=
  (fun i => byte_of (Z.shiftr v (8 * Z.of_nat i))) <$> seq 0 n.

(** [p[0] | p[1] << 8 | p[2] << 16 | ...]. *)
Fixpoint get_le (l : bytes) : Z :=
  match l with
  | [] => 0
  | b :: r => Z.lor (byte_val b) (Z.shiftl (get_le r) 8)
  end.

(** Big-endian: the most significant byte first. *)
Definition put_be (n : nat) (v : Z) : bytes := rev (put_le n v).

(** [for (c : s) v = (v << 8) | c]. *)
Definition get_be (l : bytes) : Z :=
  fold_left (fun v b => Z.lor (Z.shiftl v 8) (byte_val b)) l 0.

#[global] Arguments put_le : simpl never.
#[global] Arguments put_be : simpl never.

Lemma put_le_S n v : put_le (S n) v = byte_of v :: put_le n (Z.shiftr v 8).
Proof.
  unfold put_le. rewrite <- cons_seq, fmap_cons. f_equal.
  rewrite <- fmap_S_seq, <- list_fmap_compose.
  apply list_fmap_ext. intros i x _. simpl.
  rewrite Z.shiftr_shiftr by lia. do 2 f_equal. lia.
Qed.

Lemma length_put_le n v : length (put_le n v) = n.
Proof. unfold put_le. by rewrite length_fmap, length_seq. Qed.

Lemma length_put_be n v : length (put_be n v) = n.
Proof. unfold put_be. by rewrite length_rev, length_put_le. Qed.

Lemma lor_shiftl_8 a b : 0 <= a < 256 -> Z.lor a (Z.shiftl b 8) = a + 256 * b.
Proof.
  intros Ha.
  assert (Z.land a (Z.shiftl b 8) = 0) as Hl.
  { apply Z.bits_inj'. intros i Hi. rewrite Z.land_spec, Z.bits_0, Z.shiftl_spec by lia.
    destruct (Z.ltb_spec i 8).
    - rewrite (Z.testbit_neg_r b) by lia. apply andb_false_r.
    - rewrite Z.testbit_eqb by lia. rewrite Z.div_small by
        (split; [lia|]; apply Z.lt_le_trans with (2 ^ 8);
         [lia|apply Z.pow_le_mono_r; lia]). done. }
  rewrite <- Z.lxor_lor, <- Z.add_nocarry_lxor by done.
  rewrite Z.shiftl_mul_pow2 by lia. lia.
Qed.

Lemma get_le_cons b r : get_le (b :: r) = byte_val b + 256 * get_le r.
Proof. simpl. apply lor_shiftl_8, byte_val_bound. Qed.

Lemma get_le_bound l : 0 <= get_le l < 256 ^ zlen l.
Proof.
  induction l as [|b l IH]; [simpl; lia|].
  rewrite get_le_cons, length_cons, Nat2Z.inj_succ, Z.pow_succ_r by lia.
  pose proof (byte_val_bound b). nia.
Qed.

Lemma get_put_le n v : get_le (put_le n v) = v mod 256 ^ Z.of_nat n.
Proof.
  revert v. induction n as [|n IH]; intros v.
  - simpl. by rewrite Z.mod_1_r.
  - rewrite put_le_S, get_le_cons, IH, byte_val_of, Nat2Z.inj_succ, Z.pow_succ_r by lia.
    rewrite Z.shiftr_div_pow2 by lia. change (2 ^ 8) with 256.
    rewrite (Z.rem_mul_r v 256) by lia. done.
Qed.

Lemma put_get_le l : put_le (length l) (get_le l) = l.
Proof.
  induction l as [|b l IH]; [done|].
  rewrite length_cons, put_le_S, get_le_cons.
  rewrite Z.shiftr_div_pow2 by lia. change (2 ^ 8) with 256.
  rewrite (Z.mul_comm 256), Z.div_add by lia.
  pose proof (byte_val_bound b) as Hb.
  rewrite Z.div_small, Z.add_0_l, IH by done. f_equal.
  apply byte_val_inj. rewrite byte_val_of, Z.mod_add, Z.mod_small by lia. done.
Qed.

Lemma get_be_app l1 l2 :
  get_be (l1 ++ l2) = fold_left (fun v b => Z.lor (Z.shiftl v 8) (byte_val b)) l2 (get_be l1).
Proof. unfold get_be. by rewrite fold_left_app. Qed.

Lemma get_be_rev l : get_be (rev l) = get_le l.
Proof.
  induction l as [|b l IH]; [done|]. simpl rev.
  rewrite get_be_app, IH. simpl. by rewrite Z.lor_comm.
Qed.

Lemma get_put_be n v : get_be (put_be n v) = v mod 256 ^ Z.of_nat n.
Proof. unfold put_be. by rewrite get_be_rev, get_put_le. Qed.

Lemma put_be_inj n v w :
  0 <= v < 256 ^ Z.of_nat n -> 0 <= w < 256 ^ Z.of_nat n ->
  put_be n v = put_be n w -> v = w.
Proof.
  intros Hv Hw H. apply (f_equal get_be) in H.
  rewrite !get_put_be, !Z.mod_small in H; lia.
Qed.

(** ** Lexicographic order of byte strings

    [std::string::compare]: byte by byte as unsigned values, a proper prefix
    sorts first. *)

Fixpoint bcmp (a b : bytes) : comparison :=
  match a, b with
  | [], [] => Eq
  | [], _ :: _ => Lt
  | _ :: _, [] => Gt
  | x :: a', y :: b' =>
      match byte_val x ?= byte_val y with
      | Eq => bcmp a' b'
      | c => c
      end
  end.

Definition blt (a b : bytes) : bool :=
  match bcmp a b with Lt => true | _ => false end.
Definition ble (a b : bytes) : bool := negb (blt b a).

Lemma bcmp_refl a : bcmp a a = Eq.
Proof. induction a as [|x a IH]; simpl; [done|]. by rewrite Z.compare_refl. Qed.

Lemma bcmp_eq a b : bcmp a b = Eq -> a = b.
Proof.
  revert b. induction a as [|x a IH]; intros [|y b]; simpl; try done.
  destruct (Z.compare_spec (byte_val x) (byte_val y)) as [E|E|E]; try done.
  intros H. apply byte_val_inj in E. subst. f_equal. by apply IH.
Qed.

Lemma bcmp_antisym a b : bcmp b a = CompOpp (bcmp a b).
Proof.
  revert b. induction a as [|x a IH]; intros [|y b]; simpl; try done.
  rewrite (Z.compare_antisym (byte_val x)).
  destruct (byte_val x ?= byte_val y); simpl; auto.
Qed.

Lemma blt_irrefl a : blt a a = false.
Proof. unfold blt. by rewrite bcmp_refl. Qed.

Lemma blt_trans a b c : blt a b = true -> blt b c = true -> blt a c = true.
Proof.
  unfold blt. revert b c.
  induction a as [|x a IH]; intros [|y b] [|z c]; simpl; try done.
  destruct (Z.compare_spec (byte_val x) (byte_val y)) as [E|E|E]; try done;
  destruct (Z.compare_spec (byte_val y) (byte_val z)) as [F|F|F]; try done;
  destruct (Z.compare_spec (byte_val x) (byte_val z)) as [G|G|G]; try done; try lia.
  apply IH.
Qed.

Lemma blt_total a b : blt a b = false -> blt b a = false -> a = b.
Proof.
  unfold blt. rewrite (bcmp_antisym a b). destruct (bcmp a b) eqn:E; try done.
  intros _ _. by apply bcmp_eq.
Qed.

Lemma blt_asym a b : blt a b = true -> blt b a = false.
Proof.
  unfold blt. rewrite (bcmp_antisym a b). by destruct (bcmp a b).
Qed.

Lemma ble_refl a : ble a a = true.
Proof. unfold ble. by rewrite blt_irrefl. Qed.

Lemma ble_cases a b : ble a b = true <-> blt a b = true \/ a = b.
Proof.
  unfold ble. rewrite negb_true_iff. split.
  - intros H. destruct (blt a b) eqn:E; [by left|right; by apply blt_total].
  - intros [H| ->]; [by apply blt_asym|apply blt_irrefl].
Qed.

Lemma blt_ble_trans a b c : blt a b = true -> ble b c = true -> blt a c = true.
Proof. rewrite ble_cases. intros H [H'| <-]; [by eapply blt_trans|done]. Qed.

Lemma ble_blt_trans a b c : ble a b = true -> blt b c = true -> blt a c = true.
Proof. rewrite ble_cases. intros [H'| ->] H; [by eapply blt_trans|done]. Qed.

Lemma ble_trans a b c : ble a b = true -> ble b c = true -> ble a c = true.
Proof.
  rewrite (ble_cases b c). intros H [H'| <-]; [|done].
  apply ble_cases. left. by eapply ble_blt_trans.
Qed.

Lemma bcmp_app p a b : bcmp (p ++ a) (p ++ b) = bcmp a b.
Proof. induction p as [|x p IH]; simpl; [done|]. by rewrite Z.compare_refl. Qed.

Lemma bcmp_app_same_length a b x y :
  length a = length b ->
  bcmp (a ++ x) (b ++ y) = match bcmp a b with Eq => bcmp x y | c => c end.
Proof.
  revert b. induction a as [|c a IH]; intros [|d b]; simpl; try done.
  intros [= H]. destruct (byte_val c ?= byte_val d); auto.
Qed.

Lemma bcmp_put_be n v w :
  0 <= v < 256 ^ Z.of_nat n -> 0 <= w < 256 ^ Z.of_nat n ->
  bcmp (put_be n v) (put_be n w) = (v ?= w).
Proof.
  revert v w. induction n as [|n IH]; intros v w Hv Hw.
  - change (256 ^ Z.of_nat 0) with 1 in *. assert (v = w) as -> by lia.
    by rewrite bcmp_refl, Z.compare_refl.
  - rewrite Nat2Z.inj_succ, Z.pow_succ_r in * by lia.
    unfold put_be. rewrite !put_le_S. simpl.
    change (rev (put_le n (Z.shiftr v 8))) with (put_be n (Z.shiftr v 8)).
    change (rev (put_le n (Z.shiftr w 8))) with (put_be n (Z.shiftr w 8)).
    rewrite bcmp_app_same_length by by rewrite !length_put_be.
    rewrite !Z.shiftr_div_pow2 by lia. change (2 ^ 8) with 256.
    rewrite IH by (split; [apply Z.div_pos; lia|apply Z.div_lt_upper_bound; lia]).
    simpl. rewrite !byte_val_of.
    pose proof (Z.div_mod v 256). pose proof (Z.div_mod w 256).
    pose proof (Z.mod_pos_bound v 256). pose proof (Z.mod_pos_bound w 256).
    destruct (Z.compare_spec (v / 256) (w / 256));
      [destruct (Z.compare_spec (v mod 256) (w mod 256))|..];
      destruct (Z.compare_spec v w); lia || done.
Qed.

(** *** Prefixes *)

(** [key.compare(0, prefix.size(), prefix) == 0] with the size guard. *)
Definition starts_with (p k : bytes) : bool :=
  bool_decide (take (length p) k = p).

Lemma starts_with_iff p k : starts_with p k = true <-> exists r, k = p ++ r.
Proof.
  unfold starts_with. rewrite bool_decide_eq_true. split.
  - intros H. exists (drop (length p) k). by rewrite <- H at 1; rewrite take_drop.
  - intros [r ->]. by rewrite take_app_length.
Qed.

Lemma starts_with_app p r : starts_with p (p ++ r) = true.
Proof. apply starts_with_iff. eauto. Qed.

Lemma starts_with_trans p q k :
  starts_with p q = true -> starts_with q k = true -> starts_with p k = true.
Proof.
  rewrite !starts_with_iff. intros [r ->] [s ->]. exists (r ++ s). by rewrite app_assoc.
Qed.

Lemma starts_with_ble p k : starts_with p k = true -> ble p k = true.
Proof.
  rewrite starts_with_iff. intros [r ->]. unfold ble, blt.
  rewrite <- (app_nil_r p) at 2. rewrite bcmp_app. by destruct r.
Qed.

(** The keys under a prefix are contiguous in key order. *)
Lemma starts_with_between p k k' :
  ble p k = true -> ble k k' = true -> starts_with p k' = true ->
  starts_with p k = true.
Proof.
  rewrite !starts_with_iff. unfold ble, blt.
  revert k k'. induction p as [|x p IH]; intros k k' H1 H2 [r ->]; [by exists k|].
  destruct k as [|y k]; [done|]. simpl in *.
  rewrite (Z.compare_antisym (byte_val x)) in H1.
  destruct (Z.compare_spec (byte_val x) (byte_val y)) as [E|E|E]; simpl in *; try done.
  apply byte_val_inj in E. subst y.
  destruct (IH k (p ++ r)) as [r' ->]; eauto.
Qed.

Lemma bcmp_gt_past_prefix p k k' :
  ble p k = true -> starts_with p k = false -> ble k k' = true ->
  starts_with p k' = false.
Proof.
  intros H1 H2 H3. destruct (starts_with p k') eqn:E; [|done].
  rewrite (starts_with_between p k k') in H2; done.
Qed.

(** ** Lists *)

Lemma take_app_ge {A} n (l k : list A) :
  (length l <= n)%nat -> take n (l ++ k) = l ++ take (n - length l) k.
Proof. intros H. rewrite take_app, take_ge; done. Qed.

Lemma drop_app_ge_nat {A} n (l k : list A) :
  (length l <= n)%nat -> drop n (l ++ k) = drop (n - length l) k.
Proof. intros H. rewrite drop_app, drop_ge; done. Qed.

Lemma Forall_take_drop {A} (P : A -> Prop) n l :
  Forall P l -> Forall P (take n l) /\ Forall P (drop n l).
Proof. intros H. split; [by apply Forall_take|by apply Forall_drop]. Qed.

Lemma fold_left_ext {A B} (f g : A -> B -> A) l a :
  (forall x y, f x y = g x y) -> fold_left f l a = fold_left g l a.
Proof. intros H. revert a. induction l as [|b l IH]; intros a; simpl; [done|]. by rewrite H, IH. Qed.

(** A predicate kept by the step function holds at the end of the loop. *)
Lemma fold_left_inv {A B} (P : A -> Prop) (f : A -> B -> A) l a :
  (forall x y, P x -> P (f x y)) -> P a -> P (fold_left f l a).
Proof. intros H. revert a. induction l as [|b l IH]; intros a Ha; simpl; auto. Qed.

Lemma iter_inv {A} (P : A -> Prop) (f : A -> A) n a :
  (forall x, P x -> P (f x)) -> P a -> P (Nat.iter n f a).
Proof. intros H Ha. induction n as [|n IH]; simpl; auto. Qed.

(** ** Reading fixed-width fields back *)

Definition get_u32 (p : bytes) : Z := get_le (take 4 p).

Lemma take_put_le_app n v r : take n (put_le n v ++ r) = put_le n v.
Proof. rewrite <- (length_put_le n v) at 1. apply take_app_length. Qed.

Lemma drop_put_le_app n v r : drop n (put_le n v ++ r) = r.
Proof. rewrite <- (length_put_le n v) at 1. apply drop_app_length. Qed.

Lemma get_u32_put v r : 0 <= v < 2 ^ 32 -> get_u32 (put_le 4 v ++ r) = v.
Proof.
  intros H. unfold get_u32. rewrite take_put_le_app, get_put_le.
  by rewrite Z.mod_small.
Qed.

Lemma get_u32_bound p : 0 <= get_u32 p < 2 ^ 32.
Proof.
  unfold get_u32. pose proof (get_le_bound (take 4 p)) as [H1 H2]. split; [done|].
  eapply Z.lt_le_trans; [exact H2|]. change (2 ^ 32) with (256 ^ 4).
  apply Z.pow_le_mono_r; [lia|]. pose proof (length_take_le p 4).
  rewrite length_take. lia.
Qed.

Lemma take_zlen_app {A} (l r : list A) n : n = zlen l -> take (Z.to_nat n) (l ++ r) = l.
Proof. intros ->. rewrite Nat2Z.id. apply take_app_length. Qed.

Lemma drop_zlen_app {A} (l r : list A) n : n = zlen l -> drop (Z.to_nat n) (l ++ r) = r.
Proof. intros ->. rewrite Nat2Z.id. apply drop_app_length. Qed.

#[export] Hint Rewrite length_put_le length_put_be @length_app @length_cons @length_nil
  @length_take @length_drop : bytesdb.

(** Compute the length of a concatenation of wire fields. *)
Ltac len_simpl := autorewrite with bytesdb in *.

Lemma take_drop_commute_add {A} (n k : nat) (l : list A) :
  take n l ++ take k (drop n l) = take (n + k) l.
Proof.
  revert l. induction n as [|n IH]; intros l; [done|].
  destruct l as [|x l]; simpl; [by rewrite take_nil|]. by rewrite IH.
Qed.

(** ** One field of the values of a map *)

Section Fields.
Context `{Countable K} {A B : Type} (f : A -> B).

(** In the order in which the map is walked. *)
Definition fields (m : gmap K A) : list B := (fun x => f x.2) <$> map_to_list m.

Lemma fields_insert m k a : m !! k = None -> fields (<[k := a]> m) ≡ₚ f a :: fields m.
Proof. intros N. unfold fields. by rewrite map_to_list_insert. Qed.

Lemma fields_delete m k a : m !! k = Some a -> fields m ≡ₚ f a :: fields (delete k m).
Proof. intros E. rewrite <- fields_insert by apply lookup_delete_eq. by rewrite insert_delete_id. Qed.

Lemma fields_update m k a b : m !! k = Some a -> f a = f b -> fields (<[k := b]> m) ≡ₚ fields m.
Proof.
  intros E F. rewrite (fields_delete m k a E), <- insert_delete_eq.
  rewrite fields_insert by apply lookup_delete_eq. by rewrite F.
Qed.

Lemma fields_length m : length (fields m) = size m.
Proof. unfold fields. rewrite length_fmap. apply length_map_to_list. Qed.

Lemma fields_elem m k a : m !! k = Some a -> f a ∈ fields m.
Proof. intros E. rewrite (fields_delete m k a E). apply elem_of_cons. by left. Qed.

Lemma fields_distinct m k1 k2 a1 a2 :
  NoDup (fields m) -> m !! k1 = Some a1 -> m !! k2 = Some a2 -> f a1 = f a2 -> k1 = k2.
Proof.
  intros D E1 E2 F. destruct (decide (k1 = k2)) as [|N]; [done|]. exfalso.
  rewrite (fields_delete _ _ _ E1) in D. apply NoDup_cons in D as [D _]. apply D. rewrite F.
  apply (fields_elem _ k2). by rewrite lookup_delete_ne.
Qed.

Lemma fields_split (P : K * A -> Prop) `{!forall x, Decision (P x)} m :
  fields m ≡ₚ fields (filter P m) ++ fields (filter (fun x => ~ P x) m).
Proof.
  induction m as [|h e m N IH] using map_ind; [done|].
  assert (forall Q `{!forall x, Decision (Q x)}, filter Q m !! h = None) as F
    by (intros; apply map_lookup_filter_None; auto).
  rewrite (fields_insert m h e N). destruct (decide (P (h, e))).
  - rewrite (map_filter_insert_True P), (map_filter_insert_not' (fun x => ~ P x)) by naive_solver.
    rewrite fields_insert by apply F. by rewrite IH.
  - rewrite (map_filter_insert_True (fun x => ~ P x)), (map_filter_insert_not' P) by naive_solver.
    rewrite fields_insert by apply F. rewrite IH. by rewrite Permutation_middle.
Qed.

End Fields.

(** An option that is known to hold something, by its content. *)
Lemma some_default {A} (x : A) (m : option A) : (match m with Some _ => true | None => false end) = true -> m = Some (default x m).
Proof. by destruct m. Qed.
