(* ===== verification/Floats.v ===== *)
(** * Floating point

    [double] is IEEE 754 binary64 as the Standard Library specifies it
    ([SpecFloat]: round to nearest, ties to even). The lemmas give the order of
    doubles and the one computation whose result is exact and needed: the quotient of an
    integer below 2^53 by 2^53. *)

From S2P Require Import Prelude.
From Stdlib Require Import ZArith Lia SpecFloat.

Open Scope Z_scope.

(** ** Doubles *)

Notation double := spec_float.

Definition dmul (x y : double) : double := SFmul 53 1024 x y.
Definition dadd (x y : double) : double := SFadd 53 1024 x y.
Definition ddiv (x y : double) : double := SFdiv 53 1024 x y.
(** Conversion of an integer. *)
Definition double_of (z : Z) : double := binary_normalize 53 1024 z 0 false.

Definition is_nan (x : double) : bool := match x with S754_nan => true | _ => false end.

(** [a > b]. *)
Definition dgt (a b : double) : bool := SFltb b a.

Lemma dgt_irrefl a : dgt a a = false.
Proof.
  unfold dgt, SFltb. destruct a as [s|s| |s m e]; simpl; try done; [by destruct s|].
  rewrite Z.compare_refl. change (Pos.compare_cont Eq m m) with (m ?= m)%positive.
  rewrite Pos.compare_refl. by destruct s.
Qed.

(** Compare two finite or infinite doubles as the case analysis of the specification does. *)
Ltac float_cases :=
  repeat match goal with
  | s : bool |- _ => destruct s
  | |- context [(?x ?= ?y)%Z] => destruct (Z.compare_spec x y); subst
  | H : context [(?x ?= ?y)%Z] |- _ => destruct (Z.compare_spec x y); subst
  | |- context [Pos.compare_cont Eq ?x ?y] =>
      change (Pos.compare_cont Eq x y) with (x ?= y)%positive; destruct (Pos.compare_spec x y); subst
  | H : context [Pos.compare_cont Eq ?x ?y] |- _ =>
      change (Pos.compare_cont Eq x y) with (x ?= y)%positive in H; destruct (Pos.compare_spec x y); subst
  end.

Lemma dgt_asym a b : dgt a b = true -> dgt b a = false.
Proof.
  unfold dgt, SFltb. destruct a, b; simpl; try done; float_cases; try done; try lia.
Qed.

(** "Not below" is transitive among numbers. *)
Lemma dge_trans a b c :
  is_nan b = false -> dgt b a = false -> dgt c b = false -> dgt c a = false.
Proof.
  unfold dgt, SFltb. destruct a, b, c; simpl; try done; float_cases; simpl; try done; try lia.
Qed.

(** ** Exact quotients *)

Lemma digits2_iter_xO m p : digits2_pos (Pos.iter xO m p) = (digits2_pos m + p)%positive.
Proof.
  induction p using Pos.peano_ind; [simpl; lia|]. rewrite Pos.iter_succ. simpl. rewrite IHp. lia.
Qed.

Lemma shr_1_xO m : shr_1 (Build_shr_record (Z.pos m~0) false false) = Build_shr_record (Z.pos m) false false.
Proof. done. Qed.

Lemma iter_pos_iter {A} (f : A -> A) p : forall x, iter_pos f p x = Pos.iter f x p.
Proof. induction p as [p IH|p IH|]; intros x; simpl; [| |done]; rewrite !IH, ?Pos.iter_swap; done. Qed.

Lemma iter_shr m p :
  iter_pos shr_1 p (Build_shr_record (Z.pos (Pos.iter xO m p)) false false) = Build_shr_record (Z.pos m) false false.
Proof.
  rewrite iter_pos_iter. revert m. induction p as [|p IH] using Pos.peano_ind; intros m; [done|].
  rewrite Pos.iter_succ_r, (Pos.iter_succ p _ xO), shr_1_xO. apply IH.
Qed.

(** A number that needs at most 53 digits is not rounded: [s] of its digits are zeros that
    are shifted out. *)
Lemma round_exact sx m (s : N) e :
  Z.pos (digits2_pos m) = 53 -> -1074 <= e + Z.of_N s <= 971 ->
  binary_round_aux 53 1024 sx (Z.pos (match s with N0 => m | Npos p => Pos.iter xO m p end)) e loc_Exact =
  S754_finite sx m (e + Z.of_N s).
Proof.
  intros D E. unfold binary_round_aux, shr_fexp.
  assert (Zdigits2 (Z.pos (match s with N0 => m | Npos p => Pos.iter xO m p end)) = 53 + Z.of_N s) as ->.
  { destruct s; simpl; [lia|]. rewrite digits2_iter_xO. lia. }
  replace (fexp 53 1024 (53 + Z.of_N s + e) - e) with (Z.of_N s) by (unfold fexp, emin; lia).
  assert (forall e', shr (shr_record_of_loc (Z.pos (match s with N0 => m | Npos p => Pos.iter xO m p end)) loc_Exact) e' (Z.of_N s)
          = (Build_shr_record (Z.pos m) false false, e' + Z.of_N s)) as ->.
  { intros e'. destruct s; simpl; [by rewrite Z.add_0_r|]. by rewrite iter_shr. }
  simpl. change (Z.pos (digits2_pos m)) with (Zdigits2 (Z.pos m)) in D.
  replace (fexp 53 1024 (Z.pos (digits2_pos m) + (e + Z.of_N s)) - (e + Z.of_N s)) with 0
    by (unfold fexp, emin; simpl in D; lia).
  simpl. destruct (Z.leb_spec (e + Z.of_N s) (1024 - 53)); [done|lia].
Qed.

(** The mantissa of [m], moved up to 53 digits. *)
Definition mant (m : positive) : positive :=
  match (53 - Z.pos (digits2_pos m))%Z with Z.pos p => Pos.iter xO m p | _ => m end.

Lemma digits_mant m : Z.pos (digits2_pos m) <= 53 -> Z.pos (digits2_pos (mant m)) = 53.
Proof.
  intros H. unfold mant. destruct (53 - Z.pos (digits2_pos m)) eqn:E; [lia| |lia].
  rewrite digits2_iter_xO. lia.
Qed.

Lemma double_of_exact m :
  Z.pos (digits2_pos m) <= 53 ->
  double_of (Z.pos m) = S754_finite false (mant m) (Z.pos (digits2_pos m) - 53).
Proof.
  intros H. unfold double_of, binary_normalize, binary_round, shl_align.
  rewrite Z.add_0_r. replace (fexp 53 1024 (Z.pos (digits2_pos m)) - 0) with (Z.pos (digits2_pos m) - 53)
    by (unfold fexp, emin; lia).
  pose proof (round_exact false (mant m) 0 (Z.pos (digits2_pos m) - 53) (digits_mant m H) ltac:(lia)) as R.
  rewrite Z.add_0_r in R. rewrite <- R. unfold mant.
  destruct (53 - Z.pos (digits2_pos m)) as [|p|p] eqn:E; try lia.
  - replace (Z.pos (digits2_pos m) - 53) with 0 by lia. done.
  - replace (Z.pos (digits2_pos m) - 53) with (Z.neg p) by lia.
    f_equal. unfold fexp, emin. lia.
Qed.

Lemma pair_div_mod a b q : 0 < b -> a = q * b -> Z.div_eucl a b = (q, 0).
Proof.
  intros Hb ->. pose proof (Z.div_mul q b ltac:(lia)) as D. pose proof (Z.mod_mul q b ltac:(lia)) as M.
  unfold Z.div, Z.modulo in D, M. destruct (Z.div_eucl (q * b) b). by subst.
Qed.

(** [h / 2^53] as a double has the digits of [h]. *)
Lemma unit_quotient m :
  Z.pos (digits2_pos m) <= 53 ->
  ddiv (double_of (Z.pos m)) (double_of (2 ^ 53)) = S754_finite false (mant m) (Z.pos (digits2_pos m) - 106).
Proof.
  intros H. rewrite double_of_exact by done.
  replace (double_of (2 ^ 53)) with (S754_finite false (2 ^ 52) 1) by (by vm_compute).
  unfold ddiv, SFdiv, SFdiv_core_binary. pose proof (digits_mant m H) as D.
  change (Zdigits2 (Z.pos (mant m))) with (Z.pos (digits2_pos (mant m))). rewrite D.
  change (Zdigits2 (Z.pos (2 ^ 52))) with 53.
  replace (Z.min (fexp 53 1024 (53 + (Z.pos (digits2_pos m) - 53) - (53 + 1))) (Z.pos (digits2_pos m) - 53 - 1))
    with (Z.pos (digits2_pos m) - 107) by (unfold fexp, emin; lia).
  replace (Z.pos (digits2_pos m) - 53 - 1 - (Z.pos (digits2_pos m) - 107)) with 53 by lia.
  assert (Z.div_eucl (Z.shiftl (Z.pos (mant m)) 53) (Z.pos (2 ^ 52)) = (Z.pos (mant m)~0, 0)) as ->.
  { rewrite Z.shiftl_mul_pow2 by lia. apply pair_div_mod; lia. }
  change (new_location (Z.pos (2 ^ 52)) 0) with loc_Exact. simpl xorb.
  pose proof (round_exact false (mant m) 1 (Z.pos (digits2_pos m) - 107) D ltac:(lia)) as R. simpl in R |- *.
  rewrite R. f_equal. lia.
Qed.

(** [x * 1.0]. *)
Lemma mul_one m : Z.pos (digits2_pos m) <= 53 ->
  dmul (S754_finite false (mant m) (Z.pos (digits2_pos m) - 106)) (double_of 1) =
  S754_finite false (mant m) (Z.pos (digits2_pos m) - 106).
Proof.
  intros H. replace (double_of 1) with (S754_finite false (2 ^ 52) (-52)) by (by vm_compute).
  unfold dmul, SFmul. simpl xorb.
  pose proof (round_exact false (mant m) 52 (Z.pos (digits2_pos m) - 106 - 52) (digits_mant m H) ltac:(lia)) as R.
  replace (mant m * 2 ^ 52)%positive with (Pos.iter xO (mant m) 52) by (simpl; lia).
  change (-52) with (- (52)). rewrite Z.add_opp_r. rewrite R. f_equal. lia.
Qed.

Lemma digits2_bounds m : 2 ^ (Z.pos (digits2_pos m) - 1) <= Z.pos m < 2 ^ Z.pos (digits2_pos m).
Proof.
  induction m as [m IH|m IH|]; simpl digits2_pos; rewrite ?Pos2Z.inj_succ; [| |done];
    replace (Z.succ (Z.pos (digits2_pos m)) - 1) with (Z.succ (Z.pos (digits2_pos m) - 1)) by lia;
    rewrite !Z.pow_succ_r by lia; lia.
Qed.

Lemma digits2_le m k : Z.pos m < 2 ^ k -> 0 <= k -> Z.pos (digits2_pos m) <= k.
Proof.
  intros H K. pose proof (digits2_bounds m) as [L _].
  destruct (Z.le_gt_cases (Z.pos (digits2_pos m)) k); [done|].
  pose proof (Z.pow_le_mono_r 2 k (Z.pos (digits2_pos m) - 1)). lia.
Qed.

Lemma iter_xO m p : Z.pos (Pos.iter xO m p) = Z.pos m * 2 ^ Z.pos p.
Proof.
  induction p as [|p IH] using Pos.peano_ind; [simpl; lia|].
  rewrite Pos.iter_succ, Pos2Z.inj_succ, Z.pow_succ_r by lia. lia.
Qed.

Lemma mant_val m : Z.pos (digits2_pos m) <= 53 -> Z.pos (mant m) = Z.pos m * 2 ^ (53 - Z.pos (digits2_pos m)).
Proof.
  intros H. unfold mant. destruct (53 - Z.pos (digits2_pos m)) eqn:E; [lia| |lia]. apply iter_xO.
Qed.

(** [(double) h / (double) 2^53 * 1.0]. *)
Definition unit_double (h : Z) : double := dmul (ddiv (double_of h) (double_of (2 ^ 53))) (double_of 1).

Lemma unit_double_pos m : Z.pos m < 2 ^ 53 ->
  unit_double (Z.pos m) = S754_finite false (mant m) (Z.pos (digits2_pos m) - 106).
Proof.
  intros H. pose proof (digits2_le m 53 H ltac:(lia)). unfold unit_double. by rewrite unit_quotient, mul_one.
Qed.

Lemma unit_double_nan h : 0 <= h < 2 ^ 53 -> is_nan (unit_double h) = false.
Proof. intros H. destruct h as [|m|m]; [done| |lia]. by rewrite unit_double_pos by lia. Qed.

(** The doubles are ordered as the integers. *)
Lemma unit_double_order a b : 0 <= a < 2 ^ 53 -> 0 <= b < 2 ^ 53 -> dgt (unit_double a) (unit_double b) = (b <? a).
Proof.
  intros Ha Hb. destruct a as [|a|a], b as [|b|b]; try lia; [done| | |].
  - by rewrite unit_double_pos by lia.
  - by rewrite unit_double_pos by lia.
  - rewrite !unit_double_pos by lia. unfold dgt, SFltb, SFcompare.
    pose proof (digits2_bounds a) as [La Ua]. pose proof (digits2_bounds b) as [Lb Ub].
    destruct (Z.compare_spec (Z.pos (digits2_pos b) - 106) (Z.pos (digits2_pos a) - 106)) as [E|E|E].
    + change (Pos.compare_cont Eq (mant b) (mant a)) with (mant b ?= mant a)%positive.
      pose proof (mant_val a (digits2_le a 53 ltac:(lia) ltac:(lia))) as Ma.
      pose proof (mant_val b (digits2_le b 53 ltac:(lia) ltac:(lia))) as Mb.
      replace (Z.pos (digits2_pos b)) with (Z.pos (digits2_pos a)) in Mb by lia.
      pose proof (Z.pow_pos_nonneg 2 (53 - Z.pos (digits2_pos a)) ltac:(lia)
        ltac:(pose proof (digits2_le a 53); lia)).
      destruct (Pos.compare_spec (mant b) (mant a)) as [F|F|F], (Z.ltb_spec (Z.pos b) (Z.pos a)); try done; nia.
    + pose proof (Z.pow_le_mono_r 2 (Z.pos (digits2_pos b)) (Z.pos (digits2_pos a) - 1)).
      destruct (Z.ltb_spec (Z.pos b) (Z.pos a)); [done|lia].
    + pose proof (Z.pow_le_mono_r 2 (Z.pos (digits2_pos a)) (Z.pos (digits2_pos b) - 1)).
      destruct (Z.ltb_spec (Z.pos b) (Z.pos a)); [lia|done].
Qed.
