(* ===== verification/Crc32.v ===== *)
(** * CRC-32 (IEEE 802.3)

    The checksum that frames every log record. The repository has it twice:
    bit by bit in [session/ordered_log_store.cpp] ([crc32_bitwise]), and with
    a 256-entry table in [persist/state_wal.cpp] and [prefix/art_wal.cpp]
    ([crc32_table]). [crc32_table_eq_bitwise] shows that the optimised routine
    computes the reference one on every input, so a log record's checksum does
    not depend on which copy wrote it. *)

From S2P Require Import Prelude.
From Stdlib Require Import ZArith Lia.

Open Scope Z_scope.

Module Crc.

Definition poly : Z := 0xEDB88320.
Definition ones32 : Z := 0xFFFFFFFF.

(** One bit: [c = (c >> 1) ^ (0xEDB88320u & (0u - (c & 1u)))]. *)
Definition crc_bit (c : Z) : Z :=
  Z.lxor (Z.shiftr c 1) (Z.land poly (u32 (0 - Z.land c 1))).

(** [for (int k = 0; k < 8; ++k)]. *)
Definition crc_byte (c : Z) : Z := Nat.iter 8 crc_bit c.

(** The body of the byte loop: [c ^= p[i]] and the eight bit steps. *)
Definition bit_step (c : Z) (b : byte) : Z := crc_byte (Z.lxor c (byte_val b)).

(** [uint32_t Crc32(const uint8_t* p, size_t n)] of ordered_log_store.cpp. *)
Definition crc32_bitwise (p : bytes) : Z :=
  Z.lxor (fold_left bit_step p ones32) ones32.

(** The static [table]: [table[i]] is eight bit steps of [i]. *)
Definition crc_table : list Z := (fun i => crc_byte (Z.of_nat i)) <$> seq 0 256.

(** [c = table[(c ^ p[i]) & 0xFF] ^ (c >> 8)]. *)
Definition table_step (c : Z) (b : byte) : Z :=
  Z.lxor (nth (Z.to_nat (Z.land (Z.lxor c (byte_val b)) 0xFF)) crc_table 0)
         (Z.shiftr c 8).

(** [uint32_t Crc32(const uint8_t* p, size_t n)] of state_wal.cpp and
    art_wal.cpp. *)
Definition crc32_table (p : bytes) : Z :=
  Z.lxor (fold_left table_step p ones32) ones32.

(** ** The bit step is linear over exclusive or *)

Lemma crc_bit_odd c :
  crc_bit c = Z.lxor (Z.shiftr c 1) (if Z.odd c then poly else 0).
Proof.
  unfold crc_bit. f_equal.
  change 1 with (Z.ones 1) at 1. rewrite Z.land_ones by lia. change (2 ^ 1) with 2.
  rewrite Zmod_odd. by destruct (Z.odd c).
Qed.

Lemma odd_lxor a b : Z.odd (Z.lxor a b) = xorb (Z.odd a) (Z.odd b).
Proof. rewrite <- !Z.bit0_odd. apply Z.lxor_spec. Qed.

Lemma crc_bit_lxor a b : crc_bit (Z.lxor a b) = Z.lxor (crc_bit a) (crc_bit b).
Proof.
  rewrite !crc_bit_odd, odd_lxor, Z.shiftr_lxor.
  apply Z.bits_inj'. intros i _. rewrite !Z.lxor_spec.
  destruct (Z.odd a), (Z.odd b); simpl; rewrite ?Z.bits_0;
    destruct (Z.testbit (Z.shiftr a 1) i), (Z.testbit (Z.shiftr b 1) i),
             (Z.testbit poly i); done.
Qed.

Lemma iter_crc_bit_lxor n a b :
  Nat.iter n crc_bit (Z.lxor a b) = Z.lxor (Nat.iter n crc_bit a) (Nat.iter n crc_bit b).
Proof. induction n as [|n IH]; simpl; [done|]. by rewrite IH, crc_bit_lxor. Qed.

(** While the low bits are zero, a bit step is a shift. *)
Lemma iter_crc_bit_shift n c :
  Nat.iter n crc_bit (Z.shiftl c (Z.of_nat n)) = c.
Proof.
  revert c. induction n as [|n IH]; intros c; [apply Z.shiftl_0_r|].
  replace (Z.of_nat (S n)) with (1 + Z.of_nat n) by lia.
  rewrite <- Z.shiftl_shiftl by lia.
  simpl. rewrite IH, crc_bit_odd.
  rewrite <- Z.bit0_odd, Z.shiftl_spec_low by lia.
  rewrite Z.lxor_0_r, Z.shiftr_shiftl_l by lia. apply Z.shiftl_0_r.
Qed.

Lemma split_low_byte c : c = Z.lxor (Z.land c 0xFF) (Z.shiftl (Z.shiftr c 8) 8).
Proof.
  apply Z.bits_inj'. intros i Hi. change 0xFF with (Z.ones 8).
  rewrite Z.lxor_spec, Z.land_spec, Z.shiftl_spec by lia.
  rewrite Z.testbit_ones_nonneg by lia.
  destruct (Z.ltb_spec i 8).
  - rewrite (Z.testbit_neg_r (Z.shiftr c 8)) by lia. by rewrite andb_true_r, xorb_false_r.
  - rewrite Z.shiftr_spec by lia. rewrite andb_false_r, xorb_false_l. f_equal. lia.
Qed.

Lemma crc_byte_split c :
  crc_byte c = Z.lxor (crc_byte (Z.land c 0xFF)) (Z.shiftr c 8).
Proof.
  unfold crc_byte. rewrite (split_low_byte c) at 1. rewrite iter_crc_bit_lxor.
  f_equal. apply (iter_crc_bit_shift 8).
Qed.

Lemma shiftr_byte_lxor c b : Z.shiftr (Z.lxor c (byte_val b)) 8 = Z.shiftr c 8.
Proof.
  rewrite Z.shiftr_lxor, (Z.shiftr_div_pow2 (byte_val b)) by lia.
  rewrite Z.div_small by apply byte_val_bound. apply Z.lxor_0_r.
Qed.

Lemma crc_table_lookup z :
  nth (Z.to_nat (Z.land z 0xFF)) crc_table 0 = crc_byte (Z.land z 0xFF).
Proof.
  assert (0 <= Z.land z 0xFF < 256) as H.
  { change 0xFF with (Z.ones 8). rewrite Z.land_ones by lia. apply Z.mod_pos_bound. lia. }
  unfold crc_table. rewrite <- (Z2Nat.id (Z.land z 0xFF)) at 2 by lia.
  set (n := Z.to_nat (Z.land z 0xFF)) in *.
  apply nth_lookup_Some. rewrite list_lookup_fmap, lookup_seq_lt by lia. done.
Qed.

Lemma table_step_eq c b : table_step c b = bit_step c b.
Proof.
  unfold table_step, bit_step.
  rewrite (crc_byte_split (Z.lxor c _)), crc_table_lookup, shiftr_byte_lxor. done.
Qed.

Lemma crc32_table_bitwise p : crc32_table p = crc32_bitwise p.
Proof.
  unfold crc32_table, crc32_bitwise. f_equal. apply fold_left_ext, table_step_eq.
Qed.

(** [C40] The table-driven CRC-32 of the write-ahead logs and the bit-by-bit
    CRC-32 of the ordered log store agree on every byte string. *)
Theorem crc32_table_eq_bitwise p : crc32_table p = crc32_bitwise p.
Proof. apply crc32_table_bitwise. Qed.

(** ** Width: the checksum is a 32-bit value *)

Lemma lxor_bound32 a b :
  0 <= a < 2 ^ 32 -> 0 <= b < 2 ^ 32 -> 0 <= Z.lxor a b < 2 ^ 32.
Proof.
  intros Ha Hb.
  assert (0 <= Z.lxor a b) by (apply Z.lxor_nonneg; lia).
  split; [done|]. destruct (Z.eq_dec (Z.lxor a b) 0) as [->|Hne]; [lia|].
  apply Z.log2_lt_pow2; [lia|].
  eapply Z.le_lt_trans; [apply Z.log2_lxor; lia|].
  apply Z.max_lub_lt;
    [destruct (Z.eq_dec a 0) as [->|]|destruct (Z.eq_dec b 0) as [->|]];
    try (simpl; lia); apply Z.log2_lt_pow2; lia.
Qed.

Lemma crc_bit_bound c : 0 <= c < 2 ^ 32 -> 0 <= crc_bit c < 2 ^ 32.
Proof.
  intros H. rewrite crc_bit_odd. apply lxor_bound32.
  - rewrite Z.shiftr_div_pow2 by lia. split; [apply Z.div_pos; lia|].
    apply Z.div_lt_upper_bound; lia.
  - unfold poly. destruct (Z.odd c); lia.
Qed.

Lemma crc_byte_bound c : 0 <= c < 2 ^ 32 -> 0 <= crc_byte c < 2 ^ 32.
Proof.
  intros H. unfold crc_byte.
  apply (iter_inv (fun c => 0 <= c < 2 ^ 32)); [apply crc_bit_bound|done].
Qed.
#[global] Opaque crc_byte crc_table.

Lemma bit_step_bound c b : 0 <= c < 2 ^ 32 -> 0 <= bit_step c b < 2 ^ 32.
Proof.
  intros H. unfold bit_step. apply crc_byte_bound, lxor_bound32; [done|].
  pose proof (byte_val_bound b). lia.
Qed.

Lemma crc32_bitwise_bound p : 0 <= crc32_bitwise p < 2 ^ 32.
Proof.
  unfold crc32_bitwise. apply lxor_bound32; [|unfold ones32; lia].
  apply (fold_left_inv (fun c => 0 <= c < 2 ^ 32));
    [apply bit_step_bound|unfold ones32; lia].
Qed.

Lemma crc32_table_bound p : 0 <= crc32_table p < 2 ^ 32.
Proof. rewrite crc32_table_bitwise. apply crc32_bitwise_bound. Qed.

(** The standard check value of CRC-32/IEEE, of the string "123456789". *)
Example crc32_check :
  crc32_bitwise (map byte_of [49; 50; 51; 52; 53; 54; 55; 56; 57]) = 0xCBF43926.
Proof. vm_compute. reflexivity. Qed.

End Crc.
