(* ===== verification/OrderedMap.v ===== *)
(** * [std::map<std::string, std::string>]

    The live map of [OrderedLogStore] is a [std::map] from byte strings to
    byte strings, and its scans walk the map's iterators in key order. The
    model is an association list in strictly increasing key order; an
    iterator is an index into it ([end()] is the length). [sorted] is the
    container's invariant, kept by every operation, and
    [sorted_ext] makes the representation canonical: two maps with the same
    lookups are equal. *)

From S2P Require Import Prelude.
From Stdlib Require Import ZArith Lia Sorting.Sorted.

Open Scope Z_scope.

Module OMap.

Notation entry := (bytes * bytes)%type.
Notation omap := (list (bytes * bytes)).

Definition key_lt (a b : entry) : Prop := blt a.1 b.1 = true.
Definition sorted (m : omap) : Prop := StronglySorted key_lt m.

(** [map_.find(k)]. *)
Fixpoint find (k : bytes) (m : omap) : option bytes :=
  match m with
  | [] => None
  | (k', v) :: r =>
      match bcmp k k' with
      | Eq => Some v
      | Lt => None
      | Gt => find k r
      end
  end.

(** [map_.emplace(k, v)] on an absent key, [it->second = v] on a present one. *)
Fixpoint insert (k v : bytes) (m : omap) : omap :=
  match m with
  | [] => [(k, v)]
  | (k', v') :: r =>
      match bcmp k k' with
      | Eq => (k', v) :: r
      | Lt => (k, v) :: m
      | Gt => (k', v') :: insert k v r
      end
  end.

(** [map_.erase(it)] for [it = map_.find(k)]. *)
Fixpoint erase (k : bytes) (m : omap) : omap :=
  match m with
  | [] => []
  | (k', v') :: r =>
      match bcmp k k' with
      | Eq => r
      | Lt => m
      | Gt => (k', v') :: erase k r
      end
  end.

(** Length of the longest prefix of [l] whose elements satisfy [P]. *)
Fixpoint count_while {A} (P : A -> bool) (l : list A) : nat :=
  match l with
  | [] => 0
  | x :: r => if P x then S (count_while P r) else 0
  end.

(** [map_.lower_bound(k)]: the first entry whose key is not below [k]. *)
Definition lower_bound (k : bytes) (m : omap) : nat :=
  count_while (fun kv => blt kv.1 k) m.

(** [map_.upper_bound(k)]: the first entry whose key is above [k]. *)
Definition upper_bound (k : bytes) (m : omap) : nat :=
  count_while (fun kv => ble kv.1 k) m.

(** Bytes of an entry, and of a whole map. *)
Definition entry_bytes (kv : entry) : Z := zlen kv.1 + zlen kv.2.
Definition live_size (m : omap) : Z := foldr (fun kv n => entry_bytes kv + n) 0 m.

(** ** Order facts *)

Lemma bcmp_lt_blt a b : bcmp a b = Lt <-> blt a b = true.
Proof. unfold blt. by destruct (bcmp a b). Qed.

Lemma bcmp_gt_blt a b : bcmp a b = Gt <-> blt b a = true.
Proof. unfold blt. rewrite (bcmp_antisym a b). by destruct (bcmp a b). Qed.

Lemma sorted_nil : sorted [].
Proof. constructor. Qed.

Lemma sorted_cons kv m :
  sorted (kv :: m) <-> sorted m /\ Forall (key_lt kv) m.
Proof.
  split; [by apply StronglySorted_inv|]. intros [??]. by constructor.
Qed.

Lemma sorted_app_inv m1 m2 :
  sorted (m1 ++ m2) ->
  sorted m1 /\ sorted m2 /\ Forall (fun a => Forall (key_lt a) m2) m1.
Proof.
  induction m1 as [|a m1 IH]; simpl; [intros H; split_and!; try done; constructor|].
  rewrite !sorted_cons, Forall_app. intros [H [? ?]]. destruct (IH H) as (?&?&?).
  split_and!; try done. by constructor.
Qed.

Lemma key_lt_weaken k k' v v' r :
  blt k k' = true -> Forall (key_lt (k', v')) r -> Forall (key_lt (k, v)) r.
Proof.
  intros H Hr. eapply Forall_impl; [exact Hr|]. intros a Ha. by eapply blt_trans.
Qed.

Lemma find_below k m : Forall (fun kv => blt k kv.1 = true) m -> find k m = None.
Proof.
  destruct m as [|[k' v'] r]; [done|]. intros H. inversion H; subst; simpl in *.
  apply bcmp_lt_blt in H2. by rewrite H2.
Qed.

Lemma find_insert_eq k v m : find k (insert k v m) = Some v.
Proof.
  induction m as [|[k' v'] r IH]; simpl; [by rewrite bcmp_refl|].
  destruct (bcmp k k') eqn:E; simpl; by rewrite ?E, ?bcmp_refl.
Qed.

Lemma find_insert_ne k k' v m :
  k <> k' -> find k' (insert k v m) = find k' m.
Proof.
  intros Hne. induction m as [|[k1 v1] r IH]; simpl.
  - destruct (bcmp k' k) eqn:E; [|done..]. apply bcmp_eq in E. by subst.
  - destruct (bcmp k k1) eqn:E; simpl.
    + apply bcmp_eq in E. subst. destruct (bcmp k' k1) eqn:F; try done.
      apply bcmp_eq in F. by subst.
    + destruct (bcmp k' k) eqn:F; [apply bcmp_eq in F; by subst| |done].
      assert (bcmp k' k1 = Lt) as ->; [|done].
      apply bcmp_lt_blt. apply bcmp_lt_blt in E, F. by eapply blt_trans.
    + by rewrite IH.
Qed.

Lemma Forall_insert (P : bytes -> Prop) k v m :
  P k -> Forall (fun kv => P kv.1) m -> Forall (fun kv => P kv.1) (insert k v m).
Proof.
  intros Hk. induction m as [|[k' v'] r IH]; simpl; intros H.
  - by repeat constructor.
  - inversion H; subst. destruct (bcmp k k'); repeat constructor; auto.
Qed.

Lemma Forall_erase (P : entry -> Prop) k m : Forall P m -> Forall P (erase k m).
Proof.
  induction m as [|[k' v'] r IH]; simpl; intros H; [done|].
  inversion H; subst. destruct (bcmp k k'); auto.
Qed.

Lemma sorted_insert k v m : sorted m -> sorted (insert k v m).
Proof.
  induction m as [|[k' v'] r IH]; simpl; intros H; [repeat constructor|].
  apply sorted_cons in H as [Hr Hk]. destruct (bcmp k k') eqn:E.
  - apply bcmp_eq in E. subst. by apply sorted_cons.
  - apply bcmp_lt_blt in E. apply sorted_cons. split; [by apply sorted_cons|].
    constructor; [done|]. by eapply key_lt_weaken.
  - apply bcmp_gt_blt in E. apply sorted_cons. split; [by apply IH|].
    by apply (Forall_insert (fun x => blt k' x = true)).
Qed.

Lemma sorted_erase k m : sorted m -> sorted (erase k m).
Proof.
  induction m as [|[k' v'] r IH]; simpl; intros H; [done|].
  pose proof H as H'. apply sorted_cons in H as [Hr Hk]. destruct (bcmp k k').
  - done.
  - done.
  - apply sorted_cons. split; [by apply IH|by apply Forall_erase].
Qed.

Lemma find_erase_eq k m : sorted m -> find k (erase k m) = None.
Proof.
  induction m as [|[k' v'] r IH]; simpl; intros H; [done|].
  apply sorted_cons in H as [Hr Hk]. destruct (bcmp k k') eqn:E; simpl.
  - apply bcmp_eq in E. subst. by apply find_below.
  - by rewrite E.
  - rewrite E. by apply IH.
Qed.

Lemma find_erase_ne k k' m : sorted m -> k <> k' -> find k' (erase k m) = find k' m.
Proof.
  intros Hs Hne. induction m as [|[k1 v1] r IH]; simpl; [done|].
  apply sorted_cons in Hs as [Hr Hk]. destruct (bcmp k k1) eqn:E; simpl; [|done|].
  - apply bcmp_eq in E. subst k1. destruct (bcmp k' k) eqn:F; [|..|done].
    + apply bcmp_eq in F. by subst.
    + apply find_below. apply bcmp_lt_blt in F. by apply (key_lt_weaken k' k v1 v1).
  - by rewrite IH.
Qed.

Lemma elem_of_find k v m : sorted m -> (k, v) ∈ m <-> find k m = Some v.
Proof.
  induction m as [|[k' v'] r IH]; simpl; intros H; [set_solver|].
  apply sorted_cons in H as [Hr Hk]. rewrite elem_of_cons, IH by done.
  rewrite Forall_forall in Hk. split.
  - intros [[= -> ->]|Hf]; [by rewrite bcmp_refl|].
    apply IH in Hf as Hin; [|done]. apply Hk in Hin. simpl in Hin.
    assert (bcmp k k' = Gt) as -> by (by apply bcmp_gt_blt). done.
  - destruct (bcmp k k') eqn:E; [|done|by right].
    intros [= ->]. apply bcmp_eq in E. subst. by left.
Qed.

Lemma sorted_ext m1 m2 :
  sorted m1 -> sorted m2 -> (forall k, find k m1 = find k m2) -> m1 = m2.
Proof.
  revert m2. induction m1 as [|[k v] r IH]; intros m2 H1 H2 Hf.
  - destruct m2 as [|[k' v'] r']; [done|].
    specialize (Hf k'). simpl in Hf. by rewrite bcmp_refl in Hf.
  - destruct m2 as [|[k' v'] r'].
    { specialize (Hf k). simpl in Hf. by rewrite bcmp_refl in Hf. }
    pose proof (Hf k) as Hk. pose proof (Hf k') as Hk'. simpl in Hk, Hk'.
    rewrite bcmp_refl in Hk, Hk'. rewrite (bcmp_antisym k k') in Hk'.
    apply sorted_cons in H1 as [H1 Ha]. apply sorted_cons in H2 as [H2 Hb].
    destruct (bcmp k k') eqn:E; simpl in *; try done.
    apply bcmp_eq in E. injection Hk as ->. subst k'. f_equal.
    apply IH; [done..|]. intros x. specialize (Hf x). simpl in Hf.
    destruct (bcmp x k) eqn:F; [|..|done].
    + apply bcmp_eq in F. subst x. by rewrite !find_below.
    + apply bcmp_lt_blt in F.
      rewrite !find_below; [done|by apply (key_lt_weaken x k v' v')..].
Qed.

(** ** Size accounting *)

Lemma live_size_nonneg m : 0 <= live_size m.
Proof. induction m as [|kv m IH]; simpl; unfold entry_bytes in *; lia. Qed.

Lemma live_size_app m1 m2 : live_size (m1 ++ m2) = live_size m1 + live_size m2.
Proof. induction m1 as [|kv m IH]; simpl; lia. Qed.

Lemma live_size_insert k v m :
  sorted m ->
  live_size (insert k v m) =
  live_size m + zlen k + zlen v
  - match find k m with Some v' => zlen k + zlen v' | None => 0 end.
Proof.
  induction m as [|[k' v'] r IH]; simpl; intros H; unfold entry_bytes; simpl; [lia|].
  apply sorted_cons in H as [Hr Hk]. destruct (bcmp k k') eqn:E; simpl; unfold entry_bytes; simpl.
  - apply bcmp_eq in E. subst. lia.
  - lia.
  - rewrite IH by done. destruct (find k r); lia.
Qed.

Lemma live_size_erase k m :
  sorted m ->
  live_size (erase k m) =
  live_size m - match find k m with Some v' => zlen k + zlen v' | None => 0 end.
Proof.
  induction m as [|[k' v'] r IH]; simpl; intros H; unfold entry_bytes; simpl; [lia|].
  apply sorted_cons in H as [Hr Hk]. destruct (bcmp k k') eqn:E; simpl; unfold entry_bytes; simpl.
  - apply bcmp_eq in E. subst. lia.
  - lia.
  - rewrite IH by done. destruct (find k r); lia.
Qed.

(** ** Bounds *)

Lemma count_while_le {A} (P : A -> bool) l : (count_while P l <= length l)%nat.
Proof. induction l as [|x l IH]; simpl; [lia|]. destruct (P x); lia. Qed.

Lemma count_while_take {A} (P : A -> bool) l :
  Forall (fun x => P x = true) (take (count_while P l) l).
Proof.
  induction l as [|x l IH]; simpl; [done|]. destruct (P x) eqn:E; simpl; by constructor.
Qed.

Lemma count_while_stop {A} (P : A -> bool) l x r :
  drop (count_while P l) l = x :: r -> P x = false.
Proof.
  induction l as [|y l IH]; simpl; [done|]. destruct (P y) eqn:E; simpl; [done|].
  by intros [= -> ->].
Qed.

Lemma sorted_drop n m : sorted m -> sorted (drop n m).
Proof.
  rewrite <- (take_drop n m) at 1. intros H. by apply sorted_app_inv in H as (_&?&_).
Qed.

Lemma sorted_take n m : sorted m -> sorted (take n m).
Proof.
  rewrite <- (take_drop n m) at 1. intros H. by apply sorted_app_inv in H as (?&_&_).
Qed.

(** On a sorted list the entries from the stop position on fail a predicate
    that is downward closed in the key. *)
Lemma count_while_drop (P : bytes -> bool) m :
  (forall a b, blt a b = true -> P b = true -> P a = true) ->
  sorted m ->
  Forall (fun kv => P kv.1 = false) (drop (count_while (fun kv => P kv.1) m) m).
Proof.
  intros HP Hs. apply (sorted_drop (count_while (fun kv => P kv.1) m)) in Hs.
  destruct (drop _ m) as [|x r] eqn:E; [done|].
  pose proof (count_while_stop _ _ _ _ E) as Hx. simpl in Hx.
  apply sorted_cons in Hs as [_ Hr]. constructor; [done|].
  eapply Forall_impl; [exact Hr|]. intros y Hy. simpl.
  destruct (P y.1) eqn:F; [|done]. by rewrite (HP _ _ Hy F) in Hx.
Qed.

Lemma lower_bound_take k m :
  Forall (fun kv => blt kv.1 k = true) (take (lower_bound k m) m).
Proof. apply (count_while_take (fun kv => blt kv.1 k)). Qed.

Lemma lower_bound_drop k m :
  sorted m -> Forall (fun kv => ble k kv.1 = true) (drop (lower_bound k m) m).
Proof.
  intros Hs. eapply Forall_impl; [|].
  - apply (count_while_drop (fun x => blt x k)); [|done]. intros a b. apply blt_trans.
  - intros x Hx. simpl in Hx. unfold ble. by rewrite Hx.
Qed.

Lemma upper_bound_take k m :
  Forall (fun kv => ble kv.1 k = true) (take (upper_bound k m) m).
Proof. apply (count_while_take (fun kv => ble kv.1 k)). Qed.

Lemma upper_bound_drop k m :
  sorted m -> Forall (fun kv => blt k kv.1 = true) (drop (upper_bound k m) m).
Proof.
  intros Hs. eapply Forall_impl; [|].
  - apply (count_while_drop (fun x => ble x k)); [|done].
    intros a b Hab Hb. apply ble_cases. left. by eapply blt_ble_trans.
  - intros x Hx. simpl in Hx. unfold ble in Hx. by destruct (blt k x.1).
Qed.

#[export] Hint Resolve sorted_nil sorted_insert sorted_erase : store.

End OMap.
