(* ===== verification/LogCodec.v ===== *)
(** * Record codec of the ordered log

    [session/ordered_log_store.cpp]: the on-disk record of one batch,
    [EncodeRecord], and its reader [DecodeBody]. A record is

<<
      record_len u32 | n u32 | n x (op u8, klen u32, key, vlen u32, value) | crc32 u32
>>

    with little-endian integers and the CRC over everything between the two
    outer fields. [decode_encode_body] is the round trip; [encodable] is the
    bound under which it holds, that the record's length fits the [u32]
    length field, and [wrapped_record_len] shows what the code writes beyond
    it: a length field that no longer covers the record. *)

From S2P Require Import Prelude Crc32.
From Stdlib Require Import ZArith Lia.

Open Scope Z_scope.

Module Log.

Inductive Op := kPut | kDel.

Record Mutation := mkMut { op : Op; key : bytes; value : bytes }.

#[global] Instance op_eq_dec : EqDecision Op.
Proof. solve_decision. Defined.
#[global] Instance mutation_eq_dec : EqDecision Mutation.
Proof. solve_decision. Defined.

Definition op_code (o : Op) : Z := match o with kPut => 1 | kDel => 2 end.

Definition PutU32 (v : Z) : bytes := put_le 4 v.
Definition GetU32 (p : bytes) : Z := get_u32 p.

(** The value bytes a mutation carries on the wire. *)
Definition wire_value (m : Mutation) : bytes :=
  match op m with kPut => value m | kDel => [] end.

(** One mutation of [EncodeRecord]'s loop body. *)
Definition encode_mutation (m : Mutation) : bytes :=
  [byte_of (op_code (op m))] ++ PutU32 (zlen (key m)) ++ key m ++
  PutU32 (zlen (wire_value m)) ++ wire_value m.

(** The bytes the CRC covers: the count and the mutations. *)
Definition encode_body (batch : list Mutation) : bytes :=
  PutU32 (zlen batch) ++ concat (encode_mutation <$> batch).

(** [std::string EncodeRecord(const std::vector<Mutation>& batch)]: the
    length is patched in at the end, truncated to 32 bits. *)
Definition EncodeRecord (batch : list Mutation) : bytes :=
  let body := encode_body batch in
  let tail := body ++ PutU32 (Crc.crc32_bitwise body) in
  PutU32 (4 + zlen tail) ++ tail.

(** One iteration of [DecodeBody]'s loop, on the bytes from [off] on; [None]
    is [return false]. *)
Definition decode_mutation (p : bytes) : option (Mutation * bytes) :=
  if zlen p <? 1 + 4 then None
  else
    match p with
    | [] => None
    | b :: p1 =>
        let o := byte_val b in
        if negb ((o =? 1) || (o =? 2)) then None
        else
          let klen := GetU32 p1 in
          let p2 := drop 4 p1 in
          if (zlen p2 <? klen) || (zlen p2 - klen <? 4) then None
          else
            let k := take (Z.to_nat klen) p2 in
            let p3 := drop (Z.to_nat klen) p2 in
            let vlen := GetU32 p3 in
            let p4 := drop 4 p3 in
            if zlen p4 <? vlen then None
            else
              Some (mkMut (if o =? 1 then kPut else kDel) k (take (Z.to_nat vlen) p4),
                    drop (Z.to_nat vlen) p4)
    end.

(** [for (uint32_t i = 0; i < count; ++i)], every iteration of which consumes
    at least nine bytes; the fuel bounds the iterations by the bytes left. *)
Fixpoint decode_mutations (fuel : nat) (count : Z) (p : bytes) :
    option (list Mutation * bytes) :=
  if count =? 0 then Some ([], p)
  else
    match fuel with
    | O => None
    | S fuel =>
        match decode_mutation p with
        | None => None
        | Some (m, p') =>
            match decode_mutations fuel (count - 1) p' with
            | None => None
            | Some (ms, r) => Some (m :: ms, r)
            end
        end
    end.

(** [bool DecodeBody(const uint8_t* p, size_t n, std::vector<Mutation>* out)]. *)
Definition DecodeBody (p : bytes) : option (list Mutation) :=
  if zlen p <? 4 then None
  else
    let count := GetU32 p in
    match decode_mutations (length p) count (drop 4 p) with
    | Some (ms, []) => Some ms
    | _ => None
    end.

#[global] Arguments EncodeRecord : simpl never.
#[global] Arguments encode_body : simpl never.
#[global] Arguments encode_mutation : simpl never.
#[global] Arguments PutU32 : simpl never.
#[global] Arguments GetU32 : simpl never.

(** ** Round trip *)

(** What survives the wire: a delete carries no value. *)
Definition wire (m : Mutation) : Mutation := mkMut (op m) (key m) (wire_value m).

(** The record's length fits its [u32] length field. *)
Definition encodable (batch : list Mutation) : Prop := zlen (EncodeRecord batch) < 2 ^ 32.

#[global] Instance encodable_dec batch : Decision (encodable batch).
Proof. unfold encodable. apply _. Defined.

Lemma length_encode_mutation m :
  zlen (encode_mutation m) = 9 + zlen (key m) + zlen (wire_value m).
Proof. unfold encode_mutation, PutU32. len_simpl. lia. Qed.

Lemma length_EncodeRecord batch :
  zlen (EncodeRecord batch) = 8 + zlen (encode_body batch).
Proof. unfold EncodeRecord, PutU32. cbv zeta. len_simpl. lia. Qed.

Lemma length_encode_body batch :
  zlen (encode_body batch) = 4 + zlen (concat (encode_mutation <$> batch)).
Proof. unfold encode_body, PutU32. len_simpl. lia. Qed.

Lemma length_EncodeRecord_ge batch : 12 <= zlen (EncodeRecord batch).
Proof. rewrite length_EncodeRecord, length_encode_body. lia. Qed.

Lemma concat_encode_cons m batch :
  concat (encode_mutation <$> (m :: batch)) =
  encode_mutation m ++ concat (encode_mutation <$> batch).
Proof. done. Qed.

Lemma concat_encode_ge batch : 9 * zlen batch <= zlen (concat (encode_mutation <$> batch)).
Proof.
  induction batch as [|m batch IH]; [simpl; lia|].
  rewrite concat_encode_cons. len_simpl. pose proof (length_encode_mutation m). lia.
Qed.

Lemma encodable_cons_lengths m batch :
  zlen (concat (encode_mutation <$> (m :: batch))) < 2 ^ 32 ->
  zlen (key m) < 2 ^ 32 /\ zlen (wire_value m) < 2 ^ 32 /\
  zlen (concat (encode_mutation <$> batch)) < 2 ^ 32.
Proof.
  rewrite concat_encode_cons. len_simpl. pose proof (length_encode_mutation m). lia.
Qed.

Lemma decode_encode_mutation m r :
  zlen (key m) < 2 ^ 32 -> zlen (wire_value m) < 2 ^ 32 ->
  decode_mutation (encode_mutation m ++ r) = Some (wire m, r).
Proof.
  intros Hk Hv. unfold decode_mutation.
  replace (zlen (encode_mutation m ++ r) <? 1 + 4) with false
    by (symmetry; apply Z.ltb_ge; len_simpl; pose proof (length_encode_mutation m); lia).
  unfold encode_mutation, PutU32, GetU32. rewrite <- !app_assoc.
  cbn [app]. cbv beta iota zeta.
  rewrite byte_val_of, get_u32_put, drop_put_le_app by lia.
  replace (negb _) with false by (by destruct (op m)).
  rewrite (take_zlen_app (key m)), (drop_zlen_app (key m)) by done.
  rewrite get_u32_put, drop_put_le_app by lia.
  rewrite (take_zlen_app (wire_value m)), (drop_zlen_app (wire_value m)) by done.
  replace ((zlen (key m ++ _) <? zlen (key m)) || _) with false
    by (symmetry; apply orb_false_iff; split; apply Z.ltb_ge; len_simpl; lia).
  replace (zlen (wire_value m ++ r) <? zlen (wire_value m)) with false
    by (symmetry; apply Z.ltb_ge; len_simpl; lia).
  unfold wire. by destruct (op m).
Qed.

Lemma decode_encode_mutations batch fuel r :
  (length batch <= fuel)%nat ->
  zlen (concat (encode_mutation <$> batch)) < 2 ^ 32 ->
  decode_mutations fuel (zlen batch) (concat (encode_mutation <$> batch) ++ r)
  = Some (wire <$> batch, r).
Proof.
  revert fuel. induction batch as [|m batch IH]; intros fuel Hf Hl.
  - destruct fuel; done.
  - destruct fuel as [|fuel]; [simpl in Hf; lia|].
    destruct (encodable_cons_lengths _ _ Hl) as (Hk & Hv & Hr).
    rewrite concat_encode_cons, <- app_assoc. cbn [decode_mutations].
    replace (zlen (m :: batch) =? 0) with false by (symmetry; apply Z.eqb_neq; simpl; lia).
    rewrite decode_encode_mutation by done.
    replace (zlen (m :: batch) - 1) with (zlen batch) by (simpl; lia).
    simpl in Hf. rewrite IH by (done || lia). done.
Qed.

(** [DecodeBody] reads back what [EncodeRecord] wrote between the length and
    the checksum. *)
Lemma decode_encode_body batch :
  encodable batch -> DecodeBody (encode_body batch) = Some (wire <$> batch).
Proof.
  intros He. unfold encodable in He. rewrite length_EncodeRecord, length_encode_body in He.
  pose proof (concat_encode_ge batch) as Hn.
  unfold DecodeBody.
  replace (zlen (encode_body batch) <? 4) with false
    by (symmetry; apply Z.ltb_ge; rewrite length_encode_body; lia).
  unfold encode_body at 2 3, GetU32, PutU32. rewrite get_u32_put, drop_put_le_app by lia.
  rewrite <- (app_nil_r (concat _)).
  rewrite decode_encode_mutations; [done|..|lia].
  pose proof (length_encode_body batch). lia.
Qed.

(** ** Reading a frame back: length, checksum, body *)

Lemma frame_length batch r :
  encodable batch -> GetU32 (EncodeRecord batch ++ r) = zlen (EncodeRecord batch).
Proof.
  intros He. pose proof (length_EncodeRecord batch) as HL. unfold encodable in He.
  unfold EncodeRecord at 1, GetU32. cbv zeta. unfold PutU32 at 1.
  rewrite <- app_assoc, get_u32_put; [|]; unfold PutU32; len_simpl; lia.
Qed.

(** The count field follows the length. *)
Lemma frame_body_count batch r :
  GetU32 (drop 4 (EncodeRecord batch ++ r)) = u32 (zlen batch).
Proof.
  unfold EncodeRecord, encode_body, GetU32, get_u32. cbv zeta. unfold PutU32 at 1.
  rewrite <- app_assoc, drop_put_le_app. unfold PutU32 at 1.
  by rewrite <- !app_assoc, take_put_le_app, get_put_le.
Qed.

(** Beyond the bound the length field wraps. *)
Lemma wrapped_record_len batch r :
  GetU32 (EncodeRecord batch ++ r) = u32 (zlen (EncodeRecord batch)).
Proof.
  pose proof (length_EncodeRecord batch) as HL.
  unfold EncodeRecord at 1, GetU32, get_u32. cbv zeta. unfold PutU32 at 1.
  rewrite <- app_assoc, take_put_le_app, get_put_le. unfold u32.
  change (256 ^ Z.of_nat 4) with (2 ^ 32). f_equal. unfold PutU32. len_simpl. lia.
Qed.

Lemma frame_body batch :
  take (length (encode_body batch)) (drop 4 (EncodeRecord batch)) = encode_body batch.
Proof.
  unfold EncodeRecord. cbv zeta. unfold PutU32 at 1. rewrite drop_put_le_app.
  apply take_app_length.
Qed.

Lemma frame_crc batch r :
  GetU32 (drop (4 + length (encode_body batch)) (EncodeRecord batch ++ r)) =
  Crc.crc32_bitwise (encode_body batch).
Proof.
  unfold EncodeRecord. cbv zeta. unfold PutU32 at 1.
  rewrite <- !app_assoc, <- drop_drop, drop_put_le_app, drop_app_length.
  apply get_u32_put, Crc.crc32_bitwise_bound.
Qed.

#[global] Opaque EncodeRecord encode_body encode_mutation PutU32.

End Log.
