(* ===== verification/LogStore.v ===== *)
(** * OrderedLogStore: the durable ordered key space

    [session/ordered_log_store.h] and [.cpp]. The store is a [std::map] in
    memory (OrderedMap) and an append-only log file whose records are batches
    (LogCodec). The file is a byte list with a position, the way a descriptor
    opened [O_RDWR] behaves, and every system call that can fail is driven by
    an explicit script of outcomes: short writes, [EINTR], failing writes,
    [fsync], [ftruncate], [rename]. An exhausted script means the call
    succeeds in full. What the code ignores ([lseek] after a successful
    [ftruncate], [fsync] of the parent directory) is taken to succeed. *)

From S2P Require Import Prelude Crc32 OrderedMap LogCodec.
From Stdlib Require Import ZArith Lia.

Import OMap Log.
Open Scope Z_scope.

Module LogStore.

(** ** Files and system calls *)

Record file := mkFile { content : bytes; pos : nat }.

(** [write(2)] of all of [d] at the current position. *)
Definition fwrite (f : file) (d : bytes) : file :=
  mkFile (take (pos f) (content f) ++ replicate (pos f - length (content f)) x00 ++
          d ++ drop (pos f + length d) (content f))
         (pos f + length d).

Definition ftruncate (n : nat) (f : file) : file :=
  mkFile (take n (content f) ++ replicate (n - length (content f)) x00) (pos f).

Definition lseek (n : nat) (f : file) : file := mkFile (content f) n.

(** Outcome of one [write(2)] and of one [pread(2)]. *)
Inductive wres := WOk (w : nat) | WEintr | WErr.
Inductive rres := ROk (n : nat) | REintr | RErr.

(** [bool WriteAll(int fd, const char* p, size_t n, std::string* err)]. *)
Fixpoint WriteAll (ws : list wres) (f : file) (p : bytes) : file * bool * list wres :=
  match p with
  | [] => (f, true, ws)
  | _ =>
      match ws with
      | [] => (fwrite f p, true, [])
      | WEintr :: ws => WriteAll ws f p
      | WErr :: ws => (f, false, ws)
      | WOk w :: ws => WriteAll ws (fwrite f (take w p)) (drop w p)
      end
  end.

(** ** State *)

Record Store := mkStore {
  map_ : omap;
  fd_ : option file;          (* None: fd_ < 0, the store lives in memory only *)
  log_bytes_ : nat;
  live_bytes_ : Z;
  compact_min_bytes_ : Z
}.

(** System-call outcomes of one append and of one compaction. *)
Record append_io := mkAppendIo {
  a_writes : list wres; a_fsync : bool; a_ftruncate : bool }.
Record compact_io := mkCompactIo {
  c_open : bool; c_flock : bool; c_writes : list wres; c_fsync : bool; c_rename : bool }.

(** ** Operations *)

(** One iteration of [ApplyToMapLocked], on the map and [live_bytes_]. *)
Definition apply_mutation (st : omap * Z) (m : Mutation) : omap * Z :=
  let '(mp, live) := st in
  match find (key m) mp with
  | Some old =>
      let live := live - (zlen (key m) + zlen old) in
      match op m with
      | kDel => (erase (key m) mp, live)
      | kPut => (insert (key m) (value m) mp, live + (zlen (key m) + zlen (value m)))
      end
  | None =>
      match op m with
      | kPut => (insert (key m) (value m) mp, live + (zlen (key m) + zlen (value m)))
      | kDel => (mp, live)
      end
  end.

Definition apply_batch (batch : list Mutation) (st : omap * Z) : omap * Z :=
  fold_left apply_mutation batch st.

(** [void ApplyToMapLocked(const std::vector<Mutation>& batch)]. *)
Definition ApplyToMapLocked (batch : list Mutation) (s : Store) : Store :=
  let st := apply_batch batch (map_ s, live_bytes_ s) in
  mkStore st.1 (fd_ s) (log_bytes_ s) st.2 (compact_min_bytes_ s).

(** [bool AppendLocked(const std::vector<Mutation>& batch, std::string* err)]. *)
Definition AppendLocked (io : append_io) (batch : list Mutation) (s : Store) : bool * Store :=
  match fd_ s with
  | None => (true, s)
  | Some f =>
      let rec := EncodeRecord batch in
      let '(f1, ok, _) := WriteAll (a_writes io) f rec in
      if ok && a_fsync io then
        (true, mkStore (map_ s) (Some f1) (log_bytes_ s + length rec)
                       (live_bytes_ s) (compact_min_bytes_ s))
      else
        let f2 := if a_ftruncate io
                  then lseek (log_bytes_ s) (ftruncate (log_bytes_ s) f1)
                  else f1 in
        (false, mkStore (map_ s) (Some f2) (log_bytes_ s) (live_bytes_ s) (compact_min_bytes_ s))
  end.

(** The locals of [MaybeCompactLocked] while it writes the temp file. *)
Record compaction := mkCompaction {
  chunk : list Mutation; chunk_bytes : Z; tfile : file;
  written : nat; c_ok : bool; c_ws : list wres }.

(** The lambda [flush]. *)
Definition flush (c : compaction) : compaction :=
  match chunk c with
  | [] => c
  | _ =>
      let rec := EncodeRecord (chunk c) in
      let '(tf, ok, ws) :=
        if c_ok c then WriteAll (c_ws c) (tfile c) rec else (tfile c, false, c_ws c) in
      mkCompaction [] 0 tf (written c + length rec) ok ws
  end.

(** The body of [for (const auto& [k, v] : map_)]. *)
Definition compact_entry (c : compaction) (kv : entry) : compaction :=
  let c1 := mkCompaction (chunk c ++ [mkMut kPut kv.1 kv.2])
                         (chunk_bytes c + entry_bytes kv)
                         (tfile c) (written c) (c_ok c) (c_ws c) in
  if 2 ^ 20 <=? chunk_bytes c1 then flush c1 else c1.

Definition compact_write (ws : list wres) (m : omap) : compaction :=
  flush (fold_left compact_entry m (mkCompaction [] 0 (mkFile [] 0) 0 true ws)).

(** [bool MaybeCompactLocked(std::string* err)]. *)
Definition MaybeCompactLocked (io : compact_io) (s : Store) : bool * Store :=
  match fd_ s with
  | None => (true, s)
  | Some _ =>
      if Z.of_nat (log_bytes_ s) <=? Z.max (compact_min_bytes_ s) (2 * live_bytes_ s)
      then (true, s)
      else if negb (c_open io) then (false, s)
      else if negb (c_flock io) then (false, s)
      else
        let c := compact_write (c_writes io) (map_ s) in
        if c_ok c && c_fsync io && c_rename io then
          (true, mkStore (map_ s) (Some (lseek (written c) (tfile c))) (written c)
                         (live_bytes_ s) (compact_min_bytes_ s))
        else (false, s)
  end.

(** [bool Apply(const std::vector<Mutation>& batch, std::string* err)]: a failed
    compaction leaves the longer log in place and is not reported. *)
Definition Apply (io : append_io) (cio : compact_io) (batch : list Mutation) (s : Store) :
    bool * Store :=
  match batch with
  | [] => (true, s)
  | _ =>
      let '(ok, s1) := AppendLocked io batch s in
      if ok then (true, (MaybeCompactLocked cio (ApplyToMapLocked batch s1)).2)
      else (false, s1)
  end.

(** [std::optional<std::string> Get(const std::string& key) const]. *)
Definition Get (k : bytes) (s : Store) : option bytes := find k (map_ s).

Definition LiveBytes (s : Store) : Z := live_bytes_ s.
Definition LogBytes (s : Store) : Z := Z.of_nat (log_bytes_ s).

(** [bool PrefixMatches(const std::string& key, const std::string& prefix)]. *)
Definition PrefixMatches (k prefix : bytes) : bool :=
  (zlen prefix <=? zlen k) && bool_decide (take (length prefix) k = prefix).

(** The loop of [DeletePrefix] that collects the keys under [prefix]. *)
Fixpoint collect_prefix (prefix : bytes) (l : omap) : list Mutation :=
  match l with
  | [] => []
  | kv :: r =>
      if PrefixMatches kv.1 prefix then mkMut kDel kv.1 [] :: collect_prefix prefix r else []
  end.

(** [size_t DeletePrefix(const std::string& prefix, std::string* err)]; the
    flag says whether [*err] was set. *)
Definition DeletePrefix (io : append_io) (cio : compact_io) (prefix : bytes) (s : Store) :
    nat * bool * Store :=
  let batch := collect_prefix prefix (drop (lower_bound prefix (map_ s)) (map_ s)) in
  match batch with
  | [] => (0%nat, false, s)
  | _ =>
      let '(ok, s1) := AppendLocked io batch s in
      if ok then
        (length batch, false, (MaybeCompactLocked cio (ApplyToMapLocked batch s1)).2)
      else (0%nat, true, s1)
  end.

(** ** Open *)

Record open_io := mkOpenIo {
  o_open : bool; o_flock : bool; o_fstat : bool;
  o_reads : list rres; o_ftruncate : bool; o_lseek : bool }.

(** The [pread] loop: how many of [size] bytes were read. *)
Fixpoint pread_all (rs : list rres) (size got : nat) : nat :=
  if (size <=? got)%nat then got
  else
    match rs with
    | [] => size
    | REintr :: rs => pread_all rs size got
    | RErr :: _ => got
    | ROk 0 :: _ => got
    | ROk n :: rs => pread_all rs size (got + Nat.min n (size - got))
    end.

(** The record at the front of [buf] when the length, the checksum and the
    body are good: the [ok] of the replay loop. *)
Definition read_frame (buf : bytes) : option (list Mutation) :=
  let remaining := zlen buf in
  let rec_len := GetU32 buf in
  if (12 <=? rec_len) && (rec_len <=? remaining) then
    let body := take (Z.to_nat (rec_len - 8)) (drop 4 buf) in
    if Crc.crc32_bitwise body =? GetU32 (drop (Z.to_nat (rec_len - 4)) buf)
    then DecodeBody body
    else None
  else None.

(** The bad record at the front of [buf] is the end of the log. *)
Definition torn_tail (buf : bytes) : bool :=
  let remaining := zlen buf in
  let rec_len := GetU32 buf in
  (remaining <? rec_len) || ((12 <=? rec_len) && (rec_len =? remaining)) ||
  forallb (fun b => bool_decide (b = x00)) buf.

Inductive replay_result :=
| Replayed (st : omap * Z) (rest : bytes)   (* the loop ended with [rest] unread *)
| Corrupt.

(** [while (buf.size() - off >= 12)]: every round consumes a record of at
    least twelve bytes, so the number of bytes bounds the rounds. *)
Fixpoint replay_loop (fuel : nat) (buf : bytes) (st : omap * Z) : replay_result :=
  if zlen buf <? 12 then Replayed st buf
  else
    match fuel with
    | O => Replayed st buf
    | S fuel =>
        match read_frame buf with
        | Some batch => replay_loop fuel (drop (Z.to_nat (GetU32 buf)) buf) (apply_batch batch st)
        | None => if torn_tail buf then Replayed st buf else Corrupt
        end
    end.

(** [Open] returns a store, or fails and leaves the file with these bytes. *)
Inductive open_result :=
| Opened (s : Store)
| OpenFailed (disk : bytes).

(** [OrderedLogStore::Open(path, err, compact_min_bytes)]; [path] is [None]
    when empty and otherwise names a file holding [disk]. *)
Definition Open (io : open_io) (path : option bytes) (compact_min : Z) : open_result :=
  match path with
  | None => Opened (mkStore [] None 0 0 compact_min)
  | Some disk =>
      if negb (o_open io) then OpenFailed disk
      else if negb (o_flock io) then OpenFailed disk
      else if negb (o_fstat io) then OpenFailed disk
      else
        let buf := take (pread_all (o_reads io) (length disk) 0) disk in
        match replay_loop (length buf) buf ([], 0) with
        | Corrupt => OpenFailed disk
        | Replayed (m, live) rest =>
            let off := (length buf - length rest)%nat in
            if (off <? length buf)%nat && negb (o_ftruncate io) then OpenFailed disk
            else
              let f := if (off <? length buf)%nat
                       then ftruncate off (mkFile disk 0) else mkFile disk 0 in
              if negb (o_lseek io) then OpenFailed (content f)
              else Opened (mkStore m (Some (lseek off f)) off live compact_min)
        end
  end.

End LogStore.
