(* ===== verification/LogReplay.v ===== *)
(** * Replay and recovery of the ordered log

    What [OrderedLogStore::Open] rebuilds. [log_of batches] is the file the
    store writes for a history of batches, [play] the meaning of a batch on
    the map. The theorems say that replaying a log, possibly ended by a torn
    append or by zero bytes, yields exactly the batches that are complete, and
    that a bad record in the middle makes [Open] refuse. *)

From S2P Require Import Prelude Crc32 OrderedMap LogCodec LogStore.
From Stdlib Require Import ZArith Lia.

Import OMap Log LogStore.
Open Scope Z_scope.

(** ** The meaning of a batch *)

(** One mutation on the abstract map. *)
Definition step_map (m : omap) (mu : Mutation) : omap :=
  match op mu with
  | kPut => insert (key mu) (value mu) m
  | kDel => erase (key mu) m
  end.

Definition play (batch : list Mutation) (m : omap) : omap := fold_left step_map batch m.

(** The map after a history of batches, and the log that history leaves. *)
Definition play_all (batches : list (list Mutation)) (m : omap) : omap :=
  fold_left (fun m b => play b m) batches m.

Definition log_of (batches : list (list Mutation)) : bytes :=
  concat (EncodeRecord <$> batches).

Lemma erase_absent k m : find k m = None -> erase k m = m.
Proof.
  induction m as [|[k' v'] r IH]; simpl; [done|].
  destruct (bcmp k k'); try done. intros H. by rewrite IH.
Qed.

Lemma sorted_step_map m mu : sorted m -> sorted (step_map m mu).
Proof. unfold step_map. destruct (op mu); auto with store. Qed.

Lemma sorted_play batch m : sorted m -> sorted (play batch m).
Proof. apply fold_left_inv. intros x y. apply sorted_step_map. Qed.

Lemma sorted_play_all batches m : sorted m -> sorted (play_all batches m).
Proof. apply fold_left_inv. intros x y. apply sorted_play. Qed.

#[export] Hint Resolve sorted_step_map sorted_play sorted_play_all : store.

(** [apply_mutation] keeps [live_bytes_] equal to the bytes in the map. *)
Lemma apply_mutation_spec m mu :
  sorted m ->
  apply_mutation (m, live_size m) mu = (step_map m mu, live_size (step_map m mu)).
Proof.
  intros Hs. unfold apply_mutation, step_map.
  destruct (find (key mu) m) as [old|] eqn:E, (op mu).
  - rewrite live_size_insert, E by done. f_equal. lia.
  - rewrite live_size_erase, E by done. done.
  - rewrite live_size_insert, E by done. f_equal. lia.
  - by rewrite erase_absent.
Qed.

Lemma apply_batch_spec batch m :
  sorted m ->
  apply_batch batch (m, live_size m) = (play batch m, live_size (play batch m)).
Proof.
  unfold apply_batch, play. revert m.
  induction batch as [|mu batch IH]; intros m Hs; cbn [fold_left]; [done|].
  rewrite apply_mutation_spec by done. auto with store.
Qed.

Lemma play_wire batch m : play (wire <$> batch) m = play batch m.
Proof.
  unfold play. revert m. induction batch as [|mu batch IH]; intros m; simpl; [done|].
  rewrite <- IH. f_equal. unfold step_map, wire, wire_value. simpl. by destruct (op mu).
Qed.

Lemma play_all_app b1 b2 m : play_all (b1 ++ b2) m = play_all b2 (play_all b1 m).
Proof. unfold play_all. by rewrite fold_left_app. Qed.

Lemma log_of_app b1 b2 : log_of (b1 ++ b2) = log_of b1 ++ log_of b2.
Proof. unfold log_of. by rewrite fmap_app, concat_app. Qed.

Lemma log_of_snoc bs b : log_of (bs ++ [b]) = log_of bs ++ EncodeRecord b.
Proof. rewrite log_of_app. unfold log_of. simpl. by rewrite app_nil_r. Qed.

(** ** Reading frames *)

Lemma read_frame_record batch r :
  encodable batch -> read_frame (EncodeRecord batch ++ r) = Some (wire <$> batch).
Proof.
  intros He. unfold read_frame. rewrite frame_length by done.
  pose proof (length_EncodeRecord batch) as HL. pose proof (length_EncodeRecord_ge batch).
  replace (_ && _) with true
    by (symmetry; apply andb_true_iff; split; apply Z.leb_le; len_simpl; lia).
  replace (Z.to_nat (zlen (EncodeRecord batch) - 8)) with (length (encode_body batch)) by lia.
  replace (Z.to_nat (zlen (EncodeRecord batch) - 4))
    with (4 + length (encode_body batch))%nat by lia.
  rewrite frame_crc, drop_app_le by lia.
  rewrite take_app_le by (len_simpl; lia). rewrite frame_body.
  rewrite Z.eqb_refl. by apply decode_encode_body.
Qed.

Lemma read_frame_consumes buf batch :
  read_frame buf = Some batch -> 12 <= GetU32 buf <= zlen buf.
Proof.
  unfold read_frame. destruct (_ && _) eqn:E; [|done]. reflect_bools. lia.
Qed.

(** The fuel is enough: any amount from the number of bytes up gives the same
    answer. *)
Lemma replay_fuel fuel fuel' buf st :
  (length buf <= fuel)%nat -> (length buf <= fuel')%nat ->
  replay_loop fuel buf st = replay_loop fuel' buf st.
Proof.
  revert fuel' buf st. induction fuel as [|fuel IH]; intros fuel' buf st H H'.
  - destruct buf; [|simpl in H; lia]. destruct fuel'; done.
  - destruct fuel' as [|fuel'].
    { destruct buf; [done|simpl in H'; lia]. }
    cbn [replay_loop]. destruct (zlen buf <? 12); [done|].
    destruct (read_frame buf) as [batch|] eqn:E; [|done].
    apply read_frame_consumes in E. apply IH; rewrite length_drop; lia.
Qed.

Definition replay (buf : bytes) (st : omap * Z) : replay_result :=
  replay_loop (length buf) buf st.

Lemma replay_record batch r st :
  encodable batch ->
  replay (EncodeRecord batch ++ r) st = replay r (apply_batch (wire <$> batch) st).
Proof.
  intros He. unfold replay. pose proof (length_EncodeRecord_ge batch).
  destruct (length (EncodeRecord batch ++ r)) as [|n] eqn:En.
  { rewrite length_app in En. lia. }
  cbn [replay_loop]. rewrite En. rewrite read_frame_record by done.
  replace (Z.of_nat (S n) <? 12) with false
    by (symmetry; apply Z.ltb_ge; rewrite <- En; len_simpl; lia).
  rewrite frame_length, Nat2Z.id, drop_app_length by done.
  apply replay_fuel; [|lia]. rewrite length_app in En. lia.
Qed.

Lemma replay_log batches tail m :
  sorted m -> Forall encodable batches ->
  replay (log_of batches ++ tail) (m, live_size m) =
  replay tail (play_all batches m, live_size (play_all batches m)).
Proof.
  revert m. induction batches as [|b batches IH]; intros m Hs He; [done|].
  inversion He; subst. unfold log_of in *. cbn [fmap list_fmap concat].
  rewrite <- app_assoc, replay_record, apply_batch_spec, play_wire by done.
  rewrite IH by auto with store. done.
Qed.

(** ** Dead tails: bytes after the last complete record that replay drops *)

Definition dead (tail : bytes) : Prop := forall st, replay tail st = Replayed st tail.

Lemma dead_nil : dead [].
Proof. intros st. done. Qed.

Lemma dead_by_tail tail : read_frame tail = None -> torn_tail tail = true -> dead tail.
Proof.
  intros Hr Ht st. unfold replay. destruct tail as [|b t]; [done|].
  simpl length. cbn [replay_loop]. destruct (_ <? 12); [done|]. by rewrite Hr, Ht.
Qed.

Lemma dead_short tail : zlen tail < 12 -> dead tail.
Proof.
  intros H st. unfold replay. destruct (length tail) eqn:E; cbn [replay_loop];
    rewrite ?E; (replace (_ <? 12) with true by (symmetry; apply Z.ltb_lt; lia)); done.
Qed.

(** A record that was only partly written. *)
Lemma dead_torn batch k :
  encodable batch -> (k < length (EncodeRecord batch))%nat ->
  dead (take k (EncodeRecord batch)).
Proof.
  intros He Hk. destruct (decide (k < 12)%nat) as [Hs|Hs].
  { apply dead_short. rewrite length_take. lia. }
  pose proof (frame_length batch [] He) as HF. rewrite app_nil_r in HF.
  assert (GetU32 (take k (EncodeRecord batch)) = zlen (EncodeRecord batch)) as HG.
  { rewrite <- HF. unfold GetU32, get_u32. by rewrite take_take, Nat.min_l by lia. }
  apply dead_by_tail.
  - unfold read_frame. rewrite HG.
    replace (_ && _) with false; [done|]. symmetry. apply andb_false_iff. right.
    apply Z.leb_gt. len_simpl. lia.
  - unfold torn_tail. rewrite HG.
    replace (_ <? _) with true; [done|]. symmetry. apply Z.ltb_lt. len_simpl. lia.
Qed.

Lemma get_le_zeros n : get_le (replicate n x00) = 0.
Proof. induction n as [|n IH]; [done|]. cbn [replicate]. by rewrite get_le_cons, IH. Qed.

Lemma forallb_zeros n : forallb (fun b => bool_decide (b = x00)) (replicate n x00) = true.
Proof. induction n as [|n IH]; simpl; [done|]. by rewrite IH. Qed.

(** File space the file system allocated but never wrote. *)
Lemma dead_zeros n : dead (replicate n x00).
Proof.
  apply dead_by_tail.
  - unfold read_frame, GetU32, get_u32. rewrite take_replicate, get_le_zeros. done.
  - unfold torn_tail. rewrite forallb_zeros. apply orb_true_r.
Qed.

#[export] Hint Resolve dead_nil dead_torn dead_zeros : store.

(** ** Open *)

(** Every call of [Open] succeeds and the reads deliver the whole file. *)
Definition clean_open (io : open_io) (size : nat) : Prop :=
  o_open io = true /\ o_flock io = true /\ o_fstat io = true /\
  pread_all (o_reads io) size 0 = size /\ o_ftruncate io = true /\ o_lseek io = true.

(** The invariant of a store: the map is ordered, [live_bytes_] counts it, and
    the log file is exactly the log of a history that plays to the map, with
    the descriptor at its end. *)
Definition log_inv (history : list (list Mutation)) (f : file) (s : Store) : Prop :=
  content f = log_of history /\ pos f = length (content f) /\
  log_bytes_ s = length (content f) /\ Forall encodable history /\
  play_all history [] = map_ s.

Definition inv (s : Store) : Prop :=
  sorted (map_ s) /\ live_bytes_ s = live_size (map_ s) /\
  match fd_ s with
  | None => True
  | Some f => exists history, log_inv history f s
  end.

(** [Open] of a log that ends in a dead tail. *)
Lemma Open_log io history tail cmin :
  Forall encodable history -> dead tail ->
  clean_open io (length (log_of history ++ tail)) ->
  Open io (Some (log_of history ++ tail)) cmin =
  Opened (mkStore (play_all history [])
                  (Some (mkFile (log_of history) (length (log_of history))))
                  (length (log_of history)) (live_size (play_all history [])) cmin).
Proof.
  intros He Hd (H1 & H2 & H3 & H4 & H5 & H6).
  unfold Open. rewrite H1, H2, H3, H4, H5, H6. simpl negb. cbv iota.
  rewrite take_ge by lia. fold (replay (log_of history ++ tail) ([], 0)).
  change ([], 0) with (@nil (bytes * bytes), live_size []).
  rewrite replay_log by auto with store. rewrite Hd.
  replace (length (log_of history ++ tail) - length tail)%nat with (length (log_of history))
    by (rewrite length_app; lia).
  rewrite andb_false_r. destruct (_ <? _)%nat eqn:E.
  - unfold lseek, ftruncate. simpl. rewrite take_app_length.
    replace (length (log_of history) - _)%nat with 0%nat by (rewrite length_app; lia).
    simpl. by rewrite app_nil_r.
  - apply Nat.ltb_ge in E. rewrite length_app in E.
    destruct tail; [|simpl in E; lia]. by rewrite app_nil_r.
Qed.

Lemma inv_recovered history cmin :
  Forall encodable history ->
  inv (mkStore (play_all history [])
               (Some (mkFile (log_of history) (length (log_of history))))
               (length (log_of history)) (live_size (play_all history [])) cmin).
Proof. intros He. split_and!; simpl; auto with store. by exists history. Qed.
