(* ===== verification/LogDurability.v ===== *)
(** * Durability of the ordered log

    Appending, compacting and applying keep the invariant of LogReplay: after
    every acknowledged batch the log file replays to the map, after every
    refused one the map and the log are as before, and a compaction changes
    the log without changing what it replays to. The last part puts the
    operations, crashes and recovery together in one step relation and shows
    that no acknowledged batch is ever lost. *)

From S2P Require Import Prelude Crc32 OrderedMap LogCodec LogStore LogReplay.
From Stdlib Require Import ZArith Lia.

Import OMap Log LogStore.
Open Scope Z_scope.

(** ** Writing at the end of a file *)

Definition at_end (f : file) : Prop := pos f = length (content f).

Lemma fwrite_at_end f d :
  at_end f -> content (fwrite f d) = content f ++ d /\ at_end (fwrite f d).
Proof.
  unfold at_end, fwrite. intros H. simpl. rewrite H, take_ge, Nat.sub_diag by lia.
  simpl. rewrite drop_ge, app_nil_r by lia. rewrite length_app. done.
Qed.

(** Whatever the kernel does, [WriteAll] leaves a prefix of the record behind
    the old end of the file, and all of it when it reports success. *)
Lemma WriteAll_at_end ws f p f' ok ws' :
  at_end f -> WriteAll ws f p = (f', ok, ws') ->
  at_end f' /\
  exists k, (k <= length p)%nat /\ content f' = content f ++ take k p /\
            (ok = true -> k = length p).
Proof.
  revert f p. induction ws as [|w ws IH]; intros f p Hf H.
  - destruct p as [|b p]; simpl in H; injection H as <- <- <-.
    + split; [done|]. exists 0%nat. by rewrite app_nil_r.
    + destruct (fwrite_at_end f (b :: p) Hf) as [Hc He]. split; [done|].
      exists (length (b :: p)). rewrite take_ge by lia. done.
  - destruct p as [|b p].
    { simpl in H. injection H as <- <- <-. split; [done|].
      exists 0%nat. by rewrite app_nil_r. }
    destruct w as [w| |]; cbn [WriteAll] in H.
    + destruct (fwrite_at_end f (take w (b :: p)) Hf) as [Hc He].
      destruct (IH _ _ He H) as (He' & k & Hk & Hc' & Hok). split; [done|].
      rewrite length_drop in Hk, Hok.
      exists (length (take w (b :: p)) + k)%nat. rewrite Hc', Hc, <- app_assoc.
      split_and!.
      * rewrite length_take. lia.
      * f_equal. rewrite length_take. destruct (decide (w <= length (b :: p))%nat).
        -- rewrite Nat.min_l by lia. by rewrite take_drop_commute_add.
        -- rewrite Nat.min_r, (take_ge _ w), drop_ge, take_nil, app_nil_r, take_ge; done || lia.
      * intros Hok'. specialize (Hok Hok'). rewrite length_take. lia.
    + apply (IH _ _ Hf H).
    + injection H as <- <- <-. split; [done|]. exists 0%nat. simpl. rewrite app_nil_r.
      split_and!; (done || lia).
Qed.

(** ** Append *)

(** A record appended and synced: the log grew by exactly that record. *)
Lemma AppendLocked_true io batch s s' :
  inv s -> AppendLocked io batch s = (true, s') ->
  map_ s' = map_ s /\ live_bytes_ s' = live_bytes_ s /\
  match fd_ s with
  | None => fd_ s' = None
  | Some f => exists f', fd_ s' = Some f' /\ content f' = content f ++ EncodeRecord batch /\
                         at_end f' /\ log_bytes_ s' = length (content f')
  end.
Proof.
  intros (_ & _ & Hfd) H. unfold AppendLocked in H.
  destruct (fd_ s) as [f|] eqn:E; [|by injection H as <-].
  destruct Hfd as (history & Hc & Hp & Hl & _).
  destruct (WriteAll _ f _) as [[f1 ok] ws] eqn:EW.
  destruct (WriteAll_at_end _ _ _ _ _ _ Hp EW) as (He & k & Hk & Hc1 & Hok).
  destruct (ok && a_fsync io) eqn:Eok; [|done]. injection H as <-. reflect_bools. simpl.
  split_and!; try done. exists f1. rewrite Hok, take_ge in Hc1 by done.
  split_and!; try done. rewrite Hc1, length_app. lia.
Qed.

(** A refused append is undone: the store is as before. *)
Lemma AppendLocked_false io batch s s' :
  inv s -> a_ftruncate io = true -> AppendLocked io batch s = (false, s') -> s' = s.
Proof.
  intros (_ & _ & Hfd) Ht H. unfold AppendLocked in H.
  destruct (fd_ s) as [f|] eqn:E; [|done].
  destruct Hfd as (history & Hc & Hp & Hl & _).
  destruct (WriteAll _ f _) as [[f1 ok] ws] eqn:EW.
  destruct (WriteAll_at_end _ _ _ _ _ _ Hp EW) as (He & k & Hk & Hc1 & Hok).
  destruct (ok && a_fsync io); [done|]. injection H as <-. rewrite Ht.
  destruct s as [m fd lb lv cm], f as [c p]. simpl in *. subst.
  unfold lseek, ftruncate. simpl. rewrite Hc1, take_app_length.
  replace (length (log_of history) - _)%nat with 0%nat by (rewrite length_app; lia).
  by rewrite app_nil_r.
Qed.

Lemma inv_apply_appended io batch s s' :
  inv s -> encodable batch -> AppendLocked io batch s = (true, s') ->
  inv (ApplyToMapLocked batch s') /\ map_ (ApplyToMapLocked batch s') = play batch (map_ s).
Proof.
  intros Hi He H. destruct (AppendLocked_true _ _ _ _ Hi H) as (Hm & Hlv & Hfd).
  destruct Hi as (Hs & Hl & Hf). unfold ApplyToMapLocked.
  rewrite Hm, Hlv, Hl, apply_batch_spec by done. simpl. split; [|done].
  split_and!; simpl; auto with store.
  destruct (fd_ s) as [f|] eqn:E.
  - destruct Hfd as (f' & -> & Hc & Hp & Hb). destruct Hf as (history & Hc0 & _ & _ & Ha & Hr).
    exists (history ++ [batch]). split_and!; simpl.
    + by rewrite Hc, Hc0, log_of_snoc.
    + done.
    + done.
    + apply Forall_app; auto.
    + rewrite play_all_app, Hr. done.
  - by rewrite Hfd.
Qed.

(** ** Compaction *)

Definition put_of (kv : entry) : Mutation := mkMut kPut kv.1 kv.2.

(** Entries a compaction chunk can hold next to its other entries: half of
    what a record's length field can express. The service admits values of
    4 MiB and requests of 64 MiB. *)
Definition small (m : omap) : Prop := Forall (fun kv => entry_bytes kv < 2 ^ 31) m.

Lemma insert_last k v m :
  Forall (fun kv => blt kv.1 k = true) m -> insert k v m = m ++ [(k, v)].
Proof.
  induction m as [|[k' v'] r IH]; intros H; [done|]. inversion H; subst. simpl in *.
  assert (bcmp k k' = Gt) as -> by (by apply bcmp_gt_blt). by rewrite IH.
Qed.

Lemma play_puts acc m : sorted (acc ++ m) -> play (put_of <$> m) acc = acc ++ m.
Proof.
  revert acc. induction m as [|[k v] m IH]; intros acc Hs; [by rewrite app_nil_r|].
  unfold play. cbn [fmap list_fmap fold_left]. unfold step_map at 2, put_of at 2. simpl.
  rewrite insert_last.
  - fold (play (put_of <$> m) (acc ++ [(k, v)])). rewrite IH; by rewrite <- app_assoc.
  - apply sorted_app_inv in Hs as (_ & _ & Hs). eapply Forall_impl; [exact Hs|].
    intros a Ha. by inversion Ha.
Qed.

Lemma play_all_concat chunks m : play_all chunks m = play (concat chunks) m.
Proof.
  revert m. induction chunks as [|c chunks IH]; intros m; [done|].
  unfold play_all in *. simpl. rewrite IH. unfold play. by rewrite fold_left_app.
Qed.

Lemma sorted_count m : sorted m -> zlen m <= live_size m + 1.
Proof.
  destruct m as [|[k v] r]; [simpl; lia|]. intros Hs. apply sorted_cons in Hs as [_ Hk].
  assert (zlen r <= live_size r) as H.
  { induction r as [|[k' v'] r IH]; [simpl; lia|]. inversion Hk as [|?? Hlt]; subst.
    unfold key_lt in Hlt. simpl in *. specialize (IH ltac:(done)).
    destruct k' as [|b k']; [by destruct k|]. unfold entry_bytes. simpl. lia. }
  simpl. unfold entry_bytes. lia.
Qed.

Lemma length_encode_puts m :
  zlen (EncodeRecord (put_of <$> m)) = 12 + 9 * zlen m + live_size m.
Proof.
  rewrite length_EncodeRecord, length_encode_body.
  induction m as [|kv m IH]; [done|].
  rewrite fmap_cons, concat_encode_cons. len_simpl.
  pose proof (length_encode_mutation (put_of kv)) as HL.
  unfold put_of in *. unfold wire_value in HL. simpl in *. unfold entry_bytes. lia.
Qed.

Lemma chunk_encodable cm kv :
  sorted cm -> live_size cm < 2 ^ 20 -> entry_bytes kv < 2 ^ 31 ->
  encodable (put_of <$> (cm ++ [kv])).
Proof.
  intros Hs Hc Hkv. unfold encodable. rewrite length_encode_puts, live_size_app.
  pose proof (sorted_count cm Hs). len_simpl. simpl. lia.
Qed.

Lemma chunk_encodable_small cm :
  sorted cm -> live_size cm < 2 ^ 20 -> encodable (put_of <$> cm).
Proof.
  intros Hs Hc. unfold encodable. rewrite length_encode_puts.
  pose proof (sorted_count cm Hs). lia.
Qed.

(** The loop invariant: the entries seen so far are the flushed chunks
    followed by the pending one, and the temp file, while every write has
    succeeded, is the log of the flushed chunks. *)
Definition compacting (seen : omap) (c : compaction) : Prop :=
  exists pre cm chunks,
    seen = pre ++ cm /\ chunk c = put_of <$> cm /\ concat chunks = put_of <$> pre /\
    chunk_bytes c = live_size cm /\ Forall encodable chunks /\
    (c_ok c = true ->
     content (tfile c) = log_of chunks /\ at_end (tfile c) /\
     written c = length (content (tfile c))).

Lemma compacting_flush seen c :
  compacting seen c -> encodable (chunk c) ->
  compacting seen (flush c) /\ chunk (flush c) = [] /\ chunk_bytes (flush c) <= 0.
Proof.
  intros (pre & cm & chunks & Hseen & Hc & Hpre & Hb & Hen & Hok) He. unfold flush.
  destruct (chunk c) as [|mu ch] eqn:Ech.
  { destruct cm; [|done]. split_and!; [|done|simpl in Hb; lia].
    exists pre, [], chunks. rewrite Ech. done. }
  destruct (if c_ok c then _ else _) as [[tf ok] ws] eqn:EW.
  split_and!; [|done|simpl; lia].
  exists (pre ++ cm), [], (chunks ++ [mu :: ch]). rewrite app_nil_r. simpl.
  split_and!; try done.
  - rewrite concat_app, Hpre, fmap_app, <- Hc. simpl. by rewrite app_nil_r.
  - apply Forall_app; auto.
  - intros ->. destruct (c_ok c); [|done]. destruct (Hok eq_refl) as (Hct & Hend & Hw).
    destruct (WriteAll_at_end _ _ _ _ _ _ Hend EW) as (Hend' & k & _ & Hc' & Hk).
    rewrite (Hk eq_refl), take_ge in Hc' by done.
    split_and!; [|done|rewrite Hc', length_app; lia].
    by rewrite Hc', Hct, log_of_snoc.
Qed.

Lemma compacting_entry seen c kv :
  compacting seen c -> chunk_bytes c < 2 ^ 20 ->
  sorted seen -> entry_bytes kv < 2 ^ 31 ->
  compacting (seen ++ [kv]) (compact_entry c kv) /\
  chunk_bytes (compact_entry c kv) < 2 ^ 20.
Proof.
  intros Hcp Hlt Hs Hkv. destruct Hcp as (pre & cm & chunks & Hseen & Hc & Hpre & Hb & Hen & Hok).
  unfold compact_entry.
  set (c1 := mkCompaction _ _ _ _ _ _).
  assert (compacting (seen ++ [kv]) c1) as Hc1.
  { exists pre, (cm ++ [kv]), chunks. unfold c1. simpl. split_and!; try done.
    - by rewrite Hseen, app_assoc.
    - by rewrite Hc, fmap_app.
    - rewrite live_size_app, Hb. simpl. lia. }
  destruct (2 ^ 20 <=? chunk_bytes c1) eqn:E; reflect_bools; [|done].
  destruct (compacting_flush _ _ Hc1) as (H1 & H2 & H3).
  { unfold c1. simpl. rewrite Hc. change [mkMut kPut kv.1 kv.2] with (put_of <$> [kv]).
    rewrite <- fmap_app.
    apply chunk_encodable; [|lia|done].
    rewrite Hseen in Hs. by apply sorted_app_inv in Hs as (_ & ? & _). }
  split; [done|lia].
Qed.

Lemma compacting_fold seen m c :
  compacting seen c -> chunk_bytes c < 2 ^ 20 -> sorted (seen ++ m) -> small m ->
  compacting (seen ++ m) (fold_left compact_entry m c) /\
  chunk_bytes (fold_left compact_entry m c) < 2 ^ 20.
Proof.
  revert seen c. induction m as [|kv m IH]; intros seen c Hc Hb Hs Hsm.
  - by rewrite app_nil_r.
  - inversion Hsm; subst. cbn [fold_left].
    destruct (compacting_entry seen c kv) as [Hc' Hb']; try done.
    { by apply sorted_app_inv in Hs as (? & _ & _). }
    replace (seen ++ kv :: m) with ((seen ++ [kv]) ++ m) in * by (by rewrite <- app_assoc).
    by apply IH.
Qed.

Lemma compacting_init ws : compacting [] (mkCompaction [] 0 (mkFile [] 0) 0 true ws).
Proof. exists [], [], []. split_and!; try done. Qed.

(** A temp file written without an error holds a log of the live map. *)
Lemma compact_write_spec ws m :
  sorted m -> small m -> c_ok (compact_write ws m) = true ->
  exists chunks,
    content (tfile (compact_write ws m)) = log_of chunks /\
    Forall encodable chunks /\ play_all chunks [] = m /\
    written (compact_write ws m) = length (log_of chunks).
Proof.
  intros Hs Hsm Hok. unfold compact_write in *.
  set (c0 := mkCompaction [] 0 (mkFile [] 0) 0 true ws) in *.
  destruct (compacting_fold [] m c0) as [Hc Hb]; [apply compacting_init|simpl; lia|done..|].
  simpl in Hc.
  destruct (compacting_flush _ _ Hc) as ((pre & cm & chunks & Hm & Hch & Hpre & _ & He & Hw) & Hn & _).
  { destruct Hc as (pre & cm & chunks & Hm & Hch & _ & Hcb & _). rewrite Hch.
    apply chunk_encodable_small; [|lia]. rewrite Hm in Hs.
    by apply sorted_app_inv in Hs as (_ & ? & _). }
  destruct (Hw Hok) as (Hct & _ & Hwr). exists chunks. rewrite Hct in *.
  split_and!; try done. rewrite Hch in Hn. destruct cm; [|done].
  rewrite play_all_concat, Hpre, play_puts; rewrite Hm in *; by rewrite ?app_nil_r in *.
Qed.

Lemma MaybeCompactLocked_inv io s :
  inv s -> small (map_ s) ->
  inv (MaybeCompactLocked io s).2 /\
  map_ (MaybeCompactLocked io s).2 = map_ s /\
  (fd_ s = None -> fd_ (MaybeCompactLocked io s).2 = None).
Proof.
  intros Hi Hsm. unfold MaybeCompactLocked. destruct (fd_ s) as [f|] eqn:Ef; [|done].
  destruct (_ <=? _); [done|].
  destruct (negb (c_open io)); [done|]. destruct (negb (c_flock io)); [done|].
  destruct (_ && _) eqn:E; [|done]. reflect_bools. destruct Hi as (Hs & Hl & _).
  destruct (compact_write_spec (c_writes io) (map_ s)) as (chunks & Hc & He & Hp & Hw); try done.
  split; [|by split]. split; [done|]. split; [done|].
  exists chunks. unfold log_inv, lseek. simpl. by rewrite Hw, Hc.
Qed.

(** ** Apply and DeletePrefix *)

(** A batch the store can log and later compact. *)
Definition admissible (batch : list Mutation) : Prop :=
  encodable batch /\ Forall (fun mu => zlen (key mu) + zlen (value mu) < 2 ^ 31) batch.

Lemma small_insert k v m : small m -> zlen k + zlen v < 2 ^ 31 -> small (insert k v m).
Proof.
  intros H Hk. unfold small in *. induction m as [|[k' v'] r IH]; simpl; [by repeat constructor|].
  inversion H; subst. destruct (bcmp k k') eqn:E; repeat constructor; auto.
  apply bcmp_eq in E. by subst.
Qed.

Lemma small_play batch m :
  small m -> Forall (fun mu => zlen (key mu) + zlen (value mu) < 2 ^ 31) batch ->
  small (play batch m).
Proof.
  unfold play. revert m. induction batch as [|mu batch IH]; intros m Hm Hb; [done|].
  inversion Hb; subst. cbn [fold_left]. apply IH; [|done]. unfold step_map.
  destruct (op mu); [by apply small_insert|by apply Forall_erase].
Qed.

Lemma Apply_true io cio batch s s' :
  inv s -> small (map_ s) -> admissible batch -> Apply io cio batch s = (true, s') ->
  inv s' /\ small (map_ s') /\ map_ s' = play batch (map_ s) /\
  (is_Some (fd_ s) -> is_Some (fd_ s')).
Proof.
  intros Hi Hsm [He Hb] H. unfold Apply in H.
  destruct batch as [|mu batch]; [by injection H as <-|].
  destruct (AppendLocked io (mu :: batch) s) as [ok s1] eqn:EA. destruct ok; [|done].
  injection H as <-. destruct (inv_apply_appended _ _ _ _ Hi He EA) as [Hi1 Hm1].
  assert (small (map_ (ApplyToMapLocked (mu :: batch) s1))) as Hsm1
    by (rewrite Hm1; by apply small_play).
  destruct (MaybeCompactLocked_inv cio _ Hi1 Hsm1) as (Hi2 & Hm2 & _).
  split_and!; [done|by rewrite Hm2|by rewrite Hm2, Hm1|].
  intros [f Hf]. destruct (AppendLocked_true _ _ _ _ Hi EA) as (_ & _ & HA).
  rewrite Hf in HA. destruct HA as (f' & Hf' & _).
  unfold MaybeCompactLocked, ApplyToMapLocked. simpl. rewrite Hf'. repeat break_match; done.
Qed.

Lemma Apply_false io cio batch s s' :
  inv s -> a_ftruncate io = true -> Apply io cio batch s = (false, s') -> s' = s.
Proof.
  intros Hi Ht H. unfold Apply in H. destruct batch as [|mu batch]; [done|].
  destruct (AppendLocked io (mu :: batch) s) as [ok s1] eqn:EA. destruct ok; [done|].
  injection H as <-. by eapply AppendLocked_false.
Qed.

(** The batch [DeletePrefix] logs. *)
Definition delete_batch (prefix : bytes) (s : Store) : list Mutation :=
  collect_prefix prefix (drop (lower_bound prefix (map_ s)) (map_ s)).

(** [DeletePrefix] is an [Apply] of that batch. *)
Lemma DeletePrefix_Apply io cio prefix s :
  DeletePrefix io cio prefix s =
  (if (Apply io cio (delete_batch prefix s) s).1
   then (length (delete_batch prefix s), false) else (0%nat, true),
   (Apply io cio (delete_batch prefix s) s).2).
Proof.
  unfold DeletePrefix, Apply. fold (delete_batch prefix s).
  destruct (delete_batch prefix s) as [|mu b] eqn:E; [done|].
  destruct (AppendLocked io (mu :: b) s) as [[] s1]; done.
Qed.

Lemma small_find k v m : sorted m -> small m -> find k m = Some v -> zlen k + zlen v < 2 ^ 31.
Proof.
  intros Hs Hsm Hf. apply elem_of_find in Hf; [|done].
  unfold small in Hsm. rewrite Forall_forall in Hsm. by apply Hsm in Hf.
Qed.

Lemma delete_batch_keys prefix m :
  small m -> Forall (fun mu => zlen (key mu) + zlen (value mu) < 2 ^ 31) (collect_prefix prefix m).
Proof.
  induction m as [|[k v] m IH]; simpl; intros H; [done|]. inversion H as [|?? Hkv]; subst.
  destruct (PrefixMatches k prefix); constructor; [|by apply IH].
  unfold entry_bytes in Hkv. simpl in *. lia.
Qed.

(** ** The store under failures and crashes *)

(** A process serving the log, or the file it left behind. *)
Inductive sys := Running (s : Store) | Down (disk : bytes).

(** One step, with the batches the log stands for: those acknowledged and, for
    each crash, at most one more that it caught complete in the file and not
    yet acknowledged. What is assumed of the system: the [ftruncate] that
    takes back a refused record succeeds ([step_nack], [step_delete_failed]);
    a crash leaves, behind what was there, a part of one record, a whole one,
    or zeros; a restart reads the whole file, while any other call of it may
    fail. A batch makes a record below 4 GiB, of entries below 2 GiB. *)
Inductive step : sys * list (list Mutation) -> sys * list (list Mutation) -> Prop :=
| step_ack s io cio b s' h :
    admissible b -> Apply io cio b s = (true, s') ->
    step (Running s, h) (Running s', h ++ [b])
| step_nack s io cio b s' h :
    a_ftruncate io = true -> Apply io cio b s = (false, s') ->
    step (Running s, h) (Running s', h)
| step_delete s io cio p n s' h :
    encodable (delete_batch p s) -> DeletePrefix io cio p s = (n, false, s') ->
    step (Running s, h) (Running s', h ++ [delete_batch p s])
| step_delete_failed s io cio p n s' h :
    a_ftruncate io = true -> DeletePrefix io cio p s = (n, true, s') ->
    step (Running s, h) (Running s', h)
| step_crash_torn s f b k h :
    fd_ s = Some f -> encodable b -> (k < length (EncodeRecord b))%nat ->
    step (Running s, h) (Down (content f ++ take k (EncodeRecord b)), h)
| step_crash_zeros s f n h :
    fd_ s = Some f -> step (Running s, h) (Down (content f ++ replicate n x00), h)
| step_crash_unacked s f b h :
    fd_ s = Some f -> admissible b ->
    step (Running s, h) (Down (content f ++ EncodeRecord b), h ++ [b])
| step_open io disk cmin s h :
    pread_all (o_reads io) (length disk) 0 = length disk ->
    Open io (Some disk) cmin = Opened s -> step (Down disk, h) (Running s, h)
| step_open_failed io disk cmin disk' h :
    pread_all (o_reads io) (length disk) 0 = length disk ->
    Open io (Some disk) cmin = OpenFailed disk' -> step (Down disk, h) (Down disk', h).

(** A file whose complete records play to what the clients rely on. *)
Definition recoverable (disk : bytes) (h : list (list Mutation)) : Prop :=
  exists history tail,
    disk = log_of history ++ tail /\ dead tail /\ Forall encodable history /\
    play_all history [] = play_all h [].

Definition sys_inv (x : sys * list (list Mutation)) : Prop :=
  small (play_all x.2 []) /\
  match x.1 with
  | Running s => inv s /\ is_Some (fd_ s) /\ map_ s = play_all x.2 []
  | Down disk => recoverable disk x.2
  end.

Lemma inv_recoverable s f h :
  inv s -> fd_ s = Some f -> map_ s = play_all h [] ->
  exists history, content f = log_of history /\ Forall encodable history /\
                  play_all history [] = play_all h [].
Proof.
  intros (_ & _ & Hf) Ef Hm. rewrite Ef in Hf. destruct Hf as (history & Hc & _ & _ & He & Hp).
  exists history. by rewrite <- Hm.
Qed.

(** [Open] of a recoverable file: with the whole file read, whatever else
    fails, the result is a store with that map or a file that still is
    recoverable. *)
Lemma Open_recoverable io disk h cmin :
  recoverable disk h -> pread_all (o_reads io) (length disk) 0 = length disk ->
  match Open io (Some disk) cmin with
  | Opened s => inv s /\ is_Some (fd_ s) /\ map_ s = play_all h []
  | OpenFailed disk' => recoverable disk' h
  end.
Proof.
  intros (history & tail & -> & Hd & He & Hp) Hr.
  assert (recoverable (log_of history ++ tail) h) as Hrec by (by exists history, tail).
  destruct (o_open io) eqn:E1; [|unfold Open; by rewrite E1].
  destruct (o_flock io) eqn:E2; [|unfold Open; by rewrite E1, E2].
  destruct (o_fstat io) eqn:E3; [|unfold Open; by rewrite E1, E2, E3].
  set (io' := mkOpenIo true true true (o_reads io) true true).
  assert (clean_open io' (length (log_of history ++ tail))) as Hcl by done.
  pose proof (Open_log io' history tail cmin He Hd Hcl) as HO.
  unfold Open in *. rewrite E1, E2, E3. simpl in HO. simpl negb. cbv iota.
  destruct (replay_loop _ _ _) as [[m live] rest|]; [|done].
  rewrite andb_false_r in HO.
  destruct (_ <? _)%nat eqn:El; simpl in *.
  - destruct (o_ftruncate io); simpl; [|done]. unfold lseek in *. simpl in *.
    injection HO as Hm Hc Hn Hn2 Hl. destruct (o_lseek io); simpl; rewrite ?Hm, ?Hc, ?Hn, ?Hl.
    + split_and!; [by apply inv_recovered|done|done].
    + exists history, []. rewrite app_nil_r. split_and!; auto using dead_nil.
  - destruct (o_lseek io); simpl; [|done]. unfold lseek in *. simpl in *.
    injection HO as Hm Hc Hn Hn2 Hl. rewrite Hm, Hl, Hn, Hc.
    split_and!; [by apply inv_recovered|done|done].
Qed.

Lemma recoverable_torn s f h tail :
  inv s -> fd_ s = Some f -> map_ s = play_all h [] -> dead tail ->
  recoverable (content f ++ tail) h.
Proof.
  intros Hi Hf Hm Hd. destruct (inv_recoverable _ _ _ Hi Hf Hm) as (history & -> & He & Hp).
  by exists history, tail.
Qed.

Lemma recoverable_record s f h b :
  inv s -> fd_ s = Some f -> map_ s = play_all h [] -> encodable b ->
  recoverable (content f ++ EncodeRecord b) (h ++ [b]).
Proof.
  intros Hi Hf Hm Hb. destruct (inv_recoverable _ _ _ Hi Hf Hm) as (history & -> & He & Hp).
  exists (history ++ [b]), []. rewrite log_of_snoc, app_nil_r, !play_all_app, Hp.
  split_and!; auto with store. by apply Forall_app_2; [|constructor].
Qed.

Lemma sys_inv_step x y : sys_inv x -> step x y -> sys_inv y.
Proof.
  intros [Hsm Hx] Hstep.
  destruct Hstep as
    [s io cio b s' h Ha H|s io cio b s' h Ht H|s io cio p n s' h He H|s io cio p n s' h Ht H
    |s f b k h Hf He Hk|s f n h Hf|s f b h Hf Ha|io disk cmin s h Hr H|io disk cmin disk' h Hr H];
    cbn [fst snd] in Hsm, Hx; unfold sys_inv; cbn [fst snd].
  - destruct Hx as (Hi & Hfd & Hm). rewrite <- Hm in Hsm.
    destruct (Apply_true _ _ _ _ _ Hi Hsm Ha H) as (? & Hs & Hm' & ?).
    rewrite play_all_app, <- Hm. simpl. rewrite <- Hm'. auto.
  - destruct Hx as (Hi & Hfd & Hm). by rewrite (Apply_false _ _ _ _ _ Hi Ht H).
  - destruct Hx as (Hi & Hfd & Hm). rewrite <- Hm in Hsm.
    rewrite DeletePrefix_Apply in H.
    destruct (Apply io cio (delete_batch p s) s) as [[] s1] eqn:EA; [|done]. simpl in H.
    assert (admissible (delete_batch p s)) as Ha.
    { split; [done|]. apply delete_batch_keys. by apply Forall_drop. }
    destruct (Apply_true _ _ _ _ _ Hi Hsm Ha EA) as (? & Hs & Hm' & ?).
    injection H as _ <-. rewrite play_all_app, <- Hm. simpl. rewrite <- Hm'. auto.
  - destruct Hx as (Hi & Hfd & Hm). rewrite DeletePrefix_Apply in H.
    destruct (Apply io cio (delete_batch p s) s) as [[] s1] eqn:EA; [done|].
    injection H as _ <-. simpl. by rewrite (Apply_false _ _ _ _ _ Hi Ht EA).
  - destruct Hx as (Hi & _ & Hm). split; [done|]. eapply recoverable_torn; eauto with store.
  - destruct Hx as (Hi & _ & Hm). split; [done|]. eapply recoverable_torn; eauto with store.
  - destruct Hx as (Hi & _ & Hm). destruct Ha as [He Hb].
    split; [rewrite play_all_app; by apply small_play|]. by eapply recoverable_record.
  - pose proof (Open_recoverable io disk h cmin Hx Hr) as HO. by rewrite H in HO.
  - pose proof (Open_recoverable io disk h cmin Hx Hr) as HO. by rewrite H in HO.
Qed.

Lemma sys_inv_steps x y : sys_inv x -> rtc step x y -> sys_inv y.
Proof. intros H Hs. induction Hs; eauto using sys_inv_step. Qed.

(** A freshly created log. *)
Lemma sys_inv_fresh cmin :
  sys_inv (Running (mkStore [] (Some (mkFile [] 0)) 0 0 cmin), []).
Proof.
  split; [constructor|]. split; [|done]. apply (inv_recovered [] cmin). constructor.
Qed.
