(* ===== verification/LogScan.v ===== *)
(** * Range scans of the ordered log store

    [OrderedLogStore::Scan] walks the map with iterators, forwards or
    backwards, between a prefix and two optional bounds, and stops at a count
    or a byte limit. [scan_page] says which entries a call returns in terms of
    the entries of the map that are in range, and [scan_resume] that a client
    that resumes after the last key of a page misses and repeats nothing. *)

From S2P Require Import Prelude OrderedMap LogCodec LogStore.
From Stdlib Require Import ZArith Lia Sorted.

Import OMap Log LogStore.
Open Scope Z_scope.

Record ScanOptions := mkScan {
  prefix : bytes; start_after : bytes; end_before : bytes;
  limit : Z; max_bytes : Z; reverse : bool }.

Definition is_empty (b : bytes) : bool := match b with [] => true | _ => false end.

(** The lambda [take] would refuse [kv] after [out] of [bytes] bytes. *)
Definition page_full (o : ScanOptions) (out : omap) (bytes : Z) (kv : entry) : bool :=
  (negb (limit o =? 0) && (limit o <=? zlen out)) ||
  (negb (max_bytes o =? 0) && negb (zlen out =? 0) && (max_bytes o <? bytes + entry_bytes kv)).

(** A walk over the entries [l] that ends at the first one that satisfies
    [stop] or that [take] refuses; the flag is [more]. *)
Fixpoint scan_walk (o : ScanOptions) (stop : entry -> bool) (l : omap) (out : omap) (bytes : Z) :
    omap * bool :=
  match l with
  | [] => (out, false)
  | kv :: r =>
      if stop kv then (out, false)
      else if page_full o out bytes kv then (out, true)
      else scan_walk o stop r (out ++ [kv]) (bytes + entry_bytes kv)
  end.

(** The position a forward scan starts at. *)
Definition scan_begin (o : ScanOptions) (m : omap) : nat :=
  if is_empty (start_after o) || blt (start_after o) (prefix o)
  then lower_bound (prefix o) m else upper_bound (start_after o) m.

Definition forward_stop (o : ScanOptions) (kv : entry) : bool :=
  negb (PrefixMatches kv.1 (prefix o)) ||
  (negb (is_empty (end_before o)) && ble (end_before o) kv.1).

(** The position a reverse scan walks down from: the first entry past the
    prefix, or the first at or above [end_before] when that is lower. *)
Definition scan_end (o : ScanOptions) (m : omap) : nat :=
  let lb := lower_bound (prefix o) m in
  let it := (lb + count_while (fun kv => PrefixMatches kv.1 (prefix o)) (drop lb m))%nat in
  if is_empty (end_before o) then it
  else
    let eb := lower_bound (end_before o) m in
    if (it =? length m)%nat then eb
    else
      match m !! eb, m !! it with
      | Some e, Some i => if blt e.1 i.1 then eb else it
      | _, _ => it
      end.

Definition reverse_stop (o : ScanOptions) (kv : entry) : bool :=
  negb (PrefixMatches kv.1 (prefix o)) ||
  (negb (is_empty (start_after o)) && ble kv.1 (start_after o)).

(** [std::vector<KV> Scan(const ScanOptions& o, bool* has_more) const]. *)
Definition Scan (o : ScanOptions) (s : Store) : omap * bool :=
  if reverse o
  then scan_walk o (reverse_stop o) (rev (take (scan_end o (map_ s)) (map_ s))) [] 0
  else scan_walk o (forward_stop o) (drop (scan_begin o (map_ s)) (map_ s)) [] 0.

(** ** What is in range *)

Definition in_range (o : ScanOptions) (k : bytes) : bool :=
  starts_with (prefix o) k &&
  (is_empty (start_after o) || blt (start_after o) k) &&
  (is_empty (end_before o) || blt k (end_before o)).

(** The entries of the map a scan ranges over, in the order it visits them. *)
Definition candidates (o : ScanOptions) (m : omap) : omap :=
  let l := List.filter (fun kv => in_range o kv.1) m in
  if reverse o then rev l else l.

Lemma PrefixMatches_starts_with k p : PrefixMatches k p = starts_with p k.
Proof.
  unfold PrefixMatches. destruct (starts_with p k) eqn:E.
  - apply starts_with_iff in E as [r ->]. rewrite take_app_length, bool_decide_true by done.
    rewrite andb_true_r. apply Z.leb_le. len_simpl. lia.
  - apply andb_false_iff. right. apply bool_decide_false. intros Ht.
    assert (starts_with p k = true); [|congruence]. apply starts_with_iff.
    exists (drop (length p) k). by rewrite <- Ht at 1; rewrite take_drop.
Qed.

(** A walk whose stop condition, once true, stays true is a walk over the
    entries that do not satisfy it. *)
Lemma scan_walk_filter o stop l out bytes :
  StronglySorted (fun a b => stop a = true -> stop b = true) l ->
  scan_walk o stop l out bytes =
  scan_walk o (fun _ => false) (List.filter (fun kv => negb (stop kv)) l) out bytes.
Proof.
  intros H. revert out bytes. induction H as [|kv l Hl IH Hkv]; intros out n; [done|].
  simpl. destruct (stop kv) eqn:E; simpl.
  - assert (List.filter (fun kv => negb (stop kv)) l = []) as ->; [|done].
    clear -Hkv E. induction Hkv as [|x l Hx _ IH]; [done|]. simpl. by rewrite Hx.
  - destruct (page_full o out n kv); [done|]. apply IH.
Qed.

(** What a walk with nothing to stop at but the limits returns. *)
Lemma scan_walk_page o l out bytes :
  bytes = live_size out ->
  exists page rest,
    l = page ++ rest /\
    scan_walk o (fun _ => false) l out bytes =
      (out ++ page, match rest with [] => false | _ => true end) /\
    (forall p1 kv p2, page = p1 ++ kv :: p2 ->
       page_full o (out ++ p1) (live_size (out ++ p1)) kv = false) /\
    match rest with
    | [] => True
    | kv :: _ => page_full o (out ++ page) (live_size (out ++ page)) kv = true
    end.
Proof.
  revert out bytes. induction l as [|kv l IH]; intros out n ->; simpl.
  { exists [], []. rewrite !app_nil_r. split_and!; try done. intros [|??] ? ? ?; done. }
  destruct (page_full o out (live_size out) kv) eqn:E.
  { exists [], (kv :: l). rewrite !app_nil_r. split_and!; try done. intros [|??] ? ? ?; done. }
  destruct (IH (out ++ [kv]) (live_size out + entry_bytes kv)) as (page & rest & -> & Hw & Hp & Hr).
  { rewrite live_size_app. simpl. lia. }
  exists (kv :: page), rest. rewrite Hw, <- !app_assoc in *. split_and!; try done.
  intros [|x p1] kv' p2; simpl; intros [= -> ->]; [by rewrite app_nil_r|].
  specialize (Hp p1 kv' p2 eq_refl). by rewrite <- app_assoc in Hp.
Qed.

(** ** The two walks visit the entries in range *)

Lemma filter_none {A} (P : A -> bool) l :
  Forall (fun x => P x = false) l -> List.filter P l = [].
Proof. induction 1 as [|x l Hx _ IH]; simpl; [done|]. by rewrite Hx. Qed.

Lemma filter_ext_Forall {A} (P Q : A -> bool) l :
  Forall (fun x => P x = Q x) l -> List.filter P l = List.filter Q l.
Proof. induction 1 as [|x l Hx _ IH]; simpl; [done|]. by rewrite Hx, IH. Qed.

Lemma sorted_impl_StronglySorted (R : entry -> entry -> Prop) (Q : entry -> Prop) m :
  (forall a b, Q a -> key_lt a b -> R a b) -> Forall Q m -> sorted m -> StronglySorted R m.
Proof.
  intros HR HQ Hs. induction Hs as [|kv m Hm IH Hkv]; constructor; inversion HQ; subst; auto.
  eapply Forall_impl; [exact Hkv|]. auto.
Qed.

Lemma StronglySorted_rev {A} (R : A -> A -> Prop) l :
  StronglySorted (fun a b => R b a) l -> StronglySorted R (rev l).
Proof.
  induction 1 as [|x l Hl IH Hx]; simpl; [constructor|].
  clear Hl. rewrite <- (rev_involutive l) in Hx. apply Forall_rev in Hx.
  rewrite rev_involutive in Hx. induction IH as [|y r Hr IHr Hy]; simpl.
  - repeat constructor.
  - inversion Hx; subst. constructor; [by apply IHr|]. apply Forall_app. auto.
Qed.

Lemma blt_ge_false a b : blt a b = negb (ble b a).
Proof. unfold ble. by rewrite negb_involutive. Qed.

Lemma is_empty_nil b : is_empty b = true -> b = [].
Proof. by destruct b. Qed.

(** What the start position of a forward scan guarantees. *)
Lemma scan_begin_take o m :
  Forall (fun kv => in_range o kv.1 = false) (take (scan_begin o m) m).
Proof.
  unfold scan_begin, in_range. destruct (_ || _) eqn:E.
  - eapply Forall_impl; [apply lower_bound_take|]. intros kv H. simpl in *.
    destruct (starts_with _ _) eqn:F; [|done].
    apply starts_with_ble in F. unfold ble in F. by rewrite H in F.
  - eapply Forall_impl; [apply upper_bound_take|]. intros kv H. simpl in *.
    apply orb_false_iff in E as [E _]. rewrite E. unfold ble in H.
    rewrite negb_true_iff in H. rewrite H. simpl. by rewrite andb_false_r.
Qed.

Lemma scan_begin_drop o m :
  sorted m ->
  Forall (fun kv => ble (prefix o) kv.1 = true /\
                    (is_empty (start_after o) || blt (start_after o) kv.1) = true)
         (drop (scan_begin o m) m).
Proof.
  intros Hs. unfold scan_begin. destruct (_ || _) eqn:E.
  - eapply Forall_impl; [by apply lower_bound_drop|]. intros kv H. simpl in *. split; [done|].
    apply orb_true_iff in E as [->|E]; [done|]. apply orb_true_iff. right.
    by eapply blt_ble_trans.
  - apply orb_false_iff in E as [E1 E2].
    eapply Forall_impl; [by apply upper_bound_drop|]. intros kv H. simpl in *.
    split; [|by rewrite H, orb_true_r]. apply ble_cases. left.
    eapply ble_blt_trans; [|done]. unfold ble. by rewrite E2.
Qed.

Lemma forward_candidates o m out bytes :
  sorted m ->
  scan_walk o (forward_stop o) (drop (scan_begin o m) m) out bytes =
  scan_walk o (fun _ => false) (List.filter (fun kv => in_range o kv.1) m) out bytes.
Proof.
  intros Hs. pose proof (scan_begin_drop o m Hs) as Hd.
  rewrite scan_walk_filter.
  - f_equal. rewrite <- (take_drop (scan_begin o m) m) at 3. rewrite List.filter_app.
    rewrite (filter_none _ (take _ _)) by apply scan_begin_take. simpl.
    apply filter_ext_Forall. eapply Forall_impl; [exact Hd|]. intros kv [_ H]. simpl.
    unfold forward_stop, in_range. rewrite PrefixMatches_starts_with, H, andb_true_r, blt_ge_false.
    by destruct (starts_with _ _), (is_empty (end_before o)), (ble _ _).
  - eapply sorted_impl_StronglySorted; [|exact Hd|by apply sorted_drop].
    intros a b [Ha _] Hab. unfold forward_stop. rewrite !PrefixMatches_starts_with.
    assert (ble a.1 b.1 = true) as Hle by (apply ble_cases; by left).
    intros H. apply orb_true_iff. apply orb_true_iff in H as [H|H].
    + left. apply negb_true_iff. apply negb_true_iff in H. by eapply bcmp_gt_past_prefix.
    + right. apply andb_true_iff in H as [-> H]. simpl. by eapply ble_trans.
Qed.

(** The end position of a reverse scan splits the map between the keys the
    upper bounds admit and those they do not. *)
Definition below_end (o : ScanOptions) (k : bytes) : Prop :=
  (blt k (prefix o) = true \/ starts_with (prefix o) k = true) /\
  (is_empty (end_before o) || blt k (end_before o)) = true.

Lemma past_prefix p m :
  sorted m ->
  let it := (lower_bound p m + count_while (fun kv => PrefixMatches kv.1 p)
                                           (drop (lower_bound p m) m))%nat in
  Forall (fun kv => blt kv.1 p = true \/ starts_with p kv.1 = true) (take it m) /\
  Forall (fun kv => starts_with p kv.1 = false) (drop it m).
Proof.
  intros Hs it. set (lb := lower_bound p m) in *. set (n := count_while _ _) in *.
  pose proof (lower_bound_take p m) as H1. pose proof (lower_bound_drop p m Hs) as H2.
  fold lb in H1, H2. split.
  - rewrite <- (take_drop lb m), take_app_ge by (rewrite length_take; lia).
    apply Forall_app_2; [eapply Forall_impl; [exact H1|]; auto|].
    pose proof (count_while_le (fun kv => PrefixMatches kv.1 p) (drop lb m)).
    replace (it - length (take lb m))%nat with n
      by (rewrite length_take_le; [lia|apply count_while_le]).
    eapply Forall_impl; [apply (count_while_take (fun kv => PrefixMatches kv.1 p))|].
    intros kv. simpl. rewrite PrefixMatches_starts_with. auto.
  - unfold it. rewrite <- drop_drop.
    assert (sorted (drop n (drop lb m))) as Hs' by (by apply sorted_drop, sorted_drop).
    assert (Forall (fun kv => ble p kv.1 = true) (drop n (drop lb m))) as H3 by (by apply Forall_drop).
    destruct (drop n (drop lb m)) as [|x r] eqn:E; [done|].
    apply (count_while_stop (fun kv => PrefixMatches kv.1 p)) in E.
    rewrite PrefixMatches_starts_with in E. apply sorted_cons in Hs' as [_ Hr].
    inversion H3; subst. constructor; [done|].
    eapply Forall_impl; [exact Hr|]. intros y Hy. simpl.
    eapply bcmp_gt_past_prefix; [done..|]. apply ble_cases. by left.
Qed.

Lemma sorted_lookup_lt m i j a b :
  sorted m -> m !! i = Some a -> m !! j = Some b -> (i < j)%nat -> blt a.1 b.1 = true.
Proof.
  intros Hs. revert i j. induction Hs as [|kv m Hm IH Hkv]; intros i j Ha Hb Hij; [done|].
  destruct j as [|j]; [lia|]. simpl in Hb. destruct i as [|i]; simpl in Ha.
  - injection Ha as <-. rewrite Forall_lookup in Hkv. by apply (Hkv j).
  - eapply IH; eauto. lia.
Qed.

Definition prefix_end (p : bytes) (m : omap) : nat :=
  (lower_bound p m + count_while (fun kv => PrefixMatches kv.1 p) (drop (lower_bound p m) m))%nat.

Lemma prefix_end_le p m : (prefix_end p m <= length m)%nat.
Proof.
  unfold prefix_end. pose proof (count_while_le (fun kv => PrefixMatches kv.1 p)
    (drop (lower_bound p m) m)) as H. rewrite length_drop in H.
  pose proof (count_while_le (fun kv => blt kv.1 p) m). unfold lower_bound in *. lia.
Qed.

Lemma scan_end_min o m :
  sorted m ->
  scan_end o m = if is_empty (end_before o) then prefix_end (prefix o) m
                 else Nat.min (prefix_end (prefix o) m) (lower_bound (end_before o) m).
Proof.
  intros Hs. unfold scan_end. fold (prefix_end (prefix o) m).
  destruct (is_empty (end_before o)); [done|].
  pose proof (prefix_end_le (prefix o) m) as H1.
  pose proof (count_while_le (fun kv => blt kv.1 (end_before o)) m) as H2.
  fold (lower_bound (end_before o) m) in H2.
  set (it := prefix_end _ _) in *. set (eb := lower_bound _ _) in *.
  destruct (Nat.eqb_spec it (length m)); [lia|].
  destruct (m !! it) as [i|] eqn:Ei; [|apply lookup_ge_None in Ei; lia].
  destruct (m !! eb) as [e|] eqn:Ee; [|apply lookup_ge_None in Ee; lia].
  destruct (blt e.1 i.1) eqn:Eb.
  - destruct (decide (eb <= it)%nat); [lia|].
    rewrite (blt_asym i.1 e.1) in Eb; [done|]. eapply (sorted_lookup_lt m it eb); eauto. lia.
  - destruct (decide (it <= eb)%nat); [lia|].
    rewrite (sorted_lookup_lt m eb it e i) in Eb; [done|done..|lia].
Qed.

Lemma scan_end_take o m : sorted m -> Forall (fun kv => below_end o kv.1) (take (scan_end o m) m).
Proof.
  intros Hs. rewrite scan_end_min by done. destruct (past_prefix (prefix o) m Hs) as [H _].
  fold (prefix_end (prefix o) m) in H. unfold below_end.
  destruct (is_empty (end_before o)); simpl.
  - eapply Forall_impl; [exact H|]. auto.
  - apply Forall_and. split.
    + rewrite Nat.min_comm, <- take_take. by apply Forall_take.
    + rewrite <- take_take. apply Forall_take, lower_bound_take.
Qed.

Lemma drop_min_Forall {A} (P : A -> Prop) a b (l : list A) :
  Forall P (drop a l) -> Forall P (drop b l) -> Forall P (drop (Nat.min a b) l).
Proof. intros H1 H2. by destruct (Nat.min_spec a b) as [[_ ->]|[_ ->]]. Qed.

Lemma scan_end_drop o m :
  sorted m -> Forall (fun kv => in_range o kv.1 = false) (drop (scan_end o m) m).
Proof.
  intros Hs. rewrite scan_end_min by done. destruct (past_prefix (prefix o) m Hs) as [_ H].
  fold (prefix_end (prefix o) m) in H.
  assert (Forall (fun kv => in_range o kv.1 = false) (drop (prefix_end (prefix o) m) m)) as H1.
  { eapply Forall_impl; [exact H|]. intros kv Hk. unfold in_range. simpl in *. by rewrite Hk. }
  destruct (is_empty (end_before o)) eqn:E; [done|]. apply drop_min_Forall; [done|].
  eapply Forall_impl; [by apply lower_bound_drop|]. intros kv Hk. simpl in *.
  unfold in_range. by rewrite E, (blt_ge_false kv.1), Hk, andb_false_r.
Qed.

Lemma reverse_candidates o m out bytes :
  sorted m ->
  scan_walk o (reverse_stop o) (rev (take (scan_end o m) m)) out bytes =
  scan_walk o (fun _ => false) (rev (List.filter (fun kv => in_range o kv.1) m)) out bytes.
Proof.
  intros Hs. pose proof (scan_end_take o m Hs) as Ht. rewrite scan_walk_filter.
  - f_equal. rewrite List.filter_rev. f_equal.
    rewrite <- (take_drop (scan_end o m) m) at 3. rewrite List.filter_app.
    rewrite (filter_none _ (drop _ _)) by (by apply scan_end_drop). rewrite app_nil_r.
    apply filter_ext_Forall. eapply Forall_impl; [exact Ht|]. intros kv [_ H]. simpl.
    unfold reverse_stop, in_range. rewrite PrefixMatches_starts_with, H, andb_true_r, blt_ge_false.
    by destruct (starts_with _ _), (is_empty (start_after o)), (ble _ _).
  - apply StronglySorted_rev.
    apply (sorted_take (scan_end o m)) in Hs. induction Hs as [|kv l Hl IH Hkv]; constructor.
    { apply IH. by inversion Ht. }
    inversion Ht as [|? ? Hk Htl]; subst. rewrite Forall_forall in Htl, Hkv |- *.
    intros y Hy. specialize (Hkv _ Hy). destruct (Htl _ Hy) as [Hp _]. clear -Hp Hkv.
    unfold reverse_stop. rewrite !PrefixMatches_starts_with.
    assert (ble kv.1 y.1 = true) as Hle by (apply ble_cases; by left).
    intros H. apply orb_true_iff. apply orb_true_iff in H as [H|H].
    + left. apply negb_true_iff in H. destruct Hp as [Hp|Hp]; [|congruence].
      apply negb_true_iff. destruct (starts_with (prefix o) kv.1) eqn:E; [|done].
      apply starts_with_ble in E. unfold ble in E.
      by rewrite (blt_trans _ _ _ Hkv Hp) in E.
    + right. apply andb_true_iff in H as [-> H]. simpl. by eapply ble_trans.
Qed.

Lemma Scan_candidates o s :
  sorted (map_ s) -> Scan o s = scan_walk o (fun _ => false) (candidates o (map_ s)) [] 0.
Proof.
  intros Hs. unfold Scan, candidates.
  destruct (reverse o); [by apply reverse_candidates|by apply forward_candidates].
Qed.

(** ** Pages *)

Lemma page_full_limit o out n kv :
  0 <= limit o -> limit o <> 0 -> page_full o out n kv = false -> zlen out < limit o.
Proof.
  intros H0 Hl H. unfold page_full in H. apply orb_false_iff in H as [H _].
  apply andb_false_iff in H as [H|H].
  - apply negb_false_iff, Z.eqb_eq in H. lia.
  - apply Z.leb_gt in H. lia.
Qed.

Lemma page_full_bytes o out n kv :
  max_bytes o <> 0 -> out <> [] -> page_full o out n kv = false -> n + entry_bytes kv <= max_bytes o.
Proof.
  intros Hm Ho H. unfold page_full in H. apply orb_false_iff in H as [_ H].
  destruct out as [|x out]; [done|].
  apply andb_false_iff in H as [H|H]; [|by apply Z.ltb_ge in H].
  apply andb_false_iff in H as [H|H]; apply negb_false_iff, Z.eqb_eq in H; [done|].
  simpl in H. lia.
Qed.

(** What a page of the entries [l] is. *)
Definition page_of (o : ScanOptions) (l out : omap) (more : bool) : Prop :=
  exists rest,
    l = out ++ rest /\
    (more = true <-> rest <> []) /\
    (limit o <> 0 -> zlen out <= limit o) /\
    (max_bytes o <> 0 -> live_size out <= max_bytes o \/ length out = 1%nat \/ out = []) /\
    (rest <> [] -> out <> []) /\
    (forall kv r, rest = kv :: r ->
       limit o <> 0 /\ zlen out = limit o \/
       max_bytes o <> 0 /\ max_bytes o < live_size out + entry_bytes kv).

Lemma scan_walk_page_of o l out more :
  0 <= limit o -> scan_walk o (fun _ => false) l [] 0 = (out, more) -> page_of o l out more.
Proof.
  intros Hl H.
  destruct (scan_walk_page o l [] 0 eq_refl) as (page & rest & Hc & Hw & Hin & Hout).
  rewrite H in Hw. simpl in Hw. injection Hw as -> ->. simpl in *. exists rest.
  assert (limit o <> 0 -> zlen page <= limit o) as HL.
  { intros Hn. destruct page as [|kv p1 _] using rev_ind; [simpl; lia|].
    specialize (Hin p1 kv [] eq_refl). apply page_full_limit in Hin; try done. len_simpl. simpl. lia. }
  split_and!; [done|by destruct rest|done|..].
  - intros Hm. destruct page as [|kv p1 _] using rev_ind; [by auto|].
    destruct p1 as [|x p1]; [by auto|]. left.
    specialize (Hin (x :: p1) kv [] eq_refl). apply page_full_bytes in Hin; [|done..].
    rewrite live_size_app. simpl in *. lia.
  - destruct rest as [|kv r]; [done|]. intros _ ->. unfold page_full in Hout. simpl in Hout.
    rewrite !andb_false_r, orb_false_r in Hout. reflect_bools. lia.
  - intros kv r ->. unfold page_full in Hout. apply orb_true_iff in Hout as [Hf|Hf].
    + left. reflect_bools. specialize (HL ltac:(lia)). lia.
    + right. reflect_bools. lia.
Qed.

(** [C8] A scan of a sorted map returns a page: an initial segment of the
    entries in range (under the prefix, strictly between the two bounds), in
    key order or in reverse key order. The page respects the count limit, and
    the byte limit unless it is a single entry; it is never empty while
    something is in range; it ends early only when the next entry would break
    a limit; and [has_more] says exactly whether something in range is left. *)
Theorem scan_page o s out more :
  sorted (map_ s) -> 0 <= limit o -> Scan o s = (out, more) ->
  exists rest,
    candidates o (map_ s) = out ++ rest /\
    (more = true <-> rest <> []) /\
    (limit o <> 0 -> zlen out <= limit o) /\
    (max_bytes o <> 0 -> live_size out <= max_bytes o \/ length out = 1%nat \/ out = []) /\
    (rest <> [] -> out <> []) /\
    (forall kv r, rest = kv :: r ->
       limit o <> 0 /\ zlen out = limit o \/
       max_bytes o <> 0 /\ max_bytes o < live_size out + entry_bytes kv).
Proof.
  intros Hs Hl H. rewrite Scan_candidates in H by done. by apply scan_walk_page_of.
Qed.

Lemma scan_page_witness :
  let s := mkStore [([x61], [x01]); ([x61; x62], []); ([x62], [])] None 0 0 0 in
  Scan (mkScan [x61] [] [] 1 0 false) s = ([([x61], [x01])], true) /\
  exists rest, candidates (mkScan [x61] [] [] 1 0 false) (map_ s) = [([x61], [x01])] ++ rest.
Proof.
  intros s. split; [reflexivity|].
  destruct (scan_page (mkScan [x61] [] [] 1 0 false) s [([x61], [x01])] true) as (rest & H & _).
  - repeat constructor.
  - simpl. lia.
  - reflexivity.
  - exists rest. exact H.
Defined.

(** The options of the call that continues after the key [k]. *)
Definition resume (o : ScanOptions) (k : bytes) : ScanOptions :=
  if reverse o then mkScan (prefix o) (start_after o) k (limit o) (max_bytes o) true
  else mkScan (prefix o) k (end_before o) (limit o) (max_bytes o) false.

Lemma filter_filter {A} (P Q : A -> bool) l :
  List.filter Q (List.filter P l) = List.filter (fun x => P x && Q x) l.
Proof.
  induction l as [|x l IH]; simpl; [done|]. destruct (P x); simpl; [|done].
  destruct (Q x); by rewrite IH.
Qed.

Lemma sorted_filter_List (P : entry -> bool) m : sorted m -> sorted (List.filter P m).
Proof.
  induction 1 as [|kv m Hm IH Hkv]; simpl; [constructor|]. destruct (P kv); [|done].
  apply sorted_cons. split; [done|]. clear IH Hm.
  induction Hkv; simpl; [done|]. destruct (P x); auto.
Qed.

Lemma filter_above a kv r :
  sorted (a ++ kv :: r) -> List.filter (fun x => blt kv.1 x.1) (a ++ kv :: r) = r.
Proof.
  intros H. apply sorted_app_inv in H as (_ & Hr & Ha). apply sorted_cons in Hr as [_ Hr].
  rewrite List.filter_app, filter_none; simpl.
  - rewrite blt_irrefl. induction Hr as [|x r Hx _ IH]; simpl; [done|].
    unfold key_lt in Hx. rewrite Hx, IH; [done|]. eapply Forall_impl; [exact Ha|].
    intros y Hy. inversion Hy; subst. constructor; [done|]. by inversion H2.
  - eapply Forall_impl; [exact Ha|]. intros y Hy. inversion Hy; subst. by apply blt_asym.
Qed.

Lemma filter_below a kv r :
  sorted (a ++ kv :: r) -> List.filter (fun x => blt x.1 kv.1) (a ++ kv :: r) = a.
Proof.
  intros H. apply sorted_app_inv in H as (_ & Hr & Ha). apply sorted_cons in Hr as [_ Hr].
  rewrite List.filter_app. simpl. rewrite blt_irrefl, (filter_none _ r), app_nil_r.
  - induction Ha as [|x a Hx _ IH]; simpl; [done|]. inversion Hx as [|?? Hk _]; subst.
    unfold key_lt in Hk. by rewrite Hk, IH.
  - eapply Forall_impl; [exact Hr|]. intros y Hy. by apply blt_asym.
Qed.

Lemma in_range_resume o k x :
  in_range o k = true -> k <> [] ->
  in_range (resume o k) x = in_range o x && (if reverse o then blt x k else blt k x).
Proof.
  intros Hk Hne. unfold in_range in *. apply andb_true_iff in Hk as [Hk He].
  apply andb_true_iff in Hk as [_ Hsa].
  assert (is_empty k = false) as Hke by (by destruct k).
  unfold resume. destruct (reverse o); cbn [prefix start_after end_before]; rewrite Hke; cbn [orb].
  - destruct (blt x k) eqn:E; rewrite ?andb_false_r, ?andb_true_r; [|done].
    apply orb_true_iff in He as [->|He]; simpl; rewrite ?andb_true_r; [done|].
    by rewrite (blt_trans _ _ _ E He), orb_true_r, andb_true_r.
  - destruct (blt k x) eqn:E; rewrite ?andb_false_r, ?andb_true_r; [|done].
    apply orb_true_iff in Hsa as [->|Hsa]; simpl; rewrite ?andb_true_r; [done|].
    by rewrite (blt_trans _ _ _ Hsa E), orb_true_r, andb_true_r.
Qed.

Lemma candidates_in_range o m kv : kv ∈ candidates o m -> in_range o kv.1 = true.
Proof.
  unfold candidates. intros H. apply list_elem_of_In in H.
  destruct (reverse o); [apply in_rev in H|]; by apply List.filter_In in H as [_ H].
Qed.

(** Paging is exact: when a page ends with the entry [kv], the entries
    in range for the call that continues after [kv]'s key are those the page
    has not returned, so a client that follows the pages sees every entry in
    range once, in either direction. *)
Theorem scan_resume o m out kv rest :
  sorted m -> kv.1 <> [] -> candidates o m = out ++ kv :: rest ->
  candidates (resume o kv.1) m = rest.
Proof.
  intros Hs Hne Hc.
  assert (in_range o kv.1 = true) as Hk.
  { apply (candidates_in_range o m). rewrite Hc. apply elem_of_app. right. by left. }
  pose proof (sorted_filter_List (fun kv => in_range o kv.1) m Hs) as Hsf.
  unfold candidates in *.
  assert (reverse (resume o kv.1) = reverse o) as -> by (unfold resume; by destruct (reverse o)).
  erewrite List.filter_ext; [|intros x; by apply in_range_resume].
  rewrite <- filter_filter. destruct (reverse o).
  - apply (f_equal (@rev _)) in Hc. rewrite rev_involutive, rev_app_distr in Hc. simpl in Hc.
    rewrite <- app_assoc in Hc. simpl in Hc. rewrite Hc in *. rewrite filter_below by done.
    apply rev_involutive.
  - rewrite Hc in *. by apply filter_above.
Qed.

Lemma scan_resume_witness :
  let m := [([x61], [x01]); ([x61; x62], []); ([x62], [])] in
  candidates (resume (mkScan [x61] [] [] 1 0 false) [x61]) m = [([x61; x62], [])].
Proof.
  intros m. apply (scan_resume (mkScan [x61] [] [] 1 0 false) m [] ([x61], [x01])).
  - repeat constructor.
  - discriminate.
  - reflexivity.
Defined.
