(* ===== verification/LogCorrect.v ===== *)
(** * Correctness of the ordered log store

    The statements a client of [OrderedLogStore] relies on: what [Apply] and
    [DeletePrefix] do when they succeed and when they fail, that compaction is
    invisible, and that after any sequence of batches, failed appends, crashes
    and restarts the store holds the acknowledged batches. The last section
    states two limits of the code: records of 4 GiB, and read errors during
    [Open]. *)

From S2P Require Import Prelude Crc32 OrderedMap LogCodec LogStore LogReplay LogDurability LogScan.
From Stdlib Require Import ZArith Lia Sorted.

Import OMap Log LogStore.
Open Scope Z_scope.

(** ** Codec *)

(** Framing round trip: the front of a file that starts with an encoded
    batch, whatever bytes follow, reads back as that batch (a delete carries
    no value), and the length field says where the next record starts. *)
Theorem record_roundtrip batch r :
  encodable batch ->
  read_frame (EncodeRecord batch ++ r) = Some (wire <$> batch) /\
  drop (Z.to_nat (GetU32 (EncodeRecord batch ++ r))) (EncodeRecord batch ++ r) = r.
Proof.
  intros He. split; [by apply read_frame_record|].
  by rewrite frame_length, Nat2Z.id, drop_app_length.
Qed.

Lemma record_roundtrip_witness :
  let b := [mkMut kPut [x6b] [x76]; mkMut kDel [x64] [x99]] in
  read_frame (EncodeRecord b ++ [x05]) = Some [mkMut kPut [x6b] [x76]; mkMut kDel [x64] []].
Proof.
  intros b. refine (proj1 (record_roundtrip b [x05] _)). vm_compute. reflexivity.
Defined.

(** ** Apply *)

(** An acknowledged [Apply] performs the batch: the map afterwards is the
    batch played on the map before, the log replays to it, and the byte
    accounting is exact, whether or not the call compacted the log. *)
Theorem Apply_acknowledged io cio batch s s' :
  inv s -> small (map_ s) -> admissible batch -> Apply io cio batch s = (true, s') ->
  inv s' /\ map_ s' = play batch (map_ s) /\ LiveBytes s' = live_size (play batch (map_ s)).
Proof.
  intros Hi Hs Ha H. destruct (Apply_true _ _ _ _ _ Hi Hs Ha H) as (Hi' & _ & Hm & _).
  split_and!; [done..|]. unfold LiveBytes. destruct Hi' as (_ & -> & _). by rewrite Hm.
Qed.

(** A store over an empty file, and outcome scripts without a failure. *)
Definition empty_store : Store := mkStore [] (Some (mkFile [] 0)) 0 0 64.
Definition good_append : append_io := mkAppendIo [] true true.
Definition good_compact : compact_io := mkCompactIo true true [] true true.
Definition one_put : list Mutation := [mkMut kPut [x6b] [x76]].

Lemma empty_store_inv : inv empty_store.
Proof. apply (inv_recovered [] 64). constructor. Qed.

Lemma one_put_admissible : admissible one_put.
Proof. split; [vm_compute; reflexivity|]. repeat constructor. Qed.

Lemma Apply_acknowledged_witness :
  map_ (Apply good_append good_compact one_put empty_store).2 = [([x6b], [x76])].
Proof.
  pose proof (Apply_acknowledged good_append good_compact one_put empty_store _
    empty_store_inv (Forall_nil_2 _) one_put_admissible (surjective_pairing _)) as H.
  destruct H as (_ & -> & _). reflexivity.
Defined.

(** A refused [Apply] changes nothing: when the append fails (a short or
    failed write, or a failed fsync) and the rollback truncation succeeds, the
    store, its file included, is what it was. *)
Theorem Apply_refused io cio batch s s' :
  inv s -> a_ftruncate io = true -> Apply io cio batch s = (false, s') -> s' = s.
Proof. apply Apply_false. Qed.

Lemma Apply_refused_witness :
  (Apply (mkAppendIo [WOk 5; WErr] true true) good_compact one_put empty_store).2 = empty_store.
Proof.
  apply (Apply_refused (mkAppendIo [WOk 5; WErr] true true) good_compact one_put).
  - exact empty_store_inv.
  - reflexivity.
  - reflexivity.
Defined.

(** ** DeletePrefix *)

Lemma filter_List_find (P : bytes -> bool) k m :
  sorted m -> find k (List.filter (fun kv => P kv.1) m) = if P k then find k m else None.
Proof.
  intros Hs. destruct (find k (List.filter _ m)) as [v|] eqn:E.
  - apply elem_of_find in E; [|by apply sorted_filter_List].
    apply list_elem_of_In, List.filter_In in E as [E HP].
    simpl in HP. rewrite HP. apply list_elem_of_In, elem_of_find in E; done.
  - destruct (P k) eqn:EP; [|done]. destruct (find k m) as [v|] eqn:F; [|done].
    apply elem_of_find in F; [|done].
    assert ((k, v) ∈ List.filter (fun kv => P kv.1) m) as Hin.
    { apply list_elem_of_In, List.filter_In. split; [by apply list_elem_of_In|done]. }
    apply elem_of_find in Hin; [congruence|by apply sorted_filter_List].
Qed.

Lemma collect_prefix_filter p m :
  sorted m -> Forall (fun kv => ble p kv.1 = true) m ->
  collect_prefix p m =
  (fun kv => mkMut kDel kv.1 []) <$> List.filter (fun kv => starts_with p kv.1) m.
Proof.
  induction 1 as [|kv m Hm IH Hkv]; intros Hp; [done|]. inversion Hp; subst.
  cbn [collect_prefix List.filter]. rewrite PrefixMatches_starts_with.
  destruct (starts_with p kv.1) eqn:E; [by rewrite IH|].
  rewrite filter_none; [done|]. eapply Forall_impl; [exact Hkv|]. intros x Hx. simpl.
  eapply bcmp_gt_past_prefix; [done..|]. apply ble_cases. by left.
Qed.

Lemma delete_batch_filter p s :
  sorted (map_ s) ->
  delete_batch p s =
  (fun kv => mkMut kDel kv.1 []) <$> List.filter (fun kv => starts_with p kv.1) (map_ s).
Proof.
  intros Hs. unfold delete_batch.
  rewrite collect_prefix_filter; [|by apply sorted_drop|by apply lower_bound_drop].
  rewrite <- (take_drop (lower_bound p (map_ s)) (map_ s)) at 3.
  rewrite List.filter_app, (filter_none _ (take _ _)); [done|].
  eapply Forall_impl; [apply lower_bound_take|]. intros kv Hk. simpl in *.
  destruct (starts_with p kv.1) eqn:E; [|done].
  apply starts_with_ble in E. unfold ble in E. by rewrite Hk in E.
Qed.

Lemma find_play_deletes k l m :
  sorted m ->
  find k (play ((fun kv : entry => mkMut kDel kv.1 []) <$> l) m) =
  if bool_decide (k ∈ l.*1) then None else find k m.
Proof.
  unfold play. revert m. induction l as [|kv l IH]; intros m Hs; [done|].
  cbn [fmap list_fmap fold_left]. rewrite IH by auto with store. unfold step_map. simpl op. simpl key.
  destruct (decide (k = kv.1)) as [->|Hne].
  - rewrite find_erase_eq by done. rewrite (bool_decide_true (kv.1 ∈ kv.1 :: _)) by (by left).
    by case_bool_decide.
  - rewrite find_erase_ne by done. erewrite bool_decide_ext; [done|]. set_solver.
Qed.

Lemma play_delete_batch p s :
  sorted (map_ s) ->
  play (delete_batch p s) (map_ s) =
  List.filter (fun kv => negb (starts_with p kv.1)) (map_ s).
Proof.
  intros Hs. apply sorted_ext; [by auto with store|by apply sorted_filter_List|].
  intros k. rewrite delete_batch_filter, find_play_deletes by done.
  rewrite (filter_List_find (fun k => negb (starts_with p k))) by done.
  case_bool_decide as Hk.
  - apply list_elem_of_fmap in Hk as (kv & -> & Hk).
    apply list_elem_of_In, List.filter_In in Hk as [_ ->]. done.
  - destruct (starts_with p k) eqn:E; [|done]. destruct (find k (map_ s)) as [v|] eqn:F; [|done].
    exfalso. apply Hk. apply list_elem_of_fmap. exists (k, v). split; [done|].
    apply elem_of_find in F; [|done]. apply list_elem_of_In, List.filter_In.
    split; [by apply list_elem_of_In|done].
Qed.

(** [DeletePrefix] without an error removes exactly the keys that start
    with the prefix and returns their number. *)
Theorem DeletePrefix_exact io cio p s n s' :
  inv s -> small (map_ s) -> encodable (delete_batch p s) ->
  DeletePrefix io cio p s = (n, false, s') ->
  inv s' /\
  map_ s' = List.filter (fun kv => negb (starts_with p kv.1)) (map_ s) /\
  n = length (List.filter (fun kv => starts_with p kv.1) (map_ s)).
Proof.
  intros Hi Hsm He H. rewrite DeletePrefix_Apply in H.
  destruct (Apply io cio (delete_batch p s) s) as [[] s1] eqn:EA; [|done]. simpl in H.
  injection H as <- <-. pose proof (proj1 Hi) as Hs.
  assert (admissible (delete_batch p s)) as Ha.
  { split; [done|]. apply delete_batch_keys. by apply Forall_drop. }
  destruct (Apply_true _ _ _ _ _ Hi Hsm Ha EA) as (Hi' & _ & Hm & _).
  split; [done|]. rewrite Hm, play_delete_batch by done. split; [done|].
  by rewrite delete_batch_filter, length_fmap.
Qed.

Definition two_keys : Store := (Apply good_append good_compact
  [mkMut kPut [x61] [x01]; mkMut kPut [x62] [x02]] empty_store).2.

Lemma DeletePrefix_exact_witness :
  map_ (DeletePrefix good_append good_compact [x61] two_keys).2 = [([x62], [x02])].
Proof.
  destruct (DeletePrefix_exact good_append good_compact [x61] two_keys 1
    (DeletePrefix good_append good_compact [x61] two_keys).2) as (_ & H & _).
  - apply (Apply_true good_append good_compact
      [mkMut kPut [x61] [x01]; mkMut kPut [x62] [x02]] empty_store two_keys);
      [exact empty_store_inv|exact (Forall_nil_2 _)| |vm_compute; reflexivity].
    split; [vm_compute; reflexivity|repeat constructor].
  - repeat constructor.
  - vm_compute. reflexivity.
  - vm_compute. reflexivity.
  - rewrite H. vm_compute. reflexivity.
Defined.

(** ** Crashes *)

(** Crash atomicity: if the process dies with any number [k] of bytes of
    the record of [b] in the file, or with the file extended by zero bytes,
    the next [Open] recovers the map without [b], or, when the record is
    complete, the map with [b]; it never refuses and never sees part of [b]. *)
Theorem crash_atomic io s f b k n cmin :
  inv s -> fd_ s = Some f -> encodable b ->
  (clean_open io (length (content f ++ take k (EncodeRecord b))) ->
   exists s', Open io (Some (content f ++ take k (EncodeRecord b))) cmin = Opened s' /\ inv s' /\
     map_ s' = if decide (k < length (EncodeRecord b))%nat then map_ s else play b (map_ s)) /\
  (clean_open io (length (content f ++ replicate n x00)) ->
   exists s', Open io (Some (content f ++ replicate n x00)) cmin = Opened s' /\ inv s' /\
     map_ s' = map_ s).
Proof.
  intros (_ & _ & Hf) Ef He. rewrite Ef in Hf. destruct Hf as (h & Hc & _ & _ & Hh & Hp).
  rewrite Hc, <- Hp. split; intros Hio.
  - destruct (decide _) as [Hk|Hk].
    + eexists. rewrite Open_log by auto with store. eauto using inv_recovered.
    + rewrite take_ge in * by lia. rewrite <- log_of_snoc in *.
      assert (Forall encodable (h ++ [b])) as Hh' by (by apply Forall_app_2; [|constructor]).
      rewrite <- (app_nil_r (log_of _)) in *. eexists. rewrite Open_log by auto with store.
      split; [done|]. split; [by apply inv_recovered|]. simpl. by rewrite play_all_app.
  - eexists. rewrite Open_log by auto with store. eauto using inv_recovered.
Qed.

Definition good_open : open_io := mkOpenIo true true true [] true true.

Lemma crash_atomic_witness :
  exists s', Open good_open (Some (take 20 (EncodeRecord one_put))) 64 = Opened s' /\ map_ s' = [].
Proof.
  destruct (proj1 (crash_atomic good_open empty_store (mkFile [] 0) one_put 20 0 64
    empty_store_inv eq_refl ltac:(vm_compute; reflexivity))
    ltac:(vm_compute; repeat split)) as (s' & HO & _ & Hm).
  exists s'. split; [exact HO|exact Hm].
Defined.

(** [C1] No acknowledged batch is lost. After any sequence of acknowledged and
    refused batches, prefix deletions, compactions, crashes in the middle of
    an append and restarts that succeed or fail, a running store holds exactly
    the batches of the history, in order: those acknowledged and, for each
    crash, possibly the one that was complete in the file without having been
    acknowledged. The file a crash left opens, when the system calls succeed,
    to a store that holds them. Assumed, as [step] says: batches fit a record,
    the [ftruncate] of a refused append succeeds, restarts read whole files. *)
Theorem acknowledged_batches_survive cmin x h :
  rtc step (Running (mkStore [] (Some (mkFile [] 0)) 0 0 cmin), []) (x, h) ->
  match x with
  | Running s => map_ s = play_all h [] /\ LiveBytes s = live_size (play_all h [])
  | Down disk =>
      forall io cmin', clean_open io (length disk) ->
      exists s, Open io (Some disk) cmin' = Opened s /\ inv s /\ map_ s = play_all h []
  end.
Proof.
  intros Hs. apply sys_inv_steps in Hs as [_ Hx]; [|apply sys_inv_fresh]. simpl in Hx.
  destruct x as [s|disk].
  - destruct Hx as ((_ & Hl & _) & _ & Hm). split; [done|].
    unfold LiveBytes. by rewrite Hl, Hm.
  - intros io cmin' Hio. destruct Hx as (history & tail & -> & Hd & He & Hp).
    eexists. rewrite Open_log by done. rewrite <- Hp. eauto using inv_recovered.
Qed.

(** A put, a crash in the middle of the next one, a restart and a deletion. *)
Definition crashed_disk : bytes := EncodeRecord one_put ++ take 13 (EncodeRecord one_put).
Definition restarted : Store :=
  mkStore [([x6b], [x76])] (Some (mkFile (EncodeRecord one_put) 23)) 23 2 64.

Lemma acknowledged_batches_survive_witness :
  map_ (DeletePrefix good_append good_compact [] restarted).2 =
  play_all [one_put; delete_batch [] restarted] [].
Proof.
  refine (proj1 (acknowledged_batches_survive 64
    (Running (DeletePrefix good_append good_compact [] restarted).2)
    [one_put; delete_batch [] restarted] _)).
  eapply rtc_l; [apply (step_ack _ good_append good_compact one_put)|].
  { apply one_put_admissible. }
  { vm_compute. reflexivity. }
  eapply rtc_l; [apply (step_crash_torn _ (mkFile (EncodeRecord one_put) 23) one_put 13)|].
  { vm_compute. reflexivity. }
  { vm_compute. reflexivity. }
  { vm_compute. lia. }
  eapply rtc_l; [apply (step_open good_open crashed_disk 64 restarted)|].
  { vm_compute. reflexivity. }
  { vm_compute. reflexivity. }
  eapply rtc_l; [apply (step_delete _ good_append good_compact [] 1)|apply rtc_refl].
  { vm_compute. reflexivity. }
  { vm_compute. reflexivity. }
Defined.

(** ** What Open refuses, and what it does not *)

(** The record at the front of [buf] after the recovered history decides. *)
Lemma Open_corrupt io h buf cmin :
  Forall encodable h -> pread_all (o_reads io) (length (log_of h ++ buf)) 0 = length (log_of h ++ buf) ->
  12 <= zlen buf -> read_frame buf = None -> torn_tail buf = false ->
  Open io (Some (log_of h ++ buf)) cmin = OpenFailed (log_of h ++ buf).
Proof.
  intros Hh Hr Hlen Hf Ht. unfold Open. repeat (break_match; [done|]). rewrite Hr, take_ge by lia.
  fold (replay (log_of h ++ buf) ([], 0)).
  change ([], 0) with (@nil (bytes * bytes), live_size []).
  rewrite replay_log by auto with store. unfold replay.
  destruct buf as [|b0 buf]; [simpl in Hlen; lia|]. cbn [length replay_loop].
  replace (_ <? 12) with false by (symmetry; apply Z.ltb_ge; simpl in *; lia).
  by rewrite Hf, Ht.
Qed.

Lemma not_all_zero (P : byte -> bool) l r : forallb P l = false -> forallb P (l ++ r) = false.
Proof. rewrite forallb_app. by intros ->. Qed.

(** Damage before the end of the log is refused: when a record's bytes
    were altered behind its length field so that the checksum no longer
    matches, and anything follows the record, [Open] fails and leaves the file
    as it was, so nothing after the damage is deleted. *)
Theorem damaged_record_refused io h b dam r cmin :
  Forall encodable (h ++ [b]) ->
  length dam = length (EncodeRecord b) -> take 4 dam = take 4 (EncodeRecord b) -> r <> [] ->
  Crc.crc32_bitwise (take (length dam - 8) (drop 4 dam)) <> GetU32 (drop (length dam - 4) dam) ->
  pread_all (o_reads io) (length (log_of h ++ dam ++ r)) 0 = length (log_of h ++ dam ++ r) ->
  Open io (Some (log_of h ++ dam ++ r)) cmin = OpenFailed (log_of h ++ dam ++ r).
Proof.
  intros Hh Hlen H4 Hr Hcrc Hio. apply Forall_app in Hh as [Hh Hb].
  inversion Hb as [|?? He _]; subst. pose proof (length_EncodeRecord_ge b) as Hge.
  assert (GetU32 (dam ++ r) = zlen dam) as HG.
  { rewrite Hlen. rewrite <- (frame_length b [] He), app_nil_r. unfold GetU32, get_u32.
    rewrite take_app_le by lia. by rewrite H4. }
  assert (0 < zlen r) as Hr0 by (destruct r; simpl; [done|lia]).
  apply Open_corrupt; [done..|len_simpl; lia| |].
  - unfold read_frame. rewrite HG.
    replace (_ && _) with true
      by (symmetry; apply andb_true_iff; split; apply Z.leb_le; len_simpl; lia).
    replace (Z.to_nat (zlen dam - 8)) with (length dam - 8)%nat by lia.
    replace (Z.to_nat (zlen dam - 4)) with (length dam - 4)%nat by lia.
    rewrite drop_app_le by lia. rewrite take_app_le by (rewrite length_drop; lia).
    destruct (Z.eqb_spec (Crc.crc32_bitwise (take (length dam - 8) (drop 4 dam)))
      (GetU32 (drop (length dam - 4) (dam ++ r)))) as [E|]; [|done].
    exfalso. apply Hcrc. rewrite E. rewrite drop_app_le by lia. unfold GetU32, get_u32.
    rewrite take_app_le by (rewrite length_drop; lia). done.
  - unfold torn_tail. rewrite HG.
    replace (_ <? _) with false by (symmetry; apply Z.ltb_ge; len_simpl; lia).
    replace (_ =? _) with false by (symmetry; apply Z.eqb_neq; len_simpl; lia).
    rewrite andb_false_r. simpl. rewrite <- (take_drop 4 (dam ++ r)). apply not_all_zero.
    destruct (forallb _ _) eqn:E; [|done]. exfalso.
    assert (get_le (take 4 (dam ++ r)) = 0) as H0.
    { clear -E. induction (take 4 (dam ++ r)) as [|x l IH]; [done|].
      simpl in E. apply andb_true_iff in E as [E1 E2]. apply bool_decide_eq_true in E1. subst x.
      rewrite get_le_cons, IH by done. done. }
    unfold GetU32, get_u32 in HG. lia.
Qed.

Definition damaged : bytes := take 15 (EncodeRecord one_put) ++ [xff] ++ drop 16 (EncodeRecord one_put).

Lemma damaged_record_refused_witness :
  Open good_open (Some (log_of [one_put] ++ damaged ++ EncodeRecord one_put)) 64 =
  OpenFailed (log_of [one_put] ++ damaged ++ EncodeRecord one_put).
Proof.
  apply (damaged_record_refused good_open [one_put] one_put).
  - repeat constructor.
  - vm_compute. reflexivity.
  - vm_compute. reflexivity.
  - vm_compute. discriminate.
  - vm_compute. discriminate.
  - vm_compute. reflexivity.
Defined.

(** A read error during [Open] deletes acknowledged batches. The read loop
    leaves on an error or an early end of file as it does at the end, so when
    it stops [k] bytes into the record of [b], [Open] takes the rest of that
    record for a torn append, succeeds, and truncates the file before [b]:
    [b] and every batch after it are gone from the map and from the disk. *)
Theorem read_error_deletes_records io h1 b h2 k cmin :
  Forall encodable (h1 ++ [b]) -> (0 < k < length (EncodeRecord b))%nat ->
  o_open io && o_flock io && o_fstat io && o_ftruncate io && o_lseek io = true ->
  pread_all (o_reads io) (length (log_of (h1 ++ b :: h2))) 0 = (length (log_of h1) + k)%nat ->
  Open io (Some (log_of (h1 ++ b :: h2))) cmin =
  Opened (mkStore (play_all h1 []) (Some (mkFile (log_of h1) (length (log_of h1))))
                  (length (log_of h1)) (live_size (play_all h1 [])) cmin).
Proof.
  intros Hh Hk Hio Hr. apply Forall_app in Hh as [Hh Hb]. inversion Hb as [|?? He _]; subst.
  rewrite !andb_true_iff in Hio. destruct Hio as ((((H1 & H2) & H3) & H4) & H5).
  unfold Open. rewrite H1, H2, H3, H4, H5, Hr. simpl negb. cbv iota.
  assert (log_of (h1 ++ b :: h2) = log_of h1 ++ EncodeRecord b ++ log_of h2) as HE
    by (by rewrite log_of_app).
  rewrite HE, take_app_add', take_app_le by (done || lia).
  fold (replay (log_of h1 ++ take k (EncodeRecord b)) ([], 0)).
  change ([], 0) with (@nil (bytes * bytes), live_size []).
  rewrite replay_log, dead_torn by (auto with store || lia).
  rewrite length_app, length_take_le by lia.
  replace (length (log_of h1) + k - k)%nat with (length (log_of h1)) by lia.
  replace (_ <? _)%nat with true by (symmetry; apply Nat.ltb_lt; lia).
  rewrite andb_false_r. unfold ftruncate, lseek. simpl. rewrite take_app_length.
  replace (length (log_of h1) - _)%nat with 0%nat by (rewrite length_app; lia).
  simpl. by rewrite app_nil_r.
Qed.

Lemma read_error_deletes_records_witness :
  Open (mkOpenIo true true true [ROk 30; RErr] true true) (Some (log_of [one_put; one_put])) 64 =
  Opened (mkStore (play_all [one_put] []) (Some (mkFile (log_of [one_put]) 23)) 23 2 64).
Proof.
  apply (read_error_deletes_records (mkOpenIo true true true [ROk 30; RErr] true true)
           [one_put] one_put [] 7 64).
  - repeat constructor.
  - vm_compute. lia.
  - reflexivity.
  - vm_compute. reflexivity.
Defined.

Lemma EncodeRecord_not_zero batch :
  batch <> [] -> zlen batch < 2 ^ 32 ->
  forallb (fun b => bool_decide (b = x00)) (EncodeRecord batch) = false.
Proof.
  intros Hne Hn. destruct (forallb _ _) eqn:E; [|done]. exfalso.
  pose proof (frame_body_count batch []) as HC.
  rewrite forallb_forall in E.
  assert (Forall (fun b => b = x00) (take 4 (drop 4 (EncodeRecord batch)))) as Hz.
  { apply Forall_take, Forall_drop, List.Forall_forall. intros x Hx. apply E in Hx.
    by apply bool_decide_eq_true in Hx. }
  rewrite app_nil_r in HC.
  assert (get_le (take 4 (drop 4 (EncodeRecord batch))) = 0) as H0.
  { clear -Hz. induction Hz as [|x l -> _ IH]; [done|]. by rewrite get_le_cons, IH. }
  unfold GetU32, get_u32 in HC. rewrite H0, u32_small in HC by lia.
  destruct batch; simpl in HC; [done|lia].
Qed.

(** Records of 4 GiB make the store unopenable. [EncodeRecord] writes the
    length modulo 2^32 and nothing limits a batch, so a batch whose record is
    up to eleven bytes beyond 4 GiB is appended and acknowledged like any
    other, and from then on [Open] refuses the file. *)
Theorem oversized_record_unopenable io s f batch cmin :
  inv s -> fd_ s = Some f -> batch <> [] -> zlen batch < 2 ^ 32 ->
  2 ^ 32 <= zlen (EncodeRecord batch) < 2 ^ 32 + 12 ->
  (forall n, pread_all (o_reads io) n 0 = n) ->
  exists s1 f1, AppendLocked good_append batch s = (true, s1) /\ fd_ s1 = Some f1 /\
    Open io (Some (content f1)) cmin = OpenFailed (content f1).
Proof.
  intros Hi Ef Hne Hn Hlen Hio.
  assert (exists s1, AppendLocked good_append batch s = (true, s1)) as [s1 HA].
  { unfold AppendLocked. rewrite Ef. unfold good_append. simpl. destruct (EncodeRecord batch); eauto. }
  destruct (AppendLocked_true _ _ _ _ Hi HA) as (_ & _ & Hf1). rewrite Ef in Hf1.
  destruct Hf1 as (f1 & Ef1 & Hc & _). exists s1, f1. split; [done|]. split; [done|].
  destruct Hi as (_ & _ & Hf). rewrite Ef in Hf. destruct Hf as (h & Hh & _ & _ & He & _).
  rewrite Hc, Hh. pose proof (wrapped_record_len batch []) as HG. rewrite app_nil_r in HG.
  assert (GetU32 (EncodeRecord batch) = zlen (EncodeRecord batch) - 2 ^ 32) as HG'.
  { rewrite HG. unfold u32. symmetry. apply (Z.mod_unique _ _ 1); lia. }
  apply Open_corrupt; [done|by apply Hio|lia|..].
  - unfold read_frame. rewrite HG'. replace (12 <=? _) with false; [done|].
    symmetry. apply Z.leb_gt. lia.
  - unfold torn_tail. rewrite HG', EncodeRecord_not_zero by done.
    replace (_ <? _) with false by (symmetry; apply Z.ltb_ge; lia).
    replace (12 <=? _) with false by (symmetry; apply Z.leb_gt; lia). done.
Qed.

Definition huge_put : list Mutation := [mkMut kPut [] (replicate (Z.to_nat (2 ^ 32 - 21)) x00)].

Lemma huge_put_length : zlen (EncodeRecord huge_put) = 2 ^ 32.
Proof.
  rewrite length_EncodeRecord, length_encode_body. unfold huge_put.
  rewrite concat_encode_cons, length_app, Nat2Z.inj_add, length_encode_mutation.
  unfold wire_value. cbn [op value key]. rewrite length_replicate. simpl length. lia.
Qed.

Lemma oversized_record_unopenable_witness :
  exists s1 f1, AppendLocked good_append huge_put empty_store = (true, s1) /\ fd_ s1 = Some f1 /\
    Open good_open (Some (content f1)) 64 = OpenFailed (content f1).
Proof.
  apply (oversized_record_unopenable good_open empty_store (mkFile [] 0) huge_put 64).
  - exact empty_store_inv.
  - reflexivity.
  - discriminate.
  - reflexivity.
  - rewrite huge_put_length. lia.
  - intros n. simpl. by destruct n.
Defined.
