(* ===== verification/KvInterface.v ===== *)
(** * The ordered key-value interface

    What [AgentStateServiceImpl] needs of its [OrderedLogStore*]: the five
    operations it calls, and the laws it relies on, over the store's contents
    as an ordered map. The service's theorems are proved against this
    interface; the instance at the end discharges it with the log store. *)

From S2P Require Import Prelude OrderedMap LogCodec LogStore LogReplay LogDurability LogScan LogCorrect.
From Stdlib Require Import ZArith Lia Sorted.

Import OMap Log.
Open Scope Z_scope.

(** The operations; [kv_env] is what the system calls of one operation do. *)
Class OrderedKv (S : Type) := {
  kv_env : Type;
  kv_view : S -> omap;
  kv_get : bytes -> S -> option bytes;
  kv_scan : ScanOptions -> S -> omap * bool;
  kv_apply : kv_env -> list Mutation -> S -> bool * S;
  kv_delete_prefix : kv_env -> bytes -> S -> nat * bool * S }.

(** The laws. [kv_ok] is the store's invariant, [kv_fits] and
    [kv_delete_fits] the size limits within which a write is logged as
    intended, [kv_clean] an environment in which a failed append can be undone. *)
Class OrderedKvLaws (S : Type) `{OrderedKv S} := {
  kv_ok : S -> Prop;
  kv_fits : list Mutation -> Prop;
  kv_delete_fits : bytes -> S -> Prop;
  kv_clean : kv_env -> Prop;
  kv_sorted s : kv_ok s -> sorted (kv_view s);
  kv_get_spec k s : kv_ok s -> kv_get k s = find k (kv_view s);
  kv_scan_spec o s :
    kv_ok s -> kv_scan o s = scan_walk o (fun _ => false) (candidates o (kv_view s)) [] 0;
  kv_apply_view e b s s' :
    kv_ok s -> kv_apply e b s = (true, s') -> kv_view s' = play b (kv_view s);
  kv_apply_ok e b s s' :
    kv_ok s -> kv_fits b -> kv_apply e b s = (true, s') -> kv_ok s';
  kv_apply_false e b s s' :
    kv_ok s -> kv_apply e b s = (false, s') ->
    kv_view s' = kv_view s /\ (kv_clean e -> kv_ok s');
  kv_delete_view e p s n s' :
    kv_ok s -> kv_delete_prefix e p s = (n, false, s') ->
    kv_view s' = List.filter (fun kv => negb (starts_with p kv.1)) (kv_view s) /\
    n = length (List.filter (fun kv => starts_with p kv.1) (kv_view s));
  kv_delete_ok e p s n s' :
    kv_ok s -> kv_delete_fits p s -> kv_delete_prefix e p s = (n, false, s') -> kv_ok s';
  kv_delete_false e p s n s' :
    kv_ok s -> kv_delete_prefix e p s = (n, true, s') ->
    kv_view s' = kv_view s /\ (kv_clean e -> kv_ok s') }.

(** ** Filters of an ordered map under writes *)

Definition under (p : bytes) (kv : entry) : bool := starts_with p kv.1.

Section Filters.
Context (P : bytes -> bool).
Notation filt m := (List.filter (fun kv : entry => P kv.1) m).

Lemma filter_insert_other k v m : P k = false -> filt (insert k v m) = filt m.
Proof.
  intros Hk. induction m as [|[k' v'] m IH]; simpl; [by rewrite Hk|].
  destruct (bcmp k k') eqn:E; simpl.
  - apply bcmp_eq in E. subst k'. by rewrite Hk.
  - by rewrite Hk.
  - by rewrite IH.
Qed.

Lemma filter_erase_other k m : P k = false -> filt (erase k m) = filt m.
Proof.
  intros Hk. induction m as [|[k' v'] m IH]; simpl; [done|].
  destruct (bcmp k k') eqn:E; simpl; [|done|by rewrite IH].
  apply bcmp_eq in E. subst k'. by rewrite Hk.
Qed.

Lemma filter_play_other b m :
  Forall (fun mu => P (key mu) = false) b -> filt (play b m) = filt m.
Proof.
  unfold play. intros H. revert m. induction H as [|mu b Hmu _ IH]; intros m; [done|].
  cbn [fold_left]. rewrite IH. unfold step_map.
  destruct (op mu); [by apply filter_insert_other|by apply filter_erase_other].
Qed.

Lemma filter_insert_last k v m :
  sorted m -> P k = true ->
  Forall (fun kv : entry => blt kv.1 k = true) (filt m) ->
  filt (insert k v m) = filt m ++ [(k, v)].
Proof.
  intros Hs Hk. induction Hs as [|[k' v'] m Hm IH Hkv]; simpl; intros HF; [by rewrite Hk|].
  destruct (bcmp k k') eqn:E; simpl.
  - apply bcmp_eq in E. subst k'. rewrite Hk in HF. inversion HF as [|?? HF1 _]; subst. simpl in HF1.
    by rewrite blt_irrefl in HF1.
  - rewrite Hk. apply bcmp_lt_blt in E.
    assert (filt ((k', v') :: m) = []) as HN.
    { apply filter_none. simpl in HF.
      assert (Forall (fun kv : entry => blt k kv.1 = true) ((k', v') :: m)) as Hall.
      { constructor; [done|]. by apply (key_lt_weaken k k' v v'). }
      rewrite Forall_forall in Hall |- *. intros x Hx. destruct (P x.1) eqn:EP; [|done].
      specialize (Hall x Hx).
      assert (blt x.1 k = true) as Hlt; [|by rewrite (blt_asym _ _ Hlt) in Hall].
      rewrite Forall_forall in HF. apply (HF x).
      change (x ∈ List.filter (fun kv : entry => P kv.1) ((k', v') :: m)).
      apply list_elem_of_In, List.filter_In. split; [by apply list_elem_of_In|done]. }
    simpl in HN. by rewrite HN.
  - destruct (P k'); simpl; rewrite IH; try done. by inversion HF.
Qed.

(** Puts at increasing keys above everything that satisfies [P] append. *)
Lemma filter_play_puts b m :
  sorted m -> Forall (fun mu => op mu = kPut /\ P (key mu) = true) b ->
  sorted (filt m ++ ((fun mu => (key mu, value mu)) <$> b)) ->
  filt (play b m) = filt m ++ ((fun mu => (key mu, value mu)) <$> b).
Proof.
  unfold play. intros Hs Hb. revert m Hs.
  induction Hb as [|mu b [Hop HP] _ IH]; intros m Hs Hso; [by rewrite app_nil_r|].
  cbn [fold_left fmap list_fmap]. unfold step_map at 2. rewrite Hop.
  assert (filt (insert (key mu) (value mu) m) = filt m ++ [(key mu, value mu)]) as HF.
  { apply filter_insert_last; [done..|]. apply sorted_app_inv in Hso as (_ & _ & Hso).
    eapply Forall_impl; [exact Hso|]. intros x Hx. by inversion Hx. }
  rewrite IH, HF, <- app_assoc; [done|by apply sorted_insert|].
  rewrite HF, <- app_assoc. exact Hso.
Qed.

End Filters.

Lemma filter_all {A} (P : A -> bool) l : Forall (fun x => P x = true) l -> List.filter P l = l.
Proof. induction 1 as [|x l Hx _ IH]; simpl; [done|]. by rewrite Hx, IH. Qed.

Lemma blt_ne a b : blt a b = true -> a <> b /\ b <> a.
Proof. intros H. split; intros ->; by rewrite blt_irrefl in H. Qed.

Lemma erase_filter k m :
  sorted m -> erase k m = List.filter (fun kv => negb (bool_decide (kv.1 = k))) m.
Proof.
  assert (forall m', Forall (fun kv : entry => blt k kv.1 = true) m' ->
    List.filter (fun kv => negb (bool_decide (kv.1 = k))) m' = m') as Hall.
  { intros m' Hm'. apply filter_all. eapply Forall_impl; [exact Hm'|]. intros x Hx. simpl.
    by rewrite bool_decide_false by (by apply blt_ne in Hx as [??]). }
  induction 1 as [|[k' v'] m Hm IH Hkv]; simpl; [done|].
  destruct (bcmp k k') eqn:E.
  - apply bcmp_eq in E. subst k'. rewrite bool_decide_true by done. simpl. by rewrite Hall.
  - apply bcmp_lt_blt in E. rewrite bool_decide_false by (by apply blt_ne in E as [??]). simpl.
    f_equal. symmetry. apply Hall. by apply (key_lt_weaken k k' v' v').
  - apply bcmp_gt_blt in E. rewrite bool_decide_false by (by apply blt_ne in E as [??]). simpl.
    by f_equal.
Qed.

Lemma filter_erase_last (P : bytes -> bool) m l kv :
  sorted m -> List.filter (fun kv => P kv.1) m = l ++ [kv] ->
  List.filter (fun kv => P kv.1) (erase kv.1 m) = l.
Proof.
  intros Hs Hf. rewrite erase_filter by done. rewrite filter_filter.
  rewrite (List.filter_ext _ (fun x => P x.1 && negb (bool_decide (x.1 = kv.1))))
    by (intros x; apply andb_comm).
  rewrite <- filter_filter, Hf.
  pose proof (sorted_filter_List (fun kv => P kv.1) m Hs) as Hsf. rewrite Hf in Hsf.
  apply sorted_app_inv in Hsf as (_ & _ & Hl). rewrite List.filter_app. simpl.
  rewrite bool_decide_true, app_nil_r by done. apply filter_all.
  eapply Forall_impl; [exact Hl|]. intros x Hx. simpl. inversion Hx as [|?? Hlt _]; subst.
  by rewrite bool_decide_false by (by apply blt_ne in Hlt as [??]).
Qed.

(** ** Scans without bounds *)

(** [ScanOptions] with only a prefix, a limit and a direction set. *)
Definition scan_prefix (p : bytes) (lim : Z) (rv : bool) : ScanOptions :=
  mkScan p [] [] lim 0 rv.

Lemma candidates_prefix p lim rv m :
  candidates (scan_prefix p lim rv) m =
  if rv then rev (List.filter (under p) m) else List.filter (under p) m.
Proof.
  unfold candidates. simpl reverse.
  rewrite (List.filter_ext _ (under p)); [done|]. intros x. unfold in_range, under. simpl.
  by rewrite !andb_true_r.
Qed.

Lemma scan_walk_one p rv l :
  (scan_walk (scan_prefix p 1 rv) (fun _ => false) l [] 0).1 = take 1 l.
Proof.
  destruct l as [|kv l]; [done|]. simpl.
  destruct l as [|kv' l]; [done|]. done.
Qed.

Lemma scan_walk_all p rv l out n :
  scan_walk (scan_prefix p 0 rv) (fun _ => false) l out n = (out ++ l, false).
Proof.
  revert out n. induction l as [|kv l IH]; intros out n; simpl; [by rewrite app_nil_r|].
  rewrite IH, <- app_assoc. done.
Qed.

Section Scans.
Context {S : Type} `{OrderedKvLaws S}.

Lemma kv_apply_true e b s s' :
  kv_ok s -> kv_fits b -> kv_apply e b s = (true, s') ->
  kv_ok s' /\ kv_view s' = play b (kv_view s).
Proof. eauto using kv_apply_view, kv_apply_ok. Qed.

Lemma kv_delete_true e p s n s' :
  kv_ok s -> kv_delete_fits p s -> kv_delete_prefix e p s = (n, false, s') ->
  kv_ok s' /\ kv_view s' = List.filter (fun kv => negb (starts_with p kv.1)) (kv_view s) /\
  n = length (List.filter (fun kv => starts_with p kv.1) (kv_view s)).
Proof. eauto using kv_delete_view, kv_delete_ok. Qed.

(** The newest entry under a prefix. *)
Lemma kv_scan_last p s :
  kv_ok s ->
  (kv_scan (scan_prefix p 1 true) s).1 =
  match last (List.filter (under p) (kv_view s)) with Some kv => [kv] | None => [] end.
Proof.
  intros Hs. rewrite kv_scan_spec, scan_walk_one, candidates_prefix by done.
  destruct (List.filter _ _) as [|kv l _] using rev_ind; [done|].
  rewrite rev_app_distr, last_snoc. done.
Qed.

Lemma kv_scan_first p s :
  kv_ok s ->
  (kv_scan (scan_prefix p 1 false) s).1 = take 1 (List.filter (under p) (kv_view s)).
Proof. intros Hs. by rewrite kv_scan_spec, scan_walk_one, candidates_prefix by done. Qed.

Lemma kv_scan_all p s :
  kv_ok s -> kv_scan (scan_prefix p 0 false) s = (List.filter (under p) (kv_view s), false).
Proof. intros Hs. by rewrite kv_scan_spec, scan_walk_all, candidates_prefix by done. Qed.

End Scans.

(** ** The log store implements the interface *)

#[global] Instance log_kv : OrderedKv LogStore.Store := {
  kv_env := LogStore.append_io * LogStore.compact_io;
  kv_view := LogStore.map_;
  kv_get := LogStore.Get;
  kv_scan := Scan;
  kv_apply e := LogStore.Apply e.1 e.2;
  kv_delete_prefix e := LogStore.DeletePrefix e.1 e.2 }.

Lemma AppendLocked_map io b s : LogStore.map_ (LogStore.AppendLocked io b s).2 = LogStore.map_ s.
Proof. unfold LogStore.AppendLocked. repeat break_match; done. Qed.

Lemma Apply_false_map io cio b s s' :
  LogStore.Apply io cio b s = (false, s') -> LogStore.map_ s' = LogStore.map_ s.
Proof.
  unfold LogStore.Apply. destruct b as [|mu b]; [done|].
  pose proof (AppendLocked_map io (mu :: b) s).
  destruct (LogStore.AppendLocked io (mu :: b) s) as [[] s1]; [done|]. by intros [= <-].
Qed.

Lemma MaybeCompactLocked_map cio s :
  LogStore.map_ (LogStore.MaybeCompactLocked cio s).2 = LogStore.map_ s.
Proof. unfold LogStore.MaybeCompactLocked. repeat break_match; done. Qed.

Lemma Apply_true_map io cio b s s' :
  inv s -> LogStore.Apply io cio b s = (true, s') ->
  LogStore.map_ s' = play b (LogStore.map_ s).
Proof.
  intros (Hs & Hl & _). unfold LogStore.Apply. destruct b as [|mu b]; [by intros [= <-]|].
  pose proof (AppendLocked_map io (mu :: b) s) as Hm.
  assert (LogStore.live_bytes_ (LogStore.AppendLocked io (mu :: b) s).2 = LogStore.live_bytes_ s) as Hlv
    by (unfold LogStore.AppendLocked; repeat break_match; done).
  destruct (LogStore.AppendLocked io (mu :: b) s) as [[] s1]; [|done]. intros [= <-].
  rewrite MaybeCompactLocked_map. simpl in Hm, Hlv. unfold LogStore.ApplyToMapLocked.
  rewrite Hm, Hlv, Hl, apply_batch_spec by done. done.
Qed.

Lemma DeletePrefix_true_map io cio p s n s' :
  inv s -> LogStore.DeletePrefix io cio p s = (n, false, s') ->
  LogStore.Apply io cio (delete_batch p s) s = (true, s') /\
  LogStore.map_ s' = List.filter (fun kv => negb (starts_with p kv.1)) (LogStore.map_ s) /\
  n = length (List.filter (fun kv => starts_with p kv.1) (LogStore.map_ s)).
Proof.
  intros Hi H. rewrite DeletePrefix_Apply in H.
  destruct (LogStore.Apply io cio (delete_batch p s) s) as [[] s1] eqn:EA; [|done]. simpl in H.
  injection H as <- <-. pose proof (proj1 Hi) as Hs. split; [done|].
  rewrite (Apply_true_map _ _ _ _ _ Hi EA), play_delete_batch by done.
  by rewrite delete_batch_filter, length_fmap.
Qed.

#[global] Program Instance log_kv_laws : OrderedKvLaws LogStore.Store := {
  kv_ok s := inv s /\ small (LogStore.map_ s);
  kv_fits := admissible;
  kv_delete_fits p s := encodable (delete_batch p s);
  kv_clean e := LogStore.a_ftruncate e.1 = true }.
Next Obligation. intros s [[? _] _]. done. Qed.
Next Obligation. done. Qed.
Next Obligation. intros o s [[Hs _] _]. exact (Scan_candidates o s Hs). Qed.
Next Obligation. intros [io cio] b s s' [Hi Hs] H. exact (Apply_true_map _ _ _ _ _ Hi H). Qed.
Next Obligation.
  intros [io cio] b s s' [Hi Hs] Hb H. destruct (Apply_true _ _ _ _ _ Hi Hs Hb H) as (?&?&?&_). done.
Qed.
Next Obligation.
  intros [io cio] b s s' [Hi Hs] H. split; [exact (Apply_false_map _ _ _ _ _ H)|].
  intros Hc. by rewrite (Apply_false _ _ _ _ _ Hi Hc H).
Qed.
Next Obligation.
  intros [io cio] p s n s' [Hi Hs] H. exact (proj2 (DeletePrefix_true_map _ _ _ _ _ _ Hi H)).
Qed.
Next Obligation.
  intros [io cio] p s n s' [Hi Hs] He H.
  destruct (DeletePrefix_true_map _ _ _ _ _ _ Hi H) as [HA _].
  assert (admissible (delete_batch p s)) as Ha.
  { split; [done|]. apply delete_batch_keys. by apply Forall_drop. }
  destruct (Apply_true _ _ _ _ _ Hi Hs Ha HA) as (?&?&_). done.
Qed.
Next Obligation.
  intros [io cio] p s n s' [Hi Hs] H. simpl in H. rewrite DeletePrefix_Apply in H.
  destruct (LogStore.Apply io cio (delete_batch p s) s) as [[] s1] eqn:EA; [done|].
  injection H as _ <-. simpl. split; [exact (Apply_false_map _ _ _ _ _ EA)|].
  intros Hc. by rewrite (Apply_false _ _ _ _ _ Hi Hc EA).
Qed.
