(* ===== verification/Mtls.v ===== *)
(** * Peer identities

    [MtlsRegistry] of security/mtls.cpp: the CN and SPIFFE tables the control
    plane publishes, SPIFFE id parsing, and the three decisions made on a peer
    certificate: its identity ([ResolveCert]), the tenant it acts for
    ([ResolveTenant]) and whether it is a cluster workload
    ([VerifyInternalPeer]). The X.509 decoding by OpenSSL is not modelled:
    the definitions start from the [CertInfo] it yields. *)

From S2P Require Import Prelude.
From Stdlib Require Import ZArith Lia.

Open Scope Z_scope.

Module Mtls.

(** A string literal as bytes. *)
Definition str (s : string) : bytes := String.list_byte_of_string s.
Arguments str _%_string.

Record CertInfo := mkCert {
  cn : bytes; dns_sans : list bytes; uri_sans : list bytes; spiffe_id : option bytes }.

Inductive IdentityKind := kUnknown | kTenant | kInternal | kAdmin.

Record Identity := mkIdentity {
  kind : IdentityKind; id_cn : bytes; tenant_id : bytes; display_name : bytes; tenant : bytes }.

Record Registry := mkRegistry {
  by_cn_ : gmap bytes Identity;
  by_spiffe_ : gmap bytes Identity;
  required_trust_domain_ : bytes }.

Definition UpsertMapping (c : bytes) (i : Identity) (r : Registry) : bool * Registry :=
  (match by_cn_ r !! c with None => true | Some _ => false end,
   mkRegistry (<[c := i]> (by_cn_ r)) (by_spiffe_ r) (required_trust_domain_ r)).

Definition RemoveMapping (c : bytes) (r : Registry) : bool * Registry :=
  (match by_cn_ r !! c with None => false | Some _ => true end,
   mkRegistry (delete c (by_cn_ r)) (by_spiffe_ r) (required_trust_domain_ r)).

Definition Resolve (c : bytes) (r : Registry) : option Identity := by_cn_ r !! c.

Definition UpsertSpiffeMapping (u : bytes) (i : Identity) (r : Registry) : bool * Registry :=
  (match by_spiffe_ r !! u with None => true | Some _ => false end,
   mkRegistry (by_cn_ r) (<[u := i]> (by_spiffe_ r)) (required_trust_domain_ r)).

Definition RemoveSpiffeMapping (u : bytes) (r : Registry) : bool * Registry :=
  (match by_spiffe_ r !! u with None => false | Some _ => true end,
   mkRegistry (by_cn_ r) (delete u (by_spiffe_ r)) (required_trust_domain_ r)).

Definition ResolveBySpiffe (u : bytes) (r : Registry) : option Identity := by_spiffe_ r !! u.

Definition SetRequiredTrustDomain (td : bytes) (r : Registry) : Registry :=
  mkRegistry (by_cn_ r) (by_spiffe_ r) td.

(** [s.find(c)]: the position of the first [c], [None] for [npos]. *)
Fixpoint find_byte (c : byte) (s : bytes) : option nat :=
  match s with
  | [] => None
  | b :: s => if bool_decide (b = c) then Some 0%nat else S <$> find_byte c s
  end.

(** [s.find(m)] for a non-empty [m]. *)
Fixpoint find_sub (m s : bytes) : option nat :=
  match s with
  | [] => None
  | b :: s' => if starts_with m s then Some 0%nat else S <$> find_sub m s'
  end.

Definition slash : byte := x2f.
Definition kScheme : bytes := str "spiffe://".
Definition kMarker : bytes := str "/tenant/".

Record SpiffeId := mkSpiffe { trust_domain : bytes; path : bytes }.

(** [ParseSpiffeId(uri)]. *)
Definition ParseSpiffeId (uri : bytes) : option SpiffeId :=
  if (length uri <=? length kScheme)%nat || negb (starts_with kScheme uri) then None
  else
    let rest := drop (length kScheme) uri in
    let out := match find_byte slash rest with
               | None => mkSpiffe rest []
               | Some i => mkSpiffe (take i rest) (drop i rest)
               end in
    if bool_decide (trust_domain out = []) then None
    else if bool_decide (path out = [slash]) then None
    else Some out.

Definition is_nil {A} (l : list A) : bool := match l with [] => true | _ => false end.

(** The CN lookup at the end of [ResolveCert]. *)
Definition resolve_cn (cert : CertInfo) (r : Registry) : option Identity :=
  if is_nil (cn cert) then None else by_cn_ r !! cn cert.

(** [ResolveCert(cert)]. *)
Definition ResolveCert (cert : CertInfo) (r : Registry) : option Identity :=
  match spiffe_id cert with
  | None => resolve_cn cert r
  | Some uri =>
      match ParseSpiffeId uri with
      | None => resolve_cn cert r
      | Some parsed =>
          if negb (is_nil (required_trust_domain_ r)) &&
             negb (bool_decide (trust_domain parsed = required_trust_domain_ r)) then None
          else
            match by_spiffe_ r !! uri with
            | Some i => Some i
            | None => resolve_cn cert r
            end
      end
  end.

(** [TenantFromSpiffePath(uri)]. *)
Definition TenantFromSpiffePath (uri : bytes) : option bytes :=
  match ParseSpiffeId uri with
  | None => None
  | Some parsed =>
      match find_sub kMarker (path parsed) with
      | None => None
      | Some pos =>
          let rest := drop (pos + length kMarker) (path parsed) in
          let id := match find_byte slash rest with None => rest | Some e => take e rest end in
          if is_nil id then None else Some id
      end
  end.

(** [ResolveTenant(cert, registry)]; a null registry is [None]. *)
Definition ResolveTenant (cert : CertInfo) (registry : option Registry) : option bytes :=
  let by_table :=
    match registry with
    | None => None
    | Some r =>
        match ResolveCert cert r with
        | Some i => if is_nil (tenant i) then None else Some (tenant i)
        | None => None
        end
    end in
  match by_table with
  | Some t => Some t
  | None =>
      match (match spiffe_id cert with Some u => TenantFromSpiffePath u | None => None end) with
      | Some t => Some t
      | None => if is_nil (cn cert) then None else Some (cn cert)
      end
  end.

Inductive WorkloadKind := wUnknown | wNode | wControlPlane | wAgent.

Record WorkloadIdentity := mkWorkload { wkind : WorkloadKind; wid : bytes; wdomain : bytes }.

(** [ParseWorkloadIdentity(spiffe_uri)]. *)
Definition ParseWorkloadIdentity (uri : bytes) : option WorkloadIdentity :=
  match ParseSpiffeId uri with
  | None => None
  | Some parsed =>
      let p := path parsed in
      if (length p <? 2)%nat || negb (starts_with [slash] p) then None
      else
        let '(kind_tok, id) :=
          match find_byte slash (drop 1 p) with
          | None => (drop 1 p, [])
          | Some e => (take e (drop 1 p), drop (S e) (drop 1 p))
          end in
        let k := if bool_decide (kind_tok = str "node") then Some wNode
                 else if bool_decide (kind_tok = str "cp") then Some wControlPlane
                 else if bool_decide (kind_tok = str "kvagent") then Some wAgent
                 else None in
        match k with
        | None => None
        | Some k =>
            if match k with wNode | wAgent => is_nil id | _ => false end then None
            else Some (mkWorkload k id (trust_domain parsed))
        end
  end.

(** [VerifyInternalPeer(cert, required_trust_domain)]. *)
Definition VerifyInternalPeer (cert : CertInfo) (required : bytes) : option WorkloadIdentity :=
  match spiffe_id cert with
  | None => None
  | Some uri =>
      match ParseWorkloadIdentity uri with
      | None => None
      | Some wi =>
          if negb (is_nil required) && negb (bool_decide (wdomain wi = required)) then None
          else Some wi
      end
  end.

(** [ParsePem] in a build without OpenSSL: the bytes after "CN=" up to a
    separator. *)
Definition is_cn_end (b : byte) : bool :=
  bool_decide (b ∈ [x2c; slash; x0a; x0d]).

Fixpoint find_cn_end (s : bytes) : nat :=
  match s with
  | [] => 0
  | b :: s => if is_cn_end b then 0%nat else S (find_cn_end s)
  end.

Definition ParsePem (pem : bytes) : option CertInfo :=
  match find_sub (str "CN=") pem with
  | None => None
  | Some pos =>
      let rest := drop (pos + 3) pem in
      let c := take (find_cn_end rest) rest in
      if is_nil c then None else Some (mkCert c [] [] None)
  end.

Definition ExtractCnFromPem (pem : bytes) : option bytes :=
  match ParsePem pem with
  | None => None
  | Some info => if is_nil (cn info) then None else Some (cn info)
  end.

(** ** Positions *)

Lemma find_byte_Some c s i :
  find_byte c s = Some i -> exists r, s = take i s ++ c :: r /\ c ∉ take i s /\ (i < length s)%nat.
Proof.
  revert i. induction s as [|b s IH]; intros i; simpl; [done|].
  case_bool_decide as Hb.
  - intros [= <-]. subst b. exists s. simpl. split_and!; [done|set_solver|lia].
  - destruct (find_byte c s) as [j|]; simpl; [|done]. intros [= <-].
    destruct (IH j eq_refl) as (r & Hs & Hn & Hl). exists r. simpl.
    split_and!; [by rewrite <- Hs|set_solver|lia].
Qed.

Lemma find_byte_None c s : find_byte c s = None <-> c ∉ s.
Proof.
  induction s as [|b s IH]; simpl; [set_solver|]. case_bool_decide as Hb; [set_solver|].
  destruct (find_byte c s); simpl; [|set_solver]. split; [done|set_solver].
Qed.

Lemma find_byte_app c a r : c ∉ a -> find_byte c (a ++ c :: r) = Some (length a).
Proof.
  induction a as [|b a IH]; intros H; simpl.
  - by rewrite bool_decide_true.
  - rewrite bool_decide_false by set_solver. rewrite IH by set_solver. done.
Qed.

Lemma is_nil_true {A} (l : list A) : is_nil l = true <-> l = [].
Proof. by destruct l. Qed.

Lemma is_nil_false {A} (l : list A) : is_nil l = false <-> l <> [].
Proof. by destruct l. Qed.

Lemma find_sub_app m r : m <> [] -> find_sub m (m ++ r) = Some 0%nat.
Proof.
  intros H. pose proof (starts_with_app m r) as HS.
  destruct (m ++ r) eqn:E; [destruct m; done|]. simpl. by rewrite HS.
Qed.

Lemma kMarker_path : exists b r, kMarker = slash :: b :: r.
Proof. eexists _, _. reflexivity. Qed.

Opaque kScheme kMarker.

(** ** SPIFFE ids *)

Definition well_formed_id (p : SpiffeId) : Prop :=
  trust_domain p <> [] /\ slash ∉ trust_domain p /\
  (path p = [] \/ exists b r, path p = slash :: b :: r).

Lemma ParseSpiffeId_print p :
  well_formed_id p -> ParseSpiffeId (kScheme ++ trust_domain p ++ path p) = Some p.
Proof.
  destruct p as [td pa]. intros (Ht & Hs & Hp). simpl in *. unfold ParseSpiffeId.
  rewrite starts_with_app, drop_app_length, length_app, length_app.
  replace (_ <=? _)%nat with false
    by (symmetry; apply Nat.leb_gt; destruct td; simpl; [done|lia]).
  simpl. destruct Hp as [->|(b & r & ->)].
  - rewrite app_nil_r. rewrite (proj2 (find_byte_None _ _)) by done. simpl.
    by rewrite bool_decide_false.
  - rewrite find_byte_app by done. simpl. rewrite take_app_length, drop_app_length.
    by rewrite bool_decide_false, bool_decide_false.
Qed.

Lemma ParseSpiffeId_inv uri p :
  ParseSpiffeId uri = Some p -> uri = kScheme ++ trust_domain p ++ path p /\ well_formed_id p.
Proof.
  unfold ParseSpiffeId. destruct (_ || _) eqn:E; [done|]. apply orb_false_iff in E as [_ E].
  apply negb_false_iff, starts_with_iff in E as [rest ->]. rewrite drop_app_length.
  case_bool_decide as H1; [done|]. case_bool_decide as H2; [done|]. intros [= <-].
  unfold well_formed_id. destruct (find_byte slash rest) as [i|] eqn:F; simpl in *.
  - rewrite take_drop. split; [done|]. apply find_byte_Some in F as (r & Hs & Hn & Hl).
    assert (drop i rest = slash :: r) as Hd.
    { rewrite Hs at 1. rewrite drop_app_length'; [done|]. rewrite length_take. lia. }
    split_and!; [done..|]. rewrite Hd in *. right. destruct r as [|b r]; [done|eauto].
  - rewrite app_nil_r. apply find_byte_None in F. auto.
Qed.

(** SPIFFE ids: [ParseSpiffeId] accepts exactly the strings that consist
    of the scheme, a non-empty trust domain without a slash, and either
    nothing or a slash followed by at least one byte, and returns those
    parts. *)
Theorem ParseSpiffeId_iff uri p :
  ParseSpiffeId uri = Some p <->
  uri = kScheme ++ trust_domain p ++ path p /\ well_formed_id p.
Proof.
  split; [apply ParseSpiffeId_inv|]. intros [-> H]. by apply ParseSpiffeId_print.
Qed.

(** The tenant a [/tenant/<id>] path names. *)
Lemma TenantFromSpiffePath_print td t r :
  td <> [] -> slash ∉ td -> t <> [] -> slash ∉ t -> (r = [] \/ exists r', r = slash :: r') ->
  TenantFromSpiffePath (kScheme ++ td ++ kMarker ++ t ++ r) = Some t.
Proof.
  intros Htd Hsd Ht Hst Hr. unfold TenantFromSpiffePath.
  pose proof (ParseSpiffeId_print (mkSpiffe td (kMarker ++ t ++ r))) as HP. simpl in HP.
  destruct kMarker_path as (b & k & HM).
  rewrite HP; [|unfold well_formed_id; simpl; rewrite HM; simpl; eauto 10].
  cbn [path]. rewrite find_sub_app by (by rewrite HM). cbn [Nat.add]. rewrite drop_app_length. destruct Hr as [->|[r' ->]].
  - rewrite app_nil_r. rewrite (proj2 (find_byte_None _ _)) by done. by destruct t.
  - rewrite find_byte_app, take_app_length by done. by destruct t.
Qed.

(** ** The three decisions *)

(** The trust-domain check does not bind the tenant. For a certificate
    whose SPIFFE id parses under a trust domain other than the required one,
    [ResolveCert] refuses, as its comment says it must; but [ResolveTenant]
    then takes the tenant from that same foreign id's path, or else from the
    certificate's CN, so the certificate is served as that tenant. *)
Theorem foreign_domain_resolves_tenant cert r uri p :
  spiffe_id cert = Some uri -> ParseSpiffeId uri = Some p ->
  required_trust_domain_ r <> [] -> trust_domain p <> required_trust_domain_ r ->
  ResolveCert cert r = None /\
  ResolveTenant cert (Some r) =
    match TenantFromSpiffePath uri with
    | Some t => Some t
    | None => if is_nil (cn cert) then None else Some (cn cert)
    end.
Proof.
  intros Hu Hp Hr Hd.
  assert (ResolveCert cert r = None) as HR.
  { unfold ResolveCert. rewrite Hu, Hp. rewrite (proj2 (is_nil_false _)) by done.
    by rewrite bool_decide_false. }
  split; [done|]. unfold ResolveTenant. by rewrite HR, Hu.
Qed.

Definition rogue_cert : CertInfo := mkCert (str "acme") [] [] (Some (str "spiffe://rogue/w")).
Definition strict_registry : Registry := mkRegistry ∅ ∅ (str "corp").

Lemma foreign_domain_resolves_tenant_witness :
  ResolveTenant rogue_cert (Some strict_registry) = Some (str "acme").
Proof.
  destruct (foreign_domain_resolves_tenant rogue_cert strict_registry (str "spiffe://rogue/w")
              (mkSpiffe (str "rogue") (str "/w"))) as [_ H].
  - reflexivity.
  - vm_compute. reflexivity.
  - discriminate.
  - discriminate.
  - rewrite H. vm_compute. reflexivity.
Defined.

Definition kind_name (k : WorkloadKind) : option bytes :=
  match k with
  | wUnknown => None
  | wNode => Some (str "node")
  | wControlPlane => Some (str "cp")
  | wAgent => Some (str "kvagent")
  end.

(** The tail of a workload id after the kind segment. *)
Definition id_tail (id tail : bytes) : Prop := tail = [] /\ id = [] \/ tail = slash :: id.

Lemma split_segment s tok id :
  (match find_byte slash s with
   | None => (s, [])
   | Some e => (take e s, drop (S e) s)
   end) = (tok, id) <->
  slash ∉ tok /\ exists tail, id_tail id tail /\ s = tok ++ tail.
Proof.
  split.
  - destruct (find_byte slash s) as [e|] eqn:F; intros [= <- <-].
    + apply find_byte_Some in F as (r & Hs & Hn & Hl). split; [done|].
      exists (slash :: r). split; [|done]. right. f_equal. rewrite Hs at 1.
      rewrite <- Nat.add_1_r, <- drop_drop, drop_app_length'; [done|]. rewrite length_take. lia.
    + apply find_byte_None in F. split; [done|]. exists []. rewrite app_nil_r. split; [by left|done].
  - intros (Hn & tail & [[-> ->]| ->] & ->).
    + rewrite app_nil_r. by rewrite (proj2 (find_byte_None _ _)).
    + rewrite find_byte_app by done. rewrite take_app_length.
      by rewrite <- Nat.add_1_r, <- drop_drop, drop_app_length.
Qed.

Lemma kind_name_no_slash k n : kind_name k = Some n -> slash ∉ n /\ n <> [].
Proof.
  destruct k; intros [= <-]; (split; [|done]); apply (bool_decide_unpack (slash ∉ _)); reflexivity.
Qed.

(** The kind chain of [ParseWorkloadIdentity]. *)
Definition kind_of (tok : bytes) : option WorkloadKind :=
  if bool_decide (tok = str "node") then Some wNode
  else if bool_decide (tok = str "cp") then Some wControlPlane
  else if bool_decide (tok = str "kvagent") then Some wAgent else None.

Lemma kind_of_name tok k : kind_of tok = Some k <-> kind_name k = Some tok.
Proof.
  unfold kind_of. split.
  - repeat case_bool_decide; intros [= <-]; by subst.
  - destruct k; intros [= <-]; reflexivity.
Qed.

Definition id_ok (wi : WorkloadIdentity) : Prop :=
  match wkind wi with wNode | wAgent => wid wi <> [] | _ => True end.

Lemma ParseWorkloadIdentity_spec uri wi :
  ParseWorkloadIdentity uri = Some wi <->
  exists n tail, kind_name (wkind wi) = Some n /\ id_tail (wid wi) tail /\ id_ok wi /\
    ParseSpiffeId uri = Some (mkSpiffe (wdomain wi) (slash :: n ++ tail)).
Proof.
  unfold ParseWorkloadIdentity. split.
  - destruct (ParseSpiffeId uri) as [[td p]|] eqn:HP; [|done]. cbn [path trust_domain].
    destruct (_ || _) eqn:E; [done|]. apply orb_false_iff in E as [_ E].
    apply negb_false_iff, starts_with_iff in E as [s ->]. cbn [drop app]; rewrite ?drop_0.
    destruct (match find_byte slash s with None => _ | Some _ => _ end) as [tok id] eqn:ES.
    apply split_segment in ES as (_ & tail & Ht & ->).
    fold (kind_of tok). destruct (kind_of tok) as [k|] eqn:EK; [|done].
    destruct (match k with wNode => _ | _ => _ end) eqn:EI; [done|]. intros [= <-].
    exists tok, tail. apply kind_of_name in EK. split_and!; [done..| |done].
    unfold id_ok. simpl. by destruct k; simpl in *; try (apply is_nil_false).
  - intros (n & tail & Hn & Ht & Hid & ->). destruct wi as [k id td].
    cbn [wkind wid wdomain path trust_domain] in *.
    destruct (kind_name_no_slash _ _ Hn) as [Hs Hne].
    assert ((length (slash :: n ++ tail) <? 2)%nat ||
            negb (starts_with [slash] (slash :: n ++ tail)) = false) as ->.
    { apply orb_false_iff. split; [by destruct n|].
      change (slash :: n ++ tail) with ([slash] ++ n ++ tail). by rewrite starts_with_app. }
    cbn [drop]. rewrite ?drop_0. destruct (match find_byte slash (n ++ tail) with None => _ | Some _ => _ end) as [tok id'] eqn:ES.
    assert ((tok, id') = (n, id)) as [= -> ->].
    { rewrite <- ES. apply split_segment. eauto. }
    fold (kind_of n). rewrite (proj2 (kind_of_name n k)) by done.
    unfold id_ok in Hid. simpl in Hid. by destruct k, id.
Qed.

(** The internal-peer gate admits exactly the workload SVIDs: a peer
    passes as [wi] if and only if its certificate carries a SPIFFE id of the
    form scheme, trust domain, slash, [node], [cp] or [kvagent], and then
    nothing or a slash and the instance id; nodes and agents have a non-empty
    instance id, and the trust domain is the required one when one is
    required. *)
Theorem VerifyInternalPeer_iff cert required wi :
  VerifyInternalPeer cert required = Some wi <->
  exists n tail,
    kind_name (wkind wi) = Some n /\ id_tail (wid wi) tail /\ id_ok wi /\
    wdomain wi <> [] /\ slash ∉ wdomain wi /\
    spiffe_id cert = Some (kScheme ++ wdomain wi ++ slash :: n ++ tail) /\
    (required = [] \/ wdomain wi = required).
Proof.
  unfold VerifyInternalPeer. split.
  - destruct (spiffe_id cert) as [uri|]; [|done].
    destruct (ParseWorkloadIdentity uri) as [wi'|] eqn:E; [|done].
    destruct (_ && _) eqn:ER; [done|]. intros [= ->].
    apply ParseWorkloadIdentity_spec in E as (n & tail & Hn & Ht & Hid & HP).
    apply ParseSpiffeId_inv in HP as [-> (Hd & Hs & _)]. simpl in *.
    exists n, tail. split_and!; try done.
    apply andb_false_iff in ER as [ER|ER]; apply negb_false_iff in ER.
    + left. by apply is_nil_true.
    + right. by apply bool_decide_eq_true in ER.
  - intros (n & tail & Hn & Ht & Hid & Hd & Hs & -> & Hr).
    assert (ParseWorkloadIdentity (kScheme ++ wdomain wi ++ slash :: n ++ tail) = Some wi) as ->.
    { apply ParseWorkloadIdentity_spec. exists n, tail. split_and!; try done.
      apply (ParseSpiffeId_print (mkSpiffe (wdomain wi) (slash :: n ++ tail))).
      destruct (kind_name_no_slash _ _ Hn) as [_ Hne]. unfold well_formed_id. simpl.
      split_and!; [done..|]. right. destruct n as [|b n]; [done|]. by exists b, (n ++ tail). }
    destruct Hr as [-> | ->]; [done|]. by rewrite bool_decide_true, andb_false_r.
Qed.

End Mtls.
