(* ===== verification/AgentState.v ===== *)
(** * The AgentState service

    The item and record handlers of [AgentStateServiceImpl]
    (session/agent_state_service.cpp) over any ordered key-value store. A
    handler takes the service's configuration, the call's authentication
    context, the request and the store, and returns a status or a response
    with the store afterwards. A status is its code; the message text is not
    modelled. The stripe locks only order handlers of one session, which is
    the order in which the definitions are applied. *)

From S2P Require Import Prelude OrderedMap LogCodec LogScan KvInterface Mtls.
From Stdlib Require Import ZArith Lia.

Import OMap Log.
Open Scope Z_scope.

Module Agent.

(** ** Keys *)

Definition PutU32BE (v : Z) : bytes := put_be 4 v.
Definition PutU64BE (v : Z) : bytes := put_be 8 v.
(** [v = (v << 8) | c] over the whole string, in 64 bits. *)
Definition GetU64BE (s : bytes) : Z := u64 (get_be s).

Definition EncodeKey (tenant : bytes) (kind : byte) (rest : bytes) : bytes :=
  PutU32BE (zlen tenant) ++ tenant ++ [kind] ++ rest.

Definition kind_item : byte := x49.    (* 'I' *)
Definition kind_record : byte := x52.  (* 'R' *)

Definition ItemPrefix (tenant session : bytes) : bytes :=
  EncodeKey tenant kind_item (PutU32BE (zlen session) ++ session).

Definition kMaxValueBytes : Z := 4 * 2 ^ 20.
Definition kMaxPageBytes : Z := 4 * 2 ^ 20.
Definition kMaxScanPage : Z := 1000.

(** ** Tenants *)

Inductive StatusCode :=
| CANCELLED | INVALID_ARGUMENT | NOT_FOUND | PERMISSION_DENIED
| FAILED_PRECONDITION | INTERNAL | UNAUTHENTICATED.

(** A status other than OK, or a response. *)
Notation result A := (StatusCode + A)%type.

(** [ctx->auth_context()]: absent, or the values of the properties
    [x509_common_name] and [x509_subject_alternative_name]. *)
Record Ctx := mkCtx { auth_context : option (list bytes * list bytes) }.

Definition is_spiffe (v : bytes) : bool := starts_with (Mtls.str "spiffe://") v.

Definition ClientCertInfo (ctx : Ctx) : Mtls.CertInfo :=
  match auth_context ctx with
  | None => Mtls.mkCert [] [] [] None
  | Some (cns, sans) =>
      let uris := List.filter is_spiffe sans in
      Mtls.mkCert (default [] (head cns)) [] uris (head uris)
  end.

Record Config := mkConfig { cert_tenant_ : bool; registry_ : option Mtls.Registry }.

Definition EnableCertTenant (registry : option Mtls.Registry) (c : Config) : Config :=
  mkConfig true registry.

Definition ResolveTenant (c : Config) (ctx : Ctx) (requested : bytes) : result bytes :=
  if cert_tenant_ c then
    match Mtls.ResolveTenant (ClientCertInfo ctx) (registry_ c) with
    | None => inl UNAUTHENTICATED
    | Some t =>
        if is_empty t then inl UNAUTHENTICATED
        else if negb (is_empty requested) && negb (bool_decide (requested = t))
        then inl PERMISSION_DENIED
        else inr t
    end
  else if is_empty requested then inl INVALID_ARGUMENT
  else inr requested.

(** ** Requests *)

Record AppendItemsRequest := mkAppend { ap_tenant : bytes; ap_session : bytes; ap_items : list bytes }.
Record GetItemsRequest := mkGetItems {
  gi_tenant : bytes; gi_session : bytes; gi_limit : Z; gi_before_seq : Z }.
Record GetItemsResponse := mkItems { items_ : list bytes; first_seq : Z; has_more : bool }.
Record SessionRequest := mkSession { ss_tenant : bytes; ss_session : bytes }.
Record ForkSessionRequest := mkFork { fk_tenant : bytes; fk_source : bytes; fk_target : bytes }.
Record WriteRecordsRequest := mkWrite {
  wr_tenant : bytes; wr_puts : list (bytes * bytes); wr_deletes : list bytes }.
Record GetRecordsRequest := mkGetRecords { gr_tenant : bytes; gr_keys : list bytes }.
Record ScanRecordsRequest := mkScanRecords {
  sr_tenant : bytes; sr_prefix : bytes; sr_start_after : bytes; sr_end_before : bytes;
  sr_limit : Z; sr_reverse : bool }.
Record DeleteRecordPrefixRequest := mkDeletePrefix { dp_tenant : bytes; dp_prefix : bytes }.

(** ** Handlers *)

Section Handlers.
Context {S : Type} `{OrderedKv S}.

(** [if (!st.ok()) return st;] *)
Definition or_return {A B} (r : result A) (s : S) (k : A -> result B * S) : result B * S :=
  match r with inl c => (inl c, s) | inr a => k a end.

(** The puts of [AppendItems], numbered from [seq]. *)
Fixpoint item_puts (prefix : bytes) (seq : Z) (items : list bytes) : list Mutation :=
  match items with
  | [] => []
  | item :: r => mkMut kPut (prefix ++ PutU64BE seq) item :: item_puts prefix (u64 (seq + 1)) r
  end.

(** [uint64_t seq = tail.empty() ? 1 : ...]. *)
Definition next_seq (prefix : bytes) (tail : omap) : Z :=
  match tail with
  | [] => 1
  | kv :: _ => u64 (GetU64BE (drop (length prefix) kv.1) + 1)
  end.

Definition AppendItems (e : kv_env) (c : Config) (ctx : Ctx) (req : AppendItemsRequest) (s : S) :
    result Z * S :=
  or_return (ResolveTenant c ctx (ap_tenant req)) s (fun tenant =>
  if is_empty (ap_session req) then (inl INVALID_ARGUMENT, s)
  else if existsb (fun item => kMaxValueBytes <? zlen item) (ap_items req)
  then (inl INVALID_ARGUMENT, s)
  else
    let prefix := ItemPrefix tenant (ap_session req) in
    let tail := (kv_scan (scan_prefix prefix 1 true) s).1 in
    let seq := next_seq prefix tail in
    let batch := item_puts prefix seq (ap_items req) in
    let '(ok, s') := kv_apply e batch s in
    if ok then (inr (u64 (seq + zlen (ap_items req))), s') else (inl INTERNAL, s')).

Definition GetItems (c : Config) (ctx : Ctx) (req : GetItemsRequest) (s : S) :
    result GetItemsResponse * S :=
  or_return (ResolveTenant c ctx (gi_tenant req)) s (fun tenant =>
  if is_empty (gi_session req) then (inl INVALID_ARGUMENT, s)
  else
    let prefix := ItemPrefix tenant (gi_session req) in
    let end_before := if gi_before_seq req =? 0 then [] else prefix ++ PutU64BE (gi_before_seq req) in
    let '(kvs, more) := kv_scan (mkScan prefix [] end_before (gi_limit req) kMaxPageBytes true) s in
    let kvs := rev kvs in
    let first := match kvs with [] => 0 | kv :: _ => GetU64BE (drop (length prefix) kv.1) end in
    (inr (mkItems kvs.*2 first more), s)).

(** [found] and [item] of the response as an option. *)
Definition PopItem (e : kv_env) (c : Config) (ctx : Ctx) (req : SessionRequest) (s : S) :
    result (option bytes) * S :=
  or_return (ResolveTenant c ctx (ss_tenant req)) s (fun tenant =>
  if is_empty (ss_session req) then (inl INVALID_ARGUMENT, s)
  else
    match (kv_scan (scan_prefix (ItemPrefix tenant (ss_session req)) 1 true) s).1 with
    | [] => (inr None, s)
    | kv :: _ =>
        let '(ok, s') := kv_apply e [mkMut kDel kv.1 []] s in
        if ok then (inr (Some kv.2), s') else (inl INTERNAL, s')
    end).

Definition ClearSession (e : kv_env) (c : Config) (ctx : Ctx) (req : SessionRequest) (s : S) :
    result nat * S :=
  or_return (ResolveTenant c ctx (ss_tenant req)) s (fun tenant =>
  if is_empty (ss_session req) then (inl INVALID_ARGUMENT, s)
  else
    let '(n, failed, s') := kv_delete_prefix e (ItemPrefix tenant (ss_session req)) s in
    if failed then (inl INTERNAL, s') else (inr n, s')).

Definition ForkSession (e : kv_env) (c : Config) (ctx : Ctx) (req : ForkSessionRequest) (s : S) :
    result nat * S :=
  or_return (ResolveTenant c ctx (fk_tenant req)) s (fun tenant =>
  if is_empty (fk_source req) || is_empty (fk_target req) then (inl INVALID_ARGUMENT, s)
  else if bool_decide (fk_source req = fk_target req) then (inl INVALID_ARGUMENT, s)
  else
    let src := ItemPrefix tenant (fk_source req) in
    let dst := ItemPrefix tenant (fk_target req) in
    match (kv_scan (scan_prefix dst 1 false) s).1 with
    | _ :: _ => (inl FAILED_PRECONDITION, s)
    | [] =>
        let batch := (fun kv => mkMut kPut (dst ++ drop (length src) kv.1) kv.2) <$>
                       (kv_scan (scan_prefix src 0 false) s).1 in
        let '(ok, s') := kv_apply e batch s in
        if ok then (inr (length batch), s') else (inl INTERNAL, s')
    end).

Definition record_key (tenant k : bytes) : bytes := EncodeKey tenant kind_record k.

Definition record_batch (tenant : bytes) (puts : list (bytes * bytes)) (deletes : list bytes) :
    list Mutation :=
  ((fun r => mkMut kPut (record_key tenant r.1) r.2) <$> puts) ++
  ((fun k => mkMut kDel (record_key tenant k) []) <$> deletes).

Definition WriteRecords (e : kv_env) (c : Config) (ctx : Ctx) (req : WriteRecordsRequest) (s : S) :
    result unit * S :=
  or_return (ResolveTenant c ctx (wr_tenant req)) s (fun tenant =>
  if existsb (fun r => is_empty r.1 || (kMaxValueBytes <? zlen r.2)) (wr_puts req)
  then (inl INVALID_ARGUMENT, s)
  else
    let '(ok, s') := kv_apply e (record_batch tenant (wr_puts req) (wr_deletes req)) s in
    if ok then (inr tt, s') else (inl INTERNAL, s')).

Definition GetRecords (c : Config) (ctx : Ctx) (req : GetRecordsRequest) (s : S) :
    result (list (bytes * bytes)) * S :=
  or_return (ResolveTenant c ctx (gr_tenant req)) s (fun tenant =>
  (inr (base.omap (fun k => (fun v => (k, v)) <$> kv_get (record_key tenant k) s) (gr_keys req)), s)).

Definition ScanRecords (c : Config) (ctx : Ctx) (req : ScanRecordsRequest) (s : S) :
    result (list (bytes * bytes) * bool) * S :=
  or_return (ResolveTenant c ctx (sr_tenant req)) s (fun tenant =>
  let base := record_key tenant [] in
  let o := mkScan (base ++ sr_prefix req)
                  (if is_empty (sr_start_after req) then [] else base ++ sr_start_after req)
                  (if is_empty (sr_end_before req) then [] else base ++ sr_end_before req)
                  (if (sr_limit req =? 0) || (kMaxScanPage <? sr_limit req)
                   then kMaxScanPage else sr_limit req)
                  kMaxPageBytes (sr_reverse req) in
  let '(kvs, more) := kv_scan o s in
  (inr ((fun kv => (drop (length base) kv.1, kv.2)) <$> kvs, more), s)).

Definition DeleteRecordPrefix (e : kv_env) (c : Config) (ctx : Ctx)
    (req : DeleteRecordPrefixRequest) (s : S) : result nat * S :=
  or_return (ResolveTenant c ctx (dp_tenant req)) s (fun tenant =>
  let '(n, failed, s') := kv_delete_prefix e (record_key tenant (dp_prefix req)) s in
  if failed then (inl INTERNAL, s') else (inr n, s')).

End Handlers.

End Agent.
