(* ===== verification/AgentKeys.v ===== *)
(** * Keys of the AgentState service

    [EncodeKey] and [ItemPrefix] are injective and prefix free in the tenant,
    the kind and the session, so the key space splits into one range per
    tenant, and each tenant's range into its records and one range per
    session. Sequence numbers order as their big-endian bytes. *)

From S2P Require Import Prelude OrderedMap LogCodec LogScan LogReplay KvInterface Mtls AgentState.
From Stdlib Require Import ZArith Lia.

Import OMap Log Agent.
Open Scope Z_scope.

(** A string whose length fits the 32-bit length field. *)
Definition sized (x : bytes) : Prop := zlen x < 2 ^ 32.

(** The keys of a tenant. *)
Definition tenant_prefix (tenant : bytes) : bytes := PutU32BE (zlen tenant) ++ tenant.

Lemma length_framed_app_inj x y r r' :
  sized x -> sized y ->
  PutU32BE (zlen x) ++ x ++ r = PutU32BE (zlen y) ++ y ++ r' -> x = y /\ r = r'.
Proof.
  unfold sized, PutU32BE. intros Hx Hy H.
  apply app_inj_1 in H as [H1 H2]; [|by rewrite !length_put_be].
  apply put_be_inj in H1; [|change (256 ^ Z.of_nat 4) with (2 ^ 32); lia..].
  by apply app_inj_1 in H2; [|lia].
Qed.

Lemma EncodeKey_tenant t k r : EncodeKey t k r = tenant_prefix t ++ k :: r.
Proof. unfold EncodeKey, tenant_prefix. by rewrite <- app_assoc. Qed.

(** A key of one tenant is under the prefix of another only if they are the
    same. *)
Lemma tenant_prefix_free t t' r :
  sized t -> sized t' -> starts_with (tenant_prefix t) (tenant_prefix t' ++ r) = true -> t = t'.
Proof.
  intros Ht Ht' H. apply starts_with_iff in H as [r' H]. unfold tenant_prefix in H.
  rewrite <- !app_assoc in H. symmetry in H. by apply length_framed_app_inj in H as [? _].
Qed.

Lemma EncodeKey_prefix t t' k k' r r' :
  sized t -> sized t' ->
  starts_with (EncodeKey t k r) (EncodeKey t' k' r') = true ->
  t = t' /\ k = k' /\ starts_with r r' = true.
Proof.
  intros Ht Ht' H. apply starts_with_iff in H as [x H]. unfold EncodeKey in H.
  rewrite <- !app_assoc in H. symmetry in H. apply length_framed_app_inj in H as [-> H]; [|done..].
  simpl in H. injection H as -> H. split_and!; try done. apply starts_with_iff. by exists x.
Qed.

(** An item key: the session's prefix and the sequence number. *)
Definition item_key (t s : bytes) (q : Z) : bytes := ItemPrefix t s ++ PutU64BE q.

Lemma item_key_EncodeKey t s q :
  item_key t s q = EncodeKey t kind_item (PutU32BE (zlen s) ++ s ++ PutU64BE q).
Proof. unfold item_key, ItemPrefix, EncodeKey. by rewrite <- !app_assoc. Qed.

Lemma ItemPrefix_free t t' s s' q :
  sized t -> sized t' -> sized s -> sized s' ->
  starts_with (ItemPrefix t s) (item_key t' s' q) = true -> t = t' /\ s = s'.
Proof.
  intros Ht Ht' Hs Hs' H. rewrite item_key_EncodeKey in H. unfold ItemPrefix in H.
  apply EncodeKey_prefix in H as (-> & _ & H); [|done..]. split; [done|].
  apply starts_with_iff in H as [x H]. rewrite <- !app_assoc in H. symmetry in H.
  by apply length_framed_app_inj in H as [-> _].
Qed.

Lemma ItemPrefix_record t t' s k :
  sized t -> sized t' -> starts_with (ItemPrefix t s) (record_key t' k) = false.
Proof.
  intros Ht Ht'. destruct (starts_with _ _) eqn:E; [|done].
  unfold ItemPrefix, record_key in E. by apply EncodeKey_prefix in E as (_ & ? & _).
Qed.

Lemma record_prefix_item t t' k s q :
  sized t -> sized t' -> starts_with (record_key t k) (item_key t' s q) = false.
Proof.
  intros Ht Ht'. destruct (starts_with _ _) eqn:E; [|done]. rewrite item_key_EncodeKey in E.
  unfold record_key in E. by apply EncodeKey_prefix in E as (_ & ? & _).
Qed.

(** ** Sequence numbers *)

Definition seq_ok (q : Z) : Prop := 0 <= q < 2 ^ 64.

Lemma drop_item_key t s q : drop (length (ItemPrefix t s)) (item_key t s q) = PutU64BE q.
Proof. unfold item_key. by rewrite drop_app_length. Qed.

Lemma GetU64BE_put q : seq_ok q -> GetU64BE (PutU64BE q) = q.
Proof.
  unfold seq_ok, GetU64BE, PutU64BE. intros H. rewrite get_put_be.
  change (256 ^ Z.of_nat 8) with (2 ^ 64). rewrite Z.mod_small by done. by apply u64_small.
Qed.

Lemma item_key_blt t s q q' :
  seq_ok q -> seq_ok q' -> blt (item_key t s q) (item_key t s q') = (q <? q').
Proof.
  intros Hq Hq'. unfold item_key, blt, PutU64BE. rewrite bcmp_app, bcmp_put_be
    by (change (256 ^ Z.of_nat 8) with (2 ^ 64); done). unfold Z.ltb. by destruct (q ?= q').
Qed.

(** ** The keys a service writes *)

(** Every key of the store is an item key or a record key of some tenant. *)
Definition key_wf (k : bytes) : Prop :=
  exists t, sized t /\
    ((exists s q, sized s /\ seq_ok q /\ k = item_key t s q) \/ (exists r, k = record_key t r)).

Definition view_wf (m : omap) : Prop := Forall (fun kv => key_wf kv.1) m.

Lemma under_session m t s kv :
  view_wf m -> sized t -> sized s -> kv ∈ List.filter (under (ItemPrefix t s)) m ->
  exists q, seq_ok q /\ kv.1 = item_key t s q.
Proof.
  intros Hw Ht Hs Hin. apply list_elem_of_In, List.filter_In in Hin as [Hin Hu].
  apply list_elem_of_In in Hin. unfold view_wf in Hw. rewrite Forall_forall in Hw.
  destruct (Hw _ Hin) as (t' & Ht' & [(s' & q & Hs' & Hq & E)|(r & E)]);
    unfold under in Hu; rewrite E in Hu.
  - apply ItemPrefix_free in Hu as [-> ->]; [|done..]. eauto.
  - by rewrite ItemPrefix_record in Hu.
Qed.

Lemma view_wf_play b m :
  view_wf m -> Forall (fun mu => key_wf (key mu)) b -> view_wf (LogReplay.play b m).
Proof.
  unfold LogReplay.play, view_wf. intros Hm Hb. revert m Hm.
  induction Hb as [|mu b Hmu _ IH]; intros m Hm; [done|]. cbn [fold_left]. apply IH.
  unfold LogReplay.step_map. destruct (op mu); [by apply Forall_insert|by apply Forall_erase].
Qed.

Lemma view_wf_filter P m : view_wf m -> view_wf (List.filter P m).
Proof.
  unfold view_wf. induction 1 as [|x m Hx _ IH]; simpl; [done|]. destruct (P x); auto.
Qed.

#[export] Hint Resolve view_wf_play view_wf_filter : store.

Lemma ItemPrefix_nonempty t s r : is_empty (ItemPrefix t s ++ r) = false.
Proof.
  destruct (ItemPrefix t s ++ r) eqn:E; [|done]. apply (f_equal length) in E.
  unfold ItemPrefix, EncodeKey, PutU32BE in E. rewrite !length_app, length_put_be in E.
  simpl in E. lia.
Qed.

#[global] Opaque ItemPrefix.
