(* ===== verification/AgentItems.v ===== *)
(** * Sessions of the AgentState service

    A session is the list of its numbered items, read off the store's map by
    [session_items]. The theorems give each item handler's effect on that
    list: append, get, pop, clear and fork, and that nothing outside the
    session's keys changes. They are proved for every store with the laws of
    [OrderedKvLaws] and witnessed on the log store. *)

From S2P Require Import Prelude OrderedMap LogCodec LogStore LogReplay LogDurability LogScan.
From S2P Require Import LogCorrect KvInterface Mtls AgentState AgentKeys.
From Stdlib Require Import ZArith Lia Sorted.

Import OMap Log Agent.
Open Scope Z_scope.

(** ** The abstract session *)

Definition item_of (prefix : bytes) (kv : entry) : Z * bytes :=
  (GetU64BE (drop (length prefix) kv.1), kv.2).

Definition session_items (t s : bytes) (m : omap) : list (Z * bytes) :=
  item_of (ItemPrefix t s) <$> List.filter (under (ItemPrefix t s)) m.

(** The rest of the store. *)
Definition others (p : bytes) (m : omap) : omap :=
  List.filter (fun kv => negb (starts_with p kv.1)) m.

Fixpoint number (q : Z) (items : list bytes) : list (Z * bytes) :=
  match items with
  | [] => []
  | x :: r => (q, x) :: number (q + 1) r
  end.

(** The number the next item gets. *)
Definition next_number (l : list (Z * bytes)) : Z :=
  match last l with Some (q, _) => q + 1 | None => 1 end.

Lemma length_number q items : length (number q items) = length items.
Proof. revert q. induction items; intros q; simpl; auto. Qed.

(** ** Batches of numbered items *)

Lemma item_puts_spec t s q items :
  0 <= q -> q + zlen items < 2 ^ 64 ->
  item_puts (ItemPrefix t s) q items =
  (fun x => mkMut kPut (item_key t s x.1) x.2) <$> number q items.
Proof.
  revert q. induction items as [|x r IH]; intros q Hq Hn; [done|].
  cbn [item_puts number fmap list_fmap]. rewrite u64_small by (simpl in Hn; lia).
  rewrite IH by (simpl in Hn; lia). done.
Qed.

Lemma number_bounds q items x :
  x ∈ number q items -> q <= x.1 < q + zlen items.
Proof.
  revert q. induction items as [|y r IH]; intros q; simpl; [set_solver|].
  intros [->|H]%elem_of_cons; simpl; [lia|]. apply IH in H. lia.
Qed.

Lemma sorted_numbered t s q items :
  0 <= q -> q + zlen items <= 2 ^ 64 ->
  sorted ((fun x => (item_key t s x.1, x.2)) <$> number q items).
Proof.
  revert q. induction items as [|x r IH]; intros q Hq Hn; [constructor|].
  simpl in Hn. cbn [number fmap list_fmap]. apply sorted_cons. split; [apply IH; lia|].
  apply Forall_fmap, Forall_forall. intros y Hy. apply number_bounds in Hy.
  unfold key_lt. cbn [compose fst]. rewrite item_key_blt by (unfold seq_ok; lia).
  apply Z.ltb_lt. lia.
Qed.

(** The entries of a session as keys of its numbers. *)
Lemma session_entries m t s :
  view_wf m -> sized t -> sized s ->
  List.filter (under (ItemPrefix t s)) m =
  (fun x => (item_key t s x.1, x.2)) <$> session_items t s m.
Proof.
  intros Hw Ht Hs. unfold session_items. rewrite <- list_fmap_compose.
  pose proof (under_session m t s) as Hu. symmetry.
  rewrite <- (list_fmap_id (List.filter _ m)) at 2. apply list_fmap_ext.
  intros i kv Hi. apply list_elem_of_lookup_2 in Hi.
  destruct (Hu kv Hw Ht Hs Hi) as (q & Hq & E). destruct kv as [k v]. unfold compose, item_of. cbn [fst snd id] in *.
  subst k. by rewrite drop_item_key, GetU64BE_put.
Qed.

Lemma session_seqs m t s x :
  view_wf m -> sized t -> sized s -> x ∈ session_items t s m -> seq_ok x.1.
Proof.
  intros Hw Ht Hs Hx. unfold session_items in Hx. apply list_elem_of_fmap in Hx as (kv & -> & Hkv).
  destruct (under_session m t s kv Hw Ht Hs Hkv) as (q & Hq & E).
  unfold item_of. cbn [fst snd]. by rewrite E, drop_item_key, GetU64BE_put.
Qed.

(** Numbers increase along a session. *)
Lemma session_increasing m t s l x :
  sorted m -> view_wf m -> sized t -> sized s ->
  session_items t s m = l ++ [x] -> Forall (fun y => y.1 < x.1) l.
Proof.
  intros Hm Hw Ht Hs E. pose proof (sorted_filter_List (under (ItemPrefix t s)) m Hm) as Hf.
  rewrite session_entries, E, fmap_app in Hf by done.
  apply sorted_app_inv in Hf as (_ & _ & Hf). rewrite Forall_fmap in Hf.
  rewrite Forall_forall in Hf |- *. intros y Hy. specialize (Hf y Hy).
  inversion Hf as [|?? Hlt _]; subst. unfold key_lt in Hlt. cbn [compose fst] in Hlt.
  rewrite item_key_blt in Hlt.
  - by apply Z.ltb_lt in Hlt.
  - apply (session_seqs m t s); try done. rewrite E. set_solver.
  - apply (session_seqs m t s); try done. rewrite E. set_solver.
Qed.

Lemma sorted_app m1 m2 :
  sorted m1 -> sorted m2 -> Forall (fun a => Forall (key_lt a) m2) m1 -> sorted (m1 ++ m2).
Proof.
  induction 1 as [|a m1 Hm1 IH Ha]; intros H2 Hf; [done|]. inversion Hf; subst. simpl.
  apply sorted_cons. split; [by apply IH|]. by apply Forall_app.
Qed.

Lemma session_below_next m t s y :
  sorted m -> view_wf m -> sized t -> sized s ->
  y ∈ session_items t s m -> y.1 < next_number (session_items t s m).
Proof.
  intros Hm Hw Ht Hs Hy. unfold next_number.
  destruct (session_items t s m) as [|x l _] eqn:E using rev_ind; [set_solver|].
  rewrite last_snoc. destruct x as [q v].
  pose proof (session_increasing m t s l (q, v) Hm Hw Ht Hs E) as Hl.
  rewrite Forall_forall in Hl. apply elem_of_app in Hy as [Hy|Hy].
  - apply Hl in Hy. simpl in Hy. lia.
  - apply list_elem_of_singleton in Hy. subst y. simpl. lia.
Qed.

Lemma sorted_session_append t s m q items :
  sorted m -> view_wf m -> sized t -> sized s ->
  next_number (session_items t s m) <= q -> 0 <= q -> q + zlen items <= 2 ^ 64 ->
  sorted ((fun x => (item_key t s x.1, x.2)) <$> (session_items t s m ++ number q items)).
Proof.
  intros Hm Hw Ht Hs Hq H0 Hn. rewrite fmap_app. apply sorted_app.
  - rewrite <- session_entries by done. by apply sorted_filter_List.
  - by apply sorted_numbered.
  - apply Forall_fmap, Forall_forall. intros y Hy. apply Forall_fmap, Forall_forall. intros z Hz.
    pose proof (session_seqs m t s y Hw Ht Hs Hy).
    apply (session_below_next m t s y Hm Hw Ht Hs) in Hy. apply number_bounds in Hz.
    unfold key_lt. cbn [compose fst]. unfold seq_ok in *.
    rewrite item_key_blt by (unfold seq_ok; lia). apply Z.ltb_lt. lia.
Qed.

(** Appending numbered items to a session. *)
Lemma session_play_append t s m q items :
  sorted m -> view_wf m -> sized t -> sized s ->
  next_number (session_items t s m) <= q -> 0 <= q -> q + zlen items < 2 ^ 64 ->
  session_items t s (play (item_puts (ItemPrefix t s) q items) m) =
  session_items t s m ++ number q items.
Proof.
  intros Hm Hw Ht Hs Hq H0 Hn. rewrite item_puts_spec by done.
  set (b := (fun x => mkMut kPut (item_key t s x.1) x.2) <$> number q items).
  assert (((fun mu => (key mu, value mu)) <$> b)
          = ((fun x => (item_key t s x.1, x.2)) <$> number q items)) as Hb.
  { unfold b. by rewrite <- list_fmap_compose. }
  assert (List.filter (under (ItemPrefix t s)) (play b m) =
    List.filter (under (ItemPrefix t s)) m ++ ((fun mu => (key mu, value mu)) <$> b)) as HF.
  { apply (filter_play_puts (starts_with (ItemPrefix t s))); [done| |].
    - unfold b. apply Forall_fmap, Forall_forall. intros x _. simpl. split; [done|].
      apply starts_with_app.
    - fold (under (ItemPrefix t s)). rewrite Hb.
      change (fun kv : entry => starts_with (ItemPrefix t s) kv.1) with (under (ItemPrefix t s)).
      rewrite session_entries by done. rewrite <- fmap_app.
      apply (sorted_session_append t s m); try done; lia. }
  unfold session_items at 1. rewrite HF, fmap_app, Hb. f_equal.
  rewrite <- list_fmap_compose. rewrite <- (list_fmap_id (number q items)) at 2.
  apply list_fmap_ext. intros i x Hx. apply list_elem_of_lookup_2, number_bounds in Hx.
  destruct x as [n v]. unfold compose, item_of. cbn [fst snd id] in *.
  rewrite drop_item_key, GetU64BE_put by (unfold seq_ok; lia). done.
Qed.

(** ** Writes stay inside the session *)

Lemma others_play p b m :
  Forall (fun mu => starts_with p (key mu) = true) b -> others p (play b m) = others p m.
Proof.
  intros Hb. apply (filter_play_other (fun k => negb (starts_with p k))).
  eapply Forall_impl; [exact Hb|]. intros mu Hmu. simpl. by rewrite Hmu.
Qed.

Lemma item_puts_under p q items :
  Forall (fun mu => starts_with p (key mu) = true) (item_puts p q items).
Proof.
  revert q. induction items; intros q; constructor; auto. apply starts_with_app.
Qed.

Lemma item_puts_wf t s q items :
  sized t -> sized s -> 0 <= q -> q + zlen items < 2 ^ 64 ->
  Forall (fun mu => key_wf (key mu)) (item_puts (ItemPrefix t s) q items).
Proof.
  intros Ht Hs Hq Hn. rewrite item_puts_spec by done.
  apply Forall_fmap, Forall_forall. intros x Hx. apply number_bounds in Hx.
  exists t. split; [done|]. left. exists s, x.1. unfold seq_ok. split_and!; done || lia.
Qed.

Lemma next_number_nonneg m t s :
  view_wf m -> sized t -> sized s -> 0 <= next_number (session_items t s m).
Proof.
  intros Hw Ht Hs. unfold next_number. destruct (last _) as [[q v]|] eqn:E; [|lia].
  apply last_Some_elem_of in E. apply session_seqs in E; [|done..]. unfold seq_ok in E. simpl in E. lia.
Qed.

Lemma next_seq_spec m t s :
  view_wf m -> sized t -> sized s -> next_number (session_items t s m) < 2 ^ 64 ->
  next_seq (ItemPrefix t s)
    (match last (List.filter (under (ItemPrefix t s)) m) with Some kv => [kv] | None => [] end) =
  next_number (session_items t s m).
Proof.
  intros Hw Ht Hs Hn. pose proof (next_number_nonneg m t s Hw Ht Hs).
  unfold next_number, session_items in *. rewrite fmap_last in *.
  destruct (last _) as [kv|]; simpl in *; [|done]. by apply u64_small.
Qed.

(** ** Reading a session *)

(** The items older than [b], all of them when [b] is 0. *)
Definition older (b : Z) (l : list (Z * bytes)) : list (Z * bytes) :=
  if b =? 0 then l else List.filter (fun x => x.1 <? b) l.

Lemma fmap_filter_List {A B} (f : A -> B) (Q : A -> bool) (Q' : B -> bool) l :
  Forall (fun x => Q x = Q' (f x)) l -> f <$> List.filter Q l = List.filter Q' (f <$> l).
Proof.
  induction 1 as [|x l Hx _ IH]; [done|]. cbn [List.filter fmap list_fmap]. rewrite <- Hx.
  destruct (Q x); cbn [fmap list_fmap]; [by f_equal|done].
Qed.

Lemma fmap_rev {A B} (f : A -> B) l : f <$> rev l = rev (f <$> l).
Proof. induction l as [|x l IH]; simpl; [done|]. by rewrite fmap_app, IH. Qed.

Definition get_options (t s : bytes) (lim before : Z) : ScanOptions :=
  mkScan (ItemPrefix t s) [] (if before =? 0 then [] else ItemPrefix t s ++ PutU64BE before)
         lim kMaxPageBytes true.

Lemma get_candidates t s m lim before :
  view_wf m -> sized t -> sized s -> 0 <= before < 2 ^ 64 ->
  item_of (ItemPrefix t s) <$> candidates (get_options t s lim before) m =
  rev (older before (session_items t s m)).
Proof.
  intros Hw Ht Hs Hb. unfold candidates. cbn [reverse get_options].
  rewrite fmap_rev. f_equal. unfold older, session_items.
  destruct (Z.eqb_spec before 0) as [->|Hne].
  - f_equal. apply List.filter_ext. intros x. unfold in_range, under. simpl.
    by rewrite !andb_true_r.
  - rewrite (List.filter_ext _ (fun kv => under (ItemPrefix t s) kv && blt kv.1 (item_key t s before))).
    + rewrite <- filter_filter. apply fmap_filter_List, Forall_forall. intros kv Hkv.
      destruct (under_session m t s kv Hw Ht Hs Hkv) as (q & Hq & E). unfold item_of. cbn [fst].
      rewrite E, item_key_blt, drop_item_key, GetU64BE_put by done. done.
    + intros kv. unfold in_range, get_options. cbn [prefix start_after end_before is_empty orb].
      rewrite (proj2 (Z.eqb_neq _ _)) by done. rewrite ItemPrefix_nonempty. cbn [orb].
      by rewrite andb_true_r.
Qed.

Lemma session_sorted m t s :
  sorted m -> view_wf m -> sized t -> sized s ->
  StronglySorted (fun a b : Z * bytes => a.1 < b.1) (session_items t s m).
Proof.
  intros Hm Hw Ht Hs. pose proof (sorted_filter_List (under (ItemPrefix t s)) m Hm) as Hf.
  rewrite session_entries in Hf by done.
  pose proof (fun x => session_seqs m t s x Hw Ht Hs) as Hq. revert Hf Hq.
  induction (session_items t s m) as [|x l IH]; cbn [fmap list_fmap]; intros Hf Hq; [constructor|].
  apply sorted_cons in Hf as [Hf Hx]. constructor; [apply IH; [done|set_solver]|].
  rewrite Forall_fmap, Forall_forall in Hx. apply Forall_forall. intros y Hy. specialize (Hx y Hy).
  unfold key_lt in Hx. cbn [compose fst] in Hx.
  rewrite item_key_blt in Hx by (apply Hq; set_solver). by apply Z.ltb_lt.
Qed.

(** Items back to entries. *)
Lemma entry_of_item m t s l :
  view_wf m -> sized t -> sized s ->
  Forall (fun kv => kv ∈ List.filter (under (ItemPrefix t s)) m) l ->
  (fun x => (item_key t s x.1, x.2)) <$> (item_of (ItemPrefix t s) <$> l) = l.
Proof.
  intros Hw Ht Hs Hl. rewrite <- list_fmap_compose. rewrite <- (list_fmap_id l) at 2.
  apply list_fmap_ext. intros i kv Hi. apply list_elem_of_lookup_2 in Hi.
  rewrite Forall_forall in Hl. destruct (under_session m t s kv Hw Ht Hs (Hl _ Hi)) as (q & Hq & E).
  destruct kv as [k v]. unfold compose, item_of. cbn [fst snd id] in *. subst k.
  by rewrite drop_item_key, GetU64BE_put.
Qed.

Lemma sorted_keys t s l :
  StronglySorted (fun a b : Z * bytes => a.1 < b.1) l -> (forall x, x ∈ l -> seq_ok x.1) ->
  sorted ((fun x => (item_key t s x.1, x.2)) <$> l).
Proof.
  induction 1 as [|x l Hl IH Hx]; intros Hq; [constructor|]. cbn [fmap list_fmap].
  apply sorted_cons. split; [apply IH; set_solver|].
  rewrite Forall_forall in Hx. apply Forall_fmap, Forall_forall. intros y Hy.
  unfold key_lt. cbn [compose fst]. rewrite item_key_blt by (apply Hq; set_solver).
  apply Z.ltb_lt. by apply Hx.
Qed.

Lemma live_size_rev l : live_size (rev l) = live_size l.
Proof. induction l as [|x l IH]; simpl; [done|]. rewrite live_size_app. simpl. lia. Qed.

Lemma candidates_under o m kv :
  kv ∈ candidates o m -> kv ∈ List.filter (under (prefix o)) m.
Proof.
  intros Hin. pose proof (candidates_in_range _ _ _ Hin) as Hr. unfold in_range in Hr.
  apply andb_true_iff in Hr as [Hr _]. apply andb_true_iff in Hr as [Hr _].
  apply list_elem_of_In, List.filter_In. split; [|done]. apply list_elem_of_In in Hin.
  unfold candidates in Hin. destruct (reverse o); [apply in_rev in Hin|];
    by apply List.filter_In in Hin as [? _].
Qed.

Lemma StronglySorted_app_inv {A} (R : A -> A -> Prop) l1 l2 :
  StronglySorted R (l1 ++ l2) ->
  StronglySorted R l2 /\ Forall (fun x => Forall (R x) l2) l1.
Proof.
  induction l1 as [|x l1 IH]; simpl; [done|]. intros [H Hx]%StronglySorted_inv.
  apply Forall_app in Hx as [_ Hx]. destruct (IH H). auto.
Qed.

Lemma older_resume b l r x p :
  StronglySorted (fun a b : Z * bytes => a.1 < b.1) l ->
  older b l = r ++ x :: p -> x.1 <> 0 -> older x.1 l = r.
Proof.
  intros Hs Ho Hx.
  assert (StronglySorted (fun a b : Z * bytes => a.1 < b.1) (older b l)) as Hso.
  { unfold older. destruct (b =? 0); [done|]. clear -Hs.
    induction Hs as [|y l Hl IH Hy]; simpl; [constructor|]. destruct (y.1 <? b); [|done].
    constructor; [done|]. clear IH Hl. induction Hy; simpl; [done|]. destruct (_ <? b); auto. }
  assert (List.filter (fun y => y.1 <? x.1) (older b l) = List.filter (fun y => y.1 <? x.1) l) as HF.
  { unfold older. destruct (Z.eqb_spec b 0); [done|]. rewrite filter_filter.
    assert (x.1 < b) as Hlt.
    { assert (x ∈ older b l) as Hin by (rewrite Ho; set_solver). unfold older in Hin.
      rewrite (proj2 (Z.eqb_neq b 0)) in Hin by done.
      apply list_elem_of_In, List.filter_In in Hin as [_ Hin]. by apply Z.ltb_lt. }
    apply List.filter_ext. intros y. destruct (Z.ltb_spec y.1 x.1); [|by rewrite andb_false_r].
    rewrite (proj2 (Z.ltb_lt _ _)) by lia. done. }
  unfold older at 1. rewrite (proj2 (Z.eqb_neq _ _)) by done. rewrite <- HF, Ho in *.
  rewrite List.filter_app. apply StronglySorted_app_inv in Hso as (Hxp & Hrp).
  rewrite (filter_none _ (x :: p)), app_nil_r.
  - apply filter_all. eapply Forall_impl; [exact Hrp|]. intros y Hy. apply Z.ltb_lt. by inversion Hy.
  - apply StronglySorted_inv in Hxp as [_ Hxp]. constructor; [apply Z.ltb_ge; lia|].
    eapply Forall_impl; [exact Hxp|]. intros y Hy. apply Z.ltb_ge. simpl in Hy. lia.
Qed.

Section Sessions.
Context {S : Type} `{OrderedKvLaws S}.

(** The service's invariant on its store. *)
Definition svc_ok (s : S) : Prop := kv_ok s /\ view_wf (kv_view s).

(** [C3] [AppendItems] appends. When it answers OK, the session holds the
    items it held before followed by the request's items under consecutive
    sequence numbers after the last one, the response is the next number, and
    nothing else in the store changed. *)
Theorem AppendItems_appends e c ctx req s t n s' :
  svc_ok s -> ResolveTenant c ctx (ap_tenant req) = inr t -> sized t -> sized (ap_session req) ->
  let old := session_items t (ap_session req) (kv_view s) in
  let q := next_number old in
  q + zlen (ap_items req) < 2 ^ 64 ->
  kv_fits (item_puts (ItemPrefix t (ap_session req)) q (ap_items req)) ->
  AppendItems e c ctx req s = (inr n, s') ->
  session_items t (ap_session req) (kv_view s') = old ++ number q (ap_items req) /\
  n = q + zlen (ap_items req) /\
  others (ItemPrefix t (ap_session req)) (kv_view s') =
    others (ItemPrefix t (ap_session req)) (kv_view s) /\
  svc_ok s'.
Proof.
  intros [Hk Hw] Hr Ht Hs old q Hn Hfit HA. pose proof (next_number_nonneg _ t _ Hw Ht Hs) as Hq.
  fold old q in Hq. unfold AppendItems in HA. rewrite Hr in HA. cbn [or_return] in HA.
  destruct (is_empty _); [done|]. destruct (existsb _ _); [done|].
  rewrite kv_scan_last, next_seq_spec in HA by (done || (fold old q; lia)). fold old q in HA.
  destruct (kv_apply _ _ s) as [ok s1] eqn:EA. destruct ok; [|done]. injection HA as <- <-.
  destruct (kv_apply_true _ _ _ _ Hk Hfit EA) as [Hk1 Hv]. rewrite Hv.
  split_and!; [|by apply u64_small; lia|by apply others_play, item_puts_under|].
  - apply session_play_append; try done. by apply kv_sorted.
  - split; [done|]. rewrite Hv. apply view_wf_play; [done|]. by apply item_puts_wf.
Qed.

(** [PopItem] removes and returns the newest item: on an empty session it
    reports nothing and changes nothing; otherwise, when it answers OK, it
    returns the last item, the session is the others, in order, and nothing
    else changed. *)
Theorem PopItem_pops e c ctx req s t r s' :
  svc_ok s -> ResolveTenant c ctx (ss_tenant req) = inr t -> sized t -> sized (ss_session req) ->
  (forall kv, kv ∈ kv_view s -> kv_fits [mkMut kDel kv.1 []]) ->
  PopItem e c ctx req s = (inr r, s') ->
  match r with
  | None => session_items t (ss_session req) (kv_view s) = [] /\ s' = s
  | Some v =>
      exists q, session_items t (ss_session req) (kv_view s) =
                session_items t (ss_session req) (kv_view s') ++ [(q, v)]
  end /\
  others (ItemPrefix t (ss_session req)) (kv_view s') =
    others (ItemPrefix t (ss_session req)) (kv_view s) /\
  svc_ok s'.
Proof.
  intros [Hk Hw] Hr Ht Hs Hfit HP. unfold PopItem in HP. rewrite Hr in HP. cbn [or_return] in HP.
  destruct (is_empty _); [done|]. rewrite kv_scan_last in HP by done.
  set (p := ItemPrefix t (ss_session req)) in *.
  destruct (List.filter (under p) (kv_view s)) as [|kv l _] eqn:EF using rev_ind.
  { injection HP as <- <-. unfold session_items. fold p. by rewrite EF. }
  rewrite last_snoc in HP. destruct (kv_apply _ _ s) as [ok s1] eqn:EA. destruct ok; [|done].
  assert (kv ∈ List.filter (under p) (kv_view s)) as Hin by (rewrite EF; set_solver).
  assert (kv_fits [mkMut kDel kv.1 []]) as Hfit'
    by (apply Hfit, list_elem_of_In; by apply list_elem_of_In, List.filter_In in Hin as [? _]).
  injection HP as <- <-. destruct (kv_apply_true _ _ _ _ Hk Hfit' EA) as [Hk1 Hv].
  pose proof (under_session _ _ _ _ Hw Ht Hs Hin) as (q & Hq & Ekv).
  rewrite Hv. split_and!.
  - exists (item_of p kv).1. unfold session_items. fold p. cbn [play fold_left step_map op key].
    change (play [mkMut kDel kv.1 []] (kv_view s)) with (erase kv.1 (kv_view s)).
    assert (List.filter (under p) (erase kv.1 (kv_view s)) = l) as ->.
    { apply (filter_erase_last (starts_with p)); [by apply kv_sorted|exact EF]. }
    by rewrite EF, fmap_app.
  - apply others_play. constructor; [|done]. simpl. rewrite Ekv. apply starts_with_app.
  - split; [done|]. rewrite Hv. apply view_wf_play; [done|]. constructor; [|done]. simpl. rewrite Ekv.
    exists t. split; [done|]. left. eauto.
Qed.

(** [GetItems] reads a page of the session's history. Among the items
    older than [before_seq] it returns the newest ones, oldest first, within
    the limit; [has_more] says whether older ones remain, and then the page is
    not empty and is full by count or by bytes; [first_seq] is the number of
    the first item returned, and asking again with [before_seq] set to it
    continues exactly with the items that remain. *)
Theorem GetItems_page c ctx req s t resp s' :
  svc_ok s -> ResolveTenant c ctx (gi_tenant req) = inr t -> sized t -> sized (gi_session req) ->
  0 <= gi_limit req -> 0 <= gi_before_seq req < 2 ^ 64 ->
  GetItems c ctx req s = (inr resp, s') ->
  let items := session_items t (gi_session req) (kv_view s) in
  s' = s /\
  exists rest page,
    older (gi_before_seq req) items = rest ++ page /\
    items_ resp = page.*2 /\
    (has_more resp = true <-> rest <> []) /\
    (rest <> [] -> page <> []) /\
    (gi_limit req <> 0 -> zlen page <= gi_limit req) /\
    (forall r x, rest = r ++ [x] ->
       gi_limit req <> 0 /\ zlen page = gi_limit req \/
       kMaxPageBytes < live_size ((fun x => (item_key t (gi_session req) x.1, x.2)) <$> (x :: page))) /\
    first_seq resp = match page with [] => 0 | x :: _ => x.1 end /\
    (first_seq resp <> 0 -> older (first_seq resp) items = rest).
Proof.
  intros [Hk Hw] Hr Ht Hs Hlim Hb HG items. unfold GetItems in HG. rewrite Hr in HG.
  cbn [or_return] in HG. destruct (is_empty _); [done|].
  fold (get_options t (gi_session req) (gi_limit req) (gi_before_seq req)) in HG.
  rewrite kv_scan_spec in HG by done.
  destruct (scan_walk _ _ _ _ _) as [kvs more] eqn:EW. injection HG as <- <-. split; [done|].
  apply scan_walk_page_of in EW as (rest & Hc & Hm & Hl & _ & Hne & Hf); [|done].
  set (o := get_options _ _ _ _) in *. set (p := ItemPrefix t (gi_session req)) in *.
  pose proof (get_candidates t (gi_session req) (kv_view s) (gi_limit req) (gi_before_seq req)
                Hw Ht Hs Hb) as HC. fold o p items in HC. rewrite Hc, fmap_app in HC.
  apply (f_equal (@rev _)) in HC. rewrite rev_involutive, rev_app_distr, <- !fmap_rev in HC.
  exists (item_of p <$> rev rest), (item_of p <$> rev kvs).
  assert (forall l, length (item_of p <$> rev l) = length l) as HL
    by (intros l; by rewrite length_fmap, length_rev).
  cbn [items_ has_more first_seq].
  assert (match rev kvs with [] => 0 | kv :: _ => GetU64BE (drop (length p) kv.1) end =
          match item_of p <$> rev kvs with [] => 0 | x :: _ => x.1 end) as HFS by (by destruct (rev kvs)).
  rewrite HFS. clear HFS. split_and!.
  - done.
  - by rewrite <- list_fmap_compose.
  - rewrite Hm. split; intros H1 H2; apply H1; [|by subst].
    apply (f_equal length) in H2. rewrite HL in H2. by destruct rest.
  - intros H1 H2. apply Hne; [by intros ->|]. apply (f_equal length) in H2. rewrite HL in H2.
    by destruct kvs.
  - intros H1. rewrite HL. by apply Hl.
  - rewrite HL. intros r x Hrx. destruct rest as [|kv rest]; [by destruct r|].
    cbn [rev] in Hrx. rewrite fmap_app in Hrx. apply app_inj_tail in Hrx as [_ <-].
    destruct (Hf kv rest eq_refl) as [?|[_ Hbytes]]; [by left|right].
    change (item_of p kv :: (item_of p <$> rev kvs)) with (item_of p <$> (kv :: rev kvs)).
    rewrite (entry_of_item (kv_view s)); [|done..|].
    + cbn [live_size foldr]. fold (live_size (rev kvs)). rewrite live_size_rev. simpl in Hbytes. lia.
    + apply Forall_forall. intros y Hy. apply (candidates_under o). rewrite Hc.
      apply elem_of_cons in Hy as [->|Hy]; [set_solver|].
      apply list_elem_of_In, in_rev, list_elem_of_In in Hy. set_solver.
  - done.
  - destruct (item_of p <$> rev kvs) as [|x pg] eqn:EP; [done|]. intros Hx.
    eapply older_resume; [|symmetry; exact HC|done].
    apply session_sorted; try done. by apply kv_sorted.
Qed.

(** [ClearSession] empties the session: when it answers OK the session
    has no items, the response is the number it had, and everything else in
    the store is as before. *)
Theorem ClearSession_clears e c ctx req s t n s' :
  svc_ok s -> ResolveTenant c ctx (ss_tenant req) = inr t ->
  kv_delete_fits (ItemPrefix t (ss_session req)) s ->
  ClearSession e c ctx req s = (inr n, s') ->
  session_items t (ss_session req) (kv_view s') = [] /\
  n = length (session_items t (ss_session req) (kv_view s)) /\
  kv_view s' = others (ItemPrefix t (ss_session req)) (kv_view s) /\
  svc_ok s'.
Proof.
  intros [Hk Hw] Hr Hfit HC. unfold ClearSession in HC. rewrite Hr in HC. cbn [or_return] in HC.
  destruct (is_empty _); [done|]. destruct (kv_delete_prefix _ _ s) as [[m failed] s1] eqn:ED.
  destruct failed; [done|]. injection HC as <- <-.
  destruct (kv_delete_true _ _ _ _ _ Hk Hfit ED) as (Hk1 & Hv & ->).
  unfold svc_ok, session_items. rewrite Hv. split_and!; [|by rewrite length_fmap|done..|].
  - rewrite filter_filter, filter_none; [done|]. apply Forall_forall. intros kv _. unfold under.
    by destruct (starts_with _ _).
  - by apply view_wf_filter.
Qed.

(** The copies [ForkSession] writes. *)
Lemma fork_batch t src dst m :
  view_wf m -> sized t -> sized src ->
  (fun kv => mkMut kPut (ItemPrefix t dst ++ drop (length (ItemPrefix t src)) kv.1) kv.2) <$>
    List.filter (under (ItemPrefix t src)) m =
  (fun x => mkMut kPut (item_key t dst x.1) x.2) <$> session_items t src m.
Proof.
  intros Hw Ht Hs. rewrite session_entries, <- list_fmap_compose by done.
  apply list_fmap_ext. intros i x _. unfold compose. cbn [fst snd]. by rewrite drop_item_key.
Qed.

Lemma fork_play t src dst m :
  sorted m -> view_wf m -> sized t -> sized src -> sized dst -> src <> dst ->
  session_items t dst m = [] ->
  let m' := play ((fun x => mkMut kPut (item_key t dst x.1) x.2) <$> session_items t src m) m in
  session_items t dst m' = session_items t src m /\ session_items t src m' = session_items t src m /\
  others (ItemPrefix t dst) m' = others (ItemPrefix t dst) m /\ view_wf m'.
Proof.
  intros Hm Hw Ht Hs Hd Hne He m'. set (l := session_items t src m) in *.
  assert (forall x, x ∈ l -> seq_ok x.1) as Hl by (intros x; by apply session_seqs).
  assert (List.filter (under (ItemPrefix t dst)) m = []) as He'
    by (unfold session_items in He; by apply fmap_nil_inv in He).
  assert (List.filter (under (ItemPrefix t dst)) m' = (fun x => (item_key t dst x.1, x.2)) <$> l) as HF.
  { unfold m', under. rewrite (filter_play_puts (starts_with (ItemPrefix t dst))); [|done| |].
    - fold (under (ItemPrefix t dst)). rewrite <- list_fmap_compose.
      change (fun kv : entry => starts_with (ItemPrefix t dst) kv.1) with (under (ItemPrefix t dst)).
      by rewrite He'.
    - apply Forall_fmap, Forall_forall. intros x _. split; [done|]. apply starts_with_app.
    - change (fun kv : entry => starts_with (ItemPrefix t dst) kv.1) with (under (ItemPrefix t dst)).
      rewrite He', <- list_fmap_compose. simpl.
      apply sorted_keys; [by apply session_sorted|done]. }
  split_and!.
  - unfold session_items. rewrite HF, <- list_fmap_compose.
    rewrite <- (list_fmap_id l) at 2. apply list_fmap_ext. intros i [q v] Hi.
    apply list_elem_of_lookup_2, Hl in Hi. unfold compose, item_of. cbn [fst snd id] in *.
    by rewrite drop_item_key, GetU64BE_put.
  - unfold l, session_items, m'. f_equal. apply (filter_play_other (starts_with (ItemPrefix t src))).
    apply Forall_fmap, Forall_forall. intros x _. unfold compose. cbn [key].
    destruct (starts_with _ _) eqn:E; [|done]. by apply ItemPrefix_free in E as [_ ?].
  - apply others_play. apply Forall_fmap, Forall_forall. intros x _. apply starts_with_app.
  - apply view_wf_play; [done|]. apply Forall_fmap, Forall_forall. intros x Hx.
    exists t. split; [done|]. left. exists dst, x.1. split_and!; auto.
Qed.

(** [ForkSession] copies a session. It refuses a target that is not
    empty. When it answers OK the target holds the source's items with their
    sequence numbers, the source is unchanged, the response is the number of
    items, and nothing outside the target's keys changed. *)
Theorem ForkSession_copies e c ctx req s t :
  svc_ok s -> ResolveTenant c ctx (fk_tenant req) = inr t ->
  sized t -> sized (fk_source req) -> sized (fk_target req) ->
  let src := session_items t (fk_source req) (kv_view s) in
  kv_fits ((fun x => mkMut kPut (item_key t (fk_target req) x.1) x.2) <$> src) ->
  (session_items t (fk_target req) (kv_view s) <> [] ->
   exists code, ForkSession e c ctx req s = (inl code, s)) /\
  (forall n s', ForkSession e c ctx req s = (inr n, s') ->
   session_items t (fk_target req) (kv_view s) = [] /\
   session_items t (fk_target req) (kv_view s') = src /\
   session_items t (fk_source req) (kv_view s') = src /\
   n = length src /\
   others (ItemPrefix t (fk_target req)) (kv_view s') =
     others (ItemPrefix t (fk_target req)) (kv_view s) /\
   svc_ok s').
Proof.
  intros [Hk Hw] Hr Ht Hs Hd src Hfit. unfold ForkSession. rewrite Hr. cbn [or_return].
  destruct (_ || _); [split; [eauto|done]|].
  case_bool_decide as Hne; [split; [eauto|done]|].
  rewrite kv_scan_first, kv_scan_all by done. cbn [fst]. rewrite fork_batch by done. fold src.
  unfold session_items at 1 2.
  destruct (List.filter (under (ItemPrefix t (fk_target req))) (kv_view s)) as [|kv l] eqn:EF;
    [|split; [eauto|done]]. split; [done|].
  intros n s'. simpl take. cbv iota. destruct (kv_apply _ _ s) as [ok s1] eqn:EA.
  destruct ok; [|done]. intros [= <- <-].
  destruct (kv_apply_true _ _ _ _ Hk Hfit EA) as [Hk1 Hv].
  assert (session_items t (fk_target req) (kv_view s) = []) as He
    by (unfold session_items; by rewrite EF).
  destruct (fork_play t (fk_source req) (fk_target req) (kv_view s) (kv_sorted _ Hk) Hw Ht Hs Hd Hne He)
    as (H1 & H2 & H3 & H4). fold src in H1, H2, H3, H4. unfold svc_ok. rewrite Hv, length_fmap. done.
Qed.

End Sessions.

(** ** Witnesses on the log store *)

Definition tenant_t : bytes := [x74].
Definition session_a : bytes := [x61].
Definition session_b : bytes := [x62].
Definition open_config : Config := mkConfig false None.
Definition no_auth : Ctx := mkCtx None.
Definition good_env : @kv_env _ log_kv := (good_append, good_compact).

Definition two_puts : list Mutation := item_puts (ItemPrefix tenant_t session_a) 1 [[x01]; [x02]].
Definition two_items : LogStore.Store := (LogStore.Apply good_append good_compact two_puts empty_store).2.

Lemma empty_store_ok : svc_ok empty_store.
Proof. split; [split; [exact empty_store_inv|exact (Forall_nil_2 _)]|exact (Forall_nil_2 _)]. Qed.

Lemma two_puts_fit : admissible two_puts.
Proof. split; [vm_compute; reflexivity|]. repeat constructor. Qed.

Lemma two_items_ok : svc_ok two_items.
Proof.
  destruct empty_store_ok as [Hk Hw].
  assert (LogStore.Apply good_append good_compact two_puts empty_store = (true, two_items)) as H
    by (vm_compute; reflexivity).
  destruct (kv_apply_true good_env two_puts empty_store two_items Hk two_puts_fit H)
    as [Hk' Hv]. split; [done|]. rewrite Hv. apply view_wf_play; [done|].
  apply item_puts_wf; [done|done|lia|simpl; lia].
Qed.

Lemma AppendItems_appends_witness :
  session_items tenant_t session_a (LogStore.map_
    (AppendItems good_env open_config no_auth (mkAppend tenant_t session_a [[x01]; [x02]]) empty_store).2)
  = [(1, [x01]); (2, [x02])].
Proof.
  destruct (AppendItems_appends good_env open_config no_auth
    (mkAppend tenant_t session_a [[x01]; [x02]]) empty_store tenant_t 3
    (AppendItems good_env open_config no_auth (mkAppend tenant_t session_a [[x01]; [x02]]) empty_store).2)
    as [H _].
  - exact empty_store_ok.
  - reflexivity.
  - vm_compute. reflexivity.
  - vm_compute. reflexivity.
  - vm_compute. reflexivity.
  - exact two_puts_fit.
  - vm_compute. reflexivity.
  - etransitivity; [exact H|]. vm_compute. reflexivity.
Defined.

Lemma two_items_keys_fit (kv : entry) :
  kv ∈ LogStore.map_ two_items -> admissible [mkMut kDel kv.1 []].
Proof.
  intros Hin. vm_compute in Hin.
  repeat (apply elem_of_cons in Hin as [->|Hin];
    [split; [vm_compute; reflexivity|repeat constructor]|]).
  by apply elem_of_nil in Hin.
Qed.

Lemma PopItem_pops_witness :
  exists q, session_items tenant_t session_a (LogStore.map_ two_items) =
    session_items tenant_t session_a (LogStore.map_
      (PopItem good_env open_config no_auth (mkSession tenant_t session_a) two_items).2) ++ [(q, [x02])].
Proof.
  destruct (PopItem_pops good_env open_config no_auth (mkSession tenant_t session_a) two_items tenant_t
    (Some [x02]) (PopItem good_env open_config no_auth (mkSession tenant_t session_a) two_items).2)
    as [H _].
  - exact two_items_ok.
  - reflexivity.
  - vm_compute. reflexivity.
  - vm_compute. reflexivity.
  - exact two_items_keys_fit.
  - vm_compute. reflexivity.
  - exact H.
Defined.

Lemma GetItems_page_witness :
  exists rest page,
    session_items tenant_t session_a (LogStore.map_ two_items) = rest ++ page /\ page.*2 = [[x02]].
Proof.
  destruct (GetItems_page open_config no_auth (mkGetItems tenant_t session_a 1 0) two_items tenant_t
    (mkItems [[x02]] 2 true) two_items) as [_ (rest & page & H & Hp & _)].
  - exact two_items_ok.
  - reflexivity.
  - vm_compute. reflexivity.
  - vm_compute. reflexivity.
  - simpl. lia.
  - simpl. lia.
  - vm_compute. reflexivity.
  - exists rest, page. split; [exact H|symmetry; exact Hp].
Defined.

Lemma ClearSession_clears_witness :
  session_items tenant_t session_a (LogStore.map_
    (ClearSession good_env open_config no_auth (mkSession tenant_t session_a) two_items).2) = [].
Proof.
  destruct (ClearSession_clears good_env open_config no_auth (mkSession tenant_t session_a) two_items
    tenant_t 2 (ClearSession good_env open_config no_auth (mkSession tenant_t session_a) two_items).2)
    as [H _].
  - exact two_items_ok.
  - reflexivity.
  - vm_compute. reflexivity.
  - vm_compute. reflexivity.
  - exact H.
Defined.

Lemma ForkSession_copies_witness :
  session_items tenant_t session_b (LogStore.map_
    (ForkSession good_env open_config no_auth (mkFork tenant_t session_a session_b) two_items).2) =
  [(1, [x01]); (2, [x02])].
Proof.
  destruct (ForkSession_copies good_env open_config no_auth (mkFork tenant_t session_a session_b)
    two_items tenant_t) as [_ H].
  - exact two_items_ok.
  - reflexivity.
  - vm_compute. reflexivity.
  - vm_compute. reflexivity.
  - vm_compute. reflexivity.
  - split; [vm_compute; reflexivity|]. apply (bool_decide_unpack _). vm_compute. exact I.
  - destruct (H 2%nat (ForkSession good_env open_config no_auth
      (mkFork tenant_t session_a session_b) two_items).2) as (_ & H1 & _).
    + vm_compute. reflexivity.
    + etransitivity; [exact H1|]. vm_compute. reflexivity.
Defined.
