(* ===== verification/AgentRecords.v ===== *)
(** * Records of the AgentState service, and isolation of tenants

    The record handlers on a tenant's key space: a write is a batch of puts
    followed by deletes, a read returns what was written, a scan is a page of
    the tenant's records in user-key order. The last section puts all handlers
    together and shows that a call made as one tenant neither changes nor
    reveals another tenant's keys. *)

From S2P Require Import Prelude OrderedMap LogCodec LogStore LogReplay LogDurability LogScan.
From S2P Require Import LogCorrect KvInterface Mtls AgentState AgentKeys AgentItems.
From Stdlib Require Import ZArith Lia Sorted.

Import OMap Log Agent.
Open Scope Z_scope.

(** ** The abstract record space *)

(** The user key and value of an entry under [base]. *)
Definition record_of (base : bytes) (kv : entry) : entry := (drop (length base) kv.1, kv.2).

Definition records (t : bytes) (m : omap) : omap :=
  record_of (record_key t []) <$> List.filter (under (record_key t [])) m.

(** The value the last put of [k] in the request carries. *)
Definition last_put (puts : list (bytes * bytes)) (k : bytes) : option bytes :=
  fold_left (fun acc r => if bool_decide (r.1 = k) then Some r.2 else acc) puts None.

Lemma record_key_app t k : record_key t k = record_key t [] ++ k.
Proof. unfold record_key, EncodeKey. by rewrite <- !app_assoc. Qed.

Lemma record_key_inj t k k' : record_key t k = record_key t k' -> k = k'.
Proof. rewrite (record_key_app t k), (record_key_app t k'). by intros ?%app_inv_head. Qed.

Lemma find_play_puts t puts k m :
  find (record_key t k) (play ((fun r => mkMut kPut (record_key t r.1) r.2) <$> puts) m) =
  fold_left (fun acc r => if bool_decide (r.1 = k) then Some r.2 else acc) puts
            (find (record_key t k) m).
Proof.
  unfold play. revert m. induction puts as [|[k' v] puts IH]; intros m; [done|].
  cbn [fmap list_fmap fold_left]. rewrite IH. f_equal. unfold step_map. cbn [op key value fst snd].
  case_bool_decide as E.
  - subst k'. apply find_insert_eq.
  - apply find_insert_ne. intros H. by apply record_key_inj in H.
Qed.

Lemma last_put_acc puts k acc :
  fold_left (fun acc r => if bool_decide (r.1 = k) then Some r.2 else acc) puts acc =
  match last_put puts k with Some v => Some v | None => acc end.
Proof.
  unfold last_put. revert acc. induction puts as [|r puts IH]; intros acc; [done|].
  cbn [fold_left]. rewrite IH, (IH (if bool_decide (r.1 = k) then Some r.2 else None)).
  destruct (fold_left _ puts None); [done|]. by destruct (bool_decide (r.1 = k)).
Qed.

Lemma find_play_dels t dels k m :
  sorted m ->
  find (record_key t k) (play ((fun k => mkMut kDel (record_key t k) []) <$> dels) m) =
  if bool_decide (k ∈ dels) then None else find (record_key t k) m.
Proof.
  unfold play. revert m. induction dels as [|k' dels IH]; intros m Hs; [done|].
  cbn [fmap list_fmap fold_left]. rewrite IH by auto with store. unfold step_map. cbn [op key].
  destruct (decide (k = k')) as [->|Hne].
  - rewrite find_erase_eq, (bool_decide_true (k' ∈ k' :: dels)) by (done || by left).
    by case_bool_decide.
  - rewrite find_erase_ne by (done || intros H; by apply record_key_inj in H).
    erewrite bool_decide_ext; [done|]. rewrite elem_of_cons. naive_solver.
Qed.

(** The value a batch leaves under a key. *)
Lemma find_record_batch t puts dels k m :
  sorted m ->
  find (record_key t k) (play (record_batch t puts dels) m) =
  if bool_decide (k ∈ dels) then None
  else match last_put puts k with Some v => Some v | None => find (record_key t k) m end.
Proof.
  intros Hs. unfold record_batch, play. rewrite fold_left_app.
  fold (play ((fun r => mkMut kPut (record_key t r.1) r.2) <$> puts) m).
  fold (play ((fun k => mkMut kDel (record_key t k) []) <$> dels)
    (play ((fun r => mkMut kPut (record_key t r.1) r.2) <$> puts) m)).
  rewrite find_play_dels, find_play_puts, last_put_acc by auto with store. done.
Qed.

Lemma record_batch_under t puts dels :
  Forall (fun mu => starts_with (record_key t []) (key mu) = true) (record_batch t puts dels).
Proof.
  apply Forall_app. split; apply Forall_fmap, Forall_forall; intros x _; unfold compose; cbn [key].
  - rewrite (record_key_app t x.1). apply starts_with_app.
  - rewrite (record_key_app t x). apply starts_with_app.
Qed.

Lemma record_batch_wf t puts dels :
  sized t -> Forall (fun mu => key_wf (key mu)) (record_batch t puts dels).
Proof.
  intros Ht. apply Forall_app. split; apply Forall_fmap, Forall_forall; intros x _; unfold compose;
    cbn [key]; exists t; (split; [done|]); right; eauto.
Qed.

(** ** Scans in user keys *)

Lemma blt_app p a b : blt (p ++ a) (p ++ b) = blt a b.
Proof. unfold blt. by rewrite bcmp_app. Qed.

Lemma starts_with_app_both p a b : starts_with (p ++ a) (p ++ b) = starts_with a b.
Proof.
  apply eq_true_iff_eq. rewrite !starts_with_iff. split.
  - intros [r H]. rewrite <- app_assoc in H. apply app_inv_head in H. eauto.
  - intros [r ->]. exists r. by rewrite app_assoc.
Qed.

Definition scan_options (base : bytes) (req : ScanRecordsRequest) (lim mb : Z) : ScanOptions :=
  mkScan (base ++ sr_prefix req)
         (if is_empty (sr_start_after req) then [] else base ++ sr_start_after req)
         (if is_empty (sr_end_before req) then [] else base ++ sr_end_before req)
         lim mb (sr_reverse req).

Lemma is_empty_app a b : is_empty b = false -> is_empty (a ++ b) = false.
Proof. destruct a, b; done. Qed.

Lemma scan_options_range base req lim mb k :
  in_range (scan_options base req lim mb) (base ++ k) =
  in_range (scan_options [] req 0 0) k.
Proof.
  unfold in_range, scan_options. cbn [prefix start_after end_before].
  rewrite starts_with_app_both.
  destruct (is_empty (sr_start_after req)) eqn:E1, (is_empty (sr_end_before req)) eqn:E2;
    rewrite ?blt_app, ?is_empty_app by done; cbn [app]; rewrite ?E1, ?E2; done.
Qed.

Lemma record_candidates t req lim mb m :
  record_of (record_key t []) <$> candidates (scan_options (record_key t []) req lim mb) m =
  candidates (scan_options [] req 0 0) (records t m).
Proof.
  unfold candidates.
  change (reverse (scan_options (record_key t []) req lim mb)) with (sr_reverse req).
  change (reverse (scan_options [] req 0 0)) with (sr_reverse req).
  assert (record_of (record_key t []) <$>
    List.filter (fun kv => in_range (scan_options (record_key t []) req lim mb) kv.1) m =
    List.filter (fun kv => in_range (scan_options [] req 0 0) kv.1) (records t m)) as H.
  { unfold records. rewrite <- (fmap_filter_List _
      (fun kv => in_range (scan_options (record_key t []) req lim mb) kv.1)).
    - f_equal. rewrite filter_filter. apply List.filter_ext. intros kv. unfold under.
      destruct (in_range _ _) eqn:E; [|by rewrite andb_false_r]. rewrite andb_true_r.
      unfold in_range in E. apply andb_true_iff in E as [E _]. apply andb_true_iff in E as [E _].
      symmetry. eapply starts_with_trans; [|exact E]. apply starts_with_app.
    - apply Forall_forall. intros kv Hkv. apply list_elem_of_In, List.filter_In in Hkv as [_ Hkv].
      unfold under in Hkv. apply starts_with_iff in Hkv as [r Hr]. unfold record_of. cbn [fst].
      rewrite Hr, drop_app_length. apply scan_options_range. }
  destruct (sr_reverse req); [|done]. by rewrite fmap_rev, H.
Qed.

Section Records.
Context {S : Type} `{OrderedKvLaws S}.

(** Records read back as written. After a [WriteRecords] that answered
    OK, [GetRecords] for any keys returns, in the order asked, each key that
    is not among the request's deletes and is put by the request, with the
    value of its last put, or else was there before, with its old value; and
    nothing outside the tenant's records changed. *)
Theorem WriteRecords_GetRecords e c ctx req s s' t keys :
  svc_ok s -> ResolveTenant c ctx (wr_tenant req) = inr t -> sized t ->
  kv_fits (record_batch t (wr_puts req) (wr_deletes req)) ->
  WriteRecords e c ctx req s = (inr tt, s') ->
  GetRecords c ctx (mkGetRecords (wr_tenant req) keys) s' =
    (inr (base.omap (fun k => (fun v => (k, v)) <$>
       (if bool_decide (k ∈ wr_deletes req) then None
        else match last_put (wr_puts req) k with
             | Some v => Some v
             | None => find (record_key t k) (kv_view s)
             end)) keys), s') /\
  others (record_key t []) (kv_view s') = others (record_key t []) (kv_view s) /\
  svc_ok s'.
Proof.
  intros [Hk Hw] Hr Ht Hfit HW. unfold WriteRecords in HW. rewrite Hr in HW. cbn [or_return] in HW.
  destruct (existsb _ _); [done|]. destruct (kv_apply _ _ s) as [ok s1] eqn:EA.
  destruct ok; [|done]. injection HW as <-.
  destruct (kv_apply_true _ _ _ _ Hk Hfit EA) as [Hk1 Hv]. unfold svc_ok. rewrite Hv.
  split_and!; [|by apply others_play, record_batch_under|done|].
  - unfold GetRecords. cbn [gr_tenant gr_keys]. rewrite Hr. cbn [or_return]. f_equal. f_equal.
    apply list_omap_ext, Forall_Forall2_diag, Forall_forall. intros k _.
    rewrite kv_get_spec by done. rewrite Hv, find_record_batch by (by apply kv_sorted). done.
  - apply view_wf_play; [done|]. by apply record_batch_wf.
Qed.

(** [ScanRecords] pages through the tenant's records. The response is an
    initial segment of the tenant's records under the request's prefix and
    strictly between its bounds, in user-key order or reversed, of at most
    [limit] and at most 1000 records; [has_more] says whether something is
    left, and then the segment is not empty. *)
Theorem ScanRecords_page c ctx req s t out more s' :
  kv_ok s -> ResolveTenant c ctx (sr_tenant req) = inr t -> 0 <= sr_limit req ->
  ScanRecords c ctx req s = (inr (out, more), s') ->
  s' = s /\
  exists rest,
    candidates (scan_options [] req 0 0) (records t (kv_view s)) = out ++ rest /\
    (more = true <-> rest <> []) /\
    zlen out <= kMaxScanPage /\
    (sr_limit req <> 0 -> zlen out <= sr_limit req) /\
    (rest <> [] -> out <> []).
Proof.
  intros Hk Hr Hlim HS. unfold ScanRecords in HS. rewrite Hr in HS. cbn [or_return] in HS.
  set (lim := if (sr_limit req =? 0) || (kMaxScanPage <? sr_limit req)
              then kMaxScanPage else sr_limit req) in HS.
  assert (0 < lim <= kMaxScanPage /\ (sr_limit req <> 0 -> lim <= sr_limit req)) as [Hl Hl'].
  { unfold lim, kMaxScanPage. destruct (Z.eqb_spec (sr_limit req) 0), (Z.ltb_spec 1000 (sr_limit req));
      simpl; lia. }
  fold (scan_options (record_key t []) req lim kMaxPageBytes) in HS.
  rewrite kv_scan_spec in HS by done.
  destruct (scan_walk _ _ _ _ _) as [kvs more'] eqn:EW. injection HS as <- <- <-. split; [done|].
  apply scan_walk_page_of in EW as (rest & Hc & Hm & Hn & _ & Hne & _); [|simpl; lia].
  exists (record_of (record_key t []) <$> rest).
  rewrite <- (record_candidates t req lim kMaxPageBytes), Hc, fmap_app. cbn [limit scan_options] in Hn.
  rewrite length_fmap. split_and!; [done|..].
  - rewrite Hm. by destruct rest.
  - specialize (Hn ltac:(lia)). lia.
  - intros H1. specialize (Hn ltac:(lia)). specialize (Hl' H1). lia.
  - intros H1. assert (rest <> []) as H2 by (by intros ->). apply Hne in H2. by destruct kvs.
Qed.

(** [DeleteRecordPrefix] removes exactly the tenant's records whose key
    starts with the prefix, reports how many, and changes nothing else. *)
Theorem DeleteRecordPrefix_exact e c ctx req s t n s' :
  kv_ok s -> ResolveTenant c ctx (dp_tenant req) = inr t ->
  DeleteRecordPrefix e c ctx req s = (inr n, s') ->
  records t (kv_view s') =
    List.filter (fun kv => negb (starts_with (dp_prefix req) kv.1)) (records t (kv_view s)) /\
  n = length (List.filter (fun kv => starts_with (dp_prefix req) kv.1) (records t (kv_view s))) /\
  kv_view s' = others (record_key t (dp_prefix req)) (kv_view s).
Proof.
  intros Hk Hr HD. unfold DeleteRecordPrefix in HD. rewrite Hr in HD. cbn [or_return] in HD.
  destruct (kv_delete_prefix _ _ s) as [[m failed] s1] eqn:ED. destruct failed; [done|].
  injection HD as <- <-. destruct (kv_delete_view _ _ _ _ _ Hk ED) as [Hv ->]. rewrite Hv.
  assert (forall (b : bool -> bool) kv, under (record_key t []) kv = true ->
    b (starts_with (record_key t (dp_prefix req)) kv.1) =
    b (starts_with (dp_prefix req) (record_of (record_key t []) kv).1)) as Hsw.
  { intros b kv Hu. unfold under in Hu. apply starts_with_iff in Hu as [r Hu]. unfold record_of.
    cbn [fst]. rewrite Hu, drop_app_length, record_key_app. by rewrite starts_with_app_both. }
  split_and!.
  - unfold records. rewrite <- (fmap_filter_List _
      (fun kv => negb (starts_with (record_key t (dp_prefix req)) kv.1))).
    + f_equal. rewrite !filter_filter. apply List.filter_ext. intros kv. apply andb_comm.
    + apply Forall_forall. intros kv Hkv. apply list_elem_of_In, List.filter_In in Hkv as [_ Hkv].
      by apply (Hsw negb).
  - unfold records. rewrite <- (fmap_filter_List _
      (fun kv => starts_with (record_key t (dp_prefix req)) kv.1)), length_fmap.
    + rewrite filter_filter. f_equal. apply List.filter_ext. intros kv.
      destruct (starts_with (record_key t (dp_prefix req)) kv.1) eqn:E; [|by rewrite andb_false_r].
      rewrite andb_true_r. symmetry. unfold under. eapply starts_with_trans; [|exact E].
      rewrite (record_key_app t (dp_prefix req)). apply starts_with_app.
    + apply Forall_forall. intros kv Hkv. apply list_elem_of_In, List.filter_In in Hkv as [_ Hkv].
      by apply (Hsw id).
  - done.
Qed.

End Records.

(** ** All handlers together *)

Inductive Request :=
| RAppendItems (r : AppendItemsRequest)
| RGetItems (r : GetItemsRequest)
| RPopItem (r : SessionRequest)
| RClearSession (r : SessionRequest)
| RForkSession (r : ForkSessionRequest)
| RWriteRecords (r : WriteRecordsRequest)
| RGetRecords (r : GetRecordsRequest)
| RScanRecords (r : ScanRecordsRequest)
| RDeleteRecordPrefix (r : DeleteRecordPrefixRequest).

Inductive Response :=
| PNextSeq (n : Z)
| PItems (r : GetItemsResponse)
| PItem (r : option bytes)
| PCount (n : nat)
| PWritten
| PRecords (l : list (bytes * bytes))
| PPage (l : list (bytes * bytes)) (more : bool).

(** The [tenant] field of a request. *)
Definition requested (r : Request) : bytes :=
  match r with
  | RAppendItems r => ap_tenant r
  | RGetItems r => gi_tenant r
  | RPopItem r | RClearSession r => ss_tenant r
  | RForkSession r => fk_tenant r
  | RWriteRecords r => wr_tenant r
  | RGetRecords r => gr_tenant r
  | RScanRecords r => sr_tenant r
  | RDeleteRecordPrefix r => dp_tenant r
  end.

Definition is_read (r : Request) : bool :=
  match r with RGetItems _ | RGetRecords _ | RScanRecords _ => true | _ => false end.

(** The keys of a tenant. *)
Definition owned (t : bytes) (m : omap) : omap := List.filter (under (tenant_prefix t)) m.

Section Isolation.
Context {S : Type} `{OrderedKvLaws S}.

Definition respond {A} (f : A -> Response) (x : result A * S) : result Response * S :=
  (match x.1 with inl code => inl code | inr a => inr (f a) end, x.2).

(** The dispatch of the gRPC service. *)
Definition handle (e : kv_env) (c : Config) (ctx : Ctx) (r : Request) (s : S) : result Response * S :=
  match r with
  | RAppendItems r => respond PNextSeq (AppendItems e c ctx r s)
  | RGetItems r => respond PItems (GetItems c ctx r s)
  | RPopItem r => respond PItem (PopItem e c ctx r s)
  | RClearSession r => respond PCount (ClearSession e c ctx r s)
  | RForkSession r => respond PCount (ForkSession e c ctx r s)
  | RWriteRecords r => respond (fun _ => PWritten) (WriteRecords e c ctx r s)
  | RGetRecords r => respond PRecords (GetRecords c ctx r s)
  | RScanRecords r => respond (fun x => PPage x.1 x.2) (ScanRecords c ctx r s)
  | RDeleteRecordPrefix r => respond PCount (DeleteRecordPrefix e c ctx r s)
  end.

Lemma tenants_disjoint t t' k :
  sized t -> sized t' -> starts_with (tenant_prefix t) k = true ->
  starts_with (tenant_prefix t') k = true -> t = t'.
Proof.
  intros Ht Ht' H1 H2. apply starts_with_iff in H2 as [r ->]. by eapply tenant_prefix_free.
Qed.

Lemma EncodeKey_under t k r : starts_with (tenant_prefix t) (EncodeKey t k r) = true.
Proof. rewrite EncodeKey_tenant. apply starts_with_app. Qed.

Lemma ItemPrefix_under t s r : starts_with (tenant_prefix t) (ItemPrefix t s ++ r) = true.
Proof.
  eapply starts_with_trans; [|apply starts_with_app]. Transparent ItemPrefix. unfold ItemPrefix.
  Opaque ItemPrefix. apply EncodeKey_under.
Qed.

(** A write of keys of [t] leaves the keys of [t'] alone, whether it is
    acknowledged or not. *)
Lemma owned_apply e b s t t' :
  kv_ok s -> sized t -> sized t' -> t' <> t ->
  Forall (fun mu => starts_with (tenant_prefix t) (key mu) = true) b ->
  owned t' (kv_view (kv_apply e b s).2) = owned t' (kv_view s).
Proof.
  intros Hk Ht Ht' Hne Hb. destruct (kv_apply e b s) as [ok s'] eqn:E. destruct ok; simpl.
  - rewrite (kv_apply_view _ _ _ _ Hk E). apply (filter_play_other (starts_with (tenant_prefix t'))).
    eapply Forall_impl; [exact Hb|]. intros mu Hmu. simpl in *.
    destruct (starts_with (tenant_prefix t') (key mu)) eqn:E'; [|done].
    exfalso. apply Hne. by eapply tenants_disjoint.
  - by rewrite (proj1 (kv_apply_false _ _ _ _ Hk E)).
Qed.

Lemma owned_delete e p s t t' :
  kv_ok s -> sized t -> sized t' -> t' <> t -> starts_with (tenant_prefix t) p = true ->
  owned t' (kv_view (kv_delete_prefix e p s).2) = owned t' (kv_view s).
Proof.
  intros Hk Ht Ht' Hne Hp. destruct (kv_delete_prefix e p s) as [[n failed] s'] eqn:E.
  destruct failed; simpl.
  - by rewrite (proj1 (kv_delete_false _ _ _ _ _ Hk E)).
  - rewrite (proj1 (kv_delete_view _ _ _ _ _ Hk E)). unfold owned. rewrite filter_filter.
    apply List.filter_ext. intros kv. unfold under.
    destruct (starts_with (tenant_prefix t') kv.1) eqn:E1; [|by rewrite andb_false_r].
    rewrite andb_true_r. destruct (starts_with p kv.1) eqn:E2; [|done]. exfalso. apply Hne.
    eapply tenants_disjoint; [done..|]. by eapply starts_with_trans.
Qed.

Lemma item_puts_owned t s q items :
  Forall (fun mu => starts_with (tenant_prefix t) (key mu) = true) (item_puts (ItemPrefix t s) q items).
Proof. revert q. induction items; intros q; constructor; auto. apply ItemPrefix_under. Qed.

Lemma record_batch_owned t puts dels :
  Forall (fun mu => starts_with (tenant_prefix t) (key mu) = true) (record_batch t puts dels).
Proof.
  apply Forall_app. split; apply Forall_fmap, Forall_forall; intros x _; apply EncodeKey_under.
Qed.

Lemma scan_last_owned t p s kv r :
  kv_ok s -> starts_with (tenant_prefix t) p = true ->
  (kv_scan (scan_prefix p 1 true) s).1 = kv :: r -> starts_with (tenant_prefix t) kv.1 = true.
Proof.
  intros Hk Hp. rewrite kv_scan_last by done. destruct (last _) as [kv'|] eqn:E; [|done].
  intros [= <- _]. apply last_Some_elem_of, list_elem_of_In, List.filter_In in E as [_ E].
  by eapply starts_with_trans.
Qed.

(** One handler, once its tenant is resolved. *)
Ltac resolve Hr :=
  rewrite Hr; cbn [or_return];
  repeat match goal with
         | |- context [if ?b then (inl INVALID_ARGUMENT, _) else _] => destruct b; [done|]
         end.

(** The last call of a handler decides its effect. *)
Ltac last_write t tac :=
  match goal with
  | |- context [kv_apply ?e ?b ?s] =>
      etransitivity; [|apply (owned_apply e b s t); [done..|tac]];
      destruct (kv_apply e b s) as [[] ?]; done
  | |- context [kv_delete_prefix ?e ?p ?s] =>
      etransitivity; [|apply (owned_delete e p s t); [done..|tac]];
      destruct (kv_delete_prefix e p s) as [[? []] ?]; done
  end.

Lemma items_isolated e c ctx s t t' :
  kv_ok s -> sized t -> sized t' -> t' <> t ->
  (forall r, ResolveTenant c ctx (ap_tenant r) = inr t ->
     owned t' (kv_view (AppendItems e c ctx r s).2) = owned t' (kv_view s)) /\
  (forall r, ResolveTenant c ctx (ss_tenant r) = inr t ->
     owned t' (kv_view (PopItem e c ctx r s).2) = owned t' (kv_view s)) /\
  (forall r, ResolveTenant c ctx (ss_tenant r) = inr t ->
     owned t' (kv_view (ClearSession e c ctx r s).2) = owned t' (kv_view s)) /\
  (forall r, ResolveTenant c ctx (fk_tenant r) = inr t ->
     owned t' (kv_view (ForkSession e c ctx r s).2) = owned t' (kv_view s)).
Proof.
  intros Hk Ht Ht' Hne.
  assert (forall x, starts_with (tenant_prefix t) (ItemPrefix t x) = true) as Hp.
  { intros x. rewrite <- (app_nil_r (ItemPrefix t x)). apply ItemPrefix_under. }
  split_and!; intros r Hr.
  - unfold AppendItems. resolve Hr. last_write t ltac:(apply item_puts_owned).
  - unfold PopItem. resolve Hr.
    destruct (kv_scan _ s).1 as [|kv l] eqn:ES; [done|].
    apply (scan_last_owned t) in ES; [|done|apply Hp]. last_write t ltac:(by constructor).
  - unfold ClearSession. resolve Hr. last_write t ltac:(apply Hp).
  - unfold ForkSession. resolve Hr. destruct (kv_scan (scan_prefix _ 1 false) s).1; [|done].
    last_write t ltac:(apply Forall_fmap, Forall_forall; intros kv _; apply ItemPrefix_under).
Qed.

Lemma records_isolated e c ctx s t t' :
  kv_ok s -> sized t -> sized t' -> t' <> t ->
  (forall r, ResolveTenant c ctx (wr_tenant r) = inr t ->
     owned t' (kv_view (WriteRecords e c ctx r s).2) = owned t' (kv_view s)) /\
  (forall r, ResolveTenant c ctx (dp_tenant r) = inr t ->
     owned t' (kv_view (DeleteRecordPrefix e c ctx r s).2) = owned t' (kv_view s)).
Proof.
  intros Hk Ht Ht' Hne. split; intros r Hr.
  - unfold WriteRecords. resolve Hr. last_write t ltac:(apply record_batch_owned).
  - unfold DeleteRecordPrefix. rewrite Hr. cbn [or_return]. last_write t ltac:(apply EncodeKey_under).
Qed.

Lemma reads_change_nothing c ctx s :
  (forall r, (GetItems c ctx r s).2 = s) /\ (forall r, (GetRecords c ctx r s).2 = s) /\
  (forall r, (ScanRecords c ctx r s).2 = s).
Proof.
  split_and!; intros r; unfold GetItems, GetRecords, ScanRecords, or_return; repeat break_match; done.
Qed.

(** [C2] Tenants cannot touch each other's data. Every call either fails to
    resolve a tenant, and then changes nothing, or resolves to one tenant and
    leaves the keys of every other tenant exactly as they were, whatever the
    request and whether or not it succeeds. *)
Theorem tenant_write_isolation e c ctx r s :
  kv_ok s ->
  match ResolveTenant c ctx (requested r) with
  | inl code => handle e c ctx r s = (inl code, s)
  | inr t =>
      forall t', sized t -> sized t' -> t' <> t ->
      owned t' (kv_view (handle e c ctx r s).2) = owned t' (kv_view s)
  end.
Proof.
  intros Hk. destruct (ResolveTenant c ctx (requested r)) as [code|t] eqn:Hr.
  { destruct r; simpl in *; unfold respond, AppendItems, GetItems, PopItem, ClearSession, ForkSession,
      WriteRecords, GetRecords, ScanRecords, DeleteRecordPrefix; by rewrite Hr. }
  intros t' Ht Ht' Hne.
  destruct (items_isolated e c ctx s t t' Hk Ht Ht' Hne) as (HA & HP & HC & HF).
  destruct (records_isolated e c ctx s t t' Hk Ht Ht' Hne) as (HW & HD).
  destruct (reads_change_nothing c ctx s) as (HG & HR & HS).
  destruct r; cbn [requested] in Hr; cbn [handle respond snd];
    rewrite ?HG, ?HR, ?HS; auto.
Qed.

Lemma candidates_owned o m t :
  starts_with (tenant_prefix t) (prefix o) = true -> candidates o m = candidates o (owned t m).
Proof.
  intros Hp. unfold candidates, owned.
  replace (List.filter (fun kv => in_range o kv.1) (List.filter (under (tenant_prefix t)) m))
    with (List.filter (fun kv => in_range o kv.1) m); [done|].
  rewrite filter_filter. apply List.filter_ext. intros kv. unfold under.
  destruct (in_range o kv.1) eqn:E; [|by rewrite andb_false_r]. rewrite andb_true_r. symmetry.
  unfold in_range in E. apply andb_true_iff in E as [E _]. apply andb_true_iff in E as [E _].
  by eapply starts_with_trans.
Qed.

Lemma scan_owned o s1 s2 t :
  kv_ok s1 -> kv_ok s2 -> starts_with (tenant_prefix t) (prefix o) = true ->
  owned t (kv_view s1) = owned t (kv_view s2) -> kv_scan o s1 = kv_scan o s2.
Proof.
  intros Hk1 Hk2 Hp Ho. rewrite !kv_scan_spec by done.
  by rewrite (candidates_owned o (kv_view s1) t), (candidates_owned o (kv_view s2) t), Ho.
Qed.

Lemma get_owned k s1 s2 t :
  kv_ok s1 -> kv_ok s2 -> starts_with (tenant_prefix t) k = true ->
  owned t (kv_view s1) = owned t (kv_view s2) -> kv_get k s1 = kv_get k s2.
Proof.
  intros Hk1 Hk2 Hp Ho. rewrite !kv_get_spec by done.
  pose proof (filter_List_find (starts_with (tenant_prefix t)) k (kv_view s1) (kv_sorted _ Hk1)) as H1.
  pose proof (filter_List_find (starts_with (tenant_prefix t)) k (kv_view s2) (kv_sorted _ Hk2)) as H2.
  unfold owned, under in Ho. rewrite Hp in H1, H2. congruence.
Qed.

(** Tenants cannot see each other's data. The answer to a read made as
    one tenant is a function of that tenant's keys: two stores that agree on
    them, whatever else they hold, give the same answer. *)
Theorem tenant_read_isolation e c ctx r s1 s2 t :
  kv_ok s1 -> kv_ok s2 -> ResolveTenant c ctx (requested r) = inr t -> is_read r = true ->
  owned t (kv_view s1) = owned t (kv_view s2) ->
  (handle e c ctx r s1).1 = (handle e c ctx r s2).1.
Proof.
  intros Hk1 Hk2 Hr Hread Ho. destruct r as [|r| | | | |r|r|]; try done; cbn [requested] in Hr;
    cbn [handle]; unfold respond, GetItems, GetRecords, ScanRecords; rewrite Hr; cbn [or_return fst].
  - destruct (is_empty _); [done|]. rewrite (scan_owned _ s1 s2 t); [by destruct (kv_scan _ s2)|done..| |done].
    cbn [prefix]. rewrite <- (app_nil_r (ItemPrefix _ _)). apply ItemPrefix_under.
  - f_equal. f_equal. apply list_omap_ext, Forall_Forall2_diag, Forall_forall. intros k _.
    rewrite (get_owned _ s1 s2 t); [done..| |done]. apply EncodeKey_under.
  - rewrite (scan_owned _ s1 s2 t); [by destruct (kv_scan _ s2)|done..| |done].
    cbn [prefix]. eapply starts_with_trans; [apply EncodeKey_under|apply starts_with_app].
Qed.

End Isolation.

(** ** Witnesses on the log store *)

Definition tenant_u : bytes := [x75].
Definition write_t : WriteRecordsRequest := mkWrite tenant_t [([x6b], [x01]); ([x6b], [x02])] [[x64]].

Definition one_record : LogStore.Store := (WriteRecords good_env open_config no_auth write_t empty_store).2.

Lemma write_t_fits : admissible (record_batch tenant_t (wr_puts write_t) (wr_deletes write_t)).
Proof. split; [vm_compute; reflexivity|]. apply (bool_decide_unpack _). vm_compute. exact I. Qed.

Lemma one_record_ok : svc_ok one_record.
Proof.
  destruct empty_store_ok as [Hk Hw].
  set (b := record_batch tenant_t (wr_puts write_t) (wr_deletes write_t)).
  assert (@kv_apply _ log_kv good_env b empty_store = (true, one_record)) as H
    by (vm_compute; reflexivity).
  destruct (kv_apply_true good_env b empty_store one_record Hk write_t_fits H) as [Hk' Hv].
  split; [done|]. rewrite Hv. apply view_wf_play; [done|]. by apply record_batch_wf.
Qed.

Lemma WriteRecords_GetRecords_witness :
  (GetRecords open_config no_auth (mkGetRecords tenant_t [[x6b]; [x64]]) one_record).1 =
  inr [([x6b], [x02])].
Proof.
  destruct (WriteRecords_GetRecords good_env open_config no_auth write_t empty_store one_record
    tenant_t [[x6b]; [x64]]) as [H _].
  - exact empty_store_ok.
  - reflexivity.
  - vm_compute. reflexivity.
  - exact write_t_fits.
  - vm_compute. reflexivity.
  - etransitivity; [exact (f_equal fst H)|]. vm_compute. reflexivity.
Defined.

Lemma ScanRecords_page_witness :
  exists rest, candidates (scan_options [] (mkScanRecords tenant_t [] [] [] 5 false) 0 0)
    (records tenant_t (LogStore.map_ one_record)) = [([x6b], [x02])] ++ rest.
Proof.
  destruct (ScanRecords_page open_config no_auth (mkScanRecords tenant_t [] [] [] 5 false) one_record
    tenant_t [([x6b], [x02])] false one_record) as (_ & rest & H & _).
  - exact (proj1 one_record_ok).
  - reflexivity.
  - simpl. lia.
  - vm_compute. reflexivity.
  - exists rest. exact H.
Defined.

Lemma DeleteRecordPrefix_exact_witness :
  records tenant_t (LogStore.map_ (DeleteRecordPrefix good_env open_config no_auth
    (mkDeletePrefix tenant_t [x6b]) one_record).2) = [].
Proof.
  destruct (DeleteRecordPrefix_exact good_env open_config no_auth (mkDeletePrefix tenant_t [x6b])
    one_record tenant_t 1 (DeleteRecordPrefix good_env open_config no_auth
    (mkDeletePrefix tenant_t [x6b]) one_record).2) as [H _].
  - exact (proj1 one_record_ok).
  - reflexivity.
  - vm_compute. reflexivity.
  - etransitivity; [exact H|]. vm_compute. reflexivity.
Defined.

Lemma tenant_write_isolation_witness :
  owned tenant_t (LogStore.map_ (handle good_env open_config no_auth
    (RDeleteRecordPrefix (mkDeletePrefix tenant_u [])) one_record).2) =
  owned tenant_t (LogStore.map_ one_record).
Proof.
  refine (tenant_write_isolation good_env open_config no_auth
    (RDeleteRecordPrefix (mkDeletePrefix tenant_u [])) one_record _ tenant_t _ _ _).
  - exact (proj1 one_record_ok).
  - vm_compute. reflexivity.
  - vm_compute. reflexivity.
  - discriminate.
Defined.

Lemma tenant_read_isolation_witness :
  (handle good_env open_config no_auth (RGetRecords (mkGetRecords tenant_u [[x6b]])) one_record).1 =
  (handle good_env open_config no_auth (RGetRecords (mkGetRecords tenant_u [[x6b]])) empty_store).1.
Proof.
  apply (tenant_read_isolation good_env open_config no_auth
    (RGetRecords (mkGetRecords tenant_u [[x6b]])) one_record empty_store tenant_u).
  - exact (proj1 one_record_ok).
  - exact (proj1 empty_store_ok).
  - reflexivity.
  - reflexivity.
  - vm_compute. reflexivity.
Defined.
