(* ===== verification/BlobStore.v ===== *)
(** * Blobs

    [BlobStore] of session/blob_store.cpp and the blob handlers of the
    AgentState service. A blob is a file named by the hash of its tenant and
    name, replaced by renaming a complete temporary file over it, or an entry
    of an in-memory map. The directory is a map from file names to contents;
    BLAKE3 is a third-party library and a parameter. The theorems: an accepted
    upload reads back whole, and a refused, cancelled or interrupted one
    changes no blob. *)

From S2P Require Import Prelude LogStore Mtls LogScan AgentState AgentKeys.
From Stdlib Require Import ZArith Lia.

Open Scope Z_scope.

Module Blob.

Import LogStore Agent.

Definition kMaxBlobBytes : Z := 4 * 2 ^ 30.
Definition kTmpPrefix : bytes := Mtls.str ".tmp-".
Definition kChunk : nat := Z.to_nat (2 ^ 20).

Definition MemKey (tenant name : bytes) : bytes := put_le 4 (zlen tenant) ++ tenant ++ name.

Definition kHex : bytes := Mtls.str "0123456789abcdef".
Definition hex_byte (b : byte) : bytes :=
  [nth (Z.to_nat (Z.shiftr (byte_val b) 4)) kHex x00; nth (Z.to_nat (Z.land (byte_val b) 15)) kHex x00].
Definition hex (d : bytes) : bytes := concat (hex_byte <$> d).

(** A directory ([dir_] not empty) or memory. *)
Record Store := mkStore { on_disk : bool; files : gmap bytes bytes; mem_ : gmap bytes bytes }.

(** [Open]: create the directory if needed and remove temporary files; [stuck] are the
    names whose removal fails, which is ignored. *)
Definition Open (create_ok : bool) (stuck : gset bytes) (dir : option (gmap bytes bytes)) : option Store :=
  match dir with
  | None => Some (mkStore false ∅ ∅)
  | Some fs =>
      if create_ok
      then Some (mkStore true (filter (fun kv => starts_with kTmpPrefix kv.1 = false \/ kv.1 ∈ stuck) fs) ∅)
      else None
  end.

(** [DiskWriter] and [MemWriter]. *)
Inductive Writer :=
| DiskWriter (fd_open : bool) (tmp final : bytes) (size : Z) (committed : bool)
| MemWriter (key buf : bytes) (done : bool).

(** The [write] loop of [DiskWriter::Write]. *)
Fixpoint disk_write (ws : list wres) (tmp data : bytes) (size : Z) (fs : gmap bytes bytes) :
    bool * Z * gmap bytes bytes * list wres :=
  match data with
  | [] => (true, size, fs, ws)
  | _ =>
      let put d := <[tmp := default [] (fs !! tmp) ++ d]> fs in
      match ws with
      | [] => (true, size + zlen data, put data, [])
      | WEintr :: ws => disk_write ws tmp data size fs
      | WErr :: ws => (false, size, fs, ws)
      | WOk w :: ws => disk_write ws tmp (drop w data) (size + zlen (take w data)) (put (take w data))
      end
  end.

(** [Writer::Write(data, n)]. *)
Definition Write (ws : list wres) (data : bytes) (w : Writer) (s : Store) :
    bool * Writer * Store * list wres :=
  match w with
  | DiskWriter fd tmp final size c =>
      if negb fd then (false, w, s, ws)
      else if kMaxBlobBytes <? size + zlen data then (false, DiskWriter false tmp final size c, s, ws)
      else
        let '(ok, size', fs, ws') := disk_write ws tmp data size (files s) in
        (ok, DiskWriter ok tmp final size' c, mkStore (on_disk s) fs (mem_ s), ws')
  | MemWriter key buf done =>
      if done then (false, w, s, ws)
      else if kMaxBlobBytes <? zlen buf + zlen data then (false, MemWriter key buf true, s, ws)
      else (true, MemWriter key (buf ++ data) false, s, ws)
  end.

(** [Writer::Commit()] with the outcomes of [fsync] and [rename]. *)
Definition Commit (fsync rename : bool) (w : Writer) (s : Store) : bool * Writer * Store :=
  match w with
  | DiskWriter fd tmp final size c =>
      if negb fd then (false, w, s)
      else if negb fsync then (false, DiskWriter false tmp final size c, s)
      else if negb rename then (false, DiskWriter false tmp final size c, s)
      else (true, DiskWriter false tmp final size true,
            mkStore (on_disk s)
              (match files s !! tmp with Some d => <[final := d]> (delete tmp (files s)) | None => files s end)
              (mem_ s))
  | MemWriter key buf done =>
      if done then (false, w, s)
      else (true, MemWriter key buf true, mkStore (on_disk s) (files s) (<[key := buf]> (mem_ s)))
  end.

(** [~Writer]: an uncommitted temporary file is unlinked, whose failure is ignored. *)
Definition destroy (unlink_ok : bool) (w : Writer) (s : Store) : Store :=
  match w with
  | DiskWriter _ tmp _ _ false => if unlink_ok then mkStore (on_disk s) (delete tmp (files s)) (mem_ s) else s
  | _ => s
  end.

Section Blobs.
(** BLAKE3-256 of the key bytes. *)
Variable Blake3_256 : bytes -> bytes.

(** The file name; the directory is implicit. *)
Definition PathFor (tenant name : bytes) : bytes := hex (Blake3_256 (MemKey tenant name)).

(** [Create]: [suffix] is the counter and random number of the name, [O_EXCL]
    refuses a name that exists. *)
Definition Create (open_ok : bool) (suffix tenant name : bytes) (s : Store) : option (Writer * Store) :=
  if negb (on_disk s) then Some (MemWriter (MemKey tenant name) [] false, s)
  else
    let tmp := kTmpPrefix ++ suffix in
    if open_ok && bool_decide (files s !! tmp = None)
    then Some (DiskWriter true tmp (PathFor tenant name) 0 false,
               mkStore (on_disk s) (<[tmp := []]> (files s)) (mem_ s))
    else None.

(** The chunks of an in-memory blob: [kChunk] bytes at a time. *)
Fixpoint mem_chunks (fuel : nat) (data : bytes) : list bytes :=
  match data with
  | [] => []
  | _ => match fuel with
         | O => []
         | S fuel => take kChunk data :: mem_chunks fuel (drop kChunk data)
         end
  end.

(** The chunks the [read] loop obtains, and whether it ends at the end of the file. *)
Fixpoint disk_chunks (rs : list rres) (data : bytes) : list bytes * bool :=
  match rs with
  | [] => (mem_chunks (length data) data, true)
  | REintr :: rs => disk_chunks rs data
  | RErr :: _ => ([], false)
  | ROk n :: rs =>
      match take (Nat.min n kChunk) data with
      | [] => ([], true)
      | c => let '(cs, ok) := disk_chunks rs (drop (Nat.min n kChunk) data) in (c :: cs, ok)
      end
  end.

(** The sink accepts or refuses each chunk; a refusal stops the read. *)
Fixpoint deliver (sink : list bool) (cs : list bytes) : list bytes * bool :=
  match cs, sink with
  | [], _ => ([], true)
  | _, false :: _ => ([], false)
  | c :: cs, sink => let '(sent, ok) := deliver (tail sink) cs in (c :: sent, ok)
  end.

(** [Read]: false without or with an error text, or true; with the chunks
    the sink accepted. *)
Inductive read_result := NotFound | ReadError (chunks : list bytes) | ReadOk (chunks : list bytes).

Definition Read (open_ok : bool) (rs : list rres) (sink : list bool) (tenant name : bytes) (s : Store) :
    read_result :=
  let send cs := let '(sent, ok) := deliver sink cs.1 in
                 if ok && cs.2 then ReadOk sent else ReadError sent in
  if negb (on_disk s) then
    match mem_ s !! MemKey tenant name with
    | None => NotFound
    | Some d => send (mem_chunks (length d) d, true)
    end
  else if negb open_ok then ReadError []
  else
    match files s !! PathFor tenant name with
    | None => NotFound
    | Some d => send (disk_chunks rs d)
    end.

(** The contents of a blob. *)
Definition blob (tenant name : bytes) (s : Store) : option bytes :=
  if on_disk s then files s !! PathFor tenant name else mem_ s !! MemKey tenant name.

(** [stat_ok]: [stat] of a file that exists succeeds. *)
Definition Size (stat_ok : bool) (tenant name : bytes) (s : Store) : option Z :=
  if negb (on_disk s) then (fun d => zlen d) <$> mem_ s !! MemKey tenant name
  else if stat_ok then (fun d => zlen d) <$> files s !! PathFor tenant name else None.

(** [unlink_ok]: [unlink] of a file that exists succeeds. *)
Definition Delete (unlink_ok : bool) (tenant name : bytes) (s : Store) : bool * Store :=
  if negb (on_disk s) then
    match mem_ s !! MemKey tenant name with
    | None => (false, s)
    | Some _ => (true, mkStore (on_disk s) (files s) (delete (MemKey tenant name) (mem_ s)))
    end
  else
    match files s !! PathFor tenant name with
    | None => (false, s)
    | Some _ =>
        if unlink_ok
        then (true, mkStore (on_disk s) (delete (PathFor tenant name) (files s)) (mem_ s))
        else (false, s)
    end.

(** ** Handlers *)

Record PutBlobChunk := mkChunk { ch_tenant : bytes; ch_name : bytes; ch_data : bytes }.
Record put_io := mkPutIo {
  p_suffix : bytes; p_open : bool; p_writes : list wres; p_fsync : bool; p_rename : bool;
  p_cancelled : bool; p_unlink : bool }.

(** The [do ... while (reader->Read(&chunk))] loop. *)
Fixpoint put_chunks (ws : list wres) (chunks : list PutBlobChunk) (size : Z) (w : Writer) (s : Store) :
    result Z * Writer * Store :=
  match chunks with
  | [] => (inr size, w, s)
  | c :: r =>
      let '(ok, w', s', ws') := Write ws (ch_data c) w s in
      if ok then put_chunks ws' r (size + zlen (ch_data c)) w' s'
      else (inl (if kMaxBlobBytes <? size + zlen (ch_data c) then INVALID_ARGUMENT else INTERNAL), w', s')
  end.

Definition PutBlob (io : put_io) (cfg : Config) (ctx : Ctx) (chunks : list PutBlobChunk) (s : Store) :
    result Z * Store :=
  match chunks with
  | [] => (inl INVALID_ARGUMENT, s)
  | c :: _ =>
      match ResolveTenant cfg ctx (ch_tenant c) with
      | inl code => (inl code, s)
      | inr tenant =>
          if is_empty (ch_name c) then (inl INVALID_ARGUMENT, s)
          else
            match Create (p_open io) (p_suffix io) tenant (ch_name c) s with
            | None => (inl INTERNAL, s)
            | Some (w, s1) =>
                let '(r, w2, s2) := put_chunks (p_writes io) chunks 0 w s1 in
                match r with
                | inl code => (inl code, destroy (p_unlink io) w2 s2)
                | inr size =>
                    if p_cancelled io then (inl CANCELLED, destroy (p_unlink io) w2 s2)
                    else
                      let '(ok, w3, s3) := Commit (p_fsync io) (p_rename io) w2 s2 in
                      (if ok then inr size else inl INTERNAL, destroy (p_unlink io) w3 s3)
                end
            end
      end
  end.

(** The chunks sent, or the status; [sink] the outcomes of [writer->Write]. *)
Definition GetBlob (open_ok : bool) (rs : list rres) (sink : list bool) (cfg : Config) (ctx : Ctx)
    (tenant name : bytes) (s : Store) : result (list bytes) :=
  match ResolveTenant cfg ctx tenant with
  | inl code => inl code
  | inr t =>
      if is_empty name then inl INVALID_ARGUMENT
      else match Read open_ok rs sink t name s with
           | NotFound => inl NOT_FOUND
           | ReadError _ => inl INTERNAL
           | ReadOk cs => inr cs
           end
  end.

Definition StatBlob (stat_ok : bool) (cfg : Config) (ctx : Ctx) (tenant name : bytes) (s : Store) : result (option Z) :=
  match ResolveTenant cfg ctx tenant with
  | inl code => inl code
  | inr t => inr (Size stat_ok t name s)
  end.

Definition DeleteBlob (unlink_ok : bool) (cfg : Config) (ctx : Ctx) (tenant name : bytes) (s : Store) : result bool * Store :=
  match ResolveTenant cfg ctx tenant with
  | inl code => (inl code, s)
  | inr t => let '(b, s') := Delete unlink_ok t name s in (inr b, s')
  end.

(** ** Lemmas *)

(** The state of a store while a writer created on [s0] holds [d]. *)
Definition uploading (t n : bytes) (s0 : Store) (d : bytes) (w : Writer) (s : Store) : Prop :=
  match w with
  | DiskWriter fd tmp final size c =>
      on_disk s0 = true /\ c = false /\ starts_with kTmpPrefix tmp = true /\ final = PathFor t n /\
      files s0 !! tmp = None /\ s = mkStore true (<[tmp := d]> (files s0)) (mem_ s0) /\
      size = zlen d
  | MemWriter key buf done => on_disk s0 = false /\ key = MemKey t n /\ s = s0 /\ buf = d
  end.

Definition writable (w : Writer) : bool :=
  match w with DiskWriter fd _ _ _ _ => fd | MemWriter _ _ done => negb done end.

(** The store with one blob replaced. *)
Definition put_all (t n d : bytes) (s : Store) : Store :=
  if on_disk s then mkStore (on_disk s) (<[PathFor t n := d]> (files s)) (mem_ s)
  else mkStore (on_disk s) (files s) (<[MemKey t n := d]> (mem_ s)).

Definition no_werr (ws : list wres) : bool :=
  forallb (fun w => match w with WErr => false | _ => true end) ws.

Lemma disk_write_spec ws tmp data size fs d :
  let '(ok, size', fs', ws') := disk_write ws tmp data size (<[tmp := d]> fs) in
  exists k, fs' = <[tmp := d ++ take k data]> fs /\ size' = size + zlen (take k data) /\
    (ok = true -> take k data = data) /\ (no_werr ws = true -> ok = true /\ no_werr ws' = true).
Proof.
  revert data size d. induction ws as [|w ws IH]; intros [|b data] size d.
  1,3: exists 0%nat; cbn; rewrite app_nil_r, Z.add_0_r; auto.
  - exists (length (b :: data)). cbn [disk_write]. rewrite take_ge by lia.
    rewrite lookup_insert_eq, insert_insert_eq. auto.
  - destruct w as [k| |]; cbn [disk_write].
    + rewrite lookup_insert_eq, insert_insert_eq. cbn [default].
      specialize (IH (drop k (b :: data)) (size + zlen (take k (b :: data))) (d ++ take k (b :: data))).
      destruct (disk_write _ _ _ _ _) as [[[ok size'] fs'] ws'].
      destruct IH as (j & -> & -> & Hok & Hw). exists (k + j)%nat.
      assert (E : take (k + j) (b :: data) = take k (b :: data) ++ take j (drop k (b :: data))).
      { by rewrite take_take_drop. }
      rewrite E, app_assoc. repeat split; [|intros Ho; by rewrite (Hok Ho), take_drop|by apply Hw..].
      rewrite length_app. lia.
    + apply IH.
    + exists 0%nat. cbn. rewrite app_nil_r, Z.add_0_r. repeat split; try done.
Qed.

Lemma Write_spec t n s0 ws data d w s :
  uploading t n s0 d w s ->
  let '(ok, w', s', ws') := Write ws data w s in
  exists d', uploading t n s0 d' w' s' /\ (ok = true -> d' = d ++ data /\ writable w' = writable w) /\
    (no_werr ws = true -> writable w = true -> zlen d + zlen data <= kMaxBlobBytes ->
     ok = true /\ no_werr ws' = true).
Proof.
  intros U. destruct w as [fd tmp final size c|key buf done].
  - destruct U as (D & -> & T & -> & F & -> & ->). cbn [Write files on_disk mem_].
    destruct fd; cbn [negb].
    2: { exists d. repeat split; try done. }
    destruct (kMaxBlobBytes <? zlen d + zlen data) eqn:K.
    { exists d. repeat split; try done; reflect_bools; lia. }
    pose proof (disk_write_spec ws tmp data (zlen d) (files s0) d) as W.
    destruct (disk_write _ _ _ _ _) as [[[ok size'] fs'] ws'].
    destruct W as (k & -> & -> & Hok & Hw). exists (d ++ take k data).
    repeat split; try done; try apply Hw; try done.
    + rewrite length_app. lia.
    + by rewrite Hok.
  - destruct U as (D & -> & -> & ->). cbn [Write]. destruct done.
    { exists d. repeat split; done. }
    destruct (kMaxBlobBytes <? zlen d + zlen data) eqn:K.
    + exists d. repeat split; try done; reflect_bools; lia.
    + exists (d ++ data). repeat split; done.
Qed.

Lemma put_chunks_spec t n s0 chunks : forall ws d w s,
  uploading t n s0 d w s ->
  let '(r, w', s') := put_chunks ws chunks (zlen d) w s in
  exists d', uploading t n s0 d' w' s' /\
    (forall z, r = inr z -> d' = d ++ concat (ch_data <$> chunks) /\ z = zlen d' /\ writable w' = writable w) /\
    (no_werr ws = true -> writable w = true -> zlen d + zlen (concat (ch_data <$> chunks)) <= kMaxBlobBytes ->
     exists z, r = inr z).
Proof.
  induction chunks as [|c r IH]; intros ws d w s U; cbn [put_chunks fmap list_fmap concat].
  - exists d. rewrite app_nil_r. repeat split; try done; [congruence|eauto].
  - pose proof (Write_spec t n s0 ws (ch_data c) d w s U) as W.
    destruct (Write _ _ _ _) as [[[ok w'] s'] ws']. destruct W as (d' & U' & Hok & Hl).
    assert (L : forall x y : bytes, zlen (x ++ y) = zlen x + zlen y).
    { intros. rewrite length_app. lia. }
    destruct ok.
    + destruct (Hok eq_refl) as [-> Ew]. rewrite <- L. specialize (IH ws' _ _ _ U').
      destruct (put_chunks _ _ _ _ _) as [[res w2] s2]. destruct IH as (d2 & U2 & A & B).
      exists d2. repeat split; [done|..].
      * destruct (A _ H) as (-> & _). by rewrite app_assoc.
      * by destruct (A _ H) as (_ & ? & _).
      * destruct (A _ H) as (_ & _ & ->). done.
      * intros Hw Hd Hz. rewrite L in Hz. pose proof (Zle_0_nat (length (concat (ch_data <$> r)))).
        apply B; [apply Hl; (done || lia)|congruence|rewrite L; lia].
    + exists d'. repeat split; try done. intros Hw Hd Hz. rewrite L in Hz.
      pose proof (Zle_0_nat (length (concat (ch_data <$> r)))).
      destruct (Hl Hw Hd) as [? _]; [lia|done].
Qed.

(** What a failed upload leaves: nothing, or its temporary file if that could not be
    unlinked. *)
Definition left_over (unlinked : bool) (s0 s : Store) : Prop :=
  s = s0 \/ unlinked = false /\ on_disk s0 = true /\ exists tmp d, starts_with kTmpPrefix tmp = true /\
    files s0 !! tmp = None /\ s = mkStore true (<[tmp := d]> (files s0)) (mem_ s0).

Lemma uploading_destroy t n s0 d u w s : uploading t n s0 d w s -> left_over u s0 (destroy u w s).
Proof.
  destruct w as [fd tmp final size c|key buf done]; [|intros (D & -> & -> & ->); by left].
  intros (D & -> & T & -> & F & -> & _). destruct u; cbn; [left|right; by eauto 9].
  rewrite delete_insert_id by done. destruct s0; simpl in *. by subst.
Qed.

Lemma Commit_spec t n s0 d w s f r u :
  uploading t n s0 d w s ->
  let '(ok, w', s') := Commit f r w s in
  (ok = true -> destroy u w' s' = put_all t n d s0) /\ (ok = false -> left_over u s0 (destroy u w' s')) /\
  (writable w = true -> f = true -> r = true -> ok = true).
Proof.
  intros U. destruct w as [fd tmp final size c|key buf done].
  - assert (forall fd', left_over u s0 (destroy u (DiskWriter fd' tmp final size c) s)) as L
      by (intros fd'; by apply (uploading_destroy t n s0 d)).
    destruct U as (D & -> & T & -> & F & -> & _).
    destruct fd, f, r; cbn [Commit negb writable]; repeat split; try done.
    intros _. cbn [files on_disk mem_]. rewrite lookup_insert_eq. cbn [destroy]. unfold put_all. rewrite D.
    by rewrite delete_insert_id.
  - destruct U as (D & -> & -> & ->). destruct done; cbn [Commit writable]; repeat split; try done; [by left|].
    intros _. cbn [destroy]. unfold put_all. by rewrite D.
Qed.

Lemma Create_spec o x t n s :
  match Create o x t n s with
  | Some (w, s') => uploading t n s [] w s' /\ writable w = true
  | None => on_disk s = true /\ (o = false \/ files s !! (kTmpPrefix ++ x) <> None)
  end.
Proof.
  unfold Create. destruct (on_disk s) eqn:D; cbn [negb]; [|by cbn].
  destruct o; cbn [andb]; [|by auto]. case_bool_decide as F; [|by auto].
  cbn [uploading writable]. repeat split; try done.
Qed.

Lemma PutBlob_spec io cfg ctx chunks s :
  let '(r, s') := PutBlob io cfg ctx chunks s in
  match r with
  | inl _ => left_over (p_unlink io) s s'
  | inr size =>
      exists c rest t, chunks = c :: rest /\ ResolveTenant cfg ctx (ch_tenant c) = inr t /\
        size = zlen (concat (ch_data <$> chunks)) /\
        s' = put_all t (ch_name c) (concat (ch_data <$> chunks)) s
  end.
Proof.
  unfold PutBlob. destruct chunks as [|c rest]; [by left|].
  destruct (ResolveTenant _ _ _) as [code|t] eqn:ER; [by left|].
  destruct (is_empty _); [by left|].
  pose proof (Create_spec (p_open io) (p_suffix io) t (ch_name c) s) as C.
  destruct (Create _ _ _ _ _) as [[w s1]|]; [|by left]. destruct C as [U W].
  pose proof (put_chunks_spec t (ch_name c) s (c :: rest) (p_writes io) [] w s1 U) as P.
  change (zlen (@nil byte)) with 0 in P.
  destruct (put_chunks _ _ _ _ _) as [[r w2] s2]. destruct P as (d & U2 & Hr & _).
  destruct r as [code|size]; [by eapply uploading_destroy|].
  destruct (Hr size eq_refl) as (-> & -> & _).
  destruct (p_cancelled io); [by eapply uploading_destroy|].
  pose proof (Commit_spec t (ch_name c) s _ w2 s2 (p_fsync io) (p_rename io) (p_unlink io) U2) as K.
  destruct (Commit _ _ _ _) as [[ok w3] s3]. destruct K as (A & B & _). destruct ok; [|by apply B].
  exists c, rest, t. repeat split; try done. by apply A.
Qed.

(** A write path without faults: the upload is accepted. *)
Lemma PutBlob_accepts io cfg ctx c rest s t :
  ResolveTenant cfg ctx (ch_tenant c) = inr t -> is_empty (ch_name c) = false ->
  p_open io = true -> p_fsync io = true -> p_rename io = true -> p_cancelled io = false ->
  no_werr (p_writes io) = true -> files s !! (kTmpPrefix ++ p_suffix io) = None ->
  zlen (concat (ch_data <$> c :: rest)) <= kMaxBlobBytes ->
  exists size s', PutBlob io cfg ctx (c :: rest) s = (inr size, s').
Proof.
  intros ER En Ho Hf Hr Hc Hw Ht Hz. unfold PutBlob. rewrite ER, En, Hc, Ho, Hf, Hr.
  pose proof (Create_spec true (p_suffix io) t (ch_name c) s) as C.
  destruct (Create _ _ _ _ _) as [[w s1]|]; [|destruct C as [_ [?|?]]; congruence]. destruct C as [U W].
  pose proof (put_chunks_spec t (ch_name c) s (c :: rest) (p_writes io) [] w s1 U) as P.
  change (zlen (@nil byte)) with 0 in P.
  destruct (put_chunks _ _ _ _ _) as [[r w2] s2]. destruct P as (d & U2 & Hi & Hl).
  destruct (Hl Hw W ltac:(lia)) as [z ->]. destruct (Hi z eq_refl) as (_ & _ & W2).
  pose proof (Commit_spec t (ch_name c) s _ w2 s2 true true true U2) as K.
  destruct (Commit _ _ _ _) as [[ok w3] s3]. destruct K as (_ & _ & K). rewrite K by congruence. eauto.
Qed.

(** Reading *)

Lemma mem_chunks_spec fuel data :
  (length data <= fuel)%nat ->
  concat (mem_chunks fuel data) = data /\
  Forall (fun c => 0 < zlen c <= Z.of_nat kChunk) (mem_chunks fuel data).
Proof.
  assert (K : (0 < kChunk)%nat) by (unfold kChunk; lia).
  revert data. induction fuel as [|fuel IH]; intros [|b data] H; cbn [length] in H; try lia; try done.
  cbn [mem_chunks concat]. destruct (IH (drop kChunk (b :: data))) as [E F].
  { rewrite length_drop. cbn [length]. lia. }
  rewrite E, take_drop. split; [done|]. constructor; [|done].
  rewrite length_take. cbn [length]. lia.
Qed.

(** [read] returns a positive count until the end of the file. *)
Definition ok_reads (rs : list rres) : bool :=
  forallb (fun r => match r with ROk (S _) | REintr => true | _ => false end) rs.

Lemma disk_chunks_spec rs data :
  ok_reads rs = true ->
  exists cs, disk_chunks rs data = (cs, true) /\ concat cs = data /\
    Forall (fun c => 0 < zlen c <= Z.of_nat kChunk) cs.
Proof.
  assert (K : (0 < kChunk)%nat) by (unfold kChunk; lia).
  revert data. induction rs as [|[[|k]| |] rs IH]; intros data H; cbn [disk_chunks]; try done.
  - eexists. split; [done|]. by apply mem_chunks_spec.
  - set (m := Nat.min (S k) kChunk). destruct (IH (drop m data) H) as (cs & E & Ec & F).
    assert (Hm : (0 < m <= kChunk)%nat) by (unfold m; lia).
    destruct (take m data) as [|x l] eqn:Et.
    + exists []. repeat split; [|done]. destruct data; [done|]. destruct m; [lia|done].
    + rewrite E. eexists. split; [done|]. cbn [concat]. rewrite Ec, <- Et, take_drop. split; [done|].
      constructor; [|done]. pose proof (length_take data m) as L. rewrite Et in *.
      cbn [length] in *. lia.
  - by apply IH.
Qed.

Lemma deliver_all sink cs : forallb id sink = true -> deliver sink cs = (cs, true).
Proof.
  revert sink. induction cs as [|c cs IH]; intros [|[] sink] H; try done; cbn [deliver tail].
  - by rewrite IH.
  - by rewrite IH.
Qed.

Lemma Read_blob rs sink t n s d :
  ok_reads rs = true -> forallb id sink = true -> blob t n s = Some d ->
  exists cs, Read true rs sink t n s = ReadOk cs /\ concat cs = d /\
    Forall (fun c => 0 < zlen c <= Z.of_nat kChunk) cs.
Proof.
  intros Hr Hs Hb. unfold Read, blob in *. destruct (on_disk s); cbn [negb]; rewrite Hb.
  - destruct (disk_chunks_spec rs d Hr) as (cs & -> & E & F).
    rewrite deliver_all by done. cbn. eauto.
  - rewrite deliver_all by done. cbn. eexists. split; [done|]. by apply mem_chunks_spec.
Qed.

(** Keys and file names *)

Lemma MemKey_inj t n t' n' : sized t -> sized t' -> MemKey t n = MemKey t' n' -> t = t' /\ n = n'.
Proof.
  unfold MemKey, sized. intros H H' E.
  pose proof (f_equal get_u32 E) as L. rewrite !get_u32_put in L by lia.
  pose proof (f_equal (drop 4) E) as D. rewrite !drop_put_le_app in D.
  apply app_inj_1 in D; [done|lia].
Qed.

Definition unhex (c : byte) : Z := Z.of_nat (default 0%nat (fst <$> list_find (eq c) kHex)).

Lemma unhex_hex_byte b :
  byte_of (16 * unhex (nth 0 (hex_byte b) x00) + unhex (nth 1 (hex_byte b) x00)) = b.
Proof. destruct b; vm_compute; reflexivity. Qed.

Lemma hex_inj d d' : hex d = hex d' -> d = d'.
Proof.
  revert d'. induction d as [|b d IH]; intros [|b' d'] E; try done.
  unfold hex in *. cbn [fmap list_fmap concat] in E.
  assert (H : hex_byte b = hex_byte b' /\ concat (hex_byte <$> d) = concat (hex_byte <$> d')).
  { by apply app_inj_1. }
  destruct H as [Eb Er]. f_equal; [|by apply IH].
  by rewrite <- (unhex_hex_byte b), <- (unhex_hex_byte b'), Eb.
Qed.

Lemma hex_byte_head b : nth 0 (hex_byte b) x00 <> nth 0 kTmpPrefix x00.
Proof. destruct b; vm_compute; discriminate. Qed.

(** A blob's file name is never taken for a temporary one. *)
Lemma PathFor_not_tmp t n : starts_with kTmpPrefix (PathFor t n) = false.
Proof.
  apply not_true_iff_false. intros H. apply starts_with_iff in H as [r H].
  unfold PathFor, hex in H. destruct (Blake3_256 _) as [|b d]; [done|].
  apply (hex_byte_head b). pose proof (f_equal (fun l => nth 0 l x00) H) as E. exact E.
Qed.

Lemma put_all_blob t n d s : blob t n (put_all t n d s) = Some d.
Proof.
  unfold blob, put_all. destruct (on_disk s) eqn:D; cbn [on_disk files mem_]; try rewrite D; apply lookup_insert_eq.
Qed.

Lemma put_all_other t n d s t' n' :
  sized t -> sized t' -> (t', n') <> (t, n) ->
  Blake3_256 (MemKey t' n') <> Blake3_256 (MemKey t n) ->
  blob t' n' (put_all t n d s) = blob t' n' s.
Proof.
  intros Ht Ht' Hne Hh. unfold blob, put_all.
  destruct (on_disk s) eqn:D; cbn [on_disk files mem_]; apply lookup_insert_ne.
  - intros E. apply hex_inj in E. congruence.
  - intros E. apply MemKey_inj in E as [-> ->]; done.
Qed.

(** [Open] keeps every blob of the directory. *)
Lemma Open_blob stuck fs s t n :
  Open true stuck (Some fs) = Some s -> blob t n s = fs !! PathFor t n.
Proof.
  intros [= <-]. unfold blob. cbn [on_disk files].
  destruct (fs !! PathFor t n) as [d|] eqn:E.
  - apply map_lookup_filter_Some. split; [done|]. left. apply PathFor_not_tmp.
  - apply map_lookup_filter_None. by left.
Qed.

Lemma Open_ignores_tmp stuck tmp d fs :
  starts_with kTmpPrefix tmp = true -> tmp ∉ stuck -> fs !! tmp = None ->
  Open true stuck (Some (<[tmp := d]> fs)) = Open true stuck (Some fs).
Proof.
  intros T K F. cbn [Open]. do 2 f_equal. rewrite map_filter_insert_False; [|unfold not; intros [N|N]; [change (starts_with kTmpPrefix tmp = false) in N; congruence|done]].
  by rewrite delete_id.
Qed.

(** ** Theorems *)

Lemma left_over_blob u s s' t n : left_over u s s' -> blob t n s' = blob t n s.
Proof.
  intros [->|(_ & D & tmp & d & T & F & ->)]; [done|]. unfold blob. rewrite D. cbn [on_disk files].
  apply lookup_insert_ne. intros E. pose proof (PathFor_not_tmp t n). congruence.
Qed.

(** [C4] An upload is all or nothing. Whatever [open], [write], [fsync], [rename], [unlink],
    the client and the limits do, a [PutBlob] that answers an error leaves every blob as it
    was; the store is unchanged, except that the temporary file stays if its [unlink] fails,
    which the next [Open] removes unless that fails too. One that answers OK reports the
    size of the uploaded bytes, the blob's contents are exactly those bytes, and every blob
    of another tenant or name whose key does not collide with it under the hash is
    unchanged. *)
Theorem PutBlob_all_or_nothing io cfg ctx chunks s r s' :
  PutBlob io cfg ctx chunks s = (r, s') ->
  match r with
  | inl _ =>
      (forall t n, blob t n s' = blob t n s) /\ (p_unlink io = true -> s' = s) /\
      (s' = s \/ exists tmp d, starts_with kTmpPrefix tmp = true /\ s' = mkStore true (<[tmp := d]> (files s)) (mem_ s) /\
         forall stuck, tmp ∉ stuck -> Open true stuck (Some (files s')) = Open true stuck (Some (files s)))
  | inr size =>
      exists c rest t, chunks = c :: rest /\ ResolveTenant cfg ctx (ch_tenant c) = inr t /\
        size = zlen (concat (ch_data <$> chunks)) /\
        blob t (ch_name c) s' = Some (concat (ch_data <$> chunks)) /\
        forall t' n', sized t -> sized t' -> (t', n') <> (t, ch_name c) ->
          Blake3_256 (MemKey t' n') <> Blake3_256 (MemKey t (ch_name c)) ->
          blob t' n' s' = blob t' n' s
  end.
Proof.
  intros E. pose proof (PutBlob_spec io cfg ctx chunks s) as H. rewrite E in H. destruct r as [code|size].
  - split; [intros; by apply (left_over_blob (p_unlink io))|].
    destruct H as [->|(U & D & tmp & d & T & F & ->)]; [auto|]. rewrite U. split; [done|]. right.
    exists tmp, d. split; [done|]. split; [done|]. intros stuck K. by apply Open_ignores_tmp.
  - destruct H as (c & rest & t & Ec & ER & Ez & ->).
    exists c, rest, t. repeat split; try done; [apply put_all_blob|]. intros. by apply put_all_other.
Qed.

(** An upload that meets no fault and no limit is accepted, and a download
    that meets none then streams its bytes back: the chunks are not empty, none
    exceeds one mebibyte, and their concatenation is what was uploaded, however
    the kernel splits the writes and reads or interrupts them. *)
Theorem PutBlob_GetBlob io cfg ctx c rest s t rs sink :
  ResolveTenant cfg ctx (ch_tenant c) = inr t -> is_empty (ch_name c) = false ->
  p_open io = true -> p_fsync io = true -> p_rename io = true -> p_cancelled io = false ->
  no_werr (p_writes io) = true -> files s !! (kTmpPrefix ++ p_suffix io) = None ->
  zlen (concat (ch_data <$> c :: rest)) <= kMaxBlobBytes ->
  ok_reads rs = true -> forallb id sink = true ->
  exists s' cs,
    PutBlob io cfg ctx (c :: rest) s = (inr (zlen (concat (ch_data <$> c :: rest))), s') /\
    GetBlob true rs sink cfg ctx (ch_tenant c) (ch_name c) s' = inr cs /\
    concat cs = concat (ch_data <$> c :: rest) /\
    Forall (fun p => 0 < zlen p <= Z.of_nat kChunk) cs.
Proof.
  intros ER En Ho Hf Hr Hc Hw Ht Hz Hrs Hk.
  destruct (PutBlob_accepts io cfg ctx c rest s t) as (size & s' & E); try done.
  pose proof (PutBlob_spec io cfg ctx (c :: rest) s) as H. rewrite E in H.
  destruct H as (c' & rest' & t' & [= <- <-] & ER' & -> & Es).
  assert (t' = t) as -> by congruence.
  destruct (Read_blob rs sink t (ch_name c) s' (concat (ch_data <$> c :: rest))) as (cs & ERd & Ecs & F);
    [done|done|rewrite Es; apply put_all_blob|].
  exists s', cs. split; [done|]. split; [|done]. unfold GetBlob. by rewrite ER, En, ERd.
Qed.

(** A crash during an upload is invisible. However many chunks had been
    written and wherever the write path stopped, opening the directory again
    gives the store that opening the directory from before the upload gives, unless the
    temporary file cannot be removed, which changes no blob either; and
    opening a directory keeps every blob in it, since no blob's file name looks
    like a temporary one. *)
Theorem upload_crash_invisible t n o x s w s1 ws chunks r w2 s2 :
  on_disk s = true -> Create o x t n s = Some (w, s1) ->
  put_chunks ws chunks 0 w s1 = (r, w2, s2) ->
  Open true ∅ (Some (files s2)) = Open true ∅ (Some (files s)) /\
  forall stuck t' n', (s' ← Open true stuck (Some (files s2)); blob t' n' s') = blob t' n' s.
Proof.
  intros D EC EP. pose proof (Create_spec o x t n s) as C. rewrite EC in C. destruct C as [U W].
  pose proof (put_chunks_spec t n s chunks ws [] w s1 U) as P.
  change (zlen (@nil byte)) with 0 in P. rewrite EP in P. destruct P as (d & U2 & _ & _).
  destruct w2 as [fd tmp final size c|]; [|destruct U2; congruence]. destruct U2 as (_ & _ & T & _ & F & -> & _).
  split; [apply Open_ignores_tmp; [done|set_solver|done]|]. intros stuck t' n'.
  destruct (Open true stuck _) as [s'|] eqn:EO; [|done]. cbn [mbind option_bind]. rewrite (Open_blob _ _ _ _ _ EO).
  unfold blob. rewrite D. cbn [files]. apply lookup_insert_ne. intros E. pose proof (PathFor_not_tmp t' n'). congruence.
Qed.

End Blobs.

(** ** Witnesses: an empty directory, a hash that keeps its input *)

Definition w_hash (k : bytes) : bytes := k.
Definition w_dir : Store := mkStore true ∅ ∅.
Definition w_io (rename : bool) : put_io :=
  mkPutIo (Mtls.str "0-1") true [WOk 1; WEintr] true rename false true.
Definition w_chunks : list PutBlobChunk :=
  [mkChunk (Mtls.str "t") (Mtls.str "n") [x01; x02]; mkChunk [] [] [x03]].
Definition w_config : Config := mkConfig false None.
Definition w_auth : Ctx := mkCtx None.

Lemma PutBlob_all_or_nothing_witness :
  (PutBlob w_hash (w_io false) w_config w_auth w_chunks w_dir).1 = inl INTERNAL /\
  (PutBlob w_hash (w_io false) w_config w_auth w_chunks w_dir).2 = w_dir.
Proof.
  assert (E : (PutBlob w_hash (w_io false) w_config w_auth w_chunks w_dir).1 = inl INTERNAL)
    by (vm_compute; reflexivity).
  split; [exact E|].
  pose proof (PutBlob_all_or_nothing w_hash (w_io false) w_config w_auth w_chunks w_dir _ _
    (surjective_pairing _)) as H.
  rewrite E in H. destruct H as (_ & H & _). apply H. reflexivity.
Defined.

Lemma PutBlob_GetBlob_witness :
  exists s' cs,
    PutBlob w_hash (w_io true) w_config w_auth w_chunks w_dir = (inr 3, s') /\
    GetBlob w_hash true [ROk 2; REintr] [true] w_config w_auth (Mtls.str "t") (Mtls.str "n") s' = inr cs /\
    concat cs = [x01; x02; x03].
Proof.
  destruct (PutBlob_GetBlob w_hash (w_io true) w_config w_auth
    (mkChunk (Mtls.str "t") (Mtls.str "n") [x01; x02]) [mkChunk [] [] [x03]] w_dir (Mtls.str "t")
    [ROk 2; REintr] [true]) as (s' & cs & HP & HG & HC & _);
    try reflexivity; [discriminate|].
  exists s', cs. split; [exact HP|]. split; [exact HG|exact HC].
Defined.

Lemma upload_crash_invisible_witness :
  exists w s1 r w2 s2,
    Create w_hash true (Mtls.str "0-1") (Mtls.str "t") (Mtls.str "n") w_dir = Some (w, s1) /\
    put_chunks [WOk 1; WErr] w_chunks 0 w s1 = (r, w2, s2) /\
    files s2 !! Mtls.str ".tmp-0-1" = Some [x01] /\
    Open true ∅ (Some (files s2)) = Some w_dir.
Proof.
  do 5 eexists. split; [reflexivity|]. split; [reflexivity|]. split; [reflexivity|].
  etransitivity.
  - eapply (upload_crash_invisible w_hash (Mtls.str "t") (Mtls.str "n") true (Mtls.str "0-1") w_dir _ _ [WOk 1; WErr] w_chunks);
      reflexivity.
  - reflexivity.
Defined.

End Blob.
