(* ===== verification/StateWal.v ===== *)
(** * The state write-ahead log

    [StateWal] of persist/state_wal.cpp: one fsynced record per [Append], a
    replay into a key-to-blob map on [Open]. The theorems say that [Open]
    recovers exactly the complete records, with a torn last one dropped, and
    that a failed [Append] can destroy later acknowledged ones. *)

From S2P Require Import Prelude Crc32 LogStore.
From Stdlib Require Import ZArith Lia.

Open Scope Z_scope.

Module StateWal.

Import LogStore.

Definition kOpPut : Z := 1.
Definition kKeyLen : nat := 16.
Definition kIdLen : nat := 128.
(** [4 + 1 + kKeyLen + kIdLen + 4 + 4]. *)
Definition kMinRecord : Z := 157.

(** The file, and the map [DramKey -> blob]. *)
Record Wal := mkWal { disk : bytes; map_ : gmap bytes bytes }.

Definition PutU32 (v : Z) : bytes := put_le 4 v.
Definition GetU32 (p : bytes) : Z := get_u32 p.

(** The record [Append] builds. *)
Definition body (key id data : bytes) : bytes :=
  [byte_of kOpPut] ++ key ++ id ++ PutU32 (zlen data) ++ data.

Definition record (key id data : bytes) : bytes :=
  PutU32 (4 + 1 + Z.of_nat kKeyLen + Z.of_nat kIdLen + 4 + zlen data + 4) ++
  body key id data ++ PutU32 (Crc.crc32_table (body key id data)).

(** What [write] and [fsync] do: [None] is an error that wrote nothing. *)
Record append_io := mkIo { a_write : option nat; a_fsync : bool }.

(** [StateWal::Append]. *)
Definition Append (io : append_io) (key id data : bytes) (w : Wal) : bool * Wal :=
  if 2 ^ 32 - 1 <? 4 + 1 + Z.of_nat kKeyLen + Z.of_nat kIdLen + 4 + zlen data + 4 then (false, w)
  else
    let rec := record key id data in
    match a_write io with
    | None => (false, w)
    | Some n =>
        let w1 := mkWal (disk w ++ take n rec) (map_ w) in
        if (n <? length rec)%nat then (false, w1)
        else if negb (a_fsync io) then (false, w1)
        else (true, mkWal (disk w1) (<[key := data]> (map_ w)))
    end.

Definition Get (key : bytes) (w : Wal) : option bytes := map_ w !! key.
Definition Size (w : Wal) : nat := size (map_ w).

(** [while ((r = ::read(rfd, chunk, sizeof(chunk))) > 0)]: how many of [size]
    bytes reach the buffer. *)
Fixpoint read_all (rs : list rres) (size got : nat) : nat :=
  if (size <=? got)%nat then got
  else
    match rs with
    | [] => size
    | ROk (S n) :: rs => read_all rs size (got + Nat.min (Nat.min (S n) (Z.to_nat 65536)) (size - got))
    | _ => got
    end.

(** One round of the replay loop on the bytes from [off] on: the map and the
    length of the record, or [None] for [break]. *)
Definition replay_one (buf : bytes) (m : gmap bytes bytes) : option (gmap bytes bytes * nat) :=
  let rec_len := GetU32 buf in
  if rec_len <? kMinRecord then None
  else if zlen buf <? rec_len then None
  else
    let body_len := rec_len - 4 - 4 in
    let b := take (Z.to_nat body_len) (drop 4 buf) in
    if negb (Crc.crc32_table b =? GetU32 (drop (Z.to_nat (rec_len - 4)) buf)) then None
    else if byte_val (default x00 (head b)) =? kOpPut then
      let kp := drop 1 b in
      let bl := drop (kKeyLen + kIdLen) kp in
      let blob_len := GetU32 bl in
      if negb (blob_len =? body_len - (1 + Z.of_nat kKeyLen + Z.of_nat kIdLen + 4)) then None
      else Some (<[take kKeyLen kp := take (Z.to_nat blob_len) (drop 4 bl)]> m, Z.to_nat rec_len)
    else Some (m, Z.to_nat rec_len).

(** The replay loop: a record is at least [kMinRecord] bytes, so the bytes
    bound the rounds. Returns the map and the bytes not replayed. *)
Fixpoint replay_loop (fuel : nat) (buf : bytes) (m : gmap bytes bytes) : gmap bytes bytes * bytes :=
  if zlen buf <? 4 then (m, buf)
  else
    match fuel with
    | O => (m, buf)
    | S fuel =>
        match replay_one buf m with
        | None => (m, buf)
        | Some (m', n) => replay_loop fuel (drop n buf) m'
        end
    end.

(** [o_open] is the first [open]: the file, absent ([ENOENT]) or an error. *)
Inductive open_file := Present (content : bytes) | Absent | Unreadable.
Record open_io := mkOpenIo { o_reads : list rres; o_truncate : bool; o_append : bool }.

Inductive open_result := Opened (w : Wal) | OpenFailed.

(** [StateWal::Open]. *)
Definition Open (io : open_io) (f : open_file) : open_result :=
  match f with
  | Unreadable => OpenFailed
  | Absent => if o_append io then Opened (mkWal [] ∅) else OpenFailed
  | Present content =>
      let buf := take (read_all (o_reads io) (length content) 0) content in
      let '(m, rest) := replay_loop (length buf) buf ∅ in
      let good_end := (length buf - length rest)%nat in
      if (good_end <? length buf)%nat && negb (o_truncate io) then OpenFailed
      else if negb (o_append io) then OpenFailed
      else Opened (mkWal (if (good_end <? length buf)%nat then take good_end content else content) m)
  end.

(** An append changes the entry of its key only, and only if it succeeds. *)
Lemma Append_other io key id data w ok w' k :
  Append io key id data w = (ok, w') -> key <> k -> Get k w' = Get k w.
Proof.
  unfold Append, Get. intros E N. destruct (_ <? _); [by injection E as <- <-|]. destruct (a_write io) as [n|]; [|by injection E as <- <-].
  destruct (_ <? _)%nat; [by injection E as <- <-|]. destruct (negb _); injection E as <- <-; [done|]. cbn [map_]. by rewrite lookup_insert_ne.
Qed.

Lemma Append_stored io key id data w w' : Append io key id data w = (true, w') -> Get key w' = Some data.
Proof.
  unfold Append, Get. intros E. destruct (_ <? _); [done|]. destruct (a_write io) as [n|]; [|done].
  destruct (_ <? _)%nat; [done|]. destruct (negb _); [done|]. injection E as <-. cbn [map_]. by rewrite lookup_insert_eq.
Qed.

(** ** Replay *)

(** A history of [Append]s: key, identity and blob. *)
Record put := mkPut { p_key : bytes; p_id : bytes; p_data : bytes }.

Definition put_ok (p : put) : Prop :=
  length (p_key p) = kKeyLen /\ length (p_id p) = kIdLen /\ 157 + zlen (p_data p) < 2 ^ 32.

Definition rec_of (p : put) : bytes := record (p_key p) (p_id p) (p_data p).
Definition log_of (h : list put) : bytes := concat (rec_of <$> h).
Definition play (h : list put) (m : gmap bytes bytes) : gmap bytes bytes :=
  fold_left (fun m p => <[p_key p := p_data p]> m) h m.

Lemma length_body p : put_ok p -> zlen (body (p_key p) (p_id p) (p_data p)) = 149 + zlen (p_data p).
Proof.
  intros (Hk & Hi & _). unfold body, PutU32. len_simpl. rewrite Hk, Hi. unfold kKeyLen, kIdLen. lia.
Qed.

Lemma length_record p : put_ok p -> zlen (rec_of p) = 157 + zlen (p_data p).
Proof.
  intros Hp. pose proof (length_body p Hp). unfold rec_of, record, PutU32. len_simpl. lia.
Qed.

Lemma GetU32_record p r : put_ok p -> GetU32 (rec_of p ++ r) = zlen (rec_of p).
Proof.
  intros Hp. pose proof (length_record p Hp) as HL. destruct Hp as (_ & _ & Hd).
  unfold rec_of at 1, record, GetU32, PutU32 at 1. rewrite <- app_assoc, get_u32_put;
    unfold kKeyLen, kIdLen; lia.
Qed.

Lemma record_body p r :
  put_ok p ->
  take (Z.to_nat (zlen (rec_of p) - 4 - 4)) (drop 4 (rec_of p ++ r)) =
  body (p_key p) (p_id p) (p_data p).
Proof.
  intros Hp. pose proof (length_record p Hp). pose proof (length_body p Hp).
  unfold rec_of at 2, record, PutU32 at 1. rewrite <- app_assoc, drop_put_le_app.
  rewrite <- app_assoc. apply take_zlen_app. lia.
Qed.

Lemma record_crc p r :
  put_ok p ->
  GetU32 (drop (Z.to_nat (zlen (rec_of p) - 4)) (rec_of p ++ r)) =
  Crc.crc32_table (body (p_key p) (p_id p) (p_data p)).
Proof.
  intros Hp. pose proof (length_record p Hp) as HL. pose proof (length_body p Hp) as HB.
  unfold rec_of at 2, record. rewrite <- !app_assoc.
  replace (Z.to_nat (zlen (rec_of p) - 4))
    with (4 + length (body (p_key p) (p_id p) (p_data p)))%nat by lia.
  rewrite <- drop_drop. unfold PutU32 at 1. rewrite drop_put_le_app, drop_app_length.
  apply get_u32_put. apply Crc.crc32_table_bound.
Qed.

Lemma replay_one_record p r m :
  put_ok p ->
  replay_one (rec_of p ++ r) m = Some (<[p_key p := p_data p]> m, length (rec_of p)).
Proof.
  intros Hp. pose proof (length_record p Hp) as HL. pose proof (length_body p Hp) as HB.
  unfold replay_one. rewrite GetU32_record, record_body, record_crc by done.
  replace (_ <? kMinRecord) with false by (symmetry; apply Z.ltb_ge; unfold kMinRecord; lia).
  replace (_ <? _) with false by (symmetry; apply Z.ltb_ge; len_simpl; lia).
  rewrite Z.eqb_refl. cbn [negb]. destruct Hp as (Hk & Hi & Hd).
  assert (byte_val (default x00 (head (body (p_key p) (p_id p) (p_data p)))) =? kOpPut = true) as ->
    by reflexivity.
  assert (drop 1 (body (p_key p) (p_id p) (p_data p)) =
          p_key p ++ p_id p ++ PutU32 (zlen (p_data p)) ++ p_data p) as -> by done.
  rewrite <- drop_drop, <- Hk, drop_app_length, <- Hi, drop_app_length.
  unfold GetU32, PutU32. rewrite get_u32_put, drop_put_le_app, take_app_length by lia.
  replace (_ =? _) with true by (symmetry; apply Z.eqb_eq; rewrite Hk, Hi; unfold kKeyLen, kIdLen; lia).
  cbn [negb]. rewrite Nat2Z.id, take_ge by lia. rewrite Nat2Z.id. done.
Qed.

Lemma replay_one_consumes buf m m' n :
  replay_one buf m = Some (m', n) -> (157 <= n <= length buf)%nat.
Proof.
  unfold replay_one. destruct (_ <? kMinRecord) eqn:E1; [done|].
  destruct (zlen buf <? _) eqn:E2; [done|]. unfold kMinRecord in *. reflect_bools.
  repeat break_match; intros [= <- <-]; lia.
Qed.

Lemma wal_replay_fuel fuel fuel' buf m :
  (length buf <= fuel)%nat -> (length buf <= fuel')%nat ->
  replay_loop fuel buf m = replay_loop fuel' buf m.
Proof.
  revert fuel' buf m. induction fuel as [|fuel IH]; intros fuel' buf m H H'.
  - destruct buf; [|simpl in H; lia]. by destruct fuel'.
  - destruct fuel' as [|fuel']; [by destruct buf; [|simpl in H'; lia]|].
    cbn [replay_loop]. destruct (zlen buf <? 4); [done|].
    destruct (replay_one buf m) as [[m' n]|] eqn:E; [|done].
    apply replay_one_consumes in E. apply IH; rewrite length_drop; lia.
Qed.

Definition replay (buf : bytes) (m : gmap bytes bytes) : gmap bytes bytes * bytes :=
  replay_loop (length buf) buf m.

Lemma wal_replay_record p r m :
  put_ok p -> replay (rec_of p ++ r) m = replay r (<[p_key p := p_data p]> m).
Proof.
  intros Hp. pose proof (length_record p Hp). unfold replay.
  destruct (length (rec_of p ++ r)) as [|n] eqn:En; [rewrite length_app in En; lia|].
  cbn [replay_loop]. rewrite replay_one_record by done.
  replace (_ <? 4) with false by (symmetry; apply Z.ltb_ge; rewrite En in *; len_simpl; lia).
  rewrite drop_app_length. apply wal_replay_fuel; [|lia]. rewrite length_app in En. lia.
Qed.

Lemma wal_replay_log h tail m :
  Forall put_ok h -> replay (log_of h ++ tail) m = replay tail (play h m).
Proof.
  intros Hh. revert m. induction Hh as [|p h Hp Hh IH]; intros m; [done|].
  unfold log_of. cbn [fmap list_fmap concat]. rewrite <- app_assoc, wal_replay_record by done. apply IH.
Qed.

(** Bytes that hold no complete record. *)
Definition dead (tail : bytes) : Prop := forall m, replay tail m = (m, tail).

Lemma wal_dead_short tail : zlen tail < 4 -> dead tail.
Proof.
  intros H m. unfold replay. destruct (length tail) eqn:E; cbn [replay_loop];
    by rewrite (proj2 (Z.ltb_lt _ _)) by lia.
Qed.

Lemma wal_dead_long_length tail : zlen tail < GetU32 tail -> dead tail.
Proof.
  intros H m. destruct (decide (zlen tail < 4)); [by apply wal_dead_short|].
  unfold replay. destruct (length tail) as [|len] eqn:E; [simpl in *; lia|]. cbn [replay_loop].
  rewrite (proj2 (Z.ltb_ge _ 4)) by lia. unfold replay_one.
  destruct (_ <? kMinRecord); [done|]. by rewrite (proj2 (Z.ltb_lt _ _)) by lia.
Qed.

(** A torn record, followed by anything that does not reach its end. *)
Lemma wal_dead_torn p k r :
  put_ok p -> (4 <= k)%nat -> Z.of_nat k + zlen r < zlen (rec_of p) -> dead (take k (rec_of p) ++ r).
Proof.
  intros Hp Hk Hr. apply wal_dead_long_length.
  assert (GetU32 (take k (rec_of p) ++ r) = zlen (rec_of p)) as ->.
  { rewrite <- (GetU32_record p [] Hp), app_nil_r. unfold GetU32, get_u32.
    rewrite take_app_le by (rewrite length_take; lia). by rewrite take_take, Nat.min_l by lia. }
  rewrite length_app, length_take. lia.
Qed.

Lemma wal_dead_torn_end p k :
  put_ok p -> (k < length (rec_of p))%nat -> dead (take k (rec_of p)).
Proof.
  intros Hp Hk. destruct (decide (k < 4)%nat).
  - apply wal_dead_short. rewrite length_take. lia.
  - rewrite <- (app_nil_r (take k _)). apply wal_dead_torn; [done|lia|cbn [length]; lia].
Qed.

(** An [Open] whose system calls succeed and whose reads reach the end. *)
Definition clean_open (io : open_io) (size : nat) : Prop :=
  read_all (o_reads io) size 0 = size /\ o_truncate io = true /\ o_append io = true.

Lemma wal_Open_log io h tail :
  Forall put_ok h -> dead tail -> clean_open io (length (log_of h ++ tail)) ->
  Open io (Present (log_of h ++ tail)) = Opened (mkWal (log_of h) (play h ∅)).
Proof.
  intros Hh Hd (Hr & Ht & Ha). unfold Open. rewrite Hr, Ht, Ha, take_ge by lia.
  fold (replay (log_of h ++ tail) ∅). rewrite wal_replay_log, Hd by done. cbn [negb].
  rewrite andb_false_r, length_app.
  replace (length (log_of h) + length tail - length tail)%nat with (length (log_of h)) by lia.
  destruct (Nat.ltb_spec (length (log_of h)) (length (log_of h) + length tail)) as [|Hge].
  - by rewrite take_app_length.
  - destruct tail; [by rewrite app_nil_r|simpl in Hge; lia].
Qed.

(** The invariant of a log that has not failed. *)
Definition inv (h : list put) (w : Wal) : Prop :=
  disk w = log_of h /\ map_ w = play h ∅ /\ Forall put_ok h.

(** Recovery of the state log. On a log whose writes have not failed, an
    acknowledged [Append] makes the entry readable and keeps the log
    replayable; and if the process dies with any part of the record of a next
    [Append] in the file, [Open] recovers exactly the acknowledged entries and
    leaves the file without the torn part. *)
Theorem StateWal_recovers io oio h w p w' k :
  inv h w -> put_ok p -> Append io (p_key p) (p_id p) (p_data p) w = (true, w') ->
  (k < length (rec_of p))%nat ->
  clean_open oio (length (disk w ++ take k (rec_of p))) ->
  clean_open oio (length (disk w')) ->
  inv (h ++ [p]) w' /\ Get (p_key p) w' = Some (p_data p) /\
  Open oio (Present (disk w')) = Opened w' /\
  Open oio (Present (disk w ++ take k (rec_of p))) = Opened w.
Proof.
  intros (Hd & Hm & Hh) Hp HA Hk Hio Hio'. destruct w as [d m]. simpl in *. subst d m.
  unfold Append in HA. destruct (_ <? _); [done|]. destruct (a_write io) as [n|]; [|done].
  fold (rec_of p) in HA. destruct (Nat.ltb_spec n (length (rec_of p))) as [|Hn]; [done|].
  destruct (a_fsync io); [|done]. injection HA as <-. simpl in *. rewrite take_ge in * by done.
  assert (log_of h ++ rec_of p = log_of (h ++ [p])) as HE.
  { unfold log_of. rewrite fmap_app, concat_app. simpl. by rewrite app_nil_r. }
  assert (<[p_key p := p_data p]> (play h ∅) = play (h ++ [p]) ∅) as HP.
  { unfold play. by rewrite fold_left_app. }
  assert (Forall put_ok (h ++ [p])) as Hh' by (apply Forall_app; auto).
  rewrite HE, HP in *. split_and!.
  - done.
  - unfold Get. simpl. rewrite <- HP. by rewrite lookup_insert, decide_True.
  - pose proof (wal_Open_log oio (h ++ [p]) [] Hh' (wal_dead_short [] ltac:(done))) as HO.
    rewrite app_nil_r in HO. by apply HO.
  - apply wal_Open_log; [done| |done]. by apply wal_dead_torn_end.
Qed.

Definition put_a : put := mkPut (replicate 16 x61) (replicate 128 x00) (replicate 200 x07).
Definition put_b : put := mkPut (replicate 16 x62) (replicate 128 x00) [x08].
Definition empty_wal : Wal := mkWal [] ∅.
Definition good_append : append_io := mkIo (Some (Z.to_nat 1000)) true.
Definition good_open : open_io := mkOpenIo [] true true.

Lemma put_a_ok : put_ok put_a.
Proof. split; [reflexivity|]. split; [reflexivity|]. vm_compute. reflexivity. Qed.
Lemma put_b_ok : put_ok put_b.
Proof. split; [reflexivity|]. split; [reflexivity|]. vm_compute. reflexivity. Qed.

Lemma StateWal_recovers_witness :
  Open good_open (Present (take 100 (rec_of put_b))) = Opened empty_wal.
Proof.
  refine (proj2 (proj2 (proj2 (StateWal_recovers good_append good_open [] empty_wal put_b
    (Append good_append (p_key put_b) (p_id put_b) (p_data put_b) empty_wal).2 100 _ _ _ _ _ _)))).
  - split; [reflexivity|]. split; [reflexivity|constructor].
  - exact put_b_ok.
  - vm_compute. reflexivity.
  - apply Nat.ltb_lt. vm_compute. reflexivity.
  - split; [vm_compute; reflexivity|split; reflexivity].
  - split; [vm_compute; reflexivity|split; reflexivity].
Defined.

(** A failed [Append] destroys later acknowledged ones. The bytes a short
    write leaves are not removed, so the next [Append] writes behind them; it
    is acknowledged and readable, but the next [Open] takes everything from
    the stray bytes on for a torn tail and deletes it. *)
Theorem StateWal_loses_acknowledged h w p q k w1 w2 io oio :
  inv h w -> put_ok p -> put_ok q -> (4 <= k)%nat ->
  Z.of_nat k + zlen (rec_of q) < zlen (rec_of p) ->
  Append (mkIo (Some k) true) (p_key p) (p_id p) (p_data p) w = (false, w1) ->
  Append io (p_key q) (p_id q) (p_data q) w1 = (true, w2) ->
  clean_open oio (length (disk w2)) ->
  Get (p_key q) w2 = Some (p_data q) /\ Open oio (Present (disk w2)) = Opened w.
Proof.
  intros (Hd & Hm & Hh) Hp Hq Hk Hlt HA HB Hio. destruct w as [d m]. cbn [disk map_] in *. subst d m.
  unfold Append in HA. pose proof (length_record p Hp) as HL. destruct Hp as (Hpk & Hpi & Hpd).
  rewrite (proj2 (Z.ltb_ge _ _)) in HA by (unfold kKeyLen, kIdLen; lia). cbn [a_write] in HA.
  fold (rec_of p) in HA. rewrite (proj2 (Nat.ltb_lt _ _)) in HA by lia. injection HA as <-.
  unfold Append in HB. destruct (_ <? _); [done|]. destruct (a_write io) as [n|]; [|done].
  fold (rec_of q) in HB. destruct (Nat.ltb_spec n (length (rec_of q))) as [|Hn]; [done|].
  destruct (a_fsync io); [|done]. injection HB as <-.
  split; [unfold Get; simpl; by rewrite lookup_insert, decide_True|].
  cbn [disk map_] in *. rewrite (take_ge (rec_of q)) in * by done.
  rewrite <- app_assoc in *. apply wal_Open_log; [done| |done]. apply wal_dead_torn; [by split_and!|lia..].
Qed.

Definition torn_wal : Wal :=
  (Append (mkIo (Some 10%nat) true) (p_key put_a) (p_id put_a) (p_data put_a) empty_wal).2.
Definition acked_wal : Wal :=
  (Append good_append (p_key put_b) (p_id put_b) (p_data put_b) torn_wal).2.

Lemma StateWal_loses_acknowledged_witness :
  Get (p_key put_b) acked_wal = Some (p_data put_b) /\
  Open good_open (Present (disk acked_wal)) = Opened empty_wal.
Proof.
  apply (StateWal_loses_acknowledged [] empty_wal put_a put_b 10 torn_wal acked_wal good_append good_open).
  - split; [reflexivity|]. split; [reflexivity|constructor].
  - exact put_a_ok.
  - exact put_b_ok.
  - lia.
  - vm_compute. reflexivity.
  - vm_compute. reflexivity.
  - vm_compute. reflexivity.
  - split; [vm_compute; reflexivity|split; reflexivity].
Defined.

End StateWal.
