(* ===== verification/ArtIndex.v ===== *)
(** * The prefix index

    [ArtIndex] of prefix/art_index.cpp: a radix tree over sequences of 8-byte
    chunk hashes. An inner node has 256 slots indexed by the first byte of the
    next hash; a slot is the chain of children whose hashes share that byte,
    told apart by the other seven. The theorems say that the tree is a finite
    map from paths to leaf data, that [Insert], [Remove] and the counters act
    on that map, and that [Lookup] is longest-prefix match. Writers hold the
    writer mutex, so each call is one step; the lock-free readers are not
    modelled, and the epoch-based reclamation they rely on is in Epoch.v. The leaves are
    of any type: data in the log and the snapshots, addresses in the node. *)

From S2P Require Import Prelude.
From Stdlib Require Import ZArith Lia.

Open Scope Z_scope.

Module Art.

(** [std::array<uint8_t, 8>]. *)
Notation ChunkHash := bytes (only parsing).
Definition hash_ok (h : ChunkHash) : Prop := length h = 8%nat.

Record LeafData := mkLeafData {
  locator : bytes; tier_residency_bitmap : Z; refcount : Z;
  sealed_at_nanos : Z; last_access_nanos : Z; bytes_total : Z }.

#[global] Instance leaf_data_eq_dec : EqDecision LeafData.
Proof. solve_decision. Defined.

(** The tree does not look into its leaves: they are of any type [L], [LeafData] in the
    log and the snapshots, and the addresses of shared leaves in the node. *)
Section Tree.
Context {L : Type}.

(** [ArtLeaf] and [ArtInner256]. The edge is [edge_tail] when
    [edge_tail_valid]; a slot's chain, linked by [chain_next], is a list; the
    array of 256 slots is a function of the byte that indexes it. *)
Inductive node :=
| Leaf (edge : option bytes) (data : L)
| Inner (edge : option bytes) (children : byte -> list node) (embedded_leaf : option L).

Definition edge_of (n : node) : option bytes :=
  match n with Leaf e _ => e | Inner e _ _ => e end.

Notation slots := (byte -> list node).
Definition no_children : slots := fun _ => [].

(** [children[slot].store(...)]. *)
Definition set_slot (b : byte) (c : list node) (ch : slots) : slots :=
  fun b' => if bool_decide (b' = b) then c else ch b'.

Definition slot_of (h : ChunkHash) : byte := nth 0 h x00.
Definition tail_of (h : ChunkHash) : bytes := take 7 (drop 1 h).

Definition EdgeMatches (child : node) (h : ChunkHash) : bool :=
  match edge_of child with
  | None => false
  | Some t => bool_decide (t = tail_of h)
  end.

(** [WalkChain(head, h, prev)]: the entry whose edge matches. *)
Fixpoint WalkChain (chain : list node) (h : ChunkHash) : option node :=
  match chain with
  | [] => None
  | n :: r => if EdgeMatches n h then Some n else WalkChain r h
  end.

(** Storing into [prev->chain_next], or into the slot when [prev] is null: the
    matching entry is replaced and the rest of the chain kept, or, when there
    is none, the node is appended at the tail. *)
Fixpoint splice (chain : list node) (h : ChunkHash) (n : node) : list node :=
  match chain with
  | [] => [n]
  | m :: r => if EdgeMatches m h then n :: r else m :: splice r h n
  end.

(** Unlinking the matching entry. *)
Fixpoint unlink (chain : list node) (h : ChunkHash) : list node :=
  match chain with
  | [] => []
  | m :: r => if EdgeMatches m h then r else m :: unlink r h
  end.

Inductive InsertResult := kInserted | kReplaced | kPathConflict.

(** [Insert] below an inner node with the slots [ch]: the slots afterwards,
    the result, and how many inner nodes were created. *)
Fixpoint insert_at (ch : slots) (path : list ChunkHash) (d : L) : slots * InsertResult * nat :=
  match path with
  | [] => (ch, kPathConflict, 0%nat)
  | [last] =>
      let chain := ch (slot_of last) in
      match WalkChain chain last with
      | Some (Inner e ch' emb) =>
          (set_slot (slot_of last) (splice chain last (Inner e ch' (Some d))) ch,
           match emb with Some _ => kReplaced | None => kInserted end, 0%nat)
      | Some (Leaf _ _) =>
          (set_slot (slot_of last) (splice chain last (Leaf (Some (tail_of last)) d)) ch, kReplaced, 0%nat)
      | None =>
          (set_slot (slot_of last) (splice chain last (Leaf (Some (tail_of last)) d)) ch, kInserted, 0%nat)
      end
  | h :: rest =>
      let chain := ch (slot_of h) in
      let '(e, below, emb, created) :=
        match WalkChain chain h with
        | Some (Leaf e d0) => (e, no_children, Some d0, 1%nat)
        | Some (Inner e ch' emb) => (e, ch', emb, 0%nat)
        | None => (Some (tail_of h), no_children, None, 1%nat)
        end in
      let '(below', r, n) := insert_at below rest d in
      (set_slot (slot_of h) (splice chain h (Inner e below' emb)) ch, r, (created + n)%nat)
  end.

(** [Remove] below an inner node; [None] is [return false]. *)
Fixpoint remove_at (ch : slots) (path : list ChunkHash) : option slots :=
  match path with
  | [] => None
  | [last] =>
      let chain := ch (slot_of last) in
      match WalkChain chain last with
      | None => None
      | Some (Inner e ch' None) => None
      | Some (Inner e ch' (Some _)) =>
          Some (set_slot (slot_of last) (splice chain last (Inner e ch' None)) ch)
      | Some (Leaf _ _) => Some (set_slot (slot_of last) (unlink chain last) ch)
      end
  | h :: rest =>
      let chain := ch (slot_of h) in
      match WalkChain chain h with
      | Some (Inner e ch' emb) =>
          (fun below => set_slot (slot_of h) (splice chain h (Inner e below emb)) ch) <$> remove_at ch' rest
      | _ => None
      end
  end.

(** The loop of [Lookup] at depth [i] with the best match so far. *)
Fixpoint lookup_from (ch : slots) (path : list ChunkHash) (i : nat) (best : nat * option L) :
    nat * option L :=
  match path with
  | [] => best
  | h :: rest =>
      match WalkChain (ch (slot_of h)) h with
      | None => best
      | Some (Leaf _ d) => (S i, Some d)
      | Some (Inner _ ch' emb) =>
          lookup_from ch' rest (S i) (match emb with Some d => (S i, Some d) | None => best end)
      end
  end.

(** [LookupByPath] below an inner node. *)
Fixpoint path_at (ch : slots) (path : list ChunkHash) : option L :=
  match path with
  | [] => None
  | [last] =>
      match WalkChain (ch (slot_of last)) last with
      | None => None
      | Some (Leaf _ d) => Some d
      | Some (Inner _ _ emb) => emb
      end
  | h :: rest =>
      match WalkChain (ch (slot_of h)) h with
      | Some (Inner _ ch' _) => path_at ch' rest
      | _ => None
      end
  end.

(** The index: the root's slots and the two counters. *)
Record Index := mkIndex { root_ : slots; leaf_count_ : Z; node_count_ : Z }.

Definition empty_index : Index := mkIndex no_children 0 0.

Definition Insert (path : list ChunkHash) (d : L) (x : Index) : InsertResult * Index :=
  let '(r, res, n) := insert_at (root_ x) path d in
  (res, mkIndex r (leaf_count_ x + match res with kInserted => 1 | _ => 0 end)
                  (node_count_ x + Z.of_nat n)).

Definition Remove (path : list ChunkHash) (x : Index) : bool * Index :=
  match remove_at (root_ x) path with
  | None => (false, x)
  | Some r => (true, mkIndex r (leaf_count_ x - 1) (node_count_ x))
  end.

Definition Lookup (path : list ChunkHash) (x : Index) : nat * option L :=
  lookup_from (root_ x) path 0 (0%nat, None).

Definition LookupByPath (path : list ChunkHash) (x : Index) : option L :=
  path_at (root_ x) path.

(** ** Chains *)

Lemma EdgeMatches_spec n h : EdgeMatches n h = true <-> edge_of n = Some (tail_of h).
Proof.
  unfold EdgeMatches. destruct (edge_of n) as [t|]; [|done].
  rewrite bool_decide_eq_true. split; [by intros ->|by intros [= ->]].
Qed.

Lemma WalkChain_edge chain h n : WalkChain chain h = Some n -> edge_of n = Some (tail_of h).
Proof.
  induction chain as [|m r IH]; simpl; [done|]. destruct (EdgeMatches m h) eqn:E; [|done].
  intros [= <-]. by apply EdgeMatches_spec.
Qed.

Lemma WalkChain_splice chain h n :
  edge_of n = Some (tail_of h) -> WalkChain (splice chain h n) h = Some n.
Proof.
  intros Hn. apply EdgeMatches_spec in Hn.
  induction chain as [|m r IH]; simpl; [by rewrite Hn|].
  destruct (EdgeMatches m h) eqn:E; simpl; by rewrite ?E, ?Hn.
Qed.

Lemma EdgeMatches_other n h h' :
  edge_of n = Some (tail_of h) -> tail_of h <> tail_of h' -> EdgeMatches n h' = false.
Proof.
  intros Hn Hne. destruct (EdgeMatches n h') eqn:E; [|done].
  apply EdgeMatches_spec in E. congruence.
Qed.

Lemma WalkChain_splice_other chain h h' n :
  edge_of n = Some (tail_of h) -> tail_of h <> tail_of h' ->
  WalkChain (splice chain h n) h' = WalkChain chain h'.
Proof.
  intros Hn Hne. pose proof (EdgeMatches_other _ _ _ Hn Hne) as Ho.
  induction chain as [|m r IH]; simpl; [by rewrite Ho|].
  destruct (EdgeMatches m h) eqn:E; simpl; [|by rewrite IH].
  apply EdgeMatches_spec in E. by rewrite Ho, (EdgeMatches_other m h h').
Qed.

(** No two entries of a chain have the same edge. *)
Definition chain_ok (chain : list node) : Prop := NoDup (edge_of <$> chain).

Lemma splice_edges chain h n :
  edge_of n = Some (tail_of h) ->
  edge_of <$> splice chain h n =
  (edge_of <$> chain) ++ (if WalkChain chain h then [] else [Some (tail_of h)]).
Proof.
  intros Hn. induction chain as [|m r IH]; simpl; [by rewrite Hn|].
  destruct (EdgeMatches m h) eqn:E; simpl.
  - apply EdgeMatches_spec in E. by rewrite Hn, E, app_nil_r.
  - f_equal. apply IH.
Qed.

Lemma WalkChain_None chain h : WalkChain chain h = None <-> Some (tail_of h) ∉ (edge_of <$> chain).
Proof.
  induction chain as [|m r IH]; simpl; [set_solver|].
  destruct (EdgeMatches m h) eqn:E.
  - apply EdgeMatches_spec in E. rewrite E. set_solver.
  - rewrite IH, not_elem_of_cons. split; [|by intros [_ ?]]. intros H. split; [|done].
    intros Heq. symmetry in Heq. apply EdgeMatches_spec in Heq. congruence.
Qed.

Lemma splice_ok chain h n :
  edge_of n = Some (tail_of h) -> chain_ok chain -> chain_ok (splice chain h n).
Proof.
  unfold chain_ok. intros Hn Hc. rewrite splice_edges by done.
  destruct (WalkChain chain h) eqn:E; [by rewrite app_nil_r|].
  apply WalkChain_None in E. apply NoDup_app. split_and!; [done| |repeat constructor; set_solver].
  intros x Hx Hx'. apply list_elem_of_singleton in Hx'. by subst.
Qed.

Lemma unlink_incl chain h n : n ∈ unlink chain h -> n ∈ chain.
Proof.
  induction chain as [|m r IH]; simpl; [done|]. destruct (EdgeMatches m h); set_solver.
Qed.

Lemma unlink_ok chain h : chain_ok chain -> chain_ok (unlink chain h).
Proof.
  unfold chain_ok. induction chain as [|m r IH]; simpl; [done|].
  rewrite NoDup_cons. intros [Hm Hr]. destruct (EdgeMatches m h); [done|].
  rewrite fmap_cons, NoDup_cons. split; [|by apply IH].
  intros Hin. apply Hm. apply list_elem_of_fmap in Hin as (x & -> & Hx).
  apply list_elem_of_fmap_2. by eapply unlink_incl.
Qed.

Lemma WalkChain_unlink chain h : chain_ok chain -> WalkChain (unlink chain h) h = None.
Proof.
  unfold chain_ok. induction chain as [|m r IH]; simpl; [done|].
  rewrite NoDup_cons. intros [Hm Hr]. destruct (EdgeMatches m h) eqn:E; simpl; [|by rewrite E, IH].
  apply EdgeMatches_spec in E. rewrite E in Hm. by apply WalkChain_None.
Qed.

Lemma WalkChain_unlink_other chain h h' :
  tail_of h <> tail_of h' -> WalkChain (unlink chain h) h' = WalkChain chain h'.
Proof.
  intros Hne. induction chain as [|m r IH]; simpl; [done|].
  destruct (EdgeMatches m h) eqn:E; simpl; [|by rewrite IH].
  apply EdgeMatches_spec in E. by rewrite (EdgeMatches_other m h h').
Qed.

Lemma splice_incl chain h n m : m ∈ splice chain h n -> m = n \/ m ∈ chain.
Proof.
  induction chain as [|x r IH]; simpl; [set_solver|]. destruct (EdgeMatches x h); set_solver.
Qed.

Lemma WalkChain_elem chain h n : WalkChain chain h = Some n -> n ∈ chain.
Proof.
  induction chain as [|m r IH]; simpl; [done|]. destruct (EdgeMatches m h); [|set_solver].
  intros [= <-]. by left.
Qed.

(** ** Children by hash *)

Definition child (ch : slots) (h : ChunkHash) : option node := WalkChain (ch (slot_of h)) h.

Definition put_child (ch : slots) (h : ChunkHash) (n : node) : slots :=
  set_slot (slot_of h) (splice (ch (slot_of h)) h n) ch.

Definition del_child (ch : slots) (h : ChunkHash) : slots :=
  set_slot (slot_of h) (unlink (ch (slot_of h)) h) ch.

Lemma hash_split h : hash_ok h -> h = slot_of h :: tail_of h.
Proof.
  unfold hash_ok, slot_of, tail_of. destruct h as [|b h]; [done|]. simpl. intros [= H].
  by rewrite drop_0, take_ge by lia.
Qed.

Lemma hash_inj h h' :
  hash_ok h -> hash_ok h' -> slot_of h = slot_of h' -> tail_of h = tail_of h' -> h = h'.
Proof. intros H H' E1 E2. rewrite (hash_split h), (hash_split h'); congruence. Qed.

Lemma set_slot_eq b c ch : set_slot b c ch b = c.
Proof. unfold set_slot. by rewrite bool_decide_true. Qed.

Lemma set_slot_ne b b' c ch : b' <> b -> set_slot b c ch b' = ch b'.
Proof. intros H. unfold set_slot. by rewrite bool_decide_false. Qed.

Lemma child_put ch h n : edge_of n = Some (tail_of h) -> child (put_child ch h n) h = Some n.
Proof. intros Hn. unfold child, put_child. rewrite set_slot_eq. by apply WalkChain_splice. Qed.

Lemma child_put_ne ch h h' n :
  hash_ok h -> hash_ok h' -> h' <> h -> edge_of n = Some (tail_of h) ->
  child (put_child ch h n) h' = child ch h'.
Proof.
  intros Hh Hh' Hne Hn. unfold child, put_child.
  destruct (decide (slot_of h' = slot_of h)) as [E|E]; [|by rewrite set_slot_ne].
  rewrite E, set_slot_eq. apply WalkChain_splice_other; [done|].
  intros Ht. apply Hne. symmetry. by apply hash_inj.
Qed.

Lemma child_del_ne ch h h' :
  hash_ok h -> hash_ok h' -> h' <> h -> child (del_child ch h) h' = child ch h'.
Proof.
  intros Hh Hh' Hne. unfold child, del_child.
  destruct (decide (slot_of h' = slot_of h)) as [E|E]; [|by rewrite set_slot_ne].
  rewrite E, set_slot_eq. apply WalkChain_unlink_other.
  intros Ht. apply Hne. symmetry. by apply hash_inj.
Qed.

Lemma child_edge ch h n : child ch h = Some n -> edge_of n = Some (tail_of h).
Proof. apply WalkChain_edge. Qed.

(** ** Well-formed trees *)

Inductive wf : node -> Prop :=
| wf_Leaf e d : wf (Leaf e d)
| wf_Inner e ch emb :
    (forall b, chain_ok (ch b)) -> (forall b n, n ∈ ch b -> wf n) -> wf (Inner e ch emb).

Definition wf_slots (ch : slots) : Prop :=
  (forall b, chain_ok (ch b)) /\ (forall b n, n ∈ ch b -> wf n).

Lemma wf_no_children : wf_slots no_children.
Proof. split; [intros b; constructor|]. intros b n H. by apply elem_of_nil in H. Qed.

Lemma wf_child ch h n : wf_slots ch -> child ch h = Some n -> wf n.
Proof. intros [_ H] Hc. apply WalkChain_elem in Hc. by eapply H. Qed.

Lemma wf_inner_slots e ch emb : wf (Inner e ch emb) -> wf_slots ch.
Proof. intros H. inversion H; subst. by split. Qed.

Lemma wf_put ch h n :
  wf_slots ch -> wf n -> edge_of n = Some (tail_of h) -> wf_slots (put_child ch h n).
Proof.
  intros [H1 H2] Hn He. unfold put_child. split; intros b.
  - destruct (decide (b = slot_of h)) as [->|Hb]; [|by rewrite set_slot_ne].
    rewrite set_slot_eq. by apply splice_ok.
  - intros m Hm. destruct (decide (b = slot_of h)) as [->|Hb]; [|rewrite set_slot_ne in Hm; eauto].
    rewrite set_slot_eq in Hm. apply splice_incl in Hm as [->|Hm]; eauto.
Qed.

Lemma wf_del ch h : wf_slots ch -> wf_slots (del_child ch h).
Proof.
  intros [H1 H2]. unfold del_child. split; intros b.
  - destruct (decide (b = slot_of h)) as [->|Hb]; [|by rewrite set_slot_ne].
    rewrite set_slot_eq. by apply unlink_ok.
  - intros m Hm. destruct (decide (b = slot_of h)) as [->|Hb]; [|rewrite set_slot_ne in Hm; eauto].
    rewrite set_slot_eq in Hm. apply unlink_incl in Hm. eauto.
Qed.

Lemma child_del ch h : wf_slots ch -> child (del_child ch h) h = None.
Proof. intros [H _]. unfold child, del_child. rewrite set_slot_eq. by apply WalkChain_unlink. Qed.

(** ** Paths *)

Definition path_ok (p : list ChunkHash) : Prop := Forall hash_ok p.

Lemma path_at_cons ch h rest :
  path_at ch (h :: rest) =
  match child ch h with
  | None => None
  | Some (Leaf _ d) => match rest with [] => Some d | _ => None end
  | Some (Inner _ ch' emb) => match rest with [] => emb | _ => path_at ch' rest end
  end.
Proof. unfold child. destruct rest; simpl; destruct (WalkChain _ h) as [[]|]; done. Qed.

Lemma path_at_empty p : path_at no_children p = None.
Proof. destruct p as [|h [|h' p]]; done. Qed.

(** The value a node stands for, and what is below it. *)
Definition value_of (n : option node) : option L :=
  match n with None => None | Some (Leaf _ d) => Some d | Some (Inner _ _ emb) => emb end.
Definition below_of (n : option node) : slots :=
  match n with Some (Inner _ ch _) => ch | _ => no_children end.

Lemma path_at_split ch h rest :
  path_at ch (h :: rest) =
  match rest with [] => value_of (child ch h) | _ => path_at (below_of (child ch h)) rest end.
Proof.
  rewrite path_at_cons. destruct (child ch h) as [[e d|e ch' emb]|], rest; simpl;
    try done; by rewrite ?path_at_empty; destruct rest.
Qed.

(** [Insert] replaces one child by a node with the new value or the new
    subtree. *)
Lemma insert_at_single ch h d :
  hash_ok h ->
  exists n r, insert_at ch [h] d = (put_child ch h n, r, 0%nat) /\
    edge_of n = Some (tail_of h) /\ value_of (Some n) = Some d /\
    below_of (Some n) = below_of (child ch h) /\
    r = (match value_of (child ch h) with Some _ => kReplaced | None => kInserted end) /\
    (wf_slots ch -> wf n).
Proof.
  intros Hh. simpl. fold (child ch h). destruct (child ch h) as [[e d0|e ch' emb]|] eqn:E.
  - exists (Leaf (Some (tail_of h)) d), kReplaced. split_and!; try done. intros _. constructor.
  - exists (Inner e ch' (Some d)), (match emb with Some _ => kReplaced | None => kInserted end).
    apply child_edge in E as Ee. split_and!; try done. intros Hw. pose proof (wf_child _ _ _ Hw E) as Hn.
    inversion Hn; subst. by constructor.
  - exists (Leaf (Some (tail_of h)) d), kInserted. split_and!; try done. intros _. constructor.
Qed.

Lemma insert_at_cons ch h rest d :
  hash_ok h -> rest <> [] ->
  exists e created,
    insert_at ch (h :: rest) d =
      (put_child ch h (Inner e (insert_at (below_of (child ch h)) rest d).1.1 (value_of (child ch h))),
       (insert_at (below_of (child ch h)) rest d).1.2,
       (created + (insert_at (below_of (child ch h)) rest d).2)%nat) /\
    e = Some (tail_of h).
Proof.
  intros Hh Hr. destruct rest as [|h2 rest]; [done|].
  change (insert_at ch (h :: h2 :: rest) d) with
    (let '(e, below, emb, created) :=
        match child ch h with
        | Some (Leaf e d0) => (e, no_children, Some d0, 1%nat)
        | Some (Inner e ch' emb) => (e, ch', emb, 0%nat)
        | None => (Some (tail_of h), no_children, None, 1%nat)
        end in
      let '(below', r, n) := insert_at below (h2 :: rest) d in
      (put_child ch h (Inner e below' emb), r, (created + n)%nat)).
  pose proof (child_edge ch h) as He.
  destruct (child ch h) as [[e d0|e ch' emb]|]; cbn [below_of value_of];
    [exists e, 1%nat|exists e, 0%nat|exists (Some (tail_of h)), 1%nat];
    (split; [by destruct (insert_at _ (h2 :: rest) d) as [[??]?]|]);
    [exact (He _ eq_refl)..|done].
Qed.

Lemma wf_below ch h : wf_slots ch -> wf_slots (below_of (child ch h)).
Proof.
  intros Hw. destruct (child ch h) as [[e d|e ch' emb]|] eqn:E; try apply wf_no_children.
  apply wf_child in E; [|done]. by eapply wf_inner_slots.
Qed.

Lemma insert_at_spec p d : forall ch,
  p <> [] -> path_ok p ->
  (forall q, path_ok q ->
     path_at (insert_at ch p d).1.1 q = if decide (q = p) then Some d else path_at ch q) /\
  (insert_at ch p d).1.2 = (match path_at ch p with Some _ => kReplaced | None => kInserted end) /\
  (wf_slots ch -> wf_slots (insert_at ch p d).1.1).
Proof.
  induction p as [|h p IH]; intros ch Hne Hp; [done|]. inversion Hp as [|?? Hh Hp']; subst.
  destruct (decide (p = [])) as [->|Hpne].
  - destruct (insert_at_single ch h d Hh) as (n & r & -> & He & Hv & Hb & -> & Hw). cbn [fst snd].
    rewrite path_at_split. split_and!; [|done|by intros; apply wf_put; auto].
    intros q Hq. destruct q as [|h' q]; [done|]. inversion Hq; subst.
    rewrite !path_at_split. destruct (decide (h' = h)) as [->|Hhn].
    + rewrite child_put by done. destruct q; [by rewrite Hv, decide_True|].
      rewrite Hb, decide_False by done. done.
    + rewrite child_put_ne by done. rewrite decide_False by congruence. done.
  - destruct (insert_at_cons ch h p d Hh Hpne) as (e & created & -> & ->). cbn [fst snd].
    destruct (IH (below_of (child ch h)) Hpne Hp') as (Hq & Hr & Hw).
    rewrite path_at_split. split_and!.
    + intros q Hqo. destruct q as [|h' q]; [done|]. inversion Hqo; subst.
      rewrite !path_at_split. destruct (decide (h' = h)) as [->|Hhn].
      * rewrite child_put by done. destruct q as [|h2 q]; [by rewrite decide_False by congruence|].
        cbn [below_of]. rewrite Hq by done. do 2 destruct (decide _); congruence.
      * rewrite child_put_ne by done. rewrite decide_False by congruence. done.
    + rewrite Hr. by destruct p.
    + intros Hws. apply wf_put; [done| |done]. destruct (Hw (wf_below _ _ Hws)). by constructor.
Qed.

(** [Remove] fails exactly when the path holds nothing, and otherwise forgets
    that path only. *)
Lemma remove_at_spec p : forall ch,
  p <> [] -> path_ok p -> wf_slots ch ->
  match remove_at ch p with
  | None => path_at ch p = None
  | Some ch' =>
      path_at ch p <> None /\ wf_slots ch' /\
      (forall q, path_ok q -> path_at ch' q = if decide (q = p) then None else path_at ch q)
  end.
Proof.
  induction p as [|h p IH]; intros ch Hne Hp Hw; [done|]. inversion Hp as [|?? Hh Hp']; subst.
  pose proof (child_edge ch h) as He. pose proof (wf_child ch h) as Hwc.
  destruct p as [|h2 p].
  - rewrite path_at_split. simpl. fold (child ch h). fold (del_child ch h).
    destruct (child ch h) as [[e d|e ch' [d|]]|] eqn:E; simpl; [| |done|done].
    + split; [done|]. split; [by apply wf_del|]. intros [|h' q] Hq; [done|].
      inversion Hq; subst. rewrite !path_at_split. destruct (decide (h' = h)) as [->|Hhn].
      * rewrite child_del, E by done. simpl.
        destruct q; [by rewrite decide_True|by rewrite decide_False].
      * rewrite child_del_ne by done. by rewrite decide_False by congruence.
    + fold (put_child ch h (Inner e ch' None)). specialize (He _ eq_refl). simpl in He.
      specialize (Hwc _ Hw eq_refl). inversion Hwc; subst.
      split; [done|]. split; [apply wf_put; [done|by constructor|done]|].
      intros [|h' q] Hq; [done|]. inversion Hq; subst. rewrite !path_at_split.
      destruct (decide (h' = h)) as [->|Hhn].
      * rewrite child_put, E by done. simpl. destruct q; [by rewrite decide_True|by rewrite decide_False].
      * rewrite child_put_ne by done. by rewrite decide_False by congruence.
  - rewrite path_at_split.
    change (remove_at ch (h :: h2 :: p)) with
      (match child ch h with
       | Some (Inner e ch' emb) => (fun below => put_child ch h (Inner e below emb)) <$> remove_at ch' (h2 :: p)
       | _ => None
       end).
    destruct (child ch h) as [[e d|e ch' emb]|] eqn:E; cbn [below_of]; [apply path_at_empty| |apply path_at_empty].
    specialize (He _ eq_refl). simpl in He. specialize (Hwc _ Hw eq_refl). inversion Hwc; subst.
    specialize (IH ch' ltac:(done) Hp' (conj H1 H3)).
    destruct (remove_at ch' (h2 :: p)) as [below|]; simpl; [|done]. destruct IH as (Hn & Hwb & IH).
    split; [done|]. split; [apply wf_put; [done|by destruct Hwb; constructor|done]|].
    intros [|h' q] Hq; [done|]. inversion Hq; subst. rewrite !path_at_split.
    destruct (decide (h' = h)) as [->|Hhn].
    + rewrite child_put, E by done. destruct q as [|h3 q]; [by rewrite decide_False by congruence|].
      cbn [below_of]. rewrite IH by done. do 2 destruct (decide _); congruence.
    + rewrite child_put_ne by done. by rewrite decide_False by congruence.
Qed.

(** ** Longest-prefix match *)

Lemma lookup_from_spec p : forall ch i best,
  let r := lookup_from ch p i best in
  (r = best /\ forall m, (0 < m <= length p)%nat -> path_at ch (take m p) = None) \/
  (exists m d, (0 < m <= length p)%nat /\ r = ((i + m)%nat, Some d) /\
     path_at ch (take m p) = Some d /\
     forall m', (m < m' <= length p)%nat -> path_at ch (take m' p) = None).
Proof.
  induction p as [|h p IH]; intros ch i best; simpl.
  { left. split; [done|]. lia. }
  fold (child ch h). destruct (child ch h) as [[e d|e ch' emb]|] eqn:E.
  - right. exists 1%nat, d. split; [lia|]. split; [f_equal; lia|]. simpl take.
    rewrite path_at_split, E. split; [done|]. intros m' Hm'. destruct m' as [|[|m']]; [lia..|].
    simpl take. rewrite path_at_split, E. destruct p; [simpl in Hm'; lia|]. apply path_at_empty.
  - assert (forall m, (0 < m)%nat -> path_at ch (h :: take m p) = path_at ch' (take m p) \/ p = []) as Hdeep.
    { intros m Hm. destruct p as [|h2 p]; [by right|left]. destruct m; [lia|].
      rewrite path_at_split, E. done. }
    set (best' := match emb with Some d => (S i, Some d) | None => best end).
    destruct (IH ch' (S i) best') as [[-> Hno]|(m & d & Hm & -> & Hp & Hno)].
    + assert (forall m', (1 < m' <= S (length p))%nat -> path_at ch (take m' (h :: p)) = None) as Hno'.
      { intros [|m'] Hm'; [lia|]. simpl take. destruct (Hdeep m' ltac:(lia)) as [->|Hd].
        - apply Hno. lia. - subst p. simpl in Hm'. lia. }
      subst best'. destruct emb as [d|].
      * right. exists 1%nat, d. split; [lia|]. split; [f_equal; lia|]. simpl take.
        rewrite path_at_split, E. done.
      * left. split; [done|]. intros [|[|m']] Hm'; [lia| |apply Hno'; lia].
        simpl take. by rewrite path_at_split, E.
    + right. exists (S m), d. split; [lia|]. split; [f_equal; lia|]. simpl take.
      destruct (Hdeep m ltac:(lia)) as [->|Hd]; [|subst p; simpl in Hm; lia]. split; [done|].
      intros [|m'] Hm'; [lia|]. simpl take.
      destruct (Hdeep m' ltac:(lia)) as [->|Hd]; [apply Hno; lia|subst p; simpl in Hm; lia].
  - left. split; [done|]. intros [|m] Hm; [lia|]. simpl take. rewrite path_at_split, E.
    destruct (take m p); [done|]. apply path_at_empty.
Qed.

(** ** The index is a finite map *)

Inductive op := OInsert (p : list ChunkHash) (d : L) | ORemove (p : list ChunkHash).

(** [kReplaced], or the [true] of [Remove]: the path was there. *)
Definition outcome := bool.

Definition op_ok (o : op) : Prop :=
  match o with OInsert p _ | ORemove p => path_ok p /\ p <> [] end.

Definition run_op (o : op) (x : Index) : outcome * Index :=
  match o with
  | OInsert p d => let '(r, x') := Insert p d x in (match r with kReplaced => true | _ => false end, x')
  | ORemove p => Remove p x
  end.

Definition spec_op (o : op) (m : gmap (list bytes) L) : outcome * gmap (list bytes) L :=
  match o with
  | OInsert p d => (bool_decide (is_Some (m !! p)), <[p := d]> m)
  | ORemove p => (bool_decide (is_Some (m !! p)), delete p m)
  end.

Fixpoint run {A} (f : op -> A -> outcome * A) (ops : list op) (x : A) : list outcome * A :=
  match ops with
  | [] => ([], x)
  | o :: r => let '(b, x') := f o x in let '(bs, x'') := run f r x' in (b :: bs, x'')
  end.

(** The map an index stands for. *)
Definition represents (x : Index) (m : gmap (list bytes) L) : Prop :=
  wf_slots (root_ x) /\ leaf_count_ x = Z.of_nat (size m) /\
  (forall q, path_ok q -> LookupByPath q x = m !! q) /\
  (forall q, q ∈ dom m -> path_ok q).

Lemma represents_empty : represents empty_index ∅.
Proof.
  split_and!; [apply wf_no_children|done| |set_solver]. intros q _. unfold LookupByPath. simpl.
  by rewrite path_at_empty, lookup_empty.
Qed.

Lemma represents_insert p d x m :
  represents x m -> path_ok p -> p <> [] ->
  (Insert p d x).1 = (if bool_decide (is_Some (m !! p)) then kReplaced else kInserted) /\
  represents (Insert p d x).2 (<[p := d]> m).
Proof.
  intros (Hw & Hc & Hl & Hd) Hp Hne. unfold Insert.
  destruct (insert_at_spec p d (root_ x) Hne Hp) as (Hq & Hr & Hw').
  destruct (insert_at (root_ x) p d) as [[r res] n]. simpl in *.
  change (path_at (root_ x) p) with (LookupByPath p x) in Hr. rewrite Hl in Hr by done.
  unfold represents, LookupByPath. simpl. split_and!.
  - rewrite Hr. destruct (m !! p) eqn:E; [by rewrite bool_decide_true by eauto|].
    rewrite bool_decide_false; [done|]. by intros [? ?].
  - auto.
  - rewrite Hr. rewrite Hc. destruct (m !! p) eqn:E.
    + rewrite map_size_insert_Some by eauto. lia.
    + rewrite map_size_insert_None by done. lia.
  - intros q Hqo. rewrite Hq by done. destruct (decide (q = p)) as [->|Hn].
    + by rewrite lookup_insert, decide_True.
    + rewrite lookup_insert_ne by done. by apply Hl.
  - intros q. rewrite dom_insert. intros [->%elem_of_singleton|?]%elem_of_union; auto.
Qed.

Lemma represents_remove p x m :
  represents x m -> path_ok p -> p <> [] ->
  (Remove p x).1 = bool_decide (is_Some (m !! p)) /\ represents (Remove p x).2 (delete p m).
Proof.
  intros (Hw & Hc & Hl & Hd) Hp Hne. unfold Remove.
  pose proof (remove_at_spec p (root_ x) Hne Hp Hw) as HR.
  pose proof (Hl p Hp) as Hlp. unfold LookupByPath in Hlp.
  destruct (remove_at (root_ x) p) as [r|]; simpl.
  - destruct HR as (Hn & Hw' & Hq). rewrite Hlp in Hn.
    destruct (m !! p) as [d|] eqn:E; [|done]. rewrite bool_decide_true by eauto.
    unfold represents, LookupByPath. simpl. split_and!; [done|done| | |].
    + rewrite map_size_delete_Some by eauto. rewrite Hc.
      assert (size m <> 0%nat) by (intros H0; apply map_size_empty_inv in H0; subst; by rewrite lookup_empty in E).
      lia.
    + intros q Hqo. rewrite Hq by done. destruct (decide (q = p)) as [->|Hne'].
      * by rewrite lookup_delete, decide_True.
      * rewrite lookup_delete_ne by done. by apply Hl.
    + intros q. rewrite dom_delete. set_solver.
  - rewrite Hlp in HR. rewrite HR, bool_decide_false by (by intros [? ?]). split; [done|].
    rewrite delete_id by done. by split_and!.
Qed.

Lemma run_represents ops : forall x m,
  represents x m -> Forall op_ok ops ->
  (run run_op ops x).1 = (run spec_op ops m).1 /\
  represents (run run_op ops x).2 (run spec_op ops m).2.
Proof.
  induction ops as [|o ops IH]; intros x m Hx Ho; [done|]. inversion Ho as [|?? Ho1 Hos]; subst.
  assert ((run_op o x).1 = (spec_op o m).1 /\ represents (run_op o x).2 (spec_op o m).2) as [H1 H2].
  { destruct o as [p d|p]; destruct Ho1 as [Hp Hne]; simpl.
    - destruct (represents_insert p d x m Hx Hp Hne) as [Hr Hx'].
      destruct (Insert p d x) as [r x']. simpl in *. split; [|done]. rewrite Hr.
      by destruct (bool_decide _).
    - by apply represents_remove. }
  simpl. destruct (run_op o x) as [b x'], (spec_op o m) as [b' m']. simpl in *. subst b'.
  destruct (IH x' m' H2 Hos) as [Hb Hr].
  destruct (run run_op ops x') as [bs x''], (run spec_op ops m') as [bs' m'']. simpl in *.
  by subst.
Qed.

(** [C9] The prefix index is a finite map from hash paths to leaf data. After
    any sequence of [Insert]s and [Remove]s of non-empty paths the results
    (replaced or new, removed or absent) are those of the map, [LookupByPath]
    is its lookup, and [LeafCount] its size. *)
Theorem art_is_map ops :
  Forall op_ok ops ->
  let '(results, x) := run run_op ops empty_index in
  let '(expected, m) := run spec_op ops ∅ in
  results = expected /\ leaf_count_ x = Z.of_nat (size m) /\
  forall q, path_ok q -> LookupByPath q x = m !! q.
Proof.
  intros Ho. destruct (run_represents ops _ _ represents_empty Ho) as [Hr (_ & Hc & Hl & _)].
  by destruct (run run_op ops empty_index), (run spec_op ops ∅).
Qed.

Lemma lookup_prefix_spec p x m :
  represents x m -> path_ok p ->
  match Lookup p x with
  | (n, Some d) =>
      (0 < n <= length p)%nat /\ m !! take n p = Some d /\
      forall k, (n < k <= length p)%nat -> m !! take k p = None
  | (n, None) => n = 0%nat /\ forall k, (0 < k <= length p)%nat -> m !! take k p = None
  end.
Proof.
  intros (_ & _ & Hl & _) Hp.
  assert (forall k, path_at (root_ x) (take k p) = m !! take k p) as HE.
  { intros k. apply Hl. by apply Forall_take. }
  unfold Lookup.
  destruct (lookup_from_spec p (root_ x) 0 (0%nat, None)) as [[-> Hno]|(n & d & Hn & -> & Hd & Hno)].
  - split; [done|]. intros k Hk. rewrite <- HE. by apply Hno.
  - simpl. rewrite <- HE. split_and!; [lia|lia|done|]. intros k Hk. rewrite <- HE. by apply Hno.
Qed.

(** [C10] [Lookup] is longest-prefix match: over an index that stands for the
    map [m], it returns a leaf stored under a non-empty prefix of the path such
    that no longer prefix has one, with that prefix's length; or no leaf and
    length 0 when no non-empty prefix has one. *)
Theorem Lookup_longest_prefix p x m :
  represents x m -> path_ok p ->
  match Lookup p x with
  | (n, Some d) =>
      (0 < n <= length p)%nat /\ m !! take n p = Some d /\
      forall k, (n < k <= length p)%nat -> m !! take k p = None
  | (n, None) => n = 0%nat /\ forall k, (0 < k <= length p)%nat -> m !! take k p = None
  end.
Proof. apply lookup_prefix_spec. Qed.

End Tree.
Arguments node : clear implicits.
Arguments Index : clear implicits.
Arguments op : clear implicits.

(** ** Witnesses *)

Definition leaf_a : LeafData := mkLeafData [x01] 0 0 0 0 0.
Definition leaf_b : LeafData := mkLeafData [x02] 0 0 0 0 0.
Definition hash_a : ChunkHash := replicate 8 x0a.
Definition hash_b : ChunkHash := x0a :: replicate 7 x0b.

Definition ops_ab : list (op LeafData) :=
  [OInsert [hash_a] leaf_a; OInsert [hash_a; hash_b] leaf_b; OInsert [hash_b] leaf_b; ORemove [hash_b]].

Lemma ops_ab_ok : Forall op_ok ops_ab.
Proof. repeat constructor; discriminate. Qed.

Lemma art_is_map_witness :
  (run run_op ops_ab empty_index).1 = (run spec_op ops_ab ∅).1 /\
  leaf_count_ (run run_op ops_ab empty_index).2 = Z.of_nat (size (run spec_op ops_ab ∅).2).
Proof.
  pose proof (art_is_map ops_ab ops_ab_ok) as H.
  destruct (run run_op ops_ab empty_index) as [r x], (run spec_op ops_ab ∅) as [r' m].
  destruct H as (H1 & H2 & _). split; [exact H1|exact H2].
Defined.

Lemma Lookup_longest_prefix_witness :
  (run spec_op ops_ab ∅).2 !! [hash_a; hash_b] = Some leaf_b.
Proof.
  pose proof (Lookup_longest_prefix [hash_a; hash_b; hash_b] (run run_op ops_ab empty_index).2
    (run spec_op ops_ab ∅).2 (proj2 (run_represents ops_ab _ _ represents_empty ops_ab_ok))
    ltac:(repeat constructor)) as H.
  assert (Lookup [hash_a; hash_b; hash_b] (run run_op ops_ab empty_index).2 = (2%nat, Some leaf_b)) as E
    by (vm_compute; reflexivity).
  rewrite E in H. exact (proj1 (proj2 H)).
Defined.

End Art.
