(* ===== verification/Lpm.v ===== *)
(** * Longest-prefix match over tokens

    prefix/lpm.cpp: a token sequence is cut into whole chunks of 16 tokens,
    each chunk is hashed to 8 bytes, and the hash path, optionally behind a
    namespace fingerprint, is looked up in the prefix index. BLAKE3 is a
    third-party library: it is a parameter, of which only the length of the
    digest is used. *)

From S2P Require Import Prelude ArtIndex.
From Stdlib Require Import ZArith Lia.

Open Scope Z_scope.

Module Lpm.

Import Art.

Definition kChunkTokens : nat := 16.

Section Hash.
Context {L : Type} (Blake3_128 : bytes -> bytes).

(** The little-endian words of a chunk. *)
Definition token_bytes (tokens : list Z) : bytes := concat (put_le 4 <$> tokens).

Definition chunk_hash (chunk : list Z) : ChunkHash := take 8 (Blake3_128 (token_bytes chunk)).

(** The loop over [whole] chunks. *)
Fixpoint chunks (whole : nat) (tokens : list Z) : list ChunkHash :=
  match whole with
  | O => []
  | S n => chunk_hash (take kChunkTokens tokens) :: chunks n (drop kChunkTokens tokens)
  end.

Definition Chunkify (tokens : list Z) : list ChunkHash :=
  chunks (length tokens / kChunkTokens) tokens.

Definition NamespaceFingerprint (tenant_hash model_hash : Z) : ChunkHash :=
  take 8 (Blake3_128 (put_le 8 tenant_hash ++ put_le 8 model_hash)).

Definition ChunkifyNS (tokens : list Z) (ns : ChunkHash) : list ChunkHash := ns :: Chunkify tokens.

Record LpmOutcome := mkOutcome { matched_tokens : Z; matched_chunks : Z; leaf : option L }.

Definition LongestPrefixMatch (art : Index L) (tokens : list Z) : LpmOutcome :=
  let path := Chunkify tokens in
  match path with
  | [] => mkOutcome 0 0 None
  | _ =>
      let '(n, l) := Lookup path art in
      mkOutcome (u32 (u32 (Z.of_nat n) * Z.of_nat kChunkTokens)) (u32 (Z.of_nat n)) l
  end.

Definition LongestPrefixMatchNS (art : Index L) (tokens : list Z) (tenant_hash model_hash : Z) : LpmOutcome :=
  let path := ChunkifyNS tokens (NamespaceFingerprint tenant_hash model_hash) in
  if (length path <? 2)%nat then mkOutcome 0 0 None
  else
    let '(n, l) := Lookup path art in
    if (n =? 0)%nat then mkOutcome 0 0 None
    else mkOutcome (u32 (u32 (Z.of_nat n - 1) * Z.of_nat kChunkTokens)) (u32 (Z.of_nat n - 1)) l.

(** ** Chunking *)

Lemma length_chunks w tokens : length (chunks w tokens) = w.
Proof. revert tokens. induction w; intros tokens; simpl; auto. Qed.

(** Chunk [i] is the hash of tokens [16 i .. 16 i + 15]; extending the tokens
    extends the path. *)
Lemma chunks_prefix w w' tokens ext :
  (w <= w')%nat -> (w * kChunkTokens <= length tokens)%nat ->
  take w (chunks w' (tokens ++ ext)) = chunks w tokens.
Proof.
  revert w' tokens. induction w as [|w IH]; intros w' tokens Hw Hl; [done|].
  destruct w' as [|w']; [lia|]. simpl in *. unfold kChunkTokens in *.
  rewrite take_app_le by lia. f_equal. rewrite drop_app_le by lia. apply IH; [lia|].
  rewrite length_drop. lia.
Qed.

Lemma Chunkify_prefix tokens ext :
  take (length (Chunkify tokens)) (Chunkify (tokens ++ ext)) = Chunkify tokens.
Proof.
  unfold Chunkify. rewrite length_chunks. apply chunks_prefix.
  - apply Nat.Div0.div_le_mono. rewrite length_app. lia.
  - pose proof (Nat.Div0.mul_div_le (length tokens) kChunkTokens). lia.
Qed.

(** The documented digest size. *)
Hypothesis Blake3_128_length : forall b, length (Blake3_128 b) = 16%nat.

Lemma Chunkify_ok tokens : path_ok (Chunkify tokens).
Proof.
  unfold Chunkify. generalize (length tokens / kChunkTokens)%nat. intros w. revert tokens.
  induction w as [|w IH]; intros tokens; constructor; [|apply IH].
  unfold hash_ok, chunk_hash. rewrite length_take, Blake3_128_length. done.
Qed.

Lemma Chunkify_length_bound tokens : zlen tokens < 2 ^ 32 -> 16 * zlen (Chunkify tokens) < 2 ^ 32.
Proof.
  intros H. unfold Chunkify. rewrite length_chunks.
  pose proof (Nat.Div0.mul_div_le (length tokens) kChunkTokens). unfold kChunkTokens in *. lia.
Qed.

(** What was stored for a token prefix is found for every extension, and
    only within the namespace. If the leaf [d] is stored under the namespace
    of (tenant, model) for the whole chunks of [tokens], then a namespaced
    lookup of [tokens] followed by any tokens finds a leaf of that namespace
    stored under a prefix of the request's own chunks that is at least as long;
    the reported counts are that prefix's chunks and tokens. *)
Theorem lookup_extends art m tokens ext tenant_hash model_hash d :
  represents art m -> zlen (tokens ++ ext) < 2 ^ 32 ->
  let ns := NamespaceFingerprint tenant_hash model_hash in
  let stored := Chunkify tokens in
  stored <> [] -> m !! (ns :: stored) = Some d ->
  let r := LongestPrefixMatchNS art (tokens ++ ext) tenant_hash model_hash in
  exists d', leaf r = Some d' /\ zlen stored <= matched_chunks r <= zlen (Chunkify (tokens ++ ext)) /\
    matched_tokens r = 16 * matched_chunks r /\
    m !! (ns :: take (Z.to_nat (matched_chunks r)) (Chunkify (tokens ++ ext))) = Some d'.
Proof.
  intros Hr Hlen ns stored Hne Hm r.
  pose proof (Chunkify_prefix tokens ext) as Hpre. fold stored in Hpre.
  set (path := Chunkify (tokens ++ ext)) in *.
  assert (path_ok (ns :: path)) as Hp.
  { constructor; [|apply Chunkify_ok]. unfold hash_ok, ns, NamespaceFingerprint.
    by rewrite length_take, Blake3_128_length. }
  pose proof (Chunkify_length_bound (tokens ++ ext) Hlen) as Hb. fold path in Hb.
  assert (length stored <= length path)%nat as Hle.
  { rewrite <- Hpre, length_take. lia. }
  assert (0 < length stored)%nat as Hs by (destruct stored; [done|simpl; lia]).
  assert (take (S (length stored)) (ns :: path) = ns :: stored) as Hst by (simpl; by rewrite Hpre).
  unfold r, LongestPrefixMatchNS, ChunkifyNS. fold ns path.
  rewrite (proj2 (Nat.ltb_ge _ _)) by (simpl; lia).
  pose proof (lookup_prefix_spec (ns :: path) art m Hr Hp) as HL.
  destruct (Lookup (ns :: path) art) as [n [d'|]].
  - destruct HL as (Hn & Hd & Hno). simpl length in Hn.
    assert (S (length stored) <= n)%nat as Hsn.
    { destruct (decide (S (length stored) <= n)%nat); [done|].
      specialize (Hno (S (length stored)) ltac:(simpl; lia)). rewrite Hst in Hno. congruence. }
    rewrite (proj2 (Nat.eqb_neq _ _)) by lia. exists d'. cbn [leaf matched_chunks matched_tokens].
    unfold kChunkTokens. rewrite !u32_small by (rewrite ?u32_small; lia).
    split_and!; [done|lia|fold path; lia|lia|]. replace (Z.to_nat (Z.of_nat n - 1)) with (n - 1)%nat by lia.
    destruct n as [|n]; [lia|]. simpl in Hd. by rewrite Nat.sub_1_r.
  - destruct HL as [_ Hno]. specialize (Hno (S (length stored)) ltac:(simpl; lia)).
    rewrite Hst in Hno. congruence.
Qed.

End Hash.

(** A 16-byte digest to run the definitions with. *)
Definition pad16 (b : bytes) : bytes := take 16 (b ++ replicate 16 x00).

Lemma pad16_length b : length (pad16 b) = 16%nat.
Proof. unfold pad16. rewrite length_take, length_app, length_replicate. lia. Qed.

Definition tokens16 : list Z := replicate 16 7.
Definition stored_path : list ChunkHash := NamespaceFingerprint pad16 1 2 :: Chunkify pad16 tokens16.

Lemma stored_path_ok : Forall op_ok [OInsert stored_path leaf_a].
Proof. repeat constructor. discriminate. Qed.

Lemma lookup_extends_witness :
  exists d', leaf (LongestPrefixMatchNS pad16 (run run_op [OInsert stored_path leaf_a] empty_index).2
    (tokens16 ++ tokens16) 1 2) = Some d'.
Proof.
  destruct (lookup_extends pad16 pad16_length (run run_op [OInsert stored_path leaf_a] empty_index).2
    (run spec_op [OInsert stored_path leaf_a] ∅).2 tokens16 tokens16 1 2 leaf_a) as (d' & H & _).
  - exact (proj2 (run_represents _ _ _ represents_empty stored_path_ok)).
  - vm_compute. reflexivity.
  - vm_compute. discriminate.
  - exact (lookup_insert_eq ∅ stored_path leaf_a).
  - exists d'. exact H.
Defined.

End Lpm.
