(* ===== verification/ArtWal.v ===== *)
(** * The prefix index's write-ahead log

    [ArtWal] of prefix/art_wal.cpp: every [Insert] and [Remove] is logged
    before the index changes; [Open] restores the latest snapshot and replays
    the log over it; [Checkpoint] writes a snapshot and empties the log. [Open]
    takes the index that the snapshot yields, which ArtSnapshot.v models. The theorems: replay gives back the
    logged operations, a crash inside [Checkpoint] is harmless, and a path of
    256 or more chunks destroys the log behind it. *)

From S2P Require Import Prelude Crc32 ArtIndex.
From Stdlib Require Import ZArith Lia.

Open Scope Z_scope.

Module ArtWal.

Import Art.
Notation Index := (Art.Index LeafData).
Notation op := (Art.op LeafData).

Definition kOpInsert : Z := 1.
Definition kOpRemove : Z := 2.
Definition kLeafPayloadBytes : nat := 96.

Definition PutU32 (v : Z) : bytes := put_le 4 v.
Definition PutU64 (v : Z) : bytes := put_le 8 v.

Definition EncodeLeaf (d : LeafData) : bytes :=
  locator d ++ PutU32 (tier_residency_bitmap d) ++ PutU32 (refcount d) ++
  PutU64 (sealed_at_nanos d) ++ PutU64 (last_access_nanos d) ++ PutU64 (bytes_total d).

(** The bytes the checksum covers; [path_len] is one byte. *)
Definition record_body (o : op) : bytes :=
  match o with
  | OInsert p d => [byte_of kOpInsert; byte_of (zlen p)] ++ concat p ++ EncodeLeaf d
  | ORemove p => [byte_of kOpRemove; byte_of (zlen p)] ++ concat p
  end.

Definition op_path (o : op) : list ChunkHash := match o with OInsert p _ | ORemove p => p end.
Definition is_insert (o : op) : bool := match o with OInsert _ _ => true | ORemove _ => false end.

Definition EncodeRecord (o : op) : bytes :=
  let body_no_crc := 1 + 1 + 8 * zlen (op_path o) +
                     (if is_insert o then Z.of_nat kLeafPayloadBytes else 0) in
  PutU32 (4 + body_no_crc + 4) ++ record_body o ++ PutU32 (Crc.crc32_table (record_body o)).

Definition ParseLeafBytes (p : bytes) : LeafData :=
  let p1 := drop 64 p in
  mkLeafData (take 64 p) (get_u32 p1) (get_u32 (drop 4 p1))
    (get_le (take 8 (drop 8 p1))) (get_le (take 8 (drop 16 p1))) (get_le (take 8 (drop 24 p1))).

(** [path_len] hashes of eight bytes. *)
Fixpoint read_path (n : nat) (p : bytes) : list ChunkHash :=
  match n with
  | O => []
  | S n => take 8 p :: read_path n (drop 8 p)
  end.

(** [DecodeRecord(cursor, end, out)]: the operation and the bytes after it. *)
Definition DecodeRecord (buf : bytes) : option (op * bytes) :=
  if zlen buf <? 4 then None
  else
    let total := get_u32 buf in
    if (total <? 4 + 1 + 1 + 4) || (zlen buf <? total) then None
    else
      let body_len := Z.to_nat (total - 4 - 4) in
      let body := take body_len (drop 4 buf) in
      let got_crc := get_u32 (drop (4 + body_len) buf) in
      if negb (got_crc =? Crc.crc32_table body) then None
      else
        let opc := byte_val (nth 0 body x00) in
        let path_len := byte_val (nth 1 body x00) in
        if negb ((opc =? kOpInsert) || (opc =? kOpRemove)) then None
        else if path_len =? 0 then None
        else
          let needed := 2 + 8 * path_len + (if opc =? kOpInsert then Z.of_nat kLeafPayloadBytes else 0) in
          if negb (Z.of_nat body_len =? needed) then None
          else
            let p := drop 2 body in
            let path := read_path (Z.to_nat path_len) p in
            Some (if opc =? kOpInsert
                  then OInsert path (ParseLeafBytes (drop (8 * Z.to_nat path_len) p))
                  else ORemove path,
                  drop (Z.to_nat total) buf).

(** The index, the log file when [wal_path] is set, and the counters. *)
Record Wal := mkWal {
  art_ : Index; wal_ : option bytes; records_replayed_ : nat; wal_records_ : nat;
  fsync_each_write : bool }.

(** The replay loop: a record is at least ten bytes, so the bytes bound the
    rounds. Returns the index, the records replayed and the bytes left. *)
Fixpoint replay_loop (fuel : nat) (buf : bytes) (x : Index) (n : nat) : Index * nat * bytes :=
  match buf with
  | [] => (x, n, [])
  | _ =>
      match fuel with
      | O => (x, n, buf)
      | S fuel =>
          match DecodeRecord buf with
          | None => (x, n, buf)
          | Some (o, rest) => replay_loop fuel rest (run_op o x).2 (S n)
          end
      end
  end.

(** The outcomes of [truncate], whose result is ignored, and of the final
    [open]. *)
Record open_io := mkOpenIo { o_truncate : bool; o_append : bool }.

(** [ArtWal::Open]: [snapshot] is the index [ArtSnapshot::Read] restored, if
    any; [wal] the log's bytes, empty when the file is absent, or [None] when
    no path is configured. *)
Definition Open (io : open_io) (fsync : bool) (snapshot : option Index) (wal : option bytes) :
    option Wal :=
  let x := default empty_index snapshot in
  match wal with
  | None => Some (mkWal x None 0 0 fsync)
  | Some buf =>
      let '(x', n, rest) := replay_loop (length buf) buf x 0 in
      let good := (length buf - length rest)%nat in
      if o_append io
      then Some (mkWal x' (Some (if (good <? length buf)%nat && o_truncate io then take good buf else buf))
                       n n fsync)
      else None
  end.

(** What [write] and [fdatasync] do: [None] is an error that wrote nothing. *)
Record append_io := mkIo { a_write : option nat; a_fsync : bool }.

(** [AppendInsertLocked] and [AppendRemoveLocked] with the fd open. *)
Definition append (io : append_io) (o : op) (w : Wal) (disk : bytes) : bool * Wal :=
  let rec := EncodeRecord o in
  match a_write io with
  | None => (false, w)
  | Some n =>
      let w1 := mkWal (art_ w) (Some (disk ++ take n rec)) (records_replayed_ w) (wal_records_ w)
                      (fsync_each_write w) in
      if (n <? length rec)%nat then (false, w1)
      else if fsync_each_write w && negb (a_fsync io) then (false, w1)
      else (true, mkWal (art_ w1) (wal_ w1) (records_replayed_ w1) (S (wal_records_ w1))
                        (fsync_each_write w1))
  end.

Definition set_art (x : Index) (w : Wal) : Wal :=
  mkWal x (wal_ w) (records_replayed_ w) (wal_records_ w) (fsync_each_write w).

Definition Insert (io : append_io) (p : list ChunkHash) (d : LeafData) (w : Wal) : InsertResult * Wal :=
  let '(ok, w1) := match wal_ w with None => (true, w) | Some disk => append io (OInsert p d) w disk end in
  if ok then let '(r, x) := Art.Insert p d (art_ w1) in (r, set_art x w1) else (kPathConflict, w1).

Definition Remove (io : append_io) (p : list ChunkHash) (w : Wal) : bool * Wal :=
  let '(ok, w1) := match wal_ w with None => (true, w) | Some disk => append io (ORemove p) w disk end in
  if ok then let '(r, x) := Art.Remove p (art_ w1) in (r, set_art x w1) else (false, w1).

(** [Checkpoint]: the snapshot on disk afterwards, if it was written. *)
Record checkpoint_io := mkCkpt { k_snapshot : bool; k_ftruncate : bool; k_lseek : bool }.

Definition Checkpoint (io : checkpoint_io) (w : Wal) : bool * option Index * Wal :=
  if negb (k_snapshot io) then (false, None, w)
  else
    match wal_ w with
    | None => (true, Some (art_ w), w)
    | Some _ =>
        if negb (k_ftruncate io) then (false, Some (art_ w), w)
        else
          let w1 := mkWal (art_ w) (Some []) (records_replayed_ w) (wal_records_ w) (fsync_each_write w) in
          if negb (k_lseek io) then (false, Some (art_ w), w1)
          else (true, Some (art_ w),
                mkWal (art_ w) (Some []) (records_replayed_ w) 0 (fsync_each_write w))
    end.

Definition wal_record_count (w : Wal) : nat := wal_records_ w.

(** ** The record codec *)

Definition leaf_ok (d : LeafData) : Prop :=
  length (locator d) = 64%nat /\ 0 <= tier_residency_bitmap d < 2 ^ 32 /\
  0 <= refcount d < 2 ^ 32 /\ 0 <= sealed_at_nanos d < 2 ^ 64 /\
  0 <= last_access_nanos d < 2 ^ 64 /\ 0 <= bytes_total d < 2 ^ 64.

(** An operation whose values have their C++ widths and whose path is not
    empty. *)
Definition typed (o : op) : Prop :=
  path_ok (op_path o) /\ op_path o <> [] /\ zlen (op_path o) < 2 ^ 28 /\
  match o with OInsert _ d => leaf_ok d | ORemove _ => True end.

(** The path length fits its byte. *)
Definition short (o : op) : Prop := zlen (op_path o) < 256.

Lemma length_concat_path p : path_ok p -> length (concat p) = (8 * length p)%nat.
Proof.
  induction 1 as [|h p Hh _ IH]; [done|]. simpl. rewrite length_app, IH. unfold hash_ok in Hh. lia.
Qed.

Lemma read_path_concat p r : path_ok p -> read_path (length p) (concat p ++ r) = p.
Proof.
  induction 1 as [|h p Hh _ IH]; [done|]. simpl. unfold hash_ok in Hh. rewrite <- app_assoc.
  rewrite <- Hh, take_app_length, drop_app_length. by rewrite IH.
Qed.

Lemma length_EncodeLeaf d : leaf_ok d -> length (EncodeLeaf d) = kLeafPayloadBytes.
Proof.
  intros (H & _). unfold EncodeLeaf, PutU32, PutU64. rewrite !length_app, !length_put_le, H. done.
Qed.

Lemma get_u64_put v r : 0 <= v < 2 ^ 64 -> get_le (take 8 (put_le 8 v ++ r)) = v.
Proof.
  intros H. rewrite take_put_le_app, get_put_le. change (256 ^ Z.of_nat 8) with (2 ^ 64).
  by apply Z.mod_small.
Qed.

Lemma ParseLeaf_Encode d r : leaf_ok d -> ParseLeafBytes (EncodeLeaf d ++ r) = d.
Proof.
  intros (Hl & H1 & H2 & H3 & H4 & H5). unfold ParseLeafBytes, EncodeLeaf.
  rewrite <- !app_assoc, <- Hl, take_app_length, drop_app_length. unfold PutU32, PutU64.
  rewrite get_u32_put by done. rewrite drop_put_le_app, get_u32_put by done.
  rewrite (drop_app_ge_nat 8), length_put_le by (rewrite length_put_le; lia). simpl (8 - 4)%nat.
  rewrite drop_put_le_app, get_u64_put by done.
  rewrite (drop_app_ge_nat 16), length_put_le by (rewrite length_put_le; lia). simpl (16 - 4)%nat.
  rewrite (drop_app_ge_nat 12), length_put_le by (rewrite length_put_le; lia). simpl (12 - 4)%nat.
  rewrite drop_put_le_app, get_u64_put by done.
  rewrite (drop_app_ge_nat 24), length_put_le by (rewrite length_put_le; lia). simpl (24 - 4)%nat.
  rewrite (drop_app_ge_nat 20), length_put_le by (rewrite length_put_le; lia). simpl (20 - 4)%nat.
  rewrite (drop_app_ge_nat 16), length_put_le by (rewrite length_put_le; lia). simpl (16 - 8)%nat.
  rewrite drop_put_le_app, get_u64_put by done. by destruct d.
Qed.

Lemma length_record_body o :
  typed o ->
  zlen (record_body o) = 2 + 8 * zlen (op_path o) +
                         (if is_insert o then Z.of_nat kLeafPayloadBytes else 0).
Proof.
  intros (Hp & _ & _ & Hd). destruct o as [p d|p]; cbn [op_path is_insert record_body] in *;
    rewrite !length_app, length_concat_path by done.
  - rewrite length_EncodeLeaf by done. cbn [length]. lia.
  - cbn [length]. lia.
Qed.

Lemma art_length_EncodeRecord o : typed o -> zlen (EncodeRecord o) = 8 + zlen (record_body o).
Proof. intros Ho. unfold EncodeRecord, PutU32. len_simpl. lia. Qed.

Lemma record_total o r : typed o -> get_u32 (EncodeRecord o ++ r) = zlen (EncodeRecord o).
Proof.
  intros Ho. rewrite art_length_EncodeRecord, length_record_body by done.
  destruct Ho as (_ & _ & Hn & _). unfold EncodeRecord, PutU32. rewrite <- app_assoc.
  unfold kLeafPayloadBytes. rewrite get_u32_put by (destruct (is_insert o); lia). lia.
Qed.

(** The frame of a record: length, body and checksum are those written. *)
Lemma DecodeRecord_frame o r :
  typed o ->
  DecodeRecord (EncodeRecord o ++ r) =
  let body := record_body o in
  let opc := byte_val (nth 0 body x00) in
  let path_len := byte_val (nth 1 body x00) in
  if negb ((opc =? kOpInsert) || (opc =? kOpRemove)) then None
  else if path_len =? 0 then None
  else if negb (zlen body =? 2 + 8 * path_len + (if opc =? kOpInsert then Z.of_nat kLeafPayloadBytes else 0))
  then None
  else Some (if opc =? kOpInsert
             then OInsert (read_path (Z.to_nat path_len) (drop 2 body))
                    (ParseLeafBytes (drop (8 * Z.to_nat path_len) (drop 2 body)))
             else ORemove (read_path (Z.to_nat path_len) (drop 2 body)), r).
Proof.
  intros Ho. pose proof (art_length_EncodeRecord o Ho) as HL. pose proof (length_record_body o Ho) as HB.
  assert (2 <= zlen (record_body o)) as H2 by (destruct (is_insert o); lia).
  unfold DecodeRecord. rewrite record_total by done.
  rewrite (proj2 (Z.ltb_ge _ 4)) by (len_simpl; lia).
  rewrite (proj2 (Z.ltb_ge _ (4 + 1 + 1 + 4))) by lia.
  rewrite (proj2 (Z.ltb_ge (zlen (EncodeRecord o ++ r)) _)) by (len_simpl; lia). cbn [orb].
  replace (Z.to_nat (zlen (EncodeRecord o) - 4 - 4)) with (length (record_body o)) by lia.
  assert (take (length (record_body o)) (drop 4 (EncodeRecord o ++ r)) = record_body o) as ->.
  { unfold EncodeRecord, PutU32. rewrite <- !app_assoc, drop_put_le_app. apply take_app_length. }
  assert (get_u32 (drop (4 + length (record_body o)) (EncodeRecord o ++ r)) =
          Crc.crc32_table (record_body o)) as ->.
  { unfold EncodeRecord, PutU32. rewrite <- !app_assoc, <- drop_drop, drop_put_le_app, drop_app_length.
    apply get_u32_put, Crc.crc32_table_bound. }
  rewrite Z.eqb_refl, Nat2Z.id, drop_app_length. cbn [negb]. done.
Qed.

Lemma decode_encode o r :
  typed o -> short o -> DecodeRecord (EncodeRecord o ++ r) = Some (o, r).
Proof.
  intros Ho Hs. rewrite DecodeRecord_frame by done. pose proof (length_record_body o Ho) as HB.
  destruct Ho as (Hp & Hne & _ & Hd). unfold short in Hs.
  assert (byte_val (byte_of (zlen (op_path o))) = zlen (op_path o)) as Hl.
  { rewrite byte_val_of. apply Z.mod_small. lia. }
  assert (0 < zlen (op_path o)) by (destruct (op_path o); simpl; [done|lia]).
  destruct o as [p d|p]; cbn [op_path is_insert] in *; cbv zeta; rewrite HB; unfold record_body;
    cbn [nth app drop]; rewrite Hl, (proj2 (Z.eqb_neq _ 0)) by lia;
    change (byte_val (byte_of kOpInsert) =? kOpInsert) with true;
    change (byte_val (byte_of kOpRemove) =? kOpInsert) with false;
    change (byte_val (byte_of kOpRemove) =? kOpRemove) with true; cbn [orb negb];
    rewrite Z.eqb_refl, Nat2Z.id; cbn [negb]; rewrite ?drop_0.
  - rewrite read_path_concat by done. rewrite <- length_concat_path, drop_app_length by done.
    rewrite <- (app_nil_r (EncodeLeaf d)). by rewrite ParseLeaf_Encode.
  - rewrite <- (app_nil_r (concat p)). by rewrite read_path_concat.
Qed.

(** A path of 256 chunks or more is written with a length byte that does not
    match it. *)
Lemma decode_long o r : typed o -> ~ short o -> DecodeRecord (EncodeRecord o ++ r) = None.
Proof.
  intros Ho Hs. rewrite DecodeRecord_frame by done. pose proof (length_record_body o Ho) as HB.
  unfold short in Hs.
  assert (byte_val (byte_of (zlen (op_path o))) < zlen (op_path o)) as Hl.
  { rewrite byte_val_of. pose proof (Z.mod_pos_bound (zlen (op_path o)) 256). lia. }
  destruct o as [p d|p]; cbn [op_path is_insert] in *; cbv zeta; rewrite HB; unfold record_body;
    cbn [nth app]; change (byte_val (byte_of kOpInsert) =? kOpInsert) with true;
    change (byte_val (byte_of kOpRemove) =? kOpInsert) with false;
    change (byte_val (byte_of kOpRemove) =? kOpRemove) with true; cbn [orb negb];
    destruct (_ =? 0); try done; rewrite (proj2 (Z.eqb_neq _ _)) by lia; done.
Qed.

(** ** Replay *)

Definition log_of (ops : list op) : bytes := concat (EncodeRecord <$> ops).
Definition logged (o : op) : Prop := typed o /\ short o.

Lemma EncodeRecord_nonempty o r : exists b t, EncodeRecord o ++ r = b :: t.
Proof. unfold EncodeRecord, PutU32. rewrite put_le_S. simpl. eauto. Qed.

Lemma DecodeRecord_consumes buf o rest :
  DecodeRecord buf = Some (o, rest) -> (length rest < length buf)%nat.
Proof.
  unfold DecodeRecord. destruct (zlen buf <? 4) eqn:E0; [done|].
  destruct (_ || _) eqn:E; [done|]. apply orb_false_iff in E as [E1 E2]. reflect_bools.
  repeat break_match; try done; intros [= _ <-]; rewrite length_drop; lia.
Qed.

Lemma art_replay_fuel fuel fuel' buf x n :
  (length buf <= fuel)%nat -> (length buf <= fuel')%nat ->
  replay_loop fuel buf x n = replay_loop fuel' buf x n.
Proof.
  revert fuel' buf x n. induction fuel as [|fuel IH]; intros fuel' buf x n H H'.
  - destruct buf; [|simpl in H; lia]. by destruct fuel'.
  - destruct fuel' as [|fuel']; [by destruct buf; [|simpl in H'; lia]|].
    simpl. destruct buf as [|b t]; [done|].
    destruct (DecodeRecord (b :: t)) as [[o rest]|] eqn:E; [|done].
    apply DecodeRecord_consumes in E. apply IH; lia.
Qed.

Definition replay (buf : bytes) (x : Index) (n : nat) : Index * nat * bytes :=
  replay_loop (length buf) buf x n.

Lemma art_replay_record o r x n :
  logged o -> replay (EncodeRecord o ++ r) x n = replay r (run_op o x).2 (S n).
Proof.
  intros [Ht Hs]. unfold replay. pose proof (decode_encode o r Ht Hs) as HD.
  pose proof (DecodeRecord_consumes _ _ _ HD) as HC.
  destruct (EncodeRecord_nonempty o r) as (b & t & E). rewrite E in *. simpl length. cbn [replay_loop].
  rewrite HD. apply art_replay_fuel; simpl in HC; lia.
Qed.

Lemma art_replay_log ops tail x n :
  Forall logged ops ->
  replay (log_of ops ++ tail) x n = replay tail (run run_op ops x).2 (length ops + n)%nat.
Proof.
  intros Ho. revert x n. induction Ho as [|o ops Hl _ IH]; intros x n; [done|].
  unfold log_of. cbn [fmap list_fmap concat]. rewrite <- app_assoc, art_replay_record by done.
  fold (log_of ops). rewrite IH. f_equal; [|simpl; lia].
  simpl. destruct (run_op o x) as [b x']. simpl. by destruct (run run_op ops x').
Qed.

(** Bytes that hold no complete record. *)
Definition art_dead (tail : bytes) : Prop := forall x n, replay tail x n = (x, n, tail).

Lemma art_dead_decode tail : DecodeRecord tail = None -> art_dead tail.
Proof.
  intros H x n. unfold replay. destruct tail as [|b t]; [done|]. simpl length. cbn [replay_loop].
  by rewrite H.
Qed.


Lemma Open_replay io fsync s0 ops tail :
  Forall logged ops -> art_dead tail -> o_append io = true -> o_truncate io = true ->
  Open io fsync s0 (Some (log_of ops ++ tail)) =
  Some (mkWal (run run_op ops (default empty_index s0)).2 (Some (log_of ops))
              (length ops) (length ops) fsync).
Proof.
  intros Ho Hd Ha Ht. unfold Open. fold (replay (log_of ops ++ tail) (default empty_index s0) 0).
  rewrite art_replay_log, Hd, Ha, Ht by done. rewrite Nat.add_0_r, andb_true_r, length_app.
  replace (length (log_of ops) + length tail - length tail)%nat with (length (log_of ops)) by lia.
  destruct (Nat.ltb_spec (length (log_of ops)) (length (log_of ops) + length tail)) as [|Hge].
  - by rewrite take_app_length.
  - destruct tail; [by rewrite app_nil_r|simpl in Hge; lia].
Qed.

Definition good_open : open_io := mkOpenIo true true.


Definition leaf_c : LeafData := mkLeafData (replicate 64 x01) 1 2 3 4 5.

Lemma leaf_c_ok : leaf_ok leaf_c.
Proof. unfold leaf_ok. simpl. lia. Qed.

Definition ops_c : list op := [OInsert [hash_a] leaf_c; ORemove [hash_b]].

Lemma ops_c_logged : Forall logged ops_c.
Proof.
  repeat constructor; try discriminate; exact (proj1 leaf_c_ok) || (unfold leaf_c; simpl; lia).
Qed.


(** ** Checkpoints *)

(** The last effect of a list of operations on a path. *)
Definition effect (ops : list op) (q : list ChunkHash) : option (option LeafData) :=
  fold_left (fun acc o => if bool_decide (op_path o = q)
                          then Some (match o with OInsert _ d => Some d | ORemove _ => None end)
                          else acc) ops None.

Lemma effect_acc ops q acc :
  fold_left (fun acc o => if bool_decide (op_path o = q)
                          then Some (match o with OInsert _ d => Some d | ORemove _ => None end)
                          else acc) ops acc =
  match effect ops q with Some r => Some r | None => acc end.
Proof.
  unfold effect. revert acc. induction ops as [|o ops IH]; intros acc; [done|]. cbn [fold_left].
  rewrite IH. symmetry. rewrite IH. destruct (fold_left _ ops None); [done|].
  by destruct (bool_decide (op_path o = q)).
Qed.

Lemma spec_lookup ops m q :
  (run spec_op ops m).2 !! q = match effect ops q with Some r => r | None => m !! q end.
Proof.
  revert m. induction ops as [|o ops IH]; intros m; [done|]. unfold effect. cbn [fold_left run].
  rewrite effect_acc. destruct (spec_op o m) as [b m'] eqn:E.
  specialize (IH m'). destruct (run spec_op ops m') as [bs m'']. simpl in *. rewrite IH.
  destruct (effect ops q); [done|].
  destruct o as [p d|p]; simpl in E; injection E as _ <-; simpl; case_bool_decide as Hq.
  - subst. by rewrite lookup_insert, decide_True.
  - by rewrite lookup_insert_ne.
  - subst. by rewrite lookup_delete, decide_True.
  - by rewrite lookup_delete_ne.
Qed.

Lemma replay_idempotent (ops : list op) m :
  (run spec_op ops (run spec_op ops m).2).2 = (run spec_op ops m).2.
Proof. apply map_eq. intros q. rewrite !spec_lookup. by destruct (effect ops q). Qed.

Lemma logged_op_ok (o : op) : logged o -> op_ok o.
Proof. intros [(Hp & Hne & _) _]. by destruct o. Qed.

(** A crash inside [Checkpoint] is harmless. If the snapshot was written
    but the log was not emptied, the next [Open] replays the whole log over
    the index it already produced, and the result stands for the same map. *)
Theorem checkpoint_crash_converges fsync s0 m0 ops w kio :
  represents s0 m0 -> Forall logged ops ->
  wal_ w = Some (log_of ops) -> art_ w = (run run_op ops s0).2 ->
  k_snapshot kio = true -> k_ftruncate kio = false ->
  exists x w', Checkpoint kio w = (false, Some x, w) /\
    Open good_open fsync (Some x) (wal_ w) = Some w' /\
    represents (art_ w) (run spec_op ops m0).2 /\ represents (art_ w') (run spec_op ops m0).2.
Proof.
  intros Hs Ho Hw Ha Hk Hf. exists (art_ w).
  assert (Forall op_ok ops) as Hok by (eapply Forall_impl; [exact Ho|apply logged_op_ok]).
  eexists. rewrite Hw. split_and!.
  - unfold Checkpoint. by rewrite Hk, Hw, Hf.
  - rewrite <- (app_nil_r (log_of ops)). apply Open_replay; [done| |done|done]. by apply art_dead_decode.
  - rewrite Ha. by apply run_represents.
  - cbn [art_ default]. rewrite Ha, <- (replay_idempotent ops m0).
    apply run_represents; [|done]. by apply run_represents.
Qed.

Definition wal_c : Wal := mkWal (run run_op ops_c empty_index).2 (Some (log_of ops_c)) 0 2 true.

Lemma checkpoint_crash_converges_witness :
  exists x w', Checkpoint (mkCkpt true false true) wal_c = (false, Some x, wal_c) /\
    Open good_open true (Some x) (wal_ wal_c) = Some w'.
Proof.
  destruct (checkpoint_crash_converges true empty_index ∅ ops_c wal_c (mkCkpt true false true))
    as (x & w' & H1 & H2 & _).
  - exact represents_empty.
  - exact ops_c_logged.
  - reflexivity.
  - reflexivity.
  - reflexivity.
  - reflexivity.
  - exists x, w'. split; [exact H1|exact H2].
Defined.

(** A long path destroys the log behind it. [Insert] of a path of 256
    chunks or more (4096 tokens) writes a record whose one-byte path length
    does not match, updates the index and reports success; the next [Open]
    stops at that record and truncates the log there, so it and everything
    logged after it are lost. *)
Theorem long_path_loses_log fsync s0 ops p d ops' w n :
  Forall logged ops -> typed (OInsert p d) -> 256 <= zlen p ->
  wal_ w = Some (log_of ops) -> (length (EncodeRecord (OInsert p d)) <= n)%nat ->
  let '(r, w') := Insert (mkIo (Some n) true) p d w in
  r = (Art.Insert p d (art_ w)).1 /\ LookupByPath p (art_ w') = Some d /\
  exists disk, wal_ w' = Some disk /\
    Open good_open fsync s0 (Some (disk ++ log_of ops')) =
    Some (mkWal (run run_op ops (default empty_index s0)).2 (Some (log_of ops))
                (length ops) (length ops) fsync).
Proof.
  intros Ho Ht Hl Hw Hn. unfold Insert, append. rewrite Hw. cbn [a_write a_fsync negb].
  rewrite (proj2 (Nat.ltb_ge _ _)), andb_false_r by done.
  pose proof (insert_at_spec p d (root_ (art_ w)) (proj1 (proj2 Ht)) (proj1 Ht)) as (HI & _).
  pose proof (proj1 Ht) as Hp. cbn [op_path] in Hp. cbn [art_]. unfold Art.Insert.
  destruct (insert_at (root_ (art_ w)) p d) as [[r0 res] c] eqn:EI. cbn [fst snd set_art art_ wal_].
  split; [done|]. split.
  - unfold LookupByPath. cbn [root_]. specialize (HI p Hp). cbn [fst] in HI. by rewrite decide_True in HI.
  - eexists. split; [done|]. rewrite take_ge by done. rewrite <- app_assoc.
    apply Open_replay; [done| |done|done]. apply art_dead_decode, decode_long; [done|].
    unfold short. cbn [op_path]. lia.
Qed.

Definition long_path : list ChunkHash := replicate 256 hash_a.
Definition wal_0 : Wal := mkWal empty_index (Some []) 0 0 true.

Lemma long_path_loses_log_witness :
  exists disk, wal_ (Insert (mkIo (Some (Z.to_nat 3000)) true) long_path leaf_c wal_0).2 = Some disk /\
    Open good_open true None (Some (disk ++ log_of ops_c)) =
    Some (mkWal empty_index (Some []) 0 0 true).
Proof.
  pose proof (long_path_loses_log true None [] long_path leaf_c ops_c wal_0 (Z.to_nat 3000)
    (Forall_nil_2 _)) as H.
  destruct (Insert (mkIo (Some (Z.to_nat 3000)) true) long_path leaf_c wal_0) as [r w'].
  destruct H as (_ & _ & H).
  - split; [apply Forall_replicate; reflexivity|]. split; [discriminate|].
    split; [vm_compute; reflexivity|exact leaf_c_ok].
  - vm_compute. discriminate.
  - reflexivity.
  - apply Nat.leb_le. vm_compute. reflexivity.
  - exact H.
Defined.

End ArtWal.
