(* ===== verification/DramTier.v ===== *)
(** * The DRAM tier

    [DramTier] of tier/dram_tier.cpp, a 2Q cache: new entries enter the FIFO
    queue A1in; what leaves A1in is remembered, keys only, in the ghost queue
    A1out; an entry inserted again while its key is a ghost enters the LRU queue
    Am. Entries whose state kind has a policy that forbids it are never evicted.
    Every public call holds the tier's mutex, so each is one step. Byte counts
    are unbounded integers: they are sums of sizes of buffers in memory, and the
    invariant shows that no subtraction goes below zero.

    The theorems: counters, index and ghost list stay exact over any sequence of
    calls; the keys reported to the eviction callback are exactly those that
    left; the capacity is respected whenever something evictable is left. *)

From S2P Require Import Prelude.
From Stdlib Require Import ZArith Lia.

Open Scope Z_scope.

Module Dram.

(** ** Eviction policies (core/common/value_policy*.h) *)

Inductive EvictDecision := kEvictable | kNotEvictable.
Inductive ValuePolicy :=
| ValuePolicyKv | ValuePolicyToolResult | ValuePolicyPersistentStub | ValuePolicyPersistentWal.

Definition shouldEvict (p : ValuePolicy) : EvictDecision :=
  match p with
  | ValuePolicyKv | ValuePolicyToolResult | ValuePolicyPersistentWal => kEvictable
  | ValuePolicyPersistentStub => kNotEvictable
  end.

Definition SK_MAX : Z := 18.

(** [ValuePolicyRegistry]: a policy per state kind. *)
Definition Registry := gmap Z ValuePolicy.
Definition registerPolicy (state_kind : Z) (p : ValuePolicy) (r : Registry) : Registry :=
  <[state_kind := p]> r.
Definition has (state_kind : Z) (r : Registry) : bool :=
  (state_kind <? SK_MAX) && bool_decide (is_Some (r !! state_kind)).

(** ** State *)

Inductive Queue := A1in | Am.
#[global] Instance queue_eq_decision : EqDecision Queue.
Proof. solve_decision. Defined.

Record Entry := mkEntry { key : bytes; q : Queue; data : bytes; state_kind : Z }.

(** [capacity_bytes], [a1out_max_entries], [policy_registry]; [on_evict] is the
    list of keys the operations return. *)
Record Options := mkOptions {
  capacity_bytes_ : Z; a1out_max_ : nat; registry_ : option Registry }.

Definition a1in_capacity_ (o : Options) : Z := capacity_bytes_ o / 4.

(** The lists, front first; [index_] and [ghost_index_] are keyed by the entry's
    key, an iterator being the entry with that key in its queue. *)
Record Tier := mkTier {
  a1in_ : list Entry; am_ : list Entry; a1out_ : list bytes;
  index_ : gmap bytes Queue; ghost_index_ : gset bytes;
  a1in_bytes_used_ : Z; am_bytes_used_ : Z }.

Definition empty_tier : Tier := mkTier [] [] [] ∅ ∅ 0 0.

Inductive HitWhere := kMiss | kA1in | kAm | kGhost.
Record LookupResult := mkLookup { where_ : HitWhere; found : option bytes }.

(** ** Operations *)

(** The entry an iterator designates, and the list without it. *)
Fixpoint extract (k : bytes) (l : list Entry) : option (Entry * list Entry) :=
  match l with
  | [] => None
  | e :: r =>
      if bool_decide (key e = k) then Some (e, r)
      else '(v, r') ← extract k r; Some (v, e :: r')
  end.

Definition UsedBytes (s : Tier) : Z := a1in_bytes_used_ s + am_bytes_used_ s.
Definition GhostSize (s : Tier) : nat := length (a1out_ s).

Definition entry_at (k : bytes) (s : Tier) : option Entry :=
  match index_ s !! k with
  | None => None
  | Some A1in => fst <$> extract k (a1in_ s)
  | Some Am => fst <$> extract k (am_ s)
  end.

Definition Peek (k : bytes) (s : Tier) : LookupResult :=
  match entry_at k s with
  | None => mkLookup kMiss None
  | Some e => mkLookup (match q e with Am => kAm | A1in => kA1in end) (Some (data e))
  end.

Definition KindOf (k : bytes) (s : Tier) : option Z := state_kind <$> entry_at k s.

Definition Lookup (k : bytes) (s : Tier) : LookupResult * Tier :=
  match entry_at k s with
  | Some e =>
      match q e with
      | Am =>
          match extract k (am_ s) with
          | None => (mkLookup kAm (Some (data e)), s)
          | Some (e', r) =>
              (mkLookup kAm (Some (data e)),
               mkTier (a1in_ s) (e' :: r) (a1out_ s) (index_ s) (ghost_index_ s)
                 (a1in_bytes_used_ s) (am_bytes_used_ s))
          end
      | A1in => (mkLookup kA1in (Some (data e)), s)
      end
  | None =>
      if bool_decide (k ∈ ghost_index_ s) then (mkLookup kGhost None, s) else (mkLookup kMiss None, s)
  end.

Section Policy.
Variable opts : Options.

Definition IsNotEvictable (e : Entry) : bool :=
  match registry_ opts with
  | None => false
  | Some r =>
      has (state_kind e) r &&
      match shouldEvict <$> r !! state_kind e with Some kNotEvictable => true | _ => false end
  end.

(** The walk from the tail: the last evictable entry, and the list without it. *)
Fixpoint victim (l : list Entry) : option (Entry * list Entry) :=
  match l with
  | [] => None
  | e :: r =>
      match victim r with
      | Some (v, r') => Some (v, e :: r')
      | None => if IsNotEvictable e then None else Some (e, r)
      end
  end.

(** The loop of [GhostInsert]: drop the oldest ghosts beyond the limit. *)
Fixpoint ghost_trim (fuel : nat) (a1out : list bytes) (gi : gset bytes) : list bytes * gset bytes :=
  match fuel with
  | O => (a1out, gi)
  | S fuel =>
      if Nat.ltb (a1out_max_ opts) (length a1out) then
        match last a1out with
        | None => (a1out, gi)
        | Some k => ghost_trim fuel (removelast a1out) (gi ∖ {[k]})
        end
      else (a1out, gi)
  end.

Definition GhostInsert (k : bytes) (s : Tier) : Tier :=
  let '(out, gi) := ghost_trim (S (length (a1out_ s))) (k :: a1out_ s) (ghost_index_ s ∪ {[k]}) in
  mkTier (a1in_ s) (am_ s) out (index_ s) gi (a1in_bytes_used_ s) (am_bytes_used_ s).

(** Evict one entry of A1in, or of Am; the key goes to the callback. *)
Definition evict_a1in (s : Tier) : option (bytes * Tier) :=
  '(v, r) ← victim (a1in_ s);
  let g := GhostInsert (key v)
             (mkTier (a1in_ s) (am_ s) (a1out_ s) (index_ s) (ghost_index_ s)
                (a1in_bytes_used_ s - zlen (data v)) (am_bytes_used_ s)) in
  Some (key v, mkTier r (am_ g) (a1out_ g) (delete (key v) (index_ g)) (ghost_index_ g)
                 (a1in_bytes_used_ g) (am_bytes_used_ g)).

Definition evict_am (s : Tier) : option (bytes * Tier) :=
  '(v, r) ← victim (am_ s);
  Some (key v, mkTier (a1in_ s) r (a1out_ s) (delete (key v) (index_ s)) (ghost_index_ s)
                 (a1in_bytes_used_ s) (am_bytes_used_ s - zlen (data v))).

(** First loop of [EvictToFit]: bring A1in within its budget. *)
Fixpoint shrink_a1in (fuel : nat) (incoming : Z) (s : Tier) : list bytes * Tier :=
  match fuel with
  | O => ([], s)
  | S fuel =>
      match a1in_ s with
      | [] => ([], s)
      | _ =>
          if a1in_capacity_ opts <? a1in_bytes_used_ s + incoming then
            match evict_a1in s with
            | None => ([], s)
            | Some (k, s') => let '(ks, s'') := shrink_a1in fuel incoming s' in (k :: ks, s'')
            end
          else ([], s)
      end
  end.

(** One pass of the second loop: Am first, then A1in. *)
Definition evict_one (s : Tier) : option (bytes * Tier) :=
  match evict_am s with
  | Some r => Some r
  | None => evict_a1in s
  end.

Fixpoint shrink_all (fuel : nat) (incoming : Z) (s : Tier) : list bytes * Tier :=
  match fuel with
  | O => ([], s)
  | S fuel =>
      if capacity_bytes_ opts <? a1in_bytes_used_ s + am_bytes_used_ s + incoming then
        match evict_one s with
        | None => ([], s)
        | Some (k, s') => let '(ks, s'') := shrink_all fuel incoming s' in (k :: ks, s'')
        end
      else ([], s)
  end.

(** Each iteration removes an entry, so the entry counts (plus the final test)
    bound the loops. *)
Definition EvictToFit (incoming : Z) (s : Tier) : list bytes * Tier :=
  let '(k1, s1) := shrink_a1in (S (length (a1in_ s))) incoming s in
  let '(k2, s2) := shrink_all (S (length (a1in_ s1) + length (am_ s1))) incoming s1 in
  (k1 ++ k2, s2).

(** [e.data.assign]; [e.state_kind = state_kind]. *)
Fixpoint assign (k d : bytes) (kind : Z) (l : list Entry) : list Entry :=
  match l with
  | [] => []
  | e :: r => if bool_decide (key e = k) then mkEntry (key e) (q e) d kind :: r else e :: assign k d kind r
  end.

(** [Insert], with the keys reported to [on_evict]. *)
Definition Insert (k d : bytes) (kind : Z) (s : Tier) : list bytes * Tier :=
  match entry_at k s with
  | Some e =>
      let delta := zlen d - zlen (data e) in
      EvictToFit 0
        (match q e with
         | A1in => mkTier (assign k d kind (a1in_ s)) (am_ s) (a1out_ s) (index_ s) (ghost_index_ s)
                     (a1in_bytes_used_ s + delta) (am_bytes_used_ s)
         | Am => mkTier (a1in_ s) (assign k d kind (am_ s)) (a1out_ s) (index_ s) (ghost_index_ s)
                   (a1in_bytes_used_ s) (am_bytes_used_ s + delta)
         end)
  | None =>
      let ghost := bool_decide (k ∈ ghost_index_ s) in
      let s0 := if ghost
                then mkTier (a1in_ s) (am_ s) (List.filter (fun g => negb (bool_decide (g = k))) (a1out_ s))
                       (index_ s) (ghost_index_ s ∖ {[k]}) (a1in_bytes_used_ s) (am_bytes_used_ s)
                else s in
      let '(ks, s1) := EvictToFit (zlen d) s0 in
      (ks, if ghost
           then mkTier (a1in_ s1) (mkEntry k Am d kind :: am_ s1) (a1out_ s1) (<[k := Am]> (index_ s1))
                  (ghost_index_ s1) (a1in_bytes_used_ s1) (am_bytes_used_ s1 + zlen d)
           else mkTier (mkEntry k A1in d kind :: a1in_ s1) (am_ s1) (a1out_ s1) (<[k := A1in]> (index_ s1))
                  (ghost_index_ s1) (a1in_bytes_used_ s1 + zlen d) (am_bytes_used_ s1))
  end.

End Policy.

Definition Erase (k : bytes) (s : Tier) : bool * Tier :=
  match entry_at k s with
  | None =>
      if bool_decide (k ∈ ghost_index_ s)
      then (true, mkTier (a1in_ s) (am_ s) (List.filter (fun g => negb (bool_decide (g = k))) (a1out_ s))
                    (index_ s) (ghost_index_ s ∖ {[k]}) (a1in_bytes_used_ s) (am_bytes_used_ s))
      else (false, s)
  | Some e =>
      (true,
       match q e with
       | A1in => mkTier (default (a1in_ s) (snd <$> extract k (a1in_ s))) (am_ s) (a1out_ s)
                   (delete k (index_ s)) (ghost_index_ s)
                   (a1in_bytes_used_ s - zlen (data e)) (am_bytes_used_ s)
       | Am => mkTier (a1in_ s) (default (am_ s) (snd <$> extract k (am_ s))) (a1out_ s)
                 (delete k (index_ s)) (ghost_index_ s)
                 (a1in_bytes_used_ s) (am_bytes_used_ s - zlen (data e))
       end)
  end.
(** ** Invariant *)

Definition cmap (l : list Entry) : gmap bytes Entry := list_to_map ((fun e => (key e, e)) <$> l).
Definition contents (s : Tier) : gmap bytes Entry := cmap (a1in_ s ++ am_ s).
Definition total (l : list Entry) : Z := foldr (fun e n => zlen (data e) + n) 0 l.

#[local] Arguments cmap : simpl never.
#[local] Arguments contents : simpl never.

(** Keys are unique; the index, the byte counters and the ghost index are exact;
    the ghost list is bounded, without duplicates and without resident keys. *)
Record Inv (opts : Options) (s : Tier) : Prop := {
  inv_nodup : NoDup (key <$> (a1in_ s ++ am_ s));
  inv_a1in : Forall (fun e => q e = A1in) (a1in_ s);
  inv_am : Forall (fun e => q e = Am) (am_ s);
  inv_index : index_ s = q <$> contents s;
  inv_a1in_bytes : a1in_bytes_used_ s = total (a1in_ s);
  inv_am_bytes : am_bytes_used_ s = total (am_ s);
  inv_ghost_nodup : NoDup (a1out_ s);
  inv_ghost_index : ghost_index_ s = list_to_set (a1out_ s);
  inv_ghost_max : (length (a1out_ s) <= a1out_max_ opts)%nat;
  inv_ghost_free : forall k, k ∈ a1out_ s -> contents s !! k = None }.

Lemma keys_fst l : ((fun e => (key e, e)) <$> l).*1 = key <$> l.
Proof. induction l as [|e l IH]; [done|]. rewrite !fmap_cons. cbn. by rewrite <- IH. Qed.

Lemma cmap_perm l l' : NoDup (key <$> l) -> l ≡ₚ l' -> cmap l = cmap l'.
Proof.
  intros N P. unfold cmap. apply list_to_map_proper; [by rewrite keys_fst|by rewrite P].
Qed.

Lemma cmap_lookup l k e : NoDup (key <$> l) -> cmap l !! k = Some e <-> e ∈ l /\ key e = k.
Proof.
  intros N. unfold cmap. rewrite <- elem_of_list_to_map by by rewrite keys_fst.
  rewrite list_elem_of_fmap. split.
  - by intros (x & [= -> ->] & ?).
  - intros [? <-]. eauto.
Qed.

Lemma cmap_None l k : cmap l !! k = None <-> k ∉ (key <$> l).
Proof. unfold cmap. rewrite <- not_elem_of_list_to_map. by rewrite keys_fst. Qed.

Lemma cmap_cons_delete e l : NoDup (key <$> e :: l) -> delete (key e) (cmap (e :: l)) = cmap l.
Proof.
  intros N. rewrite fmap_cons, NoDup_cons in N. unfold cmap. rewrite fmap_cons. cbn [list_to_map foldr].
  apply delete_insert_id. change (cmap l !! key e = None). apply cmap_None, N.
Qed.

Lemma total_perm l l' : l ≡ₚ l' -> total l = total l'.
Proof. induction 1; unfold total in *; cbn [foldr] in *; lia. Qed.

Lemma total_nonneg l : 0 <= total l.
Proof. induction l; unfold total in *; cbn [foldr] in *; lia. Qed.

Lemma extract_spec k l :
  match extract k l with
  | Some (e, r) => l ≡ₚ e :: r /\ key e = k
  | None => k ∉ (key <$> l)
  end.
Proof.
  induction l as [|x l IH]; cbn [extract]; [apply not_elem_of_nil|].
  case_bool_decide as E; [by split|].
  destruct (extract k l) as [[e r]|]; cbn [mbind option_bind].
  - destruct IH as [P Hk]. split; [|done]. by rewrite P, Permutation_swap.
  - rewrite fmap_cons, not_elem_of_cons. by split.
Qed.

Lemma victim_spec opts l :
  match victim opts l with
  | Some (v, r) => l ≡ₚ v :: r /\ IsNotEvictable opts v = false
  | None => Forall (fun e => IsNotEvictable opts e = true) l
  end.
Proof.
  induction l as [|x l IH]; cbn [victim]; [done|].
  destruct (victim opts l) as [[v r]|].
  - destruct IH as [P Hv]. split; [|done]. by rewrite P, Permutation_swap.
  - destruct (IsNotEvictable opts x) eqn:E; [by constructor|by split].
Qed.

Lemma extract_elem e l :
  NoDup (key <$> l) -> e ∈ l -> exists r, extract (key e) l = Some (e, r) /\ l ≡ₚ e :: r.
Proof.
  intros N E. pose proof (extract_spec (key e) l) as X.
  destruct (extract _ _) as [[x r]|]; [|destruct X; by apply list_elem_of_fmap_2].
  destruct X as [P K]. assert (x = e) as ->; [|eauto].
  rewrite P, fmap_cons, NoDup_cons in N. rewrite P in E. apply elem_of_cons in E as [?|E]; [done|].
  destruct N as [N _]. destruct N. rewrite K. by apply list_elem_of_fmap_2.
Qed.

Lemma Inv_nodup_parts opts s : Inv opts s -> NoDup (key <$> a1in_ s) /\ NoDup (key <$> am_ s).
Proof. intros I. pose proof (inv_nodup _ _ I) as N. rewrite fmap_app in N. by apply NoDup_app in N as (? & _ & ?). Qed.

Lemma contents_elem opts s k e :
  Inv opts s -> contents s !! k = Some e <->
  key e = k /\ ((e ∈ a1in_ s /\ q e = A1in) \/ (e ∈ am_ s /\ q e = Am)).
Proof.
  intros I. unfold contents. rewrite cmap_lookup by apply I. rewrite elem_of_app.
  pose proof (proj1 (Forall_forall _ _) (inv_a1in _ _ I) e).
  pose proof (proj1 (Forall_forall _ _) (inv_am _ _ I) e). intuition congruence.
Qed.

(** The index finds the resident entries. *)
Lemma entry_at_contents opts s k : Inv opts s -> entry_at k s = contents s !! k.
Proof.
  intros I. unfold entry_at. rewrite (inv_index _ _ I), lookup_fmap.
  destruct (contents s !! k) as [e|] eqn:E; [|done]. cbn [fmap option_fmap option_map].
  apply (contents_elem opts) in E as [<- [[E ->]|[E ->]]]; [| |done].
  - destruct (extract_elem e (a1in_ s)) as (r & -> & _); [by eapply Inv_nodup_parts|done|done].
  - destruct (extract_elem e (am_ s)) as (r & -> & _); [by eapply Inv_nodup_parts|done|done].
Qed.

(** ** Eviction *)

Lemma contents_drop_a1in s v r :
  NoDup (key <$> (a1in_ s ++ am_ s)) -> a1in_ s ≡ₚ v :: r ->
  cmap (r ++ am_ s) = delete (key v) (contents s) /\ NoDup (key <$> (r ++ am_ s)).
Proof.
  intros N P. unfold contents. rewrite (cmap_perm (a1in_ s ++ am_ s) (v :: r ++ am_ s)); [|done|by rewrite P].
  rewrite P in N. split; [symmetry; by apply cmap_cons_delete|]. by inversion N.
Qed.

Lemma contents_drop_am s v r :
  NoDup (key <$> (a1in_ s ++ am_ s)) -> am_ s ≡ₚ v :: r ->
  cmap (a1in_ s ++ r) = delete (key v) (contents s) /\ NoDup (key <$> (a1in_ s ++ r)).
Proof.
  intros N P. assert (P' : a1in_ s ++ am_ s ≡ₚ v :: a1in_ s ++ r).
  { by rewrite P, Permutation_middle. }
  unfold contents. rewrite (cmap_perm _ _ N P'). rewrite P' in N.
  split; [symmetry; by apply cmap_cons_delete|]. by inversion N.
Qed.

Lemma ghost_trim_spec opts fuel out gi :
  (length out <= fuel)%nat -> NoDup out -> gi = list_to_set out ->
  let '(out', gi') := ghost_trim opts fuel out gi in
  gi' = list_to_set out' /\ out' `prefix_of` out /\ (length out' <= a1out_max_ opts)%nat.
Proof.
  revert out gi. induction fuel as [|fuel IH]; intros out gi H N ->; cbn [ghost_trim].
  { destruct out; [|cbn in H; lia]. repeat split; [done|cbn; lia]. }
  destruct (Nat.ltb _ _) eqn:L; reflect_bools; [|done].
  destruct out as [|x out' _] using rev_ind; [cbn in L; lia|].
  rewrite last_snoc, removelast_last. rewrite length_app in H. cbn [length] in H.
  apply NoDup_app in N as (N & D & _).
  specialize (IH out' (list_to_set (out' ++ [x]) ∖ {[x]}) ltac:(lia) N).
  destruct (ghost_trim _ _ _ _) as [o g]. destruct IH as (? & ? & ?).
  - rewrite list_to_set_app_L. cbn. assert (x ∉ out') by (intros X; apply (D x X); set_solver). set_solver.
  - repeat split; try done. by apply prefix_app_r.
Qed.

(** What an eviction does: [ks] left, they were resident and evictable, and
    nothing else changed. *)
Definition reported (opts : Options) (s : Tier) (ks : list bytes) (s' : Tier) : Prop :=
  Inv opts s' /\ NoDup ks /\
  (forall k, contents s' !! k = if bool_decide (k ∈ ks) then None else contents s !! k) /\
  (forall k, k ∈ ks -> exists v, contents s !! k = Some v /\ IsNotEvictable opts v = false) /\
  (forall k, k ∈ a1out_ s' -> k ∈ a1out_ s \/ k ∈ ks).

Definition count (s : Tier) : nat := length (a1in_ s) + length (am_ s).

Lemma reported_refl opts s : Inv opts s -> reported opts s [] s.
Proof.
  intros I. split; [done|]. split; [constructor|]. split; [done|].
  split; [|by left]. intros k H. by apply elem_of_nil in H.
Qed.

Lemma reported_trans opts s k s1 ks s2 :
  reported opts s [k] s1 -> reported opts s1 ks s2 -> reported opts s (k :: ks) s2.
Proof.
  intros (_ & _ & A & B & C) (I & N & A' & B' & C').
  assert (Hk : k ∉ ks).
  { intros X. destruct (B' k X) as (v & E & _). rewrite A in E.
    rewrite bool_decide_true in E by set_solver. done. }
  split; [done|]. split; [by constructor|]. repeat split.
  - intros x. rewrite A', A. repeat case_bool_decide; set_solver.
  - intros x X. apply elem_of_cons in X as [->|X]; [apply B; set_solver|].
    destruct (B' x X) as (v & E & V). rewrite A in E. case_bool_decide; [done|]. eauto.
  - intros x X. destruct (C' x X) as [Y|Y]; [|set_solver]. destruct (C x Y); set_solver.
Qed.

Lemma delete_reported (m m' : gmap bytes Entry) k :
  m' = delete k m -> forall x, m' !! x = if bool_decide (x ∈ [k]) then None else m !! x.
Proof.
  intros -> x. case_bool_decide as E.
  - apply list_elem_of_singleton in E as ->. apply lookup_delete_eq.
  - apply lookup_delete_ne. intros ->. apply E. by apply list_elem_of_singleton.
Qed.

Lemma evict_am_reported opts s k s' :
  Inv opts s -> evict_am opts s = Some (k, s') ->
  reported opts s [k] s' /\ count s = S (count s').
Proof.
  intros I E. unfold evict_am in E. pose proof (victim_spec opts (am_ s)) as V.
  destruct (victim opts (am_ s)) as [[v r]|]; [|done]. cbn in E. injection E as <- <-.
  destruct V as [P V]. destruct (contents_drop_am s v r (inv_nodup _ _ I) P) as [D N].
  assert (Hv : v ∈ am_ s) by (rewrite P; by left).
  pose proof (inv_am _ _ I) as Q. rewrite P in Q. inversion_clear Q as [|? ? Qv Qr].
  split; [|unfold count; cbn; rewrite P; cbn; lia].
  split; [|split; [apply NoDup_singleton|split; [by apply delete_reported|split; [|by left]]]].
  - constructor; cbn; try apply I; try done.
    + by rewrite (inv_index _ _ I), <- fmap_delete, <- D.
    + rewrite (inv_am_bytes _ _ I), (total_perm _ _ P). cbn. lia.
    + intros g G. change (contents _) with (cmap (a1in_ s ++ r)). rewrite D. apply lookup_delete_None. right.
      by apply (inv_ghost_free _ _ I).
  - intros x X. apply list_elem_of_singleton in X as ->. exists v. split; [|done].
    apply (contents_elem opts); [done|]. split; [done|]. right. split; [done|].
    by apply (proj1 (Forall_forall _ _) (inv_am _ _ I)).
Qed.

Lemma GhostInsert_spec opts k s :
  NoDup (a1out_ s) -> ghost_index_ s = list_to_set (a1out_ s) -> k ∉ a1out_ s ->
  let g := GhostInsert opts k s in
  exists out, g = mkTier (a1in_ s) (am_ s) out (index_ s) (list_to_set out)
                    (a1in_bytes_used_ s) (am_bytes_used_ s) /\
    out `prefix_of` k :: a1out_ s /\ NoDup out /\ (length out <= a1out_max_ opts)%nat.
Proof.
  intros N G K. unfold GhostInsert.
  pose proof (ghost_trim_spec opts (S (length (a1out_ s))) (k :: a1out_ s) (ghost_index_ s ∪ {[k]})) as T.
  destruct (ghost_trim _ _ _ _) as [out gi]. destruct T as (-> & P & L).
  - done.
  - by constructor.
  - rewrite G. cbn. by rewrite (comm_L (∪)).
  - exists out. repeat split; try done. destruct P as [r P].
    assert (NoDup (k :: a1out_ s)) as N' by by constructor. rewrite P in N'. by apply NoDup_app in N' as [? _].
Qed.

Lemma evict_a1in_reported opts s k s' :
  Inv opts s -> evict_a1in opts s = Some (k, s') ->
  reported opts s [k] s' /\ count s = S (count s') /\ length (a1in_ s) = S (length (a1in_ s')).
Proof.
  intros I E. unfold evict_a1in in E. pose proof (victim_spec opts (a1in_ s)) as V.
  destruct (victim opts (a1in_ s)) as [[v r]|]; [|done]. cbn [mbind option_bind] in E.
  destruct V as [P V]. destruct (contents_drop_a1in s v r (inv_nodup _ _ I) P) as [D N].
  assert (Hv : contents s !! key v = Some v).
  { apply (contents_elem opts); [done|]. split; [done|]. left.
    assert (v ∈ a1in_ s) by (rewrite P; by left). split; [done|].
    by apply (proj1 (Forall_forall _ _) (inv_a1in _ _ I)). }
  pose proof (inv_a1in _ _ I) as Q. rewrite P in Q. inversion_clear Q as [|? ? Qv Qr].
  edestruct (GhostInsert_spec opts (key v)) as (out & Eg & Po & No & Lo);
    [..|rewrite Eg in E; clear Eg]; [apply I|apply I| |].
  { cbn. intros X. apply (inv_ghost_free _ _ I) in X. congruence. }
  cbn in Po, E. injection E as <- <-.
  assert (Ho : forall g, g ∈ out -> g = key v \/ g ∈ a1out_ s).
  { intros g X. destruct Po as [o Po]. apply elem_of_cons. rewrite Po. apply elem_of_app. by left. }
  split; [|unfold count; cbn; rewrite P; cbn; lia].
  split; [|split; [apply NoDup_singleton|split; [by apply delete_reported|split]]].
  - constructor; cbn; try apply I; try done.
    + by rewrite (inv_index _ _ I), <- fmap_delete, <- D.
    + rewrite (inv_a1in_bytes _ _ I), (total_perm _ _ P). cbn. lia.
    + intros g G. change (contents _) with (cmap (r ++ am_ s)). rewrite D. apply lookup_delete_None.
      destruct (Ho g G) as [->|?]; [by left|right; by apply (inv_ghost_free _ _ I)].
  - intros x X. apply list_elem_of_singleton in X as ->. eauto.
  - intros g G. destruct (Ho g G) as [->|?]; [right; by apply list_elem_of_singleton|by left].
Qed.

Lemma shrink_a1in_reported opts fuel n s :
  Inv opts s -> reported opts s (shrink_a1in opts fuel n s).1 (shrink_a1in opts fuel n s).2.
Proof.
  revert s. induction fuel as [|fuel IH]; intros s I; cbn [shrink_a1in]; [by apply reported_refl|].
  destruct (a1in_ s) eqn:Ea; [by apply reported_refl|].
  destruct (_ <? _); [|by apply reported_refl].
  destruct (evict_a1in opts s) as [[k s1]|] eqn:E; [|by apply reported_refl].
  apply evict_a1in_reported in E as [R _]; [|done].
  specialize (IH s1 (proj1 R)). destruct (shrink_a1in _ _ _ _) as [ks s2].
  by eapply reported_trans.
Qed.

Lemma evict_one_None opts s :
  Inv opts s -> evict_one opts s = None -> forall k e, contents s !! k = Some e -> IsNotEvictable opts e = true.
Proof.
  intros I E k e H. apply (contents_elem opts) in H as [_ H]; [|done].
  unfold evict_one, evict_am, evict_a1in in E.
  pose proof (victim_spec opts (am_ s)) as Va. pose proof (victim_spec opts (a1in_ s)) as Vi.
  destruct (victim opts (am_ s)) as [[]|]; [done|]. destruct (victim opts (a1in_ s)) as [[]|]; [done|].
  rewrite Forall_forall in Va, Vi. destruct H as [[H _]|[H _]]; auto.
Qed.

Lemma shrink_all_reported opts fuel n s :
  Inv opts s -> (count s < fuel)%nat ->
  let '(ks, s') := shrink_all opts fuel n s in
  reported opts s ks s' /\
  (UsedBytes s' + n <= capacity_bytes_ opts \/
   forall k e, contents s' !! k = Some e -> IsNotEvictable opts e = true).
Proof.
  revert s. induction fuel as [|fuel IH]; intros s I L; cbn [shrink_all]; [lia|].
  destruct (_ <? _) eqn:C; reflect_bools.
  2: { split; [by apply reported_refl|]. left. unfold UsedBytes. lia. }
  destruct (evict_one opts s) as [[k s1]|] eqn:E.
  2: { split; [by apply reported_refl|]. right. by apply evict_one_None. }
  assert (R : reported opts s [k] s1 /\ count s = S (count s1)).
  { unfold evict_one in E. destruct (evict_am opts s) as [[]|] eqn:Ea.
    - injection E as -> ->. by apply evict_am_reported.
    - by apply evict_a1in_reported in E as (? & ? & _). }
  destruct R as [R Cn]. specialize (IH s1 (proj1 R) ltac:(lia)).
  destruct (shrink_all _ _ _ _) as [ks s2]. destruct IH as [R2 B]. split; [|done]. by eapply reported_trans.
Qed.

Lemma reported_app opts s k1 s1 k2 s2 :
  reported opts s k1 s1 -> reported opts s1 k2 s2 -> reported opts s (k1 ++ k2) s2.
Proof.
  intros (_ & N1 & A & B & C) (I & N & A' & B' & C').
  split; [done|]. split; [|split; [|split]].
  - apply NoDup_app. split; [done|]. split; [|done]. intros x X Y.
    destruct (B' x Y) as (v & E & _). rewrite A, bool_decide_true in E by done. done.
  - intros x. rewrite A', A. repeat case_bool_decide; set_solver.
  - intros x X. apply elem_of_app in X as [X|X]; [by apply B|].
    destruct (B' x X) as (v & E & V). rewrite A in E. case_bool_decide; [done|]. eauto.
  - intros x X. destruct (C' x X) as [Y|Y]; [|set_solver]. destruct (C x Y); set_solver.
Qed.

Lemma EvictToFit_reported opts n s :
  Inv opts s ->
  let '(ks, s') := EvictToFit opts n s in
  reported opts s ks s' /\
  (UsedBytes s' + n <= capacity_bytes_ opts \/
   forall k e, contents s' !! k = Some e -> IsNotEvictable opts e = true).
Proof.
  intros I. unfold EvictToFit.
  pose proof (shrink_a1in_reported opts (S (length (a1in_ s))) n s I) as R1.
  destruct (shrink_a1in _ _ _ _) as [k1 s1]. cbn [fst snd] in R1.
  pose proof (shrink_all_reported opts (S (length (a1in_ s1) + length (am_ s1))) n s1 (proj1 R1)) as R2.
  destruct (shrink_all _ _ _ _) as [k2 s2]. destruct R2 as [R2 B]; [unfold count; lia|].
  split; [|done]. by eapply reported_app.
Qed.

(** ** Operations preserve the invariant *)

Lemma assign_perm k d kind l e r :
  extract k l = Some (e, r) -> assign k d kind l ≡ₚ mkEntry (key e) (q e) d kind :: r.
Proof.
  revert r. induction l as [|x l IH]; intros r; cbn [extract assign]; [done|].
  case_bool_decide; [by intros [= -> ->]|].
  destruct (extract k l) as [[v r']|]; [|done]. cbn. intros [= -> <-].
  by rewrite (IH r' eq_refl), Permutation_swap.
Qed.

Lemma Inv_unghost opts k s :
  Inv opts s ->
  let s' := mkTier (a1in_ s) (am_ s) (List.filter (fun g => negb (bool_decide (g = k))) (a1out_ s))
              (index_ s) (ghost_index_ s ∖ {[k]}) (a1in_bytes_used_ s) (am_bytes_used_ s) in
  Inv opts s' /\ k ∉ a1out_ s' /\ contents s' = contents s /\ (forall g, g ∈ a1out_ s' -> g ∈ a1out_ s).
Proof.
  intros I. cbn zeta.
  assert (F : forall g, g ∈ List.filter (fun g => negb (bool_decide (g = k))) (a1out_ s) <-> g ∈ a1out_ s /\ g <> k).
  { intros g. rewrite !list_elem_of_In, filter_In. rewrite negb_true_iff, bool_decide_eq_false. done. }
  split; [|split; [cbn; rewrite F; tauto|split; [done|intros g G; exact (proj1 (proj1 (F g) G))]]].
  constructor; cbn; try apply I.
  - apply NoDup_ListNoDup, List.NoDup_filter, NoDup_ListNoDup, I.
  - rewrite (inv_ghost_index _ _ I). apply set_eq. intros g.
    rewrite elem_of_difference, elem_of_singleton, !elem_of_list_to_set, F. done.
  - etransitivity; [apply List.filter_length_le|apply I].
  - intros g G. apply F in G as [G _]. by apply (inv_ghost_free _ _ I).
Qed.

Lemma Inv_move opts s l1 l2 idx b1 b2 :
  Inv opts s -> NoDup (key <$> (l1 ++ l2)) ->
  Forall (fun e => q e = A1in) l1 -> Forall (fun e => q e = Am) l2 ->
  idx = q <$> cmap (l1 ++ l2) -> b1 = total l1 -> b2 = total l2 ->
  (forall g, g ∈ a1out_ s -> cmap (l1 ++ l2) !! g = None) ->
  Inv opts (mkTier l1 l2 (a1out_ s) idx (ghost_index_ s) b1 b2).
Proof. intros I. intros. constructor; cbn; try apply I; done. Qed.

(** Two entry lists with the same keys and queues index the same way. *)
Lemma cmap_replace l e e' r :
  NoDup (key <$> l) -> l ≡ₚ e :: r -> key e' = key e ->
  cmap (e' :: r) = <[key e := e']> (cmap l) /\ NoDup (key <$> e' :: r).
Proof.
  intros N P K. rewrite (cmap_perm _ _ N P). rewrite P in N.
  unfold cmap. rewrite !fmap_cons. cbn [list_to_map foldr]. rewrite K, insert_insert_eq.
  rewrite fmap_cons in N. done.
Qed.

Lemma assign_Inv opts k d kind s e :
  Inv opts s -> contents s !! k = Some e ->
  let s' := match q e with
            | A1in => mkTier (assign k d kind (a1in_ s)) (am_ s) (a1out_ s) (index_ s) (ghost_index_ s)
                        (a1in_bytes_used_ s + (zlen d - zlen (data e))) (am_bytes_used_ s)
            | Am => mkTier (a1in_ s) (assign k d kind (am_ s)) (a1out_ s) (index_ s) (ghost_index_ s)
                      (a1in_bytes_used_ s) (am_bytes_used_ s + (zlen d - zlen (data e)))
            end in
  Inv opts s' /\ contents s' = <[k := mkEntry k (q e) d kind]> (contents s).
Proof.
  intros I E. pose proof E as E'. apply (contents_elem opts) in E' as [<- H]; [|done].
  set (e' := mkEntry (key e) (q e) d kind).
  pose proof (Inv_nodup_parts _ _ I) as [N1 N2].
  assert (X : forall l, NoDup (key <$> l) -> l ≡ₚ a1in_ s ++ am_ s ->
    forall r, l ≡ₚ e :: r -> cmap (e' :: r) = <[key e := e']> (contents s) /\ NoDup (key <$> e' :: r)).
  { intros l N P r Pe. destruct (cmap_replace l e e' r N Pe eq_refl) as [C ?]. split; [|done].
    rewrite C. unfold contents. by rewrite (cmap_perm _ _ N P). }
  assert (QE : q <$> <[key e := e']> (contents s) = index_ s).
  { rewrite (inv_index _ _ I), fmap_insert. apply insert_id. by rewrite lookup_fmap, E. }
  assert (GF : forall g, g ∈ a1out_ s -> <[key e := e']> (contents s) !! g = None).
  { intros g G. pose proof (inv_ghost_free _ _ I g G). rewrite lookup_insert_ne; [done|]. intros <-. congruence. }
  destruct H as [[H Q]|[H Q]]; rewrite Q; cbn zeta.
  - destruct (extract_elem e _ N1 H) as (r & Ex & P).
    pose proof (assign_perm _ d kind _ _ _ Ex) as PA. fold e' in PA.
    destruct (X (a1in_ s ++ am_ s) (inv_nodup _ _ I) (reflexivity _) (r ++ am_ s)) as [C N]; [by rewrite P|].
    assert (PC : assign (key e) d kind (a1in_ s) ++ am_ s ≡ₚ e' :: r ++ am_ s) by by rewrite PA.
    assert (Ec : cmap (assign (key e) d kind (a1in_ s) ++ am_ s) = <[key e := e']> (contents s)).
    { rewrite <- C. symmetry. by apply cmap_perm. }
    split; [|exact Ec].
    apply Inv_move; try done; [by rewrite PC| |by apply I| | |by apply I|by rewrite Ec].
    + rewrite PA. pose proof (inv_a1in _ _ I) as F. rewrite P in F. inversion_clear F. by constructor.
    + by rewrite Ec.
    + rewrite (inv_a1in_bytes _ _ I), (total_perm _ _ PA), (total_perm _ _ P). cbn. lia.
  - destruct (extract_elem e _ N2 H) as (r & Ex & P).
    pose proof (assign_perm _ d kind _ _ _ Ex) as PA. fold e' in PA.
    destruct (X (a1in_ s ++ am_ s) (inv_nodup _ _ I) (reflexivity _) (a1in_ s ++ r)) as [C N].
    { by rewrite P, Permutation_middle. }
    assert (PC : a1in_ s ++ assign (key e) d kind (am_ s) ≡ₚ e' :: a1in_ s ++ r).
    { by rewrite PA, Permutation_middle. }
    assert (Ec : cmap (a1in_ s ++ assign (key e) d kind (am_ s)) = <[key e := e']> (contents s)).
    { rewrite <- C. symmetry. by apply cmap_perm. }
    split; [|exact Ec].
    apply Inv_move; try done; [by rewrite PC|by apply I| | |by apply I| |by rewrite Ec].
    + rewrite PA. pose proof (inv_am _ _ I) as F. rewrite P in F. inversion_clear F. by constructor.
    + by rewrite Ec.
    + rewrite (inv_am_bytes _ _ I), (total_perm _ _ PA), (total_perm _ _ P). cbn. lia.
Qed.

Lemma push_Inv opts (ghost : bool) k d kind s :
  Inv opts s -> contents s !! k = None -> k ∉ a1out_ s ->
  let e := mkEntry k (if ghost then Am else A1in) d kind in
  let s' := if ghost
            then mkTier (a1in_ s) (e :: am_ s) (a1out_ s) (<[k := Am]> (index_ s)) (ghost_index_ s)
                   (a1in_bytes_used_ s) (am_bytes_used_ s + zlen d)
            else mkTier (e :: a1in_ s) (am_ s) (a1out_ s) (<[k := A1in]> (index_ s)) (ghost_index_ s)
                   (a1in_bytes_used_ s + zlen d) (am_bytes_used_ s) in
  Inv opts s' /\ contents s' = <[k := e]> (contents s) /\ UsedBytes s' = UsedBytes s + zlen d.
Proof.
  intros I K G e. pose proof (inv_nodup _ _ I) as N. pose proof K as K'. apply cmap_None in K'.
  assert (N' : NoDup (key <$> e :: a1in_ s ++ am_ s)) by (rewrite fmap_cons; by constructor).
  assert (GF : forall g, g ∈ a1out_ s -> <[k := e]> (contents s) !! g = None).
  { intros g Hg. rewrite lookup_insert_ne by (intros ->; done). by apply (inv_ghost_free _ _ I). }
  assert (QE : q <$> <[k := e]> (contents s) = <[k := q e]> (index_ s)).
  { by rewrite fmap_insert, (inv_index _ _ I). }
  destruct ghost; cbn zeta.
  - assert (Ec : cmap (a1in_ s ++ e :: am_ s) = <[k := e]> (contents s)).
    { transitivity (cmap (e :: a1in_ s ++ am_ s)); [|done]. symmetry. apply cmap_perm; [done|].
      by rewrite Permutation_middle. }
    split; [|split; [exact Ec|unfold UsedBytes; cbn; lia]].
    apply Inv_move; try apply I; try done.
    + by rewrite <- Permutation_middle.
    + constructor; [done|apply I].
    + by rewrite Ec, QE.
    + rewrite (inv_am_bytes _ _ I). unfold total, e. cbn [foldr data]. lia.
    + by rewrite Ec.
  - assert (Ec : cmap ((e :: a1in_ s) ++ am_ s) = <[k := e]> (contents s)) by done.
    split; [|split; [exact Ec|unfold UsedBytes; cbn; lia]].
    apply Inv_move; try apply I; try done.
    + constructor; [done|apply I].
    + rewrite (inv_a1in_bytes _ _ I). unfold total, e. cbn [foldr data]. lia.
Qed.

(** What an insert leaves: the new entry, and what was not evicted. *)
Definition inserted (k d : bytes) (kind : Z) (s : Tier) : gmap bytes Entry :=
  <[k := mkEntry k (if bool_decide (k ∈ a1out_ s) then Am else default A1in (q <$> contents s !! k)) d kind]>
    (contents s).

Lemma Insert_spec opts k d kind s :
  Inv opts s ->
  let '(ks, s') := Insert opts k d kind s in
  Inv opts s' /\ NoDup ks /\
  (forall x, contents s' !! x = if bool_decide (x ∈ ks) then None else inserted k d kind s !! x) /\
  (forall x, x ∈ ks -> exists v, inserted k d kind s !! x = Some v /\ IsNotEvictable opts v = false) /\
  (UsedBytes s' <= capacity_bytes_ opts \/
   forall x e, x <> k -> contents s' !! x = Some e -> IsNotEvictable opts e = true).
Proof.
  intros I. unfold Insert. rewrite (entry_at_contents opts) by done.
  destruct (contents s !! k) as [e|] eqn:E.
  - destruct (assign_Inv opts k d kind s e I E) as [I1 C1]. cbn zeta in *.
    pose proof (EvictToFit_reported opts 0 _ I1) as R.
    destruct (EvictToFit _ _ _) as [ks s']. destruct R as [(I' & N & A & B & _) F].
    assert (G : inserted k d kind s = <[k := mkEntry k (q e) d kind]> (contents s)).
    { unfold inserted. rewrite E, bool_decide_false; [done|].
      intros G. apply (inv_ghost_free _ _ I) in G. congruence. }
    rewrite G, <- C1. do 4 (split; [done|]).
    destruct F as [F|F]; [left; lia|right; eauto].
  - set (ghost := bool_decide (k ∈ ghost_index_ s)).
    assert (Gh : ghost = bool_decide (k ∈ a1out_ s)).
    { apply bool_decide_ext. rewrite (inv_ghost_index _ _ I). apply elem_of_list_to_set. }
    set (s0 := if ghost then mkTier _ _ _ _ _ _ _ else s).
    assert (S0 : Inv opts s0 /\ k ∉ a1out_ s0 /\ contents s0 = contents s).
    { unfold s0. destruct ghost.
      - destruct (Inv_unghost opts k s I) as (? & ? & ? & _). auto.
      - symmetry in Gh. apply bool_decide_eq_false in Gh. auto. }
    clearbody s0. destruct S0 as (I0 & K0 & C0).
    pose proof (EvictToFit_reported opts (zlen d) s0 I0) as R.
    destruct (EvictToFit opts (zlen d) s0) as [ks s1]. destruct R as [(I1 & N & A & B & C) F].
    assert (Kks : k ∉ ks). { intros X. destruct (B k X) as (v & Ev & _). congruence. }
    destruct (push_Inv opts ghost k d kind s1) as (I2 & C2 & U2); [done| | |].
    { rewrite A, bool_decide_false, C0 by done. done. }
    { intros X. by destruct (C k X). }
    assert (G : inserted k d kind s = <[k := mkEntry k (if ghost then Am else A1in) d kind]> (contents s)).
    { unfold inserted. by rewrite E, <- Gh. }
    assert (GX : forall x, x <> k -> inserted k d kind s !! x = contents s0 !! x).
    { intros x X. rewrite G, C0. by apply lookup_insert_ne. }
    split; [destruct ghost; exact I2|]. split; [done|]. split; [|split].
    + intros x. transitivity (<[k := mkEntry k (if ghost then Am else A1in) d kind]> (contents s1) !! x).
      { destruct ghost; by rewrite <- C2. }
      destruct (decide (x = k)) as [->|X].
      * by rewrite bool_decide_false, lookup_insert_eq, G, lookup_insert_eq.
      * rewrite lookup_insert_ne by done. by rewrite A, GX.
    + intros x X. destruct (B x X) as (v & Ev & V). exists v. split; [|done]. rewrite GX; [done|].
      intros ->. done.
    + destruct F as [F|F]; [left|right].
      * destruct ghost; rewrite U2; lia.
      * intros x v X Ev. apply (F x). rewrite <- Ev. destruct ghost; rewrite C2; symmetry; by apply lookup_insert_ne.
Qed.

(** A key that was not resident is resident after its insert. *)
Lemma Insert_absent opts k d kind s :
  Inv opts s -> contents s !! k = None ->
  exists e, contents (Insert opts k d kind s).2 !! k = Some e /\ data e = d.
Proof.
  intros I N. pose proof (Insert_spec opts k d kind s I) as X. revert X. unfold Insert.
  rewrite (entry_at_contents opts), N by done. destruct (EvictToFit opts _ _) as [ks s1]. cbn [snd]. intros (I2 & _).
  case_bool_decide; [exists (mkEntry k Am d kind)|exists (mkEntry k A1in d kind)];
    (split; [apply (contents_elem opts); [exact I2|cbn]|done]).
  - split; [done|]. right. split; [apply elem_of_cons; by left|done].
  - split; [done|]. left. split; [apply elem_of_cons; by left|done].
Qed.

Lemma Lookup_Inv opts k s :
  Inv opts s -> Inv opts (Lookup k s).2 /\ contents (Lookup k s).2 = contents s.
Proof.
  intros I. unfold Lookup. destruct (entry_at k s) as [e|]; [|by case_bool_decide].
  destruct (q e); [done|]. pose proof (extract_spec k (am_ s)) as X.
  destruct (extract k (am_ s)) as [[x r]|]; [|done]. destruct X as [P _]. cbn [snd].
  assert (PC : a1in_ s ++ x :: r ≡ₚ a1in_ s ++ am_ s) by by rewrite P.
  assert (N : NoDup (key <$> (a1in_ s ++ x :: r))) by (rewrite PC; apply I).
  assert (Ec : cmap (a1in_ s ++ x :: r) = contents s) by by apply cmap_perm.
  split; [|exact Ec]. apply Inv_move; try apply I; try done.
  - rewrite <- P. apply I.
  - rewrite Ec. apply I.
  - rewrite <- (total_perm _ _ P). apply I.
  - rewrite Ec. apply I.
Qed.

Lemma Erase_Inv opts k s :
  Inv opts s -> Inv opts (Erase k s).2 /\ contents (Erase k s).2 = delete k (contents s).
Proof.
  intros I. unfold Erase. rewrite (entry_at_contents opts) by done.
  destruct (contents s !! k) as [e|] eqn:E.
  2: { rewrite delete_id by done. case_bool_decide; [|done].
       destruct (Inv_unghost opts k s I) as (? & _ & ? & _). done. }
  cbn [snd]. pose proof (Inv_nodup_parts _ _ I) as [N1 N2].
  apply (contents_elem opts) in E as [<- [[H Q]|[H Q]]]; [| |done]; rewrite Q.
  - destruct (extract_elem e _ N1 H) as (r & -> & P). cbn.
    destruct (contents_drop_a1in s e r (inv_nodup _ _ I) P) as [C N]. split; [|exact C].
    pose proof (inv_a1in _ _ I) as F. rewrite P in F. inversion_clear F.
    apply Inv_move; try apply I; try done.
    + by rewrite C, fmap_delete, (inv_index _ _ I).
    + rewrite (inv_a1in_bytes _ _ I), (total_perm _ _ P). unfold total. cbn [foldr]. lia.
    + intros g G. rewrite C. apply lookup_delete_None. right. by apply (inv_ghost_free _ _ I).
  - destruct (extract_elem e _ N2 H) as (r & -> & P). cbn.
    destruct (contents_drop_am s e r (inv_nodup _ _ I) P) as [C N]. split; [|exact C].
    pose proof (inv_am _ _ I) as F. rewrite P in F. inversion_clear F.
    apply Inv_move; try apply I; try done.
    + by rewrite C, fmap_delete, (inv_index _ _ I).
    + rewrite (inv_am_bytes _ _ I), (total_perm _ _ P). unfold total. cbn [foldr]. lia.
    + intros g G. rewrite C. apply lookup_delete_None. right. by apply (inv_ghost_free _ _ I).
Qed.

(** The first loop runs until A1in is within its budget or holds nothing
    evictable: its bound is enough. *)
Lemma shrink_a1in_budget opts fuel n s :
  Inv opts s -> (length (a1in_ s) < fuel)%nat ->
  let s' := (shrink_a1in opts fuel n s).2 in
  a1in_bytes_used_ s' + n <= a1in_capacity_ opts \/
  Forall (fun e => IsNotEvictable opts e = true) (a1in_ s').
Proof.
  revert s. induction fuel as [|fuel IH]; intros s I L; cbn [shrink_a1in]; [lia|].
  destruct (a1in_ s) as [|x l] eqn:Ea; [right; cbn; by rewrite Ea|].
  destruct (_ <? _) eqn:C; reflect_bools; [|left; cbn; lia].
  destruct (evict_a1in opts s) as [[k s1]|] eqn:E.
  - apply evict_a1in_reported in E as (R & _ & Ln); [|done]. rewrite Ea in Ln.
    specialize (IH s1 (proj1 R) ltac:(cbn in *; lia)).
    by destruct (shrink_a1in _ _ _ _) as [ks s2].
  - right. cbn. unfold evict_a1in in E. pose proof (victim_spec opts (a1in_ s)) as V.
    by destruct (victim opts (a1in_ s)) as [[]|].
Qed.

(** ** Sequences of calls *)

Inductive op := OLookup (k : bytes) | OInsert (k d : bytes) (kind : Z) | OErase (k : bytes).

Definition run_op (opts : Options) (s : Tier) (o : op) : Tier :=
  match o with
  | OLookup k => (Lookup k s).2
  | OInsert k d kind => (Insert opts k d kind s).2
  | OErase k => (Erase k s).2
  end.

Definition run (opts : Options) (ops : list op) : Tier := fold_left (run_op opts) ops empty_tier.

Lemma Inv_empty opts : Inv opts empty_tier.
Proof.
  constructor; cbn; try done; try constructor; try lia.
Qed.

Lemma run_Inv opts ops : Inv opts (run opts ops).
Proof.
  unfold run. generalize (Inv_empty opts). generalize empty_tier.
  induction ops as [|o ops IH]; intros s I; [done|]. cbn [fold_left]. apply IH.
  destruct o; cbn [run_op].
  - by apply Lookup_Inv.
  - pose proof (Insert_spec opts k d kind s I) as H. destruct (Insert _ _ _ _ _) as [ks s'].
    exact (proj1 H).
  - by apply Erase_Inv.
Qed.

(** Over every sequence of lookups, inserts and erasures the tier's
    bookkeeping stays exact: no key is resident twice, the index holds exactly
    the resident keys with their queues, each byte counter is the sum of its
    queue's entries, the ghost index is the ghost list, and the ghost list has at
    most its maximum, no duplicates and no resident key. *)
Theorem dram_bookkeeping opts ops :
  let s := run opts ops in
  NoDup (key <$> (a1in_ s ++ am_ s)) /\
  (forall k qu, index_ s !! k = Some qu <->
     exists e, e ∈ (match qu with A1in => a1in_ s | Am => am_ s end) /\ key e = k) /\
  a1in_bytes_used_ s = total (a1in_ s) /\ am_bytes_used_ s = total (am_ s) /\
  (GhostSize s <= a1out_max_ opts)%nat /\ NoDup (a1out_ s) /\
  (forall k, k ∈ ghost_index_ s <-> k ∈ a1out_ s) /\
  (forall k, k ∈ a1out_ s -> index_ s !! k = None).
Proof.
  intros s. pose proof (run_Inv opts ops) as I. fold s in I.
  split; [apply I|]. split; [|split; [apply I|split; [apply I|split; [apply I|split; [apply I|split]]]]].
  - intros k qu. rewrite (inv_index _ _ I), lookup_fmap, fmap_Some. split.
    + intros (e & E & ->). exists e. apply (contents_elem opts) in E as [<- [[? ->]|[? ->]]]; done.
    + intros (e & E & <-). exists e.
      destruct qu; (split; [apply (contents_elem opts); [done|]|]); try split; try done.
      * left. split; [done|]. by apply (proj1 (Forall_forall _ _) (inv_a1in _ _ I)).
      * symmetry. by apply (proj1 (Forall_forall _ _) (inv_a1in _ _ I)).
      * right. split; [done|]. by apply (proj1 (Forall_forall _ _) (inv_am _ _ I)).
      * symmetry. by apply (proj1 (Forall_forall _ _) (inv_am _ _ I)).
  - intros k. rewrite (inv_ghost_index _ _ I). apply elem_of_list_to_set.
  - intros k K. rewrite (inv_index _ _ I), lookup_fmap. by rewrite (inv_ghost_free _ _ I k K).
Qed.

(** An insert in any reachable state. The keys reported to the eviction
    callback are exactly those whose entries left, each once, and the policy of
    none of them forbids it; every other entry is as it was, and the inserted
    one, if it was not itself evicted, has the new bytes and kind in the queue of
    the 2Q rule: Am when its key was a ghost, its old queue when it was
    resident, A1in otherwise. Afterwards the tier is within its capacity, or no
    entry but the inserted one may be evicted. *)
Theorem Insert_reports opts ops k d kind ks s' :
  let s := run opts ops in
  Insert opts k d kind s = (ks, s') ->
  let kept := mkEntry k (if bool_decide (k ∈ ghost_index_ s) then Am
                         else default A1in (q <$> entry_at k s)) d kind in
  let before x := if bool_decide (x = k) then Some kept else entry_at x s in
  NoDup ks /\
  (forall x, entry_at x s' = if bool_decide (x ∈ ks) then None else before x) /\
  (forall x, x ∈ ks -> exists e, before x = Some e /\ IsNotEvictable opts e = false) /\
  (UsedBytes s' <= capacity_bytes_ opts \/
   forall x e, x <> k -> entry_at x s' = Some e -> IsNotEvictable opts e = true).
Proof.
  intros s E kept before. pose proof (run_Inv opts ops) as I. fold s in I.
  pose proof (Insert_spec opts k d kind s I) as H. rewrite E in H.
  destruct H as (I' & N & A & B & C).
  assert (Hb : forall x, before x = inserted k d kind s !! x).
  { intros x. unfold before, inserted, kept. rewrite !(entry_at_contents opts) by done.
    rewrite (bool_decide_ext (k ∈ ghost_index_ s) (k ∈ a1out_ s)).
    - case_bool_decide as X; [subst; by rewrite lookup_insert_eq|by rewrite lookup_insert_ne].
    - rewrite (inv_ghost_index _ _ I). apply elem_of_list_to_set. }
  split; [done|]. split; [|split].
  - intros x. by rewrite (entry_at_contents opts), A, Hb.
  - intros x X. rewrite Hb. by apply B.
  - destruct C as [C|C]; [by left|right]. intros x e. rewrite (entry_at_contents opts) by done. apply C.
Qed.

Definition w_options : Options := mkOptions 8 4 (Some {[16 := ValuePolicyPersistentStub]}).

Lemma Insert_reports_witness :
  exists s', Insert w_options [x02] [x00] 0 (run w_options [OInsert [x01] [x00; x00] 0]) = ([[x01]], s') /\
    entry_at [x01] s' = None /\ entry_at [x02] s' = Some (mkEntry [x02] A1in [x00] 0).
Proof.
  eexists. split; [vm_compute; reflexivity|].
  edestruct (Insert_reports w_options [OInsert [x01] [x00; x00] 0] [x02] [x00] 0 [[x01]]) as (_ & H & _).
  { vm_compute. reflexivity. }
  split; (etransitivity; [apply H|]); vm_compute; reflexivity.
Defined.

(** A resident entry of Am takes the kind of a later insert of its key, so an
    entry that must not be evicted can be in Am. *)
Example pinned_entry_reaches_am :
  exists e, e ∈ am_ (run w_options
    [OInsert [x01] [x00; x00] 0; OInsert [x02] [x00] 0; OInsert [x01] [x00] 0; OInsert [x01] [x00] 16]) /\
  IsNotEvictable w_options e = true.
Proof. vm_compute. eexists. split; [by left|reflexivity]. Qed.

End Dram.
