(* ===== verification/Scheduler.v ===== *)
(** * The priority scheduler

    [PriorityScheduler] of transport/priority_scheduler.cpp: three priority
    classes, each with a bandwidth reservation, one FIFO per tenant and a
    round-robin order of the tenants that hold work. [TryNext] takes the first
    class, and in it the first tenant, whose head item is admissible. Every call
    holds the scheduler's mutex, so each is one step; the metrics are left out.
    [void* user] is carried by the item and not looked at; it is left out.

    The theorems: every submitted item is queued, in flight or completed, exactly
    once, and the counters are exact; what [TryNext] may return and when it
    returns nothing; and that the starvation override does not protect a class
    while a higher one keeps admitting. *)

From S2P Require Import Prelude.
From Stdlib Require Import ZArith Lia.

Open Scope Z_scope.

Module Sched.

(** ** State *)

Inductive Priority := P0 | P1 | P2.
#[global] Instance priority_eq_decision : EqDecision Priority.
Proof. solve_decision. Defined.

Definition idx (p : Priority) : nat := match p with P0 => 0 | P1 => 1 | P2 => 2 end.
Definition priorities : list Priority := [P0; P1; P2].

Record WorkItem := mkWork { id : Z; priority : Priority; wbytes : Z; tenant_hash : Z }.

Record Class := mkClass {
  tenant_queues : gmap Z (list WorkItem); rr_order : list Z; total_depth : Z;
  in_flight : Z; reservation : Z; consecutive_skips : Z }.

Record Options := mkOptions {
  total_window_bytes : Z; p0_pct : Z; p1_pct : Z; p2_pct : Z; max_starvation_skips : Z }.

Record Scheduler := mkSched {
  class_0 : Class; class_1 : Class; class_2 : Class;
  max_starvation_skips_ : Z; next_id_ : Z;
  id_to_class_ : gmap Z Priority; id_to_bytes_ : gmap Z Z;
  normal_admissions_ : Z; forced_admissions_ : Z }.

Definition classes_ (p : Priority) (s : Scheduler) : Class :=
  match p with P0 => class_0 s | P1 => class_1 s | P2 => class_2 s end.

Definition set_class (p : Priority) (c : Class) (s : Scheduler) : Scheduler :=
  match p with
  | P0 => mkSched c (class_1 s) (class_2 s) (max_starvation_skips_ s) (next_id_ s)
            (id_to_class_ s) (id_to_bytes_ s) (normal_admissions_ s) (forced_admissions_ s)
  | P1 => mkSched (class_0 s) c (class_2 s) (max_starvation_skips_ s) (next_id_ s)
            (id_to_class_ s) (id_to_bytes_ s) (normal_admissions_ s) (forced_admissions_ s)
  | P2 => mkSched (class_0 s) (class_1 s) c (max_starvation_skips_ s) (next_id_ s)
            (id_to_class_ s) (id_to_bytes_ s) (normal_admissions_ s) (forced_admissions_ s)
  end.

(** ** Operations *)

Definition new_class (r : Z) : Class := mkClass ∅ [] 0 0 r 0.

(** The constructor: percentages that do not sum to 100 are scaled; the sum is
    of 32-bit fields, the product of 64-bit ones. *)
Definition make (o : Options) : Scheduler :=
  let sum := u32 (p0_pct o + p1_pct o + p2_pct o) in
  let denom := if sum =? 0 then 100 else sum in
  let share pct := u64 (total_window_bytes o * pct) / denom in
  mkSched (new_class (share (p0_pct o))) (new_class (share (p1_pct o))) (new_class (share (p2_pct o)))
    (max_starvation_skips o) 1 ∅ ∅ 0 0.

(** [Submit(p, tenant_hash, bytes, user)]. *)
Definition Submit (p : Priority) (tenant bytes_ : Z) (s : Scheduler) : Z * Scheduler :=
  let wid := next_id_ s in
  let c := classes_ p s in
  let q := default [] (tenant_queues c !! tenant) in
  let rr := match q with [] => rr_order c ++ [tenant] | _ => rr_order c end in
  let c' := mkClass (<[tenant := q ++ [mkWork wid p bytes_ tenant]]> (tenant_queues c)) rr
              (total_depth c + 1) (in_flight c) (reservation c) (consecutive_skips c) in
  let s1 := set_class p c' s in
  (wid, mkSched (class_0 s1) (class_1 s1) (class_2 s1) (max_starvation_skips_ s) (u64 (wid + 1))
          (<[wid := p]> (id_to_class_ s)) (<[wid := bytes_]> (id_to_bytes_ s))
          (normal_admissions_ s) (forced_admissions_ s)).

(** The unused reservation of the classes above [p]. *)
Definition loan (p : Priority) (s : Scheduler) : Z :=
  fold_left (fun l i =>
    if Nat.ltb (idx i) (idx p) then
      let h := classes_ i s in
      if in_flight h <? reservation h then u64 (l + (reservation h - in_flight h)) else l
    else l) priorities 0.

Definition AdmissibleLocked (s : Scheduler) (c : Class) (w : WorkItem) : bool :=
  if u64 (in_flight c + wbytes w) <=? reservation c then true
  else if max_starvation_skips_ s <=? consecutive_skips c then true
  else u64 (in_flight c + wbytes w) <=? u64 (reservation c + loan (priority w) s).

Definition with_rr (rr : list Z) (c : Class) : Class :=
  mkClass (tenant_queues c) rr (total_depth c) (in_flight c) (reservation c) (consecutive_skips c).

Definition with_skips (n : Z) (c : Class) : Class :=
  mkClass (tenant_queues c) (rr_order c) (total_depth c) (in_flight c) (reservation c) n.

(** The loop over the rotation: an item, whether it was forced, and the class. *)
Fixpoint rr_walk (n : nat) (s : Scheduler) (c : Class) : option (WorkItem * bool) * Class :=
  match n with
  | O => (None, with_skips (u32 (consecutive_skips c + 1)) c)
  | S n =>
      match rr_order c with
      | [] => (None, c)
      | t :: rest =>
          match tenant_queues c !! t with
          | None | Some [] => rr_walk n s (with_rr rest c)
          | Some (w :: q) =>
              if AdmissibleLocked s c w then
                let forced := (reservation c <? u64 (in_flight c + wbytes w)) &&
                              (max_starvation_skips_ s <=? consecutive_skips c) in
                let c' := match q with
                          | [] => mkClass (delete t (tenant_queues c)) rest (total_depth c - 1)
                                    (u64 (in_flight c + wbytes w)) (reservation c) 0
                          | _ => mkClass (<[t := q]> (tenant_queues c)) (rest ++ [t]) (total_depth c - 1)
                                   (u64 (in_flight c + wbytes w)) (reservation c) 0
                          end in
                (Some (w, forced), c')
              else rr_walk n s (with_rr (rest ++ [t]) c)
          end
      end
  end.

Definition TryDequeueClassLocked (p : Priority) (s : Scheduler) : option WorkItem * Scheduler :=
  let c := classes_ p s in
  match rr_order c with
  | [] => (None, set_class p (with_skips 0 c) s)
  | _ =>
      let '(r, c') := rr_walk (length (rr_order c)) s c in
      let s' := set_class p c' s in
      match r with
      | None => (None, s')
      | Some (w, forced) =>
          (Some w,
           mkSched (class_0 s') (class_1 s') (class_2 s') (max_starvation_skips_ s') (next_id_ s')
             (id_to_class_ s') (id_to_bytes_ s')
             (normal_admissions_ s' + if forced then 0 else 1)
             (forced_admissions_ s' + if forced then 1 else 0))
      end
  end.

Fixpoint try_classes (ps : list Priority) (s : Scheduler) : option WorkItem * Scheduler :=
  match ps with
  | [] => (None, s)
  | p :: ps =>
      let '(r, s') := TryDequeueClassLocked p s in
      match r with
      | Some w => (Some w, s')
      | None => try_classes ps s'
      end
  end.

Definition TryNext (s : Scheduler) : option WorkItem * Scheduler := try_classes priorities s.

Definition OnComplete (wid : Z) (s : Scheduler) : bool * Scheduler :=
  match id_to_class_ s !! wid, id_to_bytes_ s !! wid with
  | Some p, Some b =>
      let c := classes_ p s in
      let s1 := set_class p (mkClass (tenant_queues c) (rr_order c) (total_depth c)
                  (u64 (in_flight c - b)) (reservation c) (consecutive_skips c)) s in
      (true, mkSched (class_0 s1) (class_1 s1) (class_2 s1) (max_starvation_skips_ s) (next_id_ s)
               (delete wid (id_to_class_ s)) (delete wid (id_to_bytes_ s))
               (normal_admissions_ s) (forced_admissions_ s))
  | _, _ => (false, s)
  end.

Definition HasWork (s : Scheduler) : bool :=
  existsb (fun p => 0 <? total_depth (classes_ p s)) priorities.
Definition QueueDepth (p : Priority) (s : Scheduler) : Z := total_depth (classes_ p s).
Definition InFlightBytes (p : Priority) (s : Scheduler) : Z := in_flight (classes_ p s).
Definition Skips (p : Priority) (s : Scheduler) : Z := consecutive_skips (classes_ p s).
Definition TenantCount (p : Priority) (s : Scheduler) : nat := size (tenant_queues (classes_ p s)).

(** ** Class invariant *)

(** The queued items of a class. *)
Definition queued_of (m : gmap Z (list WorkItem)) : list WorkItem := concat (map_to_list m).*2.
Definition queued (c : Class) : list WorkItem := queued_of (tenant_queues c).

(** The rotation lists the tenants that hold work, once each; queues are not
    empty and hold the tenant's items of this class; the depth is their number. *)
Record CInv (p : Priority) (c : Class) : Prop := {
  c_nodup : NoDup (rr_order c);
  c_rr : forall t, t ∈ rr_order c <-> is_Some (tenant_queues c !! t);
  c_queue : forall t q, tenant_queues c !! t = Some q ->
    q <> [] /\ Forall (fun w => priority w = p /\ tenant_hash w = t) q;
  c_depth : total_depth c = zlen (queued c) }.

Lemma queued_of_insert m t q : queued_of (<[t := q]> m) ≡ₚ q ++ queued_of (delete t m).
Proof.
  unfold queued_of. rewrite <- insert_delete_eq, map_to_list_insert by apply lookup_delete_eq. done.
Qed.

Lemma queued_of_delete m t q : m !! t = Some q -> queued_of m ≡ₚ q ++ queued_of (delete t m).
Proof. intros H. rewrite <- (insert_id m t q H) at 1. by rewrite queued_of_insert. Qed.

Lemma queued_of_absent m t : m !! t = None -> queued_of (delete t m) = queued_of m.
Proof. intros H. by rewrite delete_id. Qed.

Lemma queued_elem p c w :
  CInv p c -> w ∈ queued c ->
  exists q, tenant_queues c !! tenant_hash w = Some q /\ w ∈ q /\ priority w = p.
Proof.
  intros I W. unfold queued, queued_of in W. apply list_elem_of_In, in_concat in W as (q & Q & W).
  apply list_elem_of_In in Q, W. apply list_elem_of_fmap in Q as ([t q'] & -> & Q).
  apply elem_of_map_to_list in Q. destruct (c_queue _ _ I t _ Q) as [_ F].
  destruct (proj1 (Forall_forall _ _) F w W) as [? <-]. eauto.
Qed.

Lemma CInv_rr p c rr :
  CInv p c -> rr ≡ₚ rr_order c -> CInv p (with_rr rr c).
Proof.
  intros I P. constructor; cbn; try apply I.
  - rewrite P. apply I.
  - intros t. rewrite P. apply I.
Qed.

(** Taking the head item of a tenant. *)
Definition dequeued (t : Z) (w : WorkItem) (q : list WorkItem) (rest : list Z) (c : Class) : Class :=
  match q with
  | [] => mkClass (delete t (tenant_queues c)) rest (total_depth c - 1)
            (u64 (in_flight c + wbytes w)) (reservation c) 0
  | _ => mkClass (<[t := q]> (tenant_queues c)) (rest ++ [t]) (total_depth c - 1)
           (u64 (in_flight c + wbytes w)) (reservation c) 0
  end.

Lemma dequeued_CInv p c t w q rest :
  CInv p c -> rr_order c = t :: rest -> tenant_queues c !! t = Some (w :: q) ->
  CInv p (dequeued t w q rest c) /\ queued c ≡ₚ w :: queued (dequeued t w q rest c).
Proof.
  intros I R T. pose proof (c_nodup _ _ I) as N. rewrite R in N.
  pose proof (queued_of_delete _ _ _ T) as P. fold (queued c) in P.
  pose proof (c_depth _ _ I) as D. rewrite P in D. cbn [app length] in D.
  assert (RR : forall x, x <> t -> x ∈ rest <-> is_Some (tenant_queues c !! x)).
  { intros x X. rewrite <- (c_rr _ _ I x), R, elem_of_cons. tauto. }
  destruct (c_queue _ _ I t _ T) as [_ F]. apply NoDup_cons in N as [Nt N].
  destruct q as [|w2 q]; cbn [dequeued].
  - cbn [app] in D. split; [|done].
    constructor; cbn [tenant_queues rr_order total_depth]; [done| |intros x y L|unfold queued; cbn [tenant_queues]; lia].
    + intros x. destruct (decide (x = t)) as [->|X].
      * rewrite lookup_delete_eq. split; [done|by intros []].
      * rewrite lookup_delete_ne by done. by apply RR.
    + apply lookup_delete_Some in L as [X L]. by apply (c_queue _ _ I).
  - split.
    + constructor; cbn [tenant_queues rr_order total_depth].
      * apply NoDup_app. split; [done|]. split; [|apply NoDup_singleton].
        intros x X Y. apply list_elem_of_singleton in Y as ->. done.
      * intros x. rewrite elem_of_app, list_elem_of_singleton. destruct (decide (x = t)) as [->|X].
        -- rewrite lookup_insert_eq. split; eauto.
        -- rewrite lookup_insert_ne by done. rewrite <- (RR x X). tauto.
      * intros x y L. apply lookup_insert_Some in L as [[<- <-]|[X L]]; [|by apply (c_queue _ _ I)].
        split; [done|]. by inversion F.
      * unfold queued. cbn [tenant_queues]. rewrite queued_of_insert. cbn [app length] in *. lia.
    + rewrite P. unfold queued. cbn [tenant_queues]. by rewrite queued_of_insert.
Qed.

(** What the rotation walk does: it takes the head item of some tenant that is
    admissible, or every tenant's head is not and the skip count goes up. *)
Lemma rr_walk_spec p s n : forall c done_,
  CInv p c -> (exists todo, rr_order c = todo ++ done_ /\ length todo = n) ->
  (forall t w q, t ∈ done_ -> tenant_queues c !! t = Some (w :: q) -> AdmissibleLocked s c w = false) ->
  let '(r, c') := rr_walk n s c in
  match r with
  | Some (w, forced) =>
      exists t q rest c0, CInv p c0 /\ rr_order c0 = t :: rest /\ tenant_queues c0 = tenant_queues c /\
        c0 = with_rr (rr_order c0) c /\ tenant_queues c !! t = Some (w :: q) /\
        AdmissibleLocked s c w = true /\ c' = dequeued t w q rest c0
  | None =>
      (exists rr, rr ≡ₚ rr_order c /\ c' = with_skips (u32 (consecutive_skips c + 1)) (with_rr rr c)) /\
      (forall t w q, tenant_queues c !! t = Some (w :: q) -> AdmissibleLocked s c w = false)
  end.
Proof.
  induction n as [|n IH]; intros c done_ I (todo & R & L) B; cbn [rr_walk].
  { destruct todo; [|done]. split; [exists (rr_order c); by destruct c|].
    intros t w q T. apply (B t w q); [|done]. rewrite <- (app_nil_l done_), <- R. apply (c_rr _ _ I). eauto. }
  destruct todo as [|t todo]; [done|]. rewrite R. cbn [app].
  assert (T : is_Some (tenant_queues c !! t)) by (apply (c_rr _ _ I); rewrite R; by left).
  destruct T as [q T]. destruct (c_queue _ _ I t q T) as [Qn _]. rewrite T.
  destruct q as [|w q]; [done|]. destruct (AdmissibleLocked s c w) eqn:A.
  - exists t, q, (todo ++ done_), c. split; [done|]. split; [done|]. split; [done|].
    split; [by destruct c|done].
  - assert (P : (todo ++ done_) ++ [t] ≡ₚ rr_order c).
    { rewrite R. cbn [app]. rewrite <- app_assoc, (Permutation_app_comm done_ [t]). cbn [app].
      symmetry. apply Permutation_middle. }
    specialize (IH (with_rr ((todo ++ done_) ++ [t]) c) (done_ ++ [t])).
    destruct (rr_walk n s _) as [[[x f]|] c'].
    + destruct IH as (t' & q' & rest & c0 & ?); [by apply CInv_rr| | |].
      * exists todo. cbn in *. split; [by rewrite app_assoc|lia].
      * intros t' w' q' X E. apply elem_of_app in X as [X|X]; [by apply (B t' w' q')|].
        apply list_elem_of_singleton in X as ->. cbn in E.
        rewrite T in E. injection E as <- <-. exact A.
      * exists t', q', rest, c0. done.
    + destruct IH as [(rr & Prr & ->) H]; [by apply CInv_rr| | |].
      * exists todo. cbn in *. split; [by rewrite app_assoc|lia].
      * intros t' w' q' X E. apply elem_of_app in X as [X|X]; [by apply (B t' w' q')|].
        apply list_elem_of_singleton in X as ->. cbn in E.
        rewrite T in E. injection E as <- <-. exact A.
      * split; [|done]. exists rr. split; [|done].
        etransitivity; [exact Prr|]. cbn. by rewrite P, R.
Qed.

(** ** Scheduler invariant *)

Definition SInv (s : Scheduler) : Prop := forall p, CInv p (classes_ p s).

(** The fields [TryNext] leaves alone. *)
Definition same_ids (s s' : Scheduler) : Prop :=
  next_id_ s' = next_id_ s /\ id_to_class_ s' = id_to_class_ s /\ id_to_bytes_ s' = id_to_bytes_ s /\
  max_starvation_skips_ s' = max_starvation_skips_ s.

Lemma same_ids_trans s s1 s2 : same_ids s s1 -> same_ids s1 s2 -> same_ids s s2.
Proof. unfold same_ids. intuition congruence. Qed.

(** No head item of class [p] is admissible. *)
Definition blocked (p : Priority) (s : Scheduler) : Prop :=
  forall t w q, tenant_queues (classes_ p s) !! t = Some (w :: q) ->
    AdmissibleLocked s (classes_ p s) w = false.

Lemma classes_set p p' c s :
  classes_ p (set_class p' c s) = if decide (p = p') then c else classes_ p s.
Proof. by destruct p, p'. Qed.

Lemma set_class_same_ids p c s : same_ids s (set_class p c s).
Proof. by destruct p. Qed.

(** One class is tried. *)
Lemma TryDequeue_spec p s :
  SInv s ->
  let '(r, s') := TryDequeueClassLocked p s in
  SInv s' /\ same_ids s s' /\ (forall p', p' <> p -> classes_ p' s' = classes_ p' s) /\
  reservation (classes_ p s') = reservation (classes_ p s) /\
  match r with
  | Some w =>
      exists q, tenant_queues (classes_ p s) !! tenant_hash w = Some (w :: q) /\
        AdmissibleLocked s (classes_ p s) w = true /\
        queued (classes_ p s) ≡ₚ w :: queued (classes_ p s') /\
        in_flight (classes_ p s') = u64 (in_flight (classes_ p s) + wbytes w) /\
        default [] (tenant_queues (classes_ p s') !! tenant_hash w) = q
  | None =>
      tenant_queues (classes_ p s') = tenant_queues (classes_ p s) /\
      in_flight (classes_ p s') = in_flight (classes_ p s) /\ blocked p s
  end.
Proof.
  intros I. unfold TryDequeueClassLocked. pose proof (I p) as Ip.
  assert (SET : forall c, CInv p c -> SInv (set_class p c s)).
  { intros c C p'. rewrite classes_set. destruct (decide (p' = p)) as [->|]; [done|apply I]. }
  assert (OTH : forall c p', p' <> p -> classes_ p' (set_class p c s) = classes_ p' s).
  { intros c p' N. rewrite classes_set. by destruct (decide (p' = p)). }
  destruct (rr_order (classes_ p s)) as [|t0 rr0] eqn:R.
  { split; [apply SET; destruct Ip; by constructor|]. split; [apply set_class_same_ids|].
    split; [apply OTH|]. rewrite classes_set, decide_True by done. do 3 (split; [done|]).
    intros t w q T. assert (X : t ∈ rr_order (classes_ p s)) by (apply (c_rr _ _ Ip); eauto).
    rewrite R in X. by apply elem_of_nil in X. }
  rewrite <- R. pose proof (rr_walk_spec p s (length (rr_order (classes_ p s))) (classes_ p s) [] Ip) as W.
  destruct (rr_walk _ _ _) as [[[w f]|] c'].
  - destruct W as (t & q & rest & c0 & C0 & Rc & Tq & E0 & T & A & ->);
      [exists (rr_order (classes_ p s)); by rewrite app_nil_r|intros t w' q' X; by apply elem_of_nil in X|].
    assert (Ht : tenant_hash w = t).
    { destruct (c_queue _ _ Ip _ _ T) as [_ F]. inversion_clear F as [|? ? [_ ?]]. done. }
    destruct (dequeued_CInv p c0 t w q rest C0 Rc) as [CD PD]; [by rewrite Tq|].
    set (s' := mkSched _ _ _ _ _ _ _ _ _).
    assert (CL : forall p', classes_ p' s' = classes_ p' (set_class p (dequeued t w q rest c0) s)) by by intros [].
    split; [intros p'; rewrite CL; by apply SET|]. split; [by destruct p|].
    split; [intros p' N; rewrite CL; by apply OTH|]. rewrite CL, classes_set, decide_True by done.
    unfold queued in PD. rewrite Tq in PD.
    assert (Fl : in_flight c0 = in_flight (classes_ p s) /\ reservation c0 = reservation (classes_ p s)).
    { by rewrite E0. }
    split; [destruct q; apply Fl|]. exists q. rewrite Ht. split; [done|]. split; [done|]. split; [done|].
    split; [destruct q; cbn [dequeued in_flight]; by rewrite (proj1 Fl)|].
    destruct q; cbn [dequeued tenant_queues]; by rewrite ?lookup_delete_eq, ?lookup_insert_eq.
  - destruct W as [(rr & P & ->) B];
      [exists (rr_order (classes_ p s)); by rewrite app_nil_r|intros t w' q' X; by apply elem_of_nil in X|].
    split; [apply SET; pose proof (CInv_rr p _ rr Ip P) as [? ? ? ?]; by constructor|].
    split; [apply set_class_same_ids|]. split; [apply OTH|].
    rewrite classes_set, decide_True by done. done.
Qed.

(** The classes keep what the admission test reads. *)
Definition same_credit (s s' : Scheduler) : Prop :=
  max_starvation_skips_ s' = max_starvation_skips_ s /\
  forall p, in_flight (classes_ p s') = in_flight (classes_ p s) /\
            reservation (classes_ p s') = reservation (classes_ p s).

Lemma AdmissibleLocked_credit s s' c w :
  same_credit s s' -> AdmissibleLocked s' c w = AdmissibleLocked s c w.
Proof.
  intros [M H]. unfold AdmissibleLocked, loan, priorities. cbn [fold_left].
  by rewrite M, (proj1 (H P0)), (proj2 (H P0)), (proj1 (H P1)), (proj2 (H P1)), (proj1 (H P2)), (proj2 (H P2)).
Qed.

(** What [TryNext] returned and did to the state. *)
Definition dispatched (s : Scheduler) (w : WorkItem) (s' : Scheduler) : Prop :=
  let p := priority w in
  exists q, tenant_queues (classes_ p s) !! tenant_hash w = Some (w :: q) /\
    AdmissibleLocked s (classes_ p s) w = true /\
    default [] (tenant_queues (classes_ p s') !! tenant_hash w) = q /\
    queued (classes_ p s) ≡ₚ w :: queued (classes_ p s') /\
    in_flight (classes_ p s') = u64 (in_flight (classes_ p s) + wbytes w) /\
    (forall p', p' <> p -> tenant_queues (classes_ p' s') = tenant_queues (classes_ p' s) /\
       in_flight (classes_ p' s') = in_flight (classes_ p' s)).

Lemma try_classes_spec s0 ps : forall s,
  NoDup ps -> SInv s -> same_credit s0 s ->
  (forall p, p ∈ ps -> classes_ p s = classes_ p s0) ->
  (forall p, tenant_queues (classes_ p s) = tenant_queues (classes_ p s0)) ->
  let '(r, s') := try_classes ps s in
  SInv s' /\ same_ids s s' /\
  match r with
  | Some w => priority w ∈ ps /\ dispatched s0 w s' /\
      exists l l', ps = l ++ priority w :: l' /\ Forall (fun p => blocked p s0) l
  | None => Forall (fun p => blocked p s0) ps /\
      forall p, tenant_queues (classes_ p s') = tenant_queues (classes_ p s0) /\
                in_flight (classes_ p s') = in_flight (classes_ p s0)
  end.
Proof.
  induction ps as [|p ps IH]; intros s N I SC U TQ; cbn [try_classes].
  { split; [done|]. split; [done|]. split; [done|]. intros p. split; [apply TQ|apply SC]. }
  pose proof (TryDequeue_spec p s I) as T. destruct (TryDequeueClassLocked p s) as [r s1].
  destruct T as (I1 & ID & OTH & RS & T). pose proof (U p ltac:(by left)) as Up.
  apply NoDup_cons in N as [Np N].
  destruct r as [w|].
  - destruct T as (q & Tw & A & P & F & Q).
    assert (priority w = p).
    { destruct (c_queue _ _ (I p) _ _ Tw) as [_ X]. by inversion_clear X as [|? ? [? _]]. }
    split; [done|]. split; [done|]. subst p. split; [by left|]. split.
    + exists q. rewrite Up in Tw, A, P, F. rewrite (AdmissibleLocked_credit _ _ _ _ SC) in A.
      do 5 (split; [done|]). intros p' X. rewrite (OTH p' X). split; [apply TQ|apply SC].
    + exists [], ps. done.
  - destruct T as (Tq & Fl & B). specialize (IH s1 N I1).
    destruct (try_classes ps s1) as [r s']. destruct IH as (I' & ID' & R).
    + destruct SC as [M H]. split; [destruct ID as (_ & _ & _ & ->); done|]. intros p'.
      destruct (decide (p' = p)) as [->|X]; [rewrite Fl, RS; apply H|rewrite (OTH p' X); apply H].
    + intros p' X. rewrite OTH; [apply U; by right|]. intros ->. done.
    + intros p'. destruct (decide (p' = p)) as [->|X]; [by rewrite Tq|by rewrite (OTH p' X)].
    + assert (B0 : blocked p s0).
      { intros t w q L. rewrite <- (AdmissibleLocked_credit s0 s), <- Up by done. eapply B. by rewrite Up. }
      split; [done|]. split; [by eapply same_ids_trans|].
      destruct r as [w|].
      * destruct R as (E & D & l & l' & -> & Fb). split; [by right|]. split; [done|].
        exists (p :: l), l'. split; [done|]. by constructor.
      * destruct R as [Fb R]. split; [by constructor|done].
Qed.

Lemma TryNext_spec s :
  SInv s ->
  let '(r, s') := TryNext s in
  SInv s' /\ same_ids s s' /\
  match r with
  | Some w => dispatched s w s' /\ forall p, (idx p < idx (priority w))%nat -> blocked p s
  | None => (forall p, blocked p s) /\
      forall p, tenant_queues (classes_ p s') = tenant_queues (classes_ p s) /\
                in_flight (classes_ p s') = in_flight (classes_ p s)
  end.
Proof.
  intros I. unfold TryNext. pose proof (try_classes_spec s priorities s) as T.
  destruct (try_classes priorities s) as [r s']. destruct T as (I' & ID & R); try done.
  { apply (bool_decide_unpack _). vm_compute. exact Logic.I. }
  split; [done|]. split; [done|]. destruct r as [w|].
  - destruct R as (_ & D & l & l' & E & B). split; [done|]. intros p L.
    apply (proj1 (Forall_forall _ _) B). unfold priorities in E.
    destruct (priority w); destruct p; cbn in L; try lia;
      destruct l as [|? [|? l]]; cbn in E; injection E; intros; subst; try discriminate; set_solver.
  - destruct R as [B R]. split; [|done]. intros p. apply (proj1 (Forall_forall _ _) B).
    destruct p; unfold priorities; set_solver.
Qed.

(** ** Runs *)

(** The scheduler with the history of its items. *)
Record Run := mkRun {
  sched : Scheduler; submitted : list WorkItem; flying : list WorkItem; completed : list WorkItem }.

(** Any submission, any [TryNext], and a completion of an item that [TryNext]
    returned and that has not completed, as the contract of [OnComplete] asks;
    fewer than 2^64 submissions. *)
Inductive step : Run -> Run -> Prop :=
| step_submit p t b s sub fl co :
    next_id_ s < 2 ^ 64 - 1 ->
    step (mkRun s sub fl co)
         (mkRun (Submit p t b s).2 (mkWork (Submit p t b s).1 p b t :: sub) fl co)
| step_next s sub fl co :
    step (mkRun s sub fl co)
         (mkRun (TryNext s).2 sub (match (TryNext s).1 with Some w => w :: fl | None => fl end) co)
| step_complete s sub fl fl' co w :
    fl ≡ₚ w :: fl' ->
    step (mkRun s sub fl co) (mkRun (OnComplete (id w) s).2 sub fl' (w :: co)).

Definition start (o : Options) : Run := mkRun (make o) [] [] [].

Definition all_queued (s : Scheduler) : list WorkItem :=
  queued (class_0 s) ++ queued (class_1 s) ++ queued (class_2 s).

Definition class_bytes (p : Priority) (l : list WorkItem) : Z :=
  foldr (fun w n => if decide (priority w = p) then wbytes w + n else n) 0 l.

Record RInv (r : Run) : Prop := {
  r_sinv : SInv (sched r);
  r_items : submitted r ≡ₚ all_queued (sched r) ++ flying r ++ completed r;
  r_ids : NoDup (id <$> submitted r);
  r_next : 0 <= next_id_ (sched r) < 2 ^ 64 /\ Forall (fun w => id w < next_id_ (sched r)) (submitted r);
  r_maps : forall w, w ∈ all_queued (sched r) ++ flying r ->
    id_to_class_ (sched r) !! id w = Some (priority w) /\ id_to_bytes_ (sched r) !! id w = Some (wbytes w);
  r_flight : forall p, in_flight (classes_ p (sched r)) = u64 (class_bytes p (flying r)) }.

Lemma all_queued_frame p s s' w :
  (forall p', p' <> p -> queued (classes_ p' s') = queued (classes_ p' s)) ->
  queued (classes_ p s) ≡ₚ w :: queued (classes_ p s') -> all_queued s ≡ₚ w :: all_queued s'.
Proof.
  intros F P. unfold all_queued.
  destruct p; cbn [classes_] in P; rewrite P;
    try (pose proof (F P0 ltac:(done)) as E0; cbn [classes_] in E0; rewrite E0);
    try (pose proof (F P1 ltac:(done)) as E1; cbn [classes_] in E1; rewrite E1);
    try (pose proof (F P2 ltac:(done)) as E2; cbn [classes_] in E2; rewrite E2).
  - done.
  - cbn [app]. by rewrite <- Permutation_middle.
  - rewrite !app_assoc. by rewrite <- Permutation_middle.
Qed.

Lemma class_bytes_perm p l l' : l ≡ₚ l' -> class_bytes p l = class_bytes p l'.
Proof. unfold class_bytes. induction 1; cbn [foldr] in *; repeat destruct (decide _); lia. Qed.

Lemma u64_add_l a b : u64 (u64 a + b) = u64 (a + b).
Proof. apply Zplus_mod_idemp_l. Qed.

Lemma u64_sub_l a b : u64 (u64 a - b) = u64 (a - b).
Proof. apply Zminus_mod_idemp_l. Qed.

Lemma Submit_class p t b s :
  SInv s ->
  let '(wid, s') := Submit p t b s in
  SInv s' /\ queued (classes_ p s') ≡ₚ mkWork wid p b t :: queued (classes_ p s) /\
  (forall p', p' <> p -> classes_ p' s' = classes_ p' s) /\
  (forall p', in_flight (classes_ p' s') = in_flight (classes_ p' s)).
Proof.
  intros I. unfold Submit. set (w := mkWork _ p b t). set (q := default [] _). set (c' := mkClass _ _ _ _ _ _).
  pose proof (I p) as Ip.
  assert (CL : forall p', classes_ p' (set_class p c' s) = if decide (p' = p) then c' else classes_ p' s).
  { intros p'. apply classes_set. }
  assert (P : queued c' ≡ₚ w :: queued (classes_ p s)).
  { unfold queued, c'. cbn [tenant_queues]. rewrite queued_of_insert. unfold q.
    destruct (tenant_queues (classes_ p s) !! t) as [l|] eqn:T; cbn [default].
    - rewrite (queued_of_delete _ _ _ T). rewrite <- app_assoc. cbn [app]. by rewrite <- Permutation_middle.
    - by rewrite queued_of_absent. }
  assert (C : CInv p c').
  { constructor; cbn [tenant_queues rr_order total_depth c'].
    - destruct q as [|x q'] eqn:Q; [|apply Ip]. apply NoDup_app. split; [apply Ip|]. split; [|apply NoDup_singleton].
      intros y Y Z. apply list_elem_of_singleton in Z as ->. apply (c_rr _ _ Ip) in Y as [l L].
      unfold q in Q. rewrite L in Q. cbn in Q. by destruct (c_queue _ _ Ip _ _ L).
    - intros y. destruct (decide (y = t)) as [->|Y].
      + rewrite lookup_insert_eq. split; [by eauto|]. intros _. destruct q as [|x q'] eqn:Q.
        * apply elem_of_app. right. by apply list_elem_of_singleton.
        * apply (c_rr _ _ Ip). unfold q in Q. destruct (tenant_queues _ !! t); [eauto|done].
      + rewrite lookup_insert_ne, <- (c_rr _ _ Ip) by done. destruct q; [|done].
        rewrite elem_of_app, list_elem_of_singleton. tauto.
    - intros y l L. apply lookup_insert_Some in L as [[<- <-]|[Y L]]; [|by apply (c_queue _ _ Ip)].
      split; [by destruct q|]. apply Forall_app. split; [|by repeat constructor].
      unfold q. destruct (tenant_queues _ !! t) as [l|] eqn:L; [|constructor]. by apply (c_queue _ _ Ip).
    - rewrite P, (c_depth _ _ Ip). cbn [length]. lia. }
  assert (EQ : forall p' n i j, classes_ p' (mkSched (class_0 (set_class p c' s)) (class_1 (set_class p c' s))
    (class_2 (set_class p c' s)) (max_starvation_skips_ s) n i j (normal_admissions_ s) (forced_admissions_ s)) =
    if decide (p' = p) then c' else classes_ p' s).
  { intros. rewrite <- CL. by destruct p'. }
  split; [|split; [|split]].
  - intros p'. rewrite EQ. destruct (decide (p' = p)) as [->|]; [done|apply I].
  - by rewrite EQ, decide_True.
  - intros p' N. by rewrite EQ, decide_False.
  - intros p'. rewrite EQ. by destruct (decide (p' = p)) as [->|].
Qed.

Lemma start_RInv o : RInv (start o).
Proof.
  assert (E : forall r p, CInv p (new_class r)).
  { intros r p. constructor; cbn; [constructor| |by intros|by vm_compute].
    intros t. rewrite lookup_empty. split; [by intros ?%elem_of_nil|by intros []]. }
  constructor; cbn [start sched submitted flying completed].
  - intros []; apply E.
  - done.
  - constructor.
  - cbn. split; [lia|constructor].
  - intros w W. by apply elem_of_nil in W.
  - by intros [].
Qed.

Lemma Submit_RInv p t b r s sub fl co :
  RInv r -> r = mkRun s sub fl co -> next_id_ s < 2 ^ 64 - 1 ->
  RInv (mkRun (Submit p t b s).2 (mkWork (Submit p t b s).1 p b t :: sub) fl co).
Proof.
  intros I -> L. destruct I as [SI It Ids [Nx Nl] Mp Fl]. cbn [sched submitted flying completed] in *.
  pose proof (Submit_class p t b s SI) as S. destruct (Submit p t b s) as [wid s'] eqn:E.
  assert (Ew : wid = next_id_ s) by (unfold Submit in E; congruence).
  assert (En : next_id_ s' = next_id_ s + 1).
  { unfold Submit in E. injection E as _ <-. cbn. apply u64_small. lia. }
  assert (Ec : id_to_class_ s' = <[wid := p]> (id_to_class_ s) /\ id_to_bytes_ s' = <[wid := b]> (id_to_bytes_ s)).
  { unfold Submit in E. injection E as <- <-. done. }
  destruct S as (SI' & P & Oth & Fl'). set (w := mkWork wid p b t) in *.
  assert (AQ : all_queued s' ≡ₚ w :: all_queued s).
  { apply (all_queued_frame p); [|done]. intros p' N. by rewrite Oth. }
  assert (Fresh : forall x, x ∈ sub -> id x <> wid).
  { intros x X. pose proof (proj1 (Forall_forall _ _) Nl x X). cbn in *. lia. }
  constructor; cbn [sched submitted flying completed fst snd].
  - exact SI'.
  - by rewrite It, AQ.
  - rewrite fmap_cons. constructor; [|done]. intros X. apply list_elem_of_fmap in X as (x & X1 & X).
    by apply (Fresh x X).
  - rewrite En. split; [lia|]. constructor; [cbn; lia|].
    eapply Forall_impl; [exact Nl|]. cbn. intros; lia.
  - intros x X. destruct Ec as [-> ->]. rewrite AQ in X. cbn [app] in X.
    apply elem_of_cons in X as [->|X]; [by rewrite !lookup_insert_eq|].
    rewrite !lookup_insert_ne; [by apply Mp|..]; intros Z; apply (Fresh x); try done;
      rewrite It, app_assoc; apply elem_of_app; by left.
  - intros p'. by rewrite Fl'.
Qed.

Lemma TryNext_RInv r s sub fl co :
  RInv r -> r = mkRun s sub fl co ->
  RInv (mkRun (TryNext s).2 sub (match (TryNext s).1 with Some w => w :: fl | None => fl end) co).
Proof.
  intros I ->. destruct I as [SI It Ids Nx Mp Fl]. cbn [sched submitted flying completed] in *.
  pose proof (TryNext_spec s SI) as S. destruct (TryNext s) as [[w|] s']; cbn [fst snd].
  - destruct S as (SI' & (En & Ec & Eb & _) & (q & Tq & _ & _ & P & Ef & Oth) & _).
    assert (AQ : all_queued s ≡ₚ w :: all_queued s').
    { apply (all_queued_frame (priority w)); [|done]. intros p' N. unfold queued. by rewrite (proj1 (Oth p' N)). }
    constructor; cbn [sched submitted flying completed]; rewrite ?En, ?Ec, ?Eb; try done.
    + rewrite It, AQ. cbn [app]. apply Permutation_middle.
    + intros x X. apply Mp. rewrite AQ. cbn [app]. by rewrite Permutation_middle.
    + intros p. unfold class_bytes. cbn [foldr]. fold (class_bytes p fl).
      destruct (decide (priority w = p)) as [<-|N].
      * rewrite Ef, Fl, u64_add_l. f_equal. lia.
      * rewrite (proj2 (Oth p ltac:(congruence))). apply Fl.
  - destruct S as (SI' & (En & Ec & Eb & _) & _ & Same).
    assert (AQ : all_queued s' = all_queued s).
    { unfold all_queued, queued. pose proof (proj1 (Same P0)) as E0. pose proof (proj1 (Same P1)) as E1.
      pose proof (proj1 (Same P2)) as E2. cbn [classes_] in E0, E1, E2. by rewrite E0, E1, E2. }
    constructor; cbn [sched submitted flying completed]; rewrite ?En, ?Ec, ?Eb, ?AQ; try done.
    intros p. rewrite (proj2 (Same p)). apply Fl.
Qed.

Lemma OnComplete_classes wid s p b :
  id_to_class_ s !! wid = Some p -> id_to_bytes_ s !! wid = Some b ->
  let '(ok, s') := OnComplete wid s in
  ok = true /\ next_id_ s' = next_id_ s /\
  id_to_class_ s' = delete wid (id_to_class_ s) /\ id_to_bytes_ s' = delete wid (id_to_bytes_ s) /\
  forall p', classes_ p' s' = mkClass (tenant_queues (classes_ p' s)) (rr_order (classes_ p' s))
    (total_depth (classes_ p' s))
    (if decide (p' = p) then u64 (in_flight (classes_ p' s) - b) else in_flight (classes_ p' s))
    (reservation (classes_ p' s)) (consecutive_skips (classes_ p' s)).
Proof.
  intros Hc Hb. unfold OnComplete. rewrite Hc, Hb. do 4 (split; [done|]).
  intros p'. destruct s as [[] [] [] ? ? ? ? ? ?], p, p'; done.
Qed.

Lemma OnComplete_RInv r s sub fl fl' co w :
  RInv r -> r = mkRun s sub fl co -> fl ≡ₚ w :: fl' ->
  RInv (mkRun (OnComplete (id w) s).2 sub fl' (w :: co)) /\ (OnComplete (id w) s).1 = true.
Proof.
  intros I -> P. destruct I as [SI It Ids Nx Mp Fl]. cbn [sched submitted flying completed] in *.
  destruct (Mp w) as [Hc Hb]. { apply elem_of_app. right. rewrite P. by left. }
  pose proof (OnComplete_classes (id w) s _ _ Hc Hb) as S.
  destruct (OnComplete (id w) s) as [ok s']. cbn [fst snd]. destruct S as (-> & En & Ec & Eb & C).
  split; [|done].
  assert (AQ : all_queued s' = all_queued s).
  { unfold all_queued, queued. pose proof (C P0) as E0. pose proof (C P1) as E1. pose proof (C P2) as E2.
    cbn [classes_] in E0, E1, E2. by rewrite E0, E1, E2. }
  constructor; cbn [sched submitted flying completed]; rewrite ?En, ?AQ; try done.
  - intros p. rewrite C. destruct (SI p). by constructor.
  - rewrite It, P. cbn [app]. by rewrite (Permutation_middle fl' co w).
  - intros x X. rewrite Ec, Eb. rewrite !lookup_delete_ne; [apply Mp; rewrite P; set_solver|..];
    (intros E; rewrite It, P in Ids; cbn [app] in Ids;
     rewrite <- Permutation_middle, app_assoc, fmap_cons, NoDup_cons, fmap_app in Ids;
     destruct Ids as [Ids _]; apply Ids, elem_of_app; left; rewrite E; by apply list_elem_of_fmap_2).
  - intros p. rewrite C. cbn [in_flight]. rewrite Fl, (class_bytes_perm _ _ _ P).
    unfold class_bytes. cbn [foldr]. fold (class_bytes p fl').
    destruct (decide (p = priority w)) as [->|N].
    + rewrite decide_True by done. rewrite u64_sub_l. f_equal. lia.
    + by rewrite decide_False.
Qed.

Lemma run_RInv o r : rtc step (start o) r -> RInv r.
Proof.
  revert r. apply rtc_ind_r; [apply start_RInv|]. intros r1 r2 _ S IH. inversion S; subst.
  - by eapply Submit_RInv.
  - by eapply TryNext_RInv.
  - by eapply OnComplete_RInv.
Qed.

(** ** Theorems *)

(** Conservation and exact accounting. In every run of submissions,
    [TryNext] calls and completions of returned items, each submitted item is
    exactly one of queued, in flight and completed; ids are unique; a class's
    in-flight bytes are the sum, modulo 2^64, over the items of the class in
    flight; its depth is the number of its queued items; and its rotation lists
    the tenants with queued work, once each. *)
Theorem sched_conservation o r :
  rtc step (start o) r ->
  submitted r ≡ₚ all_queued (sched r) ++ flying r ++ completed r /\
  NoDup (id <$> submitted r) /\
  forall p, InFlightBytes p (sched r) = u64 (class_bytes p (flying r)) /\
    QueueDepth p (sched r) = zlen (queued (classes_ p (sched r))) /\
    NoDup (rr_order (classes_ p (sched r))) /\
    (forall t, t ∈ rr_order (classes_ p (sched r)) <->
       exists w, w ∈ queued (classes_ p (sched r)) /\ tenant_hash w = t).
Proof.
  intros H. apply run_RInv in H as [SI It Ids Nx Mp Fl].
  split; [done|]. split; [done|]. intros p. pose proof (SI p) as Ip.
  split; [apply Fl|]. split; [apply Ip|]. split; [apply Ip|]. intros t. rewrite (c_rr _ _ Ip). split.
  - intros [q T]. destruct (c_queue _ _ Ip _ _ T) as [N F]. destruct q as [|w q]; [done|].
    exists w. split; [|by inversion_clear F as [|? ? [_ ?]]].
    unfold queued. rewrite (queued_of_delete _ _ _ T). by left.
  - intros (w & W & <-). destruct (queued_elem p _ w Ip W) as (q & T & _). eauto.
Qed.

(** What [TryNext] may return, in any reachable state. The item it returns
    is the oldest of its tenant in its class and is admissible, no class above
    has an admissible head item, and only its tenant's queue and its class's
    in-flight bytes change. When it returns nothing, no tenant of any class has an
    admissible head item, and nothing is dequeued. *)
Theorem TryNext_admits o r :
  rtc step (start o) r ->
  let s := sched r in
  match TryNext s with
  | (Some w, s') => dispatched s w s' /\ forall p, (idx p < idx (priority w))%nat -> blocked p s
  | (None, s') => (forall p, blocked p s) /\
      forall p, tenant_queues (classes_ p s') = tenant_queues (classes_ p s)
  end.
Proof.
  intros H s. apply run_RInv in H as [SI _ _ _ _ _]. pose proof (TryNext_spec s SI) as S.
  destruct (TryNext s) as [[w|] s']; [by destruct S as (_ & _ & ?)|].
  destruct S as (_ & _ & B & F). split; [done|]. intros p. apply F.
Qed.

(** ** Skips *)

(** The skip counts stay within the limit, and a class without work has none. *)
Definition SkipInv (s : Scheduler) : Prop :=
  0 <= max_starvation_skips_ s < 2 ^ 32 /\
  forall p, 0 <= consecutive_skips (classes_ p s) <= max_starvation_skips_ s /\
    (tenant_queues (classes_ p s) = ∅ -> consecutive_skips (classes_ p s) = 0).

Lemma blocked_skips p s : SInv s -> blocked p s -> tenant_queues (classes_ p s) <> ∅ -> consecutive_skips (classes_ p s) < max_starvation_skips_ s.
Proof.
  intros I Bl N. apply map_choose in N as (t & q & T). destruct (c_queue _ _ (I p) t q T) as [Nq _]. destruct q as [|w q]; [done|].
  specialize (Bl t w q T). unfold AdmissibleLocked in Bl. destruct (_ <=? reservation _); [done|].
  destruct (Z.leb_spec (max_starvation_skips_ s) (consecutive_skips (classes_ p s))); [done|lia].
Qed.

(** A look at a class leaves no skips or, if it finds only what it may not admit, one more. *)
Lemma TryDequeue_counts p s : SInv s ->
  let '(r, s') := TryDequeueClassLocked p s in
  consecutive_skips (classes_ p s') = 0 /\ (r = None -> tenant_queues (classes_ p s) = ∅) \/
  r = None /\ tenant_queues (classes_ p s) <> ∅ /\ consecutive_skips (classes_ p s') = u32 (consecutive_skips (classes_ p s) + 1).
Proof.
  intros I. unfold TryDequeueClassLocked. pose proof (I p) as Ip. destruct (rr_order (classes_ p s)) as [|t0 rr0] eqn:R.
  { left. rewrite classes_set, decide_True by done. split; [done|]. intros _. apply map_empty. intros t.
    apply eq_None_not_Some. intros X. apply (c_rr _ _ Ip) in X. rewrite R in X. by apply elem_of_nil in X. }
  assert (tenant_queues (classes_ p s) <> ∅) as N.
  { intros E. assert (is_Some (tenant_queues (classes_ p s) !! t0)) as [? X] by (apply (c_rr _ _ Ip); rewrite R; by left). by rewrite E, lookup_empty in X. }
  rewrite <- R. pose proof (rr_walk_spec p s (length (rr_order (classes_ p s))) (classes_ p s) [] Ip) as W.
  destruct (rr_walk _ _ _) as [[[w f]|] c'].
  - destruct W as (t & q & rest & c0 & _ & _ & _ & _ & _ & _ & ->);
      [exists (rr_order (classes_ p s)); by rewrite app_nil_r|intros t w' q' X; by apply elem_of_nil in X|].
    left. split; [|done]. set (s' := mkSched _ _ _ _ _ _ _ _ _).
    assert (classes_ p s' = classes_ p (set_class p (dequeued t w q rest c0) s)) as -> by by destruct p.
    rewrite classes_set, decide_True by done. by destruct q.
  - destruct W as [(rr & P & ->) _];
      [exists (rr_order (classes_ p s)); by rewrite app_nil_r|intros t w' q' X; by apply elem_of_nil in X|].
    right. rewrite classes_set, decide_True by done. done.
Qed.

Lemma TryDequeue_skips p s : SInv s -> SkipInv s ->
  let '(r, s') := TryDequeueClassLocked p s in
  SkipInv s' /\ (r = None -> tenant_queues (classes_ p s) <> ∅ -> consecutive_skips (classes_ p s') = consecutive_skips (classes_ p s) + 1).
Proof.
  intros I [K S]. pose proof (TryDequeue_spec p s I) as Sp. pose proof (TryDequeue_counts p s I) as C.
  destruct (TryDequeueClassLocked p s) as [r s']. destruct Sp as (_ & (_ & _ & _ & EK) & Oth & _ & R).
  assert (r = None -> tenant_queues (classes_ p s) <> ∅ -> consecutive_skips (classes_ p s') = consecutive_skips (classes_ p s) + 1 /\
    consecutive_skips (classes_ p s') <= max_starvation_skips_ s) as Up.
  { intros -> N. destruct R as (_ & _ & Bl). pose proof (blocked_skips p s I Bl N). destruct (S p) as [? _].
    destruct C as [[_ X]|(_ & _ & ->)]; [by destruct (N (X eq_refl))|]. rewrite u32_small by lia. lia. }
  split; [|intros Hr N; by apply Up]. split; [by rewrite EK|]. intros p'. rewrite EK.
  destruct (decide (p' = p)) as [->|X]; [|rewrite (Oth p' X); apply S].
  destruct C as [[-> _]|(-> & N & _)]; [split; [lia|done]|]. destruct (Up eq_refl N) as [E L]. destruct (S p) as [? _].
  split; [lia|]. intros X. destruct R as (Tq & _). by rewrite Tq in X.
Qed.

Lemma try_classes_skips ps : forall s, NoDup ps -> SInv s -> SkipInv s ->
  let '(r, s') := try_classes ps s in
  SkipInv s' /\ (forall p, p ∉ ps -> classes_ p s' = classes_ p s) /\
  (r = None -> forall p, p ∈ ps -> tenant_queues (classes_ p s) <> ∅ -> consecutive_skips (classes_ p s') = consecutive_skips (classes_ p s) + 1).
Proof.
  induction ps as [|p ps IH]; intros s ND I S; cbn [try_classes]; [split; [done|]; split; [done|]; intros _ p X; by apply elem_of_nil in X|].
  apply NoDup_cons in ND as [Np ND]. pose proof (TryDequeue_spec p s I) as Sp. pose proof (TryDequeue_skips p s I S) as Sk.
  destruct (TryDequeueClassLocked p s) as [r s1]. destruct Sp as (I1 & _ & Oth & _ & _). destruct Sk as [S1 Up]. destruct r as [w|].
  - split; [done|]. split; [|done]. intros p' X. apply Oth. intros ->. apply X. by left.
  - specialize (IH s1 ND I1 S1). destruct (try_classes ps s1) as [r s']. destruct IH as (S' & Keep & Up').
    split; [done|]. split.
    + intros p' X. rewrite Keep by (intros Y; apply X; by right). apply Oth. intros ->. apply X. by left.
    + intros -> p' X N. apply elem_of_cons in X as [->|X]; [rewrite Keep by done; by apply Up|].
      rewrite <- (Oth p') in N |- * by (intros ->; done). by apply Up'.
Qed.

Lemma TryNext_skips s : SInv s -> SkipInv s ->
  let '(r, s') := TryNext s in
  SkipInv s' /\ (r = None -> forall p, tenant_queues (classes_ p s) <> ∅ -> consecutive_skips (classes_ p s') = consecutive_skips (classes_ p s) + 1).
Proof.
  intros I S. unfold TryNext. pose proof (try_classes_skips priorities s) as T. destruct (try_classes priorities s) as [r s'].
  destruct T as (S' & _ & Up); [apply (bool_decide_unpack _); vm_compute; exact Logic.I|done|done|]. split; [done|].
  intros Hr p. apply Up; [done|]. unfold priorities. destruct p; set_solver.
Qed.

(** The longest wait. *)
Definition longest (s : Scheduler) : Z :=
  Z.max (consecutive_skips (class_0 s)) (Z.max (consecutive_skips (class_1 s)) (consecutive_skips (class_2 s))).

Lemma longest_bound s : SkipInv s -> 0 <= longest s <= max_starvation_skips_ s.
Proof.
  intros [_ S]. pose proof (proj1 (S P0)). pose proof (proj1 (S P1)). pose proof (proj1 (S P2)). cbn [classes_] in *. unfold longest. lia.
Qed.

(** A dispatch attempt with work queued that admits nothing makes some class wait longer. *)
Lemma TryNext_longest s s' : SInv s -> SkipInv s -> TryNext s = (None, s') -> all_queued s <> [] -> longest s < longest s'.
Proof.
  intros I S H N. pose proof (TryNext_skips s I S) as T. rewrite H in T. destruct T as [_ Up]. specialize (Up eq_refl). destruct S as [_ S].
  assert (forall p, tenant_queues (classes_ p s) = ∅ \/ consecutive_skips (classes_ p s') = consecutive_skips (classes_ p s) + 1) as C.
  { intros p. destruct (decide (tenant_queues (classes_ p s) = ∅)); [by left|right; by apply Up]. }
  assert (exists p, tenant_queues (classes_ p s) <> ∅) as [p Np].
  { destruct (decide (tenant_queues (classes_ P0 s) = ∅)) as [E0|]; [|by exists P0].
    destruct (decide (tenant_queues (classes_ P1 s) = ∅)) as [E1|]; [|by exists P1].
    destruct (decide (tenant_queues (classes_ P2 s) = ∅)) as [E2|]; [|by exists P2].
    destruct N. cbn [classes_] in *. unfold all_queued, queued. rewrite E0, E1, E2. done. }
  pose proof (Up p Np) as Hp. unfold longest.
  pose proof (S P0) as [? Z0]. pose proof (S P1) as [? Z1]. pose proof (S P2) as [? Z2].
  pose proof (C P0) as C0. pose proof (C P1) as C1. pose proof (C P2) as C2. cbn [classes_] in *.
  assert (consecutive_skips (class_0 s) = 0 \/ consecutive_skips (class_0 s') = consecutive_skips (class_0 s) + 1) by (destruct C0; auto).
  assert (consecutive_skips (class_1 s) = 0 \/ consecutive_skips (class_1 s') = consecutive_skips (class_1 s) + 1) by (destruct C1; auto).
  assert (consecutive_skips (class_2 s) = 0 \/ consecutive_skips (class_2 s') = consecutive_skips (class_2 s) + 1) by (destruct C2; auto).
  destruct p; cbn [classes_] in Hp; lia.
Qed.

Lemma Submit_skips p t b s : SkipInv s -> SkipInv (Submit p t b s).2 /\ longest (Submit p t b s).2 = longest s /\
  max_starvation_skips_ (Submit p t b s).2 = max_starvation_skips_ s.
Proof.
  intros [K S]. unfold Submit. cbn [snd]. set (c' := mkClass _ _ _ _ _ _).
  assert (forall p', consecutive_skips (classes_ p' (set_class p c' s)) = consecutive_skips (classes_ p' s)) as E.
  { intros p'. rewrite classes_set. by destruct (decide (p' = p)) as [->|]. }
  split; [|split; [|done]].
  - split; [done|]. intros p'. cbn [max_starvation_skips_].
    replace (classes_ p' (mkSched _ _ _ _ _ _ _ _ _)) with (classes_ p' (set_class p c' s)) by by destruct p'.
    rewrite E. split; [apply S|]. rewrite classes_set. destruct (decide (p' = p)) as [->|]; [|apply S].
    intros X. exfalso. unfold c' in X. cbn [tenant_queues] in X. by apply insert_non_empty in X.
  - unfold longest. cbn [class_0 class_1 class_2]. pose proof (E P0) as E0. pose proof (E P1) as E1. pose proof (E P2) as E2. cbn [classes_] in *. congruence.
Qed.

Lemma OnComplete_skips wid s p b : id_to_class_ s !! wid = Some p -> id_to_bytes_ s !! wid = Some b -> SkipInv s ->
  SkipInv (OnComplete wid s).2 /\ longest (OnComplete wid s).2 = longest s /\ max_starvation_skips_ (OnComplete wid s).2 = max_starvation_skips_ s.
Proof.
  intros Hc Hb [K S]. pose proof (OnComplete_classes wid s p b Hc Hb) as C.
  assert (max_starvation_skips_ (OnComplete wid s).2 = max_starvation_skips_ s) as M by (unfold OnComplete; by rewrite Hc, Hb).
  destruct (OnComplete wid s) as [ok s']. destruct C as (_ & _ & _ & _ & C). cbn [snd] in *. split; [|split; [|done]].
  - split; [by rewrite M|]. intros p'. rewrite C, M. cbn [consecutive_skips tenant_queues]. apply S.
  - unfold longest. pose proof (C P0) as E0. pose proof (C P1) as E1. pose proof (C P2) as E2. cbn [classes_] in *. by rewrite E0, E1, E2.
Qed.

(** ** Starvation *)

(** One item submitted to P0, dispatched and completed. *)
Definition p0_round (b : Z) (s : Scheduler) : option WorkItem * Scheduler :=
  let '(wid, s1) := Submit P0 0 b s in
  let '(r, s2) := TryNext s1 in
  (r, (OnComplete wid s2).2).

Fixpoint p0_rounds (n : nat) (b : Z) (s : Scheduler) : list (option WorkItem) * Scheduler :=
  match n with
  | O => ([], s)
  | S n => let '(r, s1) := p0_round b s in
           let '(rs, s2) := p0_rounds n b s1 in (r :: rs, s2)
  end.

Lemma p0_round_spec b s :
  0 <= b <= reservation (class_0 s) -> reservation (class_0 s) < 2 ^ 64 ->
  tenant_queues (class_0 s) = ∅ -> rr_order (class_0 s) = [] -> in_flight (class_0 s) = 0 ->
  let '(r, s') := p0_round b s in
  (exists w, r = Some w /\ priority w = P0) /\
  reservation (class_0 s') = reservation (class_0 s) /\
  tenant_queues (class_0 s') = ∅ /\ rr_order (class_0 s') = [] /\ in_flight (class_0 s') = 0 /\
  class_1 s' = class_1 s /\ class_2 s' = class_2 s.
Proof.
  intros B R T Q F. unfold p0_round, Submit. cbn [classes_ set_class]. rewrite T, Q, lookup_empty. cbn [default app].
  unfold TryNext, priorities, try_classes, TryDequeueClassLocked.
  cbn [classes_ class_0 rr_order length rr_walk tenant_queues]. rewrite lookup_insert_eq. cbn [app].
  assert (U : u64 (0 + b) = b) by (apply u64_small; lia).
  unfold AdmissibleLocked. cbn [in_flight reservation wbytes class_0]. rewrite F, U.
  destruct (b <=? reservation (class_0 s)) eqn:E; [|reflect_bools; lia].
  cbn. unfold OnComplete. cbn. rewrite !lookup_insert_eq. cbn.
  split; [eexists; split; [reflexivity|reflexivity]|].
  rewrite Z.sub_diag. rewrite delete_insert_eq, delete_empty. done.
Qed.

(** The starvation override counts only attempts in which every higher class
    failed to admit. As long as each attempt finds an admissible item of P0, the
    lower classes are not even looked at: for every number of attempts there is a
    run of that many, each admitting an item of P0, after which the queues and
    skip counts of P1 and P2 are unchanged, however small the configured limit. *)
Theorem lower_classes_starve n b s :
  0 <= b <= reservation (class_0 s) -> reservation (class_0 s) < 2 ^ 64 ->
  tenant_queues (class_0 s) = ∅ -> rr_order (class_0 s) = [] -> in_flight (class_0 s) = 0 ->
  let '(rs, s') := p0_rounds n b s in
  length rs = n /\ Forall (fun r => exists w, r = Some w /\ priority w = P0) rs /\
  class_1 s' = class_1 s /\ class_2 s' = class_2 s /\ Skips P2 s' = Skips P2 s.
Proof.
  revert s. induction n as [|n IH]; intros s B R T Q F; cbn [p0_rounds]; [done|].
  pose proof (p0_round_spec b s B R T Q F) as H. destruct (p0_round b s) as [r s1].
  destruct H as (Hr & ER & T1 & Q1 & F1 & E1 & E2).
  specialize (IH s1). destruct (p0_rounds n b s1) as [rs s2].
  destruct IH as (L & FA & C1 & C2 & _); try rewrite ER; try done.
  unfold Skips. cbn [classes_]. rewrite C2, E2. split; [cbn; by rewrite L|]. split; [by constructor|].
  by rewrite C1.
Qed.

(** ** Witnesses *)

Definition w_opts : Options := mkOptions 100 20 75 5 3.
Definition w_run : Run := mkRun (Submit P2 7 5 (make w_opts)).2 [mkWork 1 P2 5 7] [] [].

Lemma w_run_reachable : rtc step (start w_opts) w_run.
Proof. eapply rtc_once. apply (step_submit P2 7 5 (make w_opts) [] [] []). vm_compute. reflexivity. Qed.

Lemma sched_conservation_witness :
  [mkWork 1 P2 5 7] ≡ₚ all_queued (sched w_run) ++ [] ++ [].
Proof. destruct (sched_conservation w_opts w_run) as [H _]; [exact w_run_reachable|exact H]. Defined.

Lemma TryNext_admits_witness :
  (TryNext (sched w_run)).1 = Some (mkWork 1 P2 5 7) /\ blocked P0 (sched w_run).
Proof.
  pose proof (TryNext_admits w_opts w_run w_run_reachable) as H. cbn zeta in H.
  assert (E : (TryNext (sched w_run)).1 = Some (mkWork 1 P2 5 7)) by (vm_compute; reflexivity).
  split; [exact E|]. destruct (TryNext (sched w_run)) as [[w|] s']; [|discriminate E].
  cbn in E. injection E as ->. destruct H as [_ H]. apply H. cbn. lia.
Defined.

Lemma lower_classes_starve_witness :
  let '(rs, s') := p0_rounds 1000 1 (sched w_run) in length rs = 1000%nat /\ Skips P2 s' = 0.
Proof.
  pose proof (lower_classes_starve 1000 1 (sched w_run)) as H.
  destruct (p0_rounds 1000 1 (sched w_run)) as [rs s']. destruct H as (L & _ & _ & _ & K).
  - vm_compute. split; discriminate.
  - vm_compute. reflexivity.
  - vm_compute. reflexivity.
  - vm_compute. reflexivity.
  - vm_compute. reflexivity.
  - split; [exact L|]. etransitivity; [exact K|]. vm_compute. reflexivity.
Defined.

End Sched.
