(* ===== verification/Quota.v ===== *)
(** * Quotas and tenants

    [QuotaManager] of qos/quota.cpp and [TenantRegistry] of qos/tenant.cpp.
    [Reserve] is not atomic: it reserves capacity with a compare-and-swap loop and
    then, under the counter's own lock, checks the request and bandwidth windows
    and gives the capacity back if they refuse. The two halves are definitions of
    their own; [Reserve] composes them, and the interleaving theorem runs them as
    separate steps of concurrent callers. A limit is multiplied by 1.0 or 1.5 in
    [double]; that is exact for limits below 2^52, which the theorems assume, and
    the conversion back drops the fraction. Time is an integer. *)

From S2P Require Import Prelude.
From Stdlib Require Import ZArith Lia.

Open Scope Z_scope.

Module Quota.

Record QuotaLimits := mkLimits { capacity_bytes : Z; qps : Z; bandwidth_bps : Z; inflated : bool }.
Record ReserveRequest := mkReq { rbytes : Z; requests : Z; bandwidth_bytes : Z }.
Inductive QuotaResult := kOk | kCapacityExceeded | kQpsExceeded | kBandwidthExceeded | kUnknownTenant.

Record Counter := mkCounter {
  limits : QuotaLimits; capacity_used : Z; window_start : Z; qps_count : Z; bw_bytes : Z }.

(** [static_cast<uint>(limit * Inflation(limits))]. *)
Definition inflate (l : QuotaLimits) (x : Z) : Z := if inflated l then x * 3 / 2 else x.

Record QuotaManager := mkManager { window_ : Z; tenants_ : gmap Z Counter }.

Definition no_limits : QuotaLimits := mkLimits 0 0 0 false.

Definition SetLimits (now tenant : Z) (l : QuotaLimits) (m : QuotaManager) : QuotaManager :=
  mkManager (window_ m)
    (match tenants_ m !! tenant with
     | None => <[tenant := mkCounter l 0 now 0 0]> (tenants_ m)
     | Some c => <[tenant := mkCounter l (capacity_used c) (window_start c) (qps_count c) (bw_bytes c)]> (tenants_ m)
     end).

Definition RemoveTenant (tenant : Z) (m : QuotaManager) : bool * QuotaManager :=
  (bool_decide (is_Some (tenants_ m !! tenant)), mkManager (window_ m) (delete tenant (tenants_ m))).

Definition GetLimits (tenant : Z) (m : QuotaManager) : QuotaLimits :=
  match tenants_ m !! tenant with None => no_limits | Some c => limits c end.

Definition RollWindowLocked (window now : Z) (c : Counter) : Counter :=
  if window <=? now - window_start c then mkCounter (limits c) (capacity_used c) now 0 0 else c.

Definition set_used (u : Z) (c : Counter) : Counter :=
  mkCounter (limits c) u (window_start c) (qps_count c) (bw_bytes c).

(** First half of [Reserve]: the capacity, or [kCapacityExceeded]. *)
Definition reserve_capacity (req : ReserveRequest) (c : Counter) : option Counter :=
  let cap_limit := inflate (limits c) (capacity_bytes (limits c)) in
  if 0 <? cap_limit then
    if u64 (capacity_used c + rbytes req) <=? cap_limit
    then Some (set_used (u64 (capacity_used c + rbytes req)) c)
    else None
  else if 0 <? rbytes req then None
  else Some c.

(** Second half: the windows, with the capacity given back on a refusal. *)
Definition reserve_window (window now : Z) (req : ReserveRequest) (c0 : Counter) : QuotaResult * Counter :=
  let c := RollWindowLocked window now c0 in
  let qps_limit := u32 (inflate (limits c) (qps (limits c))) in
  let bw_limit := inflate (limits c) (bandwidth_bps (limits c)) in
  if (0 <? qps_limit) && (qps_limit <? u32 (qps_count c + requests req)) then
    (kQpsExceeded, set_used (u64 (capacity_used c - rbytes req)) c)
  else if (0 <? bw_limit) && (bw_limit <? u64 (bw_bytes c + bandwidth_bytes req)) then
    (kBandwidthExceeded, set_used (u64 (capacity_used c - rbytes req)) c)
  else
    (kOk, mkCounter (limits c) (capacity_used c) (window_start c)
            (u32 (qps_count c + requests req)) (u64 (bw_bytes c + bandwidth_bytes req))).

(** [Reserve] when no other call intervenes. *)
Definition Reserve (now tenant : Z) (req : ReserveRequest) (m : QuotaManager) : QuotaResult * QuotaManager :=
  match tenants_ m !! tenant with
  | None => (kUnknownTenant, m)
  | Some c =>
      match reserve_capacity req c with
      | None => (kCapacityExceeded, m)
      | Some c1 =>
          let '(r, c2) := reserve_window (window_ m) now req c1 in
          (r, mkManager (window_ m) (<[tenant := c2]> (tenants_ m)))
      end
  end.

Definition release_counter (b : Z) (c : Counter) : Counter :=
  let sub := if capacity_used c <? b then capacity_used c else b in
  set_used (u64 (capacity_used c - sub)) c.

Definition Release (tenant b : Z) (m : QuotaManager) : QuotaManager :=
  match tenants_ m !! tenant with
  | None => m
  | Some c => mkManager (window_ m) (<[tenant := release_counter b c]> (tenants_ m))
  end.

Definition CapacityUsed (tenant : Z) (m : QuotaManager) : Z :=
  match tenants_ m !! tenant with None => 0 | Some c => capacity_used c end.
Definition QpsWindow (tenant : Z) (m : QuotaManager) : Z :=
  match tenants_ m !! tenant with None => 0 | Some c => qps_count c end.
Definition BandwidthWindow (tenant : Z) (m : QuotaManager) : Z :=
  match tenants_ m !! tenant with None => 0 | Some c => bw_bytes c end.

(** ** Tenants *)

(** FNV-1a over the 16 bytes of the identifier. *)
Definition TenantHash (tid : bytes) : Z :=
  fold_left (fun h b => u64 (Z.lxor h (byte_val b) * 0x100000001b3)) tid 0xcbf29ce484222325.

Record TenantConfig := mkTenant {
  tenant_id : bytes; display_name : bytes; quota : QuotaLimits;
  default_priority : Z; deletion_pending : bool }.

Definition TenantRegistry := gmap Z TenantConfig.
Definition Upsert (cfg : TenantConfig) (r : TenantRegistry) : TenantRegistry :=
  <[TenantHash (tenant_id cfg) := cfg]> r.
Definition Remove (tid : bytes) (r : TenantRegistry) : bool * TenantRegistry :=
  (bool_decide (is_Some (r !! TenantHash tid)), delete (TenantHash tid) r).
Definition Get (tid : bytes) (r : TenantRegistry) : option TenantConfig := r !! TenantHash tid.
Definition GetByHash (h : Z) (r : TenantRegistry) : option TenantConfig := r !! h.
Definition Size (r : TenantRegistry) : nat := size r.

(** ** Concurrent callers of one tenant *)

(** Limits and requests that the arithmetic represents exactly. *)
Definition limits_ok (l : QuotaLimits) : Prop :=
  0 <= capacity_bytes l < 2 ^ 52 /\ 0 <= qps l < 2 ^ 30 /\ 0 <= bandwidth_bps l < 2 ^ 52.
Definition req_ok (r : ReserveRequest) : Prop :=
  0 <= rbytes r < 2 ^ 63 /\ 0 <= requests r < 2 ^ 30 /\ 0 <= bandwidth_bytes r < 2 ^ 63.

(** The counter, the calls between their two halves, and the reservations that
    were granted and not released. *)
Record Callers := mkCallers { counter : Counter; pending : list ReserveRequest; held : list ReserveRequest }.

Inductive step (window : Z) : Callers -> Callers -> Prop :=
| step_reserve req c c' p h :
    req_ok req -> reserve_capacity req c = Some c' ->
    step window (mkCallers c p h) (mkCallers c' (req :: p) h)
| step_window now req c p p' h :
    p ≡ₚ req :: p' ->
    step window (mkCallers c p h)
      (mkCallers (reserve_window window now req c).2 p'
         (match (reserve_window window now req c).1 with kOk => req :: h | _ => h end))
| step_release req c p h h' :
    h ≡ₚ req :: h' ->
    step window (mkCallers c p h) (mkCallers (release_counter (rbytes req) c) p h').

Definition total (l : list ReserveRequest) : Z := foldr (fun r n => rbytes r + n) 0 l.

Definition fresh (l : QuotaLimits) (now : Z) : Callers := mkCallers (mkCounter l 0 now 0 0) [] [].

Record CInv (l : QuotaLimits) (s : Callers) : Prop := {
  i_limits : limits (counter s) = l;
  i_reqs : Forall req_ok (pending s ++ held s);
  i_used : capacity_used (counter s) = total (pending s) + total (held s);
  i_cap : capacity_used (counter s) <= inflate l (capacity_bytes l);
  i_qps : 0 <= qps_count (counter s) /\
    (0 < inflate l (qps l) -> qps_count (counter s) <= inflate l (qps l));
  i_bw : 0 <= bw_bytes (counter s) /\
    (0 < inflate l (bandwidth_bps l) -> bw_bytes (counter s) <= inflate l (bandwidth_bps l)) }.

Lemma req_total_perm l l' : l ≡ₚ l' -> total l = total l'.
Proof. unfold total. induction 1; cbn [foldr] in *; lia. Qed.

Lemma req_total_nonneg l : Forall req_ok l -> 0 <= total l.
Proof. unfold total. induction 1 as [|r l [? _]]; cbn [foldr] in *; lia. Qed.

Lemma inflate_bound l x n : 0 <= x < 2 ^ n -> 0 <= n -> 0 <= inflate l x < 2 ^ (n + 1).
Proof.
  intros H N. unfold inflate. rewrite Z.pow_add_r by lia. destruct (inflated l); [|lia].
  split; [apply Z.div_pos; lia|apply Z.div_lt_upper_bound; lia].
Qed.

Lemma reserve_capacity_spec l req c c' :
  limits_ok l -> limits c = l -> req_ok req -> 0 <= capacity_used c ->
  capacity_used c <= inflate l (capacity_bytes l) ->
  reserve_capacity req c = Some c' ->
  c' = set_used (capacity_used c + rbytes req) c /\
  capacity_used c + rbytes req <= inflate l (capacity_bytes l).
Proof.
  intros (Lc & _) <- (Rb & _) Z0 U. unfold reserve_capacity.
  pose proof (inflate_bound (limits c) _ 52 Lc ltac:(lia)) as Ib.
  assert (E : u64 (capacity_used c + rbytes req) = capacity_used c + rbytes req).
  { apply u64_small. change (2 ^ (52 + 1)) with (2 ^ 53) in Ib. lia. }
  rewrite E. destruct (0 <? _) eqn:K.
  - destruct (_ <=? _) eqn:F; intros [= <-]. reflect_bools. done.
  - destruct (0 <? rbytes req) eqn:F; intros [= <-]. reflect_bools.
    assert (rbytes req = 0) as -> by lia. rewrite Z.add_0_r. by destruct c.
Qed.
Lemma reserve_window_spec l window now req c :
  limits_ok l -> limits c = l -> req_ok req -> rbytes req <= capacity_used c < 2 ^ 64 ->
  (0 <= qps_count c /\ (0 < inflate l (qps l) -> qps_count c <= inflate l (qps l))) ->
  (0 <= bw_bytes c /\ (0 < inflate l (bandwidth_bps l) -> bw_bytes c <= inflate l (bandwidth_bps l))) ->
  let '(r, c') := reserve_window window now req c in
  limits c' = l /\
  capacity_used c' = capacity_used c - (match r with kOk => 0 | _ => rbytes req end) /\
  (0 <= qps_count c' /\ (0 < inflate l (qps l) -> qps_count c' <= inflate l (qps l))) /\
  (0 <= bw_bytes c' /\ (0 < inflate l (bandwidth_bps l) -> bw_bytes c' <= inflate l (bandwidth_bps l))).
Proof.
  intros (_ & Lq & Lb) Ec (Rb & Rr & Rw) U Q B. unfold reserve_window.
  set (c1 := RollWindowLocked window now c).
  assert (C1 : limits c1 = l /\ capacity_used c1 = capacity_used c /\
    (0 <= qps_count c1 /\ (0 < inflate l (qps l) -> qps_count c1 <= inflate l (qps l))) /\
    (0 <= bw_bytes c1 /\ (0 < inflate l (bandwidth_bps l) -> bw_bytes c1 <= inflate l (bandwidth_bps l)))).
  { unfold c1, RollWindowLocked. destruct (_ <=? _); cbn; intuition lia. }
  clearbody c1. destruct C1 as (El & Eu & Q1 & B1). rewrite El.
  pose proof (inflate_bound l _ 30 Lq ltac:(lia)) as Iq. pose proof (inflate_bound l _ 52 Lb ltac:(lia)) as Ib.
  change (2 ^ (30 + 1)) with (2 ^ 31) in Iq. change (2 ^ (52 + 1)) with (2 ^ 53) in Ib.
  rewrite (u32_small (inflate l (qps l))) by lia.
  assert (S : u64 (capacity_used c1 - rbytes req) = capacity_used c - rbytes req).
  { rewrite Eu. apply u64_small. lia. }
  pose proof (u32_bound (qps_count c1 + requests req)). pose proof (u64_bound (bw_bytes c1 + bandwidth_bytes req)).
  destruct ((0 <? inflate l (qps l)) && _) eqn:K1; [cbn [limits capacity_used set_used qps_count bw_bytes]; tauto|].
  destruct ((0 <? inflate l (bandwidth_bps l)) && _) eqn:K2; [cbn [limits capacity_used set_used qps_count bw_bytes]; tauto|].
  cbn [limits capacity_used qps_count bw_bytes]. rewrite Z.sub_0_r. split; [done|]. split; [done|].
  apply andb_false_iff in K1, K2.
  split; (split; [lia|]); intros P.
  - destruct K1 as [K|K]; reflect_bools; lia.
  - destruct K2 as [K|K]; reflect_bools; lia.
Qed.

Lemma step_CInv l window s s' : limits_ok l -> step window s s' -> CInv l s -> CInv l s'.
Proof.
  intros L S [El Fr Eu Cap Q B]. apply Forall_app in Fr as [Fp Fh].
  pose proof (inflate_bound l _ 52 (proj1 L) ltac:(lia)) as Ib. change (2 ^ (52 + 1)) with (2 ^ 53) in Ib.
  pose proof (req_total_nonneg _ Fp). pose proof (req_total_nonneg _ Fh).
  inversion S as [req c c' p h R E|now req c p p' h P|req c p h h' P]; subst s s'; cbn [counter pending held] in *.
  - destruct (reserve_capacity_spec l req c c') as [-> C]; try done; [lia|].
    constructor; cbn [counter pending held set_used limits capacity_used qps_count bw_bytes]; try done.
    + constructor; [done|]. by apply Forall_app.
    + unfold total at 1. cbn [foldr]. fold (total p). lia.
  - rewrite P in Fp. inversion_clear Fp as [|? ? Fr Fp']. pose proof (req_total_nonneg _ Fp') as T'.
    rewrite (req_total_perm _ _ P) in Eu. unfold total at 1 in Eu. cbn [foldr] in Eu. fold (total p') in Eu.
    pose proof (reserve_window_spec l window now req c L El Fr) as W.
    destruct (reserve_window window now req c) as [r c']. cbn [fst snd].
    destruct W as (El' & Eu' & Q' & B'); [destruct Fr; lia|done|done|]. destruct Fr as [Fr ?].
    constructor; cbn [counter pending held]; try done.
    + destruct r; (try (by apply Forall_app)). apply Forall_app. split; [done|by constructor].
    + destruct r; cbn; fold (total h); unfold total in *; cbn [foldr] in *; lia.
    + destruct r; lia.
  - rewrite P in Fh. inversion_clear Fh as [|? ? Fr Fh']. pose proof (req_total_nonneg _ Fh') as T'.
    rewrite (req_total_perm _ _ P) in Eu. unfold total at 2 in Eu. cbn [foldr] in Eu. fold (total h') in Eu.
    destruct Fr as [Fr ?]. unfold release_counter.
    destruct (capacity_used c <? rbytes req) eqn:K; reflect_bools; [lia|].
    rewrite u64_small by lia.
    constructor; cbn [counter pending held set_used limits capacity_used qps_count bw_bytes]; try done; try lia.
    by apply Forall_app.
Qed.

(** Quotas hold under concurrency. However many callers of a tenant run
    [Reserve] and [Release] with the two halves of [Reserve] interleaved in any
    order, the capacity counted as used is exactly what granted reservations hold
    plus what calls in progress have reserved, it never exceeds the (inflated)
    capacity limit, and within a window neither the request nor the bandwidth
    count exceeds its limit when it has one. *)
Theorem quota_limits_hold l window now s :
  limits_ok l -> rtc (step window) (fresh l now) s ->
  let c := counter s in
  capacity_used c = total (pending s) + total (held s) /\
  capacity_used c <= inflate l (capacity_bytes l) /\
  (0 < inflate l (qps l) -> qps_count c <= inflate l (qps l)) /\
  (0 < inflate l (bandwidth_bps l) -> bw_bytes c <= inflate l (bandwidth_bps l)).
Proof.
  intros L R.
  assert (I : CInv l s).
  { revert s R. apply rtc_ind_r.
    - destruct L as (Lc & Lq & Lb). pose proof (inflate_bound l _ 52 Lc ltac:(lia)).
      constructor; cbn [fresh counter pending held limits capacity_used qps_count bw_bytes app];
        [done|constructor|done|lia|lia|lia].
    - intros s1 s2 _ S IH. by eapply step_CInv. }
  destruct I as [_ _ Eu Cap Q B]. split; [done|]. split; [done|]. split; [apply Q|apply B].
Qed.

Lemma quota_limits_hold_witness :
  let l := mkLimits 10 1 0 true in
  exists s, rtc (step 1000) (fresh l 0) s /\ held s = [mkReq 8 1 0] /\ pending s = [mkReq 7 1 0] /\
    capacity_used (counter s) = 15 /\ capacity_used (counter s) <= inflate l (capacity_bytes l).
Proof.
  intros l.
  assert (R : exists s, rtc (step 1000) (fresh l 0) s /\ held s = [mkReq 8 1 0] /\ pending s = [mkReq 7 1 0]).
  { eexists. split; [|split].
    - eapply rtc_l; [apply (step_reserve 1000 (mkReq 8 1 0)); [repeat split; cbn; lia|vm_compute; reflexivity]|].
      eapply rtc_l; [apply (step_window 1000 5 (mkReq 8 1 0)); reflexivity|].
      eapply rtc_l; [apply (step_reserve 1000 (mkReq 7 1 0)); [repeat split; cbn; lia|vm_compute; reflexivity]|].
      apply rtc_refl.
    - reflexivity.
    - reflexivity. }
  destruct R as (s & R & H & P). exists s. split; [exact R|]. split; [exact H|]. split; [exact P|].
  destruct (quota_limits_hold l 1000 0 s) as (E & C & _); [repeat split; cbn; lia|exact R|].
  split; [|exact C]. rewrite E, H, P. reflexivity.
Defined.

(** Without the bound on the request size the sum wraps: a request of almost 2^64
    bytes is granted and lowers the capacity counted as used. *)
Example huge_request_granted :
  let c := mkCounter (mkLimits 100 0 0 false) 50 0 0 0 in
  reserve_capacity (mkReq (2 ^ 64 - 40) 1 0) c = Some (set_used 10 c).
Proof. vm_compute. reflexivity. Qed.

End Quota.
