(* ===== verification/Bloom.v ===== *)
(** * Bloom sketches

    [LocalBloom] and [AggregatedBloom] of routing/bloom_sketch.cpp: the sketch a
    node fills with the keys it holds, and the view a router has of a peer's. The
    64-bit words are integers; reading or writing a word out of range is
    undefined in the code and [None] here. BLAKE3 is a parameter. The sizing in
    floating point ([ForCapacity]) is not modelled; its result is a positive
    multiple of 64, as [RoundUpTo64] makes it, and that is what the theorems ask
    of the parameters. *)

From S2P Require Import Prelude.
From Stdlib Require Import ZArith Lia.

Open Scope Z_scope.

Module Bloom.

Record BloomParams := mkParams { m_bits : Z; k_hashes : nat }.

(** [(v + 63) & ~63] on [uint32_t]. *)
Definition RoundUpTo64 (v : Z) : Z := Z.land (u32 (v + 63)) (2 ^ 32 - 1 - 63).

Record LocalBloom := mkLocal { params_ : BloomParams; words_ : list Z; inserts_ : Z }.

Definition make (p : BloomParams) : LocalBloom :=
  mkLocal p (replicate (Z.to_nat (m_bits p / 64)) 0) 0.

(** [words_[idx / 64] |= 1 << (idx & 63)]. *)
Definition SetBit (i : Z) (ws : list Z) : option (list Z) :=
  w ← ws !! Z.to_nat (i / 64);
  Some (<[Z.to_nat (i / 64) := Z.lor w (Z.shiftl 1 (Z.land i 63))]> ws).

Definition TestBit (i : Z) (ws : list Z) : option bool :=
  w ← ws !! Z.to_nat (i / 64);
  Some (negb (Z.land w (Z.shiftl 1 (Z.land i 63)) =? 0)).

(** The loops over the [k_hashes] bits of a key. *)
Fixpoint set_bits (bits : list Z) (ws : list Z) : option (list Z) :=
  match bits with
  | [] => Some ws
  | b :: bits => ws' ← SetBit b ws; set_bits bits ws'
  end.

Fixpoint test_bits (bits : list Z) (ws : list Z) : option bool :=
  match bits with
  | [] => Some true
  | b :: bits =>
      match TestBit b ws with
      | None => None
      | Some false => Some false
      | Some true => test_bits bits ws
      end
  end.

Section Hash.
(** BLAKE3 truncated to 64 bits. *)
Variable Blake3_64 : bytes -> Z.

Definition PairFor (key : bytes) : Z * Z :=
  (Blake3_64 key, Blake3_64 ([xbe; xef; xca; xfe] ++ key)).

(** [(h1 + i * h2) % m_bits] for each [i < k_hashes]. *)
Definition bits_of (p : BloomParams) (key : bytes) : list Z :=
  let '(h1, h2) := PairFor key in
  (fun i => u64 (h1 + Z.of_nat i * h2) mod m_bits p) <$> seq 0 (k_hashes p).

Definition Add (key : bytes) (b : LocalBloom) : option LocalBloom :=
  ws ← set_bits (bits_of (params_ b) key) (words_ b);
  Some (mkLocal (params_ b) ws (inserts_ b + 1)).

Definition MaybeContains (key : bytes) (b : LocalBloom) : option bool :=
  test_bits (bits_of (params_ b) key) (words_ b).

Definition Snapshot (b : LocalBloom) : bytes := concat (put_le 8 <$> words_ b).

Definition Reset (b : LocalBloom) : LocalBloom :=
  mkLocal (params_ b) (replicate (length (words_ b)) 0) 0.

(** ** The aggregated view *)

Record AggregatedBloom := mkAgg { a_params : BloomParams; a_words : list Z }.

(** [memcpy] of the first words of [raw]. *)
Fixpoint words_of (n : nat) (raw : bytes) : list Z :=
  match n with
  | O => []
  | S n => get_le (take 8 raw) :: words_of n (drop 8 raw)
  end.

Definition Set_ (p : BloomParams) (raw : bytes) (a : AggregatedBloom) : AggregatedBloom :=
  let n := Z.to_nat (m_bits p / 64) in
  if Nat.ltb (length raw) (n * 8) then mkAgg p (replicate n 0)
  else mkAgg p (words_of n raw).

Definition AggMaybeContains (key : bytes) (a : AggregatedBloom) : option bool :=
  if (m_bits (a_params a) =? 0) || match a_words a with [] => true | _ => false end then Some false
  else test_bits (bits_of (a_params a) key) (a_words a).

(** ** Lemmas *)

Definition params_ok (p : BloomParams) : Prop := 0 < m_bits p /\ m_bits p mod 64 = 0.
Definition word_ok (w : Z) : Prop := 0 <= w < 2 ^ 64.
Definition sized_words (p : BloomParams) (ws : list Z) : Prop :=
  length ws = Z.to_nat (m_bits p / 64) /\ Forall word_ok ws.
Definition in_range (p : BloomParams) (i : Z) : Prop := 0 <= i < m_bits p.

Lemma bits_in_range p key : params_ok p -> Forall (in_range p) (bits_of p key).
Proof.
  intros [H _]. unfold bits_of. destruct (PairFor key) as [h1 h2].
  apply Forall_fmap, Forall_forall. intros i _. by apply Z.mod_pos_bound.
Qed.

Lemma word_index p ws i :
  params_ok p -> sized_words p ws -> in_range p i -> is_Some (ws !! Z.to_nat (i / 64)).
Proof.
  intros [H M] [L _] [R1 R2]. apply lookup_lt_is_Some. rewrite L.
  apply Z2Nat.inj_lt; [apply Z.div_pos; lia|apply Z.div_pos; lia|].
  apply Z.div_lt_upper_bound; [lia|]. apply Z.div_exact in M; lia.
Qed.

Lemma mask_bit i : 0 <= i -> Z.land i 63 = i mod 64.
Proof. intros H. change 63 with (Z.ones 6). by rewrite Z.land_ones by lia. Qed.

Lemma test_mask w i : 0 <= i -> negb (Z.land w (Z.shiftl 1 i) =? 0) = Z.testbit w i.
Proof.
  intros H. destruct (Z.testbit w i) eqn:T.
  - apply negb_true_iff, Z.eqb_neq. intros E.
    assert (X : Z.testbit (Z.land w (Z.shiftl 1 i)) i = true).
    { rewrite Z.land_spec, T, Z.shiftl_spec, Z.sub_diag by lia. done. }
    by rewrite E, Z.bits_0 in X.
  - apply negb_false_iff, Z.eqb_eq, Z.bits_inj_0. intros n. rewrite Z.land_spec, Z.shiftl_1_l.
    destruct (decide (n = i)) as [->|N]; [by rewrite T|]. rewrite Z.pow2_bits_false by lia. by rewrite andb_false_r.
Qed.

(** The bit [i] of the sketch. *)
Definition bit (i : Z) (ws : list Z) : bool :=
  match ws !! Z.to_nat (i / 64) with None => false | Some w => Z.testbit w (i mod 64) end.

Lemma TestBit_bit p ws i :
  params_ok p -> sized_words p ws -> in_range p i -> TestBit i ws = Some (bit i ws).
Proof.
  intros P S R. destruct (word_index p ws i P S R) as [w E]. unfold TestBit, bit. rewrite E. cbn.
  f_equal. rewrite mask_bit by apply R. apply test_mask, Z.mod_pos_bound. lia.
Qed.

Lemma SetBit_spec p ws i :
  params_ok p -> sized_words p ws -> in_range p i ->
  exists ws', SetBit i ws = Some ws' /\ sized_words p ws' /\
    forall j, 0 <= j -> bit j ws' = (j =? i) || bit j ws.
Proof.
  intros P S R. destruct (word_index p ws i P S R) as [w E]. unfold SetBit. rewrite E. cbn [mbind option_bind].
  eexists. split; [done|]. rewrite mask_bit by apply R. rewrite Z.shiftl_1_l.
  pose proof (Z.mod_pos_bound i 64 ltac:(lia)) as Mi. destruct S as [L F]. split.
  - split; [by rewrite length_insert|]. apply Forall_insert; [done|].
    pose proof (Forall_lookup_1 _ _ _ _ F E) as [W0 W1].
    split; [apply Z.lor_nonneg; split; [lia|apply Z.pow_nonneg; lia]|].
    destruct (decide (Z.lor w (2 ^ (i mod 64)) = 0)) as [->|N]; [lia|].
    apply Z.log2_lt_pow2; [assert (0 <= Z.lor w (2 ^ (i mod 64))) by
      (apply Z.lor_nonneg; split; [lia|apply Z.pow_nonneg; lia]); lia|].
    rewrite Z.log2_lor by (try apply Z.pow_nonneg; lia). rewrite Z.log2_pow2 by lia.
    apply Z.max_lub_lt; [|lia]. destruct (decide (w = 0)) as [->|]; [cbn; lia|]. apply Z.log2_lt_pow2; lia.
  - intros j J. unfold bit. pose proof (Z.mod_pos_bound j 64 ltac:(lia)) as Mj.
    pose proof (Z.div_mod i 64 ltac:(lia)). pose proof (Z.div_mod j 64 ltac:(lia)).
    assert (0 <= i / 64) by (apply Z.div_pos; destruct R; lia). assert (0 <= j / 64) by (apply Z.div_pos; lia).
    destruct (decide (i / 64 = j / 64)) as [Ed|Nd].
    + rewrite <- Ed. rewrite list_lookup_insert_eq by (by eapply lookup_lt_Some). rewrite E, Z.lor_spec.
      rewrite orb_comm. f_equal. destruct (Z.eqb_spec j i) as [->|N]; [apply Z.pow2_bits_true; lia|].
      apply Z.pow2_bits_false. lia.
    + rewrite list_lookup_insert_ne by (intros X; apply Z2Nat.inj in X; lia).
      destruct (Z.eqb_spec j i); [subst; lia|done].
Qed.

Lemma set_bits_spec p bits : forall ws,
  params_ok p -> sized_words p ws -> Forall (in_range p) bits ->
  exists ws', set_bits bits ws = Some ws' /\ sized_words p ws' /\
    forall j, 0 <= j -> bit j ws' = bool_decide (j ∈ bits) || bit j ws.
Proof.
  induction bits as [|b bits IH]; intros ws P S F; cbn [set_bits]; [by exists ws|].
  inversion_clear F as [|? ? R F']. destruct (SetBit_spec p ws b P S R) as (w1 & E1 & S1 & B1).
  rewrite E1. cbn [mbind option_bind]. destruct (IH w1 P S1 F') as (w2 & E2 & S2 & B2).
  exists w2. split; [done|]. split; [done|]. intros j J. rewrite B2, B1, orb_assoc by done. f_equal.
  destruct (Z.eqb_spec j b) as [->|N].
  - rewrite orb_true_r. symmetry. apply bool_decide_eq_true. by left.
  - rewrite orb_false_r. apply bool_decide_ext. rewrite elem_of_cons. tauto.
Qed.

Lemma test_bits_spec p ws bits :
  params_ok p -> sized_words p ws -> Forall (in_range p) bits ->
  test_bits bits ws = Some (forallb (fun i => bit i ws) bits).
Proof.
  intros P S. induction 1 as [|b bits R F IH]; cbn [test_bits forallb]; [done|].
  rewrite (TestBit_bit p) by done. destruct (bit b ws); [by rewrite IH|done].
Qed.

Lemma make_sized p : params_ok p -> sized_words p (words_ (make p)).
Proof.
  intros _. split; cbn; [apply length_replicate|]. apply Forall_replicate. unfold word_ok. lia.
Qed.

(** Adding keys one after the other. *)
Fixpoint add_all (keys : list bytes) (b : LocalBloom) : option LocalBloom :=
  match keys with
  | [] => Some b
  | k :: keys => b' ← Add k b; add_all keys b'
  end.

Lemma add_all_spec p keys : forall b,
  params_ok p -> params_ b = p -> sized_words p (words_ b) ->
  exists b', add_all keys b = Some b' /\ params_ b' = p /\ sized_words p (words_ b') /\
    inserts_ b' = inserts_ b + zlen keys /\
    forall j, 0 <= j -> bit j (words_ b') = true <->
      bit j (words_ b) = true \/ exists k, k ∈ keys /\ j ∈ bits_of p k.
Proof.
  induction keys as [|k keys IH]; intros b P Ep S; cbn [add_all].
  { exists b. split; [done|]. split; [done|]. split; [done|]. split; [cbn; lia|].
    intros j _. split; [by left|]. intros [?|(k & K & _)]; [done|]. by apply elem_of_nil in K. }
  unfold Add at 1. rewrite Ep.
  destruct (set_bits_spec p (bits_of p k) (words_ b) P S (bits_in_range p k P)) as (w1 & E1 & S1 & B1).
  rewrite E1. cbn [mbind option_bind].
  destruct (IH (mkLocal p w1 (inserts_ b + 1)) P eq_refl S1) as (b' & E & Ep' & S' & N & B).
  exists b'. split; [done|]. split; [done|]. split; [done|]. cbn [inserts_ words_] in *.
  split; [cbn [length]; lia|]. intros j J. rewrite B, B1, orb_true_iff, bool_decide_eq_true by done.
  split.
  - intros [[X|X]|(x & X & Y)]; [right; exists k; split; [by left|done]|by left|right; exists x; split; [by right|done]].
  - intros [X|(x & X & Y)]; [by left; right|]. apply elem_of_cons in X as [->|X]; [by left; left|right; eauto].
Qed.

Lemma words_of_snapshot ws : Forall word_ok ws -> words_of (length ws) (concat (put_le 8 <$> ws)) = ws.
Proof.
  induction 1 as [|w ws [W0 W1] F IH]; [done|]. rewrite fmap_cons. cbn [concat length words_of].
  rewrite take_put_le_app, drop_put_le_app, IH, get_put_le. f_equal. apply Z.mod_small. exact (conj W0 W1).
Qed.

Lemma length_snapshot ws : length (concat (put_le 8 <$> ws)) = (length ws * 8)%nat.
Proof. induction ws as [|w ws IH]; [done|]. rewrite fmap_cons. cbn [concat]. rewrite length_app, IH, length_put_le. cbn. lia. Qed.

Lemma Set_snapshot p b a :
  params_ok p -> params_ b = p -> sized_words p (words_ b) -> Set_ p (Snapshot b) a = mkAgg p (words_ b).
Proof.
  intros P Ep [L F]. unfold Set_, Snapshot. rewrite length_snapshot, <- L, Nat.ltb_irrefl.
  by rewrite words_of_snapshot.
Qed.

(** A view of a sketch of its declared size answers as the sketch does. *)
Lemma snapshot_answers p b a k :
  params_ok p -> params_ b = p -> sized_words p (words_ b) -> AggMaybeContains k (Set_ p (Snapshot b) a) = MaybeContains k b.
Proof.
  intros P Ep S. rewrite Set_snapshot by done. unfold AggMaybeContains, MaybeContains. cbn [a_params a_words].
  rewrite Ep. destruct P as [P1 P2]. destruct (Z.eqb_spec (m_bits p) 0); [lia|].
  destruct S as [L _]. destruct (words_ b); [|done]. cbn in L.
  apply Z.div_exact in P2; [|lia]. assert (m_bits p / 64 <= 0) by lia. lia.
Qed.

(** Adding a key to a sketch of its declared size. *)
Lemma Add_contains p b k :
  params_ok p -> params_ b = p -> sized_words p (words_ b) ->
  exists b', Add k b = Some b' /\ params_ b' = p /\ sized_words p (words_ b') /\ MaybeContains k b' = Some true.
Proof.
  intros P Ep S. destruct (add_all_spec p [k] b P Ep S) as (b' & E & Ep' & S' & _ & B). exists b'.
  assert (add_all [k] b = Add k b) as <- by (cbn [add_all]; by destruct (Add k b)). split; [done|]. split; [done|]. split; [done|].
  unfold MaybeContains. rewrite Ep', (test_bits_spec p) by (done || by apply bits_in_range).
  f_equal. apply forallb_forall. intros j J. apply list_elem_of_In in J.
  apply B; [by apply (proj1 (Forall_forall _ _) (bits_in_range p k P))|]. right. exists k. split; [by left|done].
Qed.

Lemma sketch_complete p keys a :
  params_ok p ->
  exists b, add_all keys (make p) = Some b /\ inserts_ b = zlen keys /\
    (forall k, k ∈ keys -> MaybeContains k b = Some true) /\
    (forall k, AggMaybeContains k (Set_ p (Snapshot b) a) = MaybeContains k b).
Proof.
  intros P. destruct (add_all_spec p keys (make p) P eq_refl (make_sized p P)) as (b & E & Ep & S & N & B).
  exists b. split; [done|]. split; [done|]. split.
  - intros k K. unfold MaybeContains. rewrite Ep, (test_bits_spec p) by (done || by apply bits_in_range).
    f_equal. apply forallb_forall. intros j J. apply list_elem_of_In in J.
    apply B; [|eauto]. by apply (proj1 (Forall_forall _ _) (bits_in_range p k P)).
  - intros k. by apply snapshot_answers.
Qed.

(** The sketch has no false negatives, end to end. Filling a fresh sketch
    with any keys never touches a word out of range; every added key then tests
    as contained, locally and in the view a router builds from the sketch's
    snapshot with the same parameters; and for every key at all that view gives
    the answer the local sketch gives. *)
Theorem bloom_no_false_negatives p keys a :
  params_ok p ->
  exists b, add_all keys (make p) = Some b /\ inserts_ b = zlen keys /\
    (forall k, k ∈ keys -> MaybeContains k b = Some true) /\
    (forall k, AggMaybeContains k (Set_ p (Snapshot b) a) = MaybeContains k b).
Proof. apply sketch_complete. Qed.

(** A truncated update empties the view. When [Set] receives fewer bytes
    than its parameters call for, it has already replaced the parameters and
    cleared the words: whatever the view held before, every key now tests as
    absent. *)
Theorem truncated_update_forgets p raw a key :
  params_ok p -> (0 < k_hashes p)%nat -> zlen raw < m_bits p / 64 * 8 ->
  AggMaybeContains key (Set_ p raw a) = Some false.
Proof.
  intros P K L. unfold Set_. assert (0 <= m_bits p / 64) by (apply Z.div_pos; destruct P; lia).
  destruct (Nat.ltb _ _) eqn:E; reflect_bools; [|lia]. unfold AggMaybeContains. cbn [a_params a_words].
  destruct (_ || _); [done|]. pose proof (bits_in_range p key P) as R.
  rewrite (test_bits_spec p); [|done|exact (make_sized p P)|done]. f_equal.
  assert (Z0 : forall i, bit i (replicate (Z.to_nat (m_bits p / 64)) 0) = false).
  { intros i. unfold bit. destruct (_ !! _) as [w|] eqn:W; [|done].
    apply lookup_replicate in W as [-> _]. apply Z.bits_0. }
  assert (Ln : length (bits_of p key) = k_hashes p).
  { unfold bits_of. destruct (PairFor key). by rewrite length_fmap, length_seq. }
  destruct (bits_of p key) as [|i l]; [cbn in Ln; lia|]. cbn [forallb]. by rewrite Z0.
Qed.

End Hash.

Definition w_hash64 (k : bytes) : Z := get_le k.
Definition w_params : BloomParams := mkParams 128 3.

Lemma bloom_no_false_negatives_witness :
  exists b, add_all w_hash64 [[x01]; [x02]] (make w_params) = Some b /\
    AggMaybeContains w_hash64 [x02] (Set_ w_params (Snapshot b) (mkAgg w_params [])) = Some true /\
    AggMaybeContains w_hash64 [x07] (Set_ w_params (Snapshot b) (mkAgg w_params [])) = Some false.
Proof.
  destruct (bloom_no_false_negatives w_hash64 w_params [[x01]; [x02]] (mkAgg w_params [])) as (b & E & _ & C & A).
  { split; [vm_compute; reflexivity|reflexivity]. }
  exists b. split; [exact E|]. split.
  - etransitivity; [apply A|]. apply C. right. by left.
  - vm_compute in E. injection E as <-. vm_compute. reflexivity.
Defined.

Lemma truncated_update_forgets_witness :
  AggMaybeContains w_hash64 [x02] (Set_ w_params [x00] (mkAgg w_params [2 ^ 64 - 1; 2 ^ 64 - 1])) = Some false /\
  AggMaybeContains w_hash64 [x02] (mkAgg w_params [2 ^ 64 - 1; 2 ^ 64 - 1]) = Some true.
Proof.
  split; [|vm_compute; reflexivity]. apply truncated_update_forgets.
  - split; [vm_compute; reflexivity|reflexivity].
  - cbn. lia.
  - vm_compute. reflexivity.
Defined.

(** With a number of bits that is not a multiple of 64 a test reads past the end. *)
Example odd_size_out_of_range :
  MaybeContains (fun _ => 99) [x01] (make (mkParams 100 1)) = None.
Proof. vm_compute. reflexivity. Qed.

End Bloom.
