(* ===== verification/Hrw.v ===== *)
(** * Rendezvous routing

    [HrwRing] of routing/hrw.cpp: the nodes ranked for a key by the weight of the hash of
    node and key. The weights are doubles (Floats.v). [std::sort] and
    [std::partial_sort] are not stable and leave the order of equal weights open: they
    are operations of which only what the C++ standard promises is used, as laws of a
    class with an instance. BLAKE3 is a parameter. *)

From S2P Require Import Prelude Floats.
From Stdlib Require Import ZArith Lia SpecFloat.
From stdpp Require Import sorting.

Open Scope Z_scope.

Module Hrw.

Record NodeEntry := mkNode { id : bytes; traffic_weight : double }.

Record Ring := mkRing { nodes_ : list NodeEntry; overlap_alpha_ : double }.

(** [0.2], the default of [Options::overlap_alpha]. *)
Definition default_alpha : double := ddiv (double_of 2) (double_of 10).

Definition new_ring (alpha : double) : Ring := mkRing [] alpha.
Definition SetNodes (l : list NodeEntry) (r : Ring) : Ring := mkRing l (overlap_alpha_ r).
Definition NodeCount (r : Ring) : nat := length (nodes_ r).

Record Score := mkScore { sid : bytes; effective : double }.

(** The comparator [a.effective > b.effective], and that [b] does not come before [a]. *)
Definition before (a b : Score) : bool := dgt (effective a) (effective b).
Definition ranked (a b : Score) : Prop := before b a = false.

#[global] Instance ranked_dec : RelDecision ranked.
Proof. unfold RelDecision, ranked. apply _. Defined.
#[global] Instance ranked_total : Total ranked.
Proof. intros a b. unfold ranked, before. destruct (dgt (effective b) (effective a)) eqn:E; [right; by apply dgt_asym|by left]. Qed.

(** ** The sorts of the standard library *)

Class StdSort := {
  std_sort : list Score -> list Score;
  (** The range after sorting its first [k] elements. *)
  std_partial_sort : nat -> list Score -> list Score }.

(** The comparator is a strict weak order on weights that are numbers. *)
Definition numbers (l : list Score) : Prop := Forall (fun s => is_nan (effective s) = false) l.

Class StdSortLaws (S : StdSort) : Prop := {
  std_sort_perm l : numbers l -> std_sort l ≡ₚ l;
  std_sort_sorted l : numbers l -> Sorted ranked (std_sort l);
  std_partial_sort_perm k l : numbers l -> std_partial_sort k l ≡ₚ l;
  std_partial_sort_sorted k l : numbers l -> Sorted ranked (take k (std_partial_sort k l));
  std_partial_sort_first k l x y :
    numbers l -> x ∈ take k (std_partial_sort k l) -> y ∈ drop k (std_partial_sort k l) -> ranked x y }.

(** ** Ranking *)

Section Ring.
Variable Blake3_64 : bytes -> Z.
Context {S : StdSort}.

Definition WeightHash (i key : bytes) : Z := Blake3_64 (i ++ key).

(** [overlap_fn]; absent for a null function. *)
Notation OverlapScoreFn := (option (bytes -> bytes -> double)).

Definition score (alpha : double) (fn : OverlapScoreFn) (key : bytes) (n : NodeEntry) : Score :=
  let h := WeightHash (id n) key in
  let raw := ddiv (double_of (Z.shiftr h 11)) (double_of (2 ^ 53)) in
  let eff := dmul raw (traffic_weight n) in
  mkScore (id n)
    (match fn with
     | None => eff
     | Some f => dmul eff (dadd (double_of 1) (dmul alpha (f (id n) key)))
     end).

Definition TopK (key : bytes) (k : nat) (fn : OverlapScoreFn) (r : Ring) : list bytes :=
  match nodes_ r, k with
  | [], _ | _, O => []
  | _, _ =>
      let scored := score (overlap_alpha_ r) fn key <$> nodes_ r in
      sid <$> (if (k <? length scored)%nat then take k (std_partial_sort k scored) else std_sort scored)
  end.

(** [NodeId{}] of an empty ring. *)
Definition Primary (key : bytes) (fn : OverlapScoreFn) (r : Ring) : bytes :=
  match TopK key 1 fn r with [] => [] | i :: _ => i end.
End Ring.
Notation OverlapScoreFn := (option (bytes -> bytes -> double)).

(** ** Sorting with laws *)

Lemma strongly_sorted_numbers l : numbers l -> Sorted ranked l -> StronglySorted ranked l.
Proof.
  intros N. induction 1 as [|x l H IH HR]; constructor; [apply IH; by inversion N|].
  inversion N as [|? ? _ N']; subst. specialize (IH N').
  inversion HR as [|y l' Hxy]; subst; [constructor|]. constructor; [done|].
  apply Forall_forall. intros z Hz. inversion IH as [|? ? _ F]; subst.
  rewrite Forall_forall in F. specialize (F z Hz). inversion N'; subst.
  unfold ranked, before in *. by apply (dge_trans _ (effective y)).
Qed.

Lemma numbers_perm l l' : l ≡ₚ l' -> numbers l -> numbers l'.
Proof. unfold numbers. by intros ->. Qed.

(** No two different entries have the same weight. *)
Definition untied (l : list Score) : Prop :=
  forall x y, x ∈ l -> y ∈ l -> ranked x y -> ranked y x -> x = y.

Definition ranking (l : list Score) : list Score := merge_sort ranked l.

Lemma ranking_perm l : ranking l ≡ₚ l.
Proof. apply merge_sort_Permutation. Qed.

Lemma ranking_sorted l : numbers l -> StronglySorted ranked (ranking l).
Proof.
  intros N. apply strongly_sorted_numbers; [|apply Sorted_merge_sort, _].
  by apply (numbers_perm l); [symmetry; apply ranking_perm|].
Qed.

(** Without ties the order is the only one. *)
Lemma ranking_unique l l' :
  numbers l -> untied l -> l' ≡ₚ l -> StronglySorted ranked l' -> l' = ranking l.
Proof.
  intros N U P SS. apply (StronglySorted_unique_strong ranked); [|done|by apply ranking_sorted|].
  - intros x y Hx Hy. rewrite P in Hx. rewrite ranking_perm in Hy. by apply U.
  - by rewrite P, ranking_perm.
Qed.

Lemma ranking_perm_eq l l' : numbers l -> untied l -> l ≡ₚ l' -> ranking l = ranking l'.
Proof.
  intros N U P. symmetry. apply ranking_unique; try done.
  - by rewrite ranking_perm.
  - apply ranking_sorted. by apply (numbers_perm l).
Qed.

Section Laws.
Context `{SL : StdSortLaws}.

(** The entries that [TopK] keeps. *)
Definition top (k : nat) (l : list Score) : list Score :=
  if (k <? length l)%nat then take k (std_partial_sort k l) else std_sort l.

Lemma top_ranking k l : numbers l -> untied l -> top k l = take k (ranking l).
Proof.
  intros N U. unfold top. destruct (Nat.ltb_spec k (length l)) as [Hk|Hk].
  - pose proof (std_partial_sort_perm k l N) as P.
    set (t := std_partial_sort k l) in *.
    assert (numbers t) as Nt by (by apply (numbers_perm l)).
    assert (take k t ++ ranking (drop k t) = ranking l) as <-.
    { apply ranking_unique; try done.
      - rewrite ranking_perm, take_drop. done.
      - apply StronglySorted_app. split_and!.
        + intros x y Hx Hy. rewrite ranking_perm in Hy. by apply (std_partial_sort_first k l).
        + apply strongly_sorted_numbers; [by apply Forall_take|by apply std_partial_sort_sorted].
        + apply ranking_sorted. by apply Forall_drop. }
    rewrite take_app_length'; [done|]. rewrite length_take, P. lia.
  - rewrite take_ge by (rewrite ranking_perm; lia). apply ranking_unique; try done.
    + by apply std_sort_perm.
    + apply strongly_sorted_numbers; [|by apply std_sort_sorted].
      by apply (numbers_perm l); [symmetry; apply std_sort_perm|].
Qed.
End Laws.

Section Ring_facts.
Variable Blake3_64 : bytes -> Z.
Context `{SL : StdSortLaws}.

Notation scored fn key r := (score Blake3_64 (overlap_alpha_ r) fn key <$> nodes_ r).

(** The weights of the ring for a key are numbers, and no two are the same. *)
Definition Decides (fn : OverlapScoreFn) (key : bytes) (r : Ring) : Prop :=
  numbers (scored fn key r) /\ untied (scored fn key r).

Lemma TopK_ranking key k fn r :
  Decides fn key r -> TopK Blake3_64 key k fn r = sid <$> take k (ranking (scored fn key r)).
Proof.
  intros [N U]. rewrite <- top_ranking by done. unfold TopK, top.
  destruct (nodes_ r) as [|n l] eqn:E; simpl.
  - assert (std_sort [] = []) as -> by (apply Permutation_nil_r, std_sort_perm; constructor). done.
  - destruct k; [done|]. done.
Qed.

Lemma score_perm fn key r r' :
  overlap_alpha_ r = overlap_alpha_ r' -> nodes_ r ≡ₚ nodes_ r' -> scored fn key r ≡ₚ scored fn key r'.
Proof. intros -> H. by apply fmap_Permutation. Qed.

Lemma numbers_filter (P : Score -> Prop) `{forall s, Decision (P s)} l : numbers l -> numbers (filter P l).
Proof. unfold numbers. rewrite !Forall_forall. intros N x Hx. apply list_elem_of_filter in Hx as [_ Hx]. by apply N. Qed.

Lemma untied_filter (P : Score -> Prop) `{forall s, Decision (P s)} l : untied l -> untied (filter P l).
Proof. intros U x y Hx Hy. apply list_elem_of_filter in Hx as [_ Hx], Hy as [_ Hy]. by apply U. Qed.

Lemma ranking_filter (P : Score -> Prop) `{forall s, Decision (P s)} l :
  numbers l -> untied l -> ranking (filter P l) = filter P (ranking l).
Proof.
  intros N U. symmetry. apply ranking_unique.
  - by apply numbers_filter.
  - by apply untied_filter.
  - by rewrite ranking_perm.
  - pose proof (ranking_sorted l N) as SS. induction SS as [|x m SS IH F]; [constructor|].
    rewrite filter_cons. case_decide; [|done]. constructor; [done|]. rewrite Forall_forall in F |- *.
    intros y Hy. apply list_elem_of_filter in Hy as [_ Hy]. by apply F.
Qed.

(** The ring without the nodes of one identity. *)
Definition without (i : bytes) (r : Ring) : Ring := SetNodes (filter (fun n => id n <> i) (nodes_ r)) r.

Lemma scored_without i fn key r :
  scored fn key (without i r) = filter (fun s => sid s <> i) (scored fn key r).
Proof.
  unfold without. simpl. induction (nodes_ r) as [|n l IH]; [done|].
  rewrite filter_cons, !fmap_cons, filter_cons. simpl. case_decide; [|done]. by rewrite fmap_cons, IH.
Qed.

Lemma Decides_without i fn key r : Decides fn key r -> Decides fn key (without i r).
Proof. unfold Decides. rewrite scored_without. intros [N U]. split; [by apply numbers_filter|by apply untied_filter]. Qed.

Lemma TopK_all key fn r :
  Decides fn key r -> TopK Blake3_64 key (NodeCount r) fn r = sid <$> ranking (scored fn key r).
Proof.
  intros D. rewrite TopK_ranking by done. rewrite take_ge; [done|].
  rewrite ranking_perm, length_fmap. done.
Qed.

Lemma Primary_ranking key fn r :
  Decides fn key r -> Primary Blake3_64 key fn r = match sid <$> ranking (scored fn key r) with [] => [] | i :: _ => i end.
Proof.
  intros D. unfold Primary. rewrite TopK_ranking by done. by destruct (ranking _).
Qed.

(** ** Theorems *)

(** Two rings with the same nodes, in whatever order, rank them alike, up to any
    length, as long as the weights for the key are numbers and distinct: the nodes of a
    cluster that see the same membership agree on who owns a key. *)
Theorem hrw_agreement key k fn r r' :
  overlap_alpha_ r = overlap_alpha_ r' -> nodes_ r ≡ₚ nodes_ r' -> Decides fn key r ->
  TopK Blake3_64 key k fn r = TopK Blake3_64 key k fn r'.
Proof.
  intros A P D. pose proof (score_perm fn key r r' A P) as PS.
  assert (Decides fn key r') as D'.
  { destruct D as [N U]. split; [by apply (numbers_perm _ _ PS)|]. intros x y. rewrite <- PS. by apply U. }
  rewrite !TopK_ranking by done. do 2 f_equal. apply ranking_perm_eq; try done; apply D.
Qed.

(** Losing a node moves only the keys it owned: the others keep their owner, and the
    rest of the ranking keeps its order. *)
Theorem hrw_minimal_disruption key fn i r :
  Decides fn key r ->
  TopK Blake3_64 key (NodeCount (without i r)) fn (without i r) =
    filter (fun j => j <> i) (TopK Blake3_64 key (NodeCount r) fn r) /\
  (Primary Blake3_64 key fn r <> i -> Primary Blake3_64 key fn (without i r) = Primary Blake3_64 key fn r).
Proof.
  intros D. pose proof (Decides_without i fn key r D) as D'. pose proof D as [N U].
  assert (ranking (scored fn key (without i r)) = filter (fun s => sid s <> i) (ranking (scored fn key r))) as E.
  { by rewrite scored_without, ranking_filter. }
  split.
  - rewrite !TopK_all, E by done. clear. generalize (ranking (scored fn key r)) as l0. intros l0.
    induction l0 as [|s l IH]; [done|]. rewrite fmap_cons. destruct (decide (sid s = i)).
    + rewrite !filter_cons_False by (intros N'; by apply N'). done.
    + rewrite !filter_cons_True by done. by rewrite fmap_cons, IH.
  - rewrite !Primary_ranking by done. rewrite E. generalize (ranking (scored fn key r)) as l0. intros [|s l]; [done|]. simpl.
    intros H. rewrite filter_cons. by rewrite decide_True.
Qed.
End Ring_facts.

(** ** Rings of equal weights *)

(** The ring that [NodeDirectory] builds: every node at weight one. *)
Definition uniform (r : Ring) : Prop := Forall (fun n => traffic_weight n = double_of 1) (nodes_ r).

Lemma shiftr_11_bound h : 0 <= h < 2 ^ 64 -> 0 <= Z.shiftr h 11 < 2 ^ 53.
Proof.
  intros H. rewrite Z.shiftr_div_pow2 by lia. split; [apply Z.div_pos; lia|].
  apply Z.div_lt_upper_bound; lia.
Qed.

(** At weight one and without overlap the floating-point weights compare as the upper 53
    bits of the hashes, and are numbers. *)
Lemma unit_score Blake3_64 alpha key a b :
  (forall x, 0 <= Blake3_64 x < 2 ^ 64) -> traffic_weight a = double_of 1 -> traffic_weight b = double_of 1 ->
  is_nan (effective (score Blake3_64 alpha None key a)) = false /\
  before (score Blake3_64 alpha None key a) (score Blake3_64 alpha None key b) =
    (Z.shiftr (WeightHash Blake3_64 (id b) key) 11 <? Z.shiftr (WeightHash Blake3_64 (id a) key) 11).
Proof.
  intros HB Ha Hb. unfold before, score. simpl. rewrite Ha, Hb. fold (unit_double (Z.shiftr (WeightHash Blake3_64 (id a) key) 11)).
  fold (unit_double (Z.shiftr (WeightHash Blake3_64 (id b) key) 11)).
  split; [apply unit_double_nan|apply unit_double_order]; apply shiftr_11_bound, HB.
Qed.

(** The upper 53 bits of the hashes differ. *)
Definition hashes_differ (Blake3_64 : bytes -> Z) (key : bytes) (r : Ring) : Prop :=
  forall a b, a ∈ nodes_ r -> b ∈ nodes_ r ->
  Z.shiftr (WeightHash Blake3_64 (id a) key) 11 = Z.shiftr (WeightHash Blake3_64 (id b) key) 11 -> a = b.

Lemma uniform_decides Blake3_64 key r :
  (forall x, 0 <= Blake3_64 x < 2 ^ 64) -> uniform r -> hashes_differ Blake3_64 key r ->
  Decides Blake3_64 None key r.
Proof.
  intros HB HU HD. unfold uniform in HU. rewrite Forall_forall in HU. split.
  - apply Forall_forall. intros s (n & -> & Hn)%list_elem_of_fmap. by apply (unit_score Blake3_64 (overlap_alpha_ r) key n n HB (HU n Hn) (HU n Hn)).
  - intros s t (a & -> & Ha)%list_elem_of_fmap (b & -> & Hb)%list_elem_of_fmap. unfold ranked.
    rewrite (proj2 (unit_score _ _ key b a HB (HU b Hb) (HU a Ha))), (proj2 (unit_score _ _ key a b HB (HU a Ha) (HU b Hb))).
    intros L1%Z.ltb_ge L2%Z.ltb_ge. rewrite (HD a b Ha Hb); [done|lia].
Qed.

(** ** An instance of the sorts *)

#[export] Instance merge_sorts : StdSort := {
  std_sort l := ranking l; std_partial_sort _ l := ranking l }.

#[export] Instance merge_sorts_laws : StdSortLaws merge_sorts.
Proof.
  split; simpl.
  - intros l _. apply ranking_perm.
  - intros l _. apply Sorted_merge_sort, _.
  - intros k l _. apply ranking_perm.
  - intros k l N. apply StronglySorted_Sorted. pose proof (ranking_sorted l N) as SS.
    rewrite <- (take_drop k (ranking l)) in SS. by apply StronglySorted_app in SS as (_ & ? & _).
  - intros k l x y N Hx Hy. pose proof (ranking_sorted l N) as SS.
    rewrite <- (take_drop k (ranking l)) in SS. apply StronglySorted_app in SS as (SS & _). by apply SS.
Qed.

(** ** Witnesses *)

Definition ex_hash (x : bytes) : Z := u64 (get_be x * 2 ^ 40).
Definition ex_ring : Ring :=
  mkRing ((fun i => mkNode [i] (double_of 1)) <$> [x01; x02; x03]) default_alpha.
Definition ex_ring' : Ring :=
  mkRing ((fun i => mkNode [i] (double_of 1)) <$> [x03; x01; x02]) default_alpha.

Lemma ex_decides : Decides ex_hash None [x07] ex_ring.
Proof.
  apply uniform_decides; [intros x; apply u64_bound|by repeat constructor|].
  intros a b Ha Hb. repeat (apply elem_of_cons in Ha as [Ha|Ha]); try (by apply elem_of_nil in Ha);
    repeat (apply elem_of_cons in Hb as [Hb|Hb]); try (by apply elem_of_nil in Hb); subst; try done;
    intros H; vm_compute in H; discriminate.
Qed.

Lemma hrw_agreement_witness : TopK ex_hash [x07] 2 None ex_ring = TopK ex_hash [x07] 2 None ex_ring'.
Proof.
  apply (hrw_agreement ex_hash [x07] 2 None ex_ring ex_ring' eq_refl); [|exact ex_decides].
  apply (Permutation_app_comm [_; _] [_]).
Defined.

Lemma hrw_minimal_disruption_witness :
  Primary ex_hash [x07] None ex_ring = [x03] /\
  Primary ex_hash [x07] None (without [x02] ex_ring) = Primary ex_hash [x07] None ex_ring.
Proof.
  split; [vm_compute; reflexivity|].
  apply (proj2 (hrw_minimal_disruption ex_hash [x07] None [x02] ex_ring ex_decides)). vm_compute. discriminate.
Defined.

End Hrw.
