(* ===== verification/ArtSnapshot.v ===== *)
(** * Snapshots of the prefix index

    [ArtSnapshot] of prefix/art_snapshot.cpp: the whole tree written to one file
    by recursive descent behind a header with counts and a BLAKE3-256 digest, and
    read back. A reader that runs past the end fails for good, so a cursor is the
    bytes that are left and a read is an option. The recursion of the reader is
    bounded by the bytes it has: two calls for each byte and one more, which
    [deserialize_fuel] gives it. BLAKE3 is a parameter.

    The theorems: an index reached by any operations is restored exactly, counters
    included, and no truncated file is accepted. *)

From S2P Require Import Prelude Crc32 LogStore ArtIndex ArtWal.
From Stdlib Require Import ZArith Lia FunctionalExtensionality.

Open Scope Z_scope.

Module Snapshot.

Import LogStore Art ArtWal.
Notation node := (Art.node LeafData).
Notation slots := (byte -> list node).

Definition kTagInner : byte := x00.
Definition kTagLeaf : byte := x01.
Definition kSnapshotVersion : Z := 3.
Definition kSnapshotMagic : bytes := [x50; x41; x52; x54].
Definition kSnapshotHeaderBytes : nat := 72.

Definition all_bytes : list byte := (fun i => byte_of (Z.of_nat i)) <$> seq 0 256.

(** ** Writing *)

(** [edge_tail_valid] and [edge_tail], which is zero when not valid. *)
Definition put_edge (e : option bytes) : bytes :=
  match e with Some t => x01 :: t | None => x00 :: replicate 7 x00 end.

Definition put_embedded (emb : option LeafData) : bytes :=
  match emb with Some d => x01 :: EncodeLeaf d | None => [x00] end.

(** The siblings of a slot, each followed by the byte that says whether another
    one follows. *)
Definition ser_chain (ser : node -> bytes) : list node -> bytes :=
  fix go (l : list node) : bytes :=
    match l with
    | [] => []
    | n :: r => ser n ++ (match r with [] => x00 | _ => x01 end) :: go r
    end.

Definition used_slots (ch : slots) (bs : list byte) : list byte :=
  List.filter (fun b => match ch b with [] => false | _ => true end) bs.

Definition ser_slots (ser : node -> bytes) (ch : slots) (bs : list byte) : bytes :=
  concat (List.map (fun b => match ch b with [] => [] | _ => b :: ser_chain ser (ch b) end) bs).

Fixpoint SerializeNode (n : node) : bytes :=
  match n with
  | Inner e ch emb =>
      kTagInner :: put_edge e ++ put_le 2 (zlen (used_slots ch all_bytes)) ++
      ser_slots SerializeNode ch all_bytes ++ put_embedded emb
  | Leaf e d => kTagLeaf :: put_edge e ++ EncodeLeaf d
  end.

(** [stats.leaves] and [stats.inner_nodes] of the walk. *)
Definition sum_over {A} (f : A -> nat) (l : list A) : nat := foldr (fun x n => (f x + n)%nat) 0%nat l.

Fixpoint leaves (n : node) : nat :=
  match n with
  | Inner _ ch emb =>
      ((match emb with Some _ => 1 | None => 0 end) + sum_over (fun b => sum_over leaves (ch b)) all_bytes)%nat
  | Leaf _ _ => 1%nat
  end.

Fixpoint inner_nodes (n : node) : nat :=
  match n with
  | Inner _ ch _ => S (sum_over (fun b => sum_over inner_nodes (ch b)) all_bytes)
  | Leaf _ _ => 0%nat
  end.

(** ** Reading *)

Definition Bytes (n : nat) (c : bytes) : option (bytes * bytes) :=
  if Nat.ltb (length c) n then None else Some (take n c, drop n c).
Definition U8 (c : bytes) : option (byte * bytes) :=
  match c with [] => None | b :: r => Some (b, r) end.
Definition U16 (c : bytes) : option (Z * bytes) := '(b, r) ← Bytes 2 c; Some (get_le b, r).
Definition U32 (c : bytes) : option (Z * bytes) := '(b, r) ← Bytes 4 c; Some (get_le b, r).
Definition U64 (c : bytes) : option (Z * bytes) := '(b, r) ← Bytes 8 c; Some (get_le b, r).

Definition ReadLeafPayload (c : bytes) : option (LeafData * bytes) :=
  '(loc, c) ← Bytes 64 c; '(bm, c) ← U32 c; '(rc, c) ← U32 c;
  '(se, c) ← U64 c; '(la, c) ← U64 c; '(bt, c) ← U64 c;
  Some (mkLeafData loc bm rc se la bt, c).

Definition read_edge (c : bytes) : option (option bytes * bytes) :=
  '(v, c) ← U8 c; '(t, c) ← Bytes 7 c;
  Some (if bool_decide (v = x00) then None else Some t, c).

Definition add_stats (a b : nat * nat) : nat * nat := ((a.1 + b.1)%nat, (a.2 + b.2)%nat).

Fixpoint DeserializeNode (fuel : nat) (c : bytes) {struct fuel} : option (node * (nat * nat) * bytes) :=
  match fuel with
  | O => None
  | S fuel =>
      '(tag, c) ← U8 c;
      if bool_decide (tag = kTagInner) then
        '(e, c) ← read_edge c; '(n, c) ← U16 c;
        if 256 <? n then None
        else
          '(ch, st, c) ← de_slots fuel (Z.to_nat n) no_children c;
          '(has_emb, c) ← U8 c;
          if bool_decide (has_emb = x00) then Some (Inner e ch None, add_stats (0%nat, 1%nat) st, c)
          else '(d, c) ← ReadLeafPayload c; Some (Inner e ch (Some d), add_stats (1%nat, 1%nat) st, c)
      else if bool_decide (tag = kTagLeaf) then
        '(e, c) ← read_edge c; '(d, c) ← ReadLeafPayload c; Some (Leaf e d, (1%nat, 0%nat), c)
      else None
  end
with de_chain (fuel : nat) (c : bytes) {struct fuel} : option (list node * (nat * nat) * bytes) :=
  match fuel with
  | O => None
  | S fuel =>
      '(n, st, c) ← DeserializeNode fuel c; '(cont, c) ← U8 c;
      if bool_decide (cont = x00) then Some ([n], st, c)
      else '(l, st', c) ← de_chain fuel c; Some (n :: l, add_stats st st', c)
  end
with de_slots (fuel n : nat) (ch : slots) (c : bytes) {struct fuel} : option (slots * (nat * nat) * bytes) :=
  match fuel with
  | O => None
  | S fuel =>
      match n with
      | O => Some (ch, (0%nat, 0%nat), c)
      | S n =>
          '(slot, c) ← U8 c; '(l, st, c) ← de_chain fuel c;
          '(ch', st', c) ← de_slots fuel n (set_slot slot l ch) c;
          Some (ch', add_stats st st', c)
      end
  end.

Definition deserialize_fuel (c : bytes) : nat := S (2 * length c).

(** ** Files *)

Definition file := bytes.

Section Digest.
(** BLAKE3-256, which gives 32 bytes. *)
Variable Blake3_256 : bytes -> bytes.

Definition root_node (x : Index) : node := Inner None (root_ x) None.

Definition snapshot_bytes (x : Index) : bytes :=
  let body := SerializeNode (root_node x) in
  kSnapshotMagic ++ put_le 4 kSnapshotVersion ++ put_le 4 0 ++ put_le 4 0 ++
  put_le 8 (Z.of_nat (leaves (root_node x))) ++ put_le 8 (Z.of_nat (inner_nodes (root_node x))) ++
  put_le 8 (zlen body) ++ Blake3_256 body ++ body.

(** The outcomes of the system calls of [Write]. *)
Record write_io := mkWriteIo { w_open : bool; w_write : bool; w_sync : bool; w_rename : bool }.

(** [Write]: the snapshot file afterwards; the temporary file is renamed over it
    or removed. *)
Definition Write (io : write_io) (x : Index) (old : option bytes) : bool * option bytes :=
  if w_open io && w_write io && w_sync io && w_rename io then (true, Some (snapshot_bytes x))
  else (false, old).

Definition Read (f : option bytes) : option Index :=
  buf ← f;
  if Nat.ltb (length buf) kSnapshotHeaderBytes then None
  else
    '(magic, c) ← Bytes 4 buf;
    if negb (bool_decide (magic = kSnapshotMagic)) then None
    else
      '(version, c) ← U32 c;
      if negb (version =? kSnapshotVersion) then None
      else
        '(flags, c) ← U32 c; '(_, c) ← U32 c;
        if negb (flags =? 0) then None
        else
          '(expect_leaves, c) ← U64 c; '(expect_inner, c) ← U64 c; '(body_bytes, c) ← U64 c;
          '(expect_digest, c) ← Bytes 32 c;
          if negb (zlen buf - Z.of_nat kSnapshotHeaderBytes =? body_bytes) then None
          else if negb (bool_decide (Blake3_256 c = expect_digest)) then None
          else
            '(root, st, rest) ← DeserializeNode (deserialize_fuel c) c;
            match root, rest with
            | Inner _ ch _, [] =>
                if negb ((Z.of_nat st.1 =? expect_leaves) && (Z.of_nat st.2 =? expect_inner)) then None
                else Some (mkIndex ch (Z.of_nat st.1)
                             (if (0 <? st.2)%nat then Z.of_nat st.2 - 1 else 0))
            | _, _ => None
            end.
End Digest.

(** ** Trees with the widths of the format *)

Definition edge_ok (e : option bytes) : Prop := match e with Some t => length t = 7%nat | None => True end.

Inductive store_ok : node -> Prop :=
| so_Leaf e d : edge_ok e -> leaf_ok d -> store_ok (Leaf e d)
| so_Inner e ch emb :
    edge_ok e -> (forall d, emb = Some d -> leaf_ok d) -> (forall b n, n ∈ ch b -> store_ok n) ->
    store_ok (Inner e ch emb).

Definition slots_ok (ch : slots) : Prop := forall b n, n ∈ ch b -> store_ok n.

Lemma all_bytes_In b : b ∈ all_bytes.
Proof. destruct b; apply (bool_decide_unpack _); vm_compute; exact Logic.I. Qed.

Lemma all_bytes_NoDup : NoDup all_bytes.
Proof. apply (bool_decide_unpack _). vm_compute. exact Logic.I. Qed.

(** ** Fields *)

Lemma Bytes_app l r n : length l = n -> Bytes n (l ++ r) = Some (l, r).
Proof.
  intros <-. unfold Bytes. rewrite length_app. destruct (Nat.ltb _ _) eqn:E; reflect_bools; [lia|].
  by rewrite take_app_length, drop_app_length.
Qed.

Lemma U16_put v r : 0 <= v < 2 ^ 16 -> U16 (put_le 2 v ++ r) = Some (v, r).
Proof.
  intros H. unfold U16. rewrite Bytes_app by apply length_put_le. cbn [mbind option_bind].
  rewrite get_put_le. do 2 f_equal. apply Z.mod_small. exact H.
Qed.

Lemma U32_put v r : 0 <= v < 2 ^ 32 -> U32 (put_le 4 v ++ r) = Some (v, r).
Proof.
  intros H. unfold U32. rewrite Bytes_app by apply length_put_le. cbn [mbind option_bind].
  rewrite get_put_le. do 2 f_equal. apply Z.mod_small. exact H.
Qed.

Lemma U64_put v r : 0 <= v < 2 ^ 64 -> U64 (put_le 8 v ++ r) = Some (v, r).
Proof.
  intros H. unfold U64. rewrite Bytes_app by apply length_put_le. cbn [mbind option_bind].
  rewrite get_put_le. do 2 f_equal. apply Z.mod_small. exact H.
Qed.

Lemma ReadLeafPayload_put d r : leaf_ok d -> ReadLeafPayload (EncodeLeaf d ++ r) = Some (d, r).
Proof.
  intros (L & H1 & H2 & H3 & H4 & H5). unfold ReadLeafPayload, EncodeLeaf, PutU32, PutU64.
  rewrite <- !app_assoc. rewrite Bytes_app by done. cbn [mbind option_bind].
  rewrite U32_put by done. cbn [mbind option_bind]. rewrite U32_put by done. cbn [mbind option_bind].
  rewrite U64_put by done. cbn [mbind option_bind]. rewrite U64_put by done. cbn [mbind option_bind].
  rewrite U64_put by done. cbn [mbind option_bind]. by destruct d.
Qed.

Lemma read_edge_put e r : edge_ok e -> read_edge (put_edge e ++ r) = Some (e, r).
Proof.
  intros H. destruct e as [t|]; unfold read_edge, put_edge; cbn [app U8 mbind option_bind].
  - by rewrite Bytes_app.
  - by rewrite (Bytes_app (replicate 7 x00)).
Qed.

Lemma length_put_edge e : edge_ok e -> length (put_edge e) = 8%nat.
Proof. destruct e; cbn; [lia|done]. Qed.

(** ** Round trip of nodes *)

(** What reading back a node means, with two calls allowed per byte. *)
Definition reads_back (n : node) : Prop := forall fuel r,
  (2 * length (SerializeNode n) <= fuel)%nat ->
  DeserializeNode fuel (SerializeNode n ++ r) = Some (n, (leaves n, inner_nodes n), r).

Lemma de_chain_put l : forall fuel r,
  (forall n, n ∈ l -> reads_back n) -> l <> [] ->
  (2 * length (ser_chain SerializeNode l) < fuel)%nat ->
  de_chain fuel (ser_chain SerializeNode l ++ r) =
  Some (l, (sum_over leaves l, sum_over inner_nodes l), r).
Proof.
  induction l as [|n l IH]; intros fuel r RB N F; [done|].
  destruct fuel as [|fuel]; [lia|]. cbn [ser_chain] in *. rewrite length_app in F. cbn [length] in F.
  rewrite <- app_assoc. cbn [app de_chain].
  rewrite (RB n) by (by left || lia). cbn [mbind option_bind U8].
  destruct l as [|n2 l].
  - cbn. by rewrite !Nat.add_0_r.
  - rewrite bool_decide_false by done. rewrite IH; [|intros; apply RB; by right|done|lia]. done.
Qed.

(** Slots written over others. *)
Definition overlay (bs : list byte) (ch ch0 : slots) : slots := fun b =>
  if bool_decide (b ∈ bs) then match ch b with [] => ch0 b | l => l end else ch0 b.

Lemma overlay_cons_nil b bs ch ch0 : ch b = [] -> overlay (b :: bs) ch ch0 = overlay bs ch ch0.
Proof.
  intros E. apply functional_extensionality. intros x. unfold overlay.
  destruct (decide (x = b)) as [->|X].
  - rewrite E. by destruct (bool_decide _), (bool_decide _).
  - rewrite (bool_decide_ext (x ∈ b :: bs) (x ∈ bs)); [done|]. rewrite elem_of_cons. tauto.
Qed.

Lemma overlay_cons_set b bs ch ch0 :
  ch b <> [] -> overlay bs ch (set_slot b (ch b) ch0) = overlay (b :: bs) ch ch0.
Proof.
  intros E. apply functional_extensionality. intros x. unfold overlay.
  destruct (decide (x = b)) as [->|X].
  - rewrite set_slot_eq, (bool_decide_true (b ∈ b :: bs)) by by left.
    by destruct (ch b), (bool_decide _).
  - rewrite set_slot_ne by done.
    rewrite (bool_decide_ext (x ∈ b :: bs) (x ∈ bs)); [done|]. rewrite elem_of_cons. tauto.
Qed.

Lemma overlay_all ch : overlay all_bytes ch no_children = ch.
Proof.
  apply functional_extensionality. intros x. unfold overlay.
  rewrite bool_decide_true by apply all_bytes_In. by destruct (ch x).
Qed.

Lemma de_slots_put ch bs : forall fuel ch0 r,
  (forall b n, n ∈ ch b -> reads_back n) ->
  (2 * length (ser_slots SerializeNode ch bs) < fuel)%nat ->
  de_slots fuel (length (used_slots ch bs)) ch0 (ser_slots SerializeNode ch bs ++ r) =
  Some (overlay bs ch ch0,
        (sum_over (fun b => sum_over leaves (ch b)) bs, sum_over (fun b => sum_over inner_nodes (ch b)) bs), r).
Proof.
  induction bs as [|b bs IH]; intros fuel ch0 r RB F.
  { destruct fuel as [|fuel]; [lia|]. reflexivity. }
  unfold ser_slots, used_slots in *. cbn [List.map concat List.filter sum_over foldr] in *.
  destruct (ch b) as [|n l] eqn:E.
  - cbn [app]. rewrite IH by done. rewrite overlay_cons_nil by done. done.
  - rewrite <- E in *. rewrite <- app_assoc. cbn [app length de_slots] in *.
    rewrite length_app in F. destruct fuel as [|fuel]; [lia|]. cbn [de_slots U8 mbind option_bind].
    rewrite de_chain_put; [|by apply RB|by rewrite E|lia]. cbn [mbind option_bind].
    rewrite IH; [|done|lia]. cbn [mbind option_bind]. by rewrite overlay_cons_set by by rewrite E.
Qed.

Lemma used_slots_bound ch : 0 <= zlen (used_slots ch all_bytes) <= 256.
Proof.
  unfold used_slots. pose proof (List.filter_length_le (fun b => match ch b with [] => false | _ => true end) all_bytes).
  change (length all_bytes) with 256%nat in *. lia.
Qed.

Lemma node_reads_back n : store_ok n -> reads_back n.
Proof.
  induction 1 as [e d He Hd|e ch emb He Hemb _ IH]; intros fuel r F.
  - cbn [SerializeNode] in *. destruct fuel as [|fuel]; [cbn [length] in F; lia|].
    cbn [app DeserializeNode U8 mbind option_bind]. rewrite <- app_assoc, read_edge_put by done.
    cbn [mbind option_bind]. by rewrite ReadLeafPayload_put by done.
  - cbn [SerializeNode] in *. destruct fuel as [|fuel]; [cbn [length] in F; lia|].
    cbn [app length] in F. rewrite !length_app in F.
    pose proof (used_slots_bound ch) as Hn.
    cbn [app DeserializeNode U8 mbind option_bind]. rewrite (bool_decide_true (kTagInner = kTagInner)) by done.
    rewrite <- !app_assoc, read_edge_put by done. cbn [mbind option_bind]. rewrite U16_put by lia. cbn [mbind option_bind].
    destruct (256 <? _) eqn:E; reflect_bools; [lia|]. rewrite Nat2Z.id.
    rewrite length_put_edge, length_put_le in F by done.
    rewrite de_slots_put by (done || lia). cbn [mbind option_bind]. rewrite overlay_all.
    destruct emb as [d|]; cbn [put_embedded app U8 mbind option_bind].
    + rewrite bool_decide_false by done. rewrite ReadLeafPayload_put by by apply Hemb.
      reflexivity.
    + rewrite bool_decide_true by done. reflexivity.
Qed.

(** ** Counters of the index and the walk *)

Definition total (f : node -> nat) (ch : slots) : nat := sum_over (fun b => sum_over f (ch b)) all_bytes.

Definition weight (f : node -> nat) (n : option node) : nat := match n with Some n => f n | None => 0%nat end.

Lemma sum_over_update {A} `{EqDecision A} (f g : A -> nat) a l :
  NoDup l -> a ∈ l -> (forall x, x <> a -> f x = g x) ->
  (sum_over f l + g a = sum_over g l + f a)%nat.
Proof.
  intros N E H. induction N as [|x l X N IH]; [by apply elem_of_nil in E|].
  cbn [sum_over foldr]. fold (sum_over f l) (sum_over g l).
  destruct (decide (x = a)) as [->|Ne].
  - assert (Eq : sum_over f l = sum_over g l); [|lia]. clear IH E. induction l as [|y l IHl]; [done|].
    cbn [sum_over foldr]. rewrite not_elem_of_cons in X. rewrite NoDup_cons in N.
    fold (sum_over f l) (sum_over g l). rewrite IHl by tauto. rewrite H; [done|]. intros ->. tauto.
  - apply elem_of_cons in E as [->|E]; [done|]. specialize (IH E). rewrite (H x) by done. lia.
Qed.

Lemma total_set_slot f b c ch :
  (total f (set_slot b c ch) + sum_over f (ch b) = total f ch + sum_over f c)%nat.
Proof.
  unfold total.
  pose proof (sum_over_update (fun x => sum_over f (set_slot b c ch x)) (fun x => sum_over f (ch x)) b all_bytes
    all_bytes_NoDup (all_bytes_In b)) as H. cbn beta in H. rewrite set_slot_eq in H. apply H.
  intros x X. by rewrite set_slot_ne.
Qed.

Lemma sum_splice f chain h n :
  (sum_over f (splice chain h n) + weight f (WalkChain chain h) = sum_over f chain + f n)%nat.
Proof.
  induction chain as [|m r IH]; cbn [splice WalkChain]; [cbn; lia|].
  destruct (EdgeMatches m h); unfold sum_over in *; cbn [foldr weight] in *; lia.
Qed.

Lemma sum_unlink f chain h :
  (sum_over f (unlink chain h) + weight f (WalkChain chain h) = sum_over f chain)%nat.
Proof.
  induction chain as [|m r IH]; cbn [unlink WalkChain]; [cbn; lia|].
  destruct (EdgeMatches m h); unfold sum_over in *; cbn [foldr weight] in *; lia.
Qed.

Lemma total_put_child f ch h n :
  (total f (put_child ch h n) + weight f (child ch h) = total f ch + f n)%nat.
Proof.
  pose proof (total_set_slot f (slot_of h) (splice (ch (slot_of h)) h n) ch).
  pose proof (sum_splice f (ch (slot_of h)) h n). unfold put_child, child. lia.
Qed.

Lemma total_del_child f ch h :
  (total f (del_child ch h) + weight f (child ch h) = total f ch)%nat.
Proof.
  pose proof (total_set_slot f (slot_of h) (unlink (ch (slot_of h)) h) ch).
  pose proof (sum_unlink f (ch (slot_of h)) h). unfold del_child, child. lia.
Qed.

Lemma leaves_Inner e ch emb :
  leaves (Inner e ch emb) = ((match emb with Some _ => 1 | None => 0 end) + total leaves ch)%nat.
Proof. reflexivity. Qed.

Lemma inner_nodes_Inner e ch emb : inner_nodes (Inner e ch emb) = S (total inner_nodes ch).
Proof. reflexivity. Qed.

Lemma total_no_children f : total f no_children = 0%nat.
Proof. reflexivity. Qed.

#[local] Opaque total all_bytes.

Definition inserted (r : InsertResult) : nat := match r with kInserted => 1%nat | _ => 0%nat end.

Lemma insert_at_counts p d : forall ch,
  p <> [] ->
  let '(ch', r, n) := insert_at ch p d in
  total leaves ch' = (total leaves ch + inserted r)%nat /\
  total inner_nodes ch' = (total inner_nodes ch + n)%nat.
Proof.
  induction p as [|h p IH]; intros ch N; [done|]. destruct p as [|h2 p].
  - cbn [insert_at]. fold (child ch h).
    pose proof (fun n => total_put_child leaves ch h n) as TL.
    pose proof (fun n => total_put_child inner_nodes ch h n) as TI.
    destruct (child ch h) as [[e d0|e ch' emb]|]; cbn [weight] in TL, TI.
    + specialize (TL (Leaf (Some (tail_of h)) d)). specialize (TI (Leaf (Some (tail_of h)) d)).
      cbn [leaves inner_nodes] in TL, TI. unfold put_child in TL, TI. cbn [inserted]. lia.
    + specialize (TL (Inner e ch' (Some d))). specialize (TI (Inner e ch' (Some d))).
      rewrite !leaves_Inner in TL. rewrite !inner_nodes_Inner in TI. unfold put_child in TL, TI.
      destruct emb; cbn [inserted]; lia.
    + specialize (TL (Leaf (Some (tail_of h)) d)). specialize (TI (Leaf (Some (tail_of h)) d)).
      cbn [leaves inner_nodes] in TL, TI. unfold put_child in TL, TI. cbn [inserted]. lia.
  - change (insert_at ch (h :: h2 :: p) d) with
      (let '(e, below, emb, created) :=
        match child ch h with
        | Some (Leaf e d0) => (e, no_children, Some d0, 1%nat)
        | Some (Inner e ch' emb) => (e, ch', emb, 0%nat)
        | None => (Some (tail_of h), no_children, None, 1%nat)
        end in
      let '(below', r, n) := insert_at below (h2 :: p) d in
      (put_child ch h (Inner e below' emb), r, (created + n)%nat)).
    pose proof (fun n => total_put_child leaves ch h n) as TL.
    pose proof (fun n => total_put_child inner_nodes ch h n) as TI.
    destruct (child ch h) as [[e d0|e ch' emb]|]; cbn [weight] in TL, TI.
    + specialize (IH no_children ltac:(done)). destruct (insert_at _ _ _) as [[b r] n].
      rewrite !total_no_children in IH. specialize (TL (Inner e b (Some d0))). specialize (TI (Inner e b (Some d0))).
      rewrite leaves_Inner in TL. rewrite inner_nodes_Inner in TI. cbn [leaves inner_nodes] in TL, TI. lia.
    + specialize (IH ch' ltac:(done)). destruct (insert_at _ _ _) as [[b r] n].
      specialize (TL (Inner e b emb)). specialize (TI (Inner e b emb)).
      rewrite !leaves_Inner in TL. rewrite !inner_nodes_Inner in TI. lia.
    + specialize (IH no_children ltac:(done)). destruct (insert_at _ _ _) as [[b r] n].
      rewrite !total_no_children in IH. specialize (TL (Inner (Some (tail_of h)) b None)).
      specialize (TI (Inner (Some (tail_of h)) b None)).
      rewrite leaves_Inner in TL. rewrite inner_nodes_Inner in TI. lia.
Qed.

Lemma remove_at_counts p : forall ch,
  match remove_at ch p with
  | None => True
  | Some ch' => total leaves ch = S (total leaves ch') /\ total inner_nodes ch' = total inner_nodes ch
  end.
Proof.
  induction p as [|h p IH]; intros ch; [done|].
  pose proof (fun n => total_put_child leaves ch h n) as TL.
  pose proof (fun n => total_put_child inner_nodes ch h n) as TI.
  destruct p as [|h2 p].
  - cbn [remove_at]. fold (child ch h). fold (del_child ch h).
    pose proof (total_del_child leaves ch h) as DL. pose proof (total_del_child inner_nodes ch h) as DI.
    destruct (child ch h) as [[e d0|e ch' [d0|]]|]; cbn [weight] in *; try done.
    + cbn [leaves inner_nodes] in DL, DI. lia.
    + fold (put_child ch h (Inner e ch' None)). specialize (TL (Inner e ch' None)). specialize (TI (Inner e ch' None)).
      rewrite !leaves_Inner in TL. rewrite !inner_nodes_Inner in TI. lia.
  - change (remove_at ch (h :: h2 :: p)) with
      (match child ch h with
       | Some (Inner e ch' emb) => (fun below => put_child ch h (Inner e below emb)) <$> remove_at ch' (h2 :: p)
       | _ => None
       end).
    destruct (child ch h) as [[e d0|e ch' emb]|]; try done. specialize (IH ch').
    destruct (remove_at ch' (h2 :: p)) as [b|]; [|done]. cbn [fmap option_fmap option_map weight] in *.
    specialize (TL (Inner e b emb)). specialize (TI (Inner e b emb)).
    rewrite !leaves_Inner in TL. rewrite !inner_nodes_Inner in TI. lia.
Qed.

(** ** Operations keep the widths *)

Lemma put_child_ok ch h n : slots_ok ch -> store_ok n -> slots_ok (put_child ch h n).
Proof.
  intros H Hn b m M. unfold put_child in M. destruct (decide (b = slot_of h)) as [->|B].
  - rewrite set_slot_eq in M. apply splice_incl in M as [->|M]; [done|by eapply H].
  - rewrite set_slot_ne in M by done. by eapply H.
Qed.

Lemma del_child_ok ch h : slots_ok ch -> slots_ok (del_child ch h).
Proof.
  intros H b m M. unfold del_child in M. destruct (decide (b = slot_of h)) as [->|B].
  - rewrite set_slot_eq in M. apply unlink_incl in M. by eapply H.
  - rewrite set_slot_ne in M by done. by eapply H.
Qed.

Lemma child_ok ch h n : slots_ok ch -> child ch h = Some n -> store_ok n.
Proof. intros H E. apply WalkChain_elem in E. by eapply H. Qed.

Lemma no_children_ok : slots_ok no_children.
Proof. intros b n H. by apply elem_of_nil in H. Qed.

Lemma tail_edge_ok h : hash_ok h -> edge_ok (Some (tail_of h)).
Proof. unfold hash_ok. intros H. cbn [edge_ok]. unfold tail_of. rewrite length_take, length_drop. lia. Qed.

Lemma inner_ok_inv e ch emb :
  store_ok (Inner e ch emb) -> edge_ok e /\ (forall d, emb = Some d -> leaf_ok d) /\ slots_ok ch.
Proof. intros H. inversion H; subst. done. Qed.

Lemma insert_at_ok p d : forall ch,
  path_ok p -> leaf_ok d -> slots_ok ch -> slots_ok (insert_at ch p d).1.1.
Proof.
  induction p as [|h p IH]; intros ch P D S; [done|]. inversion_clear P as [|? ? Hh Hp].
  pose proof (tail_edge_ok h Hh) as He. pose proof (child_ok ch h) as Hc. destruct p as [|h2 p].
  - cbn [insert_at]. fold (child ch h). destruct (child ch h) as [[e d0|e ch' emb]|];
      (apply put_child_ok; [done|]); try (by constructor).
    destruct (inner_ok_inv _ _ _ (Hc _ S eq_refl)) as (? & _ & ?). constructor; [done| |done].
    by intros ? [= <-].
  - change (insert_at ch (h :: h2 :: p) d) with
      (let '(e, below, emb, created) :=
        match child ch h with
        | Some (Leaf e d0) => (e, no_children, Some d0, 1%nat)
        | Some (Inner e ch' emb) => (e, ch', emb, 0%nat)
        | None => (Some (tail_of h), no_children, None, 1%nat)
        end in
      let '(below', r, n) := insert_at below (h2 :: p) d in
      (put_child ch h (Inner e below' emb), r, (created + n)%nat)).
    destruct (child ch h) as [[e d0|e ch' emb]|].
    + specialize (IH no_children Hp D no_children_ok). destruct (insert_at _ _ _) as [[b r] n].
      pose proof (Hc _ S eq_refl) as X. inversion X; subst. apply put_child_ok; [done|].
      constructor; [done| |done]. by intros ? [= <-].
    + destruct (inner_ok_inv _ _ _ (Hc _ S eq_refl)) as (? & ? & S').
      specialize (IH ch' Hp D S'). destruct (insert_at _ _ _) as [[b r] n].
      apply put_child_ok; [done|]. by constructor.
    + specialize (IH no_children Hp D no_children_ok). destruct (insert_at _ _ _) as [[b r] n].
      apply put_child_ok; [done|]. by constructor.
Qed.

Lemma remove_at_ok p : forall ch ch', slots_ok ch -> remove_at ch p = Some ch' -> slots_ok ch'.
Proof.
  induction p as [|h p IH]; intros ch ch1 S E; [done|]. pose proof (child_ok ch h) as Hc.
  destruct p as [|h2 p].
  - cbn [remove_at] in E. fold (child ch h) in E. fold (del_child ch h) in E.
    destruct (child ch h) as [[e d0|e ch' [d0|]]|]; try done; injection E as <-; [by apply del_child_ok|].
    apply put_child_ok; [done|]. destruct (inner_ok_inv _ _ _ (Hc _ S eq_refl)) as (? & _ & ?). by constructor.
  - change (remove_at ch (h :: h2 :: p)) with
      (match child ch h with
       | Some (Inner e ch' emb) => (fun below => put_child ch h (Inner e below emb)) <$> remove_at ch' (h2 :: p)
       | _ => None
       end) in E.
    destruct (child ch h) as [[e d0|e ch' emb]|]; try done.
    destruct (inner_ok_inv _ _ _ (Hc _ S eq_refl)) as (? & ? & S').
    destruct (remove_at ch' (h2 :: p)) as [b|] eqn:Er; [|done]. injection E as <-.
    apply put_child_ok; [done|]. constructor; [done|done|]. by apply (IH ch' b).
Qed.

(** The index between operations: the tree has the widths of the format and the
    counters are those of the walk, the root not counted. *)
Definition consistent (x : Index) : Prop :=
  slots_ok (root_ x) /\ leaf_count_ x = Z.of_nat (total leaves (root_ x)) /\
  node_count_ x = Z.of_nat (total inner_nodes (root_ x)).

Lemma run_op_consistent o x : typed o -> consistent x -> consistent (run_op o x).2.
Proof.
  intros (P & N & _ & D) (S & L & I). destruct o as [p d|p]; cbn [run_op op_path] in *.
  - unfold Art.Insert. pose proof (insert_at_counts p d (root_ x) N) as C.
    pose proof (insert_at_ok p d (root_ x) P D S) as S'.
    destruct (insert_at (root_ x) p d) as [[ch r] n]. cbn [fst snd] in *. destruct C as [CL CI].
    split; [exact S'|]. cbn [leaf_count_ node_count_ root_]. rewrite CL, CI.
    split; [|lia]. destruct r; cbn [inserted]; lia.
  - unfold Art.Remove. pose proof (remove_at_counts p (root_ x)) as C.
    pose proof (remove_at_ok p (root_ x)) as S'.
    destruct (remove_at (root_ x) p) as [ch|]; [|done]. destruct C as [CL CI].
    split; [by apply S'|]. cbn [snd leaf_count_ node_count_ root_]. lia.
Qed.

Lemma run_consistent ops : forall x, Forall typed ops -> consistent x -> consistent (run run_op ops x).2.
Proof.
  induction ops as [|o ops IH]; intros x T C; [done|]. inversion_clear T as [|? ? To Tr].
  cbn [run]. pose proof (run_op_consistent o x To C) as C'. destruct (run_op o x) as [b x'].
  specialize (IH x' Tr C'). destruct (run run_op ops x') as [bs x'']. exact IH.
Qed.

Lemma empty_consistent : consistent empty_index.
Proof. split; [apply no_children_ok|]. cbn [leaf_count_ node_count_ root_ empty_index]. by rewrite !total_no_children. Qed.

(** ** Files *)

Section Digest_laws.
Variable Blake3_256 : bytes -> bytes.
Hypothesis Blake3_256_length : forall b, length (Blake3_256 b) = 32%nat.

Lemma length_snapshot_bytes x :
  length (snapshot_bytes Blake3_256 x) = (kSnapshotHeaderBytes + length (SerializeNode (root_node x)))%nat.
Proof.
  unfold snapshot_bytes. rewrite !length_app, !length_put_le, Blake3_256_length.
  unfold kSnapshotMagic, kSnapshotHeaderBytes. cbn [length]. lia.
Qed.

(** Sizes that fit the header's 64-bit fields. *)
Definition fits (x : Index) : Prop :=
  zlen (SerializeNode (root_node x)) < 2 ^ 64 /\ leaf_count_ x < 2 ^ 64 /\ node_count_ x < 2 ^ 64 - 1.

Lemma root_counts x :
  consistent x ->
  Z.of_nat (leaves (root_node x)) = leaf_count_ x /\
  Z.of_nat (inner_nodes (root_node x)) = node_count_ x + 1.
Proof.
  intros (_ & L & I). unfold root_node. rewrite leaves_Inner, inner_nodes_Inner. lia.
Qed.

Lemma Read_snapshot x :
  consistent x -> fits x -> Read Blake3_256 (Some (snapshot_bytes Blake3_256 x)) = Some x.
Proof.
  intros C (Fb & Fl & Fn). destruct (root_counts x C) as [RL RI].
  assert (SO : store_ok (root_node x)).
  { destruct C as [S _]. constructor; [exact Logic.I|by intros|exact S]. }
  unfold Read. cbn [mbind option_bind]. rewrite length_snapshot_bytes.
  destruct (Nat.ltb _ _) eqn:E; reflect_bools; [unfold kSnapshotHeaderBytes in E; lia|].
  unfold snapshot_bytes at 1.
  rewrite Bytes_app by done. cbn [mbind option_bind]. rewrite bool_decide_true by done. cbn [negb].
  rewrite U32_put by done. cbn [mbind option_bind]. rewrite Z.eqb_refl. cbn [negb].
  do 2 (rewrite U32_put by done; cbn [mbind option_bind]). rewrite Z.eqb_refl. cbn [negb].
  rewrite U64_put by lia. cbn [mbind option_bind]. rewrite U64_put by lia. cbn [mbind option_bind].
  rewrite U64_put by lia. cbn [mbind option_bind]. rewrite Bytes_app by apply Blake3_256_length.
  cbn [mbind option_bind].
  replace (Z.of_nat (kSnapshotHeaderBytes + length (SerializeNode (root_node x))) - Z.of_nat kSnapshotHeaderBytes)
    with (zlen (SerializeNode (root_node x))) by lia.
  rewrite Z.eqb_refl. cbn [negb]. rewrite bool_decide_true by done. cbn [negb].
  rewrite <- (app_nil_r (SerializeNode (root_node x))) at 2.
  rewrite (node_reads_back _ SO) by (unfold deserialize_fuel; lia). cbn [mbind option_bind].
  unfold root_node at 1. rewrite !Z.eqb_refl. cbn [andb negb fst snd].
  assert (N : (0 <? inner_nodes (root_node x))%nat = true).
  { apply Nat.ltb_lt. unfold root_node. rewrite inner_nodes_Inner. lia. }
  rewrite N, RL. replace (Z.of_nat (inner_nodes (root_node x)) - 1) with (node_count_ x) by lia. by destruct x.
Qed.

(** A truncated file is refused by the sizes alone. *)
Lemma Read_truncated x k :
  consistent x -> fits x -> (k < length (snapshot_bytes Blake3_256 x))%nat ->
  Read Blake3_256 (Some (take k (snapshot_bytes Blake3_256 x))) = None.
Proof.
  intros C (Fb & Fl & Fn) K. destruct (root_counts x C) as [RL RI].
  pose proof (length_snapshot_bytes x) as Len. rewrite Len in K.
  unfold Read. cbn [mbind option_bind]. rewrite length_take, Len, Nat.min_l by lia.
  destruct (Nat.ltb _ _) eqn:E; reflect_bools; [done|]. unfold kSnapshotHeaderBytes in *.
  set (body := SerializeNode (root_node x)) in *.
  assert (T : take k (snapshot_bytes Blake3_256 x) =
    kSnapshotMagic ++ put_le 4 kSnapshotVersion ++ put_le 4 0 ++ put_le 4 0 ++
    put_le 8 (Z.of_nat (leaves (root_node x))) ++ put_le 8 (Z.of_nat (inner_nodes (root_node x))) ++
    put_le 8 (zlen body) ++ Blake3_256 body ++ take (k - 72) body).
  { unfold snapshot_bytes. fold body. rewrite !app_assoc.
    match goal with |- take k (?h ++ body) = _ => assert (Lh : length h = 72%nat) end.
    { rewrite !length_app, !length_put_le, Blake3_256_length. reflexivity. }
    rewrite take_app_ge by lia. by rewrite Lh. }
  rewrite T. rewrite Bytes_app by done. cbn [mbind option_bind]. rewrite bool_decide_true by done. cbn [negb].
  rewrite U32_put by done. cbn [mbind option_bind]. rewrite Z.eqb_refl. cbn [negb].
  do 2 (rewrite U32_put by done; cbn [mbind option_bind]). rewrite Z.eqb_refl. cbn [negb].
  rewrite U64_put by lia. cbn [mbind option_bind]. rewrite U64_put by lia. cbn [mbind option_bind].
  rewrite U64_put by lia. cbn [mbind option_bind]. rewrite Bytes_app by apply Blake3_256_length.
  cbn [mbind option_bind]. destruct (Z.eqb_spec (Z.of_nat k - Z.of_nat 72) (zlen body)); [lia|done].
Qed.

(** A snapshot restores the index exactly. For the index any operations
    reach, reading the file [Write] published gives back the same tree and the
    same counters; a [Write] whose system calls fail leaves the old file; and no
    proper prefix of a snapshot file is accepted. *)
Theorem snapshot_roundtrip ops io old :
  Forall typed ops ->
  let x := (run run_op ops empty_index).2 in
  fits x ->
  match Write Blake3_256 io x old with
  | (true, f) => Read Blake3_256 f = Some x /\
      forall k, (k < length (snapshot_bytes Blake3_256 x))%nat ->
        Read Blake3_256 (take k <$> f) = None
  | (false, f) => f = old
  end.
Proof.
  intros T x F. pose proof (run_consistent ops empty_index T empty_consistent) as C. fold x in C.
  unfold Write. destruct (_ && _); [|done]. split; [by apply Read_snapshot|].
  intros k K. by apply Read_truncated.
Qed.

End Digest_laws.

Definition pad32 (b : bytes) : bytes := take 32 (b ++ replicate 32 x00).

Lemma pad32_length b : length (pad32 b) = 32%nat.
Proof. unfold pad32. rewrite length_take, length_app, length_replicate. lia. Qed.

Lemma ops_c_typed : Forall typed ops_c.
Proof. pose proof ops_c_logged as H. eapply Forall_impl; [exact H|]. by intros o [? _]. Qed.

Lemma snapshot_roundtrip_witness :
  let x := (run run_op ops_c empty_index).2 in
  Read pad32 (Write pad32 (mkWriteIo true true true true) x None).2 = Some x.
Proof.
  pose proof (snapshot_roundtrip pad32 pad32_length ops_c (mkWriteIo true true true true) None ops_c_typed) as H.
  cbn zeta in H. destruct H as [H _].
  - split; [vm_compute; reflexivity|]. split; vm_compute; reflexivity.
  - exact H.
Defined.

End Snapshot.
