(* ===== verification/Ring.v ===== *)
(** * The shared-memory ring

    [SqCq] of kvagent/src/shmem_ring/sq_cq.cpp, the bounded multi-producer
    multi-consumer queue between an engine and its agent. Each slot has a sequence
    number that says for which position it is free or filled; producers and
    consumers claim a position with a compare-and-swap on a cursor. A thread is a
    program counter, and each atomic access of [try_push] and [try_pop], and each
    copy of a payload, is one step; the copies are steps of their own because the
    invariant gives the copying thread the slot for itself. The memory is
    sequentially consistent, which is stronger than the orderings the code asks
    for. Cursors stay below 2^62.

    The theorems: run alone, the operations are those of a bounded FIFO queue; and
    under any interleaving of any number of threads every pop returns what was
    pushed at its position, no position is popped twice, and none is skipped. *)

From S2P Require Import Prelude.
From Stdlib Require Import ZArith Lia.

Open Scope Z_scope.

Module Ring.

(** ** Layout *)

Definition kCacheLine : Z := 64.
Definition kSqMagic : Z := 0x5153564B.
Definition kCqMagic : Z := 0x5143564B.
Definition kCurrentVersion : Z := 1.

Definition SlotStride (slot_bytes : Z) : Z :=
  let raw := 8 + slot_bytes in Z.land (raw + kCacheLine - 1) (Z.lnot (kCacheLine - 1)).

Definition IsPow2 (v : Z) : bool := (0 <? v) && (Z.land v (v - 1) =? 0).

Definition kSlotBaseOffset : Z := 64 + 128.

Record RingHeader := mkHeader { magic : Z; version : Z; h_slot_count : Z; h_slot_bytes : Z }.

Record OpenOptions := mkOptions { path : bytes; kind : Z; o_slot_count : Z; o_slot_bytes : Z }.

(** The mapped ring: [mask_], [slot_bytes_], the cursors and the slots. *)
Record Ring := mkRing {
  mask_ : Z; slot_bytes_ : nat; head_pos : Z; tail_pos : Z; seqs : list Z; payloads : list bytes }.

(** [Create], with whether [open], [ftruncate] and [mmap] succeed; the file is
    zeroed by [ftruncate]. *)
Definition Create (io_ok : bool) (o : OpenOptions) : option (RingHeader * Ring) :=
  if negb (IsPow2 (o_slot_count o)) then None
  else if o_slot_bytes o =? 0 then None
  else match path o with
       | [] => None
       | _ =>
           if negb io_ok then None
           else Some (mkHeader (kind o) kCurrentVersion (o_slot_count o) (o_slot_bytes o),
                  mkRing (o_slot_count o - 1) (Z.to_nat (o_slot_bytes o)) 0 0
                    (Z.of_nat <$> seq 0 (Z.to_nat (o_slot_count o)))
                    (replicate (Z.to_nat (o_slot_count o)) (replicate (Z.to_nat (o_slot_bytes o)) x00)))
       end.

(** The checks of [Open] on a file of [size] bytes with the header [h]. *)
Definition Open (io_ok : bool) (o : OpenOptions) (size : Z) (h : RingHeader) : bool :=
  match path o with
  | [] => false
  | _ =>
      io_ok && negb (size <? 64) && (magic h =? kind o) && (version h =? kCurrentVersion) &&
      negb (negb (o_slot_count o =? 0) && negb (h_slot_count h =? o_slot_count o)) &&
      negb (negb (o_slot_bytes o =? 0) && negb (h_slot_bytes h =? o_slot_bytes o)) &&
      IsPow2 (h_slot_count h)
  end.

Definition slot_index (pos : Z) (r : Ring) : nat := Z.to_nat (Z.land pos (mask_ r)).
Definition slot_seq (pos : Z) (r : Ring) : Z := nth (slot_index pos r) (seqs r) 0.
Definition slot_payload (pos : Z) (r : Ring) : bytes := nth (slot_index pos r) (payloads r) [].

Definition set_head (h : Z) (r : Ring) : Ring :=
  mkRing (mask_ r) (slot_bytes_ r) h (tail_pos r) (seqs r) (payloads r).
Definition set_tail (t : Z) (r : Ring) : Ring :=
  mkRing (mask_ r) (slot_bytes_ r) (head_pos r) t (seqs r) (payloads r).
Definition set_seq (pos v : Z) (r : Ring) : Ring :=
  mkRing (mask_ r) (slot_bytes_ r) (head_pos r) (tail_pos r) (<[slot_index pos r := v]> (seqs r)) (payloads r).
Definition set_payload (pos : Z) (d : bytes) (r : Ring) : Ring :=
  mkRing (mask_ r) (slot_bytes_ r) (head_pos r) (tail_pos r) (seqs r) (<[slot_index pos r := d]> (payloads r)).

(** [static_cast<int64_t>(s) - static_cast<int64_t>(p)]. *)
Definition diff64 (s p : Z) : Z := let d := u64 (s - p) in if d <? 2 ^ 63 then d else d - 2 ^ 64.

(** ** Threads *)

(** Where a thread is in [try_push] or [try_pop]. *)
Inductive pc :=
| Idle
| PushLoad (pos : Z) (p : bytes)      (* about to load the slot's seq *)
| PushCas (pos : Z) (p : bytes)       (* it was free; about to claim head *)
| PushCopy (pos : Z) (p : bytes)      (* claimed; about to copy the payload in *)
| PushStamp (pos : Z) (p : bytes)     (* copied; about to publish *)
| PushRet (ok : bool)
| PopLoad (pos : Z)
| PopCas (pos : Z)
| PopCopy (pos : Z)
| PopStamp (pos : Z) (d : bytes)
| PopRet (r : option bytes).

Definition start_push (p : bytes) (r : Ring) : pc :=
  if Nat.ltb (slot_bytes_ r) (length p) then PushRet false else PushLoad (head_pos r) p.

Definition start_pop (r : Ring) : pc := PopLoad (tail_pos r).

(** One step; [spurious] is a weak compare-and-swap that fails for no reason. *)
Definition tstep (spurious : bool) (r : Ring) (t : pc) : Ring * pc :=
  match t with
  | PushLoad pos p =>
      let d := diff64 (slot_seq pos r) pos in
      (r, if d =? 0 then PushCas pos p else if d <? 0 then PushRet false else PushLoad (head_pos r) p)
  | PushCas pos p =>
      if (head_pos r =? pos) && negb spurious then (set_head (u64 (pos + 1)) r, PushCopy pos p)
      else (r, PushLoad (head_pos r) p)
  | PushCopy pos p => (set_payload pos (p ++ drop (length p) (slot_payload pos r)) r, PushStamp pos p)
  | PushStamp pos p => (set_seq pos (u64 (pos + 1)) r, PushRet true)
  | PopLoad pos =>
      let d := diff64 (slot_seq pos r) (u64 (pos + 1)) in
      (r, if d =? 0 then PopCas pos else if d <? 0 then PopRet None else PopLoad (tail_pos r))
  | PopCas pos =>
      if (tail_pos r =? pos) && negb spurious then (set_tail (u64 (pos + 1)) r, PopCopy pos)
      else (r, PopLoad (tail_pos r))
  | PopCopy pos => (r, PopStamp pos (slot_payload pos r))
  | PopStamp pos d => (set_seq pos (u64 (pos + mask_ r + 1)) r, PopRet (Some d))
  | Idle | PushRet _ | PopRet _ => (r, t)
  end.

(** ** The operations run alone *)

Fixpoint run_alone (n : nat) (r : Ring) (t : pc) : Ring * pc :=
  match n with
  | O => (r, t)
  | S n => let '(r', t') := tstep false r t in run_alone n r' t'
  end.

Definition try_push (p : bytes) (r : Ring) : Ring * pc := run_alone 4 r (start_push p r).
Definition try_pop (r : Ring) : Ring * pc := run_alone 4 r (start_pop r).

Definition approx_size (r : Ring) : Z := if tail_pos r <=? head_pos r then head_pos r - tail_pos r else 0.

(** ** Concurrent threads *)

(** The ring and its threads; the payloads in the order of their positions, and
    the completed pops with theirs. *)
Record Sys := mkSys { ring : Ring; threads : nat -> pc; pushed : list bytes; popped : list (Z * bytes) }.

Definition upd (t : nat) (x : pc) (f : nat -> pc) : nat -> pc :=
  fun u => if decide (u = t) then x else f u.

Definition returned (x : pc) : bool :=
  match x with Idle | PushRet _ | PopRet _ => true | _ => false end.

(** What a step adds to the history. *)
Definition log_push (x y : pc) : list bytes :=
  match x, y with PushCas _ _, PushCopy _ p => [p] | _, _ => [] end.
Definition log_pop (x : pc) : list (Z * bytes) :=
  match x with PopStamp pos d => [(pos, d)] | _ => [] end.

Inductive step : Sys -> Sys -> Prop :=
| step_push t p r th pu po :
    returned (th t) = true -> step (mkSys r th pu po) (mkSys r (upd t (start_push p r) th) pu po)
| step_pop t r th pu po :
    returned (th t) = true -> step (mkSys r th pu po) (mkSys r (upd t (start_pop r) th) pu po)
| step_thread t b r th pu po :
    head_pos r < 2 ^ 62 ->
    step (mkSys r th pu po)
      (mkSys (tstep b r (th t)).1 (upd t (tstep b r (th t)).2 th)
         (pu ++ log_push (th t) (tstep b r (th t)).2) (po ++ log_pop (th t))).

(** ** Invariant *)

(** What a slot is used for: free for a position, being filled by a thread, full,
    or being emptied by a thread. *)
Inductive slot_use := Free (p : Z) | Filling (p : Z) (t : nat) | Full (p : Z) | Emptying (p : Z) (t : nat).

Definition use_pos (u : slot_use) : Z :=
  match u with Free p | Filling p _ | Full p | Emptying p _ => p end.
Definition use_seq (u : slot_use) : Z :=
  match u with Free p | Filling p _ => p | Full p | Emptying p _ => p + 1 end.

Definition shape (N : Z) (r : Ring) : Prop :=
  (exists k, 1 <= k <= 31 /\ N = 2 ^ k) /\ mask_ r = N - 1 /\
  length (seqs r) = Z.to_nat N /\ length (payloads r) = Z.to_nat N /\
  Forall (fun d => length d = slot_bytes_ r) (payloads r).

(** The slot starts with the payload of position [p]. *)
Definition holds (pu : list bytes) (p : Z) (d : bytes) : Prop :=
  exists x, pu !! Z.to_nat p = Some x /\ take (length x) d = x.

(** The positions a use may have. *)
Definition use_ok (N : Z) (h t : Z) (u : slot_use) : Prop :=
  0 <= use_pos u /\
  match u with
  | Free p => h <= p < t + N
  | Filling p _ | Full p => t <= p < h /\ h - N <= p
  | Emptying p _ => p < t /\ h - N <= p
  end.

Definition thread_ok (N : Z) (use : nat -> slot_use) (r : Ring) (pu : list bytes) (t : nat) (x : pc) : Prop :=
  match x with
  | Idle | PushRet _ | PopRet _ => True
  | PushLoad pos p => 0 <= pos <= head_pos r /\ (length p <= slot_bytes_ r)%nat
  | PushCas pos p => 0 <= pos <= head_pos r /\ (length p <= slot_bytes_ r)%nat /\ pos <= slot_seq pos r
  | PushCopy pos p =>
      use (slot_index pos r) = Filling pos t /\ 0 <= pos /\ pu !! Z.to_nat pos = Some p /\ (length p <= slot_bytes_ r)%nat
  | PushStamp pos p =>
      use (slot_index pos r) = Filling pos t /\ 0 <= pos /\ holds pu pos (slot_payload pos r)
  | PopLoad pos => 0 <= pos <= tail_pos r
  | PopCas pos => 0 <= pos <= tail_pos r /\ pos + 1 <= slot_seq pos r
  | PopCopy pos => use (slot_index pos r) = Emptying pos t /\ 0 <= pos
  | PopStamp pos d =>
      use (slot_index pos r) = Emptying pos t /\ 0 <= pos /\ length d = slot_bytes_ r /\ holds pu pos d
  end.

(** A slot in use is the work of a thread in the middle of its operation. *)
Definition owner_ok (th : nat -> pc) (u : slot_use) : Prop :=
  match u with
  | Filling q t => exists p, th t = PushCopy q p \/ th t = PushStamp q p
  | Emptying q t => th t = PopCopy q \/ exists d, th t = PopStamp q d
  | Free _ | Full _ => True
  end.

Record Inv (N : Z) (use : nat -> slot_use) (s : Sys) : Prop := {
  i_shape : shape N (ring s);
  i_cursors : 0 <= tail_pos (ring s) <= head_pos (ring s) /\ head_pos (ring s) <= tail_pos (ring s) + N /\
    head_pos (ring s) <= 2 ^ 62;
  i_pushed : zlen (pushed s) = head_pos (ring s);
  i_use : forall i, (i < Z.to_nat N)%nat ->
    use_ok N (head_pos (ring s)) (tail_pos (ring s)) (use i) /\
    slot_index (use_pos (use i)) (ring s) = i /\ nth i (seqs (ring s)) 0 = use_seq (use i) /\
    match use i with Full p | Emptying p _ => holds (pushed s) p (nth i (payloads (ring s)) []) | _ => True end;
  i_threads : forall t, thread_ok N use (ring s) (pushed s) t (threads s t);
  i_popped : forall q d, (q, d) ∈ popped s ->
    0 <= q < tail_pos (ring s) /\ length d = slot_bytes_ (ring s) /\ holds (pushed s) q d /\
    forall t, use (slot_index q (ring s)) <> Emptying q t;
  i_once : NoDup (popped s).*1;
  i_all : forall q, 0 <= q < tail_pos (ring s) ->
    q ∈ (popped s).*1 \/ exists t, use (slot_index q (ring s)) = Emptying q t;
  i_owner : forall i, (i < Z.to_nat N)%nat -> owner_ok (threads s) (use i) }.

(** ** Slots *)

(** The slots lie behind the cursors, aligned to cache lines, one behind the other
    and inside the file [Create] sizes: [i * SlotStride] to the end of its payload. *)
Lemma slots_apart b n i j :
  0 <= b -> 0 <= i < j -> j < n ->
  (kSlotBaseOffset + i * SlotStride b) mod kCacheLine = 0 /\
  i * SlotStride b + 8 + b <= j * SlotStride b /\
  kSlotBaseOffset + j * SlotStride b + 8 + b <= kSlotBaseOffset + n * SlotStride b.
Proof.
  intros B I J. assert (E : SlotStride b = (b + 71) / 64 * 64).
  { unfold SlotStride, kCacheLine. replace (8 + b + 64 - 1) with (b + 71) by lia.
    change (Z.lnot (64 - 1)) with (Z.lnot (Z.ones 6)). rewrite <- Z.ldiff_land, Z.ldiff_ones_r by lia.
    by rewrite Z.shiftr_div_pow2, Z.shiftl_mul_pow2 by lia. }
  pose proof (Z.div_mod (b + 71) 64 ltac:(lia)). pose proof (Z.mod_pos_bound (b + 71) 64 ltac:(lia)).
  assert (8 + b <= SlotStride b) by lia. split; [|nia].
  unfold kSlotBaseOffset, kCacheLine. rewrite E, Z.mul_assoc. rewrite Z.mod_add by lia. done.
Qed.

Lemma land_mask N r pos : shape N r -> 0 <= pos -> slot_index pos r = Z.to_nat (pos mod N).
Proof.
  intros ((k & K & ->) & M & _) P. unfold slot_index. rewrite M, Z.sub_1_r, <- Z.ones_equiv, Z.land_ones; [done|lia].
Qed.

Lemma shape_N N r : shape N r -> 2 <= N <= 2 ^ 31.
Proof.
  intros ((k & K & ->) & _). split.
  - change 2 with (2 ^ 1) at 1. apply Z.pow_le_mono_r; lia.
  - apply Z.pow_le_mono_r; lia.
Qed.

Lemma slot_index_lt N r pos : shape N r -> 0 <= pos -> (slot_index pos r < Z.to_nat N)%nat.
Proof.
  intros S P. pose proof (shape_N _ _ S). rewrite (land_mask N) by done.
  pose proof (Z.mod_pos_bound pos N ltac:(lia)). lia.
Qed.

(** Positions of the same slot differ by a multiple of the slot count. *)
Lemma same_slot N r p p' :
  shape N r -> 0 <= p -> 0 <= p' -> slot_index p r = slot_index p' r -> exists k, p' = p + k * N.
Proof.
  intros S P P' E. pose proof (shape_N _ _ S). rewrite !(land_mask N) in E by done.
  pose proof (Z.mod_pos_bound p N ltac:(lia)). pose proof (Z.mod_pos_bound p' N ltac:(lia)).
  apply Z2Nat.inj in E; [|lia|lia]. exists (p' / N - p / N).
  pose proof (Z.div_mod p N ltac:(lia)). pose proof (Z.div_mod p' N ltac:(lia)). nia.
Qed.

Lemma same_slot_near N r p p' :
  shape N r -> 0 <= p -> 0 <= p' -> slot_index p r = slot_index p' r -> p - N < p' < p + N -> p' = p.
Proof.
  intros S P P' E R. destruct (same_slot N r p p' S P P' E) as [k ->]. pose proof (shape_N _ _ S).
  assert (k = 0) as -> by nia. lia.
Qed.

Lemma diff64_small s p : -2 ^ 63 <= s - p < 2 ^ 63 -> diff64 s p = s - p.
Proof.
  intros H. unfold diff64. destruct (decide (0 <= s - p)).
  - rewrite u64_small by lia. destruct (s - p <? 2 ^ 63) eqn:E; reflect_bools; lia.
  - assert (E : u64 (s - p) = s - p + 2 ^ 64).
    { unfold u64. rewrite <- (Z_mod_plus_full (s - p) 1). rewrite Z.mod_small by lia. lia. }
    rewrite E. destruct (_ <? _) eqn:F; reflect_bools; lia.
Qed.

(** ** Frames *)

Definition extends (pu pu' : list bytes) : Prop := forall k x, pu !! k = Some x -> pu' !! k = Some x.

Lemma holds_extends pu pu' p d : extends pu pu' -> holds pu p d -> holds pu' p d.
Proof. intros E (x & X & T). exists x. split; [by apply E|done]. Qed.

Lemma extends_app pu l : extends pu (pu ++ l).
Proof. intros k x H. by apply lookup_app_l_Some. Qed.

Definition grows (r r' : Ring) : Prop :=
  mask_ r' = mask_ r /\ slot_bytes_ r' = slot_bytes_ r /\ head_pos r <= head_pos r' /\ tail_pos r <= tail_pos r' /\
  forall pos, 0 <= pos -> slot_seq pos r <= slot_seq pos r'.

(** A thread keeps what it knows when the cursors and sequence numbers grow, the
    history is extended, and the slots it owns are left to it. *)
Lemma thread_ok_frame N use use' r r' pu pu' t x :
  grows r r' -> extends pu pu' ->
  (forall i p, use i = Filling p t \/ use i = Emptying p t ->
     use' i = use i /\ nth i (payloads r') [] = nth i (payloads r) []) ->
  thread_ok N use r pu t x -> thread_ok N use' r' pu' t x.
Proof.
  intros (M & B & H & T & S) E U. destruct x; cbn [thread_ok]; unfold slot_payload, slot_index; rewrite ?M, ?B; try done.
  - intros [? ?]. split; [lia|done].
  - intros (? & ? & ?). split; [lia|]. split; [done|]. pose proof (S pos ltac:(lia)). lia.
  - intros (X & ? & ? & ?). destruct (U _ pos (or_introl X)) as [-> _]. split; [done|]. split; [done|].
    split; [by apply E|done].
  - intros (X & ? & ?). destruct (U _ pos (or_introl X)) as [-> ->]. split; [done|]. split; [done|].
    by eapply holds_extends.
  - intros ?. lia.
  - intros (? & ?). split; [lia|]. pose proof (S pos ltac:(lia)). lia.
  - intros (X & ?). by destruct (U _ pos (or_intror X)) as [-> _].
  - intros (X & ? & ? & ?). destruct (U _ pos (or_intror X)) as [-> _]. split; [done|]. split; [done|].
    split; [done|]. by eapply holds_extends.
Qed.

Lemma thread_ok_upd N use r pu t x th :
  thread_ok N use r pu t x -> (forall u, u <> t -> thread_ok N use r pu u (th u)) ->
  forall u, thread_ok N use r pu u (upd t x th u).
Proof. intros X H u. unfold upd. destruct (decide (u = t)) as [->|]; auto. Qed.

(** A step that changes only the thread. *)
Lemma owner_ok_upd th t x u :
  (forall q, u = Filling q t \/ u = Emptying q t -> owner_ok (upd t x th) u) ->
  owner_ok th u -> owner_ok (upd t x th) u.
Proof.
  intros H O. destruct u as [|q v| |q v]; try done.
  - destruct (decide (v = t)) as [->|N]; [by apply (H q); left|]. cbn. unfold upd. by rewrite decide_False.
  - destruct (decide (v = t)) as [->|N]; [by apply (H q); right|]. cbn. unfold upd. by rewrite decide_False.
Qed.

(** The position a thread has claimed. *)
Definition claimed (x : pc) : option Z :=
  match x with PushCopy q _ | PushStamp q _ | PopCopy q | PopStamp q _ => Some q | _ => None end.

Lemma owner_claimed th t q u : owner_ok th u -> u = Filling q t \/ u = Emptying q t -> claimed (th t) = Some q.
Proof. intros O [-> | ->]; [destruct O as [p [-> | ->]]|destruct O as [-> |[d ->]]]; done. Qed.

Lemma owner_ok_unclaimed th t x u : claimed (th t) = None -> owner_ok th u -> owner_ok (upd t x th) u.
Proof.
  intros C O. apply owner_ok_upd; [|done]. intros q H. exfalso.
  rewrite (owner_claimed _ _ _ _ O H) in C. discriminate.
Qed.

Lemma Inv_thread N use r th pu po t x :
  Inv N use (mkSys r th pu po) -> thread_ok N use r pu t x -> 
  (forall u, owner_ok th u -> owner_ok (upd t x th) u) -> Inv N use (mkSys r (upd t x th) pu po).
Proof.
  intros [] X O. constructor; cbn [ring threads pushed popped] in *; try done.
  - by apply thread_ok_upd; [|intros].
  - intros i L. auto.
Qed.

(** The claimed position is free, or full. *)
Lemma claim_free N use s :
  Inv N use s -> let r := ring s in
  head_pos r <= slot_seq (head_pos r) r -> use (slot_index (head_pos r) r) = Free (head_pos r).
Proof.
  intros I r Q. destruct (i_cursors _ _ _ I) as ([T0 TH] & HN & _). fold r in T0, TH, HN.
  pose proof (i_shape _ _ _ I) as S. fold r in S. pose proof (shape_N _ _ S) as HN2.
  pose proof (slot_index_lt N r (head_pos r) S ltac:(lia)) as L.
  destruct (i_use _ _ _ I _ L) as ([P0 UO] & SI & SQ & _). fold r in UO, SI, SQ.
  unfold slot_seq in Q. rewrite SQ in Q.
  destruct (use (slot_index (head_pos r) r)) as [q|q t|q|q t]; cbn [use_pos use_seq] in *.
  - f_equal. apply (same_slot_near N r); try done; try lia.
  - exfalso. destruct (same_slot N r q (head_pos r)) as [k K]; try done; try lia.
  - exfalso. destruct (same_slot N r q (head_pos r)) as [k K]; try done; try lia.
    assert (k = 1) by nia. subst k. lia.
  - exfalso. destruct (same_slot N r q (head_pos r)) as [k K]; try done; try lia.
    assert (k = 1) by nia. subst k. lia.
Qed.

Lemma claim_full N use s :
  Inv N use s -> let r := ring s in
  tail_pos r + 1 <= slot_seq (tail_pos r) r -> use (slot_index (tail_pos r) r) = Full (tail_pos r).
Proof.
  intros I r Q. destruct (i_cursors _ _ _ I) as ([T0 TH] & HN & _). fold r in T0, TH, HN.
  pose proof (i_shape _ _ _ I) as S. fold r in S. pose proof (shape_N _ _ S) as HN2.
  pose proof (slot_index_lt N r (tail_pos r) S ltac:(lia)) as L.
  destruct (i_use _ _ _ I _ L) as ([P0 UO] & SI & SQ & _). fold r in UO, SI, SQ.
  unfold slot_seq in Q. rewrite SQ in Q.
  destruct (use (slot_index (tail_pos r) r)) as [q|q t|q|q t]; cbn [use_pos use_seq] in *.
  - exfalso. assert (q = tail_pos r); [|lia]. apply (same_slot_near N r); try done; lia.
  - exfalso. assert (q = tail_pos r); [|lia]. apply (same_slot_near N r); try done; lia.
  - f_equal. apply (same_slot_near N r); try done; try lia.
  - exfalso. lia.
Qed.

Definition set_use (i : nat) (u : slot_use) (use : nat -> slot_use) : nat -> slot_use :=
  fun j => if decide (j = i) then u else use j.

Lemma set_use_eq i u use : set_use i u use i = u.
Proof. unfold set_use. by rewrite decide_True. Qed.

Lemma set_use_ne i j u use : j <> i -> set_use i u use j = use j.
Proof. intros. unfold set_use. by rewrite decide_False. Qed.

Lemma slot_period N r p : shape N r -> 0 <= p -> slot_index (p + N) r = slot_index p r.
Proof.
  intros S P. pose proof (shape_N _ _ S). rewrite !(land_mask N) by (done || lia). f_equal.
  rewrite <- (Z.mul_1_l N) at 1. apply Z_mod_plus_full.
Qed.

(** A use moves along when a cursor advances over another slot. *)
Lemma use_ok_head N r t u :
  shape N r -> 0 <= head_pos r -> use_ok N (head_pos r) t u ->
  slot_index (use_pos u) r <> slot_index (head_pos r) r -> use_ok N (head_pos r + 1) t u.
Proof.
  intros S H [P U] Ne. split; [done|].
  assert (A : use_pos u <> head_pos r) by (intros E; apply Ne; by rewrite E).
  assert (B : use_pos u <> head_pos r - N).
  { intros E. apply Ne. rewrite <- (slot_period N r (use_pos u) S P). f_equal. lia. }
  destruct u; cbn [use_pos] in *; lia.
Qed.

Lemma use_ok_tail N r h u :
  use_ok N h (tail_pos r) u -> slot_index (use_pos u) r <> slot_index (tail_pos r) r ->
  use_ok N h (tail_pos r + 1) u.
Proof.
  intros [P U] Ne. split; [done|].
  assert (A : use_pos u <> tail_pos r) by (intros E; apply Ne; by rewrite E).
  destruct u; cbn [use_pos] in *; lia.
Qed.

Lemma push_claim N use r th pu po t pos p :
  Inv N use (mkSys r th pu po) -> th t = PushCas pos p -> head_pos r = pos -> head_pos r < 2 ^ 62 ->
  Inv N (set_use (slot_index pos r) (Filling pos t) use)
    (mkSys (set_head (u64 (pos + 1)) r) (upd t (PushCopy pos p) th) (pu ++ [p]) po).
Proof.
  intros I Et Eh L. pose proof (i_threads _ _ _ I t) as T. cbn in T. rewrite Et in T. destruct T as (Tp & Tl & Ts).
  rewrite <- Eh in *. pose proof (claim_free _ _ _ I Ts) as F. cbn [ring] in F.
  destruct I as [Sh ([T0 TH] & HN & HB) Pu Us Th Po On Al Ow]. cbn [ring threads pushed popped] in *.
  pose proof (slot_index_lt N r (head_pos r) Sh ltac:(lia)) as Li.
  destruct (Us _ Li) as ([_ UF] & _ & SF & _). rewrite F in UF, SF. cbn [use_seq use_pos] in UF, SF.
  rewrite (u64_small (head_pos r + 1)) by lia. set (i := slot_index (head_pos r) r) in *.
  assert (FR : forall j q v, use j = Filling q v \/ use j = Emptying q v -> set_use i (Filling (head_pos r) t) use j = use j).
  { intros j q v X. apply set_use_ne. intros ->. rewrite F in X. destruct X; discriminate. }
  constructor; cbn [ring threads pushed popped set_head head_pos tail_pos slot_bytes_ seqs payloads].
  - exact Sh.
  - lia.
  - rewrite length_app. cbn. lia.
  - intros j Lj. destruct (decide (j = i)) as [->|Nj].
    + rewrite set_use_eq. cbn [use_pos use_seq]. split; [split; cbn [use_pos]; lia|]. done.
    + rewrite set_use_ne by done. destruct (Us j Lj) as (U & SI & SQ & HO).
      split; [apply (use_ok_head N r); try done; try lia; rewrite SI; done|]. split; [done|]. split; [done|].
      destruct (use j); try done; (eapply holds_extends; [apply extends_app|done]).
  - apply thread_ok_upd.
    + cbn [thread_ok slot_bytes_]. change (slot_index (head_pos r) (set_head (head_pos r + 1) r)) with i.
      rewrite set_use_eq. split; [done|]. split; [lia|]. split; [|done].
      apply list_lookup_middle. lia.
    + intros u Nu. refine (thread_ok_frame N use _ r _ pu _ u (th u) _ _ _ (Th u));
        [| |intros j q X; split; [by eapply FR|done]].
      * split; [done|]. split; [done|]. split; [cbn; lia|]. split; [cbn; lia|]. intros; apply Z.le_refl.
      * apply extends_app.
  - intros q d X. destruct (Po q d X) as (? & ? & ? & NE). split; [done|]. split; [done|].
    split; [eapply holds_extends; [apply extends_app|done]|]. intros v.
    change (slot_index q (set_head (head_pos r + 1) r)) with (slot_index q r).
    unfold set_use. destruct (decide _); [discriminate|apply NE].
  - done.
  - intros q Q. destruct (Al q Q) as [X|[v X]]; [by left|right]. exists v.
    change (slot_index q (set_head (head_pos r + 1) r)) with (slot_index q r).
    rewrite (FR _ q v); [done|by right].
  - intros j Lj. destruct (decide (j = i)) as [->|Nj].
    + rewrite set_use_eq. exists p. left. unfold upd. by rewrite decide_True.
    + rewrite set_use_ne by done. apply owner_ok_unclaimed; [by rewrite Et|by apply Ow].
Qed.

Lemma pop_claim N use r th pu po t pos :
  Inv N use (mkSys r th pu po) -> th t = PopCas pos -> tail_pos r = pos ->
  Inv N (set_use (slot_index pos r) (Emptying pos t) use)
    (mkSys (set_tail (u64 (pos + 1)) r) (upd t (PopCopy pos) th) pu po).
Proof.
  intros I Et Eh. pose proof (i_threads _ _ _ I t) as T. cbn in T. rewrite Et in T. destruct T as (Tp & Ts).
  rewrite <- Eh in *. pose proof (claim_full _ _ _ I Ts) as F. cbn [ring] in F.
  destruct I as [Sh ([T0 TH] & HN & HB) Pu Us Th Po On Al Ow]. cbn [ring threads pushed popped] in *.
  pose proof (slot_index_lt N r (tail_pos r) Sh ltac:(lia)) as Li.
  destruct (Us _ Li) as ([_ UF] & SIF & SF & HF). rewrite F in UF, SF, HF, SIF. cbn [use_seq use_pos] in UF, SF, SIF.
  rewrite (u64_small (tail_pos r + 1)) by lia. set (i := slot_index (tail_pos r) r) in *.
  assert (FR : forall j q v, use j = Filling q v \/ use j = Emptying q v -> set_use i (Emptying (tail_pos r) t) use j = use j).
  { intros j q v X. apply set_use_ne. intros ->. rewrite F in X. destruct X; discriminate. }
  constructor; cbn [ring threads pushed popped set_tail head_pos tail_pos slot_bytes_ seqs payloads].
  - exact Sh.
  - lia.
  - done.
  - intros j Lj. destruct (decide (j = i)) as [->|Nj].
    + rewrite set_use_eq. cbn [use_pos use_seq]. split; [split; cbn [use_pos]; lia|]. done.
    + rewrite set_use_ne by done. destruct (Us j Lj) as (U & SI & SQ & HO).
      split; [apply (use_ok_tail N r); [done|rewrite SI; done]|done].
  - apply thread_ok_upd.
    + cbn [thread_ok]. change (slot_index (tail_pos r) (set_tail (tail_pos r + 1) r)) with i.
      rewrite set_use_eq. split; [done|lia].
    + intros u Nu. refine (thread_ok_frame N use _ r _ pu _ u (th u) _ _ _ (Th u));
        [| |intros j q X; split; [by eapply FR|done]].
      * split; [done|]. split; [done|]. split; [cbn; lia|]. split; [cbn; lia|]. intros; apply Z.le_refl.
      * by intros ? ?.
  - intros q d X. destruct (Po q d X) as (? & ? & ? & NE). split; [lia|]. split; [done|].
    split; [done|]. intros v.
    change (slot_index q (set_tail (tail_pos r + 1) r)) with (slot_index q r).
    unfold set_use. destruct (decide _); [|apply NE]. intros [= E _]. lia.
  - done.
  - intros q Q. change (slot_index q (set_tail (tail_pos r + 1) r)) with (slot_index q r).
    destruct (decide (q = tail_pos r)) as [->|Nq]; [right; exists t; apply set_use_eq|].
    destruct (Al q ltac:(lia)) as [X|[v X]]; [by left|right]. exists v. rewrite (FR _ q v); [done|by right].
  - intros j Lj. destruct (decide (j = i)) as [->|Nj].
    + rewrite set_use_eq. left. unfold upd. by rewrite decide_True.
    + rewrite set_use_ne by done. apply owner_ok_unclaimed; [by rewrite Et|by apply Ow].
Qed.

(** ** Copying and publishing *)

Lemma nth_insert_eq {A} (l : list A) i v d : (i < length l)%nat -> nth i (<[i := v]> l) d = v.
Proof. intros L. rewrite nth_lookup, list_lookup_insert_eq by done. done. Qed.

Lemma nth_insert_ne {A} (l : list A) i j v d : j <> i -> nth j (<[i := v]> l) d = nth j l d.
Proof. intros N. rewrite !nth_lookup, list_lookup_insert_ne by done. done. Qed.

Lemma payload_length N r i : shape N r -> (i < Z.to_nat N)%nat -> length (nth i (payloads r) []) = slot_bytes_ r.
Proof.
  intros (_ & _ & _ & L & F) Li. rewrite Forall_forall in F. apply F.
  apply list_elem_of_lookup. exists i. rewrite nth_lookup.
  destruct (lookup_lt_is_Some_2 (payloads r) i) as [x ->]; [lia|done].
Qed.

Lemma push_copy N use r th pu po t pos p :
  Inv N use (mkSys r th pu po) -> th t = PushCopy pos p ->
  Inv N use (mkSys (set_payload pos (p ++ drop (length p) (slot_payload pos r)) r) (upd t (PushStamp pos p) th) pu po).
Proof.
  intros I Et. pose proof (i_threads _ _ _ I t) as T. cbn in T. rewrite Et in T. destruct T as (Tu & Tp & Tk & Tl).
  destruct I as [Sh Cu Pu Us Th Po On Al Ow]. cbn [ring threads pushed popped] in *.
  pose proof (slot_index_lt N r pos Sh Tp) as Li. pose proof Sh as (K & M & LS & LP & LF).
  set (d := p ++ drop (length p) (slot_payload pos r)).
  constructor; cbn [ring threads pushed popped set_payload head_pos tail_pos slot_bytes_ seqs payloads]; try done.
  - split; [done|]. split; [done|]. cbn [seqs payloads set_payload slot_bytes_]. rewrite length_insert. split; [done|]. split; [done|].
    apply Forall_insert; [done|]. unfold d, slot_payload. rewrite length_app, length_drop.
    rewrite (payload_length N r) by done. lia.
  - intros j Lj. destruct (Us j Lj) as (U & SI & SQ & HO). split; [done|]. split; [done|]. split; [done|].
    destruct (decide (j = slot_index pos r)) as [->|Nj]; [by rewrite Tu|]. rewrite nth_insert_ne by done. done.
  - apply thread_ok_upd.
    + cbn [thread_ok]. split; [exact Tu|]. split; [done|]. exists p. split; [done|].
      unfold slot_payload. change (slot_index pos (set_payload pos d r)) with (slot_index pos r).
      cbn [payloads set_payload]. rewrite nth_insert_eq by lia. unfold d. by rewrite take_app_length.
    + intros u Nu. refine (thread_ok_frame N use _ r _ pu _ u (th u) _ _ _ (Th u)); [|by intros ? ?|].
      * repeat split; done.
      * intros j q X. split; [done|]. cbn [payloads set_payload]. apply nth_insert_ne. intros ->.
        rewrite Tu in X. destruct X; congruence.
  - intros j Lj. apply owner_ok_upd; [|by apply Ow]. intros q [E|E]; specialize (Ow j Lj); rewrite E in Ow |- *.
    + exists p. right. unfold upd. rewrite decide_True by done. destruct Ow as [p' [X|X]]; congruence.
    + destruct Ow as [X|[d' X]]; congruence.
Qed.

(** Storing a larger sequence number and passing the slot on: what is left to show
    is about the slot alone. *)
Lemma stamp_slot N use r th pu po t pos v u x po' :
  Inv N use (mkSys r th pu po) -> 0 <= pos ->
  (exists q, use (slot_index pos r) = Filling q t \/ use (slot_index pos r) = Emptying q t) ->
  use_seq u = v -> slot_seq pos r <= v -> slot_index (use_pos u) r = slot_index pos r ->
  use_ok N (head_pos r) (tail_pos r) u ->
  match u with Full p => holds pu p (slot_payload pos r) | Free _ => True | _ => False end ->
  returned x = true -> claimed (th t) = Some pos ->
  (forall q d, (q, d) ∈ po' -> 0 <= q < tail_pos r /\ length d = slot_bytes_ r /\ holds pu q d) ->
  NoDup (po ++ po').*1 ->
  (forall q d w, (q, d) ∈ po' -> slot_index q r <> slot_index pos r -> use (slot_index q r) <> Emptying q w) ->
  (forall q, use (slot_index pos r) = Emptying q t -> q ∈ po'.*1) ->
  Inv N (set_use (slot_index pos r) u use) (mkSys (set_seq pos v r) (upd t x th) pu (po ++ po')).
Proof.
  intros [Sh Cu Pu Us Th Po On Al Ow] P [q0 O] V G SI UO HU RX CP NP ND NE EM. cbn [ring threads pushed popped] in *.
  pose proof (slot_index_lt N r pos Sh P) as Li. pose proof Sh as (K & M & LS & LP & LF).
  constructor; cbn [ring threads pushed popped set_seq head_pos tail_pos slot_bytes_ seqs payloads]; try done.
  - split; [done|]. split; [done|]. cbn [seqs payloads set_seq slot_bytes_]. rewrite length_insert. done.
  - intros j Lj. destruct (decide (j = slot_index pos r)) as [->|Nj].
    + rewrite set_use_eq, nth_insert_eq by lia. split; [done|]. split; [done|]. split; [done|]. by destruct u.
    + rewrite set_use_ne, nth_insert_ne by done. by apply Us.
  - apply thread_ok_upd; [by destruct x|]. intros w Nw.
    refine (thread_ok_frame N use _ r _ pu _ w (th w) _ _ _ (Th w)); [|by intros ? ?|].
    + repeat split; try done. intros q Q. unfold slot_seq. change (slot_index q (set_seq pos v r)) with (slot_index q r).
      cbn [seqs set_seq]. destruct (decide (slot_index q r = slot_index pos r)) as [E|Nq].
      * rewrite E, nth_insert_eq by lia. done.
      * rewrite nth_insert_ne by done. lia.
    + intros j q X. split; [|done]. apply set_use_ne. intros ->. destruct O as [O|O]; rewrite O in X; destruct X; congruence.
  - intros q d X. change (slot_index q (set_seq pos v r)) with (slot_index q r).
    assert (A : (0 <= q < tail_pos r /\ length d = slot_bytes_ r /\ holds pu q d) /\
      forall w, slot_index q r <> slot_index pos r -> use (slot_index q r) <> Emptying q w).
    { apply elem_of_app in X as [X|X]; [destruct (Po q d X) as (? & ? & ? & Z); split; [done|intros; apply Z]|].
      split; [by apply NP|intros; by eapply NE]. }
    destruct A as ((? & ? & ?) & A). split; [done|]. split; [done|]. split; [done|]. intros w.
    unfold set_use. destruct (decide _); [by destruct u|by apply A].
  - intros q Q. change (slot_index q (set_seq pos v r)) with (slot_index q r). rewrite fmap_app, elem_of_app.
    destruct (Al q Q) as [X|[w X]]; [auto|].
    destruct (decide (slot_index q r = slot_index pos r)) as [E|Nq].
    + left. right. apply EM. rewrite E in X. destruct O as [O|O]; congruence.
    + right. exists w. by rewrite set_use_ne.
  - intros j Lj. destruct (decide (j = slot_index pos r)) as [->|Nj]; [rewrite set_use_eq; by destruct u|].
    rewrite set_use_ne by done. apply owner_ok_upd; [|by apply Ow]. intros q E. exfalso. apply Nj.
    pose proof (owner_claimed _ _ _ _ (Ow j Lj) E) as C. rewrite CP in C. injection C as <-.
    destruct (Us j Lj) as (_ & SJ & _). rewrite <- SJ. by destruct E as [-> | ->].
Qed.

Lemma push_stamp N use r th pu po t pos p :
  Inv N use (mkSys r th pu po) -> th t = PushStamp pos p ->
  Inv N (set_use (slot_index pos r) (Full pos) use)
    (mkSys (set_seq pos (u64 (pos + 1)) r) (upd t (PushRet true) th) pu po).
Proof.
  intros I Et. pose proof (i_threads _ _ _ I t) as T. cbn in T. rewrite Et in T. destruct T as (Tu & Tp & Th).
  pose proof (i_use _ _ _ I _ (slot_index_lt N r pos (i_shape _ _ _ I) Tp)) as (U & _ & SQ & _).
  pose proof (i_cursors _ _ _ I) as C. cbn [ring] in *. rewrite Tu in U, SQ. destruct U as [_ U].
  rewrite u64_small by (split; lia). rewrite <- (app_nil_r po).
  refine (stamp_slot N use r th pu po t pos _ (Full pos) (PushRet true) [] I Tp _ eq_refl _ eq_refl _ _ eq_refl _ _ _ _ _).
  - exists pos. by left.
  - unfold slot_seq. rewrite SQ. cbn [use_seq]. lia.
  - split; cbn [use_pos]; lia.
  - done.
  - by rewrite Et.
  - intros q d X. by apply not_elem_of_nil in X.
  - rewrite app_nil_r. apply (i_once _ _ _ I).
  - intros q d w X. by apply not_elem_of_nil in X.
  - intros q. by rewrite Tu.
Qed.

Lemma pop_stamp N use r th pu po t pos d :
  Inv N use (mkSys r th pu po) -> th t = PopStamp pos d ->
  Inv N (set_use (slot_index pos r) (Free (pos + N)) use)
    (mkSys (set_seq pos (u64 (pos + mask_ r + 1)) r) (upd t (PopRet (Some d)) th) pu (po ++ [(pos, d)])).
Proof.
  intros I Et. pose proof (i_threads _ _ _ I t) as T. cbn in T. rewrite Et in T. destruct T as (Tu & Tp & Tl & Th).
  pose proof (i_shape _ _ _ I) as Sh. pose proof (shape_N _ _ Sh) as HN.
  pose proof (i_use _ _ _ I _ (slot_index_lt N r pos Sh Tp)) as (U & _ & SQ & _).
  pose proof (i_cursors _ _ _ I) as C. cbn [ring] in *. rewrite Tu in U, SQ. destruct U as [_ U].
  pose proof Sh as (_ & M & _). rewrite M. replace (pos + (N - 1) + 1) with (pos + N) by lia.
  rewrite u64_small by (split; lia).
  refine (stamp_slot N use r th pu po t pos _ (Free (pos + N)) (PopRet (Some d)) [(pos, d)] I Tp _ eq_refl _ _ _ _ eq_refl _ _ _ _ _).
  - exists pos. by right.
  - unfold slot_seq. rewrite SQ. cbn [use_seq]. lia.
  - cbn [use_pos]. by apply slot_period.
  - split; cbn [use_pos]; lia.
  - done.
  - by rewrite Et.
  - intros q e X. apply list_elem_of_singleton in X as [= -> ->]. split; [lia|done].
  - rewrite fmap_app. apply NoDup_app. split; [apply (i_once _ _ _ I)|]. split; [|apply NoDup_singleton].
    intros q X Y. apply list_elem_of_singleton in Y as ->. apply list_elem_of_fmap in X as ([q e] & E & X).
    cbn in E. subst q. destruct (i_popped _ _ _ I _ _ X) as (_ & _ & _ & NE). by apply (NE t).
  - intros q e w X. apply list_elem_of_singleton in X as [= -> ->]. done.
  - intros q. rewrite Tu. intros [= ->]. by apply list_elem_of_singleton.
Qed.

Lemma pop_copy N use r th pu po t pos :
  Inv N use (mkSys r th pu po) -> th t = PopCopy pos ->
  Inv N use (mkSys r (upd t (PopStamp pos (slot_payload pos r)) th) pu po).
Proof.
  intros I Et. apply Inv_thread; [done| |]; last first.
  { intros u O. apply owner_ok_upd; [|done]. intros q [E|E]; pose proof (owner_claimed _ _ _ _ O (or_introl E)) as C
      || pose proof (owner_claimed _ _ _ _ O (or_intror E)) as C; rewrite Et in C; injection C as <-; subst u.
    - destruct O as [p' [X|X]]; congruence.
    - right. eexists. unfold upd. by rewrite decide_True. }
  pose proof (i_threads _ _ _ I t) as T. cbn in T. rewrite Et in T.
  destruct T as (Tu & Tp). pose proof (slot_index_lt N r pos (i_shape _ _ _ I) Tp) as Li.
  pose proof (i_use _ _ _ I _ Li) as (_ & _ & _ & H). cbn [ring] in H. rewrite Tu in H.
  split; [done|]. split; [done|]. split; [|done]. by apply (payload_length N r); [apply (i_shape _ _ _ I)|].
Qed.

(** Sequence numbers are small, so their differences have the sign they should. *)
Lemma slot_seq_bounds N use s pos :
  Inv N use s -> 0 <= pos -> 0 <= slot_seq pos (ring s) < 2 ^ 62 + 2 ^ 32.
Proof.
  intros I P. pose proof (i_shape _ _ _ I) as Sh. pose proof (shape_N _ _ Sh).
  pose proof (i_use _ _ _ I _ (slot_index_lt N _ pos Sh P)) as (U & _ & SQ & _).
  pose proof (i_cursors _ _ _ I). unfold slot_seq. rewrite SQ. destruct U as [U0 U].
  destruct (use _); cbn [use_seq use_pos] in *; lia.
Qed.

Lemma start_push_ok N use s t p : Inv N use s -> thread_ok N use (ring s) (pushed s) t (start_push p (ring s)).
Proof.
  intros I. unfold start_push. destruct (Nat.ltb _ _) eqn:E; [done|]. apply Nat.ltb_ge in E.
  pose proof (i_cursors _ _ _ I). cbn [thread_ok]. split; [lia|done].
Qed.

Lemma push_load_ok N use r th pu po t pos p :
  Inv N use (mkSys r th pu po) -> th t = PushLoad pos p ->
  thread_ok N use r pu t (tstep false r (PushLoad pos p)).2.
Proof.
  intros I Et. pose proof (i_threads _ _ _ I t) as T. cbn in T. rewrite Et in T. destruct T as [Tp Tl].
  pose proof (slot_seq_bounds _ _ _ pos I ltac:(lia)) as B. pose proof (i_cursors _ _ _ I) as C. cbn [ring] in *.
  cbn [tstep snd]. rewrite diff64_small by lia. destruct (_ =? 0) eqn:E; reflect_bools.
  - cbn [thread_ok]. split; [done|]. split; [done|lia].
  - destruct (_ <? 0); [done|]. cbn [thread_ok]. split; [lia|done].
Qed.

Lemma pop_load_ok N use r th pu po t pos :
  Inv N use (mkSys r th pu po) -> th t = PopLoad pos ->
  thread_ok N use r pu t (tstep false r (PopLoad pos)).2.
Proof.
  intros I Et. pose proof (i_threads _ _ _ I t) as T. cbn in T. rewrite Et in T. destruct T as [T0 T1].
  pose proof (slot_seq_bounds _ _ _ pos I ltac:(lia)) as B. pose proof (i_cursors _ _ _ I) as C. cbn [ring] in *.
  cbn [tstep snd]. rewrite (u64_small (pos + 1)) by lia. rewrite diff64_small by lia. destruct (_ =? 0) eqn:E; reflect_bools.
  - cbn [thread_ok]. lia.
  - destruct (_ <? 0); [done|]. cbn [thread_ok]. lia.
Qed.

(** A step of a thread that owns no slot, and that leaves the ring as it is. *)
Lemma Inv_unclaimed N use r th pu po t x :
  Inv N use (mkSys r th pu po) -> claimed (th t) = None -> thread_ok N use r pu t x ->
  exists use', Inv N use' (mkSys r (upd t x th) (pu ++ []) (po ++ [])).
Proof.
  intros I C T. exists use. rewrite !app_nil_r. apply Inv_thread; [done|done|]. intros u. by apply owner_ok_unclaimed.
Qed.

Lemma push_cas N use r th pu po t b pos p :
  Inv N use (mkSys r th pu po) -> head_pos r < 2 ^ 62 -> th t = PushCas pos p ->
  exists use', Inv N use' (mkSys (tstep b r (PushCas pos p)).1 (upd t (tstep b r (PushCas pos p)).2 th)
    (pu ++ log_push (PushCas pos p) (tstep b r (PushCas pos p)).2) (po ++ [])).
Proof.
  intros I L Et. pose proof (i_cursors _ _ _ I) as C. pose proof (i_threads _ _ _ I t) as T.
  cbn [ring threads pushed] in C, T. rewrite Et in T. destruct T as (T1 & T2 & T3).
  assert (K : thread_ok N use r pu t (PushLoad (head_pos r) p)) by (split; [lia|done]).
  cbn [tstep]. destruct (head_pos r =? pos) eqn:E; cbn [andb]; [destruct b; cbn [negb]|]; cbn [fst snd log_push].
  - apply (Inv_unclaimed N use); [done|by rewrite Et|done].
  - reflect_bools. eexists. rewrite app_nil_r. by apply push_claim.
  - apply (Inv_unclaimed N use); [done|by rewrite Et|done].
Qed.

Lemma pop_cas N use r th pu po t b pos :
  Inv N use (mkSys r th pu po) -> th t = PopCas pos ->
  exists use', Inv N use' (mkSys (tstep b r (PopCas pos)).1 (upd t (tstep b r (PopCas pos)).2 th) (pu ++ []) (po ++ [])).
Proof.
  intros I Et. pose proof (i_cursors _ _ _ I) as C. cbn [ring] in C.
  assert (K : thread_ok N use r pu t (PopLoad (tail_pos r))) by (cbn [thread_ok]; lia).
  cbn [tstep]. destruct (tail_pos r =? pos) eqn:E; cbn [andb]; [destruct b; cbn [negb]|]; cbn [fst snd].
  - apply (Inv_unclaimed N use); [done|by rewrite Et|done].
  - reflect_bools. eexists. rewrite !app_nil_r. by apply pop_claim.
  - apply (Inv_unclaimed N use); [done|by rewrite Et|done].
Qed.

Lemma step_Inv N use s s' : Inv N use s -> step s s' -> exists use', Inv N use' s'.
Proof.
  intros I St. revert I. destruct St as [t p r th pu po R|t r th pu po R|t b r th pu po L]; intros I.
  - rewrite <- (app_nil_r pu), <- (app_nil_r po).
    apply (Inv_unclaimed N use r th pu po); [done|by destruct (th t)|apply (start_push_ok _ _ _ t p I)].
  - pose proof (i_cursors _ _ _ I). cbn [ring] in *. rewrite <- (app_nil_r pu), <- (app_nil_r po).
    apply (Inv_unclaimed N use r th pu po); [done|by destruct (th t)|cbn [start_pop thread_ok]; lia].
  - destruct (th t) as [|pos p|pos p|pos p|pos p|ok|pos|pos|pos|pos d|o] eqn:Et.
    + apply (Inv_unclaimed N use); [done|by rewrite Et|done].
    + apply (Inv_unclaimed N use); [done|by rewrite Et|by eapply push_load_ok].
    + by eapply push_cas.
    + exists use. cbn [tstep fst snd log_push log_pop]. rewrite !app_nil_r. by apply push_copy.
    + eexists. cbn [tstep fst snd log_push log_pop]. rewrite !app_nil_r. by eapply push_stamp.
    + apply (Inv_unclaimed N use); [done|by rewrite Et|done].
    + apply (Inv_unclaimed N use); [done|by rewrite Et|by eapply pop_load_ok].
    + by eapply pop_cas.
    + exists use. cbn [tstep fst snd log_push log_pop]. rewrite !app_nil_r. by apply pop_copy.
    + eexists. cbn [tstep fst snd log_push log_pop]. rewrite !app_nil_r. by apply pop_stamp.
    + apply (Inv_unclaimed N use); [done|by rewrite Et|done].
Qed.

(** ** A new ring *)

Lemma IsPow2_pow c : IsPow2 c = true -> c = 2 ^ Z.log2 c.
Proof.
  unfold IsPow2. intros H. apply andb_prop in H as [P L]. reflect_bools.
  destruct (Z.log2_spec c P) as [A B]. set (k := Z.log2 c) in *. pose proof (Z.log2_nonneg c) as K. fold k in K.
  destruct (decide (c = 2 ^ k)) as [|N]; [done|exfalso].
  assert (Z.testbit (Z.land c (c - 1)) k = true) as T; [|rewrite L, Z.bits_0 in T; discriminate].
  rewrite Z.land_spec. rewrite Z.pow_succ_r in B by done.
  assert (forall m, 2 ^ k <= m < 2 * 2 ^ k -> Z.testbit m k = true) as Bit; [|rewrite !Bit by lia; done].
  intros m [M1 M2]. rewrite Z.testbit_true by done.
  replace (m / 2 ^ k) with 1; [done|]. apply Z.div_unique with (m - 2 ^ k); lia.
Qed.

Lemma ring_Create_spec o h r :
  Create true o = Some (h, r) -> 2 <= o_slot_count o < 2 ^ 32 ->
  shape (o_slot_count o) r /\ head_pos r = 0 /\ tail_pos r = 0 /\ slot_bytes_ r = Z.to_nat (o_slot_bytes o) /\
  seqs r = Z.of_nat <$> seq 0 (Z.to_nat (o_slot_count o)).
Proof.
  unfold Create. intros C R. destruct (IsPow2 (o_slot_count o)) eqn:P; [|done]. cbn [negb] in C.
  destruct (o_slot_bytes o =? 0); [done|]. destruct (path o); [done|]. injection C as <- <-.
  split; [|done]. apply IsPow2_pow in P. split.
  { exists (Z.log2 (o_slot_count o)). split; [|done]. split; [apply Z.log2_le_pow2; lia|].
    apply Z.lt_succ_r, Z.log2_lt_pow2; lia. }
  cbn [mask_ seqs payloads slot_bytes_]. split; [done|]. rewrite length_fmap, length_seq, length_replicate.
  split; [done|]. split; [done|]. apply Forall_replicate, length_replicate.
Qed.

Lemma new_seq r c i :
  seqs r = Z.of_nat <$> seq 0 (Z.to_nat c) -> (i < Z.to_nat c)%nat -> nth i (seqs r) 0 = Z.of_nat i.
Proof. intros -> L. rewrite nth_lookup, list_lookup_fmap, lookup_seq_lt by done. done. Qed.

Definition init (r : Ring) : Sys := mkSys r (fun _ => Idle) [] [].

Lemma init_Inv o h r :
  Create true o = Some (h, r) -> 2 <= o_slot_count o < 2 ^ 32 ->
  Inv (o_slot_count o) (fun i => Free (Z.of_nat i)) (init r).
Proof.
  intros C R. destruct (ring_Create_spec o h r C R) as (Sh & H & T & _ & Q).
  constructor; cbn [init ring threads pushed popped]; rewrite ?H, ?T; try done.
  - lia.
  - intros i L. split; [split; cbn [use_pos]; lia|]. cbn [use_pos use_seq]. split; [|split; [|done]].
    + rewrite (land_mask (o_slot_count o)) by (done || lia). rewrite Z.mod_small by lia. lia.
    + by eapply new_seq.
  - intros q d X. by apply not_elem_of_nil in X.
  - apply NoDup_nil_2.
  - intros q Q'. lia.
Qed.

Lemma step_slot_bytes s s' : step s s' -> slot_bytes_ (ring s') = slot_bytes_ (ring s).
Proof.
  intros [t p r th pu po R|t r th pu po R|t b r th pu po L]; try done.
  cbn [ring]. destruct (th t); cbn [tstep]; repeat case_match; done.
Qed.

Lemma reach_Inv o h r s :
  Create true o = Some (h, r) -> 2 <= o_slot_count o < 2 ^ 32 -> rtc step (init r) s ->
  (exists use, Inv (o_slot_count o) use s) /\ slot_bytes_ (ring s) = Z.to_nat (o_slot_bytes o).
Proof.
  intros C R. revert s. apply rtc_ind_r.
  - split; [eexists; by eapply init_Inv|]. by destruct (ring_Create_spec o h r C R) as (_ & _ & _ & B & _).
  - intros s1 s2 _ St [[use I] B]. split; [by eapply step_Inv|]. by rewrite (step_slot_bytes _ _ St).
Qed.

(** A claimed position that is not popped is full or being filled. *)
Lemma unpopped_slot N use s q :
  Inv N use s -> tail_pos (ring s) <= q < head_pos (ring s) ->
  use (slot_index q (ring s)) = Full q \/ exists t, use (slot_index q (ring s)) = Filling q t.
Proof.
  intros I Q. pose proof (i_shape _ _ _ I) as Sh. pose proof (i_cursors _ _ _ I) as C.
  pose proof (i_use _ _ _ I _ (slot_index_lt N _ q Sh ltac:(lia))) as ([U0 U] & SI & _).
  assert (E : use_pos (use (slot_index q (ring s))) = q).
  { apply (same_slot_near N (ring s)); [done|lia|done|by symmetry|]. destruct (use _); cbn [use_pos] in *; lia. }
  destruct (use _) as [p|p t|p|p t]; cbn [use_pos] in *; subst p; [lia|by right; exists t|by left|lia].
Qed.

(** [C37] Under any interleaving of any number of producers and consumers on a new
    ring of at least two slots, with spurious failures of the compare-and-swaps: at
    most [slot_count] positions are claimed and unpopped; no position is popped
    twice; every pop returned [slot_bytes] bytes that start with the payload pushed
    at its position; every position below the tail was popped or is being copied
    out by a thread; and every position between tail and head holds its payload,
    published, or is being filled by a thread. *)
Theorem ring_interleavings o h r s :
  Create true o = Some (h, r) -> 2 <= o_slot_count o < 2 ^ 32 -> rtc step (init r) s ->
  (0 <= tail_pos (ring s) <= head_pos (ring s) /\ head_pos (ring s) <= tail_pos (ring s) + o_slot_count o) /\
  zlen (pushed s) = head_pos (ring s) /\
  NoDup (popped s).*1 /\
  (forall q d, (q, d) ∈ popped s -> 0 <= q < tail_pos (ring s) /\ length d = Z.to_nat (o_slot_bytes o) /\
     exists x, pushed s !! Z.to_nat q = Some x /\ take (length x) d = x) /\
  (forall q, 0 <= q < tail_pos (ring s) ->
     q ∈ (popped s).*1 \/ exists t, threads s t = PopCopy q \/ exists d, threads s t = PopStamp q d) /\
  (forall q, tail_pos (ring s) <= q < head_pos (ring s) ->
     (slot_seq q (ring s) = q + 1 /\
        exists x, pushed s !! Z.to_nat q = Some x /\ take (length x) (slot_payload q (ring s)) = x) \/
     exists t p, threads s t = PushCopy q p \/ threads s t = PushStamp q p).
Proof.
  intros C R St. destruct (reach_Inv o h r s C R St) as [[use I] B]. pose proof (i_cursors _ _ _ I) as Cu.
  pose proof (i_shape _ _ _ I) as Sh. rewrite <- B.
  split; [lia|]. split; [apply (i_pushed _ _ _ I)|]. split; [apply (i_once _ _ _ I)|]. split; [|split].
  - intros q d X. by destruct (i_popped _ _ _ I q d X) as (? & ? & ? & _).
  - intros q Q. destruct (i_all _ _ _ I q Q) as [X|[t X]]; [by left|right]. exists t.
    pose proof (i_owner _ _ _ I _ (slot_index_lt _ _ q Sh ltac:(lia))) as O. by rewrite X in O.
  - intros q Q. pose proof (slot_index_lt _ _ q Sh ltac:(lia)) as L.
    pose proof (i_use _ _ _ I _ L) as (_ & _ & SQ & HO). pose proof (i_owner _ _ _ I _ L) as O.
    destruct (unpopped_slot _ _ _ q I Q) as [X|[t X]]; rewrite X in SQ, HO, O.
    + left. split; [exact SQ|exact HO].
    + right. exists t. exact O.
Qed.

(** ** The operations run alone *)

(** The ring holds the queue [q]: the slots from the tail on. *)
Definition repr (N : Z) (r : Ring) (q : list bytes) : Prop :=
  shape N r /\ 0 <= tail_pos r /\ head_pos r = tail_pos r + zlen q /\ zlen q <= N /\
  (forall i, 0 <= i < N -> slot_seq (tail_pos r + i) r = tail_pos r + i + (if i <? zlen q then 1 else 0)) /\
  (forall i d, q !! i = Some d -> slot_payload (tail_pos r + Z.of_nat i) r = d).

Lemma Create_repr o h r :
  Create true o = Some (h, r) -> 2 <= o_slot_count o < 2 ^ 32 -> repr (o_slot_count o) r [].
Proof.
  intros C R. destruct (ring_Create_spec o h r C R) as (Sh & H & T & _ & Q).
  split; [done|]. rewrite H, T. cbn [length]. split; [lia|]. split; [lia|]. split; [lia|]. split; [|intros i d X; done].
  intros i I. unfold slot_seq. rewrite (land_mask (o_slot_count o)) by (done || lia).
  rewrite Z.mod_small by lia. rewrite (new_seq r (o_slot_count o)) by (done || lia).
  destruct (i <? Z.of_nat 0) eqn:E; reflect_bools; lia.
Qed.

Lemma other_slot N r p p' :
  shape N r -> 0 <= p -> 0 <= p' -> p - N < p' < p + N -> p <> p' -> slot_index p' r <> slot_index p r.
Proof. intros S P P' R D E. apply D. symmetry. by apply (same_slot_near N r). Qed.

Lemma shape_set N r p v d h t :
  shape N r -> length d = slot_bytes_ r ->
  shape N (set_seq p v (set_payload p d (set_head h r))) /\ shape N (set_seq p v (set_tail t r)).
Proof.
  intros (K & M & LS & LP & F) L. split; (split; [done|]); (split; [done|]);
    cbn [seqs payloads set_seq set_payload set_head set_tail slot_bytes_]; rewrite ?length_insert; (split; [done|]); (split; [done|]); [|done].
  by apply Forall_insert.
Qed.

Lemma repr_push N r q d :
  repr N r q -> zlen q < N -> length d = slot_bytes_ r ->
  repr N (set_seq (head_pos r) (head_pos r + 1) (set_payload (head_pos r) d (set_head (head_pos r + 1) r))) (q ++ [d]).
Proof.
  intros (Sh & T & H & L & SQ & PL) F Ld. pose proof (shape_N _ _ Sh).
  pose proof (slot_index_lt N r (head_pos r) Sh ltac:(lia)) as Li. pose proof Sh as (_ & _ & LS & LP & _).
  set (r' := set_seq _ _ _). assert (SI : forall x, slot_index x r' = slot_index x r) by done.
  split; [by apply (shape_set N r (head_pos r) (head_pos r + 1) d (head_pos r + 1) 0)|].
  change (tail_pos r') with (tail_pos r). change (head_pos r') with (head_pos r + 1). rewrite length_app. cbn [length].
  split; [done|]. split; [lia|]. split; [lia|]. split.
  - intros i I. unfold slot_seq. rewrite SI. unfold r'. cbn [seqs set_seq set_payload set_head].
    change (slot_index (head_pos r) _) with (slot_index (head_pos r) r).
    destruct (decide (i = zlen q)) as [->|Ni].
    + rewrite <- H, nth_insert_eq by lia. destruct (_ <? _) eqn:E; reflect_bools; lia.
    + rewrite nth_insert_ne by (apply (other_slot N); done || lia). fold (slot_seq (tail_pos r + i) r). rewrite SQ by done.
      destruct (i <? zlen q) eqn:E, (i <? Z.of_nat (length q + 1)) eqn:E'; reflect_bools; lia.
  - intros i e X. unfold slot_payload. rewrite SI. unfold r'. cbn [payloads set_seq set_payload set_head].
    change (slot_index (head_pos r) _) with (slot_index (head_pos r) r).
    destruct (decide (i = length q)) as [->|Ni].
    + rewrite list_lookup_middle in X by done. injection X as <-. rewrite <- H. apply nth_insert_eq. lia.
    + assert (i < length q)%nat by (apply lookup_lt_Some in X; rewrite length_app in X; cbn [length] in X; lia).
      rewrite lookup_app_l in X by done. rewrite nth_insert_ne by (apply (other_slot N); done || lia). by apply PL.
Qed.

Lemma repr_pop N r x q :
  repr N r (x :: q) ->
  repr N (set_seq (tail_pos r) (tail_pos r + N) (set_tail (tail_pos r + 1) r)) q.
Proof.
  intros (Sh & T & H & L & SQ & PL). pose proof (shape_N _ _ Sh). cbn [length] in *.
  pose proof (slot_index_lt N r (tail_pos r) Sh ltac:(lia)) as Li. pose proof Sh as (_ & _ & LS & LP & _).
  set (r' := set_seq _ _ _). assert (SI : forall x, slot_index x r' = slot_index x r) by done.
  split; [apply (shape_set N r (tail_pos r) (tail_pos r + N) (nth (slot_index (tail_pos r) r) (payloads r) []) 0 (tail_pos r + 1)); [done|];
    by apply (payload_length N)|].
  change (tail_pos r') with (tail_pos r + 1). change (head_pos r') with (head_pos r).
  split; [lia|]. split; [lia|]. split; [lia|]. split.
  - intros i I. unfold slot_seq. rewrite SI. unfold r'. cbn [seqs set_seq set_tail].
    change (slot_index (tail_pos r) _) with (slot_index (tail_pos r) r).
    destruct (decide (i = N - 1)) as [->|Ni].
    + replace (tail_pos r + 1 + (N - 1)) with (tail_pos r + N) by lia.
      rewrite (slot_period N), nth_insert_eq by (done || lia). destruct (_ <? _) eqn:E; reflect_bools; lia.
    + rewrite nth_insert_ne by (apply (other_slot N); done || lia).
      fold (slot_seq (tail_pos r + 1 + i) r). replace (tail_pos r + 1 + i) with (tail_pos r + (1 + i)) by lia.
      rewrite SQ by lia. destruct (1 + i <? _) eqn:E, (i <? zlen q) eqn:E'; reflect_bools; lia.
  - intros i e X. rewrite <- (PL (S i) e X). unfold slot_payload. rewrite SI. do 2 f_equal. lia.
Qed.

Lemma try_push_queue N r q p :
  repr N r q -> head_pos r < 2 ^ 62 ->
  match try_push p r with
  | (r', PushRet ok) =>
      ok = negb (Nat.ltb (slot_bytes_ r) (length p)) && (zlen q <? N) /\
      if ok then exists d, repr N r' (q ++ [d]) /\ length d = slot_bytes_ r /\ take (length p) d = p
      else r' = r
  | _ => False
  end.
Proof.
  intros R B. pose proof R as (Sh & T & H & L & SQ & PL). pose proof (shape_N _ _ Sh) as HN.
  unfold try_push, start_push. destruct (Nat.ltb _ _) eqn:Ep; [done|]. apply Nat.ltb_ge in Ep.
  cbn [run_alone tstep negb andb]. destruct (zlen q <? N) eqn:F; reflect_bools.
  - pose proof (SQ (zlen q) ltac:(lia)) as Q. rewrite <- H in Q. rewrite (proj2 (Z.ltb_ge _ _)) in Q by lia.
    rewrite Q, diff64_small by lia. replace (head_pos r + 0 - head_pos r =? 0) with true by (symmetry; apply Z.eqb_eq; lia).
    cbn [tstep]. rewrite Z.eqb_refl. cbn [andb negb tstep]. rewrite (u64_small (head_pos r + 1)) by lia.
    split; [done|]. eexists. split; [apply (repr_push N r q); [done|done|]|].
    + change (slot_payload (head_pos r) (set_head (head_pos r + 1) r)) with (slot_payload (head_pos r) r). unfold slot_payload.
      rewrite length_app, length_drop, (payload_length N) by (done || (apply slot_index_lt; done || lia)). lia.
    + split; [|apply take_app_length].
      change (slot_payload (head_pos r) (set_head (head_pos r + 1) r)) with (slot_payload (head_pos r) r). unfold slot_payload.
      rewrite length_app, length_drop, (payload_length N) by (done || (apply slot_index_lt; done || lia)). lia.
  - assert (Q : slot_seq (head_pos r) r = tail_pos r + 1).
    { replace (head_pos r) with (tail_pos r + N) by lia. unfold slot_seq. rewrite (slot_period N) by done.
      pose proof (SQ 0 ltac:(lia)) as X. rewrite Z.add_0_r, (proj2 (Z.ltb_lt _ _)) in X by lia. exact X. }
    rewrite Q, diff64_small by lia. destruct (_ =? 0) eqn:E; reflect_bools; [lia|].
    rewrite (proj2 (Z.ltb_lt _ _)) by lia. done.
Qed.

Lemma try_pop_queue N r q :
  repr N r q -> head_pos r < 2 ^ 62 ->
  match try_pop r with
  | (r', PopRet o) => o = head q /\ repr N r' (tail q)
  | _ => False
  end.
Proof.
  intros R B. pose proof R as (Sh & T & H & L & SQ & PL). pose proof (shape_N _ _ Sh) as HN.
  unfold try_pop, start_pop. cbn [run_alone tstep]. pose proof (SQ 0 ltac:(lia)) as Q. rewrite Z.add_0_r in Q.
  rewrite Q, (u64_small (tail_pos r + 1)), diff64_small by (repeat case_match; lia). destruct q as [|x q].
  - change (0 <? zlen []) with false. rewrite (proj2 (Z.eqb_neq _ _)) by lia. rewrite (proj2 (Z.ltb_lt _ _)) by lia. done.
  - rewrite (proj2 (Z.ltb_lt _ _)) by (cbn [length]; lia). rewrite Z.sub_diag. cbn [Z.eqb tstep].
    rewrite Z.eqb_refl. cbn [andb negb tstep]. rewrite (u64_small (tail_pos r + 1)) by lia.
    pose proof Sh as (_ & M & _).
    change (mask_ (set_tail (tail_pos r + 1) r)) with (mask_ r). rewrite M.
    replace (tail_pos r + (N - 1) + 1) with (tail_pos r + N) by lia. rewrite u64_small by lia. split.
    + cbn [head]. f_equal. rewrite <- (PL O x eq_refl), Z.add_0_r. done.
    + apply (repr_pop N r x q R).
Qed.

(** Run alone on a ring of [N >= 2] slots that holds the queue [q], [try_push]
    fails, leaving the ring as it is, exactly when the payload is longer than a slot
    or the queue has [N] entries, and otherwise appends a slot that starts with the
    payload; [try_pop] removes and returns the first entry, or reports an empty
    queue. *)
Theorem ring_is_queue N r q p :
  repr N r q -> head_pos r < 2 ^ 62 ->
  match try_push p r with
  | (r', PushRet ok) =>
      ok = negb (Nat.ltb (slot_bytes_ r) (length p)) && (zlen q <? N) /\
      if ok then exists d, repr N r' (q ++ [d]) /\ length d = slot_bytes_ r /\ take (length p) d = p
      else r' = r
  | _ => False
  end /\
  match try_pop r with
  | (r', PopRet o) => o = head q /\ repr N r' (tail q)
  | _ => False
  end.
Proof.
  intros R B. split; [by apply try_push_queue|by apply try_pop_queue].
Qed.

(** ** Witnesses *)

Definition ring_of (o : OpenOptions) : Ring :=
  match Create true o with Some (_, r) => r | None => mkRing 0 0 0 0 [] [] end.

Definition opts2 : OpenOptions := mkOptions [x2f] kSqMagic 2 4.

(** A schedule: which thread starts an operation or takes its next step. *)
Inductive act := APush (t : nat) (p : bytes) | APop (t : nat) | ARun (t : nat).

Definition act_step (a : act) (s : Sys) : option Sys :=
  let '(mkSys r th pu po) := s in
  match a with
  | APush t p => if returned (th t) then Some (mkSys r (upd t (start_push p r) th) pu po) else None
  | APop t => if returned (th t) then Some (mkSys r (upd t (start_pop r) th) pu po) else None
  | ARun t =>
      if head_pos r <? 2 ^ 62 then
        let '(r', x) := tstep false r (th t) in
        Some (mkSys r' (upd t x th) (pu ++ log_push (th t) x) (po ++ log_pop (th t)))
      else None
  end.

Fixpoint exec (l : list act) (s : Sys) : option Sys :=
  match l with
  | [] => Some s
  | a :: l => match act_step a s with Some s' => exec l s' | None => None end
  end.

Lemma exec_reach l s s' : exec l s = Some s' -> rtc step s s'.
Proof.
  revert s. induction l as [|a l IH]; intros s E; cbn [exec] in E; [injection E as <-; apply rtc_refl|].
  destruct (act_step a s) as [s1|] eqn:A; [|discriminate]. eapply rtc_l; [|by apply IH].
  destruct s as [r th pu po], a as [t p|t|t]; cbn [act_step] in A.
  - destruct (returned _) eqn:R; [|discriminate]. injection A as <-. by apply step_push.
  - destruct (returned _) eqn:R; [|discriminate]. injection A as <-. by apply step_pop.
  - destruct (_ <? _) eqn:L; [|discriminate]. reflect_bools. pose proof (step_thread t false r th pu po L) as St.
    destruct (tstep false r (th t)) as [r' x]. injection A as <-. exact St.
Qed.

Definition schedule : list act :=
  [APush 0 [x07; x08]; APush 1 [x09]; ARun 0; ARun 1; ARun 0; ARun 1; ARun 0; ARun 0;
   APop 2; ARun 2; ARun 1; ARun 2; ARun 2; ARun 2].

Lemma ring_interleavings_witness :
  match exec schedule (init (ring_of opts2)) with
  | Some s => popped s = [(0, [x07; x08; x00; x00])] /\ NoDup (popped s).*1
  | None => False
  end.
Proof.
  assert (P : popped <$> exec schedule (init (ring_of opts2)) = Some [(0, [x07; x08; x00; x00])])
    by (vm_compute; reflexivity).
  destruct (exec schedule _) as [s|] eqn:E; [|discriminate]. injection P as P. split; [exact P|].
  exact (proj1 (proj2 (proj2 (ring_interleavings opts2 (mkHeader kSqMagic 1 2 4) (ring_of opts2) s
    eq_refl ltac:(cbn; lia) (exec_reach _ _ _ E))))).
Defined.

Lemma ring_is_queue_witness :
  repr 2 (ring_of opts2) [] /\ (try_push [x07] (ring_of opts2)).2 = PushRet true /\
  match try_pop (ring_of opts2) with (r', PopRet o) => o = head (@nil bytes) /\ repr 2 r' [] | _ => False end.
Proof.
  assert (R : repr 2 (ring_of opts2) []).
  { apply (Create_repr opts2 (mkHeader kSqMagic 1 2 4)); [reflexivity|vm_compute; split; congruence]. }
  split; [exact R|]. split; [reflexivity|]. apply (ring_is_queue 2 _ [] [x07] R). reflexivity.
Defined.

(** ** One slot *)

Definition opts1 : OpenOptions := mkOptions [x2f] kSqMagic 1 4.

Definition two_pushes : Ring := (try_push [x02] (try_push [x01] (ring_of opts1)).1).1.

(** [Create] accepts one slot. The second push then overwrites the first, unread,
    and [try_pop] never returns. *)
Example one_slot_ring_broken :
  (try_push [x01] (ring_of opts1)).2 = PushRet true /\
  (try_push [x02] (try_push [x01] (ring_of opts1)).1).2 = PushRet true /\
  payloads two_pushes = [[x02; x00; x00; x00]] /\
  forall n, run_alone n two_pushes (start_pop two_pushes) = (two_pushes, PopLoad 0).
Proof.
  split; [reflexivity|]. split; [reflexivity|]. split; [reflexivity|].
  intros n. induction n as [|n IH]; [reflexivity|]. exact IH.
Qed.

End Ring.
