(* ===== verification/Ingest.v ===== *)
(** * Pinned slots, ingest handles and watermarks

    The slab of page-locked slots ([PinnedTier] of tier/pinned_tier.cpp), the
    streaming-write handles that own one slot each ([MutableBufferPool] of
    ingest/mutable_buffer.cpp) and the per-handle write positions
    ([WatermarkTracker] of ingest/watermark.cpp).

    A slot is its index; its memory starts at [index * slot_bytes] of the pool.
    Time is the value of the steady clock at each call. The mutexes make each call
    atomic; the compare-and-swap loop of [Publish] is the maximum. The theorem
    says that slots are neither lost nor handed out twice. *)

From S2P Require Import Prelude.
From Stdlib Require Import ZArith Lia.

Open Scope Z_scope.

Module Ingest.

(** ** PinnedTier *)

Record PinnedOptions := mkPinnedOptions { pool_bytes : Z; o_slot_bytes : Z }.

(** [free_stack_] has the top of the stack first. *)
Record Pinned := mkPinned { slot_bytes_ : Z; slot_count_ : Z; free_stack_ : list Z; in_use_ : Z }.

Definition Create (mmap_ok : bool) (o : PinnedOptions) : option Pinned :=
  if (pool_bytes o =? 0) || (o_slot_bytes o =? 0) || (pool_bytes o <? o_slot_bytes o) then None
  else if negb (pool_bytes o mod o_slot_bytes o =? 0) then None
  else if negb mmap_ok then None
  else let n := u32 (pool_bytes o / o_slot_bytes o) in Some (mkPinned (o_slot_bytes o) n (seqZ 0 n) 0).

Definition Acquire (p : Pinned) : option Z * Pinned :=
  match free_stack_ p with
  | [] => (None, p)
  | i :: r => (Some i, mkPinned (slot_bytes_ p) (slot_count_ p) r (u32 (in_use_ p + 1)))
  end.

(** The offset of a slot in the pool. *)
Definition slot_addr (i : Z) (p : Pinned) : Z := u64 (i * slot_bytes_ p).

Definition ReleaseSlot (i : Z) (p : Pinned) : Pinned :=
  if (i =? 0xFFFFFFFF) || (slot_count_ p <=? i) then p
  else mkPinned (slot_bytes_ p) (slot_count_ p) (i :: free_stack_ p) (u32 (in_use_ p - 1)).

(** ** MutableBufferPool *)

Record Entry := mkEntry { e_slot : Z; deadline : Z }.

Record Pool := mkPool { pinned : Pinned; active_ : gmap Z Entry; next_handle_ : Z }.

Definition kInvalidIngestHandle : Z := 0.

Definition new_pool (p : Pinned) : Pool := mkPool p ∅ 1.

Definition Reserve (now ttl default_ttl : Z) (b : Pool) : Z * Pool :=
  match Acquire (pinned b) with
  | (None, _) => (kInvalidIngestHandle, b)
  | (Some i, p) =>
      let h := next_handle_ b in
      let d := now + (if ttl =? 0 then default_ttl else ttl) in
      (h, mkPool p (<[h := mkEntry i d]> (active_ b)) (u64 (h + 1)))
  end.

Record IngestSlot := mkSlot { addr : Z; s_bytes : Z }.

Definition GetSlot (h : Z) (b : Pool) : option IngestSlot :=
  match active_ b !! h with
  | None => None
  | Some e => Some (mkSlot (slot_addr (e_slot e) (pinned b)) (slot_bytes_ (pinned b)))
  end.

Definition Release (h : Z) (b : Pool) : bool * Pool :=
  match active_ b !! h with
  | None => (false, b)
  | Some e => (true, mkPool (ReleaseSlot (e_slot e) (pinned b)) (delete h (active_ b)) (next_handle_ b))
  end.

Definition expired (now : Z) (x : Z * Entry) : Prop := deadline x.2 <= now.
#[global] Instance expired_dec now x : Decision (expired now x) := decide (_ <= _).

(** The slots of a set of handles, in the order in which the map is walked. *)
Notation slots := (fields e_slot).

Definition SweepOnce (now : Z) (b : Pool) : Pool :=
  let to_free := slots (filter (expired now) (active_ b)) in
  mkPool (fold_left (fun p i => ReleaseSlot i p) to_free (pinned b))
    (filter (fun x => ~ expired now x) (active_ b)) (next_handle_ b).

Definition ActiveCount (b : Pool) : nat := size (active_ b).

(** ** WatermarkTracker *)

Definition Marks := gmap Z Z.

Definition Track (h : Z) (w : Marks) : Marks :=
  match w !! h with Some _ => w | None => <[h := 0]> w end.

Definition Publish (h new_wm : Z) (w : Marks) : Z * Marks :=
  match w !! h with
  | None => (0, w)
  | Some cur => if cur <? new_wm then (new_wm, <[h := new_wm]> w) else (cur, w)
  end.

Definition Read (h : Z) (w : Marks) : Z := default 0 (w !! h).

Definition Drop (h : Z) (w : Marks) : Z * Marks :=
  match w !! h with None => (0, w) | Some v => (v, delete h w) end.

(** ** Slots are conserved *)

Record PoolInv (b : Pool) : Prop := {
  p_count : 0 <= slot_count_ (pinned b) < 2 ^ 32;
  p_slots : free_stack_ (pinned b) ++ slots (active_ b) ≡ₚ seqZ 0 (slot_count_ (pinned b));
  p_in_use : in_use_ (pinned b) = Z.of_nat (size (active_ b));
  p_handles : forall h e, active_ b !! h = Some e -> 0 < h < next_handle_ b }.

Lemma slot_range b : PoolInv b -> forall i, i ∈ slots (active_ b) -> 0 <= i < slot_count_ (pinned b).
Proof.
  intros I i E. assert (X : i ∈ seqZ 0 (slot_count_ (pinned b)))
    by (rewrite <- (p_slots _ I); apply elem_of_app; by right).
  apply elem_of_seqZ in X. lia.
Qed.

Lemma active_bound b : PoolInv b -> Z.of_nat (size (active_ b)) <= slot_count_ (pinned b).
Proof.
  intros I. pose proof (p_count _ I). pose proof (Permutation_length (p_slots _ I)) as L.
  rewrite length_app, fields_length, length_seqZ in L. lia.
Qed.

(** Pushing slots back on the stack. *)
Lemma release_slots l p :
  (forall i, i ∈ l -> 0 <= i < slot_count_ p) -> slot_count_ p < 2 ^ 32 -> zlen l <= in_use_ p < 2 ^ 32 ->
  let p' := fold_left (fun p i => ReleaseSlot i p) l p in
  slot_bytes_ p' = slot_bytes_ p /\ slot_count_ p' = slot_count_ p /\
  free_stack_ p' = rev l ++ free_stack_ p /\ in_use_ p' = in_use_ p - zlen l.
Proof.
  revert p. induction l as [|i l IH]; intros p R C U; cbn [fold_left rev length app] in *; [split; [done|split; [done|split; [done|lia]]]|].
  pose proof (R i ltac:(apply elem_of_cons; by left)) as Ri.
  assert (E : ReleaseSlot i p = mkPinned (slot_bytes_ p) (slot_count_ p) (i :: free_stack_ p) (in_use_ p - 1)).
  { unfold ReleaseSlot. destruct (_ || _) eqn:E; [apply orb_true_iff in E as [E|E]; reflect_bools; lia|].
    rewrite u32_small by lia. done. }
  rewrite E. destruct (IH (mkPinned (slot_bytes_ p) (slot_count_ p) (i :: free_stack_ p) (in_use_ p - 1))) as (A & B & D & F);
    cbn [slot_count_ slot_bytes_ free_stack_ in_use_] in *; try lia.
  { intros j J. apply R. apply elem_of_cons. by right. }
  split; [done|]. split; [done|]. split; [rewrite D, <- app_assoc; done|lia].
Qed.

Lemma Release_inv h b : PoolInv b -> PoolInv (Release h b).2.
Proof.
  intros I. unfold Release. destruct (active_ b !! h) as [e|] eqn:E; [|done]. cbn [snd].
  pose proof (p_slots _ I) as P. pose proof (active_bound _ I) as B. pose proof (p_count _ I) as C. pose proof (p_in_use _ I) as U.
  assert (S : Z.of_nat (size (active_ b)) = 1 + Z.of_nat (size (delete h (active_ b)))).
  { rewrite map_size_delete, E. pose proof (map_size_ne_0_lookup_2 (active_ b) h (mk_is_Some _ _ E)). lia. }
  destruct (release_slots [e_slot e] (pinned b)) as (RB & RC & RF & RU); cbn [length]; try lia.
  { intros i Li. apply list_elem_of_singleton in Li as ->. apply (slot_range _ I).
    rewrite (fields_delete _ _ _ _ E). apply elem_of_cons. by left. }
  cbn [fold_left] in *. constructor; cbn [pinned active_ next_handle_].
  - rewrite RC. done.
  - rewrite RC, RF. cbn [rev app]. rewrite <- P, (fields_delete _ _ _ _ E). by rewrite <- Permutation_middle.
  - rewrite RU. cbn [length]. lia.
  - intros h' e' L. apply lookup_delete_Some in L as [_ L]. by apply (p_handles _ I h' e').
Qed.

Lemma Reserve_inv now ttl dttl b :
  PoolInv b -> 0 < next_handle_ b < 2 ^ 64 - 1 -> PoolInv (Reserve now ttl dttl b).2.
Proof.
  intros I N. unfold Reserve, Acquire. pose proof (p_slots _ I) as P. pose proof (p_in_use _ I) as U.
  pose proof (p_count _ I) as C. destruct (free_stack_ (pinned b)) as [|i r] eqn:F; [done|]. cbn [snd].
  assert (L : active_ b !! next_handle_ b = None).
  { destruct (active_ b !! next_handle_ b) eqn:L; [|done]. pose proof (p_handles _ I _ _ L). lia. }
  assert (B : Z.of_nat (size (active_ b)) < slot_count_ (pinned b)).
  { pose proof (Permutation_length P) as E. rewrite length_app, fields_length, length_seqZ in E. cbn [length] in E. lia. }
  rewrite (u64_small (next_handle_ b + 1)) by lia.
  constructor; cbn [pinned active_ next_handle_ free_stack_ slot_count_ in_use_].
  - done.
  - rewrite fields_insert by done. cbn [e_slot]. rewrite <- P, <- Permutation_middle. done.
  - rewrite map_size_insert_None by done. rewrite u32_small by lia. lia.
  - intros h e E. apply lookup_insert_Some in E as [[<- _]|[_ E]]; [lia|]. pose proof (p_handles _ I _ _ E). lia.
Qed.

Lemma Sweep_inv now b : PoolInv b -> PoolInv (SweepOnce now b).
Proof.
  intros I. pose proof (fields_split e_slot (expired now) (active_ b)) as Sp. pose proof (p_slots _ I) as P.
  pose proof (active_bound _ I) as B. pose proof (p_count _ I) as C. pose proof (p_in_use _ I) as U.
  pose proof (Permutation_length Sp) as Ls. rewrite length_app, !fields_length in Ls. unfold SweepOnce.
  destruct (release_slots (slots (filter (expired now) (active_ b))) (pinned b)) as (RB & RC & RF & RU);
    rewrite ?fields_length; try lia.
  { intros i Li. apply (slot_range _ I). rewrite Sp. apply elem_of_app. by left. }
  constructor; cbn [pinned active_ next_handle_].
  - rewrite RC. done.
  - rewrite RC, RF, <- P, Sp. rewrite <- (Permutation_rev (slots (filter (expired now) (active_ b)))).
    rewrite !(app_assoc (free_stack_ _)). by rewrite (Permutation_app_comm (free_stack_ _)).
  - rewrite RU, fields_length. lia.
  - intros h e E. apply map_lookup_filter_Some in E as [E _]. by apply (p_handles _ I h e).
Qed.

(** ** Sequences of calls *)

Inductive op := OReserve (now ttl default_ttl : Z) | ORelease (h : Z) | OSweep (now : Z).

Definition run_op (b : Pool) (o : op) : Pool :=
  match o with
  | OReserve now ttl d => (Reserve now ttl d b).2
  | ORelease h => (Release h b).2
  | OSweep now => SweepOnce now b
  end.

Definition run (ops : list op) (b : Pool) : Pool := fold_left run_op ops b.

Lemma run_op_geometry o b :
  slot_bytes_ (pinned (run_op b o)) = slot_bytes_ (pinned b) /\ slot_count_ (pinned (run_op b o)) = slot_count_ (pinned b).
Proof.
  destruct o as [now ttl d|h|now]; cbn [run_op].
  - unfold Reserve, Acquire. by destruct (free_stack_ (pinned b)).
  - unfold Release. destruct (active_ b !! h); cbn [snd pinned]; [|done]. unfold ReleaseSlot. by destruct (_ || _).
  - unfold SweepOnce. cbn [pinned].
    generalize (slots (filter (expired now) (active_ b))). intros l. generalize (pinned b).
    induction l as [|i l IH]; intros p; cbn [fold_left]; [done|]. destruct (IH (ReleaseSlot i p)) as [A B].
    rewrite A, B. unfold ReleaseSlot. by destruct (_ || _).
Qed.

Lemma run_op_next o b : 0 < next_handle_ b < 2 ^ 64 - 1 -> next_handle_ b <= next_handle_ (run_op b o) <= next_handle_ b + 1.
Proof.
  intros N. destruct o as [now ttl d|h|now]; cbn [run_op].
  - unfold Reserve, Acquire. destruct (free_stack_ (pinned b)); cbn [snd next_handle_]; [lia|]. rewrite u64_small by lia. lia.
  - unfold Release. destruct (active_ b !! h); cbn [snd next_handle_]; lia.
  - unfold SweepOnce. cbn [next_handle_]. lia.
Qed.

Lemma run_inv ops b :
  PoolInv b -> 0 < next_handle_ b -> next_handle_ b + zlen ops < 2 ^ 64 - 1 ->
  PoolInv (run ops b) /\ slot_bytes_ (pinned (run ops b)) = slot_bytes_ (pinned b) /\
  slot_count_ (pinned (run ops b)) = slot_count_ (pinned b).
Proof.
  revert b. induction ops as [|o ops IH]; intros b I N L; cbn [length] in L; [done|].
  pose proof (run_op_next o b ltac:(lia)) as A. destruct (run_op_geometry o b) as [B C]. unfold run. cbn [fold_left]. fold (run ops (run_op b o)).
  destruct (IH (run_op b o)) as (D & E & F); try lia.
  - destruct o as [now ttl d|h|now]; [apply Reserve_inv; [done|lia]|by apply Release_inv|by apply Sweep_inv].
  - rewrite E, F. done.
Qed.

Lemma Create_inv o p :
  Create true o = Some p -> 0 <= pool_bytes o -> 0 <= o_slot_bytes o -> pool_bytes o / o_slot_bytes o < 2 ^ 32 ->
  PoolInv (new_pool p) /\ slot_bytes_ p = o_slot_bytes o /\ 0 < o_slot_bytes o /\
  slot_count_ p * o_slot_bytes o = pool_bytes o.
Proof.
  unfold Create. intros C P S Q. destruct (_ || _ || _) eqn:E; [done|]. reflect_bools.
  destruct (negb (_ mod _ =? 0)) eqn:M; [done|]. cbn [negb] in C. injection C as <-. reflect_bools.
  pose proof (Z.div_pos (pool_bytes o) (o_slot_bytes o) ltac:(lia) ltac:(lia)) as D.
  rewrite u32_small by lia. cbn [slot_bytes_ slot_count_]. split; [|split; [done|split; [lia|]]].
  - constructor; cbn [new_pool pinned active_ next_handle_ slot_count_ free_stack_ in_use_].
    + lia.
    + unfold fields. rewrite map_to_list_empty. cbn. by rewrite app_nil_r.
    + by rewrite map_size_empty.
    + intros h e X. by rewrite lookup_empty in X.
  - pose proof (Z.div_mod (pool_bytes o) (o_slot_bytes o) ltac:(lia)). lia.
Qed.

Lemma active_slots_distinct b h1 h2 e1 e2 :
  PoolInv b -> h1 <> h2 -> active_ b !! h1 = Some e1 -> active_ b !! h2 = Some e2 -> e_slot e1 <> e_slot e2.
Proof.
  intros I N E1 E2 Q. pose proof (NoDup_seqZ 0 (slot_count_ (pinned b))) as D. rewrite <- (p_slots _ I) in D.
  apply NoDup_app in D as (_ & _ & D). by apply N, (fields_distinct _ _ _ _ _ _ D E1 E2).
Qed.

(** Over every sequence of reservations, releases and sweeps, whatever the
    clock: each slot of the pool is exactly one of free and owned by one handle,
    the count of slots in use is the number of handles, the slots of two handles do
    not overlap, and every slot lies inside the pool. *)
Theorem slots_conserved o p ops :
  Create true o = Some p -> 0 <= pool_bytes o < 2 ^ 64 -> 0 <= o_slot_bytes o ->
  pool_bytes o / o_slot_bytes o < 2 ^ 32 -> zlen ops < 2 ^ 63 ->
  let b := run ops (new_pool p) in
  free_stack_ (pinned b) ++ slots (active_ b) ≡ₚ seqZ 0 (slot_count_ p) /\
  in_use_ (pinned b) = Z.of_nat (size (active_ b)) /\
  (forall h s, GetSlot h b = Some s -> 0 <= addr s /\ addr s + s_bytes s <= pool_bytes o) /\
  (forall h1 h2 s1 s2, h1 <> h2 -> GetSlot h1 b = Some s1 -> GetSlot h2 b = Some s2 ->
     addr s1 + s_bytes s1 <= addr s2 \/ addr s2 + s_bytes s2 <= addr s1).
Proof.
  intros C PB SB Q L b. destruct (Create_inv o p C ltac:(lia) SB Q) as (I0 & Bs & Sp & Tot).
  destruct (run_inv ops (new_pool p) I0 ltac:(cbn; lia) ltac:(cbn [next_handle_ new_pool]; lia)) as (I & Bs' & Cn).
  fold b in I, Bs', Cn. cbn [new_pool pinned] in Bs', Cn. rewrite Bs in Bs'.
  assert (A : forall h e, active_ b !! h = Some e ->
    0 <= e_slot e < slot_count_ p /\ slot_addr (e_slot e) (pinned b) = e_slot e * o_slot_bytes o).
  { intros h e E. assert (R : 0 <= e_slot e < slot_count_ p).
    { rewrite <- Cn. apply (slot_range _ I). rewrite (fields_delete _ _ _ _ E). apply elem_of_cons. by left. }
    split; [done|]. unfold slot_addr. rewrite Bs'. apply u64_small. nia. }
  split; [rewrite <- Cn; apply (p_slots _ I)|]. split; [apply (p_in_use _ I)|]. unfold GetSlot. split.
  - intros h s E. destruct (active_ b !! h) as [e|] eqn:Eh; [|done]. injection E as <-. cbn [addr s_bytes].
    destruct (A h e Eh) as [R ->]. rewrite Bs'. nia.
  - intros h1 h2 s1 s2 N X1 X2. destruct (active_ b !! h1) as [e1|] eqn:E1; [|done]. injection X1 as <-.
    destruct (active_ b !! h2) as [e2|] eqn:E2; [|done]. injection X2 as <-. cbn [addr s_bytes].
    destruct (A h1 e1 E1) as [R1 ->]. destruct (A h2 e2 E2) as [R2 ->]. rewrite Bs'.
    pose proof (active_slots_distinct b h1 h2 e1 e2 I N E1 E2). nia.
Qed.

Definition two_slots : PinnedOptions := mkPinnedOptions 8 4.
Definition pinned2 : Pinned := mkPinned 4 2 [0; 1] 0.
Definition calls : list op := [OReserve 0 0 300; OReserve 10 0 300; OReserve 10 0 300; OSweep 305; OReserve 306 5 300].

Lemma slots_conserved_witness :
  active_ (run calls (new_pool pinned2)) = {[2 := mkEntry 1 310; 3 := mkEntry 0 311]} /\
  in_use_ (pinned (run calls (new_pool pinned2))) = Z.of_nat (size (active_ (run calls (new_pool pinned2)))).
Proof.
  split; [vm_compute; reflexivity|].
  apply (slots_conserved two_slots pinned2 calls); vm_compute; first [reflexivity | congruence | split; congruence].
Defined.

End Ingest.
