(* ===== verification/Boundary.v ===== *)
(** * Egress boundary

    The allow-list that Regulated Mode puts in front of outbound connections:
    security/boundary_guard.cpp (host globs, CIDR blocks, the decision),
    boundary_policy_builder.cpp, regulated_mode.cpp with runtime/regulated_flags.cpp
    (the startup gate), and the URL parser of tier/guarded_transport.cpp. The
    transport that consults the guard is with the cold tiers.

    The theorems: with default deny an endpoint is admitted only through a rule; a
    CIDR rule admits exactly the addresses that share its prefix bits; a wildcard
    admits exactly strict subdomains; the host that the URL parser extracts is the
    one in the URL. *)

From S2P Require Import Prelude Mtls.
From Stdlib Require Import ZArith Lia.

Open Scope Z_scope.

Module Boundary.

Inductive Purpose := kColdTier | kKms | kTelemetry | kReplication | kEtcd | kOther.
#[export] Instance Purpose_eq_dec : EqDecision Purpose.
Proof. solve_decision. Defined.

Record Endpoint := mkEndpoint { host : bytes; port : Z; purpose : Purpose }.
Record Rule := mkRule { host_glob : bytes; cidr : bytes; r_purpose : Purpose }.
Record BoundaryPolicy := mkPolicy { allow : list Rule; default_deny : bool }.

Definition PurposeMatches (rule ep : Purpose) : bool := bool_decide (rule = kOther) || bool_decide (rule = ep).

(** ** Host globs *)

Definition lower (c : byte) : byte :=
  if (0x41 <=? byte_val c) && (byte_val c <=? 0x5a) then byte_of (byte_val c + 32) else c.

(** [if (!s.empty() && s.back() == c) s.pop_back()]. *)
Definition pop_back_if (c : byte) (s : bytes) : bytes :=
  match rev s with
  | x :: r => if bool_decide (x = c) then rev r else s
  | [] => s
  end.

Definition Normalize (s : bytes) : bytes := pop_back_if x2e (lower <$> s).

Definition HostMatchesGlob (host glob : bytes) : bool :=
  match host, glob with
  | [], _ | _, [] => false
  | _, _ =>
      let h := Normalize host in
      let g := Normalize glob in
      match h, g with
      | [], _ | _, [] => false
      | _, c :: suffix =>
          if bool_decide (c = x2a) then
            if Nat.leb (length h) (length suffix) then false
            else bool_decide (drop (length h - length suffix) h = suffix)
          else bool_decide (h = g)
      end
  end.

(** ** Addresses and CIDR blocks *)

Definition is_digit (c : byte) : bool := (0x30 <=? byte_val c) && (byte_val c <=? 0x39).
Definition digit (c : byte) : Z := byte_val c - 0x30.

(** The loop of [parse_v4], with the octets found so far. *)
Fixpoint parse_octets (s : bytes) (cur : Z) (any : bool) (oct : list Z) : option (list Z) :=
  match s with
  | [] => if any && Nat.leb (length oct) 3 then Some (oct ++ [cur]) else None
  | c :: r =>
      if bool_decide (c = x2e) then
        if any && Nat.leb (length oct) 3 then parse_octets r 0 false (oct ++ [cur]) else None
      else if is_digit c then
        let cur := cur * 10 + digit c in
        if 255 <? cur then None else parse_octets r cur true oct
      else None
  end.

Definition parse_v4 (s : bytes) : option Z :=
  match parse_octets s 0 false [] with
  | Some [a; b; c; d] => Some (Z.lor (Z.lor (Z.shiftl a 24) (Z.shiftl b 16)) (Z.lor (Z.shiftl c 8) d))
  | _ => None
  end.

(** [s.find(c)]: the text before the first [c] and after it. *)
Fixpoint split_at (c : byte) (s : bytes) : option (bytes * bytes) :=
  match s with
  | [] => None
  | x :: r => if bool_decide (x = c) then Some ([], r) else '(a, b) ← split_at c r; Some (x :: a, b)
  end.

Definition decimal (s : bytes) : option Z :=
  fold_left (fun acc c => match acc with Some n => if is_digit c then Some (n * 10 + digit c) else None | None => None end)
    s (Some 0).

Definition IpInCidr (ip cidr : bytes) : bool :=
  match split_at x2f cidr with
  | None => false
  | Some (net_s, pfx) =>
      match parse_v4 net_s, parse_v4 ip with
      | Some net, Some addr =>
          if Nat.eqb (length pfx) 0 || Nat.ltb 2 (length pfx) then false
          else match decimal pfx with
               | None => false
               | Some bits =>
                   if 32 <? bits then false
                   else let mask := if bits =? 0 then 0 else u32 (Z.shiftl 0xFFFFFFFF (32 - bits)) in
                        Z.land net mask =? Z.land addr mask
               end
      | _, _ => false
      end
  end.

(** ** The decision *)

Definition rule_allows (ep : Endpoint) (r : Rule) : bool :=
  PurposeMatches (r_purpose r) (purpose ep) &&
  ((match host_glob r with [] => false | _ => HostMatchesGlob (host ep) (host_glob r) end) ||
   (match cidr r with [] => false | _ => IpInCidr (host ep) (cidr r) end)).

Definition Check (policy : BoundaryPolicy) (ep : Endpoint) : bool :=
  match host ep with
  | [] => false
  | _ => existsb (rule_allows ep) (allow policy) || negb (default_deny policy)
  end.

Definition LooksLikeCidr (s : bytes) : bool :=
  match split_at x2f s with
  | None => false
  | Some (_, []) => false
  | Some (_, r) => forallb is_digit r
  end.

Definition BuildPolicy (allow_rules : list bytes) (deny : bool) : BoundaryPolicy :=
  mkPolicy
    ((fun tok => if LooksLikeCidr tok then mkRule [] tok kOther else mkRule tok [] kOther) <$>
       filter (fun tok => tok <> []) allow_rules)
    deny.

(** ** Regulated Mode *)

(** A requirement check reports whether it is met. *)
Record RegulatedModeConfig := mkConfig {
  enabled : bool; allow_rules : list bytes; configured_sinks : list Endpoint; requirements : list bool }.

Definition ValidateRegulatedMode (cfg : RegulatedModeConfig) : bool :=
  if negb (enabled cfg) then true
  else
    let guard := BuildPolicy (allow_rules cfg) true in
    forallb (Check guard) (configured_sinks cfg) && forallb id (requirements cfg).

Definition BuildRegulatedModeConfig (on : bool) (rules : list bytes) (egress_sinks : list Endpoint) : RegulatedModeConfig :=
  mkConfig on rules egress_sinks [].

(** ** URLs *)

Definition strip (p s : bytes) : option bytes := if bool_decide (take (length p) s = p) then Some (drop (length p) s) else None.

(** The text behind the last [c], the whole text without one. *)
Fixpoint after_last (c : byte) (s : bytes) : bytes :=
  match s with
  | [] => []
  | x :: r => if existsb (fun y => bool_decide (y = c)) r then after_last c r else if bool_decide (x = c) then r else s
  end.

Definition before (c : byte) (s : bytes) : bytes := match split_at c s with Some (a, _) => a | None => s end.

(** [HostFromUrl]: host and port, [None] where the code returns an empty host. The
    port is accumulated without overflow, as it is in a [long] up to 18 digits. *)
Definition HostFromUrl (url : bytes) : option (bytes * Z) :=
  match
    (match strip (Mtls.str "https://") url with
     | Some r => Some (443, r)
     | None => match strip (Mtls.str "http://") url with Some r => Some (80, r) | None => None end
     end)
  with
  | None => None
  | Some (default_port, rest) =>
      match before x2f rest with
      | [] => None
      | authority =>
          match after_last x40 authority with
          | [] => None
          | authority =>
              match split_at x3a authority with
              | None => Some (authority, default_port)
              | Some (h, port_str) =>
                  match port_str, decimal port_str, h with
                  | [], _, _ | _, None, _ | _, _, [] => None
                  | _, Some p, _ => if (p <=? 0) || (65535 <? p) then None else Some (h, p)
                  end
              end
          end
      end
  end.

(** ** Lemmas on text *)

Lemma split_at_app c a b : c ∉ a -> split_at c (a ++ c :: b) = Some (a, b).
Proof.
  induction a as [|x a IH]; intros N; cbn [app split_at]; [by rewrite bool_decide_true|].
  apply not_elem_of_cons in N as [N1 N2]. rewrite bool_decide_false by congruence. by rewrite IH.
Qed.

Lemma split_at_none c a : c ∉ a -> split_at c a = None.
Proof.
  induction a as [|x a IH]; intros N; [done|]. apply not_elem_of_cons in N as [N1 N2]. cbn.
  rewrite bool_decide_false by congruence. by rewrite IH.
Qed.

Lemma split_at_Some c s a b : split_at c s = Some (a, b) -> s = a ++ c :: b /\ c ∉ a.
Proof.
  revert a b. induction s as [|x s IH]; intros a b E; cbn in E; [done|]. case_bool_decide as X.
  - injection E as <- <-. subst. split; [done|]. apply not_elem_of_nil.
  - destruct (split_at c s) as [[a' b']|]; [|done]. injection E as <- <-. destruct (IH a' b' eq_refl) as [-> N].
    split; [done|]. apply not_elem_of_cons. split; [congruence|done].
Qed.

Lemma after_last_none c s : c ∉ s -> after_last c s = s.
Proof.
  induction s as [|x s IH]; intros N; [done|]. apply not_elem_of_cons in N as [N1 N2]. cbn [after_last].
  replace (existsb _ s) with false; [by rewrite bool_decide_false by congruence|]. symmetry.
  apply not_true_iff_false. rewrite existsb_exists. intros (y & Y & E). reflect_bools. subst.
  apply N2. by apply list_elem_of_In.
Qed.

Lemma decimal_app a b : decimal (a ++ b) = fold_left (fun acc c => match acc with Some n => if is_digit c then Some (n * 10 + digit c) else None | None => None end) b (decimal a).
Proof. apply fold_left_app. Qed.

(** ** Decimal numerals *)

Fixpoint print_nat (fuel : nat) (n : Z) : bytes :=
  match fuel with
  | O => []
  | S f => if n <? 10 then [byte_of (0x30 + n)] else print_nat f (n / 10) ++ [byte_of (0x30 + n mod 10)]
  end.

(** A number below [10 ^ 20] in decimal. *)
Definition print (n : Z) : bytes := print_nat 20 n.

Lemma digit_char n : 0 <= n < 10 -> is_digit (byte_of (0x30 + n)) = true /\ digit (byte_of (0x30 + n)) = n.
Proof.
  intros H. unfold is_digit, digit. rewrite byte_val_of, Z.mod_small by lia.
  split; [|lia]. apply andb_true_iff. split; apply Z.leb_le; lia.
Qed.

Lemma print_nat_spec fuel n :
  0 <= n < 10 ^ Z.of_nat fuel -> (0 < fuel)%nat ->
  decimal (print_nat fuel n) = Some n /\ Forall (fun c => is_digit c = true) (print_nat fuel n) /\ print_nat fuel n <> [].
Proof.
  revert n. induction fuel as [|f IH]; intros n H F; [lia|]. cbn [print_nat]. destruct (n <? 10) eqn:E; reflect_bools.
  - destruct (digit_char n ltac:(lia)) as [D1 D2]. split; [unfold decimal; cbn [fold_left]; rewrite D1, D2; f_equal; lia|].
    split; [by repeat constructor|done].
  - assert (f <> O) by (intros ->; cbn in H; lia).
    rewrite Nat2Z.inj_succ, Z.pow_succ_r in H by lia.
    pose proof (Z.div_mod n 10 ltac:(lia)). pose proof (Z.mod_pos_bound n 10 ltac:(lia)).
    destruct (IH (n / 10)) as (A & B & C); [split; [apply Z.div_pos; lia|apply Z.div_lt_upper_bound; lia]|lia|].
    destruct (digit_char (n mod 10) ltac:(lia)) as [D1 D2]. split.
    + rewrite decimal_app, A. cbn [fold_left]. rewrite D1, D2. f_equal. lia.
    + split; [apply Forall_app; split; [done|by repeat constructor]|]. intros X. by apply app_eq_nil in X as [_ X].
Qed.

(** ** CIDR blocks *)

Definition dec_from (cur : Z) (s : bytes) : Z := fold_left (fun n c => n * 10 + digit c) s cur.

Lemma is_digit_range c : is_digit c = true -> 0 <= digit c < 10 /\ c <> x2e.
Proof. unfold is_digit, digit. intros H. reflect_bools. split; [lia|]. intros ->. vm_compute in H. by apply H. Qed.

Lemma dec_from_mono s cur : Forall (fun c => is_digit c = true) s -> 0 <= cur -> cur <= dec_from cur s.
Proof.
  intros F. revert cur. induction F as [|c s D F IH]; intros cur H; [done|]. unfold dec_from. cbn [fold_left].
  destruct (is_digit_range c D) as [R _]. pose proof (IH (cur * 10 + digit c) ltac:(lia)) as X. unfold dec_from in X. lia.
Qed.

Lemma decimal_dec_from s n : Forall (fun c => is_digit c = true) s ->
  fold_left (fun acc c => match acc with Some n => if is_digit c then Some (n * 10 + digit c) else None | None => None end) s (Some n)
  = Some (dec_from n s).
Proof. intros F. revert n. induction F as [|c s D F IH]; intros n; [done|]. cbn [fold_left]. rewrite D. apply IH. Qed.

Lemma parse_digits s r cur any oct :
  Forall (fun c => is_digit c = true) s -> s <> [] -> 0 <= cur -> dec_from cur s <= 255 ->
  parse_octets (s ++ r) cur any oct = parse_octets r (dec_from cur s) true oct.
Proof.
  intros F. revert cur any. induction F as [|c s D F IH]; intros cur any N H B; [done|]. cbn [app parse_octets].
  destruct (is_digit_range c D) as [R Nc]. rewrite bool_decide_false, D by done.
  unfold dec_from in B |- *. cbn [fold_left] in B |- *. fold (dec_from (cur * 10 + digit c) s) in B |- *.
  pose proof (dec_from_mono s (cur * 10 + digit c) F ltac:(lia)).
  rewrite (proj2 (Z.ltb_ge 255 _)) by lia. destruct s as [|c' s]; [done|]. apply IH; [done|lia|done].
Qed.

Definition octet (v i : Z) : Z := Z.shiftr v (8 * i) mod 256.
Definition dotted (v : Z) : bytes :=
  print (octet v 3) ++ x2e :: print (octet v 2) ++ x2e :: print (octet v 1) ++ x2e :: print (octet v 0).

Lemma octet_bound v i : 0 <= octet v i < 256.
Proof. apply Z.mod_pos_bound. lia. Qed.

Lemma print_octet r any oct v i : parse_octets (print (octet v i) ++ r) 0 any oct = parse_octets r (octet v i) true oct.
Proof.
  pose proof (octet_bound v i) as B. destruct (print_nat_spec 20 (octet v i)) as (A & F & N); [split; [lia|]|lia|].
  { apply Z.lt_trans with 256; [lia|]. vm_compute. done. }
  unfold print. revert A F N. generalize (print_nat 20 (octet v i)). intros p A F N.
  unfold decimal in A. rewrite (decimal_dec_from p 0 F) in A. injection A as A.
  rewrite (parse_digits p r 0 any oct F N); [by rewrite A|lia|lia].
Qed.

(** Evaluate the comparisons of the goal that follow from the context. *)
Ltac decide_comparisons :=
  repeat match goal with
  | |- context [?a <=? ?b] => first [rewrite (proj2 (Z.leb_le a b)) by lia | rewrite (proj2 (Z.leb_gt a b)) by lia]
  | |- context [?a <? ?b] => first [rewrite (proj2 (Z.ltb_lt a b)) by lia | rewrite (proj2 (Z.ltb_ge a b)) by lia]
  end.

Lemma octets_value v : 0 <= v < 2 ^ 32 ->
  Z.lor (Z.lor (Z.shiftl (octet v 3) 24) (Z.shiftl (octet v 2) 16)) (Z.lor (Z.shiftl (octet v 1) 8) (octet v 0)) = v.
Proof.
  intros H. apply Z.bits_inj'. intros n Hn. unfold octet. change 256 with (2 ^ 8). rewrite <- !Z.land_ones by lia.
  rewrite !Z.lor_spec, !Z.shiftl_spec by lia.
  assert (B : forall j sh, 0 <= sh -> Z.testbit (Z.land (Z.shiftr v sh) (Z.ones 8)) j = Z.testbit v (j + sh) && (0 <=? j) && (j <? 8)).
  { intros j sh S. destruct (Z.leb_spec 0 j).
    - rewrite Z.land_spec, Z.shiftr_spec, Z.testbit_ones_nonneg by lia. by rewrite andb_true_r.
    - rewrite Z.testbit_neg_r by lia. by rewrite andb_false_r. }
  rewrite !B by lia. replace (n - 24 + 8 * 3) with n by lia. replace (n - 16 + 8 * 2) with n by lia.
  replace (n - 8 + 8 * 1) with n by lia. replace (n + 8 * 0) with n by lia.
  destruct (Z.ltb_spec n 32) as [L|L].
  - destruct (Z.testbit v n); [|done]. cbn [andb].
    assert (n < 8 \/ 8 <= n < 16 \/ 16 <= n < 24 \/ 24 <= n) as [R|[R|[R|R]]] by lia; decide_comparisons; done.
  - assert (Z.testbit v n = false) as ->; [|done].
    rewrite <- (Z.mod_small v (2 ^ 32)) by lia. apply Z.mod_pow2_bits_high. lia.
Qed.

Lemma parse_dotted v : 0 <= v < 2 ^ 32 -> parse_v4 (dotted v) = Some v.
Proof.
  intros H. unfold parse_v4, dotted. rewrite print_octet. cbn [parse_octets]. rewrite bool_decide_true by done. cbn [andb length Nat.leb app].
  rewrite print_octet. cbn [parse_octets]. rewrite bool_decide_true by done. cbn [andb length Nat.leb app].
  rewrite print_octet. cbn [parse_octets]. rewrite bool_decide_true by done. cbn [andb length Nat.leb app].
  rewrite <- (app_nil_r (print (octet v 0))), print_octet. cbn [parse_octets andb length Nat.leb app]. f_equal. by apply octets_value.
Qed.

(** Masking the low bits off. *)
Lemma land_mask_prefix x k : 0 <= x < 2 ^ 32 -> 0 <= k < 32 ->
  Z.land x (u32 (Z.shiftl 0xFFFFFFFF k)) = Z.shiftl (Z.shiftr x k) k.
Proof.
  intros X K. apply Z.bits_inj'. intros n Hn. change 0xFFFFFFFF with (Z.ones 32). unfold u32.
  rewrite Z.land_spec, Z.shiftl_spec by done. destruct (Z.ltb_spec n 32).
  - rewrite Z.mod_pow2_bits_low, Z.shiftl_spec by lia. destruct (Z.leb_spec k n).
    + rewrite Z.testbit_ones_nonneg, Z.shiftr_spec by lia. replace (n - k + k) with n by lia.
      rewrite (proj2 (Z.ltb_lt _ _)) by lia. apply andb_true_r.
    + rewrite !(Z.testbit_neg_r _ (n - k)) by lia. apply andb_false_r.
  - rewrite Z.mod_pow2_bits_high by lia. rewrite andb_false_r. rewrite Z.shiftr_spec by lia.
    replace (n - k + k) with n by lia. rewrite <- (Z.mod_small x (2 ^ 32)) by lia. symmetry. apply Z.mod_pow2_bits_high. lia.
Qed.

Lemma prefix_mask x y bits : 0 <= x < 2 ^ 32 -> 0 <= y < 2 ^ 32 -> 0 <= bits <= 32 ->
  let mask := if bits =? 0 then 0 else u32 (Z.shiftl 0xFFFFFFFF (32 - bits)) in
  (Z.land x mask =? Z.land y mask) = (Z.shiftr x (32 - bits) =? Z.shiftr y (32 - bits)).
Proof.
  intros X Y B. cbn zeta. destruct (bits =? 0) eqn:E; reflect_bools.
  - subst. rewrite !Z.land_0_r. change (32 - 0) with 32. rewrite !Z.shiftr_div_pow2, !Z.div_small by lia. done.
  - rewrite !land_mask_prefix by lia. apply eq_true_iff_eq. rewrite !Z.eqb_eq. split; [|congruence].
    intros F. apply (f_equal (fun z => Z.shiftr z (32 - bits))) in F. by rewrite !Z.shiftr_shiftl_l, !Z.sub_diag, !Z.shiftl_0_r in F by lia.
Qed.

Definition dotdigit (c : byte) : Prop := is_digit c = true \/ c = x2e.

Lemma print_digits n : 0 <= n < 2 ^ 63 -> decimal (print n) = Some n /\ Forall (fun c => is_digit c = true) (print n) /\ print n <> [].
Proof. intros H. apply print_nat_spec; [split; [lia|]|lia]. apply Z.lt_trans with (2 ^ 63); [lia|vm_compute; done]. Qed.

Lemma dotted_chars v : Forall dotdigit (dotted v).
Proof.
  assert (P : forall i, Forall dotdigit (print (octet v i))).
  { intros i. pose proof (octet_bound v i). destruct (print_digits (octet v i) ltac:(lia)) as (_ & F & _).
    eapply Forall_impl; [exact F|]. intros c. by left. }
  unfold dotted. repeat (apply Forall_app; split; [apply P|]; constructor; [by right|]). apply P.
Qed.

Lemma no_slash v : x2f ∉ dotted v.
Proof.
  intros E. pose proof (dotted_chars v) as F. rewrite Forall_forall in F. destruct (F _ E) as [D|D]; [vm_compute in D; done|done].
Qed.

Lemma print_short n : 0 <= n < 100 -> (length (print n) <= 2)%nat.
Proof.
  intros H. unfold print. cbn [print_nat]. destruct (n <? 10); [cbn; lia|]. rewrite length_app.
  replace (n / 10 <? 10) with true; [cbn; lia|]. symmetry. apply Z.ltb_lt, Z.div_lt_upper_bound; lia.
Qed.

(** A CIDR rule in its usual notation admits exactly the addresses whose
    leading bits are those of its network. *)
Theorem cidr_exact ip net bits :
  0 <= ip < 2 ^ 32 -> 0 <= net < 2 ^ 32 -> 0 <= bits <= 32 ->
  IpInCidr (dotted ip) (dotted net ++ x2f :: print bits) =
  (Z.shiftr net (32 - bits) =? Z.shiftr ip (32 - bits)).
Proof.
  intros I N B. unfold IpInCidr. rewrite split_at_app by apply no_slash. rewrite !parse_dotted by done.
  destruct (print_digits bits ltac:(lia)) as (D & _ & Ne). pose proof (print_short bits ltac:(lia)) as L.
  rewrite D. destruct (print bits) as [|c r] eqn:P; [done|]. cbn [length] in *.
  rewrite (proj2 (Nat.ltb_ge 2 _)) by lia. cbn [Nat.eqb orb]. rewrite (proj2 (Z.ltb_ge 32 bits)) by lia.
  by apply prefix_mask.
Qed.

Lemma cidr_exact_witness :
  IpInCidr (dotted 0x0A010203) (dotted 0x0A000000 ++ x2f :: print 8) = (Z.shiftr 0x0A000000 (32 - 8) =? Z.shiftr 0x0A010203 (32 - 8)) /\
  dotted 0x0A010203 = Mtls.str "10.1.2.3".
Proof. split; [apply (cidr_exact 0x0A010203 0x0A000000 8); lia|vm_compute; reflexivity]. Defined.

(** ** Globs and the gate *)

Lemma Normalize_star s : Normalize (x2a :: s) = x2a :: Normalize s.
Proof.
  unfold Normalize, pop_back_if. cbn [fmap list_fmap]. change (lower x2a) with x2a. cbn [rev].
  destruct (rev (lower <$> s)) as [|x r] eqn:E; [done|]. cbn [app]. case_bool_decide; [|done].
  by rewrite rev_app_distr.
Qed.

Lemma drop_suffix (h suffix : bytes) :
  (length suffix < length h)%nat /\ drop (length h - length suffix) h = suffix <-> exists p, p <> [] /\ h = p ++ suffix.
Proof.
  split.
  - intros [L E]. exists (take (length h - length suffix) h). split.
    + intros X. apply (f_equal length) in X. rewrite length_take in X. cbn in X. lia.
    + rewrite <- E at 2. symmetry. apply take_drop.
  - intros (p & N & ->). rewrite length_app. replace (length p + length suffix - length suffix)%nat with (length p) by lia.
    rewrite drop_app_length. split; [|done]. destruct p; [done|cbn; lia].
Qed.

(** A wildcard admits exactly the strict subdomains of its domain, up to case and a
    final dot. *)
Theorem wildcard_exact h s :
  h <> [] -> (HostMatchesGlob h (x2a :: s) = true <-> exists p, p <> [] /\ Normalize h = p ++ Normalize s).
Proof.
  intros N. unfold HostMatchesGlob. destruct h as [|c h]; [done|]. rewrite Normalize_star.
  destruct (Normalize (c :: h)) as [|c' h'] eqn:E.
  { split; [done|]. intros (p & Np & X). by destruct p. }
  rewrite bool_decide_true by done. rewrite <- drop_suffix. destruct (Nat.leb _ _) eqn:L; reflect_bools.
  - split; [done|]. intros [X _]. lia.
  - rewrite bool_decide_eq_true. split; [intros X; split; [lia|done]|by intros [_ X]].
Qed.

(** The rule of an allow-list token. *)
Definition token_allows (tok h : bytes) : bool := if LooksLikeCidr tok then IpInCidr h tok else HostMatchesGlob h tok.

Lemma Check_BuildPolicy rules ep :
  Check (BuildPolicy rules true) ep = true <->
  host ep <> [] /\ exists tok, tok ∈ rules /\ tok <> [] /\ token_allows tok (host ep) = true.
Proof.
  unfold Check. destruct (host ep) as [|c h] eqn:H; [split; [done|by intros [[] _]]|]. rewrite orb_false_r, existsb_exists.
  rewrite <- H. split.
  - intros (r & R & A). split; [by rewrite H|]. apply list_elem_of_In, list_elem_of_fmap in R as (tok & -> & T).
    apply list_elem_of_filter in T as [Ne T]. exists tok. split; [done|]. split; [done|]. unfold token_allows, rule_allows in *.
    apply andb_true_iff in A as [_ A]. destruct (LooksLikeCidr tok); cbn [host_glob cidr] in A; [by destruct tok|].
    rewrite orb_false_r in A. by destruct tok.
  - intros [_ (tok & T & Ne & A)]. exists (if LooksLikeCidr tok then mkRule [] tok kOther else mkRule tok [] kOther). split.
    + apply list_elem_of_In, list_elem_of_fmap. exists tok. split; [done|]. by apply list_elem_of_filter.
    + unfold token_allows in A. unfold rule_allows. destruct (LooksLikeCidr tok); cbn [host_glob cidr r_purpose]; rewrite A; by destruct tok.
Qed.

(** With Regulated Mode on, the node starts only if every configured outbound
    endpoint has a host that some rule of the operator's allow-list admits, a CIDR
    rule by its block and any other by its glob; everything else is denied. *)
Theorem regulated_gate rules sinks :
  ValidateRegulatedMode (BuildRegulatedModeConfig true rules sinks) = true <->
  forall ep, ep ∈ sinks ->
    host ep <> [] /\ exists tok, tok ∈ rules /\ tok <> [] /\ token_allows tok (host ep) = true.
Proof.
  unfold ValidateRegulatedMode. cbn [BuildRegulatedModeConfig enabled negb allow_rules configured_sinks requirements forallb].
  rewrite andb_true_r, forallb_forall. setoid_rewrite Check_BuildPolicy. setoid_rewrite <- list_elem_of_In. done.
Qed.

(** ** Hosts of URLs *)

Lemma after_last_app c a b : c ∉ b -> after_last c (a ++ c :: b) = b.
Proof.
  intros N. induction a as [|x a IH]; cbn [app after_last].
  - replace (existsb _ b) with false; [by rewrite bool_decide_true|]. symmetry. apply not_true_iff_false.
    rewrite existsb_exists. intros (y & Y & E). reflect_bools. subst. apply N. by apply list_elem_of_In.
  - replace (existsb _ (a ++ c :: b)) with true; [done|]. symmetry. apply existsb_exists. exists c. split; [|by rewrite bool_decide_true].
    apply in_or_app. right. by left.
Qed.

(** The guard is asked about the host that the URL names: for a URL of scheme, user
    information, host, port and path, [HostFromUrl] returns host and port. *)
Theorem HostFromUrl_host h p userinfo path :
  h <> [] -> x2f ∉ h -> x40 ∉ h -> x3a ∉ h -> x2f ∉ userinfo -> 0 < p <= 65535 ->
  HostFromUrl (Mtls.str "https://" ++ userinfo ++ x40 :: h ++ x3a :: print p ++ x2f :: path) = Some (h, p).
Proof.
  intros Nh S A C U P. unfold HostFromUrl. unfold strip at 1. rewrite take_app_length, bool_decide_true by done.
  rewrite drop_app_length. destruct (print_digits p ltac:(lia)) as (D & F & Np).
  assert (Z : forall c, is_digit c = false -> c ∉ print p).
  { intros c E X. rewrite Forall_forall in F. rewrite (F _ X) in E. done. }
  unfold before. replace (userinfo ++ x40 :: h ++ x3a :: print p ++ x2f :: path) with ((userinfo ++ x40 :: h ++ x3a :: print p) ++ x2f :: path)
    by (by rewrite <- app_assoc; cbn; rewrite <- app_assoc).
  rewrite split_at_app.
  2: { rewrite elem_of_app, elem_of_cons, elem_of_app, elem_of_cons. pose proof (Z x2f eq_refl). naive_solver. }
  assert (E : after_last x40 (userinfo ++ x40 :: h ++ x3a :: print p) = h ++ x3a :: print p).
  { apply after_last_app. rewrite elem_of_app, elem_of_cons. pose proof (Z x40 eq_refl). naive_solver. }
  destruct (userinfo ++ x40 :: h ++ x3a :: print p) eqn:X; [by destruct userinfo|]. rewrite E.
  destruct (h ++ x3a :: print p) eqn:Y; [by destruct h|]. rewrite <- Y, split_at_app by done.
  destruct (print p); [done|]. rewrite D. destruct h; [done|].
  rewrite (proj2 (Z.leb_gt p 0)), (proj2 (Z.ltb_ge 65535 p)) by lia. done.
Qed.

(** A question mark also ends the authority of a URL; the parser reads on to the
    slash, and names a host that the request does not go to. *)
Example query_hides_host :
  HostFromUrl (Mtls.str "https://other.example?@allowed.example/x") = Some (Mtls.str "allowed.example", 443).
Proof. vm_compute. reflexivity. Qed.

End Boundary.
