(* ===== verification/ColdTier.v ===== *)
(** * Cold tiers

    The cold tier of tier/cold_tier.cpp: the interface [IColdTier], the backend
    over a POSIX directory ([FilesystemColdTier]) and over an HTTP object store
    ([RestColdTier], rest_cold_tier.cpp), and the decorators that compress
    (compressing_cold_tier.cpp, block_codec.cpp), encrypt
    (encrypting_cold_tier.cpp) and count (metrics_cold_tier.cpp), stacked by
    [CreateColdTier].

    A tier is a record of operations on a state, each with the outcome of the
    system calls it makes. [Laws] says what a tier promises: what it holds is a
    partial map from keys to payloads, a successful [Put] stores, [Get] returns
    nothing else, and without faults both succeed. The backends satisfy the laws
    and the decorators preserve them, so every stack the factory builds does. Zstd,
    AES-256-GCM and the object store are parameters with their documented
    behaviour as hypotheses. *)

From S2P Require Import Prelude Mtls BlobStore Boundary.
From Stdlib Require Import ZArith Lia.

Open Scope Z_scope.

Module Cold.

(** ** The interface *)

(** A failed [Get] reports whether it left the error message empty. *)
Inductive get_result := GetOk (d : bytes) | GetFail (err_empty : bool).

Record IColdTier := mkCold {
  St : Type;
  Io : Type;
  Put : Io -> bytes -> bytes -> St -> bool * St;
  Get : Io -> bytes -> St -> get_result * St;
  Delete : Io -> bytes -> St -> bool * St;
  Exists : Io -> bytes -> St -> bool * St }.

(** A [DramKey]. *)
Definition key_ok (k : bytes) : Prop := length k = 16%nat.

Class Laws (T : IColdTier) := {
  view : St T -> bytes -> option bytes;
  fits : bytes -> Prop;
  quiet : Io T -> Prop;
  put_stored io k d s s' : key_ok k -> fits d -> Put T io k d s = (true, s') -> view s' k = Some d;
  put_failed io k d s s' : key_ok k -> fits d -> Put T io k d s = (false, s') ->
    view s' k = view s k \/ view s' k = Some d;
  put_others io k d s k' : key_ok k -> key_ok k' -> k' <> k -> view (Put T io k d s).2 k' = view s k';
  put_quiet io k d s : key_ok k -> fits d -> quiet io -> (Put T io k d s).1 = true;
  get_sound io k s d : key_ok k -> (Get T io k s).1 = GetOk d -> view s k = Some d;
  get_quiet io k s d : key_ok k -> quiet io -> view s k = Some d -> (Get T io k s).1 = GetOk d;
  get_keeps io k s k' : key_ok k' -> view (Get T io k s).2 k' = view s k';
  delete_gone io k s s' : key_ok k -> Delete T io k s = (true, s') -> view s' k = None;
  delete_kept io k s : key_ok k -> view (Delete T io k s).2 k = None \/ view (Delete T io k s).2 k = view s k;
  delete_others io k s k' : key_ok k -> key_ok k' -> k' <> k -> view (Delete T io k s).2 k' = view s k';
  exists_quiet io k s d : key_ok k -> quiet io -> view s k = Some d -> (Exists T io k s).1 = true }.

(** ** FilesystemColdTier *)

Definition PathFor (root k : bytes) : bytes :=
  let h := Blob.hex k in root ++ Mtls.str "/" ++ take 2 h ++ Mtls.str "/" ++ drop 2 h ++ Mtls.str ".kv".

(** The outcomes of the system calls of one operation; [f_write] is the number of
    bytes written before an error. *)
Record fs_io := mkFsIo {
  f_open : bool; f_write : option nat; f_fsync : bool; f_rename : bool; f_unlink : bool; f_stat : bool; f_read : bool }.

(** The regular files of the file system, by path. *)
Notation Files := (gmap bytes bytes).

Definition remove_tmp (io : fs_io) (tmp : bytes) (f : Files) : Files := if f_unlink io then delete tmp f else f.

Section Filesystem.
Variables (root : bytes) (fsync_on_put : bool).

Definition fs_put (io : fs_io) (k d : bytes) (f : Files) : bool * Files :=
  let final_path := PathFor root k in
  let tmp := final_path ++ Mtls.str ".tmp" in
  if negb (f_open io) then (false, f)
  else
    match f_write io with
    | Some n => (false, remove_tmp io tmp (<[tmp := take n d]> f))
    | None =>
        let f1 := <[tmp := d]> f in
        if fsync_on_put && negb (f_fsync io) then (false, remove_tmp io tmp f1)
        else if f_rename io then (true, <[final_path := d]> (delete tmp f1))
        else (false, remove_tmp io tmp f1)
    end.

Definition fs_get (io : fs_io) (k : bytes) (f : Files) : get_result * Files :=
  match f !! PathFor root k with
  | None => (GetFail false, f)
  | Some d => (if f_open io && f_stat io && f_read io then GetOk d else GetFail false, f)
  end.

Definition fs_delete (io : fs_io) (k : bytes) (f : Files) : bool * Files :=
  match f !! PathFor root k with
  | None => (false, f)
  | Some _ => if f_unlink io then (true, delete (PathFor root k) f) else (false, f)
  end.

Definition fs_exists (io : fs_io) (k : bytes) (f : Files) : bool * Files :=
  (match f !! PathFor root k with Some _ => f_stat io | None => false end, f).

Definition FilesystemColdTier : IColdTier := mkCold Files fs_io fs_put fs_get fs_delete fs_exists.

Definition fs_quiet (io : fs_io) : Prop :=
  f_open io = true /\ f_write io = None /\ f_fsync io = true /\ f_rename io = true /\ f_stat io = true /\ f_read io = true.

Lemma length_hex k : length (Blob.hex k) = (2 * length k)%nat.
Proof. unfold Blob.hex. induction k as [|b k IH]; [done|]. cbn [fmap list_fmap concat length app]. rewrite length_app, IH. cbn. lia. Qed.

Lemma length_path k : key_ok k -> length (PathFor root k) = (length root + 37)%nat.
Proof.
  intros K. unfold PathFor. rewrite !length_app, length_take, length_drop, length_hex, K. cbn. lia.
Qed.

Lemma path_inj k k' : key_ok k -> key_ok k' -> PathFor root k = PathFor root k' -> k = k'.
Proof.
  intros K K' E. unfold PathFor in E. apply app_inv_head in E. apply app_inv_head in E.
  apply app_inj_1 in E as [E1 E]; [|by rewrite !length_take, !length_hex, K, K'].
  apply app_inv_head in E. apply app_inv_tail in E. apply Blob.hex_inj.
  rewrite <- (take_drop 2 (Blob.hex k)), <- (take_drop 2 (Blob.hex k')). congruence.
Qed.

Lemma path_not_tmp k k' : key_ok k -> key_ok k' -> PathFor root k <> PathFor root k' ++ Mtls.str ".tmp".
Proof.
  intros K K' E. apply (f_equal length) in E. rewrite length_app, !length_path in E by done. cbn in E. lia.
Qed.

(** The temporary file of a key is no key's file. *)
Lemma tmp_invisible (io : fs_io) (k k' v : bytes) (f : Files) :
  key_ok k -> key_ok k' ->
  remove_tmp io (PathFor root k ++ Mtls.str ".tmp") (<[PathFor root k ++ Mtls.str ".tmp" := v]> f) !! PathFor root k' =
  f !! PathFor root k'.
Proof.
  intros K K'. pose proof (path_not_tmp k' k K' K) as N. unfold remove_tmp.
  destruct (f_unlink io); [rewrite lookup_delete_ne by congruence|]; by rewrite lookup_insert_ne by congruence.
Qed.

Lemma fs_put_view (io : fs_io) (k d : bytes) (f : Files) (k' : bytes) :
  key_ok k -> key_ok k' ->
  (fs_put io k d f).2 !! PathFor root k' =
  if (fs_put io k d f).1 then (if decide (k' = k) then Some d else f !! PathFor root k') else f !! PathFor root k'.
Proof.
  intros K K'. unfold fs_put. destruct (f_open io); [|done]. cbn [negb].
  destruct (f_write io); cbn [fst snd]; [by apply tmp_invisible|].
  destruct (_ && _); cbn [fst snd]; [by apply tmp_invisible|]. destruct (f_rename io); cbn [fst snd]; [|by apply tmp_invisible].
  case_decide as E; [subst; apply lookup_insert_eq|].
  rewrite lookup_insert_ne by (intros X; apply E; by apply path_inj).
  pose proof (path_not_tmp k' k K' K). rewrite lookup_delete_ne, lookup_insert_ne by congruence. done.
Qed.

Lemma fs_delete_view (io : fs_io) (k : bytes) (f : Files) (k' : bytes) :
  key_ok k -> key_ok k' ->
  (fs_delete io k f).2 !! PathFor root k' =
  if (fs_delete io k f).1 then (if decide (k' = k) then None else f !! PathFor root k') else f !! PathFor root k'.
Proof.
  intros K K'. unfold fs_delete. destruct (f !! PathFor root k); [|done]. destruct (f_unlink io); [|done]. cbn [fst snd].
  case_decide as E; [subst; apply lookup_delete_eq|]. apply lookup_delete_ne. intros X. apply E. by apply path_inj.
Qed.

#[export] Program Instance Filesystem_laws : Laws FilesystemColdTier := {|
  view := fun (s : St FilesystemColdTier) k => (s : Files) !! PathFor root k;
  fits := fun _ => True;
  quiet := fs_quiet |}.
Next Obligation. intros io k d s s' K _ E. change (fs_put io k d s = (true, s')) in E. pose proof (fs_put_view io k d s k K K) as V. rewrite E in V. cbn in V. by rewrite decide_True in V. Qed.
Next Obligation. intros io k d s s' K _ E. change (fs_put io k d s = (false, s')) in E. pose proof (fs_put_view io k d s k K K) as V. rewrite E in V. by left. Qed.
Next Obligation. intros io k d s k' K K' N. cbn. rewrite fs_put_view by done. rewrite decide_False by done. by destruct (fs_put _ _ _ _).1. Qed.
Next Obligation.
  intros io k d s K _ (O & W & F & R & _). cbn. unfold fs_put. rewrite O, W, F, R. cbn. by rewrite andb_false_r.
Qed.
Next Obligation. intros io k s d K E. cbn in *. unfold fs_get in E. destruct (_ !! PathFor root k); [|discriminate]. cbn in E. by destruct (_ && _ && _); [injection E as ->|]. Qed.
Next Obligation. intros io k s d K (O & W & F & R & T & D) V. cbn in *. unfold fs_get. by rewrite V, O, T, D. Qed.
Next Obligation. intros io k s k' _. cbn. unfold fs_get. by destruct (_ !! PathFor root k). Qed.
Next Obligation. intros io k s s' K E. pose proof (fs_delete_view io k s k K K) as V. change (fs_delete io k s = (true, s')) in E. rewrite E in V. cbn in V. by rewrite decide_True in V. Qed.
Next Obligation. intros io k s K. cbn. rewrite fs_delete_view by done. destruct (fs_delete io k s).1; [left; by rewrite decide_True|by right]. Qed.
Next Obligation. intros io k s k' K K' N. cbn. rewrite fs_delete_view by done. rewrite decide_False by done. by destruct (fs_delete io k s).1. Qed.
Next Obligation. intros io k s d K (O & W & F & R & T & D) V. cbn in *. unfold fs_exists. by rewrite V. Qed.

End Filesystem.

(** ** RestColdTier *)

Inductive Method := PUT | GET | DELETE | HEAD.

(** [HttpResult]: a transport error, or a status and a body. *)
Inductive HttpResult := TransportErr | HttpStatus (status : Z) (body : bytes).

(** [IHttpTransport]: one request, which may change the world behind it. *)
Record IHttpTransport := mkHttp {
  World : Type; Net : Type; Request : Net -> Method -> bytes -> bytes -> World -> HttpResult * World }.

Definition is_2xx (status : Z) : bool := negb (status <? 200) && (status <? 300).

Record rest_options := mkRest { base_url : bytes; key_prefix : bytes }.

Definition TrimTrailingSlash (s : bytes) : bytes :=
  match rev s with x2f :: r => rev r | _ => s end.

Section Rest.
Variables (http : IHttpTransport) (opts : rest_options).

Definition ObjectKeyFor (k : bytes) : bytes :=
  let h := Blob.hex k in key_prefix opts ++ take 2 h ++ Mtls.str "/" ++ drop 2 h ++ Mtls.str ".kv".

Definition UrlFor (k : bytes) : bytes := base_url opts ++ Mtls.str "/" ++ ObjectKeyFor k.

Definition rest_put (io : Net http) (k d : bytes) (w : World http) : bool * World http :=
  let '(r, w') := Request http io PUT (UrlFor k) d w in
  (match r with TransportErr => false | HttpStatus st _ => is_2xx st end, w').

Definition rest_get (io : Net http) (k : bytes) (w : World http) : get_result * World http :=
  let '(r, w') := Request http io GET (UrlFor k) [] w in
  (match r with
   | TransportErr => GetFail false
   | HttpStatus st body => if st =? 404 then GetFail true else if is_2xx st then GetOk body else GetFail false
   end, w').

Definition rest_delete (io : Net http) (k : bytes) (w : World http) : bool * World http :=
  let '(r, w') := Request http io DELETE (UrlFor k) [] w in
  (match r with TransportErr => false | HttpStatus st _ => (st =? 404) || is_2xx st end, w').

Definition rest_exists (io : Net http) (k : bytes) (w : World http) : bool * World http :=
  let '(r, w') := Request http io HEAD (UrlFor k) [] w in
  (match r with TransportErr => false | HttpStatus st _ => is_2xx st end, w').

Definition RestColdTier : IColdTier := mkCold (World http) (Net http) rest_put rest_get rest_delete rest_exists.

(** What an object store does: the object of a URL is stored by an accepted PUT,
    returned by GET, gone after an accepted or needless DELETE; a failed PUT or
    DELETE may have taken effect or not; no request changes another object. *)
Variable object : World http -> bytes -> option bytes.
Variable net_quiet : Net http -> Prop.

Definition accepted (r : HttpResult) : Prop := exists st body, r = HttpStatus st body /\ is_2xx st = true.

Record object_store : Prop := {
  o_put io u d w : accepted (Request http io PUT u d w).1 -> object (Request http io PUT u d w).2 u = Some d;
  o_put_any io u d w : object (Request http io PUT u d w).2 u = object w u \/ object (Request http io PUT u d w).2 u = Some d;
  o_get io u w st body : (Request http io GET u [] w).1 = HttpStatus st body -> is_2xx st = true -> object w u = Some body;
  o_read io m u w u' : m = GET \/ m = HEAD -> object (Request http io m u [] w).2 u' = object w u';
  o_del io u w : accepted (Request http io DELETE u [] w).1 \/ (exists body, (Request http io DELETE u [] w).1 = HttpStatus 404 body) ->
    object (Request http io DELETE u [] w).2 u = None;
  o_del_any io u w : object (Request http io DELETE u [] w).2 u = object w u \/ object (Request http io DELETE u [] w).2 u = None;
  o_others io m u d w u' : u' <> u -> object (Request http io m u d w).2 u' = object w u';
  o_quiet_put io u d w : net_quiet io -> accepted (Request http io PUT u d w).1;
  o_quiet_get io u w d : net_quiet io -> object w u = Some d -> exists st, (Request http io GET u [] w).1 = HttpStatus st d /\ is_2xx st = true;
  o_quiet_head io u w d : net_quiet io -> object w u = Some d -> accepted (Request http io HEAD u [] w).1 }.

Hypothesis store : object_store.

Lemma url_inj k k' : key_ok k -> key_ok k' -> UrlFor k = UrlFor k' -> k = k'.
Proof.
  intros K K' E. unfold UrlFor, ObjectKeyFor in E. apply app_inv_head in E. apply app_inv_head in E. apply app_inv_head in E.
  apply app_inj_1 in E as [E1 E]; [|by rewrite !length_take, !length_hex, K, K'].
  apply app_inv_head in E. apply app_inv_tail in E. apply Blob.hex_inj.
  rewrite <- (take_drop 2 (Blob.hex k)), <- (take_drop 2 (Blob.hex k')). congruence.
Qed.

Lemma accepted_status r : accepted r <-> match r with TransportErr => False | HttpStatus st _ => is_2xx st = true end.
Proof. split; [by intros (st & b & -> & H)|]. destruct r; [done|]. intros H. by eexists _, _. Qed.

#[export] Program Instance Rest_laws : Laws RestColdTier := {|
  view := fun s k => object s (UrlFor k);
  fits := fun _ => True;
  quiet := net_quiet |}.
Next Obligation.
  intros io k d w w' K _ E. cbn in *. unfold rest_put in E. pose proof (o_put store io (UrlFor k) d w) as H. rewrite accepted_status in H.
  destruct (Request _ _ _ _ _ _) as [r w1]. injection E as E <-. apply H. by destruct r.
Qed.
Next Obligation.
  intros io k d w w' K _ E. cbn in *. unfold rest_put in E. pose proof (o_put_any store io (UrlFor k) d w) as H.
  destruct (Request _ _ _ _ _ _) as [r w1]. by injection E as E <-.
Qed.
Next Obligation.
  intros io k d w k' K K' N. cbn. unfold rest_put. pose proof (o_others store io PUT (UrlFor k) d w (UrlFor k')) as H.
  destruct (Request _ _ _ _ _ _) as [r w1]. apply H. intros E. apply N. by apply url_inj.
Qed.
Next Obligation.
  intros io k d w K _ Q. cbn. unfold rest_put. pose proof (o_quiet_put store io (UrlFor k) d w Q) as H. rewrite accepted_status in H.
  destruct (Request _ _ _ _ _ _) as [r w1]. by destruct r.
Qed.
Next Obligation.
  intros io k w d K E. cbn in *. unfold rest_get in E. pose proof (o_get store io (UrlFor k) w) as H.
  destruct (Request _ _ _ _ _ _) as [[|st b] w1]; cbn in E; [done|]. destruct (st =? 404); [done|].
  destruct (is_2xx st) eqn:S; [|done]. injection E as <-. by apply (H st b).
Qed.
Next Obligation.
  intros io k w d K Q V. cbn in *. unfold rest_get. destruct (o_quiet_get store io (UrlFor k) w d Q V) as (st & E & S).
  destruct (Request _ _ _ _ _ _) as [r w1]. cbn in *. subst r. rewrite S. destruct (st =? 404) eqn:F; [|done].
  reflect_bools. subst. discriminate.
Qed.
Next Obligation.
  intros io k w k' _. cbn. unfold rest_get. pose proof (o_read store io GET (UrlFor k) w (UrlFor k') (or_introl eq_refl)) as H.
  by destruct (Request _ _ _ _ _ _) as [r w1].
Qed.
Next Obligation.
  intros io k w w' K E. cbn in *. unfold rest_delete in E. pose proof (o_del store io (UrlFor k) w) as H. rewrite accepted_status in H.
  destruct (Request _ _ _ _ _ _) as [r w1]. injection E as E <-. apply H. cbn. destruct r as [|st b]; [done|].
  apply orb_true_iff in E as [E|E]; [|by left]. reflect_bools. subst. right. by exists b.
Qed.
Next Obligation.
  intros io k w K. cbn. unfold rest_delete. pose proof (o_del_any store io (UrlFor k) w) as H.
  destruct (Request _ _ _ _ _ _) as [r w1]. cbn in *. tauto.
Qed.
Next Obligation.
  intros io k w k' K K' N. cbn. unfold rest_delete. pose proof (o_others store io DELETE (UrlFor k) [] w (UrlFor k')) as H.
  destruct (Request _ _ _ _ _ _) as [r w1]. apply H. intros E. apply N. by apply url_inj.
Qed.
Next Obligation.
  intros io k w d K Q V. cbn in *. unfold rest_exists. pose proof (o_quiet_head store io (UrlFor k) w d Q V) as H. rewrite accepted_status in H.
  destruct (Request _ _ _ _ _ _) as [r w1]. by destruct r.
Qed.

End Rest.

(** ** Block codecs *)

Definition kIdentity : Z := 0.
Definition kZstd : Z := 1.

Record IBlockCodec := mkCodec {
  Id : Z; Compress : bytes -> option bytes; Decompress : bytes -> Z -> option bytes }.

Definition IdentityCodec : IBlockCodec :=
  mkCodec kIdentity (fun d => Some d) (fun c orig_size => if negb (zlen c =? orig_size) then None else Some c).

(** libzstd: one-shot compression, the content size a frame declares, and
    decompression into a buffer of a given size. *)
Record libzstd := mkZstd {
  ZSTD_compress : Z -> bytes -> option bytes;
  ZSTD_getFrameContentSize : bytes -> option Z;
  ZSTD_decompress : Z -> bytes -> option bytes }.

Definition ZstdCodec (z : libzstd) (level : Z) : IBlockCodec :=
  mkCodec kZstd (ZSTD_compress z level)
    (fun c orig_size =>
       match ZSTD_getFrameContentSize z c with
       | None => None
       | Some fcs =>
           if negb (fcs =? orig_size) then None
           else match ZSTD_decompress z orig_size c with
                | Some d => if zlen d =? orig_size then Some d else None
                | None => None
                end
       end).

(** A frame declares the size of what was compressed and decompresses to it. *)
Definition zstd_ok (z : libzstd) : Prop :=
  forall level d c, ZSTD_compress z level d = Some c ->
    ZSTD_getFrameContentSize z c = Some (zlen d) /\ ZSTD_decompress z (zlen d) c = Some d.

Definition codec_ok (c : IBlockCodec) : Prop :=
  0 <= Id c < 256 /\ (Id c = kIdentity -> c = IdentityCodec) /\ forall d p, Compress c d = Some p -> Decompress c p (zlen d) = Some d.

Lemma Identity_ok : codec_ok IdentityCodec.
Proof. split; [done|]. split; [done|]. intros d p [= <-]. cbn. by rewrite Z.eqb_refl. Qed.

Lemma Zstd_ok z level : zstd_ok z -> codec_ok (ZstdCodec z level).
Proof.
  intros Z. split; [done|]. split; [done|]. intros d p E. cbn in *. destruct (Z _ _ _ E) as [-> ->].
  by rewrite Z.eqb_refl.
Qed.

(** [MakeCodec]; [zstd] is absent in a build without it. *)
Definition MakeCodec (zstd : option libzstd) (name : bytes) (level : Z) : option IBlockCodec :=
  if bool_decide (name = Mtls.str "none") || bool_decide (name = Mtls.str "identity") then Some IdentityCodec
  else if bool_decide (name = Mtls.str "zstd") then (fun z => ZstdCodec z level) <$> zstd
  else None.

(** ** CompressingColdTier *)

Definition kHeaderSize : nat := 16.
Definition kMagic : bytes := Mtls.str "KVB1".

Definition WriteHeader (id orig_size : Z) : bytes := kMagic ++ [byte_of id; x00; x00; x00] ++ put_le 8 orig_size.

Definition ReadHeader (blob : bytes) : option (Z * Z) :=
  if Nat.ltb (length blob) kHeaderSize then None
  else if negb (bool_decide (take 4 blob = kMagic)) then None
  else Some (byte_val (nth 4 blob x00), get_le (take 8 (drop 8 blob))).

Lemma Read_WriteHeader id orig_size p :
  0 <= id < 256 -> 0 <= orig_size < 2 ^ 64 -> ReadHeader (WriteHeader id orig_size ++ p) = Some (id, orig_size).
Proof.
  intros I O. unfold ReadHeader, WriteHeader. rewrite <- !app_assoc.
  assert (Nat.ltb (length (kMagic ++ [byte_of id; x00; x00; x00] ++ put_le 8 orig_size ++ p)) kHeaderSize = false) as ->
    by (rewrite !length_app, length_put_le; reflexivity).
  change (take 4 _) with kMagic. rewrite bool_decide_true by done. cbn [negb].
  change (nth 4 _ x00) with (byte_of id). change (drop 8 _) with (put_le 8 orig_size ++ p).
  rewrite byte_val_of, Z.mod_small by lia. do 2 f_equal.
  rewrite <- (length_put_le 8 orig_size) at 1. rewrite take_app_length, get_put_le. apply Z.mod_small. exact O.
Qed.

Lemma drop_header id n p : drop kHeaderSize (WriteHeader id n ++ p) = p.
Proof. apply (drop_app_length' (WriteHeader id n) p kHeaderSize). unfold WriteHeader. by rewrite !length_app, length_put_le. Qed.

Section Compressing.
Variables (inner : IColdTier) (write_codec : IBlockCodec).

Definition CodecForId (id : Z) : option IBlockCodec :=
  if id =? kIdentity then Some IdentityCodec
  else if id =? Id write_codec then Some write_codec
  else None.

Definition frame (n : Z) (payload : bytes) : bytes := WriteHeader (Id write_codec) n ++ payload.

(** What [Get] makes of a blob. *)
Definition unframe (blob : bytes) : option bytes :=
  match ReadHeader blob with
  | None => None
  | Some (id, orig_size) =>
      match CodecForId id with
      | None => None
      | Some codec => Decompress codec (drop kHeaderSize blob) orig_size
      end
  end.

Definition c_put (io : Io inner) (k d : bytes) (s : St inner) : bool * St inner :=
  match Compress write_codec d with
  | None => (false, s)
  | Some payload => Put inner io k (frame (zlen d) payload) s
  end.

Definition c_get (io : Io inner) (k : bytes) (s : St inner) : get_result * St inner :=
  match Get inner io k s with
  | (GetFail e, s') => (GetFail e, s')
  | (GetOk blob, s') => (match unframe blob with Some d => GetOk d | None => GetFail false end, s')
  end.

Definition CompressingColdTier : IColdTier :=
  mkCold (St inner) (Io inner) c_put c_get (Delete inner) (Exists inner).

Context `{L : !Laws inner} (C : codec_ok write_codec).

Lemma unframe_frame d p :
  zlen d < 2 ^ 64 -> Compress write_codec d = Some p -> unframe (frame (zlen d) p) = Some d.
Proof using C.
  intros B E. destruct C as (I & Z0 & R). unfold unframe, frame. rewrite Read_WriteHeader by lia. rewrite drop_header.
  unfold CodecForId. destruct (Id write_codec =? kIdentity) eqn:Z.
  - reflect_bools. rewrite <- Z0 by done. by apply R.
  - rewrite Z.eqb_refl. by apply R.
Qed.

(** Compression fails on no payload that fits, and the framed payload fits below. *)
Definition c_fits (d : bytes) : Prop :=
  zlen d < 2 ^ 64 /\ exists p, Compress write_codec d = Some p /\ fits (T := inner) (frame (zlen d) p).

#[export] Program Instance Compressing_laws : Laws CompressingColdTier := {|
  view := fun s k => view (T := inner) s k ≫= unframe;
  fits := c_fits;
  quiet := fun io => quiet (T := inner) io |}.
Next Obligation.
  intros io k d s s' K (B & p & E & F) P. cbn in *. unfold c_put in P. rewrite E in P.
  rewrite (put_stored (T := inner) io k _ s s' K F P). cbn. by apply unframe_frame.
Qed.
Next Obligation.
  intros io k d s s' K (B & p & E & F) P. cbn in *. unfold c_put in P. rewrite E in P.
  destruct (put_failed (T := inner) io k _ s s' K F P) as [-> | ->]; [by left|right]. by apply unframe_frame.
Qed.
Next Obligation.
  intros io k d s k' K K' N. cbn. unfold c_put. destruct (Compress _ _); [|done]. by rewrite (put_others (T := inner)).
Qed.
Next Obligation.
  intros io k d s K (B & p & E & F) Q. cbn. unfold c_put. rewrite E. by apply (put_quiet (T := inner)).
Qed.
Next Obligation.
  intros io k s d K E. cbn in *. unfold c_get in E. pose proof (get_sound (T := inner) io k s) as H.
  destruct (Get _ _ _ _) as [[b|e] s1]; cbn in E; [|done]. rewrite (H b K eq_refl). cbn.
  by destruct (unframe b); [injection E as ->|].
Qed.
Next Obligation.
  intros io k s d K Q V. cbn in *. unfold c_get. destruct (view (T := inner) s k) as [b|] eqn:E; [|done]. cbn in V.
  pose proof (get_quiet (T := inner) io k s b K Q E) as H. destruct (Get _ _ _ _) as [r s1]. cbn in H. subst r. by rewrite V.
Qed.
Next Obligation.
  intros io k s k' K'. cbn. unfold c_get. pose proof (get_keeps (T := inner) io k s k' K') as H.
  destruct (Get _ _ _ _) as [[b|e] s1]; cbn in *; by rewrite H.
Qed.
Next Obligation. intros io k s s' K E. cbn in *. by rewrite (delete_gone (T := inner) io k s s' K E). Qed.
Next Obligation. intros io k s K. cbn. destruct (delete_kept (T := inner) io k s K) as [-> | ->]; [by left|by right]. Qed.
Next Obligation. intros io k s k' K K' N. cbn. by rewrite (delete_others (T := inner)). Qed.
Next Obligation.
  intros io k s d K Q V. cbn in *. destruct (view (T := inner) s k) as [b|] eqn:E; [|done]. by apply (exists_quiet (T := inner) io k s b).
Qed.

End Compressing.

(** ** EncryptingColdTier *)

(** [static_cast<int>] of a size. *)
Definition i32 (n : Z) : Z := let m := n mod 2 ^ 32 in if m <? 2 ^ 31 then m else m - 2 ^ 32.

(** AES-256-GCM of OpenSSL: ciphertext and tag under a key and a nonce, and back. *)
Record aes_gcm := mkAes {
  Seal : bytes -> bytes -> bytes -> option (bytes * bytes);
  Unseal : bytes -> bytes -> bytes -> bytes -> option bytes }.

Definition aes_ok (a : aes_gcm) : Prop :=
  forall key nonce pt ct tag, Seal a key nonce pt = Some (ct, tag) ->
    length ct = length pt /\ length tag = 16%nat /\ Unseal a key nonce ct tag = Some pt.

Definition eMagic : bytes := Mtls.str "KVE1".
Definition eHeaderSize : nat := 36.

(** The length [EVP_EncryptUpdate] is given, when it accepts it. *)
Definition evp_len (n : Z) : option nat := if i32 n <? 0 then None else Some (Z.to_nat (i32 n)).

Section Encrypting.
Variables (inner : IColdTier) (aes : aes_gcm) (key : bytes).

Definition seal_blob (nonce d : bytes) : option bytes :=
  match evp_len (zlen d) with
  | None => None
  | Some m =>
      match Seal aes key nonce (take m d) with
      | None => None
      | Some (ct, tag) => Some (eMagic ++ [x01; x00; x00; x00] ++ nonce ++ tag ++ ct ++ replicate (length d - length ct) x00)
      end
  end.

Definition unseal_blob (blob : bytes) : option bytes :=
  if Nat.ltb (length blob) eHeaderSize || negb (bool_decide (take 4 blob = eMagic)) then None
  else if negb (byte_val (nth 4 blob x00) =? 1) then None
  else
    let nonce := take 12 (drop 8 blob) in
    let tag := take 16 (drop 20 blob) in
    let ct := drop eHeaderSize blob in
    match evp_len (zlen ct) with
    | None => None
    | Some m =>
        match Unseal aes key nonce (take m ct) tag with
        | None => None
        | Some pt => Some (pt ++ replicate (length ct - length pt) x00)
        end
    end.

(** The twelve bytes [RAND_bytes] writes over the zeroed nonce, if it does. *)
Definition nonce_of (rand : bytes) : bytes := take 12 (rand ++ replicate 12 x00).

Definition e_put (io : option bytes * Io inner) (k d : bytes) (s : St inner) : bool * St inner :=
  match io.1 with
  | None => (false, s)
  | Some rand => match seal_blob (nonce_of rand) d with None => (false, s) | Some blob => Put inner io.2 k blob s end
  end.

Definition e_get (io : option bytes * Io inner) (k : bytes) (s : St inner) : get_result * St inner :=
  match Get inner io.2 k s with
  | (GetFail e, s') => (GetFail e, s')
  | (GetOk blob, s') => (match unseal_blob blob with Some d => GetOk d | None => GetFail false end, s')
  end.

Definition EncryptingColdTier : IColdTier :=
  mkCold (St inner) (option bytes * Io inner) e_put e_get
    (fun io => Delete inner io.2) (fun io => Exists inner io.2).

Context `{L : !Laws inner} (A : aes_ok aes).

Lemma evp_len_small n : 0 <= n < 2 ^ 31 -> evp_len n = Some (Z.to_nat n).
Proof.
  intros H. unfold evp_len, i32. rewrite Z.mod_small by lia. rewrite (proj2 (Z.ltb_lt n (2 ^ 31))) by lia.
  by rewrite (proj2 (Z.ltb_ge n 0)) by lia.
Qed.

(** A payload below 2 GiB comes back from its blob. *)
Lemma unseal_seal nonce d blob :
  length nonce = 12%nat -> zlen d < 2 ^ 31 -> seal_blob nonce d = Some blob -> unseal_blob blob = Some d.
Proof using A.
  intros N B E. unfold seal_blob in E. rewrite evp_len_small in E by lia. rewrite Nat2Z.id, firstn_all in E.
  destruct (Seal aes key nonce d) as [[ct tag]|] eqn:S; [|done]. injection E as <-.
  destruct (A _ _ _ _ _ S) as (Lc & Lt & U). rewrite Lc, Nat.sub_diag. cbn [replicate]. rewrite app_nil_r.
  pose (hd := eMagic ++ [x01; x00; x00; x00]). change (unseal_blob (hd ++ nonce ++ tag ++ ct) = Some d).
  unfold unseal_blob.
  assert (Lb : length (hd ++ nonce ++ tag ++ ct) = (36 + length ct)%nat) by (rewrite !length_app, N, Lt; done).
  rewrite Lb. replace (Nat.ltb (36 + length ct) eHeaderSize) with false by (symmetry; apply Nat.ltb_ge; unfold eHeaderSize; lia).
  change (take 4 _) with eMagic. rewrite bool_decide_true by done. cbn [orb negb].
  change (byte_val (nth 4 _ x00) =? 1) with true. cbn [negb].
  change (drop 8 (hd ++ nonce ++ tag ++ ct)) with (nonce ++ tag ++ ct).
  rewrite (take_app_length' nonce _ 12) by done.
  assert (D1 : drop 20 (hd ++ nonce ++ tag ++ ct) = tag ++ ct).
  { rewrite app_assoc. apply drop_app_length'. rewrite length_app, N. done. }
  assert (D2 : drop eHeaderSize (hd ++ nonce ++ tag ++ ct) = ct).
  { rewrite app_assoc, (app_assoc (hd ++ nonce)). apply drop_app_length'. rewrite !length_app, N, Lt. done. }
  rewrite D1, D2, (take_app_length' tag _ 16) by done. rewrite evp_len_small by lia.
  rewrite Nat2Z.id, firstn_all, U, Lc, Nat.sub_diag. cbn. by rewrite app_nil_r.
Qed.

(** Sealing succeeds on a payload that fits, and the blob fits below. *)
Definition e_fits (d : bytes) : Prop :=
  zlen d < 2 ^ 31 /\ forall nonce, length nonce = 12%nat -> exists blob, seal_blob nonce d = Some blob /\ fits (T := inner) blob.

Lemma length_nonce rand : length (nonce_of rand) = 12%nat.
Proof. unfold nonce_of. rewrite length_take, length_app, length_replicate. lia. Qed.

#[export] Program Instance Encrypting_laws : Laws EncryptingColdTier := {|
  view := fun s k => view (T := inner) s k ≫= unseal_blob;
  fits := e_fits;
  quiet := fun io => io.1 <> None /\ quiet (T := inner) io.2 |}.
Next Obligation.
  intros [r io] k d s s' K [B F] P. cbn in *. unfold e_put in P. destruct r as [r|]; [|done]. cbn in P.
  destruct (F (nonce_of r) (length_nonce r)) as (b & E & Fb). rewrite E in P.
  rewrite (put_stored (T := inner) io k b s s' K Fb P). cbn. apply (unseal_seal (nonce_of r)); [apply length_nonce|done|done].
Qed.
Next Obligation.
  intros [r io] k d s s' K [B F] P. cbn in *. unfold e_put in P. destruct r as [r|]; cbn in P; [|injection P as <-; by left].
  destruct (F (nonce_of r) (length_nonce r)) as (b & E & Fb). rewrite E in P.
  destruct (put_failed (T := inner) io k b s s' K Fb P) as [-> | ->]; [by left|right].
  apply (unseal_seal (nonce_of r)); [apply length_nonce|done|done].
Qed.
Next Obligation.
  intros [r io] k d s k' K K' N. cbn. unfold e_put. destruct r as [r|]; [|done]. cbn.
  destruct (seal_blob _ _); [|done]. by rewrite (put_others (T := inner)).
Qed.
Next Obligation.
  intros [r io] k d s K [B F] [R Q]. cbn in *. unfold e_put. destruct r as [r|]; [|done]. cbn.
  destruct (F (nonce_of r) (length_nonce r)) as (b & E & Fb). rewrite E. by apply (put_quiet (T := inner)).
Qed.
Next Obligation.
  intros [r io] k s d K E. cbn in *. unfold e_get in E. pose proof (get_sound (T := inner) io k s) as H. cbn in E.
  destruct (Get _ _ _ _) as [[b|e] s1]; cbn in E; [|done]. rewrite (H b K eq_refl). cbn.
  by destruct (unseal_blob b); [injection E as ->|].
Qed.
Next Obligation.
  intros [r io] k s d K [R Q] V. cbn in *. unfold e_get. cbn. destruct (view (T := inner) s k) as [b|] eqn:E; [|done]. cbn in V.
  pose proof (get_quiet (T := inner) io k s b K Q E) as H. destruct (Get _ _ _ _) as [r0 s1]. cbn in H. subst r0. by rewrite V.
Qed.
Next Obligation.
  intros [r io] k s k' K'. cbn. unfold e_get. cbn. pose proof (get_keeps (T := inner) io k s k' K') as H.
  destruct (Get _ _ _ _) as [[b|e] s1]; cbn in *; by rewrite H.
Qed.
Next Obligation. intros [r io] k s s' K E. cbn in *. by rewrite (delete_gone (T := inner) io k s s' K E). Qed.
Next Obligation. intros [r io] k s K. cbn. destruct (delete_kept (T := inner) io k s K) as [-> | ->]; [by left|by right]. Qed.
Next Obligation. intros [r io] k s k' K K' N. cbn. by rewrite (delete_others (T := inner)). Qed.
Next Obligation.
  intros [r io] k s d K [R Q] V. cbn in *. destruct (view (T := inner) s k) as [b|] eqn:E; [|done]. by apply (exists_quiet (T := inner) io k s b).
Qed.

End Encrypting.

(** ** GuardedHttpTransport *)

(** The denied endpoints are recorded for the observer. *)
Definition GuardedHttpTransport (inner : IHttpTransport) (guard : Boundary.BoundaryPolicy) : IHttpTransport :=
  mkHttp (World inner * nat) (Net inner)
    (fun io m url body w =>
       let ok :=
         match Boundary.HostFromUrl url with
         | None => false
         | Some (h, p) => Boundary.Check guard (Boundary.mkEndpoint h p Boundary.kColdTier)
         end in
       if ok then let '(r, w') := Request inner io m url body w.1 in (r, (w', w.2))
       else (TransportErr, (w.1, S w.2))).

(** ** MetricsColdTier *)

Record Counters := mkCounters {
  put_total : Z; put_bytes : Z; put_errors : Z; get_total : Z; get_bytes : Z; get_miss : Z; get_errors : Z;
  delete_total : Z; delete_errors : Z; exists_total : Z }.

Section Metrics.
Variable inner : IColdTier.

Definition m_put (io : Io inner) (k d : bytes) (s : St inner * Counters) : bool * (St inner * Counters) :=
  let '(ok, s') := Put inner io k d s.1 in
  let '(mkCounters pt pb pe gt gb gm ge dt de et) := s.2 in
  (ok, (s', mkCounters (pt + 1) (if ok then pb + zlen d else pb) (if ok then pe else pe + 1) gt gb gm ge dt de et)).

Definition m_get (io : Io inner) (k : bytes) (s : St inner * Counters) : get_result * (St inner * Counters) :=
  let '(r, s') := Get inner io k s.1 in
  let '(mkCounters pt pb pe gt gb gm ge dt de et) := s.2 in
  (r, (s', match r with
           | GetOk d => mkCounters pt pb pe (gt + 1) (gb + zlen d) gm ge dt de et
           | GetFail true => mkCounters pt pb pe gt gb (gm + 1) ge dt de et
           | GetFail false => mkCounters pt pb pe gt gb gm (ge + 1) dt de et
           end)).

Definition m_delete (io : Io inner) (k : bytes) (s : St inner * Counters) : bool * (St inner * Counters) :=
  let '(ok, s') := Delete inner io k s.1 in
  let '(mkCounters pt pb pe gt gb gm ge dt de et) := s.2 in
  (ok, (s', mkCounters pt pb pe gt gb gm ge (dt + 1) (if ok then de else de + 1) et)).

Definition m_exists (io : Io inner) (k : bytes) (s : St inner * Counters) : bool * (St inner * Counters) :=
  let '(ok, s') := Exists inner io k s.1 in
  let '(mkCounters pt pb pe gt gb gm ge dt de et) := s.2 in
  (ok, (s', mkCounters pt pb pe gt gb gm ge dt de (et + 1))).

Definition MetricsColdTier : IColdTier := mkCold (St inner * Counters) (Io inner) m_put m_get m_delete m_exists.

Context `{L : !Laws inner}.

Lemma m_put_inner io k d s : (m_put io k d s).1 = (Put inner io k d s.1).1 /\ (m_put io k d s).2.1 = (Put inner io k d s.1).2.
Proof. unfold m_put. destruct (Put _ _ _ _ _), s as [s []]. done. Qed.
Lemma m_get_inner io k s : (m_get io k s).1 = (Get inner io k s.1).1 /\ (m_get io k s).2.1 = (Get inner io k s.1).2.
Proof. unfold m_get. destruct (Get _ _ _ _) as [r s'], s as [s []]. done. Qed.
Lemma m_delete_inner io k s : (m_delete io k s).1 = (Delete inner io k s.1).1 /\ (m_delete io k s).2.1 = (Delete inner io k s.1).2.
Proof. unfold m_delete. destruct (Delete _ _ _ _), s as [s []]. done. Qed.
Lemma m_exists_inner io k s : (m_exists io k s).1 = (Exists inner io k s.1).1.
Proof. unfold m_exists. destruct (Exists _ _ _ _), s as [s []]. done. Qed.

#[export] Program Instance Metrics_laws : Laws MetricsColdTier := {|
  view := fun s k => view (T := inner) s.1 k;
  fits := fits (T := inner);
  quiet := fun io => quiet (T := inner) io |}.
Next Obligation.
  intros io k d s s' K F E. cbn in *. destruct (m_put_inner io k d s) as [A B]. rewrite E in A, B. cbn in A, B. rewrite B.
  apply (put_stored (T := inner) io k d s.1 _ K F). by destruct (Put _ _ _ _ _); cbn in *; subst.
Qed.
Next Obligation.
  intros io k d s s' K F E. cbn in *. destruct (m_put_inner io k d s) as [A B]. rewrite E in A, B. cbn in A, B. rewrite B.
  apply (put_failed (T := inner) io k d s.1 _ K F). by destruct (Put _ _ _ _ _); cbn in *; subst.
Qed.
Next Obligation. intros io k d s k' K K' N. cbn. rewrite (proj2 (m_put_inner io k d s)). by apply (put_others (T := inner)). Qed.
Next Obligation. intros io k d s K F Q. cbn. rewrite (proj1 (m_put_inner io k d s)). by apply (put_quiet (T := inner)). Qed.
Next Obligation. intros io k s d K E. cbn in *. rewrite (proj1 (m_get_inner io k s)) in E. by apply (get_sound (T := inner) io k). Qed.
Next Obligation. intros io k s d K Q V. cbn in *. rewrite (proj1 (m_get_inner io k s)). by apply (get_quiet (T := inner)). Qed.
Next Obligation. intros io k s k' K'. cbn. rewrite (proj2 (m_get_inner io k s)). by apply (get_keeps (T := inner)). Qed.
Next Obligation.
  intros io k s s' K E. cbn in *. destruct (m_delete_inner io k s) as [A B]. rewrite E in A, B. cbn in A, B. rewrite B.
  apply (delete_gone (T := inner) io k s.1 _ K). by destruct (Delete _ _ _ _); cbn in *; subst.
Qed.
Next Obligation. intros io k s K. cbn. rewrite (proj2 (m_delete_inner io k s)). by apply (delete_kept (T := inner)). Qed.
Next Obligation. intros io k s k' K K' N. cbn. rewrite (proj2 (m_delete_inner io k s)). by apply (delete_others (T := inner)). Qed.
Next Obligation. intros io k s d K Q V. cbn in *. rewrite (m_exists_inner io k s). by apply (exists_quiet (T := inner) io k s.1 d). Qed.

End Metrics.

(** ** The factory *)

(** What the build and the machine provide: libzstd, OpenSSL, libcurl, and whether
    the root directory can be created or exists. *)
Record env := mkEnv {
  zstd : option libzstd; openssl : option aes_gcm; curl : IHttpTransport; mkdir_ok : bool; is_dir : bool }.

Record ColdTierOptions := mkColdOptions {
  type : bytes; fs_root : bytes; create_if_missing : bool; fsync_on_put : bool; rest : rest_options;
  codec : bytes; level : Z; encryption_enabled : bool; enc_key : bytes; metrics : bool;
  guard : option Boundary.BoundaryPolicy }.

Definition CreateBaseColdTier (e : env) (o : ColdTierOptions) : option IColdTier :=
  if bool_decide (type o = Mtls.str "fs") || bool_decide (type o = Mtls.str "fuse-mount") then
    match fs_root o with
    | [] => None
    | _ => if (if create_if_missing o then mkdir_ok e else is_dir e) then Some (FilesystemColdTier (fs_root o) (fsync_on_put o)) else None
    end
  else if bool_decide (type o = Mtls.str "native-rest") then
    match base_url (rest o) with
    | [] => None
    | _ =>
        let http := match guard o with None => curl e | Some g => GuardedHttpTransport (curl e) g end in
        Some (RestColdTier http (mkRest (TrimTrailingSlash (base_url (rest o))) (key_prefix (rest o))))
    end
  else None.

Definition kKeySize : nat := 32.

Definition add_encryption (e : env) (o : ColdTierOptions) (t : IColdTier) : option IColdTier :=
  if encryption_enabled o then
    match openssl e with
    | None => None
    | Some a => if Nat.eqb (length (enc_key o)) kKeySize then Some (EncryptingColdTier t a (enc_key o)) else None
    end
  else Some t.

Definition add_compression (e : env) (o : ColdTierOptions) (t : IColdTier) : option IColdTier :=
  if bool_decide (codec o = []) || bool_decide (codec o = Mtls.str "none") then Some t
  else match MakeCodec (zstd e) (codec o) (level o) with
       | None => None
       | Some c => Some (CompressingColdTier t c)
       end.

Definition add_metrics (o : ColdTierOptions) (t : IColdTier) : IColdTier := if metrics o then MetricsColdTier t else t.

Definition CreateColdTier (e : env) (o : ColdTierOptions) : option IColdTier :=
  match CreateBaseColdTier e o with
  | None => None
  | Some t =>
      match add_encryption e o t with
      | None => None
      | Some t => match add_compression e o t with None => None | Some t => Some (add_metrics o t) end
      end
  end.

(** ** The whole stack *)

Section Stack.
Variables (z : libzstd) (a : aes_gcm) (http : IHttpTransport) (root key : bytes) (lvl : Z).

Definition full_env : env := mkEnv (Some z) (Some a) http true true.
Definition full_options : ColdTierOptions :=
  mkColdOptions (Mtls.str "fs") root true true (mkRest [] []) (Mtls.str "zstd") lvl true key true None.

(** Counted, compressed, encrypted files. *)
Definition stack : IColdTier :=
  MetricsColdTier (CompressingColdTier (EncryptingColdTier (FilesystemColdTier root true) a key) (ZstdCodec z lvl)).

Lemma full_is_stack : root <> [] -> length key = kKeySize -> CreateColdTier full_env full_options = Some stack.
Proof.
  intros R K. unfold CreateColdTier, CreateBaseColdTier. cbn [full_options type fs_root create_if_missing full_env mkdir_ok fsync_on_put].
  rewrite bool_decide_true by done. cbn [orb].
  assert (E : forall t, add_encryption full_env full_options t = Some (EncryptingColdTier t a key)).
  { intros t. unfold add_encryption. cbn [encryption_enabled full_options full_env openssl enc_key]. by rewrite K. }
  unfold stack. destruct root; [done|]. by rewrite E.
Qed.

Hypotheses (Hz : zstd_ok z) (Ha : aes_ok a) (Seal_total : forall nonce pt, Seal a key nonce pt <> None).

Definition stack_laws : Laws stack :=
  Metrics_laws _ (L := Compressing_laws _ _ (L := Encrypting_laws _ _ _ Ha) (Zstd_ok z lvl Hz)).

Lemma stack_fits d p :
  ZSTD_compress z lvl d = Some p -> zlen d < 2 ^ 64 -> zlen p + 16 < 2 ^ 31 -> fits (Laws := stack_laws) d.
Proof using Seal_total.
  intros C B P. split; [done|]. exists p. split; [done|]. split.
  - unfold frame, WriteHeader. rewrite !length_app, length_put_le. cbn [length]. change (length kMagic) with 4%nat. lia.
  - intros nonce N. unfold seal_blob. rewrite evp_len_small.
    + destruct (Seal a key nonce _) as [[ct tag]|] eqn:E; [|by apply Seal_total in E]. by eexists.
    + unfold frame, WriteHeader. rewrite !length_app, length_put_le. cbn [length]. change (length kMagic) with 4%nat. lia.
Qed.

End Stack.

(** What a reader without faults sees depends on the view alone. *)
Lemma quiet_get_view (T : IColdTier) `{!Laws T} io k s s' d :
  key_ok k -> quiet io -> view s k = view s' k ->
  ((Get T io k s).1 = GetOk d <-> (Get T io k s').1 = GetOk d).
Proof.
  intros K Q V. split; intros E; apply get_quiet; try done; [rewrite <- V|rewrite V]; by apply (get_sound io).
Qed.

(** The stack the factory builds from all its layers (counted, compressed with
    zstd, encrypted with AES-256-GCM, files) is a store: after a [Put] that
    succeeded, whatever the system calls and the nonce were, a [Get] without faults
    returns the payload; after one that failed it returns the payload or what it
    returned before; and a [Put] changes what no other key returns. *)
Theorem cold_stack_roundtrip z a http root key lvl rand (f : fs_io) k d p s ok s' :
  zstd_ok z -> aes_ok a -> (forall nonce pt, Seal a key nonce pt <> None) ->
  root <> [] -> length key = kKeySize -> key_ok k ->
  ZSTD_compress z lvl d = Some p -> zlen d < 2 ^ 64 -> zlen p + 16 < 2 ^ 31 ->
  Put (stack z a root key lvl) (rand, f) k d s = (ok, s') ->
  CreateColdTier (full_env z a http) (full_options root key lvl) = Some (stack z a root key lvl) /\
  forall r' f', fs_quiet f' ->
    let get k s := (Get (stack z a root key lvl) (Some r', f') k s).1 in
    (ok = true -> get k s' = GetOk d) /\
    (ok = false -> get k s' = GetOk d \/ forall d', get k s' = GetOk d' <-> get k s = GetOk d') /\
    (forall k' d', key_ok k' -> k' <> k -> (get k' s' = GetOk d' <-> get k' s = GetOk d')).
Proof.
  intros Hz Ha T R Lk K C B P E. split; [by apply full_is_stack|]. intros r' f' Q get.
  pose (L := stack_laws z a root key lvl Hz Ha). pose proof (stack_fits z a root key lvl Hz Ha T d p C B P) as F.
  assert (Qi : quiet (Laws := L) (Some r', f')) by (split; [done|exact Q]). unfold get. split; [|split].
  - intros ->. apply (get_quiet (Laws := L)); [done|done|]. exact (put_stored (Laws := L) _ _ _ _ _ K F E).
  - intros ->. destruct (put_failed (Laws := L) _ _ _ _ _ K F E) as [V|V].
    + right. intros d'. by apply (quiet_get_view _ (Laws0 := L)).
    + left. by apply (get_quiet (Laws := L)).
  - intros k' d' K' N. apply (quiet_get_view _ (Laws0 := L)); [done|done|].
    pose proof (put_others (Laws := L) (rand, f) k d s k' K K' N) as V. by rewrite E in V.
Qed.

(** ** Witness *)

(** Stand-ins for the libraries: no compression, no secrecy. *)
Definition plain_zstd : libzstd := mkZstd (fun _ d => Some d) (fun c => Some (zlen c)) (fun _ c => Some c).
Definition plain_aes : aes_gcm := mkAes (fun _ _ pt => Some (pt, replicate 16 x00)) (fun _ _ ct _ => Some ct).
Definition no_http : IHttpTransport := mkHttp unit unit (fun _ _ _ _ w => (TransportErr, w)).

Lemma plain_zstd_ok : zstd_ok plain_zstd.
Proof. by intros level d c [= <-]. Qed.
Lemma plain_aes_ok : aes_ok plain_aes.
Proof. by intros key nonce pt ct tag [= <- <-]. Qed.

Definition good_fs : fs_io := mkFsIo true None true true true true true.
Definition key_a : bytes := replicate 16 x0a.
Definition key32 : bytes := replicate 32 x01.
Definition empty_stack : St (stack plain_zstd plain_aes [x2f] key32 3) := ((∅ : Files), mkCounters 0 0 0 0 0 0 0 0 0 0).

Lemma cold_stack_roundtrip_witness :
  exists s', Put (stack plain_zstd plain_aes [x2f] key32 3) (Some [x05], good_fs) key_a [x61; x62] empty_stack = (true, s') /\
  (Get (stack plain_zstd plain_aes [x2f] key32 3) (Some [], good_fs) key_a s').1 = GetOk [x61; x62].
Proof.
  eexists. split; [reflexivity|].
  refine (proj1 (proj2 (cold_stack_roundtrip plain_zstd plain_aes no_http [x2f] key32 3 (Some [x05]) good_fs key_a
    [x61; x62] [x61; x62] empty_stack true _ plain_zstd_ok plain_aes_ok _ _ _ _ _ _ _ _) [] good_fs _) eq_refl);
    try reflexivity; done.
Defined.

(** ** Changing the codec *)

(** A blob written with zstd cannot be read once the configured codec is identity. *)
Lemma zstd_blob_stranded z lvl n p :
  0 <= n < 2 ^ 64 -> unframe IdentityCodec (frame (ZstdCodec z lvl) n p) = None.
Proof. intros N. unfold unframe, frame. by rewrite Read_WriteHeader. Qed.

(** Once it is "none", the tier hands out the frame as if it were the payload. *)
Lemma framed_blob_returned root fsync io io' k d s s' :
  key_ok k -> Put (CompressingColdTier (FilesystemColdTier root fsync) IdentityCodec) io k d s = (true, s') -> fs_quiet io' ->
  (Get (FilesystemColdTier root fsync) io' k s').1 = GetOk (frame IdentityCodec (zlen d) d).
Proof.
  intros K E Q. apply get_quiet; [done|done|]. by apply (put_stored (T := FilesystemColdTier root fsync) io k _ s s').
Qed.

End Cold.
