(* ===== verification/NvmeTier.v ===== *)
(** * The NVMe tier

    [NvmeTier] of tier/nvme_tier.cpp: one file or device cut into slots of equal
    size, an index from content keys to slots, and a stack of free slots. A call
    holds the mutex only while it uses the index; the device is accessed outside
    it, so a [Put] is three steps and a [Get] three, which other calls may come
    between. The device is reached by blocking calls, by io_uring or by SPDK; the
    outcomes of the system calls are part of the input. Offsets are not wrapped:
    they lie below [pool_bytes], a 64-bit number. A submission to io_uring that fails leaves
    its entry in the ring, where the next one finds it; [DoOp] models that, and the tier is
    modelled with submissions that do not fail, for which [DoOp] is the simpler [ring_write]
    and [ring_read] ([DoOp_write], [DoOp_read]).

    The theorems: while no two calls on the same key overlap, every interleaving
    behaves as a map from keys to payloads ([nvme_interleavings]); two overlapping
    calls on one key can destroy the payload of another ([put_erase_race]), and so can a
    failed submission ([failed_submission_writes_late]); a tier
    that asks for SPDK in a build without it has no file to fall back to
    ([spdk_fallback_fails]). *)

From S2P Require Import Prelude.
From Stdlib Require Import ZArith Lia.

Open Scope Z_scope.

Module Nvme.

(** ** The device *)

Inductive Backend := Blocking | Uring | Spdk (sector_size : nat).

(** What one [pwrite] or [pread] returns: a count, [EINTR] or another error. *)
Inductive sysret := Ret (n : nat) | Eintr | Err.

(** What one operation on the ring meets, if its submission does not fail: no free entry, or
    a completion with its result. *)
Inductive ring_ret := NoSqe | Res (res : Z).

(** What one command of the user-space driver meets. *)
Inductive spdk_ret := NoDma | NotSubmitted | Completed (error : bool).

(** The outcomes of one access: the calls made, after which every call completes in
    full; the ring's; the driver's; and whether the final [fdatasync] succeeds. *)
Record io := mkIo { calls : list sysret; ring : ring_ret; spdk : spdk_ret; sync_ok : bool }.

Definition write_at (off : nat) (d f : bytes) : bytes := resize off x00 f ++ d ++ drop (off + length d) f.
Definition slice (off n : nat) (f : bytes) : bytes := take n (drop off f).

Fixpoint PwriteAll (cs : list sysret) (p : bytes) (off : nat) (f : bytes) : bool * bytes :=
  match p with
  | [] => (true, f)
  | _ =>
      match cs with
      | [] => (true, write_at off p f)
      | Eintr :: r => PwriteAll r p off f
      | Err :: _ => (false, f)
      | Ret w :: r => PwriteAll r (drop w p) (off + w `min` length p) (write_at off (take w p) f)
      end
  end.

(** The bytes read, or [None] after an error. *)
Fixpoint PreadAll (cs : list sysret) (n off : nat) (f : bytes) : option bytes :=
  match n with
  | O => Some []
  | _ =>
      match cs with
      | [] => Some (slice off n f)
      | Eintr :: r => PreadAll r n off f
      | Err :: _ => None
      | Ret w :: r =>
          let got := take w (slice off n f) in
          match got with
          | [] => Some []
          | _ => rest ← PreadAll r (n - length got) (off + length got) f; Some (got ++ rest)
          end
      end
  end.

(** A write and a read by the ring: the length given to it is cut to 32 bits, and a result
    other than the length asked for is an error. *)
Definition ring_write (r : ring_ret) (off : nat) (d f : bytes) : bool * bytes :=
  match r with
  | NoSqe => (false, f)
  | Res res =>
      if res <? 0 then (false, f)
      else let m := Z.to_nat (res `min` u32 (zlen d)) in (Z.of_nat m =? zlen d, write_at off (take m d) f)
  end.

Definition ring_read (r : ring_ret) (n off : nat) (f : bytes) : option bytes :=
  match r with
  | NoSqe => None
  | Res res =>
      if res <? 0 then None
      else let got := slice off (Z.to_nat (res `min` u32 (Z.of_nat n))) f in
           if (length got =? n)%nat then Some got else None
  end.

(** [UringImpl::DoOp] with the entries that failed submissions left in the ring. The next
    submission executes them too, before or after its own entry, with whatever the buffers
    of the calls that are gone now hold ([found]). Their completions go to objects that are
    gone as well, which is left out. *)
Inductive sqe := SqWrite (off len : nat) | SqRead (off len : nat).
Inductive submission := Failed | Submitted (own_first : bool) (found : list bytes) (r : ring_ret).
Record Ring := mkRing { queued : list sqe; file : bytes }.

Definition late (x : sqe * bytes) (f : bytes) : bytes :=
  match x.1 with SqWrite off len => write_at off (resize len x00 x.2) f | SqRead _ _ => f end.
Definition flush (q : list sqe) (found : list bytes) (f : bytes) : bytes := foldr late f (zip q (found ++ replicate (length q) [])).

Definition DoOp (sub : submission) (e : sqe) (d : bytes) (u : Ring) : option bytes * Ring :=
  match sub with
  | Failed => (None, mkRing (queued u ++ [e]) (file u))
  | Submitted _ _ NoSqe => (None, u)
  | Submitted own_first found r =>
      let before := if own_first then file u else flush (queued u) found (file u) in
      let '(answer, f) :=
        match e with
        | SqWrite off _ => let '(ok, f) := ring_write r off d before in (if ok then Some [] else None, f)
        | SqRead off len => (ring_read r len off before, before)
        end in
      (answer, mkRing [] (if own_first then flush (queued u) found f else f))
  end.

Lemma DoOp_write b found r off d f :
  DoOp (Submitted b found r) (SqWrite off (length d)) d (mkRing [] f) = (if (ring_write r off d f).1 then Some [] else None, mkRing [] (ring_write r off d f).2).
Proof. destruct r as [|res]; [done|]. cbn [DoOp queued file]. change (flush [] found f) with f. destruct b, (ring_write (Res res) off d f) as [[] g]; reflexivity. Qed.

Lemma DoOp_read b found r off n d f :
  DoOp (Submitted b found r) (SqRead off n) d (mkRing [] f) = (ring_read r n off f, mkRing [] f).
Proof. destruct r as [|res]; [done|]. destruct b; reflexivity. Qed.

(** [SpdkImpl::DoOp]: whole sectors, the tail of the last one zero; a command past the
    end of the device completes with an error. *)
Definition dma_len (sector n : nat) : nat := ((n + sector - 1) / sector * sector)%nat.

Definition spdk_write (sector : nat) (r : spdk_ret) (off : nat) (d f : bytes) : bool * bytes :=
  if (sector =? 0)%nat || negb (off mod sector =? 0)%nat then (false, f)
  else match r with
       | NoDma | NotSubmitted => (false, f)
       | Completed true => (false, f)
       | Completed false =>
           let len := dma_len sector (length d) in
           if (length f <? off + len)%nat then (false, f)
           else (true, write_at off (d ++ replicate (len - length d) x00) f)
       end.

Definition spdk_read (sector : nat) (r : spdk_ret) (n off : nat) (f : bytes) : option bytes :=
  if (sector =? 0)%nat || negb (off mod sector =? 0)%nat then None
  else match r with
       | Completed false =>
           if (length f <? off + dma_len sector n)%nat then None else Some (take n (slice off (dma_len sector n) f))
       | _ => None
       end.

(** ** State *)

Record Entry := mkEntry { slot_id : nat; e_bytes : nat }.

(** [fd_] is the contents of the open file or of the SPDK device, [None] where the
    descriptor is -1 and every access fails; the free stack has its top first. *)
Record Tier := mkTier {
  backend_ : Backend; fd_ : option bytes; slot_bytes_ : nat; slot_count_ : nat; fdatasync_ : bool;
  free_stack_ : list nat; index_ : gmap bytes Entry; in_use_ : Z }.

Definition set_fd (f : option bytes) (s : Tier) : Tier :=
  mkTier (backend_ s) f (slot_bytes_ s) (slot_count_ s) (fdatasync_ s) (free_stack_ s) (index_ s) (in_use_ s).
Definition set_index (free : list nat) (idx : gmap bytes Entry) (n : Z) (s : Tier) : Tier :=
  mkTier (backend_ s) (fd_ s) (slot_bytes_ s) (slot_count_ s) (fdatasync_ s) free idx n.

Record Options := mkOptions {
  path : bytes; pool_bytes : Z; slot_bytes : Z; create_if_missing : bool; fdatasync_on_put : bool;
  use_uring : bool; use_spdk : bool; spdk_pci_addr : bytes }.

(** What [Create] meets: the build's options, the file (if there is one) and whether
    it can be opened and resized, the contents and sector size of the device that
    the driver attaches, and whether the ring can be set up. *)
Record env := mkEnv {
  have_spdk : bool; have_uring : bool; old_file : option bytes; open_ok : bool; ftruncate_ok : bool;
  device : option (bytes * nat); queue_init_ok : bool }.

Definition open_file (e : env) (o : Options) : option bytes :=
  if open_ok e && (create_if_missing o || bool_decide (is_Some (old_file e)))
  then if ftruncate_ok e && (pool_bytes o <? 2 ^ 63)
       then Some (resize (Z.to_nat (pool_bytes o)) x00 (default [] (old_file e))) else None
  else None.

Definition new_tier (b : Backend) (f : option bytes) (o : Options) : Tier :=
  let count := Z.to_nat (u32 (pool_bytes o / slot_bytes o)) in
  mkTier b f (Z.to_nat (slot_bytes o)) count (fdatasync_on_put o) (seq 0 count) ∅ 0.

(** The choice between ring and blocking calls. *)
Definition wire_uring (e : env) (f : option bytes) (o : Options) : option Tier :=
  if use_uring o && have_uring e
  then if queue_init_ok e then Some (new_tier Uring f o) else None
  else Some (new_tier Blocking f o).

Definition Create (e : env) (o : Options) : option Tier :=
  if (negb (use_spdk o) && bool_decide (path o = [])) || (pool_bytes o =? 0) || (slot_bytes o =? 0) ||
     (pool_bytes o <? slot_bytes o) || negb (pool_bytes o mod slot_bytes o =? 0)
  then None
  else if use_spdk o
       then if have_spdk e
            then if bool_decide (spdk_pci_addr o = []) then None
                 else match device e with
                      | None => None
                      | Some (dev, sector) =>
                          if slot_bytes o mod Z.of_nat sector =? 0 then Some (new_tier (Spdk sector) (Some dev) o) else None
                      end
            else wire_uring e None o
       else match open_file e o with None => None | Some f => wire_uring e (Some f) o end.

(** ** Operations *)

Definition offset (slot : nat) (s : Tier) : nat := (slot * slot_bytes_ s)%nat.

(** The locked part of [Put]: the slot to write, or a refusal. *)
Definition put_reserve (k : bytes) (n : nat) (s : Tier) : option (nat * Tier) :=
  if (n =? 0)%nat || (slot_bytes_ s <? n)%nat then None
  else match index_ s !! k with
       | Some e => Some (slot_id e, set_index (free_stack_ s) (<[k := mkEntry (slot_id e) n]> (index_ s)) (in_use_ s) s)
       | None =>
           match free_stack_ s with
           | [] => None
           | slot :: r => Some (slot, set_index r (<[k := mkEntry slot n]> (index_ s)) (in_use_ s + 1) s)
           end
       end.

(** The write of [Put]. *)
Definition put_write (i : io) (slot : nat) (d : bytes) (s : Tier) : bool * Tier :=
  match fd_ s with
  | None => (false, s)
  | Some f =>
      let '(ok, f') :=
        match backend_ s with
        | Spdk sector => spdk_write sector (spdk i) (offset slot s) d f
        | Uring => ring_write (ring i) (offset slot s) d f
        | Blocking => PwriteAll (calls i) d (offset slot s) f
        end in
      (ok, set_fd (Some f') s)
  end.

(** [Erase], and what [Put] does to the index after a failed write. *)
Definition Erase (k : bytes) (s : Tier) : bool * Tier :=
  match index_ s !! k with
  | None => (false, s)
  | Some e => (true, set_index (slot_id e :: free_stack_ s) (delete k (index_ s)) (in_use_ s - 1) s)
  end.

(** The answer of [Put] after a successful write. *)
Definition put_sync (i : io) (s : Tier) : bool :=
  match backend_ s with Spdk _ => true | _ => negb (fdatasync_ s) || sync_ok i end.

Definition Put (i : io) (k d : bytes) (s : Tier) : bool * Tier :=
  match put_reserve k (length d) s with
  | None => (false, s)
  | Some (slot, s1) =>
      let '(ok, s2) := put_write i slot d s1 in
      if ok then (put_sync i s2, s2) else (false, (Erase k s2).2)
  end.

(** The read of [Get] from the entry it looked up. *)
Definition get_read (i : io) (e : Entry) (s : Tier) : option bytes :=
  f ← fd_ s;
  match backend_ s with
  | Spdk sector => spdk_read sector (spdk i) (e_bytes e) (offset (slot_id e) s) f
  | Uring => ring_read (ring i) (e_bytes e) (offset (slot_id e) s) f
  | Blocking =>
      got ← PreadAll (calls i) (e_bytes e) (offset (slot_id e) s) f;
      if (length got =? e_bytes e)%nat then Some got else None
  end.

(** [Get] into a buffer of the caller. *)
Definition get_into (i : io) (k : bytes) (dst_capacity : nat) (s : Tier) : option bytes :=
  e ← index_ s !! k;
  if (dst_capacity <? e_bytes e)%nat then None else get_read i e s.

(** [Get] into a vector: it looks the entry up for its size, and again to read it;
    the vector keeps the first size. *)
Definition Get (i : io) (k : bytes) (s : Tier) : option bytes :=
  e ← index_ s !! k;
  d ← get_into i k (e_bytes e) s;
  Some (resize (e_bytes e) x00 d).

Definition Contains (k : bytes) (s : Tier) : bool := bool_decide (is_Some (index_ s !! k)).
Definition UsedBytes (s : Tier) : Z := u64 (map_fold (fun _ e n => Z.of_nat (e_bytes e) + n) 0 (index_ s)).

(** ** The device keeps what is written, and only that changes *)

(** [f'] is [f] but for the [n] bytes at [off]. *)
Definition only_at (off n : nat) (f f' : bytes) : Prop :=
  length f' = length f /\ forall i, (i < off \/ off + n <= i)%nat -> f' !! i = f !! i.

Lemma only_at_refl off n f : only_at off n f f.
Proof. by split. Qed.

Lemma only_at_trans off1 n1 off2 n2 off n f1 f2 f3 :
  (off <= off1 /\ off1 + n1 <= off + n)%nat -> (off <= off2 /\ off2 + n2 <= off + n)%nat ->
  only_at off1 n1 f1 f2 -> only_at off2 n2 f2 f3 -> only_at off n f1 f3.
Proof.
  intros B1 B2 [L1 A1] [L2 A2]. split; [lia|]. intros i I. rewrite A2 by lia. apply A1. lia.
Qed.

Lemma slice_only_at off n off' n' f f' :
  only_at off n f f' -> (off' + n' <= off \/ off + n <= off')%nat -> slice off' n' f' = slice off' n' f.
Proof.
  intros [_ A] B. apply list_eq. intros i. unfold slice.
  destruct (decide (i < n')%nat); [|by rewrite !lookup_take_ge by lia].
  rewrite !lookup_take_lt, !lookup_drop by lia. apply A. lia.
Qed.

Lemma write_at_lookup off d f i :
  (off + length d <= length f)%nat ->
  write_at off d f !! i = if decide (off <= i < off + length d)%nat then d !! (i - off)%nat else f !! i.
Proof.
  intros B. unfold write_at. rewrite resize_le by lia. destruct (decide (off <= i < off + length d)%nat).
  - rewrite lookup_app_r by (rewrite length_take; lia). rewrite length_take, Nat.min_l by lia.
    by rewrite lookup_app_l by lia.
  - destruct (decide (i < off)%nat).
    + rewrite lookup_app_l by (rewrite length_take; lia). by rewrite lookup_take_lt.
    + rewrite !lookup_app_r by (rewrite ?length_take; lia). rewrite lookup_drop, length_take. f_equal. lia.
Qed.

Lemma write_at_spec off d f :
  (off + length d <= length f)%nat ->
  only_at off (length d) f (write_at off d f) /\ slice off (length d) (write_at off d f) = d.
Proof.
  intros B. split; [split|].
  - unfold write_at. rewrite !length_app, length_resize, length_drop. lia.
  - intros i I. rewrite write_at_lookup by done. by rewrite decide_False by lia.
  - apply list_eq. intros i. unfold slice. destruct (decide (i < length d)%nat).
    + rewrite lookup_take_lt, lookup_drop, write_at_lookup by lia. rewrite decide_True by lia. f_equal. lia.
    + rewrite lookup_take_ge by lia. symmetry. apply lookup_ge_None. lia.
Qed.

Lemma slice_split off m n f : (m <= n)%nat -> slice off n f = slice off m f ++ slice (off + m) (n - m) f.
Proof. intros L. unfold slice. rewrite <- drop_drop, take_drop_commute_add. f_equal. lia. Qed.

(** What a write that covers at most [n] bytes from [off] must do. *)
Definition wrote (off n : nat) (d f : bytes) (r : bool * bytes) : Prop :=
  only_at off n f r.2 /\ (r.1 = true -> slice off (length d) r.2 = d).

Lemma PwriteAll_spec cs p off f :
  (off + length p <= length f)%nat -> wrote off (length p) p f (PwriteAll cs p off f).
Proof.
  unfold wrote. revert p off f. induction cs as [|c cs IH]; intros p off f B; destruct p as [|x p']; cbn [PwriteAll fst snd].
  1, 3: split; [apply only_at_refl|by intros].
  - destruct (write_at_spec off (x :: p') f B) as [O S]. split; [done|by intros].
  - set (p := x :: p') in *. destruct c as [w| |]; [|by apply IH|by split; [apply only_at_refl|]].
    assert (Lt : length (take w p) = (w `min` length p)%nat) by apply length_take.
    destruct (write_at_spec off (take w p) f) as [O S]; [lia|].
    assert (L1 : length (write_at off (take w p) f) = length f) by apply O.
    destruct (IH (drop w p) (off + w `min` length p)%nat (write_at off (take w p) f)) as [O2 S2];
      [rewrite L1, length_drop; lia|].
    rewrite length_drop in O2, S2. split.
    + eapply only_at_trans; [| |exact O|exact O2]; lia.
    + intros R. rewrite (slice_split off (w `min` length p)%nat) by lia.
      rewrite (slice_only_at _ _ _ _ _ _ O2) by lia. rewrite <- Lt at 1. rewrite S.
      replace (length p - w `min` length p)%nat with (length p - w)%nat by lia.
      rewrite S2 by done. apply take_drop.
Qed.

Lemma ring_write_spec r off d f :
  (off + length d <= length f)%nat -> wrote off (length d) d f (ring_write r off d f).
Proof.
  unfold wrote, ring_write. intros B. destruct r as [|res]; [by split; [apply only_at_refl|]|].
  destruct (res <? 0); [by split; [apply only_at_refl|]|]. cbn [fst snd]. set (m := Z.to_nat _).
  assert (Lt : length (take m d) = (m `min` length d)%nat) by apply length_take.
  destruct (write_at_spec off (take m d) f) as [O S]; [lia|]. split.
  - eapply only_at_trans; [| |exact O|apply (only_at_refl off 0)]; lia.
  - intros E. apply Z.eqb_eq, Nat2Z.inj in E. rewrite E, firstn_all in *. done.
Qed.

Lemma dma_len_bound sector n sb :
  (0 < sector)%nat -> (sb mod sector = 0)%nat -> (n <= sb)%nat -> (n <= dma_len sector n <= sb)%nat.
Proof.
  intros P D L. unfold dma_len. pose proof (Nat.div_mod_eq sb sector). pose proof (Nat.div_mod_eq (n + sector - 1) sector).
  pose proof (Nat.mod_upper_bound (n + sector - 1) sector). split; [nia|].
  assert ((n + sector - 1) / sector < sb / sector + 1)%nat by (apply Nat.Div0.div_lt_upper_bound; nia). nia.
Qed.

Lemma spdk_write_spec sector sb r off d f :
  (0 < sector)%nat -> (sb mod sector = 0)%nat -> (length d <= sb)%nat ->
  wrote off sb d f (spdk_write sector r off d f).
Proof.
  unfold wrote, spdk_write. intros P D L.
  destruct (_ || _); [by split; [apply only_at_refl|]|]. destruct r as [| |[]]; try by split; [apply only_at_refl|].
  destruct (length f <? _)%nat eqn:B; [by split; [apply only_at_refl|]|]. apply Nat.ltb_ge in B. cbn [fst snd].
  pose proof (dma_len_bound sector (length d) sb P D L) as Dl. set (pad := replicate _ _).
  assert (Ld : length (d ++ pad) = dma_len sector (length d)).
  { unfold pad. rewrite length_app, length_replicate. lia. }
  destruct (write_at_spec off (d ++ pad) f) as [O S]; [lia|]. split.
  - eapply only_at_trans; [| |exact O|apply (only_at_refl off 0)]; lia.
  - intros _. rewrite Ld in S. rewrite (slice_split off (length d)) in S by lia.
    apply app_inj_1 in S; [by destruct S|]. unfold slice. rewrite length_take, length_drop.
    destruct O as [O _]. lia.
Qed.

(** ** One access *)

Definition backend_ok (s : Tier) : Prop :=
  match backend_ s with Spdk sector => (0 < sector /\ slot_bytes_ s mod sector = 0)%nat | _ => True end.

Lemma put_write_spec i slot d s f ok s' :
  backend_ok s -> fd_ s = Some f -> (offset slot s + slot_bytes_ s <= length f)%nat -> (length d <= slot_bytes_ s)%nat ->
  put_write i slot d s = (ok, s') ->
  exists f', s' = set_fd (Some f') s /\ wrote (offset slot s) (slot_bytes_ s) d f (ok, f').
Proof.
  intros W F B L. unfold put_write, backend_ok in *. rewrite F.
  set (r := match backend_ s with Blocking => _ | Uring => _ | Spdk _ => _ end).
  assert (R : wrote (offset slot s) (slot_bytes_ s) d f r).
  { assert (M : forall r, wrote (offset slot s) (length d) d f r -> wrote (offset slot s) (slot_bytes_ s) d f r).
    { intros r' [O S]. split; [|done]. eapply only_at_trans; [| |exact O|apply (only_at_refl (offset slot s) 0)]; lia. }
    unfold r. destruct (backend_ s) as [| |sector].
    - apply M, PwriteAll_spec. lia.
    - apply M, ring_write_spec. lia.
    - destruct W. by apply spdk_write_spec. }
  destruct r as [ok' f']. intros [= <- <-]. eauto.
Qed.

Lemma PreadAll_prefix cs n off f got : PreadAll cs n off f = Some got -> got `prefix_of` slice off n f.
Proof.
  revert n off got. induction cs as [|c cs IH]; intros n off got; destruct n as [|n]; cbn [PreadAll].
  1, 3: by intros [= <-]; apply prefix_nil.
  - by intros [= <-].
  - destruct c as [w| |]; [|apply IH|done].
    destruct (take w (slice off (S n) f)) as [|b g] eqn:G; [by intros [= <-]; apply prefix_nil|].
    rewrite <- G. set (m := length (take w (slice off (S n) f))).
    destruct (PreadAll cs (S n - m) (off + m) f) as [rest|] eqn:E; [|done]. intros [= <-].
    assert (Hm : (m <= S n)%nat) by (unfold m, slice; rewrite !length_take; lia).
    replace (take w (slice off (S n) f)) with (slice off m f);
      [rewrite (slice_split off m (S n)) by done; by apply prefix_app, IH|].
    unfold m, slice. rewrite take_take, length_take, length_drop.
    destruct (decide (w `min` S n <= length f - off)%nat); [by rewrite Nat.min_l|].
    rewrite Nat.min_r by lia. rewrite !take_ge by (rewrite length_drop; lia). done.
Qed.

(** Reads without a fault. *)
Definition quiet (b : Backend) (n : nat) (i : io) : Prop :=
  match b with
  | Blocking => calls i = []
  | Uring => ring i = Res (Z.of_nat n) /\ Z.of_nat n < 2 ^ 32
  | Spdk _ => spdk i = Completed false
  end.

Lemma length_slice off n f : (off + n <= length f)%nat -> length (slice off n f) = n.
Proof. intros B. unfold slice. rewrite length_take, length_drop. lia. Qed.

Lemma get_read_sound i e s f d :
  backend_ok s -> fd_ s = Some f -> (e_bytes e <= slot_bytes_ s)%nat -> get_read i e s = Some d ->
  d = slice (offset (slot_id e) s) (e_bytes e) f.
Proof.
  unfold get_read, backend_ok. intros W F B. rewrite F. cbn. set (off := offset _ _). set (n := e_bytes e) in *.
  destruct (backend_ s) as [| |sector].
  - destruct (PreadAll _ _ _ _) as [got|] eqn:E; [|done]. cbn. destruct (length got =? n)%nat eqn:L; [|done].
    intros [= <-]. apply Nat.eqb_eq in L. apply PreadAll_prefix in E as [r E]. rewrite E.
    assert (length (slice off n f) <= n)%nat as M by (unfold slice; rewrite length_take; lia).
    rewrite E, length_app in M. destruct r; [by rewrite app_nil_r|cbn in M; lia].
  - unfold ring_read. destruct (ring i) as [|res]; [done|]. destruct (res <? 0) eqn:Rn; [done|].
    set (m := Z.to_nat _). destruct (_ =? n)%nat eqn:L; [|done]. intros [= <-]. apply Nat.eqb_eq in L.
    assert (m <= n)%nat by (unfold m, u32; apply Z.ltb_ge in Rn; pose proof (Z.mod_le (Z.of_nat n) (2 ^ 32)); lia).
    unfold slice in *. rewrite length_take in L. by replace m with n by lia.
  - unfold spdk_read. destruct (_ || _); [done|]. destruct (spdk i) as [| |[]]; try done.
    destruct (_ <? _)%nat; [done|]. intros [= <-]. unfold slice. rewrite take_take.
    pose proof (dma_len_bound sector n (slot_bytes_ s)). f_equal. lia.
Qed.

Lemma get_read_quiet i e s f :
  backend_ok s -> fd_ s = Some f -> (offset (slot_id e) s + slot_bytes_ s <= length f)%nat ->
  (e_bytes e <= slot_bytes_ s)%nat -> quiet (backend_ s) (e_bytes e) i ->
  get_read i e s = Some (slice (offset (slot_id e) s) (e_bytes e) f).
Proof.
  unfold get_read, backend_ok, quiet. intros W F R B. rewrite F. cbn. set (off := offset _ _) in *. set (n := e_bytes e) in *.
  assert (L : length (slice off n f) = n) by (apply length_slice; lia).
  destruct (backend_ s) as [| |sector].
  - intros ->. assert (PreadAll [] n off f = Some (slice off n f)) as -> by (by destruct n). cbn. by rewrite L, Nat.eqb_refl.
  - intros [-> Hn]. unfold ring_read. destruct (_ <? 0) eqn:Neg; [apply Z.ltb_lt in Neg; lia|].
    rewrite u32_small, Z.min_id, Nat2Z.id, L, Nat.eqb_refl by lia. done.
  - intros ->. destruct W as [P D]. unfold spdk_read. pose proof (dma_len_bound sector n (slot_bytes_ s) P D B).
    rewrite (proj2 (Nat.eqb_neq sector 0)) by lia. cbn [orb].
    assert (off mod sector = 0)%nat as ->.
    { unfold off, offset. rewrite Nat.Div0.mul_mod, D, Nat.mul_0_r. apply Nat.Div0.mod_0_l. }
    rewrite Nat.eqb_refl. cbn [negb]. rewrite (proj2 (Nat.ltb_ge _ _)) by lia.
    unfold slice. rewrite take_take. do 2 f_equal. lia.
Qed.

(** ** Interleavings *)

(** Where a thread is in a call: a [Put] that holds its slot, one whose write has
    failed, a [Get] that knows the size, one that has looked the entry up to read it. *)
Inductive pc :=
| PutWriting (k d : bytes) (slot : nat)
| PutUndo (k d : bytes)
| GetSized (k : bytes) (cap : nat)
| GetReading (k : bytes) (cap : nat) (e : Entry).

Definition pc_key (p : pc) : bytes :=
  match p with PutWriting k _ _ | PutUndo k _ | GetSized k _ | GetReading k _ _ => k end.

(** What a call answers; of those of [Put], only [Stored] is true. *)
Inductive put_answer := Stored | Refused | WriteFailed | NotSynced.
Inductive get_answer := Hit (d : bytes) | NotFound | TooSmall | ReadFailed (i : io).
Inductive event := EvPut (k d : bytes) (a : put_answer) | EvGet (k : bytes) (a : get_answer) | EvErase (k : bytes) (b : bool).

Record State := mkState { tier : Tier; threads : gmap nat pc }.

(** The steps of the calls, each atomic: the locked parts and the device accesses. *)
Inductive action :=
| PutStart (t : nat) (k d : bytes) | PutDevice (t : nat) (i : io) | PutRollback (t : nat)
| GetStart (t : nat) (k : bytes) | GetAgain (t : nat) | GetDevice (t : nat) (i : io)
| EraseCall (k : bytes).

Definition act (a : action) (st : State) : option (list event * State) :=
  let '(mkState s th) := st in
  match a with
  | PutStart t k d =>
      match th !! t with
      | Some _ => None
      | None =>
          match put_reserve k (length d) s with
          | None => Some ([EvPut k d Refused], st)
          | Some (slot, s1) => Some ([], mkState s1 (<[t := PutWriting k d slot]> th))
          end
      end
  | PutDevice t i =>
      match th !! t with
      | Some (PutWriting k d slot) =>
          let '(ok, s2) := put_write i slot d s in
          if ok then Some ([EvPut k d (if put_sync i s2 then Stored else NotSynced)], mkState s2 (delete t th))
          else Some ([], mkState s2 (<[t := PutUndo k d]> th))
      | _ => None
      end
  | PutRollback t =>
      match th !! t with
      | Some (PutUndo k d) => Some ([EvPut k d WriteFailed], mkState (Erase k s).2 (delete t th))
      | _ => None
      end
  | GetStart t k =>
      match th !! t with
      | Some _ => None
      | None =>
          match index_ s !! k with
          | None => Some ([EvGet k NotFound], st)
          | Some e => Some ([], mkState s (<[t := GetSized k (e_bytes e)]> th))
          end
      end
  | GetAgain t =>
      match th !! t with
      | Some (GetSized k cap) =>
          match index_ s !! k with
          | None => Some ([EvGet k NotFound], mkState s (delete t th))
          | Some e =>
              if (cap <? e_bytes e)%nat then Some ([EvGet k TooSmall], mkState s (delete t th))
              else Some ([], mkState s (<[t := GetReading k cap e]> th))
          end
      | _ => None
      end
  | GetDevice t i =>
      match th !! t with
      | Some (GetReading k cap e) =>
          let a := match get_read i e s with Some d => Hit (resize cap x00 d) | None => ReadFailed i end in
          Some ([EvGet k a], mkState s (delete t th))
      | _ => None
      end
  | EraseCall k => let '(b, s') := Erase k s in Some ([EvErase k b], mkState s' th)
  end.

(** No call on [k] is under way. *)
Definition idle (k : bytes) (th : gmap nat pc) : Prop := map_Forall (fun _ p => pc_key p <> k) th.
#[global] Instance idle_dec k th : Decision (idle k th).
Proof. apply map_Forall_dec. intros t p. apply not_dec. apply decide_rel. apply _. Defined.

(** The discipline: a call starts only while no call on its key is under way. *)
Definition allowed (a : action) (st : State) : bool :=
  match a with
  | PutStart _ k _ | GetStart _ k | EraseCall k => bool_decide (idle k (threads st))
  | _ => true
  end.

Fixpoint run (disciplined : bool) (acts : list action) (st : State) : option (list event * State) :=
  match acts with
  | [] => Some ([], st)
  | a :: r =>
      if negb disciplined || allowed a st
      then '(e1, st1) ← act a st; '(e2, st2) ← run disciplined r st1; Some (e1 ++ e2, st2)
      else None
  end.

(** ** The contract: a map from keys to payloads *)

Inductive spec (b : Backend) (sb : nat) (m : gmap bytes bytes) : event -> gmap bytes bytes -> Prop :=
| spec_stored k d : (0 < length d <= sb)%nat -> spec b sb m (EvPut k d Stored) (<[k := d]> m)
| spec_not_synced k d : spec b sb m (EvPut k d NotSynced) (<[k := d]> m)
| spec_refused k d : d = [] \/ (sb < length d)%nat \/ m !! k = None -> spec b sb m (EvPut k d Refused) m
| spec_failed k d : spec b sb m (EvPut k d WriteFailed) (delete k m)
| spec_hit k d : m !! k = Some d -> spec b sb m (EvGet k (Hit d)) m
| spec_not_found k : m !! k = None -> spec b sb m (EvGet k NotFound) m
| spec_read_failed k d i : m !! k = Some d -> ~ quiet b (length d) i -> spec b sb m (EvGet k (ReadFailed i)) m
| spec_erase k : spec b sb m (EvErase k (bool_decide (is_Some (m !! k)))) (delete k m).

Inductive spec_run (b : Backend) (sb : nat) : gmap bytes bytes -> list event -> gmap bytes bytes -> Prop :=
| run_nil m : spec_run b sb m [] m
| run_cons m e m1 evs m2 : spec b sb m e m1 -> spec_run b sb m1 evs m2 -> spec_run b sb m (e :: evs) m2.

Lemma spec_run_app b sb m1 e1 m2 e2 m3 :
  spec_run b sb m1 e1 m2 -> spec_run b sb m2 e2 m3 -> spec_run b sb m1 (e1 ++ e2) m3.
Proof. induction 1; [done|]. intros R. cbn. econstructor; eauto. Qed.

Lemma spec_one b sb m e m' : spec b sb m e m' -> spec_run b sb m [e] m'.
Proof. intros S. econstructor; [exact S|constructor]. Qed.

(** The payload the index and the device hold for a key. *)
Definition content (s : Tier) (k : bytes) : option bytes :=
  e ← index_ s !! k; f ← fd_ s; Some (slice (offset (slot_id e) s) (e_bytes e) f).

Definition writes (p : pc) : Prop := match p with PutWriting _ _ _ | PutUndo _ _ => True | _ => False end.
Definition no_writer (k : bytes) (th : gmap nat pc) : Prop := map_Forall (fun _ p => pc_key p = k -> ~ writes p) th.

(** What a thread relies on between its steps. *)
Definition thread_ok (s : Tier) (p : pc) : Prop :=
  match p with
  | PutWriting k d slot => index_ s !! k = Some (mkEntry slot (length d))
  | PutUndo k _ => is_Some (index_ s !! k)
  | GetSized k cap => exists e, index_ s !! k = Some e /\ cap = e_bytes e
  | GetReading k cap e => index_ s !! k = Some e /\ cap = e_bytes e
  end.

Definition exclusive (th : gmap nat pc) : Prop :=
  forall t1 t2 p1 p2, th !! t1 = Some p1 -> th !! t2 = Some p2 -> pc_key p1 = pc_key p2 -> t1 = t2.

Record TierInv (b : Backend) (sb count : nat) (s : Tier) : Prop := {
  i_backend : backend_ s = b;
  i_sb : slot_bytes_ s = sb;
  i_count : slot_count_ s = count;
  i_ok : backend_ok s;
  i_fd : exists f, fd_ s = Some f /\ (count * sb <= length f)%nat;
  i_slots : free_stack_ s ++ fields slot_id (index_ s) ≡ₚ seq 0 count;
  i_in_use : in_use_ s = Z.of_nat (size (index_ s));
  i_bytes : map_Forall (fun _ e => (0 < e_bytes e <= sb)%nat) (index_ s) }.

Record Inv (b : Backend) (sb count : nat) (st : State) (m : gmap bytes bytes) : Prop := {
  i_tier : TierInv b sb count (tier st);
  i_threads : map_Forall (fun _ p => thread_ok (tier st) p) (threads st);
  i_excl : exclusive (threads st);
  i_agree : forall k, no_writer k (threads st) -> content (tier st) k = m !! k }.

Lemma pc_ok_frame s s' p : index_ s' !! pc_key p = index_ s !! pc_key p -> thread_ok s p -> thread_ok s' p.
Proof. intros E. destruct p; cbn in *; by rewrite E. Qed.

Lemma content_frame s s' k :
  index_ s' !! k = index_ s !! k -> fd_ s' = fd_ s -> slot_bytes_ s' = slot_bytes_ s -> content s' k = content s k.
Proof. unfold content, offset. by intros -> -> ->. Qed.

Lemma exclusive_idle th t p : exclusive th -> th !! t = Some p -> idle (pc_key p) (delete t th).
Proof.
  intros X E t' p' E' K. apply lookup_delete_Some in E' as [N E']. apply N. by apply (X t t' p p').
Qed.

Lemma idle_delete k t th : idle k th -> idle k (delete t th).
Proof. intros Id t' p' E. apply lookup_delete_Some in E as [_ E]. by apply (Id t'). Qed.

Lemma idle_no_writer k th : idle k th -> no_writer k th.
Proof. intros Id t p E K. by destruct (Id t p E). Qed.

Lemma Inv_step b sb count s th m s' th' m' t k :
  Inv b sb count (mkState s th) m -> TierInv b sb count s' ->
  (forall k', k' <> k -> index_ s' !! k' = index_ s !! k' /\ content s' k' = content s k' /\ m' !! k' = m !! k') ->
  (forall t', t' <> t -> th' !! t' = th !! t') -> idle k (delete t th) ->
  (forall p, th !! t = Some p -> pc_key p = k) ->
  (forall p, th' !! t = Some p -> pc_key p = k /\ thread_ok s' p) ->
  ((forall p, th' !! t = Some p -> ~ writes p) -> content s' k = m' !! k) ->
  Inv b sb count (mkState s' th') m'.
Proof.
  intros I T Fr Th Id K0 K1 A. destruct I as [_ It Ix Ia]. cbn [tier threads] in *.
  assert (Ko : forall t' p, t' <> t -> th' !! t' = Some p -> th !! t' = Some p /\ pc_key p <> k).
  { intros t' p N E. rewrite Th in E by done. split; [done|]. apply (Id t'). by rewrite lookup_delete_ne. }
  constructor; cbn [tier threads]; [done| | |].
  - intros t' p E. destruct (decide (t' = t)) as [->|N]; [by apply K1|].
    destruct (Ko _ _ N E) as [E' Nk]. apply (pc_ok_frame s); [by apply Fr|by apply (It t')].
  - intros t1 t2 p1 p2 E1 E2 K. destruct (decide (t1 = t)) as [->|N1], (decide (t2 = t)) as [->|N2]; [done| | |].
    + destruct (Ko _ _ N2 E2), (K1 _ E1). congruence.
    + destruct (Ko _ _ N1 E1), (K1 _ E2). congruence.
    + destruct (Ko _ _ N1 E1), (Ko _ _ N2 E2). by apply (Ix t1 t2 p1 p2).
  - intros k' W. destruct (decide (k' = k)) as [->|N].
    + apply A. intros p E. apply (W t p E). by apply K1.
    + destruct (Fr k' N) as (_ & -> & ->). apply Ia. intros t' p E Kp.
      destruct (decide (t' = t)) as [->|Nt]; [by rewrite (K0 p E) in Kp|]. apply (W t'); [by rewrite Th|done].
Qed.

(** ** The steps on the tier *)

Lemma reserve_spec b sb count k n s slot s1 :
  TierInv b sb count s -> put_reserve k n s = Some (slot, s1) ->
  TierInv b sb count s1 /\ index_ s1 = <[k := mkEntry slot n]> (index_ s) /\ fd_ s1 = fd_ s /\ (0 < n <= sb)%nat.
Proof.
  intros [Ib Is Ic Io If Il Iu Iy]. unfold put_reserve. rewrite Is.
  destruct ((n =? 0)%nat || (sb <? n)%nat) eqn:B; [done|]. apply orb_false_iff in B as [B1 B2].
  apply Nat.eqb_neq in B1. apply Nat.ltb_ge in B2.
  destruct (index_ s !! k) as [e|] eqn:E; [|destruct (free_stack_ s) as [|x r] eqn:Fs; [done|]]; intros [= <- <-];
    (split; [constructor; cbn [backend_ slot_bytes_ slot_count_ fd_ free_stack_ index_ in_use_ set_index]|]); try done.
  - rewrite <- Il. apply Permutation_app_head. by apply (fields_update _ _ _ e).
  - rewrite map_size_insert, E. done.
  - apply map_Forall_insert_2; [cbn; lia|done].
  - split; [done|split; [done|lia]].
  - rewrite <- Il, fields_insert by done. cbn. by rewrite Permutation_middle.
  - rewrite map_size_insert, E. cbn [slot_id]. lia.
  - apply map_Forall_insert_2; [cbn; lia|done].
  - split; [done|split; [done|lia]].
Qed.

Lemma reserve_None k n s : put_reserve k n s = None -> n = 0%nat \/ (slot_bytes_ s < n)%nat \/ index_ s !! k = None.
Proof.
  unfold put_reserve. destruct (n =? 0)%nat eqn:B1; [apply Nat.eqb_eq in B1; auto|].
  destruct (slot_bytes_ s <? n)%nat eqn:B2; [apply Nat.ltb_lt in B2; auto|]. cbn [orb].
  destruct (index_ s !! k); [done|auto].
Qed.

Lemma Erase_spec b sb count k s :
  TierInv b sb count s ->
  TierInv b sb count (Erase k s).2 /\ index_ (Erase k s).2 = delete k (index_ s) /\ fd_ (Erase k s).2 = fd_ s /\
  (Erase k s).1 = bool_decide (is_Some (index_ s !! k)).
Proof.
  intros I. unfold Erase. destruct (index_ s !! k) as [e|] eqn:E; cbn [fst snd].
  - destruct I as [Ib Is Ic Io If Il Iu Iy].
    split; [constructor; cbn [backend_ slot_bytes_ slot_count_ fd_ free_stack_ index_ in_use_ set_index]; try done|].
    + rewrite <- Il, (fields_delete slot_id _ _ _ E). cbn. by rewrite Permutation_middle.
    + rewrite map_size_delete, E. pose proof (map_size_ne_0_lookup_2 (index_ s) k (mk_is_Some _ _ E)). lia.
    + by apply map_Forall_delete.
    + split; [done|split; [done|]]. symmetry. by apply bool_decide_eq_true_2.
  - rewrite delete_id by done. split; [done|split; [done|split; [done|]]]. symmetry.
    apply bool_decide_eq_false_2. intros []. done.
Qed.

Lemma slot_bound b sb count s k e f :
  TierInv b sb count s -> index_ s !! k = Some e -> fd_ s = Some f ->
  (offset (slot_id e) s + slot_bytes_ s <= length f)%nat.
Proof.
  intros I E F. destruct (i_fd _ _ _ _ I) as (f' & F' & L). simplify_eq.
  assert (In : slot_id e ∈ seq 0 count).
  { rewrite <- (i_slots _ _ _ _ I). apply elem_of_app. right. by apply (fields_elem slot_id _ k). }
  apply elem_of_seq in In. unfold offset. rewrite (i_sb _ _ _ _ I). nia.
Qed.

Lemma slots_differ b sb count s k k' e e' :
  TierInv b sb count s -> k' <> k -> index_ s !! k = Some e -> index_ s !! k' = Some e' -> slot_id e' <> slot_id e.
Proof.
  intros I N E E' Q. apply N. pose proof (NoDup_seq 0 count) as D. rewrite <- (i_slots _ _ _ _ I) in D.
  apply NoDup_app in D as (_ & _ & D). by apply (fields_distinct _ _ _ _ _ _ D E' E).
Qed.

Lemma write_spec b sb count s k d slot i ok s' :
  TierInv b sb count s -> index_ s !! k = Some (mkEntry slot (length d)) -> put_write i slot d s = (ok, s') ->
  TierInv b sb count s' /\ index_ s' = index_ s /\ (forall k', k' <> k -> content s' k' = content s k') /\
  (ok = true -> content s' k = Some d).
Proof.
  intros I E P. destruct (i_fd _ _ _ _ I) as (f & F & L). pose proof (slot_bound _ _ _ _ _ _ _ I E F) as B.
  pose proof (i_bytes _ _ _ _ I _ _ E) as Y. cbn [slot_id e_bytes] in *. pose proof (i_sb _ _ _ _ I) as Sb.
  destruct (put_write_spec i slot d s f ok s' (i_ok _ _ _ _ I) F B ltac:(lia) P) as (f' & -> & O & S).
  split; [|split; [done|split]].
  - destruct I as [Ib Is Ic Io If Il Iu Iy]. constructor; try done. exists f'. split; [done|]. destruct O. cbn in *. lia.
  - intros k' N. unfold content. cbn [set_fd index_ fd_ mbind option_bind]. rewrite F.
    destruct (index_ s !! k') as [e'|] eqn:E'; [|done]. cbn [mbind option_bind]. f_equal.
    pose proof (slots_differ _ _ _ _ _ _ _ _ I N E E') as D. cbn [slot_id] in D.
    pose proof (i_bytes _ _ _ _ I _ _ E') as Y'. cbn in Y'.
    apply (slice_only_at _ _ _ _ _ _ O). unfold offset. cbn [slot_bytes_ set_fd]. rewrite Sb.
    destruct (decide (slot_id e' < slot)%nat); [left|right]; nia.
  - intros ->. unfold content. cbn [set_fd index_ fd_]. rewrite E. cbn. f_equal. by apply S.
Qed.

(** ** Every step is allowed by the contract *)

Section Steps.
Context (b : Backend) (sb count : nat).

Definition simulated (st : State) (m : gmap bytes bytes) (a : action) : Prop :=
  forall evs st', act a st = Some (evs, st') -> exists m', spec_run b sb m evs m' /\ Inv b sb count st' m'.

Lemma PutStart_simulated t k d s th m :
  Inv b sb count (mkState s th) m -> idle k th -> simulated (mkState s th) m (PutStart t k d).
Proof.
  intros I Id evs st'. pose proof (i_tier _ _ _ _ _ I) as T. cbn [act tier] in *.
  destruct (th !! t) eqn:Et; [done|]. destruct (put_reserve k (length d) s) as [[slot s1]|] eqn:P; intros [= <- <-].
  - destruct (reserve_spec _ _ _ _ _ _ _ _ T P) as (T1 & Ix & Fd & _). exists m. split; [constructor|].
    apply (Inv_step b sb count s th m _ _ _ t k); try done.
    + intros k' N. assert (X : index_ s1 !! k' = index_ s !! k') by (rewrite Ix; by rewrite lookup_insert_ne).
      split; [done|split; [|done]]. apply content_frame; [done|done|]. by rewrite (i_sb _ _ _ _ T), (i_sb _ _ _ _ T1).
    + intros t' N. by rewrite lookup_insert_ne.
    + by apply idle_delete.
    + intros p. by rewrite Et.
    + intros p. rewrite lookup_insert_eq. intros [= <-]. split; [done|]. cbn. rewrite Ix. apply lookup_insert_eq.
    + intros W. exfalso. apply (W (PutWriting k d slot)); [apply lookup_insert_eq|done].
  - exists m. split; [|done]. apply spec_one, spec_refused.
    destruct (reserve_None _ _ _ P) as [L|[L|L]]; [left; by apply nil_length_inv|rewrite (i_sb _ _ _ _ T) in L; auto|].
    right. right. rewrite <- (i_agree _ _ _ _ _ I k) by by apply idle_no_writer. unfold content. cbn. by rewrite L.
Qed.

Lemma PutDevice_simulated t i s th m :
  Inv b sb count (mkState s th) m -> simulated (mkState s th) m (PutDevice t i).
Proof.
  intros I evs st'. pose proof (i_tier _ _ _ _ _ I) as T. cbn [act tier] in *.
  destruct (th !! t) as [[k d slot| | |]|] eqn:Et; try done. destruct (put_write i slot d s) as [ok s2] eqn:P.
  pose proof (i_threads _ _ _ _ _ I t _ Et) as E. cbn in E.
  destruct (write_spec _ _ _ _ _ _ _ _ _ _ T E P) as (T2 & Ix & Fr & Ok).
  pose proof (exclusive_idle _ _ _ (i_excl _ _ _ _ _ I) Et) as Id. cbn [pc_key threads] in Id.
  assert (Y : (0 < length d <= sb)%nat) by apply (i_bytes _ _ _ _ T _ _ E).
  destruct ok; intros [= <- <-].
  - exists (<[k := d]> m). split; [apply spec_one; destruct (put_sync i s2); by constructor|].
    apply (Inv_step b sb count s th m _ _ _ t k); try done.
    + intros k' N. rewrite Ix, lookup_insert_ne by done. auto.
    + intros t' N. by rewrite lookup_delete_ne.
    + intros p. rewrite Et. by intros [= <-].
    + intros p. by rewrite lookup_delete_eq.
    + intros _. rewrite lookup_insert_eq. by apply Ok.
  - exists m. split; [constructor|]. apply (Inv_step b sb count s th m _ _ _ t k); try done.
    + intros k' N. rewrite Ix. auto.
    + intros t' N. by rewrite lookup_insert_ne.
    + intros p. rewrite Et. by intros [= <-].
    + intros p. rewrite lookup_insert_eq. intros [= <-]. split; [done|]. cbn. rewrite Ix, E. eauto.
    + intros W. exfalso. apply (W (PutUndo k d)); [apply lookup_insert_eq|done].
Qed.

(** A removal from the index, by [Erase] or by the rollback of [Put]. *)
Lemma erase_Inv t k s th m :
  Inv b sb count (mkState s th) m -> idle k (delete t th) -> (forall p, th !! t = Some p -> pc_key p = k) ->
  Inv b sb count (mkState (Erase k s).2 (delete t th)) (delete k m).
Proof.
  intros I Id K. pose proof (i_tier _ _ _ _ _ I) as T. destruct (Erase_spec _ _ _ k _ T) as (T2 & Ix & Fd & _). cbn [tier] in *.
  apply (Inv_step b sb count s th m _ _ _ t k); try done.
  - intros k' N. rewrite Ix, !lookup_delete_ne by done. split; [done|split; [|done]].
    apply content_frame; [by rewrite Ix, lookup_delete_ne|done|]. by rewrite (i_sb _ _ _ _ T), (i_sb _ _ _ _ T2).
  - intros t' N. by rewrite lookup_delete_ne.
  - intros p. by rewrite lookup_delete_eq.
  - intros _. unfold content. by rewrite Ix, !lookup_delete_eq.
Qed.

Lemma sole_no_writer t k th :
  idle k (delete t th) -> (forall p, th !! t = Some p -> ~ writes p) -> no_writer k th.
Proof.
  intros Id K t' p E Kp. destruct (decide (t' = t)) as [->|N]; [by apply K|].
  exfalso. apply (Id t' p); [by rewrite lookup_delete_ne|done].
Qed.

(** A step of a [Get]: the tier does not change. *)
Lemma get_Inv t k s th th' m :
  Inv b sb count (mkState s th) m -> idle k (delete t th) ->
  (forall p, th !! t = Some p -> pc_key p = k /\ ~ writes p) -> (forall t', t' <> t -> th' !! t' = th !! t') ->
  (forall p, th' !! t = Some p -> pc_key p = k /\ thread_ok s p) -> Inv b sb count (mkState s th') m.
Proof.
  intros I Id K0 Th K1. apply (Inv_step b sb count s th m _ _ _ t k); try done.
  - apply (i_tier _ _ _ _ _ I).
  - intros p E. by apply K0.
  - intros _. apply (i_agree _ _ _ _ _ I), (sole_no_writer t); [done|]. intros p E. by apply K0.
Qed.

Lemma PutRollback_simulated t s th m :
  Inv b sb count (mkState s th) m -> simulated (mkState s th) m (PutRollback t).
Proof.
  intros I evs st'. cbn [act]. destruct (th !! t) as [[|k d| |]|] eqn:Et; try done. intros [= <- <-].
  exists (delete k m). split; [apply spec_one; constructor|]. apply erase_Inv; [done| |].
  - apply (exclusive_idle _ _ _ (i_excl _ _ _ _ _ I) Et).
  - intros p. rewrite Et. by intros [= <-].
Qed.

Lemma EraseCall_simulated k s th m :
  Inv b sb count (mkState s th) m -> idle k th -> simulated (mkState s th) m (EraseCall k).
Proof.
  intros I Id evs st'. pose proof (i_tier _ _ _ _ _ I) as T. cbn [act tier] in *.
  destruct (Erase_spec _ _ _ k _ T) as (_ & _ & _ & Eb). destruct (i_fd _ _ _ _ T) as (f & F & _).
  assert (Fresh : exists t, th !! t = None).
  { exists (fresh (dom th)). apply not_elem_of_dom, is_fresh. }
  destruct Fresh as [t Et]. pose proof (erase_Inv t k s th m I (idle_delete k t th Id) ltac:(by intros p; rewrite Et)) as I2.
  rewrite (delete_id th t Et) in I2. destruct (Erase k s) as [r s'] eqn:P. intros [= <- <-].
  exists (delete k m). split; [apply spec_one|done]. cbn [fst] in Eb.
  replace r with (bool_decide (is_Some (m !! k))); [constructor|]. rewrite Eb. apply bool_decide_ext.
  rewrite <- (i_agree _ _ _ _ _ I k) by by apply idle_no_writer. unfold content. cbn [tier]. rewrite F.
  destruct (index_ s !! k); cbn; [|done]. split; intros _; eauto.
Qed.

Lemma GetStart_simulated t k s th m :
  Inv b sb count (mkState s th) m -> idle k th -> simulated (mkState s th) m (GetStart t k).
Proof.
  intros I Id evs st'. cbn [act]. destruct (th !! t) eqn:Et; [done|].
  destruct (index_ s !! k) as [e|] eqn:E; intros [= <- <-].
  - exists m. split; [constructor|]. apply (get_Inv t k s th); try done; [by apply idle_delete| | |].
    + intros p. by rewrite Et.
    + intros t' N. by rewrite lookup_insert_ne.
    + intros p. rewrite lookup_insert_eq. intros [= <-]. split; [done|]. cbn. eauto.
  - exists m. split; [|done]. apply spec_one, spec_not_found.
    rewrite <- (i_agree _ _ _ _ _ I k) by by apply idle_no_writer. unfold content. cbn. by rewrite E.
Qed.

Lemma GetAgain_simulated t s th m :
  Inv b sb count (mkState s th) m -> simulated (mkState s th) m (GetAgain t).
Proof.
  intros I evs st'. cbn [act]. destruct (th !! t) as [[| |k cap|]|] eqn:Et; try done.
  destruct (i_threads _ _ _ _ _ I t _ Et) as (e & E & ->). cbn [tier] in E. rewrite E, Nat.ltb_irrefl.
  intros [= <- <-]. exists m. split; [constructor|]. apply (get_Inv t k s th); try done.
  - apply (exclusive_idle _ _ _ (i_excl _ _ _ _ _ I) Et).
  - intros p. rewrite Et. by intros [= <-]; split; [|intros []].
  - intros t' N. by rewrite lookup_insert_ne.
  - intros p. rewrite lookup_insert_eq. by intros [= <-].
Qed.

Lemma GetDevice_simulated t i s th m :
  Inv b sb count (mkState s th) m -> simulated (mkState s th) m (GetDevice t i).
Proof.
  intros I evs st'. pose proof (i_tier _ _ _ _ _ I) as T. cbn [act tier] in *.
  destruct (th !! t) as [[| | |k cap e]|] eqn:Et; try done.
  destruct (i_threads _ _ _ _ _ I t _ Et) as (E & ->). cbn [tier] in E.
  pose proof (exclusive_idle _ _ _ (i_excl _ _ _ _ _ I) Et) as Id. cbn [threads pc_key] in Id.
  destruct (i_fd _ _ _ _ T) as (f & F & _). pose proof (slot_bound _ _ _ _ _ _ _ T E F) as B.
  pose proof (i_bytes _ _ _ _ T _ _ E) as Y. cbn in Y. pose proof (i_sb _ _ _ _ T) as Sb.
  set (d := slice (offset (slot_id e) s) (e_bytes e) f). assert (Ld : length d = e_bytes e) by (apply length_slice; lia).
  assert (M : m !! k = Some d).
  { rewrite <- (i_agree _ _ _ _ _ I k); [unfold content; cbn [tier]; by rewrite E, F|].
    apply (sole_no_writer t); [done|]. cbn. intros p. rewrite Et. by intros [= <-] []. }
  intros [= <- <-]. exists m. split; [apply spec_one|].
  - destruct (get_read i e s) as [d'|] eqn:G.
    + apply (get_read_sound _ _ _ f) in G as ->; [|apply (i_ok _ _ _ _ T)|done|lia]. fold d. rewrite <- Ld, resize_all. by constructor.
    + apply (spec_read_failed _ _ _ _ d); [done|]. rewrite Ld. intros Q. rewrite <- (i_backend _ _ _ _ T) in Q.
      rewrite (get_read_quiet i e s f) in G; [done|apply (i_ok _ _ _ _ T)|done|done|lia|done].
  - apply (get_Inv t k s th); try done.
    + intros p. rewrite Et. by intros [= <-]; split; [|intros []].
    + intros t' N. by rewrite lookup_delete_ne.
    + intros p. by rewrite lookup_delete_eq.
Qed.

End Steps.

Lemma run_WorldInv b sb count acts : forall st m evs st',
  Inv b sb count st m -> run true acts st = Some (evs, st') ->
  exists m', spec_run b sb m evs m' /\ Inv b sb count st' m'.
Proof.
  induction acts as [|a acts IH]; intros st m evs st' I R; cbn [run] in R.
  { injection R as <- <-. exists m. split; [constructor|done]. }
  cbn [negb orb] in R. destruct (allowed a st) eqn:Al; [|done]. destruct (act a st) as [[e1 st1]|] eqn:Ea; [|done].
  cbn in R. destruct (run true acts st1) as [[e2 st2]|] eqn:Er; [|done]. injection R as <- <-.
  assert (S : simulated b sb count st m a).
  { destruct st as [s th]. destruct a; cbn [allowed threads] in Al; try apply bool_decide_eq_true_1 in Al;
      eauto using PutStart_simulated, PutDevice_simulated, PutRollback_simulated, GetStart_simulated,
        GetAgain_simulated, GetDevice_simulated, EraseCall_simulated. }
  destruct (S _ _ Ea) as (m1 & S1 & I1). destruct (IH _ _ _ _ I1 Er) as (m2 & S2 & I2).
  exists m2. split; [by eapply spec_run_app|done].
Qed.

(** ** Whole calls, one after another *)

Lemma Put_spec b sb count i k d s :
  TierInv b sb count s ->
  TierInv b sb count (Put i k d s).2 /\ (forall k', k' <> k -> content (Put i k d s).2 k' = content s k') /\
  (if (Put i k d s).1 then content (Put i k d s).2 k = Some d
   else content (Put i k d s).2 k = content s k \/ content (Put i k d s).2 k = None \/ content (Put i k d s).2 k = Some d).
Proof.
  intros T. unfold Put. destruct (put_reserve k (length d) s) as [[slot s1]|] eqn:P; [|cbn; by auto].
  destruct (reserve_spec _ _ _ _ _ _ _ _ T P) as (T1 & Ix & Fd & _).
  destruct (put_write i slot d s1) as [ok s2] eqn:W.
  destruct (write_spec b sb count s1 k d slot i ok s2) as (T2 & Ix2 & Fr & Ok); [done|by rewrite Ix, lookup_insert_eq|done|].
  assert (Fr' : forall k', k' <> k -> content s2 k' = content s k').
  { intros k' N. rewrite Fr by done. apply content_frame; [by rewrite Ix, lookup_insert_ne|done|].
    by rewrite (i_sb _ _ _ _ T), (i_sb _ _ _ _ T1). }
  destruct ok; cbn [fst snd].
  - split; [done|split; [done|]]. rewrite Ok by done. destruct (put_sync i s2); auto.
  - destruct (Erase_spec _ _ _ k _ T2) as (T3 & Ix3 & Fd3 & _). split; [done|split].
    + intros k' N. rewrite <- Fr' by done. apply content_frame; [by rewrite Ix3, lookup_delete_ne|done|].
      by rewrite (i_sb _ _ _ _ T2), (i_sb _ _ _ _ T3).
    + right. left. unfold content. by rewrite Ix3, lookup_delete_eq.
Qed.

Lemma Get_spec b sb count i k s :
  TierInv b sb count s ->
  match Get i k s with
  | Some d => content s k = Some d
  | None => forall d, content s k = Some d -> ~ quiet b (length d) i
  end.
Proof.
  intros T. unfold Get, get_into, content. destruct (i_fd _ _ _ _ T) as (f & F & _). rewrite F.
  destruct (index_ s !! k) as [e|] eqn:E; [|done]. cbn [mbind option_bind]. rewrite Nat.ltb_irrefl.
  pose proof (slot_bound _ _ _ _ _ _ _ T E F) as B. pose proof (i_bytes _ _ _ _ T _ _ E) as Y. cbn in Y.
  pose proof (i_sb _ _ _ _ T) as Sb. assert (L : length (slice (offset (slot_id e) s) (e_bytes e) f) = e_bytes e) by (apply length_slice; lia).
  destruct (get_read i e s) as [d|] eqn:G; cbn.
  - apply (get_read_sound _ _ _ f) in G; [|apply (i_ok _ _ _ _ T)|done|lia]. rewrite G. f_equal.
    rewrite <- L at 2. by rewrite resize_all.
  - intros d [= <-] Q. rewrite L, <- (i_backend _ _ _ _ T) in Q.
    rewrite (get_read_quiet i e s f) in G; [done|apply (i_ok _ _ _ _ T)|done|done|lia|done].
Qed.

Lemma Erase_content b sb count k s :
  TierInv b sb count s ->
  TierInv b sb count (Erase k s).2 /\
  forall k', content (Erase k s).2 k' = if bool_decide (k' = k) then None else content s k'.
Proof.
  intros T. destruct (Erase_spec _ _ _ k _ T) as (T2 & Ix & Fd & _). split; [done|]. intros k'. case_bool_decide as K.
  - subst. unfold content. by rewrite Ix, lookup_delete_eq.
  - apply content_frame; [by rewrite Ix, lookup_delete_ne|done|]. by rewrite (i_sb _ _ _ _ T), (i_sb _ _ _ _ T2).
Qed.

(** ** New tiers *)

(** The attached device holds the pool. *)
Definition device_fits (e : env) (o : Options) : Prop :=
  match device e with Some (dev, _) => pool_bytes o <= zlen dev | None => True end.

Lemma new_tier_Inv bk f o :
  0 < slot_bytes o -> 0 <= pool_bytes o -> backend_ok (new_tier bk (Some f) o) -> pool_bytes o <= zlen f ->
  TierInv bk (Z.to_nat (slot_bytes o)) (slot_count_ (new_tier bk (Some f) o)) (new_tier bk (Some f) o).
Proof.
  intros Sb Pb Ok L. constructor; try done.
  - exists f. split; [done|]. cbn. unfold u32. set (q := pool_bytes o / slot_bytes o).
    assert (0 <= q /\ q * slot_bytes o <= pool_bytes o) as [Q1 Q2] by (unfold q; split; [apply Z.div_pos; lia|];
      rewrite Z.mul_comm; apply Z.mul_div_le; lia).
    assert (0 <= q mod 2 ^ 32 <= q) by (split; [apply Z.mod_pos_bound; lia|apply Z.mod_le; lia]).
    rewrite <- Z2Nat.inj_mul by lia. apply Nat2Z.inj_le. rewrite Z2Nat.id by nia. nia.
  - cbn. by rewrite app_nil_r.
Qed.

Lemma Create_TierInv e o s :
  Create e o = Some s -> 0 <= pool_bytes o -> 0 <= slot_bytes o -> is_Some (fd_ s) -> device_fits e o ->
  TierInv (backend_ s) (slot_bytes_ s) (slot_count_ s) s /\ index_ s = ∅.
Proof.
  unfold Create, device_fits. intros C Pb Sb Fd Fit. destruct (_ || _) eqn:V in C; [done|].
  assert (0 < slot_bytes o) by (repeat (apply orb_false_iff in V as [V ?]); lia). clear V.
  destruct (use_spdk o).
  - destruct (have_spdk e).
    + case_bool_decide; [done|]. destruct (device e) as [[dev sector]|]; [|done].
      destruct (_ =? 0) eqn:M in C; [|done]. injection C as <-. split; [|done]. apply new_tier_Inv; try done.
      apply Z.eqb_eq in M. cbn. destruct sector as [|n]; [rewrite Zmod_0_r in M; lia|]. split; [lia|].
      apply Nat2Z.inj. rewrite Nat2Z.inj_mod, Z2Nat.id by lia. done.
    + unfold wire_uring in C. repeat (destruct (_ : bool) in C; try done); injection C as <-; by destruct Fd.
  - destruct (open_file e o) as [f|] eqn:O; [|done].
    assert (Lf : pool_bytes o <= zlen f).
    { unfold open_file in O. destruct (_ && _) in O; [|done]. destruct (_ && _) in O; [|done]. injection O as <-.
      rewrite length_resize. lia. }
    unfold wire_uring in C. destruct (_ && _) in C; [destruct (queue_init_ok e); [|done]|]; injection C as <-;
      (split; [by apply new_tier_Inv|done]).
Qed.

(** Unless SPDK is asked for in a build without it, the tier has its file or device. *)
Lemma Create_fd e o s : Create e o = Some s -> (use_spdk o = true -> have_spdk e = true) -> is_Some (fd_ s).
Proof.
  unfold Create. intros C U. destruct (_ || _) in C; [done|]. destruct (use_spdk o).
  - rewrite U in C by done. case_bool_decide; [done|]. destruct (device e) as [[dev sector]|]; [|done].
    destruct (_ =? 0) in C; [|done]. injection C as <-. eauto.
  - destruct (open_file e o); [|done]. unfold wire_uring in C.
    destruct (_ && _) in C; [destruct (queue_init_ok e); [|done]|]; injection C as <-; eauto.
Qed.

(** [C38] Over every interleaving of the steps of [Put], [Get] and [Erase] calls in which
    a call starts only while none on its key is under way, on a new tier with any of
    its three devices and whatever the device does, except that submissions to io_uring do
    not fail: the answers are those of a map from keys to payloads, in the order of the
    answers. A [Put] that answers true has stored its payload, one that failed in the write
    has dropped the key, a [Get] returns the payload stored last, and an existing key is
    never refused for space. Keys without a [Put] under way hold in the index and on the
    device what the map holds, and every slot is free or the slot of exactly one key. *)
Theorem nvme_interleavings e o s acts evs st :
  Create e o = Some s -> 0 <= pool_bytes o -> 0 <= slot_bytes o -> is_Some (fd_ s) -> device_fits e o ->
  run true acts (mkState s ∅) = Some (evs, st) ->
  exists m, spec_run (backend_ s) (slot_bytes_ s) ∅ evs m /\
    (forall k, no_writer k (threads st) -> content (tier st) k = m !! k) /\
    free_stack_ (tier st) ++ fields slot_id (index_ (tier st)) ≡ₚ seq 0 (slot_count_ s).
Proof.
  intros C Pb Sb Fd Fit R. destruct (Create_TierInv e o s C Pb Sb Fd Fit) as [T Ix].
  assert (I : Inv (backend_ s) (slot_bytes_ s) (slot_count_ s) (mkState s ∅) ∅).
  { constructor; [done|apply map_Forall_empty|by intros ????|]. intros k _. unfold content. cbn. by rewrite Ix. }
  destruct (run_WorldInv _ _ _ _ _ _ _ _ I R) as (m & S & I2). exists m. split; [done|].
  split; [apply (i_agree _ _ _ _ _ I2)|apply (i_slots _ _ _ _ (i_tier _ _ _ _ _ I2))].
Qed.

(** ** Witness and races *)

Definition w_env : env := mkEnv false false None true true None true.
Definition w_options : Options := mkOptions [x2f] 4 2 true true false false [].
Definition w_tier : Tier := new_tier Blocking (Some [x00; x00; x00; x00]) w_options.
Definition good : io := mkIo [] (Res 0) (Completed false) true.
Definition short : io := mkIo [Ret 1; Eintr; Err] (Res 0) (Completed false) true.
Definition w_acts : list action :=
  [PutStart 1 [x61] [x01; x02]; PutStart 2 [x62] [x03]; PutDevice 2 good; PutDevice 1 good; GetStart 1 [x61];
   PutStart 2 [x62] [x04; x05]; GetAgain 1; PutDevice 2 short; GetDevice 1 good; PutRollback 2; EraseCall [x61]].

Lemma nvme_interleavings_witness :
  exists evs st m, run true w_acts (mkState w_tier ∅) = Some (evs, st) /\
    spec_run Blocking 2 ∅ evs m /\ In (EvGet [x61] (Hit [x01; x02])) evs.
Proof.
  assert (is_Some (run true w_acts (mkState w_tier ∅))) as [[evs st] R] by (vm_compute; eauto).
  destruct (nvme_interleavings w_env w_options w_tier w_acts evs st) as (m & S & _); try done; try (vm_compute; eauto; congruence).
  exists evs, st, m. split; [done|]. split; [done|]. vm_compute in R. injection R as <- _. cbn. tauto.
Defined.

(** Two calls on one key: a [Put] of [a] has its slot but has not written yet when [a]
    is erased; the slot goes to [b], and the late write replaces the payload of [b]. *)
Example put_erase_race :
  fst <$> run false
    [PutStart 1 [x61] [x01; x01]; EraseCall [x61]; PutStart 2 [x62] [x02; x02]; PutDevice 2 good; PutDevice 1 good;
     GetStart 3 [x62]; GetAgain 3; GetDevice 3 good] (mkState w_tier ∅) =
  Some [EvErase [x61] true; EvPut [x62] [x02; x02] Stored; EvPut [x61] [x01; x01] Stored; EvGet [x62] (Hit [x01; x01])].
Proof. vm_compute. reflexivity. Qed.

(** A [Get] into a vector that is overtaken by a [Put] of a shorter payload returns the
    new payload filled up with zero bytes to the old length. *)
Example get_put_race :
  fst <$> run false
    [PutStart 1 [x61] [x01; x01]; PutDevice 1 good; GetStart 2 [x61]; PutStart 1 [x61] [x02]; PutDevice 1 good;
     GetAgain 2; GetDevice 2 good] (mkState w_tier ∅) =
  Some [EvPut [x61] [x01; x01] Stored; EvPut [x61] [x02] Stored; EvGet [x61] (Hit [x02; x00])].
Proof. vm_compute. reflexivity. Qed.

(** A write whose submission failed is executed with the next: the slot was given back and
    to another key, whose write succeeds and is then undone. *)
Example failed_submission_writes_late :
  let u := (DoOp Failed (SqWrite 0 2) [x01; x01] (mkRing [] (replicate 4 x00))).2 in
  DoOp (Submitted true [[x01; x01]] (Res 2)) (SqWrite 0 2) [x02; x02] u = (Some [], mkRing [] [x01; x01; x00; x00]).
Proof. vm_compute. reflexivity. Qed.

(** ** SPDK without SPDK *)

Lemma no_file_put i k d s : fd_ s = None -> (Put i k d s).1 = false /\ fd_ (Put i k d s).2 = None.
Proof.
  intros F. unfold Put, put_reserve. destruct (_ || _); [done|]. destruct (index_ s !! k) as [e|]; [|destruct (free_stack_ s); [done|]];
    unfold put_write, Erase; cbn [fd_ set_index]; rewrite F; cbn [fd_ set_index index_]; by rewrite lookup_insert_eq.
Qed.

(** A tier told to use SPDK in a build without it is created with a warning that it
    falls back to the file; but the file was never opened, and every [Put] fails. *)
Theorem spdk_fallback_fails e o s (puts : list (io * bytes * bytes)) i k d :
  Create e o = Some s -> use_spdk o = true -> have_spdk e = false ->
  (Put i k d (fold_left (fun s '(i, k, d) => (Put i k d s).2) puts s)).1 = false.
Proof.
  unfold Create. intros C U H. rewrite U, H in C. destruct (_ || _) in C; [done|].
  assert (F : fd_ s = None).
  { unfold wire_uring in C. destruct (_ && _) in C; [destruct (queue_init_ok e); [|done]|]; by injection C as <-. }
  apply no_file_put. apply (fold_left_inv (fun s => fd_ s = None)); [|done].
  intros s' [[i' k'] d'] F'. by apply no_file_put.
Qed.

End Nvme.
