(* ===== verification/TierManager.v ===== *)
(** * The tier manager

    [TierManager] of tier/tier_manager.cpp over its tiers: the pinned slots
    (Ingest.v), the DRAM cache (DramTier.v), the NVMe slots (NvmeTier.v) and any cold
    tier that satisfies the interface of ColdTier.v. A key is looked up in DRAM, then
    on NVMe, then in the cold tier, and a payload found in a colder tier is copied to
    the hotter ones. Each call is one step, as the tiers' own calls are when no two on
    the same key overlap.

    The theorems: a payload handed out for a key was stored for that key, whatever
    fails on the way ([fetch_coherent]); without faults [Fetch] returns the hottest
    copy, misses only when no tier has one, and leaves it in DRAM
    ([Fetch_hottest]). *)

From S2P Require Import Prelude Mtls DramTier NvmeTier Ingest Boundary ColdTier.
From Stdlib Require Import ZArith Lia.

Open Scope Z_scope.

Module TierManager.

(** ** State *)

Record Options := mkOptions {
  pinned : Ingest.PinnedOptions; dram : Dram.Options; nvme : Nvme.Options; enable_nvme : bool;
  cold : Cold.ColdTierOptions; enable_cold : bool;
  promote_cold_to_dram : bool; promote_cold_to_nvme : bool; promote_nvme_to_dram : bool }.

(** The cold tier's operations are those of [C]; its state is [None] where the tier is
    disabled. *)
Record Manager (C : Cold.IColdTier) := mkManager {
  opts_ : Options; pinned_ : Ingest.Pinned; dram_ : Dram.Tier; nvme_ : option Nvme.Tier; cold_ : option (Cold.St C) }.
Arguments mkManager {C}.
Arguments opts_ {C}.
Arguments pinned_ {C}.
Arguments dram_ {C}.
Arguments nvme_ {C}.
Arguments cold_ {C}.

(** What [Create] meets; the cold store has contents of its own, so what it builds
    still takes them. *)
Definition Create (mmap_ok : bool) (ne : Nvme.env) (ce : Cold.env) (o : Options) :
    option {C : Cold.IColdTier & Cold.St C -> Manager C} :=
  p ← Ingest.Create mmap_ok (pinned o);
  n ← (if enable_nvme o then Some <$> Nvme.Create ne (nvme o) else Some None);
  if enable_cold o
  then C ← Cold.CreateColdTier ce (cold o);
       Some (existT C (fun s => mkManager o p Dram.empty_tier n (Some s)))
  else Some (existT (Cold.FilesystemColdTier [] false) (fun _ => mkManager o p Dram.empty_tier n None)).

Definition SK_KV : Z := 0.

Inductive FetchHit := kDram | kNvme | kCold.

Section Operations.
Context {C : Cold.IColdTier}.
Implicit Types tm : Manager C.

Definition set_pinned p tm : Manager C := mkManager (opts_ tm) p (dram_ tm) (nvme_ tm) (cold_ tm).
Definition set_dram d tm : Manager C := mkManager (opts_ tm) (pinned_ tm) d (nvme_ tm) (cold_ tm).
Definition set_nvme n tm : Manager C := mkManager (opts_ tm) (pinned_ tm) (dram_ tm) n (cold_ tm).
Definition set_cold c tm : Manager C := mkManager (opts_ tm) (pinned_ tm) (dram_ tm) (nvme_ tm) c.

(** ** Operations *)

Definition AcquirePinnedSlot tm : option Z * Manager C :=
  let '(r, p) := Ingest.Acquire (pinned_ tm) in (r, set_pinned p tm).
Definition ReleasePinnedSlot (i : Z) tm : Manager C := set_pinned (Ingest.ReleaseSlot i (pinned_ tm)) tm.

(** The keys are those the DRAM tier reports as evicted. *)
Definition StageToDram (k d : bytes) (state_kind : Z) tm : list bytes * Manager C :=
  let '(ks, s) := Dram.Insert (dram (opts_ tm)) k d state_kind (dram_ tm) in (ks, set_dram s tm).
Definition LookupDram (k : bytes) tm : Dram.LookupResult * Manager C :=
  let '(r, s) := Dram.Lookup k (dram_ tm) in (r, set_dram s tm).
Definition PeekDram (k : bytes) tm : Dram.LookupResult := Dram.Peek k (dram_ tm).
Definition EraseDram (k : bytes) tm : bool * Manager C :=
  let '(r, s) := Dram.Erase k (dram_ tm) in (r, set_dram s tm).

Definition PutNvme (i : Nvme.io) (k d : bytes) tm : bool * Manager C :=
  match nvme_ tm with
  | None => (false, tm)
  | Some n => let '(ok, n') := Nvme.Put i k d n in (ok, set_nvme (Some n') tm)
  end.
Definition GetNvme (i : Nvme.io) (k : bytes) tm : option bytes := n ← nvme_ tm; Nvme.Get i k n.
Definition EraseNvme (k : bytes) tm : bool * Manager C :=
  match nvme_ tm with
  | None => (false, tm)
  | Some n => let '(ok, n') := Nvme.Erase k n in (ok, set_nvme (Some n') tm)
  end.

Definition PutCold (i : Cold.Io C) (k d : bytes) tm : bool * Manager C :=
  match cold_ tm with
  | None => (false, tm)
  | Some c => let '(ok, c') := Cold.Put C i k d c in (ok, set_cold (Some c') tm)
  end.
Definition GetCold (i : Cold.Io C) (k : bytes) tm : option bytes * Manager C :=
  match cold_ tm with
  | None => (None, tm)
  | Some c =>
      let '(r, c') := Cold.Get C i k c in
      (match r with Cold.GetOk d => Some d | Cold.GetFail _ => None end, set_cold (Some c') tm)
  end.
Definition EraseCold (i : Cold.Io C) (k : bytes) tm : bool * Manager C :=
  match cold_ tm with
  | None => (false, tm)
  | Some c => let '(ok, c') := Cold.Delete C i k c in (ok, set_cold (Some c') tm)
  end.

(** ** Fetch *)

Record fetch_io := mkFetchIo { nvme_get : Nvme.io; cold_get : Cold.Io C; nvme_put : Nvme.io }.

(** A conditional copy into DRAM or onto NVMe. *)
Definition to_dram (b : bool) (k d : bytes) tm : list bytes * Manager C :=
  if b then StageToDram k d SK_KV tm else ([], tm).
Definition to_nvme (b : bool) (i : Nvme.io) (k d : bytes) tm : Manager C := if b then (PutNvme i k d tm).2 else tm.

(** The answer (a miss is [None]), the keys DRAM evicted, and the manager. *)
Definition Fetch (i : fetch_io) (k : bytes) tm : option (FetchHit * bytes) * list bytes * Manager C :=
  let '(r, tm1) := LookupDram k tm in
  match r with
  | Dram.mkLookup (Dram.kA1in | Dram.kAm) (Some d) => (Some (kDram, d), [], tm1)
  | _ =>
      match GetNvme (nvme_get i) k tm1 with
      | Some d =>
          let '(ks, tm2) := to_dram (promote_nvme_to_dram (opts_ tm1)) k d tm1 in (Some (kNvme, d), ks, tm2)
      | None =>
          let '(r, tm2) := GetCold (cold_get i) k tm1 in
          match r with
          | Some d =>
              let tm3 := to_nvme (promote_cold_to_nvme (opts_ tm2)) (nvme_put i) k d tm2 in
              let '(ks, tm4) := to_dram (promote_cold_to_dram (opts_ tm3)) k d tm3 in
              (Some (kCold, d), ks, tm4)
          | None => (None, [], tm2)
          end
      end
  end.

End Operations.
Arguments fetch_io : clear implicits.

(** ** What each tier holds *)

Section Views.
Context {C : Cold.IColdTier} `{!Cold.Laws C}.
Implicit Types tm : Manager C.

Definition nvme_ok (n : Nvme.Tier) : Prop := exists b sb count, Nvme.TierInv b sb count n.

Record Inv tm : Prop := {
  inv_dram : Dram.Inv (dram (opts_ tm)) (dram_ tm);
  inv_nvme : forall n, nvme_ tm = Some n -> nvme_ok n }.

Definition dram_at tm (k : bytes) : option bytes := Dram.data <$> Dram.contents (dram_ tm) !! k.
Definition nvme_at tm (k : bytes) : option bytes := n ← nvme_ tm; Nvme.content n k.
Definition cold_at tm (k : bytes) : option bytes := c ← cold_ tm; Cold.view c k.

Lemma Inv_dram_only tm tm' :
  Inv tm -> nvme_ tm' = nvme_ tm -> Dram.Inv (dram (opts_ tm')) (dram_ tm') -> Inv tm'.
Proof. intros [_ N] E D. constructor; [done|]. by rewrite E. Qed.

Lemma StageToDram_at k d kind tm ks tm' :
  Inv tm -> StageToDram k d kind tm = (ks, tm') ->
  Inv tm' /\ opts_ tm' = opts_ tm /\ nvme_ tm' = nvme_ tm /\ cold_ tm' = cold_ tm /\
  (forall k', dram_at tm' k' = if bool_decide (k' ∈ ks) then None else if bool_decide (k' = k) then Some d else dram_at tm k') /\
  (dram_at tm k = None -> dram_at tm' k = Some d).
Proof.
  intros I. unfold StageToDram, dram_at. pose proof (Dram.Insert_spec _ k d kind _ (inv_dram _ I)) as X.
  pose proof (Dram.Insert_absent _ k d kind _ (inv_dram _ I)) as Y.
  destruct (Dram.Insert _ _ _ _ _) as [ks' s']. intros [= -> <-]. destruct X as (I' & _ & Co & _). cbn [dram_ opts_ nvme_ cold_ set_dram].
  split; [by apply (Inv_dram_only tm)|]. repeat (split; [done|]). split.
  - intros k'. rewrite Co. case_bool_decide; [done|]. unfold Dram.inserted. destruct (decide (k' = k)) as [->|K].
    + by rewrite lookup_insert_eq, (bool_decide_true (k = k)).
    + by rewrite lookup_insert_ne, (bool_decide_false (k' = k)).
  - intros N. destruct Y as (e & Ek & <-); [by destruct (Dram.contents (dram_ tm) !! k)|]. cbn [snd] in Ek. by rewrite Ek.
Qed.

Lemma LookupDram_at k tm r tm' :
  Inv tm -> LookupDram k tm = (r, tm') ->
  Inv tm' /\ opts_ tm' = opts_ tm /\ nvme_ tm' = nvme_ tm /\ cold_ tm' = cold_ tm /\
  (forall k', dram_at tm' k' = dram_at tm k') /\
  Dram.found r = dram_at tm k /\
  match r with
  | Dram.mkLookup (Dram.kA1in | Dram.kAm) (Some d) => dram_at tm k = Some d
  | _ => dram_at tm k = None
  end.
Proof.
  intros I. unfold LookupDram, dram_at. destruct (Dram.Lookup_Inv _ k _ (inv_dram _ I)) as [I' Co].
  destruct (Dram.Lookup k (dram_ tm)) as [r' s'] eqn:L. cbn [snd] in *. intros [= -> <-]. cbn [dram_ opts_ nvme_ cold_ set_dram].
  split; [by apply (Inv_dram_only tm)|]. repeat (split; [done|]). split; [by rewrite Co|].
  unfold Dram.Lookup in L. rewrite (Dram.entry_at_contents _ _ k (inv_dram _ I)) in L.
  destruct (Dram.contents (dram_ tm) !! k) as [e|].
  - destruct (Dram.q e); [|destruct (Dram.extract k _) as [[]|]]; by injection L as <- _.
  - case_bool_decide; by injection L as <- _.
Qed.

Lemma EraseDram_at k tm b tm' :
  Inv tm -> EraseDram k tm = (b, tm') ->
  Inv tm' /\ opts_ tm' = opts_ tm /\ nvme_ tm' = nvme_ tm /\ cold_ tm' = cold_ tm /\
  forall k', dram_at tm' k' = if bool_decide (k' = k) then None else dram_at tm k'.
Proof.
  intros I. unfold EraseDram, dram_at. destruct (Dram.Erase_Inv _ k _ (inv_dram _ I)) as [I' Co].
  destruct (Dram.Erase k (dram_ tm)) as [r' s'] eqn:L. cbn [snd] in *. intros [= -> <-]. cbn [dram_ opts_ nvme_ cold_ set_dram].
  split; [by apply (Inv_dram_only tm)|]. repeat (split; [done|]). intros k'. rewrite Co.
  case_bool_decide as K; [subst; by rewrite lookup_delete_eq|by rewrite lookup_delete_ne].
Qed.

Lemma Inv_nvme_only tm n : Inv tm -> nvme_ok n -> Inv (set_nvme (Some n) tm).
Proof. intros [D _] N. constructor; [done|]. by intros n' [= <-]. Qed.

Lemma PutNvme_at i k d tm ok tm' :
  Inv tm -> PutNvme i k d tm = (ok, tm') ->
  Inv tm' /\ opts_ tm' = opts_ tm /\ dram_ tm' = dram_ tm /\ cold_ tm' = cold_ tm /\
  (forall k', k' <> k -> nvme_at tm' k' = nvme_at tm k') /\
  (nvme_at tm' k = nvme_at tm k \/ nvme_at tm' k = None \/ nvme_at tm' k = Some d).
Proof.
  intros I. unfold PutNvme, nvme_at. destruct (nvme_ tm) as [n|] eqn:En; [|intros [= <- <-]; rewrite En; auto 7].
  destruct (inv_nvme _ I _ En) as (b & sb & count & T). destruct (Nvme.Put_spec b sb count i k d n T) as (T' & Fr & R).
  destruct (Nvme.Put i k d n) as [ok' n']. cbn [fst snd] in *. intros [= <- <-]. cbn [nvme_ set_nvme mbind option_bind].
  split; [apply Inv_nvme_only; [done|by exists b, sb, count]|]. repeat (split; [done|]). destruct ok'; auto.
Qed.

Lemma EraseNvme_at k tm ok tm' :
  Inv tm -> EraseNvme k tm = (ok, tm') ->
  Inv tm' /\ opts_ tm' = opts_ tm /\ dram_ tm' = dram_ tm /\ cold_ tm' = cold_ tm /\
  forall k', nvme_at tm' k' = if bool_decide (k' = k) then None else nvme_at tm k'.
Proof.
  intros I. unfold EraseNvme, nvme_at. destruct (nvme_ tm) as [n|] eqn:En;
    [|intros [= <- <-]; rewrite En; repeat (split; [done|]); intros k'; cbn; by case_bool_decide].
  destruct (inv_nvme _ I _ En) as (b & sb & count & T). destruct (Nvme.Erase_content b sb count k n T) as (T' & Fr).
  destruct (Nvme.Erase k n) as [ok' n']. cbn [fst snd] in *. intros [= <- <-]. cbn [nvme_ set_nvme mbind option_bind].
  split; [apply Inv_nvme_only; [done|by exists b, sb, count]|]. by repeat (split; [done|]).
Qed.

(** A read of NVMe without faults, whatever the length of the payload. *)
Definition nvme_quiet (i : Nvme.io) (k : bytes) tm : Prop :=
  forall n d, nvme_ tm = Some n -> Nvme.content n k = Some d -> Nvme.quiet (Nvme.backend_ n) (length d) i.

Lemma GetNvme_at i k tm :
  Inv tm ->
  match GetNvme i k tm with
  | Some d => nvme_at tm k = Some d
  | None => nvme_quiet i k tm -> nvme_at tm k = None
  end.
Proof.
  intros I. unfold GetNvme, nvme_at, nvme_quiet. destruct (nvme_ tm) as [n|] eqn:En; [|done]. cbn [mbind option_bind].
  destruct (inv_nvme _ I _ En) as (b & sb & count & T). pose proof (Nvme.Get_spec b sb count i k n T) as G.
  destruct (Nvme.Get i k n) as [d|]; [done|]. intros Q. destruct (Nvme.content n k) as [d|] eqn:Co; [|done].
  exfalso. apply (G d eq_refl). rewrite <- (Nvme.i_backend _ _ _ _ T). by apply (Q n d).
Qed.

Lemma Inv_cold_only tm c : Inv tm -> Inv (set_cold c tm).
Proof. by intros []. Qed.

Lemma PutCold_at i k d tm ok tm' :
  Inv tm -> Cold.key_ok k -> Cold.fits d -> PutCold i k d tm = (ok, tm') ->
  Inv tm' /\ opts_ tm' = opts_ tm /\ dram_ tm' = dram_ tm /\ nvme_ tm' = nvme_ tm /\
  (forall k', Cold.key_ok k' -> k' <> k -> cold_at tm' k' = cold_at tm k') /\
  (cold_at tm' k = cold_at tm k \/ cold_at tm' k = Some d).
Proof.
  intros I K F. unfold PutCold, cold_at. destruct (cold_ tm) as [c|] eqn:Ec; [|intros [= <- <-]; rewrite Ec; auto 7].
  destruct (Cold.Put C i k d c) as [ok' c'] eqn:P. intros [= <- <-]. cbn [cold_ set_cold mbind option_bind].
  split; [by apply Inv_cold_only|]. repeat (split; [done|]). split.
  - intros k' K' N. pose proof (Cold.put_others i k d c k' K K' N) as V. by rewrite P in V.
  - destruct ok'; [right; by apply (Cold.put_stored i k d c)|by apply (Cold.put_failed i k d c)].
Qed.

Lemma EraseCold_at i k tm ok tm' :
  Inv tm -> Cold.key_ok k -> EraseCold i k tm = (ok, tm') ->
  Inv tm' /\ opts_ tm' = opts_ tm /\ dram_ tm' = dram_ tm /\ nvme_ tm' = nvme_ tm /\
  (forall k', Cold.key_ok k' -> k' <> k -> cold_at tm' k' = cold_at tm k') /\
  (cold_at tm' k = None \/ cold_at tm' k = cold_at tm k).
Proof.
  intros I K. unfold EraseCold, cold_at. destruct (cold_ tm) as [c|] eqn:Ec; [|intros [= <- <-]; rewrite Ec; auto 7].
  pose proof (Cold.delete_others i k c) as V. pose proof (Cold.delete_kept i k c K) as G.
  destruct (Cold.Delete C i k c) as [ok' c']. intros [= <- <-]. cbn [cold_ set_cold mbind option_bind snd] in *.
  split; [by apply Inv_cold_only|]. repeat (split; [done|]). split; [|done]. intros k' K' N. by apply V.
Qed.

Lemma GetCold_at i k tm r tm' :
  Inv tm -> Cold.key_ok k -> GetCold i k tm = (r, tm') ->
  Inv tm' /\ opts_ tm' = opts_ tm /\ dram_ tm' = dram_ tm /\ nvme_ tm' = nvme_ tm /\
  (forall k', Cold.key_ok k' -> cold_at tm' k' = cold_at tm k') /\
  match r with Some d => cold_at tm k = Some d | None => Cold.quiet i -> cold_at tm k = None end.
Proof.
  intros I K. unfold GetCold, cold_at. destruct (cold_ tm) as [c|] eqn:Ec;
    [|intros [= <- <-]; rewrite Ec; by repeat (split; [done|])].
  pose proof (Cold.get_keeps i k c) as V. destruct (Cold.Get C i k c) as [r' c'] eqn:G. intros [= <- <-].
  cbn [cold_ set_cold mbind option_bind snd] in *. split; [by apply Inv_cold_only|]. repeat (split; [done|]).
  destruct r' as [d|]; [apply (Cold.get_sound i k); [done|by rewrite G]|]. intros Q.
  destruct (Cold.view c k) as [d|] eqn:W; [|done]. pose proof (Cold.get_quiet i k c d K Q W) as X. by rewrite G in X.
Qed.

(** ** Only what was stored comes back *)

Section Coherence.
(** [T k d]: the payload [d] belongs to the key [k]. *)
Variable T : bytes -> bytes -> Prop.

Definition within tm : Prop := forall k d, Cold.key_ok k ->
  dram_at tm k = Some d \/ nvme_at tm k = Some d \/ cold_at tm k = Some d -> T k d.

Definition good tm : Prop := Inv tm /\ within tm.

(** The views of the new state hold nothing but views of the old and payloads that
    belong to their key. *)
Lemma good_step tm tm' :
  good tm -> Inv tm' ->
  (forall k d, Cold.key_ok k -> dram_at tm' k = Some d -> dram_at tm k = Some d \/ T k d) ->
  (forall k d, Cold.key_ok k -> nvme_at tm' k = Some d -> nvme_at tm k = Some d \/ T k d) ->
  (forall k d, Cold.key_ok k -> cold_at tm' k = Some d -> cold_at tm k = Some d \/ T k d) -> good tm'.
Proof.
  intros [_ W] I D N Co. split; [done|]. intros k d K [E|[E|E]].
  - destruct (D k d K E) as [E'|]; [|done]. apply W; auto.
  - destruct (N k d K E) as [E'|]; [|done]. apply W; auto.
  - destruct (Co k d K E) as [E'|]; [|done]. apply W; auto.
Qed.

Lemma good_lookup k tm r tm' : good tm -> LookupDram k tm = (r, tm') -> good tm'.
Proof.
  intros G E. destruct (LookupDram_at _ _ _ _ (proj1 G) E) as (I & _ & N & Co & D & _).
  apply (good_step tm); unfold nvme_at, cold_at; rewrite ?N, ?Co; auto. intros k' d _. rewrite D. auto.
Qed.

Lemma good_stage k d kind tm ks tm' : good tm -> T k d -> StageToDram k d kind tm = (ks, tm') -> good tm'.
Proof.
  intros G P E. destruct (StageToDram_at _ _ _ _ _ _ (proj1 G) E) as (I & _ & N & Co & D & _).
  apply (good_step tm); unfold nvme_at, cold_at; rewrite ?N, ?Co; auto. intros k' d' _. rewrite D.
  case_bool_decide; [done|]. case_bool_decide; [|auto]. intros [= <-]. subst. auto.
Qed.

Lemma good_erase_dram k tm b tm' : good tm -> EraseDram k tm = (b, tm') -> good tm'.
Proof.
  intros G E. destruct (EraseDram_at _ _ _ _ (proj1 G) E) as (I & _ & N & Co & D).
  apply (good_step tm); unfold nvme_at, cold_at; rewrite ?N, ?Co; auto. intros k' d' _. rewrite D.
  case_bool_decide; [done|auto].
Qed.

Lemma good_put_nvme i k d tm ok tm' : good tm -> T k d -> PutNvme i k d tm = (ok, tm') -> good tm'.
Proof.
  intros G P E. destruct (PutNvme_at _ _ _ _ _ _ (proj1 G) E) as (I & _ & D & Co & N & Nk).
  apply (good_step tm); unfold dram_at, cold_at; rewrite ?D, ?Co; auto. intros k' d' _ E'.
  destruct (decide (k' = k)) as [->|Ne]; [|rewrite N in E' by done; auto].
  destruct Nk as [X|[X|X]]; rewrite X in E'; [auto|done|injection E' as <-; auto].
Qed.

Lemma good_erase_nvme k tm ok tm' : good tm -> EraseNvme k tm = (ok, tm') -> good tm'.
Proof.
  intros G E. destruct (EraseNvme_at _ _ _ _ (proj1 G) E) as (I & _ & D & Co & N).
  apply (good_step tm); unfold dram_at, cold_at; rewrite ?D, ?Co; auto. intros k' d' _. rewrite N.
  case_bool_decide; [done|auto].
Qed.

Lemma good_put_cold i k d tm ok tm' :
  good tm -> Cold.key_ok k -> Cold.fits d -> T k d -> PutCold i k d tm = (ok, tm') -> good tm'.
Proof.
  intros G K F P E. destruct (PutCold_at _ _ _ _ _ _ (proj1 G) K F E) as (I & _ & D & N & Co & Ck).
  apply (good_step tm); unfold dram_at, nvme_at; rewrite ?D, ?N; auto. intros k' d' K' E'.
  destruct (decide (k' = k)) as [->|Ne]; [|rewrite Co in E' by done; auto].
  destruct Ck as [X|X]; rewrite X in E'; [auto|injection E' as <-; auto].
Qed.

Lemma good_get_cold i k tm r tm' : good tm -> Cold.key_ok k -> GetCold i k tm = (r, tm') -> good tm'.
Proof.
  intros G K E. destruct (GetCold_at _ _ _ _ _ (proj1 G) K E) as (I & _ & D & N & Co & _).
  apply (good_step tm); unfold dram_at, nvme_at; rewrite ?D, ?N; auto. intros k' d' K'. rewrite Co by done. auto.
Qed.

Lemma good_erase_cold i k tm ok tm' : good tm -> Cold.key_ok k -> EraseCold i k tm = (ok, tm') -> good tm'.
Proof.
  intros G K E. destruct (EraseCold_at _ _ _ _ _ (proj1 G) K E) as (I & _ & D & N & Co & Ck).
  apply (good_step tm); unfold dram_at, nvme_at; rewrite ?D, ?N; auto. intros k' d' K' E'.
  destruct (decide (k' = k)) as [->|Ne]; [|rewrite Co in E' by done; auto].
  destruct Ck as [X|X]; rewrite X in E'; [done|auto].
Qed.

Lemma good_to_dram b k d tm ks tm' : good tm -> T k d -> to_dram b k d tm = (ks, tm') -> good tm'.
Proof. unfold to_dram. destruct b; [apply good_stage|by intros G _ [= _ <-]]. Qed.

Lemma good_to_nvme b i k d tm : good tm -> T k d -> good (to_nvme b i k d tm).
Proof.
  unfold to_nvme. destruct b; [|done]. intros G P. destruct (PutNvme i k d tm) as [ok tm'] eqn:E. by apply (good_put_nvme i k d tm ok).
Qed.

Lemma Fetch_good i k tm r ks tm' :
  good tm -> Cold.key_ok k -> Fetch i k tm = (r, ks, tm') ->
  good tm' /\ forall h d, r = Some (h, d) -> T k d.
Proof.
  intros G K. unfold Fetch. destruct (LookupDram k tm) as [r1 tm1] eqn:L. pose proof (good_lookup _ _ _ _ G L) as G1.
  destruct (LookupDram_at _ _ _ _ (proj1 G) L) as (_ & _ & _ & _ & _ & Fd & _).
  assert (Hit : forall d, Dram.found r1 = Some d -> T k d) by (intros d X; apply (proj2 G); [done|left; congruence]).
  set (below := match GetNvme _ _ _ with Some _ => _ | None => _ end).
  assert (Below : below = (r, ks, tm') -> good tm' /\ forall h d, r = Some (h, d) -> T k d).
  { unfold below. pose proof (GetNvme_at (nvme_get i) k tm1 (proj1 G1)) as Gn. destruct (GetNvme _ _ _) as [d|].
    - assert (P : T k d) by (apply (proj2 G1); auto). destruct (to_dram _ _ _ _) as [ks2 tm2] eqn:Td. intros [= <- <- <-].
      split; [by eapply good_to_dram|]. by intros h d' [= _ <-].
    - destruct (GetCold _ _ _) as [r2 tm2] eqn:Gc. pose proof (good_get_cold _ _ _ _ _ G1 K Gc) as G2.
      destruct (GetCold_at _ _ _ _ _ (proj1 G1) K Gc) as (_ & _ & _ & _ & _ & Cd). destruct r2 as [d|]; [|by intros [= <- <- <-]].
      assert (P : T k d) by (apply (proj2 G1); auto). pose proof (good_to_nvme (promote_cold_to_nvme (opts_ tm2)) (nvme_put i) k d tm2 G2 P) as G3.
      destruct (to_dram _ _ _ _) as [ks4 tm4] eqn:Td. intros [= <- <- <-]. split; [by eapply good_to_dram|]. by intros h d' [= _ <-]. }
  destruct r1 as [w [d|]]; [|by destruct w]. destruct w; try exact Below; intros [= <- <- <-];
    (split; [done|]); intros h d' [= _ <-]; by apply Hit.
Qed.

End Coherence.

(** ** Sequences of calls *)

Inductive op :=
| OStage (k d : bytes) (kind : Z) | OLookup (k : bytes) | OEraseDram (k : bytes)
| OPutNvme (i : Nvme.io) (k d : bytes) | OGetNvme (i : Nvme.io) (k : bytes) | OEraseNvme (k : bytes)
| OPutCold (i : Cold.Io C) (k d : bytes) | OGetCold (i : Cold.Io C) (k : bytes) | OEraseCold (i : Cold.Io C) (k : bytes)
| OFetch (i : fetch_io C) (k : bytes).

(** The key and payload a call hands out, if any. *)
Definition exec (o : op) tm : option (bytes * bytes) * Manager C :=
  match o with
  | OStage k d kind => (None, (StageToDram k d kind tm).2)
  | OLookup k => let '(r, tm') := LookupDram k tm in ((fun d => (k, d)) <$> Dram.found r, tm')
  | OEraseDram k => (None, (EraseDram k tm).2)
  | OPutNvme i k d => (None, (PutNvme i k d tm).2)
  | OGetNvme i k => ((fun d => (k, d)) <$> GetNvme i k tm, tm)
  | OEraseNvme k => (None, (EraseNvme k tm).2)
  | OPutCold i k d => (None, (PutCold i k d tm).2)
  | OGetCold i k => let '(r, tm') := GetCold i k tm in ((fun d => (k, d)) <$> r, tm')
  | OEraseCold i k => (None, (EraseCold i k tm).2)
  | OFetch i k => let '(r, _, tm') := Fetch i k tm in ((fun hd => (k, hd.2)) <$> r, tm')
  end.

Fixpoint run (ops : list op) tm : list (bytes * bytes) * Manager C :=
  match ops with
  | [] => ([], tm)
  | o :: r => let '(a, tm1) := exec o tm in let '(l, tm2) := run r tm1 in (option_list a ++ l, tm2)
  end.

Definition op_key (o : op) : bytes :=
  match o with
  | OStage k _ _ | OLookup k | OEraseDram k | OPutNvme _ k _ | OGetNvme _ k | OEraseNvme k
  | OPutCold _ k _ | OGetCold _ k | OEraseCold _ k | OFetch _ k => k
  end.

(** What a call stores, and what it must respect: keys of 16 bytes, and payloads that
    the cold tier's layers can carry. *)
Definition stores (o : op) : list (bytes * bytes) :=
  match o with OStage k d _ | OPutNvme _ k d | OPutCold _ k d => [(k, d)] | _ => [] end.
Definition op_ok (o : op) : Prop :=
  Cold.key_ok (op_key o) /\ match o with OPutCold _ _ d => Cold.fits d | _ => True end.

Lemma exec_good (T : bytes -> bytes -> Prop) o tm a tm' :
  good T tm -> op_ok o -> (forall k d, (k, d) ∈ stores o -> T k d) -> exec o tm = (a, tm') ->
  good T tm' /\ forall k d, a = Some (k, d) -> T k d.
Proof.
  intros G [K F] S. assert (S1 : forall k d, stores o = [(k, d)] -> T k d)
    by (intros k d E; apply S; rewrite E; apply elem_of_cons; by left).
  destruct o as [k d kind|k|k|i k d|i k|k|i k d|i k|i k|i k]; cbn [exec op_key stores] in *.
  - destruct (StageToDram _ _ _ _) as [ks tm1] eqn:E. intros [= <- <-]. split; [|done]. eapply good_stage; eauto.
  - destruct (LookupDram k tm) as [r tm1] eqn:E. intros [= <- <-]. split; [by eapply good_lookup|].
    destruct (LookupDram_at _ _ _ _ (proj1 G) E) as (_ & _ & _ & _ & _ & Fd & _). rewrite Fd.
    intros k' d'. destruct (dram_at tm k) as [d|] eqn:D; [|done]. intros [= <- <-]. apply (proj2 G); auto.
  - destruct (EraseDram k tm) as [r tm1] eqn:E. intros [= <- <-]. split; [by eapply good_erase_dram|done].
  - destruct (PutNvme i k d tm) as [r tm1] eqn:E. intros [= <- <-]. split; [eapply good_put_nvme; eauto|done].
  - intros [= <- <-]. split; [done|]. intros k' d'. pose proof (GetNvme_at i k tm (proj1 G)) as X.
    destruct (GetNvme i k tm) as [d|]; [|done]. intros [= <- <-]. apply (proj2 G); auto.
  - destruct (EraseNvme k tm) as [r tm1] eqn:E. intros [= <- <-]. split; [by eapply good_erase_nvme|done].
  - destruct (PutCold i k d tm) as [r tm1] eqn:E. intros [= <- <-]. split; [eapply good_put_cold; eauto|done].
  - destruct (GetCold i k tm) as [r tm1] eqn:E. intros [= <- <-]. split; [by eapply good_get_cold|].
    destruct (GetCold_at _ _ _ _ _ (proj1 G) K E) as (_ & _ & _ & _ & _ & X). intros k' d'.
    destruct r as [d|]; [|done]. intros [= <- <-]. apply (proj2 G); auto.
  - destruct (EraseCold i k tm) as [r tm1] eqn:E. intros [= <- <-]. split; [by eapply good_erase_cold|done].
  - destruct (Fetch i k tm) as [[r ks] tm1] eqn:E. intros [= <- <-].
    destruct (Fetch_good T _ _ _ _ _ _ G K E) as [G1 X]. split; [done|]. intros k' d'.
    destruct r as [[h d]|]; [|done]. intros [= <- <-]. by apply (X h).
Qed.

Lemma run_good (T : bytes -> bytes -> Prop) ops : forall tm l tm',
  good T tm -> Forall op_ok ops -> (forall k d, (k, d) ∈ mbind stores ops -> T k d) -> run ops tm = (l, tm') ->
  forall k d, (k, d) ∈ l -> T k d.
Proof.
  induction ops as [|o ops IH]; intros tm l tm' G W S; cbn [run].
  { intros [= <- _] k d E. by apply elem_of_nil in E. }
  inversion_clear W. destruct (exec o tm) as [a tm1] eqn:E. destruct (run ops tm1) as [l1 tm2] eqn:R. intros [= <- _] k d In.
  destruct (exec_good T o tm a tm1 G) as [G1 A]; [done| |done|].
  { intros k' d' X. apply S. cbn. apply elem_of_app. by left. }
  apply elem_of_app in In as [In|In].
  - apply A. destruct a; [|by apply elem_of_nil in In]. by apply list_elem_of_singleton in In as ->.
  - eapply (IH tm1); eauto. intros k' d' X. apply S. cbn. apply elem_of_app. by right.
Qed.

End Views.

(** ** New managers *)

(** The options are 64-bit sizes and the NVMe tier gets the device it asks for. *)
Definition nvme_sane (e : Nvme.env) (o : Nvme.Options) : Prop :=
  0 <= Nvme.pool_bytes o /\ 0 <= Nvme.slot_bytes o /\ (Nvme.use_spdk o = true -> Nvme.have_spdk e = true) /\ Nvme.device_fits e o.

Lemma Create_Inv mmap ne ce o :
  nvme_sane ne (nvme o) ->
  match Create mmap ne ce o with
  | Some (existT C mk) => forall s0,
      Inv (mk s0) /\ opts_ (mk s0) = o /\ (forall k, dram_at (mk s0) k = None /\ nvme_at (mk s0) k = None) /\
      cold_ (mk s0) = if enable_cold o then Some s0 else None
  | None => True
  end.
Proof.
  intros (Pb & Sb & U & Fit). unfold Create. destruct (Ingest.Create mmap (pinned o)) as [p|]; [|done]. cbn [mbind option_bind].
  set (n := if enable_nvme o then _ else _).
  assert (N : forall n', n = Some (Some n') -> nvme_ok n' /\ forall k, Nvme.content n' k = None).
  { unfold n. destruct (enable_nvme o); [|done]. intros n'. destruct (Nvme.Create ne (nvme o)) as [t|] eqn:E; [|done].
    intros [= <-]. destruct (Nvme.Create_TierInv _ _ _ E Pb Sb (Nvme.Create_fd _ _ _ E U) Fit) as [T Ix].
    split; [by do 3 eexists|]. intros k. unfold Nvme.content. by rewrite Ix. }
  destruct n as [n|]; [|done]. cbn [mbind option_bind].
  assert (X : forall C c, let tm := mkManager (C := C) o p Dram.empty_tier n c in
    Inv tm /\ opts_ tm = o /\ (forall k, dram_at tm k = None /\ nvme_at tm k = None)).
  { intros C c tm. split; [|split; [done|]].
    - constructor; [apply Dram.Inv_empty|]. cbn. intros n' ->. by apply N.
    - intros k. split; [done|]. unfold nvme_at. cbn. destruct n as [n'|]; [|done]. by apply N. }
  destruct (enable_cold o) eqn:Ec.
  - destruct (Cold.CreateColdTier ce (cold o)) as [C|]; [|done]. cbn. intros s0. destruct (X C (Some s0)) as (? & ? & ?). auto.
  - intros s0. destruct (X (Cold.FilesystemColdTier [] false) None) as (? & ? & ?). auto.
Qed.

(** ** The theorems *)

(** Over every sequence of calls on a new manager, with whatever tiers enabled,
    a cold tier that satisfies the interface, and system calls that may fail at any
    point: a payload handed out for a key, by [Fetch] or by one of the tiers, was
    stored under that key by an earlier call or was in the cold tier at the start.
    Promotions, evictions, overwrites and failed writes never mix payloads up. *)
Theorem fetch_coherent mmap ne ce o C `{!Cold.Laws C} mk s0 ops answers tm :
  nvme_sane ne (nvme o) -> Create mmap ne ce o = Some (existT C mk) -> Forall op_ok ops ->
  run ops (mk s0) = (answers, tm) ->
  forall k d, (k, d) ∈ answers -> (k, d) ∈ mbind stores ops \/ Cold.view s0 k = Some d.
Proof.
  intros Sn E W R k d In. pose proof (Create_Inv mmap ne ce o Sn) as X. rewrite E in X. destruct (X s0) as (I & _ & Em & Cd).
  apply (run_good (fun k d => (k, d) ∈ mbind stores ops \/ Cold.view s0 k = Some d) ops (mk s0) answers tm); auto.
  split; [done|]. intros k' d' _ [D|[D|D]]; [by rewrite (proj1 (Em k')) in D|by rewrite (proj2 (Em k')) in D|].
  right. unfold cold_at in D. rewrite Cd in D. by destruct (enable_cold o).
Qed.

Section Hottest.
Context {C : Cold.IColdTier} `{!Cold.Laws C}.
Implicit Types tm : Manager C.

(** The hottest copy. *)
Definition find tm (k : bytes) : option (FetchHit * bytes) :=
  match dram_at tm k with
  | Some d => Some (kDram, d)
  | None => match nvme_at tm k with Some d => Some (kNvme, d) | None => (fun d => (kCold, d)) <$> cold_at tm k end
  end.

Definition promoted (o : Options) (h : FetchHit) : bool :=
  match h with kDram => true | kNvme => promote_nvme_to_dram o | kCold => promote_cold_to_dram o end.

(** What [Fetch] leaves behind, next to its answer. *)
Definition after tm (k : bytes) (r : option (FetchHit * bytes)) (ks : list bytes) tm' : Prop :=
  Inv tm' /\ (forall h d, r = Some (h, d) -> promoted (opts_ tm) h = true -> dram_at tm' k = Some d) /\
  (forall k', k' <> k -> nvme_at tm' k' = nvme_at tm k' /\
     dram_at tm' k' = if bool_decide (k' ∈ ks) then None else dram_at tm k') /\
  (forall k', Cold.key_ok k' -> cold_at tm' k' = cold_at tm k').

Lemma to_dram_at b k d tm ks tm' :
  Inv tm -> dram_at tm k = None -> to_dram b k d tm = (ks, tm') ->
  Inv tm' /\ nvme_ tm' = nvme_ tm /\ cold_ tm' = cold_ tm /\ (b = true -> dram_at tm' k = Some d) /\
  forall k', k' <> k -> dram_at tm' k' = if bool_decide (k' ∈ ks) then None else dram_at tm k'.
Proof.
  intros I N. unfold to_dram. destruct b; [|intros [= <- <-]; by repeat (split; [done|])].
  intros E. destruct (StageToDram_at _ _ _ _ _ _ I E) as (I' & _ & Nv & Co & D & Dk).
  split; [done|]. split; [done|]. split; [done|]. split; [auto|]. intros k' Ne. rewrite D.
  by rewrite (bool_decide_false (k' = k)).
Qed.

Lemma to_nvme_at b i k d tm :
  Inv tm -> Inv (to_nvme b i k d tm) /\ opts_ (to_nvme b i k d tm) = opts_ tm /\
  dram_ (to_nvme b i k d tm) = dram_ tm /\ cold_ (to_nvme b i k d tm) = cold_ tm /\
  forall k', k' <> k -> nvme_at (to_nvme b i k d tm) k' = nvme_at tm k'.
Proof.
  intros I. unfold to_nvme. destruct b; [|done]. destruct (PutNvme i k d tm) as [ok tm'] eqn:E.
  destruct (PutNvme_at _ _ _ _ _ _ I E) as (? & ? & ? & ? & ? & _). auto.
Qed.

Lemma Fetch_below i k tm r ks tm' :
  Inv tm -> Cold.key_ok k -> nvme_quiet (nvme_get i) k tm -> Cold.quiet (cold_get i) -> dram_at tm k = None ->
  match GetNvme (nvme_get i) k tm with
  | Some d => let '(ks, tm2) := to_dram (promote_nvme_to_dram (opts_ tm)) k d tm in (Some (kNvme, d), ks, tm2)
  | None =>
      let '(r, tm2) := GetCold (cold_get i) k tm in
      match r with
      | Some d =>
          let tm3 := to_nvme (promote_cold_to_nvme (opts_ tm2)) (nvme_put i) k d tm2 in
          let '(ks, tm4) := to_dram (promote_cold_to_dram (opts_ tm3)) k d tm3 in
          (Some (kCold, d), ks, tm4)
      | None => (None, [], tm2)
      end
  end = (r, ks, tm') ->
  r = find tm k /\ after tm k r ks tm'.
Proof.
  intros I K Qn Qc D. unfold find. rewrite D. pose proof (GetNvme_at (nvme_get i) k tm I) as Gn.
  destruct (GetNvme _ _ _) as [d|].
  - rewrite Gn. destruct (to_dram _ _ _ _) as [ks2 tm2] eqn:Td. intros [= <- <- <-]. split; [done|].
    destruct (to_dram_at _ _ _ _ _ _ I D Td) as (I2 & Nv & Co & Dk & Do). split; [done|].
    split; [intros h d' [= <- <-]; apply Dk|]. unfold nvme_at, cold_at. rewrite Nv, Co. auto.
  - rewrite (Gn Qn). destruct (GetCold _ _ _) as [r2 tm2] eqn:Gc.
    destruct (GetCold_at _ _ _ _ _ I K Gc) as (I2 & O2 & D2 & N2 & C2 & Cd). destruct r2 as [d|].
    + rewrite Cd. pose proof (to_nvme_at (promote_cold_to_nvme (opts_ tm2)) (nvme_put i) k d tm2 I2) as (I3 & O3 & D3 & C3 & N3).
      set (tm3 := to_nvme _ _ _ _ _) in *. destruct (to_dram _ _ _ tm3) as [ks4 tm4] eqn:Td. intros [= <- <- <-]. split; [done|].
      destruct (to_dram_at _ _ _ _ _ _ I3 ltac:(unfold dram_at; rewrite D3, D2; exact D) Td) as (I4 & N4 & C4 & Dk & Do).
      split; [done|]. split; [intros h d' [= <- <-]; cbn; rewrite <- O2, <- O3; apply Dk|]. split.
      * intros k' Ne. split; [unfold nvme_at at 1; rewrite N4; fold (nvme_at tm3 k'); rewrite N3 by done; unfold nvme_at; by rewrite N2|].
        rewrite Do by done. unfold dram_at. by rewrite D3, D2.
      * intros k' K'. rewrite <- C2 by done. unfold cold_at. by rewrite C4, C3.
    + rewrite (Cd Qc). intros [= <- <- <-]. split; [done|]. split; [done|]. split; [done|]. split; [|done].
      intros k' _. unfold nvme_at, dram_at. by rewrite N2, D2.
Qed.

(** Without faults on the way, [Fetch] answers with the hottest copy of the key
    and misses exactly when no tier has one. A hit is in DRAM afterwards if the
    options promote it; of the other keys, NVMe and the cold tier keep all, and DRAM
    loses exactly those it reports as evicted. *)
Theorem Fetch_hottest i k tm r ks tm' :
  Inv tm -> Cold.key_ok k -> nvme_quiet (nvme_get i) k tm -> Cold.quiet (cold_get i) -> Fetch i k tm = (r, ks, tm') ->
  r = find tm k /\ after tm k r ks tm'.
Proof.
  intros I K Qn Qc. unfold Fetch. destruct (LookupDram k tm) as [r1 tm1] eqn:L.
  destruct (LookupDram_at _ _ _ _ I L) as (I1 & O1 & N1 & C1 & D1 & _ & Hit).
  assert (Same : (forall k', dram_at tm1 k' = dram_at tm k') /\ (forall k', nvme_at tm1 k' = nvme_at tm k') /\
    (forall k', cold_at tm1 k' = cold_at tm k')) by (unfold nvme_at, cold_at; rewrite N1, C1; auto).
  destruct Same as (Sd & Sn & Sc).
  assert (Fi : find tm1 k = find tm k) by (unfold find; by rewrite Sd, Sn, Sc).
  assert (Af : forall r ks tm', after tm1 k r ks tm' -> after tm k r ks tm').
  { unfold after. rewrite O1. intros r' ks' tm2 (A1 & A2 & A3 & A4). split; [done|]. split; [done|].
    split; [intros k' Ne; destruct (A3 k' Ne) as [-> ->]; by rewrite Sn, Sd|]. intros k' K'. by rewrite A4, Sc. }
  assert (Q1 : nvme_quiet (nvme_get i) k tm1) by (unfold nvme_quiet; by rewrite N1).
  assert (Hd : forall d, dram_at tm k = Some d -> (Some (kDram, d), [], tm1) = (r, ks, tm') -> r = find tm k /\ after tm k r ks tm').
  { intros d E [= <- <- <-]. unfold find. rewrite E. split; [done|]. split; [done|]. split; [intros h d' [= <- <-] _; by rewrite Sd|].
    split; [intros k' _; cbn; by rewrite Sn, Sd|by intros]. }
  rewrite <- Fi. destruct r1 as [w [d|]]; [destruct w; try (rewrite Fi; by apply Hd)|destruct w];
    intros E; apply (Fetch_below i k tm1) in E as [-> A]; auto; by rewrite Sd.
Qed.

End Hottest.

(** ** Witnesses: files in a directory as the cold tier *)

Definition w_cold : Cold.ColdTierOptions :=
  Cold.mkColdOptions (Mtls.str "fs") [x2f] true false (Cold.mkRest [] []) [] 0 false [] false None.
Definition w_cenv : Cold.env := Cold.mkEnv None None Cold.no_http true true.
Definition w_options : Options :=
  mkOptions Ingest.two_slots Dram.w_options Nvme.w_options true w_cold true true true true.
Definition w_C : Cold.IColdTier := Cold.FilesystemColdTier [x2f] false.
#[local] Instance w_laws : Cold.Laws w_C := Cold.Filesystem_laws [x2f] false.
Definition w_new (s0 : Cold.St w_C) : Manager w_C :=
  mkManager w_options Ingest.pinned2 Dram.empty_tier (Some Nvme.w_tier) (Some s0).
Definition w_io : fetch_io w_C := @mkFetchIo w_C Nvme.good Cold.good_fs Nvme.good.
Definition w_ops : list (@op w_C) :=
  [@OPutCold w_C Cold.good_fs Cold.key_a [x01]; OFetch w_io Cold.key_a; OEraseDram Cold.key_a;
   @OEraseCold w_C Cold.good_fs Cold.key_a; OFetch w_io Cold.key_a].

Lemma w_sane : nvme_sane Nvme.w_env Nvme.w_options.
Proof. by repeat split. Qed.

Lemma w_create : Create true Nvme.w_env w_cenv w_options = Some (existT w_C w_new).
Proof. reflexivity. Qed.

Lemma fetch_coherent_witness :
  (run w_ops (w_new (∅ : Cold.Files))).1 = [(Cold.key_a, [x01]); (Cold.key_a, [x01])] /\
  ((Cold.key_a, [x01]) ∈ mbind stores w_ops \/ Cold.view (T := w_C) (∅ : Cold.Files) Cold.key_a = Some [x01]).
Proof.
  destruct (run w_ops (w_new (∅ : Cold.Files))) as [answers tm] eqn:R.
  assert (answers = [(Cold.key_a, [x01]); (Cold.key_a, [x01])]) as ->.
  { change answers with ((answers, tm).1). rewrite <- R. vm_compute. reflexivity. }
  split; [done|].
  apply (fetch_coherent true Nvme.w_env w_cenv w_options w_C w_new (∅ : Cold.Files) w_ops
    [(Cold.key_a, [x01]); (Cold.key_a, [x01])] tm w_sane w_create); [|exact R|].
  - repeat constructor.
  - apply elem_of_cons. by left.
Defined.

Definition w_stored : Manager w_C := (PutCold (C := w_C) Cold.good_fs Cold.key_a [x01] (w_new (∅ : Cold.Files))).2.

Lemma Fetch_hottest_witness :
  exists ks tm', Fetch w_io Cold.key_a w_stored = (Some (kCold, [x01]), ks, tm') /\ dram_at tm' Cold.key_a = Some [x01].
Proof.
  destruct (Fetch w_io Cold.key_a w_stored) as [[r ks] tm'] eqn:F. exists ks, tm'.
  assert (I : Inv w_stored).
  { pose proof (Create_Inv true Nvme.w_env w_cenv w_options w_sane) as X. rewrite w_create in X.
    destruct (X (∅ : Cold.Files)) as (I & _).
    destruct (PutCold (C := w_C) Cold.good_fs Cold.key_a [x01] (w_new (∅ : Cold.Files))) as [ok tm2] eqn:P.
    unfold w_stored. rewrite P. by apply (PutCold_at (C := w_C) Cold.good_fs Cold.key_a [x01] _ ok tm2 I). }
  assert (R : r = Some (kCold, [x01])).
  { change r with ((r, ks, tm').1.1). rewrite <- F. vm_compute. reflexivity. }
  destruct (Fetch_hottest w_io Cold.key_a w_stored r ks tm' I) as (_ & _ & P & _); try done.
  - intros n d [= <-] E. vm_compute in E. done.
  - subst r. split; [done|]. by apply (P kCold).
Defined.

End TierManager.
