(* ===== verification/Epoch.v ===== *)
(** * Epoch-based reclamation

    [EpochManager] of prefix/epoch.cpp, which lets the radix tree free the nodes its
    writer unlinks while readers walk the tree without locks. A reader publishes the
    epoch it entered at; a writer unlinks a node, advances the epoch and puts the node
    on the retired list under the new epoch; [Reclaim] takes the smallest epoch
    published and frees what was retired at or below it.

    The model has one writer, any number of readers and one reclaimer, whose atomic
    operations interleave on the memory of x86-TSO: the writer's release stores of links
    go through a store buffer ([pending]), in order, and its locked [fetch_add] on the
    epoch waits until the buffer is empty; the readers' sequentially consistent stores
    are [xchg] instructions, at once in memory; loads are of memory. The list of retired
    nodes is under a mutex. [Retire] is two steps and [Reclaim] one per slot it reads.
    The writer is outside its own read sections while it writes. A reader may pick up any
    node that is linked in memory while it is inside. Epochs are unbounded: a counter
    that only [Retire] advances does not reach 2^64.

    The theorems: if [Reclaim] and the writer exclude each other and no thread enters
    twice, no reader ever holds a freed node, and no node is freed twice
    ([ebr_safe]); without the first condition, which nothing in the code establishes, a
    node is freed under a reader ([retire_during_reclaim]), as it is without the second
    ([nested_guards]), and on a machine that takes the freedom the source's memory
    orders leave ([unfenced_publish]: [Retire] is acquire-release and the scan of the
    slots acquire, where the protocol needs sequential consistency); the loop of
    [Reclaim] ends and frees exactly what it should ([Reclaim_exact]). *)

From S2P Require Import Prelude.
From Stdlib Require Import ZArith Lia.

Open Scope Z_scope.

Module Epoch.

(** ** The manager *)

Definition kMaxReaderThreads : nat := 256.
Definition kQuiescent : Z := 2 ^ 64 - 1.

(** [entries_] holds the published epochs, a slot without one being quiescent;
    [tls_slots] is the slot each thread has claimed; a retired item is its epoch and the
    node its deleter frees. *)
Record Manager := mkManager {
  global_epoch_ : Z; entries_ : gmap nat Z; next_slot_ : nat; tls_slots : gmap nat nat; retired_ : list (Z * nat) }.

Definition new_manager : Manager := mkManager 1 ∅ 0 ∅ [].

Definition epoch_at (slot : nat) (m : Manager) : Z := default kQuiescent (entries_ m !! slot).

(** [None]: the program aborts. *)
Definition MyEntry (t : nat) (m : Manager) : option (nat * Manager) :=
  match tls_slots m !! t with
  | Some slot => Some (slot, m)
  | None =>
      if (kMaxReaderThreads <=? next_slot_ m)%nat then None
      else Some (next_slot_ m, mkManager (global_epoch_ m) (entries_ m) (S (next_slot_ m))
                                 (<[t := next_slot_ m]> (tls_slots m)) (retired_ m))
  end.

Definition publish (slot : nat) (e : Z) (m : Manager) : Manager :=
  mkManager (global_epoch_ m) (<[slot := e]> (entries_ m)) (next_slot_ m) (tls_slots m) (retired_ m).

(** The two halves of [EnterRead]. *)
Definition enter_load (t : nat) (m : Manager) : option (Z * Manager) :=
  '(_, m') ← MyEntry t m; Some (global_epoch_ m', m').
Definition enter_store (t : nat) (cur : Z) (m : Manager) : option Manager :=
  '(slot, m') ← MyEntry t m; Some (publish slot cur m').

Definition ExitRead (t : nat) (m : Manager) : option Manager :=
  '(slot, m') ← MyEntry t m; Some (publish slot kQuiescent m').

(** The two halves of [Retire]. *)
Definition retire_bump (m : Manager) : Z * Manager :=
  let e := global_epoch_ m + 1 in (e, mkManager e (entries_ m) (next_slot_ m) (tls_slots m) (retired_ m)).
Definition set_retired (l : list (Z * nat)) (m : Manager) : Manager :=
  mkManager (global_epoch_ m) (entries_ m) (next_slot_ m) (tls_slots m) l.
Definition retire_push (e : Z) (o : nat) (m : Manager) : Manager := set_retired (retired_ m ++ [(e, o)]) m.

(** [MinActiveEpochLocked], all of it and one iteration of it. *)
Definition scan_n (m : Manager) : nat := next_slot_ m `min` kMaxReaderThreads.
Definition scan_slot (i : nat) (min_e : Z) (m : Manager) : Z :=
  let v := epoch_at i m in if v <? min_e then v else min_e.
Definition MinActiveEpochLocked (m : Manager) : Z :=
  fold_left (fun min_e i => scan_slot i min_e m) (seq 0 (scan_n m)) kQuiescent.

(** The last element moves to the front, where the freed one was. *)
Definition move_last {A} (l : list A) : list A := match rev l with [] => [] | y :: r => y :: rev r end.

(** The loop of [Reclaim] from index [i] on: what it frees, in order, and what stays. *)
Fixpoint sweep (fuel : nat) (safe : Z) (l : list (Z * nat)) : list nat * list (Z * nat) :=
  match fuel, l with
  | S n, x :: r =>
      if x.1 <=? safe
      then let '(f, k) := sweep n safe (move_last r) in (x.2 :: f, k)
      else let '(f, k) := sweep n safe r in (f, x :: k)
  | _, _ => ([], l)
  end.

Definition Reclaim (m : Manager) : list nat * Manager :=
  let '(f, k) := sweep (length (retired_ m)) (MinActiveEpochLocked m) (retired_ m) in (f, set_retired k m).

Definition ForceReclaimAll (m : Manager) : list nat * Manager := (snd <$> retired_ m, set_retired [] m).
Definition PendingRetires (m : Manager) : nat := length (retired_ m).
Definition ActiveReaders (m : Manager) : nat :=
  length (List.filter (fun i => negb (epoch_at i m =? kQuiescent)) (seq 0 (scan_n m))).

(** ** Readers, writer and reclaimer *)

(** A reader that has loaded an epoch it has not published yet; how many guards it has;
    the nodes it has picked up; an epoch it has stored that the others do not see yet. *)
Record Reader := mkReader { loaded : option Z; depth : nat; held : gset nat; buffered : option Z }.
Definition no_reader : Reader := mkReader None 0 ∅ None.

Inductive writer := WIdle | WUnlinked (o : nat) | WBumped (o : nat) (e : Z).
Inductive reclaimer := RIdle | RScan (n i : nat) (min_e : Z).

(** The writer's stores of links ([memory_order_release]) wait in its store buffer, in
    order; a locked instruction waits until the buffer is empty. *)
Inductive store := SLink (o : nat) | SUnlink (o : nat).
#[global] Instance store_eq_dec : EqDecision store.
Proof. solve_decision. Defined.
Definition apply_store (x : store) (ln : gset nat) : gset nat :=
  match x with SLink o => {[o]} ∪ ln | SUnlink o => ln ∖ {[o]} end.

(** The nodes the readers reach in the tree, the writer's stores they do not see yet,
    the nodes freed, and where the threads are. *)
Record World := mkWorld {
  mgr : Manager; linked : gset nat; pending : list store; freed : gset nat; readers : gmap nat Reader;
  wr : writer; rc : reclaimer }.

Definition init : World := mkWorld new_manager ∅ [] ∅ ∅ WIdle RIdle.

(** The tree as the writer sees it. *)
Definition view (w : World) : gset nat := fold_left (fun l x => apply_store x l) (pending w) (linked w).

Inductive action :=
| EnterLoad (t : nat) | EnterStore (t : nat) | FlushEpoch (t : nat) | Pick (t o : nat) | Exit (t : nat)
| Link (o : nat) | Unlink (o : nat) | FlushLink | Bump | Push
| ScanBegin | ScanSlot | Free.

Definition reader (t : nat) (w : World) : Reader := default no_reader (readers w !! t).

(** A node is new when nothing refers to it. *)
Definition is_new (o : nat) (w : World) : bool :=
  bool_decide (o ∉ linked w /\ SLink o ∉ pending w /\ o ∉ freed w /\ o ∉ (retired_ (mgr w)).*2).

(** [fenced]: the store of [EnterRead] is visible to all before the thread's next load.
    x86-64 compiles it to [xchg], which does that; the memory orders of the source do
    not ask for it, the next load being an acquire. *)
Definition act (fenced : bool) (a : action) (w : World) : option World :=
  let '(mkWorld m ln pd fr rd wr rc) := w in
  match a with
  | EnterLoad t =>
      let r := reader t w in
      match loaded r with
      | Some _ => None
      | None => '(cur, m') ← enter_load t m;
          Some (mkWorld m' ln pd fr (<[t := mkReader (Some cur) (depth r) (held r) (buffered r)]> rd) wr rc)
      end
  | EnterStore t =>
      let r := reader t w in
      cur ← loaded r;
      if fenced
      then m' ← enter_store t cur m; Some (mkWorld m' ln pd fr (<[t := mkReader None (S (depth r)) (held r) None]> rd) wr rc)
      else Some (mkWorld m ln pd fr (<[t := mkReader None (S (depth r)) (held r) (Some cur)]> rd) wr rc)
  | FlushEpoch t =>
      let r := reader t w in
      cur ← buffered r; m' ← enter_store t cur m;
      Some (mkWorld m' ln pd fr (<[t := mkReader (loaded r) (depth r) (held r) None]> rd) wr rc)
  | Pick t o =>
      let r := reader t w in
      if (0 <? depth r)%nat && bool_decide (o ∈ ln)
      then Some (mkWorld m ln pd fr (<[t := mkReader (loaded r) (depth r) ({[o]} ∪ held r) (buffered r)]> rd) wr rc) else None
  | Exit t =>
      let r := reader t w in
      match loaded r, buffered r, depth r with
      | None, None, S d => m' ← ExitRead t m;
          Some (mkWorld m' ln pd fr (<[t := mkReader None d (if (d =? 0)%nat then ∅ else held r) None]> rd) wr rc)
      | _, _, _ => None
      end
  | Link o =>
      match wr with
      | WIdle => if is_new o w then Some (mkWorld m ln (pd ++ [SLink o]) fr rd wr rc) else None
      | _ => None
      end
  | Unlink o =>
      match wr with
      | WIdle => if bool_decide (o ∈ view w) then Some (mkWorld m ln (pd ++ [SUnlink o]) fr rd (WUnlinked o) rc) else None
      | _ => None
      end
  | FlushLink => match pd with x :: r => Some (mkWorld m (apply_store x ln) r fr rd wr rc) | [] => None end
  | Bump =>
      match wr, pd with
      | WUnlinked o, [] => let '(e, m') := retire_bump m in Some (mkWorld m' ln [] fr rd (WBumped o e) rc)
      | _, _ => None
      end
  | Push => match wr with WBumped o e => Some (mkWorld (retire_push e o m) ln pd fr rd WIdle rc) | _ => None end
  | ScanBegin => match rc with RIdle => Some (mkWorld m ln pd fr rd wr (RScan (scan_n m) 0 kQuiescent)) | _ => None end
  | ScanSlot =>
      match rc with
      | RScan n i min_e => if (i <? n)%nat then Some (mkWorld m ln pd fr rd wr (RScan n (S i) (scan_slot i min_e m))) else None
      | RIdle => None
      end
  | Free =>
      match rc with
      | RScan n i safe =>
          if (i =? n)%nat
          then let '(f, k) := sweep (length (retired_ m)) safe (retired_ m) in
               Some (mkWorld (set_retired k m) ln pd (list_to_set f ∪ fr) rd wr RIdle)
          else None
      | RIdle => None
      end
  end.

(** The discipline: the writer and [Reclaim] exclude each other, and a thread that is
    inside does not enter again. *)
Definition allowed (a : action) (w : World) : bool :=
  match a with
  | EnterLoad t => (depth (reader t w) =? 0)%nat
  | Unlink _ | Bump | Push => match rc w with RIdle => true | _ => false end
  | ScanBegin => match wr w with WIdle => true | _ => false end
  | _ => true
  end.

Fixpoint run (disciplined fenced : bool) (acts : list action) (w : World) : option World :=
  match acts with
  | [] => Some w
  | a :: r => if negb disciplined || allowed a w then w' ← act fenced a w; run disciplined fenced r w' else None
  end.

(** ** The loop of Reclaim *)

Lemma move_last_perm {A} (l : list A) : move_last l ≡ₚ l.
Proof.
  unfold move_last. destruct (rev l) as [|y r] eqn:E.
  - by rewrite <- (rev_involutive l), E.
  - rewrite <- (rev_involutive l), E. cbn. by rewrite Permutation_app_comm.
Qed.

Definition due (safe : Z) (x : Z * nat) : Prop := x.1 <= safe.
#[global] Instance due_dec safe x : Decision (due safe x) := decide (_ <= _).

Lemma sweep_spec fuel : forall safe l f k,
  (length l <= fuel)%nat -> sweep fuel safe l = (f, k) ->
  f ≡ₚ (filter (due safe) l).*2 /\ k ≡ₚ filter (fun x => ~ due safe x) l.
Proof.
  induction fuel as [|fuel IH]; intros safe l f k L; destruct l as [|x r]; cbn [sweep length] in *; try lia.
  1, 2: by intros [= <- <-].
  destruct (x.1 <=? safe) eqn:E.
  - destruct (sweep fuel safe (move_last r)) as [f1 k1] eqn:S. intros [= <- <-].
    assert (D : due safe x) by (apply Z.leb_le; done).
    destruct (IH safe (move_last r) f1 k1) as [Pf Pk]; [rewrite (Permutation_length (move_last_perm r)); lia|done|].
    rewrite filter_cons_True, filter_cons_False by (done || tauto). rewrite Pf, Pk, (move_last_perm r). done.
  - destruct (sweep fuel safe r) as [f1 k1] eqn:S. intros [= <- <-].
    assert (D : ~ due safe x) by (unfold due; apply Z.leb_gt in E; lia).
    destruct (IH safe r f1 k1) as [Pf Pk]; [lia|done|].
    rewrite filter_cons_False, filter_cons_True by done. by rewrite Pf, Pk.
Qed.

Lemma MinActive_spec m :
  MinActiveEpochLocked m <= kQuiescent /\ (forall i, (i < scan_n m)%nat -> MinActiveEpochLocked m <= epoch_at i m) /\
  (MinActiveEpochLocked m = kQuiescent \/ exists i, (i < scan_n m)%nat /\ MinActiveEpochLocked m = epoch_at i m).
Proof.
  unfold MinActiveEpochLocked. generalize (scan_n m) as n. induction n as [|n (IH1 & IH2 & IH3)]; [cbn; split; [lia|split; [lia|auto]]|].
  rewrite seq_S, fold_left_app. cbn [fold_left Nat.add]. set (a := fold_left _ _ _) in *. unfold scan_slot.
  destruct (epoch_at n m <? a) eqn:E; [apply Z.ltb_lt in E|apply Z.ltb_ge in E].
  - split; [lia|]. split; [|right; exists n; lia]. intros i L. destruct (decide (i = n)) as [->|]; [lia|].
    specialize (IH2 i ltac:(lia)). lia.
  - split; [lia|]. split.
    + intros i L. destruct (decide (i = n)) as [->|]; [lia|]. apply IH2. lia.
    + destruct IH3 as [|(i & L & Q)]; [auto|]. right. exists i. split; [lia|done].
Qed.

(** The loop of [Reclaim] ends: as many iterations as there are retired nodes are
    enough, and more change nothing. It frees exactly the nodes retired at or below the
    smallest published epoch, each once, keeps the others, and with no reader inside it
    frees them all. *)
Theorem Reclaim_exact m fuel f m' :
  (length (retired_ m) <= fuel)%nat -> Reclaim m = (f, m') ->
  f ≡ₚ (filter (due (MinActiveEpochLocked m)) (retired_ m)).*2 /\
  retired_ m' ≡ₚ filter (fun x => ~ due (MinActiveEpochLocked m) x) (retired_ m) /\
  (sweep fuel (MinActiveEpochLocked m) (retired_ m)).1 ≡ₚ f /\
  (ActiveReaders m = 0%nat -> Forall (fun x => x.1 <= kQuiescent) (retired_ m) -> f ≡ₚ (retired_ m).*2).
Proof.
  intros L. unfold Reclaim. destruct (sweep (length (retired_ m)) _ _) as [f1 k1] eqn:S. intros [= <- <-].
  destruct (sweep_spec _ _ _ _ _ (le_n _) S) as [Pf Pk]. destruct (sweep fuel _ _) as [f2 k2] eqn:S2.
  destruct (sweep_spec _ _ _ _ _ L S2) as [Pf2 _]. split; [done|]. split; [done|]. split; [by rewrite Pf2, Pf|].
  intros A Fa. rewrite Pf. replace (filter _ _) with (retired_ m); [done|]. symmetry.
  assert (Q : MinActiveEpochLocked m = kQuiescent).
  { destruct (MinActive_spec m) as (_ & _ & [Q|(i & Li & Q)]); [done|]. rewrite Q. destruct (Z.eq_dec (epoch_at i m) kQuiescent) as [|N]; [done|].
    exfalso. unfold ActiveReaders in A. apply length_zero_iff_nil in A.
    assert (X : In i (List.filter (fun i => negb (epoch_at i m =? kQuiescent)) (seq 0 (scan_n m)))).
    { apply filter_In. split; [apply in_seq; lia|]. by apply negb_true_iff, Z.eqb_neq. }
    by rewrite A in X. }
  rewrite Q. clear -Fa. induction Fa as [|x l Hx _ IH]; [done|]. by rewrite filter_cons_True, IH.
Qed.

(** ** No reader holds a freed node *)

(** Slots: claimed in order, one per thread, quiescent before they are claimed. *)
Record SlotInv (m : Manager) : Prop := {
  s_max : (next_slot_ m <= kMaxReaderThreads)%nat;
  s_claimed : forall t s, tls_slots m !! t = Some s -> (s < next_slot_ m)%nat;
  s_inj : forall t t' s, tls_slots m !! t = Some s -> tls_slots m !! t' = Some s -> t = t';
  s_fresh : forall s, (next_slot_ m <= s)%nat -> entries_ m !! s = None }.

(** A reader outside holds nothing and is quiescent; one inside has published an epoch
    that is not in the future. *)
Definition reader_ok (m : Manager) (t : nat) (r : Reader) : Prop :=
  buffered r = None /\
  match depth r with
  | O => held r = ∅ /\ (forall s, tls_slots m !! t = Some s -> epoch_at s m = kQuiescent) /\
         (forall cur, loaded r = Some cur -> cur <= global_epoch_ m /\ is_Some (tls_slots m !! t))
  | S O => loaded r = None /\ exists s, tls_slots m !! t = Some s /\ epoch_at s m <= global_epoch_ m
  | _ => False
  end.

(** The node the writer has unlinked and not yet put on the retired list. *)
Definition in_hand (w : writer) : option nat := match w with WIdle => None | WUnlinked o | WBumped o _ => Some o end.

(** A pending unlinking is that of the node the writer has in hand. *)
Definition store_ok (w : World) (x : store) : Prop :=
  match x with
  | SLink o => o ∉ freed w /\ o ∉ (retired_ (mgr w)).*2
  | SUnlink o => wr w = WUnlinked o
  end.

(** Every node is linked, with the writer, retired or freed, and only one of them, up to
    the stores that are pending. *)
Record NodeInv (w : World) : Prop := {
  n_epochs : Forall (fun x => x.1 <= global_epoch_ (mgr w)) (retired_ (mgr w));
  n_bumped : forall o e, wr w = WBumped o e -> e <= global_epoch_ (mgr w);
  n_once : NoDup ((retired_ (mgr w)).*2);
  n_linked : forall o, o ∈ linked w -> o ∉ freed w /\ o ∉ (retired_ (mgr w)).*2;
  n_pending : Forall (store_ok w) (pending w);
  n_retired : forall o, o ∈ (retired_ (mgr w)).*2 -> o ∉ freed w;
  n_drained : forall o e, wr w = WBumped o e -> pending w = [];
  n_hand : forall o, in_hand (wr w) = Some o -> o ∉ view w /\ o ∉ freed w /\ o ∉ (retired_ (mgr w)).*2 }.

(** Where a node held by a reader that published [e] can be. *)
Definition protected (w : World) (e : Z) (o : nat) : Prop :=
  o ∈ linked w \/ wr w = WUnlinked o \/ (exists e', wr w = WBumped o e' /\ e < e') \/
  (exists e', (e', o) ∈ retired_ (mgr w) /\ e < e').

(** While [Reclaim] scans, the readers that hold retired nodes are among those it has
    counted or will still count. *)
Definition scan_ok (w : World) : Prop :=
  match rc w with
  | RIdle => True
  | RScan n i min_e => wr w = WIdle /\
      forall t s o, tls_slots (mgr w) !! t = Some s -> o ∈ held (reader t w) -> o ∈ (retired_ (mgr w)).*2 ->
        (s < n)%nat /\ ((s < i)%nat -> min_e <= epoch_at s (mgr w))
  end.

Record Inv (w : World) : Prop := {
  i_slots : SlotInv (mgr w);
  i_readers : forall t, reader_ok (mgr w) t (reader t w);
  i_nodes : NodeInv w;
  i_held : forall t s o, tls_slots (mgr w) !! t = Some s -> o ∈ held (reader t w) -> protected w (epoch_at s (mgr w)) o;
  i_scan : scan_ok w }.

Lemma reader_insert t r t' m ln pd fr rd a b :
  reader t' (mkWorld m ln pd fr (<[t := r]> rd) a b) = if bool_decide (t' = t) then r else default no_reader (rd !! t').
Proof. unfold reader. cbn. case_bool_decide as E; [subst; by rewrite lookup_insert_eq|by rewrite lookup_insert_ne]. Qed.

(** A step of one reader. *)
Lemma reader_step m ln pd fr rd wr rc t s m' r :
  Inv (mkWorld m ln pd fr rd wr rc) -> SlotInv m' -> global_epoch_ m' = global_epoch_ m -> retired_ m' = retired_ m ->
  tls_slots m' !! t = Some s ->
  (forall t', t' <> t -> tls_slots m' !! t' = tls_slots m !! t') ->
  (forall s', s' <> s -> epoch_at s' m' = epoch_at s' m) ->
  reader_ok m' t r ->
  (forall o, o ∈ held r -> o ∈ ln \/ (o ∈ held (default no_reader (rd !! t)) /\ tls_slots m !! t = Some s /\ epoch_at s m' = epoch_at s m)) ->
  Inv (mkWorld m' ln pd fr (<[t := r]> rd) wr rc).
Proof.
  intros [Is Ir In Ih Ic] Sl Gl Re Ts To Eo Rk Hk. cbn [mgr linked pending freed readers] in *.
  assert (Other : forall t' s', t' <> t -> tls_slots m' !! t' = Some s' -> tls_slots m !! t' = Some s' /\ epoch_at s' m' = epoch_at s' m).
  { intros t' s' N E. rewrite <- To by done. split; [done|]. apply Eo. intros ->. apply N. by apply (s_inj _ Sl t' t s). }
  constructor; cbn [mgr].
  - done.
  - intros t'. rewrite reader_insert. case_bool_decide as E; [by subst|]. specialize (Ir t'). unfold reader_ok in *. cbn in Ir.
    unfold reader in Ir. cbn in Ir. destruct Ir as [Bu Ir]. split; [done|]. destruct (depth _) as [|[|]]; [| |done].
    + destruct Ir as (H & Q & L). split; [done|]. split.
      * intros s' T'. destruct (Other t' s' E T') as [T0 ->]. by apply Q.
      * intros cur Lc. rewrite Gl, To by done. by apply L.
    + destruct Ir as (L & s' & T' & B). split; [done|]. exists s'. rewrite To by done. split; [done|]. rewrite Gl.
      rewrite Eo; [done|]. intros ->. apply E. apply (s_inj _ Sl t' t s); [by rewrite To|done].
  - destruct In as [N1 N2 N3 N4 Np N5 Nd N6]. cbn [mgr linked pending freed Epoch.wr] in *. constructor; cbn; rewrite ?Re, ?Gl; try done.
    eapply Forall_impl; [exact Np|]. intros [o|o]; cbn; by rewrite ?Re.
  - intros t' s' o T'. rewrite reader_insert. unfold protected. cbn [linked Epoch.wr mgr]. rewrite Re. case_bool_decide as E.
    + subst t'. rewrite Ts in T'. injection T' as <-. intros Ho. destruct (Hk o Ho) as [|(Ho' & T0 & ->)]; [by left|].
      by apply (Ih t s o).
    + intros Ho. destruct (Other t' s' E T') as [T0 ->]. by apply (Ih t' s' o).
  - unfold scan_ok in *. cbn [Epoch.rc Epoch.wr mgr] in *. rewrite Re. destruct rc as [|n i min_e]; [done|]. destruct Ic as [W Ic].
    split; [done|]. intros t' s' o T'. rewrite reader_insert. case_bool_decide as E.
    + subst t'. rewrite Ts in T'. injection T' as <-. intros Ho Hr. destruct (Hk o Ho) as [Hl|(Ho' & T0 & ->)]; [|by apply (Ic t s o)].
      by destruct (n_linked _ In o Hl).
    + intros Ho. destruct (Other t' s' E T') as [T0 ->]. by apply (Ic t' s' o).
Qed.

Lemma MyEntry_spec t m s m' :
  SlotInv m -> MyEntry t m = Some (s, m') ->
  SlotInv m' /\ tls_slots m' !! t = Some s /\ (forall t', t' <> t -> tls_slots m' !! t' = tls_slots m !! t') /\
  global_epoch_ m' = global_epoch_ m /\ entries_ m' = entries_ m /\ retired_ m' = retired_ m /\
  (tls_slots m !! t = Some s \/ (tls_slots m !! t = None /\ epoch_at s m = kQuiescent)).
Proof.
  intros I. unfold MyEntry. destruct (tls_slots m !! t) as [s0|] eqn:T; [intros [= <- <-]; auto 8|].
  destruct (_ <=? _)%nat eqn:L; [done|]. apply Nat.leb_gt in L. intros [= <- <-]. destruct I as [M C J F].
  split; [constructor; cbn [next_slot_ tls_slots entries_]|].
  - lia.
  - intros t' s' E. apply lookup_insert_Some in E as [[_ <-]|[_ E]]; [lia|]. specialize (C _ _ E). lia.
  - intros t1 t2 s' E1 E2. apply lookup_insert_Some in E1 as [[<- <-]|[N1 E1]], E2 as [[<- E2]|[N2 E2]]; [done| | |by apply (J t1 t2 s')].
    + specialize (C _ _ E2). lia.
    + subst. specialize (C _ _ E1). lia.
  - intros s' B. apply F. lia.
  - split; [apply lookup_insert_eq|]. split; [intros t' N; by apply lookup_insert_ne|]. split; [done|]. split; [done|]. split; [done|].
    right. split; [done|]. unfold epoch_at. by rewrite F.
Qed.

Lemma epoch_publish s e m s' : epoch_at s' (publish s e m) = if bool_decide (s' = s) then e else epoch_at s' m.
Proof.
  unfold epoch_at. cbn. case_bool_decide as E; [subst; by rewrite lookup_insert_eq|by rewrite lookup_insert_ne].
Qed.

Lemma SlotInv_publish t s e m : SlotInv m -> tls_slots m !! t = Some s -> SlotInv (publish s e m).
Proof.
  intros I T. pose proof (s_claimed _ I _ _ T) as L. destruct I as [M C J F]. constructor; cbn; [done|done|done|].
  intros s' B. rewrite lookup_insert_ne by lia. by apply F.
Qed.

Lemma reader_actions_Inv a w w' :
  match a with EnterLoad _ | EnterStore _ | FlushEpoch _ | Pick _ _ | Exit _ => True | _ => False end ->
  Inv w -> allowed a w = true -> act true a w = Some w' -> Inv w'.
Proof.
  intros A I Al. destruct w as [m ln pd fr rd wr rc]. destruct a as [t|t|t|t o|t| | | | | | | |]; try done; clear A; cbn [act].
  all: pose proof (i_readers _ I t) as R; cbn [mgr] in R; set (r := reader t _) in *; pose proof (i_slots _ I) as Sl; cbn [mgr] in Sl;
    unfold reader_ok in R; destruct R as [Bu R].
  - cbn [allowed] in Al. apply Nat.eqb_eq in Al. fold r in Al. rewrite Al in R. destruct R as (H & Q & _).
    destruct (loaded r); [done|]. unfold enter_load. destruct (MyEntry t m) as [[s m1]|] eqn:E; [|done]. cbn. intros [= <-].
    destruct (MyEntry_spec _ _ _ _ Sl E) as (Sl1 & T1 & To & G1 & E1 & R1 & Tt).
    apply (reader_step m ln pd fr rd wr rc t s); try done; [intros s' _; unfold epoch_at; by rewrite E1| |].
    + unfold reader_ok. cbn. rewrite Al. split; [done|]. split; [done|]. split; [|intros cur [= <-]; rewrite T1; split; [lia|eauto]].
      intros s' T'. rewrite T1 in T'. injection T' as <-. unfold epoch_at. rewrite E1. destruct Tt as [T|[_ T]]; [by apply Q|done].
    + cbn. rewrite H. intros o Ho. by apply elem_of_empty in Ho.
  - destruct (loaded r) as [cur|] eqn:Lr; [|done]. cbn [mbind option_bind]. unfold enter_store.
    destruct (depth r) as [|[|]] eqn:Dr; [|destruct R as [R _]; congruence|done].
    destruct R as (H & _ & Lc). destruct (Lc cur eq_refl) as [Bc [s Ts]]. unfold MyEntry. rewrite Ts. cbn. intros [= <-].
    apply (reader_step m ln pd fr rd wr rc t s); try done.
    + by apply (SlotInv_publish t).
    + intros s' N. rewrite epoch_publish. by rewrite bool_decide_false.
    + unfold reader_ok. cbn. split; [done|]. split; [done|]. exists s. split; [done|]. rewrite epoch_publish, bool_decide_true by done. done.
    + cbn. rewrite H. intros o Ho. by apply elem_of_empty in Ho.
  - by rewrite Bu.
  - destruct (_ && _) eqn:B; [|done]. apply andb_true_iff in B as [B Hl]. apply Nat.ltb_lt in B. apply bool_decide_eq_true_1 in Hl.
    intros [= <-]. destruct (depth r) as [|[|]] eqn:Dr; [lia| |done]. destruct R as (L & s & Ts & Bs).
    apply (reader_step m ln pd fr rd wr rc t s); try done.
    + unfold reader_ok. cbn. split; [done|]. split; [done|]. by exists s.
    + cbn. intros o' Ho. apply elem_of_union in Ho as [Ho|Ho]; [left; by apply elem_of_singleton in Ho as ->|right; auto].
  - destruct (loaded r) eqn:Lr; [done|]. rewrite Bu. destruct (depth r) as [|d] eqn:Dr; [done|].
    destruct d as [|d]; [|done]. destruct R as (_ & s & Ts & Bs). unfold ExitRead, MyEntry. rewrite Ts. cbn. intros [= <-].
    apply (reader_step m ln pd fr rd wr rc t s); try done.
    + by apply (SlotInv_publish t).
    + intros s' N. rewrite epoch_publish. by rewrite bool_decide_false.
    + unfold reader_ok. cbn. split; [done|]. split; [done|]. split; [|done]. intros s' T'. rewrite Ts in T'. injection T' as <-.
      rewrite epoch_publish. by rewrite bool_decide_true.
Qed.

Lemma held_epoch w t s o :
  Inv w -> tls_slots (mgr w) !! t = Some s -> o ∈ held (reader t w) -> epoch_at s (mgr w) <= global_epoch_ (mgr w).
Proof.
  intros I T Ho. pose proof (i_readers _ I t) as R. unfold reader_ok in R. destruct R as [_ R]. destruct (depth _) as [|[|]]; [| |done].
  - destruct R as (E & _). rewrite E in Ho. by apply elem_of_empty in Ho.
  - destruct R as (_ & s' & T' & B). rewrite T in T'. by injection T' as <-.
Qed.

(** A step that changes neither readers nor slots. *)
Lemma other_step m ln pd fr rd wr rc m' ln' pd' fr' wr' rc' :
  Inv (mkWorld m ln pd fr rd wr rc) ->
  entries_ m' = entries_ m -> next_slot_ m' = next_slot_ m -> tls_slots m' = tls_slots m -> global_epoch_ m <= global_epoch_ m' ->
  NodeInv (mkWorld m' ln' pd' fr' rd wr' rc') ->
  (forall e o, e <= global_epoch_ m -> protected (mkWorld m ln pd fr rd wr rc) e o ->
     (exists t s, tls_slots m !! t = Some s /\ e = epoch_at s m /\ o ∈ held (reader t (mkWorld m ln pd fr rd wr rc))) ->
     protected (mkWorld m' ln' pd' fr' rd wr' rc') e o) ->
  scan_ok (mkWorld m' ln' pd' fr' rd wr' rc') -> Inv (mkWorld m' ln' pd' fr' rd wr' rc').
Proof.
  intros I En Ns Ts Gl N P S. destruct (I) as [Is Ir _ Ih _]. cbn [mgr] in *.
  assert (Ep : forall s, epoch_at s m' = epoch_at s m) by (intros s; unfold epoch_at; by rewrite En).
  constructor; try done; cbn [mgr].
  - destruct Is as [M C J F]. constructor; by rewrite ?Ns, ?Ts, ?En.
  - intros t. specialize (Ir t). change (reader t (mkWorld m' ln' pd' fr' rd wr' rc')) with (reader t (mkWorld m ln pd fr rd wr rc)).
    unfold reader_ok in *. rewrite Ts. destruct Ir as [Bu Ir]. split; [done|]. destruct (depth _) as [|[|]]; [| |done].
    + destruct Ir as (H & Q & L). split; [done|]. split; [intros s T; rewrite Ep; by apply Q|].
      intros cur Lc. destruct (L cur Lc). split; [lia|done].
    + destruct Ir as (L & s & T & B). split; [done|]. exists s. rewrite Ep. split; [done|lia].
  - intros t s o. rewrite Ts, Ep. intros T Ho. apply P; [by apply (held_epoch _ t s o I T Ho)|by apply (Ih t s o)|by exists t, s].
Qed.

Lemma view_app m ln pd x fr rd wr rc :
  view (mkWorld m ln (pd ++ [x]) fr rd wr rc) = apply_store x (view (mkWorld m ln pd fr rd wr rc)).
Proof. unfold view. cbn. by rewrite fold_left_app. Qed.

(** What the writer sees in the tree is in memory or about to be. *)
Lemma view_sources w o : o ∈ view w -> o ∈ linked w \/ SLink o ∈ pending w.
Proof.
  unfold view. generalize (linked w). induction (pending w) as [|x l IH]; cbn; intros ln Ho; [by left|].
  destruct (IH _ Ho) as [H|H]; [|right; by right]. destruct x as [o'|o']; cbn in H; [|left; set_solver].
  apply elem_of_union in H as [H|H]; [right; apply elem_of_singleton in H as ->; by left|by left].
Qed.

Lemma view_live w o : NodeInv w -> o ∈ view w -> o ∉ freed w /\ o ∉ (retired_ (mgr w)).*2.
Proof.
  intros N Ho. apply view_sources in Ho as [Ho|Ho]; [by apply N|].
  exact (proj1 (Forall_forall _ _) (n_pending _ N) _ Ho).
Qed.

(** The writer's stores: into its buffer, and from there to memory. *)
Lemma store_actions_Inv a w w' :
  match a with Link _ | Unlink _ | FlushLink => True | _ => False end ->
  Inv w -> allowed a w = true -> act true a w = Some w' -> Inv w'.
Proof.
  intros A I Al. pose proof (i_scan _ I) as Sc. pose proof (i_nodes _ I) as N. destruct (N) as [N1 N2 N3 N4 Np N5 Nd N6].
  destruct w as [m ln pd fr rd wr rc]. cbn [mgr linked pending freed Epoch.wr Epoch.rc] in *.
  destruct a as [| | | | |o|o| | | | | |]; try done; clear A; cbn [act]; cbn [allowed Epoch.rc] in Al.
  - destruct wr as [|? |? ?]; try done. destruct (is_new o _) eqn:Nw; [|done]. apply bool_decide_eq_true_1 in Nw. cbn in Nw. intros [= <-].
    apply (other_step m ln pd fr rd WIdle rc); try done.
    constructor; cbn; try done. apply Forall_app. split; [done|]. repeat constructor; cbn; tauto.
  - destruct rc; [|done]. destruct wr as [|? |? ?]; try done. case_bool_decide as Ho; [|done]. intros [= <-].
    destruct (view_live _ _ N Ho) as [Nf Nr]. apply (other_step m ln pd fr rd WIdle RIdle); try done.
    + constructor; cbn [mgr linked pending freed Epoch.wr]; try done.
      * apply Forall_app. split; [|by repeat constructor]. eapply Forall_impl; [exact Np|]. by intros [o'|o'].
      * intros o' [= <-]. rewrite view_app. cbn. split; [set_solver|done].
    + unfold protected. cbn. intros e o' _ [|[|[(?&?&_)|]]] _; [auto|done|done|auto].
  - destruct pd as [|x pd]; [done|]. intros [= <-]. apply Forall_cons in Np as [Nx Np].
    apply (other_step m ln (x :: pd) fr rd wr rc); try done.
    + constructor; cbn [mgr linked pending freed Epoch.wr]; try done; [|intros ? ? X; by specialize (Nd _ _ X)].
      intros o. destruct x as [o'|o']; cbn; [|set_solver]. intros Ho. apply elem_of_union in Ho as [Ho|Ho]; [|by apply N4].
      by apply elem_of_singleton in Ho as ->.
    + unfold protected. cbn. intros e o _ P _. destruct x as [o'|o']; cbn in Nx |- *; [set_solver|].
      destruct (decide (o = o')) as [->|Ne]; [auto|set_solver].
Qed.

Lemma retire_actions_Inv a w w' :
  match a with Bump | Push => True | _ => False end ->
  Inv w -> allowed a w = true -> act true a w = Some w' -> Inv w'.
Proof.
  intros A I Al. pose proof (i_scan _ I) as Sc. destruct (i_nodes _ I) as [N1 N2 N3 N4 Np N5 Nd N6].
  destruct w as [m ln pd fr rd wr rc]. cbn [mgr linked pending freed Epoch.wr Epoch.rc] in *.
  destruct a; try done; clear A; cbn [act]; cbn [allowed Epoch.rc] in Al; (destruct rc; [|done]).
  - destruct wr as [|o|? ?]; try done. destruct pd; [|done]. cbn. intros [= <-]. destruct (N6 o eq_refl) as (Nl & Nf & Nr).
    apply (other_step m ln [] fr rd (WUnlinked o) RIdle); try done; [cbn; lia| |].
    + constructor; cbn; try done; [|intros ? ? [= <- <-]; lia]. eapply Forall_impl; [exact N1|]. intros x. cbn. lia.
    + unfold protected. cbn. intros e o' Be [|[[= <-]|[(?&?&_)|]]] _; [auto| |done|auto]. right. right. left. eexists. split; [done|lia].
  - destruct wr as [|?|o e]; try done. intros [= <-]. destruct (N6 o eq_refl) as (Nl & Nf & Nr).
    rewrite (Nd _ _ eq_refl) in *. cbn in Nl.
    apply (other_step m ln [] fr rd (WBumped o e) RIdle); try done.
    + constructor; cbn; try done; rewrite ?fmap_app; cbn.
      * apply Forall_app. split; [done|]. constructor; [by apply (N2 o)|constructor].
      * apply NoDup_app. split; [done|]. split; [|apply NoDup_singleton]. intros o' Ho Ho'. apply list_elem_of_singleton in Ho' as ->. done.
      * intros o' Ho. destruct (N4 o' Ho). split; [done|]. rewrite elem_of_app, list_elem_of_singleton. intros [ | -> ]; done.
      * intros o'. rewrite elem_of_app, list_elem_of_singleton. intros [ | -> ]; auto.
    + unfold protected. cbn. intros e1 o' _ [|[|[(e' & Q & L)|(e' & L & B)]]] _; [auto|done| |].
      * injection Q as <- <-. right. right. right. exists e. split; [apply elem_of_app; right; by apply list_elem_of_singleton|done].
      * right. right. right. exists e'. split; [apply elem_of_app; by left|done].
Qed.

Lemma snd_unique (l : list (Z * nat)) e1 e2 o : NoDup (l.*2) -> (e1, o) ∈ l -> (e2, o) ∈ l -> e1 = e2.
Proof.
  induction l as [|[e o'] l IH]; cbn; intros N E1 E2; [by apply elem_of_nil in E1|].
  apply NoDup_cons in N as [N1 N2].
  assert (M : forall e, (e, o) ∈ l -> o ∈ l.*2) by (intros e' E; apply list_elem_of_fmap; by exists (e', o)).
  apply elem_of_cons in E1 as [Q1|E1], E2 as [Q2|E2]; simplify_eq; [done|by destruct N1; eapply M|by destruct N1; eapply M|by apply IH].
Qed.

(** What one sweep of the retired list frees and keeps. *)
Lemma sweep_nodes safe l f k :
  NoDup (l.*2) -> sweep (length l) safe l = (f, k) ->
  NoDup (k.*2) /\ (forall o, o ∈ f <-> exists e, (e, o) ∈ l /\ e <= safe) /\ (forall e o, (e, o) ∈ k <-> (e, o) ∈ l /\ safe < e).
Proof.
  intros N S. destruct (sweep_spec _ _ _ _ _ (le_n _) S) as [Pf Pk]. split; [|split].
  - rewrite Pk. clear -N. induction l as [|x l IH]; [done|]. cbn in N. apply NoDup_cons in N as [N1 N2].
    rewrite filter_cons. destruct (decide _); [|by apply IH]. cbn. apply NoDup_cons. split; [|by apply IH].
    intros X. apply N1. apply list_elem_of_fmap in X as (y & -> & Y). apply list_elem_of_filter in Y as [_ Y].
    apply list_elem_of_fmap. by exists y.
  - intros o. rewrite Pf, list_elem_of_fmap. split.
    + intros ([e o'] & -> & X). apply list_elem_of_filter in X as [D X]. by exists e.
    + intros (e & X & D). exists (e, o). split; [done|]. by apply list_elem_of_filter.
  - intros e o. rewrite Pk, list_elem_of_filter. unfold due. cbn. split; intros []; split; try done; lia.
Qed.

Lemma reclaim_actions_Inv a w w' :
  match a with ScanBegin | ScanSlot | Free => True | _ => False end ->
  Inv w -> allowed a w = true -> act true a w = Some w' -> Inv w'.
Proof.
  intros A I Al. pose proof (i_scan _ I) as Sc. pose proof (i_slots _ I) as Sl. pose proof (i_nodes _ I) as Nd. pose proof (i_held _ I) as Ih.
  destruct w as [m ln pd fr rd wr rc]. cbn [mgr linked pending freed Epoch.wr Epoch.rc] in *.
  destruct a; try done; clear A; cbn [act]; cbn [allowed Epoch.wr] in Al; unfold scan_ok in Sc; cbn [Epoch.rc Epoch.wr mgr] in Sc.
  - destruct wr; [|done..]. destruct rc; [|done]. intros [= <-]. apply (other_step m ln pd fr rd WIdle RIdle); try done; [by destruct Nd|].
    unfold scan_ok. cbn. split; [done|]. intros t s o T _ _. split; [|lia]. pose proof (s_claimed _ Sl t s T). pose proof (s_max _ Sl). unfold scan_n. lia.
  - destruct rc as [|n i min_e]; [done|]. destruct (i <? n)%nat; [|done]. intros [= <-]. destruct Sc as [-> Sc].
    apply (other_step m ln pd fr rd WIdle (RScan n i min_e)); try done; [by destruct Nd|]. unfold scan_ok. cbn. split; [done|].
    intros t s o T Ho Hr. destruct (Sc t s o T Ho Hr) as [B M]. split; [done|]. intros L. unfold scan_slot.
    destruct (epoch_at i m <? min_e) eqn:E; [apply Z.ltb_lt in E|apply Z.ltb_ge in E];
      (destruct (decide (s = i)) as [->|]; [lia|]; specialize (M ltac:(lia)); lia).
  - destruct rc as [|n i safe]; [done|]. destruct (i =? n)%nat eqn:E; [|done]. apply Nat.eqb_eq in E as ->. destruct Sc as [-> Sc].
    destruct (sweep _ _ _) as [f k] eqn:S. intros [= <-]. destruct Nd as [N1 N2 N3 N4 Np N5 Nd N6]. cbn [mgr linked pending freed Epoch.wr] in *.
    destruct (sweep_nodes _ _ _ _ N3 S) as (Nk & Ff & Fk).
    assert (In2 : forall o, o ∈ k.*2 -> exists e, (e, o) ∈ retired_ m /\ safe < e).
    { intros o X. apply list_elem_of_fmap in X as ([e o'] & -> & X). apply Fk in X. by exists e. }
    assert (R2 : forall e o, (e, o) ∈ retired_ m -> o ∈ (retired_ m).*2) by (intros e o X; apply list_elem_of_fmap; by exists (e, o)).
    assert (Live : forall o, o ∉ fr /\ o ∉ (retired_ m).*2 -> o ∉ list_to_set f ∪ fr /\ o ∉ k.*2).
    { intros o [Nf Nr]. rewrite elem_of_union, elem_of_list_to_set, Ff. split.
      - intros [(e & X & _)|X]; [|done]. by apply Nr, (R2 e).
      - intros X. destruct (In2 o X) as (e & Y & _). by apply Nr, (R2 e). }
    apply (other_step m ln pd fr rd WIdle (RScan n n safe)); try done.
    + constructor; cbn; try done.
      * apply Forall_forall. intros [e o] X. apply Fk in X as [X _]. by apply (proj1 (Forall_forall _ _) N1 _ X).
      * intros o Ho. by apply Live, N4.
      * eapply Forall_impl; [exact Np|]. intros [o|o]; [by apply Live|done].
      * intros o X. destruct (In2 o X) as (e & Y & L). rewrite elem_of_union, elem_of_list_to_set, Ff.
        intros [(e2 & Y2 & L2)|Z]; [|by apply (N5 o); [eapply R2|]]. pose proof (snd_unique _ _ _ _ N3 Y Y2). lia.
    + unfold protected. cbn. intros e o _ [|[|[(? & ? & _)|(e' & X & L)]]] (t & s & T & -> & Ho); [auto|done|done|].
      right. right. right. exists e'. split; [|done]. apply Fk. split; [done|].
      destruct (Sc t s o T Ho (R2 _ _ X)) as [B M]. specialize (M B). lia.
Qed.

Lemma Inv_init : Inv init.
Proof.
  constructor; cbn.
  - constructor; cbn; [unfold kMaxReaderThreads; lia|by intros t s X..|done].
  - intros t. unfold reader_ok, reader. cbn. by repeat split; intros.
  - constructor; cbn; try done; constructor.
  - by intros t s o X.
  - done.
Qed.

Lemma run_EpochInv acts : forall w w', Inv w -> run true true acts w = Some w' -> Inv w'.
Proof.
  induction acts as [|a acts IH]; intros w w' I; cbn [run negb orb]; [by intros [= <-]|].
  destruct (allowed a w) eqn:Al; [|done]. destruct (act true a w) as [w1|] eqn:E; [|done]. cbn. apply IH.
  destruct a; solve [eapply reader_actions_Inv; eauto; exact Logic.I | eapply store_actions_Inv; eauto; exact Logic.I
    | eapply retire_actions_Inv; eauto; exact Logic.I
    | eapply reclaim_actions_Inv; eauto; exact Logic.I].
Qed.

(** [C39] On a machine with x86-TSO memory, over every interleaving of readers, the
    writer, its store buffer and [Reclaim] in which [Reclaim] and the writer exclude each
    other and no thread enters a second time: a node that a reader picked up inside its
    read section is not freed before it leaves, a node the readers or the writer reach in
    the tree is never freed, and nothing is freed or retired twice. *)
Theorem ebr_safe acts w :
  run true true acts init = Some w ->
  (forall t o, o ∈ held (reader t w) -> o ∉ freed w) /\ linked w ∪ view w ## freed w /\
  NoDup ((retired_ (mgr w)).*2) /\ (forall o, o ∈ (retired_ (mgr w)).*2 -> o ∉ linked w ∪ view w /\ o ∉ freed w).
Proof.
  intros R. pose proof (run_EpochInv _ _ _ Inv_init R) as I. pose proof (view_live w) as Vl. destruct (i_nodes _ I) as [N1 N2 N3 N4 Np N5 Nd N6].
  split; [|split; [|split]]; [| |done|].
  - intros t o Ho. pose proof (i_readers _ I t) as Rk. unfold reader_ok in Rk. destruct Rk as [_ Rk]. destruct (depth _) as [|[|]]; [| |done].
    + destruct Rk as [E _]. rewrite E in Ho. by apply elem_of_empty in Ho.
    + destruct Rk as (_ & s & T & _). destruct (i_held _ I t s o T Ho) as [X|[X|[(e & X & _)|(e & X & _)]]].
      * by apply N4.
      * apply N6. by rewrite X.
      * apply N6. by rewrite X.
      * apply N5. apply list_elem_of_fmap. by exists (e, o).
  - intros o Hl Hf. apply elem_of_union in Hl as [Hl|Hl]; [by destruct (N4 o Hl)|by destruct (Vl o (i_nodes _ I) Hl)].
  - intros o Hr. split; [|by apply N5]. rewrite elem_of_union.
    intros [Hl|Hl]; [by destruct (N4 o Hl)|by destruct (Vl o (i_nodes _ I) Hl)].
Qed.

(** ** Witnesses and races *)

(** A reader keeps a retired node from being freed until it leaves. *)
Definition w_acts : list action :=
  [Link 7; FlushLink; EnterLoad 1; EnterStore 1; Unlink 7; Pick 1 7; FlushLink; Bump; Push; ScanBegin; ScanSlot; Free].

Lemma ebr_safe_witness :
  exists w, run true true w_acts init = Some w /\ 7%nat ∈ held (reader 1 w) /\ 7%nat ∉ freed w.
Proof.
  assert (is_Some (run true true w_acts init)) as [w R] by (vm_compute; eauto). exists w. split; [done|].
  assert (X : (fun w => bool_decide (7%nat ∈ held (reader 1 w))) <$> run true true w_acts init = Some true) by (vm_compute; reflexivity).
  rewrite R in X. injection X as X. apply bool_decide_eq_true_1 in X.
  split; [done|]. exact (proj1 (ebr_safe w_acts w R) 1%nat 7%nat X).
Defined.

Definition two_retired : Manager := mkManager 5 {[0%nat := 3]} 1 {[9%nat := 0%nat]} [(3, 1%nat); (4, 2%nat)].

Lemma Reclaim_exact_witness : exists m', Reclaim two_retired = ([1%nat], m') /\ retired_ m' ≡ₚ [(4, 2%nat)].
Proof.
  eexists. split; [reflexivity|]. apply (Reclaim_exact two_retired 2 [1%nat]); [cbn; lia|reflexivity].
Defined.

(** Nothing keeps the writer out of [Reclaim]: it has found no reader, then one enters
    and picks up a node, the writer unlinks and retires it, and [Reclaim] frees it. *)
Example retire_during_reclaim :
  (fun w => bool_decide (7%nat ∈ held (reader 1 w) /\ 7%nat ∈ freed w)) <$>
  run false true [Link 7; FlushLink; ScanBegin; EnterLoad 1; EnterStore 1; Pick 1 7; Unlink 7; FlushLink; Bump; Push; Free] init = Some true.
Proof. vm_compute. reflexivity. Qed.

(** Two guards on one thread share a slot: when the inner one goes, the node the outer
    one protects is freed. *)
Example nested_guards :
  (fun w => bool_decide (7%nat ∈ held (reader 1 w) /\ 7%nat ∈ freed w)) <$>
  run false true [Link 7; FlushLink; EnterLoad 1; EnterStore 1; Pick 1 7; EnterLoad 1; EnterStore 1; Exit 1; Unlink 7; FlushLink; Bump; Push;
             ScanBegin; ScanSlot; Free] init = Some true.
Proof. vm_compute. reflexivity. Qed.

(** The memory orders of the source do not keep the reader's load of a link behind its
    store of the epoch: the load is an acquire, and neither [Retire] nor [Reclaim] has a
    sequentially consistent operation. Where the machine makes use of that, [Reclaim]
    does not see the epoch and frees the node the reader has, discipline or not. *)
Example unfenced_publish :
  (fun w => bool_decide (7%nat ∈ held (reader 1 w) /\ 7%nat ∈ freed w)) <$>
  run true false [Link 7; FlushLink; EnterLoad 1; EnterStore 1; Pick 1 7; Unlink 7; FlushLink; Bump; Push;
             ScanBegin; ScanSlot; Free; FlushEpoch 1] init = Some true.
Proof. vm_compute. reflexivity. Qed.

End Epoch.
