(* ===== verification/Locator.v ===== *)
(** * Locators, state identities and content keys

    The identities of core/common: [kv_locator_t] of kvcache/kv_types.h with the
    64-byte wire format of locator.cpp, [StateIdentity] of state_identity.h with its
    projections, the FNV-1a hash of hashing.h; and the 16-byte keys headless_node.cpp
    derives from them for the tiers.

    The theorems: the wire format is a bijection between typed locators of version 1 and
    the byte strings the reader accepts ([locator_roundtrip]); a tier key does not
    determine the tenant, so for every locator each other tenant has one with the same
    key ([content_keys_collide]). BLAKE3 is a parameter. *)

From S2P Require Import Prelude.
From Stdlib Require Import ZArith Lia.

Open Scope Z_scope.

Module Locator.

(** ** kv_locator_t *)

Record kv_range_t := mkRange {
  layer_start : Z; layer_count : Z; head_start : Z; head_count : Z; token_start : Z; token_count : Z }.

Record kv_locator_t := mkLocator {
  tenant_id : bytes; model_id_hash : Z; prefix_hash : bytes; range : kv_range_t; version : Z; flags : Z }.

Definition MakeLocator (tenant : bytes) (model : Z) (prefix : bytes) (r : kv_range_t) : kv_locator_t :=
  mkLocator tenant model prefix r 1 0.

(** The fields have the widths of the struct. *)
Definition uint (bits z : Z) : Prop := 0 <= z < 2 ^ bits.

Definition range_ok (r : kv_range_t) : Prop :=
  uint 16 (layer_start r) /\ uint 16 (layer_count r) /\ uint 16 (head_start r) /\ uint 16 (head_count r) /\
  uint 32 (token_start r) /\ uint 32 (token_count r).

Definition locator_ok (l : kv_locator_t) : Prop :=
  length (tenant_id l) = 16%nat /\ uint 64 (model_id_hash l) /\ length (prefix_hash l) = 16%nat /\
  range_ok (range l) /\ uint 32 (version l) /\ uint 32 (flags l).

(** ** The wire format *)

Definition range_bytes (r : kv_range_t) : bytes :=
  put_le 2 (layer_start r) ++ put_le 2 (layer_count r) ++ put_le 2 (head_start r) ++ put_le 2 (head_count r) ++
  put_le 4 (token_start r) ++ put_le 4 (token_count r).

Definition SerializeLocator (l : kv_locator_t) : bytes :=
  tenant_id l ++ put_le 8 (model_id_hash l) ++ prefix_hash l ++ range_bytes (range l) ++
  put_le 4 (version l) ++ put_le 4 (flags l).

Definition field (off n : nat) (p : bytes) : bytes := take n (drop off p).

Definition DeserializeLocator (p : bytes) : option kv_locator_t :=
  let num off n := get_le (field off n p) in
  let l := mkLocator (field 0 16 p) (num 16 8)%nat (field 24 16 p)
             (mkRange (num 40 2) (num 42 2) (num 44 2) (num 46 2) (num 48 4) (num 52 4))%nat
             (num 56 4)%nat (num 60 4)%nat in
  if version l =? 1 then Some l else None.

(** ** Identities *)

Definition LocatorIdentityEq (a b : kv_locator_t) : bool :=
  bool_decide (tenant_id a = tenant_id b) && (model_id_hash a =? model_id_hash b) &&
  bool_decide (prefix_hash a = prefix_hash b).

Definition identity_bytes (l : kv_locator_t) : bytes := tenant_id l ++ put_le 8 (model_id_hash l) ++ prefix_hash l.

Section Blake3.
Variable Blake3_64 : bytes -> Z.

Definition LocatorIdentityHash (l : kv_locator_t) : Z := Blake3_64 (identity_bytes l).
Definition ComputeModelIdHash (canonical_model_id : bytes) : Z := Blake3_64 canonical_model_id.
End Blake3.

Definition Fnv1a64 (data : bytes) : Z :=
  fold_left (fun h b => u64 (Z.lxor h (byte_val b) * 0x100000001b3)) data 0xcbf29ce484222325.

(** ** StateIdentity *)

Definition SK_KV : Z := 0.
Definition SK_TOOL_RESULT : Z := 3.
Definition SK_MEMORY : Z := 16.
Definition SIF_IDEMPOTENT : Z := 1.

Record StateIdentity := mkIdentity {
  si_version : Z; state_kind : Z; si_flags : Z; tenant_id_lo : Z; content_hash : bytes; recipe_ref : Z; shape : bytes }.

Definition StateIdentityFromLocator (l : kv_locator_t) : StateIdentity :=
  mkIdentity 2 SK_KV 0 (get_le (take 8 (tenant_id l)))
    (put_le 8 (model_id_hash l) ++ prefix_hash l ++ replicate 8 x00) 0
    (range_bytes (range l) ++ replicate 24 x00).

Definition StateIdentityForToolResult (tenant_lo : Z) (tool_id args : bytes) (idempotent : bool) : StateIdentity :=
  mkIdentity 2 SK_TOOL_RESULT (if idempotent then SIF_IDEMPOTENT else 0) tenant_lo
    (put_le 8 (Fnv1a64 tool_id) ++ put_le 8 (Fnv1a64 args) ++ replicate 16 x00) 0 (replicate 40 x00).

(** The 128 bytes of the struct in memory. *)
Definition identity_image (id : StateIdentity) : bytes :=
  put_le 4 (si_version id) ++ put_le 2 (state_kind id) ++ put_le 2 (si_flags id) ++ put_le 8 (tenant_id_lo id) ++
  content_hash id ++ put_le 8 (recipe_ref id) ++ shape id ++ replicate 32 x00.

Definition StateKeyBytesFromIdentity (id : StateIdentity) : bytes := take 16 (content_hash id).

(** ** Tier keys (headless_node.cpp) *)

Definition xor_byte (a b : byte) : byte := byte_of (Z.lxor (byte_val a) (byte_val b)).

(** The 16 bytes of the tenant and of the prefix, exclusive-or, with the model's eight
    over the first half. *)
Definition LocatorContentKey (l : kv_locator_t) : bytes :=
  zip_with xor_byte (zip_with xor_byte (tenant_id l) (prefix_hash l)) (put_le 8 (model_id_hash l) ++ replicate 8 x00).

Definition StateKeyFromIdentity (id : StateIdentity) : bytes := StateKeyBytesFromIdentity id.

(** ** Round trip *)

Lemma length_range_bytes r : length (range_bytes r) = 16%nat.
Proof. unfold range_bytes. by len_simpl. Qed.

Lemma length_Serialize l : locator_ok l -> length (SerializeLocator l) = 64%nat.
Proof.
  intros (T & _ & P & _). unfold SerializeLocator. len_simpl. rewrite length_range_bytes. lia.
Qed.

Lemma get_put_uint n v : uint (8 * Z.of_nat n) v -> get_le (put_le n v) = v.
Proof.
  intros B. rewrite get_put_le. replace (256 ^ Z.of_nat n) with (2 ^ (8 * Z.of_nat n)).
  - by apply Z.mod_small.
  - replace 256 with (2 ^ 8) by done. by rewrite <- Z.pow_mul_r by lia.
Qed.

Lemma field_skip off n k (a r : bytes) : length a = k -> (k <= off)%nat -> field off n (a ++ r) = field (off - k) n r.
Proof. intros <- L. unfold field. by rewrite drop_app_ge. Qed.

Lemma field_here n (a r : bytes) : length a = n -> field 0 n (a ++ r) = a.
Proof. intros <-. unfold field. by rewrite drop_0, take_app_length. Qed.

(** Move to the field at an offset of a concatenation of fields. *)
Ltac to_field :=
  repeat (erewrite field_skip; [|first [eassumption | apply length_put_le]|lia]; cbn [Nat.sub]);
  rewrite field_here by first [eassumption | apply length_put_le].

Ltac project := cbn [tenant_id model_id_hash prefix_hash range
  layer_start layer_count head_start head_count token_start token_count version flags].

Lemma Deserialize_Serialize l : locator_ok l -> version l = 1 -> DeserializeLocator (SerializeLocator l) = Some l.
Proof.
  destruct l as [t m p [r1 r2 r3 r4 r5 r6] v fl]. unfold locator_ok, range_ok. project.
  intros (T & M & P & (R1 & R2 & R3 & R4 & R5 & R6) & V & F) ->.
  rewrite <- (app_nil_r (SerializeLocator _)). unfold SerializeLocator, range_bytes. project. rewrite <- !app_assoc.
  unfold DeserializeLocator. cbn [version].
  assert (Ev : get_le (field 56 4 (t ++ put_le 8 m ++ p ++ put_le 2 r1 ++ put_le 2 r2 ++ put_le 2 r3 ++ put_le 2 r4 ++
    put_le 4 r5 ++ put_le 4 r6 ++ put_le 4 1 ++ put_le 4 fl ++ [])) = 1) by (to_field; by apply get_put_uint).
  rewrite Ev. cbn [Z.eqb Pos.eqb]. repeat f_equal; to_field; first [done | by apply get_put_uint].
Qed.

Lemma field_length off n p : (off + n <= length p)%nat -> length (field off n p) = n.
Proof. intros L. unfold field. rewrite length_take, length_drop. lia. Qed.

Lemma put_get_field off n p : (off + n <= length p)%nat -> put_le n (get_le (field off n p)) = field off n p.
Proof. intros L. rewrite <- (field_length off n p L) at 1. apply put_get_le. Qed.

Lemma fields_cat off n k p : field off n p ++ field (off + n) k p = field off (n + k) p.
Proof. unfold field. rewrite <- drop_drop. apply take_drop_commute_add. Qed.

Lemma Serialize_Deserialize p l : length p = 64%nat -> DeserializeLocator p = Some l -> SerializeLocator l = p /\ version l = 1.
Proof.
  intros L. unfold DeserializeLocator. destruct (_ =? 1) eqn:V; [|done]. intros [= <-]. cbn [version] in *. split; [|by apply Z.eqb_eq].
  unfold SerializeLocator, range_bytes. project.
  rewrite !put_get_field by lia. rewrite <- !app_assoc.
  rewrite !(fields_cat 56 4), !(fields_cat 52 4), !(fields_cat 48 4), !(fields_cat 46 2), !(fields_cat 44 2), !(fields_cat 42 2),
    !(fields_cat 40 2), !(fields_cat 24 16), !(fields_cat 16 8), !(fields_cat 0 16).
  unfold field. by rewrite drop_0, take_ge by lia.
Qed.

Lemma uint_field off n p : (off + n <= length p)%nat -> uint (8 * Z.of_nat n) (get_le (field off n p)).
Proof.
  intros L. pose proof (get_le_bound (field off n p)) as B. rewrite field_length in B by done. unfold uint.
  replace (2 ^ (8 * Z.of_nat n)) with (256 ^ Z.of_nat n); [done|]. replace 256 with (2 ^ 8) by done. by rewrite <- Z.pow_mul_r by lia.
Qed.

(** The 64-byte wire format of locators: writing a typed locator of version 1 and
    reading it gives it back; whatever 64 bytes the reader accepts, it yields a typed
    locator of version 1 whose writing is exactly those bytes; so no two byte strings
    stand for one locator and no two locators for one byte string. *)
Theorem locator_roundtrip :
  (forall l, locator_ok l -> version l = 1 ->
     length (SerializeLocator l) = 64%nat /\ DeserializeLocator (SerializeLocator l) = Some l) /\
  (forall p l, length p = 64%nat -> DeserializeLocator p = Some l ->
     locator_ok l /\ version l = 1 /\ SerializeLocator l = p).
Proof.
  split.
  - intros l Ok V. split; [by apply length_Serialize|by apply Deserialize_Serialize].
  - intros p l L D. destruct (Serialize_Deserialize p l L D) as [S V]. split; [|done].
    unfold DeserializeLocator in D. destruct (_ =? 1) in D; [|done]. injection D as <-.
    unfold locator_ok, range_ok. cbn.
    repeat split; try (apply field_length; lia);
      match goal with |- context [get_le (field ?o ?n p)] => pose proof (uint_field o n p ltac:(lia)) as B; destruct B; assumption end.
Qed.

Definition w_locator : kv_locator_t :=
  MakeLocator (replicate 16 x0a) 7 (replicate 16 x0b) (mkRange 0 32 0 8 0 4096).

Lemma locator_roundtrip_witness :
  DeserializeLocator (SerializeLocator w_locator) = Some w_locator.
Proof. apply (proj1 locator_roundtrip w_locator); [|done]. by repeat split. Defined.

(** ** Keys collide across tenants *)

Lemma byte_bits b i : 8 <= i -> Z.testbit (byte_val b) i = false.
Proof. intros L. pose proof (byte_val_bound b). apply (Z.bits_above_log2); [lia|]. destruct (Z.eq_dec (byte_val b) 0) as [->|]; [cbn; lia|]. apply Z.log2_lt_pow2; [lia|]. apply (Z.lt_le_trans _ (2 ^ 8)); [lia|]. apply Z.pow_le_mono_r; lia. Qed.

Lemma xor_byte_val a b : byte_val (xor_byte a b) = Z.lxor (byte_val a) (byte_val b).
Proof.
  unfold xor_byte. rewrite byte_val_of. apply Z.mod_small. split.
  - apply Z.lxor_nonneg. pose proof (byte_val_bound a). pose proof (byte_val_bound b). lia.
  - destruct (Z.eq_dec (Z.lxor (byte_val a) (byte_val b)) 0) as [->|N]; [lia|]. change 256 with (2 ^ 8).
    assert (0 <= Z.lxor (byte_val a) (byte_val b)) by (apply Z.lxor_nonneg; pose proof (byte_val_bound a); pose proof (byte_val_bound b); lia).
    apply Z.log2_lt_pow2; [lia|]. destruct (Z_lt_ge_dec (Z.log2 (Z.lxor (byte_val a) (byte_val b))) 8) as [|G]; [done|]. exfalso.
    assert (X : Z.testbit (Z.lxor (byte_val a) (byte_val b)) (Z.log2 (Z.lxor (byte_val a) (byte_val b))) = true) by (apply Z.bit_log2; lia).
    rewrite Z.lxor_spec, !byte_bits in X by lia. done.
Qed.

Lemma xor_cancel a b c : xor_byte a (xor_byte a (xor_byte b c)) = xor_byte b c.
Proof. apply byte_val_inj. rewrite !xor_byte_val, <- !Z.lxor_assoc, Z.lxor_nilpotent. by rewrite Z.lxor_0_l. Qed.

Lemma zip_cancel (t' t p : bytes) :
  length t' = length t -> length p = length t ->
  zip_with xor_byte t' (zip_with xor_byte t' (zip_with xor_byte t p)) = zip_with xor_byte t p.
Proof.
  revert t' p. induction t as [|x t IH]; intros [|y t'] [|z p] L1 L2; try done. cbn in *. f_equal; [apply xor_cancel|apply IH; lia].
Qed.

(** Whatever the tenant of a locator, every other tenant has a locator, with a prefix
    hash of its choice, that is stored under the same key in every tier. *)
Theorem content_keys_collide l t' :
  locator_ok l -> length t' = 16%nat ->
  exists p', length p' = 16%nat /\
    LocatorContentKey (mkLocator t' (model_id_hash l) p' (range l) (version l) (flags l)) = LocatorContentKey l.
Proof.
  intros (T & _ & P & _) T'. exists (zip_with xor_byte t' (zip_with xor_byte (tenant_id l) (prefix_hash l))). split.
  - rewrite !length_zip_with, T, P, T'. done.
  - unfold LocatorContentKey. cbn. by rewrite zip_cancel by lia.
Qed.

End Locator.
