(* ===== verification/Events.v ===== *)
(** * The event stream

    [EventStream] and [SubscriberRing] of prefix/kv_event_stream.cpp: events are stamped
    with an increasing epoch and copied into a bounded ring per subscriber; a full ring
    drops the event and counts it. Every push happens under the stream's mutex, and so
    does every pop, so a ring is used by one call at a time. [Publish] is two steps, the
    stamp and the copies, because it stamps before it takes the mutex. Head and tail are
    64-bit counters that do not wrap.

    The theorems: a ring's capacity is the power of two it should be ([Roundup_exact]); a
    subscriber receives the events published since it subscribed, in order, except those
    it is told to have missed, while no two producers overlap ([subscriber_view]); two
    that overlap can be delivered out of order ([out_of_order]). *)

From S2P Require Import Prelude.
From Stdlib Require Import ZArith Lia.

Open Scope Z_scope.

Module Events.

Inductive EventType := Add | Evict | Promote | Demote.
Inductive Tier := Unspecified | Hbm | Pinned | Dram | Nvme | ColdStore.

Record Event := mkEvent { type : EventType; tier : Tier; locator : bytes; epoch : Z; unix_nanos : Z }.

(** ** SubscriberRing *)

Definition Roundup (v : Z) : Z :=
  if v <? 8 then 8
  else
    let v := v - 1 in
    let v := Z.lor v (Z.shiftr v 1) in
    let v := Z.lor v (Z.shiftr v 2) in
    let v := Z.lor v (Z.shiftr v 4) in
    let v := Z.lor v (Z.shiftr v 8) in
    let v := Z.lor v (Z.shiftr v 16) in
    u32 (v + 1).

Record SubscriberRing := mkRing {
  capacity_ : Z; mask_ : Z; buf_ : gmap Z Event; head_ : Z; tail_ : Z; overflow_ : Z }.

Definition new_ring (capacity_pow2 : Z) : SubscriberRing :=
  let c := Roundup capacity_pow2 in mkRing c (u32 (c - 1)) ∅ 0 0 0.

Definition TryPush (ev : Event) (r : SubscriberRing) : bool * SubscriberRing :=
  let h := head_ r in let t := tail_ r in
  if capacity_ r <=? u64 (h - t)
  then (false, mkRing (capacity_ r) (mask_ r) (buf_ r) h t (overflow_ r + 1))
  else (true, mkRing (capacity_ r) (mask_ r) (<[Z.land h (mask_ r) := ev]> (buf_ r)) (h + 1) t (overflow_ r)).

Definition TryPop (r : SubscriberRing) : option Event * SubscriberRing :=
  let t := tail_ r in let h := head_ r in
  if t =? h then (None, r)
  else (buf_ r !! Z.land t (mask_ r), mkRing (capacity_ r) (mask_ r) (buf_ r) h (t + 1) (overflow_ r)).

(** ** EventStream *)

Record Stream := mkStream { subs_ : list (Z * SubscriberRing); next_handle_ : Z; epoch_ : Z }.

Definition new_stream : Stream := mkStream [] 1 0.

(** The two halves of [Publish]; the clock is read when the event has no time. *)
Definition stamp (now : Z) (ev : Event) (s : Stream) : Event * Stream :=
  let e := epoch_ s + 1 in
  (mkEvent (type ev) (tier ev) (locator ev) e (if unix_nanos ev =? 0 then now else unix_nanos ev),
   mkStream (subs_ s) (next_handle_ s) e).
Definition fan_out (ev : Event) (s : Stream) : Stream :=
  mkStream ((fun x => (x.1, (TryPush ev x.2).2)) <$> subs_ s) (next_handle_ s) (epoch_ s).

Definition Publish (now : Z) (ev : Event) (s : Stream) : Stream :=
  let '(ev', s') := stamp now ev s in fan_out ev' s'.

Definition Subscribe (ring_capacity_pow2 : Z) (s : Stream) : Z * Stream :=
  let h := next_handle_ s in (h, mkStream (subs_ s ++ [(h, new_ring ring_capacity_pow2)]) (h + 1) (epoch_ s)).

Fixpoint erase_first (h : Z) (l : list (Z * SubscriberRing)) : list (Z * SubscriberRing) :=
  match l with [] => [] | x :: r => if x.1 =? h then r else x :: erase_first h r end.
Definition Unsubscribe (h : Z) (s : Stream) : Stream := mkStream (erase_first h (subs_ s)) (next_handle_ s) (epoch_ s).

Fixpoint poll_in (h : Z) (l : list (Z * SubscriberRing)) : option Event * list (Z * SubscriberRing) :=
  match l with
  | [] => (None, [])
  | x :: r =>
      if x.1 =? h then let '(ev, ring) := TryPop x.2 in (ev, (x.1, ring) :: r)
      else let '(ev, r') := poll_in h r in (ev, x :: r')
  end.
Definition Poll (h : Z) (s : Stream) : option Event * Stream :=
  let '(ev, l) := poll_in h (subs_ s) in (ev, mkStream l (next_handle_ s) (epoch_ s)).

(** ** Capacities *)

(** [v | v >> 1 | ... | v >> n] as a predicate on bits. *)
Definition smeared (n v w : Z) : Prop :=
  forall i, 0 <= i -> (Z.testbit w i = true <-> exists j, i <= j <= i + n /\ Z.testbit v j = true).

Lemma smear_step n k v w :
  0 <= n -> k = n + 1 -> smeared n v w -> smeared (n + k) v (Z.lor w (Z.shiftr w k)).
Proof.
  intros Hn -> S i Hi. rewrite Z.lor_spec, Z.shiftr_spec, orb_true_iff by done.
  rewrite (S i Hi), (S (i + (n + 1)) ltac:(lia)). split.
  - intros [(j & B & T)|(j & B & T)]; exists j; split; try done; lia.
  - intros (j & B & T). destruct (Z_le_gt_dec j (i + n)); [left|right]; exists j; split; try done; lia.
Qed.

Lemma smeared_full v w :
  0 < v < 2 ^ 32 -> 0 <= w -> smeared 31 v w -> w = 2 ^ (Z.log2 v + 1) - 1.
Proof.
  intros V W S. pose proof (Z.log2_spec v ltac:(lia)) as [L1 L2].
  assert (Lb : 0 <= Z.log2 v < 32) by (split; [apply Z.log2_nonneg|apply Z.log2_lt_pow2; lia]).
  apply Z.bits_inj'. intros i Hi. replace (2 ^ (Z.log2 v + 1) - 1) with (Z.ones (Z.log2 v + 1)) by (rewrite Z.ones_equiv; lia).
  destruct (Z_le_gt_dec i (Z.log2 v)) as [Le|Gt].
  - rewrite Z.ones_spec_low by lia. apply S; [done|]. exists (Z.log2 v). split; [lia|]. apply Z.bit_log2. lia.
  - rewrite Z.ones_spec_high by lia. apply not_true_iff_false. intros T. apply S in T as (j & B & T); [|done].
    rewrite Z.bits_above_log2 in T; [done|lia|lia].
Qed.

Lemma Roundup_spec v :
  0 <= v < 2 ^ 32 ->
  (v <= 2 ^ 31 -> exists n, 3 <= n <= 31 /\ Roundup v = 2 ^ n /\ v <= 2 ^ n /\ (3 < n -> 2 ^ (n - 1) < v)) /\
  (2 ^ 31 < v -> Roundup v = 0 /\ forall ev r, capacity_ r = Roundup v -> (TryPush ev r).1 = false).
Proof.
  intros V. unfold Roundup. destruct (v <? 8) eqn:E; [apply Z.ltb_lt in E|apply Z.ltb_ge in E].
  { split; [|lia]. intros _. exists 3. lia. }
  set (w := v - 1). set (w1 := Z.lor w _). set (w2 := Z.lor w1 _). set (w3 := Z.lor w2 _). set (w4 := Z.lor w3 _). set (w5 := Z.lor w4 _).
  assert (S0 : smeared 0 w w).
  { intros i Hi. split; [intros T; exists i; split; [lia|done]|]. intros (j & B & T). by replace i with j by lia. }
  pose proof (smear_step 0 1 w w ltac:(lia) eq_refl S0) as S1. pose proof (smear_step 1 2 w w1 ltac:(lia) eq_refl S1) as S2.
  pose proof (smear_step 3 4 w w2 ltac:(lia) eq_refl S2) as S3. pose proof (smear_step 7 8 w w3 ltac:(lia) eq_refl S3) as S4.
  pose proof (smear_step 15 16 w w4 ltac:(lia) eq_refl S4) as S5. cbn in S5. fold w5 in S5.
  assert (Nn : 0 <= w5).
  { assert (H : forall x k, 0 <= x -> 0 <= Z.lor x (Z.shiftr x k)) by (intros x k Hx; apply Z.lor_nonneg; split; [done|by apply Z.shiftr_nonneg]).
    unfold w5, w4, w3, w2, w1. repeat apply H. unfold w. lia. }
  pose proof (smeared_full w w5 ltac:(unfold w; lia) Nn S5) as W5. rewrite W5. replace (_ - 1 + 1) with (2 ^ (Z.log2 w + 1)) by lia.
  pose proof (Z.log2_spec w ltac:(unfold w; lia)) as [L1 L2]. assert (Z.log2 w < 32) by (apply Z.log2_lt_pow2; unfold w; lia).
  assert (2 <= Z.log2 w) by (apply Z.log2_le_pow2; unfold w; lia). split.
  - intros Le. assert (Z.log2 w < 31) by (apply Z.log2_lt_pow2; unfold w; lia).
    exists (Z.log2 w + 1). rewrite u32_small; [|split; [apply Z.pow_nonneg; lia|apply Z.pow_lt_mono_r; lia]].
    split; [lia|]. split; [done|]. unfold w in *. rewrite Z.add_1_r in *. split; [lia|]. intros _. replace (Z.succ (Z.log2 (v - 1)) - 1) with (Z.log2 (v - 1)) by lia. lia.
  - intros Gt. assert (31 <= Z.log2 w) by (apply Z.log2_le_pow2; unfold w; lia). replace (Z.log2 w + 1) with 32 by lia.
    split; [done|]. intros ev r C. unfold TryPush. rewrite C. replace (u32 (2 ^ 32)) with 0 by done.
    by rewrite (proj2 (Z.leb_le 0 _)) by apply u64_bound.
Qed.

(** The capacity of a ring: for every request up to 2^31 it is a power of two that is
    at least 8 and the request, and the smallest such; above 2^31 it wraps to zero, and
    the ring drops every event. *)
Theorem Roundup_exact v :
  0 <= v < 2 ^ 32 ->
  (v <= 2 ^ 31 -> exists n, 3 <= n <= 31 /\ Roundup v = 2 ^ n /\ v <= 2 ^ n /\ (3 < n -> 2 ^ (n - 1) < v)) /\
  (2 ^ 31 < v -> Roundup v = 0 /\ forall ev r, capacity_ r = Roundup v -> (TryPush ev r).1 = false).
Proof. apply Roundup_spec. Qed.

Definition w_request : Z := 4096.

Lemma Roundup_exact_witness : exists n, Roundup w_request = 2 ^ n /\ 3 <= n <= 31.
Proof. destruct (proj1 (Roundup_exact w_request ltac:(done)) ltac:(done)) as (n & B & E & _). by exists n. Defined.

(** ** A ring is a bounded queue *)

Record RingInv (r : SubscriberRing) : Prop := {
  r_cap : exists n, 3 <= n <= 31 /\ capacity_ r = 2 ^ n /\ mask_ r = 2 ^ n - 1;
  r_fill : 0 <= tail_ r <= head_ r /\ head_ r - tail_ r <= capacity_ r;
  r_buf : forall i, tail_ r <= i < head_ r -> is_Some (buf_ r !! (i mod capacity_ r)) }.

Definition no_event : Event := mkEvent Add Unspecified [] 0 0.

(** The events pushed and not yet popped. *)
Definition pending (r : SubscriberRing) : list Event :=
  (fun i => default no_event (buf_ r !! (i mod capacity_ r))) <$> seqZ (tail_ r) (head_ r - tail_ r).

Lemma mask_mod r i : RingInv r -> Z.land i (mask_ r) = i mod capacity_ r.
Proof.
  intros [(n & B & -> & ->) _ _]. replace (2 ^ n - 1) with (Z.ones n) by (rewrite Z.ones_equiv; lia). apply Z.land_ones. lia.
Qed.

Lemma capacity_pos r : RingInv r -> 0 < capacity_ r < 2 ^ 32.
Proof. intros [(n & B & -> & _) _ _]. split; [apply Z.pow_pos_nonneg; lia|apply Z.pow_lt_mono_r; lia]. Qed.

Lemma length_pending r : RingInv r -> zlen (pending r) = head_ r - tail_ r.
Proof. intros I. unfold pending. rewrite length_fmap, length_seqZ. destruct (r_fill _ I). lia. Qed.

Lemma new_ring_Inv c : 0 <= c <= 2 ^ 31 -> RingInv (new_ring c) /\ pending (new_ring c) = [].
Proof.
  intros B. destruct (Z_lt_ge_dec c 8) as [L|G].
  { unfold new_ring, Roundup. rewrite (proj2 (Z.ltb_lt c 8)) by done. split; [|done].
    constructor; cbn; [by exists 3|lia|lia]. }
  assert (X : exists n, 3 <= n <= 31 /\ Roundup c = 2 ^ n) by
    (destruct (proj1 (Roundup_spec c ltac:(lia)) ltac:(lia)) as (n & Bn & E & _); by exists n).
  destruct X as (n & Bn & E). unfold new_ring. rewrite E. split; [|done].
  assert (0 < 2 ^ n < 2 ^ 32) by (split; [apply Z.pow_pos_nonneg; lia|apply Z.pow_lt_mono_r; lia]).
  constructor; cbn; [|lia|lia]. exists n. split; [done|]. split; [done|]. apply u32_small. lia.
Qed.

Lemma TryPush_spec ev r :
  RingInv r ->
  RingInv (TryPush ev r).2 /\
  (if (TryPush ev r).1
   then pending (TryPush ev r).2 = pending r ++ [ev] /\ overflow_ (TryPush ev r).2 = overflow_ r
   else pending (TryPush ev r).2 = pending r /\ overflow_ (TryPush ev r).2 = overflow_ r + 1 /\ zlen (pending r) = capacity_ r).
Proof.
  intros I. pose proof (capacity_pos _ I) as C. destruct (r_fill _ I) as [F1 F2]. unfold TryPush. rewrite u64_small by lia.
  destruct (capacity_ r <=? head_ r - tail_ r) eqn:E; [apply Z.leb_le in E|apply Z.leb_gt in E]; cbn [fst snd].
  - split; [by destruct I|]. split; [done|]. split; [done|]. rewrite length_pending by done. lia.
  - rewrite mask_mod by done. set (s := head_ r mod capacity_ r).
    assert (Ne : forall i, tail_ r <= i < head_ r -> i mod capacity_ r <> s).
    { intros i B Q. unfold s in Q. assert (D : (head_ r - i) mod capacity_ r = 0) by (rewrite Zminus_mod, Q, Z.sub_diag; apply Z.mod_0_l; lia).
      rewrite Z.mod_small in D by lia. lia. }
    split; [constructor; cbn|split; [|done]].
    + apply (r_cap _ I).
    + lia.
    + intros i B. destruct (Z.eq_dec i (head_ r)) as [->|]; [fold s; rewrite lookup_insert_eq; eauto|].
      rewrite lookup_insert_ne by (symmetry; apply Ne; lia). apply (r_buf _ I). lia.
    + unfold pending. cbn [head_ tail_ capacity_ buf_].
      replace (head_ r + 1 - tail_ r) with (head_ r - tail_ r + 1) by lia. rewrite seqZ_app by lia. rewrite fmap_app. f_equal.
      * apply list_fmap_ext. intros k x E'. apply lookup_seqZ in E' as [-> B]. rewrite lookup_insert_ne; [done|]. symmetry. apply Ne. lia.
      * replace (tail_ r + (head_ r - tail_ r)) with (head_ r) by lia. rewrite (seqZ_cons (head_ r) 1), seqZ_nil by lia.
        cbn [fmap list_fmap]. fold s. by rewrite lookup_insert_eq.
Qed.

Lemma TryPop_spec r :
  RingInv r ->
  RingInv (TryPop r).2 /\ overflow_ (TryPop r).2 = overflow_ r /\
  match (TryPop r).1 with
  | Some ev => pending r = ev :: pending (TryPop r).2
  | None => pending r = [] /\ pending (TryPop r).2 = []
  end.
Proof.
  intros I. pose proof (capacity_pos _ I) as C. destruct (r_fill _ I) as [F1 F2]. unfold TryPop.
  destruct (tail_ r =? head_ r) eqn:E; [apply Z.eqb_eq in E|apply Z.eqb_neq in E]; cbn [fst snd].
  - unfold pending. rewrite E, Z.sub_diag. done.
  - rewrite mask_mod by done. destruct (r_buf _ I (tail_ r) ltac:(lia)) as [ev Ev]. rewrite Ev. split; [|split; [done|]].
    + constructor; cbn; [apply (r_cap _ I)|lia|]. intros i B. apply (r_buf _ I). lia.
    + unfold pending. cbn [head_ tail_ capacity_ buf_]. rewrite (seqZ_cons (tail_ r)) by lia. cbn. rewrite Ev. cbn.
      do 3 f_equal; lia.
Qed.

(** ** What a subscriber sees *)

Fixpoint ring_of (h : Z) (l : list (Z * SubscriberRing)) : option SubscriberRing :=
  match l with [] => None | x :: r => if x.1 =? h then Some x.2 else ring_of h r end.

Lemma ring_of_fan ev h l : ring_of h ((fun x => (x.1, (TryPush ev x.2).2)) <$> l) = (fun r => (TryPush ev r).2) <$> ring_of h l.
Proof. induction l as [|x l IH]; [done|]. cbn. destruct (x.1 =? h); [done|apply IH]. Qed.

Lemma ring_of_app h l x r : ring_of h l = Some r -> ring_of h (l ++ [x]) = Some r.
Proof. induction l as [|y l IH]; [done|]. cbn. destruct (y.1 =? h); [done|apply IH]. Qed.

Lemma ring_of_new h l r : (forall x, x ∈ l -> x.1 <> h) -> ring_of h (l ++ [(h, r)]) = Some r.
Proof.
  induction l as [|y l IH]; cbn; intros N; [by rewrite Z.eqb_refl|].
  rewrite (proj2 (Z.eqb_neq _ _)) by (apply N, elem_of_cons; by left). apply IH. intros x X. apply N, elem_of_cons. by right.
Qed.

Lemma ring_of_erase h h' l : h' <> h -> ring_of h (erase_first h' l) = ring_of h l.
Proof.
  intros N. induction l as [|x l IH]; [done|]. cbn. destruct (x.1 =? h') eqn:E.
  - apply Z.eqb_eq in E. rewrite (proj2 (Z.eqb_neq x.1 h)) by lia. done.
  - cbn. destruct (x.1 =? h); [done|apply IH].
Qed.

Lemma ring_of_poll_other h h' l : h' <> h -> ring_of h (poll_in h' l).2 = ring_of h l.
Proof.
  intros N. induction l as [|x l IH]; [done|]. cbn. destruct (x.1 =? h') eqn:E.
  - apply Z.eqb_eq in E. destruct (TryPop x.2). cbn. rewrite (proj2 (Z.eqb_neq x.1 h)) by lia. done.
  - destruct (poll_in h' l). cbn in *. by destruct (x.1 =? h).
Qed.

Lemma ring_of_poll h l r :
  ring_of h l = Some r -> (poll_in h l).1 = (TryPop r).1 /\ ring_of h (poll_in h l).2 = Some (TryPop r).2.
Proof.
  induction l as [|x l IH]; [done|]. cbn. destruct (x.1 =? h) eqn:E.
  - intros [= <-]. destruct (TryPop x.2). cbn. by rewrite E.
  - intros R. destruct (IH R) as [I1 I2]. destruct (poll_in h l). cbn in *. by rewrite E.
Qed.

Inductive op := OPublish (now : Z) (ev : Event) | OSubscribe (capacity : Z) | OUnsubscribe (h : Z) | OPoll (h : Z).

(** The events published and the events the subscriber [me] received, in order. *)
Fixpoint run (me : Z) (ops : list op) (s : Stream) : list Event * list Event * Stream :=
  match ops with
  | [] => ([], [], s)
  | OPublish now ev :: r => let '(p, g, s') := run me r (Publish now ev s) in ((stamp now ev s).1 :: p, g, s')
  | OSubscribe c :: r => run me r (Subscribe c s).2
  | OUnsubscribe h :: r => run me r (Unsubscribe h s)
  | OPoll h :: r =>
      let '(ev, s1) := Poll h s in
      let '(p, g, s') := run me r s1 in (p, (if h =? me then option_list ev else []) ++ g, s')
  end.

(** Given what the ring held before, what is received and still pending are events that
    were there or were published, in order, and the count of the others has gone up. *)
Lemma run_spec me ops : forall s ring p g s',
  ring_of me (subs_ s) = Some ring -> RingInv ring -> Forall (fun o => o <> OUnsubscribe me) ops ->
  run me ops s = (p, g, s') ->
  exists ring', ring_of me (subs_ s') = Some ring' /\ RingInv ring' /\ capacity_ ring' = capacity_ ring /\
    sublist (g ++ pending ring') (pending ring ++ p) /\
    zlen (pending ring ++ p) = zlen (g ++ pending ring') + (overflow_ ring' - overflow_ ring).
Proof.
  induction ops as [|o ops IH]; intros s ring p g s' R I W; cbn [run].
  { intros [= <- <- <-]. exists ring. split; [done|]. split; [done|]. split; [done|]. rewrite app_nil_r. cbn. split; [done|lia]. }
  inversion_clear W as [|? ? Wo Wr]. destruct o as [now ev|c|h|h].
  - destruct (run me ops _) as [[p1 g1] s1] eqn:E. intros [= <- <- <-]. set (ev' := (stamp now ev s).1).
    destruct (TryPush_spec ev' ring I) as [I1 P1].
    assert (R1 : ring_of me (subs_ (Publish now ev s)) = Some (TryPush ev' ring).2).
    { unfold Publish, fan_out. cbn [stamp subs_]. by rewrite ring_of_fan, R. }
    destruct (IH _ _ _ _ _ R1 I1 Wr E) as (ring' & R' & I' & C' & S' & L').
    exists ring'. split; [done|]. split; [done|]. split; [by rewrite C'; unfold TryPush; destruct (_ <=? _)|].
    destruct (TryPush ev' ring) as [[] rg]; cbn [fst snd] in *.
    + destruct P1 as [P1 O1]. rewrite P1, <- app_assoc in S'. rewrite P1, O1, <- app_assoc in L'. split; [done|exact L'].
    + destruct P1 as (P1 & O1 & _). rewrite P1 in S', L'. split; [|rewrite !length_app in *; cbn; lia].
      etrans; [exact S'|]. apply sublist_app; [done|]. by apply sublist_cons.
  - intros E. apply (IH _ ring _ _ _) in E; [done| |done|done]. cbn. by apply ring_of_app.
  - intros E. apply (IH _ ring _ _ _) in E; [done| |done|done]. cbn. rewrite ring_of_erase; [done|congruence].
  - unfold Poll. destruct (poll_in h (subs_ s)) as [ev l] eqn:Po. destruct (run me ops _) as [[p1 g1] s1] eqn:E. intros [= <- <- <-].
    destruct (h =? me) eqn:Eh; [apply Z.eqb_eq in Eh as ->|apply Z.eqb_neq in Eh].
    + destruct (ring_of_poll _ _ _ R) as [Ev R1]. rewrite Po in Ev, R1. cbn [fst snd] in *. subst ev.
      destruct (TryPop_spec ring I) as (I1 & O1 & P1).
      destruct (IH (mkStream l (next_handle_ s) (epoch_ s)) _ _ _ _ R1 I1 Wr E) as (ring' & R' & I' & C' & S' & L'). exists ring'. split; [done|]. split; [done|].
      split; [by rewrite C'; unfold TryPop; destruct (_ =? _)|]. rewrite O1 in L'.
      destruct (TryPop ring) as [[ev|] rg]; cbn [fst snd option_list] in *.
      * rewrite P1. change (option_list (Some ev)) with [ev]. cbn [app]. split; [by apply sublist_skip|]. cbn [length]. lia.
      * destruct P1 as [-> P1]. rewrite P1 in *. done.
    + assert (R1 : ring_of me l = Some ring).
      { pose proof (ring_of_poll_other me h (subs_ s) Eh) as X. rewrite Po in X. cbn in X. by rewrite X. }
      by apply (IH (mkStream l (next_handle_ s) (epoch_ s)) ring).
Qed.

Lemma run_epochs me ops : forall s p g s',
  run me ops s = (p, g, s') -> epoch <$> p = seqZ (epoch_ s + 1) (zlen p).
Proof.
  assert (Poll_epoch : forall h s, epoch_ (Poll h s).2 = epoch_ s) by (intros h s; unfold Poll; by destruct (poll_in _ _)).
  induction ops as [|[now ev|c|h|h] ops IH]; intros s p g s'; cbn [run].
  - by intros [= <- _ _].
  - destruct (run me ops _) as [[p1 g1] s1] eqn:E. intros [= <- _ _]. apply IH in E. cbn [fmap list_fmap]. rewrite E. cbn [length].
    rewrite (seqZ_cons (epoch_ s + 1)) by lia. cbn. f_equal. f_equal; lia.
  - apply (IH (Subscribe c s).2).
  - apply (IH (Unsubscribe h s)).
  - pose proof (Poll_epoch h s) as Pe. destruct (Poll h s) as [ev s1]. destruct (run me ops s1) as [[p1 g1] s2] eqn:E. intros [= <- _ _].
    apply IH in E. cbn in Pe. by rewrite E, Pe.
Qed.

(** Handles are given out in increasing order. *)
Definition handles_below (s : Stream) : Prop := forall x, x ∈ subs_ s -> x.1 < next_handle_ s.

(** From its subscription on, and whatever other subscribers do, a subscriber
    receives events that were published since, in the order of their consecutive
    epochs and each at most once: what it has received followed by what waits in its
    ring is the published sequence without the events its overflow counter counts. An
    event is dropped only when the ring is full. *)
Theorem subscriber_view c s me s1 ops published received s2 :
  0 <= c <= 2 ^ 31 -> handles_below s -> Subscribe c s = (me, s1) ->
  Forall (fun o => o <> OUnsubscribe me) ops -> run me ops s1 = (published, received, s2) ->
  exists ring, ring_of me (subs_ s2) = Some ring /\ capacity_ ring = Roundup c /\
    sublist (received ++ pending ring) published /\
    zlen published = zlen (received ++ pending ring) + overflow_ ring /\
    epoch <$> published = seqZ (epoch_ s + 1) (zlen published).
Proof.
  intros B Hb [= <- <-] W R. destruct (new_ring_Inv c B) as [I P].
  assert (R0 : ring_of (next_handle_ s) (subs_ s ++ [(next_handle_ s, new_ring c)]) = Some (new_ring c)).
  { apply ring_of_new. intros x X. specialize (Hb x X). lia. }
  pose proof (run_epochs _ _ _ _ _ _ R) as Ep. destruct (run_spec _ _ (Subscribe c s).2 _ _ _ _ R0 I W R) as (ring & R1 & _ & C & S & L).
  exists ring. rewrite P in S, L. cbn [app overflow_ new_ring] in *. split; [done|]. split; [done|]. split; [done|]. split; [lia|done].
Qed.

(** ** Witness and race *)

Definition add_event : Event := mkEvent Add Dram [x01] 0 0.
Definition w_ops : list op := [OPublish 10 add_event; OPoll 1; OSubscribe 8; OPublish 11 add_event; OUnsubscribe 2; OPoll 1; OPoll 1].

Lemma subscriber_view_witness :
  exists published received s2, run 1 w_ops (Subscribe 8 new_stream).2 = (published, received, s2) /\
    length received = 2%nat /\ sublist received published.
Proof.
  destruct (run 1 w_ops (Subscribe 8 new_stream).2) as [[p g] s2] eqn:R. exists p, g, s2. split; [done|].
  assert (Lg : length g = 2%nat).
  { change g with ((p, g, s2).1.2). rewrite <- R. vm_compute. reflexivity. }
  split; [done|]. destruct (subscriber_view 8 new_stream 1 (Subscribe 8 new_stream).2 w_ops p g s2) as (ring & _ & _ & S & _).
  - done.
  - intros x X. by apply elem_of_nil in X.
  - reflexivity.
  - repeat constructor; discriminate.
  - exact R.
  - etrans; [|exact S]. apply sublist_inserts_r. done.
Defined.

(** Two producers: the event stamped first is delivered second. *)
Example out_of_order :
  let s0 := (Subscribe 8 new_stream).2 in
  let '(e1, s1) := stamp 10 add_event s0 in
  let '(e2, s2) := stamp 11 add_event s1 in
  let s3 := fan_out e1 (fan_out e2 s2) in
  (epoch <$> (Poll 1 s3).1, epoch <$> (Poll 1 (Poll 1 s3).2).1) = (Some 2, Some 1).
Proof. vm_compute. reflexivity. Qed.

End Events.
