(* ===== verification/HeadlessNode.v ===== *)
(** * The node

    [HeadlessNode] of core-abi/src/headless_node.cpp, which composes the components: the
    ingest buffers and watermarks (Ingest.v) and the tiers (TierManager.v) hold payloads,
    the radix tree (ArtIndex.v) under the prefix match (Lpm.v) finds them, the event
    stream (Events.v) announces them, the state log (StateWal.v) backs state entries.

    The tree holds the addresses of leaves: a leaf is shared by the tree and by the read
    handles, counted, and outlives its removal from the tree (nothing runs the
    reclamation of Epoch.v in the node). Where the tree is owned by the write-ahead log
    (ArtWal.v), an insert or removal first appends to it; whether that succeeds is an
    outcome. Each call is one step; [Sweeper] and [SweepBuffers] are the iterations of the
    background threads. The RocksDB store is absent, as in the node's default options, and
    the registrations and the transfer of a fetch are outcomes.

    The theorems are in NodeCorrect.v. *)

From S2P Require Import Prelude Locator Events ArtIndex Lpm StateWal DramTier NvmeTier Ingest ColdTier TierManager.
From Stdlib Require Import ZArith QArith Lia.

Open Scope Z_scope.

Module Node.

Import Locator TierManager.

Inductive code :=
| KV_OK | KV_E_INVAL | KV_E_NOMEM | KV_E_NOT_FOUND | KV_E_BUSY | KV_E_TIMEOUT | KV_E_PERM | KV_E_QUOTA | KV_E_TIER_DOWN
| KV_E_SAFETY_NET | KV_E_SEALED | KV_E_NOT_SEALED | KV_E_VERSION_MISMATCH | KV_E_TRANSPORT | KV_E_INTERNAL.

(** [ValuePolicyKv::shouldStore]; the costs are doubles, here the rationals they are. *)
Record CostModel := mkCost { fetch_cost_ms : Q; recompute_cost_ms : Q; reuse_hint : Z }.

Definition shouldStore (c : CostModel) : bool :=
  if Qle_bool (recompute_cost_ms c) 0 then true else negb (Qle_bool (recompute_cost_ms c) (fetch_cost_ms c)).

(** ** Refcount (prefix/refcount.h) *)

Definition RefAcquire (v : Z) : Z := u32 (v + 1).
Definition RefRelease (v : Z) : Z := u32 (v - 1).
Definition TryAcquireIfNonZero (v : Z) : option Z := if v =? 0 then None else Some (u32 (v + 1)).
Definition TryEvict (v : Z) : option Z := if v =? 1 then Some 0 else None.

(** ** State *)

(** A leaf on the heap. *)
Record Leaf := mkLeaf { leaf_locator : kv_locator_t; tier_residency_bitmap : Z; bytes_total : Z; refcount : Z }.

Record DeferredEvict := mkDeferred { d_path : list bytes; d_leaf : nat; d_locator : kv_locator_t }.

(** The index: the leaves by address, the tree of addresses, the path each tier key was
    sealed under, the evictions put off, and the events. *)
Record Prefix := mkPrefix {
  heap_ : gmap nat Leaf; next_leaf_ : nat; art_ : Art.Index nat; evict_index_ : gmap bytes (list bytes);
  deferred_evicts_ : list DeferredEvict; events_ : Events.Stream }.

(** The buffers: handles and watermarks of the uploads in progress, and the memory of the
    pinned pool. *)
Record Buffers := mkBuffers { active_ : gmap Z Ingest.Entry; next_ingest_ : Z; wm_ : Ingest.Marks; memory_ : bytes }.

Inductive HandleState :=
| IngestHandle (loc : kv_locator_t) (ingest_handle tenant_hash model_hash : Z)
| ReadHandle (loc : kv_locator_t) (leaf : nat) (tenant_hash model_hash : Z).

Section Node.
Context (Blake3_128 : bytes -> bytes) {C : Cold.IColdTier}.

Record Node := mkNode {
  handles_ : gmap Z HandleState; next_handle_ : Z; tm_ : Manager C; bufs_ : Buffers; px_ : Prefix;
  wal_ : option StateWal.Wal }.

Definition set_handles (h : gmap Z HandleState) (nx : Z) (n : Node) : Node := mkNode h nx (tm_ n) (bufs_ n) (px_ n) (wal_ n).
Definition set_px (p : Prefix) (n : Node) : Node := mkNode (handles_ n) (next_handle_ n) (tm_ n) (bufs_ n) p (wal_ n).
Definition set_tiers (tm : Manager C) (p : Prefix) (n : Node) : Node := mkNode (handles_ n) (next_handle_ n) tm (bufs_ n) p (wal_ n).
Definition erase_handle (h : Z) (n : Node) : Node := set_handles (delete h (handles_ n)) (next_handle_ n) n.

(** The pool of ingest buffers: it takes its slots from the tier manager. *)
Definition pool (n : Node) : Ingest.Pool := Ingest.mkPool (pinned_ (tm_ n)) (active_ (bufs_ n)) (next_ingest_ (bufs_ n)).
Definition set_pool (p : Ingest.Pool) (w : Ingest.Marks) (n : Node) : Node :=
  mkNode (handles_ n) (next_handle_ n) (set_pinned (Ingest.pinned p) (tm_ n))
    (mkBuffers (Ingest.active_ p) (Ingest.next_handle_ p) w (memory_ (bufs_ n))) (px_ n) (wal_ n).

(** ** The index *)

Definition set_ref (l : nat) (r : Z) (p : Prefix) : Prefix :=
  match heap_ p !! l with
  | None => p
  | Some lf => mkPrefix (<[l := mkLeaf (leaf_locator lf) (tier_residency_bitmap lf) (bytes_total lf) r]> (heap_ p))
                 (next_leaf_ p) (art_ p) (evict_index_ p) (deferred_evicts_ p) (events_ p)
  end.

Definition publish_event (now : Z) (t : Events.EventType) (loc : kv_locator_t) (p : Prefix) : Prefix :=
  mkPrefix (heap_ p) (next_leaf_ p) (art_ p) (evict_index_ p) (deferred_evicts_ p)
    (Events.Publish now (Events.mkEvent t Events.Dram (SerializeLocator loc) 0 0) (events_ p)).

Definition set_art (x : Art.Index nat) (p : Prefix) : Prefix :=
  mkPrefix (heap_ p) (next_leaf_ p) x (evict_index_ p) (deferred_evicts_ p) (events_ p).

(** What is appended to the log of the tree, and whether the log, where there is one,
    takes it. *)
Inductive art_append := LogInsert (path : list bytes) | LogRemove (path : list bytes).
Notation art_log := (art_append -> bool).

(** [art_wal_->Insert] or [art_->Insert] of a new leaf. A leaf that is not inserted is
    destroyed. *)
Definition insert_leaf (log_ok : art_log) (path : list bytes) (lf : Leaf) (p : Prefix) : Art.InsertResult * Prefix :=
  if log_ok (LogInsert path)
  then let l := next_leaf_ p in
       match Art.Insert path l (art_ p) with
       | (Art.kPathConflict, _) => (Art.kPathConflict, p)
       | (r, x) => (r, mkPrefix (<[l := lf]> (heap_ p)) (S l) x (evict_index_ p) (deferred_evicts_ p) (events_ p))
       end
  else (Art.kPathConflict, p).

Definition TryEvictNow (log_ok : art_log) (now : Z) (path : list bytes) (p : Prefix) : bool * Prefix :=
  match Art.LookupByPath path (art_ p) with
  | None => (false, p)
  | Some l =>
      match heap_ p !! l with
      | None => (false, p)
      | Some lf =>
          match TryEvict (refcount lf) with
          | None => (false, p)
          | Some r =>
              let p1 := set_ref l r p in
              match (if log_ok (LogRemove path) then Art.Remove path (art_ p1) else (false, art_ p1)) with
              | (false, _) => (false, p1)
              | (true, x) => (true, publish_event now Events.Evict (leaf_locator lf) (set_art x p1))
              end
          end
      end
  end.

Definition OnDramEvict (log_ok : art_log) (now : Z) (k : bytes) (p : Prefix) : Prefix :=
  match evict_index_ p !! k with
  | None => p
  | Some path =>
      let p1 := mkPrefix (heap_ p) (next_leaf_ p) (art_ p) (delete k (evict_index_ p)) (deferred_evicts_ p) (events_ p) in
      match path with
      | [] => p1
      | _ =>
          match TryEvictNow log_ok now path p1 with
          | (true, p2) => p2
          | (false, p2) =>
              match Art.LookupByPath path (art_ p2) with
              | None => p2
              | Some l =>
                  match heap_ p2 !! l with
                  | None => p2
                  | Some lf => mkPrefix (heap_ p2) (next_leaf_ p2) (art_ p2) (evict_index_ p2)
                                 (deferred_evicts_ p2 ++ [mkDeferred path l (leaf_locator lf)]) (events_ p2)
                  end
              end
          end
      end
  end.

(** The evictions of one insert into DRAM. *)
Definition on_evictions (log_ok : art_log) (now : Z) (ks : list bytes) (p : Prefix) : Prefix :=
  fold_left (fun p k => OnDramEvict log_ok now k p) ks p.

(** One deferred eviction: what stays pending of it. *)
Definition retry_evict (log_ok : art_log) (now : Z) (a : list DeferredEvict * Prefix) (e : DeferredEvict) :
    list DeferredEvict * Prefix :=
  let '(still_pending, p) := a in
  if bool_decide (Art.LookupByPath (d_path e) (art_ p) = Some (d_leaf e))
  then let '(ok, p1) := TryEvictNow log_ok now (d_path e) p in (if ok then still_pending else still_pending ++ [e], p1)
  else (still_pending, p).

(** One iteration of [SweeperLoop]. *)
Definition sweep_deferred (log_ok : art_log) (now : Z) (p : Prefix) : Prefix :=
  let p0 := mkPrefix (heap_ p) (next_leaf_ p) (art_ p) (evict_index_ p) [] (events_ p) in
  let '(still_pending, p1) := fold_left (retry_evict log_ok now) (deferred_evicts_ p) ([], p0) in
  mkPrefix (heap_ p1) (next_leaf_ p1) (art_ p1) (evict_index_ p1) (deferred_evicts_ p1 ++ still_pending) (events_ p1).

Definition Sweeper (log_ok : art_log) (now : Z) (n : Node) : Node := set_px (sweep_deferred log_ok now (px_ n)) n.

(** [tm_->StageToDram], with the evictions it triggers. *)
Definition stage (log_ok : art_log) (now : Z) (k d : bytes) (kind : Z) (n : Node) : Node :=
  let '(ks, tm) := StageToDram k d kind (tm_ n) in set_tiers tm (on_evictions log_ok now ks (px_ n)) n.

(** ** Lookup *)

Record lookup_answer := mkLookup { a_locator : kv_locator_t; a_handle : Z; a_matched_tokens : Z }.

Definition Lookup (tenant_hash model_hash : Z) (tokens : list Z) (n : Node) : (code * option lookup_answer) * Node :=
  match tokens with
  | [] => ((KV_E_INVAL, None), n)
  | _ =>
      let r := Lpm.LongestPrefixMatchNS Blake3_128 (art_ (px_ n)) tokens tenant_hash model_hash in
      match Lpm.leaf r with
      | None => ((KV_E_NOT_FOUND, None), n)
      | Some l =>
          if Lpm.matched_tokens r =? 0 then ((KV_E_NOT_FOUND, None), n)
          else
            match heap_ (px_ n) !! l with
            | None => ((KV_E_NOT_FOUND, None), n)
            | Some lf =>
                match TryAcquireIfNonZero (refcount lf) with
                | None => ((KV_E_NOT_FOUND, None), n)
                | Some r' =>
                    let h := next_handle_ n in
                    ((KV_OK, Some (mkLookup (leaf_locator lf) h (Lpm.matched_tokens r))),
                     set_px (set_ref l r' (px_ n))
                       (set_handles (<[h := ReadHandle (leaf_locator lf) l tenant_hash model_hash]> (handles_ n)) (h + 1) n))
                end
            end
      end
  end.

Definition HandleStoredBytes (h : Z) (n : Node) : code * Z :=
  match handles_ n !! h with
  | None => (KV_E_NOT_FOUND, 0)
  | Some (ReadHandle _ l _ _) => (KV_OK, default 0 (bytes_total <$> heap_ (px_ n) !! l))
  | Some (IngestHandle _ _ _ _) => (KV_E_INVAL, 0)
  end.

(** ** Reserve, Publish *)

Definition default_ttl : Z := 300.

Definition Reserve (now : Z) (loc : kv_locator_t) (bytes_ tenant_hash model_hash : Z) (n : Node) :
    (code * option (Z * Ingest.IngestSlot)) * Node :=
  if bytes_ =? 0 then ((KV_E_INVAL, None), n)
  else
    let '(ih, p1) := Ingest.Reserve now 0 default_ttl (pool n) in
    if ih =? Ingest.kInvalidIngestHandle then ((KV_E_NOMEM, None), set_pool p1 (wm_ (bufs_ n)) n)
    else
      let w1 := Ingest.Track ih (wm_ (bufs_ n)) in
      match Ingest.GetSlot ih p1 with
      | None => ((KV_E_INTERNAL, None), set_pool (Ingest.Release ih p1).2 w1 n)
      | Some slot =>
          if Ingest.s_bytes slot <? bytes_
          then ((KV_E_NOMEM, None), set_pool (Ingest.Release ih p1).2 (Ingest.Drop ih w1).2 n)
          else
            let h := next_handle_ n in
            ((KV_OK, Some (h, slot)),
             set_handles (<[h := IngestHandle loc ih tenant_hash model_hash]> (handles_ n)) (h + 1) (set_pool p1 w1 n))
      end.

Definition Publish (h watermark : Z) (n : Node) : code * Node :=
  match handles_ n !! h with
  | Some (IngestHandle _ ih _ _) => (KV_OK, set_pool (pool n) (Ingest.Publish ih watermark (wm_ (bufs_ n))).2 n)
  | _ => (KV_E_INVAL, n)
  end.

(** The engine writes into the memory of its slot. *)
Definition EngineWrite (addr : Z) (d : bytes) (n : Node) : Node :=
  mkNode (handles_ n) (next_handle_ n) (tm_ n)
    (mkBuffers (active_ (bufs_ n)) (next_ingest_ (bufs_ n)) (wm_ (bufs_ n)) (Nvme.write_at (Z.to_nat addr) d (memory_ (bufs_ n))))
    (px_ n) (wal_ n).

(** One iteration of the sweeper of the buffers. *)
Definition SweepBuffers (now : Z) (n : Node) : Node := set_pool (Ingest.SweepOnce now (pool n)) (wm_ (bufs_ n)) n.

(** ** Fetch *)

(** The registrations of source and destination and the transfer. *)
Record transfer_io := mkTransfer { src_ok : bool; dst_ok : bool; xfer_ok : bool }.

(** What lands in the caller's buffer, whose length is [dst], or [None] for a null
    address. *)
Definition Fetch (log_ok : art_log) (now : Z) (i : fetch_io C) (x : transfer_io) (h : Z) (dst : option Z) (n : Node) :
    (code * option bytes) * Node :=
  match handles_ n !! h with
  | Some (ReadHandle loc _ _ _) =>
      let '(r, ks, tm) := TierManager.Fetch i (LocatorContentKey loc) (tm_ n) in
      let n1 := set_tiers tm (on_evictions log_ok now ks (px_ n)) n in
      match r with
      | None => ((KV_E_NOT_FOUND, None), n1)
      | Some (_, d) =>
          if (match dst with None => true | Some len => len <? zlen d end) then ((KV_E_NOMEM, None), n1)
          else if negb (src_ok x) || negb (dst_ok x) || negb (xfer_ok x) then ((KV_E_TRANSPORT, None), n1)
          else ((KV_OK, Some d), n1)
      end
  | _ => ((KV_E_INVAL, None), n)
  end.

(** ** Seal *)

(** The end of every path of [SealCommit]: the slot goes back and the handle away. *)
Definition close_ingest (h ih : Z) (n : Node) : Node :=
  erase_handle h (set_pool (Ingest.Release ih (pool n)).2 (Ingest.Drop ih (wm_ (bufs_ n))).2 n).

(** The bytes at the slot's address up to the watermark. *)
Definition slot_payload (slot : Ingest.IngestSlot) (watermark : Z) (n : Node) : bytes :=
  Nvme.slice (Z.to_nat (Ingest.addr slot)) (Z.to_nat watermark) (memory_ (bufs_ n)).

Definition DRAM_BIT : Z := 8.

Definition SealCommit (log_ok : art_log) (now : Z) (h : Z) (loc : kv_locator_t) (ih : Z) (path : list bytes) (n : Node) : code * Node :=
  if negb (shouldStore (mkCost 0 0 0)) then (KV_E_SAFETY_NET, close_ingest h ih n)
  else
    let watermark := Ingest.Read ih (wm_ (bufs_ n)) in
    let n1 := match Ingest.GetSlot ih (pool n) with
              | Some slot => if 0 <? watermark then stage log_ok now (LocatorContentKey loc) (slot_payload slot watermark n) SK_KV n else n
              | None => n
              end in
    let p1 := px_ n1 in
    let p2 := mkPrefix (heap_ p1) (next_leaf_ p1) (art_ p1) (<[LocatorContentKey loc := path]> (evict_index_ p1))
                (deferred_evicts_ p1) (events_ p1) in
    let '(r, p3) := insert_leaf log_ok path (mkLeaf loc DRAM_BIT watermark (RefAcquire 0)) p2 in
    match r with
    | Art.kPathConflict => (KV_E_INTERNAL, close_ingest h ih (set_px p3 n1))
    | _ => (KV_OK, close_ingest h ih (set_px (publish_event now Events.Add loc p3) n1))
    end.

Definition Seal (log_ok : art_log) (now : Z) (h : Z) (tokens : list Z) (n : Node) : code * Node :=
  match handles_ n !! h with
  | Some (IngestHandle loc ih tenant_hash model_hash) =>
      if (length tokens <? Lpm.kChunkTokens)%nat then (KV_E_INVAL, close_ingest h ih n)
      else SealCommit log_ok now h loc ih
             (Lpm.ChunkifyNS Blake3_128 tokens (Lpm.NamespaceFingerprint Blake3_128 tenant_hash model_hash)) n
  | _ => (KV_E_INVAL, n)
  end.

Definition SealByChunkPath (log_ok : art_log) (now : Z) (h : Z) (path : list bytes) (n : Node) : code * Node :=
  match handles_ n !! h with
  | Some (IngestHandle loc ih _ _) => SealCommit log_ok now h loc ih path n
  | Some (ReadHandle _ _ _ _) => (KV_E_INVAL, n)
  | None => (KV_E_NOT_FOUND, n)
  end.

(** ** State entries *)

Definition StatePut (log_ok : art_log) (now : Z) (io : StateWal.append_io) (id : StateIdentity) (d : bytes) (n : Node) : code * Node :=
  match wal_ n with
  | None => (KV_E_TIER_DOWN, n)
  | Some w =>
      let '(ok, w1) := StateWal.Append io (StateKeyFromIdentity id) (identity_image id) d w in
      let n1 := mkNode (handles_ n) (next_handle_ n) (tm_ n) (bufs_ n) (px_ n) (Some w1) in
      if ok then (KV_OK, stage log_ok now (StateKeyFromIdentity id) d SK_MEMORY n1) else (KV_E_INTERNAL, n1)
  end.

Definition StateGet (log_ok : art_log) (now : Z) (id : StateIdentity) (n : Node) : (code * bytes) * Node :=
  match wal_ n with
  | None => ((KV_E_TIER_DOWN, []), n)
  | Some w =>
      let k := StateKeyFromIdentity id in
      let '(r, tm) := LookupDram k (tm_ n) in
      let n1 := set_tiers tm (px_ n) n in
      match r with
      | Dram.mkLookup (Dram.kA1in | Dram.kAm) (Some d) => ((KV_OK, d), n1)
      | _ =>
          match StateWal.Get k w with
          | Some d => ((KV_OK, d), stage log_ok now k d SK_MEMORY n1)
          | None => ((KV_E_NOT_FOUND, []), n1)
          end
      end
  end.

(** ** Replicas, Release *)

Definition ReplicaFetch (loc : kv_locator_t) (n : Node) : code * option (list bytes * bytes) :=
  let k := LocatorContentKey loc in
  match evict_index_ (px_ n) !! k with
  | None => (KV_E_NOT_FOUND, None)
  | Some path =>
      match PeekDram k (tm_ n) with
      | Dram.mkLookup (Dram.kMiss | Dram.kGhost) _ => (KV_E_NOT_FOUND, None)
      | Dram.mkLookup _ d => (KV_OK, Some (path, default [] d))
      end
  end.

Definition Release (h : Z) (n : Node) : code * Node :=
  match handles_ n !! h with
  | None => (KV_E_INVAL, n)
  | Some (IngestHandle _ ih _ _) =>
      if ih =? 0 then (KV_OK, erase_handle h n) else (KV_OK, close_ingest h ih n)
  | Some (ReadHandle _ l _ _) =>
      (KV_OK, set_px (match heap_ (px_ n) !! l with
                      | None => px_ n
                      | Some lf => set_ref l (RefRelease (refcount lf)) (px_ n)
                      end) (erase_handle h n))
  end.

(** ** Boot *)

(** [Init] around the tiers it created: no handles, an empty tree. *)
Definition Init (tm : Manager C) (memory : bytes) (wal : option StateWal.Wal) : Node :=
  mkNode ∅ 1 tm (mkBuffers ∅ 1 ∅ memory) (mkPrefix ∅ 0 Art.empty_index ∅ [] Events.new_stream) wal.

(** ** Calls *)

Inductive call :=
| CLookup (tenant_hash model_hash : Z) (tokens : list Z)
| CReserve (now : Z) (loc : kv_locator_t) (bytes_ tenant_hash model_hash : Z)
| CWrite (addr : Z) (d : bytes)
| CPublish (h watermark : Z)
| CFetch (log_ok : art_log) (now : Z) (i : fetch_io C) (x : transfer_io) (h : Z) (dst : option Z)
| CSeal (log_ok : art_log) (now h : Z) (tokens : list Z)
| CSealByChunkPath (log_ok : art_log) (now h : Z) (path : list bytes)
| CStatePut (log_ok : art_log) (now : Z) (io : StateWal.append_io) (id : StateIdentity) (d : bytes)
| CStateGet (log_ok : art_log) (now : Z) (id : StateIdentity)
| CRelease (h : Z)
| CSweeper (log_ok : art_log) (now : Z)
| CSweepBuffers (now : Z).

Definition apply (c : call) (n : Node) : Node :=
  match c with
  | CLookup th mh tokens => (Lookup th mh tokens n).2
  | CReserve now loc b th mh => (Reserve now loc b th mh n).2
  | CWrite a d => EngineWrite a d n
  | CPublish h w => (Publish h w n).2
  | CFetch lg now i x h dst => (Fetch lg now i x h dst n).2
  | CSeal lg now h tokens => (Seal lg now h tokens n).2
  | CSealByChunkPath lg now h path => (SealByChunkPath lg now h path n).2
  | CStatePut lg now io id d => (StatePut lg now io id d n).2
  | CStateGet lg now id => (StateGet lg now id n).2
  | CRelease h => (Release h n).2
  | CSweeper lg now => Sweeper lg now n
  | CSweepBuffers now => SweepBuffers now n
  end.

End Node.
Arguments Node : clear implicits.
Arguments call : clear implicits.
Notation art_log := (art_append -> bool).

End Node.
