(* ===== verification/NodeCorrect.v ===== *)
(** * The node is correct

    Theorems about HeadlessNode.v. The invariant of the node, over every sequence of calls
    and sweeps: ingest handles own the slots in use, one each, and leaves are counted
    exactly ([node_invariant]), so a leaf with a reader is never evicted
    ([reader_keeps_leaf]). On top of it, what the calls promise: what a client uploads and
    seals is found and fetched unchanged, whatever other clients do meanwhile
    ([upload_then_fetch]); a state entry is readable after it was put, whatever is evicted
    ([state_put_get]). The examples at the end show one tenant replacing the payload
    another fetches, and a leaf stranded by a failed log append. *)

From S2P Require Import Prelude Locator Events ArtIndex Lpm StateWal DramTier NvmeTier Ingest ColdTier TierManager HeadlessNode.
From Stdlib Require Import ZArith Lia.

Open Scope Z_scope.

Module NodeCorrect.

Import Locator TierManager Node.

(** ** The index *)

(** The count of a leaf with [r] readers: claimed by the evictor, or the tree's
    reference and the readers'. *)
Definition refs_ok (r v : Z) : Prop := (v = 0 /\ r = 0) \/ v = 1 + r.

(** [R l] readers hold the leaf [l]; the locators satisfy [P]. *)
Record IndexInv (P : kv_locator_t -> Prop) (R : nat -> Z) (p : Prefix) : Prop := {
  x_tree : exists m, Art.represents (art_ p) m /\ forall q l, m !! q = Some l -> is_Some (heap_ p !! l);
  x_fresh : forall l, is_Some (heap_ p !! l) -> (l < next_leaf_ p)%nat;
  x_refs : forall l lf, heap_ p !! l = Some lf -> refs_ok (R l) (refcount lf) /\ P (leaf_locator lf);
  x_paths : forall k path, evict_index_ p !! k = Some path -> Art.path_ok path;
  x_deferred : Forall (fun e => Art.path_ok (d_path e)) (deferred_evicts_ p) }.

(** Nothing that has readers is gone: leaves stay on the heap with their locator, and
    where they have readers they stay indexed, the path [X] apart. *)
Record held_but (X : option (list bytes)) (R : nat -> Z) (p p' : Prefix) : Prop := {
  held_heap : forall l lf, heap_ p !! l = Some lf ->
    exists lf', heap_ p' !! l = Some lf' /\ leaf_locator lf' = leaf_locator lf /\ bytes_total lf' = bytes_total lf;
  held_tree : forall q l, Art.path_ok q -> 0 < R l -> Some q <> X ->
    Art.LookupByPath q (art_ p) = Some l -> Art.LookupByPath q (art_ p') = Some l }.
Notation held := (held_but None).

#[global] Instance held_refl X R : Reflexive (held_but X R).
Proof. intros p. constructor; eauto. Qed.

#[global] Instance held_trans X R : Transitive (held_but X R).
Proof.
  intros p1 p2 p3 [H1 T1] [H2 T2]. constructor; [|eauto]. intros l lf E.
  destruct (H1 l lf E) as (lf2 & E2 & A & B). destruct (H2 l lf2 E2) as (lf3 & E3 & A' & B'). exists lf3. split; [done|]. split; congruence.
Qed.

Lemma held_weaken X R p p' : held R p p' -> held_but X R p p'.
Proof. intros [H T]. constructor; [done|]. intros q l Q Rl _. by apply T. Qed.

Lemma held_same X R p p' : heap_ p' = heap_ p -> art_ p' = art_ p -> held_but X R p p'.
Proof. intros H T. constructor; rewrite ?H, ?T; eauto. Qed.

Lemma set_ref_heap l r lf p :
  heap_ p !! l = Some lf ->
  set_ref l r p = mkPrefix (<[l := mkLeaf (leaf_locator lf) (tier_residency_bitmap lf) (bytes_total lf) r]> (heap_ p))
    (next_leaf_ p) (art_ p) (evict_index_ p) (deferred_evicts_ p) (events_ p).
Proof. unfold set_ref. by intros ->. Qed.

Lemma set_ref_held X R l r p : held_but X R p (set_ref l r p).
Proof.
  unfold set_ref. destruct (heap_ p !! l) as [lf|] eqn:E; [|done]. constructor; [|done]. intros l' lf' E'. cbn [heap_].
  destruct (decide (l' = l)) as [->|N]; [rewrite lookup_insert_eq; rewrite E in E'; injection E' as <-; by eexists|].
  rewrite lookup_insert_ne by done. eauto.
Qed.

(** Changing a count along with the number of readers. *)
Lemma set_ref_inv P R R' l r lf p :
  IndexInv P R p -> heap_ p !! l = Some lf -> refs_ok (R' l) r -> (forall l', l' <> l -> R' l' = R l') ->
  IndexInv P R' (set_ref l r p).
Proof.
  intros [(m & Rep & H) Fr Rf Pa De] El Rl Ro. rewrite (set_ref_heap _ _ _ _ El).
  constructor; cbn [heap_ art_ next_leaf_ evict_index_ deferred_evicts_]; auto.
  - exists m. split; [done|]. intros q l' M. rewrite lookup_insert_is_Some'. right. by apply (H q).
  - intros l'. rewrite lookup_insert_is_Some'. intros [<-|S]; apply Fr; [by rewrite El|done].
  - intros l' lf'. rewrite lookup_insert_Some. intros [[<- <-]|[N S]]; [split; [done|]; exact (proj2 (Rf l lf El))|].
    rewrite Ro by done. by apply Rf.
Qed.

Lemma Index_ext P R R' p : IndexInv P R p -> (forall l, R' l = R l) -> IndexInv P R' p.
Proof. intros [T Fr Rf Pa De] E. constructor; auto. intros l lf. rewrite E. apply Rf. Qed.

Section Index.
Context (P : kv_locator_t -> Prop) (R : nat -> Z).

Notation Ix := (IndexInv P R).

Lemma Ix_same p p' :
  Ix p -> heap_ p' = heap_ p -> next_leaf_ p' = next_leaf_ p -> art_ p' = art_ p ->
  (forall k path, evict_index_ p' !! k = Some path -> Art.path_ok path) ->
  Forall (fun e => Art.path_ok (d_path e)) (deferred_evicts_ p') -> Ix p'.
Proof. intros [] H N T E D. constructor; rewrite ?H, ?N, ?T; auto. Qed.

Lemma Ix_publish now t loc p : Ix p -> Ix (publish_event now t loc p).
Proof. intros I. apply (Ix_same p); try done; apply I. Qed.

(** The tree of the invariant, at one path. *)
Lemma Ix_lookup p q l : Ix p -> Art.path_ok q -> Art.LookupByPath q (art_ p) = Some l -> is_Some (heap_ p !! l).
Proof. intros I Q E. destruct (x_tree _ _ _ I) as (m & (_ & _ & L & _) & H). rewrite (L q Q) in E. by apply (H q). Qed.

(** [TryEvictNow] either leaves the tree or removes a leaf without readers. *)
Lemma TryEvictNow_spec lg now path p :
  Ix p -> Art.path_ok path -> Ix (TryEvictNow lg now path p).2 /\ held R p (TryEvictNow lg now path p).2.
Proof.
  intros I Q. unfold TryEvictNow. destruct (Art.LookupByPath path (art_ p)) as [l|] eqn:E; [|done].
  destruct (heap_ p !! l) as [lf|] eqn:El; [|done]. unfold TryEvict. destruct (Z.eqb_spec (refcount lf) 1) as [One|]; [|done].
  pose proof (x_refs _ _ _ I l lf El) as [[[? _]|Rl] Pl]; [lia|]. assert (R l = 0) as R0 by lia. clear Rl.
  assert (I1 : Ix (set_ref l 0 p)) by (apply (set_ref_inv P R R _ _ lf); try done; by left).
  assert (H1 : held R p (set_ref l 0 p)) by apply set_ref_held.
  assert (A1 : art_ (set_ref l 0 p) = art_ p) by (by rewrite (set_ref_heap _ _ _ _ El)).
  destruct (lg (LogRemove path)); [|done]. destruct (Art.Remove path (art_ (set_ref l 0 p))) as [ok x] eqn:Rm. destruct ok; [|done]. cbn [snd].
  destruct (x_tree _ _ _ I1) as (m & Rep & Hm).
  assert (NE : path <> []) by (intros ->; done).
  destruct (Art.represents_remove path _ m Rep Q NE) as [_ Rep']. rewrite Rm in Rep'. cbn [snd] in Rep'. split.
  - apply Ix_publish. destruct I1 as [_ Fr Rf Pa De]. constructor; cbn [heap_ art_ set_art next_leaf_ evict_index_ deferred_evicts_]; auto.
    exists (delete path m). split; [done|]. intros q l' M. apply lookup_delete_Some in M as [_ M]. by apply (Hm q).
  - transitivity (set_ref l 0 p); [done|]. constructor; cbn [publish_event set_art heap_ art_]; [eauto|].
    intros q l' Qq Rl' _. destruct Rep as (_ & _ & L & _). destruct Rep' as (_ & _ & L' & _). rewrite (L q Qq), (L' q Qq).
    destruct (decide (q = path)) as [->|N]; [|by rewrite lookup_delete_ne]. intros M.
    rewrite A1 in L. rewrite (L path Q) in E. exfalso. assert (l' = l) by congruence. subst. lia.
Qed.

Lemma OnDramEvict_spec lg now k p :
  Ix p -> Ix (OnDramEvict lg now k p) /\ held R p (OnDramEvict lg now k p).
Proof.
  intros I. unfold OnDramEvict. destruct (evict_index_ p !! k) as [path|] eqn:E; [|done].
  pose proof (x_paths _ _ _ I k path E) as Q. set (p1 := mkPrefix _ _ _ _ _ _).
  assert (I1 : Ix p1) by (apply (Ix_same p); try done; [|apply I]; cbn; intros k' q; rewrite lookup_delete_Some; intros [_ X]; by apply (x_paths _ _ _ I k')).
  assert (H1 : held R p p1) by by apply held_same.
  destruct path as [|c path]; [done|]. destruct (TryEvictNow_spec lg now (c :: path) p1 I1 Q) as [I2 H2].
  destruct (TryEvictNow _ _ _ p1) as [ok p2]; cbn [snd] in *. destruct ok; [split; [done|by transitivity p1]|].
  assert (H3 : held R p p2) by (by transitivity p1).
  destruct (Art.LookupByPath (c :: path) (art_ p2)) as [l|]; [|done]. destruct (heap_ p2 !! l) as [lf|]; [|done]. split.
  - apply (Ix_same p2); try done; [apply I2|]. cbn. apply Forall_app. split; [apply I2|]. by constructor.
  - transitivity p2; [done|]. by apply held_same.
Qed.

Lemma on_evictions_spec lg now ks p : Ix p -> Ix (on_evictions lg now ks p) /\ held R p (on_evictions lg now ks p).
Proof.
  unfold on_evictions. revert p. induction ks as [|k ks IH]; intros p I; cbn [fold_left]; [done|].
  destruct (OnDramEvict_spec lg now k p I) as [I1 H1]. destruct (IH _ I1) as [I2 H2]. split; [done|]. by etransitivity.
Qed.

Lemma sweep_deferred_spec lg now p : Ix p -> Ix (sweep_deferred lg now p) /\ held R p (sweep_deferred lg now p).
Proof.
  intros I. unfold sweep_deferred. set (p0 := mkPrefix _ _ _ _ _ _).
  assert (I0 : Ix p0) by (apply (Ix_same p); try done; apply I).
  assert (X : forall work still pr, Ix pr -> Forall (fun e => Art.path_ok (d_path e)) work -> Forall (fun e => Art.path_ok (d_path e)) still ->
    let r := fold_left (retry_evict lg now) work (still, pr) in Forall (fun e => Art.path_ok (d_path e)) r.1 /\ Ix r.2 /\ held R pr r.2).
  { induction work as [|e work IH]; intros still pr Ir W S; cbn [fold_left]; [done|]. inversion_clear W as [|? ? We Ww].
    destruct (retry_evict lg now (still, pr) e) as [s1 pr1] eqn:Re.
    assert (Y : Forall (fun e => Art.path_ok (d_path e)) s1 /\ Ix pr1 /\ held R pr pr1).
    { unfold retry_evict in Re. case_bool_decide; [|by injection Re as <- <-].
      destruct (TryEvictNow_spec lg now (d_path e) pr Ir We) as [I1 H1]. destruct (TryEvictNow _ _ _ _) as [ok pr2].
      injection Re as <- <-. split; [|done]. destruct ok; [done|]. apply Forall_app. split; [done|]. by constructor. }
    destruct Y as (Y1 & Y2 & Y3). destruct (IH s1 pr1 Y2 Ww Y1) as (A & B & C). split; [done|]. split; [done|]. by transitivity pr1. }
  destruct (X (deferred_evicts_ p) [] p0 I0 (x_deferred _ _ _ I) ltac:(constructor)) as (A & B & C).
  destruct (fold_left _ _ _) as [still p1]. cbn [fst snd] in *. split.
  - apply (Ix_same p1); try done; [apply B|]. cbn. apply Forall_app. split; [apply B|done].
  - transitivity p0; [by apply held_same|]. transitivity p1; [done|]. by apply held_same.
Qed.

(** Inserting a leaf: indexed under its path, or nothing changes. *)
Lemma insert_leaf_spec lg path lf p r p' :
  Ix p -> Art.path_ok path -> insert_leaf lg path lf p = (r, p') ->
  R (next_leaf_ p) = 0 -> refcount lf = 1 -> P (leaf_locator lf) ->
  Ix p' /\
  (r = Art.kPathConflict /\ p' = p \/
   r <> Art.kPathConflict /\ Art.LookupByPath path (art_ p') = Some (next_leaf_ p) /\ heap_ p' = <[next_leaf_ p := lf]> (heap_ p) /\
   forall q, Art.path_ok q -> q <> path -> Art.LookupByPath q (art_ p') = Art.LookupByPath q (art_ p)).
Proof.
  intros I Q. unfold insert_leaf. destruct (lg (LogInsert path)); [|intros [= <- <-]; auto].
  destruct (decide (path = [])) as [->|NE]; [cbn; intros [= <- <-]; auto|]. intros E R0 One Pl.
  destruct (x_tree _ _ _ I) as (m & Rep & H). destruct (Art.represents_insert path (next_leaf_ p) _ m Rep Q NE) as [Rr Rep'].
  destruct (Art.Insert path (next_leaf_ p) (art_ p)) as [r0 x]. cbn [fst snd] in *.
  assert (N : r0 <> Art.kPathConflict) by (rewrite Rr; case_bool_decide; done).
  assert (E' : r = r0 /\ p' = mkPrefix (<[next_leaf_ p := lf]> (heap_ p)) (S (next_leaf_ p)) x (evict_index_ p) (deferred_evicts_ p) (events_ p))
    by (destruct r0; injection E as <- <-; done).
  destruct E' as [-> ->]. split.
  - destruct I as [_ Fr Rf Pa De]. constructor; cbn [heap_ art_ next_leaf_ evict_index_ deferred_evicts_]; auto.
    + exists (<[path := next_leaf_ p]> m). split; [done|]. intros q l. rewrite lookup_insert_Some, lookup_insert_is_Some'.
      intros [[_ <-]|[_ M]]; [by left|right; by apply (H q)].
    + intros l. rewrite lookup_insert_is_Some'. intros [<-|S]; [lia|]. pose proof (Fr l S). lia.
    + intros l lf'. rewrite lookup_insert_Some. intros [[<- <-]|[_ S]]; [|by apply Rf]. split; [right; lia|done].
  - right. split; [done|]. cbn [art_ heap_]. destruct Rep as (_ & _ & L & _). destruct Rep' as (_ & _ & L' & _). split; [|split; [done|]].
    + rewrite (L' path Q). by rewrite lookup_insert_eq.
    + intros q Qq Nq. rewrite (L q Qq), (L' q Qq). by rewrite lookup_insert_ne.
Qed.

End Index.

(** ** Handles *)

Notation handles := (gmap Z HandleState).

Definition reads (l : nat) (x : Z * HandleState) : Prop :=
  match x.2 with ReadHandle _ l' _ _ => l' = l | IngestHandle _ _ _ _ => False end.
#[global] Instance reads_dec l x : Decision (reads l x).
Proof. unfold reads. destruct x.2; apply _. Defined.

(** The read handles open on a leaf. *)
Definition readers (H : handles) (l : nat) : Z := Z.of_nat (size (filter (reads l) H)).

Definition locator_of (s : HandleState) : kv_locator_t :=
  match s with IngestHandle loc _ _ _ | ReadHandle loc _ _ _ => loc end.
Definition ingest_of (s : HandleState) : option Z :=
  match s with IngestHandle _ ih _ _ => Some ih | ReadHandle _ _ _ _ => None end.
Definition leaf_of (s : HandleState) : option nat :=
  match s with IngestHandle _ _ _ _ => None | ReadHandle _ l _ _ => Some l end.

Lemma reads_leaf l h s : reads l (h, s) <-> leaf_of s = Some l.
Proof. unfold reads. destruct s; cbn [snd leaf_of]; split; try done; congruence. Qed.

Lemma readers_insert H h s l :
  H !! h = None -> readers (<[h := s]> H) l = readers H l + (if decide (leaf_of s = Some l) then 1 else 0).
Proof.
  intros N. unfold readers. rewrite map_filter_insert. destruct (decide (reads l (h, s))) as [Y|Y]; rewrite reads_leaf in Y.
  - rewrite decide_True by done. rewrite map_size_insert_None; [lia|]. apply map_lookup_filter_None. by left.
  - rewrite decide_False by done. rewrite delete_id by done. lia.
Qed.

Lemma readers_delete H h s l :
  H !! h = Some s -> readers (delete h H) l = readers H l - (if decide (leaf_of s = Some l) then 1 else 0).
Proof.
  intros E. rewrite <- (insert_delete_id H h s E) at 2. rewrite readers_insert by apply lookup_delete_eq. lia.
Qed.

Lemma readers_bound H l : 0 <= readers H l <= Z.of_nat (size H).
Proof. unfold readers. split; [lia|]. apply inj_le. by apply map_subseteq_size, map_filter_subseteq. Qed.

Section Ownership.
(** The size of the memory that the slots tile. *)
Context (total : Z).

Definition geometry (b : Ingest.Pool) : Prop :=
  0 < Ingest.slot_bytes_ (Ingest.pinned b) /\
  Ingest.slot_count_ (Ingest.pinned b) * Ingest.slot_bytes_ (Ingest.pinned b) = total /\ total < 2 ^ 64.

Lemma geometry_op o b : geometry b -> geometry (Ingest.run_op b o).
Proof. intros G. destruct (Ingest.run_op_geometry o b) as (B & Ct). unfold geometry. by rewrite B, Ct. Qed.

(** Ingest handles own the slots in use, one each. *)
Record Slots (H : handles) (b : Ingest.Pool) : Prop := {
  s_pool : Ingest.PoolInv b;
  s_geometry : geometry b;
  s_next : 0 < Ingest.next_handle_ b;
  s_ingest : forall h s ih, H !! h = Some s -> ingest_of s = Some ih -> 0 < ih < Ingest.next_handle_ b;
  s_distinct : forall h h' s s' ih, H !! h = Some s -> H !! h' = Some s' ->
    ingest_of s = Some ih -> ingest_of s' = Some ih -> h = h';
  s_owner : forall ih e, Ingest.active_ b !! ih = Some e -> exists h s, H !! h = Some s /\ ingest_of s = Some ih }.

Lemma Slots_read H b h s : Slots H b -> H !! h = None -> ingest_of s = None -> Slots (<[h := s]> H) b.
Proof.
  intros [P G N I D O] E S. constructor; [done|done|done| | |].
  - intros h' s' ih. rewrite lookup_insert_Some. intros [[<- <-]|[_ X]]; [congruence|by apply (I h')].
  - intros h1 h2 s1 s2 ih. rewrite !lookup_insert_Some. intros [[<- <-]|[_ X1]] [[<- <-]|[_ X2]]; try congruence. by apply (D h1 h2 s1 s2 ih).
  - intros ih e A. destruct (O ih e A) as (h' & s' & X & Y). exists h', s'. split; [|done]. rewrite lookup_insert_ne; congruence.
Qed.

Lemma Slots_delete_read H b h s : Slots H b -> H !! h = Some s -> ingest_of s = None -> Slots (delete h H) b.
Proof.
  intros [P G N I D O] E S. constructor; [done|done|done| | |].
  - intros h' s' ih X. apply lookup_delete_Some in X as [_ X]. by apply (I h').
  - intros h1 h2 s1 s2 ih X1 X2. apply lookup_delete_Some in X1 as [_ X1]. apply lookup_delete_Some in X2 as [_ X2]. by apply (D h1 h2 s1 s2 ih).
  - intros ih e A. destruct (O ih e A) as (h' & s' & X & Y). exists h', s'. split; [|done]. rewrite lookup_delete_ne; [done|]. congruence.
Qed.

Lemma Release_fields ih b :
  Ingest.active_ (Ingest.Release ih b).2 = delete ih (Ingest.active_ b) /\
  Ingest.next_handle_ (Ingest.Release ih b).2 = Ingest.next_handle_ b.
Proof.
  unfold Ingest.Release. destruct (Ingest.active_ b !! ih) eqn:E; [done|]. cbn [snd]. by rewrite delete_id.
Qed.

Lemma Slots_close H b h s ih :
  Slots H b -> H !! h = Some s -> ingest_of s = Some ih -> Slots (delete h H) (Ingest.Release ih b).2.
Proof.
  intros [P G N I D O] E S. destruct (Release_fields ih b) as [A Nx]. constructor; rewrite ?Nx; [by apply Ingest.Release_inv|by apply (geometry_op (Ingest.ORelease ih))|done| | |].
  - intros h' s' ih' X. apply lookup_delete_Some in X as [_ X]. by apply (I h').
  - intros h1 h2 s1 s2 ih' X1 X2. apply lookup_delete_Some in X1 as [_ X1]. apply lookup_delete_Some in X2 as [_ X2]. by apply (D h1 h2 s1 s2 ih').
  - rewrite A. intros ih' e X. apply lookup_delete_Some in X as [Ne X]. destruct (O ih' e X) as (h' & s' & Y & Z). exists h', s'. split; [|done].
    rewrite lookup_delete_ne; [done|]. congruence.
Qed.

Lemma Slots_sweep H b now : Slots H b -> Slots H (Ingest.SweepOnce now b).
Proof.
  intros [P G N I D O]. constructor; auto; [by apply Ingest.Sweep_inv|by apply (geometry_op (Ingest.OSweep now))|]. intros ih e X. apply map_lookup_filter_Some in X as [X _]. by apply (O ih e).
Qed.

(** What a reservation that got a slot did. *)
Lemma Reserve_fields now ttl dttl b ih b1 :
  Ingest.PoolInv b -> 0 < Ingest.next_handle_ b < 2 ^ 64 - 1 ->
  Ingest.Reserve now ttl dttl b = (ih, b1) -> ih <> Ingest.kInvalidIngestHandle ->
  Ingest.PoolInv b1 /\ ih = Ingest.next_handle_ b /\ Ingest.next_handle_ b1 = ih + 1 /\
  (exists e, Ingest.active_ b1 = <[ih := e]> (Ingest.active_ b)) /\ Ingest.active_ b !! ih = None.
Proof.
  intros P N R NI. pose proof (Ingest.Reserve_inv now ttl dttl b P N) as P1. rewrite R in P1. cbn [snd] in P1.
  unfold Ingest.Reserve in R. destruct (Ingest.Acquire (Ingest.pinned b)) as [[i|] p]; injection R as <- <-; [|done].
  split; [done|]. split; [done|]. cbn [Ingest.next_handle_ Ingest.active_]. split; [by apply u64_small; lia|]. split; [by eexists|].
  destruct (Ingest.active_ b !! Ingest.next_handle_ b) eqn:L; [|done]. pose proof (Ingest.p_handles _ P _ _ L). lia.
Qed.

Lemma Slots_reserve H b now ttl dttl ih b1 h s :
  Slots H b -> Ingest.next_handle_ b < 2 ^ 64 - 1 -> Ingest.Reserve now ttl dttl b = (ih, b1) -> ih <> Ingest.kInvalidIngestHandle ->
  H !! h = None -> ingest_of s = Some ih -> Slots (<[h := s]> H) b1.
Proof.
  intros [P G N I D O] L R NI E S. destruct (Reserve_fields _ _ _ _ _ _ P ltac:(lia) R NI) as (P1 & Eih & Nx & (e & A) & An).
  constructor; rewrite ?Nx; [done| |lia| | |].
  - pose proof (geometry_op (Ingest.OReserve now ttl dttl) b G) as X. cbn [Ingest.run_op] in X. by rewrite R in X.
  - intros h' s' ih'. rewrite lookup_insert_Some. intros [[<- <-]|[_ X]] Y; [assert (ih' = ih) by congruence; lia|]. specialize (I _ _ _ X Y). lia.
  - intros h1 h2 s1 s2 ih'. rewrite !lookup_insert_Some. intros [[<- <-]|[_ X1]] [[<- <-]|[_ X2]] Y1 Y2; try done.
    + specialize (I _ _ _ X2 Y2). assert (ih' = ih) by congruence. lia.
    + specialize (I _ _ _ X1 Y1). assert (ih' = ih) by congruence. lia.
    + by apply (D h1 h2 s1 s2 ih').
  - rewrite A. intros ih' e'. rewrite lookup_insert_Some. intros [[<- _]|[_ X]]; [exists h, s; by rewrite lookup_insert_eq|].
    destruct (O ih' e' X) as (h' & s' & Y & Z). exists h', s'. split; [|done]. rewrite lookup_insert_ne; congruence.
Qed.

(** A reservation taken back at once. *)
Lemma Slots_undo H b now ttl dttl ih b1 :
  Slots H b -> Ingest.next_handle_ b < 2 ^ 64 - 1 -> Ingest.Reserve now ttl dttl b = (ih, b1) -> ih <> Ingest.kInvalidIngestHandle ->
  Slots H (Ingest.Release ih b1).2.
Proof.
  intros [P G N I D O] L R NI. destruct (Reserve_fields _ _ _ _ _ _ P ltac:(lia) R NI) as (P1 & Eih & Nx & (e & A) & An).
  destruct (Release_fields ih b1) as [A1 N1]. constructor; rewrite ?N1, ?Nx; [by apply Ingest.Release_inv| |lia| |done|].
  - apply (geometry_op (Ingest.ORelease ih) b1). pose proof (geometry_op (Ingest.OReserve now ttl dttl) b G) as X. cbn [Ingest.run_op] in X. by rewrite R in X.
  - intros h s ih' X Y. specialize (I h s ih' X Y). lia.
  - rewrite A1, A, delete_insert_id by done. done.
Qed.

End Ownership.

(** Watermarks are of handles handed out. *)
Definition marks_below (w : Ingest.Marks) (nx : Z) : Prop := forall ih v, (w : gmap Z Z) !! ih = Some v -> ih < nx.

Lemma marks_drop ih w nx : marks_below w nx -> marks_below (Ingest.Drop ih w).2 nx.
Proof.
  intros M. unfold Ingest.Drop. destruct (w !! ih); [|done]. intros ih' v' E. apply (lookup_delete_Some (w : gmap Z Z)) in E as [_ E]. by apply (M ih' v').
Qed.

Lemma marks_track ih w nx : marks_below w nx -> marks_below (Ingest.Track ih w) (Z.max nx (ih + 1)).
Proof.
  intros M. unfold Ingest.Track. destruct (w !! ih); intros ih' v' E; [pose proof (M ih' v' E); lia|].
  apply (lookup_insert_Some (w : gmap Z Z)) in E as [[<- _]|[_ E]]; [lia|]. pose proof (M ih' v' E). lia.
Qed.

Lemma marks_publish ih x w nx : marks_below w nx -> marks_below (Ingest.Publish ih x w).2 nx.
Proof.
  intros M. unfold Ingest.Publish. destruct (w !! ih) as [v|] eqn:L; [|done]. destruct (v <? x); [|done]. intros ih' v' E.
  apply (lookup_insert_Some (w : gmap Z Z)) in E as [[<- _]|[_ E]]; [by apply (M ih v)|by apply (M ih' v')].
Qed.

(** Read handles count on leaves of the heap. *)
Record Leaves (P : kv_locator_t -> Prop) (H : handles) (p : Prefix) : Prop := {
  l_index : IndexInv P (readers H) p;
  l_heap : forall h s l, H !! h = Some s -> leaf_of s = Some l -> is_Some (heap_ p !! l) }.

Lemma Leaves_step P X H p p' : Leaves P H p -> IndexInv P (readers H) p' -> held_but X (readers H) p p' -> Leaves P H p'.
Proof.
  intros [_ Hp] I [Hh _]. constructor; [done|]. intros h s l E S. destruct (Hp h s l E S) as [lf El].
  destruct (Hh l lf El) as (lf' & El' & _). by rewrite El'.
Qed.

Lemma Leaves_ingest P H h s p : Leaves P H p -> H !! h = None -> leaf_of s = None -> Leaves P (<[h := s]> H) p.
Proof.
  intros [I Hp] E S. constructor.
  - apply (Index_ext P (readers H)); [done|]. intros l. rewrite readers_insert, decide_False by (done || congruence). lia.
  - intros h' s' l. rewrite lookup_insert_Some. intros [[<- <-]|[_ X]]; [congruence|by apply (Hp h')].
Qed.

Lemma Leaves_delete_ingest P H h s p : Leaves P H p -> H !! h = Some s -> leaf_of s = None -> Leaves P (delete h H) p.
Proof.
  intros [I Hp] E S. constructor.
  - apply (Index_ext P (readers H)); [done|]. intros l. rewrite (readers_delete H h s), decide_False by (done || congruence). lia.
  - intros h' s' l X. apply lookup_delete_Some in X as [_ X]. by apply (Hp h' s').
Qed.

Lemma Leaves_acquire P H h s l lf r p :
  Leaves P H p -> H !! h = None -> leaf_of s = Some l -> heap_ p !! l = Some lf ->
  Z.of_nat (size H) < 2 ^ 32 - 2 -> TryAcquireIfNonZero (refcount lf) = Some r ->
  Leaves P (<[h := s]> H) (set_ref l r p).
Proof.
  intros [I Hp] E S El B. unfold TryAcquireIfNonZero. destruct (Z.eqb_spec (refcount lf) 0) as [|NZ]; [done|]. intros [= <-].
  pose proof (readers_bound H l) as Bd. pose proof (x_refs _ _ _ I l lf El) as [[[? _]|Rl] _]; [done|].
  constructor.
  - apply (set_ref_inv P (readers H) _ _ _ lf); [done|done| |].
    + rewrite readers_insert, decide_True by done. rewrite u32_small by lia. right. lia.
    + intros l' N. rewrite readers_insert, decide_False by (done || congruence). lia.
  - intros h' s' l'. rewrite (set_ref_heap _ _ _ _ El). cbn [heap_]. rewrite lookup_insert_is_Some', lookup_insert_Some.
    intros [[<- <-]|[_ X]] L; [left; congruence|right; by apply (Hp h' s')].
Qed.

Lemma Leaves_release P H h s l lf p :
  Leaves P H p -> H !! h = Some s -> leaf_of s = Some l -> heap_ p !! l = Some lf ->
  Z.of_nat (size H) < 2 ^ 32 -> Leaves P (delete h H) (set_ref l (RefRelease (refcount lf)) p).
Proof.
  intros [I Hp] E S El B. pose proof (readers_bound H l) as Bd. pose proof (readers_delete H h s l E) as Rd. rewrite decide_True in Rd by done.
  pose proof (readers_bound (delete h H) l). unfold RefRelease.
  pose proof (x_refs _ _ _ I l lf El) as [[[? ?]|Rl] _]; [lia|]. constructor.
  - apply (set_ref_inv P (readers H) _ _ _ lf); [done|done| |].
    + rewrite u32_small by lia. right. lia.
    + intros l' N. rewrite (readers_delete H h s), decide_False by (done || congruence). lia.
  - intros h' s' l' X L. apply lookup_delete_Some in X as [_ X]. rewrite (set_ref_heap _ _ _ _ El). cbn [heap_].
    rewrite lookup_insert_is_Some'. right. by apply (Hp h' s').
Qed.

(** ** The invariant of the node *)

Section Calls.
Context (Blake3_128 : bytes -> bytes) {C : Cold.IColdTier} `{CL : !Cold.Laws C}.
Hypothesis Blake3_128_length : forall b, length (Blake3_128 b) = 16%nat.

(** What is known of the locators the engine passes. *)
Context (P : kv_locator_t -> Prop) (total : Z).
Hypothesis P_ok : forall loc, P loc -> locator_ok loc.

Implicit Types n : Node C.

Record NodeInv n : Prop := {
  n_tiers : TierManager.Inv (tm_ n);
  n_slots : Slots total (handles_ n) (pool n);
  n_memory : zlen (memory_ (bufs_ n)) = total;
  n_marks : marks_below (wm_ (bufs_ n)) (next_ingest_ (bufs_ n));
  n_next : forall h s, handles_ n !! h = Some s -> h < next_handle_ n;
  n_loc : forall h s, handles_ n !! h = Some s -> P (locator_of s);
  n_leaves : Leaves P (handles_ n) (px_ n) }.

(** A 64-bit counter and the 32-bit counts have room for one more. *)
Definition room n : Prop := Z.of_nat (size (handles_ n)) < 2 ^ 32 - 2 /\ next_ingest_ (bufs_ n) < 2 ^ 64 - 1.

(** A range inside the slot of an ingest handle. *)
Definition inside (ih a len : Z) n : Prop :=
  exists slot, Ingest.GetSlot ih (pool n) = Some slot /\ Ingest.addr slot <= a /\ a + len <= Ingest.addr slot + Ingest.s_bytes slot.

(** Locators are typed, paths are made of chunk hashes, and engines write into slots in use. *)
Definition call_ok (c : call C) n : Prop :=
  match c with
  | CReserve _ loc _ _ _ => P loc
  | CWrite a d => exists ih, inside ih a (zlen d) n
  | CSealByChunkPath _ _ _ path => Art.path_ok path
  | _ => True
  end.

(** The path a call seals. *)
Definition sealed (c : call C) n : option (list bytes) :=
  match c with
  | CSeal _ _ h tokens =>
      match handles_ n !! h with
      | Some (IngestHandle _ _ th mh) => Some (Lpm.ChunkifyNS Blake3_128 tokens (Lpm.NamespaceFingerprint Blake3_128 th mh))
      | _ => None
      end
  | CSealByChunkPath _ _ _ path => Some path
  | _ => None
  end.

Notation readers_of n := (readers (handles_ n)).

(** What every call guarantees. *)
Definition fine (X : option (list bytes)) n n' : Prop := NodeInv n' /\ held_but X (readers_of n) (px_ n) (px_ n').

Lemma fine_refl X n : NodeInv n -> fine X n n.
Proof. by split. Qed.

Lemma fresh_handle n : NodeInv n -> handles_ n !! next_handle_ n = None.
Proof. intros I. destruct (handles_ n !! next_handle_ n) eqn:E; [|done]. pose proof (n_next _ I _ _ E). lia. Qed.

Lemma pool_set_pool b w n : pool (set_pool b w n) = b.
Proof. by destruct b. Qed.

Lemma Inv_set_pinned q (tm : Manager C) : TierManager.Inv tm -> TierManager.Inv (set_pinned q tm).
Proof. by intros []. Qed.

(** Handles and buffers change, the index does not. *)
Lemma NodeInv_buffers b w n :
  NodeInv n -> Slots total (handles_ n) b -> marks_below w (Ingest.next_handle_ b) -> NodeInv (set_pool b w n).
Proof.
  intros I S M. constructor; cbn [handles_ next_handle_ px_ tm_ set_pool]; try apply I; [apply Inv_set_pinned, I| |done].
  change (Slots total (handles_ n) (pool (set_pool b w n))). by rewrite pool_set_pool.
Qed.

(** The tiers and the index change. *)
Lemma NodeInv_tiers X tm p n :
  NodeInv n -> TierManager.Inv tm -> pinned_ tm = pinned_ (tm_ n) -> IndexInv P (readers_of n) p ->
  held_but X (readers_of n) (px_ n) p -> fine X n (set_tiers tm p n).
Proof.
  intros I T E Ix H. split; [|done]. constructor; cbn [handles_ next_handle_ px_ tm_ set_tiers]; try apply I; [done| |].
  - unfold pool. cbn [tm_ bufs_ set_tiers]. rewrite E. apply I.
  - by eapply Leaves_step; [apply I| |].
Qed.

Lemma StageToDram_pinned k d kind (tm : Manager C) : pinned_ (StageToDram k d kind tm).2 = pinned_ tm.
Proof. unfold StageToDram. by destruct (Dram.Insert _ _ _ _ _). Qed.

Lemma stage_fine lg now k d kind n : NodeInv n -> fine None n (stage lg now k d kind n).
Proof.
  intros I. unfold stage. pose proof (StageToDram_pinned k d kind (tm_ n)) as Pn. destruct (StageToDram k d kind (tm_ n)) as [ks tm] eqn:E.
  destruct (on_evictions_spec P _ lg now ks _ (l_index _ _ _ (n_leaves _ I))) as [Ix H].
  apply NodeInv_tiers; [done| |done|done|done]. by apply (StageToDram_at _ _ _ _ _ _ (n_tiers _ I) E).
Qed.

Lemma stage_fields lg now k d kind n :
  let n' := stage lg now k d kind n in
  handles_ n' = handles_ n /\ next_handle_ n' = next_handle_ n /\ bufs_ n' = bufs_ n /\ pool n' = pool n /\ wal_ n' = wal_ n /\
  tm_ n' = (StageToDram k d kind (tm_ n)).2.
Proof.
  unfold stage. pose proof (StageToDram_pinned k d kind (tm_ n)) as Pn. destruct (StageToDram k d kind (tm_ n)) as [ks tm].
  unfold pool. cbn in *. by rewrite Pn.
Qed.

(** Closing an ingest handle. *)
Lemma close_ingest_fine X h s ih n :
  NodeInv n -> handles_ n !! h = Some s -> ingest_of s = Some ih -> fine X n (close_ingest h ih n).
Proof.
  intros I E S. split; [|by apply held_same]. constructor; cbn [close_ingest erase_handle set_handles set_pool handles_ next_handle_ px_ tm_].
  - apply Inv_set_pinned, I.
  - change (Slots total (delete h (handles_ n)) (pool (set_pool (Ingest.Release ih (pool n)).2 (Ingest.Drop ih (wm_ (bufs_ n))).2 n))).
    rewrite pool_set_pool. by apply (Slots_close _ _ _ _ s), S; [apply I|].
  - apply I.
  - cbn [close_ingest erase_handle set_handles set_pool bufs_ wm_ next_ingest_]. rewrite (proj2 (Release_fields ih (pool n))). apply marks_drop, I.
  - intros h' s' L. apply lookup_delete_Some in L as [_ L]. by apply (n_next _ I h' s').
  - intros h' s' L. apply lookup_delete_Some in L as [_ L]. by apply (n_loc _ I h' s').
  - apply (Leaves_delete_ingest _ _ _ s); [apply I|done|]. by destruct s.
Qed.

Lemma fine_trans X n n1 n2 : fine X n n1 -> handles_ n1 = handles_ n -> fine X n1 n2 -> fine X n n2.
Proof. intros [_ H1] E [I2 H2]. split; [done|]. rewrite E in H2. by transitivity (px_ n1). Qed.

Lemma fine_weaken X n n' : fine None n n' -> fine X n n'.
Proof. intros [I H]. split; [done|]. by apply held_weaken. Qed.

(** Only the index changes. *)
Lemma NodeInv_index X p n :
  NodeInv n -> IndexInv P (readers_of n) p -> held_but X (readers_of n) (px_ n) p -> fine X n (set_px p n).
Proof.
  intros I Ix H. split; [|done]. constructor; cbn [handles_ next_handle_ px_ tm_ set_px]; try apply I.
  by eapply Leaves_step; [apply I| |].
Qed.

Lemma readers_fresh n : NodeInv n -> readers_of n (next_leaf_ (px_ n)) = 0.
Proof.
  intros I. unfold readers. replace (filter _ _) with (∅ : handles); [by rewrite map_size_empty|].
  symmetry. apply map_empty. intros h. apply map_lookup_filter_None. right. intros s E R. apply reads_leaf in R.
  pose proof (x_fresh _ _ _ (l_index _ _ _ (n_leaves _ I)) _ (l_heap _ _ _ (n_leaves _ I) h s _ E R)). lia.
Qed.

(** The end of a seal: the index entry of the key, the leaf, the event. *)
Definition seal_index (lg : art_log) (now : Z) (loc : kv_locator_t) (path : list bytes) (watermark : Z) (p1 : Prefix) : code * Prefix :=
  let p2 := mkPrefix (heap_ p1) (next_leaf_ p1) (art_ p1) (<[LocatorContentKey loc := path]> (evict_index_ p1))
              (deferred_evicts_ p1) (events_ p1) in
  let '(r, p3) := insert_leaf lg path (mkLeaf loc DRAM_BIT watermark (RefAcquire 0)) p2 in
  match r with Art.kPathConflict => (KV_E_INTERNAL, p3) | _ => (KV_OK, publish_event now Events.Add loc p3) end.

(** The bytes of a seal go to DRAM first. *)
Definition seal_stage (lg : art_log) (now : Z) (loc : kv_locator_t) (ih : Z) n : Node C :=
  match Ingest.GetSlot ih (pool n) with
  | Some slot =>
      let w := Ingest.Read ih (wm_ (bufs_ n)) in
      if 0 <? w then stage lg now (LocatorContentKey loc) (slot_payload slot w n) SK_KV n else n
  | None => n
  end.

Lemma SealCommit_split lg now h loc ih path n :
  SealCommit lg now h loc ih path n =
  let n1 := seal_stage lg now loc ih n in
  let '(r, p) := seal_index lg now loc path (Ingest.Read ih (wm_ (bufs_ n))) (px_ n1) in
  (r, close_ingest h ih (set_px p n1)).
Proof.
  unfold SealCommit, seal_index. change (negb (shouldStore _)) with false. cbn [andb]. fold (seal_stage lg now loc ih n).
  destruct (insert_leaf _ _ _ _) as [r p3]. by destruct r.
Qed.

Lemma seal_stage_fields lg now loc ih n :
  let n' := seal_stage lg now loc ih n in
  handles_ n' = handles_ n /\ next_handle_ n' = next_handle_ n /\ bufs_ n' = bufs_ n /\ pool n' = pool n /\ wal_ n' = wal_ n.
Proof.
  unfold seal_stage. destruct (Ingest.GetSlot _ _) as [slot|]; [|done]. cbn zeta. destruct (0 <? _); [|done].
  destruct (stage_fields lg now (LocatorContentKey loc) (slot_payload slot (Ingest.Read ih (wm_ (bufs_ n))) n) SK_KV n) as (A & B & D & E & F & _). done.
Qed.

Lemma seal_stage_fine lg now loc ih n : NodeInv n -> fine None n (seal_stage lg now loc ih n).
Proof.
  intros I. unfold seal_stage. destruct (Ingest.GetSlot _ _); [|by apply fine_refl]. cbn zeta. destruct (0 <? _); [|by apply fine_refl].
  by apply stage_fine.
Qed.

Lemma seal_index_spec lg now loc path w n r p :
  NodeInv n -> P loc -> Art.path_ok path -> seal_index lg now loc path w (px_ n) = (r, p) ->
  fine (Some path) n (set_px p n) /\
  (r = KV_OK -> exists l, Art.LookupByPath path (art_ p) = Some l /\
     heap_ p !! l = Some (mkLeaf loc DRAM_BIT w 1) /\ readers_of n l = 0) /\
  (r = KV_OK \/ r = KV_E_INTERNAL).
Proof.
  intros I Pl Q. unfold seal_index. set (p2 := mkPrefix _ _ _ _ _ _). pose proof (l_index _ _ _ (n_leaves _ I)) as Ix.
  assert (I2 : IndexInv P (readers_of n) p2).
  { apply (Ix_same P _ (px_ n)); try done; [|apply Ix]. cbn. intros k q. rewrite lookup_insert_Some. intros [[_ <-]|[_ X]]; [done|].
    by apply (x_paths _ _ _ Ix k). }
  destruct (insert_leaf _ _ _ _) as [r0 p3] eqn:E.
  destruct (insert_leaf_spec P _ _ _ _ _ _ _ I2 Q E (readers_fresh n I) eq_refl Pl) as [I3 D].
  assert (H3 : held_but (Some path) (readers_of n) (px_ n) p3).
  { destruct D as [[_ ->]|(_ & _ & Hp & Tr)]; [by apply held_same|]. constructor.
    - intros l lf L. exists lf. split; [|done]. rewrite Hp, lookup_insert_ne; [done|]. intros <-.
      pose proof (x_fresh _ _ _ Ix _ (mk_is_Some _ _ L)). cbn in *. lia.
    - intros q l Qq _ N. rewrite Tr; [done|done|congruence]. }
  destruct D as [[-> ->]|(NC & L & Hp & _)].
  { intros [= <- <-]. split; [by apply NodeInv_index|]. split; [done|]. by right. }
  intros R. assert (R' : r = KV_OK /\ p = publish_event now Events.Add loc p3) by (destruct r0; injection R as <- <-; done).
  destruct R' as [-> ->]. split; [apply NodeInv_index; [done|by apply Ix_publish|]|].
  - transitivity p3; [done|]. by apply held_same.
  - split; [|by left]. intros _. exists (next_leaf_ (px_ n)). split; [done|]. split; [|by apply readers_fresh].
    cbn. rewrite Hp. cbn. by rewrite lookup_insert_eq.
Qed.

Lemma SealCommit_fine lg now h s loc ih path n :
  NodeInv n -> handles_ n !! h = Some s -> ingest_of s = Some ih -> P loc -> Art.path_ok path ->
  fine (Some path) n (SealCommit lg now h loc ih path n).2.
Proof.
  intros I E S Pl Q. rewrite SealCommit_split. cbn zeta.
  pose proof (seal_stage_fine lg now loc ih n I) as F1. destruct (seal_stage_fields lg now loc ih n) as (Hh & _).
  set (n1 := seal_stage lg now loc ih n) in *. destruct (seal_index _ _ _ _ _ _) as [r p] eqn:Si. cbn [snd].
  destruct (seal_index_spec lg now loc path _ n1 r p (proj1 F1) Pl Q Si) as [F2 _].
  apply (fine_trans _ _ n1); [by apply fine_weaken|done|]. apply (fine_trans _ _ (set_px p n1)); [done|done|].
  apply (close_ingest_fine _ _ s); [apply F2| |done]. cbn. by rewrite Hh.
Qed.

Lemma ChunkifyNS_ok tokens th mh : Art.path_ok (Lpm.ChunkifyNS Blake3_128 tokens (Lpm.NamespaceFingerprint Blake3_128 th mh)).
Proof.
  constructor; [|by apply Lpm.Chunkify_ok]. unfold Art.hash_ok, Lpm.NamespaceFingerprint. by rewrite length_take, Blake3_128_length.
Qed.

Lemma key_ok_locator loc : P loc -> Cold.key_ok (LocatorContentKey loc).
Proof.
  intros Pl. destruct (P_ok _ Pl) as (T & _ & Pf & _). unfold Cold.key_ok, LocatorContentKey.
  rewrite !length_zip_with, length_app, length_put_le, length_replicate, T, Pf. done.
Qed.

Lemma LookupDram_pinned k (tm : Manager C) : pinned_ (LookupDram k tm).2 = pinned_ tm.
Proof. unfold LookupDram. by destruct (Dram.Lookup _ _). Qed.

Lemma to_dram_pinned b k d (tm : Manager C) : pinned_ (to_dram b k d tm).2 = pinned_ tm.
Proof. unfold to_dram. destruct b; [apply StageToDram_pinned|done]. Qed.

Lemma to_nvme_pinned b i k d (tm : Manager C) : pinned_ (to_nvme b i k d tm) = pinned_ tm.
Proof. unfold to_nvme, PutNvme. destruct b, (nvme_ tm); try done. by destruct (Nvme.Put _ _ _ _). Qed.

Lemma GetCold_pinned i k (tm : Manager C) : pinned_ (GetCold i k tm).2 = pinned_ tm.
Proof. unfold GetCold. destruct (cold_ tm); [|done]. by destruct (Cold.Get _ _ _ _). Qed.

Lemma Fetch_pinned i k (tm : Manager C) : pinned_ (TierManager.Fetch i k tm).2 = pinned_ tm.
Proof.
  unfold TierManager.Fetch. rewrite <- (LookupDram_pinned k tm). destruct (LookupDram k tm) as [r tm1]. cbn [snd].
  set (below := match GetNvme _ _ _ with Some _ => _ | None => _ end).
  assert (B : pinned_ below.2 = pinned_ tm1).
  { unfold below. destruct (GetNvme _ _ _) as [d|].
    - pose proof (to_dram_pinned (promote_nvme_to_dram (opts_ tm1)) k d tm1) as X. by destruct (to_dram _ _ _ _).
    - rewrite <- (GetCold_pinned (cold_get i) k tm1). destruct (GetCold _ _ _) as [[d|] tm2]; [|done]. cbn [snd].
      rewrite <- (to_nvme_pinned (promote_cold_to_nvme (opts_ tm2)) (nvme_put i) k d tm2). set (tm3 := to_nvme _ _ _ _ _).
      pose proof (to_dram_pinned (promote_cold_to_dram (opts_ tm3)) k d tm3) as X. by destruct (to_dram _ _ _ _). }
  destruct r as [w [d|]]; by destruct w.
Qed.

Lemma Fetch_Inv i k (tm : Manager C) r ks tm' :
  TierManager.Inv tm -> Cold.key_ok k -> TierManager.Fetch i k tm = (r, ks, tm') -> TierManager.Inv tm'.
Proof. intros T K E. by apply (Fetch_good (fun _ _ => True) i k tm r ks tm'); [split; [done|]| |]. Qed.

Lemma Lookup_fine th mh tokens n : NodeInv n -> room n -> fine None n (Lookup Blake3_128 th mh tokens n).2.
Proof.
  intros I [B _]. unfold Lookup. destruct tokens as [|t ts]; [by apply fine_refl|].
  set (r := Lpm.LongestPrefixMatchNS _ _ _ _ _). destruct (Lpm.leaf r) as [l|]; [|by apply fine_refl].
  destruct (Lpm.matched_tokens r =? 0); [by apply fine_refl|]. destruct (heap_ (px_ n) !! l) as [lf|] eqn:El; [|by apply fine_refl].
  destruct (TryAcquireIfNonZero _) as [v|] eqn:Ac; [|by apply fine_refl]. cbn [snd].
  pose proof (x_refs _ _ _ (l_index _ _ _ (n_leaves _ I)) l lf El) as [_ Pl]. split; [|apply set_ref_held].
  constructor; cbn [set_px set_handles handles_ next_handle_ px_ tm_ bufs_].
  - apply I.
  - apply (Slots_read total (handles_ n) (pool n)); [apply I|by apply fresh_handle|done].
  - apply I.
  - apply I.
  - intros h s. rewrite lookup_insert_Some. intros [[<- _]|[_ X]]; [lia|]. pose proof (n_next _ I _ _ X). lia.
  - intros h s. rewrite lookup_insert_Some. intros [[<- <-]|[_ X]]; [done|by apply (n_loc _ I h)].
  - by apply (Leaves_acquire _ _ _ _ _ lf); [apply I|apply fresh_handle| | | |].
Qed.

Lemma Reserve_fine now loc b th mh n : NodeInv n -> room n -> P loc -> fine None n (Reserve now loc b th mh n).2.
Proof.
  intros I [_ B] Pl. unfold Reserve. destruct (b =? 0); [by apply fine_refl|].
  destruct (Ingest.Reserve now 0 default_ttl (pool n)) as [ih p1] eqn:R.
  assert (Same : forall q w, Slots total (handles_ n) q -> marks_below w (Ingest.next_handle_ q) -> fine None n (set_pool q w n)).
  { intros q w S M. split; [by apply NodeInv_buffers|]. by apply held_same. }
  destruct (Z.eqb_spec ih Ingest.kInvalidIngestHandle) as [->|NI].
  { unfold Ingest.Reserve in R. destruct (Ingest.Acquire _) as [[i|] ?]; [injection R as R _|injection R as <-; apply Same; apply I].
    pose proof (s_next _ _ _ (n_slots _ I)) as Y. change (0 < next_ingest_ (bufs_ n)) in Y. exfalso. unfold Ingest.kInvalidIngestHandle in R. lia. }
  pose proof (Slots_undo _ _ _ _ _ _ _ _ (n_slots _ I) B R NI) as U.
  destruct (Reserve_fields _ _ _ _ _ _ (s_pool _ _ _ (n_slots _ I)) (conj (s_next _ _ _ (n_slots _ I)) B) R NI) as (_ & Eih & Nx & _ & _).
  assert (M1 : marks_below (Ingest.Track ih (wm_ (bufs_ n))) (Ingest.next_handle_ p1)).
  { replace (Ingest.next_handle_ p1) with (Z.max (next_ingest_ (bufs_ n)) (ih + 1)) by (cbn [pool Ingest.next_handle_] in Eih; lia).
    apply marks_track, I. }
  destruct (Ingest.GetSlot ih p1) as [slot|]; [|apply Same; [done|by rewrite (proj2 (Release_fields ih p1))]].
  destruct (_ <? b); [apply Same; [done|]; rewrite (proj2 (Release_fields ih p1)); by apply marks_drop|]. cbn [snd].
  split; [|by apply held_same]. constructor; cbn [set_pool set_handles handles_ next_handle_ px_ tm_ bufs_].
  - apply Inv_set_pinned, I.
  - match goal with |- Slots _ ?H _ => change (Slots total H (pool (set_pool p1 (Ingest.Track ih (wm_ (bufs_ n))) n))) end. rewrite pool_set_pool.
    by apply (Slots_reserve _ _ (pool n) now 0 default_ttl ih); [apply I| | | |apply fresh_handle|].
  - apply I.
  - done.
  - intros h s. rewrite lookup_insert_Some. intros [[<- _]|[_ X]]; [lia|]. pose proof (n_next _ I _ _ X). lia.
  - intros h s. rewrite lookup_insert_Some. intros [[<- <-]|[_ X]]; [done|by apply (n_loc _ I h)].
  - by apply Leaves_ingest; [apply I|apply fresh_handle|].
Qed.

Lemma Fetch_fine lg now i x h dst n : NodeInv n -> fine None n (Fetch lg now i x h dst n).2.
Proof.
  intros I. unfold Fetch. destruct (handles_ n !! h) as [s|] eqn:E; [|by apply fine_refl]. destruct s as [|loc l th mh]; [by apply fine_refl|].
  pose proof (Fetch_pinned i (LocatorContentKey loc) (tm_ n)) as Pn. destruct (TierManager.Fetch _ _ _) as [[r ks] tm] eqn:F.
  assert (T : TierManager.Inv tm) by (by eapply Fetch_Inv; [apply I|eapply key_ok_locator, (n_loc _ I h _ E)|done]).
  destruct (on_evictions_spec P _ lg now ks _ (l_index _ _ _ (n_leaves _ I))) as [Ix H].
  assert (X : fine None n (set_tiers tm (on_evictions lg now ks (px_ n)) n)) by (by apply NodeInv_tiers).
  destruct r as [[hit d]|]; [|done]. destruct (match dst with Some _ => _ | None => _ end); [done|]. by destruct (_ || _).
Qed.

Lemma Seal_fine lg now h tokens n : NodeInv n -> fine (sealed (CSeal lg now h tokens) n) n (Seal Blake3_128 lg now h tokens n).2.
Proof.
  intros I. unfold Seal, sealed. destruct (handles_ n !! h) as [s|] eqn:E; [|by apply fine_refl].
  destruct s as [loc ih th mh|]; [|by apply fine_refl]. destruct (_ <? _)%nat; [by eapply close_ingest_fine|].
  by eapply SealCommit_fine; [| | |apply (n_loc _ I h _ E)|apply ChunkifyNS_ok].
Qed.

Lemma SealByChunkPath_fine lg now h path n :
  NodeInv n -> Art.path_ok path -> fine (Some path) n (SealByChunkPath lg now h path n).2.
Proof.
  intros I Q. unfold SealByChunkPath. destruct (handles_ n !! h) as [s|] eqn:E; [|by apply fine_refl].
  destruct s as [loc ih th mh|]; [|by apply fine_refl]. by eapply SealCommit_fine; [| | |apply (n_loc _ I h _ E)|].
Qed.

Lemma NodeInv_wal w n : NodeInv n -> NodeInv (mkNode (handles_ n) (next_handle_ n) (tm_ n) (bufs_ n) (px_ n) w).
Proof. by intros []. Qed.

Lemma StatePut_fine lg now io id d n : NodeInv n -> fine None n (StatePut lg now io id d n).2.
Proof.
  intros I. unfold StatePut. destruct (wal_ n) as [w|]; [|by apply fine_refl]. destruct (StateWal.Append _ _ _ _ _) as [ok w1].
  pose proof (NodeInv_wal (Some w1) n I) as I1. set (n1 := mkNode _ _ _ _ _ _) in *. destruct ok; [|by split].
  by apply (stage_fine _ _ _ _ _ n1).
Qed.

Lemma LookupDram_fine k r tm n : NodeInv n -> LookupDram k (tm_ n) = (r, tm) -> fine None n (set_tiers tm (px_ n) n).
Proof.
  intros I E. pose proof (LookupDram_pinned k (tm_ n)) as Pn. rewrite E in Pn.
  apply NodeInv_tiers; [done| |done|apply I|done]. by apply (LookupDram_at _ _ _ _ (n_tiers _ I) E).
Qed.

Lemma StateGet_fine lg now id n : NodeInv n -> fine None n (StateGet lg now id n).2.
Proof.
  intros I. unfold StateGet. destruct (wal_ n) as [w|]; [|by apply fine_refl]. destruct (LookupDram _ _) as [r tm] eqn:E.
  pose proof (LookupDram_fine _ _ _ n I E) as F. set (n1 := set_tiers _ _ _) in *.
  assert (M : fine None n (match StateWal.Get (StateKeyFromIdentity id) w with
    | Some d => ((KV_OK, d), stage lg now (StateKeyFromIdentity id) d SK_MEMORY n1) | None => ((KV_E_NOT_FOUND, []), n1) end).2).
  { destruct (StateWal.Get _ _); [|done]. apply (fine_trans _ _ n1); [done|done|]. apply stage_fine, F. }
  destruct r as [wh [d|]]; by destruct wh.
Qed.

Lemma Release_fine h n : NodeInv n -> room n -> fine None n (Release h n).2.
Proof.
  intros I [B _]. unfold Release. destruct (handles_ n !! h) as [s|] eqn:E; [|by apply fine_refl]. destruct s as [loc ih th mh|loc l th mh].
  - pose proof (s_ingest _ _ _ (n_slots _ I) h _ ih E eq_refl). destruct (Z.eqb_spec ih 0); [lia|]. by eapply close_ingest_fine.
  - destruct (l_heap _ _ _ (n_leaves _ I) h _ l E eq_refl) as [lf El]. rewrite El. cbn [snd]. split; [|apply set_ref_held].
    constructor; cbn [set_px erase_handle set_handles handles_ next_handle_ px_ tm_ bufs_].
    + apply I.
    + by eapply (Slots_delete_read total (handles_ n) (pool n)); [apply I| |].
    + apply I.
    + apply I.
    + intros h' s' L. apply lookup_delete_Some in L as [_ L]. by apply (n_next _ I h' s').
    + intros h' s' L. apply lookup_delete_Some in L as [_ L]. by apply (n_loc _ I h' s').
    + by eapply Leaves_release; [apply I| | | |lia].
Qed.

(** Where a slot in use lies. *)
Lemma slot_bounds ih e n :
  NodeInv n -> active_ (bufs_ n) !! ih = Some e ->
  0 <= Ingest.e_slot e < Ingest.slot_count_ (pinned_ (tm_ n)) /\
  Ingest.slot_addr (Ingest.e_slot e) (pinned_ (tm_ n)) = Ingest.e_slot e * Ingest.slot_bytes_ (pinned_ (tm_ n)) /\
  0 < Ingest.slot_bytes_ (pinned_ (tm_ n)) /\
  Ingest.slot_count_ (pinned_ (tm_ n)) * Ingest.slot_bytes_ (pinned_ (tm_ n)) = total.
Proof.
  intros I E. destruct (s_geometry _ _ _ (n_slots _ I)) as (B & T & L). cbn [pool Ingest.pinned] in *.
  assert (R : 0 <= Ingest.e_slot e < Ingest.slot_count_ (pinned_ (tm_ n))).
  { apply (Ingest.slot_range _ (s_pool _ _ _ (n_slots _ I))). cbn [pool Ingest.active_]. rewrite (fields_delete _ _ _ _ E). apply elem_of_cons. by left. }
  split; [done|]. split; [|done]. unfold Ingest.slot_addr. apply u64_small. nia.
Qed.

Lemma inside_bounds ih a len n :
  NodeInv n -> inside ih a len n -> exists e, active_ (bufs_ n) !! ih = Some e /\
    Ingest.e_slot e * Ingest.slot_bytes_ (pinned_ (tm_ n)) <= a /\
    a + len <= (Ingest.e_slot e + 1) * Ingest.slot_bytes_ (pinned_ (tm_ n)) /\ 0 <= a /\ a + len <= total.
Proof.
  intros I (slot & G & A & B). unfold Ingest.GetSlot in G. cbn [pool Ingest.active_ Ingest.pinned] in G.
  destruct (active_ (bufs_ n) !! ih) as [e|] eqn:E; [|done]. injection G as <-. cbn [Ingest.addr Ingest.s_bytes] in *.
  destruct (slot_bounds ih e n I E) as (R & S & B0 & T). rewrite S in *. exists e. split; [done|]. nia.
Qed.

Lemma EngineWrite_fine a d n : NodeInv n -> (exists ih, inside ih a (zlen d) n) -> fine None n (EngineWrite a d n).
Proof.
  intros I [ih W]. destruct (inside_bounds _ _ _ _ I W) as (e & _ & _ & _ & A & B). split; [|done].
  destruct I as [T S M Mk N L Lv]. constructor; try done. cbn [EngineWrite bufs_ memory_].
  destruct (Nvme.write_at_spec (Z.to_nat a) d (memory_ (bufs_ n)) ltac:(lia)) as [[X _] _]. by rewrite X.
Qed.

(** Every call keeps the invariant and what is held. *)
Lemma apply_fine c n : NodeInv n -> room n -> call_ok c n -> fine (sealed c n) n (apply Blake3_128 c n).
Proof.
  intros I B. destruct c; cbn [call_ok apply]; intros Ok.
  - by apply Lookup_fine.
  - by apply Reserve_fine.
  - by apply EngineWrite_fine.
  - unfold Publish. destruct (handles_ n !! h) as [[loc ih th mh|]|]; try by apply fine_refl. split; [|by apply held_same].
    apply NodeInv_buffers; [done|apply I|]. apply marks_publish, I.
  - by apply Fetch_fine.
  - by apply Seal_fine.
  - by apply SealByChunkPath_fine.
  - by apply StatePut_fine.
  - by apply StateGet_fine.
  - by apply Release_fine.
  - destruct (sweep_deferred_spec P _ log_ok now _ (l_index _ _ _ (n_leaves _ I))) as [Ix H]. by apply NodeInv_index.
  - split; [|by apply held_same]. apply NodeInv_buffers; [done|apply Slots_sweep, I|apply I].
Qed.

(** The states of a node, from one on. *)
Inductive reach (n0 : Node C) : Node C -> Prop :=
| reach_boot : reach n0 n0
| reach_call n c : reach n0 n -> room n -> call_ok c n -> reach n0 (apply Blake3_128 c n).

Lemma reach_inv n0 n : NodeInv n0 -> reach n0 n -> NodeInv n.
Proof. intros I. induction 1 as [|n c _ IH B Ok]; [done|]. by apply (apply_fine c n). Qed.

(** ** An upload among other calls *)

Record upload := mkUpload { u_handle : Z; u_loc : kv_locator_t; u_ih : Z; u_tenant : Z; u_model : Z; u_entry : Ingest.Entry;
  u_bytes : Z (* the size of a slot *) }.

Definition u_state (u : upload) : HandleState := IngestHandle (u_loc u) (u_ih u) (u_tenant u) (u_model u).
Definition u_addr (u : upload) : Z := Ingest.e_slot (u_entry u) * u_bytes u.

(** The upload is open, its watermark is [w] and its slot starts with [d]. *)
Record Upload (u : upload) (w : Z) (d : bytes) n : Prop := {
  up_handle : handles_ n !! u_handle u = Some (u_state u);
  up_slot : active_ (bufs_ n) !! u_ih u = Some (u_entry u);
  up_mark : wm_ (bufs_ n) !! u_ih u = Some w;
  up_bytes : Ingest.slot_bytes_ (pinned_ (tm_ n)) = u_bytes u;
  up_fits : zlen d <= u_bytes u;
  up_data : Nvme.slice (Z.to_nat (u_addr u)) (length d) (memory_ (bufs_ n)) = d }.

(** A call of someone else: on other handles, into other slots, and no sweep after the
    upload's deadline. *)
Definition foreign (u : upload) (c : call C) n : Prop :=
  match c with
  | CPublish h _ | CSeal _ _ h _ | CSealByChunkPath _ _ h _ | CRelease h => h <> u_handle u
  | CWrite a d => exists ih, ih <> u_ih u /\ inside ih a (zlen d) n
  | CSweepBuffers now => now < Ingest.deadline (u_entry u)
  | _ => True
  end.

Lemma Upload_same u w d n n' :
  Upload u w d n -> handles_ n' !! u_handle u = handles_ n !! u_handle u -> bufs_ n' = bufs_ n -> pinned_ (tm_ n') = pinned_ (tm_ n) ->
  Upload u w d n'.
Proof. intros [H A W Z F D] E B Pn. constructor; by rewrite ?E, ?B, ?Pn. Qed.

Lemma ingest_differs u w d n h s ih :
  NodeInv n -> Upload u w d n -> handles_ n !! h = Some s -> ingest_of s = Some ih -> h <> u_handle u -> ih <> u_ih u.
Proof. intros I U E S N ->. apply N. by apply (s_distinct _ _ _ (n_slots _ I) h _ s (u_state u) (u_ih u)); [| apply U| |]. Qed.

(** What releasing a slot, dropping a mark and closing a handle leave. *)
Lemma Upload_close u w d n h s ih :
  NodeInv n -> Upload u w d n -> handles_ n !! h = Some s -> ingest_of s = Some ih -> h <> u_handle u -> Upload u w d (close_ingest h ih n).
Proof.
  intros I U E S N. pose proof (ingest_differs u w d n h s ih I U E S N) as Ne. destruct U as [H A W Zb F D].
  destruct (Ingest.run_op_geometry (Ingest.ORelease ih) (pool n)) as [Sb _]. cbn [Ingest.run_op] in Sb.
  constructor; cbn [close_ingest erase_handle set_handles set_pool handles_ bufs_ active_ wm_ memory_ tm_ pinned_ set_pinned] in *.
  - by rewrite lookup_delete_ne.
  - rewrite (proj1 (Release_fields ih (pool n))). by rewrite lookup_delete_ne.
  - unfold Ingest.Drop. destruct (_ !! ih); [|done]. cbn [snd]. rewrite <- W. exact (lookup_delete_ne (wm_ (bufs_ n) : gmap Z Z) ih (u_ih u) Ne).
  - by rewrite Sb.
  - done.
  - done.
Qed.

Lemma Upload_tiers u w d n tm p : Upload u w d n -> pinned_ tm = pinned_ (tm_ n) -> Upload u w d (set_tiers tm p n).
Proof. intros U E. by apply (Upload_same _ _ _ n). Qed.

Lemma Upload_stage u w d n lg now k x kind : Upload u w d n -> Upload u w d (stage lg now k x kind n).
Proof.
  intros U. unfold stage. pose proof (StageToDram_pinned k x kind (tm_ n)) as Pn. destruct (StageToDram k x kind (tm_ n)).
  by apply Upload_tiers.
Qed.

Lemma Upload_SealCommit u w d n lg now h s loc ih path :
  NodeInv n -> Upload u w d n -> handles_ n !! h = Some s -> ingest_of s = Some ih -> h <> u_handle u -> P loc -> Art.path_ok path ->
  Upload u w d (SealCommit lg now h loc ih path n).2.
Proof.
  intros I U E S N Pl Q. rewrite SealCommit_split. cbn zeta. pose proof (seal_stage_fine lg now loc ih n I) as [I1 _].
  destruct (seal_stage_fields lg now loc ih n) as (Hh & _).
  assert (U1 : Upload u w d (seal_stage lg now loc ih n)).
  { unfold seal_stage. destruct (Ingest.GetSlot _ _); [|done]. cbn zeta. destruct (0 <? _); [|done]. by apply Upload_stage. }
  set (n1 := seal_stage lg now loc ih n) in *. destruct (seal_index _ _ _ _ _ _) as [r p] eqn:Si. cbn [snd].
  destruct (seal_index_spec lg now loc path _ n1 r p I1 Pl Q Si) as [[I2 _] _].
  apply (Upload_close _ _ _ _ _ s); [done|by apply (Upload_same _ _ _ n1)| |done|done]. cbn. by rewrite Hh.
Qed.

Lemma Upload_write u w d n ih a x :
  NodeInv n -> Upload u w d n -> ih <> u_ih u -> inside ih a (zlen x) n -> Upload u w d (EngineWrite a x n).
Proof.
  intros I U N W. destruct (inside_bounds _ _ _ _ I W) as (e & E & B1 & B2 & B3 & B4). destruct U as [H A Wm Zb F D]. constructor; try done.
  unfold u_addr in *. rewrite <- Zb in *. cbn [EngineWrite tm_ bufs_ memory_]. rewrite <- D at 2.
  destruct (slot_bounds _ _ n I A) as (R & _ & S0 & T).
  pose proof (Ingest.active_slots_distinct (pool n) ih (u_ih u) e (u_entry u) (s_pool _ _ _ (n_slots _ I)) N E A) as Ds.
  apply (Nvme.slice_only_at (Z.to_nat a) (length x)).
  - apply Nvme.write_at_spec. pose proof (n_memory _ I). lia.
  - assert (Ingest.e_slot e < Ingest.e_slot (u_entry u) \/ Ingest.e_slot (u_entry u) < Ingest.e_slot e) as [L|L] by lia; [right|left]; nia.
Qed.

(** Whoever else gets a slot, this upload keeps its own. *)
Lemma Upload_reserve u w d n now loc b th mh :
  NodeInv n -> room n -> Upload u w d n -> Upload u w d (Reserve now loc b th mh n).2.
Proof.
  intros I [_ B] U. unfold Reserve. destruct (b =? 0); [done|]. destruct (Ingest.Reserve now 0 default_ttl (pool n)) as [ih p1] eqn:R.
  destruct (Ingest.run_op_geometry (Ingest.OReserve now 0 default_ttl) (pool n)) as [Sb _]. cbn [Ingest.run_op] in Sb. rewrite R in Sb.
  change (Ingest.slot_bytes_ (Ingest.pinned p1) = Ingest.slot_bytes_ (pinned_ (tm_ n))) in Sb.
  destruct U as [H A W Zb F D].
  assert (X : forall q m, Ingest.slot_bytes_ (Ingest.pinned q) = Ingest.slot_bytes_ (pinned_ (tm_ n)) ->
    Ingest.active_ q !! u_ih u = Some (u_entry u) -> m !! u_ih u = Some w -> Upload u w d (set_pool q m n)).
  { intros q m Eq Aq Mq. constructor; cbn [set_pool handles_ bufs_ active_ wm_ memory_ tm_ pinned_ set_pinned]; rewrite ?Eq; done. }
  destruct (Z.eqb_spec ih Ingest.kInvalidIngestHandle) as [->|NI].
  { unfold Ingest.Reserve in R. destruct (Ingest.Acquire _) as [[i|] ?]; [injection R as R _|injection R as <-; by apply X].
    pose proof (s_next _ _ _ (n_slots _ I)) as Y. change (0 < next_ingest_ (bufs_ n)) in Y. exfalso. unfold Ingest.kInvalidIngestHandle in R. lia. }
  destruct (Reserve_fields _ _ _ _ _ _ (s_pool _ _ _ (n_slots _ I)) (conj (s_next _ _ _ (n_slots _ I)) B) R NI) as (_ & Eih & _ & (e & A1) & An).
  assert (Ne : ih <> u_ih u) by (intros ->; cbn [pool Ingest.active_] in An; congruence).
  assert (W1 : Ingest.Track ih (wm_ (bufs_ n)) !! u_ih u = Some w).
  { unfold Ingest.Track. destruct (wm_ (bufs_ n) !! ih); [done|]. rewrite <- W. exact (lookup_insert_ne (wm_ (bufs_ n) : gmap Z Z) ih (u_ih u) 0 Ne). }
  assert (Ac : Ingest.active_ p1 !! u_ih u = Some (u_entry u)) by (rewrite A1, lookup_insert_ne; done).
  assert (Rel : Ingest.active_ (Ingest.Release ih p1).2 !! u_ih u = Some (u_entry u)).
  { rewrite (proj1 (Release_fields ih p1)). by rewrite lookup_delete_ne. }
  destruct (Ingest.run_op_geometry (Ingest.ORelease ih) p1) as [Sr _]. cbn [Ingest.run_op] in Sr.
  destruct (Ingest.GetSlot ih p1) as [slot|]; [|apply X; [congruence|done|done]]. destruct (_ <? b).
  - apply X; [congruence|done|]. unfold Ingest.Drop. destruct (Ingest.Track ih (wm_ (bufs_ n)) !! ih); [|done]. cbn [snd].
    etransitivity; [exact (lookup_delete_ne (Ingest.Track ih (wm_ (bufs_ n)) : gmap Z Z) ih (u_ih u) Ne)|done].
  - apply (Upload_same _ _ _ (set_pool p1 (Ingest.Track ih (wm_ (bufs_ n))) n)); [by apply X| |done|done]. cbn.
    apply lookup_insert_ne. intros E. pose proof (n_next _ I _ _ H). lia.
Qed.

Lemma Upload_publish u w d n h v :
  NodeInv n -> Upload u w d n -> h <> u_handle u -> Upload u w d (Publish h v n).2.
Proof.
  intros I U N. unfold Publish. destruct (handles_ n !! h) as [s|] eqn:E; [|done]. destruct s as [loc ih th mh|]; [|done]. cbn [snd].
  pose proof (ingest_differs u w d n h _ ih I U E eq_refl N) as Ne. destruct U as [H A W Zb F D].
  constructor; try done. cbn [set_pool bufs_ wm_]. unfold Ingest.Publish. destruct (_ !! ih); [|done]. destruct (_ <? v); [|done]. cbn [snd].
  rewrite <- W. exact (lookup_insert_ne (wm_ (bufs_ n) : gmap Z Z) ih (u_ih u) v Ne).
Qed.

Lemma Upload_sweep u w d n now : Upload u w d n -> now < Ingest.deadline (u_entry u) -> Upload u w d (SweepBuffers now n).
Proof.
  intros [H A W Zb F D] L. destruct (Ingest.run_op_geometry (Ingest.OSweep now) (pool n)) as [Sb _]. cbn [Ingest.run_op] in Sb.
  constructor; cbn [SweepBuffers set_pool handles_ bufs_ active_ wm_ memory_ tm_ pinned_ set_pinned]; rewrite ?Sb; try done.
  cbn [Ingest.SweepOnce Ingest.active_]. apply map_lookup_filter_Some. split; [done|]. unfold Ingest.expired. cbn. lia.
Qed.

(** Calls of others leave an upload alone. *)
Lemma Upload_frame u w d c n :
  NodeInv n -> room n -> call_ok c n -> foreign u c n -> Upload u w d n -> Upload u w d (apply Blake3_128 c n).
Proof.
  intros I B Ok. destruct c; cbn [foreign apply call_ok] in *; intros Fo U.
  - unfold Lookup. destruct tokens; [done|]. set (r := Lpm.LongestPrefixMatchNS _ _ _ _ _). destruct (Lpm.leaf r) as [l|]; [|done].
    destruct (_ =? 0); [done|]. destruct (heap_ _ !! l) as [lf|]; [|done]. destruct (TryAcquireIfNonZero _); [|done].
    apply (Upload_same _ _ _ n); try done. cbn. apply lookup_insert_ne. intros E. pose proof (n_next _ I _ _ (up_handle _ _ _ _ U)). lia.
  - by apply Upload_reserve.
  - destruct Fo as (ih & N & W). by apply (Upload_write _ _ _ _ ih).
  - by apply Upload_publish.
  - unfold Fetch. destruct (handles_ n !! h) as [[|loc l th mh]|]; try done.
    pose proof (Fetch_pinned i (LocatorContentKey loc) (tm_ n)) as Pn. destruct (TierManager.Fetch _ _ _) as [[r ks] tm].
    assert (U1 : Upload u w d (set_tiers tm (on_evictions log_ok now ks (px_ n)) n)) by (by apply Upload_tiers).
    destruct r as [[hit x0]|]; [|done]. destruct (match dst with Some _ => _ | None => _ end); [done|]. by destruct (_ || _).
  - unfold Seal. destruct (handles_ n !! h) as [s|] eqn:E; [|done]. destruct s as [loc ih th mh|]; [|done].
    destruct (_ <? _)%nat; [by eapply Upload_close|]. by eapply Upload_SealCommit; [| | | | |apply (n_loc _ I h _ E)|apply ChunkifyNS_ok].
  - unfold SealByChunkPath. destruct (handles_ n !! h) as [s|] eqn:E; [|done]. destruct s as [loc ih th mh|]; [|done].
    by eapply Upload_SealCommit; [| | | | |apply (n_loc _ I h _ E)|].
  - unfold StatePut. destruct (wal_ n); [|done]. destruct (StateWal.Append _ _ _ _ _) as [[] w1]; [|by apply (Upload_same _ _ _ n)].
    apply Upload_stage. by apply (Upload_same _ _ _ n).
  - unfold StateGet. destruct (wal_ n); [|done]. pose proof (LookupDram_pinned (StateKeyFromIdentity id) (tm_ n)) as Pn.
    destruct (LookupDram _ _) as [r tm]. assert (U1 : Upload u w d (set_tiers tm (px_ n) n)) by (by apply Upload_tiers).
    destruct r as [wh [x|]]; destruct wh; try done; destruct (StateWal.Get _ _); try done; by apply Upload_stage.
  - unfold Release. destruct (handles_ n !! h) as [s|] eqn:E; [|done]. destruct s as [loc ih th mh|loc l th mh].
    + destruct (Z.eqb_spec ih 0); [|by eapply Upload_close]. apply (Upload_same _ _ _ n); try done. cbn. by apply lookup_delete_ne.
    + apply (Upload_same _ _ _ n); try done. cbn. by apply lookup_delete_ne.
  - by apply (Upload_same _ _ _ n).
  - by apply Upload_sweep.
Qed.

(** Calls of others, one after the other. *)
Inductive others (u : upload) (n0 : Node C) : Node C -> Prop :=
| others_none : others u n0 n0
| others_call n c : others u n0 n -> room n -> call_ok c n -> foreign u c n -> others u n0 (apply Blake3_128 c n).

Lemma Upload_others u w d n n' : NodeInv n -> Upload u w d n -> others u n n' -> NodeInv n' /\ Upload u w d n'.
Proof.
  intros I U. induction 1 as [|n' c _ [I' U'] B Ok Fo]; [done|]. split; [by apply apply_fine|by apply Upload_frame].
Qed.

(** ** The upload's own calls *)

Lemma Reserve_upload now loc b th mh n h slot n1 :
  NodeInv n -> room n -> P loc -> Reserve now loc b th mh n = ((KV_OK, Some (h, slot)), n1) ->
  exists ih e, let u := mkUpload h loc ih th mh e (Ingest.s_bytes slot) in
    NodeInv n1 /\ Upload u 0 [] n1 /\ Ingest.addr slot = u_addr u /\
    b <= Ingest.s_bytes slot /\ Ingest.deadline e = now + default_ttl.
Proof.
  intros I B Pl R0. pose proof (proj1 (Reserve_fine now loc b th mh n I B Pl)) as I1. rewrite R0 in I1. cbn [snd] in I1.
  unfold Reserve in R0. destruct (b =? 0); [done|]. destruct (Ingest.Reserve now 0 default_ttl (pool n)) as [ih p1] eqn:R.
  destruct (Z.eqb_spec ih Ingest.kInvalidIngestHandle) as [|NI]; [done|].
  destruct (Reserve_fields _ _ _ _ _ _ (s_pool _ _ _ (n_slots _ I)) (conj (s_next _ _ _ (n_slots _ I)) (proj2 B)) R NI) as (_ & Eih & _ & (e & A1) & _).
  destruct (Ingest.GetSlot ih p1) as [sl|] eqn:G; [|done]. destruct (Z.ltb_spec (Ingest.s_bytes sl) b) as [|Le]; [done|].
  injection R0 as <- <- <-. unfold Ingest.GetSlot in G. rewrite A1, lookup_insert_eq in G. injection G as <-.
  exists ih, e. cbn zeta. cbn [Ingest.addr Ingest.s_bytes] in *.
  assert (A : active_ (bufs_ (set_handles (<[next_handle_ n := IngestHandle loc ih th mh]> (handles_ n)) (next_handle_ n + 1)
    (set_pool p1 (Ingest.Track ih (wm_ (bufs_ n))) n))) !! ih = Some e) by (cbn; by rewrite A1, lookup_insert_eq).
  destruct (slot_bounds ih e _ I1 A) as (_ & Sa & S0 & _). split; [done|]. split; [|split; [done|split; [done|]]].
  - constructor; cbn [u_handle u_ih u_entry u_state u_loc u_tenant u_model]; [by apply lookup_insert_eq|done| |done| |done].
    2: { cbn [length u_bytes Ingest.s_bytes]. apply Z.lt_le_incl, S0. }
    cbn. unfold Ingest.Track. destruct (wm_ (bufs_ n) !! ih) eqn:M; [|exact (lookup_insert_eq (wm_ (bufs_ n) : gmap Z Z) ih 0)].
    pose proof (n_marks _ I _ _ M). cbn [pool Ingest.next_handle_] in Eih. lia.
  - unfold Ingest.Reserve in R. destruct (Ingest.Acquire _) as [[i|] ?]; injection R as <- <-; [|done]. cbn [Ingest.active_] in A1.
    apply (f_equal (fun m => m !! Ingest.next_handle_ (pool n))) in A1. rewrite !lookup_insert_eq in A1. by injection A1 as <-.
Qed.

Lemma Upload_inside u w d n len : NodeInv n -> Upload u w d n -> len <= u_bytes u -> inside (u_ih u) (u_addr u) len n.
Proof.
  intros I U L. destruct (slot_bounds _ _ n I (up_slot _ _ _ _ U)) as (_ & Sa & _).
  unfold inside, Ingest.GetSlot. cbn [pool Ingest.active_]. rewrite (up_slot _ _ _ _ U). eexists. split; [done|]. cbn [Ingest.addr Ingest.s_bytes].
  cbn [pool Ingest.pinned]. rewrite Sa, (up_bytes _ _ _ _ U). unfold u_addr. lia.
Qed.

Lemma Upload_own_write u w x d n :
  NodeInv n -> Upload u w x n -> zlen d <= u_bytes u ->
  NodeInv (EngineWrite (u_addr u) d n) /\ Upload u w d (EngineWrite (u_addr u) d n).
Proof.
  intros I U L. pose proof (Upload_inside u w x n _ I U L) as W.
  split; [by apply EngineWrite_fine; [|exists (u_ih u)]|]. destruct (inside_bounds _ _ _ _ I W) as (e & _ & _ & _ & B3 & B4).
  destruct U as [H A M Zb F D]. constructor; try done. cbn [EngineWrite bufs_ memory_].
  apply (Nvme.write_at_spec (Z.to_nat (u_addr u)) d). pose proof (n_memory _ I). lia.
Qed.

Lemma Upload_own_publish u w d v n :
  NodeInv n -> Upload u w d n -> exists n', Publish (u_handle u) v n = (KV_OK, n') /\ NodeInv n' /\ Upload u (Z.max w v) d n'.
Proof.
  intros I U. unfold Publish. rewrite (up_handle _ _ _ _ U). eexists. split; [done|]. split.
  - apply NodeInv_buffers; [done|apply I|]. apply marks_publish, I.
  - destruct U as [H A M Zb F D]. constructor; try done. cbn. unfold Ingest.Publish. rewrite M. destruct (Z.ltb_spec w v); cbn [snd].
    + rewrite Z.max_r by lia. exact (lookup_insert_eq (wm_ (bufs_ n) : gmap Z Z) (u_ih u) v).
    + rewrite Z.max_l by lia. done.
Qed.

(** A seal that succeeds puts the payload in DRAM and a leaf under the path. *)
Lemma SealCommit_stored u d lg now path n n1 :
  NodeInv n -> Upload u (zlen d) d n -> 0 < zlen d -> Art.path_ok path -> dram_at (tm_ n) (LocatorContentKey (u_loc u)) = None ->
  SealCommit lg now (u_handle u) (u_loc u) (u_ih u) path n = (KV_OK, n1) ->
  NodeInv n1 /\ dram_at (tm_ n1) (LocatorContentKey (u_loc u)) = Some d /\ next_handle_ n1 = next_handle_ n /\
  handles_ n1 = delete (u_handle u) (handles_ n) /\ active_ (bufs_ n1) !! u_ih u = None /\
  exists l, Art.LookupByPath path (art_ (px_ n1)) = Some l /\ heap_ (px_ n1) !! l = Some (mkLeaf (u_loc u) DRAM_BIT (zlen d) 1).
Proof.
  intros I U D0 Q Ab E. pose proof (n_loc _ I _ _ (up_handle _ _ _ _ U)) as Pl. cbn [u_state locator_of] in Pl.
  pose proof (proj1 (SealCommit_fine lg now _ _ (u_loc u) (u_ih u) path n I (up_handle _ _ _ _ U) eq_refl Pl Q)) as I1. rewrite E in I1.
  split; [done|]. rewrite SealCommit_split in E. cbn zeta in E.
  assert (W : Ingest.Read (u_ih u) (wm_ (bufs_ n)) = zlen d) by (unfold Ingest.Read; by rewrite (up_mark _ _ _ _ U)).
  destruct (slot_bounds _ _ n I (up_slot _ _ _ _ U)) as (_ & Sa & _).
  assert (St : seal_stage lg now (u_loc u) (u_ih u) n = stage lg now (LocatorContentKey (u_loc u)) d SK_KV n).
  { unfold seal_stage, Ingest.GetSlot. cbn [pool Ingest.active_]. rewrite (up_slot _ _ _ _ U), W. cbn zeta. rewrite (proj2 (Z.ltb_lt _ _) D0).
    unfold slot_payload. cbn [Ingest.addr pool Ingest.pinned]. rewrite Sa, (up_bytes _ _ _ _ U). fold (u_addr u). by rewrite Nat2Z.id, (up_data _ _ _ _ U). }
  rewrite St, W in E. pose proof (stage_fine lg now (LocatorContentKey (u_loc u)) d SK_KV n I) as [In _].
  destruct (stage_fields lg now (LocatorContentKey (u_loc u)) d SK_KV n) as (Hh & Hn & Hb & Hp & _ & Ht).
  set (ns := stage _ _ _ _ _ _) in *. destruct (seal_index _ _ _ _ _ _) as [r p] eqn:Si. injection E as -> <-.
  destruct (seal_index_spec lg now _ path _ ns _ p In Pl Q Si) as (_ & X & _). destruct (X eq_refl) as (l & L1 & L2 & _).
  split; [|split; [done|split; [cbn; by rewrite Hh|split]]].
  - change (dram_at (tm_ ns) (LocatorContentKey (u_loc u)) = Some d). rewrite Ht.
    destruct (StageToDram _ _ _ _) as [ks tm] eqn:S2. by apply (StageToDram_at _ _ _ _ _ _ (n_tiers _ I) S2).
  - cbn. rewrite (proj1 (Release_fields _ _)). apply lookup_delete_eq.
  - by exists l.
Qed.

(** The whole chunks of a token sequence. *)
Definition whole (tokens : list Z) : Z := Z.of_nat (length tokens / Lpm.kChunkTokens).

Lemma length_Chunkify tokens : zlen (Lpm.Chunkify Blake3_128 tokens) = whole tokens.
Proof. unfold Lpm.Chunkify, whole. by rewrite Lpm.length_chunks. Qed.

Lemma whole_pos tokens : (Lpm.kChunkTokens <= length tokens)%nat -> 0 < whole tokens.
Proof. intros L. unfold whole. pose proof (Nat.div_str_pos (length tokens) Lpm.kChunkTokens ltac:(unfold Lpm.kChunkTokens in *; lia)). lia. Qed.

(** A lookup of exactly what was sealed. *)
Lemma Lookup_sealed th mh tokens n l lf :
  NodeInv n -> (Lpm.kChunkTokens <= length tokens)%nat -> zlen tokens < 2 ^ 32 ->
  Art.LookupByPath (Lpm.ChunkifyNS Blake3_128 tokens (Lpm.NamespaceFingerprint Blake3_128 th mh)) (art_ (px_ n)) = Some l ->
  heap_ (px_ n) !! l = Some lf -> refcount lf = 1 ->
  exists n2, Lookup Blake3_128 th mh tokens n =
    ((KV_OK, Some (mkLookup (leaf_locator lf) (next_handle_ n) (16 * whole tokens))), n2) /\
  handles_ n2 !! next_handle_ n = Some (ReadHandle (leaf_locator lf) l th mh) /\ tm_ n2 = tm_ n /\
  bytes_total <$> heap_ (px_ n2) !! l = Some (bytes_total lf).
Proof.
  intros I L16 L32 T El One. destruct (x_tree _ _ _ (l_index _ _ _ (n_leaves _ I))) as (m & Rep & _).
  pose proof Rep as (_ & _ & Lk & _). rewrite (Lk _ (ChunkifyNS_ok tokens th mh)) in T. pose proof (whole_pos tokens L16) as W0.
  assert (NE : Lpm.Chunkify Blake3_128 tokens <> []) by (intros E; pose proof (length_Chunkify tokens) as X; rewrite E in X; cbn in X; lia).
  destruct (Lpm.lookup_extends Blake3_128 Blake3_128_length (art_ (px_ n)) m tokens [] th mh l Rep) as (l' & Le & Mc & Mt & Ml);
    rewrite ?app_nil_r in *; try done.
  assert (Mw : Lpm.matched_chunks (Lpm.LongestPrefixMatchNS Blake3_128 (art_ (px_ n)) tokens th mh) = whole tokens)
    by (rewrite length_Chunkify in Mc; lia).
  rewrite Mw in *. rewrite take_ge in Ml by (pose proof (length_Chunkify tokens); lia).
  assert (l' = l) by (unfold Lpm.ChunkifyNS in T; congruence). subst l'.
  unfold Lookup. destruct tokens as [|t ts] eqn:Tk; [cbn in L16; unfold Lpm.kChunkTokens in L16; lia|]. rewrite <- Tk in *.
  rewrite Le, Mt, El. destruct (Z.eqb_spec (16 * whole tokens) 0) as [|_]; [lia|].
  unfold TryAcquireIfNonZero. rewrite One. cbn [Z.eqb]. eexists. split; [done|].
  cbn [set_px set_handles handles_ tm_ px_]. split; [by apply lookup_insert_eq|]. split; [done|].
  rewrite (set_ref_heap _ _ _ _ El). cbn [heap_]. by rewrite lookup_insert_eq.
Qed.

(** A fetch of what is in DRAM. *)
Lemma Fetch_dram lg now i h loc l th mh len d n :
  TierManager.Inv (tm_ n) -> handles_ n !! h = Some (ReadHandle loc l th mh) -> dram_at (tm_ n) (LocatorContentKey loc) = Some d ->
  zlen d <= len -> (Fetch lg now i (mkTransfer true true true) h (Some len) n).1 = (KV_OK, Some d).
Proof.
  intros T E D L. unfold Fetch. rewrite E. unfold TierManager.Fetch. destruct (LookupDram _ _) as [r tm] eqn:Lk.
  destruct (LookupDram_at _ _ _ _ T Lk) as (_ & _ & _ & _ & _ & Fd & Hit). rewrite D in *.
  destruct r as [wh [x|]]; destruct wh; try done; injection Hit as <-; rewrite (proj2 (Z.ltb_ge _ _) L); done.
Qed.

(** ** A state entry among other calls *)

(** The log has [d] for the key, and DRAM nothing else. *)
Definition Kept (k d : bytes) n : Prop :=
  (exists w, wal_ n = Some w /\ StateWal.Get k w = Some d) /\ (dram_at (tm_ n) k = None \/ dram_at (tm_ n) k = Some d).

Definition dram_shrinks (k : bytes) (tm tm' : Manager C) : Prop := dram_at tm' k = None \/ dram_at tm' k = dram_at tm k.

Lemma Kept_same k d n n' : Kept k d n -> wal_ n' = wal_ n -> dram_shrinks k (tm_ n) (tm_ n') -> Kept k d n'.
Proof. intros [W D] E [S|S]; (split; [by rewrite E|]); [by left|by rewrite S]. Qed.

Lemma StageToDram_shrinks k k' d' kind (tm : Manager C) :
  TierManager.Inv tm -> k' <> k -> dram_shrinks k tm (StageToDram k' d' kind tm).2.
Proof.
  intros T N. destruct (StageToDram k' d' kind tm) as [ks tm'] eqn:E. destruct (StageToDram_at _ _ _ _ _ _ T E) as (_ & _ & _ & _ & D & _).
  unfold dram_shrinks. cbn [snd]. rewrite D. case_bool_decide; [by left|]. rewrite bool_decide_false by congruence. by right.
Qed.

Lemma to_dram_shrinks k b k' d' (tm : Manager C) : TierManager.Inv tm -> k' <> k -> dram_shrinks k tm (to_dram b k' d' tm).2.
Proof. intros T N. unfold to_dram. destruct b; [by apply StageToDram_shrinks|by right]. Qed.

Lemma Fetch_shrinks k i k' (tm : Manager C) :
  TierManager.Inv tm -> Cold.key_ok k' -> k' <> k -> dram_shrinks k tm (TierManager.Fetch i k' tm).2.
Proof.
  intros T K N. unfold TierManager.Fetch. destruct (LookupDram k' tm) as [r tm1] eqn:L.
  destruct (LookupDram_at _ _ _ _ T L) as (T1 & _ & _ & _ & D1 & _ & _).
  set (below := match GetNvme _ _ _ with Some _ => _ | None => _ end).
  assert (B : dram_shrinks k tm1 below.2).
  { unfold below. destruct (GetNvme _ _ _) as [d|].
    - pose proof (to_dram_shrinks k (promote_nvme_to_dram (opts_ tm1)) k' d tm1 T1 N) as X. by destruct (to_dram _ _ _ _).
    - destruct (GetCold _ _ _) as [[d|] tm2] eqn:Gc; destruct (GetCold_at _ _ _ _ _ T1 K Gc) as (T2 & _ & D2 & _);
        [|right; unfold dram_at; cbn; by rewrite D2].
      destruct (to_nvme_at (promote_cold_to_nvme (opts_ tm2)) (nvme_put i) k' d tm2 T2) as (T3 & _ & D3 & _).
      set (tm3 := to_nvme _ _ _ _ _) in *. pose proof (to_dram_shrinks k (promote_cold_to_dram (opts_ tm3)) k' d tm3 T3 N) as X.
      destruct (to_dram _ _ _ _) as [ks tm4]. unfold dram_shrinks, dram_at in *. cbn [snd] in *. by rewrite D3, D2 in X. }
  unfold dram_shrinks in *. rewrite D1 in B. destruct r as [wh [d|]]; destruct wh; first [done | cbn [snd]; right; apply D1].
Qed.

Lemma Kept_stage k d lg now k' d' kind n : NodeInv n -> Kept k d n -> k' <> k \/ d' = d -> Kept k d (stage lg now k' d' kind n).
Proof.
  intros I K Or. destruct (stage_fields lg now k' d' kind n) as (_ & _ & _ & _ & Ew & Et).
  destruct (decide (k' = k)) as [->|N].
  - destruct Or as [ | -> ]; [done|]. split; [rewrite Ew; apply K|]. rewrite Et.
    destruct (StageToDram k d kind (tm_ n)) as [ks tm] eqn:E. destruct (StageToDram_at _ _ _ _ _ _ (n_tiers _ I) E) as (_ & _ & _ & _ & D & _).
    cbn [snd]. rewrite D. case_bool_decide; [by left|]. rewrite bool_decide_true by done. by right.
  - apply (Kept_same _ _ n); [done|done|]. rewrite Et. apply StageToDram_shrinks; [apply I|done].
Qed.

Lemma Kept_SealCommit k d lg now h loc ih path n :
  NodeInv n -> Kept k d n -> LocatorContentKey loc <> k -> Kept k d (SealCommit lg now h loc ih path n).2.
Proof.
  intros I K N. rewrite SealCommit_split. cbn zeta. set (n1 := seal_stage lg now loc ih n).
  assert (K1 : Kept k d n1).
  { unfold n1, seal_stage. destruct (Ingest.GetSlot _ _); [|done]. cbn zeta. destruct (0 <? _); [|done]. apply Kept_stage; auto. }
  destruct (seal_index _ _ _ _ _ _) as [r p]. cbn [snd]. apply (Kept_same _ _ n1); [done|done|by right].
Qed.

(** No call puts another entry under the key. *)
Definition spares (k : bytes) (c : call C) : Prop :=
  match c with CStatePut _ _ _ id _ => StateKeyFromIdentity id <> k | _ => True end.

Lemma Kept_frame k d c n :
  (forall loc, P loc -> LocatorContentKey loc <> k) -> NodeInv n -> spares k c -> Kept k d n -> Kept k d (apply Blake3_128 c n).
Proof.
  intros PK I Sp K. assert (Same : forall n', wal_ n' = wal_ n -> dram_ (tm_ n') = dram_ (tm_ n) -> Kept k d n').
  { intros n' E D. apply (Kept_same _ _ n); [done|done|]. right. unfold dram_at. by rewrite D. }
  destruct c; cbn [apply spares] in *.
  - unfold Lookup. destruct tokens; [done|]. set (r := Lpm.LongestPrefixMatchNS _ _ _ _ _). destruct (Lpm.leaf r) as [l|]; [|done].
    destruct (_ =? 0); [done|]. destruct (heap_ _ !! l) as [lf|]; [|done]. destruct (TryAcquireIfNonZero _); [|done]. by apply Same.
  - unfold Reserve. destruct (_ =? 0); [done|]. destruct (Ingest.Reserve _ _ _ _) as [ih p1]. destruct (_ =? _); [by apply Same|].
    destruct (Ingest.GetSlot _ _); [|by apply Same]. destruct (_ <? _); by apply Same.
  - by apply Same.
  - unfold Publish. destruct (handles_ n !! h) as [[]|]; done.
  - unfold Fetch. destruct (handles_ n !! h) as [s|] eqn:E; [|done]. destruct s as [|loc l th mh]; [done|].
    pose proof (n_loc _ I h _ E) as Pl. cbn [locator_of] in Pl.
    pose proof (Fetch_shrinks k i (LocatorContentKey loc) (tm_ n) (n_tiers _ I) (key_ok_locator _ Pl) (PK _ Pl)) as Sh.
    destruct (TierManager.Fetch _ _ _) as [[r ks] tm]. cbn [snd] in Sh.
    assert (K1 : Kept k d (set_tiers tm (on_evictions log_ok now ks (px_ n)) n)) by (by apply (Kept_same _ _ n)).
    destruct r as [[hit x0]|]; [|done]. destruct (match dst with Some _ => _ | None => _ end); [done|]. by destruct (_ || _).
  - unfold Seal. destruct (handles_ n !! h) as [s|] eqn:E; [|done]. destruct s as [loc ih th mh|]; [|done].
    destruct (_ <? _)%nat; [by apply Same|]. apply Kept_SealCommit; [done|done|]. apply PK, (n_loc _ I h _ E).
  - unfold SealByChunkPath. destruct (handles_ n !! h) as [s|] eqn:E; [|done]. destruct s as [loc ih th mh|]; [|done].
    apply Kept_SealCommit; [done|done|]. apply PK, (n_loc _ I h _ E).
  - unfold StatePut. destruct (wal_ n) as [w|] eqn:Ew; [|done]. destruct (StateWal.Append _ _ _ _ _) as [ok w1] eqn:A.
    assert (K1 : Kept k d (mkNode (handles_ n) (next_handle_ n) (tm_ n) (bufs_ n) (px_ n) (Some w1))).
    { destruct K as [(w' & E' & G) D]. split; [|done]. exists w1. split; [done|]. assert (w' = w) by congruence. subst w'.
      rewrite <- G. by apply (StateWal.Append_other io (StateKeyFromIdentity id) (identity_image id) d0 w ok). }
    destruct ok; [|done]. apply Kept_stage; [by apply NodeInv_wal|done|by left].
  - unfold StateGet. destruct (wal_ n) as [w|] eqn:Ew; [|done]. destruct (LookupDram _ _) as [r tm] eqn:L.
    pose proof (LookupDram_fine _ _ _ n I L) as [I1 _]. destruct (LookupDram_at _ _ _ _ (n_tiers _ I) L) as (_ & _ & _ & _ & D1 & _).
    assert (K1 : Kept k d (set_tiers tm (px_ n) n)) by (apply (Kept_same _ _ n); [done|done|right; apply D1]).
    assert (M : forall x, StateWal.Get (StateKeyFromIdentity id) w = Some x ->
      Kept k d (stage log_ok now (StateKeyFromIdentity id) x SK_MEMORY (set_tiers tm (px_ n) n))).
    { intros x G. apply Kept_stage; [done|done|]. destruct (decide (StateKeyFromIdentity id = k)) as [Ek|]; [|by left]. right.
      destruct K as [(w' & E' & G') _]. rewrite Ek in G. congruence. }
    destruct r as [wh [x|]]; destruct wh; try done; destruct (StateWal.Get _ _) eqn:G; try done; by apply M.
  - unfold Release. destruct (handles_ n !! h) as [s|]; [|done]. destruct s; [destruct (_ =? 0)|]; by apply Same.
  - by apply Same.
  - by apply Same.
Qed.

End Calls.

(** ** A node from its options *)

(** The sizes are 64-bit, the number of slots 32-bit, and the NVMe tier gets its device. *)
Definition options_ok (ne : Nvme.env) (o : Options) : Prop :=
  nvme_sane ne (nvme o) /\ 0 <= Ingest.pool_bytes (pinned o) < 2 ^ 64 /\ 0 <= Ingest.o_slot_bytes (pinned o) /\
  Ingest.pool_bytes (pinned o) / Ingest.o_slot_bytes (pinned o) < 2 ^ 32.

Lemma Create_pinned mmap ne ce o C mk s0 :
  TierManager.Create mmap ne ce o = Some (existT C mk) -> mmap = true /\ Ingest.Create true (pinned o) = Some (pinned_ (mk s0)).
Proof.
  unfold TierManager.Create. destruct (Ingest.Create mmap (pinned o)) as [p|] eqn:E; [|done]. cbn [mbind option_bind].
  assert (M : mmap = true).
  { unfold Ingest.Create in E. destruct (_ || _ || _); [done|]. destruct (negb (_ mod _ =? 0)); [done|]. by destruct mmap. }
  subst mmap. destruct (if enable_nvme o then _ else _) as [nv|]; [|done]. cbn [mbind option_bind].
  intros X. split; [done|]. rewrite E. f_equal. symmetry. revert s0.
  change (match Some (existT C mk) with Some s => forall s0, pinned_ (projT2 s s0) = p | None => True end). rewrite <- X.
  destruct (enable_cold o); [|done]. by destruct (Cold.CreateColdTier ce (cold o)).
Qed.

Lemma boot_inv mmap ne ce o C mk s0 memory wal P :
  TierManager.Create mmap ne ce o = Some (existT C mk) -> options_ok ne o -> zlen memory = Ingest.pool_bytes (pinned o) ->
  NodeInv P (Ingest.pool_bytes (pinned o)) (Init (mk s0) memory wal).
Proof.
  intros Cr (Nv & Pb & Sb & Ct) M. pose proof (Create_Inv mmap ne ce o Nv) as X. rewrite Cr in X. destruct (X s0) as (T & _).
  destruct (Create_pinned _ _ _ _ _ _ s0 Cr) as [-> Cp]. destruct (Ingest.Create_inv _ _ Cp ltac:(lia) Sb Ct) as (PI & Es & S0 & Tot).
  constructor; cbn [Init tm_ handles_ next_handle_ bufs_ px_ memory_ wm_ next_ingest_]; try done.
  - constructor; [exact PI| |done|done|done|done]. unfold geometry. cbn. rewrite Es. lia.
  - constructor; [|done]. constructor; cbn; try done; [|by intros ? [? ?]].
    exists ∅. split; [apply Art.represents_empty|done].
Qed.

(** The upload a handle stands for. *)
Definition upload_of {C} (h : Z) (n : Node C) : option upload :=
  match handles_ n !! h with
  | Some (IngestHandle loc ih th mh) =>
      (fun e => mkUpload h loc ih th mh e (Ingest.slot_bytes_ (pinned_ (tm_ n)))) <$> active_ (bufs_ n) !! ih
  | _ => None
  end.

Section Booted.
Context (Blake3_128 : bytes -> bytes) (mmap : bool) (ne : Nvme.env) (ce : Cold.env) (o : Options) {C : Cold.IColdTier} `{CL : !Cold.Laws C}.
Context (mk : Cold.St C -> Manager C) (s0 : Cold.St C) (memory : bytes) (wal : option StateWal.Wal).
Hypothesis Blake3_128_length : forall b, length (Blake3_128 b) = 16%nat.
Hypothesis created : TierManager.Create mmap ne ce o = Some (existT C mk).
Hypothesis sane : options_ok ne o.
Hypothesis mapped : zlen memory = Ingest.pool_bytes (pinned o).

Notation boot := (Init (mk s0) memory wal).
Notation Reach P := (reach Blake3_128 P boot).

Lemma Reach_inv P n : (forall loc, P loc -> locator_ok loc) -> Reach P n -> NodeInv P (Ingest.pool_bytes (pinned o)) n.
Proof. intros Ok R. by eapply (reach_inv Blake3_128); [| | |apply R]; [| |eapply boot_inv]. Qed.

(** [C13] In every state a node reaches by calls of its clients and iterations of its
    sweepers, whatever fails: each slot of the pinned pool is free or owned by exactly one
    open ingest handle, so that no exit path of the calls leaks a slot; and each indexed
    leaf is counted exactly, one for the tree and one per open read handle, or else was
    claimed by the evictor while nobody read it. *)
Theorem node_invariant n :
  Reach locator_ok n ->
  Ingest.free_stack_ (pinned_ (tm_ n)) ++ fields Ingest.e_slot (active_ (bufs_ n)) ≡ₚ seqZ 0 (Ingest.slot_count_ (pinned_ (tm_ n))) /\
  (forall ih e, active_ (bufs_ n) !! ih = Some e -> exists h s, handles_ n !! h = Some s /\ ingest_of s = Some ih /\
     forall h' s', handles_ n !! h' = Some s' -> ingest_of s' = Some ih -> h' = h) /\
  (forall q l, Art.path_ok q -> Art.LookupByPath q (art_ (px_ n)) = Some l -> exists lf, heap_ (px_ n) !! l = Some lf /\
     (refcount lf = 1 + readers (handles_ n) l \/ refcount lf = 0 /\ readers (handles_ n) l = 0)).
Proof.
  intros R. pose proof (Reach_inv locator_ok n (fun _ L => L) R) as I. pose proof (n_slots _ _ _ I) as S.
  split; [exact (Ingest.p_slots _ (s_pool _ _ _ S))|]. split.
  - intros ih e A. destruct (s_owner _ _ _ S ih e A) as (h & s & E & X). exists h, s. split; [done|]. split; [done|].
    intros h' s' E' X'. by apply (s_distinct _ _ _ S h' h s' s ih).
  - intros q l Q L. pose proof (l_index _ _ _ (n_leaves _ _ _ I)) as Ix. destruct (Ix_lookup _ _ _ _ _ Ix Q L) as [lf El].
    exists lf. split; [done|]. destruct (x_refs _ _ _ Ix l lf El) as [[X|X] _]; auto.
Qed.

(** [C14] A leaf that a client holds cannot be evicted under it: as long as a read handle
    is open on an indexed leaf, every call and every sweep leaves the leaf in the tree
    under its path, unless the call itself seals a new leaf there; in any case the leaf
    keeps its locator and its size, so the handle stays usable. *)
Theorem reader_keeps_leaf n c q l lf :
  Reach locator_ok n -> room n -> call_ok locator_ok c n -> Art.path_ok q ->
  Art.LookupByPath q (art_ (px_ n)) = Some l -> heap_ (px_ n) !! l = Some lf -> 0 < readers (handles_ n) l ->
  let n' := apply Blake3_128 c n in
  (sealed Blake3_128 c n <> Some q -> Art.LookupByPath q (art_ (px_ n')) = Some l) /\
  exists lf', heap_ (px_ n') !! l = Some lf' /\ leaf_locator lf' = leaf_locator lf /\ bytes_total lf' = bytes_total lf.
Proof.
  intros R B Ok Q L El Rd n'. pose proof (Reach_inv locator_ok n (fun _ X => X) R) as I.
  destruct (apply_fine Blake3_128 Blake3_128_length locator_ok (Ingest.pool_bytes (pinned o)) (fun _ X => X) c n I B Ok) as [_ [Hh Ht]].
  split; [|by apply Hh]. intros N. apply Ht; auto.
Qed.

(** An upload that is sealed, among the calls of others. *)
Lemma upload_sealed n0 now loc b th mh h slot n1 u n2 d n3 n4 tokens lg now' n5 :
  Reach locator_ok n0 -> room n0 -> locator_ok loc ->
  Reserve now loc b th mh n0 = ((KV_OK, Some (h, slot)), n1) -> upload_of h n1 = Some u ->
  others Blake3_128 locator_ok u n1 n2 ->
  0 < zlen d <= Ingest.s_bytes slot ->
  others Blake3_128 locator_ok u (EngineWrite (Ingest.addr slot) d n2) n3 ->
  others Blake3_128 locator_ok u (Publish h (zlen d) n3).2 n4 ->
  (Lpm.kChunkTokens <= length tokens)%nat -> zlen tokens < 2 ^ 32 -> dram_at (tm_ n4) (LocatorContentKey loc) = None ->
  Seal Blake3_128 lg now' h tokens n4 = (KV_OK, n5) ->
  let path := Lpm.ChunkifyNS Blake3_128 tokens (Lpm.NamespaceFingerprint Blake3_128 th mh) in
  NodeInv locator_ok (Ingest.pool_bytes (pinned o)) n5 /\ dram_at (tm_ n5) (LocatorContentKey loc) = Some d /\
  handles_ n5 !! h = None /\ active_ (bufs_ n5) !! u_ih u = None /\ SealCommit lg now' h loc (u_ih u) path n4 = (KV_OK, n5) /\
  exists l, Art.LookupByPath path (art_ (px_ n5)) = Some l /\ heap_ (px_ n5) !! l = Some (mkLeaf loc DRAM_BIT (zlen d) 1).
Proof.
  intros R B Lo Rs Uo O2 Ld O3 O4 L16 L32 Ab Se. set (tot := Ingest.pool_bytes (pinned o)).
  pose proof (Reach_inv locator_ok n0 (fun _ X => X) R) as I0.
  destruct (Reserve_upload locator_ok tot now loc b th mh n0 h slot n1 I0 B Lo Rs) as (ih & e & I1 & U1 & Ea & _).
  assert (u = mkUpload h loc ih th mh e (Ingest.s_bytes slot)) as ->.
  { pose proof (up_handle _ _ _ _ U1 : handles_ n1 !! h = Some (IngestHandle loc ih th mh)) as Hh. unfold upload_of in Uo. rewrite Hh in Uo.
    rewrite (up_slot _ _ _ _ U1 : active_ (bufs_ n1) !! ih = Some e) in Uo. injection Uo as <-. by rewrite (up_bytes _ _ _ _ U1). }
  set (u := mkUpload h loc ih th mh e (Ingest.s_bytes slot)) in *.
  destruct (Upload_others Blake3_128 Blake3_128_length locator_ok tot (fun _ X => X) u 0 [] n1 n2 I1 U1 O2) as [I2 U2].
  rewrite Ea in O3.
  destruct (Upload_own_write locator_ok tot u 0 [] d n2 I2 U2 ltac:(cbn [u u_bytes]; lia)) as [I3 U3].
  destruct (Upload_others Blake3_128 Blake3_128_length locator_ok tot (fun _ X => X) u 0 d _ n3 I3 U3 O3) as [I3' U3'].
  destruct (Upload_own_publish locator_ok tot u 0 d (zlen d) n3 I3' U3') as (n3p & Pe & I3p & U3p). cbn [u u_handle] in Pe. rewrite Pe in O4. cbn [snd] in O4.
  rewrite Z.max_r in U3p by lia.
  destruct (Upload_others Blake3_128 Blake3_128_length locator_ok tot (fun _ X => X) u (zlen d) d _ n4 I3p U3p O4) as [I4 U4].
  unfold Seal in Se. rewrite (up_handle _ _ _ _ U4 : handles_ n4 !! h = Some (IngestHandle loc ih th mh)) in Se.
  rewrite (proj2 (Nat.ltb_ge _ _) L16) in Se.
  destruct (SealCommit_stored locator_ok tot u d lg now' _ n4 n5 I4 U4 ltac:(lia) (ChunkifyNS_ok Blake3_128 Blake3_128_length tokens th mh) Ab Se)
    as (I5 & D5 & _ & H5 & A5 & L5). cbn [u u_loc u_handle] in *.
  split; [done|]. split; [done|]. split; [rewrite H5; apply lookup_delete_eq|]. by split.
Qed.

(** The upload of the theorem below; the data service uses it too. *)
Lemma upload_roundtrip n0 now loc b th mh h slot n1 u n2 d n3 n4 tokens lg now' n5 :
  Reach locator_ok n0 -> room n0 -> locator_ok loc ->
  Reserve now loc b th mh n0 = ((KV_OK, Some (h, slot)), n1) -> upload_of h n1 = Some u ->
  others Blake3_128 locator_ok u n1 n2 ->
  0 < zlen d <= Ingest.s_bytes slot ->
  others Blake3_128 locator_ok u (EngineWrite (Ingest.addr slot) d n2) n3 ->
  others Blake3_128 locator_ok u (Publish h (zlen d) n3).2 n4 ->
  (Lpm.kChunkTokens <= length tokens)%nat -> zlen tokens < 2 ^ 32 -> dram_at (tm_ n4) (LocatorContentKey loc) = None ->
  Seal Blake3_128 lg now' h tokens n4 = (KV_OK, n5) ->
  handles_ n5 !! h = None /\ active_ (bufs_ n5) !! u_ih u = None /\
  exists hr n6, Lookup Blake3_128 th mh tokens n5 = ((KV_OK, Some (mkLookup loc hr (16 * whole tokens))), n6) /\
    HandleStoredBytes hr n6 = (KV_OK, zlen d) /\
    forall lg i now len, zlen d <= len -> (Fetch lg now i (mkTransfer true true true) hr (Some len) n6).1 = (KV_OK, Some d).
Proof.
  intros R B Lo Rs Uo O2 Ld O3 O4 L16 L32 Ab Se.
  destruct (upload_sealed _ _ _ _ _ _ _ _ _ _ _ _ _ _ _ _ _ _ R B Lo Rs Uo O2 Ld O3 O4 L16 L32 Ab Se) as (I5 & D5 & H5 & A5 & _ & l & T5 & El).
  split; [done|]. split; [done|].
  destruct (Lookup_sealed Blake3_128 Blake3_128_length locator_ok (Ingest.pool_bytes (pinned o)) th mh tokens n5 l _ I5 L16 L32 T5 El eq_refl) as (n6 & Lk & Hr & Tm & Bt).
  exists (next_handle_ n5), n6. split; [exact Lk|]. split.
  - unfold HandleStoredBytes. rewrite Hr, Bt. done.
  - intros lg' i now2 len Le. eapply Fetch_dram; [| exact Hr| |done]; rewrite Tm; [apply I5|exact D5].
Qed.

(** An upload, end to end and among the calls of others: a client reserves a slot,
    fills it, publishes its length and seals it under a token sequence, while other
    clients look up, upload, fetch, seal, put state and release in between, in any order
    and with any failures, as long as they use their own handles and slots and the
    upload's lease has not run out. If the seal succeeds and the key was not in DRAM, then
    the slot and the handle are given back, a lookup of the same tokens in the same
    namespace matches all their whole chunks, with the client's locator, and a fetch
    through it delivers exactly the bytes the client wrote. *)
Theorem upload_then_fetch n0 now loc b th mh h slot n1 u n2 d n3 n4 tokens lg now' n5 :
  Reach locator_ok n0 -> room n0 -> locator_ok loc ->
  Reserve now loc b th mh n0 = ((KV_OK, Some (h, slot)), n1) -> upload_of h n1 = Some u ->
  others Blake3_128 locator_ok u n1 n2 ->
  0 < zlen d <= Ingest.s_bytes slot ->
  others Blake3_128 locator_ok u (EngineWrite (Ingest.addr slot) d n2) n3 ->
  others Blake3_128 locator_ok u (Publish h (zlen d) n3).2 n4 ->
  (Lpm.kChunkTokens <= length tokens)%nat -> zlen tokens < 2 ^ 32 -> dram_at (tm_ n4) (LocatorContentKey loc) = None ->
  Seal Blake3_128 lg now' h tokens n4 = (KV_OK, n5) ->
  handles_ n5 !! h = None /\ active_ (bufs_ n5) !! u_ih u = None /\
  exists hr n6, Lookup Blake3_128 th mh tokens n5 = ((KV_OK, Some (mkLookup loc hr (16 * whole tokens))), n6) /\
    HandleStoredBytes hr n6 = (KV_OK, zlen d) /\
    forall lg i now len, zlen d <= len -> (Fetch lg now i (mkTransfer true true true) hr (Some len) n6).1 = (KV_OK, Some d).
Proof. apply upload_roundtrip. Qed.

(** What the node reaches by calls that put no other entry under the key. *)
Inductive sparing (P : kv_locator_t -> Prop) (k : bytes) (n0 : Node C) : Node C -> Prop :=
| sparing_none : sparing P k n0 n0
| sparing_call n c : sparing P k n0 n -> room n -> call_ok P c n -> spares k c -> sparing P k n0 (apply Blake3_128 c n).

(** Locators whose tier key is not [k]. *)
Definition away (k : bytes) (loc : kv_locator_t) : Prop := locator_ok loc /\ LocatorContentKey loc <> k.

(** [C15] A state entry survives whatever happens to its copy in DRAM: once [StatePut]
    has returned success, [StateGet] returns the payload after any sequence of other
    calls, with evictions, failed appends and promotions, as long as nobody puts another
    entry under the identity's key and no locator in use shares it. *)
Theorem state_put_get id d n lg now io n1 n2 lg' now' :
  Reach (away (StateKeyFromIdentity id)) n -> StatePut lg now io id d n = (KV_OK, n1) ->
  sparing (away (StateKeyFromIdentity id)) (StateKeyFromIdentity id) n1 n2 ->
  (StateGet lg' now' id n2).1 = (KV_OK, d).
Proof.
  set (k := StateKeyFromIdentity id). intros R E S. assert (PO : forall loc, away k loc -> locator_ok loc) by (by intros loc []).
  pose proof (Reach_inv _ n PO R) as I. pose proof (proj1 (StatePut_fine (away k) _ lg now io id d n I)) as I1. rewrite E in I1.
  assert (K1 : Kept k d n1).
  { unfold StatePut in E. destruct (wal_ n) as [w|]; [|done]. destruct (StateWal.Append _ _ _ _ _) as [ok w1] eqn:A. destruct ok; [|done].
    injection E as <-. destruct (stage_fields lg now k d SK_MEMORY (mkNode (handles_ n) (next_handle_ n) (tm_ n) (bufs_ n) (px_ n) (Some w1)))
      as (_ & _ & _ & _ & Ew & Et). fold k in A |- *. split; [rewrite Ew; exists w1; split; [done|by eapply StateWal.Append_stored]|]. rewrite Et. cbn [tm_].
    destruct (StageToDram k d SK_MEMORY (tm_ n)) as [ks tm] eqn:Sg. destruct (StageToDram_at _ _ _ _ _ _ (n_tiers _ _ _ I) Sg) as (_ & _ & _ & _ & D & _).
    cbn [snd]. rewrite D. case_bool_decide; [by left|]. rewrite bool_decide_true by done. by right. }
  assert (X : NodeInv (away k) (Ingest.pool_bytes (pinned o)) n2 /\ Kept k d n2).
  { induction S as [|n' c _ [I' K'] B Ok Sp]; [done|]. split.
    - by apply (apply_fine Blake3_128 Blake3_128_length (away k) (Ingest.pool_bytes (pinned o)) PO c n').
    - apply (Kept_frame Blake3_128 (away k) (Ingest.pool_bytes (pinned o)) PO); [|done|done|done]. by intros loc []. }
  destruct X as [I2 [(w & Ew & G) D2]]. unfold StateGet. rewrite Ew. fold k. destruct (LookupDram k (tm_ n2)) as [r tm] eqn:L.
  destruct (LookupDram_at _ _ _ _ (n_tiers _ _ _ I2) L) as (_ & _ & _ & _ & _ & _ & Hit). rewrite G.
  destruct r as [wh [x|]]; destruct wh; try done; destruct D2 as [D2|D2]; rewrite D2 in Hit; cbn [fst]; congruence.
Qed.

End Booted.

(** ** Witnesses *)

Definition w_memory : bytes := replicate 8 x00.
Definition w_wal : StateWal.Wal := StateWal.mkWal [] ∅.
Definition w_boot : Node w_C := Init (w_new (∅ : Cold.Files)) w_memory (Some w_wal).
Definition yes : art_log := fun _ => true.

Lemma w_options_ok : options_ok Nvme.w_env w_options.
Proof. split; [exact TierManager.w_sane|]. vm_compute. repeat split; congruence. Qed.

Definition run (cs : list (call w_C)) (n : Node w_C) : Node w_C := fold_left (fun n c => apply Lpm.pad16 c n) cs n.

Lemma fst_eq {A B} (p : A * B) a : p.1 = a -> p = (a, p.2).
Proof. by destruct p as [x y]; intros <-. Qed.

(** An upload of one slot by the tenant of [loc], with the handle [h] and the slot at [a]. *)
Definition upload_calls (loc : kv_locator_t) (th h a : Z) (d : bytes) : list (call w_C) :=
  [CReserve 0 loc 4 th 7; CWrite a d; CPublish h (zlen d); CSeal yes 0 h Lpm.tokens16].

(** The locator of another tenant with the same tier key. *)
Definition w_locator2 : kv_locator_t := MakeLocator (replicate 16 x0c) 7 (replicate 16 x0d) (mkRange 0 32 0 8 0 4096).

(** One tenant uploads [01], another, with a locator of its own and in its own namespace,
    uploads [02]: the first tenant's lookup finds its own leaf and fetches [02]. *)
Example cross_tenant_overwrite :
  let n := run (upload_calls w_locator 1 1 0 [x01] ++ upload_calls w_locator2 2 2 0 [x02]) w_boot in
  let '(r, n') := Lookup Lpm.pad16 1 7 Lpm.tokens16 n in
  r = (KV_OK, Some (mkLookup w_locator 3 16)) /\
  (Fetch yes 0 w_io (mkTransfer true true true) 3 (Some 4) n').1 = (KV_OK, Some [x02]).
Proof. vm_compute. split; reflexivity. Qed.

(** An upload, a lookup, and the path of the upload. *)
Definition w_calls : list (call w_C) := upload_calls w_locator 1 1 0 [x01] ++ [CLookup 1 7 Lpm.tokens16].
Definition w_path : list bytes := Lpm.ChunkifyNS Lpm.pad16 Lpm.tokens16 (Lpm.NamespaceFingerprint Lpm.pad16 1 7).
Definition w_held : Node w_C := run w_calls w_boot.

Lemma w_locator_ok : locator_ok w_locator.
Proof. by repeat split. Qed.

Lemma w_room n : size (handles_ n) = 0%nat \/ size (handles_ n) = 1%nat -> next_ingest_ (bufs_ n) < 3 -> @room w_C n.
Proof. intros S N. unfold room. lia. Qed.

Lemma w_reach : reach Lpm.pad16 locator_ok w_boot w_held.
Proof.
  unfold w_held, w_calls, upload_calls, run. cbn [app fold_left].
  repeat apply reach_call; try (apply w_room; [vm_compute; auto|vm_compute; reflexivity]).
  all: cbn [call_ok]; try exact I; try exact w_locator_ok.
  - constructor.
  - exists 1, (Ingest.mkSlot 0 4). split; [vm_compute; reflexivity|]. cbn. lia.
Qed.

Lemma node_invariant_witness :
  exists lf, heap_ (px_ w_held) !! 0%nat = Some lf /\ refcount lf = 2 /\
    (refcount lf = 1 + readers (handles_ w_held) 0 \/ refcount lf = 0 /\ readers (handles_ w_held) 0 = 0).
Proof.
  destruct (node_invariant Lpm.pad16 true Nvme.w_env w_cenv w_options (CL := w_laws) w_new (∅ : Cold.Files) w_memory (Some w_wal)
    Lpm.pad16_length w_create w_options_ok eq_refl w_held w_reach) as (_ & _ & L).
  destruct (L w_path 0%nat) as (lf & El & Rc); [by repeat constructor|vm_compute; reflexivity|].
  exists lf. split; [done|]. split; [|done]. vm_compute in El. by injection El as <-.
Defined.

Lemma reader_keeps_leaf_witness :
  Art.LookupByPath w_path (art_ (px_ (apply Lpm.pad16 (CSweeper yes 0) w_held))) = Some 0%nat.
Proof.
  destruct (heap_ (px_ w_held) !! 0%nat) as [lf|] eqn:El; [|exfalso; vm_compute in El; discriminate].
  apply (reader_keeps_leaf Lpm.pad16 true Nvme.w_env w_cenv w_options (CL := w_laws) w_new (∅ : Cold.Files) w_memory (Some w_wal)
    Lpm.pad16_length w_create w_options_ok eq_refl w_held (CSweeper yes 0) w_path 0%nat lf w_reach).
  - apply w_room; [vm_compute; auto|vm_compute; reflexivity].
  - exact I.
  - by repeat constructor.
  - vm_compute. reflexivity.
  - exact El.
  - vm_compute. reflexivity.
  - discriminate.
Defined.

(** Another client looks up between the steps. *)
Definition w1 : Node w_C := (Reserve 0 w_locator 4 1 7 w_boot).2.
Definition w2 : Node w_C := apply Lpm.pad16 (CLookup 2 7 Lpm.tokens16) w1.
Definition w3 : Node w_C := EngineWrite 0 [x01] w2.
Definition w4 : Node w_C := (Publish 1 1 w3).2.
Definition w_upload : upload := mkUpload 1 w_locator 1 1 7 (Ingest.mkEntry 0 300) 4.

Lemma upload_then_fetch_witness :
  exists hr n6, Lookup Lpm.pad16 1 7 Lpm.tokens16 (Seal Lpm.pad16 yes 0 1 Lpm.tokens16 w4).2 = ((KV_OK, Some (mkLookup w_locator hr 16)), n6) /\
    (Fetch yes 0 w_io (mkTransfer true true true) hr (Some 4) n6).1 = (KV_OK, Some [x01]).
Proof.
  destruct (upload_then_fetch Lpm.pad16 true Nvme.w_env w_cenv w_options (CL := w_laws) w_new (∅ : Cold.Files) w_memory (Some w_wal)
    Lpm.pad16_length w_create w_options_ok eq_refl w_boot 0 w_locator 4 1 7 1 (Ingest.mkSlot 0 4) w1 w_upload w2 [x01] w3 w4 Lpm.tokens16 yes 0
    (Seal Lpm.pad16 yes 0 1 Lpm.tokens16 w4).2) as (_ & _ & hr & n6 & L & _ & F).
  - constructor.
  - apply w_room; [vm_compute; auto|vm_compute; reflexivity].
  - exact w_locator_ok.
  - apply fst_eq. vm_compute. reflexivity.
  - vm_compute. reflexivity.
  - apply others_call; [constructor| |exact I|exact I]. apply w_room; [vm_compute; auto|vm_compute; reflexivity].
  - cbn. lia.
  - constructor.
  - constructor.
  - vm_compute. lia.
  - vm_compute. reflexivity.
  - vm_compute. reflexivity.
  - apply fst_eq. vm_compute. reflexivity.
  - exists hr, n6. split; [exact L|]. apply F. cbn. lia.
Defined.

Definition w_identity : StateIdentity := mkIdentity 2 SK_MEMORY 0 5 (replicate 32 x07) 0 (replicate 40 x00).
Definition w_put : Node w_C := (StatePut yes 0 (StateWal.mkIo (Some 158%nat) true) w_identity [x09] w_boot).2.

Lemma state_put_get_witness : (StateGet yes 0 w_identity (apply Lpm.pad16 (CLookup 1 7 Lpm.tokens16) w_put)).1 = (KV_OK, [x09]).
Proof.
  apply (state_put_get Lpm.pad16 true Nvme.w_env w_cenv w_options (CL := w_laws) w_new (∅ : Cold.Files) w_memory (Some w_wal)
    Lpm.pad16_length w_create w_options_ok eq_refl w_identity [x09] w_boot yes 0 (StateWal.mkIo (Some 158%nat) true) w_put).
  - constructor.
  - apply fst_eq. vm_compute. reflexivity.
  - apply sparing_call; [constructor| |exact I|exact I]. apply w_room; [vm_compute; auto|vm_compute; reflexivity].
Defined.

(** The log refuses the removal of a leaf that was already claimed: the leaf stays in the
    tree, where neither a lookup nor the evictor can ever take it again. *)
Example failed_removal_strands :
  let p := px_ (run (upload_calls w_locator 1 1 0 [x01]) w_boot) in
  let p1 := (TryEvictNow (fun _ => false) 0 w_path p).2 in
  Art.LookupByPath w_path (art_ p1) = Some 0%nat /\ refcount <$> heap_ p1 !! 0%nat = Some 0 /\
  (TryEvictNow yes 0 w_path p1).1 = false /\
  (Lookup Lpm.pad16 1 7 Lpm.tokens16 (set_px p1 w_boot)).1 = (KV_E_NOT_FOUND, None).
Proof. vm_compute. repeat split; reflexivity. Qed.

End NodeCorrect.
