(* ===== verification/Access.v ===== *)
(** * Access decisions and the audit queue

    [Rbac] of security/rbac.cpp, the permission check with its decision cache, and
    [AuditLog] of security/audit.cpp, the bounded queue behind the audit stream.

    [Check] takes the cache's mutex twice, to look and to store, and evaluates in
    between; the two halves are steps of their own, so that checks of several threads
    interleave. The theorems: a decision is what the rules give for the request itself or
    gave for an earlier one with the same subject, action and tenant, not older than the
    time to live ([rbac_bounded_staleness]); the audit queue delivers the records it
    accepted, in order, and counts what it drops ([audit_fifo]). *)

From S2P Require Import Prelude Mtls Quota.
From Stdlib Require Import ZArith Lia.

Open Scope Z_scope.

Module Access.

Import Mtls.

(** ** Rbac *)

Inductive Action := kLookup | kReserve | kPublish | kFetch | kSeal | kRelease | kAdminRead | kAdminWrite | kClusterAdmin.
Inductive Decision := kAllow | kDeny.

#[global] Instance Action_eq_dec : EqDecision Action.
Proof. solve_decision. Defined.

Definition action_code (a : Action) : nat :=
  match a with
  | kLookup => 1 | kReserve => 2 | kPublish => 3 | kFetch => 4 | kSeal => 5 | kRelease => 6
  | kAdminRead => 7 | kAdminWrite => 8 | kClusterAdmin => 9
  end.
Definition action_of (n : nat) : Action :=
  match n with
  | 1 => kLookup | 2 => kReserve | 3 => kPublish | 4 => kFetch | 5 => kSeal | 6 => kRelease
  | 7 => kAdminRead | 8 => kAdminWrite | _ => kClusterAdmin
  end%nat.

#[global] Instance Action_countable : Countable Action := inj_countable' action_code action_of ltac:(by intros []).

Definition is_data_op (a : Action) : bool :=
  match a with kLookup | kReserve | kPublish | kFetch | kSeal | kRelease => true | _ => false end.

(** Steps 3 to 5 of the check. *)
Definition in_scope (peer : Identity) (target_tenant : Z) : bool :=
  match kind peer with kTenant => target_tenant =? Quota.TenantHash (tenant_id peer) | _ => true end.
Definition blocked (a : Action) (deletion_pending : bool) : bool :=
  deletion_pending && match a with kReserve | kPublish | kSeal => true | _ => false end.

Definition Evaluate (peer : Identity) (a : Action) (target_tenant : Z) (deletion_pending : bool) : Decision :=
  match kind peer with
  | kUnknown => kDeny
  | k =>
      let eligible :=
        if is_data_op a then match k with kTenant | kInternal => true | _ => false end
        else match k with kAdmin => true | _ => false end in
      if negb eligible then kDeny
      else if negb (in_scope peer target_tenant) then kDeny
      else if blocked a deletion_pending then kDeny
      else kAllow
  end.

Definition CacheKey : Type := bytes * Action * Z.
Record CacheEntry := mkEntry { decision : Decision; expiry : Z }.

Record Rbac := mkRbac { cache_ : gmap CacheKey CacheEntry; ttl_ : Z; cache_hits_ : Z; cache_misses_ : Z; denials_ : Z }.

Definition new_rbac (ttl : Z) : Rbac := mkRbac ∅ ttl 0 0 0.

Record request := mkRequest { peer : Identity; action : Action; target_tenant : Z; deletion_pending : bool; at_ : Z }.

Definition key_of (q : request) : CacheKey := (id_cn (peer q), action q, target_tenant q).
Definition evaluate (q : request) : Decision := Evaluate (peer q) (action q) (target_tenant q) (deletion_pending q).

(** The first critical section. *)
Definition check_probe (q : request) (r : Rbac) : option Decision * Rbac :=
  match cache_ r !! key_of q with
  | Some e =>
      if at_ q <? expiry e
      then (Some (decision e), mkRbac (cache_ r) (ttl_ r) (cache_hits_ r + 1) (cache_misses_ r) (denials_ r))
      else (None, r)
  | None => (None, r)
  end.

(** The evaluation and the second critical section. *)
Definition check_store (q : request) (r : Rbac) : Decision * Rbac :=
  let d := evaluate q in
  (d, mkRbac (<[key_of q := mkEntry d (at_ q + ttl_ r)]> (cache_ r)) (ttl_ r) (cache_hits_ r) (cache_misses_ r + 1)
        (denials_ r + match d with kDeny => 1 | kAllow => 0 end)).

Definition Check (q : request) (r : Rbac) : Decision * Rbac :=
  match check_probe q r with
  | (Some d, r') => (d, r')
  | (None, r') => check_store q r'
  end.

(** What the rules allow: data-plane actions to internal components, and to tenants on
    their own tenant, unless they write to a tenant that is being deleted;
    administrative actions to administrators. *)
Lemma Evaluate_iff p a t pend :
  Evaluate p a t pend = kAllow <->
  if is_data_op a
  then (kind p = kInternal \/ kind p = kTenant /\ t = Quota.TenantHash (tenant_id p)) /\ blocked a pend = false
  else kind p = kAdmin.
Proof.
  unfold Evaluate, in_scope. destruct (kind p); destruct (is_data_op a) eqn:Da; cbn [negb]; try (split; [done|]);
    try (by intros [[?|[? ?]] ?]); try done.
  - destruct (Z.eqb_spec t (Quota.TenantHash (tenant_id p))) as [->|N]; cbn [negb].
    + destruct (blocked a pend); split; try done; [by intros [_ ?]|by auto].
    + split; [done|]. by intros [[?|[_ ?]] _].
  - destruct (blocked a pend); split; try done; [by intros [_ ?]|by auto].
  - assert (blocked a pend = false) as -> by (by destruct a, pend). done.
Qed.

(** ** Interleaved checks *)

(** A thread looks a request up, and stores its decision later. *)
Inductive act := Probe (t : nat) (q : request) | Store (t : nat).

Record World := mkWorld { rbac : Rbac; running : gmap nat request }.

(** What a step answers, and to which request. *)
Definition step (a : act) (w : World) : option (request * Decision) * World :=
  match a with
  | Probe t q =>
      match running w !! t with
      | Some _ => (None, w)
      | None =>
          match check_probe q (rbac w) with
          | (Some d, r) => (Some (q, d), mkWorld r (running w))
          | (None, r) => (None, mkWorld r (<[t := q]> (running w)))
          end
      end
  | Store t =>
      match running w !! t with
      | None => (None, w)
      | Some q => let '(d, r) := check_store q (rbac w) in (Some (q, d), mkWorld r (delete t (running w)))
      end
  end.

(** The requests probed so far, with the answers given. *)
Fixpoint run (acts : list act) (w : World) : list (request * Decision) * World :=
  match acts with
  | [] => ([], w)
  | a :: r => let '(x, w1) := step a w in let '(l, w2) := run r w1 in (option_list x ++ l, w2)
  end.

Definition probed (a : act) : list request := match a with Probe _ q => [q] | Store _ => [] end.

(** [q'] is a request of [h] that justifies answering [d] to [q] from the cache. *)
Definition justifies (ttl : Z) (h : list request) (q : request) (d : Decision) : Prop :=
  exists q', q' ∈ h /\ key_of q' = key_of q /\ d = evaluate q' /\ (q' = q \/ at_ q < at_ q' + ttl).

Record Inv (ttl : Z) (h : list request) (w : World) : Prop := {
  i_ttl : ttl_ (rbac w) = ttl;
  i_cache : forall k e, cache_ (rbac w) !! k = Some e ->
    exists q', q' ∈ h /\ key_of q' = k /\ decision e = evaluate q' /\ expiry e = at_ q' + ttl;
  i_running : forall t q, running w !! t = Some q -> q ∈ h }.

Lemma Inv_more ttl h h' w : Inv ttl h w -> (forall q, q ∈ h -> q ∈ h') -> Inv ttl h' w.
Proof.
  intros [T Ca Ru] S. constructor; [done| |eauto]. intros k e E. destruct (Ca k e E) as (q' & X & Y). exists q'. auto.
Qed.

Lemma step_justified ttl h a w x w' :
  Inv ttl h w -> step a w = (x, w') ->
  Inv ttl (h ++ probed a) w' /\ forall q d, x = Some (q, d) -> justifies ttl (h ++ probed a) q d.
Proof.
  intros I. assert (I' : Inv ttl (h ++ probed a) w) by (apply (Inv_more _ h); [done|]; intros q ?; apply elem_of_app; by left).
  destruct a as [t q|t]; cbn [step probed] in *.
  - destruct (running w !! t) as [q0|] eqn:R; [by intros [= <- <-]|]. unfold check_probe.
    assert (Q : q ∈ h ++ [q]) by (apply elem_of_app; right; by apply list_elem_of_singleton).
    assert (Miss : forall w', w' = mkWorld (rbac w) (<[t := q]> (running w)) -> Inv ttl (h ++ [q]) w').
    { intros ? ->. destruct I' as [T Ca Ru]. constructor; [done|done|]. intros t' q'. cbn [running]. rewrite lookup_insert_Some.
      intros [[_ <-]|[_ X]]; [done|by apply (Ru t')]. }
    destruct (cache_ (rbac w) !! key_of q) as [e|] eqn:E; [|intros [= <- <-]; split; [by apply Miss|done]].
    destruct (Z.ltb_spec (at_ q) (expiry e)) as [L|]; intros [= <- <-]; [|split; [by apply Miss|done]]. split.
    + by destruct I'.
    + intros q1 d1 [= <- <-]. destruct (i_cache _ _ _ I' _ _ E) as (q' & A & B & D & F). exists q'. rewrite F in L. auto 6.
  - destruct (running w !! t) as [q|] eqn:R; [|by intros [= <- <-]]. unfold check_store. intros [= <- <-].
    pose proof (i_running _ _ _ I' t q R) as Q. destruct I' as [T Ca Ru]. split.
    + constructor; cbn [rbac running ttl_ cache_]; [done| |].
      * intros k e. rewrite lookup_insert_Some. intros [[<- <-]|[_ X]]; [|by apply Ca]. exists q. cbn. by rewrite T.
      * intros t' q' X. apply lookup_delete_Some in X as [_ X]. by apply (Ru t').
    + intros q1 d1 [= <- <-]. exists q. auto 6.
Qed.

Lemma run_justified ttl acts : forall h w l w',
  Inv ttl h w -> run acts w = (l, w') -> forall q d, (q, d) ∈ l -> justifies ttl (h ++ mbind probed acts) q d.
Proof.
  induction acts as [|a acts IH]; intros h w l w' I; cbn [run].
  { intros [= <- _] q d X. by apply elem_of_nil in X. }
  destruct (step a w) as [x w1] eqn:S. destruct (run acts w1) as [l1 w2] eqn:R. intros [= <- _] q d X.
  destruct (step_justified ttl h a w x w1 I S) as [I1 J].
  assert (E : h ++ mbind probed (a :: acts) = (h ++ probed a) ++ mbind probed acts) by (cbn; by rewrite app_assoc). rewrite E.
  apply elem_of_app in X as [X|X]; [|by apply (IH _ w1 l1 w2)].
  destruct x as [[q0 d0]|]; [|by apply elem_of_nil in X]. apply list_elem_of_singleton in X. injection X as -> ->.
  destruct (J q0 d0 eq_refl) as (q' & A & B). exists q'. split; [|done]. apply elem_of_app. by left.
Qed.

(** [C36] However the checks of several threads interleave, a decision is the one the
    rules give for the request itself, or the one they gave for another request for the
    same subject, action and tenant that was made less than the time to live before it.
    So a decision outlives a change of the rules' inputs by at most the time to live, and
    where the inputs do not change every decision is the rules' own. *)
Theorem rbac_bounded_staleness ttl acts answers w :
  run acts (mkWorld (new_rbac ttl) ∅) = (answers, w) ->
  (forall q d, (q, d) ∈ answers -> d = evaluate q \/
     exists q', q' ∈ mbind probed acts /\ key_of q' = key_of q /\ d = evaluate q' /\ at_ q < at_ q' + ttl) /\
  ((forall q q', q ∈ mbind probed acts -> q' ∈ mbind probed acts -> key_of q = key_of q' ->
      kind (peer q) = kind (peer q') /\ tenant_id (peer q) = tenant_id (peer q') /\ deletion_pending q = deletion_pending q') ->
   forall q d, (q, d) ∈ answers -> q ∈ mbind probed acts -> d = evaluate q).
Proof.
  intros R. assert (J : forall q d, (q, d) ∈ answers -> justifies ttl (mbind probed acts) q d).
  { apply (run_justified ttl acts [] (mkWorld (new_rbac ttl) ∅) answers w); [|done]. by constructor. }
  split.
  - intros q d X. destruct (J q d X) as (q' & A & B & D & [->|L]); [by left|]. right. by exists q'.
  - intros Fix q d X Q. destruct (J q d X) as (q' & A & B & D & _). destruct (Fix q' q A Q B) as (K & T & P).
    subst d. unfold evaluate, Evaluate, in_scope. injection B as _ -> ->. by rewrite K, T, P.
Qed.

Definition alice : Identity := mkIdentity kTenant (str "alice") (str "acme") [] [].
Definition own : Z := Quota.TenantHash (str "acme").
Definition w_acts : list act :=
  [Probe 0 (mkRequest alice kSeal own false 0); Probe 1 (mkRequest alice kSeal own true 5); Store 1; Store 0; Probe 2 (mkRequest alice kSeal own true 900)].

(** The decision from before the deletion started is stored last and answers. *)
Lemma rbac_bounded_staleness_witness :
  (run w_acts (mkWorld (new_rbac 1000) ∅)).1 =
    [(mkRequest alice kSeal own true 5, kDeny); (mkRequest alice kSeal own false 0, kAllow); (mkRequest alice kSeal own true 900, kAllow)] /\
  (kAllow = evaluate (mkRequest alice kSeal own true 900) \/
   exists q', q' ∈ mbind probed w_acts /\ key_of q' = key_of (mkRequest alice kSeal own true 900) /\ kAllow = evaluate q' /\ 900 < at_ q' + 1000).
Proof.
  destruct (run w_acts (mkWorld (new_rbac 1000) ∅)) as [answers w] eqn:R.
  assert (E : answers = [(mkRequest alice kSeal own true 5, kDeny); (mkRequest alice kSeal own false 0, kAllow); (mkRequest alice kSeal own true 900, kAllow)]).
  { change answers with ((answers, w).1). rewrite <- R. vm_compute. reflexivity. }
  split; [exact E|]. refine (proj1 (rbac_bounded_staleness 1000 w_acts answers w R) (mkRequest alice kSeal own true 900) kAllow _).
  rewrite E. do 2 (apply elem_of_cons; right). apply elem_of_cons. by left.
Defined.

(** The cache does not look at the kind of the peer: an administrator whose name a tenant
    also carries is denied the tenant's own data after a denial of the administrator. *)
Example cache_confuses_kinds :
  let admin := mkIdentity kAdmin (str "alice") [] [] [] in
  let '(d1, r1) := Check (mkRequest admin kLookup own false 0) (new_rbac 1000) in
  let '(d2, _) := Check (mkRequest alice kLookup own false 1) r1 in
  d1 = kDeny /\ d2 = kDeny /\ evaluate (mkRequest alice kLookup own false 1) = kAllow.
Proof. vm_compute. repeat split; reflexivity. Qed.

(** ** AuditLog *)

Record AuditRecord := mkRecord {
  r_at : Z; r_kind : IdentityKind; r_cn : bytes; r_action : Action; r_decision : Decision; r_tenant_hash : Z; r_message : bytes }.

Record AuditLog := mkAudit { buffer_ : list AuditRecord; head_ : nat; tail_ : nat; size_ : nat; dropped_ : Z; delivered_ : Z }.

(** [buffer_(opts.ring_capacity)]. *)
Definition no_record : AuditRecord := mkRecord 0 kUnknown [] kLookup kAllow 0 [].
Definition new_audit (ring_capacity : nat) : AuditLog := mkAudit (replicate ring_capacity no_record) 0 0 0 0 0.

Definition Append (rec : AuditRecord) (l : AuditLog) : bool * AuditLog :=
  if (size_ l =? length (buffer_ l))%nat
  then (false, mkAudit (buffer_ l) (head_ l) (tail_ l) (size_ l) (dropped_ l + 1) (delivered_ l))
  else (true, mkAudit (<[tail_ l := rec]> (buffer_ l)) (head_ l) ((tail_ l + 1) mod length (buffer_ l)) (S (size_ l))
                (dropped_ l) (delivered_ l)).

(** One round of the inner loop of [DrainLoop]; the consumer gets the record. *)
Definition drain_one (l : AuditLog) : option AuditRecord * AuditLog :=
  match size_ l with
  | O => (None, l)
  | S n => (buffer_ l !! head_ l,
            mkAudit (buffer_ l) ((head_ l + 1) mod length (buffer_ l)) (tail_ l) n (dropped_ l) (delivered_ l + 1))
  end.

(** What is queued, oldest first. *)
Definition queued (l : AuditLog) : list (option AuditRecord) :=
  (fun i => buffer_ l !! ((head_ l + i) mod length (buffer_ l))%nat) <$> seq 0 (size_ l).

Record QueueInv (l : AuditLog) : Prop := {
  q_size : (size_ l <= length (buffer_ l))%nat;
  q_head : (0 < length (buffer_ l))%nat -> (head_ l < length (buffer_ l))%nat;
  q_tail : (0 < length (buffer_ l))%nat -> tail_ l = ((head_ l + size_ l) mod length (buffer_ l))%nat }.

Lemma mod_distinct c h i j : (i < j < c)%nat -> ((h + i) mod c)%nat <> ((h + j) mod c)%nat.
Proof.
  intros L E. pose proof (Nat.div_mod (h + i) c ltac:(lia)) as A. pose proof (Nat.div_mod (h + j) c ltac:(lia)) as B.
  rewrite E in A. assert (c * ((h + j) / c - (h + i) / c) = j - i)%nat as D by (rewrite Nat.mul_sub_distr_l; lia).
  destruct ((h + j) / c - (h + i) / c)%nat; [lia|nia].
Qed.

Lemma Append_queued rec l :
  QueueInv l -> let '(ok, l') := Append rec l in
  QueueInv l' /\ queued l' = queued l ++ (if ok then [Some rec] else []) /\
  dropped_ l' = dropped_ l + (if ok then 0 else 1) /\ delivered_ l' = delivered_ l /\ (ok = false -> size_ l = length (buffer_ l)).
Proof.
  intros [Qs Qh Qt]. unfold Append. destruct (Nat.eqb_spec (size_ l) (length (buffer_ l))) as [F|F].
  { split; [done|]. split; [by rewrite app_nil_r|]. done. }
  assert (Tl : (tail_ l < length (buffer_ l))%nat) by (rewrite Qt by lia; apply Nat.mod_upper_bound; lia).
  split; [|split; [|cbn; lia]].
  - constructor; cbn [size_ head_ tail_ buffer_]; rewrite ?length_insert; [lia| |].
    + intros _. apply Qh. lia.
    + intros _. rewrite (Qt ltac:(lia)), Nat.Div0.add_mod_idemp_l. f_equal. lia.
  - unfold queued. cbn [size_ head_ buffer_]. rewrite length_insert, seq_S, fmap_app. f_equal.
    + apply list_fmap_ext. intros i x X. apply lookup_seq in X as [-> X]. cbn. apply list_lookup_insert_ne.
      rewrite (Qt ltac:(lia)). apply not_eq_sym, mod_distinct. lia.
    + cbn. rewrite <- (Qt ltac:(lia)). by rewrite list_lookup_insert_eq.
Qed.

Lemma drain_queued l :
  QueueInv l -> let '(r, l') := drain_one l in
  QueueInv l' /\ dropped_ l' = dropped_ l /\
  match size_ l with
  | O => r = None /\ l' = l
  | S _ => is_Some r /\ queued l = r :: queued l' /\ delivered_ l' = delivered_ l + 1
  end.
Proof.
  intros I. pose proof I as [Qs Qh Qt]. unfold drain_one. destruct (size_ l) as [|n] eqn:S; [done|].
  assert (C : (0 < length (buffer_ l))%nat) by lia. split; [|split; [done|split; [|split; [|done]]]].
  - constructor; cbn [size_ head_ tail_ buffer_]; [lia|intros _; apply Nat.mod_upper_bound; lia|].
    intros _. rewrite (Qt C), Nat.Div0.add_mod_idemp_l. f_equal. lia.
  - apply lookup_lt_is_Some. by apply Qh.
  - unfold queued. rewrite S. cbn [size_ head_ buffer_ seq]. rewrite fmap_cons. f_equal.
    + rewrite Nat.add_0_r, Nat.mod_small by (by apply Qh). done.
    + rewrite <- fmap_S_seq, <- list_fmap_compose. apply list_fmap_ext. intros i x _. cbn.
      rewrite Nat.Div0.add_mod_idemp_l. do 2 f_equal. lia.
Qed.

(** Appends of the hot path and rounds of the drainer, in any order: the records
    accepted, those refused, those delivered. *)
Inductive audit_op := OAppend (rec : AuditRecord) | ODrain.

Fixpoint audit_run (ops : list audit_op) (l : AuditLog) : list AuditRecord * list AuditRecord * list AuditRecord * AuditLog :=
  match ops with
  | [] => ([], [], [], l)
  | OAppend rec :: r =>
      let '(ok, l1) := Append rec l in
      let '(a, x, d, l2) := audit_run r l1 in
      if ok then (rec :: a, x, d, l2) else (a, rec :: x, d, l2)
  | ODrain :: r =>
      let '(o, l1) := drain_one l in
      let '(a, x, d, l2) := audit_run r l1 in (a, x, option_list o ++ d, l2)
  end.

Lemma audit_run_queued ops : forall l a x d l',
  QueueInv l -> audit_run ops l = (a, x, d, l') ->
  QueueInv l' /\ queued l ++ (Some <$> a) = (Some <$> d) ++ queued l' /\
  dropped_ l' = dropped_ l + zlen x /\ delivered_ l' = delivered_ l + zlen d.
Proof.
  induction ops as [|[rec|] ops IH]; intros l a x d l' I; cbn [audit_run].
  - intros [= <- <- <- <-]. split; [done|]. split; [by rewrite app_nil_r|]. cbn. lia.
  - pose proof (Append_queued rec l I) as A. destruct (Append rec l) as [ok l1]. destruct A as (I1 & Q1 & D1 & V1 & _).
    destruct (audit_run ops l1) as [[[a1 x1] d1] l2] eqn:R. destruct (IH l1 a1 x1 d1 l2 I1 R) as (I2 & Q2 & D2 & V2).
    destruct ok; intros [= <- <- <- <-]; rewrite Q1 in Q2; (split; [done|]); (split; [|cbn [length]; lia]).
    + by rewrite fmap_cons, <- Q2, <- app_assoc.
    + by rewrite <- Q2, app_nil_r.
  - pose proof (drain_queued l I) as A. destruct (drain_one l) as [o l1]. destruct A as (I1 & D1 & A).
    destruct (audit_run ops l1) as [[[a1 x1] d1] l2] eqn:R. destruct (IH l1 a1 x1 d1 l2 I1 R) as (I2 & Q2 & D2 & V2).
    intros [= <- <- <- <-]. split; [done|]. destruct (size_ l) as [|n].
    + destruct A as [-> ->]. change (option_list (@None AuditRecord) ++ d1) with d1. split; [done|]. lia.
    + destruct A as ([rec ->] & Q1 & V1). change (option_list (Some rec)) with [rec]. rewrite Q1. cbn [app fmap list_fmap length].
      split; [by f_equal|]. lia.
Qed.

Lemma audit_run_length ops : forall l, length (buffer_ (audit_run ops l).2) = length (buffer_ l).
Proof.
  induction ops as [|[rec|] ops IH]; intros l; cbn [audit_run]; [done| |].
  - pose proof (IH (Append rec l).2) as Y. assert (E : length (buffer_ (Append rec l).2) = length (buffer_ l))
      by (unfold Append; destruct (_ =? _)%nat; cbn; rewrite ?length_insert; done).
    destruct (Append rec l) as [ok l1]. cbn [snd] in *. destruct (audit_run ops l1) as [[[a1 x1] d1] l2]. destruct ok; cbn in *; congruence.
  - pose proof (IH (drain_one l).2) as Y. assert (E : length (buffer_ (drain_one l).2) = length (buffer_ l))
      by (unfold drain_one; by destruct (size_ l)).
    destruct (drain_one l) as [o l1]. cbn [snd] in *. destruct (audit_run ops l1) as [[[a1 x1] d1] l2]. cbn in *. congruence.
Qed.

(** The audit queue, with appends and rounds of the drainer in any order: the
    records delivered to the consumer followed by those still queued are exactly the
    records accepted, in the order in which they were appended; the counters are the
    numbers of records refused and delivered; and a record is refused only when the
    queue is full. *)
Theorem audit_fifo capacity ops accepted refused delivered l :
  audit_run ops (new_audit capacity) = (accepted, refused, delivered, l) ->
  (Some <$> accepted = (Some <$> delivered) ++ queued l) /\
  dropped_ l = zlen refused /\ delivered_ l = zlen delivered /\ (size_ l <= capacity)%nat /\
  (forall rec, (Append rec l).1 = false <-> size_ l = capacity).
Proof.
  intros R. assert (I0 : QueueInv (new_audit capacity)).
  { constructor; cbn [size_ head_ tail_ buffer_ new_audit]; rewrite length_replicate; [lia|lia|]. intros C. by rewrite Nat.mod_small by lia. }
  destruct (audit_run_queued ops _ _ _ _ _ I0 R) as (I & Q & D & V). cbn [dropped_ delivered_ new_audit] in *.
  assert (Len : length (buffer_ l) = capacity).
  { pose proof (audit_run_length ops (new_audit capacity)) as Y. rewrite R in Y. cbn in Y. by rewrite length_replicate in Y. }
  split; [exact Q|]. split; [lia|]. split; [lia|]. pose proof (q_size _ I) as Qs. split; [lia|].
  intros rec. unfold Append. rewrite Len. by destruct (Nat.eqb_spec (size_ l) capacity).
Qed.

Definition rec_a : AuditRecord := mkRecord 1 kTenant (str "a") kSeal kAllow 7 [].
Definition rec_b : AuditRecord := mkRecord 2 kTenant (str "b") kSeal kDeny 7 [].

Lemma audit_fifo_witness :
  exists l, audit_run [OAppend rec_a; OAppend rec_b; ODrain] (new_audit 1) = ([rec_a], [rec_b], [rec_a], l) /\ dropped_ l = 1.
Proof.
  eexists. split; [reflexivity|].
  exact (proj1 (proj2 (audit_fifo 1 [OAppend rec_a; OAppend rec_b; ODrain] [rec_a] [rec_b] [rec_a] _ eq_refl))).
Defined.

End Access.
