(* ===== verification/Membership.v ===== *)
(** * Membership and draining of a node

    [MembershipFsm] of cluster/membership_fsm.cpp, the five-state machine that gives a
    node its traffic weight, and [DrainGate] with its watcher of cluster/drain_gate.cpp.
    Time is the value of the steady clock at each call; etcd is the values it answers and
    the events it delivers.

    The theorems: the callbacks of a machine spell a legal path from JOINING to its
    state, so nothing leaves TERMINATED and a node that drained serves again only after
    it lost its lease and rejoined ([fsm_history]); the gate follows the node's own marker
    as long as no other key extends the watched one ([gate_follows_marker]), which the
    keys of the nodes do not guarantee ([drain_of_another_node]). *)

From S2P Require Import Prelude Mtls.
From Stdlib Require Import ZArith QArith Lia.

Open Scope Z_scope.

Module Membership.

Import Mtls.

(** ** MembershipFsm *)

Inductive NodeState := Joining | Active | Draining | Unreachable | Terminated.
Inductive TransitionResult := kOk | kIllegalTransition | kAlreadyInState.

#[global] Instance NodeState_eq_dec : EqDecision NodeState.
Proof. solve_decision. Defined.

Record Fsm := mkFsm { state_ : NodeState; joined_at_ : Z; warmup_ : Z }.

Definition new_fsm (now warmup : Z) : Fsm := mkFsm Joining now warmup.

Definition InWarmup (now : Z) (f : Fsm) : bool :=
  match state_ f with Joining => now <? joined_at_ f + warmup_ f | _ => false end.

Definition TrafficWeight (f : Fsm) : Q :=
  match state_ f with Joining => 1 # 10 | Active => 1 | Draining | Unreachable | Terminated => 0 end.

Definition IsLegal (from to : NodeState) : bool :=
  if bool_decide (from = to) then false
  else
    match from with
    | Joining => bool_decide (to = Active) || bool_decide (to = Unreachable)
    | Active => bool_decide (to = Draining) || bool_decide (to = Unreachable)
    | Draining => bool_decide (to = Unreachable) || bool_decide (to = Terminated)
    | Unreachable => bool_decide (to = Joining) || bool_decide (to = Terminated)
    | Terminated => false
    end.

(** The result, the arguments of the callback if it is called, and the machine. *)
Definition TransitionTo (now : Z) (target : NodeState) (f : Fsm) : TransitionResult * option (NodeState * NodeState) * Fsm :=
  let prev := state_ f in
  if bool_decide (prev = target) then (kAlreadyInState, None, f)
  else if negb (IsLegal prev target) then (kIllegalTransition, None, f)
  else (kOk, Some (prev, target), mkFsm target (if bool_decide (target = Joining) then now else joined_at_ f) (warmup_ f)).

Definition Start (now : Z) (f : Fsm) : TransitionResult * Fsm :=
  if bool_decide (state_ f = Joining) then (kAlreadyInState, mkFsm (state_ f) now (warmup_ f)) else (kIllegalTransition, f).

Definition Activate (now : Z) := TransitionTo now Active.
Definition Drain (now : Z) := TransitionTo now Draining.
Definition LeaseLost (now : Z) := TransitionTo now Unreachable.
Definition LeaseRecovered (now : Z) := TransitionTo now Joining.
Definition Terminate (now : Z) := TransitionTo now Terminated.

Inductive trigger := TStart | TActivate | TDrain | TLeaseLost | TLeaseRecovered | TTerminate.

Definition fire (now : Z) (t : trigger) (f : Fsm) : TransitionResult * option (NodeState * NodeState) * Fsm :=
  match t with
  | TStart => let '(r, f') := Start now f in (r, None, f')
  | TActivate => Activate now f
  | TDrain => Drain now f
  | TLeaseLost => LeaseLost now f
  | TLeaseRecovered => LeaseRecovered now f
  | TTerminate => Terminate now f
  end.

(** The callbacks of a sequence of triggers. *)
Fixpoint run (ts : list (Z * trigger)) (f : Fsm) : list (NodeState * NodeState) * Fsm :=
  match ts with
  | [] => ([], f)
  | (now, t) :: r => let '(_, cb, f1) := fire now t f in let '(l, f2) := run r f1 in (option_list cb ++ l, f2)
  end.

(** The callbacks are a path of legal transitions. *)
Fixpoint path (from : NodeState) (l : list (NodeState * NodeState)) (to : NodeState) : Prop :=
  match l with
  | [] => from = to
  | (a, b) :: r => a = from /\ IsLegal a b = true /\ path b r to
  end.

Lemma fire_path now t f r cb f' : fire now t f = (r, cb, f') -> path (state_ f) (option_list cb) (state_ f').
Proof.
  assert (X : forall target, TransitionTo now target f = (r, cb, f') -> path (state_ f) (option_list cb) (state_ f')).
  { intros target. unfold TransitionTo. case_bool_decide; [intros [= <- <- <-]; exact eq_refl|].
    destruct (IsLegal (state_ f) target) eqn:L; cbn [negb]; intros [= <- <- <-]; [|exact eq_refl].
    change (option_list (Some (state_ f, target))) with [(state_ f, target)]. by cbn [path state_]. }
  destruct t; cbn [fire]; try apply X. unfold Start. case_bool_decide; intros [= <- <- <-]; exact eq_refl.
Qed.

Lemma path_app a l1 b l2 c : path a l1 b -> path b l2 c -> path a (l1 ++ l2) c.
Proof.
  revert a. induction l1 as [|[x y] l1 IH]; intros a; cbn [path app]; [by intros ->|]. intros (-> & L & P) Q. auto.
Qed.

Lemma run_path ts : forall f l f', run ts f = (l, f') -> path (state_ f) l (state_ f').
Proof.
  induction ts as [|[now t] ts IH]; intros f l f'; cbn [run]; [by intros [= <- <-]|].
  destruct (fire now t f) as [[r cb] f1] eqn:F. destruct (run ts f1) as [l1 f2] eqn:R. intros [= <- <-].
  apply (path_app _ _ (state_ f1)); [by eapply fire_path|by apply IH].
Qed.

(** On a legal path, what leads to serving after draining. *)
Lemma path_terminated l s : path Terminated l s -> l = [] /\ s = Terminated.
Proof. destruct l as [|[a b] l]; cbn [path]; [done|]. intros (-> & L & _). by destruct b. Qed.

Lemma path_serves_again l : forall s from,
  path from l s -> from = Draining \/ from = Unreachable -> s = Active \/ s = Joining -> (Unreachable, Joining) ∈ l.
Proof.
  induction l as [|[a b] l IH]; intros s from; cbn [path]; [intros -> [->| ->] [?|?]; done|].
  intros (-> & L & P) F S.
  assert (N : b = Draining \/ b = Unreachable \/ b = Joining /\ from = Unreachable \/ b = Terminated)
    by (destruct F as [->| ->]; destruct b; try done; auto).
  destruct N as [N|[N|[[-> ->]| ->]]].
  - apply elem_of_cons. right. by apply (IH s b); auto.
  - apply elem_of_cons. right. by apply (IH s b); auto.
  - apply elem_of_cons. by left.
  - destruct (path_terminated _ _ P) as [_ ->]. by destruct S.
Qed.

(** Whatever triggers a machine gets and whenever, its callbacks report a path of
    legal transitions from JOINING to its state. Hence a terminated node never changes
    again, and a node that started to drain, or lost its lease, has a traffic weight
    other than zero only after it lost its lease and rejoined. *)
Theorem fsm_history ts now warmup l f :
  run ts (new_fsm now warmup) = (l, f) ->
  path Joining l (state_ f) /\
  (state_ f = Terminated -> forall now' t, (fire now' t f).2 = f /\ (fire now' t f).1.2 = None) /\
  (forall l1 x l2, l = l1 ++ (x, Draining) :: l2 \/ l = l1 ++ (x, Unreachable) :: l2 ->
     ~ (TrafficWeight f == 0)%Q -> (Unreachable, Joining) ∈ l2).
Proof.
  intros R. pose proof (run_path _ _ _ _ R) as P. cbn [new_fsm state_] in P. split; [done|]. split.
  - intros T now' t. destruct t; cbn [fire]; unfold Start, Activate, Drain, LeaseLost, LeaseRecovered, Terminate, TransitionTo; by rewrite T.
  - assert (Split : forall l1 from l2, path from (l1 ++ l2) (state_ f) -> exists mid, path from l1 mid /\ path mid l2 (state_ f)).
    { induction l1 as [|[a b] l1 IH]; intros from l2; cbn [app path]; [eauto|]. intros (-> & L & Q). destruct (IH b l2 Q) as (mid & ? & ?). eauto. }
    assert (Serves : ~ (TrafficWeight f == 0)%Q -> state_ f = Active \/ state_ f = Joining)
      by (unfold TrafficWeight; destruct (state_ f); auto; intros N; by destruct N).
    intros l1 x l2 [-> | ->] W; destruct (Split _ _ _ P) as (mid & _ & (_ & _ & Q)); eapply path_serves_again; eauto.
Qed.

Lemma fsm_history_witness :
  exists l f, run [(1, TActivate); (2, TDrain); (3, TLeaseLost); (4, TLeaseRecovered)] (new_fsm 0 300) = (l, f) /\
    path Joining l (state_ f) /\ TrafficWeight f = 1 # 10.
Proof.
  do 2 eexists. split; [reflexivity|]. split; [|reflexivity].
  exact (proj1 (fsm_history [(1, TActivate); (2, TDrain); (3, TLeaseLost); (4, TLeaseRecovered)] 0 300 _ _ eq_refl)).
Defined.

(** ** DrainGate *)

(** [DrainKeyFor]. *)
Definition DrainKeyFor (cluster node_id : bytes) : bytes := str "/kvcache/drain/" ++ cluster ++ [x2f] ++ node_id.

Inductive WatchEventType := kPut | kDelete.
Record WatchEvent := mkWatch { ev_type : WatchEventType; ev_key : bytes }.

(** The watcher's callback. *)
Definition on_event (ev : WatchEvent) (gate : bool) : bool := match ev_type ev with kPut => true | kDelete => false end.

(** [DrainWatcher::Start]: what [Get] answers is an error or the presence of the key. *)
Definition watch_start (got : option bool) (gate : bool) : bool * bool :=
  match got with None => (false, gate) | Some present => (true, present) end.

(** etcd delivers the events of the keys with the watched prefix, in order. *)
Definition delivered (key : bytes) (evs : list WatchEvent) : list WatchEvent :=
  filter (fun ev => key `prefix_of` ev_key ev) evs.
Definition watch (key : bytes) (evs : list WatchEvent) (gate : bool) : bool :=
  fold_left (fun g ev => on_event ev g) (delivered key evs) gate.

(** Whether the marker of a node is there, after a sequence of changes of etcd. *)
Definition marked (key : bytes) (evs : list WatchEvent) (present : bool) : bool :=
  fold_left (fun p ev => if bool_decide (ev_key ev = key) then match ev_type ev with kPut => true | kDelete => false end else p) evs present.

(** If no other key that changes extends the node's own, the gate is closed exactly while
    the node's marker is there. *)
Theorem gate_follows_marker key evs present :
  (forall ev, ev ∈ evs -> key `prefix_of` ev_key ev -> ev_key ev = key) ->
  watch key evs present = marked key evs present.
Proof.
  unfold watch, marked, delivered. revert present. induction evs as [|ev evs IH]; intros present H; [done|].
  cbn [fold_left]. rewrite filter_cons. destruct (decide (key `prefix_of` ev_key ev)) as [Pf|N].
  - cbn [fold_left]. rewrite bool_decide_true by (apply H; [by left|done]). apply IH. intros e E. apply H. by right.
  - rewrite bool_decide_false by (intros E; apply N; by rewrite E). apply IH. intros e E. apply H. by right.
Qed.

(** The marker of node-10 closes the gate of node-1. *)
Example drain_of_another_node :
  let put := mkWatch kPut (DrainKeyFor (str "c") (str "node-10")) in
  watch (DrainKeyFor (str "c") (str "node-1")) [put] false = true /\ marked (DrainKeyFor (str "c") (str "node-1")) [put] false = false.
Proof. vm_compute. split; reflexivity. Qed.

End Membership.
