(* ===== verification/Etcd.v ===== *)
(** * The coordination store and its clients

    cluster/etcd_client.cpp and cluster/http_etcd_client.cpp. [InMemoryEtcdClient] keeps
    keys with revisions and leases and queues an event for every watcher of a changed
    key; a dispatcher delivers them one at a time. Each call, each delivery and each
    round of the lease sweeper holds the mutex and is one step; time is an argument, in
    milliseconds. The
    order in which a hash map is iterated is that of [elements]; no theorem depends on it.
    The revision and the two counters are not wrapped at 64 bits.

    The clients of a real etcd send the same operations over HTTP or gRPC. Of them the
    parts that compute are here: the end of a prefix range, base64, the diff of the
    polling watcher, and the request that [GrpcEtcdClient] sends to keep a lease alive. *)

From S2P Require Import Prelude Mtls.
From Stdlib Require Import ZArith Lia.
From stdpp Require Import sorting.

Open Scope Z_scope.

Module Etcd.

#[local] Notation str := Mtls.str.

Definition kNoLease : Z := 0.

Record KeyValue := mkKV { key : bytes; value : bytes; mod_revision : Z; create_revision : Z; lease : Z }.
Definition no_kv : KeyValue := mkKV [] [] 0 0 kNoLease.

Inductive WatchEventType := kPut | kDelete.
Record WatchEvent := mkEvent { type : WatchEventType; kv : KeyValue; prev_kv : KeyValue }.

Record Lease := mkLease { ttl_seconds : Z; deadline : Z }.

Record Client := mkClient {
  revision_ : Z; kvs_ : gmap bytes KeyValue; leases_ : gmap Z Lease; watchers_ : gmap Z bytes;
  next_lease_ : Z; next_watch_ : Z; dispatch_q_ : list (Z * WatchEvent) }.

Definition new_client : Client := mkClient 0 ∅ ∅ ∅ 1 1 [].

Definition set_kvs (r : Z) (m : gmap bytes KeyValue) (c : Client) : Client :=
  mkClient r m (leases_ c) (watchers_ c) (next_lease_ c) (next_watch_ c) (dispatch_q_ c).
Definition set_leases (l : gmap Z Lease) (c : Client) : Client :=
  mkClient (revision_ c) (kvs_ c) l (watchers_ c) (next_lease_ c) (next_watch_ c) (dispatch_q_ c).

(** [key.rfind(prefix, 0) == 0]. *)
Definition has_prefix (p k : bytes) : bool := bool_decide (p `prefix_of` k).

(** The watchers of a key. *)
Definition watching (k : bytes) (w : gmap Z bytes) : list Z :=
  elements (dom (filter (fun e => has_prefix e.2 k = true) w)).

Definition NotifyLocked (ev : WatchEvent) (c : Client) : Client :=
  mkClient (revision_ c) (kvs_ c) (leases_ c) (watchers_ c) (next_lease_ c) (next_watch_ c)
    (dispatch_q_ c ++ ((fun id => (id, ev)) <$> watching (key (kv ev)) (watchers_ c))).

(** One round of [DispatchLoop]: the delivery, if the watcher is still there. *)
Definition Dispatch (c : Client) : option (Z * WatchEvent) * Client :=
  match dispatch_q_ c with
  | [] => (None, c)
  | (h, ev) :: q =>
      let c1 := mkClient (revision_ c) (kvs_ c) (leases_ c) (watchers_ c) (next_lease_ c) (next_watch_ c) q in
      (match watchers_ c !! h with None => None | Some _ => Some (h, ev) end, c1)
  end.

(** ** Keys *)

Definition Put (k v : bytes) (l : Z) (c : Client) : option Z * Client :=
  if negb (l =? kNoLease) && bool_decide (leases_ c !! l = None) then (None, c)
  else
    let rev := revision_ c + 1 in
    let prev := kvs_ c !! k in
    let cur := mkKV k v rev (match prev with Some p => create_revision p | None => rev end) l in
    (Some rev, NotifyLocked (mkEvent kPut cur (default no_kv prev)) (set_kvs rev (<[k := cur]> (kvs_ c)) c)).

Definition Get (k : bytes) (c : Client) : option KeyValue := kvs_ c !! k.

Definition key_le (a b : KeyValue) : Prop := ble (key a) (key b) = true.
#[global] Instance key_le_dec : RelDecision key_le.
Proof. unfold RelDecision, key_le. apply _. Defined.

Definition GetPrefix (p : bytes) (c : Client) : list KeyValue :=
  merge_sort key_le (snd <$> map_to_list (filter (fun e => has_prefix p e.1 = true) (kvs_ c))).

Definition Delete (k : bytes) (c : Client) : bool * Client :=
  match kvs_ c !! k with
  | None => (false, c)
  | Some x => (true, let c1 := NotifyLocked (mkEvent kDelete x x) c in set_kvs (revision_ c1 + 1) (delete k (kvs_ c1)) c1)
  end.

Definition PutIfRevision (k v : bytes) (expected_rev l : Z) (c : Client) : option Z * Client :=
  let prev := kvs_ c !! k in
  let actual := match prev with None => 0 | Some p => mod_revision p end in
  if negb (actual =? expected_rev) then (None, c)
  else if negb (l =? kNoLease) && bool_decide (leases_ c !! l = None) then (None, c)
  else
    let rev := revision_ c + 1 in
    let cur := mkKV k v rev (match prev with Some p => create_revision p | None => rev end) l in
    (Some rev, NotifyLocked (mkEvent kPut cur (default no_kv prev)) (set_kvs rev (<[k := cur]> (kvs_ c)) c)).

(** ** Leases *)

(** One key of an expiring lease. *)
Definition drop_key (c : Client) (x : KeyValue) : Client :=
  let c1 := NotifyLocked (mkEvent kDelete x x) c in set_kvs (revision_ c1) (delete (key x) (kvs_ c1)) c1.

Definition bound_to (l : Z) (m : gmap bytes KeyValue) : list KeyValue :=
  snd <$> map_to_list (filter (fun e => lease e.2 = l) m).

Definition ExpireLeaseLocked (l : Z) (c : Client) : Client :=
  let c1 := fold_left drop_key (bound_to l (kvs_ c)) c in set_leases (delete l (leases_ c1)) c1.

(** One round of [SweeperLoop]. *)
Definition Sweep (now : Z) (c : Client) : Client :=
  let expired := elements (dom (filter (fun e => deadline e.2 <= now) (leases_ c))) in
  fold_left (fun c l => ExpireLeaseLocked l c) expired c.

Definition LeaseGrant (now ttl : Z) (c : Client) : Z * Client :=
  let l := next_lease_ c in
  (l, mkClient (revision_ c) (kvs_ c) (<[l := mkLease ttl (now + 1000 * ttl)]> (leases_ c)) (watchers_ c) (l + 1) (next_watch_ c) (dispatch_q_ c)).

Definition LeaseKeepAlive (now l : Z) (c : Client) : bool * Client :=
  match leases_ c !! l with
  | None => (false, c)
  | Some x => (true, set_leases (<[l := mkLease (ttl_seconds x) (now + 1000 * ttl_seconds x)]> (leases_ c)) c)
  end.

Definition LeaseRevoke (l : Z) (c : Client) : bool * Client :=
  match leases_ c !! l with None => (false, c) | Some _ => (true, ExpireLeaseLocked l c) end.

Definition LeaseTTLRemaining (now l : Z) (c : Client) : Z :=
  match leases_ c !! l with
  | None => 0
  | Some x => if deadline x <=? now then 0 else u32 ((deadline x - now) / 1000)
  end.

(** ** Watches *)

Definition WatchPrefix (p : bytes) (c : Client) : Z * Client :=
  let h := next_watch_ c in
  (h, mkClient (revision_ c) (kvs_ c) (leases_ c) (<[h := p]> (watchers_ c)) (next_lease_ c) (h + 1) (dispatch_q_ c)).

Definition Unwatch (h : Z) (c : Client) : Client :=
  mkClient (revision_ c) (kvs_ c) (leases_ c) (delete h (watchers_ c)) (next_lease_ c) (next_watch_ c) (dispatch_q_ c).

(** ** Runs *)

Inductive op :=
| OPut (k v : bytes) (l : Z) | ODelete (k : bytes) | OPutIf (k v : bytes) (rev l : Z)
| OGrant (now ttl : Z) | OKeepAlive (now l : Z) | ORevoke (l : Z) | OSweep (now : Z)
| OWatch (p : bytes) | OUnwatch (h : Z) | ODispatch.

Definition step (o : op) (c : Client) : option (Z * WatchEvent) * Client :=
  match o with
  | OPut k v l => (None, (Put k v l c).2)
  | ODelete k => (None, (Delete k c).2)
  | OPutIf k v rev l => (None, (PutIfRevision k v rev l c).2)
  | OGrant now ttl => (None, (LeaseGrant now ttl c).2)
  | OKeepAlive now l => (None, (LeaseKeepAlive now l c).2)
  | ORevoke l => (None, (LeaseRevoke l c).2)
  | OSweep now => (None, Sweep now c)
  | OWatch p => (None, (WatchPrefix p c).2)
  | OUnwatch h => (None, Unwatch h c)
  | ODispatch => Dispatch c
  end.

(** The deliveries of a run, and the state after it. *)
Fixpoint run (os : list op) (c : Client) : list (Z * WatchEvent) * Client :=
  match os with
  | [] => ([], c)
  | o :: os => let '(d, c1) := step o c in let '(ds, c2) := run os c1 in (option_list d ++ ds, c2)
  end.

(** ** What a watcher sees *)

(** The table a watcher keeps: a put stores, a deletion removes. *)
Definition apply_event (m : gmap bytes KeyValue) (ev : WatchEvent) : gmap bytes KeyValue :=
  match type ev with kPut => <[key (kv ev) := kv ev]> m | kDelete => delete (key (kv ev)) m end.

Definition under (p : bytes) (m : gmap bytes KeyValue) : gmap bytes KeyValue :=
  filter (fun e => has_prefix p e.1 = true) m.

Definition events_of (h : Z) (l : list (Z * WatchEvent)) : list WatchEvent :=
  snd <$> filter (fun e => e.1 = h) l.

Lemma events_of_app h l1 l2 : events_of h (l1 ++ l2) = events_of h l1 ++ events_of h l2.
Proof. unfold events_of. by rewrite filter_app, fmap_app. Qed.

Lemma filter_eq_NoDup (h : Z) l : NoDup l -> filter (fun x => x = h) l = if decide (h ∈ l) then [h] else [].
Proof.
  induction 1 as [|x l Hx ND IH]; [done|]. rewrite filter_cons. destruct (decide (x = h)) as [->|N].
  - rewrite IH, decide_False, decide_True by (done || by left). done.
  - rewrite IH. destruct (decide (h ∈ l)) as [I|I].
    + rewrite decide_True by (by right). done.
    + rewrite decide_False; [done|]. by intros [?|?]%elem_of_cons.
Qed.

Lemma events_of_watching h ev k w :
  events_of h ((fun id => (id, ev)) <$> watching k w) =
  match w !! h with Some p => if has_prefix p k then [ev] else [] | None => [] end.
Proof.
  assert (forall l, events_of h ((fun id => (id, ev)) <$> l) = (fun _ => ev) <$> filter (fun x => x = h) l) as ->.
  { intros l. unfold events_of. induction l as [|x l IH]; [done|].
    rewrite fmap_cons, !filter_cons. simpl. case_decide; [|done]. rewrite !fmap_cons. by f_equal. }
  unfold watching. rewrite filter_eq_NoDup by apply NoDup_elements.
  destruct (w !! h) as [p|] eqn:E.
  - destruct (has_prefix p k) eqn:P.
    + rewrite decide_True; [done|]. apply elem_of_elements, elem_of_dom. exists p. by apply map_lookup_filter_Some.
    + rewrite decide_False; [done|]. rewrite elem_of_elements, elem_of_dom. intros [q [Q1 Q2]%map_lookup_filter_Some].
      simpl in Q2. congruence.
  - rewrite decide_False; [done|]. rewrite elem_of_elements, elem_of_dom. intros [q [Q1 _]%map_lookup_filter_Some]. congruence.
Qed.

Lemma under_insert p k x m :
  under p (<[k := x]> m) = if has_prefix p k then <[k := x]> (under p m) else under p m.
Proof.
  unfold under. destruct (has_prefix p k) eqn:E.
  - by rewrite map_filter_insert_True.
  - rewrite map_filter_insert_not'; [done|simpl; by rewrite E|]. intros y _. simpl. by rewrite E.
Qed.

Lemma under_delete p k m :
  under p (delete k m) = if has_prefix p k then delete k (under p m) else under p m.
Proof.
  unfold under. rewrite map_filter_delete. destruct (has_prefix p k) eqn:E; [done|].
  apply delete_id, map_lookup_filter_None. right. intros x _. simpl. by rewrite E.
Qed.

(** A watcher has the table of its prefix, once it has applied what it got and what is
    queued for it. *)
Definition Follows (h : Z) (p : bytes) (base : gmap bytes KeyValue) (got : list WatchEvent) (c : Client) : Prop :=
  watchers_ c !! h = Some p /\
  fold_left apply_event (got ++ events_of h (dispatch_q_ c)) base = under p (kvs_ c).

Lemma Follows_put h p base got cur prev r c :
  Follows h p base got c ->
  Follows h p base got (NotifyLocked (mkEvent kPut cur prev) (set_kvs r (<[key cur := cur]> (kvs_ c)) c)).
Proof.
  intros [W F]. split; [done|]. simpl. rewrite events_of_app, events_of_watching, W, app_assoc, fold_left_app, F.
  simpl. rewrite under_insert. by destruct (has_prefix p (key cur)).
Qed.

Lemma Follows_delete h p base got x r c :
  Follows h p base got c ->
  Follows h p base got (set_kvs r (delete (key x) (kvs_ c)) (NotifyLocked (mkEvent kDelete x x) c)).
Proof.
  intros [W F]. split; [done|]. simpl. rewrite events_of_app, events_of_watching, W, app_assoc, fold_left_app, F.
  simpl. rewrite under_delete. by destruct (has_prefix p (key x)).
Qed.

Lemma Follows_expire h p base got l c : Follows h p base got c -> Follows h p base got (ExpireLeaseLocked l c).
Proof.
  intros F. unfold ExpireLeaseLocked. generalize (bound_to l (kvs_ c)) as xs. intros xs.
  assert (Follows h p base got (fold_left drop_key xs c)) as F'.
  { revert c F. induction xs as [|x xs IH]; intros c F; [done|]. simpl. apply IH. exact (Follows_delete h p base got x (revision_ c) c F). }
  exact F'.
Qed.

(** What holds in every reachable state: a key's revisions are positive and not beyond the
    current one, its lease is granted, and handles are below their counters. *)
Record WF (c : Client) : Prop := {
  wf_kvs k x : kvs_ c !! k = Some x ->
    key x = k /\ 0 < create_revision x <= mod_revision x /\ mod_revision x <= revision_ c /\
    (lease x <> kNoLease -> is_Some (leases_ c !! lease x));
  wf_rev : 0 <= revision_ c;
  wf_leases l : is_Some (leases_ c !! l) -> 0 < l < next_lease_ c;
  wf_next : 0 < next_lease_ c;
  wf_watchers h : is_Some (watchers_ c !! h) -> h < next_watch_ c;
  wf_queue h ev : (h, ev) ∈ dispatch_q_ c -> h < next_watch_ c }.

Ltac wf_fields W :=
  try first [exact (wf_kvs _ W)|exact (wf_rev _ W)|exact (wf_leases _ W)|exact (wf_next _ W)|exact (wf_watchers _ W)|exact (wf_queue _ W)].

Lemma WF_new : WF new_client.
Proof.
  split; simpl; try lia; try done.
  - intros l [x H]. by rewrite lookup_empty in H.
  - intros l [x H]. by rewrite lookup_empty in H.
  - intros h ev H. by apply elem_of_nil in H.
Qed.

Lemma WF_notify ev c : WF c -> WF (NotifyLocked ev c).
Proof.
  intros W. split; simpl; wf_fields W. intros h e [H|H]%elem_of_app; [by eapply wf_queue|].
  apply list_elem_of_fmap in H as (i & [= -> ->] & H). apply wf_watchers; [done|].
  unfold watching in H. apply elem_of_elements, elem_of_dom in H as [p [H _]%map_lookup_filter_Some]. by eexists.
Qed.

Lemma WF_insert k v l prev_create c :
  WF c -> (l <> kNoLease -> is_Some (leases_ c !! l)) -> 0 < prev_create <= revision_ c + 1 ->
  WF (set_kvs (revision_ c + 1) (<[k := mkKV k v (revision_ c + 1) prev_create l]> (kvs_ c)) c).
Proof.
  intros W L P. pose proof (wf_rev c W). split; simpl; wf_fields W; [|lia].
  intros k' x. destruct (decide (k' = k)) as [->|N].
  - rewrite lookup_insert_eq. intros [= <-]. simpl. split_and!; try lia; done.
  - rewrite lookup_insert_ne by done. intros H'. destruct (wf_kvs c W _ _ H') as (? & ? & ? & ?). split_and!; try lia; done.
Qed.

Lemma WF_delete k r c : WF c -> revision_ c <= r -> WF (set_kvs r (delete k (kvs_ c)) c).
Proof.
  intros W R. pose proof (wf_rev c W). split; simpl; wf_fields W; [|lia].
  intros k' x [_ H']%lookup_delete_Some. destruct (wf_kvs c W _ _ H') as (? & ? & ? & ?). split_and!; try lia; done.
Qed.

Lemma create_bound k c : WF c -> 0 < match kvs_ c !! k with Some p => create_revision p | None => revision_ c + 1 end <= revision_ c + 1.
Proof.
  intros W. pose proof (wf_rev c W). destruct (kvs_ c !! k) eqn:E; [|lia]. pose proof (wf_kvs c W _ _ E). lia.
Qed.

Lemma lease_guard l (m : gmap Z Lease) :
  negb (l =? kNoLease) && bool_decide (m !! l = None) = false -> l <> kNoLease -> is_Some (m !! l).
Proof.
  intros G N. apply andb_false_iff in G as [G|G]; reflect_bools; [done|]. by apply not_eq_None_Some.
Qed.

Lemma WF_put k v l c : WF c -> WF (Put k v l c).2.
Proof.
  intros W. unfold Put. destruct (_ && _) eqn:G; [done|]. apply WF_notify, WF_insert; [done| |by apply create_bound].
  by apply lease_guard.
Qed.

Lemma WF_put_if k v r l c : WF c -> WF (PutIfRevision k v r l c).2.
Proof.
  intros W. unfold PutIfRevision. destruct (negb (_ =? r)); [done|]. destruct (_ && _) eqn:G; [done|].
  apply WF_notify, WF_insert; [done| |by apply create_bound]. by apply lease_guard.
Qed.

(** ** Expiry *)

Lemma drop_keys_spec xs : forall c,
  leases_ (fold_left drop_key xs c) = leases_ c /\ watchers_ (fold_left drop_key xs c) = watchers_ c /\
  next_lease_ (fold_left drop_key xs c) = next_lease_ c /\ next_watch_ (fold_left drop_key xs c) = next_watch_ c /\
  revision_ (fold_left drop_key xs c) = revision_ c /\
  forall k, kvs_ (fold_left drop_key xs c) !! k = if decide (k ∈ key <$> xs) then None else kvs_ c !! k.
Proof.
  induction xs as [|x xs IH]; intros c; simpl fold_left.
  - by split_and!.
  - destruct (IH (drop_key c x)) as (-> & -> & -> & -> & -> & K). split_and!; try done. intros k. rewrite K. simpl.
    destruct (decide (k ∈ key <$> xs)) as [I|I].
    + by rewrite decide_True by (by right).
    + destruct (decide (k = key x)) as [->|N].
      * rewrite lookup_delete_eq. by rewrite decide_True by (by left).
      * rewrite lookup_delete_ne by done. rewrite decide_False; [done|]. by intros [?|?]%elem_of_cons.
Qed.

Lemma WF_drop_keys xs : forall c, WF c -> WF (fold_left drop_key xs c).
Proof.
  induction xs as [|x xs IH]; intros c W; [done|]. simpl. apply IH.
  exact (WF_delete (key x) (revision_ c) _ (WF_notify (mkEvent kDelete x x) c W) (Z.le_refl _)).
Qed.

Lemma elem_of_bound_to l m x : x ∈ bound_to l m <-> exists k, m !! k = Some x /\ lease x = l.
Proof.
  unfold bound_to. rewrite list_elem_of_fmap. split.
  - intros ([k y] & -> & H). apply elem_of_map_to_list, map_lookup_filter_Some in H. by exists k.
  - intros (k & H & L). exists (k, x). split; [done|]. by apply elem_of_map_to_list, map_lookup_filter_Some.
Qed.

(** Exactly the keys of the lease go. *)
Lemma ExpireLease_lookup l c k :
  WF c -> kvs_ (ExpireLeaseLocked l c) !! k = (x ← kvs_ c !! k; if decide (lease x = l) then None else Some x).
Proof.
  intros W. unfold ExpireLeaseLocked. simpl. destruct (drop_keys_spec (bound_to l (kvs_ c)) c) as (_ & _ & _ & _ & _ & K).
  rewrite K. destruct (decide (k ∈ key <$> bound_to l (kvs_ c))) as [I|I].
  - apply list_elem_of_fmap in I as (x & -> & (k' & H & L)%elem_of_bound_to).
    destruct (wf_kvs c W _ _ H) as [-> _]. rewrite H. simpl. by rewrite decide_True.
  - destruct (kvs_ c !! k) as [x|] eqn:E; [|done]. simpl. rewrite decide_False; [done|]. intros L.
    apply I, list_elem_of_fmap. exists x. split; [by destruct (wf_kvs c W _ _ E)|]. apply elem_of_bound_to. by exists k.
Qed.

Lemma WF_expire l c : WF c -> WF (ExpireLeaseLocked l c).
Proof.
  intros W. pose proof (WF_drop_keys (bound_to l (kvs_ c)) c W) as W'.
  assert (forall k x, kvs_ (ExpireLeaseLocked l c) !! k = Some x -> lease x <> l) as NL.
  { intros k x. rewrite ExpireLease_lookup by done. destruct (kvs_ c !! k) as [y|]; [|done]. simpl.
    case_decide; [done|]. by intros [= <-]. }
  unfold ExpireLeaseLocked in *. cbv zeta in *. set (c1 := fold_left _ _ _) in *. clearbody c1. split; simpl in *; wf_fields W'.
  - intros k x H. destruct (wf_kvs _ W' _ _ H) as (? & ? & ? & L). split_and!; try lia; try done.
    intros N. rewrite lookup_delete_ne by (intros E; by apply (NL k x H)). by apply L.
  - intros l' [x [_ H]%lookup_delete_Some]. apply (wf_leases _ W'). by eexists.
Qed.

Lemma fold_expire_ind (P : Client -> Prop) ls : forall c,
  P c -> (forall c l, l ∈ ls -> P c -> P (ExpireLeaseLocked l c)) -> P (fold_left (fun c l => ExpireLeaseLocked l c) ls c).
Proof.
  induction ls as [|l ls IH]; intros c H HS; [done|]. simpl. apply IH.
  - apply HS; [by left|done].
  - intros c' l' I. apply HS. by right.
Qed.

Lemma WF_step o c : WF c -> WF (step o c).2.
Proof.
  intros W. destruct o as [k v l|k|k v r l|now ttl|now l|l|now|p|h|]; simpl.
  - by apply WF_put.
  - unfold Delete. destruct (kvs_ c !! k) as [x|] eqn:E; [|done].
    apply (WF_delete k (revision_ c + 1) _ (WF_notify (mkEvent kDelete x x) c W)). simpl. lia.
  - by apply WF_put_if.
  - pose proof (wf_next c W). split; simpl; wf_fields W; [| |lia].
    + intros k x H'. destruct (wf_kvs c W _ _ H') as (? & ? & ? & L). split_and!; try lia; try done.
      intros N. rewrite lookup_insert_is_Some. destruct (decide (next_lease_ c = lease x)); [by left|right]. auto.
    + intros l [<-|[_ H']]%lookup_insert_is_Some; [lia|]. apply (wf_leases c W) in H'. lia.
  - unfold LeaseKeepAlive. destruct (leases_ c !! l) as [x|] eqn:E; [|done]. split; simpl; wf_fields W.
    + intros k y H'. destruct (wf_kvs c W _ _ H') as (? & ? & ? & L). split_and!; try lia; try done.
      intros N. rewrite lookup_insert_is_Some. destruct (decide (l = lease y)); [by left|right]. auto.
    + intros l' [<-|[_ H']]%lookup_insert_is_Some; apply (wf_leases c W); [by eexists|done].
  - unfold LeaseRevoke. destruct (leases_ c !! l); [|done]. by apply WF_expire.
  - apply (fold_expire_ind WF); [done|]. intros c' l _. apply WF_expire.
  - split; simpl; wf_fields W.
    + intros h [<-|[_ H']]%lookup_insert_is_Some; [lia|]. apply (wf_watchers c W) in H'. lia.
    + intros h ev H'. apply (wf_queue c W) in H'. lia.
  - split; simpl; wf_fields W. intros h' [x [_ H']%lookup_delete_Some]. apply (wf_watchers c W). by eexists.
  - unfold Dispatch. destruct (dispatch_q_ c) as [|[h ev] q] eqn:E; [done|]. split; simpl; wf_fields W.
    intros h' e H'. apply (wf_queue c W h' e). rewrite E. by right.
Qed.

Lemma run_WF os : forall c, WF c -> WF (run os c).2.
Proof.
  induction os as [|o os IH]; intros c W; [done|]. simpl. pose proof (WF_step o c W) as W1.
  destruct (step o c) as [d c1]. simpl in W1. specialize (IH c1 W1). by destruct (run os c1).
Qed.

(** ** Watches deliver every change *)

(** A delivery takes the first queued event. *)
Lemma dispatch_events h p c :
  watchers_ c !! h = Some p ->
  events_of h (option_list (Dispatch c).1) ++ events_of h (dispatch_q_ (Dispatch c).2) = events_of h (dispatch_q_ c).
Proof.
  intros WH. unfold Dispatch. destruct (dispatch_q_ c) as [|[h' ev] q] eqn:Q; [cbn [fst snd]; by rewrite Q|].
  cbn [fst snd dispatch_q_]. change ((h', ev) :: q) with ([(h', ev)] ++ q). rewrite events_of_app. f_equal.
  destruct (decide (h' = h)) as [->|N]; [by rewrite WH|].
  assert (events_of h [(h', ev)] = []) as -> by (unfold events_of; by rewrite filter_cons_False).
  destruct (watchers_ c !! h'); [|done]. change (option_list (Some (h', ev))) with [(h', ev)].
  unfold events_of. by rewrite filter_cons_False.
Qed.

Lemma dispatch_watchers c : watchers_ (Dispatch c).2 = watchers_ c.
Proof. unfold Dispatch. by destruct (dispatch_q_ c) as [|[h ev] q]. Qed.
Lemma dispatch_kvs c : kvs_ (Dispatch c).2 = kvs_ c.
Proof. unfold Dispatch. by destruct (dispatch_q_ c) as [|[h ev] q]. Qed.

Lemma Follows_step o h p base got c :
  WF c -> o <> OUnwatch h -> Follows h p base got c ->
  Follows h p base (got ++ events_of h (option_list (step o c).1)) (step o c).2.
Proof.
  intros W NU F. assert (forall got', got' = got -> Follows h p base got' c) as F0 by (by intros ? ->).
  destruct o as [k v l|k|k v r l|now ttl|now l|l|now|q|h'|]; cbn [step fst snd];
    try (change (events_of h (option_list None)) with (@nil WatchEvent); rewrite app_nil_r).
  - unfold Put. destruct (_ && _); [done|]. by apply Follows_put.
  - unfold Delete. destruct (kvs_ c !! k) as [x|] eqn:E; [|done]. destruct (wf_kvs c W _ _ E) as [<- _].
    exact (Follows_delete h p base got x (revision_ c + 1) c F).
  - unfold PutIfRevision. destruct (negb (_ =? r)); [done|]. destruct (_ && _); [done|]. by apply Follows_put.
  - done.
  - unfold LeaseKeepAlive. by destruct (leases_ c !! l).
  - unfold LeaseRevoke. destruct (leases_ c !! l); [|done]. by apply Follows_expire.
  - apply (fold_expire_ind (Follows h p base got)); [done|]. intros c' l _. apply Follows_expire.
  - destruct F as [WH F]. split; [|done]. simpl. rewrite lookup_insert_ne; [done|].
    pose proof (wf_watchers c W h ltac:(by eexists)). lia.
  - destruct F as [WH F]. split; [|done]. simpl. rewrite lookup_delete_ne; [done|]. by intros ->.
  - destruct F as [WH F]. pose proof (dispatch_events h p c WH) as D. split; [by rewrite dispatch_watchers|].
    rewrite <- app_assoc, D, F. by rewrite dispatch_kvs.
Qed.

Lemma run_Follows os h p base : forall got c,
  WF c -> OUnwatch h ∉ os -> Follows h p base got c ->
  Follows h p base (got ++ events_of h (run os c).1) (run os c).2.
Proof.
  induction os as [|o os IH]; intros got c W NU F; [by rewrite app_nil_r|].
  apply not_elem_of_cons in NU as [NU NU']. simpl.
  pose proof (Follows_step o h p base got c W (not_eq_sym NU) F) as F1. pose proof (WF_step o c W) as W1.
  destruct (step o c) as [d c1]. cbn [fst snd] in *. specialize (IH _ c1 W1 NU' F1).
  destruct (run os c1) as [ds c2]. cbn [fst snd] in *. by rewrite events_of_app, app_assoc.
Qed.

Lemma events_of_fresh c : WF c -> events_of (next_watch_ c) (dispatch_q_ c) = [].
Proof.
  intros W. pose proof (wf_queue c W) as Q. unfold events_of. induction (dispatch_q_ c) as [|[h ev] q IH]; [done|].
  rewrite filter_cons_False; [apply IH; intros h' e I; apply (Q h' e); by right|].
  simpl. pose proof (Q h ev ltac:(by left)). lia.
Qed.

(** A watcher that applies the events it is given to a copy of the keys at the time
    it subscribed, and what is still queued for it after that, has the keys under its
    prefix as they are: no change is lost, reordered or delivered twice, whatever puts,
    deletions, expiries and other watchers there are, as long as it does not unsubscribe. *)
Theorem watch_follows os before h c p :
  (run before new_client).2 = c -> WatchPrefix p c = (h, (step (OWatch p) c).2) -> OUnwatch h ∉ os ->
  fold_left apply_event
    (events_of h (run os (step (OWatch p) c).2).1 ++ events_of h (dispatch_q_ (run os (step (OWatch p) c).2).2))
    (under p (kvs_ c)) = under p (kvs_ (run os (step (OWatch p) c).2).2).
Proof.
  intros <- [= <-] NU. set (c := (run before new_client).2) in *.
  assert (WF c) as W by apply run_WF, WF_new.
  apply (run_Follows os (next_watch_ c) p (under p (kvs_ c)) []); [by apply WF_step|done|].
  split; simpl; [by rewrite lookup_insert_eq|].
  by rewrite events_of_fresh.
Qed.

Lemma watch_follows_witness :
  let c := (run [OPut (str "/n/a") (str "1") 0] new_client).2 in
  let os := [OPut (str "/n/b") (str "2") 0; ODelete (str "/n/a"); ODispatch] in
  fold_left apply_event
    (events_of 1 (run os (step (OWatch (str "/n/")) c).2).1 ++ events_of 1 (dispatch_q_ (run os (step (OWatch (str "/n/")) c).2).2))
    (under (str "/n/") (kvs_ c)) = under (str "/n/") (kvs_ (run os (step (OWatch (str "/n/")) c).2).2).
Proof.
  apply (watch_follows [OPut (str "/n/b") (str "2") 0; ODelete (str "/n/a"); ODispatch]
           [OPut (str "/n/a") (str "1") 0] 1 _ (str "/n/")); [reflexivity|reflexivity|].
  apply not_elem_of_cons. split; [discriminate|]. apply not_elem_of_cons. split; [discriminate|].
  apply not_elem_of_cons. split; [discriminate|]. apply not_elem_of_nil.
Defined.

(** ** Compare and swap *)

(** Since a state with revision [r] and entry [o], the entry of a key is the same or has
    been written at a later revision. *)
Definition Since (r : Z) (o : option KeyValue) (k : bytes) (c : Client) : Prop :=
  r <= revision_ c /\ (kvs_ c !! k = o \/ kvs_ c !! k = None \/ exists y, kvs_ c !! k = Some y /\ r < mod_revision y).

Lemma Since_write r o k k' v l cr ev c :
  Since r o k c ->
  Since r o k (NotifyLocked ev (set_kvs (revision_ c + 1) (<[k' := mkKV k' v (revision_ c + 1) cr l]> (kvs_ c)) c)).
Proof.
  intros [R S]. split; simpl; [lia|]. destruct (decide (k' = k)) as [->|N].
  - rewrite lookup_insert_eq. right. right. eexists. split; [done|]. simpl. lia.
  - by rewrite lookup_insert_ne.
Qed.

Lemma Since_expire r o k l c : WF c -> Since r o k c -> Since r o k (ExpireLeaseLocked l c).
Proof.
  intros W [R S]. split.
  - unfold ExpireLeaseLocked. simpl. destruct (drop_keys_spec (bound_to l (kvs_ c)) c) as (_ & _ & _ & _ & -> & _). done.
  - rewrite ExpireLease_lookup by done. destruct (kvs_ c !! k) as [x|] eqn:E; simpl; [|by right; left].
    case_decide; [by right; left|done].
Qed.

Lemma Since_step r o k op0 c : WF c -> Since r o k c -> Since r o k (step op0 c).2.
Proof.
  intros W S. destruct op0 as [k' v l|k'|k' v e l|now ttl|now l|l|now|q|h|]; simpl; try done.
  - unfold Put. destruct (_ && _); [done|]. by apply Since_write.
  - unfold Delete. destruct (kvs_ c !! k') eqn:E; [|done]. destruct S as [R S]. split; simpl; [lia|].
    destruct (decide (k' = k)) as [->|N]; [rewrite lookup_delete_eq; by right; left|by rewrite lookup_delete_ne].
  - unfold PutIfRevision. destruct (negb (_ =? e)); [done|]. destruct (_ && _); [done|]. by apply Since_write.
  - unfold LeaseKeepAlive. by destruct (leases_ c !! l).
  - unfold LeaseRevoke. destruct (leases_ c !! l); [|done]. by apply Since_expire.
  - apply (fold_expire_ind (fun c => WF c /\ Since r o k c)); [done|]. intros c' l _ [W' S'].
    split; [by apply WF_expire|by apply Since_expire].
  - unfold Dispatch. by destruct (dispatch_q_ c) as [|[h ev] q].
Qed.

Lemma run_Since r o k os : forall c, WF c -> Since r o k c -> Since r o k (run os c).2.
Proof.
  induction os as [|x os IH]; intros c W S; [done|]. simpl. pose proof (WF_step x c W) as W1.
  pose proof (Since_step r o k x c W S) as S1. destruct (step x c) as [d c1]. simpl in *.
  specialize (IH c1 W1 S1). by destruct (run os c1).
Qed.

(** A compare-and-swap with the revision of an entry read earlier succeeds only if
    the entry is still the one read; and after it, none of the others that read the same
    entry succeeds. *)
Theorem compare_and_swap_exclusive before os os' k x v v' l l' rev c0 c :
  c0 = (run before new_client).2 -> Get k c0 = Some x -> c = (run os c0).2 ->
  (PutIfRevision k v (mod_revision x) l c).1 = Some rev ->
  Get k c = Some x /\
  (PutIfRevision k v' (mod_revision x) l' (run os' (PutIfRevision k v (mod_revision x) l c).2).2).1 = None.
Proof.
  intros -> G -> P. set (c0 := (run before new_client).2) in *. set (c := (run os c0).2) in *.
  assert (WF c0) as W0 by apply run_WF, WF_new. assert (WF c) as W by by apply run_WF.
  destruct (wf_kvs c0 W0 _ _ G) as (_ & HM & HR & _).
  assert (Since (revision_ c0) (Some x) k c) as [SR S] by (apply run_Since; [done|split; [lia|by left]]).
  assert (Get k c = Some x) as G'.
  { unfold PutIfRevision in P. destruct (negb (_ =? mod_revision x)) eqn:A; [done|]. reflect_bools. unfold Get.
    destruct S as [S|[S|(y & S & L)]]; [done|rewrite S in A; lia|rewrite S in A; lia]. }
  split; [done|]. pose proof (WF_step (OPutIf k v (mod_revision x) l) c W) as W1. cbn [step snd] in W1.
  set (c1 := (PutIfRevision k v (mod_revision x) l c).2) in *.
  assert (exists y, kvs_ c1 !! k = Some y /\ mod_revision x < mod_revision y /\ revision_ c < revision_ c1) as (y & Y & LY & R1).
  { subst c1. unfold PutIfRevision in P |- *. destruct (negb (_ =? mod_revision x)); [done|]. destruct (_ && _); [done|].
    simpl. rewrite lookup_insert_eq. eexists. split; [done|]. simpl. lia. }
  destruct (run_Since (revision_ c1) (Some y) k os' c1 W1) as [_ S']; [split; [lia|by left]|].
  unfold PutIfRevision at 1. cbv zeta.
  destruct S' as [S'|[S'|(z & S' & L)]]; rewrite S'; cbv iota.
  - destruct (Z.eqb_spec (mod_revision y) (mod_revision x)); [lia|done].
  - destruct (Z.eqb_spec 0 (mod_revision x)); [lia|done].
  - destruct (Z.eqb_spec (mod_revision z) (mod_revision x)); [lia|done].
Qed.

Lemma compare_and_swap_exclusive_witness :
  let k := str "leader" in
  let c0 := (run [OPut k (str "none") 0] new_client).2 in
  let c1 := (PutIfRevision k (str "a") 1 0 c0).2 in
  (PutIfRevision k (str "b") 1 0 c1).1 = None.
Proof.
  exact (proj2 (compare_and_swap_exclusive [OPut (str "leader") (str "none") 0] [] [] (str "leader")
    (mkKV (str "leader") (str "none") 1 1 0) (str "a") (str "b") 0 0 2 _ _ eq_refl eq_refl eq_refl eq_refl)).
Defined.

(** ** Sweeping *)

Lemma ExpireLease_leases l l' c : leases_ (ExpireLeaseLocked l c) !! l' = if decide (l' = l) then None else leases_ c !! l'.
Proof.
  unfold ExpireLeaseLocked. simpl. destruct (drop_keys_spec (bound_to l (kvs_ c)) c) as (-> & _).
  case_decide as D; [subst; apply lookup_delete_eq|by rewrite lookup_delete_ne].
Qed.

Lemma fold_expire_lookup ls : forall c, WF c ->
  let c' := fold_left (fun c l => ExpireLeaseLocked l c) ls c in
  (forall k, kvs_ c' !! k = (x ← kvs_ c !! k; if decide (lease x ∈ ls) then None else Some x)) /\
  (forall l, leases_ c' !! l = if decide (l ∈ ls) then None else leases_ c !! l).
Proof.
  induction ls as [|l ls IH]; intros c W; cbv zeta.
  - split; intros k; cbn [fold_left]; [destruct (kvs_ c !! k) as [x|]; [simpl|done]|];
      (done || by rewrite decide_False by apply not_elem_of_nil).
  - cbn [fold_left]. destruct (IH _ (WF_expire l c W)) as [K L]. split.
    + intros k. rewrite K, ExpireLease_lookup by done. destruct (kvs_ c !! k) as [x|]; [|done]. simpl.
      destruct (decide (lease x = l)) as [->|N]; simpl.
      * by rewrite decide_True by (by left).
      * apply decide_ext. rewrite elem_of_cons. naive_solver.
    + intros l'. rewrite L, ExpireLease_leases. destruct (decide (l' ∈ ls)) as [I|I].
      * by rewrite decide_True by (by right).
      * destruct (decide (l' = l)) as [->|N]; [by rewrite decide_True by (by left)|].
        rewrite decide_False; [done|]. by intros [?|?]%elem_of_cons.
Qed.

(** A round of the sweeper removes the leases that are over and the keys bound to them,
    and nothing else. *)
Definition over (now l : Z) (c : Client) : Prop := exists x, leases_ c !! l = Some x /\ deadline x <= now.

#[global] Instance over_dec now l c : Decision (over now l c).
Proof.
  unfold over. destruct (leases_ c !! l) as [x|]; [destruct (decide (deadline x <= now))|].
  - left. by exists x.
  - right. intros (y & [= <-] & ?). done.
  - right. by intros (y & [=] & ?).
Defined.

Lemma Sweep_lookup now c : WF c ->
  (forall k, kvs_ (Sweep now c) !! k = (x ← kvs_ c !! k; if decide (over now (lease x) c) then None else Some x)) /\
  (forall l, leases_ (Sweep now c) !! l = if decide (over now l c) then None else leases_ c !! l).
Proof.
  intros W. unfold Sweep.
  assert (forall l, l ∈ elements (dom (filter (fun e => deadline e.2 <= now) (leases_ c))) <-> over now l c) as E.
  { intros l. rewrite elem_of_elements, elem_of_dom. unfold over. split.
    - intros [x [H1 H2]%map_lookup_filter_Some]. by exists x.
    - intros (x & H1 & H2). exists x. by apply map_lookup_filter_Some. }
  destruct (fold_expire_lookup (elements (dom (filter (fun e => deadline e.2 <= now) (leases_ c)))) c W) as [K L]. split.
  - intros k. rewrite K. destruct (kvs_ c !! k) as [x|]; [|done]. simpl. apply decide_ext, E.
  - intros l. rewrite L. apply decide_ext, E.
Qed.

End Etcd.
