(* ===== verification/EtcdWire.v ===== *)
(** * Clients of a real etcd

    What cluster/http_etcd_client.cpp and the gRPC half of cluster/etcd_client.cpp
    compute on their side of the wire: the end of the key range of a prefix, base64 as
    the JSON gateway wants it, and the polling watcher that turns successive snapshots of
    a prefix into events. The server is the store of Etcd.v, whose operations mirror
    etcd's; the HTTP and gRPC transport is not modelled. *)

From S2P Require Import Prelude Mtls Etcd.
From Stdlib Require Import ZArith Lia.
From stdpp Require Import sorting.

Open Scope Z_scope.

Module EtcdWire.

Import Etcd.
#[local] Notation str := Mtls.str.

(** ** The end of a prefix range *)

(** The loop from the last byte: drop bytes 0xff, increment the first other one. *)
Fixpoint range_end_rev (r : bytes) : bytes :=
  match r with
  | [] => []
  | b :: r => if byte_val b <? 255 then rev (byte_of (byte_val b + 1) :: r) else range_end_rev r
  end.

Definition PrefixRangeEnd (prefix : bytes) : bytes :=
  match prefix with [] => [x00] | _ => range_end_rev (rev prefix) end.

(** The keys of an etcd range request. *)
Definition in_range (k lo hi : bytes) : bool := ble lo k && blt k hi.

Definition all_ff (p : bytes) : Prop := Forall (fun b => byte_val b = 255) p.

Lemma range_end_ff r s : all_ff r -> range_end_rev (r ++ s) = range_end_rev s.
Proof.
  induction 1 as [|b r H F IH]; [done|]. simpl. rewrite H. by rewrite Z.ltb_irrefl.
Qed.

(** The same from the front. *)
Lemma range_end_cons b p :
  range_end_rev (rev (b :: p)) =
  if decide (all_ff p) then (if byte_val b <? 255 then [byte_of (byte_val b + 1)] else []) else b :: range_end_rev (rev p).
Proof.
  simpl rev. destruct (decide (all_ff p)) as [F|N].
  - rewrite range_end_ff; [|by apply Forall_rev]. simpl. by destruct (byte_val b <? 255).
  - assert (exists q c s, rev p = q ++ c :: s /\ all_ff q /\ byte_val c < 255) as (q & c & s & -> & Q & C).
    { assert (~ all_ff (rev p)) as N' by (intros H; apply N; rewrite <- (rev_involutive p); by apply Forall_rev).
      revert N'. clear N. generalize (rev p) as r0. intros r0. induction r0 as [|c r IH]; intros N'; [by destruct N'; constructor|].
      destruct (decide (byte_val c = 255)) as [E|E].
      - destruct IH as (q & c' & s & -> & Q & C); [intros H; apply N'; by constructor|].
        exists (c :: q), c', s. split_and!; [done|by constructor|done].
      - exists [], c, r. split_and!; [done|constructor|]. pose proof (byte_val_bound c). lia. }
    rewrite <- app_assoc, (range_end_ff q _ Q), (range_end_ff q _ Q). simpl.
    destruct (Z.ltb_spec (byte_val c) 255); [|lia]. simpl. by rewrite rev_app_distr.
Qed.

Lemma ble_cons b p c k : ble (b :: p) (c :: k) = (byte_val b <? byte_val c) || ((byte_val b =? byte_val c) && ble p k).
Proof.
  unfold ble, blt. simpl.
  destruct (Z.compare_spec (byte_val c) (byte_val b)), (Z.ltb_spec (byte_val b) (byte_val c)), (Z.eqb_spec (byte_val b) (byte_val c)); simpl; try done; lia.
Qed.

Lemma blt_cons b p c k : blt (b :: p) (c :: k) = (byte_val b <? byte_val c) || ((byte_val b =? byte_val c) && blt p k).
Proof.
  unfold blt. simpl.
  destruct (Z.compare_spec (byte_val b) (byte_val c)), (Z.ltb_spec (byte_val b) (byte_val c)), (Z.eqb_spec (byte_val b) (byte_val c)); simpl; try done; lia.
Qed.

Lemma prefix_cons b p c k : has_prefix (b :: p) (c :: k) = (byte_val b =? byte_val c) && has_prefix p k.
Proof.
  unfold has_prefix. destruct (Z.eqb_spec (byte_val b) (byte_val c)) as [E|E]; simpl.
  - apply byte_val_inj in E as ->. apply bool_decide_ext. split; [apply prefix_cons_inv_2|apply prefix_cons].
  - apply bool_decide_eq_false. intros H. apply prefix_cons_inv_1 in H. by subst.
Qed.

Lemma ble_ff p k : all_ff p -> ble p k = has_prefix p k.
Proof.
  intros F. revert k. induction F as [|b p H F IH]; intros k.
  - unfold has_prefix. rewrite bool_decide_true by apply prefix_nil. by destruct k.
  - destruct k as [|c k]; [done|]. rewrite ble_cons, prefix_cons, IH. pose proof (byte_val_bound c).
    destruct (Z.ltb_spec (byte_val b) (byte_val c)); [lia|done].
Qed.

(** The range from a prefix to its [PrefixRangeEnd] holds exactly the keys with that
    prefix, unless the prefix is empty or all bytes 0xff. *)
Theorem prefix_range_exact p k :
  ~ all_ff p -> in_range k p (PrefixRangeEnd p) = has_prefix p k.
Proof.
  intros N. unfold in_range. assert (PrefixRangeEnd p = range_end_rev (rev p)) as ->.
  { destruct p; [|done]. destruct N. constructor. }
  revert k N. induction p as [|b p IH]; intros k N; [by destruct N; constructor|].
  destruct k as [|c k]; [done|]. rewrite range_end_cons, ble_cons, prefix_cons.
  destruct (decide (all_ff p)) as [F|F].
  - rewrite ble_ff by done. destruct (Z.ltb_spec (byte_val b) 255) as [B|B].
    + rewrite blt_cons, byte_val_of. pose proof (byte_val_bound b). rewrite Z.mod_small by lia.
      assert (blt k [] = false) as -> by (by destruct k). rewrite andb_false_r, orb_false_r.
      destruct (Z.ltb_spec (byte_val b) (byte_val c)), (Z.eqb_spec (byte_val b) (byte_val c)),
        (Z.ltb_spec (byte_val c) (byte_val b + 1)); simpl; rewrite ?andb_true_r; try done; lia.
    + destruct N. constructor; [|done]. pose proof (byte_val_bound b). lia.
  - rewrite blt_cons. specialize (IH k F).
    destruct (Z.ltb_spec (byte_val b) (byte_val c)), (Z.eqb_spec (byte_val b) (byte_val c)),
      (Z.ltb_spec (byte_val c) (byte_val b)), (Z.eqb_spec (byte_val c) (byte_val b)); simpl; try done; lia.
Qed.

Lemma prefix_range_exact_witness :
  in_range (str "/kvcache/nodes/a") (str "/kvcache/nodes/") (PrefixRangeEnd (str "/kvcache/nodes/")) = true.
Proof.
  rewrite (prefix_range_exact (str "/kvcache/nodes/") (str "/kvcache/nodes/a")); [reflexivity|].
  intros H. inversion H as [|x l E F]. vm_compute in E. discriminate.
Defined.

(** For a prefix of 0xff bytes the end is empty, which etcd reads as a request for one key. *)
Example range_end_of_ff : PrefixRangeEnd [xff; xff] = [].
Proof. reflexivity. Qed.

(** ** Base64 *)

Definition kB64Tab : bytes := str "ABCDEFGHIJKLMNOPQRSTUVWXYZabcdefghijklmnopqrstuvwxyz0123456789+/".

(** [int]: shifts left drop the high bits, shifts right keep the sign. *)
Definition s32 (z : Z) : Z := (z + 2 ^ 31) mod 2 ^ 32 - 2 ^ 31.

Definition tab (i : Z) : byte := default x00 (kB64Tab !! Z.to_nat i).

(** [while (valb >= 0)] of the encoder; a round takes six bits. *)
Fixpoint encode_drain (fuel : nat) (val valb : Z) (out : bytes) : bytes * Z :=
  match fuel with
  | O => (out, valb)
  | S fuel => if 0 <=? valb then encode_drain fuel val (valb - 6) (out ++ [tab (Z.land (Z.shiftr val valb) 63)]) else (out, valb)
  end.

Fixpoint encode_loop (l : bytes) (val valb : Z) (out : bytes) : bytes * Z * Z :=
  match l with
  | [] => (out, val, valb)
  | c :: l =>
      let val := Z.lor (s32 (Z.shiftl val 8)) (byte_val c) in
      let valb := valb + 8 in
      let '(out, valb) := encode_drain (Z.to_nat (valb / 6 + 1)) val valb out in
      encode_loop l val valb out
  end.

Definition B64Encode (l : bytes) : bytes :=
  let '(out, val, valb) := encode_loop l 0 (-6) [] in
  let out := if -6 <? valb then out ++ [tab (Z.land (Z.shiftr (s32 (Z.shiftl val 8)) (valb + 8)) 63)] else out in
  out ++ replicate (Z.to_nat ((4 - zlen out mod 4) mod 4)) x3d.

(** The table [T] of the decoder. *)
Fixpoint tab_index (c : byte) (t : bytes) (i : Z) : Z :=
  match t with [] => -1 | b :: t => if bool_decide (b = c) then i else tab_index c t (i + 1) end.
Definition T (c : byte) : Z := tab_index c kB64Tab 0.

Fixpoint decode_loop (l : bytes) (val valb : Z) (out : bytes) : bytes :=
  match l with
  | [] => out
  | c :: l =>
      if 128 <=? byte_val c then decode_loop l val valb out
      else
        let d := T c in
        if d <? 0 then decode_loop l val valb out
        else
          let val := Z.lor (s32 (Z.shiftl val 6)) d in
          let valb := valb + 6 in
          if 0 <=? valb
          then decode_loop l val (valb - 8) (out ++ [byte_of (Z.land (Z.shiftr val valb) 255)])
          else decode_loop l val valb out
  end.

Definition B64Decode (l : bytes) : bytes := decode_loop l 0 (-8) [].

Lemma lor_shiftl_add v w m : 0 <= m -> 0 <= w < 2 ^ m -> Z.lor (Z.shiftl v m) w = v * 2 ^ m + w.
Proof.
  intros Hm Hw. rewrite <- Z.shiftl_mul_pow2 by done.
  assert (Z.land (Z.shiftl v m) w = 0) as HL.
  { apply Z.bits_inj'. intros i Hi. rewrite Z.land_spec, Z.bits_0, Z.shiftl_spec by lia.
    destruct (Z.ltb_spec i m).
    - by rewrite (Z.testbit_neg_r v) by lia.
    - rewrite <- (Z.mod_small w (2 ^ m)) by done. rewrite Z.mod_pow2_bits_high by lia. apply andb_false_r. }
  by rewrite <- Z.lxor_lor, <- Z.add_nocarry_lxor.
Qed.

(** The bits an [int] keeps. *)
Lemma s32_testbit x i : 0 <= i < 31 -> Z.testbit (s32 x) i = Z.testbit x i.
Proof.
  intros Hi. rewrite <- (Z.mod_pow2_bits_low (s32 x) 31 i), <- (Z.mod_pow2_bits_low x 31 i) by lia. f_equal.
  unfold s32. replace ((x + 2 ^ 31) mod 2 ^ 32 - 2 ^ 31) with (x + (-1 - 2 * ((x + 2 ^ 31) / 2 ^ 32) + 1) * 2 ^ 31).
  - by rewrite Z.mod_add.
  - pose proof (Z.div_mod (x + 2 ^ 31) (2 ^ 32)). lia.
Qed.

Lemma s32_low v w m n : 0 <= n <= 14 -> 0 <= m <= 8 -> 0 <= w < 2 ^ m ->
  Z.lor (s32 (Z.shiftl v m)) w mod 2 ^ n = (v * 2 ^ m + w) mod 2 ^ n.
Proof.
  intros N M Hw. rewrite <- lor_shiftl_add by lia. apply Z.bits_inj'. intros i Hi.
  destruct (Z.ltb_spec i n).
  - rewrite !Z.mod_pow2_bits_low by lia. rewrite !Z.lor_spec, s32_testbit by lia. done.
  - by rewrite !Z.mod_pow2_bits_high by lia.
Qed.

(** [(val >> b) & (2^k - 1)] reads [k] bits. *)
Lemma window v b k : 0 <= b -> 0 <= k -> Z.land (Z.shiftr v b) (Z.ones k) = (v mod 2 ^ (b + k)) / 2 ^ b.
Proof.
  intros Hb Hk. pose proof (Z.pow_pos_nonneg 2 b ltac:(lia) Hb). pose proof (Z.pow_pos_nonneg 2 k ltac:(lia) Hk).
  rewrite Z.land_ones, Z.shiftr_div_pow2 by lia. rewrite Z.pow_add_r, Z.rem_mul_r by lia.
  rewrite (Z.mul_comm (2 ^ b)), Z.div_add by lia. rewrite (Z.div_small (v mod 2 ^ b)) by (apply Z.mod_pos_bound; lia). done.
Qed.

Lemma T_tab i : 0 <= i < 64 -> T (tab i) = i /\ byte_val (tab i) < 128.
Proof.
  intros H. assert (forallb (fun n => (T (tab (Z.of_nat n)) =? Z.of_nat n) && (byte_val (tab (Z.of_nat n)) <? 128)) (seq 0 64) = true) as A
    by (vm_compute; reflexivity).
  rewrite forallb_forall in A. specialize (A (Z.to_nat i)). rewrite in_seq, Z2Nat.id in A by lia.
  specialize (A ltac:(lia)). reflect_bools. done.
Qed.

(** One byte of the encoder, and one digit of the decoder. *)
Lemma encode_step c l val valb out :
  encode_loop (c :: l) val valb out =
  let val := Z.lor (s32 (Z.shiftl val 8)) (byte_val c) in
  let '(out, valb) := encode_drain (Z.to_nat ((valb + 8) / 6 + 1)) val (valb + 8) out in encode_loop l val valb out.
Proof. done. Qed.

Lemma decode_step d l val valb out : 0 <= d < 64 ->
  decode_loop (tab d :: l) val valb out =
  let val := Z.lor (s32 (Z.shiftl val 6)) d in
  if 0 <=? valb + 6 then decode_loop l val (valb + 6 - 8) (out ++ [byte_of (Z.land (Z.shiftr val (valb + 6)) 255)])
  else decode_loop l val (valb + 6) out.
Proof.
  intros H. destruct (T_tab d H) as [E L]. cbn [decode_loop]. rewrite E.
  destruct (Z.leb_spec 128 (byte_val (tab d))); [lia|]. destruct (Z.ltb_spec d 0); [lia|]. done.
Qed.

Lemma decode_pad l : forall val valb out, Forall (fun c => T c < 0) l -> decode_loop l val valb out = out.
Proof.
  induction l as [|c l IH]; intros val valb out H; [done|]. inversion H as [|? ? Hc Hl]; subst. cbn [decode_loop].
  destruct (128 <=? byte_val c); [by apply IH|]. destruct (Z.ltb_spec (T c) 0); [by apply IH|lia].
Qed.

Lemma read6 v c b : 0 <= b <= 8 -> 0 <= c < 256 ->
  Z.land (Z.shiftr (Z.lor (s32 (Z.shiftl v 8)) c) b) 63 = ((v * 256 + c) mod 2 ^ (b + 6)) / 2 ^ b.
Proof. intros Hb Hc. change 63 with (Z.ones 6). rewrite window by lia. rewrite s32_low by lia. done. Qed.

Lemma read8 v d b : 0 <= b <= 6 -> 0 <= d < 64 ->
  Z.land (Z.shiftr (Z.lor (s32 (Z.shiftl v 6)) d) b) 255 = ((v * 64 + d) mod 2 ^ (b + 8)) / 2 ^ b.
Proof. intros Hb Hd. change 255 with (Z.ones 8). rewrite window by lia. rewrite s32_low by lia. done. Qed.

(** What is left of the accumulator. *)
Lemma rest8 v c n : 0 <= n <= 14 -> 0 <= c < 256 -> Z.lor (s32 (Z.shiftl v 8)) c mod 2 ^ n = (v * 256 + c) mod 2 ^ n.
Proof. intros. by rewrite s32_low by lia. Qed.
Lemma rest6 v c n : 0 <= n <= 14 -> 0 <= c < 64 -> Z.lor (s32 (Z.shiftl v 6)) c mod 2 ^ n = (v * 64 + c) mod 2 ^ n.
Proof. intros. by rewrite s32_low by lia. Qed.

#[local] Ltac b64 :=
  repeat match goal with |- context [Z.to_nat ?e] => let x := eval vm_compute in (Z.to_nat e) in change (Z.to_nat e) with x end;
  cbn -[byte_val Z.lor Z.land Z.shiftr Z.shiftl tab s32 byte_of decode_loop Z.div Z.modulo].

Lemma enc_a a l v out : exists v1, v1 mod 4 = byte_val a mod 4 /\
  encode_loop (a :: l) v (-6) out = encode_loop l v1 (-4) (out ++ [tab (byte_val a / 4)]).
Proof.
  pose proof (byte_val_bound a). exists (Z.lor (s32 (Z.shiftl v 8)) (byte_val a)). split; [|rewrite encode_step; b64; rewrite read6 by lia].
  - pose proof (rest8 v (byte_val a) 2 ltac:(lia) ltac:(lia)) as R. change (2 ^ 2) with 4 in R. rewrite R. Z.div_mod_to_equations; lia.
  - do 4 f_equal. change (2 ^ (2 + 6)) with 256. change (2 ^ 2) with 4. Z.div_mod_to_equations; lia.
Qed.

Lemma enc_b b l v out : exists v2, v2 mod 16 = byte_val b mod 16 /\
  encode_loop (b :: l) v (-4) out = encode_loop l v2 (-2) (out ++ [tab (v mod 4 * 16 + byte_val b / 16)]).
Proof.
  pose proof (byte_val_bound b). exists (Z.lor (s32 (Z.shiftl v 8)) (byte_val b)). split; [|rewrite encode_step; b64; rewrite read6 by lia].
  - pose proof (rest8 v (byte_val b) 4 ltac:(lia) ltac:(lia)) as R. change (2 ^ 4) with 16 in R. rewrite R. Z.div_mod_to_equations; lia.
  - do 4 f_equal. change (2 ^ (4 + 6)) with 1024. change (2 ^ 4) with 16. Z.div_mod_to_equations; lia.
Qed.

Lemma enc_c c l v out : exists v3,
  encode_loop (c :: l) v (-2) out = encode_loop l v3 (-6) (out ++ [tab (v mod 16 * 4 + byte_val c / 64); tab (byte_val c mod 64)]).
Proof.
  pose proof (byte_val_bound c). eexists. rewrite encode_step. b64. rewrite !read6 by lia.
  rewrite <- app_assoc. cbn [app]. do 4 f_equal; [|do 2 f_equal].
  - change (2 ^ (6 + 6)) with 4096. change (2 ^ 6) with 64. Z.div_mod_to_equations; lia.
  - change (2 ^ (0 + 6)) with 64. change (2 ^ 0) with 1. rewrite Z.div_1_r. Z.div_mod_to_equations; lia.
Qed.

Lemma dec_0 d l v out : 0 <= d < 64 -> exists w, w mod 64 = d /\ decode_loop (tab d :: l) v (-8) out = decode_loop l w (-2) out.
Proof.
  intros H. exists (Z.lor (s32 (Z.shiftl v 6)) d). rewrite decode_step by done. split; [|reflexivity].
  pose proof (rest6 v (d) 6 ltac:(lia) ltac:(lia)) as R. change (2 ^ 6) with 64 in R. rewrite R. Z.div_mod_to_equations; lia.
Qed.

Lemma dec_1 d l v out : 0 <= d < 64 -> exists w, w mod 16 = d mod 16 /\
  decode_loop (tab d :: l) v (-2) out = decode_loop l w (-4) (out ++ [byte_of (v mod 64 * 4 + d / 16)]).
Proof.
  intros H. exists (Z.lor (s32 (Z.shiftl v 6)) d). rewrite decode_step by done. b64. rewrite read8 by lia.
  split; [|do 4 f_equal].
  - pose proof (rest6 v (d) 4 ltac:(lia) ltac:(lia)) as R. change (2 ^ 4) with 16 in R. rewrite R. Z.div_mod_to_equations; lia.
  - change (2 ^ (4 + 8)) with 4096. change (2 ^ 4) with 16. Z.div_mod_to_equations; lia.
Qed.

Lemma dec_2 d l v out : 0 <= d < 64 -> exists w, w mod 4 = d mod 4 /\
  decode_loop (tab d :: l) v (-4) out = decode_loop l w (-6) (out ++ [byte_of (v mod 16 * 16 + d / 4)]).
Proof.
  intros H. exists (Z.lor (s32 (Z.shiftl v 6)) d). rewrite decode_step by done. b64. rewrite read8 by lia.
  split; [|do 4 f_equal].
  - pose proof (rest6 v (d) 2 ltac:(lia) ltac:(lia)) as R. change (2 ^ 2) with 4 in R. rewrite R. Z.div_mod_to_equations; lia.
  - change (2 ^ (2 + 8)) with 1024. change (2 ^ 2) with 4. Z.div_mod_to_equations; lia.
Qed.

Lemma dec_3 d l v out : 0 <= d < 64 -> exists w,
  decode_loop (tab d :: l) v (-6) out = decode_loop l w (-8) (out ++ [byte_of (v mod 4 * 64 + d)]).
Proof.
  intros H. exists (Z.lor (s32 (Z.shiftl v 6)) d). rewrite decode_step by done. b64. rewrite read8 by lia.
  do 4 f_equal. change (2 ^ (0 + 8)) with 256. change (2 ^ 0) with 1. rewrite Z.div_1_r. Z.div_mod_to_equations; lia.
Qed.

(** The six-bit digits of a byte string. *)
Fixpoint digits (l : bytes) : list Z :=
  match l with
  | [] => []
  | [a] => [byte_val a / 4; byte_val a mod 4 * 16]
  | [a; b] => [byte_val a / 4; byte_val a mod 4 * 16 + byte_val b / 16; byte_val b mod 16 * 4]
  | a :: b :: c :: l =>
      byte_val a / 4 :: (byte_val a mod 4 * 16 + byte_val b / 16) :: (byte_val b mod 16 * 4 + byte_val c / 64) ::
      byte_val c mod 64 :: digits l
  end.

(** Induction by three bytes. *)
Lemma three_ind (P : bytes -> Prop) :
  P [] -> (forall a, P [a]) -> (forall a b, P [a; b]) -> (forall a b c l, P l -> P (a :: b :: c :: l)) -> forall l, P l.
Proof.
  intros H0 H1 H2 H3. fix IH 1. intros [|a [|b [|c l]]]; [done|apply H1|apply H2|]. apply H3, IH.
Qed.

Definition encode_last (r : bytes * Z * Z) : bytes :=
  let '(out, val, valb) := r in
  if -6 <? valb then out ++ [tab (Z.land (Z.shiftr (s32 (Z.shiftl val 8)) (valb + 8)) 63)] else out.

Lemma read_last v b : 0 <= b <= 8 -> Z.land (Z.shiftr (s32 (Z.shiftl v 8)) b) 63 = ((v * 256) mod 2 ^ (b + 6)) / 2 ^ b.
Proof. intros H. rewrite <- (Z.lor_0_r (s32 _)), read6 by lia. by rewrite Z.add_0_r. Qed.

Lemma encode_digits l : forall v out, encode_last (encode_loop l v (-6) out) = out ++ (tab <$> digits l).
Proof.
  induction l as [|a|a b|a b c l IH] using three_ind; intros v out.
  - simpl. by rewrite app_nil_r.
  - destruct (enc_a a [] v out) as (v1 & M & ->). cbn [encode_loop encode_last digits].
    change (-6 <? -4) with true. cbv iota. change (-4 + 8) with 4. rewrite read_last by lia.
    assert ((v1 * 256) mod 2 ^ (4 + 6) / 2 ^ 4 = byte_val a mod 4 * 16) as ->
      by (change (2 ^ (4 + 6)) with 1024; change (2 ^ 4) with 16; rewrite <- M; Z.div_mod_to_equations; lia).
    by rewrite <- app_assoc.
  - destruct (enc_a a [b] v out) as (v1 & M & ->). destruct (enc_b b [] v1 (out ++ [tab (byte_val a / 4)])) as (v2 & M2 & ->).
    cbn [encode_loop encode_last digits]. change (-6 <? -2) with true. cbv iota. change (-2 + 8) with 6. rewrite read_last by lia.
    assert ((v2 * 256) mod 2 ^ (6 + 6) / 2 ^ 6 = byte_val b mod 16 * 4) as ->
      by (change (2 ^ (6 + 6)) with 4096; change (2 ^ 6) with 64; rewrite <- M2; Z.div_mod_to_equations; lia).
    by rewrite M, <- !app_assoc.
  - destruct (enc_a a (b :: c :: l) v out) as (v1 & M & ->). destruct (enc_b b (c :: l) v1 (out ++ [tab (byte_val a / 4)])) as (v2 & M2 & ->).
    rewrite M. match goal with |- context [encode_loop (c :: l) v2 (-2) ?o] => destruct (enc_c c l v2 o) as (v3 & ->) end.
    rewrite IH, M2, <- !app_assoc. done.
Qed.

Lemma B64Encode_digits l : exists n, B64Encode l = (tab <$> digits l) ++ replicate n x3d.
Proof.
  pose proof (encode_digits l 0 []) as E. unfold B64Encode, encode_last in *.
  destruct (encode_loop l 0 (-6) []) as [[out val] valb]. rewrite E. eexists. reflexivity.
Qed.

Lemma byte_of_is x b : x = byte_val b -> byte_of x = b.
Proof. intros ->. apply byte_of_val. Qed.

Lemma decode_digits pad l : Forall (fun c => T c < 0) pad -> forall w out,
  decode_loop ((tab <$> digits l) ++ pad) w (-8) out = out ++ l.
Proof.
  intros HP. induction l as [|a|a b|a b c l IH] using three_ind; intros w out.
  - simpl. rewrite decode_pad by done. by rewrite app_nil_r.
  - cbn [digits fmap list_fmap app]. pose proof (byte_val_bound a) as Ba.
    destruct (dec_0 (byte_val a / 4) (tab (byte_val a mod 4 * 16) :: pad) w out) as (w1 & M1 & ->); [Z.div_mod_to_equations; lia|].
    destruct (dec_1 (byte_val a mod 4 * 16) pad w1 out) as (w2 & M2 & ->); [Z.div_mod_to_equations; lia|].
    rewrite decode_pad by done. do 2 f_equal. apply byte_of_is. Z.div_mod_to_equations; lia.
  - cbn [digits fmap list_fmap app]. pose proof (byte_val_bound a) as Ba. pose proof (byte_val_bound b) as Bb.
    set (d1 := byte_val a mod 4 * 16 + byte_val b / 16). set (d2 := byte_val b mod 16 * 4).
    assert (0 <= d1 < 64) by (subst d1; Z.div_mod_to_equations; lia). assert (0 <= d2 < 64) by (subst d2; Z.div_mod_to_equations; lia).
    destruct (dec_0 (byte_val a / 4) (tab d1 :: tab d2 :: pad) w out) as (w1 & M1 & ->); [Z.div_mod_to_equations; lia|].
    destruct (dec_1 d1 (tab d2 :: pad) w1 out) as (w2 & M2 & ->); [done|].
    match goal with |- context [decode_loop (tab d2 :: pad) w2 (-4) ?o] => destruct (dec_2 d2 pad w2 o) as (w3 & M3 & ->); [done|] end.
    rewrite decode_pad, <- app_assoc by done. cbn [app]. f_equal. f_equal; [|f_equal].
    + apply byte_of_is. subst d1. Z.div_mod_to_equations; lia.
    + apply byte_of_is. subst d1 d2. Z.div_mod_to_equations; lia.
  - cbn [digits fmap list_fmap app]. pose proof (byte_val_bound a) as Ba. pose proof (byte_val_bound b) as Bb. pose proof (byte_val_bound c) as Bc.
    set (d1 := byte_val a mod 4 * 16 + byte_val b / 16). set (d2 := byte_val b mod 16 * 4 + byte_val c / 64).
    assert (0 <= d1 < 64) by (subst d1; Z.div_mod_to_equations; lia). assert (0 <= d2 < 64) by (subst d2; Z.div_mod_to_equations; lia).
    set (t := (tab <$> digits l) ++ pad) in *.
    destruct (dec_0 (byte_val a / 4) (tab d1 :: tab d2 :: tab (byte_val c mod 64) :: t) w out) as (w1 & M1 & ->); [Z.div_mod_to_equations; lia|].
    destruct (dec_1 d1 (tab d2 :: tab (byte_val c mod 64) :: t) w1 out) as (w2 & M2 & ->); [done|].
    match goal with |- context [decode_loop _ w2 (-4) ?o] => destruct (dec_2 d2 (tab (byte_val c mod 64) :: t) w2 o) as (w3 & M3 & ->); [done|] end.
    match goal with |- context [decode_loop _ w3 (-6) ?o] => destruct (dec_3 (byte_val c mod 64) t w3 o) as (w4 & ->); [Z.div_mod_to_equations; lia|] end.
    rewrite IH, <- !app_assoc. cbn [app]. f_equal. f_equal; [|f_equal; [|f_equal]].
    + apply byte_of_is. subst d1. Z.div_mod_to_equations; lia.
    + apply byte_of_is. subst d1 d2. Z.div_mod_to_equations; lia.
    + apply byte_of_is. subst d2. Z.div_mod_to_equations; lia.
Qed.

(** Base64 with a 32-bit accumulator loses nothing, however long the input: what the
    encoder writes, the decoder gives back. *)
Theorem b64_roundtrip l : B64Decode (B64Encode l) = l.
Proof.
  destruct (B64Encode_digits l) as [n ->]. unfold B64Decode. rewrite decode_digits; [done|].
  apply Forall_replicate. vm_compute. done.
Qed.

(** ** The polling watcher *)

Record PollWatcher := mkPoll { p_prefix : bytes; last_state : gmap bytes KeyValue }.

(** The map of an answer; a key that came twice keeps its last value. *)
Definition state_of (cur : list KeyValue) : gmap bytes KeyValue :=
  fold_left (fun m x => <[key x := x]> m) cur ∅.

(** New or changed keys. *)
Definition poll_puts (last new : gmap bytes KeyValue) : list WatchEvent :=
  omap (fun x => match last !! key x with
                 | None => Some (mkEvent kPut x no_kv)
                 | Some o => if mod_revision o =? mod_revision x then None else Some (mkEvent kPut x o)
                 end) (snd <$> map_to_list new).

Definition poll_deletes (last new : gmap bytes KeyValue) : list WatchEvent :=
  omap (fun x => match new !! key x with None => Some (mkEvent kDelete x x) | Some _ => None end) (snd <$> map_to_list last).

(** One round for one watcher; [failed] is a non-empty error of [GetPrefix]. *)
Definition poll_once (failed : bool) (cur : list KeyValue) (w : PollWatcher) : list WatchEvent * PollWatcher :=
  match failed, cur with
  | true, [] => ([], w)
  | _, _ =>
      let new := state_of cur in
      (poll_puts (last_state w) new ++ poll_deletes (last_state w) new, mkPoll (p_prefix w) new)
  end.

(** [WatchPrefix]: the state at the time of the call is not announced. *)
Definition WatchPrefixPoll (p : bytes) (initial : list KeyValue) : PollWatcher := mkPoll p (state_of initial).

(** Every value is stored under its own key. *)
Definition keyed (m : gmap bytes KeyValue) : Prop := forall k x, m !! k = Some x -> key x = k.

Lemma state_of_spec l : forall m m0 : gmap bytes KeyValue,
  (forall x, x ∈ l -> m !! key x = Some x) ->
  forall k, fold_left (fun m x => <[key x := x]> m) l m0 !! k = if decide (k ∈ key <$> l) then m !! k else m0 !! k.
Proof.
  induction l as [|x l IH]; intros m m0 H k; [done|]. simpl fold_left. rewrite (IH m) by (intros y Hy; apply H; by right).
  destruct (decide (k ∈ key <$> l)) as [I|I].
  - by rewrite decide_True by (by right).
  - destruct (decide (k = key x)) as [->|N].
    + rewrite lookup_insert_eq, decide_True by (by left). symmetry. apply H. by left.
    + rewrite lookup_insert_ne, decide_False by (done || by intros [?|?]%elem_of_cons). done.
Qed.

(** The answer to [GetPrefix] is the map it was made of. *)
Lemma state_of_GetPrefix p c : WF c -> state_of (GetPrefix p c) = under p (kvs_ c).
Proof.
  intros W. apply map_eq. intros k. unfold state_of.
  assert (forall x, x ∈ GetPrefix p c <-> exists k, under p (kvs_ c) !! k = Some x) as E.
  { intros x. unfold GetPrefix. rewrite merge_sort_Permutation, list_elem_of_fmap. split.
    - intros ([k' y] & -> & H%elem_of_map_to_list). by exists k'.
    - intros (k' & H). exists (k', x). split; [done|]. by apply elem_of_map_to_list. }
  assert (keyed (under p (kvs_ c))) as K.
  { intros k' x [H _]%map_lookup_filter_Some. by destruct (wf_kvs c W _ _ H). }
  rewrite (state_of_spec _ (under p (kvs_ c))) by (intros x (k' & H)%E; by rewrite (K _ _ H)).
  case_decide as D; [done|]. rewrite lookup_empty. destruct (under p (kvs_ c) !! k) as [x|] eqn:U; [|done].
  destruct D. apply list_elem_of_fmap. exists x. split; [by rewrite (K _ _ U)|]. apply E. by exists k.
Qed.

Lemma fold_puts evs : forall m m0 : gmap bytes KeyValue,
  (forall ev, ev ∈ evs -> type ev = kPut /\ m !! key (kv ev) = Some (kv ev)) ->
  forall k, fold_left apply_event evs m0 !! k = if decide (k ∈ (fun ev => key (kv ev)) <$> evs) then m !! k else m0 !! k.
Proof.
  induction evs as [|ev evs IH]; intros m m0 H k; [done|]. simpl fold_left. rewrite (IH m) by (intros y Hy; apply H; by right).
  destruct (H ev ltac:(by left)) as [T' L]. unfold apply_event. rewrite T'.
  destruct (decide (k ∈ (fun ev => key (kv ev)) <$> evs)) as [I|I].
  - by rewrite decide_True by (by right).
  - destruct (decide (k = key (kv ev))) as [->|N].
    + by rewrite lookup_insert_eq, decide_True by (by left).
    + rewrite lookup_insert_ne, decide_False by (done || by intros [?|?]%elem_of_cons). done.
Qed.

Lemma fold_deletes evs : forall m0 : gmap bytes KeyValue,
  (forall ev, ev ∈ evs -> type ev = kDelete) ->
  forall k, fold_left apply_event evs m0 !! k = if decide (k ∈ (fun ev => key (kv ev)) <$> evs) then None else m0 !! k.
Proof.
  induction evs as [|ev evs IH]; intros m0 H k; [done|]. simpl fold_left. rewrite IH by (intros y Hy; apply H; by right).
  unfold apply_event. rewrite (H ev ltac:(by left)). destruct (decide (k ∈ (fun ev => key (kv ev)) <$> evs)) as [I|I].
  - by rewrite decide_True by (by right).
  - destruct (decide (k = key (kv ev))) as [->|N].
    + by rewrite lookup_delete_eq, decide_True by (by left).
    + rewrite lookup_delete_ne, decide_False by (done || by intros [?|?]%elem_of_cons). done.
Qed.

Lemma elem_of_snd_map (m : gmap bytes KeyValue) x : x ∈ snd <$> map_to_list m <-> exists k, m !! k = Some x.
Proof.
  rewrite list_elem_of_fmap. split.
  - intros ([k y] & -> & H%elem_of_map_to_list). by exists k.
  - intros (k & H). exists (k, x). split; [done|]. by apply elem_of_map_to_list.
Qed.

(** The events of a round turn the old state into the new one. *)
Lemma poll_diff last new :
  keyed last -> keyed new ->
  (forall k a b, last !! k = Some a -> new !! k = Some b -> mod_revision a = mod_revision b -> a = b) ->
  fold_left apply_event (poll_puts last new ++ poll_deletes last new) last = new.
Proof.
  intros KL KN HR. apply map_eq. intros k. rewrite fold_left_app.
  rewrite fold_deletes; [rewrite (fold_puts _ new)|].
  - case_decide as D.
    + apply list_elem_of_fmap in D as (ev & -> & (x & Hx & E)%list_elem_of_omap).
      destruct (new !! key x) eqn:N; [done|]. injection E as <-. simpl. by rewrite N.
    + case_decide as P; [done|]. destruct (last !! k) as [a|] eqn:L.
      * destruct (new !! k) as [b|] eqn:N.
        -- destruct (Z.eqb_spec (mod_revision a) (mod_revision b)) as [E|E]; [by rewrite (HR k a b)|].
           destruct P. apply list_elem_of_fmap. exists (mkEvent kPut b a). pose proof (KN _ _ N) as <-. split; [done|].
           apply list_elem_of_omap. exists b. split; [apply elem_of_snd_map; by eexists|]. rewrite L.
           by destruct (Z.eqb_spec (mod_revision a) (mod_revision b)).
        -- destruct D. apply list_elem_of_fmap. exists (mkEvent kDelete a a). pose proof (KL _ _ L) as <-. split; [done|].
           apply list_elem_of_omap. exists a. split; [apply elem_of_snd_map; by eexists|]. by rewrite N.
      * destruct (new !! k) as [b|] eqn:N; [|done]. destruct P. apply list_elem_of_fmap. exists (mkEvent kPut b no_kv).
        pose proof (KN _ _ N) as <-. split; [done|]. apply list_elem_of_omap. exists b.
        split; [apply elem_of_snd_map; by eexists|]. by rewrite L.
  - intros ev (x & Hx & E)%list_elem_of_omap. apply elem_of_snd_map in Hx as (k' & Hx). pose proof (KN _ _ Hx) as <-.
    destruct (last !! key x); [destruct (_ =? _); [done|]|]; by injection E as <-.
  - intros ev (x & Hx & E)%list_elem_of_omap. destruct (new !! key x); [done|]. by injection E as <-.
Qed.

(** Rounds of the poller: what the server does before the round, and whether the request
    of the round fails. *)
Fixpoint poll_rounds (rounds : list (list op * bool)) (w : PollWatcher) (c : Client) : list WatchEvent * PollWatcher * Client :=
  match rounds with
  | [] => ([], w, c)
  | (os, failed) :: rounds =>
      let c1 := (run os c).2 in
      let '(evs, w1) := poll_once failed (if failed then [] else GetPrefix (p_prefix w) c1) w in
      let '(evs', w2, c2) := poll_rounds rounds w1 c1 in (evs ++ evs', w2, c2)
  end.

Lemma same_revision_same_entry os c k a b :
  WF c -> kvs_ c !! k = Some a -> kvs_ (run os c).2 !! k = Some b -> mod_revision a = mod_revision b -> a = b.
Proof.
  intros W A B E. destruct (wf_kvs c W _ _ A) as (_ & _ & R & _).
  destruct (run_Since (revision_ c) (Some a) k os c W) as [_ [S|[S|(y & S & L)]]]; [split; [lia|by left]|congruence|congruence|].
  assert (y = b) as -> by congruence. lia.
Qed.

Lemma run_app os os' c : (run (os ++ os') c).2 = (run os' (run os c).2).2.
Proof.
  revert c. induction os as [|o os IH]; intros c; [done|]. simpl. destruct (step o c) as [d c1].
  specialize (IH c1). destruct (run (os ++ os') c1), (run os c1). done.
Qed.

(** The last answer the poller kept is a snapshot of some earlier moment. *)
Definition Polled (p : bytes) (w : PollWatcher) (c : Client) : Prop :=
  exists c0 os, WF c0 /\ c = (run os c0).2 /\ p_prefix w = p /\ last_state w = under p (kvs_ c0).

Lemma poll_once_Polled failed os p w c evs w' :
  Polled p w c -> poll_once failed (if failed then [] else GetPrefix (p_prefix w) (run os c).2) w = (evs, w') ->
  Polled p w' (run os c).2 /\ fold_left apply_event evs (last_state w) = last_state w' /\
  (failed = false -> last_state w' = under p (kvs_ (run os c).2)).
Proof.
  intros (c0 & os0 & W0 & -> & <- & L). rewrite <- run_app. set (c1 := (run (os0 ++ os) c0).2).
  assert (WF c1) as W1 by by apply run_WF. destruct failed.
  - intros [= <- <-]. split; [|done]. exists c0, (os0 ++ os). done.
  - unfold poll_once. intros [= <- <-]. rewrite state_of_GetPrefix by done. simpl. split; [|split; [|done]].
    + exists c1, []. done.
    + rewrite L. apply poll_diff.
      * intros k x [H _]%map_lookup_filter_Some. by destruct (wf_kvs c0 W0 _ _ H).
      * intros k x [H _]%map_lookup_filter_Some. by destruct (wf_kvs c1 W1 _ _ H).
      * intros k a b [A _]%map_lookup_filter_Some [B _]%map_lookup_filter_Some. by apply (same_revision_same_entry (os0 ++ os) c0 k).
Qed.

(** The polling watcher of the HTTP client: however the server changes between the
    rounds and whichever requests fail, the events it has announced turn the state at the
    subscription into the last answer it got, which after a round that succeeded is the
    state of the server. *)
Theorem poll_follows before rounds os p c w evs w' c' :
  c = (run before new_client).2 -> w = WatchPrefixPoll p (GetPrefix p c) ->
  poll_rounds (rounds ++ [(os, false)]) w c = (evs, w', c') ->
  fold_left apply_event evs (under p (kvs_ c)) = under p (kvs_ c').
Proof.
  intros -> ->. set (c := (run before new_client).2). assert (WF c) as W by apply run_WF, WF_new.
  assert (Polled p (WatchPrefixPoll p (GetPrefix p c)) c) as P.
  { exists c, []. split_and!; try done. simpl. by apply state_of_GetPrefix. }
  rewrite <- (state_of_GetPrefix p c W). change (state_of (GetPrefix p c)) with (last_state (WatchPrefixPoll p (GetPrefix p c))).
  revert P. generalize (WatchPrefixPoll p (GetPrefix p c)) as w. generalize c as c0. clear c W before. intros c w P.
  revert w c evs P. induction rounds as [|[os' failed] rounds IH]; intros w c evs P; cbn [app poll_rounds]; cbv zeta.
  - destruct (poll_once _ _ _) as [e1 w1] eqn:O. intros [= <- <- <-].
    destruct (poll_once_Polled false os p w c e1 w1 P O) as (_ & F & L). rewrite app_nil_r, F. by apply L.
  - destruct (poll_once _ _ _) as [e1 w1] eqn:O. destruct (poll_once_Polled failed os' p w c e1 w1 P O) as (P1 & F & _).
    destruct (poll_rounds (rounds ++ [(os, false)]) w1 (run os' c).2) as [[e2 w2] c2] eqn:R. intros [= <- <- <-].
    rewrite fold_left_app, F. by apply (IH w1 _ e2 P1).
Qed.

Lemma poll_follows_witness :
  let c := (run [OPut (str "/n/a") (str "1") 0] new_client).2 in
  let rounds := [([OPut (str "/n/b") (str "2") 0; ODelete (str "/n/a")], true)] in
  let r := poll_rounds (rounds ++ [([OPut (str "/n/b") (str "3") 0], false)]) (WatchPrefixPoll (str "/n/") (GetPrefix (str "/n/") c)) c in
  fold_left apply_event r.1.1 (under (str "/n/") (kvs_ c)) = under (str "/n/") (kvs_ r.2).
Proof.
  intros c rounds r.
  apply (poll_follows [OPut (str "/n/a") (str "1") 0] rounds [OPut (str "/n/b") (str "3") 0] (str "/n/") c _ r.1.1 r.1.2 r.2 eq_refl eq_refl).
  unfold r. by destruct (poll_rounds _ _ _) as [[? ?] ?].
Defined.

End EtcdWire.
