(* ===== verification/Registrar.v ===== *)
(** * Registration of a node

    cluster/node_registrar.cpp: the value a node publishes under its key, written and
    parsed by hand, and the lifecycle that binds the key to a lease and renews it. The
    calls to etcd are those of the store of Etcd.v; whether they reach it is an outcome. *)

From S2P Require Import Prelude Mtls Boundary Etcd.
From Stdlib Require Import ZArith Lia.

Open Scope Z_scope.

Module Registrar.

Import Etcd.
#[local] Notation str := Mtls.str.
#[local] Notation is_digit := Boundary.is_digit.
#[local] Notation digit := Boundary.digit.

(** ** The value *)

Definition quote : byte := x22.

Definition EncodeNodeValue (node_id host : bytes) (grpc_port : Z) : bytes :=
  [x7b; quote] ++ str "node_id" ++ [quote; x3a; quote] ++ node_id ++ [quote; x2c; quote] ++ str "host" ++ [quote; x3a; quote] ++
  host ++ [quote; x2c; quote] ++ str "grpc_port" ++ [quote; x3a] ++ Boundary.print grpc_port ++ [x7d].

(** [std::string::find]: the first position of a substring. *)
Fixpoint find (needle s : bytes) : option nat :=
  if bool_decide (needle `prefix_of` s) then Some O
  else match s with [] => None | _ :: s => S <$> find needle s end.

Definition find_quoted (field value : bytes) : bytes :=
  let needle := [quote] ++ field ++ [quote; x3a; quote] in
  match find needle value with
  | None => []
  | Some p =>
      let start := (p + length needle)%nat in
      match find [quote] (drop start value) with
      | None => []
      | Some n => take n (drop start value)
      end
  end.

Definition is_space (c : byte) : bool := bool_decide (c = x20) || ((9 <=? byte_val c) && (byte_val c <=? 13)).

(** The digits at the front, as a number. *)
Fixpoint digits_val (acc : Z) (s : bytes) : Z :=
  match s with c :: r => if is_digit c then digits_val (acc * 10 + digit c) r else acc | [] => acc end.

(** [std::strtol] in base ten, saturating at the range of [long]. *)
Fixpoint strtol (s : bytes) : Z :=
  match s with
  | [] => 0
  | c :: r =>
      if is_space c then strtol r
      else if bool_decide (c = x2d) then Z.max (- 2 ^ 63) (- digits_val 0 r)
      else if bool_decide (c = x2b) then Z.min (2 ^ 63 - 1) (digits_val 0 r)
      else Z.min (2 ^ 63 - 1) (digits_val 0 s)
  end.

Definition find_int (field value : bytes) : Z :=
  let needle := [quote] ++ field ++ [quote; x3a] in
  match find needle value with None => -1 | Some p => strtol (drop (p + length needle)%nat value) end.

Definition DecodeNodeValue (value : bytes) : option (bytes * Z) :=
  let host := find_quoted (str "host") value in
  let port := find_int (str "grpc_port") value in
  if bool_decide (host = []) || (port <=? 0) || (65535 <? port) then None else Some (host, port).

(** ** The lifecycle *)

Record Options := mkOptions { node_id : bytes; advertise_host : bytes; grpc_port : Z; lease_ttl_seconds : Z; key_prefix : bytes }.

Record Registrar := mkRegistrar { opts_ : Options; lease_ : Z; running_ : bool }.

Definition key_ (o : Options) : bytes := key_prefix o ++ node_id o.
Definition value_ (o : Options) : bytes := EncodeNodeValue (node_id o) (advertise_host o) (grpc_port o).

Definition new_registrar (o : Options) : Registrar := mkRegistrar o kNoLease false.

(** Whether [LeaseGrant], [Put] and [LeaseRevoke] reach etcd. *)
Record start_io := mkStartIo { grant_ok : bool; put_ok : bool; revoke_ok : bool }.

Definition Start (io : start_io) (now : Z) (r : Registrar) (c : Client) : bool * Registrar * Client :=
  let o := opts_ r in
  if running_ r then (true, r, c)
  else if bool_decide (node_id o = []) || bool_decide (advertise_host o = []) || (grpc_port o =? 0) then (false, r, c)
  else if negb (grant_ok io) then (false, mkRegistrar o kNoLease false, c)
  else
    let '(l, c1) := LeaseGrant now (lease_ttl_seconds o) c in
    match (if put_ok io then Put (key_ o) (value_ o) l c1 else (None, c1)) with
    | (None, c2) => (false, mkRegistrar o kNoLease false, if revoke_ok io then (LeaseRevoke l c2).2 else c2)
    | (Some _, c2) => (true, mkRegistrar o l true, c2)
    end.

Definition Stop (revoke_ok : bool) (r : Registrar) (c : Client) : Registrar * Client :=
  if running_ r
  then (mkRegistrar (opts_ r) kNoLease false,
        if negb (lease_ r =? kNoLease) && revoke_ok then (LeaseRevoke (lease_ r) c).2 else c)
  else (r, c).

(** A round of [KeepaliveLoop]; the answer is ignored. *)
Definition KeepaliveRound (now : Z) (r : Registrar) (c : Client) : Client := (LeaseKeepAlive now (lease_ r) c).2.

(** [GrpcEtcdClient::LeaseKeepAlive]: it asks for the time the lease has left. *)
Definition GrpcLeaseKeepAlive (now l : Z) (c : Client) : bool * Client := (0 <? LeaseTTLRemaining now l c, c).

(** ** The value round trip *)

Lemma find_here needle s : needle `prefix_of` s -> find needle s = Some O.
Proof. intros H. destruct s; simpl; by rewrite bool_decide_true. Qed.

Lemma find_skip needle c s : ~ needle `prefix_of` (c :: s) -> find needle (c :: s) = S <$> find needle s.
Proof. intros H. simpl. by rewrite bool_decide_false. Qed.

Lemma find_other q needle c s : c <> q -> find (q :: needle) (c :: s) = S <$> find (q :: needle) s.
Proof. intros H. apply find_skip. intros P. by apply prefix_cons_inv_1 in P. Qed.

Lemma find_second q d needle c s : c <> d -> find (q :: d :: needle) (q :: c :: s) = S <$> find (q :: d :: needle) (c :: s).
Proof. intros H. apply find_skip. intros P. apply prefix_cons_inv_2, prefix_cons_inv_1 in P. by apply H. Qed.

Lemma find_free q needle s t : q ∉ s -> find (q :: needle) (s ++ t) = (fun n => (length s + n)%nat) <$> find (q :: needle) t.
Proof.
  induction s as [|c s IH]; intros H.
  - simpl. by destruct (find _ t).
  - apply not_elem_of_cons in H as [H1 H2]. simpl app. rewrite find_other, IH by done. by destruct (find _ t).
Qed.

(** Two strings up to their first quote. *)
Lemma prefix_upto (q : byte) (w id x y : bytes) :
  q ∉ w -> q ∉ id -> (w ++ q :: x) `prefix_of` (id ++ q :: y) -> w = id /\ x `prefix_of` y.
Proof.
  revert id. induction w as [|c w IH]; intros [|d id] Hw Hi P; simpl in P.
  - split; [done|]. by apply prefix_cons_inv_2 in P.
  - apply prefix_cons_inv_1 in P as <-. destruct Hi. by left.
  - apply prefix_cons_inv_1 in P as ->. destruct Hw. by left.
  - pose proof (prefix_cons_inv_1 _ _ _ _ P) as ->. apply prefix_cons_inv_2 in P. apply not_elem_of_cons in Hw as [_ Hw], Hi as [_ Hi].
    destruct (IH id Hw Hi P) as [-> ?]. done.
Qed.

Lemma find_drop needle pre post : find needle (pre ++ needle ++ post) = Some (length pre) ->
  drop (length pre + length needle) (pre ++ needle ++ post) = post.
Proof. intros _. rewrite <- drop_drop, drop_app_length, drop_app_length. done. Qed.

(** The first quote of a string. *)
Lemma find_quote s t : quote ∉ s -> find [quote] (s ++ quote :: t) = Some (length s).
Proof.
  intros H. rewrite find_free by done. rewrite find_here by (apply prefix_cons, prefix_nil). simpl. f_equal. lia.
Qed.

Section RoundTrip.
Context (node_id host tail : bytes) (Hid : quote ∉ node_id) (Hhost : quote ∉ host).

Lemma find_host_needle :
  let needle := [quote] ++ str "host" ++ [quote; x3a; quote] in
  let pre := [x7b; quote] ++ str "node_id" ++ [quote; x3a; quote] ++ node_id ++ [quote; x2c] in
  find needle (pre ++ needle ++ host ++ quote :: tail) = Some (length pre).
Proof.
  intros needle pre. unfold needle, pre. rewrite <- !app_assoc. change (str "host") with [x68; x6f; x73; x74].
  change (str "node_id") with [x6e; x6f; x64; x65; x5f; x69; x64]. cbn [app].
  unfold quote. rewrite find_other by done. rewrite find_second by done.
  do 7 (rewrite find_other by done). rewrite find_second by done. rewrite find_other by done.
  rewrite find_skip.
  - rewrite find_free by exact Hid. rewrite find_second by done. rewrite find_other by done.
    rewrite find_here by (do 8 apply prefix_cons; apply prefix_nil). simpl. f_equal. rewrite length_app. simpl. lia.
  - intros P. apply prefix_cons_inv_2 in P. apply (prefix_upto x22 [x68; x6f; x73; x74] node_id) in P as [_ P]; [|set_solver|done].
    by apply prefix_cons_inv_1 in P.
Qed.

Lemma find_quoted_host :
  let pre := [x7b; quote] ++ str "node_id" ++ [quote; x3a; quote] ++ node_id ++ [quote; x2c] in
  find_quoted (str "host") (pre ++ ([quote] ++ str "host" ++ [quote; x3a; quote]) ++ host ++ quote :: tail) = host.
Proof.
  intros pre. subst pre. unfold find_quoted. cbv zeta. pose proof find_host_needle as F. cbv zeta in F. rewrite F.
  rewrite (find_drop _ _ _ F). rewrite find_quote by done. by rewrite take_app_length.
Qed.

Lemma find_port_needle :
  let needle := [quote] ++ str "grpc_port" ++ [quote; x3a] in
  let pre := [x7b; quote] ++ str "node_id" ++ [quote; x3a; quote] ++ node_id ++ [quote; x2c; quote] ++ str "host" ++
             [quote; x3a; quote] ++ host ++ [quote; x2c] in
  find needle (pre ++ needle ++ tail) = Some (length pre).
Proof.
  intros needle pre. unfold needle, pre. rewrite <- !app_assoc. change (str "host") with [x68; x6f; x73; x74].
  change (str "node_id") with [x6e; x6f; x64; x65; x5f; x69; x64].
  change (str "grpc_port") with [x67; x72; x70; x63; x5f; x70; x6f; x72; x74]. cbn [app].
  assert (forall id t, quote ∉ id -> ~ [x22; x67; x72; x70; x63; x5f; x70; x6f; x72; x74; x22; x3a] `prefix_of` x22 :: id ++ x22 :: x2c :: t) as NP.
  { intros id t Hq P. apply prefix_cons_inv_2 in P.
    apply (prefix_upto x22 [x67; x72; x70; x63; x5f; x70; x6f; x72; x74] id) in P as [_ P]; [|set_solver|done].
    by apply prefix_cons_inv_1 in P. }
  unfold quote. rewrite find_other by done. rewrite find_second by done.
  do 7 (rewrite find_other by done). rewrite find_second by done. rewrite find_other by done.
  rewrite find_skip by (by apply NP). rewrite find_free by exact Hid. rewrite find_second by done. rewrite find_other by done.
  rewrite find_second by done. do 4 (rewrite find_other by done). rewrite find_second by done. rewrite find_other by done.
  rewrite find_skip by (by apply NP). rewrite find_free by exact Hhost. rewrite find_second by done. rewrite find_other by done.
  rewrite find_here by (do 12 apply prefix_cons; apply prefix_nil). simpl. f_equal. rewrite !length_app. simpl. rewrite length_app. simpl. lia.
Qed.

Lemma find_int_port :
  let pre := [x7b; quote] ++ str "node_id" ++ [quote; x3a; quote] ++ node_id ++ [quote; x2c; quote] ++ str "host" ++
             [quote; x3a; quote] ++ host ++ [quote; x2c] in
  find_int (str "grpc_port") (pre ++ ([quote] ++ str "grpc_port" ++ [quote; x3a]) ++ tail) = strtol tail.
Proof.
  intros pre. subst pre. unfold find_int. cbv zeta. pose proof find_port_needle as F. cbv zeta in F. rewrite F.
  by rewrite (find_drop _ _ _ F).
Qed.
End RoundTrip.

Lemma digits_val_app acc s t : Forall (fun c => is_digit c = true) s ->
  digits_val acc (s ++ t) = digits_val (Boundary.dec_from acc s) t.
Proof. intros F. revert acc. induction F as [|c s H F IH]; intros acc; [done|]. simpl. rewrite H. apply IH. Qed.

Lemma strtol_print n t : 0 <= n < 2 ^ 63 -> strtol (Boundary.print n ++ x7d :: t) = n.
Proof.
  intros H. destruct (Boundary.print_digits n H) as (D & F & N).
  assert (digits_val 0 (Boundary.print n ++ x7d :: t) = n) as V.
  { rewrite digits_val_app by done. simpl. unfold Boundary.decimal in D. rewrite (Boundary.decimal_dec_from _ 0 F) in D. congruence. }
  destruct (Boundary.print n) as [|c s]; [done|]. apply Forall_cons in F as [Hc _]. simpl app in *. cbn [strtol].
  assert (is_space c = false /\ bool_decide (c = x2d) = false /\ bool_decide (c = x2b) = false) as (-> & -> & ->).
  { assert (48 <= byte_val c) as L by (unfold Boundary.is_digit in Hc; reflect_bools; lia).
    assert (forall b, byte_val b < 48 -> bool_decide (c = b) = false) as NE by (intros b Hb; apply bool_decide_eq_false; intros ->; lia).
    unfold is_space. rewrite !NE by (vm_compute; done). split_and!; try done. simpl. apply andb_false_iff. right. apply Z.leb_gt. lia. }
  rewrite V. lia.
Qed.

(** What a node registers is read back by its peers: host and port survive, as long
    as neither the identity nor the host contains a quote and the port is not zero. *)
Theorem node_value_roundtrip node_id host port :
  quote ∉ node_id -> quote ∉ host -> host <> [] -> 0 < port < 65536 ->
  DecodeNodeValue (EncodeNodeValue node_id host port) = Some (host, port).
Proof.
  intros Hi Hh Hn Hp. unfold DecodeNodeValue.
  assert (find_quoted (str "host") (EncodeNodeValue node_id host port) = host) as ->.
  { unfold EncodeNodeValue.
    rewrite <- (find_quoted_host node_id host (x2c :: quote :: str "grpc_port" ++ [quote; x3a] ++ Boundary.print port ++ [x7d]) Hi Hh) at 2.
    f_equal. by rewrite <- !app_assoc. }
  assert (find_int (str "grpc_port") (EncodeNodeValue node_id host port) = port) as ->.
  { unfold EncodeNodeValue. rewrite <- (strtol_print port []) at 2 by lia.
    rewrite <- (find_int_port node_id host (Boundary.print port ++ [x7d]) Hi Hh). f_equal. by rewrite <- !app_assoc. }
  rewrite bool_decide_false by done. destruct (Z.leb_spec port 0), (Z.ltb_spec 65535 port); try lia. done.
Qed.

Lemma node_value_roundtrip_witness :
  DecodeNodeValue (EncodeNodeValue (str "node-1") (str "10.0.0.7") 7777) = Some (str "10.0.0.7", 7777).
Proof.
  apply node_value_roundtrip; [by apply (bool_decide_unpack _); vm_compute|by apply (bool_decide_unpack _); vm_compute|discriminate|lia].
Defined.

(** ** The lease of a registration *)

(** The steps of everyone else leave a key and its lease alone, and the sweeper never runs
    a lease lifetime after the last renewal. *)
Fixpoint kept (k : bytes) (l ttl last : Z) (os : list op) : Prop :=
  match os with
  | [] => True
  | OKeepAlive now l' :: os => kept k l ttl (if decide (l' = l) then now else last) os
  | OSweep now :: os => now < last + 1000 * ttl /\ kept k l ttl last os
  | (OPut k' _ _ | OPutIf k' _ _ _ | ODelete k') :: os => k' <> k /\ kept k l ttl last os
  | ORevoke l' :: os => l' <> l /\ kept k l ttl last os
  | (OGrant _ _ | OWatch _ | OUnwatch _ | ODispatch) :: os => kept k l ttl last os
  end.

(** The time of the last renewal. *)
Fixpoint renewed (l last : Z) (os : list op) : Z :=
  match os with
  | [] => last
  | OKeepAlive now l' :: os => renewed l (if decide (l' = l) then now else last) os
  | _ :: os => renewed l last os
  end.

Definition Registered (k v : bytes) (l ttl last : Z) (c : Client) : Prop :=
  WF c /\ (exists x, kvs_ c !! k = Some x /\ value x = v /\ lease x = l) /\ leases_ c !! l = Some (mkLease ttl (last + 1000 * ttl)).

Lemma Registered_other_write k v l ttl last c k' x ev r :
  k' <> k -> WF (NotifyLocked ev (set_kvs r (<[k' := x]> (kvs_ c)) c)) -> Registered k v l ttl last c ->
  Registered k v l ttl last (NotifyLocked ev (set_kvs r (<[k' := x]> (kvs_ c)) c)).
Proof. intros N W (_ & E & L). split; [done|]. split; [|done]. simpl. by rewrite lookup_insert_ne. Qed.

Lemma Registered_step k v l ttl last o os c :
  Registered k v l ttl last c -> kept k l ttl last (o :: os) ->
  let last' := renewed l last [o] in Registered k v l ttl last' (step o c).2 /\ kept k l ttl last' os.
Proof.
  intros (W & (x & E & V & L) & D) K. pose proof (WF_step o c W) as W'. assert (Registered k v l ttl last c) as R by (split; [done|eauto]).
  destruct o as [k' v' l'|k'|k' v' e l'|now t|now l'|l'|now|p|h|]; cbn [step fst snd] in W' |- *; cbv zeta; cbn [renewed]; simpl in K.
  - destruct K as [N K]. split; [|done]. unfold Put in *. destruct (_ && _); [done|]. by apply Registered_other_write.
  - destruct K as [N K]. split; [|done]. unfold Delete in *. destruct (kvs_ c !! k'); [|done]. split; [done|]. simpl.
    rewrite lookup_delete_ne by done. eauto.
  - destruct K as [N K]. split; [|done]. unfold PutIfRevision in *. destruct (negb (_ =? e)); [done|]. destruct (_ && _); [done|].
    by apply Registered_other_write.
  - split; [|done]. split; [done|]. simpl. split; [eauto|]. rewrite lookup_insert_ne; [done|].
    pose proof (wf_leases c W l ltac:(by eexists)). lia.
  - split; [|done]. unfold LeaseKeepAlive in *. destruct (decide (l' = l)) as [->|N].
    + rewrite D in *. split; [done|]. simpl. split; [eauto|]. by rewrite lookup_insert_eq.
    + destruct (leases_ c !! l') as [y|]; [|done]. split; [done|]. simpl. split; [eauto|]. by rewrite lookup_insert_ne.
  - destruct K as [N K]. split; [|done]. unfold LeaseRevoke in *. destruct (leases_ c !! l'); [|done]. split; [done|].
    cbn [snd]. rewrite ExpireLease_lookup, ExpireLease_leases, E by done. simpl. rewrite !decide_False by congruence. eauto.
  - destruct K as [T K]. split; [|done]. split; [done|]. destruct (Sweep_lookup now c W) as [SK SL]. rewrite SK, SL, E. simpl.
    assert (~ over now l c) as NO by (intros (y & Hy & T'); rewrite D in Hy; injection Hy as <-; simpl in T'; lia).
    rewrite !decide_False by (by rewrite ?L). eauto.
  - split; [|done]. split; [done|]. simpl. eauto.
  - split; [|done]. split; [done|]. simpl. eauto.
  - split; [|done]. unfold Dispatch in *. destruct (dispatch_q_ c) as [|[h ev] q]; [done|]. split; [done|]. simpl. eauto.
Qed.

Lemma renewed_cons l last o os : renewed l last (o :: os) = renewed l (renewed l last [o]) os.
Proof. by destruct o. Qed.

Lemma run_Registered k v l ttl os : forall last c,
  Registered k v l ttl last c -> kept k l ttl last os -> Registered k v l ttl (renewed l last os) (run os c).2.
Proof.
  induction os as [|o os IH]; intros last c R K; [done|]. destruct (Registered_step k v l ttl last o os c R K) as [R1 K1].
  rewrite renewed_cons. simpl run. destruct (step o c) as [d c1]. simpl in R1. specialize (IH _ c1 R1 K1). by destruct (run os c1).
Qed.

Lemma Start_registered io now r c r' c' :
  WF c -> running_ r = false -> Start io now r c = (true, r', c') ->
  Registered (key_ (opts_ r)) (value_ (opts_ r)) (lease_ r') (lease_ttl_seconds (opts_ r)) now c' /\ opts_ r' = opts_ r.
Proof.
  intros W R. unfold Start. rewrite R. destruct (_ || _); [done|]. destruct (negb (grant_ok io)); [done|].
  pose proof (WF_step (OGrant now (lease_ttl_seconds (opts_ r))) c W) as W1. simpl in W1. unfold LeaseGrant in *. simpl in W1.
  destruct (put_ok io); [|done]. set (c1 := mkClient _ _ _ _ _ _ _) in *.
  pose proof (WF_step (OPut (key_ (opts_ r)) (value_ (opts_ r)) (next_lease_ c)) c1 W1) as W2. simpl in W2. unfold Put in *.
  destruct (_ && _) eqn:G; [done|]. intros [= <- <-]. split; [|done]. split; [done|]. simpl. split.
  - eexists. rewrite lookup_insert_eq. done.
  - by rewrite lookup_insert_eq.
Qed.

(** A registration lasts exactly as long as it is renewed. If everyone else leaves the
    key and its lease alone and the sweeper never finds the lease a lifetime older than
    the last renewal, peers see the value the node published; and the first round of the
    sweeper a lifetime after the last renewal removes it. *)
Theorem registration_lasts io now r r' c0 c os before now' :
  c0 = (run before new_client).2 -> running_ r = false -> Start io now r c0 = (true, r', c) ->
  kept (key_ (opts_ r)) (lease_ r') (lease_ttl_seconds (opts_ r)) now os ->
  (exists x, Get (key_ (opts_ r)) (run os c).2 = Some x /\ value x = value_ (opts_ r)) /\
  (renewed (lease_ r') now os + 1000 * lease_ttl_seconds (opts_ r) <= now' ->
   Get (key_ (opts_ r)) (Sweep now' (run os c).2) = None).
Proof.
  intros -> R S K. destruct (Start_registered io now r _ r' c (run_WF before _ WF_new) R S) as [RG _].
  destruct (run_Registered _ _ _ _ os now c RG K) as (W & (x & E & V & L) & D). split; [by exists x|].
  intros T. unfold Get. destruct (Sweep_lookup now' (run os c).2 W) as [-> _]. rewrite E. simpl.
  rewrite decide_True; [done|]. rewrite L. eexists. split; [exact D|]. simpl. lia.
Qed.

Definition ex_options : Options := mkOptions (str "n1") (str "10.0.0.7") 7777 10 (str "/kvcache/nodes/").

Lemma registration_lasts_witness :
  let r' := mkRegistrar ex_options 1 true in
  let c := (Start (mkStartIo true true true) 0 (new_registrar ex_options) new_client).2 in
  let os := [OSweep 3000; OKeepAlive 6000 1; OSweep 12000] in
  (exists x, Get (str "/kvcache/nodes/n1") (run os c).2 = Some x /\ value x = value_ ex_options) /\
  Get (str "/kvcache/nodes/n1") (Sweep 16000 (run os c).2) = None.
Proof.
  intros r' c os.
  destruct (registration_lasts (mkStartIo true true true) 0 (new_registrar ex_options) r' new_client c os [] 16000
    eq_refl eq_refl eq_refl) as [A B]; [simpl; lia|]. split; [exact A|]. apply B. simpl. lia.
Defined.

(** With [GrpcEtcdClient] the renewals do not reach the lease: a lifetime after the start
    the registration is gone, however often the node asked to keep it. *)
Theorem grpc_renewal_does_not_renew io now r r' c0 c before asks now' :
  c0 = (run before new_client).2 -> running_ r = false -> Start io now r c0 = (true, r', c) ->
  now + 1000 * lease_ttl_seconds (opts_ r) <= now' ->
  Get (key_ (opts_ r)) (Sweep now' (fold_left (fun c t => (GrpcLeaseKeepAlive t (lease_ r') c).2) asks c)) = None.
Proof.
  intros -> R S T. assert (fold_left (fun c t => (GrpcLeaseKeepAlive t (lease_ r') c).2) asks c = c) as -> by (by induction asks).
  destruct (Start_registered io now r _ r' c (run_WF before _ WF_new) R S) as [(W & (x & E & V & L) & D) _].
  unfold Get. destruct (Sweep_lookup now' c W) as [-> _]. rewrite E. simpl.
  rewrite decide_True; [done|]. rewrite L. eexists. split; [exact D|]. simpl. lia.
Qed.

Lemma grpc_renewal_does_not_renew_witness :
  let c := (Start (mkStartIo true true true) 0 (new_registrar ex_options) new_client).2 in
  Get (str "/kvcache/nodes/n1") (Sweep 10000 (fold_left (fun c t => (GrpcLeaseKeepAlive t 1 c).2) [3000; 6000; 9000] c)) = None /\
  (GrpcLeaseKeepAlive 9000 1 c).1 = true.
Proof.
  intros c. split; [|reflexivity].
  apply (grpc_renewal_does_not_renew (mkStartIo true true true) 0 (new_registrar ex_options) (mkRegistrar ex_options 1 true)
    new_client c [] [3000; 6000; 9000] 10000 eq_refl eq_refl eq_refl). simpl. lia.
Defined.

End Registrar.
