(* ===== verification/Directory.v ===== *)
(** * Sketch publisher and node directory

    cluster/bloom_publisher.cpp: a node's sketch of what it holds, written to etcd.
    cluster/node_directory.cpp: the table of live nodes a node keeps from etcd, by the
    registrations under a prefix or by the view the control plane publishes, the ring
    built from it, and the sketches of the peers.

    Callbacks are functions of the event; what a callback hands to a detached thread (a
    watch to close, the prefix to reopen) is part of its result. [OpenPrefixWatchLocked]
    makes two calls to etcd: [seed_table] is what it does up to the first and
    [arm_watch] the second. The JSON of a view is parsed by a library, a parameter; BLAKE3
    is a parameter. The entries of a hash map are taken in the order of [map_to_list]. *)

From S2P Require Import Prelude Mtls Boundary Floats Bloom Hrw Etcd Registrar.
From Stdlib Require Import ZArith Lia.
From stdpp Require Import sorting.

Open Scope Z_scope.

Module Directory.

Import Etcd.
#[local] Notation str := Mtls.str.

(** ** BloomPublisher *)

Definition SketchKeyForTokens (tenant_hash model_hash : Z) (tokens : list Z) : bytes :=
  put_le 8 tenant_hash ++ put_le 8 model_hash ++ concat (put_le 4 <$> tokens).

Record Publisher := mkPublisher { p_key : bytes; p_lease : Z; bloom_ : Bloom.LocalBloom; publish_count_ : Z }.

Section Sketch.
Variable Blake3_64 : bytes -> Z.

(** [Add]; [None] is a word out of range. *)
Definition PublisherAdd (k : bytes) (p : Publisher) : option Publisher :=
  b ← Bloom.Add Blake3_64 k (bloom_ p); Some (mkPublisher (p_key p) (p_lease p) b (publish_count_ p)).

Definition AddTokens (tenant_hash model_hash : Z) (tokens : list Z) (p : Publisher) : option Publisher :=
  PublisherAdd (SketchKeyForTokens tenant_hash model_hash tokens) p.
End Sketch.

Definition EncodeSnapshot (b : Bloom.LocalBloom) : bytes :=
  put_le 4 (Bloom.m_bits (Bloom.params_ b)) ++ put_le 4 (Z.of_nat (Bloom.k_hashes (Bloom.params_ b))) ++ Bloom.Snapshot b.

(** [PublishNow] when [Put] reaches etcd or not. *)
Definition PublishNow (reaches : bool) (p : Publisher) (c : Client) : bool * Publisher * Client :=
  match (if reaches then Put (p_key p) (EncodeSnapshot (bloom_ p)) (p_lease p) c else (None, c)) with
  | (None, c1) => (false, p, c1)
  | (Some _, c1) => (true, mkPublisher (p_key p) (p_lease p) (bloom_ p) (publish_count_ p + 1), c1)
  end.

Definition DecodeBloomSnapshot (encoded : bytes) : option (Bloom.BloomParams * bytes) :=
  if zlen encoded <? 8 then None
  else
    let m := get_le (take 4 encoded) in
    let k := get_le (take 4 (drop 4 encoded)) in
    if (m =? 0) || (k =? 0) then None
    else if zlen encoded <? 8 + u32 (m + 7) / 8 then None
    else Some (Bloom.mkParams m (Z.to_nat k), drop 8 encoded).

(** ** NodeDirectory *)

Record NodeEndpoint := mkEndpoint { host : bytes; grpc_port : Z; dial_target : bytes }.

Definition DialTarget (h : bytes) (port : Z) : bytes := h ++ [x3a] ++ Boundary.print port.
Definition endpoint (h : bytes) (port : Z) : NodeEndpoint := mkEndpoint h port (DialTarget h port).

(** The rest of a key below a prefix; empty if there is none. *)
Definition KeyToNodeId (k prefix : bytes) : bytes :=
  if (length k <=? length prefix)%nat || negb (bool_decide (take (length prefix) k = prefix)) then []
  else drop (length prefix) k.

Record Options := mkOptions { key_prefix : bytes; view_key : bytes; sketch_prefix : bytes }.
Definition default_options : Options := mkOptions (str "/kvcache/nodes/") (str "/kvcache/cluster/view") (str "/kvcache/sketches/").

Record Dir := mkDir {
  opts_ : Options; table_ : gmap bytes NodeEndpoint; ring_ : Hrw.Ring; sketches_ : gmap bytes Bloom.AggregatedBloom;
  last_view_leader_ : bytes; last_view_epoch_ : Z; view_active_ : bool; watch_handle_ : Z }.

Definition new_dir (o : Options) (r : Hrw.Ring) : Dir := mkDir o ∅ r ∅ [] 0 false 0.

(** [RebuildRingLocked] after a change of the table. *)
Definition ring_of (t : gmap bytes NodeEndpoint) (r : Hrw.Ring) : Hrw.Ring :=
  Hrw.SetNodes ((fun e => Hrw.mkNode e.1 (double_of 1)) <$> map_to_list t) r.

Definition set_table (t : gmap bytes NodeEndpoint) (d : Dir) : Dir :=
  mkDir (opts_ d) t (ring_of t (ring_ d)) (sketches_ d) (last_view_leader_ d) (last_view_epoch_ d) (view_active_ d) (watch_handle_ d).

Definition set_sketches (s : gmap bytes Bloom.AggregatedBloom) (d : Dir) : Dir :=
  mkDir (opts_ d) (table_ d) (ring_ d) s (last_view_leader_ d) (last_view_epoch_ d) (view_active_ d) (watch_handle_ d).

(** *** Sketches *)

Definition ApplyPeerSketch (id blob : bytes) (d : Dir) : Dir :=
  match DecodeBloomSnapshot blob with
  | None => d
  | Some (p, raw) =>
      let a := match sketches_ d !! id with None => Bloom.mkAgg p [] | Some a => a end in
      set_sketches (<[id := Bloom.Set_ p raw a]> (sketches_ d)) d
  end.

Definition OnSketchWatch (ev : WatchEvent) (d : Dir) : Dir :=
  match KeyToNodeId (key (kv ev)) (sketch_prefix (opts_ d)) with
  | [] => d
  | id => match type ev with
          | kDelete => set_sketches (delete id (sketches_ d)) d
          | kPut => ApplyPeerSketch id (value (kv ev)) d
          end
  end.

Definition PeerMaybeHas (Blake3_64 : bytes -> Z) (id k : bytes) (d : Dir) : option bool :=
  match sketches_ d !! id with
  | None => Some false
  | Some a => Bloom.AggMaybeContains Blake3_64 k a
  end.

(** *** Registrations *)

(** One entry of the seed. *)
Definition seed_entry (prefix : bytes) (t : gmap bytes NodeEndpoint) (x : KeyValue) : gmap bytes NodeEndpoint :=
  match KeyToNodeId (key x) prefix with
  | [] => t
  | id => match Registrar.DecodeNodeValue (value x) with None => t | Some (h, port) => <[id := endpoint h port]> t end
  end.

Definition seed_table (seed : list KeyValue) (d : Dir) : Dir :=
  if watch_handle_ d =? 0 then set_table (fold_left (seed_entry (key_prefix (opts_ d))) seed ∅) d else d.

Definition arm_watch (h : Z) (d : Dir) : Dir :=
  if watch_handle_ d =? 0
  then mkDir (opts_ d) (table_ d) (ring_ d) (sketches_ d) (last_view_leader_ d) (last_view_epoch_ d) (view_active_ d) h
  else d.

(** [OpenPrefixWatchLocked] with nothing between its two calls. *)
Definition OpenPrefixWatch (d : Dir) (c : Client) : Dir * Client :=
  if watch_handle_ d =? 0
  then let d1 := seed_table (GetPrefix (key_prefix (opts_ d)) c) d in
       let '(h, c1) := WatchPrefix (key_prefix (opts_ d)) c in (arm_watch h d1, c1)
  else (d, c).

Definition OnWatch (ev : WatchEvent) (d : Dir) : Dir :=
  match KeyToNodeId (key (kv ev)) (key_prefix (opts_ d)) with
  | [] => d
  | id =>
      if view_active_ d then d
      else match type ev with
           | kDelete => set_table (delete id (table_ d)) d
           | kPut => match Registrar.DecodeNodeValue (value (kv ev)) with
                     | None => d
                     | Some (h, port) => set_table (<[id := endpoint h port]> (table_ d)) d
                     end
           end
  end.

(** *** Views *)

Record ViewNode := mkViewNode { v_id : bytes; v_host : bytes; v_port : Z }.
Record ClusterView := mkView { leader_id : bytes; epoch : Z; nodes : list ViewNode }.

Section View.
(** The document, with the defaults of missing fields; [None] if it does not parse. *)
Variable parse_view : bytes -> option ClusterView.

Definition view_entry (t : gmap bytes NodeEndpoint) (n : ViewNode) : gmap bytes NodeEndpoint :=
  let port := v_port n mod 65536 in
  if bool_decide (v_id n = []) || bool_decide (v_host n = []) || (port =? 0) then t
  else <[v_id n := endpoint (v_host n) port]> t.

Definition view_table (v : ClusterView) : gmap bytes NodeEndpoint := fold_left view_entry (nodes v) ∅.

(** Whether the view was accepted, and the handle that a detached thread will close. *)
Definition ApplyClusterViewJson (json : bytes) (d : Dir) : bool * Z * Dir :=
  match json with
  | [] => (false, 0, d)
  | _ =>
      match parse_view json with
      | None => (false, 0, d)
      | Some v =>
          if bool_decide (leader_id v = last_view_leader_ d) && (epoch v <=? last_view_epoch_ d) then (false, 0, d)
          else
            let t := view_table v in
            (true, if view_active_ d then 0 else watch_handle_ d,
             mkDir (opts_ d) t (ring_of t (ring_ d)) (sketches_ d) (leader_id v) (epoch v) true
               (if view_active_ d then watch_handle_ d else 0))
      end
  end.

(** Whether a detached thread will reopen the prefix, the handle another will close, and
    the directory. *)
Definition OnClusterViewWatch (ev : WatchEvent) (d : Dir) : bool * Z * Dir :=
  match type ev with
  | kDelete => (view_active_ d, 0,
                mkDir (opts_ d) (table_ d) (ring_ d) (sketches_ d) [] 0 false (watch_handle_ d))
  | kPut => let '(_, h, d1) := ApplyClusterViewJson (value (kv ev)) d in (false, h, d1)
  end.

(** [Start] of a directory whose watches etcd accepts: the view if there is one, else the
    registrations; then the watches of the view and of the sketches, seeded. *)
Definition Start (d : Dir) (c : Client) : Dir * Client :=
  let '(seeded, _, d1) := match view_key (opts_ d) with
                          | [] => (false, 0, d)
                          | k => match Get k c with None => (false, 0, d) | Some x => ApplyClusterViewJson (value x) d end
                          end in
  let '(d2, c2) := if seeded then (d1, c) else OpenPrefixWatch d1 c in
  let c3 := match view_key (opts_ d) with [] => c2 | k => (WatchPrefix k c2).2 end in
  match sketch_prefix (opts_ d) with
  | [] => (d2, c3)
  | p => (fold_left (fun d x => match KeyToNodeId (key x) p with [] => d | id => ApplyPeerSketch id (value x) d end) (GetPrefix p c3) d2,
          (WatchPrefix p c3).2)
  end.
End View.

(** *** Queries *)

Definition id_le (a b : bytes) : Prop := ble a b = true.
#[global] Instance id_le_dec : RelDecision id_le.
Proof. unfold RelDecision, id_le. apply _. Defined.

Definition NodeIds (d : Dir) : list bytes := merge_sort id_le (elements (dom (table_ d))).
Definition Resolve (id : bytes) (d : Dir) : option NodeEndpoint := table_ d !! id.
Definition NodeCount (d : Dir) : nat := size (table_ d).

(** ** Sketches travel unchanged *)

Lemma concat_put_le_inj n l1 l2 :
  (0 < n)%nat -> Forall (fun t => 0 <= t < 256 ^ Z.of_nat n) l1 -> Forall (fun t => 0 <= t < 256 ^ Z.of_nat n) l2 ->
  concat (put_le n <$> l1) = concat (put_le n <$> l2) -> l1 = l2.
Proof.
  intros N F1. revert l2. induction F1 as [|x l1 X F1 IH]; intros [|y l2] F2 E; simpl in E.
  - done.
  - apply (f_equal length) in E. rewrite length_app, length_put_le in E. simpl in E. lia.
  - apply (f_equal length) in E. rewrite length_app, length_put_le in E. simpl in E. lia.
  - apply Forall_cons in F2 as [Y F2]. apply app_inj_1 in E as [E1 E2]; [|by rewrite !length_put_le].
    f_equal; [|by apply IH]. apply (f_equal get_le) in E1. rewrite !get_put_le, !Z.mod_small in E1 by done. done.
Qed.

(** The key of a sketch entry determines tenant, model and tokens. *)
Lemma sketch_key_inj th mh ts th' mh' ts' :
  0 <= th < 2 ^ 64 -> 0 <= mh < 2 ^ 64 -> 0 <= th' < 2 ^ 64 -> 0 <= mh' < 2 ^ 64 ->
  Forall (fun t => 0 <= t < 2 ^ 32) ts -> Forall (fun t => 0 <= t < 2 ^ 32) ts' ->
  SketchKeyForTokens th mh ts = SketchKeyForTokens th' mh' ts' -> th = th' /\ mh = mh' /\ ts = ts'.
Proof.
  intros H1 H2 H3 H4 F F' E. unfold SketchKeyForTokens in E.
  apply app_inj_1 in E as [E1 E]; [|by rewrite !length_put_le]. apply app_inj_1 in E as [E2 E3]; [|by rewrite !length_put_le].
  apply (f_equal get_le) in E1, E2. rewrite !get_put_le in E1, E2. change (256 ^ Z.of_nat 8) with (2 ^ 64) in E1, E2.
  rewrite !Z.mod_small in E1, E2 by done. split; [done|]. split; [done|]. by apply (concat_put_le_inj 4); [lia| | |].
Qed.

Lemma sketch_blob_roundtrip b :
  Bloom.params_ok (Bloom.params_ b) -> Bloom.m_bits (Bloom.params_ b) < 2 ^ 32 ->
  (0 < Bloom.k_hashes (Bloom.params_ b))%nat -> Z.of_nat (Bloom.k_hashes (Bloom.params_ b)) < 2 ^ 32 ->
  Bloom.sized_words (Bloom.params_ b) (Bloom.words_ b) ->
  DecodeBloomSnapshot (EncodeSnapshot b) = Some (Bloom.params_ b, Bloom.Snapshot b).
Proof.
  intros [P1 P2] M K1 K2 [L _]. unfold DecodeBloomSnapshot, EncodeSnapshot.
  set (m := Bloom.m_bits (Bloom.params_ b)) in *. set (k := Bloom.k_hashes (Bloom.params_ b)) in *.
  assert (zlen (Bloom.Snapshot b) = m / 8) as LS.
  { unfold Bloom.Snapshot. rewrite Bloom.length_snapshot, L. pose proof (Z.div_pos m 64). rewrite Nat2Z.inj_mul, Z2Nat.id by lia.
    Z.div_mod_to_equations; lia. }
  assert (u32 (m + 7) / 8 <= m / 8) as LB.
  { apply Z.div_exact in P2; [|lia]. unfold u32. assert (m <= 2 ^ 32 - 64) by (Z.div_mod_to_equations; lia).
    rewrite Z.mod_small by lia. Z.div_mod_to_equations; lia. }
  pose proof (Z.div_pos m 8 ltac:(lia) ltac:(lia)).
  rewrite !length_app, !length_put_le, !Nat2Z.inj_add, LS.
  destruct (Z.ltb_spec (Z.of_nat 4 + (Z.of_nat 4 + m / 8)) 8); [lia|].
  rewrite take_app_length', drop_app_length', take_app_length' by (by rewrite length_put_le).
  rewrite !get_put_le. change (256 ^ Z.of_nat 4) with (2 ^ 32). rewrite !Z.mod_small by lia.
  destruct (Z.eqb_spec m 0), (Z.eqb_spec (Z.of_nat k) 0); try lia. simpl orb. cbv iota.
  destruct (Z.ltb_spec (Z.of_nat 4 + (Z.of_nat 4 + m / 8)) (8 + u32 (m + 7) / 8)); [lia|].
  rewrite Nat2Z.id, app_assoc, drop_app_length' by (by rewrite length_app, !length_put_le).
  do 2 f_equal. subst m k. by destruct (Bloom.params_ b).
Qed.

(** Adding the chunks of a list. *)
Fixpoint add_chunks (Blake3_64 : bytes -> Z) (l : list (Z * Z * list Z)) (p : Publisher) : option Publisher :=
  match l with
  | [] => Some p
  | (th, mh, ts) :: l => p' ← AddTokens Blake3_64 th mh ts p; add_chunks Blake3_64 l p'
  end.

Definition chunk_key (e : Z * Z * list Z) : bytes := SketchKeyForTokens e.1.1 e.1.2 e.2.

Lemma add_chunks_bloom Blake3_64 l : forall p,
  add_chunks Blake3_64 l p =
  (b ← Bloom.add_all Blake3_64 (chunk_key <$> l) (bloom_ p); Some (mkPublisher (p_key p) (p_lease p) b (publish_count_ p))).
Proof.
  induction l as [|[[th mh] ts] l IH]; intros p; simpl.
  - by destruct p.
  - unfold AddTokens, PublisherAdd. change (chunk_key (th, mh, ts)) with (SketchKeyForTokens th mh ts).
    destruct (Bloom.Add Blake3_64 (SketchKeyForTokens th mh ts) (bloom_ p)) as [b|]; [|done]. simpl. by rewrite IH.
Qed.

Lemma KeyToNodeId_app p id : KeyToNodeId (p ++ id) p = id.
Proof.
  unfold KeyToNodeId. rewrite bool_decide_true by apply take_app_length. rewrite length_app, drop_app_length. simpl.
  destruct (Nat.leb_spec (length p + length id) (length p)) as [L|L]; simpl; [|done]. destruct id; [done|simpl in *; lia].
Qed.

Lemma KeyToNodeId_inv k p c id : KeyToNodeId k p = c :: id -> k = p ++ c :: id.
Proof.
  unfold KeyToNodeId. destruct (_ || _) eqn:E; [done|]. apply orb_false_iff in E as [_ E]. reflect_bools.
  intros <-. rewrite <- E at 1. by rewrite take_drop.
Qed.

(** A sealed prefix is found through the sketches. After a node has added chunks to a
    fresh sketch of its size and published it, every watcher of the sketches gets an event
    after which its directory answers that the node may have each of them. *)
Theorem sealed_chunks_discoverable Blake3_64 params chunks id h d c :
  Bloom.params_ok params -> Bloom.m_bits params < 2 ^ 32 -> 0 < Z.of_nat (Bloom.k_hashes params) < 2 ^ 32 -> id <> [] ->
  watchers_ c !! h = Some (sketch_prefix (opts_ d)) ->
  exists p p' c' ev,
    add_chunks Blake3_64 chunks (mkPublisher (sketch_prefix (opts_ d) ++ id) kNoLease (Bloom.make params) 0) = Some p /\
    PublishNow true p c = (true, p', c') /\
    events_of h (dispatch_q_ c') = events_of h (dispatch_q_ c) ++ [ev] /\
    forall e, e ∈ chunks -> PeerMaybeHas Blake3_64 id (chunk_key e) (OnSketchWatch ev d) = Some true.
Proof.
  intros P M K NE W. rewrite add_chunks_bloom. simpl bloom_.
  destruct (Bloom.add_all_spec Blake3_64 params (chunk_key <$> chunks) (Bloom.make params) P eq_refl (Bloom.make_sized params P))
    as (b & E & Ep & S & _ & _).
  destruct (Bloom.sketch_complete Blake3_64 params (chunk_key <$> chunks) (Bloom.mkAgg params []) P) as (b' & E' & _ & C & A).
  assert (b' = b) as -> by congruence. rewrite E. simpl.
  do 4 eexists. split; [done|]. split; [reflexivity|]. split.
  - simpl. rewrite events_of_app, events_of_watching, W. simpl.
    assert (has_prefix (sketch_prefix (opts_ d)) (sketch_prefix (opts_ d) ++ id) = true) as -> by (apply bool_decide_eq_true; by eexists).
    done.
  - intros e He. unfold OnSketchWatch. simpl. rewrite KeyToNodeId_app. destruct id as [|x id]; [done|].
    unfold ApplyPeerSketch. rewrite sketch_blob_roundtrip by (rewrite Ep; done || lia). unfold PeerMaybeHas. simpl.
    rewrite lookup_insert_eq. rewrite Ep. rewrite (Bloom.Set_snapshot params b _ P Ep S), <- (Bloom.Set_snapshot params b (Bloom.mkAgg params []) P Ep S).
    rewrite A. apply C. apply list_elem_of_fmap. by exists e.
Qed.

Lemma sealed_chunks_discoverable_witness :
  let d := new_dir default_options (Hrw.new_ring Hrw.default_alpha) in
  let c := (WatchPrefix (sketch_prefix (opts_ d)) new_client).2 in
  exists p p' c' ev,
    add_chunks Bloom.w_hash64 [(1, 2, [7; 8])] (mkPublisher (str "/kvcache/sketches/n1") kNoLease (Bloom.make Bloom.w_params) 0) = Some p /\
    PublishNow true p c = (true, p', c') /\ events_of 1 (dispatch_q_ c') = [ev] /\
    PeerMaybeHas Bloom.w_hash64 (str "n1") (chunk_key (1, 2, [7; 8])) (OnSketchWatch ev d) = Some true.
Proof.
  intros d c.
  destruct (sealed_chunks_discoverable Bloom.w_hash64 Bloom.w_params [(1, 2, [7; 8])] (str "n1") 1 d c) as (p & p' & c' & ev & A & B & C & D).
  - split; [vm_compute; reflexivity|reflexivity].
  - vm_compute. reflexivity.
  - vm_compute. split; [reflexivity|reflexivity].
  - discriminate.
  - reflexivity.
  - exists p, p', c', ev. split; [exact A|]. split; [exact B|]. split; [exact C|]. apply D. by left.
Defined.

(** ** The table follows the registrations *)

(** The endpoint that a registration stands for. *)
Definition registered (prefix id : bytes) (m : gmap bytes KeyValue) : option NodeEndpoint :=
  match id with
  | [] => None
  | _ => x ← m !! (prefix ++ id); '(h, port) ← Registrar.DecodeNodeValue (value x); Some (endpoint h port)
  end.

Definition Agrees (prefix : bytes) (t : gmap bytes NodeEndpoint) (m : gmap bytes KeyValue) : Prop :=
  forall id, t !! id = registered prefix id m.

(** Reading a list of entries, each under its key, into a table. *)
Definition from_or (o : option NodeEndpoint) (t : gmap bytes NodeEndpoint) (id : bytes) : option NodeEndpoint :=
  match o with Some e => Some e | None => t !! id end.

Lemma seed_one (prefix : bytes) (m : gmap bytes KeyValue) (t : gmap bytes NodeEndpoint) (x : KeyValue) (id : bytes) :
  m !! key x = Some x ->
  seed_entry prefix t x !! id = if decide (prefix ++ id = key x) then from_or (registered prefix id m) t id else t !! id.
Proof.
  intros Hx. unfold seed_entry, from_or. destruct (KeyToNodeId (key x) prefix) as [|c i] eqn:K.
  - case_decide as D; [|done]. rewrite <- D, KeyToNodeId_app in K. by subst.
  - pose proof (KeyToNodeId_inv _ _ _ _ K) as E. destruct (decide (prefix ++ id = key x)) as [D|D].
    + rewrite <- D in E. apply app_inv_head in E as ->. unfold registered. rewrite D, Hx. simpl.
      destruct (Registrar.DecodeNodeValue (value x)) as [[h port]|]; simpl; [by rewrite lookup_insert_eq|done].
    + destruct (Registrar.DecodeNodeValue (value x)) as [[h port]|]; [|done]. rewrite lookup_insert_ne; [done|].
      intros <-. by apply D.
Qed.

Lemma seed_entries (prefix : bytes) (m : gmap bytes KeyValue) (l : list KeyValue) : forall t,
  (forall x, x ∈ l -> m !! key x = Some x) ->
  forall id : bytes, fold_left (seed_entry prefix) l t !! id =
    if decide (prefix ++ id ∈ key <$> l) then from_or (registered prefix id m) t id else t !! id.
Proof.
  induction l as [|x l IH]; intros t H id; cbn [fold_left].
  { by rewrite decide_False by apply not_elem_of_nil. }
  rewrite IH by (intros y Hy; apply H; by right). clear IH. pose proof (seed_one prefix m t x id (H x ltac:(by left))) as S.
  destruct (decide (prefix ++ id ∈ key <$> l)) as [D|D].
  - rewrite decide_True by (by right). unfold from_or in *. destruct (registered prefix id m) as [e|]; [done|].
    rewrite S. by destruct (decide (prefix ++ id = key x)).
  - rewrite S. apply decide_ext. rewrite fmap_cons, elem_of_cons. naive_solver.
Qed.

Lemma seed_agrees (prefix : bytes) (c : Client) :
  WF c -> Agrees prefix (fold_left (seed_entry prefix) (GetPrefix prefix c) ∅) (kvs_ c).
Proof.
  intros W id. assert (forall x, x ∈ GetPrefix prefix c <-> exists k, under prefix (kvs_ c) !! k = Some x) as E.
  { intros x. unfold GetPrefix. rewrite merge_sort_Permutation, list_elem_of_fmap. split.
    - intros ([k' y] & -> & H%elem_of_map_to_list). by exists k'.
    - intros (k' & H). exists (k', x). split; [done|]. by apply elem_of_map_to_list. }
  rewrite (seed_entries prefix (kvs_ c)).
  - unfold from_or. rewrite lookup_empty. case_decide as D; [by destruct (registered prefix id (kvs_ c))|].
    unfold registered. destruct id as [|b i]; [done|]. destruct (kvs_ c !! (prefix ++ b :: i)) as [x|] eqn:K; [|done].
    destruct D. apply list_elem_of_fmap. exists x. split; [by destruct (wf_kvs c W _ _ K)|]. apply E.
    exists (prefix ++ b :: i). apply map_lookup_filter_Some. split; [done|]. apply bool_decide_eq_true. by eexists.
  - intros x (k & [K _]%map_lookup_filter_Some)%E. destruct (wf_kvs c W _ _ K) as [-> _]. done.
Qed.

(** One event, in prefix mode. *)
Lemma OnWatch_agrees ev d m :
  view_active_ d = false -> (type ev = kPut -> is_Some (Registrar.DecodeNodeValue (value (kv ev)))) ->
  Agrees (key_prefix (opts_ d)) (table_ d) m ->
  let d' := OnWatch ev d in
  Agrees (key_prefix (opts_ d')) (table_ d') (apply_event m ev) /\ view_active_ d' = false /\ opts_ d' = opts_ d.
Proof.
  intros V P A. unfold OnWatch. destruct (KeyToNodeId (key (kv ev)) (key_prefix (opts_ d))) as [|c i] eqn:K; cbv zeta.
  - split; [|done]. intros id. rewrite A. unfold registered. destruct id as [|b j]; [done|].
    assert (key_prefix (opts_ d) ++ b :: j <> key (kv ev)) as N by (intros E; rewrite <- E, KeyToNodeId_app in K; done).
    unfold apply_event. destruct (type ev); [by rewrite lookup_insert_ne|by rewrite lookup_delete_ne].
  - pose proof (KeyToNodeId_inv _ _ _ _ K) as E. rewrite V. unfold apply_event. destruct (type ev) eqn:T.
    + destruct (P eq_refl) as [[h port] D]. rewrite D. split; [|done]. intros id. simpl.
      destruct (decide (id = c :: i)) as [->|N].
      * rewrite lookup_insert_eq. unfold registered. rewrite <- E, lookup_insert_eq. simpl. by rewrite D.
      * rewrite lookup_insert_ne by done. rewrite A. unfold registered. destruct id as [|b j]; [done|].
        rewrite lookup_insert_ne; [done|]. rewrite E. intros X%app_inv_head. by apply N.
    + split; [|done]. intros id. simpl. destruct (decide (id = c :: i)) as [->|N].
      * rewrite lookup_delete_eq. unfold registered. by rewrite <- E, lookup_delete_eq.
      * rewrite lookup_delete_ne by done. rewrite A. unfold registered. destruct id as [|b j]; [done|].
        rewrite lookup_delete_ne; [done|]. rewrite E. intros X%app_inv_head. by apply N.
Qed.

Definition on_events (evs : list WatchEvent) (d : Dir) : Dir := fold_left (fun d ev => OnWatch ev d) evs d.

Lemma on_events_agrees evs : forall d m,
  view_active_ d = false -> (forall ev, ev ∈ evs -> type ev = kPut -> is_Some (Registrar.DecodeNodeValue (value (kv ev)))) ->
  Agrees (key_prefix (opts_ d)) (table_ d) m ->
  Agrees (key_prefix (opts_ d)) (table_ (on_events evs d)) (fold_left apply_event evs m).
Proof.
  induction evs as [|ev evs IH]; intros d m V P A; [done|]. simpl.
  destruct (OnWatch_agrees ev d m V (P ev ltac:(by left)) A) as (A' & V' & O). rewrite <- O. apply IH; try done.
  intros e He. apply P. by right.
Qed.

(** The ring is the table's. *)
Lemma OnWatch_ring ev d : Hrw.nodes_ (ring_ d) = Hrw.nodes_ (ring_of (table_ d) (ring_ d)) ->
  Hrw.nodes_ (ring_ (OnWatch ev d)) = Hrw.nodes_ (ring_of (table_ (OnWatch ev d)) (ring_ (OnWatch ev d))).
Proof.
  intros R. unfold OnWatch. destruct (KeyToNodeId _ _); [done|]. destruct (view_active_ d); [done|].
  destruct (type ev); [|done]. by destruct (Registrar.DecodeNodeValue _) as [[h port]|].
Qed.

Lemma on_events_ring evs : forall d, Hrw.nodes_ (ring_ d) = Hrw.nodes_ (ring_of (table_ d) (ring_ d)) ->
  Hrw.nodes_ (ring_ (on_events evs d)) = Hrw.nodes_ (ring_of (table_ (on_events evs d)) (ring_ (on_events evs d))).
Proof. induction evs as [|ev evs IH]; intros d R; [done|]. simpl. apply IH. by apply OnWatch_ring. Qed.

Lemma under_registered prefix id m : registered prefix id (under prefix m) = registered prefix id m.
Proof.
  unfold registered. destruct id as [|b i]; [done|]. f_equal. unfold under.
  destruct (m !! (prefix ++ b :: i)) as [x|] eqn:K.
  - apply map_lookup_filter_Some. split; [done|]. apply bool_decide_eq_true. by eexists.
  - apply map_lookup_filter_None. by left.
Qed.

Lemma OpenPrefixWatch_eq d c : watch_handle_ d = 0 ->
  OpenPrefixWatch d c =
    (let t := fold_left (seed_entry (key_prefix (opts_ d))) (GetPrefix (key_prefix (opts_ d)) c) ∅ in
     mkDir (opts_ d) t (ring_of t (ring_ d)) (sketches_ d) (last_view_leader_ d) (last_view_epoch_ d) (view_active_ d) (next_watch_ c),
     (WatchPrefix (key_prefix (opts_ d)) c).2).
Proof. intros H. unfold OpenPrefixWatch, seed_table, arm_watch. rewrite H. simpl. by rewrite H. Qed.

(** [C22] A directory that follows the registrations ends up with them. If nothing happens
    between the two calls that open the watch and every value registered can be decoded,
    then once no event is queued for it the table holds exactly the endpoints registered in
    etcd and the ring exactly the nodes of the table, each at weight one, whatever was
    registered, removed or expired in between. *)
Theorem directory_converges before os c d d1 c1 ds c2 :
  c = (run before new_client).2 -> view_active_ d = false -> watch_handle_ d = 0 -> OpenPrefixWatch d c = (d1, c1) ->
  run os c1 = (ds, c2) -> OUnwatch (watch_handle_ d1) ∉ os ->
  (forall ev, ev ∈ events_of (watch_handle_ d1) ds -> type ev = kPut -> is_Some (Registrar.DecodeNodeValue (value (kv ev)))) ->
  events_of (watch_handle_ d1) (dispatch_q_ c2) = [] ->
  let d2 := on_events (events_of (watch_handle_ d1) ds) d1 in
  (forall id, Resolve id d2 = registered (key_prefix (opts_ d)) id (kvs_ c2)) /\
  Hrw.uniform (ring_ d2) /\ Hrw.id <$> Hrw.nodes_ (ring_ d2) ≡ₚ elements (dom (table_ d2)).
Proof.
  intros -> V H0 O R NU P Q d2. set (c := (run before new_client).2) in *. assert (WF c) as W by apply run_WF, WF_new.
  rewrite OpenPrefixWatch_eq in O by done. simpl in O. injection O as <- <-. simpl watch_handle_ in *.
  set (h := next_watch_ c) in *. set (p := key_prefix (opts_ d)) in *. set (c1 := mkClient _ _ _ _ _ _ _) in *.
  set (d1 := mkDir _ _ _ _ _ _ _ _) in d2.
  assert (WF c1) as W1 by (apply (WF_step (OWatch p) c W)).
  assert (Follows h p (under p (kvs_ c)) [] c1) as F.
  { split; simpl; [by rewrite lookup_insert_eq|].
    assert (events_of h (dispatch_q_ c) = []) as ->; [|done]. by apply events_of_fresh. }
  pose proof (run_Follows os h p _ [] c1 W1 NU F) as [_ F']. rewrite R in F'. simpl in F'. rewrite Q, app_nil_r in F'.
  assert (Agrees p (table_ d1) (under p (kvs_ c))) as A by (intros id; rewrite under_registered; by apply seed_agrees).
  assert (Hrw.nodes_ (ring_ d2) = Hrw.nodes_ (ring_of (table_ d2) (ring_ d2))) as RG by (by apply on_events_ring).
  split_and!.
  - intros id. unfold Resolve. subst d2. rewrite (on_events_agrees (events_of h ds) d1 (under p (kvs_ c)) V P A id).
    rewrite F'. apply under_registered.
  - unfold Hrw.uniform. rewrite RG. simpl. apply Forall_fmap, Forall_forall. done.
  - rewrite RG. simpl. rewrite <- list_fmap_compose. apply NoDup_Permutation.
    + apply (NoDup_fst_map_to_list (table_ d2)).
    + apply NoDup_elements.
    + intros id. rewrite elem_of_elements, elem_of_dom, list_elem_of_fmap. split.
      * intros ([i e] & -> & I%elem_of_map_to_list). by eexists.
      * intros [e I]. exists (id, e). split; [done|]. by apply elem_of_map_to_list.
Qed.

Definition ex_dir : Dir := new_dir default_options (Hrw.new_ring Hrw.default_alpha).
Definition ex_value (n : bytes) : bytes := Registrar.EncodeNodeValue n (str "10.0.0.7") 7777.
Definition ex_ops : list op :=
  [OPut (str "/kvcache/nodes/n2") (ex_value (str "n2")) 0; ODelete (str "/kvcache/nodes/n1"); ODispatch; ODispatch].

Lemma directory_converges_witness :
  let c := (run [OPut (str "/kvcache/nodes/n1") (ex_value (str "n1")) 0] new_client).2 in
  let r := run ex_ops (OpenPrefixWatch ex_dir c).2 in
  let d2 := on_events (events_of 1 r.1) (OpenPrefixWatch ex_dir c).1 in
  Resolve (str "n1") d2 = registered (str "/kvcache/nodes/") (str "n1") (kvs_ r.2) /\ is_Some (Resolve (str "n2") d2).
Proof.
  intros c r d2.
  destruct (directory_converges [OPut (str "/kvcache/nodes/n1") (ex_value (str "n1")) 0] ex_ops c ex_dir
    (OpenPrefixWatch ex_dir c).1 (OpenPrefixWatch ex_dir c).2 r.1 r.2 eq_refl eq_refl eq_refl) as (A & _).
  - apply surjective_pairing.
  - apply surjective_pairing.
  - vm_compute. apply not_elem_of_cons. split; [discriminate|]. apply not_elem_of_cons. split; [discriminate|].
    apply not_elem_of_cons. split; [discriminate|]. apply not_elem_of_cons. split; [discriminate|]. apply not_elem_of_nil.
  - intros ev Hev T. vm_compute in Hev. apply elem_of_cons in Hev as [->|Hev]; [vm_compute; eexists; reflexivity|].
    apply elem_of_cons in Hev as [->|Hev]; [vm_compute in T; discriminate|]. by apply elem_of_nil in Hev.
  - vm_compute. reflexivity.
  - split; [exact (A (str "n1"))|]. vm_compute. eexists. reflexivity.
Defined.

(** Between the two calls that open the watch a registration can be lost for good: it is
    not in the seed, and the watch starts after it. *)
Example registration_lost_in_the_gap :
  let d1 := seed_table (GetPrefix (str "/kvcache/nodes/") new_client) ex_dir in
  let c1 := (Put (str "/kvcache/nodes/n1") (ex_value (str "n1")) 0 new_client).2 in
  let '(h, c2) := WatchPrefix (str "/kvcache/nodes/") c1 in
  Resolve (str "n1") (arm_watch h d1) = None /\ dispatch_q_ c2 = [] /\
  is_Some (registered (str "/kvcache/nodes/") (str "n1") (kvs_ c2)).
Proof. vm_compute. split; [reflexivity|]. split; [reflexivity|]. eexists. reflexivity. Qed.

(** ** Views *)

Section Views.
Variable parse_view : bytes -> option ClusterView.

Inductive dir_event := ERegistration (ev : WatchEvent) | EView (json : bytes) | ESketch (ev : WatchEvent).

Definition deliver (d : Dir) (e : dir_event) : Dir :=
  match e with
  | ERegistration ev => OnWatch ev d
  | EView json => (ApplyClusterViewJson parse_view json d).2
  | ESketch ev => OnSketchWatch ev d
  end.

(** The directory is in the state that one view puts it in. *)
Definition InView (v : ClusterView) (d : Dir) : Prop :=
  view_active_ d = true /\ table_ d = view_table v /\ last_view_leader_ d = leader_id v /\ last_view_epoch_ d = epoch v.

Lemma OnSketchWatch_view ev d : let d' := OnSketchWatch ev d in
  view_active_ d' = view_active_ d /\ table_ d' = table_ d /\ last_view_leader_ d' = last_view_leader_ d /\ last_view_epoch_ d' = last_view_epoch_ d.
Proof.
  unfold OnSketchWatch, ApplyPeerSketch. destruct (KeyToNodeId _ _); [done|]. destruct (type ev); [|done].
  by destruct (DecodeBloomSnapshot _) as [[p raw]|].
Qed.

Definition viewed (e : dir_event) : option ClusterView :=
  match e with EView (b :: json) => parse_view (b :: json) | _ => None end.

Lemma deliver_view v d e :
  InView v d ->
  exists v', InView v' (deliver d e) /\ (v' = v \/ viewed e = Some v') /\
    (forall w, viewed e = Some w -> leader_id w = leader_id v -> leader_id v' = leader_id v /\ epoch w <= epoch v' /\ epoch v <= epoch v').
Proof.
  intros I. pose proof I as (A & T & L & E). destruct e as [ev|json|ev]; simpl.
  - exists v. split; [|by split; [left|]]. unfold OnWatch. destruct (KeyToNodeId _ _); [done|]. by rewrite A.
  - unfold ApplyClusterViewJson. destruct json as [|b json]; [by exists v; split; [|split; [left|]]|].
    destruct (parse_view (b :: json)) as [w|] eqn:P; [|exists v; split; [done|]; split; [by left|done]].
    destruct (_ && _) eqn:S.
    + reflect_bools. exists v. split; [done|]. split; [by left|]. intros w' [= <-] _. split; [done|]. lia.
    + exists w. split; [done|]. split; [by right|]. intros w' [= <-] EL. split; [done|].
      apply andb_false_iff in S as [S|S]; reflect_bools; [by rewrite L, EL in S|lia].
  - exists v. split; [|by split; [left|]]. unfold InView. destruct (OnSketchWatch_view ev d) as (-> & -> & -> & ->). done.
Qed.

(** While a view is in force it is the only source of the table: registrations do not
    touch it, whatever their order, and of the views of one leader the newest wins even if
    they arrive out of order. *)
Theorem view_is_sole_source es v d :
  InView v d -> (forall e w, e ∈ es -> viewed e = Some w -> leader_id w = leader_id v) ->
  exists v', InView v' (fold_left deliver es d) /\ (v' = v \/ exists e, e ∈ es /\ viewed e = Some v') /\
    epoch v <= epoch v' /\ forall e w, e ∈ es -> viewed e = Some w -> epoch w <= epoch v'.
Proof.
  revert v d. induction es as [|e es IH]; intros v d I H.
  - exists v. split; [done|]. split; [by left|]. split; [lia|]. intros e w X. by apply elem_of_nil in X.
  - destruct (deliver_view v d e I) as (v1 & I1 & S1 & M1). simpl.
    assert (leader_id v1 = leader_id v) as L1.
    { destruct S1 as [->|S1]; [done|]. by apply (H e v1 ltac:(by left)). }
    assert (epoch v <= epoch v1) as E1.
    { destruct S1 as [->|S1]; [lia|]. by destruct (M1 v1 S1 (H e v1 ltac:(by left) S1)) as (_ & _ & ?). }
    destruct (IH v1 (deliver d e) I1) as (v2 & I2 & S2 & E2 & M2).
    { intros e' w X Y. rewrite L1. apply (H e' w); [by right|done]. }
    exists v2. split; [done|]. split.
    + destruct S2 as [->|(e' & X & Y)]; [|right; exists e'; split; [by right|done]].
      destruct S1 as [->|S1]; [by left|]. right. exists e. split; [by left|done].
    + split; [lia|]. intros e' w [->|X]%elem_of_cons Y; [|by apply (M2 e' w)].
      destruct (M1 w Y (H e w ltac:(by left) Y)) as (_ & ? & _). lia.
Qed.
End Views.

(** A parser that reads one of two documents. *)
Definition ex_node (n : bytes) : ViewNode := mkViewNode n (str "10.0.0.7") 7777.
Definition ex_parse (json : bytes) : option ClusterView :=
  if bool_decide (json = str "a1") then Some (mkView (str "a") 1 [ex_node (str "n1")])
  else if bool_decide (json = str "a2") then Some (mkView (str "a") 2 [ex_node (str "n2")])
  else if bool_decide (json = str "b1") then Some (mkView (str "b") 1 [ex_node (str "n3")])
  else None.

Definition ex_registration (n : bytes) : WatchEvent :=
  mkEvent kPut (mkKV (str "/kvcache/nodes/" ++ n) (ex_value n) 1 1 0) no_kv.

Lemma view_is_sole_source_witness :
  exists v', InView v' (fold_left (deliver ex_parse) [EView (str "a2"); ERegistration (ex_registration (str "n9")); EView (str "a1")]
                          (deliver ex_parse ex_dir (EView (str "a1")))) /\ 2 <= epoch v'.
Proof.
  destruct (view_is_sole_source ex_parse [EView (str "a2"); ERegistration (ex_registration (str "n9")); EView (str "a1")]
    (mkView (str "a") 1 [ex_node (str "n1")]) (deliver ex_parse ex_dir (EView (str "a1")))) as (v' & I & _ & _ & M).
  - by repeat split.
  - intros e w H V. apply elem_of_cons in H as [->|H]; [vm_compute in V; by injection V as <-|].
    apply elem_of_cons in H as [->|H]; [discriminate|]. apply elem_of_cons in H as [->|H]; [|by apply elem_of_nil in H].
    vm_compute in V. by injection V as <-.
  - exists v'. split; [exact I|]. exact (M (EView (str "a2")) (mkView (str "a") 2 [ex_node (str "n2")]) ltac:(by left) eq_refl).
Defined.

(** Views of two leaders are not ordered: a delayed view of the leader that was replaced
    takes the table back. *)
Example stale_leader_takes_over :
  let d := fold_left (deliver ex_parse) [EView (str "a2"); EView (str "b1"); EView (str "a1")] ex_dir in
  NodeIds d = [str "n1"] /\ last_view_leader_ d = str "a".
Proof. vm_compute. done. Qed.

(** The view is deleted, a thread is to reopen the registrations, and a new view comes
    first: the thread then replaces the table under the view in force. *)
Example reopen_after_new_view :
  let d1 := deliver ex_parse ex_dir (EView (str "a1")) in
  let '(reopen, _, d2) := OnClusterViewWatch ex_parse (mkEvent kDelete (mkKV (str "/kvcache/cluster/view") [] 1 1 0) no_kv) d1 in
  let d3 := deliver ex_parse d2 (EView (str "b1")) in
  let c := (run [OPut (str "/kvcache/nodes/n9") (ex_value (str "n9")) 0] new_client).2 in
  let d4 := (OpenPrefixWatch d3 c).1 in
  reopen = true /\ NodeIds d3 = [str "n3"] /\ view_active_ d4 = true /\ NodeIds d4 = [str "n9"].
Proof. vm_compute. done. Qed.

End Directory.
