(* ===== verification/Abi.v ===== *)
(** * The C interface

    core-abi/src/kv_abi.cpp and ctx_options.cpp: contexts, the options the node of the
    process is created with, and the calls, each of which checks its context and forwards
    to the node. What the callers of the interface rely on is the class [Core]; the node
    of HeadlessNode.v is its instance [headless].

    A context is a record, or [None] for a null pointer. What the system and the other
    components answer during a call (the clock, the log of the tree, the tiers' devices,
    the transfer) is the argument [env] of the call. *)

From S2P Require Import Prelude Mtls Boundary Locator Events Lpm DramTier NvmeTier Ingest ColdTier TierManager HeadlessNode Etcd Registrar.
From Stdlib Require Import ZArith Lia.

Open Scope Z_scope.

Module Abi.

Import Locator Node.
#[local] Notation str := Mtls.str.

(** ** Options (ctx_options.cpp) *)

Record Options := mkOptions {
  nixl_backend : bytes; nixl_bind_host : bytes; nixl_bind_port : Z; nixl_segment_bytes_set : bool; nixl_segment_bytes : Z;
  pool_bytes : Z; slot_bytes : Z; capacity_bytes : Z; a1out_max_entries : Z; enable_nvme : bool; enable_cold : bool; use_mlock : bool }.

Definition DefaultOptions : Options :=
  mkOptions (str "loopback") (str "127.0.0.1") 0 false 0 (Z.shiftl 32 20) (Z.shiftl 4 20) (Z.shiftl 64 20) 1024 false false false.

Definition set_backend (b : bytes) (o : Options) : Options :=
  mkOptions b (nixl_bind_host o) (nixl_bind_port o) (nixl_segment_bytes_set o) (nixl_segment_bytes o)
    (pool_bytes o) (slot_bytes o) (capacity_bytes o) (a1out_max_entries o) (enable_nvme o) (enable_cold o) (use_mlock o).
Definition set_bind_host (h : bytes) (o : Options) : Options :=
  mkOptions (nixl_backend o) h (nixl_bind_port o) (nixl_segment_bytes_set o) (nixl_segment_bytes o)
    (pool_bytes o) (slot_bytes o) (capacity_bytes o) (a1out_max_entries o) (enable_nvme o) (enable_cold o) (use_mlock o).
Definition set_bind_port (p : Z) (o : Options) : Options :=
  mkOptions (nixl_backend o) (nixl_bind_host o) p (nixl_segment_bytes_set o) (nixl_segment_bytes o)
    (pool_bytes o) (slot_bytes o) (capacity_bytes o) (a1out_max_entries o) (enable_nvme o) (enable_cold o) (use_mlock o).
Definition set_segment (s : Z) (o : Options) : Options :=
  mkOptions (nixl_backend o) (nixl_bind_host o) (nixl_bind_port o) true s
    (pool_bytes o) (slot_bytes o) (capacity_bytes o) (a1out_max_entries o) (enable_nvme o) (enable_cold o) (use_mlock o).
Definition set_sizes (p s c : Z) (o : Options) : Options :=
  mkOptions (nixl_backend o) (nixl_bind_host o) (nixl_bind_port o) (nixl_segment_bytes_set o) (nixl_segment_bytes o)
    p s c (a1out_max_entries o) (enable_nvme o) (enable_cold o) (use_mlock o).

(** [atoi], through [strtol]; [strtoull] in base ten. *)
Definition atoi (s : bytes) : Z := u32 (Registrar.strtol s).

Fixpoint strtoull (s : bytes) : Z :=
  match s with
  | [] => 0
  | c :: r =>
      if Registrar.is_space c then strtoull r
      else
        let digits := if bool_decide (c = x2d) || bool_decide (c = x2b) then r else s in
        let v := Registrar.digits_val 0 digits in
        if 2 ^ 64 <=? v then 2 ^ 64 - 1 else if bool_decide (c = x2d) then u64 (- v) else v
  end.

(** The value of a variable that is set and not empty. *)
Definition env_value (getenv : bytes -> option bytes) (name : bytes) : option bytes :=
  match getenv name with Some (c :: r) => Some (c :: r) | _ => None end.

Definition opt_apply {A} (f : A -> Options -> Options) (o : option A) (x : Options) : Options :=
  match o with Some a => f a x | None => x end.

Definition ApplyEnvOverrides (getenv : bytes -> option bytes) (o : Options) : Options :=
  let o1 := opt_apply set_backend (env_value getenv (str "KVCACHE_NIXL_BACKEND")) o in
  let o2 := opt_apply set_bind_host (env_value getenv (str "KVCACHE_NIXL_BIND_HOST")) o1 in
  let o3 := opt_apply (fun p => set_bind_port (atoi p)) (env_value getenv (str "KVCACHE_NIXL_BIND_PORT")) o2 in
  opt_apply (fun s => set_segment (strtoull s)) (env_value getenv (str "KVCACHE_NIXL_SEGMENT_BYTES")) o3.

Record kv_ctx_tuning_t := mkTuning {
  t_backend : option bytes; t_bind_host : option bytes; t_bind_port : Z; t_segment : Z; t_segment_set : Z;
  t_pool : Z; t_slot : Z; t_dram : Z }.

(** A string that is neither null nor empty. *)
Definition given (s : option bytes) : option bytes := match s with Some (c :: r) => Some (c :: r) | _ => None end.
Definition nonzero (z : Z) : option Z := if z =? 0 then None else Some z.

Definition ApplyTuning (t : kv_ctx_tuning_t) (o : Options) : Options :=
  let o1 := opt_apply set_backend (given (t_backend t)) o in
  let o2 := opt_apply set_bind_host (given (t_bind_host t)) o1 in
  let o3 := opt_apply set_bind_port (nonzero (t_bind_port t)) o2 in
  let o4 := if t_segment_set t =? 0 then o3 else set_segment (t_segment t) o3 in
  set_sizes (default (pool_bytes o4) (nonzero (t_pool t))) (default (slot_bytes o4) (nonzero (t_slot t)))
    (default (capacity_bytes o4) (nonzero (t_dram t))) o4.

Definition BuildCtxOptions (getenv : bytes -> option bytes) (tuning : option kv_ctx_tuning_t) : Options :=
  let o := ApplyEnvOverrides getenv DefaultOptions in match tuning with None => o | Some t => ApplyTuning t o end.

(** The first of the layers that sets a field. *)
Definition tuned {A} (tuning : option kv_ctx_tuning_t) (f : kv_ctx_tuning_t -> option A) : option A :=
  match tuning with Some t => f t | None => None end.
Definition layered {A} (t env : option A) (dflt : A) : A := default (default dflt env) t.

(** Tuning wins over the environment, the environment over the defaults, field by field. *)
Theorem options_precedence getenv tuning :
  let o := BuildCtxOptions getenv tuning in
  let env name := env_value getenv (str name) in
  nixl_backend o = layered (tuned tuning (fun t => given (t_backend t))) (env "KVCACHE_NIXL_BACKEND") (str "loopback") /\
  nixl_bind_host o = layered (tuned tuning (fun t => given (t_bind_host t))) (env "KVCACHE_NIXL_BIND_HOST") (str "127.0.0.1") /\
  nixl_bind_port o = layered (tuned tuning (fun t => nonzero (t_bind_port t))) (atoi <$> env "KVCACHE_NIXL_BIND_PORT") 0 /\
  nixl_segment_bytes o =
    layered (tuned tuning (fun t => if t_segment_set t =? 0 then None else Some (t_segment t))) (strtoull <$> env "KVCACHE_NIXL_SEGMENT_BYTES") 0 /\
  pool_bytes o = layered (tuned tuning (fun t => nonzero (t_pool t))) None (2 ^ 25) /\
  slot_bytes o = layered (tuned tuning (fun t => nonzero (t_slot t))) None (2 ^ 22) /\
  capacity_bytes o = layered (tuned tuning (fun t => nonzero (t_dram t))) None (2 ^ 26).
Proof.
  cbv zeta. unfold BuildCtxOptions, layered, tuned. set (e := ApplyEnvOverrides getenv DefaultOptions).
  assert (nixl_backend e = default (str "loopback") (env_value getenv (str "KVCACHE_NIXL_BACKEND")) /\
    nixl_bind_host e = default (str "127.0.0.1") (env_value getenv (str "KVCACHE_NIXL_BIND_HOST")) /\
    nixl_bind_port e = default 0 (atoi <$> env_value getenv (str "KVCACHE_NIXL_BIND_PORT")) /\
    nixl_segment_bytes e = default 0 (strtoull <$> env_value getenv (str "KVCACHE_NIXL_SEGMENT_BYTES")) /\
    pool_bytes e = 2 ^ 25 /\ slot_bytes e = 2 ^ 22 /\ capacity_bytes e = 2 ^ 26) as (E1 & E2 & E3 & E4 & E5 & E6 & E7).
  { unfold e, ApplyEnvOverrides, opt_apply. split_and!; by repeat case_match. }
  rewrite <- E1, <- E2, <- E3, <- E4, <- E5, <- E6, <- E7. generalize e. intros x.
  destruct tuning as [t|]; [|done]. unfold ApplyTuning, opt_apply. split_and!.
  all: destruct (given (t_backend t)), (given (t_bind_host t)), (nonzero (t_bind_port t)), (t_segment_set t =? 0); reflexivity.
Qed.

(** ** The node behind the interface *)

Record kv_buffer := mkBuffer { b_addr : Z; b_len : Z; b_mr_key : Z }.

(** What the calls need of the node of the process, and what identifies a caller in it. *)
Class Core := {
  core : Type; env : Type;
  n_lookup : Z -> Z -> list Z -> core -> (code * option lookup_answer) * core;
  n_reserve : env -> kv_locator_t -> Z -> Z -> Z -> core -> (code * option (Z * kv_buffer)) * core;
  n_publish : Z -> Z -> core -> code * core;
  n_fetch : env -> Z -> kv_buffer -> core -> (code * option bytes) * core;
  n_seal : env -> Z -> list Z -> core -> code * core;
  n_release : Z -> core -> code * core;
  n_stored_bytes : Z -> core -> code * Z;
  n_replica_fetch : kv_locator_t -> core -> code * option (list bytes * bytes) }.

(** Handles are numbers that are given once: [issued] is the next. *)
Class CoreLaws (K : Core) := {
  issued : core -> Z;
  lookup_issues th mh ts c a c' : n_lookup th mh ts c = ((KV_OK, Some a), c') -> a_handle a = issued c /\ issued c' = issued c + 1;
  lookup_else th mh ts c r c' : n_lookup th mh ts c = ((r, None), c') -> r <> KV_OK /\ c' = c;
  lookup_error th mh ts c r a c' : n_lookup th mh ts c = ((r, Some a), c') -> r = KV_OK;
  reserve_issues e l b th mh c h s c' : n_reserve e l b th mh c = ((KV_OK, Some (h, s)), c') -> h = issued c /\ issued c' = issued c + 1;
  reserve_else e l b th mh c r c' : n_reserve e l b th mh c = ((r, None), c') -> r <> KV_OK /\ issued c' = issued c;
  reserve_error e l b th mh c r a c' : n_reserve e l b th mh c = ((r, Some a), c') -> r = KV_OK;
  publish_issued h w c : issued (n_publish h w c).2 = issued c;
  fetch_issued e h d c : issued (n_fetch e h d c).2 = issued c;
  seal_issued e h ts c : issued (n_seal e h ts c).2 = issued c;
  release_issued h c : issued (n_release h c).2 = issued c }.

(** *** The node of HeadlessNode.v *)

Section Headless.
Context (Blake3_128 : bytes -> bytes) {C : Cold.IColdTier}.

(** What the environment answers to one call. [slot_key] is the key the pinned pool was
    registered under; a registered destination is used as it is. *)
Record headless_env := mkEnv {
  log_ok : art_log; now : Z; f_io : TierManager.fetch_io C; x_io : transfer_io; slot_key : Z }.

Definition dst_of (d : kv_buffer) : option Z := if b_addr d =? 0 then None else Some (b_len d).

#[export] Instance headless : Core := {|
  core := Node C; env := headless_env;
  n_lookup := Lookup Blake3_128;
  n_reserve e l b th mh n :=
    let '((r, o), n') := Reserve (now e) l b th mh n in
    ((r, (fun x => (x.1, mkBuffer (Ingest.addr x.2) (Ingest.s_bytes x.2) (slot_key e))) <$> o), n');
  n_publish := Publish;
  n_fetch e h d n :=
    let x := if b_mr_key d =? 0 then x_io e else mkTransfer (src_ok (x_io e)) true (xfer_ok (x_io e)) in
    Fetch (log_ok e) (now e) (f_io e) x h (dst_of d) n;
  n_seal e := Seal Blake3_128 (log_ok e) (now e);
  n_release := Release;
  n_stored_bytes := HandleStoredBytes;
  n_replica_fetch := ReplicaFetch |}.

Lemma stage_issued lg t k d kind (n : Node C) : next_handle_ (stage lg t k d kind n) = next_handle_ n.
Proof. unfold stage. by destruct (TierManager.StageToDram k d kind (tm_ n)). Qed.

Lemma SealCommit_issued lg t h l ih path (n : Node C) : next_handle_ (SealCommit lg t h l ih path n).2 = next_handle_ n.
Proof.
  unfold SealCommit. destruct (negb _); [done|]. destruct (insert_leaf _ _ _ _) as [[] p3]; simpl;
    (destruct (Ingest.GetSlot ih (pool n)) as [s|]; [|done]); destruct (0 <? _); simpl; auto using stage_issued.
Qed.

#[export] Instance headless_laws : CoreLaws headless.
Proof.
  refine {| issued := next_handle_ : core (Core := headless) -> Z |}; simpl.
  - intros th mh ts c a c'. unfold Lookup. destruct ts; [done|]. destruct (Lpm.leaf _); [|done]. destruct (_ =? 0); [done|].
    destruct (heap_ _ !! _) as [lf|]; [|done]. destruct (TryAcquireIfNonZero _); [|done]. intros [= <- <-]. done.
  - intros th mh ts c r c'. unfold Lookup. destruct ts; [by intros [= <- <-]|]. destruct (Lpm.leaf _); [|by intros [= <- <-]].
    destruct (_ =? 0); [by intros [= <- <-]|]. destruct (heap_ _ !! _) as [lf|]; [|by intros [= <- <-]].
    destruct (TryAcquireIfNonZero _); [done|by intros [= <- <-]].
  - intros th mh ts c r a c'. unfold Lookup. destruct ts; [done|]. destruct (Lpm.leaf _); [|done].
    destruct (_ =? 0); [done|]. destruct (heap_ _ !! _) as [lf|]; [|done]. destruct (TryAcquireIfNonZero _); [|done]. congruence.
  - intros e l b th mh c h s c'. unfold Reserve. destruct (b =? 0); [done|]. destruct (Ingest.Reserve _ _ _ _) as [ih p1].
    destruct (ih =? _); [done|]. destruct (Ingest.GetSlot _ _) as [slot|]; [|done]. destruct (_ <? b); [done|].
    simpl. intros [= <- _ <-]. done.
  - intros e l b th mh c r c'. unfold Reserve. destruct (b =? 0); [by intros [= <- <-]|]. destruct (Ingest.Reserve _ _ _ _) as [ih p1].
    destruct (ih =? _); [by intros [= <- <-]|]. destruct (Ingest.GetSlot _ _) as [slot|]; [|by intros [= <- <-]].
    destruct (_ <? b); [by intros [= <- <-]|done].
  - intros e l b th mh c r a c'. unfold Reserve. destruct (b =? 0); [done|]. destruct (Ingest.Reserve _ _ _ _) as [ih p1].
    destruct (ih =? _); [done|]. destruct (Ingest.GetSlot _ _) as [slot|]; [|done]. destruct (_ <? b); [done|]. simpl. congruence.
  - intros h w c. unfold Publish. by destruct (handles_ c !! h) as [[]|].
  - intros e h d c. unfold Fetch. destruct (handles_ c !! h) as [[]|]; try done.
    destruct (TierManager.Fetch _ _ _) as [[r ks] tm]. destruct r as [[? dd]|]; [|done].
    destruct (match dst_of d with None => true | Some len => _ end); [done|]. by destruct (_ || _).
  - intros e h ts c. unfold Seal. destruct (handles_ c !! h) as [[]|]; try done. destruct (_ <? _)%nat; [done|]. apply SealCommit_issued.
  - intros h c. unfold Release. destruct (handles_ c !! h) as [[]|]; try done. by destruct (_ =? 0).
Defined.
End Headless.

(** ** Contexts and calls (kv_abi.cpp) *)

Definition KVCACHE_ABI_VERSION : Z := 2.

Record kv_ctx_s := mkCtx {
  c_tenant_id : bytes; c_model_id : bytes; model_id_hash : Z; tenant_id_hash : Z; sub_id : Z }.

(** The configuration of a context; strings may be null. *)
Record kv_ctx_config_t := mkConfig { abi_version : Z; cfg_tenant : option bytes; cfg_model : option bytes }.

(** [node_ok]: whether the node of the process exists or could be created. *)
Definition kv_ctx_open (cfg : option kv_ctx_config_t) (node_ok : bool) : code * option kv_ctx_s :=
  match cfg with
  | None => (KV_E_INVAL, None)
  | Some c =>
      if negb (abi_version c =? KVCACHE_ABI_VERSION) then (KV_E_VERSION_MISMATCH, None)
      else if negb node_ok then (KV_E_INTERNAL, None)
      else
        let t := default [] (cfg_tenant c) in
        let m := default [] (cfg_model c) in
        (KV_OK, Some (mkCtx t m (Fnv1a64 m) (match t with [] => 0 | _ => Fnv1a64 t end) 0))
  end.

Definition kv_ctx_open_from_hashes (version tenant_hash model_hash : Z) (node_ok : bool) : code * option kv_ctx_s :=
  if negb (version =? KVCACHE_ABI_VERSION) then (KV_E_VERSION_MISMATCH, None)
  else if negb node_ok then (KV_E_INTERNAL, None)
  else (KV_OK, Some (mkCtx [] [] model_hash tenant_hash 0)).

Section Calls.
Context {K : Core}.

Definition kv_lookup (ctx : option kv_ctx_s) (tokens : list Z) (n : core) : (code * option lookup_answer) * core :=
  match ctx with None => ((KV_E_INVAL, None), n) | Some c => n_lookup (tenant_id_hash c) (model_id_hash c) tokens n end.

Definition kv_reserve (e : env) (ctx : option kv_ctx_s) (l : kv_locator_t) (b : Z) (n : core) : (code * option (Z * kv_buffer)) * core :=
  match ctx with None => ((KV_E_INVAL, None), n) | Some c => n_reserve e l b (tenant_id_hash c) (model_id_hash c) n end.

Definition kv_publish (ctx : option kv_ctx_s) (h watermark : Z) (n : core) : code * core :=
  match ctx with None => (KV_E_INVAL, n) | Some _ => n_publish h watermark n end.

Definition kv_fetch (e : env) (ctx : option kv_ctx_s) (h : Z) (dst : kv_buffer) (n : core) : (code * option bytes) * core :=
  match ctx with None => ((KV_E_INVAL, None), n) | Some _ => n_fetch e h dst n end.

(** [Wait] of the node has nothing to wait for: a fetch is complete when it returns. *)
Definition kv_wait (ctx : option kv_ctx_s) : code := match ctx with None => KV_E_INVAL | Some _ => KV_OK end.

Definition kv_seal (e : env) (ctx : option kv_ctx_s) (h : Z) (tokens : list Z) (n : core) : code * core :=
  match ctx with None => (KV_E_INVAL, n) | Some _ => n_seal e h tokens n end.

Definition kv_release (ctx : option kv_ctx_s) (h : Z) (n : core) : code * core :=
  match ctx with None => (KV_E_INVAL, n) | Some _ => n_release h n end.

Definition kv_lookup_stored_bytes (ctx : option kv_ctx_s) (h : Z) (n : core) : code * option Z :=
  match ctx with
  | None => (KV_E_INVAL, None)
  | Some _ => match n_stored_bytes h n with (KV_OK, b) => (KV_OK, Some b) | (r, _) => (r, None) end
  end.
End Calls.

(** *** Subscriptions: at most one a context *)

(** [new_id] is what the node's [SubscribeEvents] answers, 0 if it fails. *)
Definition kv_subscribe_events (new_id : Z) (ctx : option kv_ctx_s) : code * option kv_ctx_s :=
  match ctx with
  | None => (KV_E_INVAL, ctx)
  | Some c =>
      if negb (sub_id c =? 0) then (KV_E_BUSY, ctx)
      else if new_id =? 0 then (KV_E_INTERNAL, ctx)
      else (KV_OK, Some (mkCtx (c_tenant_id c) (c_model_id c) (model_id_hash c) (tenant_id_hash c) new_id))
  end.

(** The subscription that the node is told to end, if any. *)
Definition kv_unsubscribe_events (ctx : option kv_ctx_s) : code * option Z * option kv_ctx_s :=
  match ctx with
  | None => (KV_E_INVAL, None, ctx)
  | Some c =>
      if sub_id c =? 0 then (KV_OK, None, ctx)
      else (KV_OK, Some (sub_id c), Some (mkCtx (c_tenant_id c) (c_model_id c) (model_id_hash c) (tenant_id_hash c) 0))
  end.

Definition kv_ctx_close (ctx : option kv_ctx_s) : code * option Z :=
  match ctx with Some c => (KV_OK, if sub_id c =? 0 then None else Some (sub_id c)) | None => (KV_OK, None) end.

(** *** Registered memory; the transport answers [exported], [imported], [registered] *)

(** The code, the length reported, and what is copied to a buffer of [cap] bytes. *)
Definition kv_export_mr (ctx : option kv_ctx_s) (backend : bool) (exported : option bytes) (out : option Z) :
    code * option Z * option bytes :=
  match ctx with
  | None => (KV_E_INVAL, None, None)
  | Some _ =>
      if negb backend then (KV_E_INTERNAL, None, None)
      else match exported with
           | None => (KV_E_INVAL, None, None)
           | Some d => if (match out with None => true | Some cap => cap <? zlen d end)
                       then (KV_E_NOMEM, Some (zlen d), None) else (KV_OK, Some (zlen d), Some d)
           end
  end.

Definition kInvalidMrKey : Z := 0.

Definition kv_import_remote_mr (ctx : option kv_ctx_s) (backend : bool) (imported : Z) : code * option Z :=
  match ctx with
  | None => (KV_E_INVAL, None)
  | Some _ => if negb backend then (KV_E_INTERNAL, None)
              else if imported =? kInvalidMrKey then (KV_E_INVAL, None) else (KV_OK, Some imported)
  end.

Definition kv_register_local_mr (ctx : option kv_ctx_s) (addr len : Z) (backend : bool) (registered : Z) : code * option Z :=
  match ctx with
  | None => (KV_E_INVAL, None)
  | Some _ => if (addr =? 0) || (len =? 0) then (KV_E_INVAL, None)
              else if negb backend then (KV_E_INTERNAL, None)
              else if registered =? kInvalidMrKey then (KV_E_TRANSPORT, None) else (KV_OK, Some registered)
  end.

(** *** Metrics *)

(** The length reported and what is written to a buffer of [cap] bytes. *)
Definition kv_metrics_scrape (body : bytes) (buf : option Z) (want_len : bool) : code * option Z * option bytes :=
  let room := match buf with Some cap => 0 <? cap | None => false end in
  if negb want_len && negb room then (KV_E_INVAL, None, None)
  else (KV_OK, if want_len then Some (zlen body) else None,
        match buf with
        | Some cap => if 0 <? cap then Some (take (Z.to_nat (Z.min (cap - 1) (zlen body))) body ++ [x00]) else None
        | None => None
        end).

(** What is written fits, is terminated, and a buffer of the reported length plus one gets
    all of it. *)
Theorem scrape_fits body cap want :
  0 < cap -> exists w, (kv_metrics_scrape body (Some cap) want).2 = Some (w ++ [x00]) /\ zlen (w ++ [x00]) <= cap /\
    w `prefix_of` body /\ (zlen body < cap -> w = body).
Proof.
  intros H. unfold kv_metrics_scrape. apply Z.ltb_lt in H as H'. rewrite H'. rewrite andb_false_r. simpl.
  eexists. split; [done|]. split; [|split].
  - rewrite length_app, length_take. simpl. lia.
  - apply prefix_take.
  - intros L. rewrite take_ge; [done|]. lia.
Qed.

End Abi.
