(* ===== verification/NodeService.v ===== *)
(** * The data service of a node

    grpc/node_data_service.cpp: the handlers of the NodeData service, over the C interface
    of Abi.v, the ring (Hrw.v), the directory with the peers' sketches (Directory.v), the
    registry of certificates (Mtls.v) and the sketch publisher.

    A handler runs on the state of its server until it answers or calls a peer
    ([Forward]); what it does with the peer's reply is a function of the reply and of the
    state the server has by then, since no lock is held across the call. What a handler
    does between two such points is one step. A peer is called at its dial target, and
    Cluster.v says what is there. SHA-1 and BLAKE3 are parameters, [svc_env] is what the
    system and the transport answer during a call. Messages of statuses, trailing
    metadata and channel credentials are left out. *)

From S2P Require Import Prelude Mtls Locator Floats Bloom Hrw HeadlessNode Etcd Directory Abi.
From Stdlib Require Import ZArith Lia.

Open Scope Z_scope.

Module NodeService.

Import Locator Node Abi.
#[local] Notation str := Mtls.str.

(** ** Statuses and messages *)

Inductive StatusCode :=
| SOK | SInvalidArgument | SDeadlineExceeded | SNotFound | SPermissionDenied | SResourceExhausted | SFailedPrecondition
| SInternal | SUnavailable | SUnauthenticated.

Definition ToGrpcStatus (rc : code) : StatusCode :=
  match rc with
  | KV_OK => SOK
  | KV_E_NOT_FOUND => SNotFound
  | KV_E_INVAL => SInvalidArgument
  | KV_E_NOMEM => SResourceExhausted
  | KV_E_TIMEOUT => SDeadlineExceeded
  | KV_E_PERM => SPermissionDenied
  | KV_E_QUOTA => SResourceExhausted
  | KV_E_SEALED | KV_E_NOT_SEALED => SFailedPrecondition
  | _ => SInternal
  end.

(** The Locator message: strings of any length and 32-bit numbers. *)
Record PLocator := mkPLocator {
  p_tenant_id : bytes; p_model_id_hash : Z; p_prefix_hash : bytes; p_range : option kv_range_t; p_version : Z; p_flags : Z }.

Definition no_locator : PLocator := mkPLocator [] 0 [] None 0 0.

(** [memcpy] of at most [n] bytes into a zeroed field. *)
Definition fixed (n : nat) (s : bytes) : bytes := take n s ++ replicate (n - length s) x00.

Definition FromProtoLocator (p : PLocator) : kv_locator_t :=
  let u16 z := z mod 2 ^ 16 in
  mkLocator (fixed 16 (p_tenant_id p)) (p_model_id_hash p) (fixed 16 (p_prefix_hash p))
    (match p_range p with
     | None => mkRange 0 0 0 0 0 0
     | Some r => mkRange (u16 (layer_start r)) (u16 (layer_count r)) (u16 (head_start r)) (u16 (head_count r))
                   (token_start r) (token_count r)
     end)
    (if p_version p =? 0 then 1 else p_version p) (p_flags p).

Definition ToProtoLocator (l : kv_locator_t) : PLocator :=
  mkPLocator (tenant_id l) (Locator.model_id_hash l) (prefix_hash l) (Some (range l)) (version l) (flags l).

Inductive Request :=
| RLookup (tenant_id : bytes) (model_id_hash : Z) (tokens : list Z) (tenant_id_hash : Z)
| RReserve (locator : PLocator) (bytes_ : Z)
| RPublish (server_handle watermark : Z)
| RFetch (server_handle dst_iova dst_bytes dst_mr_key : Z) (dst_remote_mr_descriptor : bytes)
| RSeal (server_handle : Z) (tokens : list Z)
| RRelease (server_handle : Z).

(** [EFetch] also says what has landed in the destination. *)
Inductive Response :=
| ENone
| EMiss
| EHit (locator : PLocator) (server_handle matched_tokens : Z)
| EReserve (server_handle slot_iova slot_bytes mr_key : Z) (remote_mr_descriptor : bytes)
| EPublish (queue_position : Z)
| EFetch (completion_id : Z) (landed : bytes)
| ESeal
| ERelease.

Definition Reply : Type := StatusCode * Response.
Definition fail (s : StatusCode) : Reply := (s, ENone).

(** The handle a reply carries. *)
Definition handle_of (r : Reply) : option Z :=
  match r with
  | (SOK, EHit _ h _) | (SOK, EReserve h _ _ _ _) => if h =? 0 then None else Some h
  | _ => None
  end.

(** ** The caller *)

Record ServerContext := mkContext { forwarded : bool; x509_common_name : list bytes; x509_subject_alternative_name : list bytes }.

Definition IsForwardedCall (cx : ServerContext) : bool := forwarded cx.

Definition ClientCertCN (cx : ServerContext) : bytes := match x509_common_name cx with [] => [] | c :: _ => c end.

Definition ClientCertInfo (cx : ServerContext) : Mtls.CertInfo :=
  let uris := filter (fun v => starts_with Mtls.kScheme v = true) (x509_subject_alternative_name cx) in
  Mtls.mkCert (ClientCertCN cx) [] uris (head uris).

(** ** State *)

Record HandleHashes := mkHashes { tenant_hash : Z; model_hash : Z }.

Record Service := mkService {
  default_ctx_ : option kv_ctx_s; cache_ : gmap Z kv_ctx_s; handle_to_ctx_ : gmap Z kv_ctx_s;
  handle_to_hashes_ : gmap Z HandleHashes; handle_to_cn_ : gmap Z bytes;
  self_node_id_ : bytes; ring_ : option Hrw.Ring; directory_ : option Directory.Dir; publisher_ : option Directory.Publisher;
  tenant_cert_binding_enabled_ : bool; drain_gate_ : option bool; mtls_registry_ : option Mtls.Registry;
  stubs_ : gmap bytes bytes; forwarded_handles_ : gmap Z bytes; lookup_calls_ : Z }.

Definition new_service (ctx : option kv_ctx_s) : Service :=
  mkService ctx ∅ ∅ ∅ ∅ [] None None None false None None ∅ ∅ 0.

(** What a handler may change. *)
Definition set_maps (ca hc : gmap Z kv_ctx_s) (hh : gmap Z HandleHashes) (hn : gmap Z bytes) (s : Service) : Service :=
  mkService (default_ctx_ s) ca hc hh hn (self_node_id_ s) (ring_ s) (directory_ s) (publisher_ s)
    (tenant_cert_binding_enabled_ s) (drain_gate_ s) (mtls_registry_ s) (stubs_ s) (forwarded_handles_ s) (lookup_calls_ s).
Definition set_forwards (st : gmap bytes bytes) (fh : gmap Z bytes) (s : Service) : Service :=
  mkService (default_ctx_ s) (cache_ s) (handle_to_ctx_ s) (handle_to_hashes_ s) (handle_to_cn_ s) (self_node_id_ s) (ring_ s)
    (directory_ s) (publisher_ s) (tenant_cert_binding_enabled_ s) (drain_gate_ s) (mtls_registry_ s) st fh (lookup_calls_ s).
Definition set_publisher (p : Directory.Publisher) (s : Service) : Service :=
  mkService (default_ctx_ s) (cache_ s) (handle_to_ctx_ s) (handle_to_hashes_ s) (handle_to_cn_ s) (self_node_id_ s) (ring_ s)
    (directory_ s) (Some p) (tenant_cert_binding_enabled_ s) (drain_gate_ s) (mtls_registry_ s) (stubs_ s) (forwarded_handles_ s)
    (lookup_calls_ s).
Definition count_lookup (s : Service) : Service :=
  mkService (default_ctx_ s) (cache_ s) (handle_to_ctx_ s) (handle_to_hashes_ s) (handle_to_cn_ s) (self_node_id_ s) (ring_ s)
    (directory_ s) (publisher_ s) (tenant_cert_binding_enabled_ s) (drain_gate_ s) (mtls_registry_ s) (stubs_ s) (forwarded_handles_ s)
    (u64 (lookup_calls_ s + 1)).

(** *** Start-up *)

Definition EnableForwarding (self : bytes) (r : Hrw.Ring) (d : Directory.Dir) (s : Service) : Service :=
  mkService (default_ctx_ s) (cache_ s) (handle_to_ctx_ s) (handle_to_hashes_ s) (handle_to_cn_ s) self (Some r) (Some d)
    (publisher_ s) (tenant_cert_binding_enabled_ s) (drain_gate_ s) (mtls_registry_ s) (stubs_ s) (forwarded_handles_ s) (lookup_calls_ s).
Definition EnableTenantCertBinding (enable : bool) (s : Service) : Service :=
  mkService (default_ctx_ s) (cache_ s) (handle_to_ctx_ s) (handle_to_hashes_ s) (handle_to_cn_ s) (self_node_id_ s) (ring_ s)
    (directory_ s) (publisher_ s) enable (drain_gate_ s) (mtls_registry_ s) (stubs_ s) (forwarded_handles_ s) (lookup_calls_ s).
(** [EnableMtlsClient]: the stubs made with the old credentials go. *)
Definition EnableMtlsClient (s : Service) : Service := set_forwards ∅ (forwarded_handles_ s) s.

(** *** Maps *)

Definition RememberForwardedHandle (h : Z) (owner : bytes) (s : Service) : Service :=
  if h =? 0 then s else set_forwards (stubs_ s) (<[h := owner]> (forwarded_handles_ s)) s.
Definition ForgetForwardedHandle (h : Z) (s : Service) : Service := set_forwards (stubs_ s) (delete h (forwarded_handles_ s)) s.
Definition ForwardOwnerForHandle (h : Z) (s : Service) : bytes := default [] (forwarded_handles_ s !! h).

(** The stub of a peer, by its dial target. *)
Definition GetPeerStub (id : bytes) (s : Service) : option bytes * Service :=
  match stubs_ s !! id with
  | Some t => (Some t, s)
  | None =>
      match directory_ s ≫= Directory.Resolve id with
      | None => (None, s)
      | Some ep => let t := Directory.dial_target ep in (Some t, set_forwards (<[id := t]> (stubs_ s)) (forwarded_handles_ s) s)
      end
  end.

Definition MakeKey (th mh : Z) : Z := Z.lxor th (u64 (mh * 0x9E3779B97F4A7C15)).

Definition GetOrOpenCtx (node_ok : bool) (th mh : Z) (s : Service) : option kv_ctx_s * Service :=
  let key := MakeKey th mh in
  match cache_ s !! key with
  | Some c => (Some c, s)
  | None =>
      match kv_ctx_open_from_hashes KVCACHE_ABI_VERSION th mh node_ok with
      | (KV_OK, Some fresh) =>
          (Some fresh, set_maps (<[key := fresh]> (cache_ s)) (handle_to_ctx_ s) (handle_to_hashes_ s) (handle_to_cn_ s) s)
      | _ => (None, s)
      end
  end.

Definition RememberHandle (h : Z) (c : kv_ctx_s) (s : Service) : Service :=
  set_maps (cache_ s) (<[h := c]> (handle_to_ctx_ s)) (handle_to_hashes_ s) (handle_to_cn_ s) s.
Definition RememberHashes (h : Z) (x : HandleHashes) (s : Service) : Service :=
  set_maps (cache_ s) (handle_to_ctx_ s) (<[h := x]> (handle_to_hashes_ s)) (handle_to_cn_ s) s.
Definition ForgetHandle (h : Z) (s : Service) : Service :=
  set_maps (cache_ s) (delete h (handle_to_ctx_ s)) (delete h (handle_to_hashes_ s)) (delete h (handle_to_cn_ s)) s.
Definition RecordHandleCN (h : Z) (cn : bytes) (s : Service) : Service :=
  match cn with
  | [] => s
  | _ => set_maps (cache_ s) (handle_to_ctx_ s) (handle_to_hashes_ s) (<[h := cn]> (handle_to_cn_ s)) s
  end.
Definition CheckHandleOwnership (h : Z) (cn : bytes) (s : Service) : bool :=
  match handle_to_cn_ s !! h with None => false | Some c => bool_decide (c = cn) end.
Definition CtxForHandle (h : Z) (s : Service) : option kv_ctx_s :=
  match handle_to_ctx_ s !! h with Some c => Some c | None => default_ctx_ s end.

(** ** Handlers *)

Section Service.
Context (Blake3_64 : bytes -> Z) (SHA1 : bytes -> bytes) {St : Hrw.StdSort} {K : Core}.

Record Server := mkServer { svc : Service; node : core }.

#[warnings="-register-all"]
Inductive Act :=
| Answer (r : Reply)
| Forward (target : bytes) (q : Request) (k : Reply -> Server -> Server * Act).

(** What the environment answers during a call: the node's, whether a context can be
    opened, the exports and imports of the transport. *)
Record svc_env := mkSvcEnv { core_env : env; node_ok : bool; backend_ : bool; exports : Z -> option bytes; imports : bytes -> Z }.

Definition on_svc (f : Service -> Service) (s : Server) : Server := mkServer (f (svc s)) (node s).

Definition HashTenantString (t : bytes) : Z := match t with [] => 0 | _ => Fnv1a64 (take 16 (SHA1 t)) end.
Definition HashTenantBytes16 (t : bytes) : Z := match t with [] => 0 | _ => Fnv1a64 t end.

Definition tokens_bytes (tokens : list Z) : bytes := concat (put_le 4 <$> tokens).

Definition PrimaryFor (tenant : bytes) (mh : Z) (toks : bytes) (s : Service) : bytes :=
  match ring_ s with
  | None => []
  | Some r => Hrw.Primary Blake3_64 (tenant ++ put_le 8 mh ++ toks) None r
  end.

(** The tenant of the caller's certificate, where the binding applies to the call. *)
Definition bound (cx : ServerContext) (s : Service) : option (option bytes) :=
  if tenant_cert_binding_enabled_ s && negb (forwarded cx)
  then Some (Mtls.ResolveTenant (ClientCertInfo cx) (mtls_registry_ s)) else None.

(** Whether the certificate is of a tenant that satisfies the condition, where the binding
    applies. *)
Definition admitted (cx : ServerContext) (ok : bytes -> bool) (s : Service) : bool :=
  match bound cx s with None => true | Some None => false | Some (Some t) => ok t end.

(** The owner a direct call is to be forwarded to. *)
Definition other_owner (cx : ServerContext) (owner : bytes) (s : Service) : option bytes :=
  match ring_ s with
  | Some _ => if negb (forwarded cx) && negb (Mtls.is_nil (self_node_id_ s)) && negb (Mtls.is_nil owner) && negb (bool_decide (owner = self_node_id_ s))
              then Some owner else None
  | None => None
  end.

(** Call a peer; [down] if it is not known, [k] with its reply. *)
Definition forward_to (owner : bytes) (q : Request) (down : Server -> Server * Act) (k : Reply -> Server -> Server * Act)
    (s : Server) : Server * Act :=
  match GetPeerStub owner (svc s) with
  | (None, v) => down (mkServer v (node s))
  | (Some t, v) => (mkServer v (node s), Forward t q k)
  end.

Definition unavailable (s : Server) : Server * Act := (s, Answer (fail SUnavailable)).

(** A reply passed on, its handle remembered. *)
Definition pass_on (owner : bytes) (r : Reply) (s : Server) : Server * Act :=
  (match handle_of r with Some h => on_svc (RememberForwardedHandle h owner) s | None => s end, Answer r).

(** To the owner of a key, or served here. *)
Definition route (cx : ServerContext) (owner : bytes) (q : Request) (local : Server -> Server * Act) (s : Server) : Server * Act :=
  match other_owner cx owner (svc s) with
  | Some o => forward_to o q unavailable (pass_on o) s
  | None => local s
  end.

(** *** Lookup *)

(** The fall-back of a miss at the owner: the peers whose sketch says that they may have
    the tokens, in the order of the ring, until one answers. *)
Fixpoint probe (skey : bytes) (q : Request) (ranked : list bytes) (s : Server) : Server * Act :=
  match ranked with
  | [] => (s, Answer (SOK, EMiss))
  | p :: ranked' =>
      if bool_decide (p = self_node_id_ (svc s)) then probe skey q ranked' s
      else if negb (bool_decide ((d ← directory_ (svc s); Directory.PeerMaybeHas Blake3_64 p skey d) = Some true)) then probe skey q ranked' s
      else forward_to p q (probe skey q ranked')
             (fun r s1 => match r.1 with SOK => pass_on p r s1 | _ => probe skey q ranked' s1 end) s
  end.

Definition lookup_local (e : svc_env) (cx : ServerContext) (q : Request) (th mh : Z) (tokens : list Z) (s : Server) : Server * Act :=
  match GetOrOpenCtx (node_ok e) th mh (svc s) with
  | (None, v) => (mkServer v (node s), Answer (fail SInternal))
  | (Some c, v) =>
      match kv_lookup (Some c) tokens (node s) with
      | ((KV_OK, Some a), n) =>
          let v1 := RememberHandle (a_handle a) c v in
          let v2 := if tenant_cert_binding_enabled_ v1 then RecordHandleCN (a_handle a) (ClientCertCN cx) v1 else v1 in
          (mkServer v2 n, Answer (SOK, EHit (ToProtoLocator (a_locator a)) (a_handle a) (a_matched_tokens a)))
      | ((KV_E_NOT_FOUND, _), n) =>
          match ring_ v, directory_ v with
          | Some r, Some _ =>
              if negb (forwarded cx) && negb (Mtls.is_nil (self_node_id_ v))
              then probe (Directory.SketchKeyForTokens th mh tokens) q
                     (Hrw.TopK Blake3_64 (tokens_bytes tokens) (Hrw.NodeCount r) None r) (mkServer v n)
              else (mkServer v n, Answer (SOK, EMiss))
          | _, _ => (mkServer v n, Answer (SOK, EMiss))
          end
      | ((rc, _), n) => (mkServer v n, Answer (fail (ToGrpcStatus rc)))
      end
  end.

Definition Lookup (e : svc_env) (cx : ServerContext) (tenant : bytes) (mh : Z) (tokens : list Z) (given_th : Z) (s0 : Server) : Server * Act :=
  let q := RLookup tenant mh tokens given_th in
  let s := on_svc count_lookup s0 in
  if admitted cx (fun t => bool_decide (t = tenant)) (svc s)
  then route cx (PrimaryFor tenant mh (tokens_bytes tokens) (svc s)) q
         (lookup_local e cx q (if given_th =? 0 then HashTenantString tenant else given_th) mh tokens) s
  else (s, Answer (fail SUnauthenticated)).

(** *** Reserve *)

Definition export_slot (e : svc_env) (c : kv_ctx_s) (key : Z) : bytes :=
  if key =? 0 then []
  else match kv_export_mr (Some c) (backend_ e) (exports e key) None with
       | (KV_E_NOMEM, Some need, _) =>
           if 0 <? need
           then match kv_export_mr (Some c) (backend_ e) (exports e key) (Some need) with (KV_OK, _, Some d) => d | _ => [] end
           else []
       | _ => []
       end.

Definition reserve_local (e : svc_env) (cx : ServerContext) (l : PLocator) (b : Z) (s : Server) : Server * Act :=
  let th := HashTenantBytes16 (p_tenant_id l) in
  let mh := p_model_id_hash l in
  match GetOrOpenCtx (node_ok e) th mh (svc s) with
  | (None, v) => (mkServer v (node s), Answer (fail SInternal))
  | (Some c, v) =>
      match kv_reserve (core_env e) (Some c) (FromProtoLocator l) b (node s) with
      | ((KV_OK, Some (h, slot)), n) =>
          let v1 := RememberHashes h (mkHashes th mh) (RememberHandle h c v) in
          let v2 := if tenant_cert_binding_enabled_ v1 then RecordHandleCN h (ClientCertCN cx) v1 else v1 in
          (mkServer v2 n, Answer (SOK, EReserve h (b_addr slot) (b_len slot) (b_mr_key slot) (export_slot e c (b_mr_key slot))))
      | ((rc, _), n) => (mkServer v n, Answer (fail (ToGrpcStatus rc)))
      end
  end.

Definition Reserve (e : svc_env) (cx : ServerContext) (l : PLocator) (b : Z) (s : Server) : Server * Act :=
  let owner := match ring_ (svc s) with
               | None => []
               | Some r => Hrw.Primary Blake3_64 (p_tenant_id l ++ put_le 8 (p_model_id_hash l) ++ p_prefix_hash l) None r
               end in
  match drain_gate_ (svc s) with
  | Some true => (s, Answer (fail SFailedPrecondition))
  | _ =>
      if admitted cx (fun t => (16 <=? length (p_tenant_id l))%nat && bool_decide (take 16 (p_tenant_id l) = take 16 (SHA1 t))) (svc s)
      then route cx owner (RReserve l b) (reserve_local e cx l b) s
      else (s, Answer (fail SUnauthenticated))
  end.

(** *** Calls on a handle *)

(** The part common to the four: to the peer the handle came from, else the caller must
    own it and there must be a context. *)
Definition on_handle (cx : ServerContext) (q : Request) (h : Z) (k : Reply -> Server -> Server * Act)
    (serve : kv_ctx_s -> Server -> Server * Act) (s : Server) : Server * Act :=
  let owner := ForwardOwnerForHandle h (svc s) in
  if negb (Mtls.is_nil owner) && negb (bool_decide (owner = self_node_id_ (svc s))) then forward_to owner q unavailable k s
  else if tenant_cert_binding_enabled_ (svc s) && negb (IsForwardedCall cx) && negb (CheckHandleOwnership h (ClientCertCN cx) (svc s))
  then (s, Answer (fail SUnauthenticated))
  else match CtxForHandle h (svc s) with
       | None => (s, Answer (fail SFailedPrecondition))
       | Some c => serve c s
       end.

Definition relay (r : Reply) (s : Server) : Server * Act := (s, Answer r).

Definition publish_local (h w : Z) (c : kv_ctx_s) (s : Server) : Server * Act :=
  match kv_publish (Some c) h w (node s) with
  | (KV_OK, n) => (mkServer (svc s) n, Answer (SOK, EPublish 0))
  | (rc, n) => (mkServer (svc s) n, Answer (fail (ToGrpcStatus rc)))
  end.

Definition Publish (cx : ServerContext) (h w : Z) : Server -> Server * Act :=
  on_handle cx (RPublish h w) h relay (publish_local h w).

Definition fetch_local (e : svc_env) (h iova len key : Z) (rmd : bytes) (c : kv_ctx_s) (s : Server) : Server * Act :=
  match (match rmd with [] => (KV_OK, Some key) | _ => kv_import_remote_mr (Some c) (backend_ e) (imports e rmd) end) with
  | (KV_OK, Some k) =>
      match kv_fetch (core_env e) (Some c) h (mkBuffer iova len k) (node s) with
      | ((KV_OK, d), n) =>
          match kv_wait (Some c) with
          | KV_OK => (mkServer (svc s) n, Answer (SOK, EFetch h (default [] d)))
          | rc => (mkServer (svc s) n, Answer (fail (ToGrpcStatus rc)))
          end
      | ((rc, _), n) => (mkServer (svc s) n, Answer (fail (ToGrpcStatus rc)))
      end
  | (rc, _) => (s, Answer (fail (ToGrpcStatus rc)))
  end.

Definition Fetch (e : svc_env) (cx : ServerContext) (h iova len key : Z) (rmd : bytes) : Server -> Server * Act :=
  on_handle cx (RFetch h iova len key rmd) h relay (fetch_local e h iova len key rmd).

(** The sealed tokens go into the node's sketch; [None] of the sketch is an index out of
    range, which a sketch of its declared size does not give. *)
Definition publish_tokens (h : Z) (tokens : list Z) (v : Service) : Service :=
  match publisher_ v, tokens with
  | Some p, _ :: _ =>
      match handle_to_hashes_ v !! h with
      | Some hh => match Directory.AddTokens Blake3_64 (tenant_hash hh) (model_hash hh) tokens p with
                   | Some p' => set_publisher p' v
                   | None => v
                   end
      | None => v
      end
  | _, _ => v
  end.

Definition seal_local (e : svc_env) (h : Z) (tokens : list Z) (c : kv_ctx_s) (s : Server) : Server * Act :=
  match kv_seal (core_env e) (Some c) h tokens (node s) with
  | (KV_OK, n) => (mkServer (publish_tokens h tokens (svc s)) n, Answer (SOK, ESeal))
  | (rc, n) => (mkServer (svc s) n, Answer (fail (ToGrpcStatus rc)))
  end.

Definition Seal (e : svc_env) (cx : ServerContext) (h : Z) (tokens : list Z) : Server -> Server * Act :=
  on_handle cx (RSeal h tokens) h relay (seal_local e h tokens).

Definition release_local (h : Z) (c : kv_ctx_s) (s : Server) : Server * Act :=
  match kv_release (Some c) h (node s) with
  | (KV_OK, n) => (mkServer (ForgetHandle h (svc s)) n, Answer (SOK, ERelease))
  | (rc, n) => (mkServer (svc s) n, Answer (fail (ToGrpcStatus rc)))
  end.

Definition Release (cx : ServerContext) (h : Z) : Server -> Server * Act :=
  on_handle cx (RRelease h) h
    (fun r s => (match r.1 with SOK => on_svc (ForgetForwardedHandle h) s | _ => s end, Answer r))
    (release_local h).

Definition handle (e : svc_env) (cx : ServerContext) (q : Request) : Server -> Server * Act :=
  match q with
  | RLookup t mh tokens th => Lookup e cx t mh tokens th
  | RReserve l b => Reserve e cx l b
  | RPublish h w => Publish cx h w
  | RFetch h iova len key rmd => Fetch e cx h iova len key rmd
  | RSeal h tokens => Seal e cx h tokens
  | RRelease h => Release cx h
  end.

(** *** ReplicaFetch *)

(** The status in the body, the chunk path and the bytes. *)
Definition ReplicaFetch (verifier : option bool) (backend : bool) (cx : ServerContext) (l : PLocator) (s : Server) :
    StatusCode * option (code * list bytes * bytes) :=
  let is_internal := match verifier with
                     | Some b => b
                     | None => match Mtls.VerifyInternalPeer (ClientCertInfo cx) [] with Some _ => true | None => false end
                     end in
  if negb is_internal then (SPermissionDenied, None)
  else if negb backend then (SInternal, None)
  else match n_replica_fetch (FromProtoLocator l) (node s) with
       | (KV_OK, Some (path, d)) => (SOK, Some (KV_OK, path, d))
       | (rc, _) => (SOK, Some (rc, [], []))
       end.
End Service.

(** ** Subscribe *)

(** The bridge between the poller, which pushes, and the thread of the call, which pops
    and writes to the stream. An event of the stream is its type and epoch. *)
Inductive EventType := EVENT_UNSPECIFIED | EVENT_ADD | EVENT_EVICT | EVENT_PROMOTE | EVENT_DEMOTE.

Definition proto_type (t : Z) : EventType :=
  if t =? 1 then EVENT_ADD else if t =? 2 then EVENT_EVICT else if t =? 3 then EVENT_PROMOTE else if t =? 4 then EVENT_DEMOTE
  else EVENT_UNSPECIFIED.

Record SubBridge := mkBridge { queue : list (EventType * Z); closed : bool }.

Definition Push (type epoch : Z) (b : SubBridge) : SubBridge := mkBridge (queue b ++ [(proto_type type, epoch)]) (closed b).
(** [Pop] once it has waited; [None] for a timeout or a closed bridge. *)
Definition Pop (b : SubBridge) : option (EventType * Z) * SubBridge :=
  match queue b with [] => (None, b) | e :: l => (Some e, mkBridge l (closed b)) end.
Definition Close (b : SubBridge) : SubBridge := mkBridge (queue b) true.

(** What happens while the call runs: the poller pushes, or the loop takes a turn, in which
    the client may have cancelled and the write may fail. *)
Inductive sub_input := IPush (type epoch : Z) | ITurn (cancelled write_ok : bool).

(** The bridge, what was written, and whether the loop still runs. *)
Definition sub_step (x : sub_input) (a : SubBridge * list (EventType * Z) * bool) : SubBridge * list (EventType * Z) * bool :=
  let '(b, w, running) := a in
  match x with
  | IPush t e => (Push t e b, w, running)
  | ITurn cancelled ok =>
      if negb running then a
      else if cancelled then (Close b, w, false)
      else match Pop b with
           | (None, b1) => (b1, w, true)
           | (Some e, b1) => if ok then (b1, w ++ [e], true) else (Close b1, w, false)
           end
  end.

Definition sub_run (xs : list sub_input) : SubBridge * list (EventType * Z) * bool :=
  fold_left (fun a x => sub_step x a) xs (mkBridge [] false, [], true).

Definition pushed (xs : list sub_input) : list (EventType * Z) :=
  omap (fun x => match x with IPush t e => Some (proto_type t, e) | ITurn _ _ => None end) xs.

(** The stream carries the node's events in order and without gaps: what was written is
    always the beginning of what was pushed, and as long as the client stays, the rest is
    queued. *)
Theorem stream_in_order xs :
  let '(b, w, running) := sub_run xs in
  w `prefix_of` pushed xs /\ (running = true -> w ++ queue b = pushed xs).
Proof.
  induction xs as [|x xs IH] using rev_ind; [split; [apply prefix_nil|done]|]. unfold sub_run, pushed in *. rewrite fold_left_app, omap_app. simpl.
  destruct (fold_left _ xs _) as [[b w] running]. destruct IH as [P Q]. destruct x as [t e|cancelled ok]; simpl.
  - split; [by apply prefix_app_r|]. intros R. by rewrite app_assoc, Q.
  - rewrite app_nil_r. destruct running; [|by split]. specialize (Q eq_refl). destruct cancelled; [by split; [|done]|].
    unfold Pop. destruct (queue b) as [|ev l] eqn:Eq; [split; [done|by rewrite Eq]|]. destruct ok; [|by split; [|done]].
    simpl. rewrite <- Q. split; [by exists l; rewrite <- app_assoc|]. intros _. by rewrite <- app_assoc.
Qed.

(** ** Locators on the wire *)

Lemma fixed_exact n s : length s = n -> fixed n s = s.
Proof. intros <-. unfold fixed. by rewrite take_ge, Nat.sub_diag, app_nil_r by lia. Qed.

Lemma length_fixed n s : length (fixed n s) = n.
Proof. unfold fixed. rewrite length_app, length_take, length_replicate. lia. Qed.

Lemma FromProto_ToProto l : locator_ok l -> version l <> 0 -> FromProtoLocator (ToProtoLocator l) = l.
Proof.
  destruct l as [t m p [r1 r2 r3 r4 r5 r6] v f]. intros (T & _ & P & (R1 & R2 & R3 & R4 & _) & _) V. unfold FromProtoLocator, ToProtoLocator. simpl in *.
  unfold uint in *. rewrite (proj2 (Z.eqb_neq _ _) V). by rewrite !fixed_exact, !Z.mod_small.
Qed.

(** A locator survives the message, unless its version is zero, which a reader takes for
    one; what is read from a message whose numbers have their width is always well formed. *)
Theorem proto_locator_roundtrip :
  (forall l, locator_ok l -> FromProtoLocator (ToProtoLocator l) =
     mkLocator (tenant_id l) (Locator.model_id_hash l) (prefix_hash l) (range l) (if version l =? 0 then 1 else version l) (flags l)) /\
  (forall p, uint 64 (p_model_id_hash p) -> uint 32 (p_version p) -> uint 32 (p_flags p) ->
     (forall r, p_range p = Some r -> uint 32 (token_start r) /\ uint 32 (token_count r)) -> locator_ok (FromProtoLocator p)).
Proof.
  split.
  - intros [t m p [r1 r2 r3 r4 r5 r6] v f] (T & _ & P & (R1 & R2 & R3 & R4 & _) & _). unfold FromProtoLocator, ToProtoLocator. simpl in *.
    unfold uint in *. by rewrite !fixed_exact, !Z.mod_small.
  - intros p M V F R. assert (forall z, uint 16 (z mod 2 ^ 16)) as W by (intros z; apply Z.mod_pos_bound; lia).
    unfold FromProtoLocator, locator_ok. simpl. rewrite !length_fixed. split; [done|]. split; [done|]. split; [done|]. split; [|split; [|done]].
    + destruct (p_range p) as [r|] eqn:E; [|done]. destruct (R r eq_refl). unfold range_ok. simpl. split_and!; try done; apply W.
    + by destruct (p_version p =? 0).
Qed.

(** ** Contexts *)

(** For one model, contexts are told apart by tenant. *)
Lemma MakeKey_tenant th th' mh : MakeKey th mh = MakeKey th' mh -> th = th'.
Proof.
  unfold MakeKey. intros E. apply (f_equal (fun z => Z.lxor z (u64 (mh * 0x9E3779B97F4A7C15)))) in E.
  by rewrite !Z.lxor_assoc, !Z.lxor_nilpotent, !Z.lxor_0_r in E.
Qed.

(** Contexts of different models are not: the caller chooses both numbers. *)
Example context_collision : MakeKey 5 0 = MakeKey (Z.lxor 5 0x9E3779B97F4A7C15) 1.
Proof. vm_compute. reflexivity. Qed.

Definition cache_ok (s : Service) : Prop :=
  forall k c, cache_ s !! k = Some c -> k = MakeKey (tenant_id_hash c) (Abi.model_id_hash c).

Lemma GetOrOpenCtx_spec ok th mh s c s' :
  cache_ok s -> GetOrOpenCtx ok th mh s = (Some c, s') ->
  cache_ok s' /\ MakeKey (tenant_id_hash c) (Abi.model_id_hash c) = MakeKey th mh.
Proof.
  intros I. unfold GetOrOpenCtx. destruct (cache_ s !! MakeKey th mh) as [c0|] eqn:E.
  - intros [= <- <-]. split; [done|]. by rewrite (I _ _ E).
  - unfold kv_ctx_open_from_hashes. rewrite Z.eqb_refl. destruct ok; [|done]. simpl. intros [= <- <-]. split; [|done].
    intros k c. simpl. intros [[<- <-]|[_ H]]%lookup_insert_Some; [done|by apply I].
Qed.

(** Two services that differ at most in what lookups and contexts do. *)
Lemma GetOrOpenCtx_maps ok th mh s c s' :
  GetOrOpenCtx ok th mh s = (c, s') ->
  s' = set_maps (cache_ s') (handle_to_ctx_ s) (handle_to_hashes_ s) (handle_to_cn_ s) s.
Proof.
  unfold GetOrOpenCtx. destruct (cache_ s !! _); [intros [= <- <-]; by destruct s|].
  destruct (kv_ctx_open_from_hashes _ _ _ _) as [[] [f|]]; intros [= <- <-]; by destruct s.
Qed.

End NodeService.
