(* ===== verification/Cluster.v ===== *)
(** * A cluster of data services

    The servers of NodeService.v at their dial targets, and the calls in progress. A call
    is a thread: the request is on its way to a server, or a reply on its way to the
    server below it on the stack. One step of a thread runs one handler, up to its answer
    or its call of a peer, or resumes one with the reply of the peer; steps of different
    threads interleave freely, and so does what happens to a server from outside (its
    directory and ring, its drain gate, writes into its slots).

    The theorems: calls that route by key end after a bounded number of their own steps
    ([routed_calls_end]); a handle serves only its owner ([handles_serve_their_owner]).
    The examples at the end show where the service falls short of what it means to do. *)

From S2P Require Import Prelude Mtls Locator Floats Bloom Hrw Lpm Ingest TierManager HeadlessNode NodeCorrect Etcd Directory Abi NodeService.
From Stdlib Require Import ZArith Lia.

Open Scope Z_scope.

Module Cluster.

Import Locator Node Abi NodeService.
#[local] Notation str := Mtls.str.

Section Cluster.
Context (Blake3_64 : bytes -> Z) (SHA1 : bytes -> bytes) {St : Hrw.StdSort} {K : Core}.
(** The context a call made by the server at a dial target arrives with. *)
Context (peer_context : bytes -> ServerContext).

Notation Server := (NodeService.Server (K := K)).
Notation Act := (NodeService.Act (K := K)).
Notation handle := (handle Blake3_64 SHA1 (K := K)).

Definition Frame : Type := bytes * (Reply -> Server -> Server * Act).

Inductive Position :=
| Sent (target : bytes) (cx : ServerContext) (q : Request)
| Returned (r : Reply).

Record Thread := mkThread { at_ : Position; stack : list Frame }.

(** A call answered by the server that received it, under the registry it had. *)
Record Entry := mkEntry { e_server : bytes; e_registry : option Mtls.Registry; e_cx : ServerContext; e_req : Request; e_reply : Reply }.

Record Cluster := mkCluster { servers : gmap bytes Server; threads : gmap nat Thread; history : list Entry }.

(** What becomes of a thread at a server's action. *)
Definition proceed (t : bytes) (a : Act) (st : list Frame) : Thread :=
  match a with
  | Answer r => mkThread (Returned r) st
  | Forward t' q k => mkThread (Sent t' (peer_context t) q) ((t, k) :: st)
  end.

Definition answered (t : bytes) (v : Service) (cx : ServerContext) (q : Request) (a : Act) : list Entry :=
  match a with Answer r => [mkEntry t (mtls_registry_ v) cx q r] | Forward _ _ _ => [] end.

(** One step of a thread. A target where nothing listens answers unavailable. *)
Definition advance (e : svc_env) (th : Thread) (c : Cluster) : Thread * Cluster :=
  match th with
  | mkThread (Sent t cx q) st =>
      match servers c !! t with
      | None => (mkThread (Returned (fail SUnavailable)) st, c)
      | Some s => let '(s', a) := handle e cx q s in
                  (proceed t a st, mkCluster (<[t := s']> (servers c)) (threads c) (history c ++ answered t (svc s) cx q a))
      end
  | mkThread (Returned r) ((t, k) :: st) =>
      match servers c !! t with
      | None => (mkThread (Returned (fail SUnavailable)) st, c)
      | Some s => let '(s', a) := k r s in (proceed t a st, mkCluster (<[t := s']> (servers c)) (threads c) (history c))
      end
  | mkThread (Returned _) [] => (th, c)
  end.

Inductive input :=
| Start (i : nat) (t : bytes) (cx : ServerContext) (q : Request)
| Run (i : nat) (e : svc_env)
| Outside (t : bytes) (f : Server -> Server).

Definition step (x : input) (c : Cluster) : Cluster :=
  match x with
  | Start i t cx q =>
      match threads c !! i with
      | None => mkCluster (servers c) (<[i := mkThread (Sent t cx q) []]> (threads c)) (history c)
      | Some _ => c
      end
  | Run i e =>
      match threads c !! i with
      | None => c
      | Some th => let '(th', c') := advance e th c in mkCluster (servers c') (<[i := th']> (threads c')) (history c')
      end
  | Outside t f => mkCluster (alter f t (servers c)) (threads c) (history c)
  end.

Definition run (xs : list input) (c : Cluster) : Cluster := fold_left (fun c x => step x c) xs c.

Definition finished (i : nat) (c : Cluster) : Prop :=
  exists r, threads c !! i = Some (mkThread (Returned r) []).

(** ** Routed calls end *)

Definition routed (q : Request) : Prop := match q with RLookup _ _ _ _ | RReserve _ _ => True | _ => False end.

(** An action that calls peers at most [n] times one after the other, always with the
    same request. *)
Inductive Within (q : Request) : nat -> Act -> Prop :=
| W_answer n r : Within q n (Answer r)
| W_forward n t k : (forall r s, Within q n (k r s).2) -> Within q (S n) (Forward t q k).

Lemma forward_to_within q n p down k s :
  (forall s', Within q (S n) (down s').2) -> (forall r s', Within q n (k r s').2) -> Within q (S n) (forward_to p q down k s).2.
Proof.
  intros D F. unfold forward_to. destruct (GetPeerStub p (svc s)) as [[t|] v]; simpl; [by constructor|apply D].
Qed.

Lemma pass_on_within q n p r s : Within q n (pass_on p r s).2.
Proof. constructor. Qed.

Lemma Within_mono q n m a : Within q n a -> (n <= m)%nat -> Within q m a.
Proof.
  intros W. revert m. induction W as [|n t k F IH]; intros m L; [constructor|].
  destruct m; [lia|]. constructor. intros r s. apply IH. lia.
Qed.

Lemma probe_within skey q ranked : forall s, Within q (length ranked) (probe Blake3_64 skey q ranked s).2.
Proof.
  induction ranked as [|p ranked IH]; intros s; simpl; [constructor|].
  assert (forall s', Within q (S (length ranked)) (probe Blake3_64 skey q ranked s').2) as M
    by (intros s'; apply (Within_mono _ _ _ _ (IH s')); lia).
  destruct (bool_decide _); [apply M|]. destruct (negb _); [apply M|].
  apply forward_to_within; [apply M|]. intros r s'. destruct (r.1); first [apply pass_on_within | apply IH].
Qed.

(** What is assumed of BLAKE3 and of the standard library's sorts. *)
Context (Blake3_64_range : forall x, 0 <= Blake3_64 x < 2 ^ 64) {SL : Hrw.StdSortLaws St}.

(** The ring a server routes by is one its directory built, of at most [B] nodes. *)
Definition small_ring (B : nat) (s : Server) : Prop :=
  forall r, ring_ (svc s) = Some r -> Hrw.uniform r /\ (Hrw.NodeCount r <= B)%nat.

Lemma TopK_length key r : Hrw.uniform r -> length (Hrw.TopK Blake3_64 key (Hrw.NodeCount r) None r) = Hrw.NodeCount r.
Proof.
  intros U. assert (Hrw.numbers (Hrw.score Blake3_64 (Hrw.overlap_alpha_ r) None key <$> Hrw.nodes_ r)) as N.
  { unfold Hrw.uniform in U. rewrite Forall_forall in U. apply Forall_forall. intros x (a & -> & Ha)%list_elem_of_fmap.
    by apply (Hrw.unit_score Blake3_64 (Hrw.overlap_alpha_ r) key a a Blake3_64_range (U a Ha) (U a Ha)). }
  unfold Hrw.TopK, Hrw.NodeCount. destruct (Hrw.nodes_ r) as [|n l]; [done|]. cbn [length].
  set (sc := Hrw.score _ _ _ _ <$> (n :: l)) in *. assert (length sc = S (length l)) as Ls by (unfold sc; by rewrite length_fmap).
  by rewrite length_fmap, Ls, Nat.ltb_irrefl, (Permutation_length (Hrw.std_sort_perm sc N)), Ls.
Qed.

Lemma lookup_local_within B e cx q th mh tokens s :
  small_ring B s -> Within q B (lookup_local Blake3_64 e cx q th mh tokens s).2.
Proof.
  intros R. unfold lookup_local. destruct (GetOrOpenCtx _ th mh (svc s)) as [[c|] v] eqn:G; [|constructor].
  pose proof (GetOrOpenCtx_maps _ _ _ _ _ _ G) as M.
  destruct (kv_lookup (Some c) tokens (node s)) as [[rc o] n]. destruct rc; try constructor; destruct o; try constructor.
  all: destruct (ring_ v) as [r|] eqn:E; [|constructor]; destruct (directory_ v); [|constructor]; destruct (_ && _); [|constructor].
  all: rewrite M in E; destruct (R r E) as [U L]; eapply Within_mono; [apply probe_within|]; by rewrite TopK_length.
Qed.

Lemma route_within B cx o q local s :
  Within q (S B) (local s).2 -> Within q (S B) (route cx o q local s).2.
Proof. intros L. unfold route. destruct (other_owner _ _ _); [apply forward_to_within; intros; constructor|done]. Qed.

Lemma Lookup_within B e cx t mh tokens th s :
  small_ring B s -> Within (RLookup t mh tokens th) (S B) (Lookup Blake3_64 SHA1 e cx t mh tokens th s).2.
Proof.
  intros R. unfold Lookup. destruct (admitted _ _ _); [|constructor]. apply route_within.
  eapply Within_mono; [by apply (lookup_local_within B)|lia].
Qed.

Lemma reserve_local_answers e cx l b (s : Server) : exists r, (reserve_local e cx l b s).2 = Answer r.
Proof.
  unfold reserve_local. destruct (GetOrOpenCtx _ _ _ _) as [[c|] v]; [|by eexists].
  destruct (kv_reserve _ _ _ _ _) as [[[] [[h slot]|]] n]; by eexists.
Qed.

Lemma Reserve_within B e cx l b s : Within (RReserve l b) (S B) (Reserve Blake3_64 SHA1 e cx l b s).2.
Proof.
  unfold Reserve. destruct (drain_gate_ _) as [[]|]; [constructor| |]; (destruct (admitted _ _ _); [|constructor]);
    apply route_within; destruct (reserve_local_answers e cx l b s) as [r ->]; constructor.
Qed.

Lemma handle_within B e cx q s : routed q -> small_ring B s -> Within q (S B) (handle e cx q s).2.
Proof. destruct q; intros H R; try done; [by apply Lookup_within|apply Reserve_within]. Qed.

(** A forwarded request is not forwarded again. *)
Lemma forwarded_answers e cx q s : routed q -> forwarded cx = true -> exists r, (handle e cx q s).2 = Answer r.
Proof.
  intros H F. assert (forall o v, other_owner cx o v = None) as O by (intros o v; unfold other_owner; rewrite F; by destruct (ring_ v)).
  assert (forall ok v, admitted cx ok v = true) as Ad by (intros ok v; unfold admitted, bound; by rewrite F, andb_false_r).
  destruct q; try done; simpl; unfold Lookup, Reserve; rewrite Ad; unfold route; rewrite O.
  - unfold lookup_local. destruct (GetOrOpenCtx _ _ _ _) as [[c|] v]; [|by eexists].
    destruct (kv_lookup _ _ _) as [[[] [a|]] n]; rewrite ?F; simpl; destruct (ring_ v), (directory_ v); by eexists.
  - destruct (drain_gate_ _) as [[]|]; [by eexists|apply reserve_local_answers..].
Qed.

(** Peers mark the calls they make. *)
Context (peers_mark : forall t, forwarded (peer_context t) = true).

(** A thread that has at most [n] steps left. *)
Inductive Left (B : nat) : nat -> Thread -> Prop :=
| L_done n r : Left B n (mkThread (Returned r) [])
| L_start n t cx q : routed q -> (2 * B + 3 <= n)%nat -> Left B n (mkThread (Sent t cx q) [])
| L_sent n m t t0 q k : routed q -> (forall r s, Within q m (k r s).2) -> (2 * m + 2 <= n)%nat ->
    Left B n (mkThread (Sent t (peer_context t0) q) [(t0, k)])
| L_back n m r t0 q k : routed q -> (forall r s, Within q m (k r s).2) -> (2 * m + 1 <= n)%nat ->
    Left B n (mkThread (Returned r) [(t0, k)]).

Lemma proceed_left B n m t q a : routed q -> Within q m a -> (2 * m <= n)%nat -> Left B n (proceed t a []).
Proof. intros R W L. destruct W as [m r|m t' k F]; simpl; [constructor|]. apply (L_sent B n m); [done|done|lia]. Qed.

Lemma advance_left B n e th c :
  (forall t s, servers c !! t = Some s -> small_ring B s) -> Left B (S n) th -> Left B n (advance e th c).1.
Proof.
  intros R H. inversion H as [? r|? t cx q Rq L|? m t t0 q k Rq W L|? m r t0 q k Rq W L]; subst; simpl.
  - constructor.
  - destruct (servers c !! t) as [s|] eqn:E; [|constructor]. pose proof (handle_within B e cx q s Rq (R t s E)) as Wi.
    destruct (handle e cx q s) as [s' a]. simpl in *. apply (proceed_left B n (S B) t q); [done|done|lia].
  - destruct (servers c !! t) as [s|] eqn:E; [|by apply (L_back B n m _ _ q); [..|lia]].
    destruct (forwarded_answers e (peer_context t0) q s Rq (peers_mark t0)) as [r Er].
    destruct (handle e (peer_context t0) q s) as [s' a]. simpl in *. subst a. simpl. apply (L_back B n m _ _ q); [done|done|lia].
  - destruct (servers c !! t0) as [s|] eqn:E; [|constructor]. specialize (W r s). destruct (k r s) as [s' a]. simpl in *.
    apply (proceed_left B n m t0 q); [done|done|lia].
Qed.

(** ** What a continuation may do *)

(** Only the stubs and the forwarded handles differ. *)
Definition quiet (s s' : Server) : Prop :=
  node s' = node s /\ svc s' = set_forwards (stubs_ (svc s')) (forwarded_handles_ (svc s')) (svc s).

Lemma quiet_refl s : quiet s s.
Proof. split; [done|]. by destruct s as [[]]. Qed.

(** A service on the same node that differs at most in these. *)
Lemma quiet_svc s v : v = set_forwards (stubs_ v) (forwarded_handles_ v) (svc s) -> quiet s (mkServer v (node s)).
Proof. done. Qed.

Lemma quiet_trans s1 s2 s3 : quiet s1 s2 -> quiet s2 s3 -> quiet s1 s3.
Proof. intros [N1 S1] [N2 S2]. split; [congruence|]. rewrite S2 at 1. rewrite S1. done. Qed.

Inductive Quiet : Act -> Prop :=
| Q_answer r : Quiet (Answer r)
| Q_forward t q k : (forall r s, quiet s (k r s).1) -> (forall r s, Quiet (k r s).2) -> Quiet (Forward t q k).

Definition tame (f : Server -> Server * Act) : Prop := forall s, quiet s (f s).1 /\ Quiet (f s).2.

Lemma GetPeerStub_quiet id v : let v' := (GetPeerStub id v).2 in v' = set_forwards (stubs_ v') (forwarded_handles_ v') v.
Proof. unfold GetPeerStub. destruct (stubs_ v !! id); [by destruct v|]. destruct (_ ≫= _); by destruct v. Qed.

Lemma forward_to_tame p q down k : tame down -> (forall r, tame (k r)) -> tame (forward_to p q down k).
Proof.
  intros D F s. unfold forward_to. pose proof (GetPeerStub_quiet p (svc s)) as E. cbv zeta in E.
  destruct (GetPeerStub p (svc s)) as [[t|] v]; simpl in *; apply quiet_svc in E.
  - split; [done|]. constructor; intros r s'; apply F.
  - destruct (D (mkServer v (node s))) as [A B]. split; [by apply (quiet_trans _ (mkServer v (node s)))|done].
Qed.

Lemma answer_tame r : tame (fun s => (s, Answer r)).
Proof. intros s. split; [apply quiet_refl|constructor]. Qed.

Lemma pass_on_tame p r : tame (pass_on p r).
Proof.
  intros s. unfold pass_on. split; [|constructor]. destruct (handle_of r) as [h|]; [|apply quiet_refl].
  apply quiet_svc. unfold RememberForwardedHandle. destruct (h =? 0); by destruct (svc s).
Qed.

Lemma probe_tame skey q ranked : tame (probe Blake3_64 skey q ranked).
Proof.
  induction ranked as [|p ranked IH]; [apply answer_tame|]. intros s. simpl.
  destruct (bool_decide _); [apply IH|]. destruct (negb _); [apply IH|].
  apply forward_to_tame; [apply IH|]. intros r. destruct (r.1); first [apply pass_on_tame | apply IH].
Qed.

Lemma forget_tame h (r : Reply) : tame (fun s => (match r.1 with SOK => on_svc (ForgetForwardedHandle h) s | _ => s end, Answer r)).
Proof. intros s. split; [|constructor]. simpl. destruct (r.1); first [apply quiet_refl | by apply quiet_svc]. Qed.

(** ** What a handler may do *)

(** What a server is set up with stays, apart from the sketch it publishes. *)
Record same_setup (v v' : Service) : Prop := {
  ss_self : self_node_id_ v' = self_node_id_ v;
  ss_ring : ring_ v' = ring_ v;
  ss_directory : directory_ v' = directory_ v;
  ss_binding : tenant_cert_binding_enabled_ v' = tenant_cert_binding_enabled_ v;
  ss_registry : mtls_registry_ v' = mtls_registry_ v }.

#[local] Instance same_setup_refl : Reflexive same_setup.
Proof. done. Qed.

#[local] Instance same_setup_trans : Transitive same_setup.
Proof. intros x y z [] []. constructor; congruence. Qed.

(** The handle that an action gives out. *)
Definition given_handle (r : Reply) : option Z := match r with (SOK, EHit _ h _) | (SOK, EReserve h _ _ _ _) => Some h | _ => None end.
Definition gives (a : Act) : option Z := match a with Answer r => given_handle r | Forward _ _ _ => None end.

(** The certificate is one of the tenant that the request names. *)
Definition entitled (reg : option Mtls.Registry) (cx : ServerContext) (q : Request) : Prop :=
  exists t, Mtls.ResolveTenant (ClientCertInfo cx) reg = Some t /\
    match q with
    | RLookup tenant _ _ _ => t = tenant
    | RReserve l _ => (16 <= length (p_tenant_id l))%nat /\ take 16 (p_tenant_id l) = take 16 (SHA1 t)
    | _ => True
    end.

Context {KL : CoreLaws K}.

Record Sound (cx : ServerContext) (q : Request) (s s' : Server) (a : Act) : Prop := {
  so_setup : same_setup (svc s) (svc s');
  so_quiet : Quiet a;
  so_cn : forall h cn, handle_to_cn_ (svc s') !! h = Some cn ->
    handle_to_cn_ (svc s) !! h = Some cn \/
    (gives a = Some h /\ cn = ClientCertCN cx /\ (forwarded cx = false -> entitled (mtls_registry_ (svc s)) cx q));
  so_issued : match gives a with
              | None => issued (node s') = issued (node s)
              | Some h => h = issued (node s) /\ issued (node s') = issued (node s) + 1
              end }.

Lemma tame_Sound cx q f s : tame f -> gives (f s).2 = None -> Sound cx q s (f s).1 (f s).2.
Proof.
  intros T G. destruct (T s) as [[N V] A]. split.
  - by rewrite V.
  - done.
  - intros h cn. rewrite V. simpl. auto.
  - by rewrite G, N.
Qed.

(** Before a handler that is sound may come what only touches the contexts. *)
Lemma Sound_after cx q s s1 s' a :
  same_setup (svc s) (svc s1) -> handle_to_cn_ (svc s1) = handle_to_cn_ (svc s) -> issued (node s1) = issued (node s) ->
  Sound cx q s1 s' a -> Sound cx q s s' a.
Proof.
  intros E C N [A B D F]. split; [by etransitivity|done| |].
  - intros h cn H. rewrite <- C. destruct (D h cn H) as [|(? & ? & X)]; [by left|right]. rewrite (ss_registry _ _ E) in X. done.
  - by rewrite <- N.
Qed.

Lemma Sound_answer cx q s s' r :
  given_handle r = None -> same_setup (svc s) (svc s') -> (forall h cn, handle_to_cn_ (svc s') !! h = Some cn -> handle_to_cn_ (svc s) !! h = Some cn) ->
  issued (node s') = issued (node s) -> Sound cx q s s' (Answer r).
Proof. intros G E C N. split; [done|constructor|auto|]. cbn [gives]. by rewrite G. Qed.

Lemma fail_gives x : given_handle (fail x) = None.
Proof. by destruct x. Qed.

Lemma forward_to_gives p q down k (s : Server) : (forall s', gives (down s').2 = None) -> gives (forward_to p q down k s).2 = None.
Proof. intros D. unfold forward_to. destruct (GetPeerStub p (svc s)) as [[t|] v]; [done|apply D]. Qed.

Lemma probe_gives skey q ranked : forall s, gives (probe Blake3_64 skey q ranked s).2 = None.
Proof.
  induction ranked as [|p ranked IH]; intros s; [done|]. simpl. destruct (bool_decide _); [apply IH|].
  destruct (negb _); [apply IH|]. by apply forward_to_gives.
Qed.

(** The maps of a handle that was just given out. *)
Lemma record_given cx q h v2 (s : Server) v n r :
  same_setup (svc s) v2 -> handle_to_cn_ v2 = handle_to_cn_ (svc s) -> given_handle r = Some h -> h = issued (node s) -> issued n = issued (node s) + 1 ->
  (tenant_cert_binding_enabled_ (svc s) = true -> forwarded cx = false -> entitled (mtls_registry_ (svc s)) cx q) ->
  v = (if tenant_cert_binding_enabled_ v2 then RecordHandleCN h (ClientCertCN cx) v2 else v2) -> Sound cx q s (mkServer v n) (Answer r).
Proof.
  intros E C G Hh Hn En ->. rewrite (ss_binding _ _ E). destruct (tenant_cert_binding_enabled_ (svc s)).
  - unfold RecordHandleCN. destruct (ClientCertCN cx) as [|b cn] eqn:Ec.
    + split; [done|apply Q_answer|by simpl svc; rewrite C; auto|by simpl gives; rewrite G].
    + split; [by etransitivity|apply Q_answer| |by simpl gives; rewrite G]. simpl svc. cbn [handle_to_cn_ set_maps].
      intros h' cn' [[<- <-]|[_ H]]%lookup_insert_Some; [right; simpl gives; rewrite G; auto|left; by rewrite <- C].
  - split; [done|apply Q_answer|by simpl svc; rewrite C; auto|by simpl gives; rewrite G].
Qed.

Lemma GetOrOpenCtx_keeps ok th mh v :
  let v' := (GetOrOpenCtx ok th mh v).2 in same_setup v v' /\ handle_to_cn_ v' = handle_to_cn_ v.
Proof. destruct (GetOrOpenCtx ok th mh v) as [c v'] eqn:E. simpl. rewrite (GetOrOpenCtx_maps _ _ _ _ _ _ E). done. Qed.

Lemma lookup_local_Sound e cx q th mh tokens s :
  (tenant_cert_binding_enabled_ (svc s) = true -> forwarded cx = false -> entitled (mtls_registry_ (svc s)) cx q) ->
  Sound cx q s (lookup_local Blake3_64 e cx q th mh tokens s).1 (lookup_local Blake3_64 e cx q th mh tokens s).2.
Proof.
  intros En. unfold lookup_local. destruct (GetOrOpenCtx_keeps (node_ok e) th mh (svc s)) as [E C]; cbv zeta in *.
  destruct (GetOrOpenCtx (node_ok e) th mh (svc s)) as [[c|] v]; simpl in E, C; [|apply Sound_answer; [done|done|by rewrite <- C|done]].
  simpl kv_lookup. destruct (n_lookup _ _ tokens (node s)) as [[rc o] n] eqn:L.
  destruct o as [a|].
  - pose proof (lookup_error _ _ _ _ _ _ _ L) as ->. destruct (lookup_issues _ _ _ _ _ _ L) as [Ha Hn].
    by eapply (record_given cx q (a_handle a) (RememberHandle (a_handle a) c v)); [etransitivity; [exact E|]|exact C|..].
  - destruct (lookup_else _ _ _ _ _ _ L) as [Ne ->].
    assert (forall r, given_handle r = None -> Sound cx q s (mkServer v (node s)) (Answer r)) as An
      by (intros r G; apply Sound_answer; [done|done|by rewrite <- C|done]).
    destruct rc; try (apply An; by rewrite ?fail_gives).
    destruct (ring_ v); [|by apply An]. destruct (directory_ v); [|by apply An]. destruct (_ && _); [|by apply An].
    apply (Sound_after cx q s (mkServer v (node s))); [done|done|done|]. apply tame_Sound; [apply probe_tame|apply probe_gives].
Qed.

Lemma forward_Sound cx q p k s :
  (forall r, tame (k r)) -> Sound cx q s (forward_to p q unavailable k s).1 (forward_to p q unavailable k s).2.
Proof. intros T. apply tame_Sound; [apply forward_to_tame; [apply answer_tame|done]|by apply forward_to_gives]. Qed.

Lemma route_Sound cx o q local s :
  Sound cx q s (local s).1 (local s).2 -> Sound cx q s (route cx o q local s).1 (route cx o q local s).2.
Proof. intros L. unfold route. destruct (other_owner _ _ _); [apply forward_Sound, pass_on_tame|done]. Qed.

Lemma admitted_entitled cx ok v :
  tenant_cert_binding_enabled_ v = true -> forwarded cx = false -> admitted cx ok v = true ->
  exists t, Mtls.ResolveTenant (ClientCertInfo cx) (mtls_registry_ v) = Some t /\ ok t = true.
Proof.
  intros B F. unfold admitted, bound. rewrite B, F. simpl. destruct (Mtls.ResolveTenant _ _) as [t|]; [|done]. by exists t.
Qed.

Lemma Lookup_Sound e cx t mh tokens th s :
  Sound cx (RLookup t mh tokens th) s (Lookup Blake3_64 SHA1 e cx t mh tokens th s).1 (Lookup Blake3_64 SHA1 e cx t mh tokens th s).2.
Proof.
  unfold Lookup. set (s1 := on_svc count_lookup s). apply (Sound_after cx _ s s1); [done|done|done|].
  destruct (admitted _ _ _) eqn:Ad; [|apply Sound_answer; done]. apply route_Sound, lookup_local_Sound.
  intros B F. destruct (admitted_entitled cx _ (svc s1) B F Ad) as (t' & Et & Ok). exists t'. split; [done|]. by reflect_bools.
Qed.

Lemma reserve_local_Sound e cx l b s :
  (tenant_cert_binding_enabled_ (svc s) = true -> forwarded cx = false -> entitled (mtls_registry_ (svc s)) cx (RReserve l b)) ->
  Sound cx (RReserve l b) s (reserve_local e cx l b s).1 (reserve_local e cx l b s).2.
Proof.
  intros En. unfold reserve_local. set (th := HashTenantBytes16 (p_tenant_id l)). set (mh := p_model_id_hash l).
  destruct (GetOrOpenCtx_keeps (node_ok e) th mh (svc s)) as [E C]; cbv zeta in *.
  destruct (GetOrOpenCtx (node_ok e) th mh (svc s)) as [[c|] v]; simpl in E, C; [|apply Sound_answer; [done|done|by rewrite <- C|done]].
  simpl kv_reserve. destruct (n_reserve _ _ b _ _ (node s)) as [[rc o] n] eqn:L. destruct o as [[h slot]|].
  - pose proof (reserve_error _ _ _ _ _ _ _ _ _ L) as ->. destruct (reserve_issues _ _ _ _ _ _ _ _ _ L) as [Hh Hn].
    by eapply (record_given cx (RReserve l b) h (RememberHashes h (mkHashes th mh) (RememberHandle h c v))); [etransitivity; [exact E|]|exact C|..].
  - destruct (reserve_else _ _ _ _ _ _ _ _ L) as [Ne Hn].
    destruct rc; (apply Sound_answer; [by rewrite ?fail_gives|done|by rewrite <- C|done]).
Qed.

Lemma Reserve_Sound e cx l b s :
  Sound cx (RReserve l b) s (Reserve Blake3_64 SHA1 e cx l b s).1 (Reserve Blake3_64 SHA1 e cx l b s).2.
Proof.
  unfold Reserve. destruct (drain_gate_ (svc s)) as [[]|]; [by apply Sound_answer| |];
    (destruct (admitted _ _ _) eqn:Ad; [|by apply Sound_answer]); apply route_Sound, reserve_local_Sound; intros B F;
    destruct (admitted_entitled cx _ (svc s) B F Ad) as (t' & Et & Ok); reflect_bools; by exists t'.
Qed.

Lemma on_handle_Sound cx q h k serve s :
  (forall r, tame (k r)) -> (forall c, Sound cx q s (serve c s).1 (serve c s).2) ->
  Sound cx q s (on_handle cx q h k serve s).1 (on_handle cx q h k serve s).2.
Proof.
  intros T S. unfold on_handle. destruct (_ && _); [by apply forward_Sound|]. destruct (_ && _ && _); [by apply Sound_answer|].
  destruct (CtxForHandle _ _); [apply S|by apply Sound_answer].
Qed.

Lemma publish_tokens_keeps h tokens v :
  same_setup v (publish_tokens Blake3_64 h tokens v) /\ handle_to_cn_ (publish_tokens Blake3_64 h tokens v) = handle_to_cn_ v.
Proof.
  unfold publish_tokens. destruct (publisher_ v); [|done]. destruct tokens; [done|]. destruct (_ !! h); [|done].
  by destruct (Directory.AddTokens _ _ _ _ _).
Qed.

(** Closes the goals of an answer that gives out nothing. *)
Ltac plain := apply Sound_answer; simpl; rewrite ?fail_gives; auto.

Lemma handle_Sound e cx q s : Sound cx q s (handle e cx q s).1 (handle e cx q s).2.
Proof.
  destruct q as [t mh tokens th|l b|h w|h iova len key rmd|h tokens|h]; simpl.
  - apply Lookup_Sound.
  - apply Reserve_Sound.
  - apply on_handle_Sound; [apply answer_tame|]. intros c. unfold publish_local, kv_publish.
    pose proof (publish_issued h w (node s)) as N. destruct (n_publish h w (node s)) as [[] n]; plain; done.
  - apply on_handle_Sound; [apply answer_tame|]. intros c. unfold fetch_local, kv_fetch.
    destruct (match rmd with [] => _ | _ => _ end) as [[] [k|]]; try plain; try done. simpl.
    pose proof (fetch_issued (core_env e) h (mkBuffer iova len k) (node s)) as N.
    destruct (n_fetch (core_env e) h (mkBuffer iova len k) (node s)) as [[[] o] n]; plain; done.
  - apply on_handle_Sound; [apply answer_tame|]. intros c. unfold seal_local, kv_seal.
    pose proof (seal_issued (core_env e) h tokens (node s)) as N. destruct (publish_tokens_keeps h tokens (svc s)) as [E C].
    destruct (n_seal (core_env e) h tokens (node s)) as [[] n]; plain; try done. by rewrite C.
  - apply on_handle_Sound; [intros r; apply forget_tame|]. intros c. unfold release_local, kv_release.
    pose proof (release_issued h (node s)) as N. destruct (n_release h (node s)) as [[] n]; plain; try done.
    intros h' cn' [_ H]%lookup_delete_Some. done.
Qed.

(** ** The invariant of a run *)

(** What happens to a server from outside leaves its handles and the setup of its routing
    alone, up to the ring's bound. *)
Definition fair (B : nat) (x : input) : Prop :=
  match x with
  | Outside t f => forall s, (small_ring B s -> small_ring B (f s)) /\ handle_to_cn_ (svc (f s)) = handle_to_cn_ (svc s) /\
      issued (node (f s)) = issued (node s)
  | _ => True
  end.

Definition wary (f : Frame) : Prop := forall r s, quiet s (f.2 r s).1 /\ Quiet (f.2 r s).2.

Record Owned (H : list Entry) (t : bytes) (s : Server) : Prop := {
  ow_cn : forall h cn, handle_to_cn_ (svc s) !! h = Some cn -> exists E, E ∈ H /\ e_server E = t /\
    given_handle (e_reply E) = Some h /\ ClientCertCN (e_cx E) = cn /\ (forwarded (e_cx E) = false -> entitled (e_registry E) (e_cx E) (e_req E));
  ow_below : forall E h, E ∈ H -> e_server E = t -> given_handle (e_reply E) = Some h -> h < issued (node s);
  ow_once : forall E E' h, E ∈ H -> E' ∈ H -> e_server E = t -> e_server E' = t ->
    given_handle (e_reply E) = Some h -> given_handle (e_reply E') = Some h -> E = E' }.

Record Inv (B : nat) (c : Cluster) : Prop := {
  i_frames : forall i th, threads c !! i = Some th -> Forall wary (stack th);
  i_rings : forall t s, servers c !! t = Some s -> small_ring B s;
  i_owned : forall t s, servers c !! t = Some s -> Owned (history c) t s;
  i_known : forall E, E ∈ history c -> is_Some (servers c !! e_server E) }.

Lemma small_ring_setup B (s s' : Server) : same_setup (svc s) (svc s') -> small_ring B s -> small_ring B s'.
Proof. intros E R r. rewrite (ss_ring _ _ E). apply R. Qed.

Lemma Owned_quiet H t s s' : quiet s s' -> Owned H t s -> Owned H t s'.
Proof. intros [N V] [A B C]. split; [by rewrite V|by rewrite N|done]. Qed.

Lemma proceed_wary t a st : Quiet a -> Forall wary st -> Forall wary (stack (proceed t a st)).
Proof. intros Q F. destruct Q as [r|t' q k Q1 Q2]; simpl; [done|]. constructor; [|done]. intros r s. auto. Qed.

Lemma issued_grows cx q s s' a : Sound cx q s s' a -> issued (node s) <= issued (node s').
Proof. intros S. pose proof (so_issued _ _ _ _ _ S) as I. destruct (gives a); lia. Qed.

Lemma Owned_handle H t cx q s s' a :
  Owned H t s -> Sound cx q s s' a -> Owned (H ++ answered t (svc s) cx q a) t s'.
Proof.
  intros O S. pose proof (so_issued _ _ _ _ _ S) as I. pose proof (issued_grows _ _ _ _ _ S) as G.
  assert (forall E, E ∈ H ++ answered t (svc s) cx q a ->
    E ∈ H \/ exists r, a = Answer r /\ E = mkEntry t (mtls_registry_ (svc s)) cx q r) as New.
  { intros E [?|HE]%elem_of_app; [by left|right]. destruct a as [r|]; simpl in HE; [|by apply elem_of_nil in HE].
    apply list_elem_of_singleton in HE. by exists r. }
  split.
  - intros h cn Hc. destruct (so_cn _ _ _ _ _ S h cn Hc) as [Hc'|(Ga & -> & En)].
    + destruct (ow_cn _ _ _ O h cn Hc') as (E & ? & ?). exists E. split; [apply elem_of_app; by left|done].
    + destruct a as [r|]; [|done]. exists (mkEntry t (mtls_registry_ (svc s)) cx q r). split; [|done].
      apply elem_of_app. right. by apply list_elem_of_singleton.
  - intros E h [HE|(r & -> & ->)]%New Et Eh; [pose proof (ow_below _ _ _ O E h HE Et Eh); lia|].
    simpl in Eh, I. rewrite Eh in I. lia.
  - intros E E' h [HE|(r & -> & ->)]%New [HE'|(r' & Ea & ->)]%New Et Et' Eh Eh'.
    + by apply (ow_once _ _ _ O E E' h).
    + pose proof (ow_below _ _ _ O E h HE Et Eh). subst a. simpl in Eh', I. rewrite Eh' in I. lia.
    + pose proof (ow_below _ _ _ O E' h HE' Et' Eh'). simpl in Eh, I. rewrite Eh in I. lia.
    + congruence.
Qed.

Lemma Owned_other H t t' v cx q a s : t' <> t -> Owned H t' s -> Owned (H ++ answered t v cx q a) t' s.
Proof.
  intros Ne O. assert (forall E, E ∈ H ++ answered t v cx q a -> e_server E = t' -> E ∈ H) as Old.
  { intros E [?|HE]%elem_of_app Et; [done|]. destruct a as [r|]; simpl in HE; [|by apply elem_of_nil in HE].
    apply list_elem_of_singleton in HE as ->. by destruct Ne. }
  split.
  - intros h cn Hc. destruct (ow_cn _ _ _ O h cn Hc) as (E & ? & ?). exists E. split; [apply elem_of_app; by left|done].
  - intros E h HE Et. apply (ow_below _ _ _ O E h (Old E HE Et) Et).
  - intros E E' h HE HE' Et Et'. by apply (ow_once _ _ _ O E E' h (Old E HE Et) (Old E' HE' Et')).
Qed.

Lemma advance_Inv B e i th c :
  Inv B c -> threads c !! i = Some th ->
  Forall wary (stack (advance e th c).1) /\ Inv B (advance e th c).2 /\ threads (advance e th c).2 = threads c.
Proof.
  intros I Ht. pose proof (i_frames _ _ I i th Ht) as F. destruct th as [[t cx q|r] st]; simpl in *.
  - destruct (servers c !! t) as [s|] eqn:Es; [|done]. pose proof (handle_Sound e cx q s) as S.
    destruct (handle e cx q s) as [s' a]. simpl in *. split; [by apply proceed_wary; [apply S|]|]. split; [|done].
    split; simpl.
    + apply I.
    + intros t' s2 [[<- <-]|[_ E]]%lookup_insert_Some; [|by apply (i_rings _ _ I t')].
      apply (small_ring_setup B s); [apply S|by apply (i_rings _ _ I t)].
    + intros t' s2 [[<- <-]|[Ne E]]%lookup_insert_Some; [apply Owned_handle; [by apply (i_owned _ _ I)|done]|].
      apply Owned_other; [done|by apply (i_owned _ _ I)].
    + intros E [HE|HE]%elem_of_app; apply lookup_insert_is_Some'; [right; by apply (i_known _ _ I)|left].
      destruct a; simpl in HE; [|by apply elem_of_nil in HE]. by apply list_elem_of_singleton in HE as ->.
  - destruct st as [|[t k] st]; [done|]. apply Forall_cons in F as [W F].
    destruct (servers c !! t) as [s|] eqn:Es; [|done]. destruct (W r s) as [Q A]. simpl in Q, A.
    destruct (k r s) as [s' a]. simpl in *. split; [by apply proceed_wary|]. split; [|done]. split; simpl.
    + apply I.
    + intros t' s2 [[<- <-]|[_ E]]%lookup_insert_Some; [|by apply (i_rings _ _ I t')].
      intros rg. destruct Q as [_ ->]. by apply (i_rings _ _ I t).
    + intros t' s2 [[<- <-]|[Ne E]]%lookup_insert_Some; [|by apply (i_owned _ _ I)].
      apply (Owned_quiet _ _ s); [done|by apply (i_owned _ _ I)].
    + intros E HE. apply lookup_insert_is_Some'. right. by apply (i_known _ _ I).
Qed.

Lemma cluster_step_Inv B x c : fair B x -> Inv B c -> Inv B (step x c).
Proof.
  intros Fa I. destruct x as [i t cx q|i e|t f]; simpl.
  - destruct (threads c !! i) as [th|] eqn:E; [done|]. split; simpl; [|apply I..].
    intros j th [[<- <-]|[_ H]]%lookup_insert_Some; [constructor|by apply (i_frames _ _ I j)].
  - destruct (threads c !! i) as [th|] eqn:E; [|done]. destruct (advance_Inv B e i th c I E) as (F & I' & T).
    destruct (advance e th c) as [th' c']. simpl in *. split; simpl; [|apply I'..].
    intros j th2 [[<- <-]|[_ H]]%lookup_insert_Some; [done|by apply (i_frames _ _ I' j)].
  - split; simpl; [apply I|..].
    + intros t' s [[<- (s0 & E & ->)]|[_ E]]%lookup_alter_Some; [apply Fa|]; by apply (i_rings _ _ I _ _ E).
    + intros t' s [[<- (s0 & E & ->)]|[_ E]]%lookup_alter_Some; [|by apply (i_owned _ _ I)].
      destruct (Fa s0) as (_ & C & N). destruct (i_owned _ _ I _ _ E) as [A1 A2 A3]. split; [by rewrite C|by rewrite N|done].
    + intros E HE. apply lookup_alter_is_Some. by apply (i_known _ _ I).
Qed.

Lemma cluster_run_Inv B xs : forall c, Forall (fair B) xs -> Inv B c -> Inv B (run xs c).
Proof.
  induction xs as [|x xs IH]; intros c F I; [done|]. apply Forall_cons in F as [F1 F]. apply IH; [done|]. by apply cluster_step_Inv.
Qed.

(** Servers that have started: no handle given out yet. *)
Definition boot (svs : gmap bytes Server) : Cluster := mkCluster svs ∅ [].

Lemma boot_Inv B svs :
  (forall t s, svs !! t = Some s -> small_ring B s /\ handle_to_cn_ (svc s) = ∅) -> Inv B (boot svs).
Proof.
  intros H. split; simpl; [done| | |].
  - intros t s E. by apply (H t s).
  - intros t s E. split; [|intros E0 h HE; by apply elem_of_nil in HE|intros E0 E1 h HE; by apply elem_of_nil in HE].
    intros h cn. destruct (H t s E) as [_ ->]. by rewrite lookup_empty.
  - intros E HE. by apply elem_of_nil in HE.
Qed.

(** ** Theorems *)

(** The steps of one thread in a run. *)
Definition is_run (i : nat) (x : input) : bool := match x with Run j _ => Nat.eqb i j | _ => false end.
Definition runs_of (i : nat) (xs : list input) : nat := length (List.filter (is_run i) xs).

Lemma runs_of_cons i x xs : runs_of i (x :: xs) = ((if is_run i x then 1 else 0) + runs_of i xs)%nat.
Proof. unfold runs_of. simpl. by destruct (is_run i x). Qed.

Lemma run_left B i : forall xs c th n, Forall (fair B) xs -> Inv B c -> threads c !! i = Some th -> Left B n th -> (n <= runs_of i xs)%nat ->
  finished i (run xs c).
Proof.
  induction xs as [|x xs IH]; intros c th n F I T L Hn.
  - assert (n = 0)%nat as -> by (unfold runs_of in Hn; simpl in Hn; lia). inversion L; subst; [by exists r|lia..].
  - apply Forall_cons in F as [F1 F]. pose proof (cluster_step_Inv B x c F1 I) as I'. simpl.
    rewrite runs_of_cons in Hn.
    destruct x as [j t cx q|j e|t f]; simpl in Hn.
    + apply (IH _ th n); [done|done| |done|done]. simpl. destruct (threads c !! j) eqn:E; [done|]. simpl.
      rewrite lookup_insert_ne; [done|]. intros ->. by rewrite T in E.
    + destruct (Nat.eqb_spec i j) as [<-|Ne].
      * destruct n as [|n]; [inversion L; subst; try lia|].
        -- apply (IH _ (mkThread (Returned r) []) 0%nat); [done|done| |constructor|lia]. simpl. rewrite T. simpl. by rewrite lookup_insert_eq.
        -- simpl in I'. rewrite T in I'. simpl. rewrite T. pose proof (advance_left B n e th c (i_rings _ _ I) L) as L'.
           destruct (advance e th c) as [th' c']. simpl in *. apply (IH _ th' n); [done|done| |done|lia]. simpl. apply lookup_insert_eq.
      * apply (IH _ th n); [done|done| |done|done]. simpl. destruct (threads c !! j) as [th2|] eqn:E; [|done].
        destruct (advance_Inv B e j th2 c I E) as (_ & _ & Tc). destruct (advance e th2 c) as [th' c']. simpl in *. rewrite Tc.
        by rewrite lookup_insert_ne.
    + by apply (IH _ th n).
Qed.

(** [C21] Calls that are routed by key end. In a cluster whose rings have at most [B] nodes,
    a Lookup or Reserve is answered after at most [2 * B + 3] of its own steps, whatever
    the other calls do in between, whichever servers and peers fail, and however
    directories, rings and gates change meanwhile: a request is never forwarded twice, and
    a node that misses asks each peer at most once. *)
Theorem routed_calls_end B svs before i t cx q after :
  (forall t s, svs !! t = Some s -> small_ring B s /\ handle_to_cn_ (svc s) = ∅) ->
  Forall (fair B) before -> Forall (fair B) after -> routed q -> threads (run before (boot svs)) !! i = None ->
  (2 * B + 3 <= runs_of i after)%nat -> finished i (run (before ++ Start i t cx q :: after) (boot svs)).
Proof.
  intros H Fb Fa R T N. unfold run. rewrite fold_left_app. simpl. fold (run before (boot svs)). rewrite T.
  apply (run_left B i after _ (mkThread (Sent t cx q) []) (2 * B + 3)); [done| |simpl; apply lookup_insert_eq|by constructor|done].
  pose proof (cluster_run_Inv B before (boot svs) Fb (boot_Inv B svs H)) as I. split; simpl; [|apply I..].
  intros j th [[<- <-]|[_ E]]%lookup_insert_Some; [constructor|by apply (i_frames _ _ I j)].
Qed.

Definition handle_in (q : Request) : option Z :=
  match q with
  | RPublish h _ | RFetch h _ _ _ _ | RSeal h _ | RRelease h => Some h
  | RLookup _ _ _ _ | RReserve _ _ => None
  end.

(** A call that takes effect passed the check of the handle's owner. *)
Lemma on_handle_checked cx q h k serve s s' r :
  on_handle cx q h k serve s = (s', Answer r) -> (r.1 = SOK \/ node s' <> node s) ->
  tenant_cert_binding_enabled_ (svc s) = true -> forwarded cx = false -> CheckHandleOwnership h (ClientCertCN cx) (svc s) = true.
Proof.
  intros E Ef B F. unfold on_handle, IsForwardedCall in E. rewrite B, F in E. simpl in E. destruct (_ && _).
  - unfold forward_to in E. destruct (GetPeerStub _ _) as [[t|] v]; [done|]. injection E as <- <-. by destruct Ef as [Ef|Ef].
  - destruct (CheckHandleOwnership _ _ _); [done|]. injection E as <- <-. by destruct Ef.
Qed.

Lemma handle_checked e cx q h s s' r :
  handle_in q = Some h -> handle e cx q s = (s', Answer r) -> (r.1 = SOK \/ node s' <> node s) ->
  tenant_cert_binding_enabled_ (svc s) = true -> forwarded cx = false -> handle_to_cn_ (svc s) !! h = Some (ClientCertCN cx).
Proof.
  intros Hq E Ef B F. assert (CheckHandleOwnership h (ClientCertCN cx) (svc s) = true) as Ck.
  { destruct q; try done; injection Hq as ->; by eapply on_handle_checked. }
  unfold CheckHandleOwnership in Ck. destruct (handle_to_cn_ (svc s) !! h); [|done]. by case_bool_decide; subst.
Qed.

(** [C6] With the binding on, a handle serves only the one it was given to. In every run,
    if a direct call on a handle takes effect on a server, then that server gave the
    handle out once, in answer to a call with the same common name in its certificate; and
    if that call was direct too, its certificate resolved to the tenant of the request. *)
Theorem handles_serve_their_owner B svs xs t s e cx q h s' r :
  (forall t s, svs !! t = Some s -> small_ring B s /\ handle_to_cn_ (svc s) = ∅) -> Forall (fair B) xs ->
  let c := run xs (boot svs) in
  servers c !! t = Some s -> tenant_cert_binding_enabled_ (svc s) = true -> forwarded cx = false -> handle_in q = Some h ->
  handle e cx q s = (s', Answer r) -> (r.1 = SOK \/ node s' <> node s) ->
  exists E, E ∈ history c /\ e_server E = t /\ given_handle (e_reply E) = Some h /\ ClientCertCN (e_cx E) = ClientCertCN cx /\
    (forwarded (e_cx E) = false -> entitled (e_registry E) (e_cx E) (e_req E)) /\
    forall E', E' ∈ history c -> e_server E' = t -> given_handle (e_reply E') = Some h -> E' = E.
Proof.
  intros Hb Fx c Es Bd F Hq Eh Ef. pose proof (cluster_run_Inv B xs (boot svs) Fx (boot_Inv B svs Hb)) as I. fold c in I.
  pose proof (i_owned _ _ I t s Es) as O. pose proof (handle_checked e cx q h s s' r Hq Eh Ef Bd F) as Cn.
  destruct (ow_cn _ _ _ O h _ Cn) as (E & HE & Et & G & C & En). exists E. split_and!; try done.
  intros E' HE' Et' G'. by apply (ow_once _ _ _ O E' E h).
Qed.

End Cluster.
Arguments Cluster : clear implicits.
Arguments input : clear implicits.

(** ** Two nodes *)

(** The node whose number ends the key ranks first. *)
Definition ex_hash (x : bytes) : Z :=
  match x with
  | _ :: c :: key => if bool_decide (last key = Some c) then 2 ^ 63 else 2 ^ 62 + byte_val c * 2 ^ 40
  | _ => 0
  end.
Definition ex_sha (x : bytes) : bytes := Lpm.pad16 x.

Definition ex_ring : Hrw.Ring :=
  Hrw.mkRing ((fun i => Hrw.mkNode i (double_of 1)) <$> [str "n1"; str "n2"]) Hrw.default_alpha.
Definition ex_target (i : bytes) : bytes := Directory.DialTarget i 1.
Definition ex_dir : Directory.Dir :=
  Directory.mkDir Directory.default_options
    (list_to_map ((fun i => (i, Directory.endpoint i 1)) <$> [str "n1"; str "n2"])) ex_ring ∅ [] 0 false 0.

#[local] Instance ex_core : Core := headless Lpm.pad16 (C := TierManager.w_C).

Definition ex_server (binding : bool) (i : bytes) : Server :=
  mkServer (EnableTenantCertBinding binding (EnableForwarding i ex_ring ex_dir (new_service None))) NodeCorrect.w_boot.
Definition ex_servers (binding : bool) : gmap bytes Server :=
  <[ex_target (str "n1") := ex_server binding (str "n1")]> {[ ex_target (str "n2") := ex_server binding (str "n2") ]}.

Definition ex_env : svc_env :=
  mkSvcEnv (mkEnv NodeCorrect.yes 0 TierManager.w_io (mkTransfer true true true) 0) true true (fun _ => None) (fun _ => 0).
Definition ex_peer (t : bytes) : ServerContext := mkContext true [str "cluster"] [].
Definition client (cn : bytes) : ServerContext := mkContext false [cn] [].

Notation ex_run := (run ex_hash ex_sha (St := Hrw.merge_sorts) ex_peer).

(** A call of a client, run to its end. *)
Definition ask (i : nat) (n : bytes) (cn : bytes) (q : Request) : list (input ex_core) :=
  Start i (ex_target n) (client cn) q :: replicate 7 (Run i ex_env).

Definition reply_of (i : nat) (c : Cluster ex_core) : option Reply :=
  match threads c !! i with Some (mkThread (Returned r) []) => Some r | _ => None end.

(** The locator of a tenant, owned by the node whose number ends it. *)
Definition ex_locator (tenant : bytes) (owner : byte) : PLocator :=
  mkPLocator (ex_sha tenant) 7 (replicate 15 x00 ++ [owner]) None 1 0.
Definition one : byte := x31.
Definition two : byte := x32.

Definition node_at (n : bytes) (c : Cluster ex_core) : option (Node TierManager.w_C) :=
  match servers c !! ex_target n with Some s => Some (node s : core (Core := ex_core)) | None => None end.
Definition watermark (ih : Z) (n : bytes) (c : Cluster ex_core) : option Z :=
  (fun x => Ingest.Read ih (wm_ (bufs_ x))) <$> node_at n c.

(** Both nodes number their handles from one. A client's upload is local to the first
    node; another's is forwarded from there to the second, and gets the same handle. What
    the first client then publishes goes to the second client's upload. *)
Example handles_collide :
  let c := ex_run (ask 1 (str "n1") (str "a") (RReserve (ex_locator (str "a") one) 4) ++
                   ask 2 (str "n1") (str "b") (RReserve (ex_locator (str "b") two) 4) ++
                   ask 3 (str "n1") (str "a") (RPublish 1 3)) (boot (ex_servers false)) in
  (given_handle <$> reply_of 1 c) = Some (Some 1) /\ (given_handle <$> reply_of 2 c) = Some (Some 1) /\
  (reply_of 3 c) = Some (SOK, EPublish 0) /\
  watermark 1 (str "n1") c = Some 0 /\ watermark 1 (str "n2") c = Some 3.
Proof. vm_compute. repeat split; reflexivity. Qed.

(** *** Two nodes that hold each other's handle *)

Lemma bounce Blake3_64 SHA1 {St : Hrw.StdSort} {K : Core} e cx h w (s : Server) i t :
  ForwardOwnerForHandle h (svc s) = i -> i <> [] -> i <> self_node_id_ (svc s) -> stubs_ (svc s) !! i = Some t ->
  handle Blake3_64 SHA1 e cx (RPublish h w) s = (s, Forward t (RPublish h w) relay).
Proof.
  intros E N1 N2 S. simpl. unfold Publish, on_handle. rewrite E, (bool_decide_false (i = _)) by done.
  destruct i; [done|]. simpl. unfold forward_to, GetPeerStub. rewrite S. by destruct s.
Qed.

(** A server that passes calls on handle one to the node [i]. *)
Definition passes (i : bytes) (s : Service) : bool :=
  bool_decide (ForwardOwnerForHandle 1 s = i) && bool_decide (stubs_ s !! i = Some (ex_target i)) && bool_decide (i <> self_node_id_ s).

(** Where a call to publish is on its way to. *)
Definition publishing (th : Thread (K := ex_core)) : option bytes :=
  match at_ th with Sent t _ (RPublish 1 3) => Some t | _ => None end.

(** The two nodes pass them to each other, and the call is on its way to one of them. *)
Definition bouncing (c : Cluster ex_core) : Prop :=
  (passes (str "n2") ∘ svc <$> servers c !! ex_target (str "n1")) = Some true /\
  (passes (str "n1") ∘ svc <$> servers c !! ex_target (str "n2")) = Some true /\
  exists i, (publishing <$> threads c !! 3%nat) = Some (Some (ex_target i)) /\ (i = str "n1" \/ i = str "n2").

Lemma bouncing_step c : bouncing c -> bouncing (step ex_hash ex_sha (St := Hrw.merge_sorts) ex_peer (Run 3 ex_env) c).
Proof.
  intros (P1 & P2 & i & T & Hi). apply fmap_Some in T as ([[t cx q|] st] & T & X); [|done]. unfold publishing in X. simpl in X.
  destruct q as [| |h w| | |]; try done. destruct h as [|[]|]; try done. destruct w as [|[[]| |]|]; try done. injection X as <-. unfold step. rewrite T. unfold advance.
  assert (exists s, servers c !! ex_target i = Some s /\ exists j, passes j (svc s) = true /\ (j = str "n1" \/ j = str "n2")) as (s & E & j & Pj & Hj).
  { destruct Hi as [-> | ->]; [apply fmap_Some in P1 as (s & E & X)|apply fmap_Some in P2 as (s & E & X)]; exists s; (split; [done|]);
      eexists; (split; [by symmetry|]); auto. }
  rewrite E. unfold passes in Pj. reflect_bools.
  rewrite (bounce ex_hash ex_sha (St := Hrw.merge_sorts) ex_env cx 1 3 s j (ex_target j)); [| done | by destruct Hj as [-> | ->] | done | done ].
  assert (forall A (f : Server -> A) k, f <$> <[ex_target i := s]> (servers c) !! k = f <$> servers c !! k) as Same.
  { intros A f k. destruct (decide (k = ex_target i)) as [-> |]; [by rewrite lookup_insert_eq, E|by rewrite lookup_insert_ne]. }
  split; [simpl; by rewrite Same|]. split; [simpl; by rewrite Same|]. simpl.
  exists j. split; [by rewrite lookup_insert_eq|done].
Qed.

(** Each of two clients reserves through the node that does not own its locator. Each node
    then takes handle one for the other's, and a call on it is passed back and forth
    forever. *)
Example handle_ping_pong n :
  let c := ex_run (ask 1 (str "n1") (str "a") (RReserve (ex_locator (str "a") two) 4) ++
                   ask 2 (str "n2") (str "b") (RReserve (ex_locator (str "b") one) 4) ++
                   [Start 3 (ex_target (str "n1")) (client (str "a")) (RPublish 1 3)]) (boot (ex_servers false)) in
  ~ finished 3 (ex_run (replicate n (Run 3 ex_env)) c).
Proof.
  intros c. assert (bouncing c) as G.
  { split; [vm_compute; reflexivity|]. split; [vm_compute; reflexivity|]. exists (str "n1").
    split; [vm_compute; reflexivity|by left]. }
  clearbody c. revert c G. induction n as [|n IH]; intros c G.
  - intros [r X]. destruct G as (_ & _ & i & T & _). simpl in X. by rewrite X in T.
  - apply (IH _ (bouncing_step c G)).
Qed.

(** *** Uploads and lookups *)

(** Tokens whose lookups the first node owns. *)
Definition ex_tokens : list Z := replicate 15 7 ++ [0x31000000].

(** A client uploads [42] through the node [n], where it gets the handle [h] and the first
    slot of the node at [o]. *)
Definition upload (i : nat) (n o cn : bytes) (l : PLocator) (h : Z) : list (input ex_core) :=
  ask i n cn (RReserve l 4) ++
  [Outside (ex_target o) (fun s => mkServer (svc s) (EngineWrite 0 [x42] (node s : Node TierManager.w_C) : core (Core := ex_core)))] ++
  ask (S i) n cn (RPublish h 1) ++ ask (S (S i)) n cn (RSeal h ex_tokens).

(** Both bindings are on and the certificate names tenant [a]; the hash in the request is
    that of tenant [b], and the client reads what [b] uploaded. *)
Example lookup_crosses_tenants :
  let c := ex_run (upload 1 (str "n1") (str "n1") (str "b") (ex_locator (str "b") one) 1 ++
                   ask 4 (str "n1") (str "a") (RLookup (str "a") 7 ex_tokens (HashTenantBytes16 (ex_sha (str "b")))) ++
                   ask 5 (str "n1") (str "a") (RFetch 2 64 4 0 [])) (boot (ex_servers true)) in
  reply_of 3 c = Some (SOK, ESeal) /\ (given_handle <$> reply_of 4 c) = Some (Some 2) /\ reply_of 5 c = Some (SOK, EFetch 2 [x42]).
Proof. vm_compute. repeat split; reflexivity. Qed.

(** The sketch of the second node after that upload, in the directory of the first. *)
Definition ex_sketch : bytes :=
  match Directory.AddTokens ex_hash (HashTenantBytes16 (ex_sha (str "b"))) 7 ex_tokens
          (Directory.mkPublisher [] 0 (Bloom.make Bloom.w_params) 0) with
  | Some p => Directory.EncodeSnapshot (Directory.bloom_ p)
  | None => []
  end.
Definition learn_sketch (s : Server (K := ex_core)) : Server :=
  mkServer (EnableForwarding (str "n1") ex_ring (Directory.ApplyPeerSketch (str "n2") ex_sketch ex_dir) (svc s)) (node s).

Definition ex_lookup : Request := RLookup (str "b") 7 ex_tokens 0.

(** The second node owns the upload, the first the lookup, by the different keys they are
    routed by. Asked directly, the first node finds the upload through the sketch; asked
    through the second node, which holds it, it answers that there is none. *)
Example holder_forwards_and_misses :
  let c := ex_run (upload 1 (str "n2") (str "n2") (str "b") (ex_locator (str "b") two) 1 ++
                   [Outside (ex_target (str "n1")) learn_sketch] ++
                   ask 4 (str "n1") (str "b") ex_lookup ++ ask 5 (str "n2") (str "b") ex_lookup) (boot (ex_servers false)) in
  reply_of 3 c = Some (SOK, ESeal) /\ (given_handle <$> reply_of 4 c) = Some (Some 2) /\ reply_of 5 c = Some (SOK, EMiss).
Proof. vm_compute. repeat split; reflexivity. Qed.

(** A read handle that came from a peer serves any client: the node that forwards does not
    check who owns it. *)
Example forwarded_handle_unchecked :
  let c := ex_run (upload 1 (str "n1") (str "n1") (str "b") (ex_locator (str "b") one) 1 ++
                   ask 4 (str "n2") (str "b") ex_lookup ++
                   ask 5 (str "n2") (str "a") (RFetch 2 64 4 0 [])) (boot (ex_servers true)) in
  (given_handle <$> reply_of 4 c) = Some (Some 2) /\ reply_of 5 c = Some (SOK, EFetch 2 [x42]).
Proof. vm_compute. repeat split; reflexivity. Qed.

(** ** Witnesses *)

Lemma ex_hash_range x : 0 <= ex_hash x < 2 ^ 64.
Proof.
  destruct x as [|a [|c key]]; simpl; [lia|lia|]. destruct (bool_decide _); [lia|]. pose proof (byte_val_bound c). lia.
Qed.

Lemma ex_small b t s : ex_servers b !! t = Some s -> small_ring 2 s /\ handle_to_cn_ (svc s) = ∅.
Proof.
  unfold ex_servers. intros [[_ <-]|[_ [_ <-]%lookup_singleton_Some]]%lookup_insert_Some; (split; [|done]);
    intros r [= <-]; (split; [by repeat constructor|]); vm_compute; lia.
Qed.

Lemma ex_ask_fair i n cn q : Forall (fair 2) (ask i n cn q).
Proof. apply Forall_forall. intros x [->|[-> _]%elem_of_replicate]%elem_of_cons; done. Qed.

Definition is_none {A} (o : option A) : bool := match o with None => true | Some _ => false end.
Lemma is_none_eq {A} (o : option A) : is_none o = true -> o = None.
Proof. by destruct o. Qed.

Lemma routed_calls_end_witness :
  finished 4 (ex_run (ask 1 (str "n1") (str "b") (RReserve (ex_locator (str "b") two) 4) ++ ask 4 (str "n2") (str "b") ex_lookup) (boot (ex_servers false))).
Proof.
  apply (routed_calls_end ex_hash ex_sha (St := Hrw.merge_sorts) ex_peer ex_hash_range (SL := Hrw.merge_sorts_laws) (fun _ => eq_refl)
    (KL := headless_laws Lpm.pad16) 2 (ex_servers false)
    (ask 1 (str "n1") (str "b") (RReserve (ex_locator (str "b") two) 4)) 4 (ex_target (str "n2")) (client (str "b")) ex_lookup
    (replicate 7 (Run 4 ex_env))).
  - exact (ex_small false).
  - apply ex_ask_fair.
  - apply Forall_forall. intros x [-> _]%elem_of_replicate. exact I.
  - exact I.
  - apply is_none_eq. vm_compute. reflexivity.
  - vm_compute. lia.
Defined.

(** The server after its client reserved locally, with the binding on. *)
Definition ex_held : Cluster ex_core :=
  ex_run (ask 1 (str "n1") (str "b") (RReserve (ex_locator (str "b") one) 4)) (boot (ex_servers true)).

(** The client publishes. *)
Definition ex_publish (s : Server) : Server * Act := handle ex_hash ex_sha (St := Hrw.merge_sorts) (K := ex_core) ex_env (client (str "b")) (RPublish 1 1) s.
Definition ex_published (s : Server) : bool :=
  tenant_cert_binding_enabled_ (svc s) && match (ex_publish s).2 with Answer (SOK, _) => true | _ => false end.

Lemma handles_serve_their_owner_witness :
  exists E, E ∈ history ex_held /\ given_handle (e_reply E) = Some 1 /\ ClientCertCN (e_cx E) = str "b" /\
    (forwarded (e_cx E) = false -> entitled ex_sha (e_registry E) (e_cx E) (e_req E)).
Proof.
  assert ((ex_published <$> servers ex_held !! ex_target (str "n1")) = Some true) as X by (vm_compute; reflexivity).
  destruct (servers ex_held !! ex_target (str "n1")) as [s|] eqn:Es; [|discriminate X].
  assert (ex_published s = true) as P by (by injection X). unfold ex_published in P. apply andb_true_iff in P as [Bd P].
  destruct (ex_publish s) as [s' a] eqn:Eh. destruct a as [[[] rr]|]; simpl in P; try discriminate P.
  destruct (handles_serve_their_owner ex_hash ex_sha (St := Hrw.merge_sorts) ex_peer (KL := headless_laws Lpm.pad16) 2 (ex_servers true)
    (ask 1 (str "n1") (str "b") (RReserve (ex_locator (str "b") one) 4)) (ex_target (str "n1")) s ex_env (client (str "b")) (RPublish 1 1) 1 s' (SOK, rr))
    as (E & HE & _ & G & C & En & _).
  - exact (ex_small true).
  - apply ex_ask_fair.
  - exact Es.
  - exact Bd.
  - reflexivity.
  - reflexivity.
  - exact Eh.
  - left. reflexivity.
  - exists E. split; [exact HE|]. split; [exact G|]. split; [exact C|exact En].
Defined.

End Cluster.
