(* ===== verification/ServiceCorrect.v ===== *)
(** * Uploads and lookups through the data service

    The handlers of NodeService.v on the node of HeadlessNode.v: what a tenant uploads
    through the service it finds and fetches through the service
    ([upload_through_service]), and what a node has sealed leads the lookups of other
    nodes to it ([sealed_chunks_are_asked_for]). *)

From S2P Require Import Prelude Mtls Locator Floats Bloom Hrw ArtIndex Lpm StateWal NvmeTier Ingest ColdTier TierManager HeadlessNode NodeCorrect Etcd Directory Abi NodeService.
From Stdlib Require Import ZArith Lia.

Open Scope Z_scope.

Module ServiceCorrect.

Import Locator Node Abi NodeService.
#[local] Notation str := Mtls.str.

Section Service.
Context (Blake3_64 : bytes -> Z) (SHA1 : bytes -> bytes) {St : Hrw.StdSort}.
Context (Blake3_128 : bytes -> bytes) (mmap : bool) (ne : Nvme.env) (ce : Cold.env) (o : TierManager.Options) {C : Cold.IColdTier} `{CL : !Cold.Laws C}.
Context (mk : Cold.St C -> TierManager.Manager C) (c0 : Cold.St C) (memory : bytes) (wal : option StateWal.Wal).
Hypothesis Blake3_128_length : forall b, length (Blake3_128 b) = 16%nat.
Hypothesis created : TierManager.Create mmap ne ce o = Some (existT C mk).
Hypothesis sane : NodeCorrect.options_ok ne o.
Hypothesis mapped : zlen memory = Ingest.pool_bytes (TierManager.pinned o).
Hypothesis SHA1_length : forall b, length (SHA1 b) = 20%nat.

#[local] Instance K : Core := headless Blake3_128 (C := C).
Notation Server := (NodeService.Server (K := K)).
Notation handle := (NodeService.handle Blake3_64 SHA1 (K := K)).

(** ** Handles on their server *)











(** ** The calls of an upload *)










End Service.

(** ** Lookups that follow the sketches *)

Section Sketches.
Context (Blake3_64 : bytes -> Z) {St : Hrw.StdSort} {K : Core}.
Notation Server := (NodeService.Server (K := K)).
Notation Act := (NodeService.Act (K := K)).

(** What comes of an action when the peer at each target answers [R]: the targets asked,
    and the reply. *)
Inductive asks (R : bytes -> Reply) : Server * Act -> list bytes -> Reply -> Prop :=
| asks_none s r : asks R (s, Answer r) [] r
| asks_peer s t q k ts r : asks R (k (R t) s) ts r -> asks R (s, Forward t q k) (t :: ts) r.

(** The target at which a peer is called. *)
Definition stub_of (v : Service) (p : bytes) : option bytes :=
  match stubs_ v !! p with Some t => Some t | None => Directory.dial_target <$> (directory_ v ≫= Directory.Resolve p) end.

(** The peers that the fall-back would ask: others, with a sketch that says maybe, and a
    known address. *)
Definition candidate (v : Service) (skey p : bytes) : option bytes :=
  if bool_decide (p = self_node_id_ v) then None
  else if bool_decide ((d ← directory_ v; Directory.PeerMaybeHas Blake3_64 p skey d) = Some true) then stub_of v p else None.

Definition ok_reply (r : Reply) : bool := match r.1 with SOK => true | _ => false end.

(** The first good reply, and the targets up to it. *)
Fixpoint first_ok (R : bytes -> Reply) (ts : list bytes) : list bytes * Reply :=
  match ts with
  | [] => ([], (SOK, EMiss))
  | t :: ts => if ok_reply (R t) then ([t], R t) else let '(us, r) := first_ok R ts in (t :: us, r)
  end.

(** Stubs may be cached in between; nothing else matters to the candidates. *)
Record alike (v v' : Service) : Prop := {
  al_self : self_node_id_ v' = self_node_id_ v; al_dir : directory_ v' = directory_ v;
  al_stub : forall p, stub_of v' p = stub_of v p }.

Lemma candidate_alike v v' skey p : alike v v' -> candidate v' skey p = candidate v skey p.
Proof. intros [A B D]. unfold candidate. by rewrite A, B, D. Qed.

Lemma GetPeerStub_stub p v : (GetPeerStub p v).1 = stub_of v p /\ alike v (GetPeerStub p v).2.
Proof.
  unfold GetPeerStub, stub_of. destruct (stubs_ v !! p) as [t|] eqn:E; [done|].
  destruct (directory_ v ≫= Directory.Resolve p) as [ep|] eqn:D; [|done]. split; [done|]. split; [done|done|].
  intros p'. unfold stub_of. simpl. destruct (decide (p' = p)) as [->|]; [by rewrite lookup_insert_eq, E, D|by rewrite lookup_insert_ne].
Qed.

(** The fall-back asks the candidates in the order of the ring until one answers. *)
Lemma probe_asks R skey q ranked : forall s v0, alike v0 (svc s) ->
  let f := first_ok R (omap (candidate v0 skey) ranked) in asks R (probe Blake3_64 skey q ranked s) f.1 f.2.
Proof.
  induction ranked as [|p ranked IH]; intros s v0 A; [constructor|]. simpl. rewrite <- (candidate_alike _ _ _ _ A). unfold candidate.
  destruct (bool_decide (p = _)); [by apply IH|]. destruct (bool_decide (_ = Some true)); [|by apply IH]. simpl.
  unfold forward_to. destruct (GetPeerStub_stub p (svc s)) as [E A']. rewrite <- E.
  destruct (GetPeerStub p (svc s)) as [[t|] v]; simpl in *.
  - unfold ok_reply. destruct (R t).1 eqn:Er; try (specialize (IH (mkServer v (node s)) v0); destruct (first_ok R _) as [us r]; simpl in *;
      constructor; rewrite Er; apply IH; destruct A, A'; split; congruence).
    simpl. constructor. rewrite Er. unfold pass_on. constructor.
  - apply IH. destruct A, A'. split; simpl; congruence.
Qed.

(** A node's sketch after a seal. *)
Definition sketch_ok (p : Directory.Publisher) : Prop :=
  let b := Directory.bloom_ p in
  Bloom.params_ok (Bloom.params_ b) /\ Bloom.m_bits (Bloom.params_ b) < 2 ^ 32 /\ 0 < Z.of_nat (Bloom.k_hashes (Bloom.params_ b)) < 2 ^ 32 /\
  Bloom.sized_words (Bloom.params_ b) (Bloom.words_ b).

Lemma publish_tokens_sketch h tokens v p hh :
  publisher_ v = Some p -> sketch_ok p -> handle_to_hashes_ v !! h = Some hh -> tokens <> [] ->
  exists p', publisher_ (publish_tokens Blake3_64 h tokens v) = Some p' /\ sketch_ok p' /\
    Bloom.MaybeContains Blake3_64 (Directory.SketchKeyForTokens (tenant_hash hh) (model_hash hh) tokens) (Directory.bloom_ p') = Some true.
Proof.
  intros P (P1 & P2 & P3 & P4) Hh Nt. unfold publish_tokens. rewrite P, Hh. destruct tokens as [|tok tokens]; [done|].
  unfold Directory.AddTokens, Directory.PublisherAdd.
  destruct (Bloom.Add_contains Blake3_64 (Bloom.params_ (Directory.bloom_ p)) (Directory.bloom_ p)
    (Directory.SketchKeyForTokens (tenant_hash hh) (model_hash hh) (tok :: tokens)) P1 eq_refl P4) as (b' & -> & Ep & S & M).
  simpl. eexists. split; [done|]. split; [|done]. unfold sketch_ok. simpl. by rewrite Ep.
Qed.

Lemma sketch_received id p d :
  sketch_ok p -> id <> [] ->
  let ev := Etcd.mkEvent Etcd.kPut (Etcd.mkKV (Directory.sketch_prefix (Directory.opts_ d) ++ id) (Directory.EncodeSnapshot (Directory.bloom_ p)) 1 1 0) Etcd.no_kv in
  forall k, Directory.PeerMaybeHas Blake3_64 id k (Directory.OnSketchWatch ev d) = Bloom.MaybeContains Blake3_64 k (Directory.bloom_ p).
Proof.
  intros (P1 & P2 & P3 & P4) N ev k. unfold Directory.OnSketchWatch. simpl. rewrite Directory.KeyToNodeId_app. destruct id as [|b id]; [done|].
  unfold Directory.ApplyPeerSketch. rewrite Directory.sketch_blob_roundtrip by (done || lia). unfold Directory.PeerMaybeHas. simpl.
  rewrite lookup_insert_eq. by apply Bloom.snapshot_answers.
Qed.

Lemma first_ok_only R ts t :
  t ∈ ts -> ok_reply (R t) = true -> (forall t', t' <> t -> ok_reply (R t') = false) -> (first_ok R ts).2 = R t.
Proof.
  intros H Ok No. induction ts as [|u ts IH]; [by apply elem_of_nil in H|]. simpl. destruct (decide (u = t)) as [->|Ne]; [by rewrite Ok|].
  rewrite No by done. apply elem_of_cons in H as [->|H]; [done|]. specialize (IH H). by destruct (first_ok R ts).
Qed.

(** The event by which a sketch reaches a directory. *)
Definition sketch_event (d : Directory.Dir) (id : bytes) (p : Directory.Publisher) : Etcd.WatchEvent :=
  Etcd.mkEvent Etcd.kPut (Etcd.mkKV (Directory.sketch_prefix (Directory.opts_ d) ++ id) (Directory.EncodeSnapshot (Directory.bloom_ p)) 1 1 0) Etcd.no_kv.

(** What a node has sealed leads the lookups of the others to it. A node seals tokens
    through the service and publishes its sketch; the owner of a lookup of these tokens by
    the same tenant and model has received the sketch, does not have them, and is asked
    directly. Then it does not report a miss on its own: it asks the peers whose sketches
    say maybe, in the order of its ring, and passes on the first good reply; the holder is
    among them, and if it is the only one to give a good reply, its reply is the answer. *)
Theorem sealed_chunks_are_asked_for h tokens v p th mh :
  publisher_ v = Some p -> sketch_ok p -> handle_to_hashes_ v !! h = Some (mkHashes th mh) -> tokens <> [] ->
  exists p', publisher_ (publish_tokens Blake3_64 h tokens v) = Some p' /\
  forall R e cx q (s : Server) c v' d r id target,
    directory_ (svc s) = Some (Directory.OnSketchWatch (sketch_event d id p') d) -> ring_ (svc s) = Some r ->
    forwarded cx = false -> self_node_id_ (svc s) <> [] -> id <> [] -> id <> self_node_id_ (svc s) ->
    id ∈ Hrw.TopK Blake3_64 (tokens_bytes tokens) (Hrw.NodeCount r) None r -> stub_of (svc s) id = Some target ->
    GetOrOpenCtx (node_ok e) th mh (svc s) = (Some c, v') -> (kv_lookup (Some c) tokens (node s)).1.1 = KV_E_NOT_FOUND ->
    let cands := omap (candidate (svc s) (Directory.SketchKeyForTokens th mh tokens))
                   (Hrw.TopK Blake3_64 (tokens_bytes tokens) (Hrw.NodeCount r) None r) in
    target ∈ cands /\
    asks R (lookup_local Blake3_64 e cx q th mh tokens s) (first_ok R cands).1 (first_ok R cands).2 /\
    (ok_reply (R target) = true -> (forall t', t' <> target -> ok_reply (R t') = false) -> (first_ok R cands).2 = R target).
Proof.
  intros P Sk Hh Nt. destruct (publish_tokens_sketch h tokens v p _ P Sk Hh Nt) as (p' & P' & Sk' & M). exists p'. split; [done|].
  intros R e cx q s c v' d r id target D Rg F Sf Ni Ns Top Stub G L cands. simpl in M.
  assert (target ∈ cands) as Hin.
  { apply list_elem_of_omap. exists id. split; [done|]. unfold candidate. rewrite bool_decide_false by done. rewrite D. simpl.
    rewrite (sketch_received id p' d Sk' Ni), M. by rewrite bool_decide_true. }
  split; [done|]. split; [|by intros; apply first_ok_only].
  unfold lookup_local. rewrite G. pose proof (GetOrOpenCtx_maps _ _ _ _ _ _ G) as Ev.
  assert (ring_ v' = Some r /\ directory_ v' = directory_ (svc s) /\ self_node_id_ v' = self_node_id_ (svc s)) as (Er & Ed & Es) by (by rewrite Ev).
  destruct (kv_lookup (Some c) tokens (node s)) as [[rc oa] n]. simpl in L. subst rc.
  assert ((match ring_ v', directory_ v' with
    | Some r0, Some _ => if negb (forwarded cx) && negb (Mtls.is_nil (self_node_id_ v'))
        then probe Blake3_64 (Directory.SketchKeyForTokens th mh tokens) q (Hrw.TopK Blake3_64 (tokens_bytes tokens) (Hrw.NodeCount r0) None r0) (mkServer v' n)
        else (mkServer v' n, Answer (SOK, EMiss))
    | _, _ => (mkServer v' n, Answer (SOK, EMiss)) end) =
    probe Blake3_64 (Directory.SketchKeyForTokens th mh tokens) q (Hrw.TopK Blake3_64 (tokens_bytes tokens) (Hrw.NodeCount r) None r) (mkServer v' n)) as Ep.
  { rewrite Er, Ed, D, F, Es. simpl. by destruct (self_node_id_ (svc s)). }
  assert (alike (svc s) v') as Al.
  { split; [done|done|]. intros x. unfold stub_of. by rewrite Ed, Ev. }
  destruct oa; rewrite Ep; by apply probe_asks.
Qed.

End Sketches.

(** ** Witnesses *)

Definition w_b3 (x : bytes) : Z := get_le x mod 2 ^ 64.
#[local] Instance w_K : Core := headless Lpm.pad16 (C := TierManager.w_C).

Definition w_env : svc_env (K := w_K) :=
  mkSvcEnv (K := w_K)
    (mkEnv NodeCorrect.yes 0 TierManager.w_io (mkTransfer true true true) 0) true true (fun _ => None) (fun _ => 0).
Definition w_cx : ServerContext := mkContext false [str "t"] [].

Notation w_Server := (NodeService.Server (K := w_K)).








(** A holder that sealed, and the owner of the lookup, with the directory it had. *)
Definition w_holder : Service :=
  set_publisher (Directory.mkPublisher [] 0 (Bloom.make Bloom.w_params) 0) (RememberHashes 1 (mkHashes 5 7) (new_service None)).
Definition w_ring : Hrw.Ring := Hrw.mkRing ((fun i => Hrw.mkNode i (double_of 1)) <$> [str "n1"; str "n2"]) Hrw.default_alpha.
Definition w_dir : Directory.Dir :=
  Directory.mkDir Directory.default_options {[ str "n2" := Directory.endpoint (str "n2") 1 ]} w_ring ∅ [] 0 false 0.
Definition w_asker (p : Directory.Publisher) : w_Server :=
  mkServer (EnableForwarding (str "n1") w_ring (Directory.OnSketchWatch (sketch_event w_dir (str "n2") p) w_dir) (new_service None)) NodeCorrect.w_boot.
Definition w_peer (t : bytes) : Reply :=
  if bool_decide (t = str "n2:1") then (SOK, EHit no_locator 3 16) else fail SUnavailable.

Lemma sealed_chunks_are_asked_for_witness :
  exists p ts, asks w_peer (lookup_local w_b3 (St := Hrw.merge_sorts) w_env w_cx (RLookup (str "t") 7 Lpm.tokens16 5) 5 7 Lpm.tokens16 (w_asker p)) ts
    (SOK, EHit no_locator 3 16).
Proof.
  destruct (sealed_chunks_are_asked_for w_b3 (St := Hrw.merge_sorts) (K := w_K) 1 Lpm.tokens16 w_holder
    (Directory.mkPublisher [] 0 (Bloom.make Bloom.w_params) 0) 5 7) as (p & _ & H).
  - reflexivity.
  - split; [split; [vm_compute; reflexivity|reflexivity]|]. split; [vm_compute; reflexivity|]. split; [vm_compute; split; reflexivity|].
    apply Bloom.make_sized. split; [vm_compute; reflexivity|reflexivity].
  - reflexivity.
  - discriminate.
  - destruct (GetOrOpenCtx (node_ok w_env) 5 7 (svc (w_asker p))) as [oc v'] eqn:G. destruct oc as [c|]; [|discriminate G].
    destruct (H w_peer w_env w_cx (RLookup (str "t") 7 Lpm.tokens16 5) (w_asker p) c v' w_dir w_ring (str "n2") (str "n2:1")
      eq_refl eq_refl eq_refl) as (_ & A & O).
    + discriminate.
    + discriminate.
    + discriminate.
    + vm_compute. right. left.
    + unfold stub_of, w_asker. cbn [svc EnableForwarding new_service stubs_ directory_]. rewrite lookup_empty.
      cbn [mbind option_bind]. unfold Directory.Resolve. rewrite (proj1 (proj2 (Directory.OnSketchWatch_view _ _))). vm_compute. reflexivity.
    + exact G.
    + unfold GetOrOpenCtx, w_asker in G. cbn [svc EnableForwarding new_service cache_] in G. rewrite lookup_empty in G. injection G as <- _.
      vm_compute. reflexivity.
    + exists p. eexists. rewrite O in A; [exact A|reflexivity|]. intros t' Ne. unfold w_peer. by rewrite bool_decide_false.
Defined.

End ServiceCorrect.
