(* ===== verification/TensorCodec.v ===== *)
(** * The tensor codec

    codec/kv_tensor_codec.cpp: a lossy codec for tensors of floats, which predicts each
    token from the reconstruction of the one before, quantises the residuals to 8 or 4
    bits with one scale a channel or a token, packs them and may compress them; and the
    two functions of core-abi/src/kv_abi.cpp over it.

    The arithmetic is a class: the codec's own theorems hold whatever the machine's floats
    compute. Two instances: [float32], the IEEE binary32 operations on bit patterns, and
    [rational], exact arithmetic, in which the error of the quantisation is bounded. zstd
    is a parameter, absent in builds without it. *)

From S2P Require Import Prelude Mtls HeadlessNode.
From Stdlib Require Import ZArith QArith Qabs Qround Lia Lqa.
From Stdlib Require Import Floats.SpecFloat.

Open Scope Z_scope.

Module TensorCodec.

#[local] Notation str := Mtls.str.

(** ** Arithmetic *)

(** [float], with [std::lround], whose result is unspecified beyond the range of [long]. *)
Class FloatArith := {
  float : Type;
  fadd : float -> float -> float; fsub : float -> float -> float; fmul : float -> float -> float; fdiv : float -> float -> float;
  fabs : float -> float; fgt : float -> float -> bool; float_of : Z -> float; lround : float -> Z }.

(** Floats in memory. *)
Class FloatBits (A : FloatArith) := { to_bits : float -> Z; of_bits : Z -> float }.
Class FloatBitsLaws {A} (B : FloatBits A) : Prop := {
  bits_range x : 0 <= to_bits x < 2 ^ 32; bits_inj x : of_bits (to_bits x) = x }.

(** ** Quantisation *)

Record KvShape := mkShape { n_tokens : Z; elems_per_token : Z }.
Record KvCodecParams := mkParams { bits : Z; delta : bool; per_channel : bool }.

Definition qmax_of (b : Z) : Z := if b =? 8 then 127 else 7.

Section Quantise.
Context {A : FloatArith}.

Definition zero : float := float_of 0.
Definition one : float := float_of 1.

Definition clamp (qmax q : Z) : Z := if qmax <? q then qmax else if q <? - qmax then - qmax else q.

Definition quantise (qmax : Z) (scale pred x : float) : Z := clamp qmax (lround (fdiv (fsub x pred) scale)).
Definition reconstruct (scale pred : float) (q : Z) : float := fadd pred (fmul (float_of q) scale).

(** One row: the integers and the reconstruction, each element with its scale. *)
Fixpoint quantise_row (qmax : Z) (scales preds row : list float) : list Z * list float :=
  match scales, preds, row with
  | s :: scales, p :: preds, x :: row =>
      let q := quantise qmax s p x in
      let '(qs, rs) := quantise_row qmax scales preds row in (q :: qs, reconstruct s p q :: rs)
  | _, _, _ => ([], [])
  end.

Fixpoint reconstruct_row (scales preds : list float) (qs : list Z) : list float :=
  match scales, preds, qs with
  | s :: scales, p :: preds, q :: qs => reconstruct s p q :: reconstruct_row scales preds qs
  | _, _, _ => []
  end.

(** The prediction of a row: the last reconstruction, or zero. *)
Definition predict (predicts : bool) (E : nat) (recon_prev : list float) : list float :=
  if predicts then recon_prev else replicate E zero.

(** [scale] of a greatest magnitude. *)
Definition scale_of (qmax : Z) (amax : float) : float := if fgt amax zero then fdiv amax (float_of qmax) else one.

Definition greatest (a b : float) : float := if fgt b a then b else a.

(** *** One scale a token *)

Definition row_amax (preds row : list float) : float :=
  fold_left (fun a xp => greatest a (fabs (fsub xp.1 xp.2))) (zip row preds) zero.

(** The tokens from one on, after the reconstruction [prev]; [first] for the first token. *)
Fixpoint encode_tokens (qmax : Z) (dlt : bool) (E : nat) (first : bool) (prev : list float) (rows : list (list float)) :
    list float * list (list Z) * list (list float) :=
  match rows with
  | [] => ([], [], [])
  | row :: rows =>
      let preds := predict (dlt && negb first) E prev in
      let scale := scale_of qmax (row_amax preds row) in
      let '(qs, rs) := quantise_row qmax (replicate E scale) preds row in
      let '(ss, qss, rss) := encode_tokens qmax dlt E false rs rows in (scale :: ss, qs :: qss, rs :: rss)
  end.

(** *** One scale a channel *)

(** The greatest first differences, channel by channel. *)
Fixpoint update_amax (amax prevs row : list float) : list float :=
  match amax, prevs, row with
  | a :: amax, p :: prevs, x :: row => greatest a (fabs (fsub x p)) :: update_amax amax prevs row
  | _, _, _ => []
  end.

Fixpoint channel_amax (dlt : bool) (E : nat) (prev : option (list float)) (amax : list float) (rows : list (list float)) : list float :=
  match rows with
  | [] => amax
  | row :: rows =>
      let prevs := match prev with Some p => if dlt then p else replicate E zero | None => replicate E zero end in
      channel_amax dlt E (Some row) (update_amax amax prevs row) rows
  end.

Definition channel_scales (qmax : Z) (dlt : bool) (E : nat) (rows : list (list float)) : list float :=
  scale_of qmax <$> channel_amax dlt E None (replicate E zero) rows.

Fixpoint encode_channels (qmax : Z) (dlt : bool) (E : nat) (first : bool) (scales prev : list float) (rows : list (list float)) :
    list (list Z) * list (list float) :=
  match rows with
  | [] => ([], [])
  | row :: rows =>
      let '(qs, rs) := quantise_row qmax scales (predict (dlt && negb first) E prev) row in
      let '(qss, rss) := encode_channels qmax dlt E false scales rs rows in (qs :: qss, rs :: rss)
  end.

(** Scales, integers, and the reconstruction that the encoder tracks. *)
Definition quantise_tensor (p : KvCodecParams) (E : nat) (rows : list (list float)) : list float * list (list Z) * list (list float) :=
  let qmax := qmax_of (bits p) in
  if per_channel p
  then let ss := channel_scales qmax (delta p) E rows in
       let '(qss, rss) := encode_channels qmax (delta p) E true ss (replicate E zero) rows in (ss, qss, rss)
  else encode_tokens qmax (delta p) E true (replicate E zero) rows.

(** The loop of the decoder. *)
Fixpoint decode_rows (dlt pc : bool) (E : nat) (first : bool) (scales prev : list float) (qss : list (list Z)) : list (list float) :=
  match qss with
  | [] => []
  | qs :: qss =>
      let row_scales := if pc then scales else match scales with s :: _ => replicate E s | [] => [] end in
      let rs := reconstruct_row row_scales (predict (dlt && negb first) E prev) qs in
      rs :: decode_rows dlt pc E false (if pc then scales else tail scales) rs qss
  end.
End Quantise.

(** ** Packing *)

(** [int8_t] as a byte and back. *)
Definition byte_of_q (q : Z) : byte := byte_of (q mod 256).
Definition q_of_byte (b : byte) : Z := if byte_val b <? 128 then byte_val b else byte_val b - 256.

Definition nibble (q : Z) : Z := Z.land (q mod 256) 0x0F.
Definition q_of_nibble (n : Z) : Z := if Z.testbit n 3 then n - 16 else n.

Fixpoint pack4 (qs : list Z) : bytes :=
  match qs with
  | a :: b :: qs => byte_of (Z.lor (nibble a) (Z.shiftl (nibble b) 4)) :: pack4 qs
  | [a] => [byte_of (nibble a)]
  | [] => []
  end.

Definition pack (b : Z) (qs : list Z) : bytes := if b =? 8 then byte_of_q <$> qs else pack4 qs.

Definition PackedLen (n : nat) (b : Z) : nat := if b =? 8 then n else ((n + 1) / 2)%nat.

(** The integer at an index; [None] beyond the end of the buffer. *)
Definition unpack_at (b : Z) (packed : bytes) (i : nat) : option Z :=
  if b =? 8 then q_of_byte <$> packed !! i
  else (fun x => q_of_nibble (if Nat.even i then Z.land (byte_val x) 0x0F else Z.shiftr (byte_val x) 4)) <$> packed !! (i / 2)%nat.

Definition unpack (b : Z) (n : nat) (packed : bytes) : option (list Z) := mapM (unpack_at b packed) (seq 0 n).

(** ** The format *)

Definition kMagic : bytes := str "KVT1".
Definition kVersion : Z := 1.
Definition kFlagDelta : Z := 1.
Definition kFlagEntropy : Z := 2.
Definition kFlagPerChannel : Z := 4.
Definition kHeaderSize : nat := 16.

(** The rows of a flat array. *)
Fixpoint reshape {X} (T E : nat) (l : list X) : list (list X) :=
  match T with O => [] | S T => take E l :: reshape T E (drop E l) end.

Section Codec.
Context {A : FloatArith} {B : FloatBits A}.
(** [ZSTD_compress] and [ZSTD_decompress] into a buffer of a capacity, in builds that have
    them. *)
Context (zstd : option ((bytes -> option bytes) * (nat -> bytes -> option bytes))).

Definition put_floats (l : list float) : bytes := concat (put_le 4 ∘ to_bits <$> l).
Definition get_floats (n : nat) (b : bytes) : list float := of_bits ∘ get_le <$> reshape n 4 b.

Definition flags_of (p : KvCodecParams) (entropy : bool) : Z :=
  Z.lor (Z.lor (if delta p then kFlagDelta else 0) (if per_channel p then kFlagPerChannel else 0)) (if entropy then kFlagEntropy else 0).

Definition header (p : KvCodecParams) (entropy : bool) (sh : KvShape) : bytes :=
  kMagic ++ [byte_of kVersion; byte_of (bits p); byte_of (flags_of p entropy); byte_of 0] ++ put_le 4 (n_tokens sh) ++ put_le 4 (elems_per_token sh).

(** [None] for a null pointer; the array has at least the shape's elements. *)
Definition EncodeKvTensor (data : option (list float)) (sh : KvShape) (p : KvCodecParams) : option bytes :=
  if negb (bits p =? 8) && negb (bits p =? 4) then None
  else if (n_tokens sh =? 0) || (elems_per_token sh =? 0) then None
  else match data with
       | None => None
       | Some d =>
           let T := Z.to_nat (n_tokens sh) in
           let E := Z.to_nat (elems_per_token sh) in
           let '(scales, qss, _) := quantise_tensor p E (reshape T E d) in
           let packed := pack (bits p) (concat qss) in
           match zstd with
           | Some (compress, _) =>
               match compress packed with
               | None => None
               | Some payload => Some (header p true sh ++ put_floats scales ++ payload)
               end
           | None => Some (header p false sh ++ put_floats scales ++ packed)
           end
       end.

(** [Fault] is an access beyond the end of a buffer, [Throws] a buffer that could not be
    allocated. *)
Inductive decoded := Fault | Throws | Refused | Decoded (out : list float) (sh : KvShape).

(** [n] bytes at an offset of a buffer. *)
Definition read_at (off n : nat) (b : bytes) (k : bytes -> decoded) : decoded :=
  if (off + n <=? length b)%nat then k (take n (drop off b)) else Fault.

(** [DecodeKvTensor], with an allocator that grants some sizes. *)
Definition DecodeKvTensorIn (grant : Z -> bool) (b : bytes) : decoded :=
  let allocate n (k : decoded) := if grant n then k else Throws in
  if (length b <? kHeaderSize)%nat then Refused else
  read_at 0 4 b (fun magic =>
  if negb (bool_decide (magic = kMagic)) then Refused else
  read_at 4 1 b (fun version =>
  if negb (get_le version =? kVersion) then Refused else
  read_at 5 1 b (fun width =>
  let bts := get_le width in
  if negb (bts =? 8) && negb (bts =? 4) then Refused else
  read_at 6 1 b (fun flags =>
  let dlt := Z.testbit (get_le flags) 0 in
  let entropy := Z.testbit (get_le flags) 1 in
  let pc := Z.testbit (get_le flags) 2 in
  read_at 8 4 b (fun tokens => read_at 12 4 b (fun elems =>
  let Tz := get_le tokens in
  let Ez := get_le elems in
  if (Tz =? 0) || (Ez =? 0) then Refused else
  let T := Z.to_nat Tz in
  let E := Z.to_nat Ez in
  let n_scales := if pc then E else T in
  let scales_bytes := (n_scales * 4)%nat in
  if zlen b <? Z.of_nat kHeaderSize + (if pc then Ez else Tz) * 4 then Refused else
  allocate ((if pc then Ez else Tz) * 4) (
  read_at kHeaderSize scales_bytes b (fun scale_bytes =>
  let scales := get_floats n_scales scale_bytes in
  let payload := drop (kHeaderSize + scales_bytes) b in
  let packed_len := PackedLen (T * E) bts in
  let finish packed :=
    allocate (Tz * Ez) (
    match unpack bts (T * E) packed with
    | None => Fault
    | Some q =>
        allocate (4 * (Tz * Ez)) (allocate (4 * Ez) (
        Decoded (concat (decode_rows dlt pc E true scales (replicate E zero) (reshape T E q))) (mkShape Tz Ez)))
    end) in
  if entropy
  then match zstd with
       | None => Refused
       | Some (_, decompress) =>
           allocate (Z.of_nat packed_len) (
           match decompress packed_len payload with
           | None => Refused
           | Some packed => if (length packed =? packed_len)%nat then finish packed else Refused
           end)
       end
  else if (length payload <? packed_len)%nat then Refused
       else allocate (Z.of_nat packed_len) (read_at (kHeaderSize + scales_bytes) packed_len b finish))))))))).

(** While there is memory. *)
Definition DecodeKvTensor (b : bytes) : decoded := DecodeKvTensorIn (fun _ => true) b.

(** *** kv_abi.cpp *)

(** The code, the length reported, and what is copied to a buffer of the capacity. *)
Definition kv_kvtensor_encode (data : option (list float)) (T E b : Z) (dlt : bool) (out : option Z) :
    Node.code * option Z * option bytes :=
  if (negb (b =? 8) && negb (b =? 4)) || (T =? 0) || (E =? 0) || match data with None => true | _ => false end
  then (Node.KV_E_INVAL, None, None)
  else match EncodeKvTensor data (mkShape T E) (mkParams b dlt true) with
       | None => (Node.KV_E_INTERNAL, None, None)
       | Some blob =>
           match out with
           | None => (Node.KV_OK, Some (zlen blob), None)
           | Some cap => if cap <? zlen blob then (Node.KV_E_NOMEM, Some (zlen blob), None) else (Node.KV_OK, Some (zlen blob), Some blob)
           end
       end.

(** The code, the shape reported, and the floats copied to a buffer of [out] elements. *)
Definition kv_kvtensor_decode (blob : option bytes) (out : option Z) : Node.code * option KvShape * option (list float) :=
  match blob with
  | None => (Node.KV_E_INVAL, None, None)
  | Some b =>
      match out with
      | None =>
          if (length b <? 16)%nat || negb (bool_decide (take 4 b = kMagic)) then (Node.KV_E_INVAL, None, None)
          else (Node.KV_OK, Some (mkShape (get_le (take 4 (drop 8 b))) (get_le (take 4 (drop 12 b)))), None)
      | Some cap =>
          match DecodeKvTensor b with
          | Decoded dec sh => if cap <? zlen dec then (Node.KV_E_NOMEM, Some sh, None) else (Node.KV_OK, Some sh, Some dec)
          | _ => (Node.KV_E_INVAL, None, None)
          end
      end
  end.
End Codec.

(** ** Packing and unpacking *)

Definition fits (b q : Z) : Prop := - qmax_of b <= q <= qmax_of b.

Lemma clamp_fits b q : fits b (clamp (qmax_of b) q).
Proof.
  unfold fits, clamp. assert (0 < qmax_of b) by (unfold qmax_of; destruct (b =? 8); lia).
  destruct (Z.ltb_spec (qmax_of b) q); [lia|]. destruct (Z.ltb_spec q (- qmax_of b)); lia.
Qed.

Lemma q_byte_roundtrip q : -127 <= q <= 127 -> q_of_byte (byte_of_q q) = q.
Proof.
  intros H. unfold q_of_byte, byte_of_q. rewrite byte_val_of, Z.mod_mod by lia.
  destruct (Z.ltb_spec (q mod 256) 128); Z.div_mod_to_equations; lia.
Qed.

(** Every pair of nibbles, checked. *)
Lemma nibbles_roundtrip a b : -7 <= a <= 7 -> -7 <= b <= 7 ->
  let x := byte_val (byte_of (Z.lor (nibble a) (Z.shiftl (nibble b) 4))) in
  q_of_nibble (Z.land x 0x0F) = a /\ q_of_nibble (Z.shiftr x 4) = b.
Proof.
  intros Ha Hb. assert (forallb (fun a => forallb (fun b =>
    let x := byte_val (byte_of (Z.lor (nibble a) (Z.shiftl (nibble b) 4))) in
    (q_of_nibble (Z.land x 0x0F) =? a) && (q_of_nibble (Z.shiftr x 4) =? b)) (seqZ (-7) 15)) (seqZ (-7) 15) = true) as H by (vm_compute; reflexivity).
  rewrite forallb_forall in H. specialize (H a). rewrite forallb_forall in H.
  assert (forall z, -7 <= z <= 7 -> In z (seqZ (-7) 15)) as In by (intros z Hz; apply list_elem_of_In, elem_of_seqZ; lia).
  specialize (H (In a Ha) b (In b Hb)). cbv zeta in *. apply andb_true_iff in H as [H1 H2]. by apply Z.eqb_eq in H1, H2.
Qed.

Lemma last_nibble_roundtrip a : -7 <= a <= 7 -> q_of_nibble (Z.land (byte_val (byte_of (nibble a))) 0x0F) = a.
Proof.
  intros H. destruct (nibbles_roundtrip a 0 H ltac:(lia)) as [X _]. change (Z.shiftl (nibble 0) 4) with 0 in X. by rewrite Z.lor_0_r in X.
Qed.

Lemma unpack4_at n : forall qs i, (length qs <= n)%nat -> (i < length qs)%nat -> Forall (fits 4) qs -> unpack_at 4 (pack4 qs) i = qs !! i.
Proof.
  unfold unpack_at. change (4 =? 8) with false. cbv iota. induction n as [|n IH]; intros [|a [|b qs]] i L Hi F; cbn [pack4];
    try (simpl in *; lia).
  - apply Forall_cons in F as [Fa _]. destruct i; [cbn; by rewrite last_nibble_roundtrip|simpl in Hi; lia].
  - apply Forall_cons in F as [Fa F]. apply Forall_cons in F as [Fb F]. destruct (nibbles_roundtrip a b Fa Fb) as [Ea Eb].
    destruct i as [|[|i]].
    + cbn -[Z.land Z.shiftr Z.shiftl Z.lor nibble byte_of byte_val]. by rewrite Ea.
    + cbn -[Z.land Z.shiftr Z.shiftl Z.lor nibble byte_of byte_val]. by rewrite Eb.
    + change (Nat.even (S (S i))) with (Nat.even i). change (S (S i) / 2)%nat with ((1 * 2 + i) / 2)%nat. rewrite Nat.div_add_l by lia.
      change (1 + i / 2)%nat with (S (i / 2)). cbn [lookup list_lookup]. apply IH; [simpl in *; lia..|done].
Qed.

Lemma length_pack4 n : forall qs, (length qs <= n)%nat -> length (pack4 qs) = ((length qs + 1) / 2)%nat.
Proof.
  induction n as [|n IH]; intros [|a [|b qs]] L; try done; try (simpl in L; lia). simpl length. rewrite IH by (simpl in L; lia).
  change (S (S (length qs)) + 1)%nat with (1 * 2 + (length qs + 1))%nat. by rewrite Nat.div_add_l by lia.
Qed.

Lemma length_pack b qs : length (pack b qs) = PackedLen (length qs) b.
Proof. unfold pack, PackedLen. destruct (b =? 8); [apply length_fmap|by apply (length_pack4 (length qs))]. Qed.

Lemma unpack_pack b qs : b = 8 \/ b = 4 -> Forall (fits b) qs -> unpack b (length qs) (pack b qs) = Some qs.
Proof.
  intros Hb F. unfold unpack. apply mapM_Some. apply Forall2_same_length_lookup. split; [apply length_seq|].
  intros i j q Hj Hq. apply lookup_seq in Hj as [-> _]. simpl. rewrite <- Hq. destruct Hb as [-> | ->].
  - unfold unpack_at, pack. simpl. rewrite list_lookup_fmap, Hq. simpl. f_equal. apply q_byte_roundtrip.
    by apply (proj1 (Forall_lookup _ _) F i).
  - apply (unpack4_at (length qs)); [done|by eapply lookup_lt_Some|done].
Qed.

(** Unpacking a buffer of the packed length stays inside it. *)
Lemma unpack_total b n p : b = 8 \/ b = 4 -> length p = PackedLen n b -> exists q, unpack b n p = Some q /\ length q = n.
Proof.
  intros Hb L. assert (is_Some (unpack b n p)) as [q E].
  { unfold unpack. apply mapM_is_Some, Forall_forall. intros i [_ Hi]%elem_of_seq. simpl in Hi. unfold unpack_at, PackedLen in *.
    destruct Hb as [-> | ->]; cbn [Z.eqb Pos.eqb] in *; apply fmap_is_Some, lookup_lt_is_Some; rewrite L; [done|].
    apply Nat.div_lt_upper_bound; [lia|]. pose proof (Nat.div_mod_eq (n + 1) 2). pose proof (Nat.mod_upper_bound (n + 1) 2). lia. }
  exists q. split; [done|]. unfold unpack in E. apply length_mapM in E. by rewrite length_seq in E.
Qed.

(** ** The decoder follows the encoder *)

Section Loops.
Context {A : FloatArith}.

Lemma quantise_row_spec qmax ss ps row : reconstruct_row ss ps (quantise_row qmax ss ps row).1 = (quantise_row qmax ss ps row).2.
Proof.
  revert ps row. induction ss as [|s ss IH]; intros [|p ps] [|x row]; try done. simpl. specialize (IH ps row).
  destruct (quantise_row qmax ss ps row) as [qs rs]. simpl in *. by rewrite IH.
Qed.

Lemma quantise_row_length qmax E ss ps row : length ss = E -> length ps = E -> length row = E ->
  length (quantise_row qmax ss ps row).1 = E /\ length (quantise_row qmax ss ps row).2 = E.
Proof.
  revert E ps row. induction ss as [|s ss IH]; intros [|E] [|p ps] [|x row] Ls Lp Lr; try done. injection Ls as Ls. injection Lp as Lp. injection Lr as Lr.
  destruct (IH E ps row Ls Lp Lr) as [L1 L2]. simpl. destruct (quantise_row qmax ss ps row). simpl in *. by rewrite L1, L2.
Qed.

Lemma quantise_row_fits b ss ps row : Forall (fits b) (quantise_row (qmax_of b) ss ps row).1.
Proof.
  revert ps row. induction ss as [|s ss IH]; intros [|p ps] [|x row]; try apply Forall_nil_2. simpl. specialize (IH ps row).
  destruct (quantise_row (qmax_of b) ss ps row) as [qs rs]. simpl in *. constructor; [apply clamp_fits|done].
Qed.

Lemma predict_length c E prev : length prev = E -> length (predict c E prev) = E.
Proof. intros H. destruct c; [done|apply length_replicate]. Qed.

(** What both encoders promise of scales, integers and reconstruction. *)
Definition follows (b : Z) (dlt pc : bool) (E : nat) (first : bool) (prev : list float) (n : nat)
    (ss : list float) (qss : list (list Z)) (rss : list (list float)) : Prop :=
  decode_rows dlt pc E first ss prev qss = rss /\ length qss = n /\ Forall (fun qs => length qs = E) qss /\ Forall (Forall (fits b)) qss.

Lemma encode_tokens_spec b dlt E rows : Forall (fun r => length r = E) rows -> forall first prev ss qss rss, length prev = E ->
  encode_tokens (qmax_of b) dlt E first prev rows = (ss, qss, rss) ->
  length ss = length rows /\ follows b dlt false E first prev (length rows) ss qss rss.
Proof.
  unfold follows. induction 1 as [|row rows Lr _ IH]; intros first prev ss qss rss Lp H; simpl in H; [by simplify_eq|].
  set (preds := predict (dlt && negb first) E prev) in *. set (sc := scale_of (qmax_of b) (row_amax preds row)) in *.
  pose proof (quantise_row_spec (qmax_of b) (replicate E sc) preds row) as Rec.
  pose proof (quantise_row_fits b (replicate E sc) preds row) as Fit.
  destruct (quantise_row_length (qmax_of b) E (replicate E sc) preds row) as [L1 L2]; [apply length_replicate|by apply predict_length|done|].
  destruct (quantise_row _ _ preds row) as [qs rs]. simpl in *.
  destruct (encode_tokens _ dlt E false rs rows) as [[ss' qss'] rss'] eqn:He. simplify_eq.
  destruct (IH _ _ _ _ _ L2 He) as (L & D & Lq & Fl & Ff). simpl. fold preds. rewrite L, Lq, D. by repeat constructor.
Qed.

Lemma encode_channels_spec b dlt E ss rows : length ss = E -> Forall (fun r => length r = E) rows -> forall first prev qss rss, length prev = E ->
  encode_channels (qmax_of b) dlt E first ss prev rows = (qss, rss) -> follows b dlt true E first prev (length rows) ss qss rss.
Proof.
  unfold follows. intros Ls. induction 1 as [|row rows Lr _ IH]; intros first prev qss rss Lp H; simpl in H; [by simplify_eq|].
  set (preds := predict (dlt && negb first) E prev) in *.
  pose proof (quantise_row_spec (qmax_of b) ss preds row) as Rec. pose proof (quantise_row_fits b ss preds row) as Fit.
  destruct (quantise_row_length (qmax_of b) E ss preds row) as [L1 L2]; [done|by apply predict_length|done|].
  destruct (quantise_row _ _ preds row) as [qs rs]. simpl in *.
  destruct (encode_channels _ dlt E false ss rs rows) as [qss' rss'] eqn:He. simplify_eq.
  destruct (IH _ _ _ _ L2 He) as (D & Lq & Fl & Ff). simpl. fold preds. rewrite Lq, D. by repeat constructor.
Qed.

Lemma update_amax_length E : forall amax ps row, length amax = E -> length ps = E -> length row = E -> length (update_amax amax ps row) = E.
Proof. induction E; intros [|] [|] [|]; simpl; try done. intros. f_equal. apply IHE; lia. Qed.

Lemma channel_amax_length dlt E rows : Forall (fun r => length r = E) rows -> forall prev amax,
  (forall p, prev = Some p -> length p = E) -> length amax = E -> length (channel_amax dlt E prev amax rows) = E.
Proof.
  induction 1 as [|row rows Lr _ IH]; intros prev amax Lp La; simpl; [done|]. apply IH; [intros p [= <-]; done|].
  apply update_amax_length; try done. destruct prev as [p|]; [destruct dlt; [by apply Lp|]|]; apply length_replicate.
Qed.

Lemma quantise_tensor_spec p E rows ss qss rss : Forall (fun r => length r = E) rows -> quantise_tensor p E rows = (ss, qss, rss) ->
  length ss = (if per_channel p then E else length rows) /\
  follows (bits p) (delta p) (per_channel p) E true (replicate E zero) (length rows) ss qss rss.
Proof.
  intros F H. unfold quantise_tensor in H. destruct (per_channel p).
  - destruct (encode_channels _ _ _ _ _ _ _) as [qss' rss'] eqn:He. simplify_eq.
    assert (length (channel_scales (qmax_of (bits p)) (delta p) E rows) = E).
    { unfold channel_scales. rewrite length_fmap. by apply channel_amax_length; [|done|apply length_replicate]. }
    split; [done|]. eapply encode_channels_spec; try done. apply length_replicate.
  - eapply encode_tokens_spec; try done. apply length_replicate.
Qed.
End Loops.

Lemma reshape_rows {X} T E (l : list X) : (T * E <= length l)%nat -> Forall (fun r => length r = E) (reshape T E l).
Proof.
  revert l. induction T as [|T IH]; intros l H; constructor; [rewrite length_take; lia|]. apply IH. rewrite length_drop. lia.
Qed.

Lemma length_reshape {X} T E (l : list X) : length (reshape T E l) = T.
Proof. revert l. induction T; intros; simpl; auto. Qed.

Lemma reshape_concat {X} E (ls : list (list X)) rest : Forall (fun r => length r = E) ls -> reshape (length ls) E (concat ls ++ rest) = ls.
Proof.
  induction 1 as [|r ls L _ IH]; [done|]. simpl. rewrite <- app_assoc, take_app_length' by done. by rewrite drop_app_length', IH by done.
Qed.

Lemma concat_rows_length {X} E (ls : list (list X)) : Forall (fun r => length r = E) ls -> length (concat ls) = (length ls * E)%nat.
Proof. induction 1 as [|r ls L _ IH]; [done|]. simpl. rewrite length_app, IH, L. lia. Qed.

(** ** Round trip *)

Section RoundTrip.
Context {A : FloatArith} {B : FloatBits A} (L : FloatBitsLaws B).
Context (zstd : option ((bytes -> option bytes) * (nat -> bytes -> option bytes))).

Lemma floats_roundtrip l rest : get_floats (length l) (put_floats l ++ rest) = l.
Proof.
  unfold get_floats, put_floats. rewrite <- (length_fmap (put_le 4 ∘ to_bits) l). rewrite reshape_concat.
  - rewrite <- list_fmap_compose. rewrite <- (list_fmap_id l) at 2. apply list_fmap_ext. intros _ x _. unfold compose.
    rewrite get_put_le, Z.mod_small by apply bits_range. apply bits_inj.
  - apply Forall_fmap, Forall_true. intros x. apply length_put_le.
Qed.

Lemma length_put_floats l : length (put_floats l) = (length l * 4)%nat.
Proof.
  unfold put_floats. rewrite (concat_rows_length 4), length_fmap; [done|]. apply Forall_fmap, Forall_true. intros x. apply length_put_le.
Qed.

Lemma flags_roundtrip p e : let f := byte_val (byte_of (flags_of p e)) in
  Z.testbit f 0 = delta p /\ Z.testbit f 1 = e /\ Z.testbit f 2 = per_channel p.
Proof. unfold flags_of. by destruct (delta p), e, (per_channel p). Qed.

Definition ok_shape (sh : KvShape) : Prop := 0 < n_tokens sh < 2 ^ 32 /\ 0 < elems_per_token sh < 2 ^ 32.

Lemma put_le4 v : exists a b c d, put_le 4 v = [a; b; c; d].
Proof. by do 4 eexists. Qed.

Lemma read_at_inside off n b k : (off + n <= length b)%nat -> read_at off n b k = k (take n (drop off b)).
Proof. intros H. unfold read_at. by rewrite (proj2 (Nat.leb_le _ _) H). Qed.

Lemma header_fields p e sh rest : ok_shape sh -> bits p = 8 \/ bits p = 4 ->
  let b := header p e sh ++ rest in
  length b = (16 + length rest)%nat /\ take 4 (drop 0 b) = kMagic /\ get_le (take 1 (drop 4 b)) = kVersion /\ get_le (take 1 (drop 5 b)) = bits p /\
  get_le (take 1 (drop 6 b)) = byte_val (byte_of (flags_of p e)) /\
  get_le (take 4 (drop 8 b)) = n_tokens sh /\ get_le (take 4 (drop 12 b)) = elems_per_token sh /\ drop 16 b = rest.
Proof.
  intros [HT HE] Hb. pose proof (get_put_le 4 (n_tokens sh)) as GT. pose proof (get_put_le 4 (elems_per_token sh)) as GE.
  rewrite Z.mod_small in GT, GE by (change (256 ^ Z.of_nat 4) with (2 ^ 32); lia). unfold header. cbv zeta.
  destruct (put_le4 (n_tokens sh)) as (a & b & c & d & HT4). destruct (put_le4 (elems_per_token sh)) as (a' & b' & c' & d' & HE4).
  rewrite HT4, HE4 in *. assert (forall x, get_le [x] = byte_val x) as G1 by (intros x; rewrite get_le_cons; cbn [get_le]; lia).
  repeat split; try done; [|apply G1]. transitivity (byte_val (byte_of (bits p))); [apply G1|]. by destruct Hb as [-> | ->].
Qed.

(** The decoder on a well-formed blob. *)
Lemma decode_blob p (e : bool) sh ss payload packed : ok_shape sh -> bits p = 8 \/ bits p = 4 ->
  let T := Z.to_nat (n_tokens sh) in let E := Z.to_nat (elems_per_token sh) in
  length ss = (if per_channel p then E else T) -> length packed = PackedLen (T * E) (bits p) ->
  (if e then exists c d, zstd = Some (c, d) /\ d (length packed) payload = Some packed else payload = packed) ->
  DecodeKvTensor zstd (header p e sh ++ put_floats ss ++ payload) =
    match unpack (bits p) (T * E) packed with
    | None => Fault
    | Some q => Decoded (concat (decode_rows (delta p) (per_channel p) E true ss (replicate E zero) (reshape T E q))) sh
    end.
Proof.
  intros Hs Hb T E Ls Lp Hpay. unfold DecodeKvTensor, DecodeKvTensorIn. cbv zeta.
  destruct (header_fields p e sh (put_floats ss ++ payload) Hs Hb) as (Hlen & Em & Ev & Eb & Ef & Et & Ee & Hrest).
  set (b := header p e sh ++ put_floats ss ++ payload) in *. rewrite length_app, length_put_floats in Hlen.
  rewrite (proj2 (Nat.ltb_ge (length b) kHeaderSize)) by (unfold kHeaderSize; lia).
  rewrite !read_at_inside by lia. rewrite Em, Ev, Eb, Ef, Et, Ee. destruct (flags_roundtrip p e) as (-> & -> & ->).
  rewrite bool_decide_eq_true_2 by done. change (kVersion =? kVersion) with true. cbn [negb].
  destruct Hs as [HT HE]. replace (negb (bits p =? 8) && negb (bits p =? 4)) with false by (by destruct Hb as [-> | ->]).
  rewrite (proj2 (Z.eqb_neq (n_tokens sh) 0)), (proj2 (Z.eqb_neq (elems_per_token sh) 0)) by lia. cbn [orb]. fold T E.
  replace (if per_channel p then E else T) with (length ss). change kHeaderSize with 16%nat.
  rewrite (proj2 (Z.ltb_ge _ _)) by (rewrite Hlen, Ls; unfold T, E; destruct (per_channel p); lia).
  rewrite read_at_inside by lia. rewrite <- (drop_drop b (length ss * 4) 16), Hrest.
  rewrite take_app_length', drop_app_length' by (symmetry; apply length_put_floats).
  rewrite <- (app_nil_r (put_floats ss)), floats_roundtrip, <- Lp. destruct e.
  - destruct Hpay as (c & d & -> & ->). by rewrite Nat.eqb_refl; destruct sh.
  - subst payload. rewrite Nat.ltb_irrefl, read_at_inside by lia.
    rewrite <- (drop_drop b (length ss * 4) 16), Hrest, drop_app_length', take_ge by (done || symmetry; apply length_put_floats). by destruct sh.
Qed.

(** zstd gives back what it was given, and its bound on the output is enough. *)
Definition zstd_ok : Prop :=
  match zstd with Some (c, d) => forall x, exists y, c x = Some y /\ d (length x) y = Some x | None => True end.

(** The codec gives back what it predicted from. *)
Lemma encode_decode d sh p :
  let T := Z.to_nat (n_tokens sh) in let E := Z.to_nat (elems_per_token sh) in
  zstd_ok -> ok_shape sh -> bits p = 8 \/ bits p = 4 -> (T * E <= length d)%nat ->
  exists blob, EncodeKvTensor zstd (Some d) sh p = Some blob /\
    DecodeKvTensor zstd blob = Decoded (concat (quantise_tensor p E (reshape T E d)).2) sh.
Proof.
  intros T E Hz Hs Hb Hd. unfold EncodeKvTensor.
  replace (negb (bits p =? 8) && negb (bits p =? 4)) with false by (by destruct Hb as [-> | ->]).
  rewrite (proj2 (Z.eqb_neq (n_tokens sh) 0)), (proj2 (Z.eqb_neq (elems_per_token sh) 0)) by (destruct Hs; lia). simpl orb. cbv iota. fold T E.
  destruct (quantise_tensor p E (reshape T E d)) as [[ss qss] rss] eqn:Hq.
  apply quantise_tensor_spec in Hq as (Ls & D & Lq & Rows & Fit); [|by apply reshape_rows]. rewrite length_reshape in Ls, Lq.
  assert (length (concat qss) = (T * E)%nat) as Ln by (rewrite (concat_rows_length E), Lq by done; done).
  assert (unpack (bits p) (T * E) (pack (bits p) (concat qss)) = Some (concat qss)) as Un.
  { rewrite <- Ln. apply unpack_pack; [done|]. by apply Forall_concat. }
  assert (reshape T E (concat qss) = qss) as Re by (rewrite <- Lq, <- (app_nil_r (concat qss)); by apply reshape_concat).
  assert (length (pack (bits p) (concat qss)) = PackedLen (T * E) (bits p)) as Lp by (by rewrite length_pack, Ln).
  unfold zstd_ok in Hz. destruct zstd as [[c dz]|] eqn:Ez.
  - destruct (Hz (pack (bits p) (concat qss))) as (y & -> & Hy). eexists. split; [done|].
    rewrite <- Ez, (decode_blob p true sh ss y _ Hs Hb Ls Lp) by (exists c, dz; done). fold T E. by rewrite Un, Re, D.
  - eexists. split; [done|]. rewrite <- Ez, (decode_blob p false sh ss _ _ Hs Hb Ls Lp eq_refl). fold T E. by rewrite Un, Re, D.
Qed.

(** [C31] A tensor of any shape, at either width, with or without prediction, with scales
    per channel or per token, encodes; and the decoder returns, bit for bit, the
    reconstruction that the encoder predicted from, whatever the arithmetic of floats
    computes: the two loops never drift apart. *)
Theorem tensor_roundtrip d sh p :
  let T := Z.to_nat (n_tokens sh) in let E := Z.to_nat (elems_per_token sh) in
  zstd_ok -> ok_shape sh -> bits p = 8 \/ bits p = 4 -> (T * E <= length d)%nat ->
  exists blob, EncodeKvTensor zstd (Some d) sh p = Some blob /\
    DecodeKvTensor zstd blob = Decoded (concat (quantise_tensor p E (reshape T E d)).2) sh.
Proof. apply encode_decode. Qed.

Lemma reconstruct_row_length E ss ps qs : length ss = E -> length ps = E -> length qs = E -> length (reconstruct_row ss ps qs) = E.
Proof. revert ss ps qs. induction E; intros [|] [|] [|]; simpl; try done. intros. f_equal. apply IHE; lia. Qed.

Lemma decode_rows_length dlt (pc : bool) E qss : Forall (fun q => length q = E) qss -> forall first ss prev, length prev = E ->
  length ss = (if pc then E else length qss) -> length (concat (decode_rows dlt pc E first ss prev qss)) = (length qss * E)%nat.
Proof.
  induction 1 as [|qs qss Lq _ IH]; intros first ss prev Lp Ls; [done|]. simpl.
  assert (length (reconstruct_row (if pc then ss else match ss with [] => [] | s :: _ => replicate E s end)
    (predict (dlt && negb first) E prev) qs) = E) as Lr.
  { apply reconstruct_row_length; [|by apply predict_length|done]. destruct pc; [done|]. destruct ss; [done|apply length_replicate]. }
  rewrite length_app, Lr, IH; [done|done|]. destruct pc; [done|]. destruct ss; simpl in *; lia.
Qed.

Lemma u32_field i b : 0 <= get_le (take 4 (drop i b)) < 2 ^ 32.
Proof.
  pose proof (get_le_bound (take 4 (drop i b))) as X. rewrite length_take in X. change (2 ^ 32) with (256 ^ 4).
  enough (256 ^ Z.of_nat (4 `min` length (drop i b)) <= 256 ^ 4) by lia. apply Z.pow_le_mono_r; lia.
Qed.

(** What the decoder may answer: it stays inside its buffers, throws only what the
    allocator made it, and gives as many floats as the shape says. *)
Definition decoded_ok (grant : Z -> bool) (r : decoded) : Prop :=
  match r with
  | Fault => False
  | Throws => exists n, grant n = false
  | Refused => True
  | Decoded out sh => ok_shape sh /\ zlen out = n_tokens sh * elems_per_token sh
  end.

Lemma read_ok grant off n b k : (off + n <= length b)%nat ->
  (length (take n (drop off b)) = n -> decoded_ok grant (k (take n (drop off b)))) -> decoded_ok grant (read_at off n b k).
Proof. intros H K. rewrite read_at_inside by done. apply K. rewrite length_take, length_drop. lia. Qed.

Lemma allocate_ok (grant : Z -> bool) n (k : decoded) : decoded_ok grant k -> decoded_ok grant (if grant n then k else Throws).
Proof. intros H. destruct (grant n) eqn:G; [done|by exists n]. Qed.

(** The decoder on any bytes. *)
Lemma decode_sized grant b : decoded_ok grant (DecodeKvTensorIn zstd grant b).
Proof.
  unfold DecodeKvTensorIn. cbv zeta. destruct (Nat.ltb_spec (length b) kHeaderSize) as [|H16]; [done|]. unfold kHeaderSize in H16.
  apply read_ok; [lia|intros _]. destruct (negb _); [done|]. apply read_ok; [lia|intros _]. destruct (negb _); [done|].
  apply read_ok; [lia|intros _]. set (bts := get_le (take 1 (drop 5 b))). destruct (_ && _) eqn:Hb; [done|]. assert (bts = 8 \/ bts = 4) as Bits by lia.
  apply read_ok; [lia|intros _]. set (flags := get_le _). do 2 (apply read_ok; [lia|intros _]).
  pose proof (u32_field 8 b) as HT. pose proof (u32_field 12 b) as HE. set (Tz := get_le (take 4 (drop 8 b))) in *. set (Ez := get_le (take 4 (drop 12 b))) in *.
  destruct (_ || (_ =? 0)) eqn:Hs; [done|]. destruct (Z.ltb_spec (zlen b) (Z.of_nat kHeaderSize + (if Z.testbit flags 2 then Ez else Tz) * 4)) as [|Hn]; [done|].
  set (T := Z.to_nat Tz). set (E := Z.to_nat Ez). set (ns := if Z.testbit flags 2 then E else T).
  assert (16 + ns * 4 <= length b)%nat as Hscales by (unfold ns, T, E, kHeaderSize in *; destruct (Z.testbit flags 2); lia).
  apply allocate_ok, read_ok; [done|intros Lsc]. set (scales := get_floats ns _).
  set (finish := fun packed => if grant (Tz * Ez) then _ else Throws). set (plen := PackedLen (T * E) bts).
  assert (forall packed, length packed = plen -> decoded_ok grant (finish packed)) as Fin.
  { intros packed Lp. apply allocate_ok. destruct (unpack_total bts (T * E) packed Bits Lp) as (q & -> & Lq).
    do 2 apply allocate_ok. split; [split; cbn; lia|]. cbn. rewrite decode_rows_length, length_reshape; [lia|apply reshape_rows; lia|apply length_replicate|].
    unfold scales, get_floats. by rewrite length_fmap, !length_reshape. }
  destruct (Z.testbit flags 1).
  - destruct zstd as [[c d]|]; [|done]. apply allocate_ok. destruct (d plen _) as [x|]; [|done]. destruct (Nat.eqb_spec (length x) plen); [by apply Fin|done].
  - destruct (Nat.ltb_spec (length (drop (kHeaderSize + ns * 4) b)) plen) as [|Hp]; [done|]. rewrite length_drop in Hp.
    apply allocate_ok, read_ok; [unfold kHeaderSize in *; lia|]. apply Fin.
Qed.

(** [C33] Decoding never reads beyond a buffer, whatever the bytes of the blob are and
    whichever allocations fail: the header, the scales, the payload and the packed integers
    are read inside their buffers; a blob is refused, or gives as many floats as the shape
    it announces says, or an allocation that was not granted throws. *)
Theorem decode_in_bounds grant b :
  match DecodeKvTensorIn zstd grant b with
  | Fault => False
  | Throws => exists n, grant n = false
  | Refused => True
  | Decoded out sh => ok_shape sh /\ zlen out = n_tokens sh * elems_per_token sh
  end.
Proof. apply decode_sized. Qed.
End RoundTrip.

(** ** binary32 *)

Module Binary32.
(** The four bytes of a [float]. *)
Definition word : Type := byte * byte * byte * byte.
Definition bits_of (w : word) : Z := let '(a, b, c, d) := w in get_le [a; b; c; d].
Definition of_word (z : Z) : word :=
  match put_le 4 z with [a; b; c; d] => (a, b, c, d) | _ => (byte_of 0, byte_of 0, byte_of 0, byte_of 0) end.

Definition decode (w : word) : spec_float :=
  let z := bits_of w in
  let s := Z.testbit z 31 in
  let e := Z.land (Z.shiftr z 23) 255 in
  let m := Z.land z (2 ^ 23 - 1) in
  if e =? 255 then if m =? 0 then S754_infinity s else S754_nan
  else if e =? 0 then match m with Zpos p => S754_finite s p (-149) | _ => S754_zero s end
  else S754_finite s (Z.to_pos (2 ^ 23 + m)) (e - 150).

Definition encode (x : spec_float) : word :=
  let sign (s : bool) := if s then 2 ^ 31 else 0 in
  of_word match x with
          | S754_zero s => sign s
          | S754_infinity s => sign s + Z.shiftl 255 23
          | S754_nan => Z.shiftl 255 23 + 2 ^ 22
          | S754_finite s m e => sign s + if Zpos m <? 2 ^ 23 then Zpos m else Z.shiftl (e + 150) 23 + (Zpos m - 2 ^ 23)
          end.

(** To the nearest, halves away from zero; zero stands for the values beyond [long]. *)
Definition nearest (x : spec_float) : Z :=
  match x with
  | S754_finite s m e =>
      let v := if 0 <=? e then Z.shiftl (Zpos m) e else (Z.shiftr (Zpos m) (- e - 1) + 1) / 2 in
      let v := if v <? 2 ^ 63 then v else 0 in if s then - v else v
  | _ => 0
  end.

Definition op (f : spec_float -> spec_float -> spec_float) (x y : word) : word := encode (f (decode x) (decode y)).
End Binary32.

#[export] Instance float32 : FloatArith := {|
  float := Binary32.word;
  fadd := Binary32.op (SFadd 24 128); fsub := Binary32.op (SFsub 24 128);
  fmul := Binary32.op (SFmul 24 128); fdiv := Binary32.op (SFdiv 24 128);
  fabs x := Binary32.encode (SFabs (Binary32.decode x)); fgt x y := SFltb (Binary32.decode y) (Binary32.decode x);
  float_of z := Binary32.encode (binary_normalize 24 128 z 0 false); lround x := Binary32.nearest (Binary32.decode x) |}.

#[export] Instance float32_bits : FloatBits float32 := {| to_bits := Binary32.bits_of; of_bits := Binary32.of_word |}.

#[export] Instance float32_laws : FloatBitsLaws float32_bits.
Proof.
  split; intros [[[a b] c] d].
  - exact (get_le_bound [a; b; c; d]).
  - change (Binary32.of_word (get_le [a; b; c; d]) = (a, b, c, d)). unfold Binary32.of_word.
    by rewrite (put_get_le [a; b; c; d] : put_le 4 _ = _).
Qed.

(** Tensors of small integers and quarters, as floats. *)
Definition quarters (l : list Z) : list (float (FloatArith := float32)) :=
  (fun z => fdiv (float_of z) (float_of 4)) <$> l.

(** Three tokens of two channels, a stored block instead of zstd's. *)
Definition stored : option ((bytes -> option bytes) * (nat -> bytes -> option bytes)) :=
  Some (fun x => Some (byte_of 0 :: x), fun n y => match y with _ :: x => if (length x =? n)%nat then Some x else None | [] => None end).

Lemma stored_ok : zstd_ok stored.
Proof. intros x. exists (byte_of 0 :: x). by rewrite Nat.eqb_refl. Qed.

Lemma tensor_roundtrip_witness :
  exists blob, EncodeKvTensor stored (Some (quarters [4; -400; 6; -380; 7; -390])) (mkShape 3 2) (mkParams 4 true true) = Some blob /\
    DecodeKvTensor stored blob =
      Decoded (concat (quantise_tensor (mkParams 4 true true) 2 (reshape 3 2 (quarters [4; -400; 6; -380; 7; -390]))).2) (mkShape 3 2).
Proof.
  apply (tensor_roundtrip float32_laws stored (quarters [4; -400; 6; -380; 7; -390]) (mkShape 3 2) (mkParams 4 true true)).
  - apply stored_ok.
  - done.
  - by right.
  - done.
Defined.

(** A header of 16 bytes, two scales and four integers. *)
Example encode_small :
  option_map length (EncodeKvTensor None (Some (quarters [508; 0; 4; 127])) (mkShape 2 2) (mkParams 8 false false)) = Some 28%nat /\
  (quantise_tensor (A := float32) (mkParams 8 false false) 2 (reshape 2 2 (quarters [508; 0; 4; 127]))).1.2 = [[127; 0]; [4; 127]].
Proof. by vm_compute. Qed.

(** ** The error of quantisation, in exact arithmetic *)

#[local] Open Scope Q_scope.

Definition Qnearest (x : Q) : Z := if Qle_bool 0 x then Qfloor (x + (1 # 2)) else (- Qfloor (- x + (1 # 2)))%Z.

Definition rational : FloatArith := {|
  float := Q; fadd := Qplus; fsub := Qminus; fmul := Qmult; fdiv := Qdiv; fabs := Qabs; fgt a b := negb (Qle_bool a b);
  float_of := inject_Z; lround := Qnearest |}.

Lemma Qnearest_near (x : Q) : Qabs (inject_Z (Qnearest x) - x) <= 1 # 2.
Proof.
  apply Qabs_Qle_condition. unfold Qnearest. destruct (Qle_bool 0 x).
  - pose proof (Qfloor_le (x + (1 # 2))). pose proof (Qlt_floor (x + (1 # 2))) as H'. rewrite inject_Z_plus in H'. change (inject_Z 1) with 1 in H'. lra.
  - rewrite inject_Z_opp. pose proof (Qfloor_le (- x + (1 # 2))). pose proof (Qlt_floor (- x + (1 # 2))) as H'. rewrite inject_Z_plus in H'. change (inject_Z 1) with 1 in H'. lra.
Qed.

(** Clamping costs nothing within half a step of the range. *)
Lemma clamp_near (m : Z) (y : Q) : Qabs y <= inject_Z m + (1 # 2) -> (0 <= m)%Z -> Qabs (inject_Z (clamp m (Qnearest y)) - y) <= 1 # 2.
Proof.
  intros H%Qabs_Qle_condition Hm. pose proof (Qnearest_near y) as N. apply Qabs_Qle_condition in N. apply Qabs_Qle_condition.
  unfold clamp. destruct (Z.ltb_spec m (Qnearest y)) as [C|C].
  - assert (inject_Z (m + 1) <= inject_Z (Qnearest y)) as C' by (rewrite <- Zle_Qle; lia). rewrite inject_Z_plus in C'. change (inject_Z 1) with 1 in C'. lra.
  - destruct (Z.ltb_spec (Qnearest y) (- m)) as [D|D]; [|lra].
    assert (inject_Z (Qnearest y) <= inject_Z (- m + -1)) as D' by (rewrite <- Zle_Qle; lia). rewrite inject_Z_plus, inject_Z_opp in D'. change (inject_Z (-1)) with (-(1)) in D'.
    rewrite inject_Z_opp. lra.
Qed.

Definition near (s x r : Q) : Prop := 2 * Qabs (r - x) <= s.
Definition within (m : Z) (s p x : Q) : Prop := 0 < s /\ Qabs (x - p) <= (inject_Z m + (1 # 2)) * s.

Lemma element_near m s p x : (0 <= m)%Z -> within m s p x -> near s x (reconstruct (A := rational) s p (quantise (A := rational) m s p x)).
Proof.
  intros Hm [Hs H]. unfold near, quantise, reconstruct. cbn [fadd fsub fmul fdiv float_of lround rational].
  assert (x - p == (x - p) / s * s) as Y by (field; lra). set (y := (x - p) / s) in *.
  assert (Qabs y <= inject_Z m + (1 # 2)) as Hy.
  { rewrite Y, Qabs_Qmult, (Qabs_pos s) in H by lra. by apply Qmult_lt_0_le_reg_r in H. }
  pose proof (clamp_near m y Hy Hm) as C. set (q := inject_Z (clamp m (Qnearest y))) in *.
  assert (p + q * s - x == (q - y) * s) as E by (rewrite <- (Qplus_inj_r _ _ (x - p)); rewrite Y at 2; ring).
  rewrite E, Qabs_Qmult, (Qabs_pos s) by lra. assert (Qabs (q - y) * s <= (1 # 2) * s) by (apply Qmult_le_compat_r; lra). lra.
Qed.

Lemma row_near m (ss ps row : list Q) : (0 <= m)%Z -> Forall3 (within m) ss ps row ->
  Forall3 near ss row (quantise_row (A := rational) m ss ps row).2.
Proof.
  intros Hm. induction 1 as [|s p x ss ps row H _ IH]; [constructor|]. simpl.
  destruct (quantise_row (A := rational) m ss ps row) as [qs rs]. simpl in *. constructor; [by apply element_near|done].
Qed.

Lemma greatest_le (a b : Q) : a <= greatest (A := rational) a b /\ b <= greatest (A := rational) a b.
Proof.
  unfold greatest. cbn. destruct (Qle_bool b a) eqn:E; simpl; [apply Qle_bool_iff in E; split; lra|].
  assert (~ b <= a) by (rewrite <- Qle_bool_iff, E; done). split; lra.
Qed.

Lemma scale_covers m (a : Q) : (0 < m)%Z -> 0 < scale_of (A := rational) m a /\ a <= inject_Z m * scale_of (A := rational) m a.
Proof.
  intros Hm. assert (0 < inject_Z m) by (change 0 with (inject_Z 0); by rewrite <- Zlt_Qlt).
  unfold scale_of. cbn. destruct (Qle_bool a (inject_Z 0)) eqn:E; simpl.
  - apply Qle_bool_iff in E. change (inject_Z 0) with 0 in E. unfold one. cbn. change (inject_Z 1) with 1. split; lra.
  - assert (~ a <= 0) by (change 0 with (inject_Z 0); rewrite <- Qle_bool_iff, E; done). split.
    + apply Qlt_shift_div_l; lra.
    + assert (inject_Z m * (a / inject_Z m) == a) as -> by (field; lra). lra.
Qed.

Lemma within_of m (a s x p : Q) : 0 < s -> a <= inject_Z m * s -> Qabs (x - p) <= a + (1 # 2) * s -> within m s p x.
Proof. intros. split; [done|]. lra. Qed.

Lemma within_exact m (a s x p : Q) : 0 < s -> a <= inject_Z m * s -> Qabs (x - p) <= a -> within m s p x.
Proof. intros. apply (within_of m a); lra. Qed.

(** *** One scale a token *)

Lemma fold_amax (l : list (Q * Q)) (a : Q) :
  let r := fold_left (fun a xp => greatest (A := rational) a (Qabs (xp.1 - xp.2))) l a in
  a <= r /\ Forall (fun xp => Qabs (xp.1 - xp.2) <= r) l.
Proof.
  revert a. induction l as [|[x p] l IH]; intros a; simpl; [split; [lra|constructor]|].
  destruct (greatest_le a (Qabs (x - p))). destruct (IH (greatest (A := rational) a (Qabs (x - p)))) as [Ha F].
  split; [by eapply Qle_trans|]. constructor; [by eapply Qle_trans|done].
Qed.

Lemma token_within m (ps row : list Q) E : (0 < m)%Z -> length ps = E -> length row = E ->
  Forall3 (within m) (replicate E (scale_of (A := rational) m (row_amax (A := rational) ps row))) ps row.
Proof.
  intros Hm Lp Lr. destruct (fold_amax (zip row ps) (inject_Z 0)) as [_ F].
  change (fold_left _ _ _) with (row_amax (A := rational) ps row) in F.
  set (a := row_amax (A := rational) ps row) in *. destruct (scale_covers m a Hm) as [Hs Ha]. set (s := scale_of (A := rational) m a) in *.
  clearbody a s. revert ps row Lp Lr F. induction E as [|E IH]; intros [|p ps] [|x row] Lp Lr F; try done; [constructor|].
  simpl in F. apply Forall_cons in F as [Fx F]. constructor; [by apply (within_exact m a)|by apply IH; [injection Lp|injection Lr|]].
Qed.

Lemma zeros_length E : length (replicate E (zero (A := rational))) = E.
Proof. apply length_replicate. Qed.

Lemma tokens_near b dlt E (rows : list (list Q)) : Forall (fun r => length r = E) rows -> forall first (prev : list Q) ss qss rss, length prev = E ->
  encode_tokens (A := rational) (qmax_of b) dlt E first prev rows = (ss, qss, rss) ->
  Forall3 (fun s row rs => Forall2 (near s) row rs) ss rows rss.
Proof.
  assert (0 < qmax_of b)%Z as Hq by (unfold qmax_of; destruct (b =? 8)%Z; lia).
  induction 1 as [|row rows Lr _ IH]; intros first prev ss qss rss Lp H; simpl in H; [simplify_eq; constructor|].
  set (preds := predict (A := rational) (dlt && negb first) E prev) in *.
  assert (length preds = E) as Lpr by (by apply predict_length).
  pose proof (token_within (qmax_of b) preds row E Hq Lpr Lr) as W. set (sc := scale_of (A := rational) _ _) in *.
  destruct (quantise_row_length (A := rational) (qmax_of b) E (replicate E sc) preds row) as [_ L2]; [apply length_replicate|done|done|].
  apply row_near in W; [|lia].
  destruct (quantise_row (A := rational) _ _ preds row) as [qs rs]. simpl in *.
  destruct (encode_tokens (A := rational) _ dlt E false rs rows) as [[ss' qss'] rss'] eqn:He. simplify_eq.
  constructor; [|eapply IH; [|done]; done]. apply Forall2_same_length_lookup. split; [by rewrite L2|]. intros i x r Hx Hr.
  eapply (Forall3_lookup_lmr _ _ _ _ i sc x r W); try done. apply lookup_replicate. split; [done|]. by eapply lookup_lt_Some.
Qed.

(** *** One scale a channel *)

Lemma update_amax_le E (a ps row bound : list Q) : length a = E -> length ps = E -> length row = E ->
  Forall2 Qle (update_amax (A := rational) a ps row) bound ->
  Forall2 Qle a bound /\ Forall3 (fun b p x => Qabs (x - p) <= b) bound ps row.
Proof.
  revert a ps row bound. induction E as [|E IH]; intros [|a0 a] [|p ps] [|x row] bound La Lp Lr H; try done; simpl in H.
  - inversion H. split; constructor.
  - inversion H as [|? b ? bound' Hb H']; subst. injection La as La. injection Lp as Lp. injection Lr as Lr.
    destruct (IH a ps row bound' La Lp Lr H') as [H1 H2]. destruct (greatest_le a0 (Qabs (x - p))).
    split; constructor; try done; by eapply Qle_trans.
Qed.

(** What a token is predicted from, among the data themselves. *)
Definition open_loop (dlt : bool) (E : nat) (prev : option (list Q)) : list Q :=
  match prev with Some p => if dlt then p else replicate E (inject_Z 0) | None => replicate E (inject_Z 0) end.

Fixpoint diffs_le (dlt : bool) (E : nat) (prev : option (list Q)) (bound : list Q) (rows : list (list Q)) : Prop :=
  match rows with
  | [] => True
  | row :: rows => Forall3 (fun b p x => Qabs (x - p) <= b) bound (open_loop dlt E prev) row /\ diffs_le dlt E (Some row) bound rows
  end.

Lemma channel_amax_le dlt E (rows : list (list Q)) : Forall (fun r => length r = E) rows -> forall prev (amax : list Q),
  length amax = E -> (forall p, prev = Some p -> length p = E) -> forall bound,
  Forall2 Qle (channel_amax (A := rational) dlt E prev amax rows) bound -> Forall2 Qle amax bound /\ diffs_le dlt E prev bound rows.
Proof.
  induction 1 as [|row rows Lr _ IH]; intros prev amax La Lp bound H; simpl in *; [done|].
  change (match prev with Some p => _ | None => _ end) with (open_loop dlt E prev) in H.
  assert (length (open_loop dlt E prev) = E) as Lo.
  { unfold open_loop. destruct prev as [p|]; [destruct dlt; [by apply Lp|]|]; apply length_replicate. }
  apply IH in H as [H D]; [|by apply (update_amax_length (A := rational))|by intros p [= <-]].
  apply (update_amax_le E) in H as [H1 H2]; done.
Qed.

(** The prediction is within half a scale of what the open loop predicts. *)
Lemma predict_within m (ss bound ps ps' row : list Q) :
  Forall2 (fun b s => 0 < s /\ b <= inject_Z m * s) bound ss -> Forall3 near ss ps ps' ->
  Forall3 (fun b p x => Qabs (x - p) <= b) bound ps row -> Forall3 (within m) ss ps' row.
Proof.
  intros C. revert ps ps' row. induction C as [|b s bound ss [Hs Hb] _ IH]; intros ps ps' row N D;
    inversion N as [|? p p' ? ps0 ps0' Np N']; subst; inversion D as [|? ? x ? ? row' Dx D']; subst; constructor; [|by apply (IH ps0)].
  apply (within_of m b); [done|done|]. unfold near in Np.
  assert (x - p' == (x - p) + (p - p')) as -> by ring. eapply Qle_trans; [apply Qabs_triangle|].
  rewrite (Qabs_Qminus p p'). lra.
Qed.

Lemma near_refl E (ss : list Q) (ps : list Q) : length ss = E -> length ps = E -> Forall (fun s => 0 < s) ss -> Forall3 near ss ps ps.
Proof.
  revert ss ps. induction E as [|E IH]; intros [|s ss] [|p ps] Ls Lp F; try done; constructor.
  - apply Forall_cons in F as [Hs _]. unfold near. assert (p - p == 0) as -> by ring. change (Qabs 0) with 0. lra.
  - apply Forall_cons in F as [_ F]. apply IH; [by injection Ls|by injection Lp|done].
Qed.

(** The closed loop: the prediction is near what the open loop predicts. *)
Lemma predict_near dlt E first (ss prev : list Q) (dprev : option (list Q)) : length ss = E -> Forall (fun s => 0 < s) ss ->
  (if (first : bool) then dprev = None else exists d, dprev = Some d /\ Forall3 near ss d prev) ->
  Forall3 near ss (open_loop dlt E dprev) (predict (A := rational) (dlt && negb first) E prev).
Proof.
  intros Ls Pos H. destruct first.
  - subst dprev. rewrite andb_false_r. apply (near_refl E); try done. apply length_replicate.
  - destruct H as (d & -> & N). destruct dlt; [done|]. apply (near_refl E); try done. apply length_replicate.
Qed.

Lemma channels_near b dlt E (ss bound : list Q) (rows : list (list Q)) : length ss = E ->
  Forall2 (fun b' s => 0 < s /\ b' <= inject_Z (qmax_of b) * s) bound ss -> Forall (fun s => 0 < s) ss ->
  Forall (fun r => length r = E) rows -> forall first prev dprev qss rss,
  (if (first : bool) then dprev = None else exists d, dprev = Some d /\ Forall3 near ss d prev) ->
  diffs_le dlt E dprev bound rows -> encode_channels (A := rational) (qmax_of b) dlt E first ss prev rows = (qss, rss) ->
  Forall2 (Forall3 near ss) rows rss.
Proof.
  intros Ls C Pos. induction 1 as [|row rows Lr _ IH]; intros first prev dprev qss rss Hp D H; simpl in H; [simplify_eq; constructor|].
  destruct D as [D Ds].
  pose proof (predict_near dlt E first ss prev dprev Ls Pos Hp) as N. apply (predict_within _ _ _ _ _ _ C N) in D.
  apply row_near in D; [|unfold qmax_of; destruct (b =? 8)%Z; lia].
  destruct (quantise_row (A := rational) _ _ _ row) as [qs rs]. simpl in D.
  destruct (encode_channels (A := rational) _ dlt E false ss rs rows) as [qss' rss'] eqn:He. simplify_eq.
  constructor; [done|]. eapply (IH false rs (Some row)); try done. by exists row.
Qed.

(** [C32] Quantisation loses at most half a step: in exact arithmetic every element of the
    reconstruction is within half of its scale of the data, in both layouts of the scales,
    with and without prediction, however many tokens have gone by. Clamping never costs
    more, although the scale of a channel is fixed from the differences of the data and
    the differences that are quantised are those from the reconstruction. *)
Theorem quantisation_error p E (rows : list (list Q)) ss qss rss t e row x rs r s :
  Forall (fun row => length row = E) rows -> quantise_tensor (A := rational) p E rows = (ss, qss, rss) ->
  rows !! t = Some row -> row !! e = Some x -> rss !! t = Some rs -> rs !! e = Some r -> ss !! (if per_channel p then e else t) = Some s ->
  2 * Qabs (r - x) <= s.
Proof.
  intros Rows H Hrow Hx Hrs Hr Hs. unfold quantise_tensor in H. destruct (per_channel p).
  - destruct (encode_channels (A := rational) _ _ _ _ _ _ _) as [qss' rss'] eqn:He. simplify_eq.
    set (am := channel_amax (A := rational) (delta p) E None (replicate E (inject_Z 0)) rows).
    assert (length am = E) as La by (apply (channel_amax_length (A := rational)); [done|done|apply length_replicate]).
    destruct (channel_amax_le (delta p) E rows Rows None (replicate E (inject_Z 0)) (length_replicate _ _) ltac:(done) am) as [_ D].
    { apply Forall2_same_length_lookup_2; [done|]. intros i a b Ha Hb. fold am in Ha. simplify_eq. apply Qle_refl. }
    assert (0 < qmax_of (bits p))%Z as Hq by (unfold qmax_of; destruct (bits p =? 8)%Z; lia).
    eapply (channels_near (bits p) (delta p) E) in He; [| | | |done|done|exact D]; try done.
    + eapply Forall2_lookup_lr in He; [|done|done]. by eapply (Forall3_lookup_lmr _ _ _ _ e s x r He).
    + unfold channel_scales. rewrite length_fmap. done.
    + unfold channel_scales. apply Forall2_fmap_r, Forall_Forall2_diag, Forall_true. intros a. by apply scale_covers.
    + unfold channel_scales. apply Forall_fmap, Forall_true. intros a. by apply (scale_covers _ a Hq).
  - eapply (tokens_near (bits p)) in H; [|done|apply length_replicate].
    eapply Forall3_lookup_lmr in H; try done. by eapply Forall2_lookup_lr in H.
Qed.

Lemma quantisation_error_witness : 2 * Qabs ((-13230 # 343) - (-40 # 1)) <= 30 # 7.
Proof.
  apply (quantisation_error (mkParams 4 true true) 2 [[1 # 1; -30 # 1]; [3 # 1; -27 # 1]; [2 # 1; -40 # 1]]
    [2 # 7; 30 # 7] [[4; -7]; [7; 1]; [-4; -3]]%Z [[8 # 7; -210 # 7]; [154 # 49; -1260 # 49]; [686 # 343; -13230 # 343]]
    2 1 [2 # 1; -40 # 1] (-40 # 1) [686 # 343; -13230 # 343] (-13230 # 343) (30 # 7)).
  - by repeat constructor.
  - by vm_compute.
  - done.
  - done.
  - done.
  - done.
  - done.
Defined.

#[local] Close Scope Q_scope.

(** ** The calls in two passes *)

(** A caller asks for the length first, with no buffer, and calls again with one of that
    length; a buffer that is too short is refused with the length it needs. *)
Lemma kvtensor_encode_sized {A : FloatArith} {B : FloatBits A} zstd data T E b dlt len :
  kv_kvtensor_encode zstd data T E b dlt None = (Node.KV_OK, Some len, None) ->
  exists blob, len = zlen blob /\
    forall cap, kv_kvtensor_encode zstd data T E b dlt (Some cap) =
      if cap <? len then (Node.KV_E_NOMEM, Some len, None) else (Node.KV_OK, Some len, Some blob).
Proof.
  unfold kv_kvtensor_encode. destruct (_ || _); [done|]. destruct (EncodeKvTensor _ _ _ _) as [blob|]; [|done].
  intros [= <-]. exists blob. split; [done|]. intros cap. by destruct (cap <? zlen blob).
Qed.

(** The shape announced without decoding is the shape decoded. *)
Lemma kvtensor_decode_sized {A : FloatArith} {B : FloatBits A} zstd b cap sh out :
  kv_kvtensor_decode zstd (Some b) (Some cap) = (Node.KV_OK, Some sh, Some out) ->
  kv_kvtensor_decode zstd (Some b) None = (Node.KV_OK, Some sh, None) /\ zlen out <= cap.
Proof.
  unfold kv_kvtensor_decode. destruct (DecodeKvTensor zstd b) as [| | |dec sh'] eqn:H; [done..|].
  destruct (Z.ltb_spec cap (zlen dec)); [done|]. intros [= <- <-]. split; [|done].
  unfold DecodeKvTensor, DecodeKvTensorIn, read_at in H. cbv zeta in H. change kHeaderSize with 16%nat in H. rewrite drop_0 in H.
  destruct (length b <? 16)%nat; [done|]. destruct (_ <=? _)%nat in H; [|done]. destruct (bool_decide (take 4 b = kMagic)); [|done]. cbn [negb orb] in *.
  repeat case_match; simplify_eq; done.
Qed.
End TensorCodec.
