(* ===== verification/Transport.v ===== *)
(** * Data-plane transports

    transport/nixl_wrapper.cpp (the loopback backend) and transport/tcp_backend.cpp: tables
    of memory regions, their descriptors, and transfers between regions, within a process
    or over a connection to the listener of a peer.

    Memory is a partial map from addresses to bytes; an access to an address that is not
    mapped is a [Fault]. A socket is the sequence of results of [recv] or [send] on it, so
    that ReadAll and WriteAll are the loops of the code over short counts, interruptions
    and errors. Connecting, and which process listens at an endpoint, are given by the
    context. Messages of errors are left out, and host byte order is little-endian. *)

From S2P Require Import Prelude.
From Stdlib Require Import ZArith Lia.

Open Scope Z_scope.

Module Transport.

(** ** Memory *)

Notation memory := (gmap Z byte).

Fixpoint load (a : Z) (n : nat) (m : memory) : option bytes :=
  match n with
  | O => Some []
  | S n => match m !! a, load (a + 1) n m with Some b, Some bs => Some (b :: bs) | _, _ => None end
  end.

Fixpoint store (a : Z) (bs : bytes) (m : memory) : option memory :=
  match bs with
  | [] => Some m
  | b :: bs => match m !! a with Some _ => store (a + 1) bs (<[a := b]> m) | None => None end
  end.

(** [None] is a fault. *)
Definition memcpy (dst src : Z) (n : nat) (m : memory) : option memory :=
  match load src n m with Some bs => store dst bs m | None => None end.

(** ** The interface *)

Definition kInvalidMrKey : Z := 0.
Definition kInvalidCompletionId : Z := 0.

Record PullRequest := mkPull { dst_mr : Z; dst_off : Z; src_mr : Z; src_off : Z; pbytes : Z }.

Inductive outcome (A : Type) := Fault | Done (a : A).
Arguments Fault {A}.
Arguments Done {A} a.

(** A region of this process. *)
Record LocalMr := mkLocal { addr : Z; lbytes : Z }.

(** [unordered_map::emplace] keeps the entry that is there. *)
Definition emplace {V} (k : Z) (v : V) (m : gmap Z V) : gmap Z V := match m !! k with Some _ => m | None => <[k := v]> m end.

(** ** Loopback *)

Record Loopback := mkLoopback { regions_ : gmap Z LocalMr; lb_next_key_ : Z; lb_next_completion_ : Z }.

Definition new_loopback : Loopback := mkLoopback ∅ 1 1.

Definition LbRegisterRegion (a n : Z) (b : Loopback) : Z * Loopback :=
  if (a =? 0) || (n =? 0) then (kInvalidMrKey, b)
  else (lb_next_key_ b, mkLoopback (emplace (lb_next_key_ b) (mkLocal a n) (regions_ b)) (u32 (lb_next_key_ b + 1)) (lb_next_completion_ b)).

Definition LbUnregisterRegion (k : Z) (b : Loopback) : Loopback :=
  mkLoopback (delete k (regions_ b)) (lb_next_key_ b) (lb_next_completion_ b).

Definition LbResolveRegion (k : Z) (b : Loopback) : option LocalMr := regions_ b !! k.

Definition LbExportMr (k : Z) (b : Loopback) : option bytes :=
  match regions_ b !! k with
  | None => None
  | Some r => Some (put_le 4 k ++ put_le 8 (lbytes r))
  end.

Definition LbImportRemoteMr (d : bytes) (b : Loopback) : Z :=
  if negb (length d =? 12)%nat then kInvalidMrKey
  else match regions_ b !! get_le (take 4 d) with Some _ => get_le (take 4 d) | None => kInvalidMrKey end.

(** The completion and what becomes of the memory. *)
Definition LbPull (q : PullRequest) (b : Loopback) (m : memory) : outcome (Z * Loopback * memory) :=
  match regions_ b !! src_mr q, regions_ b !! dst_mr q with
  | Some s, Some d =>
      if (lbytes s <? u64 (src_off q + pbytes q)) || (lbytes d <? u64 (dst_off q + pbytes q)) then Done (kInvalidCompletionId, b, m)
      else match memcpy (u64 (addr d + dst_off q)) (u64 (addr s + src_off q)) (Z.to_nat (pbytes q)) m with
           | None => Fault
           | Some m' => Done (lb_next_completion_ b, mkLoopback (regions_ b) (lb_next_key_ b) (u64 (lb_next_completion_ b + 1)), m')
           end
  | _, _ => Done (kInvalidCompletionId, b, m)
  end.

(** The Push of the interface: the pull with the same regions. *)
Definition LbPush := LbPull.
Definition LbIsRemote (_ : Z) : bool := false.
Definition LbWait (cid : Z) : bool := negb (cid =? kInvalidCompletionId).

(** ** Sockets *)

(** [recv]: some bytes, an interruption, or the end of the connection. *)
Inductive recv_result := Data (b : bytes) | REintr | Closed.
Inductive send_result := Sent (n : nat) | SEintr | SError.

(** What was read, whether it is all that was asked for, and what is left. *)
Fixpoint ReadAll (n : nat) (s : list recv_result) : bytes * bool * list recv_result :=
  match n with
  | O => ([], true, s)
  | S _ =>
      match s with
      | [] | Closed :: _ | Data [] :: _ => ([], false, [])
      | REintr :: s => ReadAll n s
      | Data b :: s =>
          if (length b <=? n)%nat
          then let '(r, ok, s') := ReadAll (n - length b) s in (b ++ r, ok, s')
          else (take n b, true, Data (drop n b) :: s)
      end
  end.

(** What was sent, whether it is all, and the results of the calls to come. *)
Fixpoint WriteAll (buf : bytes) (s : list send_result) : bytes * bool * list send_result :=
  match buf with
  | [] => ([], true, s)
  | _ =>
      match s with
      | [] | SError :: _ | Sent O :: _ => ([], false, [])
      | SEintr :: s => WriteAll buf s
      | Sent k :: s => let '(w, ok, s') := WriteAll (drop k buf) s in (take k buf ++ w, ok, s')
      end
  end.

(** ** TCP *)

Definition kOpGet : Z := 1.
Definition kOpPut : Z := 2.
Definition kRequestSize : nat := 21.

(** A region of a peer. *)
Record RemoteMr := mkRemote { host : bytes; port : Z; peer_mr_id : Z; rbytes : Z }.

Record TcpBackend := mkTcp {
  bind_host_ : bytes; port_ : Z; local_mrs_ : gmap Z LocalMr; remote_mrs_ : gmap Z RemoteMr; next_key_ : Z; next_completion_ : Z }.

(** The constructor, when socket, bind, getsockname and listen succeed and give the port. *)
Definition new_tcp (bind_host : bytes) (p : Z) : TcpBackend := mkTcp bind_host p ∅ ∅ 1 1.

Definition set_mrs (l : gmap Z LocalMr) (r : gmap Z RemoteMr) (k : Z) (b : TcpBackend) : TcpBackend :=
  mkTcp (bind_host_ b) (port_ b) l r k (next_completion_ b).

Definition RegisterRegion (a n : Z) (b : TcpBackend) : Z * TcpBackend :=
  if (a =? 0) || (n =? 0) then (kInvalidMrKey, b)
  else (next_key_ b, set_mrs (emplace (next_key_ b) (mkLocal a n) (local_mrs_ b)) (remote_mrs_ b) (u32 (next_key_ b + 1)) b).

Definition UnregisterRegion (k : Z) (b : TcpBackend) : TcpBackend :=
  set_mrs (delete k (local_mrs_ b)) (delete k (remote_mrs_ b)) (next_key_ b) b.

(** The address, zero for a region of a peer, and the size. *)
Definition ResolveRegion (k : Z) (b : TcpBackend) : option LocalMr :=
  match local_mrs_ b !! k with
  | Some l => Some l
  | None => match remote_mrs_ b !! k with Some r => Some (mkLocal 0 (rbytes r)) | None => None end
  end.

Definition ExportMr (k : Z) (b : TcpBackend) : option bytes :=
  match local_mrs_ b !! k with
  | None => None
  | Some l =>
      let host_len := zlen (bind_host_ b) mod 2 ^ 16 in
      Some (put_le 2 host_len ++ take (Z.to_nat host_len) (bind_host_ b) ++ put_le 2 (port_ b) ++ put_le 4 k ++ put_le 8 (lbytes l))
  end.

Definition parse_descriptor (d : bytes) : option RemoteMr :=
  if (length d <? 2)%nat then None
  else
    let host_len := Z.to_nat (get_le (take 2 d)) in
    if (length d <? 2 + host_len + 2 + 4 + 8)%nat then None
    else
      let d1 := drop 2 d in
      let d2 := drop host_len d1 in
      Some (mkRemote (take host_len d1) (get_le (take 2 d2)) (get_le (take 4 (drop 2 d2))) (get_le (take 8 (drop 6 d2)))).

Definition ImportRemoteMr (d : bytes) (b : TcpBackend) : Z * TcpBackend :=
  match parse_descriptor d with
  | None => (kInvalidMrKey, b)
  | Some r => (next_key_ b, set_mrs (local_mrs_ b) (emplace (next_key_ b) r (remote_mrs_ b)) (u32 (next_key_ b + 1)) b)
  end.

Definition IsRemote (k : Z) (b : TcpBackend) : bool := match remote_mrs_ b !! k with Some _ => true | None => false end.
Definition Wait (cid : Z) : bool := negb (cid =? kInvalidCompletionId).

(** *** Serving a connection *)

Definition status_byte (z : Z) : bytes := [byte_of z].

(** The refusals: a status, and for anything but a PUT a length of zero. *)
Definition refuse (put : bool) (status : Z) (tx : list send_result) : bytes :=
  let '(w1, _, tx) := WriteAll (status_byte status) tx in
  if put then w1 else let '(w2, _, _) := WriteAll (put_le 8 0) tx in w1 ++ w2.

(** What the server sends, and the memory after it. *)
Definition HandleConnection (rx : list recv_result) (tx : list send_result) (b : TcpBackend) (m : memory) : outcome (bytes * memory) :=
  let '(req, ok, rx) := ReadAll kRequestSize rx in
  if negb ok then Done ([], m)
  else
    let op := match req with o :: _ => byte_val o | [] => 0 end in
    if negb (op =? kOpGet) && negb (op =? kOpPut) then Done (refuse false 1 tx, m)
    else
      let put := op =? kOpPut in
      let offset := get_le (take 8 (drop 5 req)) in
      let length_ := get_le (take 8 (drop 13 req)) in
      match local_mrs_ b !! get_le (take 4 (drop 1 req)) with
      | None => Done (refuse put 2 tx, m)
      | Some mr =>
          if lbytes mr <? u64 (offset + length_) then Done (refuse put 3 tx, m)
          else if put then
            let '(payload, ok, _) := ReadAll (Z.to_nat length_) rx in
            match store (u64 (addr mr + offset)) payload m with
            | None => Fault
            | Some m' => let '(w, _, _) := WriteAll (status_byte (if (ok : bool) then 0 else 4)) tx in Done (w, m')
            end
          else
            let '(w1, ok1, tx) := WriteAll (status_byte 0) tx in
            if negb ok1 then Done (w1, m)
            else
              let '(w2, ok2, tx) := WriteAll (put_le 8 length_) tx in
              if negb ok2 then Done (w1 ++ w2, m)
              else match load (u64 (addr mr + offset)) (Z.to_nat length_) m with
                   | None => Fault
                   | Some payload => let '(w3, _, _) := WriteAll payload tx in Done (w1 ++ w2 ++ w3, m)
                   end
      end.

(** *** Transfers *)

Definition request (op id off n : Z) : bytes := byte_of op :: put_le 4 id ++ put_le 8 off ++ put_le 8 n.

(** What the network does for one transfer: whether the peer can be reached, and the
    results of the calls on the socket. *)
Record net := mkNet { connects : bool; sends : list send_result; recvs : list recv_result }.

Definition completed (b : TcpBackend) (m : memory) : outcome (Z * TcpBackend * memory) :=
  Done (next_completion_ b, mkTcp (bind_host_ b) (port_ b) (local_mrs_ b) (remote_mrs_ b) (next_key_ b) (u64 (next_completion_ b + 1)), m).
Definition failed (b : TcpBackend) (m : memory) : outcome (Z * TcpBackend * memory) := Done (kInvalidCompletionId, b, m).

Definition copy_local (d s : LocalMr) (doff soff n : Z) (b : TcpBackend) (m : memory) : outcome (Z * TcpBackend * memory) :=
  match memcpy (u64 (addr d + doff)) (u64 (addr s + soff)) (Z.to_nat n) m with None => Fault | Some m' => completed b m' end.

Definition Pull (e : net) (q : PullRequest) (b : TcpBackend) (m : memory) : outcome (Z * TcpBackend * memory) :=
  match local_mrs_ b !! dst_mr q with
  | None => failed b m
  | Some d =>
      if lbytes d <? u64 (dst_off q + pbytes q) then failed b m
      else match local_mrs_ b !! src_mr q with
           | Some s => if lbytes s <? u64 (src_off q + pbytes q) then failed b m else copy_local d s (dst_off q) (src_off q) (pbytes q) b m
           | None =>
               match remote_mrs_ b !! src_mr q with
               | None => failed b m
               | Some r =>
                   if rbytes r <? u64 (src_off q + pbytes q) then failed b m
                   else if negb (connects e) then failed b m
                   else
                     let '(_, ok, _) := WriteAll (request kOpGet (peer_mr_id r) (src_off q) (pbytes q)) (sends e) in
                     if negb ok then failed b m
                     else
                       let '(status, ok1, rx) := ReadAll 1 (recvs e) in
                       let '(resp_len, ok2, rx) := ReadAll 8 rx in
                       if negb ok1 || negb ok2 || negb (get_le status =? 0) || negb (get_le resp_len =? pbytes q) then failed b m
                       else
                         let '(payload, ok, _) := ReadAll (Z.to_nat (pbytes q)) rx in
                         match store (u64 (addr d + dst_off q)) payload m with
                         | None => Fault
                         | Some m' => if (ok : bool) then completed b m' else failed b m'
                         end
               end
           end
  end.

(** The fields of the request are those of a pull; the source is here. *)
Definition Push (e : net) (q : PullRequest) (b : TcpBackend) (m : memory) : outcome (Z * TcpBackend * memory) :=
  match local_mrs_ b !! src_mr q with
  | None => failed b m
  | Some s =>
      if lbytes s <? u64 (src_off q + pbytes q) then failed b m
      else match local_mrs_ b !! dst_mr q with
           | Some d => if lbytes d <? u64 (dst_off q + pbytes q) then failed b m else copy_local d s (dst_off q) (src_off q) (pbytes q) b m
           | None =>
               match remote_mrs_ b !! dst_mr q with
               | None => failed b m
               | Some r =>
                   if rbytes r <? u64 (dst_off q + pbytes q) then failed b m
                   else if negb (connects e) then failed b m
                   else
                     let '(_, ok, tx) := WriteAll (request kOpPut (peer_mr_id r) (dst_off q) (pbytes q)) (sends e) in
                     if negb ok then failed b m
                     else match load (u64 (addr s + src_off q)) (Z.to_nat (pbytes q)) m with
                          | None => Fault
                          | Some payload =>
                              let '(_, ok, _) := WriteAll payload tx in
                              if negb ok then failed b m
                              else
                                let '(status, ok, _) := ReadAll 1 (recvs e) in
                                if negb ok || negb (get_le status =? 0) then failed b m else completed b m
                          end
               end
           end
  end.

(** What a socket still delivers. *)
Fixpoint delivers (s : list recv_result) : bytes :=
  match s with
  | [] | Closed :: _ | Data [] :: _ => []
  | REintr :: s => delivers s
  | Data b :: s => b ++ delivers s
  end.

(** However the bytes arrive, ReadAll gets the next [n] of them, or all that come. *)
Lemma ReadAll_spec s : forall n,
  let '(r, ok, s') := ReadAll n s in
  r = take n (delivers s) /\ ok = (n <=? length (delivers s))%nat /\ (ok = true -> delivers s' = drop n (delivers s)).
Proof.
  induction s as [|x s IH]; intros [|n]; try done.
  destruct x as [[|c b]| |]; try done.
  - change (delivers (Data (c :: b) :: s)) with ((c :: b) ++ delivers s). unfold ReadAll. fold ReadAll.
    set (l := c :: b). destruct (Nat.leb_spec (length l) (S n)) as [H|H].
    + specialize (IH (S n - length l)%nat). destruct (ReadAll (S n - length l) s) as [[r ok] s']. destruct IH as (-> & -> & D).
      rewrite take_app, (take_ge l) by lia. split; [done|]. rewrite length_app. split.
      { apply eq_true_iff_eq. rewrite !Nat.leb_le. lia. }
      intros K. rewrite D by done. by rewrite drop_app, (drop_ge l) by lia.
    + rewrite take_app_le by lia. split; [done|]. rewrite length_app. split; [symmetry; apply Nat.leb_le; lia|].
      intros _. rewrite drop_app_le by lia. destruct (drop (S n) l) eqn:E; [|done].
      apply (f_equal length) in E. rewrite length_drop in E. change (length []) with 0%nat in E. lia.
  - specialize (IH (S n)). exact IH.
Qed.

Lemma WriteAll_spec s : forall buf, let '(w, ok, s') := WriteAll buf s in w `prefix_of` buf /\ (ok = true <-> w = buf) /\ (ok = false -> s' = []).
Proof.
  induction s as [|x s IH]; intros [|c buf]; try (split; [apply prefix_nil|done]).
  destruct x as [[|k]| |]; try (split; [apply prefix_nil|done]).
  - unfold WriteAll. fold WriteAll. specialize (IH (drop (S k) (c :: buf))). destruct (WriteAll (drop (S k) (c :: buf)) s) as [[w ok] s'].
    destruct IH as (P & E & F). set (l := c :: buf) in *. split; [|split; [|done]].
    + rewrite <- (take_drop (S k) l) at 2. by apply prefix_app.
    + rewrite E. split; [intros ->; apply take_drop|]. intros H. rewrite <- (take_drop (S k) l) in H at 2. by apply app_inv_head in H.
  - apply IH.
Qed.

(** ** Memory lemmas *)

Definition mapped (a n : Z) (m : memory) : Prop := forall x, a <= x < a + n -> is_Some (m !! x).

Lemma load_Some a n m bs :
  load a n m = Some bs <-> length bs = n /\ forall i, (i < n)%nat -> m !! (a + Z.of_nat i) = bs !! i.
Proof.
  revert a bs. induction n as [|n IH]; intros a bs; simpl.
  - split; [intros [= <-]; split; [done|lia]|]. intros [H _]. by destruct bs.
  - split.
    + destruct (m !! a) as [b|] eqn:Ea; [|done]. destruct (load (a + 1) n m) as [r|] eqn:Er; [|done]. intros [= <-].
      apply IH in Er as [L H]. split; [simpl; lia|]. intros [|i] Hi; [by rewrite Z.add_0_r|].
      replace (a + Z.of_nat (S i)) with (a + 1 + Z.of_nat i) by lia. rewrite H by lia. done.
    + intros [L H]. destruct bs as [|b bs]; [done|]. pose proof (H 0%nat ltac:(lia)) as H0. rewrite Z.add_0_r in H0. rewrite H0. simpl.
      rewrite (proj2 (IH (a + 1) bs)); [done|]. split; [simpl in L; lia|]. intros i Hi.
      replace (a + 1 + Z.of_nat i) with (a + Z.of_nat (S i)) by lia. rewrite H by lia. done.
Qed.

Lemma load_mapped a n m : mapped a (Z.of_nat n) m -> is_Some (load a n m).
Proof.
  revert a. induction n as [|n IH]; intros a M; simpl; [done|]. destruct (M a ltac:(lia)) as [b ->].
  destruct (IH (a + 1)) as [r ->]; [intros x Hx; apply M; lia|done].
Qed.

Lemma load_ext a n m m' : (forall x, a <= x < a + Z.of_nat n -> m !! x = m' !! x) -> load a n m = load a n m'.
Proof.
  revert a. induction n as [|n IH]; intros a H; simpl; [done|]. rewrite (H a) by lia. rewrite (IH (a + 1)); [done|]. intros x Hx. apply H. lia.
Qed.

Lemma store_Some a bs m m' : store a bs m = Some m' ->
  (forall i, (i < length bs)%nat -> m' !! (a + Z.of_nat i) = bs !! i) /\ (forall x, ~ a <= x < a + zlen bs -> m' !! x = m !! x).
Proof.
  revert a m. induction bs as [|b bs IH]; intros a m H; simpl in H; [injection H as <-; split; [simpl; lia|done]|].
  destruct (m !! a); [|done]. apply IH in H as [H1 H2]. split.
  - intros [|i] Hi.
    + replace (a + Z.of_nat 0) with a by lia. rewrite H2 by lia. by rewrite lookup_insert_eq.
    + replace (a + Z.of_nat (S i)) with (a + 1 + Z.of_nat i) by lia. apply H1. simpl in Hi. lia.
  - intros x Hx. simpl in Hx. rewrite H2 by lia. apply lookup_insert_ne. lia.
Qed.

Lemma store_mapped a bs m : mapped a (zlen bs) m -> is_Some (store a bs m).
Proof.
  revert a m. induction bs as [|b bs IH]; intros a m M; simpl; [done|]. destruct (M a ltac:(simpl; lia)) as [c ->].
  apply IH. intros x Hx. rewrite lookup_insert_ne by lia. apply M. simpl. lia.
Qed.

Lemma store_load a bs m m' : store a bs m = Some m' -> load a (length bs) m' = Some bs.
Proof. intros [H _]%store_Some. by apply load_Some. Qed.

Lemma store_mapped_iff a bs m m' x : store a bs m = Some m' -> is_Some (m' !! x) <-> is_Some (m !! x).
Proof.
  revert a m. induction bs as [|b bs IH]; intros a m H; simpl in H; [by injection H as <-|].
  destruct (m !! a) eqn:E; [|done]. rewrite (IH _ _ H). destruct (decide (a = x)) as [->|N]; [|by rewrite lookup_insert_ne].
  rewrite lookup_insert_eq, E. done.
Qed.

(** ** Regions *)

(** The regions registered are memory of the process. *)
Definition regions_mapped (l : gmap Z LocalMr) (m : memory) : Prop :=
  forall k r, l !! k = Some r -> 0 < addr r /\ 0 <= lbytes r /\ addr r + lbytes r <= 2 ^ 64 /\ mapped (addr r) (lbytes r) m.

Definition in_regions (l : gmap Z LocalMr) (x : Z) : Prop :=
  exists k r, l !! k = Some r /\ addr r <= x < addr r + lbytes r.

(** A range that passes the check of the code without wrapping around is in the region. *)
Lemma slice_in_region l m k r off n x :
  regions_mapped l m -> l !! k = Some r -> 0 <= off -> 0 <= n -> off + n < 2 ^ 64 -> u64 (off + n) <= lbytes r ->
  u64 (addr r + off) <= x < u64 (addr r + off) + n -> addr r + off <= x < addr r + off + n /\ addr r + off + n <= addr r + lbytes r.
Proof.
  intros R L Ho Hn W C Hx. destruct (R k r L) as (? & ? & ? & _). rewrite u64_small in C by lia.
  rewrite (u64_small (addr r + off)) in Hx by lia. lia.
Qed.

Lemma slice_mapped l m k r off n :
  regions_mapped l m -> l !! k = Some r -> 0 <= off -> 0 <= n -> off + n < 2 ^ 64 -> u64 (off + n) <= lbytes r ->
  mapped (u64 (addr r + off)) n m /\ forall x, u64 (addr r + off) <= x < u64 (addr r + off) + n -> in_regions l x.
Proof.
  intros R L Ho Hn W C. split; intros x Hx; pose proof (slice_in_region l m k r off n x R L Ho Hn W C Hx).
  - destruct (R k r L) as (_ & _ & _ & M). apply M. lia.
  - exists k, r. split; [done|]. lia.
Qed.

(** Offset and length of the request a connection delivers. *)
Definition asked_off (rx : list recv_result) : Z := get_le (take 8 (drop 5 (take 21 (delivers rx)))).
Definition asked_len (rx : list recv_result) : Z := get_le (take 8 (drop 13 (take 21 (delivers rx)))).

Lemma get_le_nonneg l : 0 <= get_le l.
Proof. apply (get_le_bound l). Qed.

(** A case in which nothing is touched. *)
Local Ltac refused := eexists _, _; split; [reflexivity|]; split; [by intros|]; by eauto.

(** What a server does for whoever connects to it stays in the regions it registered,
    as long as offset and length do not wrap around: it never faults, whatever bytes
    arrive, in whatever pieces, and however the connection ends; it changes no other
    memory, and what it sends does not depend on any. *)
Theorem served_in_bounds rx tx b m :
  regions_mapped (local_mrs_ b) m -> asked_off rx + asked_len rx < 2 ^ 64 ->
  exists out m', HandleConnection rx tx b m = Done (out, m') /\ (forall x, m' !! x <> m !! x -> in_regions (local_mrs_ b) x) /\
    forall m2, (forall x, in_regions (local_mrs_ b) x -> m2 !! x = m !! x) -> exists m2', HandleConnection rx tx b m2 = Done (out, m2').
Proof.
  intros R W. unfold HandleConnection, asked_off, asked_len in *. pose proof (ReadAll_spec rx kRequestSize) as S.
  destruct (ReadAll kRequestSize rx) as [[req ok] rx']. destruct S as (-> & _ & _). change kRequestSize with 21%nat in *.
  set (req := take 21 (delivers rx)) in *. set (off := get_le (take 8 (drop 5 req))) in *. set (len := get_le (take 8 (drop 13 req))) in *.
  assert (0 <= off /\ 0 <= len) as [Ho Hl] by (split; apply get_le_nonneg).
  destruct (negb ok); [refused|]. cbv zeta. destruct (_ && _); [refused|].
  destruct (local_mrs_ b !! _) as [mr|] eqn:L; [|refused]. destruct (Z.ltb_spec (lbytes mr) (u64 (off + len))) as [C|C]; [refused|].
  destruct (slice_mapped _ _ _ _ _ _ R L Ho Hl W C) as [M In]. clearbody req off len. destruct (_ =? kOpPut).
  - pose proof (ReadAll_spec rx' (Z.to_nat len)) as S. destruct (ReadAll (Z.to_nat len) rx') as [[p okp] rx2]. destruct S as (Hp & _ & _).
    assert (zlen p <= len) as Lp by (subst p; rewrite length_take; lia). destruct (WriteAll _ tx) as [[w x1] x2].
    destruct (store_mapped (u64 (addr mr + off)) p m) as [m' St]; [intros x Hx; apply M; lia|]. rewrite St. exists w, m'. split; [done|]. split.
    + intros x Hx. apply In. destruct (decide (u64 (addr mr + off) <= x < u64 (addr mr + off) + zlen p)); [lia|].
      destruct Hx. by apply (proj2 (store_Some _ _ _ _ St)).
    + intros m2 A. destruct (store_mapped (u64 (addr mr + off)) p m2) as [m2' ->]; [|by eauto].
      intros x Hx. rewrite A by (apply In; lia). apply M. lia.
  - destruct (WriteAll _ tx) as [[w1 ok1] tx1]. destruct (negb ok1); [refused|]. destruct (WriteAll _ tx1) as [[w2 ok2] tx2].
    destruct (negb ok2); [refused|]. destruct (load_mapped (u64 (addr mr + off)) (Z.to_nat len) m) as [p Lo].
    { intros x Hx. apply M. lia. }
    rewrite Lo. destruct (WriteAll p tx2) as [[w3 x3] x4] eqn:Hw. eexists _, m. split; [done|]. split; [done|].
    intros m2 A. rewrite (load_ext _ _ m2 m) by (intros x Hx; apply A, In; lia). rewrite Lo, Hw. by eauto.
Qed.

(** ** A transfer between two processes *)

Lemma put_le_length_req op id off n : length (request op id off n) = 21%nat.
Proof. unfold request. by rewrite length_cons, !length_app, !length_put_le. Qed.

Definition u64_ok (z : Z) : Prop := 0 <= z < 2 ^ 64.

Lemma request_fields op id off n rest : 0 <= op < 256 -> 0 <= id < 2 ^ 32 -> u64_ok off -> u64_ok n ->
  let r := take 21 (request op id off n ++ rest) in
  r = request op id off n /\ get_le (take 4 (drop 1 r)) = id /\ get_le (take 8 (drop 5 r)) = off /\ get_le (take 8 (drop 13 r)) = n.
Proof.
  intros Ho Hi Hf Hn. cbv zeta. rewrite take_app_length' by (by rewrite put_le_length_req). split; [done|].
  unfold request. rewrite !skipn_cons. change (drop 0 ?l) with l. set (A := put_le 4 id). set (B := put_le 8 off). set (C := put_le 8 n).
  assert (length A = 4%nat /\ length B = 8%nat /\ length C = 8%nat) as (LA & LB & LC) by (unfold A, B, C; rewrite !length_put_le; done).
  rewrite (take_app_length' A), (drop_app_length' A), (take_app_length' B), (app_assoc A B), (drop_app_length' (A ++ B)), take_ge
    by (rewrite ?length_app; lia).
  unfold A, B, C, u64_ok in *. rewrite !get_put_le. repeat split; apply Z.mod_small; done.
Qed.

(** A prefix of the request that is long enough to be read is the request. *)
Lemma prefix_request rx op id off n rest : delivers rx `prefix_of` request op id off n ++ rest -> (21 <=? length (delivers rx))%nat = true ->
  exists l, delivers rx = request op id off n ++ l /\ l `prefix_of` rest.
Proof.
  intros P L%Nat.leb_le. pose proof (put_le_length_req op id off n) as R. destruct P as [q E].
  exists (drop 21 (delivers rx)). assert (take 21 (delivers rx) = request op id off n) as T.
  { apply (f_equal (take 21)) in E. rewrite take_app_length', take_app_le in E by lia. done. }
  split; [by rewrite <- T, take_drop|]. apply (f_equal (drop 21)) in E. rewrite drop_app_length', drop_app_le in E by lia.
  by exists q.
Qed.

Lemma WriteAll_byte x tx w ok tx' : WriteAll [x] tx = (w, ok, tx') -> w = [x] /\ ok = true \/ w = [] /\ ok = false /\ tx' = [].
Proof.
  intros H. pose proof (WriteAll_spec tx [x]) as S. rewrite H in S. destruct S as (P & E & F).
  destruct ok; [left; split; [by apply E|done]|right]. split; [|by auto]. destruct w as [|y w]; [done|]. exfalso.
  destruct (prefix_cons_inv_1 _ _ _ _ P), (prefix_nil_inv _ (prefix_cons_inv_2 _ _ _ _ P)). by destruct E as [_ E]; specialize (E eq_refl).
Qed.

Lemma refuse_head put st tx y l : y :: l `prefix_of` refuse put st tx -> y = byte_of st.
Proof.
  unfold refuse. destruct (WriteAll (status_byte st) tx) as [[w1 ok] tx1] eqn:E. apply WriteAll_byte in E as [[-> _]|(-> & _ & ->)].
  - destruct put; [by intros ?%prefix_cons_inv_1|]. destruct (WriteAll _ tx1) as [[w2 ?] ?]. by intros ?%prefix_cons_inv_1.
  - destruct put; [by intros ?%prefix_nil_inv|]. simpl. by intros ?%prefix_nil_inv.
Qed.

(** The reply to a GET. *)
Definition get_reply (p : bytes) (n : Z) : bytes := byte_of 0 :: put_le 8 n ++ p.

Lemma served_get rx tx s m k r off n out m' :
  0 <= k < 2 ^ 32 -> u64_ok off -> u64_ok n -> delivers rx `prefix_of` request kOpGet k off n ->
  HandleConnection rx tx s m = Done (out, m') -> m' = m /\
  forall p, length p = Z.to_nat n -> get_reply p n `prefix_of` out -> local_mrs_ s !! k = Some r -> load (u64 (addr r + off)) (Z.to_nat n) m = Some p.
Proof.
  intros Hk Ho Hn P. unfold HandleConnection. change kRequestSize with 21%nat. pose proof (ReadAll_spec rx 21) as S.
  destruct (ReadAll 21 rx) as [[req ok] rx']. destruct S as (-> & Hok & _). destruct ok; simpl negb; cbv iota.
  2: { intros [= <- <-]. split; [done|]. intros p _ X. by apply prefix_nil_inv in X. }
  destruct (prefix_request rx kOpGet k off n []) as (l & -> & Hl); [by rewrite app_nil_r|done|].
  destruct (request_fields kOpGet k off n l) as (E & F1 & F2 & F3); try done.
  rewrite F1, F2, F3, E. change (byte_val (byte_of kOpGet)) with kOpGet. cbv zeta. simpl (_ && _). cbv iota. change (kOpGet =? kOpPut) with false. cbv iota.
  destruct (local_mrs_ s !! k) as [mr|].
  2: { intros [= <- <-]. split; [done|]. intros p _ X. by apply refuse_head in X. }
  destruct (lbytes mr <? _).
  { intros [= <- <-]. split; [done|]. intros p _ X. by apply refuse_head in X. }
  destruct (WriteAll (status_byte 0) tx) as [[w1 ok1] tx1] eqn:W1. apply WriteAll_byte in W1 as [[-> ->]|(-> & -> & _)]; simpl negb; cbv iota.
  2: { intros [= <- <-]. split; [done|]. intros p _ X. by apply prefix_nil_inv in X. }
  pose proof (WriteAll_spec tx1 (put_le 8 n)) as S2. destruct (WriteAll (put_le 8 n) tx1) as [[w2 ok2] tx2]. destruct S2 as (P2 & E2 & _).
  destruct ok2; simpl negb; cbv iota.
  2: { intros [= <- <-]. split; [done|]. intros p _ X _. apply prefix_cons_inv_2 in X. exfalso.
       assert (w2 = put_le 8 n) as X2 by (apply prefix_length_eq; [done|]; apply prefix_length in X; rewrite length_app in X; lia).
       by apply E2 in X2. }
  destruct (load _ _ m) as [q|] eqn:Lo; [|done]. pose proof (WriteAll_spec tx2 q) as S3. destruct (WriteAll q tx2) as [[w3 ok3] tx3].
  destruct S3 as (P3 & _ & _). intros [= <- <-]. split; [done|]. intros p Lp X [= ->]. rewrite Lo. f_equal.
  apply prefix_cons_inv_2 in X. rewrite (proj1 E2 eq_refl) in X. apply prefix_app_inv in X.
  apply load_Some in Lo as [Lq _]. symmetry. apply prefix_length_eq; [by trans w3|]. lia.
Qed.

Lemma get_le_byte_0 b : get_le b = 0 -> length b = 1%nat -> b = [byte_of 0].
Proof.
  destruct b as [|x [|? ?]]; try done. rewrite get_le_cons. simpl get_le. intros H _. f_equal. apply byte_val_inj. rewrite byte_val_of.
  change (0 mod 256) with 0. lia.
Qed.

(** What a pull from a peer that succeeds has read. *)
Lemma pull_reads e q b m cid b' m' r :
  Pull e q b m = Done (cid, b', m') -> cid <> kInvalidCompletionId ->
  local_mrs_ b !! src_mr q = None -> remote_mrs_ b !! src_mr q = Some r ->
  exists d p, local_mrs_ b !! dst_mr q = Some d /\ length p = Z.to_nat (pbytes q) /\ get_reply p (pbytes q) `prefix_of` delivers (recvs e) /\
    store (u64 (addr d + dst_off q)) p m = Some m' /\
    (WriteAll (request kOpGet (peer_mr_id r) (src_off q) (pbytes q)) (sends e)).1.1 = request kOpGet (peer_mr_id r) (src_off q) (pbytes q).
Proof.
  unfold Pull, failed. intros H C Ns Hr. rewrite Ns, Hr in H. destruct (local_mrs_ b !! dst_mr q) as [d|]; [|by injection H as <-].
  destruct (lbytes d <? _); [by injection H as <-|]. destruct (rbytes r <? _); [by injection H as <-|]. destruct (negb (connects e)); [by injection H as <-|].
  pose proof (WriteAll_spec (sends e) (request kOpGet (peer_mr_id r) (src_off q) (pbytes q))) as S.
  destruct (WriteAll _ (sends e)) as [[w ok] tx]. destruct S as (_ & S & _). destruct ok; simpl negb in H; [|by injection H as <-].
  pose proof (ReadAll_spec (recvs e) 1) as S1. destruct (ReadAll 1 (recvs e)) as [[st ok1] rx1]. destruct S1 as (E1 & O1 & D1).
  pose proof (ReadAll_spec rx1 8) as S2. destruct (ReadAll 8 rx1) as [[ln ok2] rx2]. destruct S2 as (E2 & O2 & D2).
  destruct ok1; [|by injection H as <-]. destruct ok2; [|by injection H as <-]. simpl orb in H.
  destruct (negb (get_le st =? 0)) eqn:Est; [by injection H as <-|]. simpl orb in H.
  destruct (negb (get_le ln =? pbytes q)) eqn:Eln; [by injection H as <-|]. reflect_bools.
  pose proof (ReadAll_spec rx2 (Z.to_nat (pbytes q))) as S3. destruct (ReadAll (Z.to_nat (pbytes q)) rx2) as [[p ok3] rx3]. destruct S3 as (E3 & O3 & _).
  destruct (store _ p m) as [m1|] eqn:St; [|done]. destruct ok3; [|by injection H as <-]. injection H as <- <- <-.
  symmetry in O1, O2, O3. apply Nat.leb_le in O1, O2, O3. exists d, p. split; [done|]. split; [subst p; rewrite length_take; lia|]. split; [|by split; [|apply S]].
  assert (delivers (recvs e) = st ++ ln ++ p ++ drop (Z.to_nat (pbytes q)) (delivers rx2)) as ->.
  { by rewrite E1, E2, E3, (take_drop _ (delivers rx2)), (D2 eq_refl), take_drop, (D1 eq_refl), take_drop. }
  rewrite (get_le_byte_0 st) by (try done; rewrite E1, length_take; lia).
  assert (ln = put_le 8 (pbytes q)) as ->.
  { rewrite <- Eln. assert (length ln = 8%nat) as L8 by (rewrite E2, length_take; lia). rewrite <- L8 at 1. by rewrite put_get_le. }
  exists (drop (Z.to_nat (pbytes q)) (delivers rx2)). unfold get_reply. cbn [app]. by rewrite <- app_assoc.
Qed.

(** [C16] A pull from a peer that succeeds has brought exactly the bytes of the peer's
    region: whatever pieces the connection delivers and wherever it breaks, if the client
    reports success then its destination holds what the peer's region held, nothing else
    in its memory has changed, and the peer's memory is as it was. *)
Theorem remote_pull e q c m r cid c' m' rx tx s ms mr out ms' :
  local_mrs_ c !! src_mr q = None -> remote_mrs_ c !! src_mr q = Some r ->
  0 <= peer_mr_id r < 2 ^ 32 -> u64_ok (src_off q) -> u64_ok (pbytes q) ->
  Pull e q c m = Done (cid, c', m') -> cid <> kInvalidCompletionId ->
  local_mrs_ s !! peer_mr_id r = Some mr -> HandleConnection rx tx s ms = Done (out, ms') ->
  delivers rx `prefix_of` (WriteAll (request kOpGet (peer_mr_id r) (src_off q) (pbytes q)) (sends e)).1.1 -> delivers (recvs e) `prefix_of` out ->
  exists d p, local_mrs_ c !! dst_mr q = Some d /\
    load (u64 (addr mr + src_off q)) (Z.to_nat (pbytes q)) ms = Some p /\
    load (u64 (addr d + dst_off q)) (Z.to_nat (pbytes q)) m' = Some p /\
    (forall x, ~ u64 (addr d + dst_off q) <= x < u64 (addr d + dst_off q) + pbytes q -> m' !! x = m !! x) /\ ms' = ms.
Proof.
  intros Ns Hr Hi Ho Hn HP C Hmr HS Prx Pout. destruct (pull_reads _ _ _ _ _ _ _ _ HP C Ns Hr) as (d & p & Hd & Lp & G & St & Sent).
  rewrite Sent in Prx. destruct (served_get _ _ _ _ _ mr _ _ _ _ Hi Ho Hn Prx HS) as [-> L].
  exists d, p. split; [done|]. split; [apply L; [done|by trans (delivers (recvs e))|done]|]. rewrite <- Lp. split; [by eapply store_load|]. split; [|done].
  intros x Hx. destruct (store_Some _ _ _ _ St) as [_ F]. apply F. unfold u64_ok in Hn. lia.
Qed.

(** What a server makes of a PUT: nothing, or a prefix of the payload; all of it if it
    acknowledges. *)
Lemma served_put rx tx s m k off n p out m' r :
  0 <= k < 2 ^ 32 -> u64_ok off -> u64_ok n -> length p = Z.to_nat n -> delivers rx `prefix_of` request kOpPut k off n ++ p ->
  HandleConnection rx tx s m = Done (out, m') -> local_mrs_ s !! k = Some r ->
  (m' = m \/ exists p', p' `prefix_of` p /\ store (u64 (addr r + off)) p' m = Some m') /\
  ([byte_of 0] `prefix_of` out -> store (u64 (addr r + off)) p m = Some m').
Proof.
  intros Hk Ho Hn Lp P HS Hr. unfold HandleConnection in HS. change kRequestSize with 21%nat in HS. pose proof (ReadAll_spec rx 21) as S.
  destruct (ReadAll 21 rx) as [[req ok] rx']. destruct S as (-> & Hok & D). destruct ok; simpl negb in HS; cbv iota in HS.
  2: { injection HS as <- <-. split; [by left|]. intros X. by apply prefix_nil_inv in X. }
  destruct (prefix_request rx kOpPut k off n p) as (l & El & Hl); [done|done|]. specialize (D eq_refl). rewrite El in HS, D.
  rewrite drop_app_length' in D by (by rewrite put_le_length_req).
  destruct (request_fields kOpPut k off n l) as (E & F1 & F2 & F3); try done.
  rewrite F1, F2, F3, E, Hr in HS. change (byte_val (byte_of kOpPut)) with kOpPut in HS. cbv zeta in HS. simpl (_ && _) in HS.
  change (kOpPut =? kOpPut) with true in HS. cbv iota in HS. destruct (lbytes r <? _).
  { injection HS as <- <-. split; [by left|]. intros X. by apply refuse_head in X. }
  pose proof (ReadAll_spec rx' (Z.to_nat n)) as S. destruct (ReadAll (Z.to_nat n) rx') as [[p' okp] rx2]. destruct S as (Ep & Op & _).
  rewrite D in Ep, Op. destruct (store _ p' m) as [m1|] eqn:St; [|done]. destruct (WriteAll _ tx) as [[w okw] tx'] eqn:W. injection HS as <- <-.
  rewrite take_ge in Ep by (rewrite <- Lp; by apply prefix_length). split; [right; by exists p'; subst p'|].
  intros X. destruct okp.
  - assert (p' = p) as ->; [|done]. subst p'. apply prefix_length_eq; [done|]. symmetry in Op. apply Nat.leb_le in Op. lia.
  - apply WriteAll_byte in W as [[-> _]|(-> & _)]; [by apply prefix_cons_inv_1 in X|by apply prefix_nil_inv in X].
Qed.

(** What a push has sent, as far as it got. *)
Definition pushed (e : net) (q : PullRequest) (r : RemoteMr) (p : bytes) : bytes :=
  let '(w1, ok, tx) := WriteAll (request kOpPut (peer_mr_id r) (dst_off q) (pbytes q)) (sends e) in
  w1 ++ if (ok : bool) then (WriteAll p tx).1.1 else [].

Lemma pushed_prefix e q r p : pushed e q r p `prefix_of` request kOpPut (peer_mr_id r) (dst_off q) (pbytes q) ++ p.
Proof.
  unfold pushed. pose proof (WriteAll_spec (sends e) (request kOpPut (peer_mr_id r) (dst_off q) (pbytes q))) as S.
  destruct (WriteAll _ (sends e)) as [[w ok] tx]. destruct S as (P & E & _). destruct ok.
  - rewrite (proj1 E eq_refl). apply prefix_app. pose proof (WriteAll_spec tx p) as S. destruct (WriteAll p tx) as [[w2 ok2] tx2]. apply S.
  - rewrite app_nil_r. by apply prefix_app_r.
Qed.

(** A push to a peer that succeeds has deposited exactly the bytes; one that fails, or
    is cut off anywhere, has deposited a prefix of them or nothing. No other memory of the
    peer changes, and none of the client. *)
Theorem remote_push e q c m r sl p cid c' m' rx tx s ms mr out ms' :
  local_mrs_ c !! dst_mr q = None -> remote_mrs_ c !! dst_mr q = Some r -> local_mrs_ c !! src_mr q = Some sl ->
  load (u64 (addr sl + src_off q)) (Z.to_nat (pbytes q)) m = Some p ->
  0 <= peer_mr_id r < 2 ^ 32 -> u64_ok (dst_off q) -> u64_ok (pbytes q) -> Push e q c m = Done (cid, c', m') ->
  local_mrs_ s !! peer_mr_id r = Some mr -> HandleConnection rx tx s ms = Done (out, ms') ->
  delivers rx `prefix_of` pushed e q r p -> delivers (recvs e) `prefix_of` out ->
  m' = m /\ (cid <> kInvalidCompletionId -> load (u64 (addr mr + dst_off q)) (Z.to_nat (pbytes q)) ms' = Some p) /\
  exists n, (n <= length p)%nat /\ store (u64 (addr mr + dst_off q)) (take n p) ms = Some ms'.
Proof.
  intros Nd Hr Hs Lo Hi Ho Hn HP Hmr HS Prx Pout. pose proof (proj1 (load_Some _ _ _ _) Lo) as [Lp _].
  destruct (served_put rx tx s ms _ _ _ p _ _ mr Hi Ho Hn Lp (transitivity Prx (pushed_prefix e q r p)) HS Hmr) as [Any All].
  assert (m' = m /\ (cid <> kInvalidCompletionId -> [byte_of 0] `prefix_of` delivers (recvs e))) as [-> Ack].
  { unfold Push, failed in HP. rewrite Hs, Nd, Hr, Lo in HP. repeat (destruct (_ <? _); [by injection HP as <- _ <-|]).
    destruct (negb (connects e)); [by injection HP as <- _ <-|]. destruct (WriteAll _ (sends e)) as [[w ok] tx0].
    destruct (negb ok); [by injection HP as <- _ <-|]. destruct (WriteAll p tx0) as [[w2 ok2] tx2]. destruct (negb ok2); [by injection HP as <- _ <-|].
    pose proof (ReadAll_spec (recvs e) 1) as S. destruct (ReadAll 1 (recvs e)) as [[st ok1] rx1]. destruct S as (Est & O1 & _).
    destruct ok1; [|by injection HP as <- _ <-]. simpl orb in HP. destruct (negb (get_le st =? 0)) eqn:E; [by injection HP as <- _ <-|].
    injection HP as _ _ <-. split; [done|]. intros _. reflect_bools. symmetry in O1. apply Nat.leb_le in O1.
    rewrite <- (get_le_byte_0 st) by (try done; rewrite Est, length_take; lia). rewrite Est. apply prefix_take. }
  split; [done|]. split.
  - intros C. rewrite <- Lp. eapply store_load. apply All. trans (delivers (recvs e)); [by apply Ack|done].
  - destruct Any as [->|(p' & [l ->] & St)]; [by exists 0%nat; split; [lia|]|].
    exists (length p'). rewrite length_app. split; [lia|]. by rewrite take_app_length.
Qed.

(** ** Descriptors *)

(** The descriptor of a region names it to a peer: endpoint, key and size arrive. *)
Lemma descriptor_roundtrip s k r :
  local_mrs_ s !! k = Some r -> zlen (bind_host_ s) < 2 ^ 16 -> 0 <= port_ s < 2 ^ 16 -> 0 <= k < 2 ^ 32 -> u64_ok (lbytes r) ->
  exists d, ExportMr k s = Some d /\ parse_descriptor d = Some (mkRemote (bind_host_ s) (port_ s) k (lbytes r)).
Proof.
  intros H Hh Hp Hk Hb. unfold ExportMr. rewrite H, Z.mod_small by lia. eexists. split; [done|]. unfold parse_descriptor.
  set (h := bind_host_ s) in *. rewrite Nat2Z.id, take_ge by done.
  set (A := put_le 2 (zlen h)). set (P := put_le 2 (port_ s)). set (K := put_le 4 k). set (B := put_le 8 (lbytes r)).
  assert (length A = 2%nat /\ length P = 2%nat /\ length K = 4%nat /\ length B = 8%nat) as (LA & LP & LK & LB) by (unfold A, P, K, B; by rewrite !length_put_le).
  rewrite (take_app_length' A), (drop_app_length' A) by lia. rewrite !length_app.
  assert (Z.to_nat (get_le A) = length h) as -> by (unfold A; rewrite get_put_le; change (256 ^ Z.of_nat 2) with (2 ^ 16); rewrite Z.mod_small by lia; lia).
  destruct (Nat.ltb_spec (length A + (length h + (length P + (length K + length B)))) 2); [lia|].
  destruct (Nat.ltb_spec (length A + (length h + (length P + (length K + length B)))) (2 + length h + 2 + 4 + 8)); [lia|].
  rewrite (take_app_length' h), (drop_app_length' h), (take_app_length' P), (drop_app_length' P), (take_app_length' K), (app_assoc P K),
    (drop_app_length' (P ++ K)), take_ge by (rewrite ?length_app; lia).
  unfold P, K, B, u64_ok in *. rewrite !get_put_le. change (256 ^ Z.of_nat 2) with (2 ^ 16). change (256 ^ Z.of_nat 4) with (2 ^ 32).
  change (256 ^ Z.of_nat 8) with (2 ^ 64). by rewrite !Z.mod_small.
Qed.

(** ** Examples *)

Definition ex_mem (a : Z) (bs : list Z) : memory := list_to_map (imap (fun i b => (a + Z.of_nat i, byte_of b)) bs).

(** A server with a region of four bytes, of which the byte before is not part, and a
    client with a region of its own that has imported the server's. *)
Definition ex_srv : TcpBackend := (RegisterRegion 200 4 (new_tcp [x31] 7000)).2.
Definition ex_srv_mem : memory := ex_mem 199 [42; 10; 11; 12; 13].
Definition ex_cli : TcpBackend := (ImportRemoteMr (default [] (ExportMr 1 ex_srv)) (RegisterRegion 100 4 (new_tcp [x32] 7001)).2).2.
Definition ex_cli_mem : memory := ex_mem 100 [0; 0; 0; 0].

Definition ex_request : bytes := request kOpGet 1 1 2.
Definition ex_rx : list recv_result := [Data (take 10 ex_request); REintr; Data (drop 10 ex_request); Closed].
Definition ex_out : bytes := match HandleConnection ex_rx [Sent 1; Sent 3; SEintr; Sent 5; Sent 2] ex_srv ex_srv_mem with Done (o, _) => o | Fault => [] end.
Definition ex_net : net := mkNet true [Sent 7; SEintr; Sent 14] [Data (take 4 ex_out); Data (drop 4 ex_out); Closed].

Definition ex_after : TcpBackend * memory :=
  match Pull ex_net (mkPull 1 0 2 1 2) ex_cli ex_cli_mem with Done (_, b, m) => (b, m) | Fault => (ex_cli, ∅) end.

Lemma remote_pull_witness :
  exists d p, local_mrs_ ex_cli !! 1 = Some d /\ load (u64 (200 + 1)) 2 ex_srv_mem = Some p /\ load (u64 (addr d + 0)) 2 ex_after.2 = Some p.
Proof.
  destruct (remote_pull ex_net (mkPull 1 0 2 1 2) ex_cli ex_cli_mem (mkRemote [x31] 7000 1 4) 1 ex_after.1 ex_after.2
    ex_rx [Sent 1; Sent 3; SEintr; Sent 5; Sent 2] ex_srv ex_srv_mem (mkLocal 200 4) ex_out ex_srv_mem) as (d & p & H1 & H2 & H3 & _).
  - reflexivity.
  - reflexivity.
  - simpl. lia.
  - unfold u64_ok. simpl. lia.
  - unfold u64_ok. simpl. lia.
  - vm_compute. reflexivity.
  - unfold kInvalidCompletionId. lia.
  - reflexivity.
  - vm_compute. reflexivity.
  - exists []. vm_compute. reflexivity.
  - exists []. vm_compute. reflexivity.
  - exists d, p. exact (conj H1 (conj H2 H3)).
Defined.

Definition zeros : bytes := [byte_of 0; byte_of 0; byte_of 0; byte_of 0].
Definition ex_push_rx : list recv_result := [Data (request kOpPut 1 0 4 ++ [byte_of 0]); Data [byte_of 0; byte_of 0; byte_of 0]].
Definition ex_push_net : net := mkNet true [Sent 30; Sent 30] [Data [byte_of 0]].
Definition ex_pushed : memory := match HandleConnection ex_push_rx [Sent 1] ex_srv ex_srv_mem with Done (_, m) => m | Fault => ∅ end.
Definition ex_push_after : TcpBackend := match Push ex_push_net (mkPull 2 0 1 0 4) ex_cli ex_cli_mem with Done (_, b, _) => b | Fault => ex_cli end.

Lemma remote_push_witness : load (u64 (200 + 0)) 4 ex_pushed = Some zeros.
Proof.
  destruct (remote_push ex_push_net (mkPull 2 0 1 0 4) ex_cli ex_cli_mem (mkRemote [x31] 7000 1 4) (mkLocal 100 4) zeros 1 ex_push_after ex_cli_mem
    ex_push_rx [Sent 1] ex_srv ex_srv_mem (mkLocal 200 4) [byte_of 0] ex_pushed) as (_ & H & _).
  - reflexivity.
  - reflexivity.
  - reflexivity.
  - vm_compute. reflexivity.
  - simpl. lia.
  - unfold u64_ok. simpl. lia.
  - unfold u64_ok. simpl. lia.
  - vm_compute. reflexivity.
  - reflexivity.
  - vm_compute. reflexivity.
  - exists []. vm_compute. reflexivity.
  - exists []. vm_compute. reflexivity.
  - apply H. unfold kInvalidCompletionId. lia.
Defined.

Lemma served_in_bounds_witness : exists out m', HandleConnection ex_rx [Sent 30; Sent 30; Sent 30] ex_srv ex_srv_mem = Done (out, m').
Proof.
  destruct (served_in_bounds ex_rx [Sent 30; Sent 30; Sent 30] ex_srv ex_srv_mem) as (out & m' & H & _).
  - intros k r H. assert (local_mrs_ ex_srv = {[1 := mkLocal 200 4]}) as E by reflexivity. rewrite E in H.
    apply lookup_singleton_Some in H as [<- <-]. simpl. repeat split; try lia. intros x Hx. unfold ex_srv_mem. assert (x = 200 \/ x = 201 \/ x = 202 \/ x = 203) as C by lia.
    destruct C as [->|[->|[->| ->]]]; by eexists.
  - vm_compute. reflexivity.
  - exists out, m'. exact H.
Defined.

(** The check of the bounds adds in 64 bits: a request whose offset lies one byte before
    the end of the address space passes it, and the server sends the byte before the
    region. The loopback backend and the checks of Pull and Push add alike. *)
Example get_before_region :
  let rx := [Data (request kOpGet 1 (2 ^ 64 - 1) 1)] in
  match HandleConnection rx [Sent 30; Sent 30; Sent 30] ex_srv ex_srv_mem with
  | Done (out, _) => out = get_reply [byte_of 42] 1
  | Fault => False
  end.
Proof. vm_compute. reflexivity. Qed.

(** A PUT with such an offset overwrites it. *)
Example put_before_region :
  let rx := [Data (request kOpPut 1 (2 ^ 64 - 1) 1 ++ [byte_of 7])] in
  match HandleConnection rx [Sent 30] ex_srv ex_srv_mem with
  | Done (out, m) => out = [byte_of 0] /\ m !! 199 = Some (byte_of 7)
  | Fault => False
  end.
Proof. vm_compute. split; reflexivity. Qed.
End Transport.
