(* ===== verification/Nixl.v ===== *)
(** * The transfer queue

    transport/nixl_wrapper.cpp, NixlWrapper: callers split a transfer into segments and
    submit them one after the other to the scheduler (Scheduler.v); one dispatcher thread
    takes what the scheduler admits, has the backend perform it and wakes the caller.

    The state is stepped by a call of the caller's thread between two waits ([Advance])
    and by one iteration of the dispatcher's inner loop ([Dispatch]), in any order. The
    scheduler's history of items is kept beside it. The backend is a class that the
    loopback and the TCP backend of Transport.v implement; a fault in a transfer ends the
    run. Spans and messages are left out, timeouts are the backend's. *)

From S2P Require Import Prelude Scheduler Transport.
From Stdlib Require Import ZArith Lia.

Open Scope Z_scope.

Module Nixl.

Import Transport.

(** ** Backends *)

Class Backend := {
  state : Type; bPull : PullRequest -> state -> outcome (Z * state); bPush : PullRequest -> state -> outcome (Z * state); bWait : Z -> bool }.

#[export] Instance loopback : Backend := {|
  state := Loopback * memory;
  bPull q s := match LbPull q s.1 s.2 with Fault => Fault | Done (c, b, m) => Done (c, (b, m)) end;
  bPush q s := match LbPush q s.1 s.2 with Fault => Fault | Done (c, b, m) => Done (c, (b, m)) end;
  bWait := LbWait |}.

(** With what the network does for the transfers to come. *)
#[export] Instance tcp : Backend := {|
  state := TcpBackend * memory * list net;
  bPull q s := let '(b, m, ns) := s in
    match Pull (default (mkNet false [] []) (head ns)) q b m with Fault => Fault | Done (c, b, m) => Done (c, (b, m, tail ns)) end;
  bPush q s := let '(b, m, ns) := s in
    match Push (default (mkNet false [] []) (head ns)) q b m with Fault => Fault | Done (c, b, m) => Done (c, (b, m, tail ns)) end;
  bWait := Wait |}.

(** ** State *)

Inductive Kind := kPull | kPush.

Record PendingXfer := mkXfer { kind : Kind; xreq : PullRequest }.

(** A call of ScheduledPull or ScheduledPush: the segment to submit next, the one it waits
    for, and what it returned. *)
Record Thread := mkThread {
  tkind : Kind; treq : PullRequest; tprio : Sched.Priority; ttenant : Z; seg : Z; next : option Z; waiting : option Z; result : option bool }.

Section Wrapper.
Context {B : Backend}.

(** [done_] has [ok] of the transfers that are done. *)
Record Wrapper := mkWrapper {
  run_ : Sched.Run; pending : gmap Z PendingXfer; done_ : gmap Z bool; backend_ : state; threads : list Thread }.

Definition new_wrapper (o : Sched.Options) (b : state) (ts : list Thread) : Wrapper := mkWrapper (Sched.start o) ∅ ∅ b ts.

(** ** Callers *)

Definition call (k : Kind) (q : PullRequest) (p : Sched.Priority) (tenant max_segment_bytes : Z) : Thread :=
  mkThread k q p tenant max_segment_bytes (Some 0) None None.

(** A transfer that is not split. *)
Definition single (t : Thread) : bool := (seg t =? 0) || (pbytes (treq t) <=? seg t).

Definition segment (t : Thread) (off : Z) : PullRequest :=
  let q := treq t in
  if single t then q
  else mkPull (dst_mr q) (u64 (dst_off q + off)) (src_mr q) (u64 (src_off q + off)) (Z.min (seg t) (pbytes q - off)).

(** The loop variable after a segment, or the end of the loop. *)
Definition next_off (t : Thread) (off : Z) : option Z :=
  if single t then None else let off' := u64 (off + seg t) in if off' <? pbytes (treq t) then Some off' else None.

Definition SubmitOne (i : nat) (t : Thread) (off : Z) (w : Wrapper) : Wrapper :=
  let q := segment t off in
  let r := run_ w in
  let '(wid, s') := Sched.Submit (tprio t) (ttenant t) (pbytes q) (Sched.sched r) in
  mkWrapper (Sched.mkRun s' (Sched.mkWork wid (tprio t) (pbytes q) (ttenant t) :: Sched.submitted r) (Sched.flying r) (Sched.completed r))
    (<[wid := mkXfer (tkind t) q]> (pending w)) (done_ w) (backend_ w)
    (<[i := mkThread (tkind t) (treq t) (tprio t) (ttenant t) (seg t) (next_off t off) (Some wid) None]> (threads w)).

Definition Return (i : nat) (t : Thread) (ok : bool) (w : Wrapper) : Wrapper :=
  mkWrapper (run_ w) (pending w) (done_ w) (backend_ w)
    (<[i := mkThread (tkind t) (treq t) (tprio t) (ttenant t) (seg t) None None (Some ok)]> (threads w)).

(** What a caller does until it waits again or returns. *)
Definition Advance (i : nat) (w : Wrapper) : Wrapper :=
  match threads w !! i with
  | None => w
  | Some t =>
      match result t, match waiting t with Some id => done_ w !! id | None => Some true end with
      | Some _, _ | None, None => w
      | None, Some false => Return i t false w
      | None, Some true => match next t with Some off => SubmitOne i t off w | None => Return i t true w end
      end
  end.

(** ** The dispatcher *)

Definition perform (x : PendingXfer) (b : state) : outcome (bool * state) :=
  match (match kind x with kPull => bPull (xreq x) b | kPush => bPush (xreq x) b end) with
  | Fault => Fault
  | Done (cid, b') => Done (if cid =? kInvalidCompletionId then false else bWait cid, b')
  end.

Definition Dispatch (w : Wrapper) : outcome Wrapper :=
  let r := run_ w in
  let '(item, s') := Sched.TryNext (Sched.sched r) in
  match item with
  | None => Done (mkWrapper (Sched.mkRun s' (Sched.submitted r) (Sched.flying r) (Sched.completed r)) (pending w) (done_ w) (backend_ w) (threads w))
  | Some it =>
      match pending w !! Sched.id it with
      | None => Fault
      | Some x =>
          match perform x (backend_ w) with
          | Fault => Fault
          | Done (ok, b') =>
              Done (mkWrapper (Sched.mkRun (Sched.OnComplete (Sched.id it) s').2 (Sched.submitted r) (Sched.flying r) (it :: Sched.completed r))
                      (pending w) (<[Sched.id it := ok]> (done_ w)) b' (threads w))
          end
      end
  end.

Inductive input := IAdvance (i : nat) | IDispatch.

Definition step (x : input) (w : Wrapper) : outcome Wrapper :=
  match x with IAdvance i => Done (Advance i w) | IDispatch => Dispatch w end.

Fixpoint run (xs : list input) (w : Wrapper) : outcome Wrapper :=
  match xs with
  | [] => Done w
  | x :: xs => match step x w with Fault => Fault | Done w' => run xs w' end
  end.

(** ** Every call returns *)

(** Segments that a call has still to submit. *)
Definition remaining (t : Thread) : nat :=
  match next t with
  | None => 0
  | Some off => if single t then 1 else Z.to_nat ((pbytes (treq t) - off + seg t - 1) / seg t)
  end.

(** Sizes with which the loop variable does not wrap around. *)
Definition plain (t : Thread) : Prop :=
  0 <= pbytes (treq t) /\ 0 <= seg t /\ pbytes (treq t) + seg t <= 2 ^ 64 /\
  forall off, next t = Some off -> 0 <= off /\ (single t = true \/ off < pbytes (treq t)).

Lemma next_off_plain t off w r : plain t -> next t = Some off ->
  let t' := mkThread (tkind t) (treq t) (tprio t) (ttenant t) (seg t) (next_off t off) w r in
  plain t' /\ remaining t = S (remaining t').
Proof.
  intros (Hb & Hs & Hw & Hn) E. specialize (Hn off E) as [H0 Ho]. unfold plain, remaining, single, next_off in *. cbn [next treq seg].
  rewrite E. fold (single t) in *. destruct (single t) eqn:Sg; [by repeat split|]. destruct Ho as [|Ho]; [done|].
  unfold single in Sg. apply orb_false_iff in Sg as [S1 S2]. reflect_bools. rewrite u64_small by lia. split.
  - split; [done|]. split; [done|]. split; [done|]. intros o X. destruct (Z.ltb_spec (off + seg t) (pbytes (treq t))); [|done]. injection X as <-. lia.
  - destruct (Z.ltb_spec (off + seg t) (pbytes (treq t))).
    + replace (pbytes (treq t) - off + seg t - 1) with (pbytes (treq t) - (off + seg t) + seg t - 1 + 1 * seg t) by lia.
      rewrite Z.div_add by lia. pose proof (Z.div_pos (pbytes (treq t) - (off + seg t) + seg t - 1) (seg t) ltac:(lia) ltac:(lia)). lia.
    + replace ((pbytes (treq t) - off + seg t - 1) / seg t) with 1; [done|].
      apply Z.div_unique with (pbytes (treq t) - off - 1); lia.
Qed.

Definition total (l : list Thread) : nat := foldr (fun t n => remaining t + n)%nat 0%nat l.
Definition left_to_submit (w : Wrapper) : nat := total (threads w).
Definition work (w : Wrapper) : nat := left_to_submit w + length (Sched.all_queued (Sched.sched (run_ w))).

Lemma sum_insert (l : list Thread) i t t' n : l !! i = Some t -> remaining t = (n + remaining t')%nat ->
  total l = (n + total (<[i := t']> l))%nat.
Proof.
  revert i. induction l as [|x l IH]; intros [|i] H E; simpl in *; try done; [injection H as ->; lia|]. rewrite (IH i H E). lia.
Qed.

Record WInv (K : Z) (w : Wrapper) : Prop := {
  w_run : Sched.RInv (run_ w); w_flying : Sched.flying (run_ w) = []; w_skips : Sched.SkipInv (Sched.sched (run_ w));
  w_limit : Sched.max_starvation_skips_ (Sched.sched (run_ w)) = K;
  w_ids : Sched.next_id_ (Sched.sched (run_ w)) + Z.of_nat (left_to_submit w) < 2 ^ 64;
  w_pending : forall it, it ∈ Sched.all_queued (Sched.sched (run_ w)) -> is_Some (pending w !! Sched.id it);
  w_waiting : forall i t d, threads w !! i = Some t -> waiting t = Some d ->
    is_Some (done_ w !! d) \/ exists it, it ∈ Sched.all_queued (Sched.sched (run_ w)) /\ Sched.id it = d;
  w_done : forall d, is_Some (done_ w !! d) -> d < Sched.next_id_ (Sched.sched (run_ w));
  w_plain : Forall plain (threads w) }.

(** What is left of the dispatcher's attempts. *)
Definition potential (K : Z) (w : Wrapper) : Z := Z.of_nat (work w) * (K + 1) - Sched.longest (Sched.sched (run_ w)).

Lemma Return_inv K i t ok w : WInv K w -> threads w !! i = Some t -> (ok = true -> next t = None) ->
  WInv K (Return i t ok w) /\ (work (Return i t ok w) <= work w)%nat /\
  Sched.longest (Sched.sched (run_ (Return i t ok w))) = Sched.longest (Sched.sched (run_ w)).
Proof.
  intros I Ht Hn. set (t' := mkThread (tkind t) (treq t) (tprio t) (ttenant t) (seg t) None None (Some ok)).
  assert (total (threads w) = remaining t + total (<[i := t']> (threads w)))%nat as Tot by (apply (sum_insert _ _ t); [done|]; change (remaining t') with 0%nat; lia).
  destruct I as [R Fl Sk L Ids Pe Wa Dn Pl]. split; [|split; [|done]].
  - constructor; try done; cbn [run_ pending done_ threads Return].
    + unfold left_to_submit in *. cbn [threads Return]. fold t'. lia.
    + intros j x d Hx Hw. fold t' in Hx. destruct (decide (i = j)) as [<-|N].
      * rewrite list_lookup_insert_eq in Hx by (by eapply lookup_lt_Some). injection Hx as <-. done.
      * rewrite list_lookup_insert_ne in Hx by done. by eapply Wa.
    + fold t'. apply Forall_insert; [done|]. destruct (proj1 (Forall_lookup _ _) Pl i t Ht) as (? & ? & ? & _). by repeat split.
  - unfold work, left_to_submit. cbn [threads Return run_]. fold t'. lia.
Qed.

Lemma submit_facts K i t off w : WInv K w -> threads w !! i = Some t -> next t = Some off ->
  let s := Sched.sched (run_ w) in let n := pbytes (segment t off) in
  let '(wid, s') := Sched.Submit (tprio t) (ttenant t) n s in
  wid = Sched.next_id_ s /\ Sched.next_id_ s' = wid + 1 /\ Sched.all_queued s' ≡ₚ Sched.mkWork wid (tprio t) n (ttenant t) :: Sched.all_queued s.
Proof.
  intros I Ht Hn s n. pose proof (Sched.Submit_class (tprio t) (ttenant t) n s (Sched.r_sinv _ (w_run _ _ I))) as C.
  assert (Sched.next_id_ (Sched.Submit (tprio t) (ttenant t) n s).2 = Sched.next_id_ s + 1) as Nx.
  { change (u64 (Sched.next_id_ s + 1) = Sched.next_id_ s + 1). pose proof (proj1 (Sched.r_next _ (w_run _ _ I))) as H1. pose proof (w_ids _ _ I) as H2.
    destruct (next_off_plain t off None None (proj1 (Forall_lookup _ _) (w_plain _ _ I) i t Ht) Hn) as [_ Rm].
    unfold left_to_submit in H2. rewrite (sum_insert _ i t _ 1 Ht Rm) in H2. fold s in H1, H2. apply u64_small. lia. }
  assert ((Sched.Submit (tprio t) (ttenant t) n s).1 = Sched.next_id_ s) as Ew by done.
  destruct (Sched.Submit (tprio t) (ttenant t) n s) as [wid s']. cbn [fst snd] in *. destruct C as (_ & Q & Oth & _).
  split; [done|]. split; [congruence|]. apply (Sched.all_queued_frame (tprio t)); [|done]. intros p' X. by rewrite Oth.
Qed.

Lemma SubmitOne_inv K i t off w : WInv K w -> threads w !! i = Some t -> next t = Some off ->
  WInv K (SubmitOne i t off w) /\ work (SubmitOne i t off w) = work w /\
  Sched.longest (Sched.sched (run_ (SubmitOne i t off w))) = Sched.longest (Sched.sched (run_ w)).
Proof.
  intros [R Fl Sk L Ids Pe Wa Dn Pl] Ht Hn. destruct (run_ w) as [s sub fl co] eqn:Er. cbn [Sched.sched Sched.flying] in *.
  pose proof (proj1 (Forall_lookup _ _) Pl i t Ht) as Plt.
  set (n := pbytes (segment t off)). set (sub' := Sched.Submit (tprio t) (ttenant t) n s).
  destruct (next_off_plain t off (Some sub'.1) None Plt Hn) as [Pl' Rem].
  set (t' := mkThread (tkind t) (treq t) (tprio t) (ttenant t) (seg t) (next_off t off) (Some sub'.1) None) in *.
  assert (total (threads w) = 1 + total (<[i := t']> (threads w)))%nat as Tot by (by apply (sum_insert _ _ t)).
  unfold left_to_submit in Ids.
  pose proof (Sched.Submit_class (tprio t) (ttenant t) n s (Sched.r_sinv _ R)) as C. fold sub' in C.
  pose proof (Sched.Submit_RInv (tprio t) (ttenant t) n _ s sub fl co R eq_refl ltac:(lia)) as R'. fold sub' in R'.
  destruct (Sched.Submit_skips (tprio t) (ttenant t) n s Sk) as (Sk' & Lo & M). fold sub' in Sk', Lo, M.
  assert (Sched.next_id_ sub'.2 = Sched.next_id_ s + 1) as Nx.
  { change (Sched.next_id_ sub'.2) with (u64 (Sched.next_id_ s + 1)). destruct R as [_ _ _ [Hid _] _ _]. cbn in Hid. apply u64_small. lia. }
  assert (SubmitOne i t off w = mkWrapper (Sched.mkRun sub'.2 (Sched.mkWork sub'.1 (tprio t) n (ttenant t) :: sub) fl co)
    (<[sub'.1 := mkXfer (tkind t) (segment t off)]> (pending w)) (done_ w) (backend_ w) (<[i := t']> (threads w))) as ->.
  { unfold SubmitOne. rewrite Er. cbn [Sched.sched Sched.submitted Sched.flying Sched.completed]. fold n. fold sub'.
    unfold t'. by destruct sub'. }
  destruct sub' as [wid s'] eqn:Es. cbn [fst snd] in *. destruct C as (_ & Q & Oth & _).
  assert (Sched.all_queued s' ≡ₚ Sched.mkWork wid (tprio t) n (ttenant t) :: Sched.all_queued s) as AQ.
  { apply (Sched.all_queued_frame (tprio t)); [|done]. intros p' X. by rewrite Oth. }
  split; [|split; [|done]].
  - constructor; cbn [run_ pending done_ threads Sched.sched Sched.flying]; try done.
    + by rewrite M.
    + unfold left_to_submit. cbn [threads]. lia.
    + intros it X. rewrite AQ in X. apply elem_of_cons in X as [->|X]; [cbn; by rewrite lookup_insert_eq|]. apply lookup_insert_is_Some'. right. by apply Pe.
    + intros j x d Hx Hw. destruct (decide (i = j)) as [<-|N].
      * rewrite list_lookup_insert_eq in Hx by (by eapply lookup_lt_Some). injection Hx as <-. injection Hw as <-.
        right. eexists. rewrite AQ. split; [by left|done].
      * rewrite list_lookup_insert_ne in Hx by done. destruct (Wa j x d Hx Hw) as [?|(it & ? & ?)]; [by left|right].
        exists it. rewrite AQ. split; [by right|done].
    + intros d X. rewrite Nx. specialize (Dn d X). lia.
    + by apply Forall_insert.
  - unfold work, left_to_submit. cbn [threads run_ Sched.sched]. rewrite Er, AQ. cbn [length Sched.sched]. lia.
Qed.

Lemma Advance_inv K i w : WInv K w -> WInv K (Advance i w) /\ (work (Advance i w) <= work w)%nat /\
  Sched.longest (Sched.sched (run_ (Advance i w))) = Sched.longest (Sched.sched (run_ w)).
Proof.
  intros I. unfold Advance. destruct (threads w !! i) as [t|] eqn:Ht; [|done]. destruct (result t); [done|].
  destruct (match waiting t with Some d => done_ w !! d | None => Some true end) as [[|]|]; [|by apply Return_inv|done].
  destruct (next t) as [off|] eqn:Hn; [|by apply Return_inv]. destruct (SubmitOne_inv K i t off w I Ht Hn) as (? & -> & ?). done.
Qed.

Lemma no_work_longest s : Sched.SInv s -> Sched.SkipInv s -> Sched.all_queued s = [] -> Sched.longest s = 0.
Proof.
  intros I [_ S] E. unfold Sched.all_queued in E. apply app_nil in E as [E0 E]. apply app_nil in E as [E1 E2].
  assert (forall p, Sched.queued (Sched.classes_ p s) = [] -> Sched.consecutive_skips (Sched.classes_ p s) = 0) as Z.
  { intros p Q. apply S, map_empty. intros t. destruct (Sched.tenant_queues (Sched.classes_ p s) !! t) as [q|] eqn:T; [|done].
    destruct (Sched.c_queue _ _ (I p) t q T) as [N _]. unfold Sched.queued in Q. apply (f_equal length) in Q.
    rewrite (Sched.queued_of_delete _ _ _ T), length_app in Q. destruct q; [done|simpl in Q; lia]. }
  pose proof (Z Sched.P0 E0) as Z0. pose proof (Z Sched.P1 E1) as Z1. pose proof (Z Sched.P2 E2) as Z2. cbn in Z0, Z1, Z2.
  unfold Sched.longest. lia.
Qed.

Lemma Dispatch_inv K w w' : WInv K w -> Dispatch w = Done w' ->
  WInv K w' /\ threads w' = threads w /\ potential K w' <= potential K w /\
  if decide (Sched.all_queued (Sched.sched (run_ w)) = []) then done_ w' = done_ w else potential K w' < potential K w.
Proof.
  intros [R Fl Sk L Ids Pe Wa Dn Pl] H. unfold Dispatch in H. destruct (run_ w) as [s sub fl co] eqn:Er.
  cbn [Sched.sched Sched.flying Sched.submitted Sched.completed] in *. subst fl. pose proof (Sched.longest_bound _ Sk) as Bnd. rewrite L in Bnd.
  pose proof (Sched.TryNext_spec s (Sched.r_sinv _ R)) as Sp. pose proof (Sched.TryNext_skips s (Sched.r_sinv _ R) Sk) as Up.
  pose proof (Sched.TryNext_RInv _ s sub [] co R eq_refl) as R'. pose proof (Sched.TryNext_longest s) as Lo.
  destruct (Sched.TryNext s) as [[it|] s1] eqn:Et; cbn [fst snd] in *.
  - destruct Sp as (_ & (En & _ & _ & EK) & (q & Tq & _ & _ & P & _ & Oth) & _). destruct Up as [Sk1 _].
    assert (Sched.all_queued s ≡ₚ it :: Sched.all_queued s1) as AQ.
    { apply (Sched.all_queued_frame (Sched.priority it)); [|done]. intros p' N. unfold Sched.queued. by rewrite (proj1 (Oth p' N)). }
    destruct (pending w !! Sched.id it) as [x|]; [|done]. destruct (perform x (backend_ w)) as [|[ok b]]; [done|]. injection H as <-.
    destruct (Sched.OnComplete_RInv _ s1 sub [it] [] co it R' eq_refl ltac:(done)) as [R2 _].
    destruct (Sched.r_maps _ R' it) as [Hc Hb]; [apply elem_of_app; right; by left|]. cbn [Sched.sched] in Hc, Hb.
    destruct (Sched.OnComplete_skips _ _ _ _ Hc Hb Sk1) as (Sk2 & _ & M2). pose proof (Sched.OnComplete_classes _ _ _ _ Hc Hb) as Oc.
    destruct (Sched.OnComplete (Sched.id it) s1) as [okc s2]. cbn [snd] in *. destruct Oc as (_ & Nx & _ & _ & Cl).
    assert (Sched.all_queued s2 = Sched.all_queued s1) as AQ2.
    { unfold Sched.all_queued, Sched.queued. pose proof (Cl Sched.P0) as E0. pose proof (Cl Sched.P1) as E1. pose proof (Cl Sched.P2) as E2.
      cbn [Sched.classes_] in E0, E1, E2. by rewrite E0, E1, E2. }
    assert (potential K (mkWrapper (Sched.mkRun s2 sub [] (it :: co)) (pending w) (<[Sched.id it := ok]> (done_ w)) b (threads w)) < potential K w) as Pot.
    { unfold potential, work, left_to_submit. cbn [threads run_ Sched.sched]. rewrite Er. cbn [Sched.sched]. rewrite AQ2, AQ. cbn [length].
      pose proof (Sched.longest_bound _ Sk2). nia. }
    split; [|split; [done|split; [lia|]]].
    + constructor; cbn [run_ pending done_ threads Sched.sched Sched.flying]; try done.
      * congruence.
      * unfold left_to_submit in *. cbn [threads]. rewrite Nx, En. done.
      * intros x' X. apply Pe. rewrite AQ, <- AQ2. by right.
      * intros i t d Ht Hw. destruct (Wa i t d Ht Hw) as [?|(y & Hy & <-)]; [left; apply lookup_insert_is_Some'; by right|].
        rewrite AQ in Hy. apply elem_of_cons in Hy as [->|Hy]; [left; rewrite lookup_insert_eq; done|right; exists y; by rewrite AQ2].
      * intros d X. rewrite Nx, En. apply lookup_insert_is_Some' in X as [<-|X]; [|by apply Dn].
        destruct R as [_ It _ [_ Lt] _ _]. apply (proj1 (Forall_forall _ _) Lt). cbn [Sched.submitted]. rewrite It. cbn [Sched.sched]. rewrite AQ. by left.
    + case_decide as D; [|done]. rewrite D in AQ. by apply Permutation_nil_cons in AQ.
  - destruct Sp as (I1 & (En & _ & _ & EK) & _ & Same). destruct Up as [Sk1 _]. injection H as <-.
    assert (Sched.all_queued s1 = Sched.all_queued s) as AQ.
    { unfold Sched.all_queued, Sched.queued. pose proof (proj1 (Same Sched.P0)) as E0. pose proof (proj1 (Same Sched.P1)) as E1.
      pose proof (proj1 (Same Sched.P2)) as E2. cbn [Sched.classes_] in E0, E1, E2. by rewrite E0, E1, E2. }
    unfold potential, work, left_to_submit in *. cbn [threads run_ Sched.sched done_]. rewrite Er. cbn [Sched.sched]. rewrite AQ.
    split; [constructor; cbn [run_ pending done_ threads Sched.sched Sched.flying]; rewrite ?AQ, ?EK, ?En; done|]. split; [done|].
    case_decide as D.
    + split; [|done]. rewrite (no_work_longest s1 I1 Sk1), (no_work_longest s (Sched.r_sinv _ R) Sk); [lia|done|by rewrite AQ].
    + pose proof (Lo s1 (Sched.r_sinv _ R) Sk eq_refl D). lia.
Qed.

Lemma potential_nonneg K w : WInv K w -> 0 <= potential K w.
Proof.
  intros [R _ Sk L _ _ _ _ _]. pose proof (Sched.longest_bound _ Sk) as Bnd. rewrite L in Bnd. unfold potential, work.
  destruct (decide (Sched.all_queued (Sched.sched (run_ w)) = [])) as [E|N].
  - rewrite (no_work_longest _ (Sched.r_sinv _ R) Sk E). nia.
  - destruct (Sched.all_queued (Sched.sched (run_ w))) as [|x l]; [done|]. cbn [length]. nia.
Qed.

Lemma step_inv K x w w' : WInv K w -> step x w = Done w' -> WInv K w' /\ potential K w' <= potential K w /\ length (threads w') = length (threads w).
Proof.
  intros I H. destruct x as [i|]; simpl in H.
  - injection H as <-. destruct (Advance_inv K i w I) as (I' & Wk & Lo). split; [done|]. split.
    + unfold potential. rewrite Lo. pose proof (Sched.longest_bound _ (w_skips _ _ I)). rewrite (w_limit _ _ I) in H. nia.
    + unfold Advance, SubmitOne, Return. repeat case_match; simpl; rewrite ?length_insert; done.
  - destruct (Dispatch_inv K w w' I H) as (I' & T & P & _). by rewrite T.
Qed.

(** A call that has returned, or waits for a segment that is not done. *)
Definition settled (i : nat) (w : Wrapper) : Prop :=
  forall t, threads w !! i = Some t -> is_Some (result t) \/ exists d, waiting t = Some d /\ done_ w !! d = None.

Lemma Advance_settles K i w : WInv K w -> done_ (Advance i w) = done_ w /\ settled i (Advance i w) /\
  forall j, j <> i -> threads (Advance i w) !! j = threads w !! j.
Proof.
  intros I. unfold Advance, settled. destruct (threads w !! i) as [t|] eqn:Ht; [|split; [done|]; split; [by rewrite Ht|done]].
  pose proof (lookup_lt_Some _ _ _ Ht) as Lt.
  destruct (result t) eqn:Hr; [split; [done|]; split; [|done]; rewrite Ht; intros x [= <-]; left; by rewrite Hr|].
  assert (forall ok, done_ (Return i t ok w) = done_ w /\ (forall x, threads (Return i t ok w) !! i = Some x -> is_Some (result x) \/
    exists d, waiting x = Some d /\ done_ (Return i t ok w) !! d = None) /\ forall j, j <> i -> threads (Return i t ok w) !! j = threads w !! j) as Ret.
  { intros ok. split; [done|]. cbn [threads Return]. split; [rewrite list_lookup_insert_eq by done; intros x [= <-]; left; by eexists|].
    intros j Nj. by rewrite list_lookup_insert_ne. }
  destruct (match waiting t with Some d => done_ w !! d | None => Some true end) as [[|]|] eqn:Hw; [|apply Ret|].
  - destruct (next t) as [off|]; [|apply Ret]. unfold SubmitOne. destruct (Sched.Submit _ _ _ _) as [wid s'] eqn:Es. cbn [done_ threads].
    split; [done|]. split; [|intros j Nj; by rewrite list_lookup_insert_ne]. rewrite list_lookup_insert_eq by done. intros x [= <-]. right.
    exists wid. split; [done|]. apply eq_None_not_Some. intros X. apply (w_done _ _ I) in X. unfold Sched.Submit in Es.
    apply pair_equal_spec in Es as [<- _]. lia.
  - split; [done|]. split; [|done]. rewrite Ht. intros x [= <-]. right. destruct (waiting t) as [d|]; [|done]. by exists d.
Qed.

Lemma nixl_run_app xs ys w : run (xs ++ ys) w = match run xs w with Fault => Fault | Done w1 => run ys w1 end.
Proof. revert w. induction xs as [|x xs IH]; intros w; simpl; [done|]. destruct (step x w); [done|apply IH]. Qed.

(** Until the dispatcher has made progress, the callers that have run are settled. *)
Lemma run_settles K xs : forall w w', WInv K w -> run xs w = Done w' -> WInv K w' /\ length (threads w') = length (threads w) /\
  potential K w' <= potential K w /\ (potential K w' < potential K w \/ done_ w' = done_ w /\ forall i, IAdvance i ∈ xs -> settled i w').
Proof.
  induction xs as [|x xs IH] using rev_ind; intros w w' I H.
  { injection H as <-. split; [done|]. split; [done|]. split; [lia|]. right. split; [done|]. intros i X. by apply elem_of_nil in X. }
  rewrite nixl_run_app in H. destruct (run xs w) as [|w1] eqn:E; [done|]. destruct (IH w w1 I E) as (I1 & L1 & P1 & C). simpl in H.
  destruct (step x w1) as [|w2] eqn:Ex; [done|]. injection H as <-. destruct (step_inv K x w1 w2 I1 Ex) as (I2 & P2 & L2).
  split; [done|]. split; [by rewrite L2|]. split; [lia|]. destruct C as [C|[D S]]; [left; lia|]. destruct x as [i|]; simpl in Ex.
  - injection Ex as <-. destruct (Advance_settles K i w1 I1) as (D' & S' & Oth). right. split; [by rewrite D'|].
    intros j X. destruct (decide (j = i)) as [->|N]; [done|]. intros t Ht. rewrite Oth in Ht by done. rewrite D'. apply (S j); [|done].
    apply elem_of_app in X as [X|X]; [done|]. apply list_elem_of_singleton in X. congruence.
  - destruct (Dispatch_inv K w1 w2 I1 Ex) as (_ & T & _ & C). case_decide; [|left; lia]. right. split; [congruence|].
    intros j X t Ht. rewrite T in Ht. rewrite C. apply (S j); [|done]. apply elem_of_app in X as [X|X]; [done|]. by apply list_elem_of_singleton in X.
Qed.

(** Every caller runs, in any order and with anything in between, and then the dispatcher. *)
Definition covers (n : nat) (xs : list input) : Prop := exists ys, xs = ys ++ [IDispatch] /\ forall i, (i < n)%nat -> IAdvance i ∈ ys.

Definition all_returned (w : Wrapper) : Prop := forall i t, threads w !! i = Some t -> is_Some (result t).

Lemma round_progress K xs w w' : WInv K w -> covers (length (threads w)) xs -> run xs w = Done w' ->
  all_returned w' \/ potential K w' < potential K w.
Proof.
  intros I (ys & -> & Cov) H. rewrite nixl_run_app in H. destruct (run ys w) as [|w1] eqn:E; [done|].
  destruct (run_settles K ys w w1 I E) as (I1 & L1 & P1 & C). simpl in H. destruct (Dispatch w1) as [|w2] eqn:Ed; [done|]. injection H as <-.
  destruct (Dispatch_inv K w1 w2 I1 Ed) as (_ & T & P2 & D). destruct C as [C|[_ S]]; [right; lia|]. case_decide as Q; [|right; lia].
  left. intros i t Ht. rewrite T in Ht. destruct (S i (Cov i ltac:(rewrite <- L1; by eapply lookup_lt_Some)) t Ht) as [?|(d & Hw & Hd)]; [done|].
  destruct (w_waiting _ _ I1 i t d Ht Hw) as [[? X]|(it & X & _)]; [by rewrite Hd in X|]. rewrite Q in X. by apply elem_of_nil in X.
Qed.

Lemma step_returned x w w' : step x w = Done w' -> all_returned w -> all_returned w'.
Proof.
  intros H A. destruct x as [i|]; simpl in H.
  - injection H as <-. unfold Advance. destruct (threads w !! i) as [t|] eqn:Ht; [|done]. destruct (A i t Ht) as [r ->]. done.
  - unfold Dispatch in H. repeat case_match; try done; injection H as <-; exact A.
Qed.

Lemma run_returned xs : forall w w', run xs w = Done w' -> all_returned w -> all_returned w'.
Proof.
  induction xs as [|x xs IH]; intros w w' H A; simpl in H; [by injection H as <-|].
  destruct (step x w) as [|w1] eqn:E; [done|]. eapply IH; [done|]. by eapply step_returned.
Qed.

Lemma rounds_return K rounds : forall w w', WInv K w -> potential K w < zlen rounds -> Forall (covers (length (threads w))) rounds ->
  run (concat rounds) w = Done w' -> all_returned w'.
Proof.
  induction rounds as [|xs rounds IH]; intros w w' I P F H; [pose proof (potential_nonneg K w I); simpl in P; lia|].
  simpl in H. rewrite nixl_run_app in H. destruct (run xs w) as [|w1] eqn:E; [done|]. apply Forall_cons in F as [Fx F].
  destruct (run_settles K xs w w1 I E) as (I1 & L1 & _ & _). destruct (round_progress K xs w w1 I Fx E) as [A|Pr]; [by eapply run_returned|].
  eapply IH; [exact I1|simpl in P; lia|by rewrite L1|done].
Qed.

(** Calls that are about to start. *)
Definition fresh (t : Thread) : Prop :=
  t = call (tkind t) (treq t) (tprio t) (ttenant t) (seg t) /\ 0 <= pbytes (treq t) /\ 0 <= seg t /\ pbytes (treq t) + seg t <= 2 ^ 64.

Lemma fresh_plain t : fresh t -> plain t.
Proof.
  intros (-> & Hb & Hs & Hw). split; [done|]. split; [done|]. split; [done|]. intros off [= <-]. cbn [treq seg call] in *. split; [lia|].
  unfold single. cbn [treq seg call]. destruct (Z.eqb_spec (seg t) 0); [by left|]. destruct (Z.leb_spec (pbytes (treq t)) (seg t)); [by left|right; lia].
Qed.

Lemma new_inv o b ts : 0 <= Sched.max_starvation_skips o < 2 ^ 32 -> Forall fresh ts -> Z.of_nat (total ts) < 2 ^ 64 - 1 ->
  WInv (Sched.max_starvation_skips o) (new_wrapper o b ts).
Proof.
  intros K F Ids. constructor; try done.
  - apply Sched.start_RInv.
  - split; [done|]. intros []; cbn; lia.
  - change (1 + Z.of_nat (total ts) < 2 ^ 64). lia.
  - intros it X. by apply elem_of_nil in X.
  - intros i t d Ht Hw. destruct (proj1 (Forall_lookup _ _) F i t Ht) as [E _]. by rewrite E in Hw.
  - intros d [x X]. cbn [done_ new_wrapper] in X. by rewrite lookup_empty in X.
  - eapply Forall_impl; [done|apply fresh_plain].
Qed.

(** [C17] Every transfer returns. However many calls share the queue, whatever their
    priorities, tenants and sizes, and whether their segments fit the share of their class
    or not, once each caller has been given a turn before each attempt of the dispatcher,
    as many attempts as there are segments times one more than the starvation limit, and
    one, are enough for every call to have returned. *)
Theorem transfers_return o b ts rounds w :
  0 <= Sched.max_starvation_skips o < 2 ^ 32 -> Forall fresh ts -> Z.of_nat (total ts) < 2 ^ 64 - 1 ->
  Forall (covers (length ts)) rounds -> Z.of_nat (total ts) * (Sched.max_starvation_skips o + 1) < zlen rounds ->
  run (concat rounds) (new_wrapper o b ts) = Done w -> all_returned w.
Proof.
  intros K F Ids C L H. eapply (rounds_return (Sched.max_starvation_skips o)); [by apply new_inv| |done|done].
  unfold potential, work, left_to_submit. cbn [threads new_wrapper run_ Sched.start Sched.sched].
  change (Sched.all_queued (Sched.make o)) with (@nil Sched.WorkItem). change (Sched.longest (Sched.make o)) with 0. simpl length. lia.
Qed.

End Wrapper.

(** ** What arrives *)

Section Arrive.
(** Callers of ScheduledPull over the loopback backend, whose regions stay as they are. *)
Context (regs : gmap Z LocalMr) (m0 : memory).

#[local] Existing Instance loopback | 0.

Definition region (k : Z) : LocalMr := default (mkLocal 0 0) (regs !! k).
Definition source (t : Thread) : Z := addr (region (src_mr (treq t))) + src_off (treq t).
Definition target (t : Thread) : Z := addr (region (dst_mr (treq t))) + dst_off (treq t).
Definition size (t : Thread) : Z := pbytes (treq t).

Definition in_source (t : Thread) (x : Z) : Prop := source t <= x < source t + size t.
Definition in_target (t : Thread) (x : Z) : Prop := target t <= x < target t + size t.

(** Addresses that do not wrap around. *)
Definition addressed (t : Thread) : Prop :=
  tkind t = kPull /\ 0 <= addr (region (src_mr (treq t))) /\ 0 <= src_off (treq t) /\ 0 <= addr (region (dst_mr (treq t))) /\ 0 <= dst_off (treq t) /\
  source t + size t < 2 ^ 64 /\ target t + size t < 2 ^ 64.

(** Nobody writes where someone reads or another writes. *)
Definition apart (ts : list Thread) : Prop :=
  (forall i j t u x, ts !! i = Some t -> ts !! j = Some u -> in_source t x -> ~ in_target u x) /\
  (forall i j t u x, ts !! i = Some t -> ts !! j = Some u -> i <> j -> in_target t x -> ~ in_target u x).

(** The first [k] bytes of a transfer are there. *)
Definition copied (t : Thread) (k : Z) (m : memory) : Prop := forall j, 0 <= j < k -> m !! (target t + j) = m0 !! (source t + j).

Lemma memcpy_lookup d s n m m' x : memcpy d s n m = Some m' ->
  m' !! x = if decide (d <= x < d + Z.of_nat n) then m !! (s + (x - d)) else m !! x.
Proof.
  unfold memcpy. destruct (load s n m) as [bs|] eqn:L; [|done]. intros H. apply load_Some in L as [Ln L].
  destruct (store_Some _ _ _ _ H) as [H1 H2]. rewrite <- Ln in *. case_decide as D; [|by apply H2].
  specialize (H1 (Z.to_nat (x - d)) ltac:(lia)). specialize (L (Z.to_nat (x - d)) ltac:(lia)).
  replace (d + Z.of_nat (Z.to_nat (x - d))) with x in H1 by lia. replace (s + Z.of_nat (Z.to_nat (x - d))) with (s + (x - d)) in L by lia. congruence.
Qed.

(** An offset at which a segment begins. *)
Definition begins (t : Thread) (off : Z) : Prop := if single t then off = 0 else 0 <= off < size t.

(** A segment does nothing, or copies its part; it has copied if it says so. *)
Lemma segment_effect t off b m c b' m' : addressed t -> plain t -> begins t off -> regions_ b = regs ->
  LbPull (segment t off) b m = Done (c, b', m') -> regions_ b' = regs /\
  (m' = m /\ c = kInvalidCompletionId \/ forall x, m' !! x =
     if decide (target t + off <= x < target t + off + pbytes (segment t off)) then m !! (source t + (x - target t)) else m !! x).
Proof.
  intros (_ & A1 & A2 & A3 & A4 & A5 & A6) (P1 & P2 & P3 & _) Ho Hr H. unfold begins, size in *.
  assert (0 <= pbytes (segment t off) /\ src_mr (segment t off) = src_mr (treq t) /\ dst_mr (segment t off) = dst_mr (treq t) /\
    src_off (segment t off) = src_off (treq t) + off /\ dst_off (segment t off) = dst_off (treq t) + off) as (Hp & Es & Ed & Eso & Edo).
  { unfold source, target in *. unfold segment. destruct (single t); cbn [pbytes src_mr dst_mr src_off dst_off].
    - rewrite Ho. repeat split; lia.
    - rewrite !u64_small by lia. repeat split; lia. }
  assert (0 <= off <= pbytes (treq t)) as Ho' by (destruct (single t); lia). clear Ho.
  unfold LbPull in H. rewrite Es, Ed, Eso, Edo, Hr in H. unfold source, target, region in *.
  destruct (regs !! src_mr (treq t)) as [s|]; [|injection H as <- <- <-; split; [done|by left]].
  destruct (regs !! dst_mr (treq t)) as [d|]; [|injection H as <- <- <-; split; [done|by left]]. cbn [from_option id] in *.
  destruct (_ || _); [injection H as <- <- <-; split; [done|by left]|]. destruct (memcpy _ _ _ m) as [m1|] eqn:M; [|done]. injection H as <- <- <-.
  split; [done|]. right. intros x. rewrite (memcpy_lookup _ _ _ _ _ x M). rewrite !u64_small by lia. rewrite Z2Nat.id by lia.
  replace (addr d + (dst_off (treq t) + off)) with (addr d + dst_off (treq t) + off) by lia.
  case_decide; [|done]. f_equal. lia.
Qed.

(** How far a call is, and what has arrived of it. *)
Definition progress (w : Wrapper) (t : Thread) : Prop :=
  match result t with
  | Some true => copied t (size t) (backend_ w).2
  | Some false => True
  | None =>
      match waiting t with
      | None => next t = Some 0
      | Some d => exists off, begins t off /\ pending w !! d = Some (mkXfer kPull (segment t off)) /\
          next t = next_off t off /\ copied t off (backend_ w).2 /\
          (done_ w !! d = Some true -> copied t (off + pbytes (segment t off)) (backend_ w).2)
      end
  end.

Record AInv (w : Wrapper) : Prop := {
  a_regions : regions_ (backend_ w).1 = regs; a_addressed : Forall addressed (threads w); a_apart : apart (threads w);
  a_outside : forall x, (forall i t, threads w !! i = Some t -> ~ in_target t x) -> (backend_ w).2 !! x = m0 !! x;
  a_progress : forall i t, threads w !! i = Some t -> progress w t;
  a_ids : forall i t d, threads w !! i = Some t -> waiting t = Some d -> d < Sched.next_id_ (Sched.sched (run_ w));
  a_unique : forall i j t u d, threads w !! i = Some t -> threads w !! j = Some u -> waiting t = Some d -> waiting u = Some d -> i = j;
  a_queued : forall it, it ∈ Sched.all_queued (Sched.sched (run_ w)) -> done_ w !! Sched.id it = None /\
    exists i t, threads w !! i = Some t /\ waiting t = Some (Sched.id it) /\ result t = None }.

(** A caller that moves keeps its transfer. *)
Lemma keeps_transfer (l : list Thread) i t t' : l !! i = Some t -> treq t' = treq t -> tkind t' = tkind t ->
  (Forall addressed l -> Forall addressed (<[i := t']> l)) /\ (apart l -> apart (<[i := t']> l)) /\
  forall x, (forall j u, <[i := t']> l !! j = Some u -> ~ in_target u x) -> forall j u, l !! j = Some u -> ~ in_target u x.
Proof.
  intros Ht Er Ek. pose proof (lookup_lt_Some _ _ _ Ht) as Lt.
  assert (forall j u, <[i := t']> l !! j = Some u -> exists v, l !! j = Some v /\ treq u = treq v) as Same.
  { intros j u Hu. destruct (decide (i = j)) as [<-|N]; [rewrite list_lookup_insert_eq in Hu by done; injection Hu as <-; by exists t|].
    rewrite list_lookup_insert_ne in Hu by done. by exists u. }
  unfold apart, addressed, in_source, in_target, source, target, size. split; [|split].
  - intros F. apply Forall_insert; [done|]. rewrite Er, Ek. by apply (proj1 (Forall_lookup _ _) F i).
  - intros [A1 A2]. split; [intros j k u v x Hu Hv|intros j k u v x Hu Hv N]; destruct (Same _ _ Hu) as (u0 & Hu0 & ->);
      destruct (Same _ _ Hv) as (v0 & Hv0 & ->); [by apply (A1 j k)|by apply (A2 j k)].
  - intros x H j u Hu. destruct (decide (i = j)) as [<-|N].
    + assert (u = t) as -> by congruence. specialize (H i t'). rewrite list_lookup_insert_eq in H by done. rewrite Er in H. by apply H.
    + apply (H j u). by rewrite list_lookup_insert_ne.
Qed.

Lemma copied_segment t off m : plain t -> begins t off -> copied t (off + pbytes (segment t off)) m ->
  match next_off t off with
  | Some o => begins t o /\ copied t o m
  | None => copied t (size t) m
  end.
Proof.
  intros (P1 & P2 & P3 & _) Ho. unfold begins, next_off, segment, size in *. destruct (single t) eqn:Sg.
  - rewrite Ho. by rewrite Z.add_0_l.
  - unfold single in Sg. apply orb_false_iff in Sg as [S1 S2]. reflect_bools. cbn [pbytes]. intros C. rewrite u64_small by lia.
    destruct (Z.ltb_spec (off + seg t) (pbytes (treq t))).
    + split; [lia|]. by rewrite Z.min_l in C by lia.
    + by replace (off + Z.min (seg t) (pbytes (treq t) - off)) with (pbytes (treq t)) in C by lia.
Qed.

Lemma segment_fits t off : plain t -> begins t off -> 0 <= off /\ 0 <= pbytes (segment t off) /\ off + pbytes (segment t off) <= size t.
Proof. intros (P1 & P2 & _) Ho. unfold begins, segment, size in *. destruct (single t); cbn [pbytes]; lia. Qed.

(** What a segment copies does not disturb what has arrived, and has arrived. *)
Lemma copied_after w i t off m' : AInv w -> Forall plain (threads w) -> threads w !! i = Some t -> begins t off ->
  (forall x, m' !! x = if decide (target t + off <= x < target t + off + pbytes (segment t off)) then (backend_ w).2 !! (source t + (x - target t))
                       else (backend_ w).2 !! x) ->
  (forall x, (forall j u, threads w !! j = Some u -> ~ in_target u x) -> m' !! x = m0 !! x) /\
  (forall j u k, threads w !! j = Some u -> k <= size u -> copied u k (backend_ w).2 -> copied u k m') /\
  (copied t off (backend_ w).2 -> copied t (off + pbytes (segment t off)) m').
Proof.
  intros A Pl Ht Ho E. destruct (segment_fits t off (proj1 (Forall_lookup _ _) Pl i t Ht) Ho) as (H0 & Hp & Hl).
  assert (forall y, in_source t y -> (backend_ w).2 !! y = m0 !! y) as Src.
  { intros y Hy. apply (a_outside _ A). intros j u Hu. by apply (proj1 (a_apart _ A) i j t u y). }
  split; [|split].
  - intros x Hx. rewrite E. case_decide as D; [|by apply (a_outside _ A)]. exfalso. apply (Hx i t Ht). unfold in_target. lia.
  - intros j u k Hu Hk C q Hq. rewrite E. case_decide as D; [|by apply C].
    assert (i = j) as ->. { destruct (decide (i = j)); [done|]. exfalso. apply (proj2 (a_apart _ A) i j t u (target u + q)); try done; unfold in_target; lia. }
    assert (u = t) as -> by congruence. replace (target t + q - target t) with q by lia. apply Src. unfold in_source. lia.
  - intros C q Hq. rewrite E. case_decide as D; [|apply C; lia]. replace (target t + q - target t) with q by lia. apply Src. unfold in_source. lia.
Qed.

Lemma insert_cases (l : list Thread) i t' j u : <[i := t']> l !! j = Some u -> j = i /\ u = t' \/ j <> i /\ l !! j = Some u.
Proof. intros H. apply list_lookup_insert_Some in H as [(-> & -> & _)|[N H]]; [by left|right; split; [congruence|done]]. Qed.

Lemma Return_AInv K i t ok w : WInv K w -> AInv w -> threads w !! i = Some t -> (ok = true -> copied t (size t) (backend_ w).2) -> result t = None ->
  (forall d, waiting t = Some d -> is_Some (done_ w !! d)) -> AInv (Return i t ok w).
Proof.
  intros I A Ht Hok Hr Hd. set (t' := mkThread (tkind t) (treq t) (tprio t) (ttenant t) (seg t) None None (Some ok)).
  destruct (keeps_transfer (threads w) i t t' Ht eq_refl eq_refl) as (K1 & K2 & K3). pose proof (lookup_lt_Some _ _ _ Ht) as Lt.
  pose proof (insert_cases (threads w) i t') as Cases.
  destruct A as [A1 A2 A3 A4 A5 A6 A7 A8]. constructor; try (cbn [threads Return]; fold t'; by auto).
  - intros x Hx. apply A4. apply K3. exact Hx.
  - intros j u Hu. destruct (Cases j u Hu) as [[-> ->]|[N Hu']]; [|exact (A5 j u Hu')]. unfold progress. cbn [result t']. by destruct ok; [apply Hok|].
  - intros j u d Hu Hw. destruct (Cases j u Hu) as [[-> ->]|[N Hu']]; [done|]. by eapply A6.
  - intros j k u v d Hu Hv Hw Hw'. destruct (Cases j u Hu) as [[-> ->]|[_ Hu']]; [done|]. destruct (Cases k v Hv) as [[-> ->]|[_ Hv']]; [done|]. by eapply A7.
  - intros it X. destruct (A8 it X) as (D & j & u & Hu & Hw & Hru). split; [done|]. destruct (decide (i = j)) as [<-|N].
    + assert (u = t) as -> by congruence. destruct (Hd _ Hw) as [? Y]. by rewrite D in Y.
    + exists j, u. cbn [threads Return]. by rewrite list_lookup_insert_ne.
Qed.

Lemma SubmitOne_AInv K i t off w : WInv K w -> AInv w -> threads w !! i = Some t -> result t = None -> next t = Some off -> begins t off ->
  copied t off (backend_ w).2 -> (forall d, waiting t = Some d -> is_Some (done_ w !! d)) -> AInv (SubmitOne i t off w).
Proof.
  intros I A Ht Hr Hn Hb Hc Hd. pose proof (lookup_lt_Some _ _ _ Ht) as Lt. pose proof (submit_facts K i t off w I Ht Hn) as Sf. unfold SubmitOne.
  set (s := Sched.sched (run_ w)) in *. set (n := pbytes (segment t off)) in *. cbv zeta in Sf.
  destruct (Sched.Submit (tprio t) (ttenant t) n s) as [wid s']. destruct Sf as (Ew & Nx & AQ).
  set (t' := mkThread (tkind t) (treq t) (tprio t) (ttenant t) (seg t) (next_off t off) (Some wid) None) in *.
  destruct (keeps_transfer (threads w) i t t' Ht eq_refl eq_refl) as (K1 & K2 & K3).
  pose proof (insert_cases (threads w) i t') as Cases.
  assert (done_ w !! wid = None) as Dw by (apply eq_None_not_Some; intros X%(w_done _ _ I); fold s in X; lia).
  destruct A as [A1 A2 A3 A4 A5 A6 A7 A8]. fold s in A6, A8.
  constructor; cbn [threads run_ pending done_ backend_ Sched.sched]; [by auto|by auto|by auto|..].
  - intros x Hx. apply A4. by apply K3.
  - intros j u Hu. destruct (Cases j u Hu) as [[-> ->]|[N Hu']].
    + unfold progress. cbn [result waiting t' next pending done_ backend_]. exists off. split; [done|]. split.
      { rewrite lookup_insert_eq. do 2 f_equal. by apply (proj1 (Forall_lookup _ _) A2 i t Ht). }
      split; [done|]. split; [done|]. by rewrite Dw.
    + specialize (A5 j u Hu'). unfold progress in *. cbn [pending done_ backend_]. destruct (result u); [done|]. destruct (waiting u) as [d|] eqn:Hw; [|done].
      rewrite lookup_insert_ne; [done|]. specialize (A6 j u d Hu' Hw). lia.
  - intros j u d Hu Hw. rewrite Nx. destruct (Cases j u Hu) as [[-> ->]|[N Hu']]; [injection Hw as <-; lia|]. specialize (A6 j u d Hu' Hw). lia.
  - intros j k u v d Hu Hv Hw Hw'. destruct (Cases j u Hu) as [[-> ->]|[_ Hu']]; destruct (Cases k v Hv) as [[-> ->]|[_ Hv']]; try done.
    + injection Hw as <-. specialize (A6 k v wid Hv' Hw'). lia.
    + injection Hw' as <-. specialize (A6 j u wid Hu' Hw). lia.
    + by eapply A7.
  - intros it X. rewrite AQ in X. apply elem_of_cons in X as [->|X]; [split; [done|]; exists i, t'; by rewrite list_lookup_insert_eq|].
    destruct (A8 it X) as (D & j & u & Hu & Hw & Hru). split; [done|]. destruct (decide (i = j)) as [<-|N].
    + assert (u = t) as -> by congruence. destruct (Hd _ Hw) as [? Y]. by rewrite D in Y.
    + exists j, u. by rewrite list_lookup_insert_ne.
Qed.

(** The dispatcher has performed the segment of a caller that waits for it. *)
Lemma dispatched_AInv K w w' i t off it c m' b' :
  WInv K w -> AInv w -> threads w !! i = Some t -> waiting t = Some (Sched.id it) -> result t = None -> begins t off ->
  pending w !! Sched.id it = Some (mkXfer kPull (segment t off)) -> next t = next_off t off -> copied t off (backend_ w).2 ->
  (m' = (backend_ w).2 /\ c = kInvalidCompletionId \/ forall x, m' !! x =
     if decide (target t + off <= x < target t + off + pbytes (segment t off)) then (backend_ w).2 !! (source t + (x - target t)) else (backend_ w).2 !! x) ->
  regions_ b' = regs -> backend_ w' = (b', m') -> threads w' = threads w -> pending w' = pending w ->
  done_ w' = <[Sched.id it := if c =? kInvalidCompletionId then false else LbWait c]> (done_ w) ->
  Sched.all_queued (Sched.sched (run_ w)) ≡ₚ it :: Sched.all_queued (Sched.sched (run_ w')) ->
  Sched.next_id_ (Sched.sched (run_ w')) = Sched.next_id_ (Sched.sched (run_ w)) -> AInv w'.
Proof.
  intros I A Ht Hw Hr Ho Pe Hn Hc Eff Hreg Eb Eth Ep Ed AQ Nx.
  assert ((forall x, (forall j u, threads w !! j = Some u -> ~ in_target u x) -> m' !! x = m0 !! x) /\
    (forall j u k, threads w !! j = Some u -> k <= size u -> copied u k (backend_ w).2 -> copied u k m') /\
    (c <> kInvalidCompletionId -> copied t (off + pbytes (segment t off)) m')) as (Out & Keep & New).
  { destruct Eff as [[-> ->]|Eff]; [split; [apply (a_outside _ A)|]; split; [done|by intros []]|].
    destruct (copied_after w i t off m' A (w_plain _ _ I) Ht Ho Eff) as (E1 & E2 & E3). auto. }
  assert (forall x, x ∈ Sched.all_queued (Sched.sched (run_ w')) -> Sched.id x <> Sched.id it) as Fresh.
  { intros x X Eid. pose proof (Sched.r_ids _ (w_run _ _ I)) as ND. rewrite (Sched.r_items _ (w_run _ _ I)), AQ in ND. cbn in ND.
    apply NoDup_cons in ND as [ND _]. apply ND. rewrite <- Eid. apply list_elem_of_fmap_2, elem_of_app. by left. }
  pose proof A as [A1 A2 A3 A4 A5 A6 A7 A8]. constructor; rewrite ?Eb, ?Eth, ?Nx; cbn [fst snd]; try done.
  - intros j u Hu. specialize (A5 j u Hu). unfold progress in *. rewrite Eb, Ep, Ed. cbn [snd].
    destruct (result u) as [[|]|]; [apply (Keep j u); [done|lia|done]|done|]. destruct (waiting u) as [d|] eqn:Hu'; [|done].
    destruct (segment_fits t off (proj1 (Forall_lookup _ _) (w_plain _ _ I) i t Ht) Ho) as (F0 & F1 & F2).
    destruct (decide (Sched.id it = d)) as [<-|Nd].
    + assert (i = j) as <- by (by eapply A7). assert (u = t) as -> by congruence. exists off. rewrite lookup_insert_eq. do 3 (split; [done|]).
      split; [apply (Keep i t); [done|lia|done]|]. destruct (Z.eqb_spec c kInvalidCompletionId); [done|]. intros _. by apply New.
    + destruct A5 as (o & O1 & O2 & O3 & O4 & O5). exists o. rewrite lookup_insert_ne by done. do 3 (split; [done|]).
      destruct (segment_fits u o (proj1 (Forall_lookup _ _) (w_plain _ _ I) j u Hu) O1) as (L0 & L1 & L2).
      split; [apply (Keep j u); [done|lia|done]|]. intros Hd. apply (Keep j u); [done|lia|by apply O5].
  - intros x X. rewrite Ed, lookup_insert_ne by (intros E; by apply (Fresh x X)). apply A8. rewrite AQ. by right.
Qed.

Lemma Advance_AInv K i w : WInv K w -> AInv w -> AInv (Advance i w).
Proof.
  intros I A. unfold Advance. destruct (threads w !! i) as [t|] eqn:Ht; [|done]. destruct (result t) eqn:Hr; [done|].
  pose proof (a_progress _ A i t Ht) as P. unfold progress in P. rewrite Hr in P.
  pose proof (proj1 (Forall_lookup _ _) (w_plain _ _ I) i t Ht) as Pl. destruct (waiting t) as [d|] eqn:Hw.
  - destruct P as (off & Ho & _ & Hn & _ & Hc). destruct (done_ w !! d) as [[|]|] eqn:Hd; [| |done].
    + pose proof (copied_segment t off _ Pl Ho (Hc eq_refl)) as C. rewrite <- Hn in C. destruct (next t) as [o|] eqn:En.
      * eapply SubmitOne_AInv; try done; try apply C. intros d' E. rewrite Hw in E. injection E as <-. by rewrite Hd.
      * eapply Return_AInv; try done. intros d' E. rewrite Hw in E. injection E as <-. by rewrite Hd.
    + eapply Return_AInv; try done. intros d' E. rewrite Hw in E. injection E as <-. by rewrite Hd.
  - rewrite P. eapply SubmitOne_AInv; try done.
    + unfold begins, size. destruct (single t) eqn:Sg; [done|]. unfold single in Sg. apply orb_false_iff in Sg as [S1 S2]. reflect_bools. destruct Pl as (_ & ? & _). lia.
    + intros j Hj. lia.
    + intros d. by rewrite Hw.
Qed.

Lemma Dispatch_AInv K w w' : WInv K w -> AInv w -> Dispatch w = Done w' -> AInv w'.
Proof.
  intros I A H. pose proof (w_run _ _ I) as R. unfold Dispatch in H. pose proof (Sched.TryNext_spec _ (Sched.r_sinv _ R)) as Sp.
  set (s := Sched.sched (run_ w)) in *. destruct (Sched.TryNext s) as [[it|] s1].
  2: { destruct Sp as (_ & (En & _) & _ & Same). injection H as <-.
    assert (Sched.all_queued s1 = Sched.all_queued s) as AQ.
    { unfold Sched.all_queued, Sched.queued. pose proof (proj1 (Same Sched.P0)) as E0. pose proof (proj1 (Same Sched.P1)) as E1.
      pose proof (proj1 (Same Sched.P2)) as E2. cbn [Sched.classes_] in E0, E1, E2. by rewrite E0, E1, E2. }
    destruct A as [A1 A2 A3 A4 A5 A6 A7 A8]. fold s in A6, A8. constructor; cbn [run_ Sched.sched threads backend_ done_]; rewrite ?AQ, ?En; done. }
  destruct Sp as (_ & (En & Ec & Eb & _) & (q & Tq & _ & _ & P & _ & Oth) & _).
  assert (Sched.all_queued s ≡ₚ it :: Sched.all_queued s1) as AQ.
  { apply (Sched.all_queued_frame (Sched.priority it)); [|done]. intros p' N. unfold Sched.queued. by rewrite (proj1 (Oth p' N)). }
  destruct (a_queued _ A it ltac:(fold s; rewrite AQ; by left)) as (Dn & i & t & Ht & Hw & Hr).
  pose proof (a_progress _ A i t Ht) as Pr. unfold progress in Pr. rewrite Hr, Hw in Pr. destruct Pr as (off & Ho & Pe & Hn & Hc & _).
  rewrite Pe in H. unfold perform in H. cbn [kind xreq bPull loopback] in H.
  destruct (LbPull (segment t off) (backend_ w).1 (backend_ w).2) as [|[[c b'] m']] eqn:Lb; [done|]. injection H as <-.
  pose proof (proj1 (Forall_lookup _ _) (w_plain _ _ I) i t Ht) as Pl.
  destruct (segment_effect t off _ _ _ _ _ (proj1 (Forall_lookup _ _) (a_addressed _ A) i t Ht) Pl Ho (a_regions _ A) Lb) as [Hreg Eff].
  destruct (Sched.r_maps _ R it) as [Mc Mb]; [apply elem_of_app; left; fold s; rewrite AQ; by left|]. fold s in Mc, Mb. rewrite <- Ec in Mc. rewrite <- Eb in Mb.
  pose proof (Sched.OnComplete_classes _ _ _ _ Mc Mb) as Oc. destruct (Sched.OnComplete (Sched.id it) s1) as [okc s2]. cbn [snd]. destruct Oc as (_ & Nx & _ & _ & Cl).
  assert (Sched.all_queued s2 = Sched.all_queued s1) as AQ2.
  { unfold Sched.all_queued, Sched.queued. pose proof (Cl Sched.P0) as E0. pose proof (Cl Sched.P1) as E1. pose proof (Cl Sched.P2) as E2.
    cbn [Sched.classes_] in E0, E1, E2. by rewrite E0, E1, E2. }
  eapply dispatched_AInv; try done.
  - cbn [run_ Sched.sched]. fold s. by rewrite AQ, AQ2.
  - cbn [run_ Sched.sched]. by rewrite Nx, En.
Qed.

Lemma run_AInv K xs : forall w w', WInv K w -> AInv w -> run xs w = Done w' -> AInv w'.
Proof.
  induction xs as [|x xs IH]; intros w w' I A H; simpl in H; [by injection H as <-|].
  destruct (step x w) as [|w1] eqn:E; [done|]. destruct (step_inv K x w w1 I E) as (I1 & _ & _). apply (IH w1 w' I1); [|done].
  destruct x as [i|]; simpl in E; [injection E as <-; by eapply Advance_AInv|exact (Dispatch_AInv K w w1 I A E)].
Qed.

(** [C18] What has returned as pulled is there. Calls of ScheduledPull on the loopback backend
    share the queue, cut into segments that are dispatched in any order between the calls;
    if their addresses do not wrap around and no one writes where another reads or writes,
    then in every state each call that has returned true has its whole source at its
    target, and no memory outside the targets has changed. *)
Theorem transfers_arrive o b ts xs w :
  0 <= Sched.max_starvation_skips o < 2 ^ 32 -> Forall fresh ts -> Z.of_nat (total ts) < 2 ^ 64 - 1 ->
  regions_ b = regs -> Forall addressed ts -> apart ts -> run xs (new_wrapper o (b, m0) ts) = Done w ->
  (forall i t, threads w !! i = Some t -> result t = Some true -> copied t (size t) (backend_ w).2) /\
  (forall x, (forall i t, threads w !! i = Some t -> ~ in_target t x) -> (backend_ w).2 !! x = m0 !! x).
Proof.
  intros K F Ids Hr Ad Ap H. pose proof (new_inv o (b, m0) ts K F Ids) as I.
  assert (forall i t, ts !! i = Some t -> waiting t = None /\ result t = None /\ next t = Some 0) as New.
  { intros i t Ht. destruct (proj1 (Forall_lookup _ _) F i t Ht) as [E _]. rewrite E. repeat split; reflexivity. }
  assert (AInv (new_wrapper o (b, m0) ts)) as A.
  { constructor; try done; cbn [threads new_wrapper].
    - intros i t Ht. destruct (New i t Ht) as (E1 & E2 & E3). unfold progress. by rewrite E2, E1.
    - intros i t d Ht Hw. destruct (New i t Ht) as (E1 & _). congruence.
    - intros i j t u d Ht Hu Hw. destruct (New i t Ht) as (E1 & _). congruence.
    - intros it X. by apply elem_of_nil in X. }
  apply (run_AInv _ xs _ _ I) in H; [|done]. split; [|apply (a_outside _ H)].
  intros i t Ht Hres. pose proof (a_progress _ H i t Ht) as P. unfold progress in P. by rewrite Hres in P.
Qed.
End Arrive.

(** ** Examples *)

(** A pull of five bytes in segments of two, of low priority, and one of two bytes. The
    shares of the classes are of 100 and 0 of 100 bytes. *)
Definition ex_opts : Sched.Options := Sched.mkOptions 100 100 0 0 2.
Definition ex_calls : list Thread := [call kPull (mkPull 2 0 1 0 5) Sched.P2 7 2; call kPull (mkPull 2 6 1 3 2) Sched.P0 8 2].
Definition ex_backend : Loopback := (LbRegisterRegion 200 8 (LbRegisterRegion 100 5 new_loopback).2).2.
Definition ex_memory : memory := ex_mem 100 [1; 2; 3; 4; 5] ∪ ex_mem 200 [0; 0; 0; 0; 0; 0; 0; 0].
Definition ex_round : list input := [IAdvance 1; IAdvance 0; IDispatch].
Definition ex_start : Wrapper (B := loopback) := new_wrapper (B := loopback) ex_opts (ex_backend, ex_memory) ex_calls.
Definition ex_end : Wrapper (B := loopback) := match run (B := loopback) (concat (replicate 13 ex_round)) ex_start with Done w => w | Fault => ex_start end.

(** All is there after thirteen rounds. *)
Example ex_result : (result <$> threads ex_end) = [Some true; Some true] /\
  (byte_val <$> default [] (load 200 8 (backend_ ex_end).2)) = [1; 2; 3; 4; 5; 0; 4; 5].
Proof. vm_compute. split; reflexivity. Qed.

Definition ran {A} (o : outcome A) : bool := match o with Done _ => true | Fault => false end.

Lemma ex_ran : run (B := loopback) (concat (replicate 13 ex_round)) ex_start = Done ex_end.
Proof.
  assert (ran (run (B := loopback) (concat (replicate 13 ex_round)) ex_start) = true) as H by (vm_compute; reflexivity).
  unfold ex_end. destruct (run (concat (replicate 13 ex_round)) ex_start); [discriminate H|reflexivity].
Qed.

Lemma ex_fresh : Forall fresh ex_calls.
Proof. by repeat constructor. Qed.

Lemma transfers_return_witness : all_returned ex_end.
Proof.
  apply (transfers_return (B := loopback) ex_opts (ex_backend, ex_memory) ex_calls (replicate 13 ex_round)).
  - simpl. lia.
  - exact ex_fresh.
  - vm_compute. reflexivity.
  - apply Forall_replicate. exists [IAdvance 1; IAdvance 0]. split; [reflexivity|]. intros [|[|i]] Hi; [by right; left|by left|simpl in Hi; lia].
  - vm_compute. reflexivity.
  - exact ex_ran.
Defined.

Lemma transfers_arrive_witness : run (B := loopback) (concat (replicate 13 ex_round)) ex_start = Done ex_end /\
  (forall i t, threads ex_end !! i = Some t -> result t = Some true -> copied (regions_ ex_backend) ex_memory t (size t) (backend_ ex_end).2).
Proof.
  split; [exact ex_ran|].
  refine (proj1 (transfers_arrive (regions_ ex_backend) ex_memory ex_opts ex_backend ex_calls (concat (replicate 13 ex_round)) ex_end _ _ _ _ _ _ _)).
  - simpl. lia.
  - exact ex_fresh.
  - vm_compute. reflexivity.
  - reflexivity.
  - repeat constructor; vm_compute; try done.
  - split; intros [|[|i]] [|[|j]] t u x Ht Hu; try discriminate Ht; try discriminate Hu; injection Ht as <-; injection Hu as <-; unfold in_source, in_target;
      change (source (regions_ ex_backend) (call kPull (mkPull 2 0 1 0 5) Sched.P2 7 2)) with 100;
      change (source (regions_ ex_backend) (call kPull (mkPull 2 6 1 3 2) Sched.P0 8 2)) with 103;
      change (target (regions_ ex_backend) (call kPull (mkPull 2 0 1 0 5) Sched.P2 7 2)) with 200;
      change (target (regions_ ex_backend) (call kPull (mkPull 2 6 1 3 2) Sched.P0 8 2)) with 206; cbn [size treq call pbytes]; try lia; try congruence.
  - exact ex_ran.
Defined.
End Nixl.
