(* ===== verification/Replication.v ===== *)
(** * Replication to a standby

    The warm standby of core-abi/src/replication: the cursor of replication_cursor.h, the
    filter of warm_filter.h, the sources of replica_source.h and grpc_replica_source.cpp,
    and [ReplicationConsumer] with its subscription to the events of the primary. The
    callback of a poller is a step per call it makes on the source, the standby, the
    cursor and the counter ([apply_step]; [callback_dispatch]: together they are
    [EventCbDispatch]), so other clients of both nodes come between them, and other
    pollers where there are several. [Start] is two steps, as [Stop] may come between;
    [Stop] is one, the join of the poller. Two calls of [Start] and [Stop] that overlap
    in another way, and [thread_], which only [Stop] joins, are not modelled.

    The theorems: what a client seals on the primary, a client of the standby finds and
    fetches once the event is applied ([standby_serves]); with one poller a chunk is
    applied at most once and in the order of the events ([applied_once]), with two, which
    a [Stop] inside a [Start] leads to, twice ([two_pollers_apply_twice]); a source over
    the network answers as the node does ([remote_source_agrees]). The examples show the
    chunks that are lost. *)

From S2P Require Import Prelude Mtls Locator Events ArtIndex Lpm StateWal DramTier NvmeTier Ingest ColdTier TierManager HeadlessNode NodeCorrect Abi NodeService.
From stdpp Require Import sorting.
From Stdlib Require Import ZArith Lia.

Open Scope Z_scope.

Module Replication.

Import Locator TierManager Node.

(** ** Cursor and filter *)

Definition ShouldApply (epoch last : Z) : bool := last <? epoch.
Definition Advance (epoch last : Z) : Z := if last <? epoch then epoch else last.

Record WarmPolicy := mkPolicy { max_tier : Z }.
Definition default_policy : WarmPolicy := mkPolicy 1.

Definition tier_idx (t : Events.Tier) : Z :=
  match t with
  | Events.Unspecified => 0 | Events.Hbm => 1 | Events.Pinned => 2 | Events.Dram => 3 | Events.Nvme => 4 | Events.ColdStore => 5
  end.

Record Event := mkEvent { type : Events.EventType; tier : Events.Tier; locator : kv_locator_t; epoch : Z }.

Definition IsWarm (ev : Event) (p : WarmPolicy) : bool :=
  match type ev with
  | Events.Add => (tier_idx Events.Hbm <=? tier_idx (tier ev)) && (tier_idx (tier ev) <=? max_tier p)
  | _ => false
  end.

(** The struct in an event of the stream, which keeps its image. *)
Definition image_locator (p : bytes) : kv_locator_t :=
  let num off n := get_le (field off n p) in
  mkLocator (field 0 16 p) (num 16 8)%nat (field 24 16 p)
    (mkRange (num 40 2) (num 42 2) (num 44 2) (num 46 2) (num 48 4) (num 52 4))%nat (num 56 4)%nat (num 60 4)%nat.

Definition of_stream (e : Events.Event) : Event :=
  mkEvent (Events.type e) (Events.tier e) (image_locator (Events.locator e)) (Events.epoch e).

(** ** Sources *)

(** The chunk path and the bytes. *)
Notation ReplicaChunk := (list bytes * bytes)%type.

Class ReplicaSource := { source : Type; SFetch : kv_locator_t -> source -> code * option ReplicaChunk }.

#[export] Instance InProcessReplicaSource {C : Cold.IColdTier} : ReplicaSource := {| source := Node C; SFetch := ReplicaFetch |}.

Definition ProtoFromLocator (l : kv_locator_t) : NodeService.PLocator :=
  NodeService.mkPLocator (tenant_id l) (model_id_hash l) (prefix_hash l) (Some (range l)) (version l) (flags l).

(** A hash of another length is taken for zeros. *)
Definition chunk_hash (h : bytes) : bytes := if bool_decide (length h = 8%nat) then h else replicate 8 x00.

(** [s] is what the peer answers to the call. *)
Definition GrpcFetch (l : kv_locator_t) (s : NodeService.PLocator -> NodeService.StatusCode * option (code * list bytes * bytes)) : code * option ReplicaChunk :=
  match s (ProtoFromLocator l) with
  | (NodeService.SOK, Some (KV_OK, path, d)) => (KV_OK, Some (chunk_hash <$> path, d))
  | (NodeService.SOK, Some (rc, _, _)) => (rc, None)
  | _ => (KV_E_NOT_FOUND, None)
  end.

#[export] Instance GrpcReplicaSource : ReplicaSource := {| source := NodeService.PLocator -> NodeService.StatusCode * option (code * list bytes * bytes); SFetch := GrpcFetch |}.

(** ** The consumer *)

Section Consumer.
Context (Blake3_128 : bytes -> bytes) {C : Cold.IColdTier}.

Record Consumer := mkConsumer {
  standby_ : Node C; opts_ : WarmPolicy; last_ : Z; running_ : bool; starting : nat; sub_id_ : Z; events_applied_ : Z }.

Definition set_standby (n : Node C) (l : Z) (c : Consumer) : Consumer :=
  mkConsumer n (opts_ c) l (running_ c) (starting c) (sub_id_ c) (events_applied_ c).

Definition new_consumer (standby : Node C) (p : WarmPolicy) : Consumer := mkConsumer standby p 0 false 0 0 0.

(** The clock at the reservation and at the seal, the log of the tree, and what other
    clients of the standby do between the calls of the consumer. *)
Record apply_io := mkApply {
  t_reserve : Z; t_seal : Z; seal_log : art_log;
  after_reserve : list (call C); after_write : list (call C); after_publish : list (call C) }.

Definition calls (cs : list (call C)) (n : Node C) : Node C := fold_left (fun n c => apply Blake3_128 c n) cs n.

Definition fill (slot : Ingest.IngestSlot) (d : bytes) (n : Node C) : Node C :=
  match d with [] => n | _ => EngineWrite (Ingest.addr slot) d n end.

Definition ApplyEvent (fetch : kv_locator_t -> code * option ReplicaChunk) (io : apply_io) (ev : Event) (c : Consumer) : bool * Consumer :=
  if negb (IsWarm ev (opts_ c)) then (false, c)
  else if negb (ShouldApply (epoch ev) (last_ c)) then (false, c)
  else
    match fetch (locator ev) with
    | (KV_OK, chunk) =>
        let '(path, d) := default ([], []) chunk in
        match Reserve (t_reserve io) (locator ev) (zlen d) 0 (model_id_hash (locator ev)) (standby_ c) with
        | ((KV_OK, Some (h, slot)), n1) =>
            let n2 := calls (after_write io) (fill slot d (calls (after_reserve io) n1)) in
            match Publish h (zlen d) n2 with
            | (KV_OK, n3) =>
                match SealByChunkPath (seal_log io) (t_seal io) h path (calls (after_publish io) n3) with
                | (KV_OK, n4) => (true, set_standby n4 (Advance (epoch ev) (last_ c)) c)
                | (_, n4) => (false, set_standby n4 (last_ c) c)
                end
            | (_, n3) => (false, set_standby n3 (last_ c) c)
            end
        | (_, n1) => (false, set_standby n1 (last_ c) c)
        end
    | _ => (false, set_standby (standby_ c) (Advance (epoch ev) (last_ c)) c)
    end.

Definition EventCbDispatch (fetch : kv_locator_t -> code * option ReplicaChunk) (io : apply_io) (ev : Event) (c : Consumer) :
    bool * Consumer :=
  let '(ok, c') := ApplyEvent fetch io ev c in
  (ok, if ok then mkConsumer (standby_ c') (opts_ c') (last_ c') (running_ c') (starting c') (sub_id_ c') (u64 (events_applied_ c' + 1))
       else c').

(** ** The callback step by step *)

(** Where a poller is in its callback: what it has got, and in [Passing] and [Storing]
    whether the chunk is on the standby, with the cursor as [Advance] loaded it. *)
Inductive phase :=
| Got (ev : Event) | Checked (ev : Event) | Fetched (ev : Event) (path : list bytes) (d : bytes)
| Reserved (ev : Event) (path : list bytes) (d : bytes) (h : Z) (slot : Ingest.IngestSlot)
| Written (ev : Event) (path : list bytes) (d : bytes) (h : Z) | Published (ev : Event) (path : list bytes) (h : Z)
| Passing (ev : Event) (ok : bool) | Storing (ev : Event) (ok : bool) (cur : Z) | Counting (ev : Event).

Definition with_standby (n : Node C) (c : Consumer) : Consumer := set_standby n (last_ c) c.
Definition count_event (c : Consumer) : Consumer :=
  mkConsumer (standby_ c) (opts_ c) (last_ c) (running_ c) (starting c) (sub_id_ c) (u64 (events_applied_ c + 1)).

(** One call of [ApplyEvent] or [EventCbDispatch] on the source, the standby, the cursor
    or the counter; the event when its chunk is sealed; where the callback goes on. *)
Definition apply_step (fetch : kv_locator_t -> code * option ReplicaChunk) (now : Z) (lg : art_log) (ph : phase) (c : Consumer) :
    option phase * list Event * Consumer :=
  match ph with
  | Got ev => (if IsWarm ev (opts_ c) && ShouldApply (epoch ev) (last_ c) then Some (Checked ev) else None, [], c)
  | Checked ev =>
      match fetch (locator ev) with
      | (KV_OK, chunk) => let '(path, d) := default ([], []) chunk in (Some (Fetched ev path d), [], c)
      | _ => (Some (Passing ev false), [], c)
      end
  | Fetched ev path d =>
      match Reserve now (locator ev) (zlen d) 0 (model_id_hash (locator ev)) (standby_ c) with
      | ((KV_OK, Some (h, slot)), n) => (Some (Reserved ev path d h slot), [], with_standby n c)
      | (_, n) => (None, [], with_standby n c)
      end
  | Reserved ev path d h slot => (Some (Written ev path d h), [], with_standby (fill slot d (standby_ c)) c)
  | Written ev path d h =>
      match Publish h (zlen d) (standby_ c) with
      | (KV_OK, n) => (Some (Published ev path h), [], with_standby n c)
      | (_, n) => (None, [], with_standby n c)
      end
  | Published ev path h =>
      match SealByChunkPath lg now h path (standby_ c) with
      | (KV_OK, n) => (Some (Passing ev true), [ev], with_standby n c)
      | (_, n) => (None, [], with_standby n c)
      end
  | Passing ev ok => (Some (Storing ev ok (last_ c)), [], c)
  | Storing ev ok cur =>
      (if ok then Some (Counting ev) else None, [], if cur <? epoch ev then set_standby (standby_ c) (epoch ev) c else c)
  | Counting ev => (None, [], count_event c)
  end.

(** The whole callback, with what [io] has the other clients of the standby do between
    its calls. *)
Definition between (io : apply_io) (ph : phase) (c : Consumer) : Consumer :=
  match ph with
  | Reserved _ _ _ _ _ => with_standby (calls (after_reserve io) (standby_ c)) c
  | Written _ _ _ _ => with_standby (calls (after_write io) (standby_ c)) c
  | Published _ _ _ => with_standby (calls (after_publish io) (standby_ c)) c
  | _ => c
  end.
Definition clock (io : apply_io) (ph : phase) : Z := match ph with Published _ _ _ => t_seal io | _ => t_reserve io end.

Fixpoint callback (fuel : nat) (fetch : kv_locator_t -> code * option ReplicaChunk) (io : apply_io) (ph : phase) (c : Consumer) :
    list Event * Consumer :=
  match fuel with
  | O => ([], c)
  | S fuel =>
      let '(o, l, c1) := apply_step fetch (clock io ph) (seal_log io) ph c in
      match o with
      | None => (l, c1)
      | Some ph' => let '(l', c2) := callback fuel fetch io ph' (between io ph' c1) in (l ++ l', c2)
      end
  end.

(** ** The live loop *)

Context {C' : Cold.IColdTier}.

(** The primary with its subscriptions and their rings, and the pollers that are in the
    callback. [starting] counts the calls of [Start] that have claimed the flag and not
    yet subscribed. *)
Record System := mkSystem { primary_ : Node C'; subs_ : gmap Z Z; busy : gmap Z phase; next_sub_ : Z; consumer_ : Consumer }.

Definition set_events (s : Events.Stream) (n : Node C') : Node C' :=
  let p := px_ n in set_px (mkPrefix (heap_ p) (next_leaf_ p) (art_ p) (evict_index_ p) (deferred_evicts_ p) s) n.

Definition events_of (s : System) : Events.Stream := events_ (px_ (primary_ s)).

Definition SubscribeEvents (s : System) : Z * System :=
  let '(ring, st) := Events.Subscribe 4096 (events_of s) in
  let id := next_sub_ s in
  (id, mkSystem (set_events st (primary_ s)) (<[id := ring]> (subs_ s)) (busy s) (id + 1) (consumer_ s)).

Definition UnsubscribeEvents (id : Z) (s : System) : System :=
  match subs_ s !! id with
  | None => s
  | Some ring => mkSystem (set_events (Events.Unsubscribe ring (events_of s)) (primary_ s)) (delete id (subs_ s)) (busy s) (next_sub_ s) (consumer_ s)
  end.

Definition set_flags (running : bool) (st : nat) (id : Z) (s : System) : System :=
  let c := consumer_ s in
  mkSystem (primary_ s) (subs_ s) (busy s) (next_sub_ s) (mkConsumer (standby_ c) (opts_ c) (last_ c) running st id (events_applied_ c)).

(** [Start] up to its exchange, and from there. *)
Definition StartClaim (s : System) : System :=
  let c := consumer_ s in
  if running_ c then s else set_flags true (S (starting c)) (sub_id_ c) s.
Definition StartSubscribe (s : System) : System :=
  match starting (consumer_ s) with
  | O => s
  | S k => let '(id, s1) := SubscribeEvents s in set_flags (running_ (consumer_ s)) k id s1
  end.

(** [Stop] joins the poller: while that is in the callback the call does not return, and
    nothing changes that the poller reads. *)
Definition Stop (s : System) : System :=
  let c := consumer_ s in
  if running_ c then
    match busy s !! sub_id_ c with
    | Some _ => s
    | None => let s1 := if sub_id_ c =? 0 then s else UnsubscribeEvents (sub_id_ c) s in set_flags false (starting c) 0 s1
    end
  else s.

(** The poller of a subscription, outside the callback: it polls its ring and enters the
    callback with the event it gets. *)
Definition PollRing (id : Z) (s : System) : System :=
  match subs_ s !! id, busy s !! id with
  | Some ring, None =>
      let '(e, st) := Events.Poll ring (events_of s) in
      mkSystem (set_events st (primary_ s)) (subs_ s)
        (match e with Some e => <[id := Got (of_stream e)]> (busy s) | None => busy s end) (next_sub_ s) (consumer_ s)
  | _, _ => s
  end.

(** The poller inside the callback, by one step. *)
Definition Dispatch (id : Z) (now : Z) (lg : art_log) (s : System) : list Event * System :=
  match busy s !! id with
  | None => ([], s)
  | Some ph =>
      let '(o, l, c) := apply_step (fun l => SFetch (ReplicaSource := InProcessReplicaSource) l (primary_ s)) now lg ph (consumer_ s) in
      (l, mkSystem (primary_ s) (subs_ s) (match o with Some ph' => <[id := ph']> (busy s) | None => delete id (busy s) end)
            (next_sub_ s) c)
  end.

Inductive input :=
| IPrimary (c : call C') | IStandby (c : call C) | IStartClaim | IStartSubscribe | IStop
| IPoll (id : Z) | IDispatch (id : Z) (now : Z) (lg : art_log).

(** The events whose chunks are applied, and the system after the step. *)
Definition step (x : input) (s : System) : list Event * System :=
  match x with
  | IPrimary c => ([], mkSystem (apply Blake3_128 c (primary_ s)) (subs_ s) (busy s) (next_sub_ s) (consumer_ s))
  | IStandby c =>
      ([], mkSystem (primary_ s) (subs_ s) (busy s) (next_sub_ s)
             (with_standby (apply Blake3_128 c (standby_ (consumer_ s))) (consumer_ s)))
  | IStartClaim => ([], StartClaim s)
  | IStartSubscribe => ([], StartSubscribe s)
  | IStop => ([], Stop s)
  | IPoll id => ([], PollRing id s)
  | IDispatch id now lg => Dispatch id now lg s
  end.

Fixpoint run (xs : list input) (s : System) : list Event * System :=
  match xs with
  | [] => ([], s)
  | x :: xs => let '(l, s1) := step x s in let '(l', s2) := run xs s1 in (l ++ l', s2)
  end.

(** ** The callback is one ApplyEvent *)

Lemma callback_S fuel fetch io ph c :
  callback (S fuel) fetch io ph c =
  let '(o, l, c1) := apply_step fetch (clock io ph) (seal_log io) ph c in
  match o with
  | None => (l, c1)
  | Some ph' => let '(l', c2) := callback fuel fetch io ph' (between io ph' c1) in (l ++ l', c2)
  end.
Proof. done. Qed.

Ltac next_call := rewrite callback_S; cbn [apply_step clock between with_standby set_standby standby_ last_ opts_].

(** Its steps, one after the other, are [EventCbDispatch]. *)
Lemma callback_dispatch fetch io ev c :
  callback 9 fetch io (Got ev) c = let '(ok, c') := EventCbDispatch fetch io ev c in (if ok then [ev] else [], c').
Proof.
  unfold EventCbDispatch, ApplyEvent. next_call. destruct (IsWarm _ _); [|done]. cbn [negb andb].
  destruct (ShouldApply _ _); [|done]. cbn [negb between]. next_call.
  destruct (fetch (locator ev)) as [rc ch]. destruct rc; try (cbn; unfold Advance; destruct c; cbn; by destruct (_ <? _)).
  destruct (default _ ch) as [path d]. next_call. destruct (Reserve _ _ _ _ _ _) as [[rr o] n1].
  destruct rr; try done. destruct o as [[h slot]|]; [|done]. next_call. next_call. unfold with_standby. cbn [set_standby standby_ last_].
  destruct (Publish _ _ _) as [rp n3]. destruct rp; try done. next_call. unfold with_standby. cbn [set_standby standby_ last_].
  destruct (SealByChunkPath _ _ _ _ _) as [rs n4]. destruct rs; try done.
  cbn. unfold Advance. destruct c. cbn. by destruct (_ <? _).
Qed.

(** ** One poller *)

(** The only subscription is the one [sub_id_] names, while the loop runs, and only its
    poller is in the callback. *)
Definition tracked (s : System) : Prop :=
  let c := consumer_ s in
  0 < next_sub_ s /\ (starting c <= 1)%nat /\
  (running_ c = false -> starting c = 0%nat /\ sub_id_ c = 0) /\ (starting c = 1%nat -> sub_id_ c = 0) /\
  (forall id, is_Some (subs_ s !! id) -> id = sub_id_ c /\ id <> 0) /\
  (forall id, is_Some (busy s !! id) -> is_Some (subs_ s !! id)).

Lemma apply_step_flags fetch now lg ph c o l c' : apply_step fetch now lg ph c = (o, l, c') ->
  running_ c' = running_ c /\ starting c' = starting c /\ sub_id_ c' = sub_id_ c.
Proof.
  destruct ph as [ev|ev|ev path d|ev path d h slot|ev path d h|ev path h|ev ok|ev ok cur|ev]; cbn [apply_step].
  - by intros [= _ _ <-].
  - destruct (fetch _) as [rc ch]. destruct rc; try by intros [= _ _ <-]. destruct (default _ ch). by intros [= _ _ <-].
  - destruct (Reserve _ _ _ _ _ _) as [[rr [[h slot]|]] n]; destruct rr; by intros [= _ _ <-].
  - by intros [= _ _ <-].
  - destruct (Publish _ _ _) as [rp n]; destruct rp; by intros [= _ _ <-].
  - destruct (SealByChunkPath _ _ _ _ _) as [rs n]; destruct rs; by intros [= _ _ <-].
  - by intros [= _ _ <-].
  - destruct (_ <? _); by intros [= _ _ <-].
  - by intros [= _ _ <-].
Qed.

Lemma step_tracked x s : tracked s -> (x = IStop -> starting (consumer_ s) = 0%nat) -> tracked (step x s).2.
Proof.
  intros T0 O. pose proof T0 as (N & L & F & Z0 & T & Bz). destruct x as [c|c| | | |id|id now lg]; cbn [step snd]; try done.
  - unfold StartClaim. destruct (running_ (consumer_ s)) eqn:R; [exact T0|]. destruct (F eq_refl) as [F1 F2]. unfold tracked. cbn. rewrite F1, F2.
    split_and!; try done; try lia. intros id I. destruct (T id I). lia.
  - unfold StartSubscribe, SubscribeEvents. destruct (starting (consumer_ s)) as [|k] eqn:K; [exact T0|].
    assert (k = 0%nat) as -> by lia. specialize (Z0 eq_refl). unfold tracked. cbn. split; [lia|]. split; [lia|].
    split; [intros R; destruct (F R); lia|]. split; [lia|]. split.
    + intros id. rewrite lookup_insert_is_Some'. intros [<-|I]; [lia|]. destruct (T id I). lia.
    + intros id I. destruct (T id (Bz id I)). lia.
  - specialize (O eq_refl). unfold Stop. destruct (running_ (consumer_ s)); [|exact T0].
    destruct (busy s !! sub_id_ (consumer_ s)) eqn:B; [exact T0|]. unfold tracked.
    assert (Nb : forall id, is_Some (busy s !! id) -> False).
    { intros id I. destruct (T id (Bz id I)) as [-> _]. rewrite B in I. by destruct I. }
    assert (G : forall id, is_Some (subs_ (if sub_id_ (consumer_ s) =? 0 then s else UnsubscribeEvents (sub_id_ (consumer_ s)) s) !! id) -> False).
    { intros id. destruct (Z.eqb_spec (sub_id_ (consumer_ s)) 0) as [E|E]; [intros I; destruct (T id I); congruence|].
      unfold UnsubscribeEvents. destruct (subs_ s !! sub_id_ (consumer_ s)) eqn:S; cbn.
      - rewrite lookup_delete_is_Some. intros [Ne I]. by destruct (T id I).
      - intros I. destruct (T id I) as [-> _]. rewrite S in I. by destruct I. }
    cbn. rewrite O. split; [|split; [lia|split; [done|split; [done|split]]]].
    + destruct (_ =? 0); [done|]. unfold UnsubscribeEvents. by destruct (subs_ s !! _).
    + intros id I. by destruct (G id I).
    + intros id I. destruct (Nb id). destruct (_ =? 0); [done|]. revert I. unfold UnsubscribeEvents. by destruct (subs_ s !! _).
  - unfold PollRing. destruct (subs_ s !! id) as [ring|] eqn:S; [|exact T0]. destruct (busy s !! id) eqn:B; [exact T0|].
    destruct (Events.Poll _ _) as [e st]. unfold tracked. cbn. split_and!; try done. intros id'. destruct e; [|by apply Bz].
    rewrite lookup_insert_is_Some'. intros [<-|I]; [by rewrite S|by apply Bz].
  - unfold Dispatch. destruct (busy s !! id) as [ph|] eqn:B; [|exact T0]. destruct (apply_step _ _ _ _ _) as [[o l] c] eqn:E.
    destruct (apply_step_flags _ _ _ _ _ _ _ _ E) as (R & S & I). unfold tracked. cbn. rewrite R, S, I. split_and!; try done.
    intros id'. destruct o; [rewrite lookup_insert_is_Some'; intros [<-|J]; [apply Bz; by rewrite B|by apply Bz]|].
    rewrite lookup_delete_is_Some. intros [_ J]. by apply Bz.
Qed.

(** No [Stop] comes between the two halves of a [Start]. *)
Fixpoint orderly (xs : list input) (s : System) : Prop :=
  match xs with
  | [] => True
  | x :: xs => (x = IStop -> starting (consumer_ s) = 0%nat) /\ orderly xs (step x s).2
  end.

Lemma run_tracked xs : forall s, tracked s -> orderly xs s -> tracked (run xs s).2.
Proof.
  induction xs as [|x xs IH]; cbn [run orderly]; intros s T O; [done|]. destruct O as [O1 O].
  pose proof (step_tracked x s T O1) as T1. destruct (step x s) as [l s1]. specialize (IH s1 T1 O). by destruct (run xs s1).
Qed.

Definition quiet (s : System) : Prop := subs_ s = ∅ /\ busy s = ∅ /\ starting (consumer_ s) = 0%nat /\ running_ (consumer_ s) = false.

Lemma tracked_quiet s : tracked s -> running_ (consumer_ s) = false -> quiet s.
Proof.
  intros (_ & _ & F & _ & T & Bz) R. destruct (F R) as [S1 I1]. assert (E : subs_ s = ∅).
  { apply map_empty. intros id. destruct (subs_ s !! id) eqn:E; [|done]. destruct (T id (mk_is_Some _ _ E)). congruence. }
  split; [done|]. split; [|done]. apply map_empty. intros id. destruct (busy s !! id) eqn:B; [|done].
  destruct (Bz id (mk_is_Some _ _ B)) as [x X]. by rewrite E, lookup_empty in X.
Qed.

Lemma step_quiet x s : quiet s -> x <> IStartClaim -> (step x s).1 = [] /\ quiet (step x s).2.
Proof.
  intros (Su & Bz & St & R) N. destruct x as [c|c| | | |id|id now lg]; cbn [step fst snd]; try done.
  - unfold StartSubscribe. by rewrite St.
  - unfold Stop. by rewrite R.
  - unfold PollRing. by rewrite Su, lookup_empty.
  - unfold Dispatch. by rewrite Bz, lookup_empty.
Qed.

(** Once [Stop] has returned nothing is applied any more until the next [Start], if no
    [Stop] came in the middle of a [Start]. *)
Theorem stopped_is_quiet xs ys s :
  tracked s -> orderly xs s -> running_ (consumer_ (run xs s).2) = false -> IStartClaim ∉ ys -> (run ys (run xs s).2).1 = [].
Proof.
  intros T O R. pose proof (tracked_quiet _ (run_tracked xs s T O) R) as Q. revert Q. generalize (run xs s).2 as s1. clear.
  induction ys as [|y ys IH]; intros s1 Q N; [done|]. apply not_elem_of_cons in N as [N1 N]. cbn [run].
  destruct (step_quiet y s1 Q ltac:(congruence)) as [L1 Q1]. destruct (step y s1) as [l s2]. cbn [fst snd] in *. subst l.
  specialize (IH s2 Q1 N). destruct (run ys s2). by cbn in *.
Qed.

(** ** Each event at most once, in order *)

Definition cursor (s : System) : Z := last_ (consumer_ s).
Definition applied (s : System) : Z := events_applied_ (consumer_ s).

(** Since the cursor was at [c] and the counter at [a] the events [l] were applied; [k] of
    them are not counted yet. *)
Definition settled (a c k : Z) (l : list Event) (s : System) : Prop :=
  StronglySorted Z.lt (epoch <$> l) /\ Forall (fun e => c < epoch e <= cursor s) l /\ c <= cursor s /\
  u64 (applied s + k) = u64 (a + zlen l).

(** The callback of the one poller: the last event applied is ahead of the cursor until
    it is stored. *)
Definition progress (a c : Z) (l : list Event) (s : System) : Prop :=
  match busy s !! sub_id_ (consumer_ s) with
  | None | Some (Got _) => settled a c 0 l s
  | Some (Checked ev | Fetched ev _ _ | Reserved ev _ _ _ _ | Written ev _ _ _ | Published ev _ _ | Passing ev false) =>
      settled a c 0 l s /\ cursor s < epoch ev
  | Some (Storing ev false cur) => settled a c 0 l s /\ cursor s < epoch ev /\ cur = cursor s
  | Some (Passing ev true) => exists l0, l = l0 ++ [ev] /\ settled a c 0 l0 s /\ cursor s < epoch ev
  | Some (Storing ev true cur) => exists l0, l = l0 ++ [ev] /\ settled a c 0 l0 s /\ cursor s < epoch ev /\ cur = cursor s
  | Some (Counting _) => settled a c 1 l s
  end.

(** A step of somebody else. *)
Lemma progress_idle a c l s s1 :
  cursor s1 = cursor s -> applied s1 = applied s ->
  (busy s1 !! sub_id_ (consumer_ s1) = busy s !! sub_id_ (consumer_ s) \/
   busy s !! sub_id_ (consumer_ s) = None /\
   (busy s1 !! sub_id_ (consumer_ s1) = None \/ exists ev, busy s1 !! sub_id_ (consumer_ s1) = Some (Got ev))) ->
  progress a c l s -> progress a c l s1.
Proof.
  unfold progress, settled. intros -> ->. by intros [->|[-> [->|(ev & ->)]]].
Qed.

Lemma u64_plus a b : u64 (u64 a + b) = u64 (a + b).
Proof. unfold u64. apply Zplus_mod_idemp_l. Qed.

Lemma u64_twice a : u64 (u64 a) = u64 a.
Proof. unfold u64. apply Zmod_mod. Qed.

(** The cursor reaches the event. *)
Lemma settled_store a c l ev s s1 :
  settled a c 0 l s -> cursor s < epoch ev -> cursor s1 = epoch ev -> applied s1 = applied s ->
  settled a c 1 (l ++ [ev]) s1 /\ settled a c 0 l s1.
Proof.
  intros (So & Fo & Le & Ap) L Cu Aq. unfold settled. rewrite Cu, Aq.
  assert (F' : Forall (fun e => c < epoch e <= epoch ev) l) by (eapply Forall_impl; [exact Fo|]; cbn; lia).
  split; [|split_and!; try done; lia]. rewrite fmap_app. split; [|split; [|split; [lia|]]].
  - apply StronglySorted_app. split_and!; [|done|by repeat constructor]. intros x y X Y. apply list_elem_of_singleton in Y as ->.
    apply list_elem_of_fmap in X as (e & -> & X). rewrite Forall_forall in Fo. specialize (Fo e X). cbn in Fo. lia.
  - apply Forall_app. split; [done|]. constructor; [lia|constructor].
  - replace (a + zlen (l ++ [ev])) with (a + zlen l + 1) by (rewrite length_app; cbn; lia).
    rewrite <- (u64_plus (a + zlen l) 1), <- Ap, Z.add_0_r. by rewrite u64_plus.
Qed.

Lemma Dispatch_progress id now lg s l1 s1 a c l :
  tracked s -> progress a c l s -> Dispatch id now lg s = (l1, s1) -> progress a c (l ++ l1) s1.
Proof.
  intros (_ & _ & _ & _ & T & Bz) P. unfold Dispatch. destruct (busy s !! id) as [ph|] eqn:B; [|intros [= <- <-]; by rewrite app_nil_r].
  destruct (T id (Bz id (mk_is_Some _ _ B))) as [-> _]. unfold progress in P. rewrite B in P.
  destruct (apply_step _ _ _ _ _) as [[o l2] c2] eqn:E. intros [= <- <-].
  destruct (apply_step_flags _ _ _ _ _ _ _ _ E) as (_ & _ & I). unfold progress. cbn [busy consumer_]. rewrite I.
  replace ((match o with Some ph' => <[_ := ph']> (busy s) | None => _ end) !! sub_id_ (consumer_ s)) with o
    by (destruct o; [by rewrite lookup_insert_eq|by rewrite lookup_delete_eq]).
  destruct ph as [ev|ev|ev path d|ev path d h slot|ev path d h|ev path h|ev ok|ev ok cur|ev]; cbn [apply_step] in E.
  - injection E as <- <- <-. rewrite app_nil_r. destruct (IsWarm _ _); [|done]. cbn [andb]. unfold ShouldApply.
    destruct (Z.ltb_spec (last_ (consumer_ s)) (epoch ev)); [|done]. done.
  - destruct (SFetch _ _) as [rc ch]. destruct rc; try (injection E as <- <- <-; by rewrite app_nil_r).
    destruct (default _ ch). injection E as <- <- <-. by rewrite app_nil_r.
  - destruct (Reserve _ _ _ _ _ _) as [[rr [[h slot]|]] n]; destruct rr; injection E as <- <- <-; rewrite app_nil_r; first [exact P | exact (proj1 P)].
  - injection E as <- <- <-. by rewrite app_nil_r.
  - destruct (Publish _ _ _) as [rp n]; destruct rp; injection E as <- <- <-; rewrite app_nil_r; first [exact P | exact (proj1 P)].
  - destruct (SealByChunkPath _ _ _ _ _) as [rs n]; destruct rs; injection E as <- <- <-; rewrite ?app_nil_r; first [exact (proj1 P) | by exists l].
  - injection E as <- <- <-. rewrite app_nil_r. destruct ok; [destruct P as (l0 & P1 & P2 & P3); by exists l0|by destruct P].
  - assert (L : cursor s < epoch ev /\ cur = cursor s) by (destruct ok; [destruct P as (l0 & _ & _ & P)|destruct P as [_ P]]; done).
    destruct L as [L ->]. rewrite (proj2 (Z.ltb_lt _ _) L) in E. injection E as <- <- <-. rewrite app_nil_r.
    destruct ok; [destruct P as (l0 & -> & P & _)|destruct P as [P _]]; by apply (settled_store _ _ _ ev s).
  - injection E as <- <- <-. rewrite app_nil_r. destruct P as (So & Fo & Le & Ap). split_and!; try done.
    unfold applied in *. cbn [consumer_ count_event events_applied_]. by rewrite Z.add_0_r, u64_twice, Ap.
Qed.

Lemma step_progress x s l1 s1 a c l :
  tracked s -> progress a c l s -> step x s = (l1, s1) -> progress a c (l ++ l1) s1.
Proof.
  intros T P. pose proof T as (_ & Ls & F & Z0 & Tr & Bz). destruct x as [k|k| | | |id|id now lg]; cbn [step];
    [intros [= <- <-]; rewrite app_nil_r; revert P; apply progress_idle.. |by apply Dispatch_progress].
  all: cbn [step]; try done; try by left.
  all: try (unfold StartClaim; destruct (running_ _); by try left).
  all: try (unfold StartSubscribe, SubscribeEvents; by destruct (starting _)).
  all: try (unfold Stop, UnsubscribeEvents, PollRing; repeat case_match; done).
  - unfold StartSubscribe, SubscribeEvents. destruct (starting (consumer_ s)) as [|n]; [by left|]. right. cbn.
    assert (n = 0%nat) as -> by lia. specialize (Z0 eq_refl).
    assert (Em : forall id, busy s !! id = None).
    { intros id. destruct (busy s !! id) eqn:B; [|done]. destruct (Tr id (Bz id (mk_is_Some _ _ B))). congruence. }
    split; [apply Em|left; apply Em].
  - unfold Stop. destruct (running_ (consumer_ s)); [|by left]. destruct (busy s !! sub_id_ (consumer_ s)) eqn:B; [by left|].
    right. split; [done|]. left. cbn [consumer_ set_flags busy sub_id_].
    enough (E : busy s !! 0 = None) by (destruct (_ =? 0); [done|]; unfold UnsubscribeEvents; by destruct (subs_ s !! _)).
    destruct (busy s !! 0) eqn:B0; [|done]. by destruct (Tr 0 (Bz 0 (mk_is_Some _ _ B0))).
  - unfold PollRing. destruct (subs_ s !! id) as [ring|] eqn:S; [|by left]. destruct (busy s !! id) eqn:B; [by left|].
    destruct (Events.Poll _ _) as [[e|] st]; [|by left]. destruct (Tr id (mk_is_Some _ _ S)) as [-> _]. right. split; [done|].
    right. exists (of_stream e). cbn. by rewrite lookup_insert_eq.
Qed.

Lemma run_progress xs : forall s l1 s1 a c l,
  tracked s -> orderly xs s -> progress a c l s -> run xs s = (l1, s1) -> progress a c (l ++ l1) s1.
Proof.
  induction xs as [|x xs IH]; cbn [run orderly]; intros s l1 s1 a c l T O P; [intros [= <- <-]; by rewrite app_nil_r|].
  destruct O as [O1 O]. pose proof (step_tracked x s T O1) as T1. destruct (step x s) as [l2 s2] eqn:E. cbn [snd] in *.
  destruct (run xs s2) as [l3 s3] eqn:R. intros [= <- <-]. rewrite app_assoc. eapply IH; [exact T1|done| |exact R].
  by apply (step_progress x s).
Qed.

Lemma progress_sorted a c l s : progress a c l s ->
  StronglySorted Z.lt (epoch <$> l) /\ Forall (fun e => c < epoch e) l /\ c <= cursor s.
Proof.
  assert (K : forall k y, settled a c k y s -> StronglySorted Z.lt (epoch <$> y) /\ Forall (fun e => c < epoch e) y /\ c <= cursor s).
  { intros k y (So & Fo & Le & _). split_and!; try done. eapply Forall_impl; [exact Fo|]. cbn. lia. }
  assert (K1 : forall y ev, settled a c 0 y s -> cursor s < epoch ev ->
    StronglySorted Z.lt (epoch <$> (y ++ [ev])) /\ Forall (fun e => c < epoch e) (y ++ [ev]) /\ c <= cursor s).
  { intros y ev S L. pose proof S as (_ & _ & Le & _).
    destruct (settled_store a c y ev s (mkSystem (primary_ s) (subs_ s) (busy s) (next_sub_ s) (set_standby (standby_ (consumer_ s)) (epoch ev) (consumer_ s)))
      S L eq_refl eq_refl) as [(So & Fo & _) _]. split_and!; try done. eapply Forall_impl; [exact Fo|]. cbn. lia. }
  unfold progress. destruct (busy s !! _) as [[]|]; try (intros [P _]; by apply (K _ _ P)); try (intros P; by apply (K _ _ P)).
  all: destruct ok; [intros (l0 & -> & P & L); apply K1; [done|lia]|intros [P _]; by apply (K _ _ P)].
Qed.

(** [C20] Where no call of [Start] overlaps one of [Stop]: however the clients of both
    nodes, the poller between any two calls of its callback, and Start and Stop
    interleave, and whatever fails, the chunks applied to the standby belong to events of
    strictly increasing epochs beyond the cursor at the start, so that no event is
    applied twice or after a later one; and when the poller is outside its callback the
    cursor has reached them all and the counter has counted each. *)
Theorem applied_once xs s l s' :
  tracked s -> busy s = ∅ -> orderly xs s -> run xs s = (l, s') ->
  StronglySorted Z.lt (epoch <$> l) /\ Forall (fun e => cursor s < epoch e) l /\ cursor s <= cursor s' /\
  (busy s' = ∅ -> Forall (fun e => epoch e <= cursor s') l /\ u64 (applied s') = u64 (applied s + zlen l)).
Proof.
  intros T B O R. assert (P0 : progress (applied s) (cursor s) [] s).
  { unfold progress. rewrite B, lookup_empty. split_and!; [constructor|done|lia|done]. }
  pose proof (run_progress _ _ _ _ _ _ _ T O P0 R) as P. cbn [app] in P.
  destruct (progress_sorted _ _ _ _ P) as (So & Fo & Le). split_and!; try done. intros B'.
  unfold progress in P. rewrite B', lookup_empty in P. destruct P as (_ & F & _ & Ap).
  rewrite Z.add_0_r in Ap. split; [|done]. eapply Forall_impl; [exact F|]. cbn. lia.
Qed.

End Consumer.
Arguments Consumer : clear implicits.
Arguments apply_io : clear implicits.

(** ** What the primary answers *)

Lemma insert_leaf_evict lg path lf p : evict_index_ (insert_leaf lg path lf p).2 = evict_index_ p.
Proof. unfold insert_leaf. destruct (lg _); [|done]. by destruct (Art.Insert _ _ _) as [[] ?]. Qed.

Lemma SealCommit_evict {C : Cold.IColdTier} lg now h loc ih path (n : Node C) :
  evict_index_ (px_ (SealCommit lg now h loc ih path n).2) !! LocatorContentKey loc = Some path.
Proof.
  rewrite NodeCorrect.SealCommit_split. cbn zeta. unfold NodeCorrect.seal_index. set (p2 := mkPrefix _ _ _ _ _ _).
  pose proof (insert_leaf_evict lg path (mkLeaf loc DRAM_BIT (Ingest.Read ih (wm_ (bufs_ n))) (RefAcquire 0)) p2) as E.
  destruct (insert_leaf _ _ _ _) as [r p3]. cbn [snd] in E. assert (X : evict_index_ p3 !! LocatorContentKey loc = Some path)
    by (rewrite E; exact (lookup_insert_eq _ _ _)). by destruct r.
Qed.

Lemma ReplicaFetch_resident {C : Cold.IColdTier} loc path d (n : Node C) :
  TierManager.Inv (tm_ n) -> evict_index_ (px_ n) !! LocatorContentKey loc = Some path -> dram_at (tm_ n) (LocatorContentKey loc) = Some d ->
  ReplicaFetch loc n = (KV_OK, Some (path, d)).
Proof.
  intros I E D. unfold ReplicaFetch, PeekDram, Dram.Peek. rewrite E, (Dram.entry_at_contents _ _ _ (inv_dram _ I)).
  unfold dram_at in D. destruct (Dram.contents _ !! _) as [e|]; [|done]. injection D as <-. by destruct (Dram.q e).
Qed.

Lemma image_locator_Serialize l : locator_ok l -> image_locator (SerializeLocator l) = l.
Proof.
  destruct l as [t m p [r1 r2 r3 r4 r5 r6] v fl]. unfold locator_ok, range_ok. project.
  intros (T & M & P & (R1 & R2 & R3 & R4 & R5 & R6) & V & F).
  rewrite <- (app_nil_r (SerializeLocator _)). unfold SerializeLocator, range_bytes. project. rewrite <- !app_assoc.
  unfold image_locator. repeat f_equal; to_field; first [done | by apply get_put_uint].
Qed.

(** ** What the standby holds *)

Section Serving.
Context (Blake3_128 : bytes -> bytes).
Hypothesis Blake3_128_length : forall b, length (Blake3_128 b) = 16%nat.

(** A node that was booted from sane options and has served calls. *)
Definition live {C : Cold.IColdTier} (n : Node C) : Prop :=
  exists mmap ne ce o mk s0 memory wal,
    TierManager.Create mmap ne ce o = Some (existT C mk) /\ NodeCorrect.options_ok ne o /\
    zlen memory = Ingest.pool_bytes (pinned o) /\ NodeCorrect.reach Blake3_128 locator_ok (Init (mk s0) memory wal) n.

Section Standby.
Context {C : Cold.IColdTier} `{CL : !Cold.Laws C}.

Lemma live_inv (n : Node C) : live n -> exists total, NodeCorrect.NodeInv locator_ok total n.
Proof.
  intros (mmap & ne & ce & o & mk & s0 & memory & wal & Cr & So & M & R). exists (Ingest.pool_bytes (pinned o)).
  by eapply (NodeCorrect.Reach_inv Blake3_128).
Qed.

(** The calls of other clients leave the upload [u] of the consumer alone. *)
Fixpoint undisturbed (u : NodeCorrect.upload) (cs : list (call C)) (n : Node C) : Prop :=
  match cs with
  | [] => True
  | c :: cs => NodeCorrect.room n /\ NodeCorrect.call_ok locator_ok c n /\ NodeCorrect.foreign u c n /\ undisturbed u cs (apply Blake3_128 c n)
  end.

Lemma undisturbed_others u cs : forall n0 n, NodeCorrect.others Blake3_128 locator_ok u n0 n -> undisturbed u cs n ->
  NodeCorrect.others Blake3_128 locator_ok u n0 (calls Blake3_128 cs n).
Proof.
  induction cs as [|c cs IH]; cbn [undisturbed]; intros n0 n O; [done|]. intros (R & Ok & F & U). apply (IH n0); [|done].
  by apply NodeCorrect.others_call.
Qed.

(** Other clients do so, and none of them brings an entry under the key of the chunk into
    DRAM before the seal. *)
Definition alone (io : apply_io C) (ev : Event) (d : bytes) (n0 : Node C) : Prop :=
  forall h slot n1 u,
    Reserve (t_reserve io) (locator ev) (zlen d) 0 (model_id_hash (locator ev)) n0 = ((KV_OK, Some (h, slot)), n1) ->
    NodeCorrect.upload_of h n1 = Some u ->
    let n2 := fill slot d (calls Blake3_128 (after_reserve io) n1) in
    let n3 := (Publish h (zlen d) (calls Blake3_128 (after_write io) n2)).2 in
    undisturbed u (after_reserve io) n1 /\ undisturbed u (after_write io) n2 /\ undisturbed u (after_publish io) n3 /\
    dram_at (tm_ (calls Blake3_128 (after_publish io) n3)) (LocatorContentKey (locator ev)) = None.

Lemma fill_write slot d (n : Node C) : 0 < zlen d -> fill slot d n = EngineWrite (Ingest.addr slot) d n.
Proof. by destruct d. Qed.

Lemma applied_holds total fetch io ev path d c c' :
  NodeCorrect.NodeInv locator_ok total (standby_ c) -> NodeCorrect.room (standby_ c) -> locator_ok (locator ev) ->
  fetch (locator ev) = (KV_OK, Some (path, d)) -> Art.path_ok path -> 0 < zlen d -> alone io ev d (standby_ c) ->
  ApplyEvent Blake3_128 fetch io ev c = (true, c') ->
  let n := standby_ c' in
  NodeCorrect.NodeInv locator_ok total n /\ dram_at (tm_ n) (LocatorContentKey (locator ev)) = Some d /\
  evict_index_ (px_ n) !! LocatorContentKey (locator ev) = Some path /\
  exists l, Art.LookupByPath path (art_ (px_ n)) = Some l /\ heap_ (px_ n) !! l = Some (mkLeaf (locator ev) DRAM_BIT (zlen d) 1).
Proof.
  intros I B Lo Fe Q D0 Al. set (loc := locator ev) in *. unfold ApplyEvent. destruct (IsWarm _ _); [|done]. destruct (ShouldApply _ _); [|done].
  cbn [negb]. fold loc. rewrite Fe. cbn [default from_option id]. destruct (Reserve _ _ _ _ _ _) as [[rr o] n1] eqn:Rs.
  destruct rr; try done. destruct o as [[h slot]|]; [|done].
  destruct (NodeCorrect.Reserve_upload locator_ok total _ loc _ _ _ _ h slot n1 I B Lo Rs) as (ih & e & I1 & U1 & Ea & Bs & _).
  set (u := NodeCorrect.mkUpload h loc ih 0 (model_id_hash loc) e (Ingest.s_bytes slot)) in *.
  assert (Uo : NodeCorrect.upload_of h n1 = Some u).
  { unfold NodeCorrect.upload_of. rewrite (NodeCorrect.up_handle _ _ _ _ U1 : handles_ n1 !! h = Some (IngestHandle loc ih 0 (model_id_hash loc))).
    rewrite (NodeCorrect.up_slot _ _ _ _ U1 : active_ (bufs_ n1) !! ih = Some e). cbn. by rewrite (NodeCorrect.up_bytes _ _ _ _ U1). }
  destruct (Al h slot n1 u Rs Uo) as (A1 & A2 & A3 & Ab). rewrite !(fill_write slot d _ D0) in *. rewrite Ea in *.
  pose proof (undisturbed_others u _ _ _ (NodeCorrect.others_none _ _ _ _) A1) as O1.
  destruct (NodeCorrect.Upload_others Blake3_128 Blake3_128_length locator_ok total (fun _ X => X) u 0 [] n1 _ I1 U1 O1) as [I2 U2].
  destruct (NodeCorrect.Upload_own_write locator_ok total u 0 [] d _ I2 U2 ltac:(cbn [u NodeCorrect.u_bytes]; lia)) as [I3 U3].
  pose proof (undisturbed_others u _ _ _ (NodeCorrect.others_none _ _ _ _) A2) as O2.
  destruct (NodeCorrect.Upload_others Blake3_128 Blake3_128_length locator_ok total (fun _ X => X) u 0 d _ _ I3 U3 O2) as [I4 U4].
  set (n4 := calls Blake3_128 (after_write io) _) in *.
  destruct (NodeCorrect.Upload_own_publish locator_ok total u 0 d (zlen d) n4 I4 U4) as (n5 & Pe & I5 & U5). cbn [u NodeCorrect.u_handle] in Pe.
  rewrite Pe in *. cbn [snd] in *. rewrite Z.max_r in U5 by lia.
  pose proof (undisturbed_others u _ _ _ (NodeCorrect.others_none _ _ _ _) A3) as O3.
  destruct (NodeCorrect.Upload_others Blake3_128 Blake3_128_length locator_ok total (fun _ X => X) u (zlen d) d _ _ I5 U5 O3) as [I6 U6].
  set (n6 := calls Blake3_128 (after_publish io) n5) in *. unfold SealByChunkPath.
  rewrite (NodeCorrect.up_handle _ _ _ _ U6 : handles_ n6 !! h = Some (IngestHandle loc ih 0 (model_id_hash loc))).
  pose proof (SealCommit_evict (seal_log io) (t_seal io) h loc ih path n6) as Ev. destruct (SealCommit _ _ _ _ _ _ _) as [rs n7] eqn:Se.
  destruct rs; try done. intros [= <-]. cbn [standby_ set_standby].
  destruct (NodeCorrect.SealCommit_stored locator_ok total u d _ _ path n6 n7 I6 U6 D0 Q Ab Se) as (I7 & D7 & _ & _ & _ & L7). by cbn in *.
Qed.

End Standby.
(** [C19] From the primary to the standby: a client of the primary reserves, writes, publishes
    and seals 16 or more tokens, among the calls of others, when the key of the chunk is not
    in the primary's DRAM; the event of the seal is applied to a standby, which fetches in
    the state right after the seal, among the calls of its own clients, none of which brings
    the key into its DRAM or touches the upload. If both answer success, a lookup of the
    tokens on the standby, in the namespace of the upload, matches all whole chunks and a
    fetch through it whose transfer succeeds delivers exactly the bytes written on the
    primary; and a further replica gets the same answer from the standby as from the
    primary. *)
Theorem standby_serves {C C' : Cold.IColdTier} `{!Cold.Laws C, !Cold.Laws C'} (p0 p1 p2 p3 p4 p5 : Node C') (c c' : Consumer C)
    now loc b th mh h slot u d tokens lg now' io ev :
  live p0 -> NodeCorrect.room p0 -> locator_ok loc ->
  Reserve now loc b th mh p0 = ((KV_OK, Some (h, slot)), p1) -> NodeCorrect.upload_of h p1 = Some u ->
  NodeCorrect.others Blake3_128 locator_ok u p1 p2 ->
  0 < zlen d <= Ingest.s_bytes slot ->
  NodeCorrect.others Blake3_128 locator_ok u (EngineWrite (Ingest.addr slot) d p2) p3 ->
  NodeCorrect.others Blake3_128 locator_ok u (Publish h (zlen d) p3).2 p4 ->
  (Lpm.kChunkTokens <= length tokens)%nat -> zlen tokens < 2 ^ 32 -> dram_at (tm_ p4) (LocatorContentKey loc) = None ->
  Seal Blake3_128 lg now' h tokens p4 = (KV_OK, p5) ->
  live (standby_ c) -> NodeCorrect.room (standby_ c) -> locator ev = loc -> alone io ev d (standby_ c) ->
  ApplyEvent Blake3_128 (fun l => SFetch (ReplicaSource := InProcessReplicaSource) l p5) io ev c = (true, c') ->
  ReplicaFetch loc (standby_ c') = ReplicaFetch loc p5 /\
  exists hr n6, Lookup Blake3_128 th mh tokens (standby_ c') = ((KV_OK, Some (mkLookup loc hr (16 * NodeCorrect.whole tokens))), n6) /\
    HandleStoredBytes hr n6 = (KV_OK, zlen d) /\
    forall lg i now len, zlen d <= len -> (Fetch lg now i (mkTransfer true true true) hr (Some len) n6).1 = (KV_OK, Some d).
Proof.
  intros (mmap & ne & ce & o & mk & s0 & memory & wal & Cr & So & M & R) B Lo Rs Uo O2 Ld O3 O4 L16 L32 Ab Se Li Ro <- Al Ap.
  destruct (NodeCorrect.upload_sealed Blake3_128 mmap ne ce o mk s0 memory wal Blake3_128_length Cr So M
    _ _ _ _ _ _ _ _ _ _ _ _ _ _ _ _ _ _ R B Lo Rs Uo O2 Ld O3 O4 L16 L32 Ab Se) as (I5 & D5 & _ & _ & Sc & _).
  set (path := Lpm.ChunkifyNS Blake3_128 tokens (Lpm.NamespaceFingerprint Blake3_128 th mh)) in *.
  pose proof (SealCommit_evict lg now' h (locator ev) (NodeCorrect.u_ih u) path p4) as Ev. rewrite Sc in Ev. cbn [snd] in Ev.
  pose proof (ReplicaFetch_resident (locator ev) path d p5 (NodeCorrect.n_tiers _ _ _ I5) Ev D5) as Fe.
  destruct (live_inv _ Li) as (total & I). pose proof (NodeCorrect.ChunkifyNS_ok Blake3_128 Blake3_128_length tokens th mh) as Q.
  destruct (applied_holds total _ io ev path d c c' I Ro Lo Fe Q ltac:(lia) Al Ap) as (I' & D' & E' & l & T & El).
  rewrite Fe. split; [apply ReplicaFetch_resident; [apply I'|done|done]|].
  destruct (NodeCorrect.Lookup_sealed Blake3_128 Blake3_128_length locator_ok total th mh tokens _ l _ I' L16 L32 T El eq_refl) as (n6 & Lk & Hr & Tm & Bt).
  exists (next_handle_ (standby_ c')), n6. split; [exact Lk|]. split; [unfold HandleStoredBytes; by rewrite Hr, Bt|].
  intros lg' i now2 len Le. eapply NodeCorrect.Fetch_dram; [| exact Hr| |done]; rewrite Tm; [apply I'|exact D'].
Qed.

(** A source over the network answers what the node of its peer answers, if the peer takes
    the caller for a workload of the cluster, and nothing otherwise. *)
Theorem remote_source_agrees {C : Cold.IColdTier} `{!Cold.Laws C} verifier cx l (s : NodeService.Server (K := Abi.headless Blake3_128 (C := C))) :
  live (NodeService.node s : Node C) -> locator_ok l -> version l <> 0 ->
  SFetch (ReplicaSource := GrpcReplicaSource) l (fun p => NodeService.ReplicaFetch verifier true cx p s) =
  if match verifier with Some b => b | None => bool_decide (is_Some (Mtls.VerifyInternalPeer (NodeService.ClientCertInfo cx) [])) end
  then SFetch (ReplicaSource := InProcessReplicaSource) l (NodeService.node s) else (KV_E_NOT_FOUND, None).
Proof.
  intros Li Lo V. destruct (live_inv _ Li) as (total & I). cbn [SFetch GrpcReplicaSource InProcessReplicaSource]. unfold GrpcFetch, NodeService.ReplicaFetch.
  replace (match verifier with Some b => b | None => bool_decide _ end) with
    (match verifier with Some b => b | None => match Mtls.VerifyInternalPeer (NodeService.ClientCertInfo cx) [] with Some _ => true | None => false end end)
    by (destruct verifier; [done|]; destruct (Mtls.VerifyInternalPeer _ _); [by rewrite bool_decide_true|by rewrite bool_decide_false by (by intros [])]).
  destruct (match verifier with Some _ => _ | None => _ end); [|done]. cbn [negb].
  change (ProtoFromLocator l) with (NodeService.ToProtoLocator l). rewrite NodeService.FromProto_ToProto by done.
  cbn [Abi.n_replica_fetch Abi.headless]. unfold ReplicaFetch at 1 2. destruct (evict_index_ _ !! _) as [path|] eqn:E; [|done].
  assert (H8 : chunk_hash <$> path = path).
  { pose proof (NodeCorrect.x_paths _ _ _ (NodeCorrect.l_index _ _ _ (NodeCorrect.n_leaves _ _ _ I)) _ _ E) as Q. clear E.
    induction Q as [|h q Hh _ IH]; [done|]. cbn. unfold chunk_hash at 1. rewrite bool_decide_true by exact Hh. by rewrite IH. }
  destruct (PeekDram _ _) as [wh x]. destruct wh; cbn; by rewrite ?H8.
Qed.

End Serving.

(** ** Witnesses *)

#[local] Existing Instance TierManager.w_laws.
#[local] Notation w_boot := NodeCorrect.w_boot.

(** The primary after an upload of [01], a fresh standby that mirrors DRAM, and its clients
    looking up between the calls of the consumer. *)
Definition w_primary : Node w_C := (Seal Lpm.pad16 NodeCorrect.yes 0 1 Lpm.tokens16 NodeCorrect.w4).2.
Definition w_consumer : Consumer w_C := new_consumer w_boot (mkPolicy 3).
Definition w_apply : apply_io w_C := mkApply 0 0 NodeCorrect.yes [CLookup 2 7 Lpm.tokens16] [] [].
Definition w_event : Event := mkEvent Events.Add Events.Dram w_locator 1.
Definition w_applied : bool * Consumer w_C := ApplyEvent Lpm.pad16 (fun l => ReplicaFetch l w_primary) w_apply w_event w_consumer.

Lemma w_live : live Lpm.pad16 w_boot.
Proof.
  exists true, Nvme.w_env, w_cenv, w_options, w_new, (∅ : Cold.Files), NodeCorrect.w_memory, (Some NodeCorrect.w_wal).
  split; [exact w_create|]. split; [exact NodeCorrect.w_options_ok|]. split; [reflexivity|constructor].
Qed.

Lemma w_alone : alone Lpm.pad16 w_apply w_event [x01] w_boot.
Proof.
  intros h slot n1 u R _. cbn zeta. assert (E : (h, slot, n1) = (1, Ingest.mkSlot 0 4, (Reserve 0 w_locator 1 0 7 w_boot).2)).
  { change (zlen [x01]) with 1 in R. change (t_reserve w_apply) with 0 in R. change (locator w_event) with w_locator in R.
    change (model_id_hash w_locator) with 7 in R. rewrite R. cbn [snd]. apply (f_equal fst) in R. vm_compute in R. by injection R as <- <-. }
  injection E as -> -> ->. cbn [undisturbed w_apply after_reserve after_write after_publish].
  split; [|split; [done|split; [done|vm_compute; reflexivity]]]. split; [|done].
  apply NodeCorrect.w_room; [vm_compute; auto|vm_compute; reflexivity].
Qed.

Lemma standby_serves_witness :
  exists hr n6, Lookup Lpm.pad16 1 7 Lpm.tokens16 (standby_ w_applied.2) = ((KV_OK, Some (mkLookup w_locator hr 16)), n6) /\
    (Fetch NodeCorrect.yes 0 w_io (mkTransfer true true true) hr (Some 4) n6).1 = (KV_OK, Some [x01]).
Proof.
  destruct (standby_serves Lpm.pad16 Lpm.pad16_length (C := w_C) (C' := w_C) w_boot NodeCorrect.w1 NodeCorrect.w2 NodeCorrect.w3 NodeCorrect.w4 w_primary
    w_consumer w_applied.2 0 w_locator 4 1 7 1 (Ingest.mkSlot 0 4) NodeCorrect.w_upload [x01] Lpm.tokens16 NodeCorrect.yes 0 w_apply w_event)
    as (_ & hr & n6 & L & _ & F).
  - exact w_live.
  - apply NodeCorrect.w_room; [vm_compute; auto|vm_compute; reflexivity].
  - exact NodeCorrect.w_locator_ok.
  - apply NodeCorrect.fst_eq. vm_compute. reflexivity.
  - vm_compute. reflexivity.
  - apply NodeCorrect.others_call; [constructor| |exact I|exact I]. apply NodeCorrect.w_room; [vm_compute; auto|vm_compute; reflexivity].
  - cbn. lia.
  - constructor.
  - constructor.
  - vm_compute. lia.
  - vm_compute. reflexivity.
  - vm_compute. reflexivity.
  - apply NodeCorrect.fst_eq. vm_compute. reflexivity.
  - exact w_live.
  - apply NodeCorrect.w_room; [vm_compute; auto|vm_compute; reflexivity].
  - reflexivity.
  - exact w_alone.
  - apply NodeCorrect.fst_eq. vm_compute. reflexivity.
  - exists hr, n6. split; [exact L|]. apply F. cbn. lia.
Defined.

(** The loop starts, a client of the primary uploads, the poller takes the event through
    its callback and polls again. *)
Definition w_system : System := mkSystem (C' := w_C) w_boot ∅ ∅ 1 w_consumer.
Definition w_upload : list input := IPrimary (C := w_C) <$> NodeCorrect.upload_calls w_locator 1 1 0 [x01].
Definition w_calls (n : nat) (id : Z) : list input := replicate n (IDispatch (C := w_C) (C' := w_C) id 0 NodeCorrect.yes).
Definition w_inputs : list input := [IStartClaim; IStartSubscribe] ++ w_upload ++ [IPoll 1] ++ w_calls 9 1 ++ [IPoll 1].

Lemma w_tracked : tracked w_system.
Proof.
  unfold tracked. cbn. split; [lia|]. split; [lia|]. split; [done|]. split; [done|].
  split; intros i [x X]; by rewrite lookup_empty in X.
Qed.

Lemma applied_once_witness : exists l s', run Lpm.pad16 w_inputs w_system = (l, s') /\ epoch <$> l = [1] /\ cursor s' = 1 /\ u64 (applied s') = 1.
Proof.
  destruct (run Lpm.pad16 w_inputs w_system) as [l s'] eqn:R. exists l, s'. split; [done|].
  assert (E : epoch <$> l = [1]) by (apply (f_equal (fun x => epoch <$> x.1)) in R; cbn [fst] in R; rewrite <- R; vm_compute; reflexivity).
  assert (B : bool_decide (busy s' = ∅) = true) by (apply (f_equal (fun x => size (busy x.2))) in R; cbn [snd] in R;
    apply bool_decide_eq_true_2, map_size_empty_inv; rewrite <- R; vm_compute; reflexivity).
  apply bool_decide_eq_true_1 in B.
  destruct (applied_once Lpm.pad16 w_inputs w_system l s' w_tracked eq_refl ltac:(cbn; repeat split; done) R) as (_ & _ & _ & A).
  destruct (A B) as [_ A']. split; [exact E|].
  split; [apply (f_equal (fun x => cursor x.2)) in R; cbn [snd] in R; rewrite <- R; vm_compute; reflexivity|].
  rewrite A'. apply (f_equal length) in E. rewrite length_fmap in E. rewrite E. reflexivity.
Defined.

Lemma stopped_is_quiet_witness :
  (run Lpm.pad16 (w_upload ++ [IPoll 1] ++ w_calls 9 1) (run Lpm.pad16 [IStartClaim; IStartSubscribe; IStop] w_system).2).1 = [].
Proof.
  apply stopped_is_quiet.
  - exact w_tracked.
  - cbn. repeat split; done.
  - vm_compute. reflexivity.
  - intros X. apply elem_of_app in X as [X|X]; [apply list_elem_of_fmap in X as (y & Y & _); discriminate|].
    apply elem_of_cons in X as [X|X]; [discriminate|]. apply elem_of_replicate in X as [X _]. discriminate.
Defined.

(** A call of the primary that fails on the way is a miss for good: the epoch is passed,
    and the event, delivered again when the source answers, is refused. *)
Example transport_failure_loses :
  let '(ok1, c1) := ApplyEvent Lpm.pad16 (fun l => SFetch l (fun _ => (NodeService.SUnavailable, None))) w_apply w_event w_consumer in
  let '(ok2, c2) := ApplyEvent Lpm.pad16 (fun l => ReplicaFetch l w_primary) w_apply w_event c1 in
  ok1 = false /\ ok2 = false /\ (ReplicaFetch w_locator (standby_ c2)).1 = KV_E_NOT_FOUND.
Proof. vm_compute. repeat split; reflexivity. Qed.

(** A standby without a free slot refuses the first event and applies the second; the
    first is then older than the cursor. *)
Definition w_event2 : Event := mkEvent Events.Add Events.Dram w_locator 2.
Definition w_full : Consumer w_C := new_consumer (calls Lpm.pad16 [CReserve 0 w_locator 4 1 7; CReserve 0 w_locator 4 1 7] w_boot) (mkPolicy 3).
Definition release_one (c : Consumer w_C) : Consumer w_C := set_standby (calls Lpm.pad16 [CRelease 1] (standby_ c)) (last_ c) c.

Example full_standby_loses :
  let fetch := fun l => ReplicaFetch l w_primary in
  let '(ok1, c1) := ApplyEvent Lpm.pad16 fetch w_apply w_event w_full in
  let '(ok2, c2) := ApplyEvent Lpm.pad16 fetch w_apply w_event2 (release_one c1) in
  let '(ok3, c3) := ApplyEvent Lpm.pad16 fetch w_apply w_event c2 in
  ok1 = false /\ last_ c1 = 0 /\ ok2 = true /\ ok3 = false /\ last_ c3 = 2.
Proof. vm_compute. repeat split; reflexivity. Qed.

(** With the default policy nothing a node seals is replicated. *)
Lemma default_policy_replicates_nothing t loc e : IsWarm (mkEvent t Events.Dram loc e) default_policy = false.
Proof. by destruct t. Qed.

(** A [Stop] between the halves of a [Start] ends nothing: the subscription is made after
    it and events are applied although the loop is stopped. *)
Example stop_during_start :
  let '(l, s) := run Lpm.pad16 ([IStartClaim; IStop; IStartSubscribe] ++ w_upload ++ [IPoll 1] ++ w_calls 9 1) w_system in
  epoch <$> l = [1] /\ running_ (consumer_ s) = false.
Proof. vm_compute. split; reflexivity. Qed.

(** With another [Start] there are two pollers, each with the event in its ring. Both ask
    the cursor before either moves it, and the event is applied twice and counted twice. *)
Example two_pollers_apply_twice :
  let '(l, s) := run Lpm.pad16 ([IStartClaim; IStop; IStartClaim; IStartSubscribe; IStartSubscribe] ++ w_upload ++ [IPoll 1; IPoll 2]
    ++ w_calls 1 1 ++ w_calls 1 2 ++ w_calls 8 1 ++ w_calls 8 2) w_system in
  epoch <$> l = [1; 1] /\ applied s = 2 /\ cursor s = 1.
Proof. vm_compute. repeat split; reflexivity. Qed.

End Replication.
