(* ===== verification/AgentRouter.v ===== *)
(** * The agent's router

    kvagent: the cache of routes of routing_cache.cpp, an LRU list with an index of
    iterators; the sketches of bloom_view.cpp; the resolver of hrw_resolver.cpp over the
    ring of Hrw.v; the watcher of cluster_view.cpp that installs the nodes of a published
    view; the wire format and the three-step walk of router.cpp, and the loop of main.cpp
    that answers requests while views and sketches are refreshed. The parser of JSON is a
    parameter, as is the loader of sketches.

    The theorems: an answer names the node the resolver chose for this key at most the
    life of a cache entry ago ([answers_are_fresh]); a route that was put is found as long
    as it is fresh and fewer other keys than the capacity are used ([recent_routes_kept]);
    a request to a draining node is never resolved after its view was installed
    ([draining_nodes_avoided]); messages survive the rings ([messages_roundtrip]). *)

From S2P Require Import Prelude Floats Mtls Bloom Hrw Locator Etcd.
From Stdlib Require Import ZArith Lia.

Open Scope Z_scope.

Module AgentRouter.

#[local] Notation str := Mtls.str.

(** ** The cache of routes *)

Record Key := mkKey { tenant_id : bytes; prefix : bytes }.
#[export] Instance Key_eq : EqDecision Key.
Proof. solve_decision. Defined.
#[export] Instance Key_countable : Countable Key.
Proof. by refine (inj_countable' (fun k => (tenant_id k, prefix k)) (fun x => mkKey x.1 x.2) _); intros []. Defined.

Record Entry := mkEntry { key : Key; node_id : bytes; expires_at : Z }.
Record CacheOptions := mkCacheOptions { capacity : nat; ttl : Z }.

(** The list from the most to the least recently used, its nodes numbered as they are
    allocated; an iterator is the number of its node. *)
Record RoutingCache := mkCache {
  opts_ : CacheOptions; lru_ : list (nat * Entry); idx_ : gmap Key nat; next_node : nat;
  puts_ : Z; hits_ : Z; misses_ : Z; expirations_ : Z; evictions_ : Z }.

Definition new_cache (o : CacheOptions) : RoutingCache := mkCache o [] ∅ 0 0 0 0 0 0.

(** The node an iterator points to, and the list without it. *)
Fixpoint take_node (i : nat) (l : list (nat * Entry)) : option (Entry * list (nat * Entry)) :=
  match l with
  | [] => None
  | (j, e) :: r => if bool_decide (j = i) then Some (e, r) else '(e', r') ← take_node i r; Some (e', (j, e) :: r')
  end.

Definition set_list (l : list (nat * Entry)) (m : gmap Key nat) (c : RoutingCache) : RoutingCache :=
  mkCache (opts_ c) l m (next_node c) (puts_ c) (hits_ c) (misses_ c) (expirations_ c) (evictions_ c).

(** [fuel] is the length of the list, which every round shortens. *)
Fixpoint evict_over (fuel : nat) (c : RoutingCache) : RoutingCache :=
  match fuel with
  | O => c
  | S fuel =>
      if (capacity (opts_ c) <? size (idx_ c))%nat then
        match last (lru_ c) with
        | None => c
        | Some (_, victim) =>
            evict_over fuel (mkCache (opts_ c) (removelast (lru_ c)) (delete (key victim) (idx_ c)) (next_node c)
                               (puts_ c) (hits_ c) (misses_ c) (expirations_ c) (evictions_ c + 1))
        end
      else c
  end.

Definition Put (now : Z) (k : Key) (n : bytes) (c0 : RoutingCache) : RoutingCache :=
  let exp := now + ttl (opts_ c0) in
  let c := mkCache (opts_ c0) (lru_ c0) (idx_ c0) (next_node c0) (puts_ c0 + 1) (hits_ c0) (misses_ c0) (expirations_ c0) (evictions_ c0) in
  match idx_ c !! k with
  | Some i =>
      match take_node i (lru_ c) with
      | Some (e, r) => set_list ((i, mkEntry (key e) n exp) :: r) (idx_ c) c
      | None => c
      end
  | None =>
      let i := next_node c in
      let c1 := mkCache (opts_ c) ((i, mkEntry k n exp) :: lru_ c) (<[k := i]> (idx_ c)) (S i) (puts_ c) (hits_ c) (misses_ c) (expirations_ c) (evictions_ c) in
      evict_over (length (lru_ c1)) c1
  end.

Definition Get (now : Z) (k : Key) (c : RoutingCache) : option bytes * RoutingCache :=
  match idx_ c !! k with
  | None => (None, mkCache (opts_ c) (lru_ c) (idx_ c) (next_node c) (puts_ c) (hits_ c) (misses_ c + 1) (expirations_ c) (evictions_ c))
  | Some i =>
      match take_node i (lru_ c) with
      | None => (None, c)
      | Some (e, r) =>
          if expires_at e <? now
          then (None, mkCache (opts_ c) r (delete k (idx_ c)) (next_node c) (puts_ c) (hits_ c) (misses_ c + 1) (expirations_ c + 1) (evictions_ c))
          else (Some (node_id e), mkCache (opts_ c) ((i, e) :: r) (idx_ c) (next_node c) (puts_ c) (hits_ c + 1) (misses_ c) (expirations_ c) (evictions_ c))
      end
  end.

Definition Invalidate (k : Key) (c : RoutingCache) : RoutingCache :=
  match idx_ c !! k with
  | None => c
  | Some i => match take_node i (lru_ c) with Some (_, r) => set_list r (delete k (idx_ c)) c | None => c end
  end.

Definition Clear (c : RoutingCache) : RoutingCache := set_list [] ∅ c.

(** *** The list is the cache *)

(** The index has exactly the nodes of the list, by their keys, and no key twice. *)
Record CIdx (c : RoutingCache) : Prop := {
  c_ids : NoDup (lru_ c).*1;
  c_fresh : forall i e, (i, e) ∈ lru_ c -> (i < next_node c)%nat;
  c_idx : forall k i, idx_ c !! k = Some i <-> exists e, (i, e) ∈ lru_ c /\ key e = k }.

Record CInv (c : RoutingCache) : Prop := {
  c_index : CIdx c;
  c_bound : (length (lru_ c) <= capacity (opts_ c))%nat }.

(** The cache as a list of entries, and what the operations do to it. *)
Definition entries (c : RoutingCache) : list Entry := (lru_ c).*2.
Definition others (k : Key) (l : list Entry) : list Entry := filter (fun e => key e <> k) l.
Definition entry_of (k : Key) (l : list Entry) : option Entry := head (filter (fun e => key e = k) l).

Lemma take_node_spec i l : NoDup l.*1 ->
  match take_node i l with
  | Some (e, r) => l ≡ₚ (i, e) :: r /\ exists l1 l2, l = l1 ++ (i, e) :: l2 /\ r = l1 ++ l2
  | None => forall e, (i, e) ∉ l
  end.
Proof.
  induction l as [|[j e] l IH]; cbn [take_node]; intros N; [intros e; apply not_elem_of_nil|].
  cbn in N. apply NoDup_cons in N as [N1 N]. case_bool_decide as E.
  - subst j. split; [done|]. by exists [], l.
  - specialize (IH N). destruct (take_node i l) as [[e' r]|]; cbn.
    + destruct IH as [P (l1 & l2 & -> & ->)]. split; [rewrite P; apply Permutation_swap|]. by exists ((j, e) :: l1), l2.
    + intros e'. apply not_elem_of_cons. split; [congruence|apply IH].
Qed.

Lemma idx_keys c : CIdx c -> NoDup (key <$> entries c) /\ size (idx_ c) = length (lru_ c) /\ dom (idx_ c) = list_to_set (key <$> entries c).
Proof.
  intros [N F X]. assert (D : dom (idx_ c) = list_to_set (key <$> entries c)).
  { apply set_eq. intros k. rewrite elem_of_dom, elem_of_list_to_set, list_elem_of_fmap. split.
    - intros [i E]. apply X in E as (e & E & <-). exists e. split; [done|]. apply list_elem_of_fmap. by exists (i, e).
    - intros (e & -> & E). apply list_elem_of_fmap in E as ([i e'] & -> & E). exists i. apply X. by exists e'. }
  assert (U : NoDup (key <$> entries c)).
  { unfold entries. rewrite <- list_fmap_compose. apply NoDup_fmap_2_strong; [|by apply NoDup_fmap_1 in N].
    intros [i e] [j e'] E1 E2 K. cbn in K. assert (i = j).
    { assert (idx_ c !! key e = Some i) as A by (apply X; by exists e). assert (idx_ c !! key e = Some j) as B by (apply X; by exists e'). congruence. }
    subst j. f_equal. apply list_elem_of_lookup in E1 as (a & A). apply list_elem_of_lookup in E2 as (b & B).
    assert (a = b) by (eapply (NoDup_lookup (lru_ c).*1); [done| |]; rewrite list_lookup_fmap, ?A, ?B; done). subst b. congruence. }
  split; [done|]. split; [|done]. rewrite <- (size_dom (idx_ c)), D, size_list_to_set by done. unfold entries. by rewrite !length_fmap.
Qed.

Lemma CInv_same c c' : CInv c -> opts_ c' = opts_ c -> lru_ c' = lru_ c -> idx_ c' = idx_ c -> next_node c' = next_node c -> CInv c'.
Proof. intros [[N F X] B] E1 E2 E3 E4. constructor; [constructor|]; by rewrite ?E1, ?E2, ?E3, ?E4. Qed.

(** What an iterator of the index gives. *)
Lemma found c k i : CIdx c -> idx_ c !! k = Some i -> exists e r, take_node i (lru_ c) = Some (e, r) /\ key e = k /\
  lru_ c ≡ₚ (i, e) :: r /\ entry_of k (entries c) = Some e /\ r.*2 = others k (entries c).
Proof.
  intros I E. pose proof (take_node_spec i (lru_ c) (c_ids _ I)) as T. pose proof E as Ek. apply (c_idx _ I) in E as (e0 & Ein & K0).
  destruct (take_node i (lru_ c)) as [[e r]|]; [|by destruct (T e0)]. destruct T as [P (l1 & l2 & El & ->)].
  assert (K : key e = k) by (assert (Hk : idx_ c !! key e = Some i) by (apply (c_idx _ I); exists e; split; [rewrite El; set_solver|done]);
    destruct (decide (key e = k)); [done|]; pose proof (c_ids _ I) as N; rewrite P in Ein; apply elem_of_cons in Ein as [Q|Q]; [congruence|];
    rewrite P in N; cbn in N; apply NoDup_cons in N as [N _]; destruct N; apply list_elem_of_fmap; by exists (i, e0)).
  exists e, (l1 ++ l2). split; [done|]. split; [done|]. split; [done|].
  pose proof (proj1 (idx_keys c I)) as U. unfold entries in *. rewrite El in *. rewrite fmap_app, fmap_app in U. cbn in U. rewrite K in U.
  apply NoDup_app in U as (_ & U1 & U2). apply NoDup_cons in U2 as [U2 _].
  assert (A : forall l, k ∉ (key <$> l : list Key) -> filter (fun e => key e = k) l = [] /\ filter (fun e => key e <> k) l = l).
  { clear. induction l as [|e l IH]; [done|]. cbn [fmap list_fmap]. intros Q. apply not_elem_of_cons in Q as [Q1 Q]. destruct (IH Q) as [A B].
    rewrite !filter_cons. rewrite decide_False by done. rewrite decide_True by done. by rewrite B. }
  assert (Q1 : k ∉ (key <$> l1.*2 : list Key)) by (intros Q; apply (U1 k Q), elem_of_cons; by left).
  destruct (A _ Q1) as [A1 A2]. destruct (A _ U2) as [A3 A4]. unfold entry_of, others. rewrite !fmap_app, !filter_app. cbn [fmap list_fmap snd].
  rewrite !filter_cons, A1, A2, A3, A4, K, decide_True, decide_False by (done || congruence). done.
Qed.

Lemma missing c k : CIdx c -> idx_ c !! k = None -> entry_of k (entries c) = None /\ others k (entries c) = entries c.
Proof.
  intros I E. assert (Q : k ∉ (key <$> entries c : list Key)).
  { intros Q. assert (k ∈ dom (idx_ c)) as D by (rewrite (proj2 (proj2 (idx_keys c I))); by apply elem_of_list_to_set).
    apply elem_of_dom in D. rewrite E in D. by destruct D. }
  revert Q. unfold entry_of, others. generalize (entries c) as l. clear. induction l as [|e l IH]; [done|]. cbn [fmap list_fmap]. intros Q.
  apply not_elem_of_cons in Q as [Q1 Q]. destruct (IH Q) as [A B]. rewrite !filter_cons, decide_False, decide_True by done. by rewrite B.
Qed.

(** A node moves to the front, with a new entry of its key; or it goes. *)
Lemma CInv_front c k i e r e' : CInv c -> idx_ c !! k = Some i -> lru_ c ≡ₚ (i, e) :: r -> key e = k -> key e' = k ->
  CInv (set_list ((i, e') :: r) (idx_ c) c).
Proof.
  intros [[N F X] B] E P K K'. rewrite P in N. constructor; [constructor|]; cbn.
  - done.
  - intros j x. rewrite elem_of_cons. intros [[= -> ->]|Q]; [apply (F i e); rewrite P; set_solver|apply (F j x); rewrite P; set_solver].
  - intros k' j. rewrite X. split; intros (x & Q & Kx).
    + rewrite P in Q. apply elem_of_cons in Q as [[= -> ->]|Q]; [exists e'; split; [set_solver|congruence]|exists x; split; [set_solver|done]].
    + apply elem_of_cons in Q as [[= -> ->]|Q]; [exists e; split; [rewrite P; set_solver|congruence]|exists x; split; [rewrite P; set_solver|done]].
  - apply Permutation_length in P. cbn in *. lia.
Qed.

Lemma CIdx_drop c k i e r : CIdx c -> idx_ c !! k = Some i -> lru_ c ≡ₚ (i, e) :: r -> key e = k -> CIdx (set_list r (delete k (idx_ c)) c).
Proof.
  intros [N F X] E P K. rewrite P in N. cbn in N. apply NoDup_cons in N as [N1 N]. constructor; cbn.
  - done.
  - intros j x Q. apply (F j x). rewrite P. set_solver.
  - intros k' j. rewrite lookup_delete_Some, X. split.
    + intros [Ne (x & Q & Kx)]. rewrite P in Q. apply elem_of_cons in Q as [[= -> ->]|Q]; [congruence|by exists x].
    + intros (x & Q & Kx). split; [|exists x; split; [rewrite P; set_solver|done]]. intros <-.
      assert (idx_ c !! k = Some j) as Ej by (apply X; exists x; split; [rewrite P; set_solver|congruence]).
      apply N1. apply list_elem_of_fmap. exists (j, x). split; [cbn; congruence|done].
Qed.

Lemma CInv_drop c k i e r : CInv c -> idx_ c !! k = Some i -> lru_ c ≡ₚ (i, e) :: r -> key e = k -> CInv (set_list r (delete k (idx_ c)) c).
Proof.
  intros [I B] E P K. constructor; [by eapply CIdx_drop|]. apply Permutation_length in P. cbn in *. lia.
Qed.

Lemma cache_Get_spec now k c : CInv c ->
  let l := entries c in
  match entry_of k l with
  | None => (Get now k c).1 = None /\ entries (Get now k c).2 = l
  | Some e =>
      if expires_at e <? now then (Get now k c).1 = None /\ entries (Get now k c).2 = others k l
      else (Get now k c).1 = Some (node_id e) /\ entries (Get now k c).2 = e :: others k l
  end /\ CInv (Get now k c).2 /\ opts_ (Get now k c).2 = opts_ c.
Proof.
  intros I. cbn zeta. unfold Get. destruct (idx_ c !! k) as [i|] eqn:E.
  - destruct (found c k i (c_index _ I) E) as (e & r & -> & K & P & -> & O). destruct (expires_at e <? now); cbn [fst snd]; rewrite <- O.
    + split; [done|]. split; [|done]. apply (CInv_same (set_list r (delete k (idx_ c)) c)); try done. by eapply CInv_drop.
    + split; [done|]. split; [|done].
      apply (CInv_same (set_list ((i, e) :: r) (idx_ c) c)); try done. by eapply CInv_front.
  - destruct (missing c k (c_index _ I) E) as [-> _]. split; [done|]. split; [|done]. by apply (CInv_same c).
Qed.

Lemma evict_over_spec fuel : forall c, CIdx c -> (length (lru_ c) <= fuel)%nat ->
  let c' := evict_over fuel c in
  CInv c' /\ entries c' = take (capacity (opts_ c)) (entries c) /\ opts_ c' = opts_ c.
Proof.
  induction fuel as [|fuel IH]; intros c I Le; cbn [evict_over].
  { assert (lru_ c = []) as E by (destruct (lru_ c); [done|cbn in Le; lia]). unfold entries. rewrite E. cbn. rewrite take_nil.
    split; [constructor; [done|rewrite E; cbn; lia]|done]. }
  rewrite (proj1 (proj2 (idx_keys c I))). destruct (Nat.ltb_spec (capacity (opts_ c)) (length (lru_ c))) as [Lt|Ge].
  2: { split; [by constructor|]. split; [|done]. unfold entries. rewrite take_ge; [done|]. by rewrite length_fmap. }
  destruct (lru_ c) as [|y l0 _] eqn:El using rev_ind; [cbn in Lt; lia|]. rewrite last_snoc. destruct y as [j v]. rewrite removelast_last.
  set (c1 := mkCache _ _ _ _ _ _ _ _ _). assert (I1 : CIdx c1).
  { assert (Ij : idx_ c !! key v = Some j) by (apply (c_idx _ I); exists v; split; [rewrite El; set_solver|done]).
    pose proof (CIdx_drop c (key v) j v l0 I Ij ltac:(rewrite El; by rewrite Permutation_app_comm) eq_refl) as [N F X]. by constructor. }
  rewrite length_app in Le, Lt. cbn in Le, Lt. destruct (IH c1 I1 ltac:(cbn; lia)) as (A & B & D). split; [done|]. split; [|done].
  rewrite B. unfold entries. rewrite El. cbn [c1 lru_ opts_]. rewrite fmap_app, take_app_le; [done|]. rewrite length_fmap. lia.
Qed.

Lemma cache_Put_spec now k n c : CInv c ->
  let c' := Put now k n c in
  entries c' = take (capacity (opts_ c)) (mkEntry k n (now + ttl (opts_ c)) :: others k (entries c)) /\ CInv c' /\ opts_ c' = opts_ c.
Proof.
  intros I. cbn zeta. unfold Put. cbn [opts_ idx_ lru_ next_node puts_ hits_ misses_ expirations_ evictions_]. destruct (idx_ c !! k) as [i|] eqn:E.
  - destruct (found c k i (c_index _ I) E) as (e & r & -> & K & P & _ & O). rewrite <- O, K.
    set (e' := mkEntry k n _). pose proof (CInv_front c k i e r e' I E P K eq_refl) as I'.
    split; [|split; [by apply (CInv_same _ _ I')|done]]. unfold entries. cbn [lru_ set_list fmap list_fmap]. rewrite take_ge; [done|].
    pose proof (c_bound _ I'). cbn in *. rewrite length_fmap. lia.
  - destruct (missing c k (c_index _ I) E) as [_ ->]. set (c1 := mkCache _ _ _ _ _ _ _ _ _).
    assert (I1 : CIdx c1).
    { destruct (c_index _ I) as [N F X]. constructor; cbn.
      - constructor; [|done]. intros Q. apply list_elem_of_fmap in Q as ([j x] & Ej & Q). cbn in Ej. subst j. specialize (F _ _ Q). lia.
      - intros j x. rewrite elem_of_cons. intros [[= -> _]|Q]; [lia|]. specialize (F j x Q). lia.
      - intros k' j. rewrite lookup_insert_Some, X. split.
        + intros [[<- <-]|[Ne (x & Q & Kx)]]; [eexists; split; [by apply elem_of_cons; left|done]|exists x; split; [set_solver|done]].
        + intros (x & Q & Kx). apply elem_of_cons in Q as [[= -> ->]|Q]; [by left|]. right. split; [|by exists x].
          intros <-. assert (idx_ c !! k = Some j) by (apply X; by exists x). congruence. }
    destruct (evict_over_spec (length (lru_ c1)) c1 I1 ltac:(lia)) as (A & B & D). split; [exact B|done].
Qed.

Lemma Invalidate_spec k c : CInv c -> entries (Invalidate k c) = others k (entries c) /\ CInv (Invalidate k c) /\ opts_ (Invalidate k c) = opts_ c.
Proof.
  intros I. unfold Invalidate. destruct (idx_ c !! k) as [i|] eqn:E.
  - destruct (found c k i (c_index _ I) E) as (e & r & -> & K & P & _ & O). split; [exact O|]. split; [by eapply CInv_drop|done].
  - by destruct (missing c k (c_index _ I) E) as [_ ->].
Qed.

Lemma Clear_spec c : entries (Clear c) = [] /\ CInv (Clear c) /\ opts_ (Clear c) = opts_ c.
Proof.
  split; [done|]. split; [|done]. constructor; [constructor|cbn; lia]; cbn.
  - constructor.
  - intros i e Q. by apply not_elem_of_nil in Q.
  - intros k i. rewrite lookup_empty. split; [done|]. intros (e & Q & _). by apply not_elem_of_nil in Q.
Qed.

(** *** What stays in the cache *)

Inductive op := OPut (now : Z) (k : Key) (n : bytes) | OGet (now : Z) (k : Key) | OInvalidate (k : Key) | OClear.

Definition do (o : op) (c : RoutingCache) : RoutingCache :=
  match o with OPut now k n => Put now k n c | OGet now k => (Get now k c).2 | OInvalidate k => Invalidate k c | OClear => Clear c end.
Definition do_all (os : list op) (c : RoutingCache) : RoutingCache := fold_left (fun c o => do o c) os c.

Lemma do_CInv o c : CInv c -> CInv (do o c) /\ opts_ (do o c) = opts_ c.
Proof.
  intros I. destruct o; cbn [do]; [apply (cache_Put_spec now k n c I)|apply (cache_Get_spec now k c I)|apply (Invalidate_spec k c I)|apply (Clear_spec c)].
Qed.

Lemma new_cache_CInv o : CInv (new_cache o).
Proof. apply (CInv_same (Clear (new_cache o))); try done. apply Clear_spec. Qed.

Lemma do_all_CInv os : forall c, CInv c -> CInv (do_all os c) /\ opts_ (do_all os c) = opts_ c.
Proof.
  induction os as [|o os IH]; intros c I; [done|]. destruct (do_CInv o c I) as [I1 E1]. change (do_all (o :: os) c) with (do_all os (do o c)). destruct (IH _ I1) as [I2 E2]. split; [done|congruence].
Qed.

(** The entry [e] is in the list, behind entries of the keys [U] only. *)
Definition behind (U : gset Key) (e : Entry) (l : list Entry) : Prop :=
  exists l1 l2, l = l1 ++ e :: l2 /\ forall x, x ∈ l1 -> key x ∈ U.

Lemma others_split k l1 e l2 : key e <> k -> others k (l1 ++ e :: l2) = others k l1 ++ e :: others k l2.
Proof. intros N. unfold others. by rewrite filter_app, filter_cons_True. Qed.

Lemma behind_others U e k l : behind U e l -> key e <> k -> behind U e (others k l).
Proof.
  intros (l1 & l2 & -> & F) N. rewrite others_split by done. exists (others k l1), (others k l2). split; [done|].
  intros x Q. apply list_elem_of_filter in Q as [_ Q]. by apply F.
Qed.

Lemma behind_push U e x l : behind U e l -> behind ({[key x]} ∪ U) e (x :: l).
Proof. intros (l1 & l2 & -> & F). exists (x :: l1), l2. split; [done|]. intros y Q. apply elem_of_cons in Q as [->|Q]; set_solver. Qed.

Lemma behind_take U e n l : behind U e l -> NoDup (key <$> l) -> key e ∉ U -> (size U < n)%nat -> behind U e (take n l).
Proof.
  intros (l1 & l2 & -> & F) N NU Sz. exists l1, (take (n - length l1 - 1) l2). split; [|done].
  assert (length l1 <= size U)%nat.
  { rewrite fmap_app in N. apply NoDup_app in N as (N & _). rewrite <- (length_fmap key l1), <- (size_list_to_set (C := gset Key)) by done.
    apply subseteq_size. intros k. rewrite elem_of_list_to_set, list_elem_of_fmap. intros (x & -> & Q). by apply F. }
  rewrite take_app_ge by lia. destruct (n - length l1)%nat as [|m] eqn:Em; [lia|]. cbn. by rewrite Nat.sub_0_r.
Qed.

Lemma behind_mono U V e l : U ⊆ V -> behind U e l -> behind V e l.
Proof. intros S (l1 & l2 & -> & F). exists l1, l2. split; [done|]. intros x Q. by apply S, F. Qed.

(** The other keys an operation uses, and that it leaves the entry of [k], fresh up to
    [exp], in place. *)
Definition used (o : op) : gset Key := match o with OPut _ k _ | OGet _ k => {[k]} | OInvalidate _ | OClear => ∅ end.
Definition spares (k : Key) (exp : Z) (o : op) : Prop :=
  match o with OPut _ k' _ | OInvalidate k' => k' <> k | OGet now k' => k' = k -> now <= exp | OClear => False end.
Definition used_by (os : list op) : gset Key := ⋃ (used <$> os).

Lemma entry_of_behind U e l : behind U e l -> key e ∉ U -> entry_of (key e) l = Some e.
Proof.
  intros (l1 & l2 & -> & F) N. unfold entry_of. induction l1 as [|x l1 IH]; cbn [app]; [by rewrite filter_cons_True|].
  rewrite filter_cons_False; [apply IH; intros y Q; apply F; by right|]. intros E. apply N. rewrite <- E. apply F. by left.
Qed.

Lemma entry_of_key k l e : entry_of k l = Some e -> key e = k.
Proof.
  unfold entry_of. intros E. apply head_Some in E as (l' & E). assert (Q : e ∈ filter (fun e => key e = k) l) by (rewrite E; by left).
  by apply list_elem_of_filter in Q as [? _].
Qed.

Lemma NoDup_front k x l : key x = k -> NoDup (key <$> l) -> NoDup (key <$> x :: others k l).
Proof.
  intros <- N. cbn. constructor.
  - intros Q. apply list_elem_of_fmap in Q as (y & E & Q). apply list_elem_of_filter in Q as [Q _]. congruence.
  - unfold others. induction l as [|y l IH]; [done|]. cbn in N. apply NoDup_cons in N as [N1 N]. rewrite filter_cons. destruct (decide _); [|by apply IH].
    cbn. constructor; [|by apply IH]. intros Q. apply N1. apply list_elem_of_fmap in Q as (z & E & Q). apply list_elem_of_filter in Q as [_ Q].
    apply list_elem_of_fmap. by exists z.
Qed.

Lemma do_behind o e U c : CInv c -> behind U e (entries c) -> key e ∉ U -> spares (key e) (expires_at e) o ->
  let V := U ∪ (used o ∖ {[key e]}) in
  (size V < capacity (opts_ c))%nat -> behind V e (entries (do o c)) /\ key e ∉ V.
Proof.
  intros I B N Sp V Sz. assert (NV : key e ∉ V) by (unfold V; set_solver). split; [|done].
  pose proof (proj1 (idx_keys c (c_index _ I))) as Nd. destruct o as [now k n|now k|k|]; cbn [do used spares] in *; [| | |done].
  - destruct (cache_Put_spec now k n c I) as (-> & _). apply behind_take; [|by apply NoDup_front|done|done].
    eapply behind_mono; [|apply behind_push; apply behind_others; [exact B|done]]. unfold V. cbn [key]. set_solver.
  - destruct (cache_Get_spec now k c I) as (G & _). cbn zeta in G. destruct (entry_of k (entries c)) as [x|] eqn:Ex.
    2: { destruct G as [_ ->]. eapply behind_mono; [|exact B]. unfold V. set_solver. }
    pose proof (entry_of_key _ _ _ Ex) as Kx. destruct (decide (k = key e)) as [->|Ne].
    + rewrite (entry_of_behind U e _ B N) in Ex. injection Ex as <-. specialize (Sp eq_refl). rewrite (proj2 (Z.ltb_ge _ _) Sp) in G. destruct G as [_ ->].
      exists [], (others (key e) (entries c)). split; [done|]. intros x Q. by apply not_elem_of_nil in Q.
    + destruct (expires_at x <? now); destruct G as [_ ->].
      * eapply behind_mono; [|apply behind_others; [exact B|done]]. unfold V. set_solver.
      * eapply behind_mono; [|apply behind_push; apply behind_others; [exact B|done]]. unfold V. rewrite Kx. set_solver.
  - destruct (Invalidate_spec k c I) as (-> & _). eapply behind_mono; [|apply behind_others; [exact B|done]]. unfold V. set_solver.
Qed.

Lemma do_all_behind e os : forall U c, CInv c -> behind U e (entries c) -> key e ∉ U -> Forall (spares (key e) (expires_at e)) os ->
  (size (U ∪ (used_by os ∖ {[key e]})) < capacity (opts_ c))%nat -> exists V, behind V e (entries (do_all os c)) /\ key e ∉ V.
Proof.
  induction os as [|o os IH]; intros U c I B N Sp Sz; [by exists U|]. apply Forall_cons in Sp as [S1 Sp].
  destruct (do_CInv o c I) as [I1 E1]. assert (Sub : used_by (o :: os) = used o ∪ used_by os) by done. rewrite Sub in Sz.
  destruct (do_behind o e U c I B N S1) as [B1 N1]; [eapply Nat.le_lt_trans; [|exact Sz]; apply subseteq_size; set_solver|].
  apply (IH _ (do o c) I1 B1 N1 Sp). rewrite E1. eapply Nat.le_lt_trans; [|exact Sz]. apply subseteq_size. set_solver.
Qed.

(** The least recently used routes go first, and only they: whatever the cache has been
    through, a route that is put stays available for its whole life, as long as fewer other
    keys than the capacity are put or asked for, however often, and nobody replaces,
    invalidates or clears it. *)
Theorem recent_routes_kept o before now k n os now' :
  Forall (spares k (now + ttl o)) os -> (size (used_by os ∖ {[k]}) < capacity o)%nat -> now' <= now + ttl o ->
  (Get now' k (do_all os (Put now k n (do_all before (new_cache o))))).1 = Some n.
Proof.
  intros Sp Sz Le. destruct (do_all_CInv before _ (new_cache_CInv o)) as [I E]. change (opts_ (new_cache o)) with o in E.
  set (c := do_all before (new_cache o)) in *. destruct (cache_Put_spec now k n c I) as (En & I1 & E1). rewrite E in *.
  set (e := mkEntry k n (now + ttl o)) in *. assert (B : behind ∅ e (entries (Put now k n c))).
  { rewrite En. destruct (capacity o); [lia|]. exists [], (take n0 (others k (entries c))). split; [done|]. intros x Q. by apply not_elem_of_nil in Q. }
  destruct (do_all_behind e os ∅ _ I1 B ltac:(set_solver) Sp) as (V & B' & N').
  { rewrite E1. by rewrite (left_id_L ∅ (∪)). }
  destruct (do_all_CInv os _ I1) as [I2 _]. pose proof (proj1 (cache_Get_spec now' k _ I2)) as G. cbn zeta in G.
  rewrite (entry_of_behind V e _ B' N' : entry_of k _ = Some e) in G. cbn [expires_at e] in G. rewrite (proj2 (Z.ltb_ge _ _) Le) in G. by destruct G as [-> _].
Qed.

Definition ex_key (b : byte) : Key := mkKey (replicate 16 b) (replicate 16 b).

Lemma recent_routes_kept_witness :
  (Get 30 (ex_key x01) (do_all [OPut 1 (ex_key x02) (str "b"); OGet 2 (ex_key x02); OGet 3 (ex_key x01); OPut 4 (ex_key x02) (str "c")]
     (Put 0 (ex_key x01) (str "a") (do_all [OPut 0 (ex_key x03) (str "d"); OPut 0 (ex_key x04) (str "d")] (new_cache (mkCacheOptions 2 30)))))).1 =
  Some (str "a").
Proof.
  apply recent_routes_kept.
  - repeat constructor; cbn; (discriminate || lia).
  - apply Nat.ltb_lt. vm_compute. reflexivity.
  - cbn. lia.
Defined.

(** ** The sketches *)

Record TenantSketch := mkSketch { s_tenant_id : bytes; s_params : Bloom.BloomParams; s_bits : bytes }.

Record BloomView := mkView {
  tenants_ : list bytes; sketches_ : gmap bytes Bloom.AggregatedBloom; b_refreshes_ok_ : Z; b_refreshes_failed_ : Z; queries_ : Z; answered_false_ : Z }.

Definition new_view : BloomView := mkView [] ∅ 0 0 0 0.

Definition RegisterTenant (t : bytes) (v : BloomView) : BloomView :=
  if bool_decide (t ∈ tenants_ v) then v
  else mkView (tenants_ v ++ [t]) (sketches_ v) (b_refreshes_ok_ v) (b_refreshes_failed_ v) (queries_ v) (answered_false_ v).

Fixpoint erase_first (t : bytes) (l : list bytes) : list bytes :=
  match l with [] => [] | x :: r => if bool_decide (x = t) then r else x :: erase_first t r end.

Definition UnregisterTenant (t : bytes) (v : BloomView) : BloomView :=
  mkView (erase_first t (tenants_ v)) (delete t (sketches_ v)) (b_refreshes_ok_ v) (b_refreshes_failed_ v) (queries_ v) (answered_false_ v).

(** [emplace] keeps the first sketch of a tenant. *)
Definition install (m : gmap bytes Bloom.AggregatedBloom) (ts : TenantSketch) : gmap bytes Bloom.AggregatedBloom :=
  match m !! s_tenant_id ts with
  | Some _ => m
  | None => <[s_tenant_id ts := Bloom.Set_ (s_params ts) (s_bits ts) (Bloom.mkAgg (s_params ts) [])]> m
  end.

(** The end of a refresh, with what the loader gave, or [None] if it threw; the number of
    sketches. *)
Definition RefreshSketches (fresh : option (list TenantSketch)) (v : BloomView) : Z * BloomView :=
  match fresh with
  | None => (-1, mkView (tenants_ v) (sketches_ v) (b_refreshes_ok_ v) (b_refreshes_failed_ v + 1) (queries_ v) (answered_false_ v))
  | Some l =>
      let next := fold_left install l ∅ in
      (Z.of_nat (size next), mkView (tenants_ v) next (b_refreshes_ok_ v + 1) (b_refreshes_failed_ v) (queries_ v) (answered_false_ v))
  end.

Section Agent.
Context (Blake3_64 : bytes -> Z) {St : Hrw.StdSort}.

(** [None] if the sketch is read out of its bounds. *)
Definition MaybeContains (tenant k : bytes) (v : BloomView) : option (bool * BloomView) :=
  let count n := mkView (tenants_ v) (sketches_ v) (b_refreshes_ok_ v) (b_refreshes_failed_ v) (queries_ v + 1) (answered_false_ v + n) in
  match sketches_ v !! tenant with
  | None => Some (true, count 0)
  | Some a =>
      match Bloom.AggMaybeContains Blake3_64 k a with
      | None => None
      | Some true => Some (true, count 0)
      | Some false => Some (false, count 1)
      end
  end.

(** ** The resolver *)

Definition SetNodes (weighted : list (bytes * double)) (r : Hrw.Ring) : Hrw.Ring :=
  Hrw.SetNodes ((fun x => Hrw.mkNode x.1 x.2) <$> weighted) r.

(** The count of matched tokens is always 0. *)
Definition Resolve (tenant prefix_hash : bytes) (r : Hrw.Ring) : option bytes :=
  if (Hrw.NodeCount r =? 0)%nat then None
  else match Hrw.Primary Blake3_64 (tenant ++ prefix_hash) None r with [] => None | n => Some n end.

(** ** The cluster view *)

(** What the parser gives; an object is a map, here the list of its entries, a number its
    value as a double. *)
#[warnings="-register-all"]
Inductive json := JNull | JBool (b : bool) | JNum (d : double) | JStr (s : bytes) | JArr (l : list json) | JObj (l : list (bytes * json)).

Definition find (k : bytes) (l : list (bytes * json)) : option json := snd <$> head (filter (fun x => x.1 = k) l).

Definition tolower (b : byte) : byte := if (65 <=? byte_val b) && (byte_val b <=? 90) then byte_of (byte_val b + 32) else b.
Fixpoint has_infix (p s : bytes) : bool :=
  bool_decide (p `prefix_of` s) || match s with [] => false | _ :: r => has_infix p r end.

Definition draining (l : list (bytes * json)) : bool :=
  match find (str "state") l with Some (JStr s) => has_infix (str "drain") (tolower <$> s) | _ => false end.

Definition node_weight (l : list (bytes * json)) : double :=
  match find (str "weight") l with Some (JNum d) => if dgt d (double_of 0) then d else double_of 1 | _ => double_of 1 end.

Definition parse_node (j : json) : option (bytes * double) :=
  match j with
  | JObj l =>
      match find (str "node_id") l with
      | Some (JStr []) => None
      | Some (JStr i) => if draining l then None else Some (i, node_weight l)
      | _ => None
      end
  | _ => None
  end.

Context (parse : bytes -> option json).

Definition ParseNodes (body : bytes) : option (list (bytes * double)) :=
  match body with
  | [] => Some []
  | _ =>
      match parse body with
      | Some (JObj l) => match find (str "nodes") l with Some (JArr a) => Some (omap parse_node a) | _ => None end
      | _ => None
      end
  end.

Definition ParseNodeIds (body : bytes) : option (list bytes) := (fun l => l.*1) <$> ParseNodes body.

Definition kClusterViewKey : bytes := str "/kvcache/cluster/view".

(** The loader of main.cpp; [reaches] is whether the request gets through. *)
Definition MakeEtcdViewLoader (reaches : bool) (c : Etcd.Client) : option bytes :=
  if reaches then Some (match Etcd.Get kClusterViewKey c with Some x => Etcd.value x | None => [] end) else None.

Record Watcher := mkWatcher { refreshes_ok_ : Z; refreshes_failed_ : Z; last_node_count_ : Z }.

(** [body] is what the loader gave, [None] if it failed or threw. *)
Definition RefreshOnce (body : option bytes) (w : Watcher) (r : Hrw.Ring) : Z * Watcher * Hrw.Ring :=
  match body ≫= ParseNodes with
  | None => (-1, mkWatcher (refreshes_ok_ w) (refreshes_failed_ w + 1) (last_node_count_ w), r)
  | Some nodes => (zlen nodes, mkWatcher (refreshes_ok_ w + 1) (refreshes_failed_ w) (zlen nodes), SetNodes nodes r)
  end.

(** ** Messages *)

Definition kLookup : Z := 1.
Definition kFetch : Z := 2.
Definition kPublish : Z := 3.

Definition kOk : Z := 0.
Definition kMiss : Z := 1.
Definition kError : Z := 2.

Definition kNone : Z := 0.
Definition kCache : Z := 1.
Definition kResolver : Z := 2.
Definition kBloomNegative : Z := 3.

Record Request := mkRequest { op_ : Z; request_id : Z; q_tenant_id : bytes; prefix_hash : bytes }.
Record Response := mkResponse { r_request_id : Z; status : Z; source : Z; matched_tokens : Z; r_node_id : bytes }.

Definition RequestWire : nat := 44.
Definition ResponseWire : nat := 64.
Definition kMaxNodeId : nat := 40.

Definition field (off n : nat) (b : bytes) : bytes := Locator.field off n b.
Definition num (off n : nat) (b : bytes) : Z := get_le (field off n b).

Definition SerializeRequest (q : Request) : bytes := put_le 4 (op_ q) ++ put_le 8 (request_id q) ++ q_tenant_id q ++ prefix_hash q.

Definition ParseRequest (b : bytes) : option Request :=
  if (length b <? RequestWire)%nat then None
  else Some (mkRequest (num 0 4 b) (num 4 8 b) (field 12 16 b) (field 28 16 b)).

Definition SerializeResponse (r : Response) : bytes :=
  let n := Nat.min (length (r_node_id r)) kMaxNodeId in
  let b := put_le 8 (r_request_id r) ++ put_le 4 (status r) ++ put_le 4 (source r) ++ put_le 4 (matched_tokens r) ++
           put_le 4 (Z.of_nat n) ++ take n (r_node_id r) in
  b ++ replicate (ResponseWire - length b) x00.

Definition ParseResponse (b : bytes) : option Response :=
  if (length b <? ResponseWire)%nat then None
  else
    let n := num 20 4 b in
    if Z.of_nat kMaxNodeId <? n then None
    else Some (mkResponse (num 0 8 b) (num 8 4 b) (num 12 4 b) (num 16 4 b) (field 24 (Z.to_nat n) b)).

(** ** The router *)

Record Agent := mkAgent { cache_ : RoutingCache; bloom_ : BloomView; ring_ : Hrw.Ring; watcher_ : Watcher }.

Definition MakeKey (q : Request) : Key := mkKey (q_tenant_id q) (prefix_hash q).

(** The cache and then the resolver, whose answer is cached; the clock is read by [Get] and
    by [Put]. *)
Definition route (t1 t2 : Z) (q : Request) (a : Agent) : Response * Agent :=
  let answer st so n := mkResponse (request_id q) st so 0 n in
  let '(hit, c) := Get t1 (MakeKey q) (cache_ a) in
  match hit with
  | Some n => (answer kOk kCache n, mkAgent c (bloom_ a) (ring_ a) (watcher_ a))
  | None =>
      match Resolve (q_tenant_id q) (prefix_hash q) (ring_ a) with
      | Some n => (answer kOk kResolver n, mkAgent (Put t2 (MakeKey q) n c) (bloom_ a) (ring_ a) (watcher_ a))
      | None => (answer kMiss kNone [], mkAgent c (bloom_ a) (ring_ a) (watcher_ a))
      end
  end.

Definition ResolveRead (t1 t2 : Z) (q : Request) (a : Agent) : option (Response * Agent) :=
  match MaybeContains (q_tenant_id q) (prefix_hash q) (bloom_ a) with
  | None => None
  | Some (maybe, v) =>
      let a1 := mkAgent (cache_ a) v (ring_ a) (watcher_ a) in
      if maybe then Some (route t1 t2 q a1) else Some (mkResponse (request_id q) kMiss kBloomNegative 0 [], a1)
  end.

Definition ResolveWrite (t1 t2 : Z) (q : Request) (a : Agent) : option (Response * Agent) := Some (route t1 t2 q a).

Definition Handle (t1 t2 : Z) (q : Request) (a : Agent) : option (Response * Agent) :=
  if (op_ q =? kLookup) || (op_ q =? kFetch) then ResolveRead t1 t2 q a
  else if op_ q =? kPublish then ResolveWrite t1 t2 q a
  else Some (mkResponse (request_id q) kError kNone 0 [], a).

Definition HandleRaw (t1 t2 : Z) (b : bytes) (a : Agent) : option (bytes * Agent) :=
  match ParseRequest b with
  | None => Some (SerializeResponse (mkResponse 0 kError kNone 0 []), a)
  | Some q => '(r, a') ← Handle t1 t2 q a; Some (SerializeResponse r, a')
  end.

(** ** The process *)

(** An entry of the submission ring, a round of the watcher of views or of sketches, and
    tenants that come and go. *)
Inductive input :=
| IRequest (t1 t2 : Z) (b : bytes) | IView (body : option bytes) | ISketches (fresh : option (list TenantSketch))
| IRegister (t : bytes) | IUnregister (t : bytes).

(** The bytes for the completion ring. *)
Definition step (x : input) (a : Agent) : option (option bytes * Agent) :=
  match x with
  | IRequest t1 t2 b => '(r, a') ← HandleRaw t1 t2 b a; Some (Some r, a')
  | IView body => let '(_, w, r) := RefreshOnce body (watcher_ a) (ring_ a) in Some (None, mkAgent (cache_ a) (bloom_ a) r w)
  | ISketches fresh => Some (None, mkAgent (cache_ a) (RefreshSketches fresh (bloom_ a)).2 (ring_ a) (watcher_ a))
  | IRegister t => Some (None, mkAgent (cache_ a) (RegisterTenant t (bloom_ a)) (ring_ a) (watcher_ a))
  | IUnregister t => Some (None, mkAgent (cache_ a) (UnregisterTenant t (bloom_ a)) (ring_ a) (watcher_ a))
  end.

(** One step with its input, the agent before it and its answer. *)
Record event := mkEvent { e_input : input; e_agent : Agent; e_answer : option bytes }.

Fixpoint run (xs : list input) (a : Agent) : option (list event * Agent) :=
  match xs with
  | [] => Some ([], a)
  | x :: xs => '(r, a1) ← step x a; '(l, a2) ← run xs a1; Some (mkEvent x a r :: l, a2)
  end.

(** ** Messages survive *)

Definition request_ok (q : Request) : Prop :=
  Locator.uint 32 (op_ q) /\ Locator.uint 64 (request_id q) /\ length (q_tenant_id q) = 16%nat /\ length (prefix_hash q) = 16%nat.
Definition response_ok (r : Response) : Prop :=
  Locator.uint 64 (r_request_id r) /\ Locator.uint 32 (status r) /\ Locator.uint 32 (source r) /\ Locator.uint 32 (matched_tokens r).

Lemma request_roundtrip q rest : request_ok q -> ParseRequest (SerializeRequest q ++ rest) = Some q.
Proof.
  destruct q as [o i t p]. unfold request_ok, ParseRequest, SerializeRequest. cbn [op_ request_id q_tenant_id prefix_hash]. intros (O & I & T & P).
  rewrite (proj2 (Nat.ltb_ge _ _)) by (rewrite !length_app, !length_put_le, T, P; unfold RequestWire; lia). rewrite <- !app_assoc.
  unfold num, field. repeat f_equal; Locator.to_field; first [done | by apply Locator.get_put_uint].
Qed.

Lemma response_roundtrip r : response_ok r ->
  ParseResponse (SerializeResponse r) = Some (mkResponse (r_request_id r) (status r) (source r) (matched_tokens r) (take kMaxNodeId (r_node_id r))) /\
  length (SerializeResponse r) = ResponseWire.
Proof.
  destruct r as [i s so m n]. unfold response_ok, ParseResponse, SerializeResponse. cbn [r_request_id status source matched_tokens r_node_id].
  intros (I & S & So & M). set (k := Nat.min (length n) kMaxNodeId).
  assert (Hk : length (take k n) = k) by (rewrite length_take; unfold k; lia). assert (K40 : (k <= 40)%nat) by (unfold k, kMaxNodeId; lia).
  set (b := put_le 8 i ++ _). assert (Lb : length b = (24 + k)%nat) by (unfold b; rewrite !length_app, !length_put_le, Hk; lia).
  assert (L : length (b ++ replicate (ResponseWire - length b) x00) = ResponseWire) by (rewrite length_app, length_replicate, Lb; unfold ResponseWire; lia).
  split; [|exact L]. rewrite L, Nat.ltb_irrefl. unfold b. rewrite <- !app_assoc. cbn zeta. unfold num, field.
  assert (Ek : forall r, get_le (Locator.field 20 4 (put_le 8 i ++ put_le 4 s ++ put_le 4 so ++ put_le 4 m ++ put_le 4 (Z.of_nat k) ++ r)) = Z.of_nat k)
    by (intros r; Locator.to_field; apply Locator.get_put_uint; unfold Locator.uint; lia).
  rewrite Ek, Nat2Z.id. destruct (Z.ltb_spec (Z.of_nat kMaxNodeId) (Z.of_nat k)); [unfold kMaxNodeId in *; lia|].
  assert (En : take k n = take kMaxNodeId n) by (unfold k; destruct (Nat.min_spec (length n) kMaxNodeId) as [[? ->]|[? ->]]; [rewrite !take_ge by lia; done|done]).
  do 2 f_equal; Locator.to_field; first [done | by apply Locator.get_put_uint].
Qed.

(** Messages survive the rings: a request is read as it was written, whatever follows it in
    the slot, and a response too, its node cut to 40 bytes, in exactly 64 bytes. *)
Theorem messages_roundtrip :
  (forall q rest, request_ok q -> ParseRequest (SerializeRequest q ++ rest) = Some q) /\
  (forall r, response_ok r ->
     ParseResponse (SerializeResponse r) = Some (mkResponse (r_request_id r) (status r) (source r) (matched_tokens r) (take kMaxNodeId (r_node_id r))) /\
     length (SerializeResponse r) = ResponseWire).
Proof. split; [apply request_roundtrip|apply response_roundtrip]. Qed.

(** ** Answers are fresh *)

(** The request of [y] was for [k], and the resolver would have answered [n] from the nodes
    at that moment, [t] on the clock. *)
Definition resolved (y : event) (k : Key) (n : bytes) (t : Z) : Prop :=
  exists t1 b q, e_input y = IRequest t1 t b /\ ParseRequest b = Some q /\ MakeKey q = k /\
    Resolve (tenant_id k) (prefix k) (ring_ (e_agent y)) = Some n.

Record Explained (o : CacheOptions) (l : list event) (c : RoutingCache) : Prop := {
  x_inv : CInv c;
  x_opts : opts_ c = o;
  x_why : forall e, e ∈ entries c -> exists y t, y ∈ l /\ resolved y (key e) (node_id e) t /\ expires_at e = t + ttl o }.

Lemma others_in e k l : e ∈ others k l -> e ∈ l.
Proof. intros Q. by apply list_elem_of_filter in Q as [_ Q]. Qed.

Lemma entry_of_in k l e : entry_of k l = Some e -> e ∈ l.
Proof.
  unfold entry_of. intros E. apply head_Some in E as (l' & E). assert (Q : e ∈ filter (fun e => key e = k) l) by (rewrite E; by left).
  by apply list_elem_of_filter in Q as [_ ?].
Qed.

Lemma Get_explained o l now k c : Explained o l c ->
  Explained o l (Get now k c).2 /\
  forall n, (Get now k c).1 = Some n -> exists y t, y ∈ l /\ resolved y k n t /\ now <= t + ttl o.
Proof.
  intros [I O W]. destruct (cache_Get_spec now k c I) as (G & I1 & O1). cbn zeta in G. destruct (entry_of k (entries c)) as [e|] eqn:Ee.
  - pose proof (entry_of_key _ _ _ Ee) as Ke. destruct (Z.ltb_spec (expires_at e) now) as [Lt|Ge]; destruct G as [G1 G2].
    + split; [constructor; [done|congruence|]; intros x Q; apply W; rewrite G2 in Q; by eapply others_in|]. intros n. by rewrite G1.
    + split.
      * constructor; [done|congruence|]. intros x Q. apply W. rewrite G2 in Q. apply elem_of_cons in Q as [->|Q]; [by eapply entry_of_in|by eapply others_in].
      * intros n E. rewrite G1 in E. injection E as <-. destruct (W e (entry_of_in _ _ _ Ee)) as (y & t & Y & R & X). exists y, t. rewrite <- Ke. split; [done|].
        split; [done|]. lia.
  - destruct G as [G1 G2]. split; [constructor; [done|congruence|]; intros x Q; apply W; by rewrite G2 in Q|]. intros n. by rewrite G1.
Qed.

Lemma Explained_mono o l l' c : (forall y, y ∈ l -> y ∈ l') -> Explained o l c -> Explained o l' c.
Proof. intros S [I O W]. constructor; [done|done|]. intros e Q. destruct (W e Q) as (y & t & Y & R). exists y, t. split; [by apply S|done]. Qed.

Lemma route_explained o l t1 t2 b q a r a1 y : Explained o l (cache_ a) -> ParseRequest b = Some q ->
  e_input y = IRequest t1 t2 b -> ring_ (e_agent y) = ring_ a -> route t1 t2 q a = (r, a1) ->
  Explained o (l ++ [y]) (cache_ a1) /\ (status r = kOk -> exists z t, z ∈ l ++ [y] /\ resolved z (MakeKey q) (r_node_id r) t /\ (z = y \/ t1 <= t + ttl o)).
Proof.
  intros X P Ey Ry. unfold route. destruct (Get_explained o l t1 (MakeKey q) (cache_ a) X) as [X1 H]. destruct (Get t1 (MakeKey q) (cache_ a)) as [hit c].
  cbn [fst snd] in *. assert (M : Explained o (l ++ [y]) c) by (eapply Explained_mono; [|exact X1]; set_solver).
  destruct hit as [n|]; [|destruct (Resolve _ _ (ring_ a)) as [n|] eqn:Rs]; intros [= <- <-]; cbn [cache_ status r_node_id].
  - split; [done|]. intros _. destruct (H n eq_refl) as (z & t & Z1 & Z2 & Z3). exists z, t. split; [set_solver|]. auto.
  - assert (Ry' : resolved y (MakeKey q) n t2) by (exists t1, b, q; rewrite Ry; done). split; [|intros _; exists y, t2; split; [set_solver|auto]].
    destruct M as [I O W]. destruct (cache_Put_spec t2 (MakeKey q) n c I) as (En & I2 & O2). constructor; [done|congruence|].
    intros e Q. rewrite En in Q. apply subseteq_take in Q. apply elem_of_cons in Q as [->|Q]; [|by apply W; eapply others_in].
    exists y, t2. split; [set_solver|]. split; [exact Ry'|]. cbn. by rewrite O.
  - split; [done|]. by intros [=].
Qed.

Lemma Handle_explained o l t1 t2 b q a r a1 y : Explained o l (cache_ a) -> ParseRequest b = Some q ->
  e_input y = IRequest t1 t2 b -> ring_ (e_agent y) = ring_ a -> Handle t1 t2 q a = Some (r, a1) ->
  Explained o (l ++ [y]) (cache_ a1) /\ (status r = kOk -> exists z t, z ∈ l ++ [y] /\ resolved z (MakeKey q) (r_node_id r) t /\ (z = y \/ t1 <= t + ttl o)).
Proof.
  intros X P Ey Ry. assert (M : Explained o (l ++ [y]) (cache_ a)) by (eapply Explained_mono; [|exact X]; set_solver).
  unfold Handle, ResolveRead, ResolveWrite. destruct (_ || _).
  - destruct (MaybeContains _ _ _) as [[maybe v]|]; [|done]. destruct maybe.
    + intros [= E]. by eapply (route_explained o l t1 t2 b q (mkAgent (cache_ a) v (ring_ a) (watcher_ a))).
    + intros [= <- <-]. split; [done|]. by intros [=].
  - destruct (op_ q =? kPublish); [|intros [= <- <-]; split; [done|by intros [=]]]. intros [= E]. by eapply route_explained.
Qed.

(** The fields of an answer have their widths. *)
Lemma Handle_ok t1 t2 b q a r a1 : ParseRequest b = Some q -> Handle t1 t2 q a = Some (r, a1) -> response_ok r.
Proof.
  intros P. assert (B : Locator.uint 64 (request_id q)).
  { unfold ParseRequest in P. destruct (_ <? _)%nat; [done|]. injection P as <-. cbn. unfold Locator.uint, num.
    pose proof (get_le_bound (field 4 8 b)) as R. assert (zlen (field 4 8 b) <= 8) by (unfold field, Locator.field; rewrite length_take; lia).
    assert (256 ^ zlen (field 4 8 b) <= 256 ^ 8) by (apply Z.pow_le_mono_r; lia). change (2 ^ 64) with (256 ^ 8). lia. }
  assert (Rt : forall a0 r0 a2, route t1 t2 q a0 = (r0, a2) -> response_ok r0).
  { intros a0 r0 a2. unfold route. destruct (Get _ _ _) as [[n|] c]; [|destruct (Resolve _ _ _)]; intros [= <- <-]; (split; [exact B|by repeat split]). }
  unfold Handle, ResolveRead, ResolveWrite. destruct (_ || _).
  - destruct (MaybeContains _ _ _) as [[[] v]|]; [| |done]; [intros [= E]; by eapply Rt|intros [= <- _]; (split; [exact B|by repeat split])].
  - destruct (op_ q =? kPublish); [intros [= E]; by eapply Rt|intros [= <- _]; (split; [exact B|by repeat split])].
Qed.

Lemma step_explained o l x a r a1 : Explained o l (cache_ a) -> step x a = Some (r, a1) ->
  let y := mkEvent x a r in
  Explained o (l ++ [y]) (cache_ a1) /\
  forall t1 t2 b q ans resp, x = IRequest t1 t2 b -> ParseRequest b = Some q -> r = Some ans -> ParseResponse ans = Some resp -> status resp = kOk ->
    exists z n t, z ∈ l ++ [y] /\ resolved z (MakeKey q) n t /\ r_node_id resp = take kMaxNodeId n /\ (z = y \/ t1 <= t + ttl o).
Proof.
  intros X E y. assert (M : Explained o (l ++ [y]) (cache_ a)) by (eapply Explained_mono; [|exact X]; set_solver).
  destruct x as [t1 t2 b|body|fresh|t|t]; cbn [step] in E.
  2: { destruct (RefreshOnce _ _ _) as [[z w] r0]. injection E as <- <-. by split. }
  2-4: by injection E as <- <-; split.
  unfold HandleRaw in E. destruct (ParseRequest b) as [q|] eqn:P.
  - destruct (Handle t1 t2 q a) as [[resp a2]|] eqn:H; [|done]. cbn in E. injection E as <- <-.
    destruct (Handle_explained o l t1 t2 b q a resp a2 y X P eq_refl eq_refl H) as [X1 S1]. split; [done|].
    intros t1' t2' b' q' ans resp' [= <- <- <-] P' [= <-] R Ok. rewrite P in P'. injection P' as <-.
    destruct (response_roundtrip resp (Handle_ok _ _ _ _ _ _ _ P H)) as [R' _]. rewrite R' in R. injection R as <-. cbn in Ok.
    destruct (S1 Ok) as (z & t & Z1 & Z2 & Z3). by exists z, (r_node_id resp), t.
  - cbn in E. injection E as <- <-. split; [done|]. intros ? ? ? ? ? ? [= <- <- <-] P'. congruence.
Qed.

Lemma run_explained o xs : forall l a l' a', Explained o l (cache_ a) -> run xs a = Some (l', a') -> forall l1 y l2, l' = l1 ++ y :: l2 ->
  forall t1 t2 b q ans resp, e_input y = IRequest t1 t2 b -> ParseRequest b = Some q -> e_answer y = Some ans -> ParseResponse ans = Some resp -> status resp = kOk ->
    exists z n t, z ∈ l ++ l1 ++ [y] /\ resolved z (MakeKey q) n t /\ r_node_id resp = take kMaxNodeId n /\ (z = y \/ t1 <= t + ttl o).
Proof.
  induction xs as [|x xs IH]; cbn [run]; intros l a l' a' X E l1 y l2 El.
  { injection E as <- <-. by destruct l1. }
  destruct (step x a) as [[r a1]|] eqn:S1; [|done]. cbn in E. destruct (run xs a1) as [[l'' a2]|] eqn:R; [|done]. cbn in E. injection E as <- <-.
  destruct (step_explained o l x a r a1 X S1) as [X1 A1]. destruct l1 as [|z l1]; injection El as E1 E2.
  - subst y. cbn [e_input e_answer]. intros t1 t2 b q ans resp Ex P Ea. cbn [app]. exact (A1 t1 t2 b q ans resp Ex P Ea).
  - subst z. intros t1 t2 b q ans resp Ex P Ea Pr Ok. destruct (IH _ _ _ _ X1 R l1 y l2 E2 t1 t2 b q ans resp Ex P Ea Pr Ok) as (z & n & t & Z1 & Z2).
    exists z, n, t. split; [|done]. rewrite <- !app_assoc in Z1. exact Z1.
Qed.

(** [C28] However requests, refreshes of the view and of the sketches and registrations of tenants
    interleave: a node that the agent names is the one the resolver chooses for the tenant
    and prefix of the request among the nodes known at that moment, or at the moment of an
    earlier request, from which no more than the life of a cache entry has passed. So a node
    that leaves the view is named for at most that long. *)
Theorem answers_are_fresh o v r0 w xs l a' l1 y l2 t1 t2 b q ans resp :
  run xs (mkAgent (new_cache o) v r0 w) = Some (l, a') -> l = l1 ++ y :: l2 ->
  e_input y = IRequest t1 t2 b -> ParseRequest b = Some q -> e_answer y = Some ans -> ParseResponse ans = Some resp -> status resp = kOk ->
  exists z n t, z ∈ l1 ++ [y] /\ resolved z (MakeKey q) n t /\ r_node_id resp = take kMaxNodeId n /\ (z = y \/ t1 <= t + ttl o).
Proof.
  intros R El Ex P Ea Pr Ok. assert (X : Explained o [] (new_cache o)).
  { constructor; [apply new_cache_CInv|done|]. intros e Q. by apply not_elem_of_nil in Q. }
  exact (run_explained o xs [] (mkAgent (new_cache o) v r0 w) l a' X R l1 y l2 El t1 t2 b q ans resp Ex P Ea Pr Ok).
Qed.

(** ** Sketches and draining nodes *)

(** The agent calls no chunk absent that a node has published: while the sketch installed
    for a tenant is the snapshot of one with [keys], every request for them is answered, and
    not by the sketch. *)
Theorem published_prefixes_asked_for t1 t2 q a p keys a0 :
  Bloom.params_ok p ->
  exists b0, Bloom.add_all Blake3_64 keys (Bloom.make p) = Some b0 /\
  (sketches_ (bloom_ a) !! q_tenant_id q = Some (Bloom.Set_ p (Bloom.Snapshot b0) a0) -> prefix_hash q ∈ keys ->
   exists r a1, Handle t1 t2 q a = Some (r, a1) /\ source r <> kBloomNegative).
Proof.
  intros Po. destruct (Bloom.sketch_complete Blake3_64 p keys a0 Po) as (b0 & A & _ & In & Ag). exists b0. split; [done|]. intros Sk K.
  assert (Rt : forall a2, exists r a1, Some (route t1 t2 q a2) = Some (r, a1) /\ source r <> kBloomNegative).
  { intros a2. unfold route. destruct (Get _ _ _) as [[n|] c]; [|destruct (Resolve _ _ _)]; (eexists _, _; split; [reflexivity|done]). }
  unfold Handle, ResolveRead, ResolveWrite, MaybeContains. destruct (_ || _).
  - rewrite Sk, Ag, (In _ K). apply Rt.
  - destruct (op_ q =? kPublish); [apply Rt|]. eexists _, _. by split.
Qed.

Lemma TopK_subset `{!Hrw.StdSortLaws St} k key r n :
  Hrw.numbers (Hrw.score Blake3_64 (Hrw.overlap_alpha_ r) None key <$> Hrw.nodes_ r) -> n ∈ Hrw.TopK Blake3_64 key k None r ->
  n ∈ Hrw.id <$> Hrw.nodes_ r.
Proof.
  intros N. unfold Hrw.TopK. destruct (Hrw.nodes_ r) as [|x l] eqn:E; [by destruct k|]. destruct k as [|k]; [by intros Q; apply not_elem_of_nil in Q|].
  rewrite <- E in *. set (sc := Hrw.score _ _ _ _ <$> Hrw.nodes_ r) in *. intros Q.
  assert (Q' : n ∈ Hrw.sid <$> sc).
  { apply list_elem_of_fmap in Q as (s & -> & Q). apply list_elem_of_fmap. exists s. split; [done|]. destruct (_ <? _)%nat.
    - apply subseteq_take in Q. by rewrite (Hrw.std_partial_sort_perm _ sc N) in Q.
    - by rewrite (Hrw.std_sort_perm sc N) in Q. }
  unfold sc in Q'. rewrite <- list_fmap_compose in Q'. exact Q'.
Qed.

(** Once a view is installed, no request is sent to a node that it says is draining, nor to
    one it does not have, as long as the weights are numbers. *)
Theorem draining_nodes_avoided `{!Hrw.StdSortLaws St} body w r z w' r' tenant pre n :
  RefreshOnce (Some body) w r = (z, w', r') -> 0 <= z ->
  Hrw.numbers (Hrw.score Blake3_64 (Hrw.overlap_alpha_ r') None (tenant ++ pre) <$> Hrw.nodes_ r') ->
  Resolve tenant pre r' = Some n ->
  exists l a fields, parse body = Some (JObj l) /\ find (str "nodes") l = Some (JArr a) /\ JObj fields ∈ a /\
    find (str "node_id") fields = Some (JStr n) /\ draining fields = false.
Proof.
  intros E Z0 N R. unfold Resolve in R. destruct (Hrw.NodeCount r' =? 0)%nat eqn:C0; [done|].
  assert (Q : n ∈ Hrw.id <$> Hrw.nodes_ r').
  { destruct (Hrw.Primary _ _ _ _) as [|c i] eqn:P; [done|]. injection R as <-. unfold Hrw.Primary in P.
    destruct (Hrw.TopK _ _ _ _ _) as [|n0 t] eqn:T; [done|]. subst n0. apply (TopK_subset 1 (tenant ++ pre)); [done|]. rewrite T. by left. }
  unfold RefreshOnce in E. cbn [mbind option_bind] in E. destruct (ParseNodes body) as [nodes|] eqn:P; [|injection E as <- _ _; lia].
  injection E as _ _ <-. cbn in Q. rewrite <- list_fmap_compose in Q. apply list_elem_of_fmap in Q as ([i wt] & En & Q).
  assert (n = i) as -> by (rewrite En; reflexivity). clear En.
  unfold ParseNodes in P. destruct body as [|c body]; [injection P as <-; by apply not_elem_of_nil in Q|].
  destruct (parse _) as [[| | | | |l]|] eqn:Pb; try done. destruct (find (str "nodes") l) as [[| | | |a|]|] eqn:Fn; try done. injection P as <-.
  apply list_elem_of_omap in Q as (j & Q & Pj). unfold parse_node in Pj. destruct j as [| | | | |fields]; try done.
  exists l, a, fields. split; [done|]. split; [done|]. split; [done|]. destruct (find (str "node_id") fields) as [[| | |s| |]|]; try done.
  destruct s as [|c0 s]; [done|]. destruct (draining fields) eqn:D; [done|]. by injection Pj as <- _.
Qed.

End Agent.

(** ** Witnesses *)

#[local] Existing Instances Hrw.merge_sorts Hrw.merge_sorts_laws.

(** Two nodes, one of them draining, in a view; the key is looked up twice. *)
Definition ex_node (i state : bytes) : json := JObj [(str "node_id", JStr i); (str "state", JStr state)].
Definition ex_parse (b : bytes) : option json :=
  Some (JObj [(str "nodes", JArr [ex_node (str "a") (str "NODE_DRAINING"); ex_node (str "b") (str "active")])]).
Definition ex_request : Request := mkRequest kLookup 9 (replicate 16 x01) (replicate 16 x02).
Definition ex_agent : Agent := mkAgent (new_cache (mkCacheOptions 4 30)) new_view (Hrw.new_ring Hrw.default_alpha) (mkWatcher 0 0 0).
Definition ex_inputs : list input := [IView (Some [x7b]); IRequest 5 5 (SerializeRequest ex_request); IView (Some []); IRequest 35 35 (SerializeRequest ex_request)].
Definition ex_events : list event := default [] (fst <$> run Hrw.ex_hash ex_parse ex_inputs ex_agent).

Lemma answers_are_fresh_witness :
  exists y z n t, ex_events !! 3%nat = Some y /\ resolved Hrw.ex_hash z (MakeKey ex_request) n t /\ str "b" = take kMaxNodeId n /\ (z = y \/ 35 <= t + 30).
Proof.
  assert (A3 : e_answer <$> ex_events !! 3%nat = Some (Some (SerializeResponse (mkResponse 9 kOk kCache 0 (str "b"))))) by (vm_compute; reflexivity).
  assert (I3 : e_input <$> ex_events !! 3%nat = Some (IRequest 35 35 (SerializeRequest ex_request))) by (vm_compute; reflexivity).
  destruct (ex_events !! 3%nat) as [y|] eqn:Y; [|discriminate]. injection A3 as Ay. injection I3 as Iy. unfold ex_events in Y.
  destruct (run Hrw.ex_hash ex_parse ex_inputs ex_agent) as [[l a']|] eqn:R; [|discriminate]. cbn [default from_option id fmap option_fmap option_map fst] in Y.
  assert (Sp : l = take 3 l ++ y :: drop 4 l) by (symmetry; apply take_drop_middle; exact Y).
  destruct (answers_are_fresh Hrw.ex_hash ex_parse (mkCacheOptions 4 30) new_view (Hrw.new_ring Hrw.default_alpha) (mkWatcher 0 0 0) ex_inputs l a'
    (take 3 l) y (drop 4 l) 35 35 (SerializeRequest ex_request) ex_request
    (SerializeResponse (mkResponse 9 kOk kCache 0 (str "b"))) (mkResponse 9 kOk kCache 0 (str "b")) R Sp Iy) as (z & n & t & _ & Z2 & Z3 & Z4).
  - vm_compute. reflexivity.
  - exact Ay.
  - vm_compute. reflexivity.
  - reflexivity.
  - exists y, z, n, t. split; [done|]. split; [exact Z2|]. split; [exact Z3|exact Z4].
Defined.

Definition ex_installed : Hrw.Ring := (RefreshOnce ex_parse (Some [x7b]) (mkWatcher 0 0 0) (Hrw.new_ring Hrw.default_alpha)).2.

Lemma draining_nodes_avoided_witness :
  exists fields, find (str "node_id") fields = Some (JStr (str "b")) /\ draining fields = false.
Proof.
  destruct (draining_nodes_avoided Hrw.ex_hash ex_parse [x7b] (mkWatcher 0 0 0) (Hrw.new_ring Hrw.default_alpha) 1 (mkWatcher 1 0 1) ex_installed
    (replicate 16 x01) (replicate 16 x02) (str "b")) as (_ & _ & fields & _ & _ & _ & F & D).
  - vm_compute. reflexivity.
  - lia.
  - repeat constructor.
  - vm_compute. reflexivity.
  - by exists fields.
Defined.

(** The agent ranks the nodes for tenant and prefix, a node for tenant, model and prefix:
    they disagree about the owner of a chunk. *)
Example agent_and_node_disagree :
  let t := replicate 16 x00 in let p := replicate 16 x00 in
  let r := SetNodes [(str "a", double_of 1); (str "b", double_of 1)] (Hrw.new_ring Hrw.default_alpha) in
  let hash x := if bool_decide (length x = 33%nat) then get_be x else 2 ^ 63 - get_be (take 1 x) * 2 ^ 54 in
  Resolve hash t p r = Some (str "b") /\ Hrw.Primary hash (t ++ put_le 8 7 ++ p) None r = str "a".
Proof. vm_compute. split; reflexivity. Qed.

End AgentRouter.
