(* ===== verification/ControlPlane.v ===== *)
(** * The control plane

    control-plane/internal: the registry of nodes over etcd (registry.go), the publisher of
    cluster views with its debounce timer (view.go), the overlay of drained nodes
    (drain.go), the aggregator of sketches (sketch.go) and the handlers of the service
    (server.go). A loop over channels is a step per message; what etcd answers and delivers
    are arguments of the steps, and the encoding of JSON is a parameter.

    The theorems: the view that is published holds exactly the registered nodes, sorted,
    with the drained ones marked, and its epochs increase ([views_follow_membership]);
    every key of any node's sketch is in the sketch of the cluster
    ([cluster_sketch_complete]); an agent that installs a published view sends no request
    to a node that was drained ([drained_nodes_get_no_requests]). The examples show what is
    lost at the start of a watch. *)

From S2P Require Import Prelude Floats Mtls Bloom Hrw Locator Etcd Registrar Directory AgentRouter.
From Stdlib Require Import ZArith Lia.
From stdpp Require Import sorting.

Open Scope Z_scope.

Module ControlPlane.

#[local] Notation str := Mtls.str.

(** ** Registry *)

Definition NodesPrefix : bytes := str "/kvcache/nodes/".
Definition DefaultLeaseTTL : Z := 10.

Record NodeDescriptor := mkNode {
  NodeID : bytes; Host : bytes; GrpcPort : Z; Version : bytes; State : bytes; PinnedBytes : Z; DramBytes : Z; NvmeBytes : Z;
  NumaNodes : Z; Vcpus : Z; SupportedTransports : list bytes }.

Definition bare (i : bytes) : NodeDescriptor := mkNode i [] 0 [] [] 0 0 0 0 0 [].

Definition TrimPrefix (k p : bytes) : bytes := if bool_decide (p `prefix_of` k) then drop (length p) k else k.

Inductive EventType := EventAdd | EventUpdate | EventDelete.
Record Event := mkEvent { type : EventType; node : NodeDescriptor }.

(** An event of etcd: [create] is [IsCreate]; a deletion has the previous value, if any. *)
Inductive WatchEvent := WPut (create : bool) (k v : bytes) | WDelete (k : bytes) (prev : option bytes).

Section Json.
(** [json.Unmarshal] and [json.Marshal] of a descriptor. *)
Context (unmarshal : bytes -> option NodeDescriptor) (marshal : NodeDescriptor -> bytes).

(** [kvs] is what etcd answers for the prefix. *)
Definition list_node (kv : bytes * bytes) : NodeDescriptor := default (bare (TrimPrefix kv.1 NodesPrefix)) (unmarshal kv.2).
Definition ListNodes (kvs : list (bytes * bytes)) : list NodeDescriptor := list_node <$> kvs.

Definition decodeEvent (ev : WatchEvent) : option Event :=
  match ev with
  | WPut create _ v => (fun n => mkEvent (if create then EventAdd else EventUpdate) n) <$> unmarshal v
  | WDelete k prev => Some (mkEvent EventDelete (default (bare (TrimPrefix k NodesPrefix)) (prev ≫= unmarshal)))
  end.

(** What [Watch] sends: the nodes of its own snapshot and then the changes. *)
Definition Watch (initial : list (bytes * bytes)) (evs : list WatchEvent) : list Event :=
  (mkEvent EventAdd <$> ListNodes initial) ++ omap decodeEvent evs.

(** The requests of etcd/client.go over an etcd of any kind; a request that fails answers
    [None] or [false]. *)
Context {E : Type} (LeaseGrant : Z -> E -> option Z * E) (Put : bytes -> bytes -> Z -> E -> bool * E) (LeaseKeepAlive : Z -> E -> bool * E).

Definition RegisterNode (n : NodeDescriptor) (ttlSec : Z) (c : E) : option Z * E :=
  let ttlSec := if ttlSec <=? 0 then DefaultLeaseTTL else ttlSec in
  match LeaseGrant ttlSec c with
  | (None, c1) => (None, c1)
  | (Some lease, c1) =>
      let '(ok, c2) := Put (NodesPrefix ++ NodeID n) (marshal n) lease c1 in
      ((if ok then Some lease else None), c2)
  end.

(** What [HeartbeatLoop] reads: an answer of the stream, its end, or the cancellation. *)
Inductive ka_event := KaAnswer | KaClosed | KaCancelled.

Definition register_and_keep (n : NodeDescriptor) (ttlSec : Z) (c : E) : bool * E :=
  match RegisterNode n ttlSec c with (None, c1) => (false, c1) | (Some lease, c1) => LeaseKeepAlive lease c1 end.

(** [None] while the loop waits, otherwise whether it ended without an error. *)
Fixpoint heartbeat (n : NodeDescriptor) (ttlSec : Z) (xs : list ka_event) (c : E) : option bool * E :=
  match xs with
  | [] => (None, c)
  | KaAnswer :: xs => heartbeat n ttlSec xs c
  | KaCancelled :: _ => (Some true, c)
  | KaClosed :: xs => let '(ok, c1) := register_and_keep n ttlSec c in if ok then heartbeat n ttlSec xs c1 else (Some false, c1)
  end.

Definition HeartbeatLoop (n : NodeDescriptor) (ttlSec : Z) (xs : list ka_event) (c : E) : option bool * E :=
  let '(ok, c1) := register_and_keep n ttlSec c in if ok then heartbeat n ttlSec xs c1 else (Some false, c1).

(** *** The service *)

Record Capacity := mkCapacity { c_pinned : Z; c_dram : Z; c_nvme : Z; c_numa : Z; c_vcpus : Z }.
Record RegisterRequest := mkRegister { r_node_id : bytes; r_host : bytes; r_version : bytes; r_transports : list bytes; r_capacity : option Capacity }.
Record Server := mkServer { clusterID : bytes; registerCount : Z; leaseTTLSec : Z }.

Definition NewServer (cid : bytes) (ttl : Z) : Server :=
  mkServer (match cid with [] => str "kvcache" | _ => cid end) 0 (if ttl =? 0 then 15 else ttl).

Definition descriptor (q : RegisterRequest) : NodeDescriptor :=
  let cap := default (mkCapacity 0 0 0 0 0) (r_capacity q) in
  mkNode (r_node_id q) (r_host q) 0 (r_version q) [] (c_pinned cap) (c_dram cap) (c_nvme cap) (c_numa cap) (c_vcpus cap) (r_transports q).

Definition Register (q : option RegisterRequest) (s : Server) (c : E) : option (bytes * Z) * Server * E :=
  match q with
  | None => (None, s, c)
  | Some q =>
      match r_node_id q with
      | [] => (None, s, c)
      | _ =>
          let '(lease, c1) := RegisterNode (descriptor q) (leaseTTLSec s) c in
          match lease with
          | None => (None, s, c1)
          | Some _ =>
              let s1 := mkServer (clusterID s) (u64 (registerCount s + 1)) (leaseTTLSec s) in
              (Some (clusterID s, registerCount s1), s1, c1)
          end
      end
  end.

Definition Heartbeat (node_id : bytes) (s : Server) : option Z := match node_id with [] => None | _ => Some (leaseTTLSec s) end.

End Json.

(** ** Drain markers *)

Definition DrainPrefix : bytes := str "/kvcache/drain/".
Definition StateDraining : bytes := str "draining".

Definition set_state (st : bytes) (n : NodeDescriptor) : NodeDescriptor :=
  mkNode (NodeID n) (Host n) (GrpcPort n) (Version n) st (PinnedBytes n) (DramBytes n) (NvmeBytes n) (NumaNodes n) (Vcpus n) (SupportedTransports n).

Definition applyDrainOverlay (drained : gset bytes) (nodes : list NodeDescriptor) : list NodeDescriptor :=
  (fun n => if bool_decide (NodeID n ∈ drained) then set_state StateDraining n else n) <$> nodes.

(** What follows the last slash, if there is one and anything follows it. *)
Fixpoint last_segment (k : bytes) : option bytes :=
  match k with
  | [] => None
  | c :: r => match last_segment r with
              | Some s => Some s
              | None => if bool_decide (c = x2f) && negb (bool_decide (x2f ∈ r)) then (match r with [] => None | _ => Some r end) else None
              end
  end.

(** [marker] is the node id of a marker that can be read. *)
Definition drained_id (marker : bytes -> option bytes) (kv : bytes * bytes) : option bytes :=
  match marker kv.2 with Some (c :: i) => Some (c :: i) | _ => last_segment kv.1 end.
Definition loadDrainedIDs (marker : bytes -> option bytes) (kvs : list (bytes * bytes)) : gset bytes := list_to_set (omap (drained_id marker) kvs).

(** ** The publisher of views *)

Definition ViewKey : bytes := str "/kvcache/cluster/view".

Record ClusterView := mkView { Epoch : Z; LeaderID : bytes; PublishedAtNs : Z; Nodes : list NodeDescriptor }.

(** [armed]: the timer runs. *)
Record ViewPublisher := mkPublisher { latest : list NodeDescriptor; epoch : Z; dirty : bool; armed : bool; stopped : bool }.

Fixpoint replace_node (n : NodeDescriptor) (l : list NodeDescriptor) : option (list NodeDescriptor) :=
  match l with
  | [] => None
  | x :: r => if bool_decide (NodeID x = NodeID n) then Some (n :: r) else (fun r' => x :: r') <$> replace_node n r
  end.
Fixpoint remove_node (i : bytes) (l : list NodeDescriptor) : list NodeDescriptor :=
  match l with [] => [] | x :: r => if bool_decide (NodeID x = i) then r else x :: remove_node i r end.

Definition apply_event (ev : Event) (l : list NodeDescriptor) : list NodeDescriptor :=
  match type ev with
  | EventAdd | EventUpdate => default (l ++ [node ev]) (replace_node (node ev) l)
  | EventDelete => remove_node (NodeID (node ev)) l
  end.

Definition node_le (a b : NodeDescriptor) : Prop := ble (NodeID a) (NodeID b) = true.
#[global] Instance node_le_dec : RelDecision node_le.
Proof. unfold RelDecision, node_le. apply _. Defined.

(** The drain markers, or [None] if they cannot be read, the clock, and whether [Put]
    succeeds. *)
Record publish_io := mkIo { markers : option (gset bytes); now_ns : Z; put_ok : bool }.

(** The view that is stored, if any. *)
Definition publish (leader : bytes) (io : publish_io) (p : ViewPublisher) : option ClusterView * ViewPublisher :=
  let sorted := merge_sort node_le (latest p) in
  let nodes := match markers io with Some d => applyDrainOverlay d sorted | None => sorted end in
  let e := u64 (epoch p + 1) in
  let p1 := mkPublisher sorted e (dirty p) (armed p) (stopped p) in
  (if put_ok io then Some (mkView e leader (now_ns io) nodes) else None, p1).

Inductive input := IEvent (ev : Event) | IClosed (io : publish_io) | ITimer (io : publish_io).

Definition new_publisher (snap : list NodeDescriptor) : ViewPublisher := mkPublisher snap 0 true true false.

Definition step (leader : bytes) (x : input) (p : ViewPublisher) : option ClusterView * ViewPublisher :=
  if stopped p then (None, p)
  else
    match x with
    | IEvent ev => (None, mkPublisher (apply_event ev (latest p)) (epoch p) true true false)
    | IClosed io =>
        let '(v, p1) := if dirty p then publish leader io p else (None, p) in
        (v, mkPublisher (latest p1) (epoch p1) (dirty p1) (armed p1) true)
    | ITimer io =>
        if armed p then
          if dirty p then
            let '(v, p1) := publish leader io p in
            match v with
            | Some _ => (v, mkPublisher (latest p1) (epoch p1) false false false)
            | None => (None, mkPublisher (latest p1) (epoch p1) true true false)
            end
          else (None, mkPublisher (latest p) (epoch p) false false false)
        else (None, p)
    end.

(** The views stored, in order. *)
Fixpoint run (leader : bytes) (xs : list input) (p : ViewPublisher) : list ClusterView * ViewPublisher :=
  match xs with
  | [] => ([], p)
  | x :: xs => let '(v, p1) := step leader x p in let '(l, p2) := run leader xs p1 in (option_list v ++ l, p2)
  end.

(** [body] is the value of the key, empty if there is none; [None] if it cannot be read.
    The answer is [None] for an error. *)
Definition ReadView (unmarshal : bytes -> option ClusterView) (body : option bytes) : option (option ClusterView) :=
  match body with None => None | Some [] => Some None | Some b => Some <$> unmarshal b end.

(** ** The aggregator of sketches *)

Definition SketchesPrefix : bytes := str "/kvcache/sketches/".
Definition ClusterSketchKey : bytes := str "/kvcache/cluster/sketch".

Record SketchAggregator := mkAggregator { sketches : gmap bytes bytes; mBits : Z; kHashes : Z }.

Definition new_aggregator : SketchAggregator := mkAggregator ∅ 0 0.

Definition byte_count (m : Z) : nat := Z.to_nat (u32 (m + 7) / 8).

Definition ingestLocked (nid blob : bytes) (a : SketchAggregator) : SketchAggregator :=
  if zlen blob <? 8 then a
  else
    let m := get_le (take 4 blob) in
    let k := get_le (take 4 (drop 4 blob)) in
    if (m =? 0) || (k =? 0) then a
    else if zlen blob <? 8 + Z.of_nat (byte_count m) then a
    else
      let keep := mkAggregator (<[nid := take (byte_count m) (drop 8 blob)]> (sketches a)) in
      if mBits a =? 0 then keep m k
      else if negb (mBits a =? m) || negb (kHashes a =? k) then a
      else keep (mBits a) (kHashes a).

Definition sketch_event (ev : WatchEvent) (a : SketchAggregator) : SketchAggregator :=
  let nid := TrimPrefix (match ev with WPut _ k _ | WDelete k _ => k end) SketchesPrefix in
  match nid with
  | [] => a
  | _ =>
      match ev with
      | WPut _ _ v => ingestLocked nid v a
      | WDelete _ _ => mkAggregator (delete nid (sketches a)) (mBits a) (kHashes a)
      end
  end.

(** The keys present at the start; then the events. *)
Definition seed (kvs : list (bytes * bytes)) (a : SketchAggregator) : SketchAggregator :=
  fold_left (fun a kv => sketch_event (WPut true kv.1 kv.2) a) kvs a.

(** [bits[i] |= src[i]] for every byte of [bits]; [None] if [src] has no such byte. *)
Fixpoint or_into (bits src : bytes) : option bytes :=
  match bits, src with
  | [], _ => Some []
  | _ :: _, [] => None
  | b :: bits, s :: src => (fun r => byte_of (Z.lor (byte_val b) (byte_val s)) :: r) <$> or_into bits src
  end.

Fixpoint or_all (srcs : list bytes) (bits : bytes) : option bytes :=
  match srcs with [] => Some bits | s :: srcs => or_into bits s ≫= or_all srcs end.

(** The value that [publish] writes, when the sketches are visited in the order [srcs]. *)
Definition aggregate (srcs : list bytes) (a : SketchAggregator) : option bytes :=
  let '(m, k) := if mBits a =? 0 then (1, 1) else (mBits a, kHashes a) in
  (fun bits => put_le 4 m ++ put_le 4 k ++ bits) <$> or_all srcs (replicate (byte_count m) x00).

(** The loop of [Run] after the seed, as that of the views; [None] if it panics. *)
Inductive sketch_input := SEvents (evs : list WatchEvent) | STimer (srcs : list bytes) (ok : bool).
Record SketchLoop := mkLoop { agg : SketchAggregator; s_dirty : bool }.

Definition sketch_step (x : sketch_input) (l : SketchLoop) : option (option bytes * SketchLoop) :=
  match x with
  | SEvents evs => Some (None, mkLoop (fold_left (fun a ev => sketch_event ev a) evs (agg l)) true)
  | STimer srcs ok =>
      if s_dirty l then
        blob ← aggregate srcs (agg l);
        Some (if ok then (Some blob, mkLoop (agg l) false) else (None, l))
      else Some (None, l)
  end.

(** ** Membership *)

Definition mark (d : option (gset bytes)) (n : NodeDescriptor) : NodeDescriptor :=
  match d with Some d => if bool_decide (NodeID n ∈ d) then set_state StateDraining n else n | None => n end.

Lemma mark_id d n : NodeID (mark d n) = NodeID n.
Proof. unfold mark. destruct d; [|done]. by case_bool_decide. Qed.

Lemma replace_node_spec n l : NoDup (NodeID <$> l) ->
  match replace_node n l with
  | Some l' => NodeID <$> l' = NodeID <$> l /\ forall x, x ∈ l' <-> x = n \/ (x ∈ l /\ NodeID x <> NodeID n)
  | None => NodeID n ∉ NodeID <$> l
  end.
Proof.
  induction l as [|y l IH]; intros N; cbn [replace_node]; [by apply not_elem_of_nil|]. rewrite fmap_cons in N. apply NoDup_cons in N as [N1 N2].
  specialize (IH N2). case_bool_decide as E.
  - split; [by rewrite !fmap_cons, E|]. intros x. rewrite !elem_of_cons. split.
    + intros [->|X]; [by left|right]. split; [by right|]. intros Q. apply N1. rewrite E, <- Q. by apply list_elem_of_fmap_2.
    + intros [->|[[->|X] Q]]; [by left|done|by right].
  - destruct (replace_node n l) as [l'|]; cbn [fmap option_fmap option_map].
    + destruct IH as [I1 I2]. split; [by rewrite !fmap_cons, I1|]. intros x. rewrite !elem_of_cons, I2. split.
      * intros [->|[->|[X Q]]]; [right; split; [by left|done]|by left|right; split; [by right|done]].
      * intros [->|[[->|X] Q]]; [by right; left|by left|right; right; done].
    + rewrite fmap_cons, not_elem_of_cons. done.
Qed.

Lemma remove_node_spec i l : NoDup (NodeID <$> l) ->
  NoDup (NodeID <$> remove_node i l) /\ forall x, x ∈ remove_node i l <-> x ∈ l /\ NodeID x <> i.
Proof.
  induction l as [|y l IH]; intros N; cbn [remove_node]; [split; [done|]; intros x; split; [intros X|intros [X _]]; by apply not_elem_of_nil in X|].
  rewrite fmap_cons in N. apply NoDup_cons in N as [N1 N2]. destruct (IH N2) as [I1 I2]. case_bool_decide as E.
  - split; [done|]. intros x. rewrite elem_of_cons. split; [|intros [[->|X] Q]; done].
    intros X. split; [by right|]. intros Q. apply N1. rewrite E, <- Q. by apply list_elem_of_fmap_2.
  - split.
    + rewrite fmap_cons. apply NoDup_cons. split; [|done]. intros (x & Q & X)%list_elem_of_fmap. apply I2 in X as [X _]. apply N1. rewrite Q. by apply list_elem_of_fmap_2.
    + intros x. rewrite !elem_of_cons, I2. split; [intros [->|[X Q]]|intros [[->|X] Q]]; auto.
Qed.

Lemma apply_event_spec ev l : NoDup (NodeID <$> l) ->
  NoDup (NodeID <$> apply_event ev l) /\
  forall x, x ∈ apply_event ev l <-> (x = node ev /\ type ev <> EventDelete) \/ (x ∈ l /\ NodeID x <> NodeID (node ev)).
Proof.
  intros N. destruct ev as [t n]. unfold apply_event. cbn [type node].
  assert (U : NoDup (NodeID <$> default (l ++ [n]) (replace_node n l)) /\
    forall x, x ∈ default (l ++ [n]) (replace_node n l) <-> x = n \/ (x ∈ l /\ NodeID x <> NodeID n)).
  { pose proof (replace_node_spec n l N) as R. destruct (replace_node n l) as [l'|]; cbn [default from_option id].
    - destruct R as [R1 R2]. by rewrite R1.
    - split; [rewrite fmap_app; apply NoDup_app; split; [done|]; split; [|apply NoDup_singleton]|].
      + intros i I J. apply list_elem_of_singleton in J as ->. done.
      + intros x. rewrite elem_of_app, list_elem_of_singleton. split; [intros [X| ->]; [right; split; [done|]|by left]|intros [->|[X _]]; auto].
        intros Q. apply R. rewrite <- Q. by apply list_elem_of_fmap_2. }
  destruct U as [U1 U2]. destruct (remove_node_spec (NodeID n) l N) as [R1 R2].
  destruct t; (split; [done|]; intros x; first [rewrite U2|rewrite R2]; naive_solver).
Qed.

Section Follow.
Context (unmarshal : bytes -> option NodeDescriptor).

Definition entry (k v : bytes) (n : NodeDescriptor) : Prop := unmarshal v = Some n /\ k = NodesPrefix ++ NodeID n.
Definition wf (m : gmap bytes bytes) : Prop := map_Forall (fun k v => exists n, entry k v n) m.

(** The node [n] is registered. *)
Definition registered (m : gmap bytes bytes) (n : NodeDescriptor) : Prop := exists k v, m !! k = Some v /\ entry k v n.

(** A change of the keys under the prefix and the events etcd sends of it. *)
Inductive change := CPut (k v : bytes) | CDelete (k : bytes).
Definition change_ok (x : change) : Prop := match x with CPut k v => exists n, entry k v n | CDelete _ => True end.
Definition emit (x : change) (m : gmap bytes bytes) : list WatchEvent * gmap bytes bytes :=
  match x with
  | CPut k v => ([WPut (bool_decide (m !! k = None)) k v], <[k := v]> m)
  | CDelete k => match m !! k with None => ([], m) | Some v => ([WDelete k (Some v)], delete k m) end
  end.
Fixpoint emit_all (xs : list change) (m : gmap bytes bytes) : list WatchEvent * gmap bytes bytes :=
  match xs with [] => ([], m) | x :: xs => let '(e, m1) := emit x m in let '(es, m2) := emit_all xs m1 in (e ++ es, m2) end.

(** What a sequence of events does to the membership. *)
Inductive Follows : gmap bytes bytes -> list Event -> gmap bytes bytes -> Prop :=
  | Follows_nil m : Follows m [] m
  | Follows_known m n es m' : registered m n -> Follows m es m' -> Follows m (mkEvent EventAdd n :: es) m'
  | Follows_put m t k v n es m' : t <> EventDelete -> entry k v n -> Follows (<[k := v]> m) es m' -> Follows m (mkEvent t n :: es) m'
  | Follows_delete m k v n es m' : m !! k = Some v -> entry k v n -> Follows (delete k m) es m' -> Follows m (mkEvent EventDelete n :: es) m'.

Definition Mirrors (m : gmap bytes bytes) (l : list NodeDescriptor) : Prop :=
  NoDup (NodeID <$> l) /\ forall n, n ∈ l <-> registered m n.

Lemma entry_inj k v n k' v' n' : entry k v n -> entry k' v' n' -> k = k' <-> NodeID n = NodeID n'.
Proof. intros [_ ->] [_ ->]. split; [apply app_inv_head|by intros ->]. Qed.

Lemma registered_id m n n' : registered m n -> registered m n' -> NodeID n = NodeID n' -> n = n'.
Proof.
  intros (k & v & M & E) (k' & v' & M' & E') I. apply (entry_inj _ _ _ _ _ _ E E') in I as ->. simplify_eq. destruct E, E'. congruence.
Qed.

Lemma wf_emit x m es m' : wf m -> change_ok x -> emit x m = (es, m') -> wf m' /\ forall rest m'', Follows m' rest m'' -> Follows m (omap (decodeEvent unmarshal) es ++ rest) m''.
Proof.
  intros W C E. destruct x as [k v|k]; cbn [emit] in E.
  - destruct C as [n C0]. injection E as <- <-. split; [by apply map_Forall_insert_2; [exists n|]|]. intros rest m'' F.
    pose proof C0 as [C1 C2]. cbn. rewrite C1. cbn. apply Follows_put with k v; [by case_bool_decide|done|done].
  - destruct (m !! k) as [v|] eqn:K; injection E as <- <-; [|done]. split; [by apply map_Forall_delete|]. intros rest m'' F.
    destruct (W _ _ K) as [n C0]. pose proof C0 as [C1 C2]. cbn. rewrite C1. cbn. by apply Follows_delete with k v.
Qed.

Lemma emit_all_follows xs : forall m es m', wf m -> Forall change_ok xs -> emit_all xs m = (es, m') -> Follows m (omap (decodeEvent unmarshal) es) m'.
Proof.
  induction xs as [|x xs IH]; intros m es m' W C E; cbn [emit_all] in E; [injection E as <- <-; apply Follows_nil|].
  apply Forall_cons in C as [C1 C2]. destruct (emit x m) as [e m1] eqn:E1. destruct (emit_all xs m1) as [es2 m2] eqn:E2. injection E as <- <-.
  destruct (wf_emit _ _ _ _ W C1 E1) as [W1 F]. rewrite omap_app. apply F. by apply IH.
Qed.

Lemma list_node_entry m k v : wf m -> m !! k = Some v -> entry k v (list_node unmarshal (k, v)).
Proof. intros W M. destruct (W _ _ M) as (n & C1 & C2). unfold list_node. cbn [fst snd]. by rewrite C1. Qed.

Lemma ListNodes_mirrors m kvs : wf m -> kvs ≡ₚ map_to_list m -> Mirrors m (ListNodes unmarshal kvs).
Proof.
  intros W P. assert (K : forall k v, (k, v) ∈ kvs -> entry k v (list_node unmarshal (k, v))).
  { intros k v I. apply (list_node_entry m); [done|]. rewrite P in I. by apply elem_of_map_to_list. }
  split.
  - assert (N : NoDup kvs.*1) by (rewrite P; apply NoDup_fst_map_to_list).
    assert ((fun i => NodesPrefix ++ i) <$> (NodeID <$> ListNodes unmarshal kvs) = kvs.*1) as Q.
    { unfold ListNodes. rewrite <- !list_fmap_compose. apply list_fmap_ext. intros i [k v] I. symmetry. apply list_elem_of_lookup_2, K in I. apply I. }
    rewrite <- Q in N. by apply NoDup_fmap_1 in N.
  - intros n. unfold ListNodes. rewrite list_elem_of_fmap. split.
    + intros ([k v] & -> & I). exists k, v. split; [rewrite P in I; by apply elem_of_map_to_list|by apply K].
    + intros (k & v & M & C). apply elem_of_map_to_list in M. rewrite <- P in M. exists (k, v). split; [|done].
      destruct (K _ _ M) as [K1 _], C as [C1 _]. congruence.
Qed.

Lemma burst_follows l : forall m es m', (forall n, n ∈ l -> registered m n) -> Follows m es m' -> Follows m ((mkEvent EventAdd <$> l) ++ es) m'.
Proof.
  induction l as [|n l IH]; intros m es m' R F; [done|]. apply Follows_known; [apply R; by left|]. apply IH; [|done]. intros x X. apply R. by right.
Qed.

Lemma Watch_follows kvs m xs es m' : wf m -> kvs ≡ₚ map_to_list m -> Forall change_ok xs -> emit_all xs m = (es, m') ->
  Follows m (Watch unmarshal kvs es) m'.
Proof.
  intros W P C E. apply burst_follows; [|by apply emit_all_follows with xs]. intros n. apply ListNodes_mirrors; done.
Qed.

Lemma Mirrors_perm m l l' : l ≡ₚ l' -> Mirrors m l -> Mirrors m l'.
Proof. intros P [M1 M2]. split; [by rewrite <- P|]. intros n. by rewrite <- P. Qed.

(** One event of the history. *)
Lemma Mirrors_event m ev es m' l : Mirrors m l -> Follows m (ev :: es) m' -> exists m1, Mirrors m1 (apply_event ev l) /\ Follows m1 es m'.
Proof.
  intros [N M] F. destruct (apply_event_spec ev l N) as [N1 A]. inversion F; subst; cbn [node type] in A; try match goal with H : entry _ _ _ |- _ => rename H into H2 end.
  - exists m. split; [|done]. split; [done|]. intros x. rewrite A, M. split; [intros [[-> _]|[X _]]; done|].
    intros X. destruct (decide (NodeID x = NodeID n)) as [Q|Q]; [left|by right]. split; [|done]. by apply (registered_id m).
  - exists (<[k := v]> m). split; [|done]. split; [done|]. intros x. rewrite A, M. split.
    + intros [[-> _]|[(k' & v' & X & C) Q]]; [exists k, v; split; [apply lookup_insert_eq|done]|].
      exists k', v'. split; [|done]. rewrite lookup_insert_ne; [done|]. intros ->. apply Q. by apply (entry_inj _ _ _ _ _ _ C H2).
    + intros (k' & v' & X & C). destruct (decide (k = k')) as [<-|K].
      * rewrite lookup_insert_eq in X. injection X as <-. left. split; [|done]. destruct C, H2. congruence.
      * rewrite lookup_insert_ne in X by done. right. split; [by exists k', v'|]. intros Q. apply K. symmetry. by apply (entry_inj _ _ _ _ _ _ C H2).
  - exists (delete k m). split; [|done]. split; [done|]. intros x. rewrite A, M. split.
    + intros [[_ ?]|[(k' & v' & X & C) Q]]; [done|]. exists k', v'. split; [|done]. rewrite lookup_delete_ne; [done|]. intros ->. apply Q. by apply (entry_inj _ _ _ _ _ _ C H2).
    + intros (k' & v' & X & C). apply lookup_delete_Some in X as [K X]. right. split; [by exists k', v'|]. intros Q. apply K. symmetry. by apply (entry_inj _ _ _ _ _ _ C H2).
Qed.

(** ** The views *)

Definition event_of (x : input) : option Event := match x with IEvent ev => Some ev | _ => None end.
Definition open (x : input) : bool := match x with IClosed _ => false | _ => true end.

(** The view [v] holds the nodes of [m], those of [d] marked. *)
Definition shows (m : gmap bytes bytes) (d : option (gset bytes)) (v : ClusterView) : Prop :=
  StronglySorted node_le (Nodes v) /\ NoDup (NodeID <$> Nodes v) /\ forall n, n ∈ Nodes v <-> exists n0, registered m n0 /\ n = mark d n0.

(** The view [v] was stored when the timer fired, with the markers that could be read then,
    and no event came since. *)
Definition stored_at (m : gmap bytes bytes) (past : list input) (v : ClusterView) : Prop :=
  exists before io after, past = before ++ ITimer io :: after /\ omap event_of after = [] /\ put_ok io = true /\ shows m (markers io) v.

Record Current (m : gmap bytes bytes) (past : list input) (last : option ClusterView) (p : ViewPublisher) : Prop := {
  cur_open : stopped p = false;
  cur_armed : dirty p = true -> armed p = true;
  cur_mirrors : Mirrors m (latest p);
  cur_last : dirty p = false -> exists v, last = Some v /\ stored_at m past v }.

Lemma stored_later m past v io : stored_at m past v -> stored_at m (past ++ [ITimer io]) v.
Proof.
  intros (b & i & a & -> & N & K & S). exists b, i, (a ++ [ITimer io]). split; [by rewrite <- app_assoc|]. split; [by rewrite omap_app, N|done].
Qed.

Lemma publish_nodes leader io p v p1 : publish leader io p = (Some v, p1) -> Nodes v = mark (markers io) <$> merge_sort node_le (latest p).
Proof.
  unfold publish. destruct (put_ok io); [|done]. intros [= <- _]. cbn [Nodes]. unfold mark. destruct (markers io); [done|]. by rewrite list_fmap_id.
Qed.

Lemma sorted_mark d l : StronglySorted node_le l -> StronglySorted node_le (mark d <$> l).
Proof.
  induction 1 as [|n l S IH F]; [constructor|]. rewrite fmap_cons. constructor; [done|]. apply Forall_fmap. eapply Forall_impl; [exact F|].
  intros x X. unfold node_le in *. cbn [compose]. by rewrite !mark_id.
Qed.

#[local] Instance node_le_total : Total node_le.
Proof. intros a b. unfold node_le, ble. destruct (blt (NodeID b) (NodeID a)) eqn:E; [right|by left]. destruct (blt (NodeID a) (NodeID b)) eqn:F; [|done].
  assert (ble (NodeID a) (NodeID b) = true) as Q by (apply ble_cases; by left). unfold ble in Q. by rewrite E in Q. Qed.
#[local] Instance node_le_trans : Transitive node_le.
Proof. intros a b c. apply ble_trans. Qed.

Lemma publish_shows leader io p v p1 m : Mirrors m (latest p) -> publish leader io p = (Some v, p1) -> shows m (markers io) v.
Proof.
  intros M E. apply publish_nodes in E. unfold shows. rewrite E. pose proof (merge_sort_Permutation node_le (latest p)) as P.
  apply (Mirrors_perm _ _ (merge_sort node_le (latest p))) in M as [M1 M2]; [|by symmetry]. split; [|split].
  - apply sorted_mark, (StronglySorted_merge_sort node_le).
  - rewrite <- list_fmap_compose. erewrite list_fmap_ext; [exact M1|]. intros i x _. apply mark_id.
  - intros n. rewrite list_elem_of_fmap. split; intros (n0 & X & Y); exists n0; (split; [try done; by apply M2|try done; by apply M2]).
Qed.

(** A step keeps the publisher current and takes the next event of the history. *)
Lemma step_current leader x p v p1 m past last es m' : Current m past last p -> open x = true -> step leader x p = (v, p1) ->
  Follows m (option_list (event_of x) ++ es) m' ->
  exists m1, Current m1 (past ++ [x]) (match v with Some _ => v | None => last end) p1 /\ Follows m1 es m'.
Proof.
  intros [C1 C2 C3 C4] O E F. unfold step in E. rewrite C1 in E. destruct x as [ev|io|io]; [|done|]; cbn [event_of option_list app] in *.
  - injection E as <- <-. destruct (Mirrors_event _ _ _ _ _ C3 F) as (m1 & M & F1). exists m1. split; [by split|done].
  - exists m. split; [|done].
    assert (L : dirty p = false -> exists v, last = Some v /\ stored_at m (past ++ [ITimer io]) v).
    { intros D. destruct (C4 D) as (w & ? & ?). exists w. split; [done|]. by apply stored_later. }
    destruct (armed p) eqn:A; [|by injection E as <- <-; split; [done|rewrite A|done|]]. destruct (dirty p) eqn:D; [|injection E as <- <-; split; [done|done|done|intros _; by apply L]].
    destruct (publish leader io p) as [w q] eqn:P. assert (Mq : Mirrors m (latest q)).
    { unfold publish in P. injection P as _ <-. cbn [latest]. eapply Mirrors_perm; [|exact C3]. by rewrite merge_sort_Permutation. }
    destruct w as [w|]; injection E as <- <-; split; try done; cbn [latest dirty armed]. intros _. exists w. split; [done|].
    exists past, io, []. split_and!; [done..| |by apply (publish_shows leader io p w q)]. unfold publish in P. by destruct (put_ok io).
Qed.

Lemma run_current leader xs : forall p vs p1 m past lst m', Current m past lst p -> forallb open xs = true -> run leader xs p = (vs, p1) ->
  Follows m (omap event_of xs) m' -> Current m' (past ++ xs) (match last vs with Some v => Some v | None => lst end) p1.
Proof.
  induction xs as [|x xs IH]; intros p vs p1 m past lst m' C O E F; cbn [run] in E.
  { injection E as <- <-. inversion F; subst. cbn. by rewrite app_nil_r. }
  cbn [forallb] in O. apply andb_true_iff in O as [O1 O2]. destruct (step leader x p) as [v q] eqn:Sx. destruct (run leader xs q) as [l q2] eqn:R. injection E as <- <-.
  assert (X : forall {B} (f : input -> option B), omap f (x :: xs) = option_list (f x) ++ omap f xs) by (intros B f; cbn; by destruct (f x)).
  rewrite X in F. destruct (step_current _ _ _ _ _ _ _ _ _ _ C O1 Sx F) as (m1 & C1 & F1).
  pose proof (IH _ _ _ _ _ _ _ C1 O2 R F1) as C2. rewrite <- app_assoc in C2. rewrite last_app. by destruct (last l), v.
Qed.

Lemma step_epoch leader x p v p1 : step leader x p = (v, p1) -> 0 <= epoch p < 2 ^ 64 - 1 ->
  epoch p <= epoch p1 <= epoch p + 1 /\ (forall w, v = Some w -> Epoch w = epoch p1 /\ epoch p < epoch p1).
Proof.
  intros E B. assert (P : forall io w q, publish leader io p = (w, q) -> epoch q = epoch p + 1 /\ forall w', w = Some w' -> Epoch w' = epoch q).
  { intros io w q. unfold publish. intros [= <- <-]. cbn [epoch]. split; [apply Z.mod_small; lia|]. intros w' Q. destruct (put_ok io); [|done]. by injection Q as <-. }
  unfold step in E. destruct (stopped p); [injection E as <- <-; split; [lia|done]|]. destruct x as [ev|io|io].
  - injection E as <- <-. cbn [epoch]. split; [lia|done].
  - destruct (dirty p); [|injection E as <- <-; cbn [epoch]; split; [lia|done]]. destruct (publish leader io p) as [w q] eqn:Q. destruct (P _ _ _ Q) as [P1 P2].
    injection E as <- <-. cbn [epoch]. split; [lia|]. intros w' ->. split; [by apply P2|lia].
  - destruct (armed p); [|injection E as <- <-; split; [lia|done]]. destruct (dirty p); [|injection E as <- <-; cbn [epoch]; split; [lia|done]].
    destruct (publish leader io p) as [w q] eqn:Q. destruct (P _ _ _ Q) as [P1 P2]. destruct w as [w|]; injection E as <- <-; cbn [epoch]; (split; [lia|]); [|done].
    intros w' [= <-]. split; [by apply P2|lia].
Qed.

Lemma view_epochs leader xs : forall p vs p1, run leader xs p = (vs, p1) -> 0 <= epoch p -> epoch p + zlen xs < 2 ^ 64 ->
  StronglySorted Z.lt (Epoch <$> vs) /\ Forall (fun e => epoch p < e) (Epoch <$> vs).
Proof.
  induction xs as [|x xs IH]; intros p vs p1 E B1 B2; cbn [run] in E; [injection E as <- <-; split; constructor|]. rewrite length_cons in B2.
  destruct (step leader x p) as [v q] eqn:Sx. destruct (run leader xs q) as [l q2] eqn:R. injection E as <- <-.
  destruct (step_epoch _ _ _ _ _ Sx ltac:(lia)) as [S1 S2]. destruct (IH _ _ _ R ltac:(lia) ltac:(lia)) as [I1 I2].
  assert (I3 : Forall (fun e => epoch p < e) (Epoch <$> l)) by (eapply Forall_impl; [exact I2|]; cbn; lia).
  destruct v as [w|]; [|done]. destruct (S2 w eq_refl) as [S3 S4]. change (option_list (Some w) ++ l) with (w :: l). rewrite fmap_cons, S3. split; constructor; (done || lia).
Qed.

Lemma views_snoc leader xs x : forall p vs p', run leader (xs ++ [x]) p = (vs, p') ->
  exists q vs0 v1, step leader x q = (v1, p') /\ run leader xs p = (vs0, q).
Proof.
  induction xs as [|y xs IH]; intros p vs p' R; cbn [run app] in R |- *.
  - destruct (step leader x p) as [v1 q1] eqn:Sx. injection R as _ <-. by exists p, [], v1.
  - destruct (step leader y p) as [v q1]. destruct (run leader (xs ++ _) q1) as [l q2] eqn:R1. injection R as _ <-.
    destruct (IH _ _ _ R1) as (q3 & vs0 & v1 & S1 & R2). rewrite R2. by exists q3, (option_list v ++ vs0), v1.
Qed.

(** [C24] A publisher of views, started when nothing changes between its listings and the
    start of its watch, gets every change of the keys of nodes in order, all of them values
    that can be decoded and under the key of their node; whatever the timer does, once it
    has fired after the last change and its request got through, the view stored last holds
    exactly the nodes registered, sorted and each once. It was stored at a firing after the
    last change; the nodes whose drain markers were read then are marked, none if the
    reading failed, and the others are as they registered. The epochs of the views it
    stores increase. *)
Theorem views_follow_membership leader m0 kvs changes evs m1 xs io vs p :
  wf m0 -> kvs ≡ₚ map_to_list m0 -> Forall change_ok changes -> emit_all changes m0 = (evs, m1) ->
  forallb open xs = true -> omap event_of xs = Watch unmarshal kvs evs -> zlen xs + 1 < 2 ^ 64 ->
  run leader (xs ++ [ITimer io]) (new_publisher (ListNodes unmarshal kvs)) = (vs, p) -> put_ok io = true ->
  StronglySorted Z.lt (Epoch <$> vs) /\ exists v, last vs = Some v /\ stored_at m1 (xs ++ [ITimer io]) v.
Proof.
  intros W P C E O Ev B R K.
  split; [apply (view_epochs leader _ _ _ _ R); cbn [epoch new_publisher]; [done|]; rewrite length_app; cbn [length]; lia|].
  assert (C0 : Current m0 [] None (new_publisher (ListNodes unmarshal kvs))) by (split; try done; by apply ListNodes_mirrors).
  pose proof (Watch_follows _ _ _ _ _ W P C E) as F.
  assert (C1 : Current m1 ([] ++ xs ++ [ITimer io]) (match last vs with Some v => Some v | None => None end) p).
  { apply (run_current leader _ _ _ _ m0 [] None m1 C0); [by rewrite forallb_app, O|done|]. rewrite omap_app, Ev. cbn. by rewrite app_nil_r. }
  assert (D : dirty p = false).
  { destruct (views_snoc _ _ _ _ _ _ R) as (q & vs0 & v1 & Sx & R0). assert (Cq := run_current leader _ _ _ _ m0 [] None m1 C0 O R0 ltac:(by rewrite Ev)).
    destruct Cq as [Q1 Q2 _ _]. unfold step in Sx. rewrite Q1 in Sx. destruct (dirty q) eqn:Dq.
    - rewrite Q2 in Sx by done. unfold publish in Sx. rewrite K in Sx. by injection Sx as _ <-.
    - destruct (armed q); injection Sx as _ <-; done. }
  destruct (cur_last _ _ _ _ C1 D) as (v & L & Sh). exists v. split; [by destruct (last vs)|done].
Qed.

End Follow.

(** ** The sketch of the cluster *)

Lemma byte_bit_high b i : 8 <= i -> Z.testbit (byte_val b) i = false.
Proof.
  intros I. pose proof (byte_val_bound b). destruct (decide (byte_val b = 0)) as [->|]; [apply Z.bits_0|]. apply Z.bits_above_log2; [lia|].
  apply Z.log2_lt_pow2; [lia|]. pose proof (Z.pow_le_mono_r 2 8 i). lia.
Qed.

(** The bits of a little-endian number are those of its bytes. *)
Lemma get_le_bit l : forall i, 0 <= i -> Z.testbit (get_le l) i = match l !! Z.to_nat (i / 8) with Some b => Z.testbit (byte_val b) (i mod 8) | None => false end.
Proof.
  induction l as [|b l IH]; intros i I; cbn [get_le]; [by rewrite Z.bits_0|]. rewrite Z.lor_spec, Z.shiftl_spec by done. destruct (decide (i < 8)) as [L|L].
  - rewrite Z.div_small, Z.mod_small, (Z.testbit_neg_r _ (i - 8)), orb_false_r by lia. done.
  - rewrite byte_bit_high, IH by lia. cbn [orb]. replace (i / 8) with ((i - 8) / 8 + 1) by (Z.div_mod_to_equations; lia). pose proof (Z.div_pos (i - 8) 8 ltac:(lia) ltac:(lia)).
    rewrite Z2Nat.inj_add, Nat.add_1_r by lia. cbn. by replace (i mod 8) with ((i - 8) mod 8) by (Z.div_mod_to_equations; lia).
Qed.

Lemma byte_lor a b : byte_val (byte_of (Z.lor (byte_val a) (byte_val b))) = Z.lor (byte_val a) (byte_val b).
Proof.
  rewrite byte_val_of. change 256 with (2 ^ 8). rewrite <- Z.land_ones by done. apply Z.bits_inj'. intros i I. rewrite Z.land_spec, Z.lor_spec.
  destruct (decide (i < 8)) as [L|L]; [by rewrite Z.ones_spec_low, andb_true_r by lia|]. by rewrite !byte_bit_high by lia.
Qed.

Lemma or_into_spec bits : forall src, length src = length bits ->
  exists r, or_into bits src = Some r /\ length r = length bits /\ get_le r = Z.lor (get_le bits) (get_le src).
Proof.
  induction bits as [|b bits IH]; intros [|s src] L; try discriminate L; [by exists []|]. destruct (IH src ltac:(by injection L)) as (r & E & Lr & G).
  cbn [or_into]. rewrite E. eexists. split; [reflexivity|]. cbn [length]. split; [by rewrite Lr|]. cbn [get_le]. rewrite byte_lor, G, Z.shiftl_lor.
  apply Z.bits_inj'. intros i I. rewrite !Z.lor_spec. by destruct (Z.testbit (byte_val b) i), (Z.testbit (byte_val s) i), (Z.testbit (Z.shiftl (get_le bits) 8) i).
Qed.

Lemma or_all_spec srcs : forall bits, Forall (fun s => length s = length bits) srcs ->
  exists r, or_all srcs bits = Some r /\ length r = length bits /\
    forall i, Z.testbit (get_le r) i = true <-> Z.testbit (get_le bits) i = true \/ exists s, s ∈ srcs /\ Z.testbit (get_le s) i = true.
Proof.
  induction srcs as [|s srcs IH]; intros bits F; cbn [or_all].
  { exists bits. split; [done|]. split; [done|]. intros i. split; [by left|]. intros [?|(s & X & _)]; [done|]. by apply not_elem_of_nil in X. }
  apply Forall_cons in F as [F1 F2]. destruct (or_into_spec bits s F1) as (r & E & L & G). rewrite E. cbn [mbind option_bind].
  destruct (IH r) as (r' & E' & L' & B). { eapply Forall_impl; [exact F2|]. cbn. intros x X. by rewrite L. }
  exists r'. split; [done|]. split; [by rewrite L'|]. intros i. rewrite B, G, Z.lor_spec, orb_true_iff. setoid_rewrite elem_of_cons. naive_solver.
Qed.

(** The bits of the words of a sketch are those of its bytes. *)
Lemma words_of_bit n : forall raw, (8 * n <= length raw)%nat ->
  length (Bloom.words_of n raw) = n /\ Forall Bloom.word_ok (Bloom.words_of n raw) /\
  forall i, 0 <= i < 64 * Z.of_nat n -> Bloom.bit i (Bloom.words_of n raw) = Z.testbit (get_le raw) i.
Proof.
  induction n as [|n IH]; intros raw L; cbn [Bloom.words_of]; [split; [done|]; split; [constructor|]; intros; lia|].
  destruct (IH (drop 8 raw)) as (I1 & I2 & I3); [rewrite length_drop; lia|]. cbn [length]. split; [by rewrite I1|]. split.
  - constructor; [|done]. unfold Bloom.word_ok. pose proof (get_le_bound (take 8 raw)) as B. rewrite length_take, Nat.min_l in B by lia. exact B.
  - intros i I. unfold Bloom.bit. destruct (decide (i < 64)) as [S64|S64].
    + rewrite Z.div_small by lia. change ((get_le (take 8 raw) :: Bloom.words_of n (drop 8 raw)) !! Z.to_nat 0) with (Some (get_le (take 8 raw))). cbv match. rewrite Z.mod_small, !get_le_bit by lia. rewrite lookup_take_lt; [done|]. pose proof (Z.div_pos i 8). assert (i / 8 < 8) by (Z.div_mod_to_equations; lia). lia.
    + replace (Z.to_nat (i / 64)) with (S (Z.to_nat ((i - 64) / 64))) by (pose proof (Z.div_pos (i - 64) 64); Z.div_mod_to_equations; lia). rewrite lookup_cons.
      specialize (I3 (i - 64) ltac:(lia)). unfold Bloom.bit in I3. replace (i mod 64) with ((i - 64) mod 64) by (Z.div_mod_to_equations; lia).
      rewrite I3, !get_le_bit by lia. rewrite lookup_drop. replace ((i - 64) mod 8) with (i mod 8) by (Z.div_mod_to_equations; lia).
      replace (8 + Z.to_nat ((i - 64) / 8))%nat with (Z.to_nat (i / 8)); [done|]. pose proof (Z.div_pos (i - 64) 8 ltac:(lia) ltac:(lia)). Z.div_mod_to_equations; lia.
Qed.

Record AggInv (a : SketchAggregator) : Prop := {
  ai_m : 0 <= mBits a < 2 ^ 32;
  ai_k : 0 <= kHashes a < 2 ^ 32;
  ai_none : mBits a = 0 -> sketches a = ∅;
  ai_some : mBits a <> 0 -> kHashes a <> 0;
  ai_size : map_Forall (fun _ s => length s = byte_count (mBits a)) (sketches a) }.

Lemma new_aggregator_inv : AggInv new_aggregator.
Proof. split; cbn; done. Qed.

Lemma get4_bound l : 0 <= get_le (take 4 l) < 2 ^ 32.
Proof.
  pose proof (get_le_bound (take 4 l)) as B. assert (256 ^ zlen (take 4 l) <= 256 ^ 4) by (apply Z.pow_le_mono_r; [lia|]; rewrite length_take; lia). lia.
Qed.

(** A sketch is taken as it is or refused; its parameters are those kept from then on. *)
Lemma ingest_cases nid blob a :
  let m := get_le (take 4 blob) in let k := get_le (take 4 (drop 4 blob)) in
  ingestLocked nid blob a = a \/
  (m <> 0 /\ k <> 0 /\ (8 + byte_count m <= length blob)%nat /\ (mBits a = 0 \/ (mBits a = m /\ kHashes a = k)) /\
   ingestLocked nid blob a = mkAggregator (<[nid := take (byte_count m) (drop 8 blob)]> (sketches a)) m k).
Proof.
  cbv zeta. unfold ingestLocked. destruct (Z.ltb_spec (zlen blob) 8); [by left|]. destruct (Z.eqb_spec (get_le (take 4 blob)) 0); [by left|].
  destruct (Z.eqb_spec (get_le (take 4 (drop 4 blob))) 0); [by left|]. cbn [orb]. destruct (Z.ltb_spec (zlen blob) (8 + Z.of_nat (byte_count (get_le (take 4 blob))))); [by left|].
  destruct (Z.eqb_spec (mBits a) 0) as [Q|Q]; [right; split_and!; (done || lia || by left)|].
  destruct (Z.eqb_spec (mBits a) (get_le (take 4 blob))) as [Q1|]; [|by left]. destruct (Z.eqb_spec (kHashes a) (get_le (take 4 (drop 4 blob)))) as [Q2|]; [|by left].
  right. cbn [negb orb]. rewrite Q1, Q2. split_and!; try (done || lia).
Qed.

Lemma ingest_inv nid blob a : AggInv a -> AggInv (ingestLocked nid blob a) /\ (mBits a <> 0 -> mBits (ingestLocked nid blob a) = mBits a /\ kHashes (ingestLocked nid blob a) = kHashes a) /\
  forall x, x <> nid -> sketches (ingestLocked nid blob a) !! x = sketches a !! x.
Proof.
  intros I. destruct (ingest_cases nid blob a) as [->|(M & K & L & D & ->)]; [done|]. split; [|split; [cbn; destruct D as [D|[D1 D2]]; done|intros x X; cbn; by rewrite lookup_insert_ne]].
  destruct I as [I1 I2 I3 I4 I5]. split; cbn [mBits kHashes sketches]; try done; [apply get4_bound|apply get4_bound|].
  apply map_Forall_insert_2; [rewrite length_take, length_drop; lia|]. destruct D as [D|[D1 D2]]; [by rewrite I3|]. by rewrite <- D1.
Qed.

Definition event_node (ev : WatchEvent) : bytes := TrimPrefix (match ev with WPut _ k _ | WDelete k _ => k end) SketchesPrefix.

Lemma sketch_event_inv ev a : AggInv a -> AggInv (sketch_event ev a) /\ (mBits a <> 0 -> mBits (sketch_event ev a) = mBits a /\ kHashes (sketch_event ev a) = kHashes a) /\
  forall x, x <> event_node ev -> sketches (sketch_event ev a) !! x = sketches a !! x.
Proof.
  intros I. unfold sketch_event. fold (event_node ev). destruct (event_node ev) as [|c nid] eqn:E; [done|]. destruct ev as [cr k v|k pv]; [by apply ingest_inv|].
  destruct I as [I1 I2 I3 I4 I5]. split; [|split; [done|intros x X; cbn; by rewrite lookup_delete_ne]].
  split; cbn [mBits kHashes sketches]; try done; [intros Q; by rewrite I3, delete_empty|by apply map_Forall_delete].
Qed.

Lemma sketch_events_inv evs : forall a, AggInv a -> let a' := fold_left (fun a ev => sketch_event ev a) evs a in
  AggInv a' /\ (mBits a <> 0 -> mBits a' = mBits a /\ kHashes a' = kHashes a) /\
  forall x, Forall (fun ev => event_node ev <> x) evs -> sketches a' !! x = sketches a !! x.
Proof.
  induction evs as [|ev evs IH]; intros a I; cbn [fold_left]; [done|]. destruct (sketch_event_inv ev a I) as (I1 & I2 & I3). destruct (IH _ I1) as (J1 & J2 & J3).
  split; [done|]. split; [intros Q; destruct (I2 Q) as [Q1 Q2]; destruct J2 as [-> ->]; [congruence|done]|].
  intros x F. apply Forall_cons in F as [F1 F2]. rewrite J3 by done. by apply I3.
Qed.

Lemma seed_inv kvs : forall a, AggInv a -> AggInv (seed kvs a).
Proof. induction kvs as [|kv kvs IH]; intros a I; [done|]. apply IH. by apply sketch_event_inv. Qed.

(** What is published: the bits of all the sketches, whatever the order of the visit. *)
Lemma aggregate_spec a srcs : AggInv a -> mBits a <> 0 -> srcs ≡ₚ (map_to_list (sketches a)).*2 ->
  exists raw, aggregate srcs a = Some (put_le 4 (mBits a) ++ put_le 4 (kHashes a) ++ raw) /\ length raw = byte_count (mBits a) /\
    forall i, 0 <= i -> Z.testbit (get_le raw) i = true <-> exists nid s, sketches a !! nid = Some s /\ Z.testbit (get_le s) i = true.
Proof.
  intros I M P. unfold aggregate. destruct (Z.eqb_spec (mBits a) 0); [done|].
  destruct (or_all_spec srcs (replicate (byte_count (mBits a)) x00)) as (raw & E & L & B).
  { rewrite P. apply Forall_fmap, Forall_forall. intros [nid s] X. apply elem_of_map_to_list in X. rewrite length_replicate. exact (ai_size _ I _ _ X). }
  rewrite E. exists raw. rewrite length_replicate in L. split; [done|]. split; [done|]. intros i Pi. rewrite B, get_le_bit by done. split.
  - intros [Q|(s & X & Q)].
    + destruct (replicate _ _ !! _) as [b|] eqn:R; [|done]. apply lookup_replicate in R as [-> _]. by rewrite Z.bits_0 in Q.
    + rewrite P in X. apply list_elem_of_fmap in X as ([nid s'] & -> & X). exists nid, s'. split; [by apply elem_of_map_to_list|done].
  - intros (nid & s & X & Q). right. exists s. split; [|done]. rewrite P. apply list_elem_of_fmap. exists (nid, s). split; [done|]. by apply elem_of_map_to_list.
Qed.

(** The loop after a seed of any keys, the sketches visited in any order. *)
Definition in_order (x : sketch_input) (l : SketchLoop) : Prop :=
  match x with SEvents _ => True | STimer srcs _ => srcs ≡ₚ (map_to_list (sketches (agg l))).*2 end.
Inductive agg_reach : SketchLoop -> Prop :=
  | agg_start kvs : agg_reach (mkLoop (seed kvs new_aggregator) false)
  | agg_next x l out l' : agg_reach l -> in_order x l -> sketch_step x l = Some (out, l') -> agg_reach l'.

Lemma agg_reach_inv l : agg_reach l -> AggInv (agg l).
Proof.
  induction 1 as [kvs|x l out l' R I O E]; [apply seed_inv, new_aggregator_inv|]. destruct x as [evs|srcs ok]; cbn [sketch_step] in E.
  - injection E as <- <-. by apply sketch_events_inv.
  - destruct (s_dirty l); [|by injection E as <- <-]. destruct (aggregate srcs (agg l)); [|done]. cbn [mbind option_bind] in E. destruct ok; by injection E as <- <-.
Qed.

(** The bytes of a sketch of [m] bits: enough for its bits, as the format says, but none for
    the seven greatest values, at which the sum of the code wraps. *)
Definition wire_bytes (m : Z) : Z := if m <? 2 ^ 32 - 7 then (m + 7) / 8 else 0.

Lemma byte_count_wire m : 0 <= m < 2 ^ 32 -> Z.of_nat (byte_count m) = wire_bytes m.
Proof.
  intros M. unfold byte_count, wire_bytes, u32. rewrite Z2Nat.id by (apply Z.div_pos; [apply Z.mod_pos_bound|]; lia).
  destruct (Z.ltb_spec m (2 ^ 32 - 7)); [by rewrite Z.mod_small by lia|].
  replace ((m + 7) mod 2 ^ 32) with (m + 7 - 2 ^ 32) by (apply (Zmod_unique _ _ 1); lia). apply Z.div_small. lia.
Qed.

(** [C27] Whatever keys and events the aggregator of sketches gets, the parameters it keeps
    fit their fields and are both zero or both not, and all sketches it keeps have the same
    size: as many bytes as hold the bits, [ceil(m/8)], except that a sketch that announces
    one of the seven greatest numbers of bits has none; so no step indexes a sketch out of
    range, and what is published is a header of parameters that are not zero with as many
    bytes. *)
Theorem aggregator_well_typed l x : agg_reach l -> in_order x l ->
  AggInv (agg l) /\ map_Forall (fun _ s => zlen s = wire_bytes (mBits (agg l))) (sketches (agg l)) /\
  exists out l', sketch_step x l = Some (out, l') /\
  forall blob, out = Some blob -> exists m k raw, blob = put_le 4 m ++ put_le 4 k ++ raw /\ 0 < m < 2 ^ 32 /\ 0 < k < 2 ^ 32 /\ zlen raw = wire_bytes m.
Proof.
  intros R O. pose proof (agg_reach_inv l R) as I. split; [done|].
  split; [intros nid s E; pose proof (ai_size _ I nid s E) as L; cbn in L; rewrite L; apply byte_count_wire, I|]. destruct x as [evs|srcs ok]; cbn [sketch_step]; [by eexists _, _|].
  destruct (s_dirty l); [|by eexists _, _].
  assert (A : exists m k raw, aggregate srcs (agg l) = Some (put_le 4 m ++ put_le 4 k ++ raw) /\ 0 < m < 2 ^ 32 /\ 0 < k < 2 ^ 32 /\ length raw = byte_count m).
  { destruct (decide (mBits (agg l) = 0)) as [Z0|Z0].
    - exists 1, 1, [x00]. cbn [in_order] in O. rewrite (ai_none _ I Z0), map_to_list_empty in O. apply Permutation_nil_r in O as ->. unfold aggregate. by rewrite Z0.
    - destruct (aggregate_spec (agg l) srcs I Z0 O) as (raw & E & L & _). exists (mBits (agg l)), (kHashes (agg l)), raw. pose proof (ai_m _ I). pose proof (ai_k _ I). pose proof (ai_some _ I Z0).
      split_and!; (done || lia). }
  destruct A as (m & k & raw & E & M & K & L). rewrite E. cbn [mbind option_bind]. destruct ok; (eexists _, _; split; [reflexivity|]); [|done].
  intros blob [= <-]. exists m, k, raw. rewrite L. split_and!; [done|lia..|]. apply byte_count_wire. lia.
Qed.

Section SketchTheorems.
Context (Blake3_64 : bytes -> Z).

(** A sketch as a node publishes it. *)
Definition publishable (b : Bloom.LocalBloom) : Prop :=
  Bloom.params_ok (Bloom.params_ b) /\ Bloom.m_bits (Bloom.params_ b) < 2 ^ 32 /\ 0 < Z.of_nat (Bloom.k_hashes (Bloom.params_ b)) < 2 ^ 32 /\
  Bloom.sized_words (Bloom.params_ b) (Bloom.words_ b).

Lemma byte_count_64 m : 0 < m < 2 ^ 32 -> m mod 64 = 0 -> byte_count m = (8 * Z.to_nat (m / 64))%nat.
Proof.
  intros M D. apply Z.div_exact in D; [|lia]. assert (m <= 2 ^ 32 - 64) by (Z.div_mod_to_equations; lia). unfold byte_count, u32. rewrite Z.mod_small by lia.
  Z.div_mod_to_equations; lia.
Qed.

Lemma ingest_published nid b a : publishable b -> let m := Bloom.m_bits (Bloom.params_ b) in let k := Z.of_nat (Bloom.k_hashes (Bloom.params_ b)) in
  (mBits a = 0 \/ (mBits a = m /\ kHashes a = k)) -> ingestLocked nid (Directory.EncodeSnapshot b) a = mkAggregator (<[nid := Bloom.Snapshot b]> (sketches a)) m k.
Proof.
  intros ([P1 P2] & M & K & [L W]) m k D. unfold Directory.EncodeSnapshot, ingestLocked. fold m k. fold m in P1, P2, M, L. fold k in K.
  assert (LS : length (Bloom.Snapshot b) = byte_count m).
  { unfold Bloom.Snapshot. rewrite Bloom.length_snapshot, L, byte_count_64 by lia. lia. }
  rewrite !length_app, !length_put_le, LS. destruct (Z.ltb_spec (Z.of_nat (4 + (4 + byte_count m))) 8); [lia|].
  rewrite take_put_le_app, get_put_le, (Z.mod_small m) by lia. rewrite drop_put_le_app, take_put_le_app, get_put_le, (Z.mod_small k) by lia.
  destruct (Z.eqb_spec m 0); [lia|]. destruct (Z.eqb_spec k 0); [lia|]. cbn [orb]. destruct (Z.ltb_spec (Z.of_nat (4 + (4 + byte_count m))) (8 + Z.of_nat (byte_count m))); [lia|].
  change 8%nat with (4 + 4)%nat. rewrite <- drop_drop, !drop_put_le_app, firstn_all2 by lia.
  destruct D as [D|[D1 D2]]; [by rewrite D|]. rewrite D1, D2, !Z.eqb_refl. cbn [negb orb]. by destruct (m =? 0).
Qed.

Lemma decode_header p raw : Bloom.params_ok p -> Bloom.m_bits p < 2 ^ 32 -> 0 < Z.of_nat (Bloom.k_hashes p) < 2 ^ 32 -> length raw = byte_count (Bloom.m_bits p) ->
  Directory.DecodeBloomSnapshot (put_le 4 (Bloom.m_bits p) ++ put_le 4 (Z.of_nat (Bloom.k_hashes p)) ++ raw) = Some (p, raw).
Proof.
  intros [P1 P2] M K L. destruct p as [m k]. cbn [Bloom.m_bits Bloom.k_hashes] in *.
  unfold Directory.DecodeBloomSnapshot. rewrite !length_app, !length_put_le, L. destruct (Z.ltb_spec (Z.of_nat (4 + (4 + byte_count m))) 8); [lia|].
  rewrite take_put_le_app, get_put_le, (Z.mod_small m) by lia. rewrite drop_put_le_app, take_put_le_app, get_put_le, (Z.mod_small (Z.of_nat k)) by lia.
  destruct (Z.eqb_spec m 0); [lia|]. destruct (Z.eqb_spec (Z.of_nat k) 0); [lia|]. cbn [orb].
  pose proof (Z.div_pos (u32 (m + 7)) 8 ltac:(apply Z.mod_pos_bound; lia) ltac:(lia)). unfold byte_count.
  destruct (Z.ltb_spec (Z.of_nat (4 + (4 + Z.to_nat (u32 (m + 7) / 8)))) (8 + u32 (m + 7) / 8)); [lia|].
  change 8%nat with (4 + 4)%nat. rewrite <- drop_drop, !drop_put_le_app. by rewrite Nat2Z.id.
Qed.

(** Bytes that have every bit of a sketch contain its keys. *)
Lemma superset_contains b raw key x : publishable b -> length raw = byte_count (Bloom.m_bits (Bloom.params_ b)) ->
  (forall i, 0 <= i -> Z.testbit (get_le (Bloom.Snapshot b)) i = true -> Z.testbit (get_le raw) i = true) ->
  Bloom.MaybeContains Blake3_64 key b = Some true -> Bloom.AggMaybeContains Blake3_64 key (Bloom.Set_ (Bloom.params_ b) raw x) = Some true.
Proof.
  intros (P & M & K & S) Lr B C. set (p := Bloom.params_ b) in *. set (m := Bloom.m_bits p) in *. pose proof P as [P1 P2]. pose proof S as [L W]. fold m in P1, P2, L.
  rewrite byte_count_64 in Lr by lia. destruct (words_of_bit (Z.to_nat (m / 64)) raw ltac:(lia)) as (W1 & W2 & W3).
  destruct (words_of_bit (Z.to_nat (m / 64)) (Bloom.Snapshot b)) as (_ & _ & W4); [unfold Bloom.Snapshot; rewrite Bloom.length_snapshot, L; lia|].
  assert (SW : Bloom.sized_words p (Bloom.words_of (Z.to_nat (m / 64)) raw)) by (split; done).
  unfold Bloom.MaybeContains in C. fold p in C. rewrite (Bloom.test_bits_spec p) in C by (done || by apply Bloom.bits_in_range).
  unfold Bloom.AggMaybeContains, Bloom.Set_. fold m. rewrite (proj2 (Nat.ltb_ge _ _)) by lia. cbn [Bloom.a_params Bloom.a_words]. fold m.
  apply Z.div_exact in P2; [|lia]. destruct (Z.eqb_spec m 0); [lia|]. destruct (Bloom.words_of (Z.to_nat (m / 64)) raw) as [|w0 ws] eqn:Ew; [cbn in W1; lia|].
  cbn [orb]. rewrite <- Ew in SW, W3 |- *. rewrite (Bloom.test_bits_spec p) by (done || by apply Bloom.bits_in_range).
  f_equal. injection C as C. rewrite forallb_forall in C |- *. intros i Ii. pose proof (C i Ii) as Ci. apply list_elem_of_In in Ii.
  destruct (proj1 (Forall_forall _ _) (Bloom.bits_in_range Blake3_64 p key P) i Ii) as [R1 R2]. fold m in R2.
  rewrite W3 by lia. apply B; [done|]. rewrite <- W4 by lia. unfold Bloom.Snapshot. by rewrite <- L, Bloom.words_of_snapshot.
Qed.

(** [C26] When a node's sketch reaches the aggregator and its parameters are the ones in
    force, the sketch of the cluster that is published after any further events of other
    nodes can be read and contains every key that the node's sketch contains, in whatever
    order the sketches are combined; the combination never reads past a sketch. *)
Theorem cluster_sketch_complete kvs before nid b after srcs key x :
  let a0 := fold_left (fun a ev => sketch_event ev a) before (seed kvs new_aggregator) in
  let a := fold_left (fun a ev => sketch_event ev a) after (ingestLocked nid (Directory.EncodeSnapshot b) a0) in
  publishable b -> (mBits a0 = 0 \/ (mBits a0 = Bloom.m_bits (Bloom.params_ b) /\ kHashes a0 = Z.of_nat (Bloom.k_hashes (Bloom.params_ b)))) ->
  Forall (fun ev => event_node ev <> nid) after -> srcs ≡ₚ (map_to_list (sketches a)).*2 ->
  exists blob raw, aggregate srcs a = Some blob /\ Directory.DecodeBloomSnapshot blob = Some (Bloom.params_ b, raw) /\
    (Bloom.MaybeContains Blake3_64 key b = Some true -> Bloom.AggMaybeContains Blake3_64 key (Bloom.Set_ (Bloom.params_ b) raw x) = Some true).
Proof.
  intros a0 a Pb D F P. assert (I0 : AggInv a0) by apply sketch_events_inv, seed_inv, new_aggregator_inv.
  pose proof (ingest_published nid b a0 Pb D) as E. cbv zeta in E. destruct (ingest_inv nid (Directory.EncodeSnapshot b) a0 I0) as (I1 & _ & _).
  destruct (sketch_events_inv after _ I1) as (I2 & J2 & J3). fold a in I2, J2, J3. specialize (J3 _ F). rewrite E in J2, J3.
  cbn [mBits kHashes sketches] in J2, J3. rewrite lookup_insert_eq in J3. pose proof Pb as (Q & M & K & S). pose proof Q as [P1 _]. destruct J2 as [Jm Jk]; [lia|].
  destruct (aggregate_spec a srcs I2 ltac:(lia) P) as (raw & A & Lr & B). rewrite Jm, Jk in A. rewrite Jm in Lr.
  eexists _, raw. split; [exact A|]. split; [by apply decode_header|]. apply superset_contains; [done|done|]. intros i Pi Ti. apply B; [done|]. eauto.
Qed.

End SketchTheorems.

(** ** With the agents *)

Section WithAgents.
Context `{!Hrw.StdSort, !Hrw.StdSortLaws _} (Blake3_64 : bytes -> Z) (parse : bytes -> option AgentRouter.json).

(** What [json.Marshal] writes of a view, as the agent's parser reads it: of each node at
    least its id and, unless it is empty, its state. *)
Definition node_encoded (n : NodeDescriptor) (j : AgentRouter.json) : Prop :=
  exists fields, j = AgentRouter.JObj fields /\ AgentRouter.find (str "node_id") fields = Some (AgentRouter.JStr (NodeID n)) /\
    (State n <> [] -> AgentRouter.find (str "state") fields = Some (AgentRouter.JStr (State n))).
Definition view_encoded (v : ClusterView) (body : bytes) : Prop :=
  exists l a, parse body = Some (AgentRouter.JObj l) /\ AgentRouter.find (str "nodes") l = Some (AgentRouter.JArr a) /\ Forall2 node_encoded (Nodes v) a.

(** [C25] The nodes an agent sends requests to, once it has installed a view that the
    control plane stored, are nodes the publisher knew; and if the drain markers could be
    read when the view was made, none of them had a marker. (If the reading fails, the view
    is published without marks.) The scores of the nodes are taken to be numbers. *)
Theorem drained_nodes_get_no_requests leader io p v p' body w r z w' r' tenant pre n :
  step leader (ITimer io) p = (Some v, p') -> view_encoded v body ->
  AgentRouter.RefreshOnce parse (Some body) w r = (z, w', r') -> 0 <= z ->
  Hrw.numbers (Hrw.score Blake3_64 (Hrw.overlap_alpha_ r') None (tenant ++ pre) <$> Hrw.nodes_ r') ->
  AgentRouter.Resolve Blake3_64 tenant pre r' = Some n ->
  n ∈ NodeID <$> latest p /\ forall d, markers io = Some d -> n ∉ d.
Proof.
  intros Sx (l & a & P1 & P2 & F) R Z0 N Q.
  destruct (AgentRouter.draining_nodes_avoided Blake3_64 parse body w r z w' r' tenant pre n R Z0 N Q) as (l' & a' & fields & L1 & L2 & I & Fi & Dr).
  rewrite P1 in L1. injection L1 as <-. rewrite P2 in L2. injection L2 as <-.
  assert (Nv : Nodes v = mark (markers io) <$> merge_sort node_le (latest p)).
  { unfold step in Sx. destruct (stopped p); [done|]. destruct (armed p); [|done]. destruct (dirty p); [|done].
    destruct (publish leader io p) as [[u|] q] eqn:Pu; [|done]. injection Sx as <- _. exact (publish_nodes _ _ _ _ _ Pu). }
  apply list_elem_of_lookup in I as [i Ii]. destruct (Forall2_lookup_r _ _ _ _ _ F Ii) as (x & X & fs & Ef & E1 & E2). injection Ef as <-.
  rewrite Fi in E1. injection E1 as ->. rewrite Nv in X. apply list_lookup_fmap_Some in X as (y & -> & Y). apply list_elem_of_lookup_2 in Y.
  rewrite merge_sort_Permutation in Y. rewrite mark_id. split; [by apply list_elem_of_fmap_2|]. intros d Md Dd. rewrite Md in E2. cbn [mark] in E2. rewrite bool_decide_true in E2 by done.
  specialize (E2 ltac:(discriminate)). unfold AgentRouter.draining in Dr. rewrite E2 in Dr. vm_compute in Dr. discriminate Dr.
Qed.

End WithAgents.

(** ** The registration of a node *)

Section Registration.
Context (marshal : NodeDescriptor -> bytes).

(** The etcd of the C++ side as the service of the control plane. *)
Definition mem_grant (now ttl : Z) (c : Etcd.Client) : option Z * Etcd.Client := let '(l, c1) := Etcd.LeaseGrant now ttl c in (Some l, c1).
Definition mem_put (k v : bytes) (l : Z) (c : Etcd.Client) : bool * Etcd.Client := let '(r, c1) := Etcd.Put k v l c in (bool_decide (is_Some r), c1).

(** A registration leaves the descriptor under the key of the node, with a lease of its own
    of the time the server says. *)
Theorem Register_registers now q s c : r_node_id q <> [] -> 0 < leaseTTLSec s -> 0 < Etcd.next_lease_ c ->
  exists s' c' kv, Register marshal (mem_grant now) mem_put (Some q) s c = (Some (clusterID s, registerCount s'), s', c') /\
    Etcd.Get (NodesPrefix ++ r_node_id q) c' = Some kv /\ Etcd.value kv = marshal (descriptor q) /\ Etcd.lease kv = Etcd.next_lease_ c /\
    Etcd.leases_ c' !! Etcd.lease kv = Some (Etcd.mkLease (leaseTTLSec s) (now + 1000 * leaseTTLSec s)).
Proof.
  intros Q T L. unfold Register. destruct (r_node_id q) as [|x i] eqn:Ei; [done|]. unfold RegisterNode. destruct (Z.leb_spec (leaseTTLSec s) 0); [lia|].
  unfold mem_grant, Etcd.LeaseGrant, mem_put, Etcd.Put. cbn [Etcd.leases_]. rewrite lookup_insert_eq.
  rewrite (bool_decide_false (Some _ = None)) by done. rewrite andb_false_r. rewrite bool_decide_true by eauto. eexists _, _, _. split; [reflexivity|].
  unfold Etcd.Get. cbn [Etcd.kvs_ Etcd.NotifyLocked Etcd.set_kvs Etcd.leases_]. replace (NodeID (descriptor q)) with (x :: i) by (symmetry; exact Ei).
  split; [apply lookup_insert_eq|]. cbn [Etcd.value Etcd.lease]. split; [done|]. split; [done|apply lookup_insert_eq].
Qed.

End Registration.

(** ** Witnesses *)

#[local] Existing Instances Hrw.merge_sorts Hrw.merge_sorts_laws.

(** A descriptor that is only its id, encoded as itself. *)
Definition ex_unmarshal (v : bytes) : option NodeDescriptor := match v with [] => None | _ => Some (bare v) end.
Definition ex_kv (i : bytes) : bytes * bytes := (NodesPrefix ++ i, i).
Definition ex_m0 : gmap bytes bytes := {[ NodesPrefix ++ str "b" := str "b" ]}.
Definition ex_changes : list change := [CPut (NodesPrefix ++ str "a") (str "a"); CPut (NodesPrefix ++ str "c") (str "c"); CDelete (NodesPrefix ++ str "b")].
Definition ex_io (d : list bytes) : publish_io := mkIo (Some (list_to_set d)) 7 true.
Definition ex_steps : list input :=
  [IEvent (mkEvent EventAdd (bare (str "b"))); ITimer (ex_io []); IEvent (mkEvent EventAdd (bare (str "a")));
   IEvent (mkEvent EventAdd (bare (str "c"))); ITimer (mkIo None 8 false); IEvent (mkEvent EventDelete (bare (str "b")))].
Definition ex_run : list ClusterView * ViewPublisher := run (str "cp") (ex_steps ++ [ITimer (ex_io [str "c"])]) (new_publisher (ListNodes ex_unmarshal [ex_kv (str "b")])).

Lemma views_follow_membership_witness :
  (Nodes <$> ex_run.1) = [[bare (str "b")]; [bare (str "a"); set_state StateDraining (bare (str "c"))]] /\ StronglySorted Z.lt (Epoch <$> ex_run.1).
Proof.
  split; [vm_compute; reflexivity|].
  apply (views_follow_membership ex_unmarshal (str "cp") ex_m0 [ex_kv (str "b")] ex_changes (emit_all ex_changes ex_m0).1 (emit_all ex_changes ex_m0).2
    ex_steps (ex_io [str "c"]) ex_run.1 ex_run.2).
  - apply map_Forall_singleton. exists (bare (str "b")). split; reflexivity.
  - unfold ex_m0. rewrite map_to_list_singleton. reflexivity.
  - repeat constructor; [exists (bare (str "a"))|exists (bare (str "c"))]; split; reflexivity.
  - apply surjective_pairing.
  - reflexivity.
  - vm_compute. reflexivity.
  - vm_compute. reflexivity.
  - apply surjective_pairing.
  - reflexivity.
Defined.

Definition ex_view_json : AgentRouter.json :=
  AgentRouter.JObj [(str "nodes", AgentRouter.JArr
    [AgentRouter.JObj [(str "node_id", AgentRouter.JStr (str "a"))];
     AgentRouter.JObj [(str "node_id", AgentRouter.JStr (str "c")); (str "state", AgentRouter.JStr StateDraining)]])].
Definition ex_view_parse (b : bytes) : option AgentRouter.json := Some ex_view_json.
Definition ex_publisher : ViewPublisher := mkPublisher [bare (str "c"); bare (str "a")] 3 true true false.
Definition ex_ring : Hrw.Ring := (AgentRouter.RefreshOnce ex_view_parse (Some [x7b]) (AgentRouter.mkWatcher 0 0 0) (Hrw.new_ring Hrw.default_alpha)).2.

Lemma drained_nodes_get_no_requests_witness : str "a" ∈ NodeID <$> latest ex_publisher /\ str "a" ∉ (list_to_set [str "c"] : gset bytes).
Proof.
  assert (str "a" ∈ NodeID <$> latest ex_publisher /\ forall d, markers (ex_io [str "c"]) = Some d -> str "a" ∉ d) as [K D]; [|split; [exact K|apply D; reflexivity]].
  apply (drained_nodes_get_no_requests Hrw.ex_hash ex_view_parse (str "cp") (ex_io [str "c"]) ex_publisher
    (mkView 4 (str "cp") 7 [bare (str "a"); set_state StateDraining (bare (str "c"))]) (mkPublisher [bare (str "a"); bare (str "c")] 4 false false false)
    [x7b] (AgentRouter.mkWatcher 0 0 0) (Hrw.new_ring Hrw.default_alpha) 1 (AgentRouter.mkWatcher 1 0 1) ex_ring (replicate 16 x01) (replicate 16 x02) (str "a")).
  - vm_compute. reflexivity.
  - eexists _, _. split; [reflexivity|]. split; [vm_compute; reflexivity|]. repeat constructor; eexists; (split; [reflexivity|]); split; (done || vm_compute; reflexivity).
  - vm_compute. reflexivity.
  - lia.
  - repeat constructor.
  - vm_compute. reflexivity.
Defined.

(** Two nodes whose sketches have a key each. *)
Definition ex_bloom (k : bytes) : Bloom.LocalBloom := default (Bloom.make Bloom.w_params) (Bloom.add_all Bloom.w_hash64 [k] (Bloom.make Bloom.w_params)).
Definition ex_sketch (n k : bytes) : WatchEvent := WPut true (SketchesPrefix ++ n) (Directory.EncodeSnapshot (ex_bloom k)).
Definition ex_agg : SketchAggregator :=
  fold_left (fun a ev => sketch_event ev a) [ex_sketch (str "b") [x07]] (ingestLocked (str "a") (Directory.EncodeSnapshot (ex_bloom [x02])) (seed [] new_aggregator)).

Lemma ex_bloom_params : Bloom.params_ (ex_bloom [x02]) = Bloom.w_params.
Proof. vm_compute. reflexivity. Qed.

Lemma ex_bloom_publishable : publishable (ex_bloom [x02]).
Proof.
  unfold publishable. rewrite ex_bloom_params. split; [split; reflexivity|]. split; [reflexivity|]. split; [split; reflexivity|].
  split; [vm_compute; reflexivity|].
  assert (W : forallb (fun w => (0 <=? w) && (w <? 2 ^ 64)) (Bloom.words_ (ex_bloom [x02])) = true) by (vm_compute; reflexivity).
  apply Forall_forall. intros w I. rewrite forallb_forall in W. specialize (W w (proj1 (list_elem_of_In _ _) I)). unfold Bloom.word_ok. lia.
Qed.

Lemma cluster_sketch_complete_witness :
  exists blob raw, aggregate (map_to_list (sketches ex_agg)).*2 ex_agg = Some blob /\ Directory.DecodeBloomSnapshot blob = Some (Bloom.w_params, raw) /\
    Bloom.AggMaybeContains Bloom.w_hash64 [x02] (Bloom.Set_ Bloom.w_params raw (Bloom.mkAgg Bloom.w_params [])) = Some true.
Proof.
  unfold ex_agg. rewrite <- ex_bloom_params.
  destruct (cluster_sketch_complete Bloom.w_hash64 [] [] (str "a") (ex_bloom [x02]) [ex_sketch (str "b") [x07]] (map_to_list (sketches ex_agg)).*2 [x02]
    (Bloom.mkAgg (Bloom.params_ (ex_bloom [x02])) [])) as (blob & raw & A & D & C).
  - apply ex_bloom_publishable.
  - left. reflexivity.
  - constructor; [vm_compute; discriminate|constructor].
  - unfold ex_agg. reflexivity.
  - exists blob, raw. split; [exact A|]. split; [exact D|]. apply C. vm_compute. reflexivity.
Defined.

Definition ex_loop : SketchLoop := mkLoop (fold_left (fun a ev => sketch_event ev a) [ex_sketch (str "a") [x02]; ex_sketch (str "b") [x07]] (seed [] new_aggregator)) true.

Lemma aggregator_well_typed_witness :
  exists blob l' m k raw, sketch_step (STimer (map_to_list (sketches (agg ex_loop))).*2 true) ex_loop = Some (Some blob, l') /\
    blob = put_le 4 m ++ put_le 4 k ++ raw /\ zlen raw = wire_bytes m.
Proof.
  destruct (aggregator_well_typed ex_loop (STimer (map_to_list (sketches (agg ex_loop))).*2 true)) as (_ & _ & out & l' & E & B).
  - apply (agg_next (SEvents [ex_sketch (str "a") [x02]; ex_sketch (str "b") [x07]]) (mkLoop (seed [] new_aggregator) false) None); [apply agg_start|exact I|reflexivity].
  - unfold in_order. reflexivity.
  - assert (S : match sketch_step (STimer (map_to_list (sketches (agg ex_loop))).*2 true) ex_loop with Some (Some _, _) => true | _ => false end = true) by (vm_compute; reflexivity).
    destruct out as [blob|]; [|rewrite E in S; discriminate S]. destruct (B blob eq_refl) as (m & k & raw & Eb & _ & _ & L).
    exists blob, l', m, k, raw. split; [exact E|]. split; [exact Eb|exact L].
Defined.

(** A header alone is taken for a sketch of 2^32 - 1 bits. *)
Example empty_sketch_accepted :
  sketches (ingestLocked (str "a") (put_le 4 (2 ^ 32 - 1) ++ put_le 4 7) new_aggregator) !! str "a" = Some [].
Proof. vm_compute. reflexivity. Qed.

Definition ex_server : Server := NewServer [] 0.
Definition ex_register : RegisterRequest := mkRegister (str "a") (str "h") (str "v") [] None.

Lemma Register_registers_witness :
  exists s c kv, Register NodeID (mem_grant 0) mem_put (Some ex_register) ex_server Etcd.new_client = (Some (str "kvcache", 1), s, c) /\
    Etcd.Get (NodesPrefix ++ str "a") c = Some kv /\ Etcd.leases_ c !! Etcd.lease kv = Some (Etcd.mkLease 15 15000).
Proof.
  destruct (Register_registers NodeID 0 ex_register ex_server Etcd.new_client) as (s & c & kv & R & G & _ & _ & L); [discriminate|reflexivity|reflexivity|].
  assert (C : registerCount (Register NodeID (mem_grant 0) mem_put (Some ex_register) ex_server Etcd.new_client).1.2 = 1) by (vm_compute; reflexivity).
  exists s, c, kv. rewrite R in C |- *. cbn [fst snd] in C. rewrite C. done.
Defined.

(** ** What is lost *)

(** A node that leaves between the two readings at the start of [Run]: the first burst
    brings it back, and no event takes it away. *)
Example left_before_second_listing :
  let p := (run (str "cp") [IEvent (mkEvent EventAdd (bare (str "a"))); ITimer (ex_io [])] (new_publisher (ListNodes ex_unmarshal []))) in
  IEvent <$> Watch ex_unmarshal [ex_kv (str "a")] [] = [IEvent (mkEvent EventAdd (bare (str "a")))] /\ Nodes <$> p.1 = [[bare (str "a")]].
Proof. split; vm_compute; reflexivity. Qed.

(** A drain marker alone publishes nothing: a publisher at rest ignores its timer. *)
Example marker_waits_for_an_event :
  let p := (run (str "cp") [ITimer (ex_io [])] (new_publisher [bare (str "a")])).2 in
  run (str "cp") [ITimer (ex_io [str "a"]); ITimer (ex_io [str "a"])] p = ([], p).
Proof. vm_compute. reflexivity. Qed.

(** The parameters stay those of the first sketch, also when its node is gone. *)
Example parameters_stay :
  let b := Bloom.make (Bloom.mkParams 64 2) in
  let a := sketch_event (WDelete (SketchesPrefix ++ str "a") None) (sketch_event (ex_sketch (str "a") [x02]) new_aggregator) in
  sketches a = ∅ /\ ingestLocked (str "b") (Directory.EncodeSnapshot b) a = a.
Proof. split; vm_compute; reflexivity. Qed.

End ControlPlane.
