(* ===== verification/SdkClient.v ===== *)
(** * The Python client

    sdk/python/agent_state_storage: the framing of keys (langgraph/_keys.py), the requests
    and chunks that the clients share (_common.py), the translation of errors (_errors.py)
    and the calls of [Client] (client.py).

    What a client needs of the service is the class [AgentServer]: the calls and, over the
    records and sessions of its tenant, what they promise. The theorems about clients are
    proved against it; [service_server] discharges it with the handlers of AgentState.v
    over any ordered store, each call reaching the server, failing on the way there, or
    losing its answer on the way back. A generator is a loop with a consumer; its fuel is
    the number of requests, and [scan_reads] shows that one more than there are records is
    enough. *)

From S2P Require Import Prelude OrderedMap LogCodec LogStore LogReplay LogDurability LogScan.
From S2P Require Import LogCorrect KvInterface Mtls AgentState AgentKeys AgentItems AgentRecords.
From Stdlib Require Import ZArith Lia Sorted.

Import OMap Log Agent.
Open Scope Z_scope.

Module Sdk.

#[local] Notation str := Mtls.str.

(** ** Keys *)

(** A part of 4 GiB or more raises in [struct.pack]; the theorems ask for shorter ones. *)
Definition frame (p : bytes) : bytes := put_be 4 (zlen p) ++ p.
Definition pack (parts : list bytes) : bytes := concat (frame <$> parts).

(** A slice past the end is cut; fewer than four bytes of length raise. *)
Fixpoint unpack_from (fuel : nat) (data : bytes) : option (list bytes) :=
  match fuel, data with
  | _, [] => Some []
  | O, _ => None
  | S fuel, _ =>
      if zlen data <? 4 then None
      else
        let n := Z.to_nat (get_be (take 4 data)) in
        (fun r => take n (drop 4 data) :: r) <$> unpack_from fuel (drop n (drop 4 data))
  end.
Definition unpack (data : bytes) : option (list bytes) := unpack_from (length data) data.

(** ** Errors *)

(** [None]: a code of the transport that the server never answers. *)
Notation code := (option StatusCode).
Inductive exn := AgentStateError (c : code) | NotFound (c : code) | PermissionDenied (c : code) | ValueError | OutOfFuel.

Definition translate (c : code) : exn :=
  match c with
  | Some NOT_FOUND => NotFound c
  | Some PERMISSION_DENIED | Some UNAUTHENTICATED => PermissionDenied c
  | _ => AgentStateError c
  end.

(** ** The service *)

Class AgentServer (W : Type) := {
  rs_write : list (bytes * bytes) -> list bytes -> W -> (code + unit) * W;
  rs_get : list bytes -> W -> (code + list (bytes * bytes)) * W;
  rs_scan : bytes -> bytes -> bytes -> Z -> bool -> W -> (code + (list (bytes * bytes) * bool)) * W;
  rs_delete_prefix : bytes -> W -> (code + nat) * W;
  rs_get_items : bytes -> Z -> Z -> W -> (code + GetItemsResponse) * W;
  (** The records and the sessions of the tenant. *)
  rs_view : W -> omap;
  rs_items : W -> bytes -> list (Z * bytes) }.

(** What a batch leaves. *)
Definition batch_of (puts : list (bytes * bytes)) (deletes : list bytes) : list Mutation :=
  ((fun r => mkMut kPut r.1 r.2) <$> puts) ++ ((fun k => mkMut kDel k []) <$> deletes).
Definition written (puts : list (bytes * bytes)) (deletes : list bytes) (v : omap) : omap := play (batch_of puts deletes) v.

Definition scan_of (prefix start_after end_before : bytes) (reverse : bool) : ScanOptions := mkScan prefix start_after end_before 0 0 reverse.

(** A read leaves everything as it is and, when calls get through, answers. *)
Record read_law {W A} (ok up : W -> Prop) (view : W -> omap) (items : W -> bytes -> list (Z * bytes)) (m : W -> (code + A) * W) (Q : A -> Prop) (w : W) : Prop := {
  rl_ok : ok (m w).2;
  rl_view : view (m w).2 = view w;
  rl_items s : items (m w).2 s = items w s;
  rl_up : up w -> up (m w).2 /\ exists a, (m w).1 = inr a;
  rl_answer a : (m w).1 = inr a -> Q a }.

(** [rs_up]: all further calls get through. A write that fails may have been applied. *)
Class AgentServerLaws (W : Type) `{AgentServer W} := {
  rs_ok : W -> Prop;
  rs_up : W -> Prop;
  rs_fits : list (bytes * bytes) -> list bytes -> Prop;
  rs_delete_fits : bytes -> W -> Prop;
  rs_sorted w : rs_ok w -> sorted (rs_view w);
  rs_keys w : rs_ok w -> Forall (fun kv => kv.1 <> []) (rs_view w);
  rs_write_law puts dels w r w' :
    rs_ok w -> rs_fits puts dels -> rs_write puts dels w = (r, w') ->
    rs_ok w' /\ match r with inr _ => rs_view w' = written puts dels (rs_view w) | inl _ => rs_view w' = rs_view w \/ rs_view w' = written puts dels (rs_view w) end /\
    (rs_up w -> rs_up w');
  rs_get_law keys w :
    rs_ok w -> read_law rs_ok rs_up rs_view rs_items (rs_get keys) (fun found => found = base.omap (fun k => (fun v => (k, v)) <$> find k (rs_view w)) keys) w;
  rs_scan_law p sa eb lim rv w :
    rs_ok w -> 0 < lim -> read_law rs_ok rs_up rs_view rs_items (rs_scan p sa eb lim rv) (fun '(out, more) =>
      exists rest, candidates (scan_of p sa eb rv) (rs_view w) = out ++ rest /\ (more = true <-> rest <> []) /\ (rest <> [] -> out <> []) /\ zlen out <= lim) w;
  rs_get_items_law s lim before w :
    rs_ok w -> s <> [] -> sized s -> 0 <= lim -> 0 <= before < 2 ^ 64 -> read_law rs_ok rs_up rs_view rs_items (rs_get_items s lim before) (fun resp =>
      exists rest page, older before (rs_items w s) = rest ++ page /\ items_ resp = page.*2 /\ (has_more resp = true <-> rest <> []) /\
        (rest <> [] -> page <> []) /\ (lim <> 0 -> zlen page <= lim) /\ (page <> [] -> older (first_seq resp) (rs_items w s) = rest /\ 0 < first_seq resp < 2 ^ 64)) w;
  rs_delete_law p w r w' :
    rs_ok w -> rs_delete_fits p w -> rs_delete_prefix p w = (r, w') ->
    let gone := List.filter (fun kv => negb (starts_with p kv.1)) (rs_view w) in
    rs_ok w' /\ match r with inr n => rs_view w' = gone | inl _ => rs_view w' = rs_view w \/ rs_view w' = gone end /\ (rs_up w -> rs_up w') }.

(** ** The client *)

Definition SCAN_PAGE : Z := 1000.
Definition BLOB_CHUNK : nat := Z.to_nat (2 ^ 20).

Section Client.
Context {W : Type} `{AgentServer W}.

(** A call raises or returns, on a world it may have changed. *)
Definition M (A : Type) : Type := W -> (exn + A) * W.
Definition ret {A} (a : A) : M A := fun w => (inr a, w).
Definition raise {A} (e : exn) : M A := fun w => (inl e, w).
Definition bind {A B} (m : M A) (f : A -> M B) : M B := fun w => match m w with (inl e, w1) => (inl e, w1) | (inr a, w1) => f a w1 end.

(** [_call]. *)
Definition call {A} (m : W -> (code + A) * W) : M A := fun w => match m w with (inl c, w1) => (inl (translate c), w1) | (inr a, w1) => (inr a, w1) end.

Definition write_records (puts : list (bytes * bytes)) (deletes : list bytes) : M unit := call (rs_write puts deletes).

(** A dict: a key keeps the place of its first appearance. *)
Fixpoint dict_set {V} (k : bytes) (v : V) (d : list (bytes * V)) : list (bytes * V) :=
  match d with [] => [(k, v)] | (k', v') :: r => if bool_decide (k = k') then (k, v) :: r else (k', v') :: dict_set k v r end.
Definition dict {V} (l : list (bytes * V)) : list (bytes * V) := fold_left (fun d kv => dict_set kv.1 kv.2 d) l [].
Fixpoint dict_get {V} (k : bytes) (d : list (bytes * V)) : option V :=
  match d with [] => None | (k', v) :: r => if bool_decide (k = k') then Some v else dict_get k r end.

Definition get_records (keys : list bytes) : M (list (bytes * bytes)) := bind (call (rs_get keys)) (fun found => ret (dict found)).
Definition delete_record_prefix (prefix : bytes) : M nat := call (rs_delete_prefix prefix).

(** The limit of a page. *)
Definition scan_page_limit (remaining : option Z) : Z := match remaining with None => SCAN_PAGE | Some r => Z.min SCAN_PAGE r end.

(** The consumer gets the records one by one and says whether it has enough. *)
Fixpoint each {A} (f : bytes * bytes -> A -> M (bool * A)) (l : list (bytes * bytes)) (a : A) : M (bool * A) :=
  match l with
  | [] => ret (false, a)
  | r :: l => bind (f r a) (fun '(enough, a1) => if (enough : bool) then ret (true, a1) else each f l a1)
  end.

Fixpoint scan_records {A} (fuel : nat) (f : bytes * bytes -> A -> M (bool * A)) (prefix start_after end_before : bytes) (remaining : option Z) (reverse : bool) (a : A) : M A :=
  if match remaining with None => true | Some r => 0 <? r end then
    match fuel with
    | O => raise OutOfFuel
    | S fuel =>
        bind (call (rs_scan prefix start_after end_before (scan_page_limit remaining) reverse)) (fun '(page, more) =>
        bind (each f page a) (fun '(enough, a1) =>
        if (enough : bool) then ret a1
        else
          let remaining := (fun r => r - zlen page) <$> remaining in
          match negb more, last page with
          | true, _ | _, None => ret a1
          | false, Some kv =>
              if reverse then scan_records fuel f prefix start_after kv.1 remaining reverse a1
              else scan_records fuel f prefix kv.1 end_before remaining reverse a1
          end))
    end
  else ret a.

(** The records as a list. *)
Definition collect (r : bytes * bytes) (l : list (bytes * bytes)) : M (bool * list (bytes * bytes)) := ret (false, l ++ [r]).

(** A request with a limit of more than 32 bits is not built: its constructor raises. *)
Definition get_items_request (limit : Z) : M unit := if 2 ^ 32 <=? limit then raise ValueError else ret tt.

(** [limit=remaining or 0]. *)
Fixpoint get_items_from (fuel : nat) (session : bytes) (remaining : option Z) (before : Z) (pages : list (list bytes)) : M (list (list bytes)) :=
  if match remaining with None => true | Some r => 0 <? r end then
    match fuel with
    | O => raise OutOfFuel
    | S fuel =>
        bind (get_items_request (default 0 remaining)) (fun _ =>
        bind (call (rs_get_items session (default 0 remaining) before)) (fun resp =>
        let pages := pages ++ [items_ resp] in
        let remaining := (fun r => r - zlen (items_ resp)) <$> remaining in
        match negb (has_more resp), items_ resp with
        | true, _ | _, [] => ret pages
        | false, _ => get_items_from fuel session remaining (first_seq resp) pages
        end))
    end
  else ret pages.
Definition get_items (fuel : nat) (session : bytes) (limit : option Z) : M (list bytes) :=
  bind (get_items_from fuel session limit 0 []) (fun pages => ret (concat (rev pages))).

End Client.

(** ** Blobs *)

(** The chunks of a blob given as bytes, the first with its name. *)
Fixpoint blob_rest (fuel : nat) (data : bytes) : list bytes :=
  match fuel, data with O, _ | _, [] => [] | S fuel, _ => take BLOB_CHUNK data :: blob_rest fuel (drop BLOB_CHUNK data) end.
Definition blob_chunks (data : bytes) : list bytes := take BLOB_CHUNK data :: blob_rest (length data) (drop BLOB_CHUNK data).

(** The chunks of a blob are its bytes, none longer than the chunk size, and there is at
    least one. *)
Lemma blob_chunks_whole data : concat (blob_chunks data) = data /\ Forall (fun x => (length x <= BLOB_CHUNK)%nat) (blob_chunks data) /\ blob_chunks data <> [].
Proof.
  assert (B : (0 < BLOB_CHUNK)%nat) by (unfold BLOB_CHUNK; lia).
  assert (R : forall fuel d, (length d <= fuel)%nat -> concat (blob_rest fuel d) = d /\ Forall (fun x => (length x <= BLOB_CHUNK)%nat) (blob_rest fuel d)).
  { intros fuel. induction fuel as [|fuel IH]; intros [|c d] L; [done|cbn in L; lia|done|]. cbn [blob_rest]. destruct (IH (drop BLOB_CHUNK (c :: d))) as [I1 I2]; [rewrite length_drop; cbn [length] in *; lia|].
    split; [cbn [concat]; by rewrite I1, take_drop|]. constructor; [rewrite length_take; lia|done]. }
  unfold blob_chunks. destruct (R (length data) (drop BLOB_CHUNK data)) as [R1 R2]; [rewrite length_drop; lia|]. cbn [concat]. rewrite R1, take_drop. split; [done|]. split; [|done].
  constructor; [rewrite length_take; lia|done].
Qed.

(** ** Framed keys *)

Lemma frame_app_inv p q r s : sized p -> sized q -> frame p ++ r = frame q ++ s -> p = q /\ r = s.
Proof.
  unfold frame. intros P Q E. rewrite <- !app_assoc in E. apply app_inj_1 in E as [E1 E2]; [|by rewrite !length_put_be].
  apply (f_equal get_be) in E1. rewrite !get_put_be in E1. unfold sized in P, Q. rewrite !Z.mod_small in E1 by lia.
  apply app_inj_1 in E2; [done|]. lia.
Qed.

Lemma pack_cons p ps : pack (p :: ps) = frame p ++ pack ps.
Proof. done. Qed.
Lemma pack_app ps qs : pack (ps ++ qs) = pack ps ++ pack qs.
Proof. unfold pack. by rewrite fmap_app, concat_app. Qed.

Lemma key_part_length p : length (frame p) = (4 + length p)%nat.
Proof. unfold frame. by rewrite length_app, length_put_be. Qed.

Lemma pack_inj ps : forall qs, Forall sized ps -> Forall sized qs -> pack ps = pack qs -> ps = qs.
Proof.
  induction ps as [|p ps IH]; intros [|q qs] P Q E; [done| | |].
  - apply (f_equal length) in E. rewrite pack_cons, length_app, key_part_length in E. discriminate E.
  - apply (f_equal length) in E. rewrite pack_cons, length_app, key_part_length in E. discriminate E.
  - apply Forall_cons in P as [P1 P2]. apply Forall_cons in Q as [Q1 Q2]. rewrite !pack_cons in E. apply frame_app_inv in E as [-> E]; [|done..]. f_equal. by apply IH.
Qed.

(** A packed key is a prefix of another exactly if its parts are the first of the other. *)
Lemma pack_prefix ps : forall qs, Forall sized ps -> Forall sized qs -> starts_with (pack ps) (pack qs) = true <-> ps `prefix_of` qs.
Proof.
  intros qs P Q. rewrite starts_with_iff. split; [|intros [k ->]; exists (pack k); apply pack_app].
  revert qs Q. induction ps as [|p ps IH]; intros qs Q [r E]; [apply prefix_nil|]. apply Forall_cons in P as [P1 P2]. rewrite pack_cons, <- app_assoc in E.
  destruct qs as [|q qs]; [apply (f_equal length) in E; rewrite length_app, key_part_length in E; discriminate E|].
  apply Forall_cons in Q as [Q1 Q2]. rewrite pack_cons in E. apply frame_app_inv in E as [-> E]; [|done..]. apply prefix_cons, IH; [done|done|]. by exists r.
Qed.

Lemma key_unpack_pack ps : Forall sized ps -> unpack (pack ps) = Some ps.
Proof.
  intros P. unfold unpack. assert (G : forall fuel, (length (pack ps) <= fuel)%nat -> unpack_from fuel (pack ps) = Some ps); [|by apply G].
  induction P as [|p ps P1 P2 IH]; intros fuel L; [by destruct fuel|]. rewrite pack_cons, length_app, key_part_length in L. destruct fuel as [|fuel]; [lia|].
  rewrite pack_cons. unfold frame. rewrite <- app_assoc. cbn [unpack_from]. assert (N : exists c d, put_be 4 (zlen p) ++ p ++ pack ps = c :: d).
  { pose proof (length_put_be 4 (zlen p)) as L4. destruct (put_be 4 (zlen p)); [discriminate L4|]. eauto. }
  destruct N as (c & d & N). rewrite N, <- N. rewrite !length_app, length_put_be. destruct (Z.ltb_spec (Z.of_nat (4 + (length p + length (pack ps)))) 4); [lia|].
  rewrite take_app_length', drop_app_length' by (by rewrite length_put_be). rewrite get_put_be, Z.mod_small by exact (conj (Nat2Z.is_nonneg _) P1).
  rewrite Nat2Z.id, take_app_length, drop_app_length, IH by lia. done.
Qed.

(** ** Reads *)

Section Reads.
Context {W : Type} `{AgentServerLaws W}.

Record same (w w' : W) : Prop := {
  same_ok : rs_ok w'; same_view : rs_view w' = rs_view w; same_items s : rs_items w' s = rs_items w s; same_up : rs_up w -> rs_up w' }.

Lemma same_refl w : rs_ok w -> same w w.
Proof. by split. Qed.
Lemma same_trans w1 w2 w3 : same w1 w2 -> same w2 w3 -> same w1 w3.
Proof. intros [A1 A2 A3 A4] [B1 B2 B3 B4]. split; [done|congruence|intros s; by rewrite B3|auto]. Qed.

(** The computation [m] only reads; what it returns satisfies [Q], and it raises only if a
    call does not get through. *)
Definition reads {A} (m : M A) (w : W) (Q : A -> Prop) : Prop :=
  same w (m w).2 /\ match (m w).1 with inr a => Q a | inl e => ~ rs_up w /\ e <> OutOfFuel end.

Lemma reads_ret {A} (a : A) w Q : rs_ok w -> Q a -> reads (ret a) w Q.
Proof. intros O q. split; [by apply same_refl|done]. Qed.

Lemma reads_bind {A B} (m : M A) (f : A -> M B) w Q R :
  reads m w Q -> (forall a w', Q a -> same w w' -> reads (f a) w' R) -> reads (bind m f) w R.
Proof.
  intros [S1 S2] F. unfold reads, bind. destruct (m w) as [[e|a] w1]; cbn [fst snd] in *; [done|]. destruct (F a w1 S2 S1) as [T1 T2].
  split; [by eapply same_trans|]. destruct (f a w1) as [[e|b] w2]; cbn [fst snd] in *; [|done]. destruct T2 as [T2 T3]. split; [|done]. intros U. by apply T2, S1.
Qed.

Lemma reads_mono {A} (m : M A) w (Q R : A -> Prop) : reads m w Q -> (forall a, Q a -> R a) -> reads m w R.
Proof. intros [S1 S2] I. split; [done|]. destruct (m w).1; auto. Qed.

Lemma reads_call {A} (m : W -> (code + A) * W) w Q : read_law rs_ok rs_up rs_view rs_items m Q w -> reads (call m) w Q.
Proof.
  intros [L1 L2 L3 L4 L5]. unfold reads, call. destruct (m w) as [[c|a] w1] eqn:E; cbn [fst snd] in *.
  - split; [split; [done|done|done|by intros U; apply L4]|]. split; [|by destruct c as [[]|]]. intros U. by destruct (L4 U) as [_ [? ?]].
  - split; [split; [done|done|done|by intros U; apply L4]|]. by apply L5.
Qed.

Lemma dict_set_new {V} k (v : V) d : k ∉ d.*1 -> dict_set k v d = d ++ [(k, v)].
Proof. induction d as [|[k' v'] d IH]; intros K; cbn; [done|]. apply not_elem_of_cons in K as [K1 K2]. rewrite bool_decide_false by done. by rewrite IH. Qed.

Lemma dict_nodup {V} (l : list (bytes * V)) : NoDup l.*1 -> dict l = l.
Proof.
  assert (G : forall l (d : list (bytes * V)), NoDup (d ++ l).*1 -> fold_left (fun d kv => dict_set kv.1 kv.2 d) l d = d ++ l); [|apply (G l [])].
  clear l. induction l as [|[k v] l IH]; intros d N; cbn [fold_left]; [by rewrite app_nil_r|]. cbn [fst snd]. rewrite dict_set_new.
  - rewrite IH; [by rewrite <- app_assoc|]. by rewrite <- app_assoc.
  - rewrite fmap_app in N. apply NoDup_app in N as (_ & N & _). intros K. apply (N _ K). by left.
Qed.

Lemma dict_get_in {V} k (v : V) l : NoDup l.*1 -> (k, v) ∈ l -> dict_get k l = Some v.
Proof.
  induction l as [|[k' v'] l IH]; intros N I; [by apply not_elem_of_nil in I|]. cbn in N. apply NoDup_cons in N as [N1 N2]. cbn. apply elem_of_cons in I as [[= -> ->]|I]; [by rewrite bool_decide_true|].
  rewrite bool_decide_false; [by apply IH|]. intros ->. apply N1. by apply (list_elem_of_fmap_2 fst) in I.
Qed.

Lemma omap_keys {A V} (f : A -> bytes) (g : A -> option V) l : NoDup (f <$> l) -> NoDup (base.omap (fun x => (fun v => (f x, v)) <$> g x) l).*1.
Proof.
  induction l as [|x l IH]; intros N; [constructor|]. cbn in N. apply NoDup_cons in N as [N1 N2]. cbn. destruct (g x) as [v|]; cbn; [|by apply IH]. apply NoDup_cons. split; [|by apply IH].
  intros I. apply N1. apply list_elem_of_fmap in I as ([k y] & E & I). cbn in E. subst k. apply list_elem_of_omap in I as (z & I & Z). destruct (g z); [|done]. injection Z as Z _. rewrite <- Z. by apply list_elem_of_fmap_2.
Qed.

Lemma get_records_reads keys w : rs_ok w -> NoDup keys ->
  reads (get_records keys) w (fun d => d = base.omap (fun k => (fun v => (k, v)) <$> find k (rs_view w)) keys).
Proof.
  intros O N. eapply reads_bind; [by apply reads_call, rs_get_law|]. intros a w' -> S'. apply reads_ret; [apply S'|]. apply dict_nodup, (omap_keys id). by rewrite list_fmap_id.
Qed.

Lemma each_reads {A} (f : bytes * bytes -> A -> M (bool * A)) (P : list (bytes * bytes) -> A -> Prop) (Q : A -> Prop) w0 l2 : forall l1 a w,
  same w0 w -> P l1 a ->
  (forall l r l' a w', l1 `prefix_of` l -> l1 ++ l2 = l ++ r :: l' -> P l a -> same w0 w' -> reads (f r a) w' (fun '(enough, a') => if enough then Q a' else P (l ++ [r]) a')) ->
  reads (each f l2 a) w (fun '(enough, a') => if enough then Q a' else P (l1 ++ l2) a').
Proof.
  induction l2 as [|r l2 IH]; intros l1 a w Sw Pa F; cbn [each].
  { apply reads_ret; [apply Sw|]. by rewrite app_nil_r. }
  eapply reads_bind; [by apply (F l1 r l2)|]. intros [[|] a1] w' Q1 S'; [apply reads_ret; [apply S'|done]|].
  eapply reads_mono; [apply (IH (l1 ++ [r])); [by eapply same_trans|done|]|].
  - intros l r' l' a' w2 Pre E. apply (F l r' l' a' w2); [eapply prefix_app_l; exact Pre|]. by rewrite <- app_assoc in E.
  - intros [[|] a2]; [done|]. by rewrite <- app_assoc.
Qed.

Definition wanted (prefix start_after end_before : bytes) (remaining : option Z) (reverse : bool) (v : omap) : list (bytes * bytes) :=
  let l := candidates (scan_of prefix start_after end_before reverse) v in match remaining with None => l | Some n => take (Z.to_nat n) l end.

(** The next page: what is wanted is the page and what is wanted from its last key on. *)
Lemma wanted_page p sa eb rem rv w out more rest : rs_ok w ->
  match rem with None => True | Some n => 0 < n /\ zlen out <= n end ->
  candidates (scan_of p sa eb rv) (rs_view w) = out ++ rest -> (more = true <-> rest <> []) -> (rest <> [] -> out <> []) ->
  let rem' := (fun r => r - zlen out) <$> rem in
  match negb more, last out with
  | true, _ | _, None => wanted p sa eb rem rv (rs_view w) = out
  | false, Some kv => wanted p sa eb rem rv (rs_view w) = out ++ (if rv then wanted p sa kv.1 rem' rv (rs_view w) else wanted p kv.1 eb rem' rv (rs_view w)) /\
      (length (candidates (if rv then scan_of p sa kv.1 rv else scan_of p kv.1 eb rv) (rs_view w)) < length (candidates (scan_of p sa eb rv) (rs_view w)))%nat
  end.
Proof.
  intros O L C M N rem'. assert (T : wanted p sa eb rem rv (rs_view w) = out ++ match rem' with None => rest | Some n => take (Z.to_nat n) rest end).
  { unfold wanted, rem'. rewrite C. destruct rem as [n|]; [|done]. destruct L as [L1 L2]. cbn. rewrite take_app, take_ge by lia. f_equal. f_equal. lia. }
  destruct rest as [|x rest].
  { assert (more = false) as -> by (destruct more; [by destruct (proj1 M eq_refl)|done]). cbn [negb]. rewrite T. destruct rem'; by rewrite ?take_nil, app_nil_r. }
  assert (more = true) as -> by (by apply M). cbn [negb]. destruct (last out) as [kv|] eqn:Lo; [|by apply last_None in Lo; apply N in Lo].
  apply last_Some in Lo as [out' ->]. rewrite T. rewrite <- app_assoc in C.
  assert (K : kv.1 <> []).
  { pose proof (rs_keys w O) as F. rewrite Forall_forall in F. apply F. assert (I : kv ∈ candidates (scan_of p sa eb rv) (rs_view w)) by (rewrite C; set_solver).
    unfold candidates in I. destruct (reverse _); [apply list_elem_of_In, in_rev in I|apply list_elem_of_In in I]; apply List.filter_In in I as [I _]; by apply list_elem_of_In. }
  pose proof (scan_resume _ _ _ _ _ (rs_sorted w O) K C) as R. unfold resume in R. cbn [reverse scan_of prefix start_after end_before limit max_bytes] in R.
  fold (scan_of p sa kv.1 true) (scan_of p kv.1 eb false) in R. split.
  - f_equal. unfold wanted. destruct rv; rewrite R; by destruct rem'.
  - rewrite C, length_app. destruct rv; rewrite R; cbn; lia.
Qed.

(** A scan gives its consumer exactly the records wanted, one by one, however the server
    cuts the pages, until the consumer has enough; it ends. *)
Lemma scan_reads {A} (f : bytes * bytes -> A -> M (bool * A)) p rv : forall fuel sa eb rem a w (P : list (bytes * bytes) -> A -> Prop) (Q : A -> Prop),
  rs_ok w -> (length (candidates (scan_of p sa eb rv) (rs_view w)) < fuel)%nat -> P [] a ->
  (forall l r l' a w', wanted p sa eb rem rv (rs_view w) = l ++ r :: l' -> P l a -> same w w' -> reads (f r a) w' (fun '(enough, a') => if enough then Q a' else P (l ++ [r]) a')) ->
  reads (scan_records fuel f p sa eb rem rv a) w (fun a' => P (wanted p sa eb rem rv (rs_view w)) a' \/ Q a').
Proof.
  induction fuel as [|fuel IH]; intros sa eb rem a w P Q O L Pa F; [lia|]. cbn [scan_records].
  destruct (match rem with None => true | Some r => 0 <? r end) eqn:Re.
  2:{ apply reads_ret; [done|]. left. destruct rem as [n|]; [|done]. apply Z.ltb_ge in Re. unfold wanted. replace (Z.to_nat n) with 0%nat by lia. done. }
  assert (Rn : match rem with None => True | Some n => 0 < n end) by (destruct rem; [by apply Z.ltb_lt|done]).
  assert (Lp : 0 < scan_page_limit rem) by (unfold scan_page_limit, SCAN_PAGE; destruct rem; lia).
  eapply reads_bind; [apply reads_call, rs_scan_law; done|]. intros [page more] w1 (rest & C & M & N & Z) S1. cbn beta.
  pose proof (wanted_page p sa eb rem rv w page more rest O) as WP. specialize (WP ltac:(destruct rem as [n|]; [split; [done|]; unfold scan_page_limit in Z; lia|done]) C M N). cbv zeta in WP.
  assert (Pre : page `prefix_of` wanted p sa eb rem rv (rs_view w)).
  { destruct (negb more), (last page); try (rewrite WP; done). destruct WP as [-> _]. by apply prefix_app_r. }
  eapply reads_bind.
  { apply (each_reads f P Q w page [] a w1); [done|done|]. intros l r l' a' w' _ E. destruct Pre as [k Pre]. apply (F l r (l' ++ k)). rewrite Pre. cbn [app] in E. by rewrite E, <- app_assoc. }
  cbn [app]. intros [[|] a1] w2 Q1 S2; [apply reads_ret; [apply S2|by right]|].
  assert (S3 := same_trans _ _ _ S1 S2). destruct (negb more); [apply reads_ret; [apply S2|left; by rewrite WP]|].
  destruct (last page) as [kv|]; [|apply reads_ret; [apply S2|left; by rewrite WP]]. destruct WP as [WP LP]. rewrite <- (same_view _ _ S3) in LP, L |- *.
  assert (G : forall sa' eb', page ++ wanted p sa' eb' ((fun r => r - zlen page) <$> rem) rv (rs_view w2) = wanted p sa eb rem rv (rs_view w) ->
    (length (candidates (scan_of p sa' eb' rv) (rs_view w2)) < fuel)%nat ->
    reads (scan_records fuel f p sa' eb' ((fun r => r - zlen page) <$> rem) rv a1) w2 (fun a' => P (page ++ wanted p sa' eb' ((fun r => r - zlen page) <$> rem) rv (rs_view w2)) a' \/ Q a')).
  { intros sa' eb' Wp Lw. apply (IH sa' eb' _ a1 w2 (fun l => P (page ++ l)) Q); [apply S3|done|by rewrite app_nil_r|].
    intros l r l' a' w' E Pl S'. rewrite (assoc_L (++)). apply (F (page ++ l) r l'); [|done|by eapply same_trans]. rewrite <- Wp, E. apply (assoc_L (++)). }
  rewrite <- (same_view _ _ S3) in WP. rewrite WP. destruct rv; apply G; (lia || by rewrite <- WP, (same_view _ _ S3)).
Qed.

(** *** Conversations *)

Definition newest {A} (n : option Z) (l : list A) : list A := match n with None => l | Some n => drop (length l - Z.to_nat n) l end.

Lemma newest_app {A} n (r p : list A) : match n with None => True | Some n => zlen p <= n end ->
  newest n (r ++ p) = newest ((fun n => n - zlen p) <$> n) r ++ p.
Proof.
  destruct n as [n|]; [|done]. cbn. intros L. rewrite length_app, drop_app. f_equal; [f_equal; lia|].
  replace (length r + length p - Z.to_nat n - length r)%nat with 0%nat by lia. done.
Qed.

Lemma get_items_from_reads s : s <> [] -> sized s -> forall fuel rem before pages w,
  rs_ok w -> default 0 rem < 2 ^ 32 -> 0 <= before < 2 ^ 64 -> (length (older before (rs_items w s)) < fuel)%nat ->
  reads (get_items_from fuel s rem before pages) w (fun r => exists more, r = pages ++ more /\ concat (rev more) = (newest rem (older before (rs_items w s))).*2).
Proof.
  intros Hs Zs. induction fuel as [|fuel IH]; intros rem before pages w O R32 B L; [lia|]. cbn [get_items_from].
  destruct (match rem with None => true | Some r => 0 <? r end) eqn:Re.
  2:{ apply reads_ret; [done|]. exists []. rewrite app_nil_r. split; [done|]. destruct rem as [n|]; [|done]. apply Z.ltb_ge in Re. cbn. rewrite drop_ge; [done|lia]. }
  assert (Rn : 0 <= default 0 rem) by (destruct rem; cbn in *; lia).
  unfold get_items_request. rewrite (proj2 (Z.leb_gt _ _) R32). change (reads (bind (ret tt) ?f) w ?P) with (reads (f tt) w P). cbn beta.
  eapply reads_bind; [apply reads_call, rs_get_items_law; done|]. cbn beta zeta. intros resp w1 (rest & page & C & Ip & Hm & Np & Lp & Nx) S1.
  assert (Le : match rem with None => True | Some n => zlen page <= n end) by (destruct rem as [n|]; [|done]; apply Z.ltb_lt in Re; cbn in Lp; apply Lp; lia).
  assert (E : forall more, concat (rev more) = (newest ((fun n => n - zlen page) <$> rem) rest).*2 -> concat (rev (items_ resp :: more)) = (newest rem (older before (rs_items w s))).*2).
  { intros more M. cbn [rev]. rewrite concat_app, M, C, newest_app, fmap_app, Ip by done. cbn. by rewrite app_nil_r. }
  assert (Ln : zlen (items_ resp) = zlen page) by (by rewrite Ip, length_fmap).
  assert (D : rest = [] -> reads (ret (pages ++ [items_ resp])) w1 (fun r => exists more, r = pages ++ more /\ concat (rev more) = (newest rem (older before (rs_items w s))).*2)).
  { intros ->. apply reads_ret; [apply S1|]. exists [items_ resp]. split; [done|]. apply E. by destruct rem. }
  destruct (has_more resp) eqn:Em; cbn [negb]; [|apply D; destruct rest; [done|]; by specialize (proj2 Hm ltac:(done))].
  destruct (items_ resp) as [|i rs] eqn:Ei.
  { apply D. destruct rest; [done|]. destruct page; [by destruct (Np ltac:(done))|discriminate Ip]. }
  rewrite <- Ei in *. assert (Pn : page <> []) by (intros ->; cbn in Ip; congruence). destruct (Nx Pn) as [Nx1 Nx2].
  eapply reads_mono; [apply (IH _ _ _ w1); [apply S1|destruct rem; cbn in *; lia|lia|]|].
  - rewrite (same_items _ _ S1), Nx1. rewrite C, length_app in L. destruct page; [done|]. cbn in L. lia.
  - rewrite (same_items _ _ S1), Nx1, Ln. intros r (more & -> & M). exists (items_ resp :: more). split; [by rewrite <- app_assoc|by apply E].
Qed.

(** [C7] Reading a conversation returns its newest items, oldest first, all of them or as many
    as asked for, however the server cuts the pages; it ends, and it raises only if a call
    does not get through, or at once if the number asked for does not fit 32 bits. *)
Theorem conversation_reads s limit w fuel :
  rs_ok w -> s <> [] -> sized s -> (length (rs_items w s) < fuel)%nat ->
  if 2 ^ 32 <=? default 0 limit then get_items fuel s limit w = (inl ValueError, w)
  else reads (get_items fuel s limit) w (fun l => l = (newest limit (rs_items w s)).*2).
Proof.
  intros O Hs Zs L. unfold get_items. destruct (Z.leb_spec (2 ^ 32) (default 0 limit)) as [B|B].
  - destruct limit as [n|]; cbn in B; [|lia]. destruct fuel as [|fuel]; [lia|]. unfold bind. cbn [get_items_from].
    rewrite (proj2 (Z.ltb_lt 0 n)) by lia. unfold bind, get_items_request. cbn [default from_option id].
    by rewrite (proj2 (Z.leb_le _ _) B).
  - eapply reads_bind; [apply (get_items_from_reads s Hs Zs fuel limit 0 [] w O B); [lia|]|].
    + unfold older. done.
    + cbn beta. intros r w1 (more & -> & M) S1. apply reads_ret; [apply S1|]. exact M.
Qed.

(** The records of a scan as a list. *)
Lemma scan_collect p sa eb rem rv w fuel :
  rs_ok w -> (length (candidates (scan_of p sa eb rv) (rs_view w)) < fuel)%nat ->
  reads (scan_records fuel collect p sa eb rem rv []) w (fun l => l = wanted p sa eb rem rv (rs_view w)).
Proof.
  intros O L. eapply reads_mono; [apply (scan_reads collect p rv fuel sa eb rem [] w (fun l a => a = l) (fun _ => False)); [done|done|done|]|by intros l [?|?]].
  intros l r l' a w' _ -> S'. by apply reads_ret; [apply S'|].
Qed.

End Reads.

(** ** The service as a server *)

Section Records.
Context (t : bytes).

Lemma records_under m : Forall (fun kv => exists k, kv.1 = record_key t k) (List.filter (under (record_key t [])) m).
Proof.
  apply Forall_forall. intros kv I. apply list_elem_of_In, List.filter_In in I as [_ I]. unfold under in I. apply starts_with_iff in I as [r I]. exists r. by rewrite record_key_app.
Qed.

Lemma record_of_key k v : record_of (record_key t []) (record_key t k, v) = (k, v).
Proof. unfold record_of. cbn [fst snd]. by rewrite (record_key_app t k), drop_app_length. Qed.

Lemma find_records k m : sorted m -> find k (records t m) = find (record_key t k) m /\ sorted (records t m).
Proof.
  intros Sm. unfold records. pose proof (records_under m) as U. pose proof (sorted_filter_List (under (record_key t [])) m Sm) as Sf.
  assert (E : find (record_key t k) m = find (record_key t k) (List.filter (under (record_key t [])) m)).
  { assert (X : forall v, find (record_key t k) m = Some v <-> find (record_key t k) (List.filter (under (record_key t [])) m) = Some v).
    { intros v. rewrite <- !elem_of_find by done. rewrite !list_elem_of_In, List.filter_In. unfold under. cbn [fst]. rewrite (record_key_app t k), starts_with_app. tauto. }
    destruct (find (record_key t k) m) as [v|]; [by symmetry; apply X|]. destruct (find _ (List.filter _ m)) as [v|]; [by apply X|done]. }
  rewrite E. clear E. induction (List.filter (under (record_key t [])) m) as [|[k0 v0] l IH]; [split; [done|constructor]|].
  apply Forall_cons in U as [[k1 U1] U2]. cbn [fst] in U1. subst k0. apply sorted_cons in Sf as [Sf1 Sf2]. destruct (IH U2 Sf1) as [I1 I2]. rewrite fmap_cons, record_of_key. split.
  - cbn [find]. rewrite I1. rewrite (record_key_app t k), (record_key_app t k1), bcmp_app. done.
  - apply sorted_cons. split; [done|]. apply Forall_fmap. rewrite Forall_forall in Sf2 |- *. intros [k2 v2] I. specialize (Sf2 _ I). rewrite Forall_forall in U2. destruct (U2 _ I) as [k3 U3]. cbn [fst] in U3. subst k2.
    unfold key_lt in *. unfold compose. rewrite record_of_key. cbn [fst] in *. by rewrite (record_key_app t k1), (record_key_app t k3), blt_app in Sf2.
Qed.

Lemma find_batch puts dels k m : sorted m ->
  find k (written puts dels m) = if bool_decide (k ∈ dels) then None else match last_put puts k with Some v => Some v | None => find k m end.
Proof.
  intros Sm. unfold written, batch_of, play. rewrite fold_left_app.
  assert (P : forall puts m, find k (fold_left step_map ((fun r => mkMut kPut r.1 r.2) <$> puts) m) = match last_put puts k with Some v => Some v | None => find k m end).
  { clear. intros puts m. rewrite <- last_put_acc. revert m. induction puts as [|[k' v] puts IH]; intros m; [done|]. cbn [fmap list_fmap fold_left]. rewrite IH. f_equal. unfold step_map. cbn [op key value fst snd].
    case_bool_decide as E; [subst k'; apply find_insert_eq|by apply find_insert_ne]. }
  assert (D : forall dels m, sorted m -> find k (fold_left step_map ((fun k => mkMut kDel k []) <$> dels) m) = if bool_decide (k ∈ dels) then None else find k m).
  { clear. intros dels. induction dels as [|d dels IH]; intros m Sm; [done|]. cbn [fmap list_fmap fold_left]. rewrite IH by auto with store. unfold step_map. cbn [op key].
    destruct (decide (k = d)) as [->|N]; [rewrite find_erase_eq, (bool_decide_true (d ∈ d :: dels)) by (done || by left); by case_bool_decide|].
    rewrite find_erase_ne by done. erewrite bool_decide_ext; [done|]. rewrite elem_of_cons. naive_solver. }
  rewrite D, P; [done|]. by apply sorted_play.
Qed.

Lemma sorted_written puts dels m : sorted m -> sorted (written puts dels m).
Proof. apply sorted_play. Qed.

(** The records after a batch of the service. *)
Lemma records_batch puts dels m : sorted m -> records t (play (record_batch t puts dels) m) = written puts dels (records t m).
Proof.
  intros Sm. apply sorted_ext; [apply (find_records []), sorted_play, Sm|apply sorted_written, (find_records []), Sm|].
  intros k. rewrite (proj1 (find_records k _ (sorted_play _ _ Sm))), find_record_batch, find_batch by (done || apply (find_records []), Sm). by rewrite (proj1 (find_records k m Sm)).
Qed.

End Records.

Section Service.
Context {S : Type} `{OrderedKvLaws S} (c : Config) (ctx : Ctx) (tenant t : bytes).

(** A call reaches the server and its answer the client, the answer is lost, or the server
    is not reached; the world has the calls to come. *)
Inductive transit := Reach (e : kv_env) | Lost (e : kv_env) | Down.
Record World := mkWorld { ws_store : S; ws_calls : nat -> transit }.

Definition deliver {A} (m : kv_env -> S -> result A * S) (w : World) : (code + A) * World :=
  let later := fun n => ws_calls w (1 + n)%nat in
  match ws_calls w 0 with
  | Down => (inl None, mkWorld (ws_store w) later)
  | Lost e => (inl None, mkWorld (m e (ws_store w)).2 later)
  | Reach e => (match (m e (ws_store w)).1 with inl x => inl (Some x) | inr a => inr a end, mkWorld (m e (ws_store w)).2 later)
  end.

Definition service_server : AgentServer World := {|
  rs_write puts dels := deliver (fun e => WriteRecords e c ctx (mkWrite tenant puts dels));
  rs_get keys := deliver (fun _ => GetRecords c ctx (mkGetRecords tenant keys));
  rs_scan p sa eb lim rv := deliver (fun _ => ScanRecords c ctx (mkScanRecords tenant p sa eb lim rv));
  rs_delete_prefix p := deliver (fun e => DeleteRecordPrefix e c ctx (mkDeletePrefix tenant p));
  rs_get_items s lim before := deliver (fun _ => GetItems c ctx (mkGetItems tenant s lim before));
  rs_view w := records t (kv_view (ws_store w));
  rs_items w s := session_items t s (kv_view (ws_store w)) |}.

Context (Resolves : ResolveTenant c ctx tenant = inr t) (Sized : sized t).

Definition clean_call (x : transit) : Prop := match x with Reach e | Lost e => kv_clean e | Down => True end.
Record service_ok (w : World) : Prop := {
  so_svc : svc_ok (ws_store w);
  so_keys : Forall (fun kv => kv.1 <> []) (records t (kv_view (ws_store w)));
  so_seqs s : sized s -> Forall (fun x => x.1 <> 0) (session_items t s (kv_view (ws_store w)));
  so_calls n : clean_call (ws_calls w n) }.
Definition service_up (w : World) : Prop := forall n, exists e, ws_calls w n = Reach e.

Existing Instance service_server.

Lemma service_ok_same w s' later : service_ok w -> svc_ok s' -> kv_view s' = kv_view (ws_store w) -> (forall n, clean_call (later n)) -> service_ok (mkWorld s' later).
Proof. intros [O1 O2 O3 O4] V E L. split; cbn [ws_store ws_calls]; rewrite ?E; done. Qed.

(** A handler that only reads. *)
Lemma deliver_read {A} (m : kv_env -> S -> result A * S) (Q : A -> Prop) w : service_ok w ->
  (forall e, exists a, m e (ws_store w) = (inr a, ws_store w) /\ Q a) ->
  read_law service_ok service_up rs_view rs_items (deliver m) Q w.
Proof.
  intros O F. assert (L : forall n, clean_call (ws_calls w (1 + n)%nat)) by (intros n; apply O).
  assert (Sm : (deliver m w).2 = mkWorld (ws_store w) (fun n => ws_calls w (1 + n)%nat)).
  { unfold deliver. destruct (ws_calls w 0) as [e|e|]; [destruct (F e) as (a & -> & _); done..|done]. }
  split; rewrite ?Sm; [by apply (service_ok_same w); [|apply O|..]|done|done| |].
  - intros U. split; [intros n; apply (U (1 + n)%nat)|]. unfold deliver. destruct (U 0%nat) as [e ->]. destruct (F e) as (a & -> & _). by exists a.
  - intros a. unfold deliver. destruct (ws_calls w 0) as [e|e|]; [|done|done]. destruct (F e) as (a' & -> & Qa). by intros [= <-].
Qed.

Lemma WriteRecords_effect e puts dels s r s' : svc_ok s -> kv_fits (record_batch t puts dels) -> kv_clean e ->
  WriteRecords e c ctx (mkWrite tenant puts dels) s = (r, s') ->
  svc_ok s' /\ ((kv_view s' = kv_view s /\ exists x, r = inl x) \/
    (r = inr tt /\ kv_view s' = play (record_batch t puts dels) (kv_view s) /\ Forall (fun kv => kv.1 <> []) puts)).
Proof.
  intros [Hk Hw] Fit Cl E. unfold WriteRecords in E. cbn [wr_tenant wr_puts wr_deletes] in E. rewrite Resolves in E. cbn [or_return] in E.
  destruct (existsb _ _) eqn:Ex; [injection E as <- <-; split; [done|left; eauto]|]. destruct (kv_apply e _ s) as [[|] s1] eqn:EA; injection E as <- <-.
  - destruct (kv_apply_true _ _ _ _ Hk Fit EA) as [Hk1 Hv]. split; [split; [done|rewrite Hv; apply view_wf_play; [done|by apply record_batch_wf]]|]. right. split; [done|]. split; [done|].
    apply Forall_forall. intros [k v] I Q. cbn [fst] in Q. subst k. apply not_true_iff_false in Ex. apply Ex, existsb_exists. exists ([], v). split; [by apply list_elem_of_In|done].
  - destruct (kv_apply_false _ _ _ _ Hk EA) as [Hv Hk1]. split; [split; [by apply Hk1|by rewrite Hv]|]. left. eauto.
Qed.

Lemma written_keys puts dels v : Forall (fun kv => kv.1 <> []) puts -> Forall (fun kv => kv.1 <> []) v -> Forall (fun kv => kv.1 <> []) (written puts dels v).
Proof.
  intros P V. unfold written, play, batch_of. rewrite fold_left_app.
  assert (D : forall dels v, Forall (fun kv : entry => kv.1 <> []) v -> Forall (fun kv : entry => kv.1 <> []) (fold_left step_map ((fun k => mkMut kDel k []) <$> dels) v)).
  { clear. intros dels. induction dels as [|d dels IH]; intros v V; [done|]. apply IH. by apply Forall_erase. }
  apply D. clear D. revert v V. induction P as [|[k x] puts P1 P2 IH]; intros v V; [done|]. apply IH. by apply (Forall_insert (fun k => k <> [])).
Qed.

Lemma session_records_batch s puts dels m : sized s -> session_items t s (play (record_batch t puts dels) m) = session_items t s m.
Proof.
  intros Zs. unfold session_items. f_equal. unfold under. apply (filter_play_other (starts_with (ItemPrefix t s))).
  apply Forall_app. split; apply Forall_fmap, Forall_forall; intros x _; unfold compose; cbn [key]; by apply ItemPrefix_record.
Qed.

Lemma service_ok_written w s' later puts dels : service_ok w -> svc_ok s' -> kv_view s' = play (record_batch t puts dels) (kv_view (ws_store w)) ->
  Forall (fun kv => kv.1 <> []) puts -> (forall n, clean_call (later n)) -> service_ok (mkWorld s' later).
Proof.
  intros [O1 O2 O3 O4] V E P L. assert (Sm : sorted (kv_view (ws_store w))) by apply (kv_sorted _ (proj1 O1)). split; cbn [ws_store ws_calls]; rewrite ?E; try done.
  - rewrite records_batch by done. by apply written_keys.
  - intros s Zs. rewrite session_records_batch by done. by apply O3.
Qed.

Lemma service_write puts dels w r w' : service_ok w -> kv_fits (record_batch t puts dels) -> rs_write puts dels w = (r, w') ->
  service_ok w' /\ match r with inr _ => rs_view w' = written puts dels (rs_view w) | inl _ => rs_view w' = rs_view w \/ rs_view w' = written puts dels (rs_view w) end /\ (service_up w -> service_up w').
Proof.
  intros O Fit E. cbn in E. unfold deliver in E. pose proof (so_calls w O 0%nat) as Cl. pose proof (fun n => so_calls w O (1 + n)%nat) as L.
  assert (U : service_up w -> forall s', service_up (mkWorld s' (fun n => ws_calls w (1 + n)%nat))) by (intros U s' n; apply (U (1 + n)%nat)).
  assert (X : forall e, kv_clean e -> let '(r, s') := WriteRecords e c ctx (mkWrite tenant puts dels) (ws_store w) in
    service_ok (mkWorld s' (fun n => ws_calls w (1 + n)%nat)) /\
    ((exists x, r = inl x) /\ records t (kv_view s') = records t (kv_view (ws_store w)) \/ r = inr tt /\ records t (kv_view s') = written puts dels (records t (kv_view (ws_store w))))).
  { intros e Ce. destruct (WriteRecords e c ctx _ _) as [r1 s1] eqn:EW. destruct (WriteRecords_effect _ _ _ _ _ _ (so_svc w O) Fit Ce EW) as [Sv [(V & x)|(-> & V & P)]].
    - split; [by apply (service_ok_same w)|]. left. by rewrite V.
    - split; [by apply (service_ok_written w s1 _ puts dels)|]. right. split; [done|]. rewrite V. apply records_batch, (kv_sorted _ (proj1 (so_svc w O))). }
  destruct (ws_calls w 0) as [e|e|]; [specialize (X e Cl)|specialize (X e Cl)|injection E as <- <-; split; [by apply (service_ok_same w); [|apply O|..]|]; split; [by left|auto]];
    destruct (WriteRecords e c ctx _ _) as [r1 s1]; cbn [fst snd] in E; injection E as <- <-; destruct X as [X1 X2]; (split; [done|]); (split; [|auto]); cbn [rs_view service_server ws_store]; destruct X2 as [[[x ->] ->]|[-> ->]]; auto.
Qed.

Lemma service_delete p w r w' : service_ok w -> kv_delete_fits (record_key t p) (ws_store w) -> rs_delete_prefix p w = (r, w') ->
  let gone := List.filter (fun kv => negb (starts_with p kv.1)) (rs_view w) in
  service_ok w' /\ match r with inr _ => rs_view w' = gone | inl _ => rs_view w' = rs_view w \/ rs_view w' = gone end /\ (service_up w -> service_up w').
Proof.
  intros O Fit E gone. cbn in E. unfold deliver in E. pose proof (so_calls w O 0%nat) as Cl. pose proof (fun n => so_calls w O (1 + n)%nat) as L.
  assert (U : service_up w -> forall s', service_up (mkWorld s' (fun n => ws_calls w (1 + n)%nat))) by (intros U s' n; apply (U (1 + n)%nat)).
  destruct (so_svc w O) as [Hk Hw].
  assert (X : forall e, kv_clean e -> let '(r, s') := DeleteRecordPrefix e c ctx (mkDeletePrefix tenant p) (ws_store w) in
    service_ok (mkWorld s' (fun n => ws_calls w (1 + n)%nat)) /\ ((exists x, r = inl x) /\ records t (kv_view s') = records t (kv_view (ws_store w)) \/ (exists n, r = inr n) /\ records t (kv_view s') = gone)).
  { intros e Ce. destruct (DeleteRecordPrefix e c ctx _ _) as [r1 s1] eqn:ED. destruct r1 as [x|n].
    - unfold DeleteRecordPrefix in ED. cbn [dp_tenant dp_prefix] in ED. rewrite Resolves in ED. cbn [or_return] in ED. destruct (kv_delete_prefix e _ _) as [[n [|]] s2] eqn:EK; [|done].
      injection ED as _ <-. destruct (kv_delete_false _ _ _ _ _ Hk EK) as [V K1]. split; [|left; rewrite V; eauto]. apply (service_ok_same w); [done| |done|done]. split; [by apply K1|by rewrite V].
    - destruct (DeleteRecordPrefix_exact e c ctx (mkDeletePrefix tenant p) (ws_store w) t n s1 Hk Resolves ED) as (R1 & _ & R3). cbn [dp_prefix] in R1, R3. split; [|right; eauto].
      unfold DeleteRecordPrefix in ED. cbn [dp_tenant dp_prefix] in ED. rewrite Resolves in ED. cbn [or_return] in ED. destruct (kv_delete_prefix e _ _) as [[n' [|]] s2] eqn:EK; [done|]. injection ED as _ <-.
      split; cbn [ws_store ws_calls]; [split; [by apply (kv_delete_ok e (record_key t p) (ws_store w) n')|rewrite R3; by apply view_wf_filter]| | |done].
      + rewrite R1. apply Forall_forall. intros kv I. apply list_elem_of_In, List.filter_In in I as [I _]. pose proof (so_keys w O) as F. rewrite Forall_forall in F. by apply F, list_elem_of_In.
      + intros s Zs. pose proof (so_seqs w O s Zs) as F. rewrite Forall_forall in F |- *. intros x I. apply F. unfold session_items in *. rewrite R3 in I.
        apply list_elem_of_fmap in I as (kv & -> & I). apply list_elem_of_fmap. exists kv. split; [done|]. rewrite list_elem_of_In, List.filter_In in I |- *. destruct I as [I1 I2].
        split; [|done]. unfold others in I1. apply List.filter_In in I1 as [I1 _]. exact I1. }
  destruct (ws_calls w 0) as [e|e|]; [specialize (X e Cl)|specialize (X e Cl)|injection E as <- <-; split; [by apply (service_ok_same w); [|apply O|..]|]; split; [by left|auto]];
    destruct (DeleteRecordPrefix e c ctx _ _) as [r1 s1]; cbn [fst snd] in E; injection E as <- <-; destruct X as [X1 X2]; (split; [done|]); (split; [|auto]); cbn [rs_view service_server ws_store]; destruct X2 as [[[x ->] ->]|[[n ->] ->]]; auto.
Qed.

Lemma service_get keys w : service_ok w ->
  read_law service_ok service_up rs_view rs_items (rs_get keys) (fun found => found = base.omap (fun k => (fun v => (k, v)) <$> find k (rs_view w)) keys) w.
Proof.
  intros O. destruct (so_svc w O) as [Hk Hw]. apply deliver_read; [done|]. intros e. unfold GetRecords. cbn [gr_tenant gr_keys]. rewrite Resolves. cbn [or_return]. eexists. split; [reflexivity|].
  apply list_omap_ext, Forall_Forall2_diag, Forall_forall. intros k _. rewrite kv_get_spec by done. cbn [rs_view service_server]. by rewrite (proj1 (find_records t k _ (kv_sorted _ Hk))).
Qed.

Lemma service_scan p sa eb lim rv w : service_ok w -> 0 < lim ->
  read_law service_ok service_up rs_view rs_items (rs_scan p sa eb lim rv) (fun '(out, more) =>
    exists rest, candidates (scan_of p sa eb rv) (rs_view w) = out ++ rest /\ (more = true <-> rest <> []) /\ (rest <> [] -> out <> []) /\ zlen out <= lim) w.
Proof.
  intros O Lm. destruct (so_svc w O) as [Hk Hw]. apply deliver_read; [done|]. intros e. set (q := mkScanRecords tenant p sa eb lim rv).
  assert (X : exists out more, ScanRecords c ctx q (ws_store w) = (inr (out, more), ws_store w)).
  { unfold ScanRecords, q. cbn [sr_tenant]. rewrite Resolves. cbn [or_return]. destruct (kv_scan _ _) as [kvs more]. eauto. }
  destruct X as (out & more & X). exists (out, more). split; [exact X|].
  destruct (ScanRecords_page c ctx q (ws_store w) t out more (ws_store w) Hk Resolves ltac:(cbn; lia) X) as (_ & rest & R1 & R2 & _ & R4 & R5). cbn [sr_limit q] in R4.
  exists rest. split; [|split; [done|split; [done|apply R4; lia]]]. rewrite <- R1. unfold scan_options, scan_of. cbn [sr_prefix sr_start_after sr_end_before sr_reverse q app rs_view service_server].
  f_equal. f_equal; [by destruct sa|by destruct eb].
Qed.

Lemma service_get_items s lim before w : service_ok w -> s <> [] -> sized s -> 0 <= lim -> 0 <= before < 2 ^ 64 ->
  read_law service_ok service_up rs_view rs_items (rs_get_items s lim before) (fun resp =>
    exists rest page, older before (rs_items w s) = rest ++ page /\ items_ resp = page.*2 /\ (has_more resp = true <-> rest <> []) /\
      (rest <> [] -> page <> []) /\ (lim <> 0 -> zlen page <= lim) /\ (page <> [] -> older (first_seq resp) (rs_items w s) = rest /\ 0 < first_seq resp < 2 ^ 64)) w.
Proof.
  intros O Ns Zs Lm B. destruct (so_svc w O) as [Hk Hw]. apply deliver_read; [done|]. intros e. set (q := mkGetItems tenant s lim before).
  assert (X : exists resp, GetItems c ctx q (ws_store w) = (inr resp, ws_store w)).
  { unfold GetItems, q. cbn [gi_tenant gi_session gi_limit gi_before_seq]. rewrite Resolves. cbn [or_return]. destruct s; [done|]. cbn [is_empty]. destruct (kv_scan _ _) as [kvs more]. eauto. }
  destruct X as (resp & X). exists resp. split; [exact X|].
  destruct (GetItems_page c ctx q (ws_store w) t resp (ws_store w) (conj Hk Hw) Resolves Sized Zs Lm B X) as (_ & rest & page & R1 & R2 & R3 & R4 & R5 & _ & R7 & R8).
  cbn [gi_before_seq gi_session gi_limit q] in *. exists rest, page. split; [done|]. split; [done|]. split; [done|]. split; [done|]. split; [done|]. intros Np. destruct page as [|x page]; [done|].
  assert (I : x ∈ session_items t s (kv_view (ws_store w))).
  { assert (J : x ∈ older before (session_items t s (kv_view (ws_store w)))) by (rewrite R1; set_solver). unfold older in J. destruct (before =? 0); [done|]. apply list_elem_of_In, List.filter_In in J as [J _]. by apply list_elem_of_In. }
  pose proof (so_seqs w O s Zs) as F. rewrite Forall_forall in F. specialize (F _ I). destruct (session_seqs _ _ _ _ Hw Sized Zs I). rewrite R7. split; [|lia]. rewrite <- R7. apply R8. by rewrite R7.
Qed.

#[refine] Instance service_laws : AgentServerLaws World := {|
  rs_ok := service_ok; rs_up := service_up; rs_fits puts dels := kv_fits (record_batch t puts dels); rs_delete_fits p w := kv_delete_fits (record_key t p) (ws_store w);
  rs_keys := so_keys; rs_write_law := service_write; rs_get_law := service_get; rs_scan_law := service_scan; rs_get_items_law := service_get_items; rs_delete_law := service_delete |}.
Proof. intros w O. apply (find_records t []), (kv_sorted _ (proj1 (so_svc w O))). Defined.

End Service.

(** ** Witnesses *)

(** The service over the log store with two items in a session, all calls getting through. *)
Definition ex_calls (n : nat) : @transit _ log_kv := Reach good_env.
Definition ex_world : World := mkWorld two_items ex_calls.
#[local] Instance ex_server : AgentServer World := service_server open_config no_auth tenant_t tenant_t.
#[local] Instance ex_laws : AgentServerLaws World := service_laws open_config no_auth tenant_t tenant_t eq_refl eq_refl.

Lemma ex_world_ok : rs_ok ex_world.
Proof.
  assert (V : kv_view two_items = [(item_key tenant_t session_a 1, [x01]); (item_key tenant_t session_a 2, [x02])]) by (vm_compute; reflexivity).
  apply Build_service_ok; cbn [ex_world ws_store ws_calls].
  - exact two_items_ok.
  - rewrite V. vm_compute. constructor.
  - intros s Zs. rewrite V. unfold session_items. apply Forall_fmap, Forall_forall. intros kv I. apply list_elem_of_In, List.filter_In in I as [I U]. unfold under in U.
    assert (E : exists q v, kv = (item_key tenant_t session_a q, v) /\ (q = 1 \/ q = 2)) by (cbn [In] in I; destruct I as [<-|[<-|[]]]; eauto 10).
    destruct E as (q & v & -> & Q). cbn [fst] in U. apply ItemPrefix_free in U as [_ ->]; [|done..]. destruct Q as [-> | ->]; vm_compute; discriminate.
  - intros n. reflexivity.
Qed.

Definition empty_world : World := mkWorld empty_store ex_calls.

Lemma empty_world_ok : rs_ok empty_world.
Proof.
  assert (V : kv_view empty_store = []) by reflexivity. apply Build_service_ok; cbn [empty_world ws_store ws_calls]; [exact empty_store_ok|rewrite V; constructor|intros s _; rewrite V; constructor|].
  intros n. reflexivity.
Qed.

Lemma conversation_reads_witness :
  (get_items 3 session_a (Some 1) ex_world).1 = inr [[x02]] /\ reads (get_items 3 session_a None) ex_world (fun l => l = (newest None (rs_items ex_world session_a)).*2).
Proof.
  split; [vm_compute; reflexivity|]. apply (conversation_reads session_a None ex_world 3).
  - exact ex_world_ok.
  - discriminate.
  - reflexivity.
  - vm_compute. lia.
Defined.

End Sdk.
