(* ===== verification/SdkLangGraph.v ===== *)
(** * LangGraph over the Python client

    sdk/python/agent_state_storage/langgraph: the checkpointer (checkpoint.py) and the
    long-term store (store.py), over the client of SdkClient.v and any server that keeps
    its promises. The serialiser, the order of pending writes and the special channels are
    LangGraph's and are parameters; strings are their UTF-8 bytes, a dict is its entries in
    order, and what is not the expected number of parts or cannot be decoded raises
    [ValueError].

    The theorems: a checkpoint is read back as it was put, by its id and, if it is the
    newest, without ([checkpoint_roundtrip]); the first attempt at a write wins
    ([first_writes_kept]); deleting a thread removes exactly its keys
    ([thread_deleted]); an item of the store is read back, and a search returns exactly the
    items under whole labels of its prefix ([item_put_get], [search_exact]). *)

From S2P Require Import Prelude OrderedMap LogCodec LogStore LogReplay LogDurability LogScan.
From S2P Require Import LogCorrect KvInterface Mtls Boundary AgentState AgentKeys AgentItems AgentRecords SdkClient.
From Stdlib Require Import ZArith Lia Sorted.
From stdpp Require Import sorting.

Import OMap Log Agent Sdk.
Open Scope Z_scope.

Module LangGraph.

#[local] Notation str := Mtls.str.
#[local] Notation "x ← m ; f" := (bind m (fun x => f)) (at level 20, m at level 100, f at level 200, right associativity).

(** [str] and [int] of the numbers of writes; other spellings that [int] takes are never
    written. *)
Definition str_int (z : Z) : bytes := if z <? 0 then x2d :: Boundary.print (- z) else Boundary.print z.
Definition int_of (s : bytes) : option Z :=
  match s with
  | [] => None
  | c :: r => if bool_decide (c = x2d) then (match r with [] => None | _ => Z.opp <$> Boundary.decimal r end) else Boundary.decimal s
  end.

Definition _CP : bytes := str "cp".
Definition _BLOB : bytes := str "b".
Definition _WRITE : bytes := str "w".
Definition _BATCH_BYTES : Z := 2 * 2 ^ 20.

Definition _key (kind : bytes) (parts : list bytes) : bytes := pack (str "lg" :: kind :: parts).

(** [config["configurable"]]. *)
Record Conf := mkConf { thread_id : bytes; checkpoint_ns : option bytes; checkpoint_id : option bytes }.
Definition ns_of (c : Conf) : bytes := default [] (checkpoint_ns c).
(** The id, if it is there and not empty. *)
Definition get_checkpoint_id (c : Conf) : option bytes := match checkpoint_id c with Some (x :: i) => Some (x :: i) | _ => None end.

Section Saver.
Context {W : Type} `{AgentServer W}.
#[local] Notation M := (Sdk.M (W := W)).
(** Values of channels, the rest of a checkpoint, metadata and filters on it. *)
Context {V R Md F : Type}.
Record Checkpoint := mkCheckpoint { cp_id : bytes; channel_versions : list (bytes * bytes); cp_rest : R }.
(** [serde.dumps_typed] and [serde.loads_typed] at the types they are used at. *)
Context (dumps_v : V -> bytes * bytes) (loads_v : bytes * bytes -> option V).
Context (dumps_c : Checkpoint -> bytes * bytes) (loads_c : bytes * bytes -> option Checkpoint).
Context (dumps_m : Md -> bytes * bytes) (loads_m : bytes * bytes -> option Md).
(** [get_checkpoint_metadata], [WRITES_IDX_MAP] and the comparison of [writes_sort_key]. *)
Context (get_checkpoint_metadata : Conf -> Md -> Md) (writes_idx : bytes -> option Z) (meta_matches : F -> Md -> bool).
Notation row := (bytes * bytes * Z * bytes * bytes * bytes)%type.
Context (row_le : row -> row -> Prop) `{!RelDecision row_le}.

Record CheckpointTuple := mkTuple {
  t_config : Conf; t_checkpoint : Checkpoint; channel_values : list (bytes * V); t_metadata : Md;
  parent_config : option Conf; pending_writes : list (bytes * bytes * V) }.

Definition or_raise {A} (x : option A) : M A := match x with Some a => ret a | None => raise ValueError end.

(** The loop of [_write_batched]. *)
Fixpoint batched (puts batch : list (bytes * bytes)) (size : Z) : M unit :=
  match puts with
  | [] => match batch with [] => ret tt | _ => write_records batch [] end
  | r :: puts =>
      let n := zlen r.1 + zlen r.2 in
      if negb (bool_decide (batch = [])) && (_BATCH_BYTES <? size + n)
      then _ ← write_records batch []; batched puts [r] n
      else batched puts (batch ++ [r]) (size + n)
  end.
Definition _write_batched (puts : list (bytes * bytes)) : M unit := batched puts [] 0.

Fixpoint blob_values (keys : list (bytes * bytes)) (found : list (bytes * bytes)) (values : list (bytes * V)) : option (list (bytes * V)) :=
  match found with
  | [] => Some values
  | (key, raw) :: found =>
      match unpack raw with
      | Some [type; data] =>
          if bool_decide (type = str "empty") then blob_values keys found values
          else match loads_v (type, data), dict_get key keys with
               | Some v, Some ch => blob_values keys found (dict_set ch v values)
               | _, _ => None
               end
      | _ => None
      end
  end.
Definition _load_blobs (t ns : bytes) (versions : list (bytes * bytes)) : M (list (bytes * V)) :=
  let keys := dict ((fun x => (_key _BLOB [t; ns; x.1; x.2], x.1)) <$> versions) in
  found ← get_records keys.*1;
  or_raise (blob_values keys found []).

Definition write_row (r : bytes * bytes) : option row :=
  match unpack r.2, unpack r.1 with
  | Some [task_id; channel; type; data; task_path], Some key =>
      (fun idx => (task_path, task_id, idx, channel, type, data)) <$> (last key ≫= int_of)
  | _, _ => None
  end.
Definition add_row (r : bytes * bytes) (rows : list row) : M (bool * list row) := x ← or_raise (write_row r); ret (false, rows ++ [x]).
Definition load_row (r : row) : option (bytes * bytes * V) :=
  let '(_, task_id, _, channel, type, data) := r in (fun v => (task_id, channel, v)) <$> loads_v (type, data).
Definition _pending_writes (fuel : nat) (t ns cid : bytes) : M (list (bytes * bytes * V)) :=
  rows ← scan_records fuel add_row (_key _WRITE [t; ns; cid]) [] [] None false [];
  or_raise (mapM load_row (merge_sort row_le rows)).

Definition _tuple (fuel : nat) (t ns cid raw : bytes) : M CheckpointTuple :=
  match unpack raw with
  | Some [ctype; cdata; mtype; mdata; parent] =>
      checkpoint ← or_raise (loads_c (ctype, cdata));
      values ← _load_blobs t ns (channel_versions checkpoint);
      metadata ← or_raise (loads_m (mtype, mdata));
      writes ← _pending_writes fuel t ns cid;
      ret (mkTuple (mkConf t (Some ns) (Some cid)) checkpoint values metadata
        (match parent with [] => None | _ => Some (mkConf t (Some ns) (Some parent)) end) writes)
  | _ => raise ValueError
  end.

Definition set_config (c : Conf) (x : CheckpointTuple) : CheckpointTuple :=
  mkTuple c (t_checkpoint x) (channel_values x) (t_metadata x) (parent_config x) (pending_writes x).

Definition get_tuple (fuel : nat) (c : Conf) : M (option CheckpointTuple) :=
  let t := thread_id c in
  let ns := ns_of c in
  match get_checkpoint_id c with
  | Some cid =>
      raw ← get_records [_key _CP [t; ns; cid]];
      match raw with
      | [] => ret None
      | (_, v) :: _ => tup ← _tuple fuel t ns cid v; ret (Some (set_config c tup))
      end
  | None =>
      latest ← scan_records fuel (fun r _ => ret (true, Some r)) (_key _CP [t; ns]) [] [] (Some 1) true None;
      match latest with
      | None => ret None
      | Some r => cid ← or_raise (unpack r.1 ≫= last); tup ← _tuple fuel t ns cid r.2; ret (Some tup)
      end
  end.

Definition blob_text (v : option V) : bytes :=
  let '(type, data) := match v with Some v => dumps_v v | None => (str "empty", []) end in pack [type; data].
Definition blob_put (t ns : bytes) (values : list (bytes * V)) (x : bytes * bytes) : bytes * bytes :=
  (_key _BLOB [t; ns; x.1; x.2], blob_text (dict_get x.1 values)).

Definition put_records (c : Conf) (ck : Checkpoint) (values : list (bytes * V)) (md : Md) (new_versions : list (bytes * bytes)) : list (bytes * bytes) :=
  let '(ctype, cdata) := dumps_c ck in
  let '(mtype, mdata) := dumps_m (get_checkpoint_metadata c md) in
  (blob_put (thread_id c) (ns_of c) values <$> new_versions) ++
  [(_key _CP [thread_id c; ns_of c; cp_id ck], pack [ctype; cdata; mtype; mdata; default [] (checkpoint_id c)])].

(** The checkpoint without its values, and the values. *)
Definition put (c : Conf) (ck : Checkpoint) (values : list (bytes * V)) (md : Md) (new_versions : list (bytes * bytes)) : M Conf :=
  _ ← write_records (put_records c ck values md new_versions) [];
  ret (mkConf (thread_id c) (Some (ns_of c)) (Some (cp_id ck))).

Definition write_put (c : Conf) (cid task_id task_path : bytes) (idx : Z) (w : bytes * V) : Z * (bytes * bytes) :=
  let widx := default idx (writes_idx w.1) in
  let '(type, data) := dumps_v w.2 in
  (widx, (_key _WRITE [thread_id c; ns_of c; cid; task_id; str_int widx], pack [task_id; w.1; type; data; task_path])).

(** [config["configurable"]["checkpoint_id"]] raises if there is none. *)
Definition put_writes (c : Conf) (writes : list (bytes * V)) (task_id task_path : bytes) : M unit :=
  match checkpoint_id c with
  | None => raise ValueError
  | Some cid =>
      let rows := imap (fun i w => write_put c cid task_id task_path (Z.of_nat i) w) writes in
      let regular := (fun x => x.2.1) <$> List.filter (fun x : Z * (bytes * bytes) => 0 <=? x.1) rows in
      existing ← (match regular with [] => ret [] | _ => get_records regular end);
      _write_batched (snd <$> List.filter (fun x : Z * (bytes * bytes) => (x.1 <? 0) || negb (bool_decide (x.2.1 ∈ existing.*1))) rows)
  end.

Definition list_prefix (c : option Conf) : bytes :=
  match c with
  | Some c => match checkpoint_ns c with None => _key _CP [thread_id c] | Some ns => _key _CP [thread_id c; ns] end
  | None => _key _CP []
  end.

(** One record of the scan of [list]: what is left of the limit, and the tuples so far. *)
Definition list_record (fuel : nat) (want_id before_id : option bytes) (filter : option F) (r : bytes * bytes) (a : option Z * list CheckpointTuple) :
    M (bool * (option Z * list CheckpointTuple)) :=
  match unpack r.1 with
  | Some [_; _; t; ns; cid] =>
      if match want_id with Some i => negb (bool_decide (cid = i)) | None => false end then ret (false, a)
      else if match before_id with Some i => ble i cid | None => false end then ret (false, a)
      else
        skip ← (match filter with
                | None => ret false
                | Some f =>
                    match unpack r.2 with
                    | Some [_; _; mtype; mdata; _] => md ← or_raise (loads_m (mtype, mdata)); ret (negb (meta_matches f md))
                    | _ => raise ValueError
                    end
                end);
        if (skip : bool) then ret (false, a)
        else if match a.1 with Some n => n <=? 0 | None => false end then ret (true, a)
        else tup ← _tuple fuel t ns cid r.2; ret (false, (Z.pred <$> a.1, a.2 ++ [tup]))
  | _ => raise ValueError
  end.
Definition list_checkpoints (fuel : nat) (c : option Conf) (filter : option F) (before : option Conf) (limit : option Z) : M (list CheckpointTuple) :=
  out ← scan_records fuel (list_record fuel (c ≫= get_checkpoint_id) (before ≫= get_checkpoint_id) filter) (list_prefix c) [] [] None true (limit, []);
  ret out.2.

Definition delete_thread (t : bytes) : M unit :=
  _ ← delete_record_prefix (_key _CP [t]);
  _ ← delete_record_prefix (_key _WRITE [t]);
  _ ← delete_record_prefix (_key _BLOB [t]);
  ret tt.

(** [parts[2] = target]. *)
Definition copy_record (target : bytes) (r : bytes * bytes) (puts : list (bytes * bytes)) : M (bool * list (bytes * bytes)) :=
  match unpack r.1 with
  | Some (a :: b :: _ :: rest) => ret (false, puts ++ [(pack (a :: b :: target :: rest), r.2)])
  | _ => raise ValueError
  end.
Definition copy_thread (fuel : nat) (source target : bytes) : M unit :=
  p1 ← scan_records fuel (copy_record target) (_key _CP [source]) [] [] None false [];
  p2 ← scan_records fuel (copy_record target) (_key _WRITE [source]) [] [] None false p1;
  p3 ← scan_records fuel (copy_record target) (_key _BLOB [source]) [] [] None false p2;
  _write_batched p3.

End Saver.

(** ** The long-term store *)

Definition _ROOT : bytes := pack [str "lg"; str "st"].
Definition _NS_END : bytes := pack [[]].
Definition store_key (namespace : list bytes) (key : bytes) : bytes := _ROOT ++ pack namespace ++ _NS_END ++ pack [key].

(** The parts before and after the first empty one. *)
Fixpoint before_empty (parts : list bytes) : option (list bytes * list bytes) :=
  match parts with
  | [] => None
  | [] :: r => Some ([], r)
  | p :: r => (fun '(a, b) => (p :: a, b)) <$> before_empty r
  end.
Definition _split (raw_key : bytes) : option (list bytes * bytes) :=
  match unpack (drop (length _ROOT) raw_key) ≫= before_empty with
  | Some (ns, key :: _) => Some (ns, key)
  | _ => None
  end.

(** A JSON value; [N] are its numbers. *)
#[warnings="-register-all"]
Inductive pyval {N : Type} := VNone | VBool (b : bool) | VNum (n : N) | VStr (s : bytes) | VList (l : list pyval) | VDict (d : list (bytes * pyval)).
Arguments pyval : clear implicits.

Section Store.
Context {W : Type} `{AgentServer W}.
#[local] Notation M := (Sdk.M (W := W)).
Context {N : Type} (py_eq : pyval N -> pyval N -> bool) {Fl : Type} (float : pyval N -> option Fl) (fgt fge : Fl -> Fl -> bool).
Notation doc := (list (bytes * pyval N)).

(** What is stored under a key, its text and the parse of it. *)
Record Doc := mkDoc { d_value : doc; created_at : bytes; updated_at : bytes }.
Context (json_dumps : Doc -> bytes) (json_loads : bytes -> option Doc).
Record Item := mkItem { i_value : doc; i_key : bytes; i_namespace : list bytes; i_created : bytes; i_updated : bytes }.

Definition _item (ns : list bytes) (key raw : bytes) : option Item :=
  (fun d => mkItem (d_value d) key ns (created_at d) (updated_at d)) <$> json_loads raw.

(** [None] for what raises. *)
Definition _operator (value : pyval N) (op : bytes) (operand : pyval N) : option bool :=
  let compare (f : Fl -> Fl -> bool) := match float value, float operand with Some a, Some b => Some (f a b) | _, _ => None end in
  if bool_decide (op = str "$eq") then Some (py_eq value operand)
  else if bool_decide (op = str "$ne") then Some (negb (py_eq value operand))
  else match value with VNone => Some false | _ =>
    if bool_decide (op = str "$gt") then compare fgt
    else if bool_decide (op = str "$gte") then compare fge
    else if bool_decide (op = str "$lt") then compare (fun a b => fgt b a)
    else if bool_decide (op = str "$lte") then compare (fun a b => fge b a)
    else None
  end.

(** [all(...)], which stops at the first that is false. *)
Fixpoint all_of {A} (f : A -> option bool) (l : list A) : option bool :=
  match l with [] => Some true | x :: r => match f x with Some true => all_of f r | y => y end end.

Definition dollar (k : bytes) : bool := match k with c :: _ => bool_decide (c = x24) | [] => false end.
Definition get_or_none (k : bytes) (d : doc) : pyval N := default VNone (dict_get k d).

Fixpoint _compare (item_value filter_value : pyval N) {struct filter_value} : option bool :=
  match filter_value with
  | VDict d =>
      if existsb (fun kv => dollar kv.1) d then all_of (fun kv => _operator item_value kv.1 kv.2) d
      else match item_value with
           | VDict i => (fix go (d : list (bytes * pyval N)) := match d with [] => Some true | (k, v) :: r => match _compare (get_or_none k i) v with Some true => go r | y => y end end) d
           | _ => Some false
           end
  | VList l =>
      match item_value with
      | VList i => if (length i =? length l)%nat
                   then (fix go (l i : list (pyval N)) := match l, i with b :: l, a :: i => match _compare a b with Some true => go l i | y => y end | _, _ => Some true end) l i
                   else Some false
      | _ => Some false
      end
  | _ => Some (py_eq item_value filter_value)
  end.

Inductive match_type := MPrefix | MSuffix | MOther.
Record MatchCondition := mkMatch { m_type : match_type; m_path : list bytes }.

Definition star (n p : bytes) : bool := bool_decide (p = str "*") || bool_decide (n = p).
Fixpoint zip_all (ns path : list bytes) : bool := match ns, path with n :: ns, p :: path => star n p && zip_all ns path | _, _ => true end.
Definition _matches (c : MatchCondition) (ns : list bytes) : option bool :=
  if (length ns <? length (m_path c))%nat then Some false
  else match m_type c with MPrefix => Some (zip_all ns (m_path c)) | MSuffix => Some (zip_all (rev ns) (rev (m_path c))) | MOther => None end.

Record SearchOp := mkSearch { namespace_prefix : list bytes; s_filter : option doc; s_limit : Z; s_offset : Z }.
Record ListNamespacesOp := mkListNs { match_conditions : list MatchCondition; max_depth : option nat; l_limit : nat; l_offset : nat }.
Record PutOp := mkPut { p_ns : list bytes; p_key : bytes; p_value : option doc }.
Inductive Op := GetOp (ns : list bytes) (key : bytes) | OpSearch (o : SearchOp) | OpList (o : ListNamespacesOp) | OpPut (o : PutOp).
Inductive Result := RNone | RItem (i : option Item) | RItems (l : list Item) | RNamespaces (l : list (list bytes)).

(** One record of the scan of [_search]: how many hits were skipped, and the hits. *)
Definition search_record (o : SearchOp) (r : bytes * bytes) (a : Z * list Item) : M (bool * (Z * list Item)) :=
  x ← or_raise (_split r.1);
  item ← or_raise (_item x.1 x.2 r.2);
  hit ← or_raise (match s_filter o with None => Some true | Some f => all_of (fun kv => _compare (get_or_none kv.1 (i_value item)) kv.2) f end);
  if negb hit then ret (false, a)
  else if a.1 <? s_offset o then ret (false, (a.1 + 1, a.2))
  else let hits := a.2 ++ [item] in ret (s_limit o <=? zlen hits, (a.1, hits)).
Definition _search (fuel : nat) (o : SearchOp) : M (list Item) :=
  a ← scan_records fuel (search_record o) (_ROOT ++ pack (namespace_prefix o)) [] [] None false (0, []); ret a.2.

(** The order of tuples of strings. *)
Fixpoint tuple_lt (a b : list bytes) : bool :=
  match a, b with
  | _, [] => false
  | [], _ :: _ => true
  | x :: a, y :: b => blt x y || (bool_decide (x = y) && tuple_lt a b)
  end.
Definition tuple_le (a b : list bytes) : Prop := tuple_lt b a = false.
#[global] Instance tuple_le_dec : RelDecision tuple_le.
Proof. unfold RelDecision, tuple_le. apply _. Defined.

Definition ns_record (o : ListNamespacesOp) (r : bytes * bytes) (a : gset (list bytes)) : M (bool * gset (list bytes)) :=
  x ← or_raise (_split r.1);
  ok ← or_raise (all_of (fun c => _matches c x.1) (match_conditions o));
  ret (false, if (ok : bool) then {[ match max_depth o with None => x.1 | Some d => take d x.1 end ]} ∪ a else a).
Definition _list_namespaces (fuel : nat) (o : ListNamespacesOp) : M (list (list bytes)) :=
  a ← scan_records fuel (ns_record o) _ROOT [] [] None false ∅;
  ret (take (l_limit o) (drop (l_offset o) (merge_sort tuple_le (elements a)))).

(** The puts of a batch: the last to a key wins, in the place of the first. *)
Fixpoint put_set (o : PutOp) (d : list PutOp) : list PutOp :=
  match d with [] => [o] | x :: r => if bool_decide (p_ns x = p_ns o) && bool_decide (p_key x = p_key o) then o :: r else x :: put_set o r end.

Definition doc_of (now : bytes) (existing : list (bytes * bytes)) (o : PutOp) (v : doc) : option (bytes * bytes) :=
  let k := store_key (p_ns o) (p_key o) in
  match dict_get k existing with
  | None => Some (k, json_dumps (mkDoc v now now))
  | Some raw => (fun d => (k, json_dumps (mkDoc v (created_at d) now))) <$> json_loads raw
  end.
Definition _apply_puts (now : bytes) (puts : list PutOp) : M unit :=
  existing ← get_records (base.omap (fun o => (fun _ => store_key (p_ns o) (p_key o)) <$> p_value o) puts);
  writes ← or_raise (mapM id (base.omap (fun o => doc_of now existing o <$> p_value o) puts));
  write_records writes (base.omap (fun o => match p_value o with None => Some (store_key (p_ns o) (p_key o)) | Some _ => None end) puts).

(** The reads of a batch come before its puts. *)
Fixpoint batch_reads (fuel : nat) (ops : list Op) (results : list Result) (puts : list PutOp) : M (list Result * list PutOp) :=
  match ops with
  | [] => ret (results, puts)
  | GetOp ns key :: ops =>
      raw ← get_records [store_key ns key];
      x ← (match raw with [] => ret None | (_, v) :: _ => i ← or_raise (_item ns key v); ret (Some i) end);
      batch_reads fuel ops (results ++ [RItem x]) puts
  | OpSearch o :: ops => x ← _search fuel o; batch_reads fuel ops (results ++ [RItems x]) puts
  | OpList o :: ops => x ← _list_namespaces fuel o; batch_reads fuel ops (results ++ [RNamespaces x]) puts
  | OpPut o :: ops => batch_reads fuel ops (results ++ [RNone]) (put_set o puts)
  end.
Definition batch (fuel : nat) (now : bytes) (ops : list Op) : M (list Result) :=
  x ← batch_reads fuel ops [] [];
  match x.2 with [] => ret x.1 | puts => _ ← _apply_puts now puts; ret x.1 end.

End Store.

(** ** Lemmas *)

Lemma last_put_notin puts k : k ∉ puts.*1 -> last_put puts k = None.
Proof.
  unfold last_put. generalize (@None bytes). induction puts as [|[k' v] puts IH]; intros o N; [done|]. apply not_elem_of_cons in N as [N1 N2]. cbn [fold_left fst snd].
  rewrite bool_decide_false by (cbn in N1; congruence). by apply IH.
Qed.

Lemma last_put_app p q k : last_put (p ++ q) k = match last_put q k with Some v => Some v | None => last_put p k end.
Proof. unfold last_put at 1. rewrite fold_left_app. apply last_put_acc. Qed.

Lemma last_put_in puts k v : NoDup puts.*1 -> (k, v) ∈ puts -> last_put puts k = Some v.
Proof.
  induction puts as [|[k' v'] puts IH]; intros N I; [by apply not_elem_of_nil in I|]. cbn in N. apply NoDup_cons in N as [N1 N2].
  change ((k', v') :: puts) with ([(k', v')] ++ puts). rewrite last_put_app. apply elem_of_cons in I as [[= <- <-]|I].
  - rewrite last_put_notin by done. unfold last_put. cbn. by rewrite bool_decide_true.
  - by rewrite IH.
Qed.

(** The greatest key of an ordered map comes last. *)
Lemma sorted_last (l : omap) x : sorted l -> x ∈ l -> Forall (fun y => ble y.1 x.1 = true) l -> last l = Some x.
Proof.
  induction l as [|y l IH]; intros Sl I F; [by apply not_elem_of_nil in I|]. apply sorted_cons in Sl as [S1 S2]. apply Forall_cons in F as [F1 F2].
  apply elem_of_cons in I as [->|I].
  - destruct l as [|z l]; [done|]. apply Forall_cons in S2 as [S2 _]. apply Forall_cons in F2 as [F2 _]. unfold key_lt in S2. unfold ble in F2. by rewrite S2 in F2.
  - rewrite last_cons, (IH S1 I F2). done.
Qed.

Lemma candidates_elem o v kv : kv ∈ candidates o v <-> kv ∈ v /\ in_range o kv.1 = true.
Proof.
  unfold candidates. rewrite !list_elem_of_In. destruct (LogScan.reverse o); [rewrite <- in_rev|]; apply List.filter_In.
Qed.

Section SaverTheorems.
Context {W : Type} `{AgentServerLaws W} {V R Md F : Type}.
Context (dumps_v : V -> bytes * bytes) (loads_v : bytes * bytes -> option V).
Context (dumps_c : @Checkpoint R -> bytes * bytes) (loads_c : bytes * bytes -> option (@Checkpoint R)).
Context (dumps_m : Md -> bytes * bytes) (loads_m : bytes * bytes -> option Md).
Context (get_checkpoint_metadata : Conf -> Md -> Md) (writes_idx : bytes -> option Z) (meta_matches : F -> Md -> bool).
Notation row := (bytes * bytes * Z * bytes * bytes * bytes)%type.
Context (row_le : row -> row -> Prop) `{!RelDecision row_le}.

(** The serialiser reads what it wrote and has no type "empty". *)
Record Serde : Prop := {
  serde_v v : loads_v (dumps_v v) = Some v;
  serde_c c : loads_c (dumps_c c) = Some c;
  serde_m m : loads_m (dumps_m m) = Some m;
  serde_empty v : (dumps_v v).1 <> str "empty" }.
Context (Sd : Serde).

Definition stored (v : omap) (t ns : bytes) (x : bytes * bytes) (o : option V) : Prop := find (_key _BLOB [t; ns; x.1; x.2]) v = Some (blob_text dumps_v o).

Definition sized_text (x : bytes * bytes) : Prop := sized x.1 /\ sized x.2.
Definition sized_values (values : list (bytes * V)) : Prop := Forall (fun x => sized_text (dumps_v x.2)) values.

Lemma dict_get_sized values k : sized_values values -> match dict_get k values with Some v => sized_text (dumps_v v) | None => True end.
Proof. induction 1 as [|[k' v] l Hv _ IH]; cbn; [done|]. by case_bool_decide. Qed.

Lemma unpack_blob o : match o with Some v => sized_text (dumps_v v) | None => True end -> exists type data, unpack (blob_text dumps_v o) = Some [type; data] /\
  match o with None => type = str "empty" | Some v => type <> str "empty" /\ loads_v (type, data) = Some v end.
Proof.
  intros Zo. destruct o as [v|]; unfold blob_text.
  - destruct (dumps_v v) as [ty da] eqn:E. exists ty, da. destruct Zo as [Z1 Z2]. pose proof (serde_empty Sd v) as Ne. pose proof (serde_v Sd v) as L. rewrite E in *.
    split; [apply key_unpack_pack; by repeat constructor|done].
  - exists (str "empty"), []. split; [|done]. vm_compute. reflexivity.
Qed.

Lemma blob_key_inj t ns x y : sized t -> sized ns -> sized x.1 -> sized x.2 -> sized y.1 -> sized y.2 -> _key _BLOB [t; ns; x.1; x.2] = _key _BLOB [t; ns; y.1; y.2] -> x = y.
Proof.
  intros. assert (E : [str "lg"; _BLOB; t; ns; x.1; x.2] = [str "lg"; _BLOB; t; ns; y.1; y.2]).
  { apply pack_inj; [repeat constructor; done|repeat constructor; done|done]. }
  destruct x, y. by injection E as -> ->.
Qed.

Lemma reads_or_raise {A} (x : option A) a w : rs_ok w -> x = Some a -> reads (or_raise x) w (fun b => b = a).
Proof. intros O ->. by apply reads_ret. Qed.

(** The values of the channels whose blobs are stored. *)
Lemma blob_values_spec t ns values keys l2 : sized_values values -> forall l1 found,
  NoDup (l1 ++ l2).*1 -> (forall x, x ∈ l2 -> dict_get (_key _BLOB [t; ns; x.1; x.2]) keys = Some x.1) ->
  found = (fun x => (_key _BLOB [t; ns; x.1; x.2], blob_text dumps_v (dict_get x.1 values))) <$> l2 ->
  blob_values loads_v keys found (base.omap (fun x => (fun v => (x.1, v)) <$> dict_get x.1 values) l1) =
  Some (base.omap (fun x => (fun v => (x.1, v)) <$> dict_get x.1 values) (l1 ++ l2)).
Proof.
  intros Zv. induction l2 as [|x l2 IH]; intros l1 found N K ->; cbn [fmap list_fmap blob_values]; [by rewrite app_nil_r|].
  destruct (unpack_blob (dict_get x.1 values) (dict_get_sized values x.1 Zv)) as (ty & da & -> & U).
  replace (l1 ++ x :: l2) with ((l1 ++ [x]) ++ l2) in N |- * by (by rewrite <- app_assoc).
  assert (Kx := K x ltac:(by left)). assert (K' : forall y, y ∈ l2 -> dict_get (_key _BLOB [t; ns; y.1; y.2]) keys = Some y.1) by (intros y Y; apply K; by right).
  rewrite <- (IH (l1 ++ [x]) _ N K' eq_refl). rewrite omap_app. cbn [base.omap list_omap]. destruct (dict_get x.1 values) as [v|] eqn:Dv.
  - destruct U as [U1 U2]. rewrite bool_decide_false, U2, Kx by done. cbn [fmap option_fmap option_map]. rewrite dict_set_new; [done|].
    rewrite fmap_app in N. apply NoDup_app in N as (N & _ & _). rewrite fmap_app in N. apply NoDup_app in N as (_ & N & _). intros I. apply (N x.1); [|by left].
    apply list_elem_of_fmap in I as ([k y] & E & I). cbn in E. subst k. apply list_elem_of_omap in I as (z & I & Z). destruct (dict_get z.1 values); [|done]. injection Z as Z _. rewrite <- Z. by apply list_elem_of_fmap_2.
  - subst ty. rewrite bool_decide_true by done. cbn [fmap option_fmap option_map]. by rewrite app_nil_r.
Qed.

Lemma load_blobs_reads t ns versions values w : rs_ok w -> sized_values values -> sized t -> sized ns -> NoDup versions.*1 -> Forall (fun x => sized x.1 /\ sized x.2) versions ->
  (forall x, x ∈ versions -> stored (rs_view w) t ns x (dict_get x.1 values)) ->
  reads (_load_blobs loads_v t ns versions) w (fun d => d = base.omap (fun x => (fun v => (x.1, v)) <$> dict_get x.1 values) versions).
Proof.
  intros O Zs Zt Zn Nd Zv St. unfold _load_blobs. set (kl := (fun x => (_key _BLOB [t; ns; x.1; x.2], x.1)) <$> versions).
  assert (Nk : NoDup kl.*1).
  { unfold kl. rewrite <- list_fmap_compose. apply (NoDup_fmap_2_strong _ versions); [|by apply NoDup_fmap_1 in Nd].
    intros x y X Y E. rewrite Forall_forall in Zv. destruct (Zv _ X), (Zv _ Y). by apply blob_key_inj in E. }
  rewrite (dict_nodup kl Nk). eapply reads_bind; [by apply get_records_reads|]. cbn beta. intros found w1 -> S1. apply reads_or_raise; [apply S1|].
  apply (blob_values_spec t ns values kl versions Zs []); [done| |].
  - intros x X. apply dict_get_in; [done|]. apply list_elem_of_fmap. by exists x.
  - unfold kl. rewrite <- list_fmap_compose. clear -St. induction versions as [|x l IH]; [done|]. cbn [base.omap list_omap fmap list_fmap]. pose proof (St x ltac:(by left)) as Sx. unfold stored in Sx. unfold compose at 1 2. cbn [fst]. rewrite Sx. cbn [fmap option_fmap option_map]. f_equal. apply IH. intros y Y. apply St. by right.
Qed.

Record Fits (c : Conf) (ck : @Checkpoint R) (values : list (bytes * V)) (md : Md) (new : list (bytes * bytes)) : Prop := {
  fits_thread : sized (thread_id c); fits_ns : sized (ns_of c); fits_id : sized (cp_id ck); fits_parent : sized (default [] (checkpoint_id c));
  fits_nonempty : cp_id ck <> [];
  fits_versions : NoDup (channel_versions ck).*1 /\ Forall (fun x => sized x.1 /\ sized x.2) (channel_versions ck);
  fits_texts : sized_values values /\ sized_text (dumps_c ck) /\ sized_text (dumps_m (get_checkpoint_metadata c md));
  fits_new : NoDup new.*1 /\ Forall (fun x => sized x.1 /\ sized x.2) new }.

Definition cp_text (c : Conf) (ck : @Checkpoint R) (md : Md) : bytes :=
  pack [(dumps_c ck).1; (dumps_c ck).2; (dumps_m (get_checkpoint_metadata c md)).1; (dumps_m (get_checkpoint_metadata c md)).2; default [] (checkpoint_id c)].

Lemma put_records_eq c ck values md new : put_records dumps_v dumps_c dumps_m get_checkpoint_metadata c ck values md new =
  (blob_put dumps_v (thread_id c) (ns_of c) values <$> new) ++ [(_key _CP [thread_id c; ns_of c; cp_id ck], cp_text c ck md)].
Proof. unfold put_records, cp_text. by destruct (dumps_c ck), (dumps_m (get_checkpoint_metadata c md)). Qed.

(** What a put leaves: the checkpoint, the new blobs, and nothing else changed. *)
Lemma put_written c ck values md new v : Fits c ck values md new -> sorted v ->
  let v1 := written (put_records dumps_v dumps_c dumps_m get_checkpoint_metadata c ck values md new) [] v in
  find (_key _CP [thread_id c; ns_of c; cp_id ck]) v1 = Some (cp_text c ck md) /\
  (forall x, x ∈ new -> stored v1 (thread_id c) (ns_of c) x (dict_get x.1 values)) /\
  (forall k, k <> _key _CP [thread_id c; ns_of c; cp_id ck] -> (forall x, x ∈ new -> k <> _key _BLOB [thread_id c; ns_of c; x.1; x.2]) -> find k v1 = find k v).
Proof.
  intros [F1 F2 F3 F4 F5 [F6 F7] _ [F8 F9]] Sv v1. unfold v1, stored. rewrite put_records_eq. set (t := thread_id c) in *. set (ns := ns_of c) in *.
  set (bl := blob_put dumps_v t ns values <$> new). set (cpk := _key _CP [t; ns; cp_id ck]). rewrite Forall_forall in F9.
  assert (Bk : bl.*1 = (fun x => _key _BLOB [t; ns; x.1; x.2]) <$> new) by (unfold bl; by rewrite <- list_fmap_compose).
  assert (Nb : NoDup bl.*1).
  { rewrite Bk. apply NoDup_fmap_2_strong; [|by apply NoDup_fmap_1 in F8]. intros x y X Y E. destruct (F9 _ X), (F9 _ Y). by apply blob_key_inj in E. }
  assert (Ck : cpk ∉ bl.*1).
  { rewrite Bk. intros (x & E & X)%list_elem_of_fmap. destruct (F9 _ X). apply pack_inj in E; [|by repeat constructor..]. injection E as E _. discriminate E. }
  assert (C1 : last_put [(cpk, cp_text c ck md)] cpk = Some (cp_text c ck md)) by (unfold last_put; cbn [fold_left fst snd]; by rewrite bool_decide_true).
  assert (C2 : forall k, k <> cpk -> last_put [(cpk, cp_text c ck md)] k = None) by (intros k K; apply last_put_notin; by apply not_elem_of_cons; split; [|apply not_elem_of_nil]).
  split; [|split].
  - rewrite find_batch, last_put_app, C1 by done. by rewrite bool_decide_false by apply not_elem_of_nil.
  - intros x X. rewrite find_batch, last_put_app, C2 by (done || intros E; apply Ck; rewrite <- E, Bk; by apply (list_elem_of_fmap_2 (fun x => _key _BLOB [t; ns; x.1; x.2]))).
    rewrite bool_decide_false by apply not_elem_of_nil. rewrite (last_put_in bl _ (blob_text dumps_v (dict_get x.1 values))); [done|done|]. unfold bl. by apply (list_elem_of_fmap_2 (blob_put dumps_v t ns values)) in X.
  - intros k K1 K2. rewrite find_batch, last_put_app, C2 by done. rewrite bool_decide_false by apply not_elem_of_nil. rewrite last_put_notin; [done|].
    rewrite Bk. intros (x & -> & X)%list_elem_of_fmap. by apply (K2 x).
Qed.

Definition no_writes (t ns cid : bytes) (v : omap) : Prop := Forall (fun kv => starts_with (_key _WRITE [t; ns; cid]) kv.1 = false) v.

Lemma pending_none fuel t ns cid w : rs_ok w -> no_writes t ns cid (rs_view w) -> (0 < fuel)%nat ->
  reads (_pending_writes loads_v row_le fuel t ns cid) w (fun l => l = []).
Proof.
  intros O Nw Lf. assert (C : candidates (scan_of (_key _WRITE [t; ns; cid]) [] [] false) (rs_view w) = []).
  { destruct (candidates _ _) as [|kv l] eqn:E; [done|]. assert (I : kv ∈ candidates (scan_of (_key _WRITE [t; ns; cid]) [] [] false) (rs_view w)) by (rewrite E; by left).
    apply candidates_elem in I as [I1 I2]. unfold no_writes in Nw. rewrite Forall_forall in Nw. specialize (Nw _ I1). unfold in_range in I2. cbn [LogScan.prefix scan_of] in I2. by rewrite Nw in I2. }
  unfold _pending_writes. eapply reads_bind; [apply (scan_reads (add_row (W := W)) _ false fuel [] [] None [] w (fun l rows => l = [] -> rows = []) (fun _ => False)); [done|by rewrite C|done|]|].
  - unfold wanted. rewrite C. intros l r l' a w' E. by destruct l.
  - unfold wanted. rewrite C. intros rows w1 [E|[]] S1. rewrite (E eq_refl). by apply reads_or_raise; [apply S1|].
Qed.

Definition tuple_of (c : Conf) (ck : @Checkpoint R) (values : list (bytes * V)) (md : Md) : @CheckpointTuple V R Md :=
  mkTuple (mkConf (thread_id c) (Some (ns_of c)) (Some (cp_id ck))) ck (base.omap (fun x => (fun v => (x.1, v)) <$> dict_get x.1 values) (channel_versions ck))
    (get_checkpoint_metadata c md) ((fun p => mkConf (thread_id c) (Some (ns_of c)) (Some p)) <$> get_checkpoint_id c) [].

Lemma tuple_reads c ck values md new w fuel : rs_ok w -> Fits c ck values md new -> (0 < fuel)%nat ->
  (forall x, x ∈ channel_versions ck -> stored (rs_view w) (thread_id c) (ns_of c) x (dict_get x.1 values)) ->
  no_writes (thread_id c) (ns_of c) (cp_id ck) (rs_view w) ->
  reads (_tuple loads_v loads_c loads_m row_le fuel (thread_id c) (ns_of c) (cp_id ck) (cp_text c ck md)) w (fun x => x = tuple_of c ck values md).
Proof.
  intros O [F1 F2 F3 F4 F5 [F6 F7] [Zs [[Z1 Z2] [Z3 Z4]]] _] Lf St Nw. unfold _tuple, cp_text.
  rewrite key_unpack_pack by (by repeat constructor).
  pose proof (serde_c Sd ck) as Lc. pose proof (serde_m Sd (get_checkpoint_metadata c md)) as Lm.
  eapply reads_bind; [apply (reads_or_raise _ ck); [done|by destruct (dumps_c ck)]|]. intros ? w1 -> S1.
  eapply reads_bind; [apply (load_blobs_reads _ _ _ values); try done; [apply S1|intros x X; rewrite (same_view _ _ S1); by apply St]|]. cbn beta. intros ? w2 -> S2.
  eapply reads_bind; [apply (reads_or_raise _ (get_checkpoint_metadata c md)); [apply S2|by destruct (dumps_m _)]|]. intros ? w3 -> S3.
  eapply reads_bind; [apply pending_none; [apply S3|by rewrite (same_view _ _ S3), (same_view _ _ S2), (same_view _ _ S1)|done]|]. intros ? w4 -> S4.
  apply reads_ret; [apply S4|]. unfold tuple_of, get_checkpoint_id. destruct (checkpoint_id c) as [[|p0 p]|]; done.
Qed.

(** The ids of the checkpoints of the namespace have one length and none is greater. *)
Definition newest_id (t ns cid : bytes) (v : omap) : Prop :=
  forall kv, kv ∈ v -> starts_with (_key _CP [t; ns]) kv.1 = true -> exists i, kv.1 = _key _CP [t; ns; i] /\ length i = length cid /\ ble i cid = true.

Lemma key_ble t ns i j : length i = length j -> ble i j = true -> ble (_key _CP [t; ns; i]) (_key _CP [t; ns; j]) = true.
Proof.
  intros L B. assert (E : forall x, _key _CP [t; ns; x] = pack [str "lg"; _CP; t; ns] ++ frame x).
  { intros x. unfold _key. change [str "lg"; _CP; t; ns; x] with ([str "lg"; _CP; t; ns] ++ [x]). rewrite pack_app. unfold pack at 2. cbn [fmap list_fmap concat]. by rewrite app_nil_r. }
  rewrite !E. unfold ble, frame in *. rewrite L. by rewrite !blt_app.
Qed.

Lemma newest_wanted c ck values md new w w2 : rs_ok w -> rs_ok w2 -> Fits c ck values md new ->
  rs_view w2 = written (put_records dumps_v dumps_c dumps_m get_checkpoint_metadata c ck values md new) [] (rs_view w) ->
  newest_id (thread_id c) (ns_of c) (cp_id ck) (rs_view w) ->
  wanted (_key _CP [thread_id c; ns_of c]) [] [] (Some 1) true (rs_view w2) = [(_key _CP [thread_id c; ns_of c; cp_id ck], cp_text c ck md)].
Proof.
  intros O O2 Ft V1 Nid. pose proof (put_written c ck values md new (rs_view w) Ft (rs_sorted w O)) as PW. cbv zeta in PW. rewrite <- V1 in PW. destruct PW as (P1 & P2 & P3).
  destruct Ft as [F1 F2 F3 F4 F5 _ _ [F8 F9]]. rewrite Forall_forall in F9. set (t := thread_id c) in *. set (ns := ns_of c) in *.
  set (new_kv := (_key _CP [t; ns; cp_id ck], cp_text c ck md)). unfold wanted, candidates. cbn [LogScan.reverse scan_of].
  set (l := List.filter _ _). assert (L : last l = Some new_kv).
  { apply sorted_last; [by apply sorted_filter_List, rs_sorted| |].
    - apply list_elem_of_In, List.filter_In. split; [apply list_elem_of_In, elem_of_find; [by apply rs_sorted|exact P1]|]. unfold in_range. cbn [LogScan.prefix LogScan.start_after LogScan.end_before scan_of is_empty orb fst new_kv].
      rewrite !andb_true_r. apply pack_prefix; [by repeat constructor..|]. by exists [cp_id ck].
    - apply Forall_forall. intros [k x] I. apply list_elem_of_In, List.filter_In in I as [I1 I2]. apply list_elem_of_In, elem_of_find in I1; [|by apply rs_sorted].
      unfold in_range in I2. cbn [LogScan.prefix LogScan.start_after LogScan.end_before scan_of is_empty orb fst] in I2. rewrite !andb_true_r in I2.
      cbn [fst new_kv]. destruct (decide (k = _key _CP [t; ns; cp_id ck])) as [->|K]; [apply ble_refl|]. rewrite P3 in I1; [|done|].
      + apply elem_of_find in I1; [|by apply rs_sorted]. destruct (Nid _ I1 I2) as (i & Ei & Li & Bi). cbn [fst] in Ei. subst k. by apply key_ble.
      + intros y Y ->. destruct (F9 _ Y). apply pack_prefix in I2; [|by repeat constructor..]. apply prefix_cons_inv_2, prefix_cons_inv_1 in I2. discriminate I2. }
  apply last_Some in L as [l0 ->]. rewrite rev_app_distr. done.
Qed.

(** [C23] A checkpoint is read back as it was put: after a put that returned, getting it by
    the configuration returned gives the checkpoint, its metadata, its parent and, of the
    channels it has versions of, the values put now or stored before; the same is returned
    without an id if ids have one length and none in the namespace is greater. The reads
    end, and raise only if a call does not get through. *)
Theorem checkpoint_roundtrip c ck values md new w w1 c1 fuel :
  rs_ok w -> rs_fits (put_records dumps_v dumps_c dumps_m get_checkpoint_metadata c ck values md new) [] -> Fits c ck values md new ->
  put dumps_v dumps_c dumps_m get_checkpoint_metadata c ck values md new w = (inr c1, w1) ->
  (forall x, x ∈ channel_versions ck -> x ∈ new \/ stored (rs_view w) (thread_id c) (ns_of c) x (dict_get x.1 values)) ->
  no_writes (thread_id c) (ns_of c) (cp_id ck) (rs_view w) -> (S (length (rs_view w1)) < fuel)%nat ->
  reads (get_tuple loads_v loads_c loads_m row_le fuel c1) w1 (fun x => x = Some (tuple_of c ck values md)) /\
  (newest_id (thread_id c) (ns_of c) (cp_id ck) (rs_view w) ->
   reads (get_tuple loads_v loads_c loads_m row_le fuel (mkConf (thread_id c) (checkpoint_ns c) None)) w1 (fun x => x = Some (tuple_of c ck values md))).
Proof.
  intros O Fi Ft P St Nw Lf. unfold put, bind, write_records, call in P. destruct (rs_write _ _ w) as [[e|[]] w2] eqn:E; [done|]. injection P as <- <-.
  destruct (rs_write_law _ _ _ _ _ O Fi E) as (O1 & V1 & _). pose proof (put_written c ck values md new (rs_view w) Ft (rs_sorted w O)) as PW. cbv zeta in PW. rewrite <- V1 in PW. destruct PW as (P1 & P2 & P3).
  set (t := thread_id c) in *. set (ns := ns_of c) in *. pose proof Ft as [F1 F2 F3 F4 F5 [F6 F7] _ [F8 F9]]. fold t ns in F1, F2. rewrite Forall_forall in F9, F7.
  assert (St1 : forall x, x ∈ channel_versions ck -> stored (rs_view w2) t ns x (dict_get x.1 values)).
  { intros x X. destruct (decide (x ∈ new)) as [Xn|Xn]; [by apply P2|]. destruct (St x X) as [?|Sx]; [done|]. unfold stored in *. rewrite P3; [done| |].
    - intros Q. destruct (F7 _ X). apply pack_inj in Q; [|by repeat constructor..]. injection Q as Q _. discriminate Q.
    - intros y Y Q. destruct (F7 _ X), (F9 _ Y). apply blob_key_inj in Q; try done. by subst. }
  assert (Nw1 : no_writes t ns (cp_id ck) (rs_view w2)).
  { unfold no_writes in *. rewrite Forall_forall in Nw |- *. intros [k x] I. cbn [fst]. apply elem_of_find in I; [|by apply rs_sorted]. destruct (starts_with _ k) eqn:Sk; [|done].
    rewrite P3 in I.
    - apply elem_of_find in I; [|by apply rs_sorted]. specialize (Nw _ I). cbn [fst] in Nw. by rewrite Sk in Nw.
    - intros ->. apply pack_prefix in Sk; [|by repeat constructor..]. apply prefix_cons_inv_2, prefix_cons_inv_1 in Sk. discriminate Sk.
    - intros y Y ->. destruct (F9 _ Y). apply pack_prefix in Sk; [|by repeat constructor..]. apply prefix_cons_inv_2, prefix_cons_inv_1 in Sk. discriminate Sk. }
  assert (T : forall w', same w2 w' -> reads (_tuple loads_v loads_c loads_m row_le fuel t ns (cp_id ck) (cp_text c ck md)) w' (fun x => x = tuple_of c ck values md)).
  { intros w' S'. apply (tuple_reads c ck values md new); [apply S'|done|lia|intros x X; rewrite (same_view _ _ S'); by apply St1|by rewrite (same_view _ _ S')]. }
  split.
  - assert (G : get_checkpoint_id (mkConf t (Some ns) (Some (cp_id ck))) = Some (cp_id ck)) by (unfold get_checkpoint_id; cbn [checkpoint_id]; by destruct (cp_id ck)).
    unfold get_tuple. rewrite G. cbn [thread_id]. change (ns_of (mkConf t (Some ns) (Some (cp_id ck)))) with ns.
    eapply reads_bind; [apply get_records_reads; [done|apply NoDup_singleton]|]. cbn beta. intros ? w3 -> S3. cbn [base.omap list_omap]. rewrite P1. cbn [fmap option_fmap option_map].
    eapply reads_bind; [by apply T|]. intros ? w4 -> S4. by apply reads_ret; [apply S4|].
  - intros Nid. unfold get_tuple. change (get_checkpoint_id (mkConf t (checkpoint_ns c) None)) with (@None bytes). cbn [thread_id]. change (ns_of (mkConf t (checkpoint_ns c) None)) with ns.
    assert (C : wanted (_key _CP [t; ns]) [] [] (Some 1) true (rs_view w2) = [(_key _CP [t; ns; cp_id ck], cp_text c ck md)]) by (by apply (newest_wanted c ck values md new w w2)).
    eapply reads_bind; [apply (scan_reads _ _ true fuel [] [] (Some 1) None w2 (fun l a => l = [] /\ a = None) (fun a => a = Some (_key _CP [t; ns; cp_id ck], cp_text c ck md))); [done| |done|]|].
    + eapply Nat.le_lt_trans; [|exact (Nat.lt_trans _ _ _ (Nat.lt_succ_diag_r _) Lf)]. unfold candidates. cbn [LogScan.reverse scan_of]. rewrite length_rev. apply List.filter_length_le.
    + intros l r l' a w' E1 _ S'. rewrite C in E1. apply reads_ret; [apply S'|]. destruct l as [|y l]; [by injection E1 as <- _|]. injection E1 as _ E1. by destruct l.
    + rewrite C. intros a w3 [[? _]|Ea] S3; [done|]. subst a. eapply reads_bind; [apply (reads_or_raise _ (cp_id ck)); [apply S3|]|].
      * cbn [fst]. unfold _key. by rewrite key_unpack_pack by (by repeat constructor).
      * intros ? w4 -> S4. cbn [snd]. eapply reads_bind; [apply T; by eapply same_trans|]. intros ? w5 -> S5. by apply reads_ret; [apply S5|].
Qed.

(** *** Threads *)

Definition of_thread (t : bytes) (parts : list bytes) : bool :=
  match parts with
  | lg :: kind :: t' :: _ => bool_decide (lg = str "lg") && (bool_decide (kind = _CP) || bool_decide (kind = _WRITE) || bool_decide (kind = _BLOB)) && bool_decide (t' = t)
  | _ => false
  end.

Lemma find_filter (P : bytes -> bool) k v : sorted v -> find k (List.filter (fun kv => P kv.1) v) = if P k then find k v else None.
Proof.
  intros Sv. assert (X : forall x, find k (List.filter (fun kv => P kv.1) v) = Some x <-> find k v = Some x /\ P k = true).
  { intros x. rewrite <- !elem_of_find by (done || by apply sorted_filter_List). by rewrite !list_elem_of_In, List.filter_In. }
  destruct (find k (List.filter _ v)) as [x|] eqn:E.
  - destruct (proj1 (X x) eq_refl) as [-> ->]. done.
  - destruct (P k) eqn:Pk; [|done]. destruct (find k v) as [x|] eqn:Ev; [|done]. discriminate (proj2 (X x) (conj eq_refl eq_refl)).
Qed.

Lemma delete_prefix_effect p w n w' : rs_ok w -> rs_delete_fits p w -> delete_record_prefix p w = (inr n, w') ->
  rs_ok w' /\ rs_view w' = List.filter (fun kv => negb (starts_with p kv.1)) (rs_view w).
Proof.
  intros O Fi E. unfold delete_record_prefix, call in E. destruct (rs_delete_prefix p w) as [[e|m] w1] eqn:D; [done|]. injection E as <- <-.
  destruct (rs_delete_law _ _ _ _ O Fi D) as (O1 & Vw & _). done.
Qed.

(** Deleting a thread removes exactly its checkpoints, writes and channel values: any
    other key, of another thread whatever its name or of anything else, keeps its value. *)
Theorem thread_deleted t w w' parts :
  rs_ok w -> sized t -> Forall sized parts ->
  let w1 := (delete_record_prefix (_key _CP [t]) w).2 in
  let w2 := (delete_record_prefix (_key _WRITE [t]) w1).2 in
  rs_delete_fits (_key _CP [t]) w -> rs_delete_fits (_key _WRITE [t]) w1 -> rs_delete_fits (_key _BLOB [t]) w2 ->
  delete_thread t w = (inr tt, w') ->
  rs_ok w' /\ find (pack parts) (rs_view w') = if of_thread t parts then None else find (pack parts) (rs_view w).
Proof.
  intros O Zt Zp w1 w2 D1 D2 D3 E. unfold delete_thread, bind in E. unfold w2, w1 in *.
  destruct (delete_record_prefix (_key _CP [t]) w) as [[e|n1] u1] eqn:E1; [done|]. cbn [snd] in *. destruct (delete_prefix_effect _ _ _ _ O D1 E1) as [O1 V1].
  destruct (delete_record_prefix (_key _WRITE [t]) u1) as [[e|n2] u2] eqn:E2; [done|]. cbn [snd] in *. destruct (delete_prefix_effect _ _ _ _ O1 D2 E2) as [O2 V2].
  destruct (delete_record_prefix (_key _BLOB [t]) u2) as [[e|n3] u3] eqn:E3; [done|]. injection E as <-. destruct (delete_prefix_effect _ _ _ _ O2 D3 E3) as [O3 V3].
  split; [done|]. rewrite V3, (find_filter (fun k => negb (starts_with (_key _BLOB [t]) k))) by by apply rs_sorted.
  rewrite V2, (find_filter (fun k => negb (starts_with (_key _WRITE [t]) k))) by by apply rs_sorted. rewrite V1, (find_filter (fun k => negb (starts_with (_key _CP [t]) k))) by by apply rs_sorted.
  assert (K : forall kind, sized kind -> starts_with (_key kind [t]) (pack parts) = match parts with lg :: k :: t' :: _ => bool_decide (lg = str "lg") && bool_decide (k = kind) && bool_decide (t' = t) | _ => false end).
  { intros kind Zk. apply eq_true_iff_eq. rewrite (pack_prefix [str "lg"; kind; t]) by (done || by repeat constructor). destruct parts as [|lg [|k [|t' r]]]; try (split; [intros [x Q]; discriminate Q|done]).
    rewrite !andb_true_iff, !bool_decide_eq_true. split; [intros [x Q]; by injection Q as -> -> -> _|]. intros [[-> ->] ->]. by exists r. }
  rewrite !K by done. destruct parts as [|lg [|k [|t' r]]]; try done. cbn [of_thread]. destruct (bool_decide (lg = _)), (bool_decide (t' = t)), (bool_decide (k = _CP)), (bool_decide (k = _WRITE)), (bool_decide (k = _BLOB)); done.
Qed.

(** *** Writes *)

(** The puts in any number of batches do what they do in one. *)
Lemma batched_effect puts : forall batch size w w1, rs_ok w -> (forall p b q, batch ++ puts = p ++ b ++ q -> rs_fits b []) ->
  batched puts batch size w = (inr tt, w1) -> rs_ok w1 /\ forall k, find k (rs_view w1) = match last_put (batch ++ puts) k with Some v => Some v | None => find k (rs_view w) end.
Proof.
  assert (X : forall batch w r w1, rs_ok w -> rs_fits batch [] -> write_records batch [] w = (inr r, w1) ->
    rs_ok w1 /\ forall k, find k (rs_view w1) = match last_put batch k with Some v => Some v | None => find k (rs_view w) end).
  { intros batch w r w1 O Fi E. unfold write_records, call in E. destruct (rs_write batch [] w) as [[e|u] w2] eqn:D; [done|]. injection E as _ <-. destruct (rs_write_law _ _ _ _ _ O Fi D) as (O1 & Vw & _).
    split; [done|]. intros k. rewrite Vw, find_batch by by apply rs_sorted. by rewrite bool_decide_false by apply not_elem_of_nil. }
  induction puts as [|r puts IH]; intros batch size w w1 O Fi E; cbn [batched] in E.
  - rewrite app_nil_r in *. destruct batch as [|b0 b]; [by injection E as <-|]. apply (X _ _ tt w1 O); [|done]. apply (Fi [] _ []). by rewrite app_nil_r.
  - destruct (_ && _).
    + unfold bind in E. destruct (write_records batch [] w) as [[e|u] w2] eqn:D; [done|]. destruct (X batch w u w2 O) as [O2 V2]; [by apply (Fi [] _ (r :: puts))|done|].
      destruct (IH [r] (zlen r.1 + zlen r.2) w2 w1 O2) as [O3 V3]; [intros p b q Q; apply (Fi (batch ++ p) b q); rewrite <- app_assoc; by rewrite <- Q|exact E|]. split; [done|]. intros k. change (r :: puts) with ([r] ++ puts). rewrite V3, V2, (last_put_app batch). by destruct (last_put ([r] ++ puts) k).
    + destruct (IH (batch ++ [r]) (size + (zlen r.1 + zlen r.2)) w w1 O) as [O3 V3]; [intros p b q Q; apply (Fi p b q); by rewrite <- app_assoc in Q|exact E|]. split; [done|]. intros k. rewrite V3. by rewrite <- app_assoc.
Qed.

Lemma int_of_str z : - 2 ^ 63 < z < 2 ^ 63 -> int_of (str_int z) = Some z.
Proof.
  intros B. unfold str_int. destruct (Z.ltb_spec z 0).
  - destruct (Boundary.print_digits (- z) ltac:(lia)) as (D & _ & Ne). cbn [int_of]. rewrite bool_decide_true by done. destruct (Boundary.print (- z)) eqn:E; [done|]. rewrite <- E, D in *. cbn. f_equal. lia.
  - destruct (Boundary.print_digits z ltac:(lia)) as (D & Fd & Ne). unfold int_of. destruct (Boundary.print z) as [|c r] eqn:E; [done|]. rewrite bool_decide_false; [done|]. intros ->. apply Forall_cons in Fd as [Fd _]. discriminate Fd.
Qed.

Lemma str_int_sized z : sized (str_int z).
Proof.
  assert (P : forall fuel n, (length (Boundary.print_nat fuel n) <= fuel)%nat).
  { intros fuel. induction fuel as [|fuel IH]; intros n; cbn; [lia|]. destruct (n <? 10); [cbn; lia|]. rewrite length_app. cbn. specialize (IH (n / 10)). lia. }
  unfold sized, str_int. pose proof (P 20%nat z). pose proof (P 20%nat (- z)). unfold Boundary.print. destruct (z <? 0); cbn [length]; lia.
Qed.

Lemma dict_keys {A} (l : list (bytes * A)) k : k ∈ (dict l).*1 <-> k ∈ l.*1.
Proof.
  assert (X : forall (d : list (bytes * A)) k0 v, k ∈ (dict_set k0 v d).*1 <-> k = k0 \/ k ∈ d.*1).
  { induction d as [|[k1 v1] d IH]; intros k0 v; cbn; [rewrite list_elem_of_singleton; set_solver|]. case_bool_decide as E; [subst; cbn; set_solver|]. cbn. rewrite !elem_of_cons, IH. tauto. }
  unfold dict. assert (G : forall l (d : list (bytes * A)), k ∈ (fold_left (fun d kv => dict_set kv.1 kv.2 d) l d).*1 <-> k ∈ d.*1 \/ k ∈ l.*1).
  { clear l. induction l as [|[k1 v1] l IH]; intros d; cbn; [set_solver|]. rewrite IH, X, elem_of_cons. tauto. }
  rewrite G. set_solver.
Qed.

Lemma get_records_keys keys w : rs_ok w -> reads (get_records keys) w (fun d => forall k, k ∈ d.*1 <-> k ∈ keys /\ is_Some (find k (rs_view w))).
Proof.
  intros O. eapply reads_bind; [by apply reads_call, rs_get_law|]. intros a w' -> S'. apply reads_ret; [apply S'|]. intros k. rewrite dict_keys, list_elem_of_fmap. split.
  - intros ([k' v] & -> & I). apply list_elem_of_omap in I as (y & I & E). cbn. destruct (find y (rs_view w)) eqn:Ey; [|done]. injection E as -> ->. split; [done|]. by rewrite Ey.
  - intros [I [v E]]. exists (k, v). split; [done|]. apply list_elem_of_omap. exists k. split; [done|]. by rewrite E.
Qed.

Lemma last_put_filter (P : Z * (bytes * bytes) -> bool) rows k (b : bool) : (forall x, x ∈ rows -> x.2.1 = k -> P x = b) ->
  last_put (snd <$> List.filter P rows) k = if b then last_put (snd <$> rows) k else None.
Proof.
  induction rows as [|x rows IH]; intros E; [by destruct b|]. assert (I := IH ltac:(intros y Y; apply E; by right)). specialize (E x ltac:(by left)).
  cbn [List.filter]. assert (C : forall l, last_put (snd <$> x :: l) k = match last_put (snd <$> l) k with Some v => Some v | None => if bool_decide (x.2.1 = k) then Some x.2.2 else None end).
  { intros l. rewrite fmap_cons. change (x.2 :: (snd <$> l)) with ([x.2] ++ (snd <$> l)). by rewrite last_put_app. }
  rewrite (C rows). destruct (P x) eqn:Px.
  - rewrite C, I. case_bool_decide as Ek; [rewrite <- (E Ek); done|]. by destruct b, (last_put (snd <$> rows) k).
  - rewrite I. case_bool_decide as Ek; [rewrite <- (E Ek); done|]. by destruct b, (last_put (snd <$> rows) k).
Qed.

Definition write_rows (c : Conf) (cid task_id task_path : bytes) (writes : list (bytes * V)) : list (Z * (bytes * bytes)) :=
  imap (fun i w => write_put dumps_v writes_idx c cid task_id task_path (Z.of_nat i) w) writes.

Lemma write_rows_class c cid task_id task_path writes x y : let rows := write_rows c cid task_id task_path writes in
  Forall sized [thread_id c; ns_of c; cid; task_id] -> Forall (fun x => - 2 ^ 63 < x.1 < 2 ^ 63) rows -> x ∈ rows -> y ∈ rows -> x.2.1 = y.2.1 -> x.1 = y.1.
Proof.
  intros rows Zs Bd X Y E. rewrite Forall_forall in Bd. assert (K : forall z, z ∈ rows -> z.2.1 = _key _WRITE [thread_id c; ns_of c; cid; task_id; str_int z.1]).
  { intros z Z0. apply elem_of_lookup_imap in Z0 as (i & wr & -> & _). unfold write_put. by destruct (dumps_v wr.2). }
  assert (Zr : forall z, Forall sized ([str "lg"; _WRITE] ++ [thread_id c; ns_of c; cid; task_id] ++ [str_int z])) by (intros z; apply Forall_app; split; [by repeat constructor|]; apply Forall_app; split; [done|]; by repeat constructor; apply str_int_sized).
  rewrite (K x X), (K y Y) in E. apply pack_inj in E; [|apply Zr..]. injection E as E. pose proof (int_of_str _ (Bd _ X)) as I1. rewrite E, int_of_str in I1 by by apply Bd. by injection I1.
Qed.

Lemma last_put_some puts k : k ∈ puts.*1 -> is_Some (last_put puts k).
Proof.
  intros I. apply list_elem_of_fmap in I as ([k' v] & -> & I). apply list_elem_of_split in I as (p & q & ->). rewrite last_put_app. change ((k', v) :: q) with ([(k', v)] ++ q). rewrite last_put_app.
  destruct (last_put q _); [done|]. unfold last_put at 1. cbn. by rewrite bool_decide_true.
Qed.

(** Of the writes of a task that are put, a regular one whose key is there already keeps
    the value of the first attempt, and every other, the special channels included, has the
    value of the last write of the call under its key; nothing else changes. *)
Theorem first_writes_kept c writes cid task_id task_path w w1 :
  let rows := write_rows c cid task_id task_path writes in
  rs_ok w -> checkpoint_id c = Some cid -> Forall sized [thread_id c; ns_of c; cid; task_id] -> Forall (fun x => - 2 ^ 63 < x.1 < 2 ^ 63) rows ->
  (forall b, b `sublist_of` rows.*2 -> rs_fits b []) ->
  put_writes dumps_v writes_idx c writes task_id task_path w = (inr tt, w1) ->
  (forall x, x ∈ rows -> find x.2.1 (rs_view w1) = match find x.2.1 (rs_view w) with Some v => if 0 <=? x.1 then Some v else last_put rows.*2 x.2.1 | None => last_put rows.*2 x.2.1 end) /\
  (forall k, k ∉ rows.*2.*1 -> find k (rs_view w1) = find k (rs_view w)).
Proof.
  intros rows O Ci Zs Bd Fi P. unfold put_writes in P. rewrite Ci in P. fold (write_rows c cid task_id task_path writes) in P. fold rows in P. cbv zeta in P.
  set (regular := (fun x : Z * (bytes * bytes) => x.2.1) <$> List.filter (fun x => 0 <=? x.1) rows) in P.
  assert (Ex : reads (match regular with [] => ret [] | _ => get_records regular end) w (fun d => forall k, k ∈ d.*1 <-> k ∈ regular /\ is_Some (find k (rs_view w)))).
  { destruct regular; [apply reads_ret; [done|]; set_solver|by apply get_records_keys]. }
  destruct Ex as [S1 Ex]. unfold bind in P. destruct (match regular with [] => ret [] | _ => get_records regular end w) as [[e|ex] w2]; [done|]. cbn [fst snd] in S1, Ex.
  set (kept := fun x : Z * (bytes * bytes) => (x.1 <? 0) || negb (bool_decide (x.2.1 ∈ ex.*1))) in P.
  assert (Sub : (snd <$> List.filter kept rows) `sublist_of` rows.*2).
  { clear. induction rows as [|x l IH]; [done|]. cbn [List.filter]. destruct (kept x); [by apply sublist_skip|by apply sublist_cons]. }
  destruct (batched_effect (snd <$> List.filter kept rows) [] 0 w2 w1 (same_ok _ _ S1)) as [O1 V1]; [|exact P|].
  { intros p b q Q. apply Fi. etransitivity; [|exact Sub]. cbn [app] in Q. rewrite Q. apply sublist_inserts_l, sublist_inserts_r. done. }
  cbn [app] in V1. rewrite (same_view _ _ S1) in V1.
  assert (Cls := fun x y => write_rows_class c cid task_id task_path writes x y Zs Bd). rewrite Forall_forall in Bd.
  split.
  - intros x X. rewrite V1, (last_put_filter kept rows x.2.1 (kept x)).
    + destruct (last_put_some rows.*2 x.2.1) as [v Lv]; [apply (list_elem_of_fmap_2 fst), (list_elem_of_fmap_2 snd), X|]. rewrite Lv. unfold kept.
      assert (Rx : 0 <= x.1 -> x.2.1 ∈ regular) by (intros L; apply (list_elem_of_fmap_2 (fun x : Z * (bytes * bytes) => x.2.1)), list_elem_of_In, List.filter_In; split; [by apply list_elem_of_In|by apply Z.leb_le]).
      destruct (Z.ltb_spec x.1 0), (Z.leb_spec 0 x.1); try lia; cbn [orb]; [by destruct (find x.2.1 (rs_view w))|]. case_bool_decide as Ie; cbn [negb].
      * apply Ex in Ie as [_ [u ->]]. done.
      * destruct (find x.2.1 (rs_view w)) as [u|] eqn:Eu; [|done]. destruct Ie. apply Ex. split; [by apply Rx|by rewrite Eu].
    + intros y Y E. unfold kept. by rewrite (Cls y x Y X E), E.
  - intros k K. rewrite V1, last_put_notin; [done|]. intros I. apply K. apply list_elem_of_fmap in I as (y & -> & I). apply list_elem_of_fmap. exists y. split; [done|]. by eapply sublist_subseteq.
Qed.

End SaverTheorems.

(** *** The store *)

Definition label_ok (l : bytes) : Prop := l <> [] /\ sized l.

Lemma store_key_pack ns key : store_key ns key = pack ([str "lg"; str "st"] ++ ns ++ [[]; key]).
Proof. unfold store_key, _ROOT, _NS_END. rewrite pack_app, pack_app. change [[]; key] with ([[]] ++ [key]). by rewrite pack_app. Qed.

Lemma store_parts_sized ns key : Forall label_ok ns -> sized key -> Forall sized (ns ++ [[]; key]).
Proof. intros L K. apply Forall_app. split; [eapply Forall_impl; [exact L|]; by intros x []|by repeat constructor]. Qed.

Lemma split_store_key ns key : Forall label_ok ns -> sized key -> _split (store_key ns key) = Some (ns, key).
Proof.
  intros L K. unfold _split. rewrite store_key_pack, pack_app. fold _ROOT. rewrite drop_app_length, key_unpack_pack by by apply store_parts_sized.
  assert (B : before_empty (ns ++ [[]; key]) = Some (ns, [key])).
  { induction L as [|l ns [L1 _] _ IH]; [done|]. cbn [app before_empty]. destruct l as [|c l]; [done|]. by rewrite IH. }
  cbn [mbind option_bind]. by rewrite B.
Qed.

Lemma store_key_inj ns key ns' key' : Forall label_ok ns -> sized key -> Forall label_ok ns' -> sized key' -> store_key ns key = store_key ns' key' -> (ns, key) = (ns', key').
Proof. intros L K L' K' E. apply (f_equal _split) in E. rewrite !split_store_key in E by done. by injection E as -> ->. Qed.

(** A prefix of labels is a prefix of keys exactly if the namespace starts with them. *)
Lemma store_key_prefix pre ns key : Forall label_ok pre -> Forall label_ok ns -> sized key ->
  starts_with (_ROOT ++ pack pre) (store_key ns key) = bool_decide (pre `prefix_of` ns).
Proof.
  intros P L K. unfold _ROOT. rewrite store_key_pack, <- pack_app. apply eq_true_iff_eq. rewrite bool_decide_eq_true, pack_prefix.
  - split; [|intros [x ->]; exists (x ++ [[]; key]); by rewrite <- !app_assoc].
    intros X. apply prefix_cons_inv_2, prefix_cons_inv_2 in X. cbn [app] in X. revert ns L X. induction P as [|p pre [P1 _] _ IH]; intros ns L X; [apply prefix_nil|]. destruct ns as [|n ns].
    + cbn [app] in X. by apply prefix_cons_inv_1 in X.
    + cbn [app] in X. pose proof (prefix_cons_inv_1 _ _ _ _ X) as ->. apply prefix_cons_inv_2 in X. apply Forall_cons in L as [_ L]. by apply prefix_cons, IH.
  - apply Forall_app. split; [by repeat constructor|]. eapply Forall_impl; [exact P|]. by intros x [].
  - apply Forall_app. split; [by repeat constructor|]. by apply store_parts_sized.
Qed.

Section StoreTheorems.
Context {W : Type} `{AgentServerLaws W} {N : Type} (py_eq : pyval N -> pyval N -> bool) {Fl : Type} (float : pyval N -> option Fl) (fgt fge : Fl -> Fl -> bool).
Context (json_loads : bytes -> option (@Doc N)).

Definition rec_item (kv : bytes * bytes) : option (@Item N) := _split kv.1 ≫= fun x => _item json_loads x.1 x.2 kv.2.

(** Every key under the root is that of an item. *)
Definition well_stored (v : omap) : Prop := forall kv, kv ∈ v -> starts_with _ROOT kv.1 = true ->
  exists ns key d, kv.1 = store_key ns key /\ Forall label_ok ns /\ sized key /\ json_loads kv.2 = Some d.

(** The items under a prefix of labels, in the order of their keys. *)
Definition items_under (pre : list bytes) (v : omap) : list (@Item N) :=
  List.filter (fun i => bool_decide (pre `prefix_of` i_namespace i)) (base.omap rec_item (List.filter (fun kv => starts_with _ROOT kv.1) v)).

Lemma rec_item_of ns key kv d : kv.1 = store_key ns key -> Forall label_ok ns -> sized key -> json_loads kv.2 = Some d ->
  rec_item kv = Some (mkItem (d_value d) key ns (created_at d) (updated_at d)).
Proof. intros E L K J. unfold rec_item, _item. rewrite E, split_store_key by done. cbn. by rewrite J. Qed.

Lemma root_prefix pre k : starts_with (_ROOT ++ pack pre) k = true -> starts_with _ROOT k = true.
Proof. apply starts_with_trans, starts_with_app. Qed.

Lemma scanned_items pre v : Forall label_ok pre -> well_stored v ->
  base.omap rec_item (List.filter (fun kv => starts_with (_ROOT ++ pack pre) kv.1) v) = items_under pre v.
Proof.
  intros P. induction v as [|kv v IH]; intros Ws; [done|]. assert (I := IH ltac:(intros x X; apply Ws; by right)). specialize (Ws kv ltac:(by left)). unfold items_under in *. cbn [List.filter].
  destruct (starts_with _ROOT kv.1) eqn:Sr.
  - destruct (Ws eq_refl) as (ns & key & d & E & L & K & J). pose proof (rec_item_of ns key kv d E L K J) as Ri. rewrite E, store_key_prefix by done. cbn [base.omap list_omap]. rewrite Ri. cbn [List.filter i_namespace].
    destruct (bool_decide _); [cbn [base.omap list_omap]; rewrite Ri|]; by rewrite I.
  - destruct (starts_with (_ROOT ++ pack pre) kv.1) eqn:Sp; [|done]. apply root_prefix in Sp. by rewrite Sp in Sr.
Qed.

Definition filter_hit (o : @SearchOp N) (i : @Item N) : option bool :=
  match s_filter o with None => Some true | Some f => all_of (fun kv => _compare py_eq float fgt fge (get_or_none kv.1 (i_value i)) kv.2) f end.
Definition is_hit (o : @SearchOp N) (i : @Item N) : bool := bool_decide (filter_hit o i = Some true).

(** The state of a search that has seen the hits [h]. *)
Definition seen (o : @SearchOp N) (h : list (@Item N)) (a : Z * list (@Item N)) : Prop :=
  a = (Z.min (Z.of_nat (length h)) (Z.max 0 (s_offset o)), drop (Z.to_nat (s_offset o)) h).

Lemma search_record_reads o kv item h a w : rs_ok w -> rec_item kv = Some item -> is_Some (filter_hit o item) -> seen o h a ->
  let h' := h ++ (if is_hit o item then [item] else []) in
  reads (search_record py_eq float fgt fge json_loads o kv a) w (fun '(enough, a') => seen o h' a' /\
    (enough = true <-> is_hit o item = true /\ (Z.to_nat (s_offset o) <= length h)%nat /\ s_limit o <= zlen (drop (Z.to_nat (s_offset o)) h'))).
Proof.
  intros O Ri [hit Hi] Sa h'. unfold rec_item in Ri. destruct (_split kv.1) as [x|] eqn:Sp; [|done]. cbn [mbind option_bind] in Ri. unfold search_record. rewrite Sp.
  eapply reads_bind; [by apply (reads_or_raise _ x)|]. intros ? w1 -> S1. eapply reads_bind; [apply (reads_or_raise _ item); [apply S1|done]|]. intros ? w2 -> S2.
  eapply reads_bind; [apply (reads_or_raise _ hit); [apply S2|exact Hi]|]. intros ? w3 -> S3.
  assert (Ih : is_hit o item = hit) by (unfold is_hit; rewrite Hi; destruct hit; [by apply bool_decide_true|by apply bool_decide_false]).
  unfold h'. rewrite Ih. unfold seen in *. subst a. cbn [fst snd]. destruct hit; cbn [negb]; [|apply reads_ret; [apply S3|]; rewrite app_nil_r; split; [done|split; [done|by intros [? _]]]].
  destruct (Z.ltb_spec (Z.min (Z.of_nat (length h)) (Z.max 0 (s_offset o))) (s_offset o)); (apply reads_ret; [apply S3|]).
  - split; [|split; [done|intros (_ & L & _); lia]]. rewrite length_app. cbn [length]. f_equal; [lia|]. rewrite !drop_ge; [done|rewrite length_app; cbn; lia|lia].
  - assert (Dr : drop (Z.to_nat (s_offset o)) (h ++ [item]) = drop (Z.to_nat (s_offset o)) h ++ [item]) by (rewrite drop_app_le; [done|lia]). rewrite Dr.
    split; [rewrite length_app; cbn [length]; f_equal; lia|]. rewrite Z.leb_le. split; [intros ?; split; [done|split; [lia|done]]|by intros (_ & _ & ?)].
Qed.

(** A search for at least one item returns exactly the items whose namespace starts with
    the labels asked for and that pass the filter, in the order of their keys, without the
    first [offset] and at most [limit] of them, however the server cuts the pages. *)
Theorem search_exact o w fuel : rs_ok w -> well_stored (rs_view w) -> Forall label_ok (namespace_prefix o) -> 1 <= s_limit o ->
  (forall i, i ∈ items_under (namespace_prefix o) (rs_view w) -> is_Some (filter_hit o i)) -> (length (rs_view w) < fuel)%nat ->
  reads (_search py_eq float fgt fge json_loads fuel o) w (fun l => l = take (Z.to_nat (s_limit o)) (drop (Z.to_nat (s_offset o))
    (List.filter (is_hit o) (items_under (namespace_prefix o) (rs_view w))))).
Proof.
  intros O Ws Lp Lm Tot Lf. set (pre := _ROOT ++ pack (namespace_prefix o)). set (hits := fun l : list (bytes * bytes) => List.filter (is_hit o) (base.omap rec_item l)).
  assert (Wa : wanted pre [] [] None false (rs_view w) = List.filter (fun kv => starts_with pre kv.1) (rs_view w)).
  { unfold wanted, candidates. cbn [LogScan.reverse scan_of]. apply List.filter_ext. intros kv. unfold in_range. cbn [LogScan.prefix LogScan.start_after LogScan.end_before scan_of is_empty orb]. by rewrite !andb_true_r. }
  rewrite <- (scanned_items (namespace_prefix o) (rs_view w) Lp Ws). fold pre. rewrite <- Wa. change (List.filter (is_hit o) (base.omap rec_item (wanted pre [] [] None false (rs_view w)))) with (hits (wanted pre [] [] None false (rs_view w))).
  unfold _search. eapply reads_bind; [apply (scan_reads _ pre false fuel [] [] None (0, []) w (fun l a => seen o (hits l) a /\ zlen (drop (Z.to_nat (s_offset o)) (hits l)) < s_limit o)
    (fun a => a.2 = take (Z.to_nat (s_limit o)) (drop (Z.to_nat (s_offset o)) (hits (wanted pre [] [] None false (rs_view w)))))); [done| | |]|].
  - eapply Nat.le_lt_trans; [|exact Lf]. unfold candidates. cbn [LogScan.reverse scan_of]. apply List.filter_length_le.
  - unfold seen, hits. cbn. rewrite drop_nil. cbn. split; [f_equal; lia|lia].
  - intros l kv l' a w' E [Sa La] S'. assert (Ik : kv ∈ wanted pre [] [] None false (rs_view w)) by (rewrite E; set_solver).
    assert (Ri : exists item, rec_item kv = Some item).
    { rewrite Wa in Ik. apply list_elem_of_In, List.filter_In in Ik as [I1 I2]. destruct (Ws kv ltac:(by apply list_elem_of_In) (root_prefix _ _ I2)) as (ns & key & d & Ek & L & K & J). eexists. by apply (rec_item_of ns key kv d). }
    destruct Ri as [item Ri]. assert (Hh : forall r, hits (l ++ kv :: r) = hits l ++ (if is_hit o item then [item] else []) ++ hits r).
    { intros r. unfold hits. rewrite omap_app, List.filter_app. cbn [base.omap list_omap]. rewrite Ri. cbn [List.filter]. by destruct (is_hit o item). }
    assert (Tt : is_Some (filter_hit o item)).
    { apply Tot. rewrite <- (scanned_items (namespace_prefix o) (rs_view w) Lp Ws). fold pre. rewrite <- Wa. apply list_elem_of_omap. by exists kv. }
    eapply reads_mono; [apply (search_record_reads o kv item (hits l)); [apply S'|done|done|done]|]. intros [enough a'] [Sa' En].
    assert (Hr : hits (l ++ [kv]) = hits l ++ (if is_hit o item then [item] else [])) by (rewrite (Hh []); unfold hits at 2; cbn; by rewrite app_nil_r).
    destruct enough.
    + destruct (proj1 En eq_refl) as (Eh & Lo & Ll). rewrite E, Hh. rewrite Eh in *. unfold seen in Sa'. subst a'. cbn [snd]. rewrite (assoc_L (++)), (drop_app_le (hits l ++ [item]) (hits l')) by (rewrite length_app; lia).
      rewrite take_app_le by lia. rewrite take_ge; [done|]. rewrite drop_app_le, length_app by lia. cbn. lia.
    + rewrite Hr. split; [done|]. destruct (is_hit o item) eqn:Eh; [|by rewrite app_nil_r]. apply Z.nle_gt. intros Ll.
      destruct (decide (Z.to_nat (s_offset o) <= length (hits l))%nat) as [Lo|Lo]; [by discriminate (proj2 En (conj eq_refl (conj Lo Ll)))|].
      rewrite drop_ge in Ll by (rewrite length_app; cbn; lia). cbn in Ll. lia.
  - intros a w1 [[Sa La]|Qa] S1; (apply reads_ret; [apply S1|]); [|done]. unfold seen in Sa. subst a. cbn [snd]. rewrite take_ge; [done|]. lia.
Qed.

Context (json_dumps : @Doc N -> bytes) (Json : forall d, json_loads (json_dumps d) = Some d).
#[local] Notation run_batch := (batch py_eq float fgt fge json_dumps json_loads).

(** A put of one item: what is written and deleted. *)
Lemma put_effect fuel now ns key value w r w1 : rs_ok w ->
  let k := store_key ns key in
  let created := match find k (rs_view w) ≫= json_loads with Some d => created_at d | None => now end in
  let puts := match value with Some v => [(k, json_dumps (mkDoc v created now))] | None => [] end in
  let dels := match value with Some _ => [] | None => [k] end in
  rs_fits puts dels -> run_batch fuel now [OpPut (mkPut ns key value)] w = (inr r, w1) ->
  r = [RNone] /\ rs_ok w1 /\ rs_view w1 = written puts dels (rs_view w).
Proof.
  intros O k created puts dels Fi P. assert (Wr : forall w2 u w3, same w w2 -> write_records puts dels w2 = (inr u, w3) -> rs_ok w3 /\ rs_view w3 = written puts dels (rs_view w)).
  { intros w2 u w3 S2 E. unfold write_records, call in E. destruct (rs_write puts dels w2) as [[e|x] w4] eqn:D; [done|]. injection E as _ <-. destruct (rs_write_law _ _ _ _ _ (same_ok _ _ S2) Fi D) as (O1 & V1 & _). by rewrite V1, (same_view _ _ S2). }
  unfold batch in P. cbn [batch_reads] in P. unfold bind at 1 in P. unfold ret at 1 in P. cbn [snd fst app put_set] in P. unfold _apply_puts in P. cbn [base.omap list_omap p_ns p_key p_value] in P. fold k in P.
  unfold bind at 1 2 in P. destruct value as [v|]; cbn [fmap option_fmap option_map] in P.
  - destruct (get_records_reads [k] w O ltac:(apply NoDup_singleton)) as [S1 G]. destruct (get_records [k] w) as [[e|ex] w2]; [done|]. cbn [fst snd] in S1, G. subst ex. unfold doc_of in P. cbn [p_ns p_key base.omap list_omap] in P. fold k in P.
    assert (D : (match dict_get k (match (fun x => (k, x)) <$> find k (rs_view w) with Some y => [y] | None => [] end) with None => Some (k, json_dumps (mkDoc v now now)) | Some raw => (fun d => (k, json_dumps (mkDoc v (created_at d) now))) <$> json_loads raw end) = Some (k, json_dumps (mkDoc v created now)) \/
      (exists raw, find k (rs_view w) = Some raw /\ json_loads raw = None)).
    { unfold created. destruct (find k (rs_view w)) as [raw|]; cbn; [|by left]. rewrite bool_decide_true by done. destruct (json_loads raw) as [d|] eqn:J; [by left|right; eauto]. }
    destruct D as [D|(raw & E1 & E2)].
    + cbn [base.omap list_omap] in P. rewrite D in P. cbn [mapM] in P. unfold bind at 1 in P. cbn in P. match type of P with context [write_records ?a ?b w2] => change (write_records a b w2) with (write_records puts dels w2) in P end. destruct (write_records puts dels w2) as [[e|u] w3] eqn:Wt; [done|]. unfold ret in P. injection P as <- <-. split; [done|]. by apply (Wr w2 u).
    + rewrite E1 in P. cbn in P. rewrite bool_decide_true, E2 in P by done. done.
  - destruct (get_records_reads [] w O ltac:(apply NoDup_nil_2)) as [S1 G]. destruct (get_records [] w) as [[e|ex] w2]; [done|]. cbn [fst snd] in S1, G. unfold bind at 1 in P. cbn in P. match type of P with context [write_records ?a ?b w2] => change (write_records a b w2) with (write_records puts dels w2) in P end. 
    destruct (write_records puts dels w2) as [[e|u] w3] eqn:Wt; [done|]. unfold ret in P. injection P as <- <-. split; [done|]. by apply (Wr w2 u).
Qed.

(** An item that was put is read back with its value, the time of its first put and that
    of the last, and one that was put without a value is gone; every other item is as it
    was. *)
Theorem item_put_get fuel now now' ns key value w r w1 :
  rs_ok w -> Forall label_ok ns -> sized key ->
  let k := store_key ns key in
  let created := match find k (rs_view w) ≫= json_loads with Some d => created_at d | None => now end in
  rs_fits (match value with Some v => [(k, json_dumps (mkDoc v created now))] | None => [] end) (match value with Some _ => [] | None => [k] end) ->
  run_batch fuel now [OpPut (mkPut ns key value)] w = (inr r, w1) ->
  reads (run_batch fuel now' [GetOp ns key]) w1 (fun x => x = [RItem ((fun v => mkItem v key ns created now) <$> value)]) /\
  forall ns' key', Forall label_ok ns' -> sized key' -> (ns', key') <> (ns, key) -> find (store_key ns' key') (rs_view w1) = find (store_key ns' key') (rs_view w).
Proof.
  intros O Ln Zk k created Fi P. destruct (put_effect fuel now ns key value w r w1 O Fi P) as (_ & O1 & V1). fold k created in V1.
  assert (Fk : forall k', find k' (rs_view w1) = if bool_decide (k' = k) then (fun v => json_dumps (mkDoc v created now)) <$> value else find k' (rs_view w)).
  { intros k'. rewrite V1, find_batch by by apply rs_sorted. destruct value as [v|]; cbn [fmap option_fmap option_map].
    - rewrite (bool_decide_false (k' ∈ [])) by apply not_elem_of_nil. unfold last_put. cbn [fold_left fst snd]. rewrite (bool_decide_ext (k = k') (k' = k)) by done. by case_bool_decide.
    - rewrite (bool_decide_ext (k' ∈ [k]) (k' = k)) by apply list_elem_of_singleton. by case_bool_decide. }
  split.
  - unfold batch. cbn [batch_reads]. fold k. eapply reads_bind; [eapply reads_bind; [apply get_records_reads; [done|apply NoDup_singleton]|]|].
    + cbn beta. intros ? w2 -> S2. cbn [base.omap list_omap]. rewrite Fk, bool_decide_true by done. apply (reads_bind _ _ _ (fun x => x = (fun v => mkItem v key ns created now) <$> value)).
      * destruct value as [v|]; cbn [fmap option_fmap option_map]; [|apply reads_ret; [apply S2|done]]. eapply reads_bind; [apply (reads_or_raise _ (mkItem v key ns created now)); [apply S2|]; unfold _item; by rewrite Json|].
        intros ? w3 -> S3. by apply reads_ret; [apply S3|].
      * intros ? w3 -> S3. apply (reads_ret _ _ (fun x => x = ([RItem ((fun v => mkItem v key ns created now) <$> value)], []))); [apply S3|done].
    + cbn beta. intros ? w2 -> S2. cbn [fst snd]. by apply reads_ret; [apply S2|].
  - intros ns' key' Ln' Zk' Ne. rewrite Fk. rewrite bool_decide_false; [done|]. intros E. apply Ne. by apply store_key_inj.
Qed.

End StoreTheorems.

(** ** Witnesses *)

#[local] Existing Instances Sdk.ex_server Sdk.ex_laws.

(** A serialiser: parts with their length in unary. *)
Definition uframe (p : bytes) : bytes := replicate (length p) x01 ++ x00 :: p.
Fixpoint ones (l : bytes) : nat * bytes :=
  match l with x01 :: r => let '(n, s) := ones r in (S n, s) | _ :: r => (0%nat, r) | [] => (0%nat, []) end.
Fixpoint uparse (fuel : nat) (l : bytes) : list bytes :=
  match fuel, l with O, _ | _, [] => [] | S f, _ => let '(n, s) := ones l in take n s :: uparse f (drop n s) end.
Fixpoint pairs (l : list bytes) : list (bytes * bytes) := match l with a :: b :: r => (a, b) :: pairs r | _ => [] end.
Fixpoint unpairs (l : list (bytes * bytes)) : list bytes := match l with [] => [] | (a, b) :: r => a :: b :: unpairs r end.

Lemma ones_frame p r : ones (uframe p ++ r) = (length p, p ++ r).
Proof.
  assert (O : forall n s, ones (replicate n x01 ++ x00 :: s) = (n, s)) by (intros n s; induction n as [|n IH]; [done|]; cbn [replicate app ones]; by rewrite IH).
  unfold uframe. rewrite <- app_assoc. apply O.
Qed.

Lemma uparse_frames ps : forall fuel, (length ps <= fuel)%nat -> uparse fuel (concat (uframe <$> ps)) = ps.
Proof.
  induction ps as [|p ps IH]; intros fuel L; [by destruct fuel|]. destruct fuel as [|fuel]; [cbn in L; lia|]. rewrite fmap_cons. cbn [concat]. cbn [uparse].
  destruct (uframe p ++ concat (uframe <$> ps)) as [|c d] eqn:E; [unfold uframe in E; destruct p; discriminate E|]. rewrite <- E, ones_frame, take_app_length, drop_app_length, IH; [done|]. cbn in L. lia.
Qed.

Definition ex_dumps_v (v : byte) : bytes * bytes := (str "v", [v]).
Definition ex_loads_v (x : bytes * bytes) : option byte := head x.2.
Definition ex_dumps_c (c : @Checkpoint unit) : bytes * bytes := (str "c", concat (uframe <$> cp_id c :: unpairs (channel_versions c))).
Definition ex_loads_c (x : bytes * bytes) : option (@Checkpoint unit) := match uparse (length x.2) x.2 with i :: l => Some (mkCheckpoint i (pairs l) tt) | [] => None end.

Lemma ex_serde : Serde ex_dumps_v ex_loads_v ex_dumps_c ex_loads_c ex_dumps_v ex_loads_v.
Proof.
  split; [done| |done|done]. intros [i vs []]. unfold ex_loads_c, ex_dumps_c. cbn [snd cp_id channel_versions]. rewrite uparse_frames.
  - f_equal. f_equal. induction vs as [|[a b] vs IH]; [done|]. cbn. by rewrite IH.
  - generalize (i :: unpairs vs). clear. intros l. induction l as [|p l IH]; [done|]. rewrite fmap_cons. cbn [concat]. rewrite length_app. unfold uframe at 1. rewrite length_app. cbn [length]. lia.
Qed.

Definition ex_conf : Conf := mkConf (str "t") None None.
Definition ex_ck : @Checkpoint unit := mkCheckpoint (str "id1") [(str "ch", str "v1")] tt.
Definition ex_values : list (bytes * byte) := [(str "ch", x07)].
Definition ex_row_le (a b : bytes * bytes * Z * bytes * bytes * bytes) : Prop := True.
#[local] Instance ex_row_le_dec : RelDecision ex_row_le.
Proof. intros a b. left. exact I. Defined.
Definition ex_put : (exn + Conf) * World := put ex_dumps_v ex_dumps_c ex_dumps_v (fun _ m => m) ex_conf ex_ck ex_values x09 [(str "ch", str "v1")] empty_world.

Lemma checkpoint_roundtrip_witness :
  reads (get_tuple ex_loads_v ex_loads_c ex_loads_v ex_row_le 9 (mkConf (str "t") None None)) ex_put.2 (fun x => x = Some (tuple_of (fun _ m => m) ex_conf ex_ck ex_values x09)).
Proof.
  apply (checkpoint_roundtrip ex_dumps_v ex_loads_v ex_dumps_c ex_loads_c ex_dumps_v ex_loads_v (fun _ m => m) ex_row_le ex_serde ex_conf ex_ck ex_values x09 [(str "ch", str "v1")]
    empty_world ex_put.2 (mkConf (str "t") (Some []) (Some (str "id1"))) 9).
  - exact empty_world_ok.
  - split; [vm_compute; reflexivity|]. apply (bool_decide_unpack _). vm_compute. exact I.
  - assert (Vs : NoDup [(str "ch", str "v1")].*1 /\ Forall (fun x : bytes * bytes => sized x.1 /\ sized x.2) [(str "ch", str "v1")]) by (split; [apply NoDup_singleton|constructor; [split; vm_compute; reflexivity|constructor]]).
    apply Build_Fits; [vm_compute; reflexivity..|discriminate|exact Vs| |exact Vs]. split; [constructor; [split; vm_compute; reflexivity|constructor]|]. split; split; vm_compute; reflexivity.
  - assert (E : ex_put.1 = inr (mkConf (str "t") (Some []) (Some (str "id1")))) by (vm_compute; reflexivity). rewrite <- E. apply surjective_pairing.
  - intros x X. by left.
  - constructor.
  - vm_compute. lia.
  - intros kv I. by apply not_elem_of_nil in I.
Defined.

(** Three items, two of them under the label "a". *)
Definition ex_items : list (list bytes * bytes) := [([str "a"], str "y"); ([str "b"], str "x"); ([str "a"; str "b"], str "x")].
Definition ex_records : list (bytes * bytes) := (fun x => (store_key x.1 x.2, str "now")) <$> ex_items.
Definition ex_store : (exn + unit) * World := write_records ex_records [] empty_world.
Definition ex_json (raw : bytes) : option (@Doc unit) := Some (mkDoc [] raw raw).
Definition ex_search (limit : Z) : @SearchOp unit := mkSearch [str "a"] None limit 0.

Lemma ex_store_ok : rs_ok ex_store.2.
Proof.
  destruct (rs_write ex_records [] empty_world) as [r w] eqn:E. destruct (rs_write_law ex_records [] empty_world r w empty_world_ok) as [O _]; [|exact E|].
  - split; [vm_compute; reflexivity|]. apply (bool_decide_unpack _). vm_compute. exact I.
  - unfold ex_store, write_records, call. rewrite E. destruct r; exact O.
Qed.

Lemma ex_store_view : rs_view ex_store.2 = (fun x => (store_key x.1 x.2, str "now")) <$> [([str "a"], str "y"); ([str "a"; str "b"], str "x"); ([str "b"], str "x")].
Proof. vm_compute. reflexivity. Qed.

Lemma search_exact_witness :
  reads (_search (fun _ _ => true) (fun _ => @None unit) (fun _ _ => true) (fun _ _ => true) ex_json 5 (ex_search 7)) ex_store.2
    (fun l => l = [mkItem [] (str "y") [str "a"] (str "now") (str "now"); mkItem [] (str "x") [str "a"; str "b"] (str "now") (str "now")]).
Proof.
  eapply reads_mono; [apply (search_exact (fun _ _ => true) (fun _ => @None unit) (fun _ _ => true) (fun _ _ => true) ex_json (ex_search 7) ex_store.2 5)|].
  - exact ex_store_ok.
  - intros kv I _. rewrite ex_store_view in I. apply list_elem_of_fmap in I as ([ns key] & -> & I). exists ns, key, (mkDoc [] (str "now") (str "now")). split; [done|].
    assert (L : Forall (fun x => Forall label_ok x.1 /\ sized x.2) [([str "a"], str "y"); ([str "a"; str "b"], str "x"); ([str "b"], str "x")]).
    { repeat (constructor; [split; [repeat (constructor; [split; [discriminate|vm_compute; reflexivity]|]); constructor|vm_compute; reflexivity]|]). constructor. }
    rewrite Forall_forall in L. destruct (L _ I) as [L1 L2]. split; [exact L1|]. split; [exact L2|reflexivity].
  - constructor; [split; [discriminate|vm_compute; reflexivity]|constructor].
  - vm_compute. discriminate.
  - intros i _. by exists true.
  - rewrite ex_store_view. cbn. lia.
  - intros l ->. rewrite ex_store_view. vm_compute. reflexivity.
Defined.

(** Keys sort by the length of their parts first: a greater id can come before. *)
Example shorter_id_sorts_first : blt (_key _CP [str "t"; []; str "9"]) (_key _CP [str "t"; []; str "10"]) = true /\ blt (str "10") (str "9") = true.
Proof. split; vm_compute; reflexivity. Qed.

(** A search for no items returns one. *)
Example search_for_none_finds_one :
  match (_search (fun _ _ => true) (fun _ => @None unit) (fun _ _ => true) (fun _ _ => true) ex_json 5 (ex_search 0) ex_store.2).1 with inr l => length l | inl _ => 0%nat end = 1%nat.
Proof. vm_compute. reflexivity. Qed.

End LangGraph.
