(* ===== verification/Adapter.v ===== *)
(** * The engine adapters

    adapters/core/kvcache_core: [KVCacheConnector], the Python side of the C interface of
    Abi.v, and the compressed store and retrieve of kv_compress.py over the codec of
    TensorCodec.v; adapters/sglang/kvcache_sglang: the backend an engine calls and the
    driver that fetches on a pool of worker threads. The adapters of AIBrix, TGI, LMDeploy,
    MII and Dynamo make the same calls under other names.

    A method is a program that calls the C interface and goes on with the reply, so that
    other threads and clients may come between two calls; an exception ends it. Buffers
    that the interface fills are values. SHA-1 and BLAKE2b are parameters.

    The theorems: what an engine stores it retrieves, among the calls of others, if it fits
    in the buffer for the whole chunks ([stored_is_retrieved]); the driver releases every
    handle it looked up exactly once, after its last use ([handles_are_released]). *)

From S2P Require Import Prelude Mtls Locator Lpm StateWal DramTier NvmeTier Ingest ColdTier TierManager HeadlessNode NodeCorrect Abi TensorCodec.
From Stdlib Require Import ZArith Lia.

Open Scope Z_scope.

Module Adapter.

Import Locator Node Abi.
#[local] Notation str := Mtls.str.

(** ** Programs over the C interface *)

Inductive ncall :=
| KvLookup (tokens : list Z)
| KvReserve (l : kv_locator_t) (n : Z)
| KvWrite (addr : Z) (d : bytes)
| KvPublish (h watermark : Z)
| KvSeal (h : Z) (tokens : list Z)
| KvFetch (h len : Z)
| KvWait
| KvRelease (h : Z)
| KvStored (h : Z).

Definition reply (c : ncall) : Type :=
  match c with
  | KvLookup _ => code * option lookup_answer
  | KvReserve _ _ => code * option (Z * kv_buffer)
  | KvWrite _ _ => unit
  | KvFetch _ _ => code * option bytes
  | KvStored _ => code * option Z
  | _ => code
  end.

Inductive exn := KVCacheError (op : bytes) (status : code) | ValueError | RuntimeError | KeyError | OverflowError.

Inductive prog (A : Type) :=
| Ret (a : A)
| Raise (e : exn)
| Do (c : ncall) (k : reply c -> prog A).
#[global] Arguments Ret {A}.
#[global] Arguments Raise {A}.
#[global] Arguments Do {A}.

#[export] Instance prog_ret : MRet prog := @Ret.
#[export] Instance prog_bind : MBind prog := fix go A B f p {struct p} :=
  match p with Ret a => f a | Raise e => Raise e | Do c k => Do c (fun r => go A B f (k r)) end.

(** [try: p except Exception: pass] and [try: p finally: q]. *)
Fixpoint swallow (p : prog unit) : prog unit :=
  match p with Ret a => Ret a | Raise _ => Ret tt | Do c k => Do c (fun r => swallow (k r)) end.
Fixpoint finally {A} (p : prog A) (q : prog unit) : prog A :=
  match p with
  | Ret a => _ ← q; Ret a
  | Raise e => _ ← q; Raise e
  | Do c k => Do c (fun r => finally (k r) q)
  end.

(** The memory of the slots, into which the engine copies. *)
Class Slots (K : Core) := n_write : Z -> bytes -> core -> core.

Section Perform.
Context {K : Core} {SL : Slots K}.

(** One call with the context of the connector. The destination of a fetch is a buffer of
    the process, at some address that is not null. *)
Definition perform (e : env) (ctx : kv_ctx_s) (c : ncall) (n : core) : reply c * core :=
  match c with
  | KvLookup tokens => kv_lookup (Some ctx) tokens n
  | KvReserve l b => kv_reserve e (Some ctx) l b n
  | KvWrite a d => (tt, n_write a d n)
  | KvPublish h w => kv_publish (Some ctx) h w n
  | KvSeal h tokens => kv_seal e (Some ctx) h tokens n
  | KvFetch h len => kv_fetch e (Some ctx) h (mkBuffer 1 len 0) n
  | KvWait => (kv_wait (Some ctx), n)
  | KvRelease h => kv_release (Some ctx) h n
  | KvStored h => (kv_lookup_stored_bytes (Some ctx) h n, n)
  end.

(** A program run without anyone coming between its calls. *)
Fixpoint run {A} (e : env) (ctx : kv_ctx_s) (p : prog A) (n : core) : (exn + A) * core :=
  match p with
  | Ret a => (inr a, n)
  | Raise x => (inl x, n)
  | Do c k => let '(r, n') := perform e ctx c n in run e ctx (k r) n'
  end.
End Perform.

(** ** The connector (connector.py) *)

Definition _ABI_VERSION : Z := 2.

Definition fnv1a64 (data : bytes) : Z :=
  fold_left (fun h ch => Z.land (Z.lxor h (byte_val ch) * 0x100000001B3) 0xFFFFFFFFFFFFFFFF) data 0xCBF29CE484222325.

(** What C reads of a Python string. *)
Fixpoint c_str (s : bytes) : bytes :=
  match s with [] => [] | c :: r => if bool_decide (c = x00) then [] else c :: c_str r end.

(** [__init__]; [node_ok]: the node of the process exists or could be created. *)
Definition connector (tid mid : bytes) (node_ok : bool) : exn + kv_ctx_s :=
  match kv_ctx_open (Some (mkConfig _ABI_VERSION (Some (c_str tid)) (Some (c_str mid)))) node_ok with
  | (KV_OK, Some ctx) => inr ctx
  | (rc, _) => inl (KVCacheError (str "kv_ctx_open") rc)
  end.

(** A sequence of Python integers as an array of [uint32_t]. *)
Definition fits_u32 (t : Z) : bool := (0 <=? t) && (t <? 2 ^ 32).
Definition tok_arr (tokens : list Z) : prog (list Z) := if forallb fits_u32 tokens then Ret tokens else Raise OverflowError.

Definition expect (op : bytes) (rc : code) : prog unit := match rc with KV_OK => Ret tt | _ => Raise (KVCacheError op rc) end.

Section Connector.
Context (sha1 blake2b : bytes -> bytes) (_tid _mid : bytes).

Definition make_locator (tokens : list Z) : prog kv_locator_t :=
  tokens ← tok_arr tokens;
  Ret (mkLocator (take 16 (sha1 _tid)) (fnv1a64 _mid) (blake2b (concat (put_le 4 <$> tokens))) (mkRange 0 0 0 0 0 0) 1 0).

Record LookupResult := mkHit { matched_tokens : Z; handle : Z }.

Definition lookup (tokens : list Z) : prog (option LookupResult) :=
  tokens ← tok_arr tokens;
  Do (KvLookup tokens) (fun r =>
    match r.1 with
    | KV_E_NOT_FOUND => Ret None
    | KV_OK => Ret (Some match r.2 with Some a => mkHit (a_matched_tokens a) (a_handle a) | None => mkHit 0 0 end)
    | rc => Raise (KVCacheError (str "kv_lookup") rc)
    end).

Record ReserveResult := mkReserved { r_handle : Z; slot_addr : Z; slot_bytes : Z }.

Definition reserve (l : kv_locator_t) (n_bytes : Z) : prog ReserveResult :=
  Do (KvReserve l n_bytes) (fun r =>
    _ ← expect (str "kv_reserve") r.1;
    Ret match r.2 with Some (h, b) => mkReserved h (b_addr b) (b_len b) | None => mkReserved 0 0 0 end).

Definition write_into_slot (addr : Z) (data : bytes) : prog unit := Do (KvWrite addr data) (fun _ => Ret tt).
Definition publish (h watermark : Z) : prog unit := Do (KvPublish h watermark) (expect (str "kv_publish")).
Definition seal (h : Z) (tokens : list Z) : prog unit :=
  tokens ← tok_arr tokens; Do (KvSeal h tokens) (expect (str "kv_seal")).

(** What the buffer holds afterwards; the interface fills it from the front. *)
Definition fetch (h : Z) (dst : bytes) : prog bytes :=
  Do (KvFetch h (zlen dst)) (fun r =>
    _ ← expect (str "kv_fetch") r.1;
    Ret match r.2 with Some d => d ++ drop (length d) dst | None => dst end).
Definition wait : prog unit := Do KvWait (expect (str "kv_wait")).
Definition release (h : Z) : prog unit := Do (KvRelease h) (expect (str "kv_release")).
Definition stored_bytes (h : Z) : prog Z :=
  Do (KvStored h) (fun r => _ ← expect (str "kv_lookup_stored_bytes") r.1; Ret (default 0 r.2)).
End Connector.

(** ** Compression (connector.py, kv_compress.py) *)

Section Compress.
Context (sha1 blake2b : bytes -> bytes) (_tid _mid : bytes).
Context {FA : TensorCodec.FloatArith} {FB : TensorCodec.FloatBits FA} (zstd : option ((bytes -> option bytes) * (nat -> bytes -> option bytes))).


Definition compress_kv (values : list TensorCodec.float) (n_tokens elems_per_token bits : Z) (delta : bool) : prog bytes :=
  if negb (zlen values =? n_tokens * elems_per_token) then Raise ValueError
  else if negb (fits_u32 n_tokens && fits_u32 elems_per_token) then Raise OverflowError
  else
    let encode := TensorCodec.kv_kvtensor_encode zstd (Some values) n_tokens elems_per_token bits delta in
    _ ← expect (str "kv_kvtensor_encode(size)") (encode None).1.1;
    let need := default 0 (encode None).1.2 in
    _ ← expect (str "kv_kvtensor_encode") (encode (Some need)).1.1;
    Ret (default (replicate (Z.to_nat need) x00) (encode (Some need)).2).

(** The floats; an element the decoder does not write is zero. *)
Definition decompress_kv (blob : bytes) : prog (list TensorCodec.float * (Z * Z)) :=
  let decode := TensorCodec.kv_kvtensor_decode zstd (Some blob) in
  let shape r := match r with Some s => (TensorCodec.n_tokens s, TensorCodec.elems_per_token s) | None => (0, 0) end in
  _ ← expect (str "kv_kvtensor_decode(shape)") (decode None).1.1;
  let total := (shape (decode None).1.2).1 * (shape (decode None).1.2).2 in
  _ ← expect (str "kv_kvtensor_decode") (decode (Some total)).1.1;
  let out := default [] (decode (Some total)).2 in
  Ret (out ++ replicate (Z.to_nat total - length out) (TensorCodec.of_bits 0), shape (decode (Some total)).1.2).

(** Reserve, copy, publish and seal: the end of every store. *)
Definition commit (tokens : list Z) (payload : bytes) : prog unit :=
  locator ← make_locator sha1 blake2b _tid _mid tokens;
  rsv ← reserve locator (zlen payload);
  if slot_bytes rsv <? zlen payload then Raise RuntimeError
  else
    _ ← write_into_slot (slot_addr rsv) payload;
    _ ← publish (r_handle rsv) (zlen payload);
    seal (r_handle rsv) tokens.

Definition compress_store (tokens : list Z) (kv_bytes : bytes) (bytes_per_token bits : Z) : prog unit :=
  if negb (bytes_per_token mod 4 =? 0) then Raise ValueError
  else if negb (zlen kv_bytes =? zlen tokens * bytes_per_token) then Raise ValueError
  else
    blob ← compress_kv (TensorCodec.get_floats (length kv_bytes / 4) kv_bytes) (zlen tokens) (bytes_per_token / 4) bits true;
    commit tokens blob.

Definition bytearray (n : Z) : bytes := replicate (Z.to_nat n) x00.

Definition compress_retrieve (tokens : list Z) (bytes_per_token : Z) : prog (option bytes) :=
  hit ← lookup tokens;
  match hit with
  | None => Ret None
  | Some hit =>
      stored ← stored_bytes (handle hit);
      buf ← fetch (handle hit) (bytearray stored);
      _ ← wait;
      _ ← release (handle hit);
      floats ← decompress_kv buf;
      Ret (Some (take (Z.to_nat (matched_tokens hit * bytes_per_token)) (TensorCodec.put_floats floats.1)))
  end.

(** ** The backend (adapters/sglang/kvcache_sglang/backend.py) *)

Record Backend := mkBackend { bytes_per_token : Z; compress : bool; compress_bits : Z }.

(** The arguments [__init__] accepts. *)
Definition backend_ok (b : Backend) : bool :=
  (0 <? bytes_per_token b) && negb (compress b && negb (bytes_per_token b mod 4 =? 0)).

(** [lookup] of the backend, which only counts. *)
Definition count (tokens : list Z) : prog Z :=
  result ← lookup tokens;
  match result with
  | None => Ret 0
  | Some hit => _ ← swallow (release (handle hit)); Ret (matched_tokens hit)
  end.

Definition store (b : Backend) (tokens : list Z) (kv_bytes : bytes) : prog unit :=
  if bool_decide (tokens = []) then Raise ValueError
  else if bool_decide (kv_bytes = []) then Raise ValueError
  else if compress b then compress_store tokens kv_bytes (bytes_per_token b) (compress_bits b)
  else commit tokens kv_bytes.

Definition retrieve (b : Backend) (tokens : list Z) : prog (option bytes) :=
  if compress b then compress_retrieve tokens (bytes_per_token b)
  else
    hit ← lookup tokens;
    match hit with
    | None => Ret None
    | Some hit =>
        buf ← fetch (handle hit) (bytearray (matched_tokens hit * bytes_per_token b));
        _ ← wait;
        _ ← release (handle hit);
        Ret (Some buf)
    end.

Definition drop_hint (tokens : list Z) : prog bool := Ret false.
End Compress.

(** ** What is stored is retrieved *)

(** Python's hash is that of C++. *)
Lemma fnv1a64_agrees data : fnv1a64 data = Fnv1a64 data.
Proof.
  unfold fnv1a64, Fnv1a64. generalize 0xCBF29CE484222325 as h. induction data as [|c r IH]; intros h; [done|]. cbn [fold_left].
  change 0xFFFFFFFFFFFFFFFF with (Z.ones 64). rewrite Z.land_ones by lia. apply IH.
Qed.

Lemma fnv1a64_range data : 0 <= fnv1a64 data < 2 ^ 64.
Proof.
  unfold fnv1a64. assert (0 <= 0xCBF29CE484222325 < 2 ^ 64) as H by lia. revert H. generalize 0xCBF29CE484222325 as h.
  induction data as [|c r IH]; intros h H; [done|]. cbn [fold_left]. apply IH.
  change 0xFFFFFFFFFFFFFFFF with (Z.ones 64). rewrite Z.land_ones by lia. apply Z.mod_pos_bound. lia.
Qed.

Section Stored.
Context (sha1 blake2b : bytes -> bytes) (tid mid : bytes).
Context (Blake3_128 : bytes -> bytes) (mmap : bool) (ne : Nvme.env) (ce : Cold.env) (o : TierManager.Options) {C : Cold.IColdTier} `{CL : !Cold.Laws C}.
Context (mk : Cold.St C -> TierManager.Manager C) (c0 : Cold.St C) (memory : bytes) (wal : option StateWal.Wal).

#[local] Instance K : Core := headless Blake3_128 (C := C).
#[local] Instance SK : Slots K := EngineWrite (C := C).

(** The upload a program has begun. *)
Definition own (u : option NodeCorrect.upload) (c : ncall) : reply c -> Node C -> option NodeCorrect.upload :=
  match c with
  | KvReserve _ _ => fun r n => match r.2 with Some (h, _) => NodeCorrect.upload_of h n | None => u end
  | _ => fun _ _ => u
  end.

(** A program among the calls of others, who leave its upload alone: the calls it makes,
    each with the state it is made in, and its outcome. *)
Fixpoint amid {A} (ctx : kv_ctx_s) (u : option NodeCorrect.upload) (p : prog A) (n : Node C) (tr : list (ncall * Node C)) (r : exn + A) (n' : Node C) : Prop :=
  match p with
  | Ret a => tr = [] /\ r = inr a /\ n' = n
  | Raise x => tr = [] /\ r = inl x /\ n' = n
  | Do c k => exists (e : env) n1 tr', tr = (c, n1) :: tr' /\
      match u with Some u => NodeCorrect.others Blake3_128 locator_ok u n n1 | None => n1 = n end /\
      let a := perform e ctx c n1 in amid ctx (own u c a.1 a.2) (k a.1) a.2 tr' r n'
  end.

(** The calls of a program that nobody comes between. *)
Fixpoint calls {A} (e : env) (ctx : kv_ctx_s) (p : prog A) (n : Node C) : list (ncall * Node C) :=
  match p with Ret _ | Raise _ => [] | Do c k => (c, n) :: let a := perform e ctx c n in calls e ctx (k a.1) a.2 end.

Lemma run_amid {A} e ctx (p : prog A) : forall u n, amid ctx u p n (calls e ctx p n) (run e ctx p n).1 (run e ctx p n).2.
Proof.
  induction p as [a|x|c k IH]; intros u n; [done|done|]. cbn. destruct (perform e ctx c n) as [r n'] eqn:P. exists e, n. eexists. split; [done|].
  split; [destruct u; constructor|]. cbv zeta. rewrite P. apply IH.
Qed.

Definition locator_for (tokens : list Z) : kv_locator_t :=
  mkLocator (take 16 (sha1 tid)) (fnv1a64 mid) (blake2b (concat (put_le 4 <$> tokens))) (mkRange 0 0 0 0 0 0) 1 0.

Hypothesis sha1_length : forall b, length (sha1 b) = 20%nat.
Hypothesis blake2b_length : forall b, length (blake2b b) = 16%nat.
Hypothesis Blake3_128_length : forall b, length (Blake3_128 b) = 16%nat.
Hypothesis created : TierManager.Create mmap ne ce o = Some (existT C mk).
Hypothesis sane : NodeCorrect.options_ok ne o.
Hypothesis mapped : zlen memory = Ingest.pool_bytes (TierManager.pinned o).
Notation Reach := (NodeCorrect.reach Blake3_128 locator_ok (Init (mk c0) memory wal)).

Lemma locator_for_ok tokens : locator_ok (locator_for tokens).
Proof.
  unfold locator_for, locator_ok, range_ok, uint. cbn. rewrite length_take, sha1_length, blake2b_length. pose proof (fnv1a64_range mid). repeat split; lia.
Qed.

Lemma reserved_upload now loc b th mh (n : Node C) h slot n1 :
  Reach n -> NodeCorrect.room n -> locator_ok loc -> Reserve now loc b th mh n = ((KV_OK, Some (h, slot)), n1) ->
  exists u, NodeCorrect.upload_of h n1 = Some u.
Proof.
  intros R B Lo Rs. pose proof (NodeCorrect.Reach_inv Blake3_128 mmap ne ce o mk c0 memory wal Blake3_128_length created sane mapped locator_ok n (fun _ X => X) R) as I0.
  destruct (NodeCorrect.Reserve_upload locator_ok _ now loc b th mh n h slot n1 I0 B Lo Rs) as (ih & e & _ & U & _).
  pose proof (NodeCorrect.up_handle _ _ _ _ U : handles_ n1 !! h = Some (IngestHandle loc ih th mh)) as Hh.
  pose proof (NodeCorrect.up_slot _ _ _ _ U : active_ (bufs_ n1) !! ih = Some e) as Ha.
  unfold NodeCorrect.upload_of. rewrite Hh, Ha. by eexists.
Qed.

Lemma commit_calls ctx tokens d n0 tr n5 :
  Reach n0 -> NodeCorrect.room n0 ->
  amid ctx None (commit sha1 blake2b tid mid tokens d) n0 tr (inr tt) n5 ->
  exists (h : Z) slot n1 u n2 n3 n4 (e0 e1 : headless_env (C := C)),
    Reserve (now e0) (locator_for tokens) (zlen d) (tenant_id_hash ctx) (Abi.model_id_hash ctx) n0 = ((KV_OK, Some (h, slot)), n1) /\
    NodeCorrect.upload_of h n1 = Some u /\ zlen d <= Ingest.s_bytes slot /\
    NodeCorrect.others Blake3_128 locator_ok u n1 n2 /\ NodeCorrect.others Blake3_128 locator_ok u (EngineWrite (Ingest.addr slot) d n2) n3 /\
    NodeCorrect.others Blake3_128 locator_ok u (Publish h (zlen d) n3).2 n4 /\
    Seal Blake3_128 (log_ok e1) (now e1) h tokens n4 = (KV_OK, n5) /\ (KvSeal h tokens, n4) ∈ tr.
Proof.
  intros R B. unfold commit, make_locator, tok_arr. destruct (forallb fits_u32 tokens) eqn:Ft; [|by intros (_ & ? & _)]. cbn [mbind prog_bind].
  intros (e0 & n0' & tr1 & -> & -> & H). cbn [perform kv_reserve n_reserve K headless] in H.
  destruct (Reserve (now e0) _ _ _ _ n0) as [[rc os] n1] eqn:Rs. cbn [fst snd] in H.
  assert (rc = KV_OK) as -> by (destruct rc; [done|..]; by destruct H as (_ & ? & _)).
  destruct os as [[h slot]|].
  2: { pose proof (reserve_else (K := K) (CoreLaws := headless_laws Blake3_128) e0 (locator_for tokens) (zlen d) (tenant_id_hash ctx) (Abi.model_id_hash ctx) n0 KV_OK n1) as X.
       cbn [n_reserve K headless] in X. unfold locator_for in X. rewrite Rs in X. by destruct (X eq_refl). }
  destruct (reserved_upload _ _ _ _ _ _ _ _ _ R B (locator_for_ok tokens) Rs) as [u U].
  cbn [expect mbind prog_bind option_fmap option_map fmap slot_bytes slot_addr r_handle b_len b_addr fst snd own] in H. rewrite U in H.
  destruct (Z.ltb_spec (Ingest.s_bytes slot) (zlen d)); [by destruct H as (_ & ? & _)|].
  destruct H as (ew & n2 & tr2 & -> & O2 & ep & n3 & tr3 & -> & O3 & H). cbn [own perform fst snd n_write SK] in O3, H.
  cbn [kv_publish n_publish K headless] in H. destruct (Publish h (zlen d) n3) as [rc n3'] eqn:Pb. cbn [fst snd] in H.
  assert (rc = KV_OK) as -> by (destruct rc; [done|..]; by destruct H as (_ & ? & _)).
  unfold seal, tok_arr in H. rewrite Ft in H. cbn [expect mbind prog_bind] in H. destruct H as (e1 & n4 & tr4 & -> & O4 & H).
  cbn [own perform fst snd kv_seal n_seal K headless] in H, O4. destruct (Seal Blake3_128 (log_ok e1) (now e1) h tokens n4) as [rc n5'] eqn:Se. cbn [fst snd] in H.
  assert (rc = KV_OK) as -> by (destruct rc; [done|..]; by destruct H as (_ & ? & _)).
  destruct H as (-> & _ & ->). exists h, slot, n1, u, n2, n3, n4, e0, e1. split; [exact Rs|]. split; [done|]. split; [done|].
  split; [done|]. split; [done|]. split; [by rewrite Pb|]. split; [done|]. set_solver.
Qed.
(** What a fetch through a read handle of a payload in DRAM answers, by the length of the
    destination. *)
Lemma Fetch_sized lg now i h (len : Z) d (n : Node C) :
  (forall len', zlen d <= len' -> (Fetch lg now i (mkTransfer true true true) h (Some len') n).1 = (KV_OK, Some d)) ->
  (Fetch lg now i (mkTransfer true true true) h (Some len) n).1 = (if len <? zlen d then (KV_E_NOMEM, None) else (KV_OK, Some d)).
Proof.
  intros F. destruct (Z.ltb_spec len (zlen d)) as [L|L]; [|by apply F]. specialize (F (zlen d) ltac:(lia)). unfold Fetch in *.
  destruct (handles_ n !! h) as [[]|]; try done. destruct (TierManager.Fetch _ _ _) as [[[[? x]|] ks] tm]; [|done].
  destruct (zlen d <? zlen x); [done|]. cbn [src_ok dst_ok xfer_ok negb orb fst] in *. injection F as ->. by rewrite (proj2 (Z.ltb_lt _ _) L).
Qed.

Lemma Lookup_handle th mh tokens (n : Node C) a n' :
  Lookup Blake3_128 th mh tokens n = ((KV_OK, Some a), n') -> handles_ n' = <[a_handle a := default (ReadHandle (a_locator a) 0 th mh) (handles_ n' !! a_handle a)]> (handles_ n) /\ is_Some (handles_ n' !! a_handle a) /\ a_handle a = next_handle_ n.
Proof.
  unfold Lookup. destruct tokens; [done|]. destruct (Lpm.leaf _); [|done]. destruct (_ =? 0); [done|]. destruct (heap_ _ !! _); [|done].
  destruct (TryAcquireIfNonZero _); [|done]. intros [= <- <-]. cbn [a_handle a_locator set_px set_handles handles_]. rewrite lookup_insert_eq. by repeat split.
Qed.

Lemma Fetch_handles lg now i x h dst (n : Node C) : handles_ (Fetch lg now i x h dst n).2 = handles_ n.
Proof.
  unfold Fetch. destruct (handles_ n !! h) as [[]|]; try done. destruct (TierManager.Fetch _ _ _) as [[[[? y]|] ks] tm]; [|done].
  destruct (match dst with None => true | Some len => _ end); [done|]. by destruct (_ || _).
Qed.

(** Handles only grow. *)
Lemma apply_next c (n : Node C) : next_handle_ n <= next_handle_ (apply Blake3_128 c n).
Proof.
  destruct c as [th mh ts|nw loc b th mh|a d|h w|lg nw i x h dst|lg nw h ts|lg nw h pa|lg nw io id d|lg nw id|h|lg nw|nw]; cbn [apply].
  - unfold Lookup. destruct ts; [done|]. destruct (Lpm.leaf _); [|done]. destruct (_ =? 0); [done|]. destruct (heap_ _ !! _); [|done]. destruct (TryAcquireIfNonZero _); [cbn; lia|done].
  - unfold Reserve. destruct (b =? 0); [done|]. destruct (Ingest.Reserve _ _ _ _) as [ih p1]. destruct (ih =? _); [done|]. destruct (Ingest.GetSlot _ _) as [slot|]; [|done].
    destruct (_ <? b); [done|]. cbn. lia.
  - done.
  - unfold Publish. by destruct (handles_ n !! h) as [[]|].
  - pose proof (fetch_issued (K := K) (mkEnv lg nw i x 0) h (mkBuffer (match dst with None => 0 | Some _ => 1 end) (default 0 dst) 0) n) as E. cbn in E. destruct dst; cbn in E; lia.
  - unfold Seal. destruct (handles_ n !! h) as [[]|]; try done. destruct (_ <? _)%nat; [done|]. by rewrite SealCommit_issued.
  - unfold SealByChunkPath. destruct (handles_ n !! h) as [[]|]; try done. by rewrite SealCommit_issued.
  - unfold StatePut. destruct (wal_ n); [|done]. destruct (StateWal.Append _ _ _ _ _) as [[] w1]; [|done]. cbn [snd]. by rewrite (stage_issued lg).
  - unfold StateGet. repeat case_match; try done; cbn [snd]; by rewrite ?(stage_issued lg).
  - pose proof (release_issued (K := K) h n) as E. cbn in E. lia.
  - done.
  - done.
Qed.

Lemma reach_next (n : Node C) : Reach n -> 0 < next_handle_ n.
Proof. induction 1 as [|n c _ IH _ _]; [done|]. pose proof (apply_next c n). lia. Qed.

Lemma others_next u (n n' : Node C) : NodeCorrect.others Blake3_128 locator_ok u n n' -> next_handle_ n <= next_handle_ n'.
Proof. induction 1 as [|n' c _ IH _ _ _]; [done|]. pose proof (apply_next c n'). lia. Qed.

(** A payload that a program committed is found and fetched. *)
Lemma commit_found ctx tokens d n0 tr n5 :
  Reach n0 -> NodeCorrect.room n0 -> d <> [] -> (Lpm.kChunkTokens <= length tokens)%nat -> zlen tokens < 2 ^ 32 ->
  amid ctx None (commit sha1 blake2b tid mid tokens d) n0 tr (inr tt) n5 ->
  (forall h n4, (KvSeal h tokens, n4) ∈ tr -> TierManager.dram_at (tm_ n4) (LocatorContentKey (locator_for tokens)) = None) ->
  exists hr n6, Lookup Blake3_128 (tenant_id_hash ctx) (Abi.model_id_hash ctx) tokens n5 = ((KV_OK, Some (mkLookup (locator_for tokens) hr (16 * NodeCorrect.whole tokens))), n6) /\
    0 < hr /\ HandleStoredBytes hr n6 = (KV_OK, zlen d) /\ (is_Some (handles_ n6 !! hr) /\ delete hr (handles_ n6) = handles_ n5) /\
    forall lg i now len, (Fetch lg now i (mkTransfer true true true) hr (Some len) n6).1 = (if len <? zlen d then (KV_E_NOMEM, None) else (KV_OK, Some d)).
Proof.
  intros R B Nd L16 L32 Am Ab. destruct (commit_calls _ _ _ _ _ _ R B Am) as (h & slot & n1 & u & n2 & n3 & n4 & e0 & e1 & Rs & U & Ld & O2 & O3 & O4 & Se & Tr).
  assert (0 < zlen d <= Ingest.s_bytes slot) as Ld' by (destruct d; [done|cbn in *; lia]).
  destruct (NodeCorrect.upload_sealed Blake3_128 mmap ne ce o mk c0 memory wal Blake3_128_length created sane mapped _ _ _ _ _ _ _ _ _ _ _ _ _ _ _ _ _ _
    R B (locator_for_ok tokens) Rs U O2 Ld' O3 O4 L16 L32 (Ab _ _ Tr) Se) as (I5 & _).
  destruct (NodeCorrect.upload_roundtrip Blake3_128 mmap ne ce o mk c0 memory wal Blake3_128_length created sane mapped _ _ _ _ _ _ _ _ _ _ _ _ _ _ _ _ _ _
    R B (locator_for_ok tokens) Rs U O2 Ld' O3 O4 L16 L32 (Ab _ _ Tr) Se) as (_ & _ & hr & n6 & Lk & Sb & F).
  exists hr, n6. split; [done|]. destruct (Lookup_handle _ _ _ _ _ _ Lk) as (Hh & Hs & Hn). cbn [a_handle a_locator] in *. split; [|split; [done|split; [split; [done|]|]]].
  - rewrite Hn. pose proof (reach_next n0 R). pose proof (others_next _ _ _ O2). pose proof (others_next _ _ _ O3). pose proof (others_next _ _ _ O4).
    pose proof (apply_next (CReserve (now e0) (locator_for tokens) (zlen d) (tenant_id_hash ctx) (Abi.model_id_hash ctx)) n0) as A1. cbn [apply] in A1. rewrite Rs in A1.
    pose proof (apply_next (CWrite (Ingest.addr slot) d) n2) as A2. pose proof (apply_next (CPublish h (zlen d)) n3) as A3.
    pose proof (apply_next (CSeal (log_ok e1) (now e1) h tokens) n4) as A4. cbn [apply] in A2, A3, A4. rewrite Se in A4. cbn [snd] in *. lia.
  - rewrite Hh, delete_insert_id; [done|]. rewrite Hn. by eapply NodeCorrect.fresh_handle.
  - intros lg i nw len. apply Fetch_sized. intros. by apply F.
Qed.
Lemma Release_handle h (n : Node C) : is_Some (handles_ n !! h) -> exists n', Release h n = (KV_OK, n') /\ handles_ n' = delete h (handles_ n).
Proof. intros [s E]. unfold Release. rewrite E. destruct s as [|]; [destruct (_ =? 0)|]; by eexists. Qed.

Lemma lookup_run e ctx tokens n a n' :
  forallb fits_u32 tokens = true -> Lookup Blake3_128 (tenant_id_hash ctx) (Abi.model_id_hash ctx) tokens n = ((KV_OK, Some a), n') ->
  forall B (k : option LookupResult -> prog B), run e ctx (lookup tokens ≫= k) n = run e ctx (k (Some (mkHit (a_matched_tokens a) (a_handle a)))) n'.
Proof. intros F L B k. unfold lookup, tok_arr. rewrite F. cbn. by rewrite L. Qed.

(** A fetch into a new buffer, the wait and the release. *)
Lemma fetch_run (e : headless_env (C := C)) ctx h len n d :
  0 <= len -> x_io e = mkTransfer true true true -> is_Some (handles_ n !! h) ->
  (forall lg i now l, (Fetch lg now i (mkTransfer true true true) h (Some l) n).1 = (if l <? zlen d then (KV_E_NOMEM, None) else (KV_OK, Some d))) ->
  forall B (k : bytes -> prog B),
  let r := run e ctx (buf ← fetch h (bytearray len); _ ← wait; _ ← release h; k buf) n in
  if len <? zlen d then r.1 = inl (KVCacheError (str "kv_fetch") KV_E_NOMEM)
  else exists n', handles_ n' = delete h (handles_ n) /\ r = run e ctx (k (d ++ bytearray (len - zlen d))) n'.
Proof.
  intros L X Hh F B k r. subst r. unfold fetch. cbn. assert (zlen (bytearray len) = len) as -> by (unfold bytearray; rewrite length_replicate; lia).
  rewrite X. specialize (F (log_ok e) (f_io e) (now e) len). pose proof (Fetch_handles (log_ok e) (now e) (f_io e) (mkTransfer true true true) h (Some len) n) as Fh.
  destruct (Fetch _ _ _ _ _ _ _) as [[rc od] n7]. cbn [fst snd] in *. destruct (Z.ltb_spec len (zlen d)) as [Lt|Ge]; injection F as -> ->; [done|]. cbn.
  destruct (Release_handle h n7) as (n8 & -> & Eh); [by rewrite Fh|]. exists n8. cbn. split; [by rewrite Eh, Fh|]. do 4 f_equal.
  unfold bytearray. rewrite drop_replicate. f_equal. lia.
Qed.

Section Codec.
Context {FA : TensorCodec.FloatArith} {FB : TensorCodec.FloatBits FA} (zstd : option ((bytes -> option bytes) * (nat -> bytes -> option bytes))).

Lemma commit_fits ctx tokens d n0 tr n5 : amid ctx None (commit sha1 blake2b tid mid tokens d) n0 tr (inr tt) n5 -> forallb fits_u32 tokens = true.
Proof. unfold commit, make_locator, tok_arr. destruct (forallb fits_u32 tokens); [done|by intros (_ & ? & _)]. Qed.

(** [C12] What an engine stores it retrieves. With compression off and 16 or more tokens: after a
    store of a payload that returned, among the calls of other clients, and whose key was
    not in DRAM when it sealed, a retrieve of the same tokens, alone in the state after the
    store and its transfer succeeding, returns the payload, filled up with zeros to the size
    of the whole chunks, and leaves no handle open; a payload larger than that, which the
    tokens of a last partial chunk make it, cannot be retrieved. *)
Theorem stored_is_retrieved ctx b tokens kv n0 tr n5 (e : headless_env (C := C)) :
  compress b = false -> 0 < bytes_per_token b -> Reach n0 -> NodeCorrect.room n0 -> (Lpm.kChunkTokens <= length tokens)%nat -> zlen tokens < 2 ^ 32 ->
  amid ctx None (store sha1 blake2b tid mid zstd b tokens kv) n0 tr (inr tt) n5 ->
  (forall h n4, (KvSeal h tokens, n4) ∈ tr -> TierManager.dram_at (tm_ n4) (LocatorContentKey (locator_for tokens)) = None) ->
  x_io e = mkTransfer true true true ->
  let cap := 16 * NodeCorrect.whole tokens * bytes_per_token b in
  let r := run e ctx (retrieve zstd b tokens) n5 in
  if cap <? zlen kv then r.1 = inl (KVCacheError (str "kv_fetch") KV_E_NOMEM)
  else r.1 = inr (Some (kv ++ bytearray (cap - zlen kv))) /\ handles_ r.2 = handles_ n5.
Proof.
  intros Nc Bp R B L16 L32 Am Ab X cap r. subst r. unfold store in Am. rewrite Nc in Am. do 2 (case_bool_decide; [by destruct Am as (_ & ? & _)|]).
  destruct (commit_found _ _ _ _ _ _ R B ltac:(done) L16 L32 Am Ab) as (hr & n6 & Lk & _ & _ & (Hs & Hd) & F). unfold retrieve. rewrite Nc.
  rewrite (lookup_run _ _ _ _ _ _ (commit_fits _ _ _ _ _ _ Am) Lk). cbn [a_matched_tokens a_handle matched_tokens handle].
  pose proof (fetch_run e ctx hr cap n6 kv ltac:(unfold cap, NodeCorrect.whole; nia) X Hs F (option bytes) (fun buf => Ret (Some buf))) as Fr. fold cap.
  cbv zeta in Fr. destruct (cap <? zlen kv); [done|]. destruct Fr as (n' & Eh & ->). cbn [run fst snd]. by rewrite Eh, Hd.
Qed.

Lemma compress_decompress (L : TensorCodec.FloatBitsLaws FB) values T E b :
  let p := TensorCodec.mkParams b true true in
  TensorCodec.zstd_ok zstd -> TensorCodec.ok_shape (TensorCodec.mkShape T E) -> b = 8 \/ b = 4 -> zlen values = T * E ->
  exists blob, compress_kv zstd values T E b true = Ret blob /\ blob <> [] /\
    decompress_kv zstd blob = Ret (concat (TensorCodec.quantise_tensor p (Z.to_nat E) (TensorCodec.reshape (Z.to_nat T) (Z.to_nat E) values)).2, (T, E)).
Proof.
  intros p Hz Hs Hb Lv. destruct (TensorCodec.encode_decode L zstd values (TensorCodec.mkShape T E) p Hz Hs Hb) as (blob & En & De); [destruct Hs; cbn in *; nia|].
  pose proof (TensorCodec.decode_sized zstd (fun _ => true) blob) as Sz. change (TensorCodec.DecodeKvTensorIn zstd (fun _ => true) blob) with (TensorCodec.DecodeKvTensor zstd blob) in Sz. rewrite De in Sz. destruct Sz as [_ Sz]. cbn [TensorCodec.n_tokens TensorCodec.elems_per_token] in *.
  set (back := concat _) in *. destruct Hs as [HT HE]. cbn in HT, HE.
  assert (forall cap, TensorCodec.kv_kvtensor_encode zstd (Some values) T E b true cap =
    match cap with None => (KV_OK, Some (zlen blob), None) | Some c => if c <? zlen blob then (KV_E_NOMEM, Some (zlen blob), None) else (KV_OK, Some (zlen blob), Some blob) end) as Ec.
  { intros cap. unfold TensorCodec.kv_kvtensor_encode. fold p. rewrite En. destruct Hb as [-> | ->]; cbn [negb Z.eqb andb orb];
      rewrite (proj2 (Z.eqb_neq T 0)), (proj2 (Z.eqb_neq E 0)) by lia; by destruct cap. }
  exists blob. split; [|split].
  - unfold compress_kv, fits_u32. rewrite Lv, Z.eqb_refl. cbn [negb].
    rewrite !(proj2 (Z.leb_le 0 _)), !(proj2 (Z.ltb_lt _ (2 ^ 32))) by lia. cbn [andb negb]. cbv zeta. rewrite !Ec. cbn. by rewrite Z.ltb_irrefl.
  - intros ->. by vm_compute in De.
  - assert (TensorCodec.kv_kvtensor_decode zstd (Some blob) (Some (T * E)) = (KV_OK, Some (TensorCodec.mkShape T E), Some back)) as Dk
      by (unfold TensorCodec.kv_kvtensor_decode; rewrite De, Sz, Z.ltb_irrefl; done).
    destruct (TensorCodec.kvtensor_decode_sized zstd blob _ _ _ Dk) as [Dn _]. unfold decompress_kv. cbv zeta. rewrite Dn.
    cbn [fst snd expect mbind prog_bind TensorCodec.n_tokens TensorCodec.elems_per_token]. rewrite Dk.
    cbn [fst snd expect mbind prog_bind TensorCodec.n_tokens TensorCodec.elems_per_token default].
    unfold id. replace (Z.to_nat (T * E) - length back)%nat with O by lia. cbn [replicate]. by rewrite app_nil_r.
Qed.

(** With compression the reconstruction comes back, cut to the whole chunks. *)
Theorem compressed_is_retrieved (L : TensorCodec.FloatBitsLaws FB) ctx b tokens kv n0 tr n5 (e : headless_env (C := C)) :
  compress b = true -> 0 < bytes_per_token b < 2 ^ 32 -> compress_bits b = 8 \/ compress_bits b = 4 -> TensorCodec.zstd_ok zstd ->
  Reach n0 -> NodeCorrect.room n0 -> (Lpm.kChunkTokens <= length tokens)%nat -> zlen tokens < 2 ^ 32 ->
  amid ctx None (store sha1 blake2b tid mid zstd b tokens kv) n0 tr (inr tt) n5 ->
  (forall h n4, (KvSeal h tokens, n4) ∈ tr -> TierManager.dram_at (tm_ n4) (LocatorContentKey (locator_for tokens)) = None) ->
  x_io e = mkTransfer true true true ->
  let E := Z.to_nat (bytes_per_token b / 4) in
  let rows := TensorCodec.reshape (length tokens) E (TensorCodec.get_floats (length kv / 4) kv) in
  let back := concat (TensorCodec.quantise_tensor (TensorCodec.mkParams (compress_bits b) true true) E rows).2 in
  let r := run e ctx (retrieve zstd b tokens) n5 in
  r.1 = inr (Some (take (Z.to_nat (16 * NodeCorrect.whole tokens * bytes_per_token b)) (TensorCodec.put_floats back))) /\ handles_ r.2 = handles_ n5.
Proof.
  intros Nc Bp Bits Hz R B L16 L32 Am Ab X E rows back r. subst r. unfold store in Am. rewrite Nc in Am. do 2 (case_bool_decide; [by destruct Am as (_ & ? & _)|]).
  unfold compress_store in Am. destruct (Z.eqb_spec (bytes_per_token b mod 4) 0) as [M4|]; [|by destruct Am as (_ & ? & _)].
  destruct (Z.eqb_spec (zlen kv) (zlen tokens * bytes_per_token b)) as [Lkv|]; [|by destruct Am as (_ & ? & _)]. cbn [negb] in Am.
  assert (bytes_per_token b = 4 * (bytes_per_token b / 4)) as B4 by (apply Z.div_exact; lia). unfold Lpm.kChunkTokens in L16.
  destruct (compress_decompress L (TensorCodec.get_floats (length kv / 4) kv) (zlen tokens) (bytes_per_token b / 4) (compress_bits b) Hz) as (blob & Co & Nb & De).
  - split; cbn; lia.
  - done.
  - unfold TensorCodec.get_floats. rewrite length_fmap, TensorCodec.length_reshape, Nat2Z.inj_div, Lkv, B4 at 1.
    replace (zlen tokens * (4 * (bytes_per_token b / 4))) with (zlen tokens * (bytes_per_token b / 4) * Z.of_nat 4) by lia. by rewrite Z.div_mul by lia.
  - rewrite Nat2Z.id in De. fold E rows back in De. rewrite Co in Am. cbn [mbind prog_bind] in Am.
    destruct (commit_found _ _ _ _ _ _ R B Nb L16 L32 Am Ab) as (hr & n6 & Lk & _ & Sb & (Hs & Hd) & F). unfold retrieve, compress_retrieve. rewrite Nc.
    rewrite (lookup_run _ _ _ _ _ _ (commit_fits _ _ _ _ _ _ Am) Lk). cbn [a_matched_tokens a_handle matched_tokens handle].
    set (rest := fun buf => floats ← decompress_kv zstd buf; Ret (Some (take (Z.to_nat (16 * NodeCorrect.whole tokens * bytes_per_token b)) (TensorCodec.put_floats floats.1)))).
    unfold stored_bytes. cbn [mbind prog_bind run perform kv_lookup_stored_bytes n_stored_bytes K headless]. rewrite Sb. cbn [fst snd expect mbind prog_bind default].
    pose proof (fetch_run e ctx hr (zlen blob) n6 blob ltac:(lia) X Hs F (option bytes) rest) as Fr.
    cbv zeta in Fr. rewrite Z.ltb_irrefl in Fr. destruct Fr as (n' & Eh & Fr). unfold id. unfold rest in Fr. rewrite Fr.
    replace (blob ++ bytearray (zlen blob - zlen blob)) with blob by (rewrite Z.sub_diag; cbn; by rewrite app_nil_r). rewrite De.
    cbn [mbind prog_bind run fst snd]. by rewrite Eh, Hd.
Qed.
End Codec.
End Stored.

(** *** Examples *)

Definition ex_sha1 (b : bytes) : bytes := take 20 (b ++ replicate 20 x00).
Definition ex_ctx : kv_ctx_s := mkCtx (str "t") (str "m") (Fnv1a64 (str "m")) (Fnv1a64 (str "t")) 0.
Definition ex_env : headless_env (C := TierManager.w_C) := mkEnv NodeCorrect.yes 0 TierManager.w_io (mkTransfer true true true) 0.
#[local] Instance ex_K : Core := headless Lpm.pad16 (C := TierManager.w_C).
#[local] Instance ex_S : Slots ex_K := EngineWrite (C := TierManager.w_C).

Notation ex_store := (store ex_sha1 Lpm.pad16 (str "t") (str "m") (FB := TensorCodec.float32_bits) None).
Notation ex_retrieve := (retrieve (FB := TensorCodec.float32_bits) None).

Example connected : connector (str "t") (str "m") true = inr ex_ctx.
Proof. vm_compute. reflexivity. Qed.

Lemma stored_is_retrieved_witness :
  let b := mkBackend 1 false 8 in let n := (run ex_env ex_ctx (ex_store b Lpm.tokens16 [x01; x02]) NodeCorrect.w_boot).2 in
  (run ex_env ex_ctx (ex_retrieve b Lpm.tokens16) n).1 = inr (Some [x01; x02; x00; x00; x00; x00; x00; x00; x00; x00; x00; x00; x00; x00; x00; x00]) /\
  handles_ (C := TierManager.w_C) (run ex_env ex_ctx (ex_retrieve b Lpm.tokens16) n).2 = handles_ (C := TierManager.w_C) n.
Proof.
  intros b n.
  apply (stored_is_retrieved ex_sha1 Lpm.pad16 (str "t") (str "m") Lpm.pad16 true Nvme.w_env TierManager.w_cenv TierManager.w_options (CL := TierManager.w_laws)
    TierManager.w_new (∅ : Cold.Files) NodeCorrect.w_memory (Some NodeCorrect.w_wal)
    (fun b => ltac:(unfold ex_sha1; rewrite length_take, length_app, length_replicate; lia)) Lpm.pad16_length Lpm.pad16_length TierManager.w_create NodeCorrect.w_options_ok eq_refl
    (FB := TensorCodec.float32_bits) None ex_ctx b Lpm.tokens16 [x01; x02] NodeCorrect.w_boot (calls Lpm.pad16 ex_env ex_ctx (ex_store b Lpm.tokens16 [x01; x02]) NodeCorrect.w_boot) n ex_env).
  - reflexivity.
  - reflexivity.
  - constructor.
  - apply NodeCorrect.w_room; [vm_compute; auto|vm_compute; reflexivity].
  - vm_compute. lia.
  - vm_compute. reflexivity.
  - pose proof (run_amid Lpm.pad16 ex_env ex_ctx (ex_store b Lpm.tokens16 [x01; x02]) None NodeCorrect.w_boot) as X.
    assert ((run ex_env ex_ctx (ex_store b Lpm.tokens16 [x01; x02]) NodeCorrect.w_boot).1 = inr tt) as E by (vm_compute; reflexivity). exact (eq_ind _ (fun r => amid _ _ _ _ _ _ r _) X _ E).
  - intros h n4 I. assert (forallb (fun x => match x.1 with KvSeal _ _ => bool_decide (TierManager.dram_at (tm_ x.2) (LocatorContentKey (locator_for ex_sha1 Lpm.pad16 (str "t") (str "m") Lpm.tokens16)) = None) | _ => true end)
      (calls Lpm.pad16 ex_env ex_ctx (ex_store b Lpm.tokens16 [x01; x02]) NodeCorrect.w_boot) = true) as F by (vm_compute; reflexivity).
    rewrite forallb_forall in F. apply list_elem_of_In in I. exact (bool_decide_eq_true_1 _ (F _ I)).
  - reflexivity.
Defined.

(** A node with slots of 32 bytes. *)
Definition ex_options : TierManager.Options :=
  TierManager.mkOptions (Ingest.mkPinnedOptions 64 32) (Dram.mkOptions 1024 4 None) Nvme.w_options true TierManager.w_cold true true true true.
Definition ex_new (s0 : Cold.St TierManager.w_C) : TierManager.Manager TierManager.w_C :=
  TierManager.mkManager ex_options (Ingest.mkPinned 32 2 [0; 1] 0) Dram.empty_tier (Some Nvme.w_tier) (Some s0).
Definition ex_memory : bytes := replicate 64 x00.
Definition ex_node : Node TierManager.w_C := Init (ex_new (∅ : Cold.Files)) ex_memory None.

Lemma ex_create : TierManager.Create true Nvme.w_env TierManager.w_cenv ex_options = Some (existT TierManager.w_C ex_new).
Proof. reflexivity. Qed.

Lemma ex_options_ok : NodeCorrect.options_ok Nvme.w_env ex_options.
Proof. split; [exact TierManager.w_sane|]. vm_compute. repeat split; congruence. Qed.

(** An engine stores a byte for each of 17 tokens, the last of which begins a chunk. The
    retrieve sizes its buffer for the 16 tokens that match; the fetch refuses it, and the
    handle of the lookup stays open. *)
Example partial_chunk_is_lost :
  let b := mkBackend 1 false 8 in let tokens := replicate 17 7 in
  let '(stored, n) := run ex_env ex_ctx (ex_store b tokens (replicate 17 x05)) ex_node in
  let '(back, n') := run ex_env ex_ctx (ex_retrieve b tokens) n in
  stored = inr tt /\ back = inl (KVCacheError (str "kv_fetch") KV_E_NOMEM) /\ size (handles_ (C := TierManager.w_C) n) = O /\ size (handles_ (C := TierManager.w_C) n') = 1%nat.
Proof. vm_compute. repeat split; reflexivity. Qed.

(** ** The driver (adapters/sglang/kvcache_sglang/async_load.py) *)

(** A job of the pool: the handle it fetches through, its staging buffer, which it shares
    with the entry of its request, and its outcome once it is done. *)
Record Job := mkJob { j_handle : Z; staging : bytes; outcome : option (option exn) }.
Record Entry := mkEntry { future : nat; e_handle : Z; e_matched : Z; finished : bool }.

(** What happened to a handle. *)
Inductive event := Looked (h : Z) | Fetched (h : Z) (buf : exn + bytes) | Released (h : Z).

Section Driver.
Context {K : Core} {SL : Slots K} (ctx : kv_ctx_s) (bytes_per_token : Z).

(** The driver with its pool, which [close] shuts, and the node; [events] is their history. *)
Record Driver := mkDriver { _state : gmap bytes Entry; jobs : list Job; shut : bool; node : core; events : list event }.

Definition set_node (c : core) (evs : list event) (d : Driver) : Driver := mkDriver (_state d) (jobs d) (shut d) c (events d ++ evs).
Definition set_state (s : gmap bytes Entry) (d : Driver) : Driver := mkDriver s (jobs d) (shut d) (node d) (events d).

Definition outcome_of (d : Driver) (s : Entry) : option (option exn) := jobs d !! future s ≫= outcome.
Definition staged (d : Driver) (s : Entry) : bytes := default [] (staging <$> jobs d !! future s).

Definition release_quietly (e : env) (h : Z) (d : Driver) : Driver := set_node (run e ctx (swallow (release h)) (node d)).2 [Released h] d.

(** A call that blocks is [None] until a worker has moved on. *)
Definition cancel (e : env) (rid : bytes) (d : Driver) : option Driver :=
  match _state d !! rid with
  | None => Some d
  | Some s => match outcome_of d s with
              | None => None
              | Some _ => Some (release_quietly e (e_handle s) (set_state (delete rid (_state d)) d))
              end
  end.

Definition kick_off (e : env) (rid : bytes) (tokens : list Z) (d : Driver) : option ((exn + Z) * Driver) :=
  d ← cancel e rid d;
  let '(hit, c) := run e ctx (lookup tokens) (node d) in
  match hit with
  | inl x => Some (inl x, set_node c [] d)
  | inr None => Some (inr 0, set_node c [] d)
  | inr (Some hit) =>
      let d := set_node c [Looked (handle hit)] d in
      if matched_tokens hit =? 0 then Some (inr 0, release_quietly e (handle hit) d)
      else if shut d then Some (inl RuntimeError, d)
      else
        let job := mkJob (handle hit) (bytearray (matched_tokens hit * bytes_per_token)) None in
        let entry := mkEntry (length (jobs d)) (handle hit) (matched_tokens hit) false in
        Some (inr (matched_tokens hit), mkDriver (<[rid := entry]> (_state d)) (jobs d ++ [job]) (shut d) (node d) (events d))
  end.

(** A worker runs the job: [_fetch_one]. *)
Definition work (e : env) (j : nat) (d : Driver) : option Driver :=
  match jobs d !! j with
  | Some (mkJob h buf None) =>
      let '(r, c) := run e ctx (buf ← fetch h buf; _ ← wait; Ret buf) (node d) in
      let job := match r with inl x => mkJob h buf (Some (Some x)) | inr buf => mkJob h buf (Some None) end in
      Some (mkDriver (_state d) (<[j := job]> (jobs d)) (shut d) c (events d ++ [Fetched h r]))
  | _ => None
  end.

Fixpoint finished_from (rids : list bytes) (out : gset bytes) (d : Driver) : (exn + gset bytes) * Driver :=
  match rids with
  | [] => (inr out, d)
  | rid :: rids =>
      match _state d !! rid with
      | None => finished_from rids out d
      | Some s =>
          if finished s then finished_from rids ({[rid]} ∪ out) d
          else match outcome_of d s with
               | None => finished_from rids out d
               | Some (Some x) => (inl x, d)
               | Some None => finished_from rids ({[rid]} ∪ out) (set_state (<[rid := mkEntry (future s) (e_handle s) (e_matched s) true]> (_state d)) d)
               end
      end
  end.
Definition finished_ids (candidates : option (list bytes)) (d : Driver) : (exn + gset bytes) * Driver :=
  finished_from (default (elements (dom (_state d))) candidates) ∅ d.

Definition pop (e : env) (rid : bytes) (d : Driver) : option ((exn + option bytes) * Driver) :=
  match _state d !! rid with
  | None => Some (inr None, d)
  | Some s =>
      let d := set_state (delete rid (_state d)) d in
      r ← outcome_of d s;
      let d := release_quietly e (e_handle s) d in
      Some (match r with Some x => inl x | None => inr (Some (staged d s)) end, d)
  end.

Definition in_flight (d : Driver) : nat := size (_state d).

Fixpoint cancel_all (e : env) (rids : list bytes) (d : Driver) : option Driver :=
  match rids with [] => Some d | rid :: rids => d ← cancel e rid d; cancel_all e rids d end.
Definition close (e : env) (d : Driver) : option Driver :=
  d ← cancel_all e (elements (dom (_state d))) d; Some (mkDriver (_state d) (jobs d) true (node d) (events d)).

(** The calls of the engine's thread, the steps of the workers and of other clients. *)
Inductive act :=
| AKickOff (rid : bytes) (tokens : list Z) | AFinished (candidates : option (list bytes)) | APop (rid : bytes) | ACancel (rid : bytes) | AClose
| AWork (j : nat)
| AOther (f : core -> core).

Definition act_step (a : env * act) (d : Driver) : option Driver :=
  match a.2 with
  | AKickOff rid tokens => snd <$> kick_off a.1 rid tokens d
  | AFinished cs => Some (finished_ids cs d).2
  | APop rid => snd <$> pop a.1 rid d
  | ACancel rid => cancel a.1 rid d
  | AClose => close a.1 d
  | AWork j => work a.1 j d
  | AOther f => Some (set_node (f (node d)) [] d)
  end.
Fixpoint acts (l : list (env * act)) (d : Driver) : option Driver :=
  match l with [] => Some d | a :: l => act_step a d ≫= acts l end.

Definition new_driver (c : core) : Driver := mkDriver ∅ [] false c [].

(** *** Handles *)

(** A handle is looked up once, and fetched through and released only while it is open. *)
Definition allowed (l : list event) (x : event) : Prop :=
  match x with Looked h => Looked h ∉ l | Fetched h _ | Released h => Looked h ∈ l /\ Released h ∉ l end.
Inductive orderly : list event -> Prop :=
| orderly_nil : orderly []
| orderly_snoc l x : orderly l -> allowed l x -> orderly (l ++ [x]).

Context {KL : CoreLaws K}.

(** Other clients get handles of their own, and nobody kicks off after closing. *)
Definition proper (a : env * act) (d : Driver) : Prop :=
  match a.2 with AKickOff _ _ => shut d = false | AOther f => forall c, issued c <= issued (f c) | _ => True end.
Inductive reaches (d0 : Driver) : Driver -> Prop :=
| reaches_start : reaches d0 d0
| reaches_act d a d' : reaches d0 d -> proper a d -> act_step a d = Some d' -> reaches d0 d'.

Record DInv (d : Driver) : Prop := {
  v_orderly : orderly (events d);
  v_issued : forall h, Looked h ∈ events d -> h < issued (node d);
  v_open : forall h, Looked h ∈ events d -> Released h ∈ events d \/ exists rid s, _state d !! rid = Some s /\ e_handle s = h;
  v_held : forall rid s, _state d !! rid = Some s -> Looked (e_handle s) ∈ events d /\ Released (e_handle s) ∉ events d;
  v_apart : forall rid rid' s s', _state d !! rid = Some s -> _state d !! rid' = Some s' -> e_handle s = e_handle s' -> rid = rid';
  v_job : forall rid s, _state d !! rid = Some s -> exists job, jobs d !! future s = Some job /\ j_handle job = e_handle s;
  v_pending : forall j job, jobs d !! j = Some job -> outcome job = None -> exists rid s, _state d !! rid = Some s /\ future s = j;
  v_done : forall j job r, jobs d !! j = Some job -> outcome job = Some r ->
    Fetched (j_handle job) (match r with Some x => inl x | None => inr (staging job) end) ∈ events d }.

Lemma run_release e h c : issued (run e ctx (swallow (release h)) c).2 = issued c.
Proof. cbn. pose proof (release_issued h c) as X. destruct (n_release h c) as [rc c']. cbn in *. by destruct rc. Qed.

Lemma run_lookup e tokens c r c' : run e ctx (lookup tokens) c = (r, c') ->
  match r with inr (Some hit) => handle hit = issued c /\ issued c' = issued c + 1 | _ => issued c' = issued c end.
Proof.
  unfold lookup, tok_arr. destruct (forallb fits_u32 tokens); [|by intros [= <- <-]]. cbn. destruct (n_lookup _ _ _ _) as [[rc [a|]] c1] eqn:L; cbn.
  - pose proof (lookup_error _ _ _ _ _ _ _ L) as ->. destruct (lookup_issues _ _ _ _ _ _ L) as [E1 E2]. cbn. by intros [= <- <-].
  - destruct (lookup_else _ _ _ _ _ _ L) as [N ->]. destruct rc; cbn; try done; by intros [= <- <-].
Qed.

Lemma run_fetch e h buf c : issued (run e ctx (buf ← fetch h buf; _ ← wait; Ret buf) c).2 = issued c.
Proof.
  cbn. pose proof (fetch_issued e h (mkBuffer 1 (zlen buf) 0) c) as X. destruct (n_fetch _ _ _ _) as [[rc od] c']. cbn in *. by destruct rc.
Qed.

Lemma release_inv e rid s d r : DInv d -> _state d !! rid = Some s -> outcome_of d s = Some r ->
  DInv (release_quietly e (e_handle s) (set_state (delete rid (_state d)) d)).
Proof.
  intros I Es Out. destruct (v_held d I rid s Es) as [Lk Nr]. unfold release_quietly, set_node, set_state. constructor; cbn [events node _state jobs].
  - by apply orderly_snoc; [apply I|].
  - intros h Hh. rewrite run_release. apply I. set_solver.
  - intros h Hh. destruct (decide (h = e_handle s)) as [->|N]; [left; set_solver|].
    destruct (v_open d I h) as [X|(rid' & s' & E' & <-)]; [set_solver|left; set_solver|]. right. exists rid', s'. split; [|done].
    rewrite lookup_delete_ne; [done|]. intros ->. congruence.
  - intros rid' s' E'. apply lookup_delete_Some in E' as [N E']. destruct (v_held d I rid' s' E') as [A B]. split; [set_solver|].
    intros X. apply elem_of_app in X as [X|X]; [done|]. apply list_elem_of_singleton in X. injection X as X. by apply N, (v_apart d I rid rid' s s').
  - intros r1 r2 s1 s2 E1 E2. apply lookup_delete_Some in E1 as [_ E1], E2 as [_ E2]. by apply (v_apart d I).
  - intros r1 s1 E1. apply lookup_delete_Some in E1 as [_ E1]. by apply (v_job d I r1).
  - intros j job Ej Ho. destruct (v_pending d I j job Ej Ho) as (r1 & s1 & E1 & <-). exists r1, s1. split; [|done].
    rewrite lookup_delete_ne; [done|]. intros ->. assert (s1 = s) as -> by congruence. unfold outcome_of in Out. rewrite Ej in Out. cbn in Out. congruence.
  - intros j job x Ej Ho. pose proof (v_done d I j job x Ej Ho). set_solver.
Qed.

Lemma cancel_inv e rid d d' : DInv d -> cancel e rid d = Some d' ->
  DInv d' /\ _state d' = delete rid (_state d) /\ shut d' = shut d.
Proof.
  intros I. unfold cancel. destruct (_state d !! rid) as [s|] eqn:E; [|intros [= <-]; by rewrite delete_id].
  destruct (outcome_of d s) eqn:O; [|done]. intros [= <-]. split; [by eapply release_inv|done].
Qed.

Lemma set_node_inv c d : DInv d -> issued (node d) <= issued c -> DInv (set_node c [] d).
Proof.
  intros I L. unfold set_node. constructor; cbn [events node _state jobs]; rewrite ?app_nil_r; try apply I. intros h Hh. pose proof (v_issued d I h Hh). lia.
Qed.

(** A new handle is not in the history. *)
Lemma fresh_issued d : DInv d -> Looked (issued (node d)) ∉ events d.
Proof. intros I X. apply (v_issued d I) in X. lia. Qed.

Lemma fresh_released l h : orderly l -> Looked h ∉ l -> Released h ∉ l.
Proof.
  induction 1 as [|l x _ IH A]; intros N; [set_solver|]. intros X. apply elem_of_app in X as [X|X]; [by apply IH; set_solver|].
  apply list_elem_of_singleton in X as <-. destruct A as [A _]. set_solver.
Qed.

(** A hit without tokens is released at once. *)
Lemma miss_inv e c d : DInv d -> issued c = issued (node d) + 1 -> DInv (release_quietly e (issued (node d)) (set_node c [Looked (issued (node d))] d)).
Proof.
  intros I Ic. pose proof (fresh_issued d I) as N. pose proof (fresh_released _ _ (v_orderly d I) N) as Nr. set (h := issued (node d)) in *.
  unfold release_quietly, set_node. constructor; cbn [events node _state jobs]; try apply I.
  - apply orderly_snoc; [apply orderly_snoc; [apply I|done]|]. split; set_solver.
  - intros h' Hh. rewrite run_release, Ic. rewrite !elem_of_app, !list_elem_of_singleton in Hh. destruct Hh as [[X|[= ->]]|?]; [|lia|done]. pose proof (v_issued d I h' X). lia.
  - intros h' Hh. rewrite !elem_of_app, !list_elem_of_singleton in Hh. destruct Hh as [[X|[= ->]]|?]; [|left; set_solver|done].
    destruct (v_open d I h' X) as [?|?]; [left; set_solver|by right].
  - intros rid s E. destruct (v_held d I rid s E) as [A B]. split; [set_solver|]. rewrite !elem_of_app, !list_elem_of_singleton. intros [[X|X]|[= X]]; [done|done|].
    rewrite X in A. done.
  - intros j job r Ej Ho. pose proof (v_done d I j job r Ej Ho). set_solver.
Qed.

(** A hit is entered with its job. *)
Lemma enter_inv rid m c d : DInv d -> _state d !! rid = None -> issued c = issued (node d) + 1 ->
  let h := issued (node d) in let d1 := set_node c [Looked h] d in
  DInv (mkDriver (<[rid := mkEntry (length (jobs d)) h m false]> (_state d1)) (jobs d1 ++ [mkJob h (bytearray (m * bytes_per_token)) None]) (shut d1) (node d1) (events d1)).
Proof.
  intros I Nn Ic h d1. pose proof (fresh_issued d I) as N. pose proof (fresh_released _ _ (v_orderly d I) N) as Nr. fold h in N, Nr.
  subst d1. unfold set_node. constructor; cbn [events node _state jobs].
  - apply orderly_snoc; [apply I|done].
  - intros h' Hh. rewrite Ic. rewrite elem_of_app, list_elem_of_singleton in Hh. destruct Hh as [X|[= ->]]; [pose proof (v_issued d I h' X); lia|lia].
  - intros h' Hh. rewrite elem_of_app, list_elem_of_singleton in Hh. destruct Hh as [X|[= ->]].
    + destruct (v_open d I h' X) as [?|(r1 & s1 & E1 & <-)]; [left; set_solver|]. right. exists r1, s1. split; [|done]. rewrite lookup_insert_ne; [done|]. intros ->. congruence.
    + right. exists rid. eexists. split; [apply lookup_insert_eq|done].
  - intros r1 s1 E1. apply lookup_insert_Some in E1 as [[<- <-]|[_ E1]]; [split; set_solver|]. destruct (v_held d I r1 s1 E1). split; set_solver.
  - assert (forall r1 s1, _state d !! r1 = Some s1 -> e_handle s1 <> h) as Ap by (intros r1 s1 E1 X; destruct (v_held d I r1 s1 E1) as [A _]; by rewrite X in A).
    intros r1 r2 s1 s2 E1 E2 X. apply lookup_insert_Some in E1 as [[<- <-]|[_ E1]], E2 as [[<- <-]|[_ E2]]; [done| | |by eapply (v_apart d I)].
    + symmetry in X. by destruct (Ap _ _ E2).
    + by destruct (Ap _ _ E1).
  - intros r1 s1 E1. apply lookup_insert_Some in E1 as [[<- <-]|[_ E1]]; [eexists; by rewrite lookup_app_r, Nat.sub_diag by done|].
    destruct (v_job d I r1 s1 E1) as (job & Ej & Eh). exists job. split; [by apply lookup_app_l_Some|done].
  - intros j job Ej Ho. apply lookup_app_Some in Ej as [Ej|[Le Ej]].
    + destruct (v_pending d I j job Ej Ho) as (r1 & s1 & E1 & <-). exists r1, s1. split; [|done]. rewrite lookup_insert_ne; [done|]. intros ->. congruence.
    + apply list_lookup_singleton_Some in Ej as [Ej _]. exists rid. eexists. split; [apply lookup_insert_eq|]. cbn. lia.
  - intros j job r Ej Ho. apply lookup_app_Some in Ej as [Ej|[Le Ej]]; [pose proof (v_done d I j job r Ej Ho); set_solver|].
    apply list_lookup_singleton_Some in Ej as [_ <-]. done.
Qed.

Lemma kick_off_inv e rid tokens d r d' : DInv d -> shut d = false -> kick_off e rid tokens d = Some (r, d') -> DInv d'.
Proof.
  intros I Sh. unfold kick_off. destruct (cancel e rid d) as [d1|] eqn:Ca; [|done]. destruct (cancel_inv _ _ _ _ I Ca) as (I1 & St & Sh1). cbn [mbind option_bind].
  destruct (run e ctx (lookup tokens) (node d1)) as [hit c] eqn:R. apply run_lookup in R.
  destruct hit as [x|[hit|]]; [intros [= <- <-]; apply set_node_inv; [done|lia]| |intros [= <- <-]; apply set_node_inv; [done|lia]].
  destruct R as [-> Ic]. destruct (matched_tokens hit =? 0); [intros [= <- <-]; by apply miss_inv|]. cbn [shut set_node]. rewrite Sh1, Sh.
  intros [= <- <-]. pose proof (enter_inv rid (matched_tokens hit) c d1 I1 ltac:(rewrite St; apply lookup_delete_eq) Ic) as X. cbn in X |- *. by rewrite Sh1, Sh in X.
Qed.

Lemma work_inv e j d d' : DInv d -> work e j d = Some d' -> DInv d'.
Proof.
  intros I. unfold work. destruct (jobs d !! j) as [[h buf [|]]|] eqn:Ej; [done| |done]. pose proof (run_fetch e h buf (node d)) as Is.
  destruct (run e ctx _ (node d)) as [r c]. cbn in Is. intros [= <-].
  destruct (v_pending d I j _ Ej eq_refl) as (rid & s & Es & Ef). destruct (v_job d I rid s Es) as (job & Ej' & Eh). rewrite Ef, Ej in Ej'. injection Ej' as <-. cbn in Eh. subst h.
  destruct (v_held d I rid s Es) as [A B]. set (job := match r with inl x => _ | inr b => _ end).
  assert (j_handle job = e_handle s /\ outcome job = Some match r with inl x => Some x | inr _ => None end /\
    match match r with inl x => Some x | inr _ => None end with Some x => inl x | None => inr (staging job) end = r) as (J1 & J2 & J3) by (by destruct r).
  constructor; cbn [events node _state jobs]; try apply I.
  - by apply orderly_snoc; [apply I|].
  - intros h Hh. rewrite Is. apply I. set_solver.
  - intros h Hh. destruct (v_open d I h) as [?|?]; [set_solver|left; set_solver|by right].
  - intros r1 s1 E1. destruct (v_held d I r1 s1 E1). split; set_solver.
  - intros r1 s1 E1. destruct (v_job d I r1 s1 E1) as (job1 & E2 & E3). destruct (decide (future s1 = j)) as [X|N]; [|exists job1; by rewrite list_lookup_insert_ne].
    exists job. rewrite X in E2 |- *. rewrite list_lookup_insert_eq by (by eapply lookup_lt_Some). split; [done|]. rewrite J1, <- E3. rewrite Ej in E2. by injection E2 as <-.
  - intros i job1 E1 Ho. destruct (decide (i = j)) as [->|N]; [|rewrite list_lookup_insert_ne in E1 by done; by apply (v_pending d I i job1)].
    rewrite list_lookup_insert_eq in E1 by (by eapply lookup_lt_Some). injection E1 as <-. congruence.
  - intros i job1 x E1 Ho. destruct (decide (i = j)) as [->|N].
    + rewrite list_lookup_insert_eq in E1 by (by eapply lookup_lt_Some). injection E1 as <-. rewrite J2 in Ho. injection Ho as <-. rewrite J1, J3. set_solver.
    + rewrite list_lookup_insert_ne in E1 by done. pose proof (v_done d I i job1 x E1 Ho). set_solver.
Qed.

Lemma finish_inv rid s d : DInv d -> _state d !! rid = Some s ->
  DInv (set_state (<[rid := mkEntry (future s) (e_handle s) (e_matched s) true]> (_state d)) d).
Proof.
  intros I Es. assert (forall r1 s1, <[rid := mkEntry (future s) (e_handle s) (e_matched s) true]> (_state d) !! r1 = Some s1 ->
    exists s2, _state d !! r1 = Some s2 /\ e_handle s2 = e_handle s1 /\ future s2 = future s1) as Old
    by (intros r1 s1 [[<- <-]|[_ E]]%lookup_insert_Some; eauto).
  assert (forall r1 s1, _state d !! r1 = Some s1 -> exists s2, <[rid := mkEntry (future s) (e_handle s) (e_matched s) true]> (_state d) !! r1 = Some s2 /\
    e_handle s2 = e_handle s1 /\ future s2 = future s1) as New.
  { intros r1 s1 E1. destruct (decide (r1 = rid)) as [->|N]; [|exists s1; by rewrite lookup_insert_ne]. rewrite Es in E1. injection E1 as <-. eexists. by rewrite lookup_insert_eq. }
  unfold set_state. constructor; cbn [events node _state jobs]; try apply I.
  - intros h Hh. destruct (v_open d I h Hh) as [?|(r1 & s1 & E1 & <-)]; [by left|]. right. destruct (New r1 s1 E1) as (s2 & ? & ? & _). eauto.
  - intros r1 s1 E1. destruct (Old r1 s1 E1) as (s2 & E2 & <- & _). by apply (v_held d I r1).
  - intros r1 r2 s1 s2 E1 E2. destruct (Old _ _ E1) as (? & ? & <- & _), (Old _ _ E2) as (? & ? & <- & _). by apply (v_apart d I).
  - intros r1 s1 E1. destruct (Old _ _ E1) as (? & ? & <- & <-). by apply (v_job d I r1).
  - intros j job Ej Ho. destruct (v_pending d I j job Ej Ho) as (r1 & s1 & E1 & <-). destruct (New r1 s1 E1) as (s2 & ? & _ & ?). eauto.
Qed.

Lemma finished_inv rids : forall out d, DInv d -> DInv (finished_from rids out d).2.
Proof.
  induction rids as [|rid rids IH]; intros out d I; [done|]. cbn. destruct (_state d !! rid) as [s|] eqn:Es; [|by apply IH].
  destruct (finished s); [by apply IH|]. destruct (outcome_of d s) as [[x|]|]; [done| |by apply IH]. by apply IH, finish_inv.
Qed.

Lemma pop_inv e rid d r d' : DInv d -> pop e rid d = Some (r, d') -> DInv d' /\ forall s, _state d !! rid = Some s ->
  Released (e_handle s) ∈ events d' /\ match r with inr None => False | inr (Some b) => Fetched (e_handle s) (inr b) ∈ events d | inl x => Fetched (e_handle s) (inl x) ∈ events d end.
Proof.
  intros I. unfold pop. destruct (_state d !! rid) as [s|] eqn:Es; [|by intros [= <- <-]].
  destruct (outcome_of (set_state (delete rid (_state d)) d) s) as [o|] eqn:Out; [|done]. cbn [mbind option_bind]. intros [= <- <-].
  split; [by eapply release_inv|]. intros s1 [= <-]. split; [cbn; set_solver|].
  destruct (v_job d I rid s Es) as (job & Ej & Eh). change (jobs d !! future s ≫= outcome = Some o) in Out. rewrite Ej in Out. cbn in Out.
  pose proof (v_done d I _ _ _ Ej Out) as X. rewrite Eh in X. unfold staged. cbn [jobs release_quietly set_node set_state]. rewrite Ej. cbn. by destruct o.
Qed.

Lemma cancel_all_inv e rids : forall d d', DInv d -> cancel_all e rids d = Some d' ->
  DInv d' /\ forall rid, _state d' !! rid = if bool_decide (rid ∈ rids) then None else _state d !! rid.
Proof.
  induction rids as [|rid rids IH]; intros d d' I; cbn; [intros [= <-]; split; [done|]; intros rid; by rewrite bool_decide_false by set_solver|].
  destruct (cancel e rid d) as [d1|] eqn:Ca; [|done]. destruct (cancel_inv _ _ _ _ I Ca) as (I1 & St & _). cbn. intros H.
  destruct (IH d1 d' I1 H) as [I' Sd]. split; [done|]. intros r. rewrite Sd, St. destruct (decide (r = rid)) as [->|N].
  - rewrite lookup_delete_eq, (bool_decide_true (rid ∈ rid :: rids)) by constructor. by case_bool_decide.
  - rewrite lookup_delete_ne by done. rewrite (bool_decide_ext (r ∈ rid :: rids) (r ∈ rids)); [done|]. rewrite elem_of_cons. tauto.
Qed.

Lemma close_inv e d d' : DInv d -> close e d = Some d' -> DInv d' /\ _state d' = ∅.
Proof.
  intros I. unfold close. destruct (cancel_all _ _ d) as [d1|] eqn:Ca; [|done]. destruct (cancel_all_inv _ _ _ _ I Ca) as [I1 Sd]. cbn. intros [= <-].
  split; [by destruct I1; constructor|]. cbn. apply map_eq. intros rid. rewrite Sd, lookup_empty. case_bool_decide as N; [done|].
  destruct (_state d !! rid) eqn:E; [|done]. destruct N. apply elem_of_elements, elem_of_dom. by eexists.
Qed.

Lemma reaches_inv c d : reaches (new_driver c) d -> DInv d.
Proof.
  induction 1 as [|d [e a] d' _ I Pr St].
  - constructor; cbn; try done; [constructor|set_solver..].
  - destruct a as [rid tokens|cs|rid|rid| |j|f]; cbn in Pr, St.
    + destruct (kick_off e rid tokens d) as [[r d1]|] eqn:Ko; [|done]. injection St as <-. by eapply kick_off_inv.
    + injection St as <-. by apply finished_inv.
    + destruct (pop e rid d) as [[r d1]|] eqn:Po; [|done]. injection St as <-. by eapply pop_inv.
    + by eapply cancel_inv.
    + by eapply close_inv.
    + by eapply work_inv.
    + injection St as <-. apply set_node_inv; [done|]. apply Pr.
Qed.

(** [C29] The driver keeps account of its handles, as long as nobody kicks off a load after
    closing it: however the engine's calls, the workers and other clients with handles of
    their own interleave, a handle is fetched through and released only between its lookup
    and its release, which comes once; a handle that is not released belongs to a request in
    flight, so once [close] has returned none is left; and a pop returns exactly what the
    fetch through the handle of its request delivered, or raises what it raised. *)
Theorem handles_are_released c d : reaches (new_driver c) d ->
  orderly (events d) /\
  (forall h, Looked h ∈ events d -> Released h ∈ events d \/ exists rid s, _state d !! rid = Some s /\ e_handle s = h) /\
  (forall e rid s r d', _state d !! rid = Some s -> pop e rid d = Some (r, d') -> Released (e_handle s) ∈ events d' /\
     match r with inr None => False | inr (Some b) => Fetched (e_handle s) (inr b) ∈ events d | inl x => Fetched (e_handle s) (inl x) ∈ events d end) /\
  (forall e d', close e d = Some d' -> orderly (events d') /\ forall h, Looked h ∈ events d' -> Released h ∈ events d').
Proof.
  intros R. pose proof (reaches_inv c d R) as I. split; [apply I|]. split; [apply I|]. split.
  - intros e rid s r d' Es Po. by apply (pop_inv e rid d r d').
  - intros e d' Cl. destruct (close_inv e d d' I Cl) as [I' Em]. split; [apply I'|]. intros h Hh. destruct (v_open d' I' h Hh) as [?|(rid & s & E & _)]; [done|].
    by rewrite Em, lookup_empty in E.
Qed.

(** *** No call waits for ever *)

Definition pending (d : Driver) : nat := length (filter (fun j => outcome j = None) (jobs d)).

(** A worker has something to do as long as a job is pending, and each step leaves one less;
    when none is pending no call of the engine waits. *)
Lemma work_progress e d j job : jobs d !! j = Some job -> outcome job = None -> exists d', work e j d = Some d' /\ pending d = S (pending d').
Proof.
  intros Ej Ho. destruct job as [h buf o]. cbn in Ho. subst o. unfold work. rewrite Ej. destruct (run e ctx _ (node d)) as [r c]. eexists. split; [done|].
  unfold pending. cbn [jobs]. rewrite <- (take_drop_middle (jobs d) j _ Ej) at 1. rewrite insert_take_drop by (by eapply lookup_lt_Some).
  rewrite !filter_app, !filter_cons, !length_app. rewrite decide_True by done. rewrite decide_False by (by destruct r). cbn. lia.
Qed.

Lemma not_pending d : pending d = O -> forall s job, jobs d !! future s = Some job -> outcome_of d s <> None.
Proof.
  intros P s job Ej. unfold outcome_of. rewrite Ej. cbn. intros N. unfold pending in P. apply nil_length_inv in P.
  assert (job ∈ filter (fun j => outcome j = None) (jobs d)) as X by (apply list_elem_of_filter; split; [done|by eapply list_elem_of_lookup_2]). rewrite P in X. set_solver.
Qed.

Lemma drained e : forall n d, DInv d -> pending d = n ->
  exists ws d', length ws = n /\ acts ((fun j => (e, AWork j)) <$> ws) d = Some d' /\ _state d' = _state d /\ DInv d' /\ pending d' = O.
Proof.
  induction n as [|n IH]; intros d I P; [by exists [], d|]. unfold pending in P.
  destruct (filter (fun j => outcome j = None) (jobs d)) as [|job l] eqn:F; [done|].
  assert (job ∈ filter (fun j => outcome j = None) (jobs d)) as X by (rewrite F; set_solver). apply list_elem_of_filter in X as [Ho [j Ej]%list_elem_of_lookup].
  destruct (work_progress e d j job Ej Ho) as (d1 & W & P1). unfold pending in P1. rewrite F, P in P1.
  destruct (IH d1 (work_inv _ _ _ _ I W) ltac:(unfold pending; lia)) as (ws & d2 & L & A & S & I2 & P2). exists (j :: ws), d2. cbn. rewrite W. cbn. split; [by rewrite L|].
  split; [done|]. split; [|done]. rewrite S. unfold work in W. destruct (jobs d !! j) as [[h buf [|]]|]; [done| |done]. destruct (run _ _ _ _) as [r c]. by injection W as <-.
Qed.

Lemma settled_cancel e rid d : DInv d -> pending d = O -> exists d', cancel e rid d = Some d' /\ DInv d' /\ pending d' = O.
Proof.
  intros I P. destruct (cancel e rid d) as [d'|] eqn:C.
  - exists d'. split; [done|]. split; [by eapply cancel_inv|]. unfold cancel in C. destruct (_state d !! rid) as [s|]; [|by injection C as <-].
    destruct (outcome_of d s); [|done]. by injection C as <-.
  - unfold cancel in C. destruct (_state d !! rid) as [s|] eqn:Es; [|done]. destruct (v_job d I rid s Es) as (job & Ej & _).
    pose proof (not_pending d P s job Ej). by destruct (outcome_of d s).
Qed.

Lemma settled_cancel_all e rids : forall d, DInv d -> pending d = O -> is_Some (cancel_all e rids d).
Proof.
  induction rids as [|rid rids IH]; intros d I P; [by eexists|]. cbn. destruct (settled_cancel e rid d I P) as (d1 & -> & I1 & P1). by apply IH.
Qed.

(** Every call returns: from any state of the driver, as many steps of workers as there
    are pending jobs are possible, and after them neither a kick-off nor a pop, a cancel or
    a close waits. *)
Theorem driver_calls_return c d e : reaches (new_driver c) d ->
  exists ws d', length ws = pending d /\ acts ((fun j => (e, AWork j)) <$> ws) d = Some d' /\ _state d' = _state d /\
    (forall rid tokens, kick_off e rid tokens d' <> None) /\ (forall rid, pop e rid d' <> None) /\ (forall rid, cancel e rid d' <> None) /\ close e d' <> None.
Proof.
  intros R. destruct (drained e _ d (reaches_inv c d R) eq_refl) as (ws & d' & L & A & S & I & P). exists ws, d'. split; [done|]. split; [done|]. split; [done|]. split_and!.
  - intros rid tokens. unfold kick_off. destruct (settled_cancel e rid d' I P) as (d1 & -> & _). cbn. destruct (run _ _ _ _) as [[x|[hit|]] c1]; [done| |done].
    destruct (_ =? 0); [done|]. by destruct (shut _).
  - intros rid. unfold pop. destruct (_state d' !! rid) as [s|] eqn:Es; [|done]. destruct (v_job d' I rid s Es) as (job & Ej & _).
    pose proof (not_pending d' P s job Ej) as N. change (outcome_of (set_state (delete rid (_state d')) d') s) with (outcome_of d' s). by destruct (outcome_of d' s).
  - intros rid. by destruct (settled_cancel e rid d' I P) as (d1 & -> & _).
  - unfold close. by destruct (settled_cancel_all e (elements (dom (_state d'))) d' I P) as [d1 ->].
Qed.
End Driver.

(** *** Examples *)

Definition ex_e : env (Core := ex_K) := ex_env.

(** A node that holds two bytes under sixteen tokens, a kick-off and the worker's fetch. *)
Definition ex_held : Node TierManager.w_C := (run ex_env ex_ctx (ex_store (mkBackend 1 false 8) Lpm.tokens16 [x01; x02]) ex_node).2.
Definition ex_d0 : Driver (K := ex_K) := new_driver (K := ex_K) ex_held.
Definition ex_d1 : Driver (K := ex_K) := default ex_d0 (act_step ex_ctx 1 (ex_e, AKickOff (str "r") Lpm.tokens16) ex_d0).
Definition ex_d2 : Driver (K := ex_K) := default ex_d1 (act_step ex_ctx 1 (ex_e, AWork 0) ex_d1).

Lemma ex_reaches : reaches ex_ctx 1 ex_d0 ex_d2.
Proof.
  eapply (reaches_act ex_ctx 1 ex_d0 ex_d1 (ex_e, AWork 0)); [|done|apply some_default; vm_compute; reflexivity].
  eapply (reaches_act ex_ctx 1 ex_d0 ex_d0 (ex_e, AKickOff _ _)); [constructor|done|apply some_default; vm_compute; reflexivity].
Qed.

Lemma handles_are_released_witness :
  (fst <$> pop ex_ctx ex_e (str "r") ex_d2) = Some (inr (Some ([x01; x02] ++ bytearray 14))) /\ Fetched 2 (inr ([x01; x02] ++ bytearray 14)) ∈ events ex_d2 /\
  match close ex_ctx ex_e ex_d2 with Some d => Released 2 ∈ events d | None => False end.
Proof.
  destruct (handles_are_released (K := ex_K) ex_ctx 1 ex_held ex_d2 ex_reaches) as (_ & _ & Po & Cl).
  assert ((fst <$> pop ex_ctx ex_e (str "r") ex_d2) = Some (inr (Some ([x01; x02] ++ bytearray 14)))) as X by (vm_compute; reflexivity).
  assert ((events <$> close ex_ctx ex_e ex_d2) = Some (events ex_d2 ++ [Released 2])) as Y by (vm_compute; reflexivity).
  split; [exact X|]. split.
  - destruct (pop ex_ctx ex_e (str "r") ex_d2) as [[r d']|] eqn:P; [|discriminate X]. injection X as ->.
    exact (proj2 (Po ex_e (str "r") (mkEntry 0 2 16 false) _ d' ltac:(vm_compute; reflexivity) P)).
  - destruct (close ex_ctx ex_e ex_d2) as [d'|] eqn:E; [|discriminate Y]. change (Some (events d') = Some (events ex_d2 ++ [Released 2])) in Y. apply (inj Some) in Y.
    apply (Cl ex_e d' E). rewrite Y. apply elem_of_app. left. vm_compute. left.
Defined.

Lemma driver_calls_return_witness : exists ws d', length ws = 1%nat /\ acts ex_ctx 1 ((fun j => (ex_e, AWork j)) <$> ws) ex_d1 = Some d' /\ pop ex_ctx ex_e (str "r") d' <> None.
Proof.
  destruct (driver_calls_return (K := ex_K) ex_ctx 1 ex_held ex_d1 ex_e) as (ws & d' & L & A & _ & _ & P & _).
  - eapply (reaches_act ex_ctx 1 ex_d0 ex_d0 (ex_e, AKickOff _ _)); [constructor|done|apply some_default; vm_compute; reflexivity].
  - exists ws, d'. split; [rewrite L; vm_compute; reflexivity|]. split; [exact A|]. apply P.
Defined.

(** A kick-off that finds something after the pool was shut keeps its handle. *)
Example kick_off_after_close :
  let d := default ex_d0 (close ex_ctx ex_e ex_d0) in
  match kick_off ex_ctx 1 ex_e (str "r") Lpm.tokens16 d with
  | Some (r, d') => r = inl RuntimeError /\ events d' = [Looked 2] /\ size (_state d') = O
  | None => False
  end.
Proof. vm_compute. repeat split; reflexivity. Qed.

End Adapter.
