(* ===== verification/Vllm.v ===== *)
(** * The vLLM adapter

    adapters/vllm/kvcache_vllm: the connector, which keeps the handle of each request
    between the callbacks of the scheduler and of the worker (connector.py), the buffers
    that join the layers of a request for one save and take them apart after a load
    (layer_accumulator.py), the driver that loads ahead on worker threads (async_load.py)
    and, with synchronous loads, the class the engine calls (vllm_bridge.py).

    The programs are those of Adapter.v. A [bytearray] is a reference into a heap of
    buffers, which the engine and the adapter share. A method that raises has returned the
    state it left. Of the bridge the callbacks of a request are here, with its arguments as
    the code extracts them; vLLM's objects are not.

    The theorems: the layers an engine saves come back, each in its destination
    ([layers_come_back]). The examples show handles that are lost, saves that are dropped and
    a failed load that is taken for a good one. *)

From S2P Require Import Prelude Mtls Locator Lpm StateWal DramTier NvmeTier Ingest ColdTier TierManager HeadlessNode NodeCorrect Abi TensorCodec SdkClient Adapter.
From Stdlib Require Import ZArith Lia.

Open Scope Z_scope.

Module Vllm.

Import Locator Node Abi Adapter.
#[local] Notation str := Mtls.str.

(** A program that returns what it raises. *)
Fixpoint attempt {A} (p : prog A) : prog (exn + A) :=
  match p with Ret a => Ret (inr a) | Raise x => Ret (inl x) | Do c k => Do c (fun r => attempt (k r)) end.

(** [d.pop(k, None)] *)
Definition dict_pop {V} (k : bytes) (d : list (bytes * V)) : list (bytes * V) := List.filter (fun kv => negb (bool_decide (kv.1 = k))) d.

(** ** Layers (layer_accumulator.py) *)

Module Layers.
Record LayerAccumulator := mkAccum { _layer_order : list bytes; _buf : list (bytes * gmap bytes bytes); _tokens : list (bytes * list Z) }.

Definition new_accumulator : LayerAccumulator := mkAccum [] [] [].
Definition register_layer_order (names : list bytes) (a : LayerAccumulator) : LayerAccumulator := mkAccum names (_buf a) (_tokens a).
Definition bind_request (rid : bytes) (tokens : list Z) (a : LayerAccumulator) : LayerAccumulator :=
  mkAccum (_layer_order a) (_buf a) (Sdk.dict_set rid tokens (_tokens a)).

Definition accumulate (rid layer data : bytes) (a : LayerAccumulator) : LayerAccumulator :=
  match data with
  | [] => a
  | _ => mkAccum (_layer_order a) (Sdk.dict_set rid (<[layer := data]> (default ∅ (Sdk.dict_get rid (_buf a)))) (_buf a)) (_tokens a)
  end.

Fixpoint insort (k : bytes) (l : list bytes) : list bytes :=
  match l with [] => [k] | x :: r => if ble k x then k :: l else x :: insort k r end.
Definition sorted (l : list bytes) : list bytes := foldr insort [] l.

Definition _effective_order (layer_order : list bytes) (present : gset bytes) : list bytes :=
  filter (fun ln => ln ∈ present) layer_order ++ sorted (elements (present ∖ list_to_set layer_order)).

Definition drain_request (rid : bytes) (a : LayerAccumulator) : option (list Z * bytes) * LayerAccumulator :=
  let layers := Sdk.dict_get rid (_buf a) in
  let tokens := Sdk.dict_get rid (_tokens a) in
  let a' := mkAccum (_layer_order a) (dict_pop rid (_buf a)) (dict_pop rid (_tokens a)) in
  match layers, tokens with
  | Some layers, Some (t :: ts) =>
      if bool_decide (layers = ∅) then (None, a')
      else (Some (t :: ts, concat ((fun ln => default [] (layers !! ln)) <$> _effective_order (_layer_order a) (dom layers))), a')
  | _, _ => (None, a')
  end.

Fixpoint drain_from (rids : list bytes) (a : LayerAccumulator) : list (bytes * (list Z * bytes)) * LayerAccumulator :=
  match rids with
  | [] => ([], a)
  | rid :: rids =>
      let '(r, a) := drain_request rid a in
      let '(out, a) := drain_from rids a in
      (match r with Some x => (rid, x) :: out | None => out end, a)
  end.
Definition drain_all (a : LayerAccumulator) : list (bytes * (list Z * bytes)) * LayerAccumulator := drain_from (_buf a).*1 a.

(** The destinations are references to buffers. *)
Record LayerSplitter := mkSplitter { s_layer_order : list bytes; _blob : list (bytes * bytes); _dests : list (bytes * list (bytes * nat)) }.

Definition new_splitter : LayerSplitter := mkSplitter [] [] [].
Definition s_register (names : list bytes) (s : LayerSplitter) : LayerSplitter := mkSplitter names (_blob s) (_dests s).
Definition stage_load (rid fetched : bytes) (destinations : list (bytes * nat)) (s : LayerSplitter) : LayerSplitter :=
  mkSplitter (s_layer_order s) (Sdk.dict_set rid fetched (_blob s)) (Sdk.dict_set rid destinations (_dests s)).

(** [list.index] *)
Fixpoint index (x : bytes) (l : list bytes) : option nat :=
  match l with [] => None | y :: r => if bool_decide (x = y) then Some O else S <$> index x r end.

(** [blob[idx * per : (idx + 1) * per]] *)
Definition slice_of (n idx : nat) (blob : bytes) : bytes := let per := (length blob / n)%nat in take per (drop (idx * per) blob).

(** [dst[:write] = slice_[:write]] *)
Definition fill (slice_ dst : bytes) : bytes := let write := Nat.min (length slice_) (length dst) in take write slice_ ++ drop write dst.

Definition drain_one (n idx : nat) (layer : bytes) (dests : list (bytes * list (bytes * nat))) (x : bytes * bytes) (heap : gmap nat bytes) : gmap nat bytes :=
  match Sdk.dict_get x.1 dests ≫= Sdk.dict_get layer with
  | None => heap
  | Some ref => match heap !! ref with None => heap | Some dst => <[ref := fill (slice_of n idx x.2) dst]> heap end
  end.
Definition drain_layer (layer : bytes) (s : LayerSplitter) (heap : gmap nat bytes) : gmap nat bytes :=
  match index layer (s_layer_order s) with
  | None => heap
  | Some idx => fold_left (fun heap x => drain_one (length (s_layer_order s)) idx layer (_dests s) x heap) (_blob s) heap
  end.

Definition finish_request (rid : bytes) (s : LayerSplitter) : LayerSplitter :=
  mkSplitter (s_layer_order s) (dict_pop rid (_blob s)) (dict_pop rid (_dests s)).
End Layers.
Import Layers.

(** ** The connector (connector.py) *)

Record _RequestEntry := mkReq {
  q_matched : Z; q_handle : Z; finished_load : bool; finished_save : bool; comp_buf : option nat; dst_buffer : option nat }.
Definition no_request : _RequestEntry := mkReq 0 0 false false None None.

Record VllmKVConnector := mkConn { _reqs : gmap bytes _RequestEntry; heap : gmap nat bytes; next_ref : nat }.
Definition set_req (rid : bytes) (q : _RequestEntry) (s : VllmKVConnector) : VllmKVConnector := mkConn (<[rid := q]> (_reqs s)) (heap s) (next_ref s).
Definition set_heap (h : gmap nat bytes) (s : VllmKVConnector) : VllmKVConnector := mkConn (_reqs s) h (next_ref s).

(** A new [bytearray]. *)
Definition alloc (n : Z) (s : VllmKVConnector) : nat * VllmKVConnector :=
  (next_ref s, mkConn (_reqs s) (<[next_ref s := bytearray n]> (heap s)) (S (next_ref s))).

Section Connector.
Context (sha1 blake2b : bytes -> bytes) (tid mid : bytes).
Context {FA : TensorCodec.FloatArith} {FB : TensorCodec.FloatBits FA} (zstd : option ((bytes -> option bytes) * (nat -> bytes -> option bytes))).
Context (b : Backend).

Definition get_num_new_matched_tokens (rid : bytes) (tokens : list Z) (num_computed_tokens : Z) (s : VllmKVConnector) : prog ((exn + Z) * VllmKVConnector) :=
  r ← attempt (lookup tokens);
  Ret match r with
      | inl x => (inl x, s)
      | inr None => (inr 0, set_req rid no_request s)
      | inr (Some hit) => (inr (Z.max 0 (matched_tokens hit - num_computed_tokens)), set_req rid (mkReq (matched_tokens hit) (handle hit) false false None None) s)
      end.

Definition update_state_after_alloc (rid : bytes) (s : VllmKVConnector) : VllmKVConnector :=
  match _reqs s !! rid with Some _ => s | None => set_req rid no_request s end.

Definition build_connector_meta (rids : list bytes) (s : VllmKVConnector) : list (bytes * Z) :=
  Sdk.dict (base.omap (fun rid => (fun q => (rid, q_matched q)) <$> _reqs s !! rid) rids).

Definition fetch_into (h : Z) (ref : nat) (s : VllmKVConnector) : prog ((exn + unit) * VllmKVConnector) :=
  r ← attempt (fetch h (default [] (heap s !! ref)));
  Ret match r with inl x => (inl x, s) | inr buf => (inr tt, set_heap (<[ref := buf]> (heap s)) s) end.

Definition start_load_kv (rid : bytes) (dst : nat) (s : VllmKVConnector) : prog ((exn + unit) * VllmKVConnector) :=
  match _reqs s !! rid with
  | None => Ret (inl KeyError, s)
  | Some q =>
      if q_handle q =? 0 then Ret (inl KeyError, s)
      else if zlen (default [] (heap s !! dst)) <? q_matched q * bytes_per_token b then Ret (inl ValueError, s)
      else if compress b then
        stored ← attempt (stored_bytes (q_handle q));
        match stored with
        | inl x => Ret (inl x, s)
        | inr stored =>
            let '(cb, s) := alloc stored s in
            fetch_into (q_handle q) cb (set_req rid (mkReq (q_matched q) (q_handle q) (finished_load q) (finished_save q) (Some cb) (Some dst)) s)
        end
      else fetch_into (q_handle q) dst s
  end.

Definition loaded (rid : bytes) (q : _RequestEntry) (s : VllmKVConnector) : VllmKVConnector :=
  set_req rid (mkReq (q_matched q) (q_handle q) true (finished_save q) (comp_buf q) (dst_buffer q)) s.

Definition wait_for_layer_load (rid : bytes) (s : VllmKVConnector) : prog ((exn + unit) * VllmKVConnector) :=
  r ← attempt wait;
  match r with
  | inl x => Ret (inl x, s)
  | inr _ =>
      match _reqs s !! rid with
      | None => Ret (inr tt, s)
      | Some q =>
          match comp_buf q with
          | None => Ret (inr tt, loaded rid q s)
          | Some cb =>
              d ← attempt (decompress_kv zstd (default [] (heap s !! cb)));
              match d with
              | inl x => Ret (inl x, s)
              | inr (floats, _) =>
                  let n_bytes := Z.to_nat (q_matched q * bytes_per_token b) in
                  let heap' := match dst_buffer q with
                               | Some ref => <[ref := take n_bytes (TensorCodec.put_floats floats) ++ drop n_bytes (default [] (heap s !! ref))]> (heap s)
                               | None => heap s
                               end in
                  Ret (inr tt, loaded rid (mkReq (q_matched q) (q_handle q) (finished_load q) (finished_save q) None None) (set_heap heap' s))
              end
          end
      end
  end.

(** The checks and the commit are those of the backend's store. *)
Definition save (rid : bytes) (tokens : list Z) (kv_bytes : bytes) (s : VllmKVConnector) : prog ((exn + unit) * VllmKVConnector) :=
  r ← attempt (store sha1 blake2b tid mid zstd b tokens kv_bytes);
  match r with
  | inl x => Ret (inl x, s)
  | inr _ =>
      let q := default no_request (_reqs s !! rid) in
      Ret (inr tt, set_req rid (mkReq (q_matched q) (q_handle q) (finished_load q) true (comp_buf q) (dst_buffer q)) s)
  end.

Definition wait_for_save (rid : bytes) (s : VllmKVConnector) : exn + unit :=
  match _reqs s !! rid with Some q => if finished_save q then inr tt else inl KeyError | None => inl KeyError end.

Definition get_finished (rids : list bytes) (s : VllmKVConnector) : gset bytes * gset bytes :=
  (list_to_set (filter (fun rid => (finished_load <$> _reqs s !! rid) = Some true) rids),
   list_to_set (filter (fun rid => (finished_save <$> _reqs s !! rid) = Some true) rids)).

Definition release_request (rid : bytes) (s : VllmKVConnector) : prog VllmKVConnector :=
  let s' := mkConn (delete rid (_reqs s)) (heap s) (next_ref s) in
  match _reqs s !! rid with
  | None => Ret s'
  | Some q => if q_handle q =? 0 then Ret s' else _ ← swallow (release (q_handle q)); Ret s'
  end.

(** [close], up to closing the context. *)
Definition close_connector (s : VllmKVConnector) : VllmKVConnector := mkConn ∅ (heap s) (next_ref s).

(** ** The bridge with synchronous loads (vllm_bridge.py) *)

Record KVCacheVllmConnector := mkBridge { _inner : VllmKVConnector; _accum : LayerAccumulator; _splitter : LayerSplitter }.
Definition set_inner (s : VllmKVConnector) (k : KVCacheVllmConnector) : KVCacheVllmConnector := mkBridge s (_accum k) (_splitter k).

Definition register_kv_caches (order : list bytes) (k : KVCacheVllmConnector) : KVCacheVllmConnector :=
  mkBridge (_inner k) (register_layer_order order (_accum k)) (s_register order (_splitter k)).

Definition bridge_matched (rid : bytes) (tokens : list Z) (num_computed_tokens : Z) (k : KVCacheVllmConnector) : prog ((exn + Z * bool) * KVCacheVllmConnector) :=
  r ← get_num_new_matched_tokens rid tokens num_computed_tokens (_inner k);
  Ret (match r.1 with inl x => inl x | inr n => inr (n, false) end, set_inner r.2 k).

(** A request without tokens is left out, with a warning. *)
Definition _extract_save_targets (rids : list bytes) (tokens_by_request : list (bytes * list Z)) : list (bytes * list Z) :=
  Sdk.dict (base.omap (fun rid => match Sdk.dict_get rid tokens_by_request with Some (t :: ts) => Some (rid, t :: ts) | _ => None end) rids).

Fixpoint save_chunks (layer data : bytes) (per : nat) (targets : list (bytes * list Z)) (a : LayerAccumulator) : LayerAccumulator :=
  match targets with
  | [] => a
  | (rid, tokens) :: rest =>
      let a := accumulate rid layer (take per data) a in
      let a := match tokens with [] => a | _ => bind_request rid tokens a end in
      save_chunks layer (drop per data) per rest a
  end.
Definition save_kv_layer (layer data : bytes) (rids : list bytes) (tokens_by_request : list (bytes * list Z)) (k : KVCacheVllmConnector) : KVCacheVllmConnector :=
  let targets := _extract_save_targets rids tokens_by_request in
  match targets, data with
  | [], _ | _, [] => k
  | _, _ => mkBridge (_inner k) (save_chunks layer data (length data / length targets) targets (_accum k)) (_splitter k)
  end.

(** A save that raises ends the loop; what was drained is gone. *)
Fixpoint save_all (l : list (bytes * (list Z * bytes))) (s : VllmKVConnector) : prog ((exn + unit) * VllmKVConnector) :=
  match l with
  | [] => Ret (inr tt, s)
  | (rid, (tokens, data)) :: l =>
      r ← save rid tokens data s;
      match r.1 with inl x => Ret (inl x, r.2) | inr _ => save_all l r.2 end
  end.
Definition bridge_wait_for_save (k : KVCacheVllmConnector) : prog ((exn + unit) * KVCacheVllmConnector) :=
  let '(l, a) := drain_all (_accum k) in
  r ← save_all l (_inner k);
  Ret (r.1, mkBridge r.2 a (_splitter k)).

(** The load of one request. *)
Definition load_request (rid : bytes) (dests : list (bytes * nat)) (k : KVCacheVllmConnector) : prog ((exn + unit) * KVCacheVllmConnector) :=
  match _reqs (_inner k) !! rid with
  | None => Ret (inr tt, k)
  | Some q =>
      if q_handle q =? 0 then Ret (inr tt, k)
      else
        let n_bytes := q_matched q * bytes_per_token b in
        if n_bytes <=? 0 then Ret (inr tt, k)
        else
          let '(staging, s) := alloc n_bytes (_inner k) in
          r ← start_load_kv rid staging s;
          match r.1 with
          | inl x => Ret (inl x, set_inner r.2 k)
          | inr _ =>
              r ← wait_for_layer_load rid r.2;
              match r.1 with
              | inl x => Ret (inl x, set_inner r.2 k)
              | inr _ => Ret (inr tt, mkBridge r.2 (_accum k) (stage_load rid (default [] (heap r.2 !! staging)) dests (_splitter k)))
              end
          end
  end.
Fixpoint bridge_start_load_kv (rids : list bytes) (layer_destinations : list (bytes * list (bytes * nat))) (k : KVCacheVllmConnector) : prog ((exn + unit) * KVCacheVllmConnector) :=
  match rids with
  | [] => Ret (inr tt, k)
  | rid :: rids =>
      r ← load_request rid (default [] (Sdk.dict_get rid layer_destinations)) k;
      match r.1 with inl x => Ret (inl x, r.2) | inr _ => bridge_start_load_kv rids layer_destinations r.2 end
  end.

Definition bridge_wait_for_layer_load (layer : bytes) (k : KVCacheVllmConnector) : KVCacheVllmConnector :=
  set_inner (set_heap (drain_layer layer (_splitter k) (heap (_inner k))) (_inner k)) k.

Definition request_finished (rid : bytes) (k : KVCacheVllmConnector) : prog KVCacheVllmConnector :=
  let k := mkBridge (_inner k) (_accum k) (finish_request rid (_splitter k)) in
  s ← release_request rid (_inner k);
  Ret (set_inner s k).
End Connector.

(** ** The driver (async_load.py) *)

(** Its jobs run [start_load_kv] and [wait_for_layer_load] of the connector; here a job is
    its staging buffer and, once it is done, its outcome. *)
Record LoadJob := mkLoad { l_staging : nat; l_outcome : option (exn + unit) }.
Record AsyncLoadDriver := mkAsync { a_state : gmap bytes (nat * bool); a_jobs : list LoadJob }.

Definition kick_off_load (rid : bytes) (staging : nat) (d : AsyncLoadDriver) : AsyncLoadDriver :=
  mkAsync (<[rid := (length (a_jobs d), false)]> (a_state d)) (a_jobs d ++ [mkLoad staging None]).

(** A worker's step, given what the two calls came to. *)
Definition load_done (j : nat) (r : exn + unit) (d : AsyncLoadDriver) : AsyncLoadDriver :=
  match a_jobs d !! j with
  | Some (mkLoad ref None) => mkAsync (a_state d) (<[j := mkLoad ref (Some r)]> (a_jobs d))
  | _ => d
  end.

(** A future that is done is not asked for its result; one that is not is waited for. *)
Inductive popped := Staged (r : option bytes) | Waits (j : nat).
Definition pop_staging (rid : bytes) (hp : gmap nat bytes) (d : AsyncLoadDriver) : popped * AsyncLoadDriver :=
  match a_state d !! rid with
  | None => (Staged None, d)
  | Some (j, _) =>
      (match a_jobs d !! j with Some (mkLoad ref (Some _)) => Staged (Some (default [] (hp !! ref))) | _ => Waits j end,
       mkAsync (delete rid (a_state d)) (a_jobs d))
  end.
Definition resume_pop (j : nat) (hp : gmap nat bytes) (d : AsyncLoadDriver) : option (exn + bytes) :=
  match a_jobs d !! j with
  | Some (mkLoad ref (Some (inl x))) => Some (inl x)
  | Some (mkLoad ref (Some (inr _))) => Some (inr (default [] (hp !! ref)))
  | _ => None
  end.

(** ** Layers in, layers out *)

Lemma index_lookup x l : forall i, index x l = Some i -> l !! i = Some x.
Proof.
  induction l as [|y l IH]; intros i; cbn; [done|]. case_bool_decide as E; [intros [= <-]; by rewrite E|].
  destruct (index x l) as [j|]; [|done]. intros [= <-]. by apply IH.
Qed.

Lemma index_in x l : x ∈ l -> is_Some (index x l).
Proof.
  induction l as [|y l IH]; intros I; [by apply not_elem_of_nil in I|]. cbn. case_bool_decide as E; [by eexists|].
  apply elem_of_cons in I as [->|I]; [done|]. destruct (IH I) as [j ->]. by eexists.
Qed.

(** The slice of a layer in the joined layers. *)
Lemma slice_concat (data : bytes -> bytes) per order i ln : (0 < per)%nat -> Forall (fun l => length (data l) = per) order -> order !! i = Some ln ->
  slice_of (length order) i (concat (data <$> order)) = data ln.
Proof.
  intros P F E. unfold slice_of.
  assert (length (concat (data <$> order)) = length order * per)%nat as L
    by (rewrite (TensorCodec.concat_rows_length per), length_fmap; [done|]; by apply Forall_fmap).
  pose proof (lookup_lt_Some _ _ _ E) as Li. rewrite L, Nat.mul_comm, Nat.div_mul by lia.
  rewrite <- (take_drop_middle order i ln E), fmap_app, concat_app. cbn [fmap list_fmap concat].
  assert (length (concat (data <$> take i order)) = i * per)%nat as Lt.
  { rewrite (TensorCodec.concat_rows_length per), length_fmap, length_take; [lia|]. apply Forall_fmap. by apply Forall_take. }
  rewrite <- Lt, drop_app_length. rewrite Forall_lookup in F. rewrite <- (F i ln E), take_app_length. done.
Qed.

(** A buffer of the right size takes exactly the slice. *)
Lemma fill_exact x dst : length x = length dst -> fill x dst = x.
Proof. intros L. unfold fill. rewrite L, Nat.min_id, <- L, firstn_all, L, drop_all. apply app_nil_r. Qed.

Lemma dict_get_pair {V} k (v : V) : Sdk.dict_get k [(k, v)] = Some v.
Proof. cbn. by rewrite bool_decide_true. Qed.

Lemma effective_order_full order : NoDup order -> _effective_order order (list_to_set order) = order.
Proof.
  intros _. unfold _effective_order. rewrite difference_diag_L, elements_empty. cbn. rewrite app_nil_r.
  assert (forall l, l ⊆ order -> filter (fun ln => ln ∈ (list_to_set order : gset bytes)) l = l) as G; [|by apply G].
  induction l as [|x l IH]; intros Sub; [done|]. rewrite filter_cons_True by (apply elem_of_list_to_set; set_solver). f_equal. apply IH. set_solver.
Qed.

Section Save.
Context (rid : bytes) (tokens : list Z) (data : bytes -> bytes).
Definition save_layers (ls : list bytes) (k : KVCacheVllmConnector) : KVCacheVllmConnector :=
  fold_left (fun k ln => save_kv_layer ln (data ln) [rid] [(rid, tokens)] k) ls k.

(** The layers of a request so far. *)
Definition gathered (ls : list bytes) (m : gmap bytes bytes) : gmap bytes bytes := fold_left (fun m ln => <[ln := data ln]> m) ls m.

Lemma save_step s order m sp ln : tokens <> [] -> data ln <> [] ->
  save_kv_layer ln (data ln) [rid] [(rid, tokens)] (mkBridge s (mkAccum order [(rid, m)] [(rid, tokens)]) sp) =
  mkBridge s (mkAccum order [(rid, <[ln := data ln]> m)] [(rid, tokens)]) sp.
Proof.
  intros Nt Nd. unfold save_kv_layer, _extract_save_targets. cbn [base.omap list_omap]. rewrite dict_get_pair. destruct tokens as [|t ts]; [done|]. cbn [Sdk.dict fold_left Sdk.dict_set fst snd length].
  destruct (data ln) as [|c r] eqn:Ed; [done|]. rewrite <- Ed, Nat.div_1_r. cbn [save_chunks]. rewrite firstn_all, Ed. unfold accumulate, bind_request.
  cbn [_buf _tokens _layer_order _accum _inner _splitter]. rewrite dict_get_pair. cbn [Sdk.dict_set default]. by rewrite !bool_decide_true.
Qed.

Lemma save_first s order sp ln : tokens <> [] -> data ln <> [] ->
  save_kv_layer ln (data ln) [rid] [(rid, tokens)] (mkBridge s (mkAccum order [] []) sp) = mkBridge s (mkAccum order [(rid, {[ln := data ln]})] [(rid, tokens)]) sp.
Proof.
  intros Nt Nd. unfold save_kv_layer, _extract_save_targets. cbn [base.omap list_omap]. rewrite dict_get_pair. destruct tokens as [|t ts]; [done|]. cbn [Sdk.dict fold_left Sdk.dict_set fst snd length].
  destruct (data ln) as [|c r] eqn:Ed; [done|]. rewrite <- Ed, Nat.div_1_r. cbn [save_chunks]. rewrite firstn_all, Ed. done.
Qed.

Lemma save_layers_from ls : forall s order m sp, tokens <> [] -> Forall (fun l => data l <> []) ls ->
  save_layers ls (mkBridge s (mkAccum order [(rid, m)] [(rid, tokens)]) sp) = mkBridge s (mkAccum order [(rid, gathered ls m)] [(rid, tokens)]) sp.
Proof.
  induction ls as [|ln ls IH]; intros s order m sp Nt F; [done|]. inversion F as [|?? Nd F']; subst. unfold save_layers. cbn [fold_left].
  rewrite save_step by done. by apply IH.
Qed.

Lemma gathered_lookup ls : forall m ln, gathered ls m !! ln = if bool_decide (ln ∈ ls) then Some (data ln) else m !! ln.
Proof.
  induction ls as [|x ls IH]; intros m ln; cbn; [done|]. unfold gathered in *. rewrite IH.
  destruct (decide (ln = x)) as [->|N].
  - rewrite lookup_insert_eq, (bool_decide_true (x ∈ x :: ls)) by constructor. by case_bool_decide.
  - rewrite lookup_insert_ne by done. rewrite (bool_decide_ext (ln ∈ x :: ls) (ln ∈ ls)); [done|]. rewrite elem_of_cons. tauto.
Qed.

(** All layers, in whatever order they come, are saved joined in the registered order. *)
Lemma save_drain s order sp ls : tokens <> [] -> order <> [] -> NoDup order -> Permutation ls order -> Forall (fun l => data l <> []) order ->
  exists a, drain_all (_accum (save_layers ls (mkBridge s (mkAccum order [] []) sp))) = ([(rid, (tokens, concat (data <$> order)))], a) /\
    _inner (save_layers ls (mkBridge s (mkAccum order [] []) sp)) = s /\ _splitter (save_layers ls (mkBridge s (mkAccum order [] []) sp)) = sp.
Proof.
  intros Nt No Nd Pe F. assert (Forall (fun l => data l <> []) ls) as Fl by (by rewrite Pe). destruct ls as [|x ls]; [by apply Permutation_nil in Pe|].
  inversion Fl as [|?? Nx Fl']; subst. unfold save_layers. cbn [fold_left]. rewrite save_first by done. fold (save_layers ls (mkBridge s (mkAccum order [(rid, {[x := data x]})] [(rid, tokens)]) sp)).
  rewrite save_layers_from by done. set (m := gathered ls {[x := data x]}). cbn [_accum _inner _splitter].
  assert (forall ln, m !! ln = if bool_decide (ln ∈ order) then Some (data ln) else None) as Lk.
  { intros ln. unfold m. rewrite gathered_lookup. rewrite (bool_decide_ext (ln ∈ order) (ln ∈ x :: ls)) by (by rewrite Pe). destruct (decide (ln = x)) as [->|N].
    - rewrite lookup_singleton_eq, (bool_decide_true (x ∈ x :: ls)) by constructor. by case_bool_decide.
    - rewrite lookup_singleton_ne by done. rewrite (bool_decide_ext (ln ∈ x :: ls) (ln ∈ ls)); [done|]. rewrite elem_of_cons. tauto. }
  assert (dom m = list_to_set order) as Dm.
  { apply set_eq. intros ln. rewrite elem_of_dom, elem_of_list_to_set, Lk. case_bool_decide; split; try done; by intros [? ?]. }
  unfold drain_all. cbn [_buf fmap list_fmap fst drain_from]. unfold drain_request. cbn [_buf _tokens _layer_order]. rewrite !dict_get_pair. destruct tokens as [|t ts]; [done|].
  rewrite bool_decide_false. 2: { intros Em. rewrite Em in Lk. specialize (Lk x). rewrite lookup_empty, bool_decide_true in Lk; [done|]. rewrite <- Pe. constructor. }
  rewrite Dm, effective_order_full by done. eexists. split; [|done]. do 5 f_equal. apply list_fmap_ext. intros i ln Ei. rewrite Lk, bool_decide_true; [done|]. by eapply list_elem_of_lookup_2.
Qed.
End Save.

Section Drain.
Context (order : list bytes) (data : bytes -> bytes) (per : nat) (rid : bytes) (dests : list (bytes * nat)).
Hypothesis some : (0 < per)%nat.
Hypothesis equal : Forall (fun l => length (data l) = per) order.
Hypothesis names : dests.*1 = order.
Hypothesis once : NoDup order.
Hypothesis apart : NoDup dests.*2.

Definition splitter_of : LayerSplitter := mkSplitter order [(rid, concat (data <$> order))] [(rid, dests)].

(** One layer fills its destination and touches no other buffer. *)
Lemma drain_layer_one ln ref dst h : (ln, ref) ∈ dests -> h !! ref = Some dst -> length dst = per -> drain_layer ln splitter_of h = <[ref := data ln]> h.
Proof.
  intros I Eh Ld. assert (ln ∈ order) as Io by (rewrite <- names; by apply (list_elem_of_fmap_2 fst) in I). destruct (index_in ln order Io) as [i Ei].
  unfold drain_layer, splitter_of. cbn [s_layer_order]. rewrite Ei. cbn [_blob _dests fold_left]. unfold drain_one. cbn [fst snd]. rewrite dict_get_pair. cbn [mbind option_bind].
  rewrite (Sdk.dict_get_in ln ref dests) by (by rewrite ?names). rewrite Eh.
  assert (length (data ln) = per) as Ll by (rewrite Forall_forall in equal; by apply equal).
  rewrite (slice_concat data per order i ln some equal (index_lookup _ _ _ Ei)), fill_exact by lia. done.
Qed.

Lemma drain_layers ls : forall h, Forall (fun ln => ln ∈ order) ls -> (forall ln ref, (ln, ref) ∈ dests -> exists dst, h !! ref = Some dst /\ length dst = per) ->
  forall ln ref, (ln, ref) ∈ dests ->
  let h' := fold_left (fun h ln => drain_layer ln splitter_of h) ls h in h' !! ref = if bool_decide (ln ∈ ls) then Some (data ln) else h !! ref.
Proof.
  induction ls as [|x ls IH]; intros h F Ok ln ref I; cbn [fold_left]; [done|]. inversion F as [|?? Ix F']; subst x0 l.
  rewrite <- names in Ix. apply list_elem_of_fmap in Ix as ([x' rx] & -> & Ix). cbn [fst]. destruct (Ok _ _ Ix) as (dst & Ed & Ld). rewrite (drain_layer_one x' rx dst h Ix Ed Ld).
  assert (length (data x') = per) as Lx by (rewrite Forall_forall in equal; apply equal; rewrite <- names; by apply (list_elem_of_fmap_2 fst) in Ix).
  cbn zeta. rewrite (IH (<[rx := data x']> h) F') with (ln := ln); [| |done].
  - destruct (decide (ln = x')) as [->|N].
    + assert (ref = rx) as -> by (apply (Sdk.dict_get_in x' ref dests) in I; [|by rewrite names]; apply (Sdk.dict_get_in x' rx dests) in Ix; [|by rewrite names]; congruence).
      rewrite lookup_insert_eq, (bool_decide_true (x' ∈ x' :: ls)) by constructor. by case_bool_decide.
    + assert (ref <> rx) as Nr.
      { intros ->. apply list_elem_of_lookup in I as [i Ei], Ix as [k Ek]. assert (i = k) as ->; [|congruence]. eapply (NoDup_lookup dests.*2); [done| |]; rewrite list_lookup_fmap; [by rewrite Ei|by rewrite Ek]. }
      rewrite lookup_insert_ne by done. rewrite (bool_decide_ext (ln ∈ x' :: ls) (ln ∈ ls)); [done|]. rewrite elem_of_cons. tauto.
  - intros l1 r1 I1. destruct (decide (r1 = rx)) as [->|N]; [exists (data x'); by rewrite lookup_insert_eq|rewrite lookup_insert_ne by done; by apply (Ok l1)].
Qed.
End Drain.

(** ** Programs in sequence *)

Section Sequence.
Context {K : Core} {SL : Slots K}.

Lemma run_bind {A B} e ctx (p : prog A) (f : A -> prog B) : forall n,
  run e ctx (p ≫= f) n = match run e ctx p n with (inl x, n1) => (inl x, n1) | (inr a, n1) => run e ctx (f a) n1 end.
Proof. induction p as [a|x|c k IH]; intros n; [done|done|]. cbn. destruct (perform e ctx c n) as [r n1]. apply IH. Qed.

Lemma run_attempt {A} e ctx (p : prog A) : forall n, run e ctx (attempt p) n = (inr (run e ctx p n).1, (run e ctx p n).2).
Proof. induction p as [a|x|c k IH]; intros n; [done|done|]. cbn. destruct (perform e ctx c n) as [r n1]. apply IH. Qed.
End Sequence.

Section EndToEnd.
Context (sha1 blake2b : bytes -> bytes) (tid mid : bytes).
Context {FA : TensorCodec.FloatArith} {FB : TensorCodec.FloatBits FA} (zstd : option ((bytes -> option bytes) * (nat -> bytes -> option bytes))).
Context (Blake3_128 : bytes -> bytes) (mmap : bool) (ne : Nvme.env) (ce : Cold.env) (o : TierManager.Options) {C : Cold.IColdTier} `{CL : !Cold.Laws C}.
Context (mk : Cold.St C -> TierManager.Manager C) (c0 : Cold.St C) (memory : bytes) (wal : option StateWal.Wal).

#[local] Instance K : Core := headless Blake3_128 (C := C).
#[local] Instance SK : Slots K := EngineWrite (C := C).
Notation amid := (amid Blake3_128 (C := C)).

Lemma amid_bind {A B} ctx (p : prog A) (f : A -> prog B) : forall u n tr r n', amid ctx u (p ≫= f) n tr r n' ->
  (exists x, r = inl x /\ amid ctx u p n tr (inl x) n') \/
  (exists a n1 u1 tr1 tr2, tr = tr1 ++ tr2 /\ amid ctx u p n tr1 (inr a) n1 /\ amid ctx u1 (f a) n1 tr2 r n').
Proof.
  induction p as [a|x|c k IH]; intros u n tr r n' H.
  - right. by exists a, n, u, [], tr.
  - left. exists x. cbn in H. naive_solver.
  - cbn in H. destruct H as (e & n1 & tr' & -> & G & H). apply IH in H as [(x & -> & H)|(a & n2 & u2 & tr1 & tr2 & -> & H1 & H2)].
    + left. exists x. split; [done|]. exists e, n1, tr'. done.
    + right. exists a, n2, u2, ((c, n1) :: tr1), tr2. split; [done|]. split; [|done]. exists e, n1, tr1. done.
Qed.

Lemma amid_attempt {A} ctx (p : prog A) : forall u n tr r n', amid ctx u (attempt p) n tr (inr r) n' -> amid ctx u p n tr r n'.
Proof.
  induction p as [a|x|c k IH]; intros u n tr r n' H; [cbn in H |- *; naive_solver..|]. cbn in H |- *. destruct H as (e & n1 & tr' & -> & G & H).
  exists e, n1, tr'. split; [done|]. split; [done|]. by apply IH.
Qed.

(** A save that returned has committed its bytes. *)
Lemma save_amid ctx b rid tokens d s n tr s' n' : compress b = false ->
  amid ctx None (save_all sha1 blake2b tid mid zstd b [(rid, (tokens, d))] s) n tr (inr (inr tt, s')) n' ->
  amid ctx None (commit sha1 blake2b tid mid tokens d) n tr (inr tt) n' /\ d <> [] /\ heap s' = heap s /\ next_ref s' = next_ref s.
Proof.
  intros Nc H. cbn [save_all] in H. apply amid_bind in H as [(x & ? & _)|([r s1] & n1 & u1 & tr1 & tr2 & -> & H & H2)]; [done|]. cbn [fst snd] in H2.
  destruct r as [x|[]]; cbn in H2; [naive_solver|]. destruct H2 as (-> & [= ->] & ->). rewrite app_nil_r. unfold save in H.
  apply amid_bind in H as [(x & ? & _)|(r & n2 & u2 & tr3 & tr4 & -> & H & H2)]; [done|]. apply amid_attempt in H.
  destruct r as [x|[]]; cbn in H2; [naive_solver|]. destruct H2 as (-> & E & ->). injection E as ->. rewrite app_nil_r. unfold store in H. rewrite Nc in H.
  do 2 (case_bool_decide; [by destruct H as (_ & ? & _)|]). done.
Qed.

Lemma run_lookup_hit e ctx tokens n a n' : forallb fits_u32 tokens = true ->
  Lookup Blake3_128 (tenant_id_hash ctx) (Abi.model_id_hash ctx) tokens n = ((KV_OK, Some a), n') ->
  run e ctx (lookup tokens) n = (inr (Some (mkHit (a_matched_tokens a) (a_handle a))), n').
Proof. intros F L. unfold lookup, tok_arr. rewrite F. cbn. by rewrite L. Qed.

Lemma run_fetch_exact (e : headless_env (C := C)) ctx h d n : x_io e = mkTransfer true true true ->
  (forall lg i now l, (Fetch lg now i (mkTransfer true true true) h (Some l) n).1 = (if l <? zlen d then (KV_E_NOMEM, None) else (KV_OK, Some d))) ->
  (run e ctx (fetch h (bytearray (zlen d))) n).1 = inr d.
Proof.
  intros X F. unfold fetch. cbn. assert (zlen (bytearray (zlen d)) = zlen d) as L by (unfold bytearray; rewrite length_replicate; lia). rewrite L, X.
  specialize (F (log_ok e) (f_io e) (now e) (zlen d)). rewrite Z.ltb_irrefl in F. destruct (Fetch _ _ _ _ _ _ _) as [[rc od] n7]. cbn in F. injection F as -> ->. cbn.
  rewrite drop_ge by (apply Nat2Z.inj_le; lia). by rewrite app_nil_r.
Qed.

(** The load of a request with a hit stages what was stored. *)
Lemma load_staged (e : headless_env (C := C)) ctx b rid q dests k n d : compress b = false -> 0 < zlen d ->
  _reqs (_inner k) !! rid = Some q -> q_handle q <> 0 -> comp_buf q = None -> q_matched q * bytes_per_token b = zlen d -> x_io e = mkTransfer true true true ->
  (forall lg i now l, (Fetch lg now i (mkTransfer true true true) (q_handle q) (Some l) n).1 = (if l <? zlen d then (KV_E_NOMEM, None) else (KV_OK, Some d))) ->
  exists k', (run e ctx (bridge_start_load_kv zstd b [rid] [(rid, dests)] k) n).1 = inr (inr tt, k') /\
    _splitter k' = stage_load rid d dests (_splitter k) /\ heap (_inner k') = <[next_ref (_inner k) := d]> (heap (_inner k)).
Proof.
  intros Nc Ld Eq Hh Cb Sz X F. cbn [bridge_start_load_kv]. rewrite dict_get_pair. cbn [from_option]; unfold id. rewrite run_bind.
  unfold load_request. rewrite Eq, (proj2 (Z.eqb_neq _ _) Hh), Sz. rewrite (proj2 (Z.leb_gt _ _) Ld). unfold alloc. rewrite run_bind.
  unfold start_load_kv. cbn [_reqs heap]. rewrite Eq, (proj2 (Z.eqb_neq _ _) Hh), Sz, Nc, lookup_insert_eq. cbn [from_option]; unfold id.
  assert (zlen (bytearray (zlen d)) = zlen d) as L by (unfold bytearray; rewrite length_replicate; lia). rewrite L, Z.ltb_irrefl.
  unfold fetch_into. cbn [heap]. rewrite lookup_insert_eq. cbn [from_option]; unfold id. rewrite run_bind, run_attempt. rewrite (run_fetch_exact e ctx _ d n X F).
  destruct (run (K := K) e ctx (fetch _ _) n) as [r1 n1]. cbn [run fst snd]. rewrite run_bind. unfold wait_for_layer_load. rewrite run_bind, run_attempt. cbn [run wait perform kv_wait expect fst snd].
  unfold set_heap. cbn [_reqs]. rewrite Eq, Cb. cbn [run fst snd]. eexists. split; [reflexivity|]. cbn [_splitter _inner loaded set_req heap]. rewrite lookup_insert_eq. cbn [from_option]; unfold id. by rewrite insert_insert_eq.
Qed.

Hypothesis sha1_length : forall b, length (sha1 b) = 20%nat.
Hypothesis blake2b_length : forall b, length (blake2b b) = 16%nat.
Hypothesis Blake3_128_length : forall b, length (Blake3_128 b) = 16%nat.
Hypothesis created : TierManager.Create mmap ne ce o = Some (existT C mk).
Hypothesis sane : NodeCorrect.options_ok ne o.
Hypothesis mapped : zlen memory = Ingest.pool_bytes (TierManager.pinned o).
Notation Reach := (NodeCorrect.reach Blake3_128 locator_ok (Init (mk c0) memory wal)).

(** The destinations an engine may give: a buffer of the size of a layer for each layer. *)
Record destinations_ok (order : list bytes) (per : nat) (dests : list (bytes * nat)) (s : VllmKVConnector) : Prop := {
  d_names : dests.*1 = order;
  d_apart : NoDup dests.*2;
  d_buffers : forall ln ref, (ln, ref) ∈ dests -> (ref < next_ref s)%nat /\ exists dst, heap s !! ref = Some dst /\ length dst = per }.

(** [C30] The layers of a request come back. With compression off, layers of equal size whose
    bytes together are those of the whole chunks of 16 or more tokens: an engine registers
    its layers, saves each of them in any order, and waits for the save, which joins and
    stores them among the calls of other clients, the key not in DRAM when it seals; a
    request with the same tokens then, alone, matches all whole chunks, and once its load
    has started, its transfer succeeding, each layer that is waited for is in its
    destination. *)
Theorem layers_come_back ctx b order per data tokens rid rid' ls s0 n0 tr k1 n5 (e : headless_env (C := C)) dests :
  order <> [] -> NoDup order -> (0 < per)%nat -> Forall (fun l => length (data l) = per) order -> Permutation ls order ->
  compress b = false -> Z.of_nat (length order * per) = 16 * NodeCorrect.whole tokens * bytes_per_token b ->
  Reach n0 -> NodeCorrect.room n0 -> (Lpm.kChunkTokens <= length tokens)%nat -> zlen tokens < 2 ^ 32 ->
  let k0 := register_kv_caches order (mkBridge s0 new_accumulator new_splitter) in
  amid ctx None (bridge_wait_for_save sha1 blake2b tid mid zstd b (save_layers rid tokens data ls k0)) n0 tr (inr (inr tt, k1)) n5 ->
  (forall h n4, (KvSeal h tokens, n4) ∈ tr -> TierManager.dram_at (tm_ n4) (LocatorContentKey (locator_for sha1 blake2b tid mid tokens)) = None) ->
  x_io e = mkTransfer true true true -> destinations_ok order per dests s0 ->
  exists k2 n6 k3, run e ctx (bridge_matched rid' tokens 0 k1) n5 = (inr (inr (16 * NodeCorrect.whole tokens, false), k2), n6) /\
    (run e ctx (bridge_start_load_kv zstd b [rid'] [(rid', dests)] k2) n6).1 = inr (inr tt, k3) /\
    forall ls' ln ref, Forall (fun l => l ∈ order) ls' -> (ln, ref) ∈ dests -> ln ∈ ls' ->
      heap (_inner (fold_left (fun k l => bridge_wait_for_layer_load l k) ls' k3)) !! ref = Some (data ln).
Proof.
  intros No Nd Pp Fp Pe Nc Sz R B L16 L32 k0 Am Ab X D.
  assert (Forall (fun l => data l <> []) order) as Fd by (eapply Forall_impl; [exact Fp|]; intros l Ll E; cbn in Ll; rewrite E in Ll; cbn in Ll; lia).
  destruct (save_drain rid tokens data s0 order (mkSplitter order [] []) ls ltac:(intros ->; unfold Lpm.kChunkTokens in L16; cbn in L16; lia) No Nd Pe Fd) as (a & Dr & Ei & Es).
  unfold bridge_wait_for_save in Am. change k0 with (mkBridge s0 (mkAccum order [] []) (mkSplitter order [] [])) in Am. rewrite Dr, Ei, Es in Am.
  set (d := concat (data <$> order)) in *.
  apply amid_bind in Am as [(x & ? & _)|([r s1] & n1 & u1 & tr1 & tr2 & -> & Am & H2)]; [done|]. cbn in H2. destruct H2 as (-> & [= <- ->] & ->). rewrite app_nil_r in Ab.
  destruct (save_amid _ _ _ _ _ _ _ _ _ _ Nc Am) as (Cm & Nb & Hp & Nr).
  destruct (commit_found sha1 blake2b tid mid Blake3_128 mmap ne ce o mk c0 memory wal sha1_length blake2b_length Blake3_128_length created sane mapped
    ctx tokens d n0 tr1 n1 R B Nb L16 L32 Cm Ab) as (hr & n6 & Lk & Hr & _ & _ & F).
  pose proof (commit_fits _ _ _ _ _ _ _ _ _ _ _ Cm) as Ft.
  set (q := mkReq (16 * NodeCorrect.whole tokens) hr false false None None).
  set (k2 := mkBridge (set_req rid' q s1) a (mkSplitter order [] [])).
  assert (zlen d = 16 * NodeCorrect.whole tokens * bytes_per_token b) as Ld
    by (rewrite <- Sz; unfold d; rewrite (TensorCodec.concat_rows_length per), length_fmap; [done|]; by apply Forall_fmap).
  destruct (load_staged e ctx b rid' q dests k2 n6 d Nc ltac:(destruct d; [done|cbn; lia]) ltac:(apply lookup_insert_eq) ltac:(cbn; lia) eq_refl ltac:(cbn; lia) X F)
    as (k3 & Lo & Sp & Hk). exists k2, n6, k3. split; [|split; [exact Lo|]].
  - unfold bridge_matched, get_num_new_matched_tokens. rewrite !run_bind, run_attempt, (run_lookup_hit _ _ _ _ _ _ Ft Lk). cbn [run fst snd matched_tokens handle a_matched_tokens a_handle].
    rewrite Z.max_r, Z.sub_0_r by (unfold NodeCorrect.whole; lia). done.
  - intros ls' ln ref Fl I Il.
    assert (forall l k, _splitter k = splitter_of order data rid' dests ->
      heap (_inner (fold_left (fun k l => bridge_wait_for_layer_load l k) l k)) = fold_left (fun h l => drain_layer l (splitter_of order data rid' dests) h) l (heap (_inner k))) as G.
    { induction l as [|x l IH]; intros k E; [done|]. cbn [fold_left]. rewrite IH by done. cbn. by rewrite E. }
    rewrite G by (rewrite Sp; done). destruct D as [Dn Da Db]. rewrite Hk. cbn [k2 _inner set_req heap next_ref]. rewrite Hp, Nr.
    rewrite (drain_layers order data per rid' dests Pp Fp Dn Nd Da ls' _ Fl) with (ln := ln); [by rewrite bool_decide_true| |done].
    intros l1 r1 I1. destruct (Db l1 r1 I1) as [Lt (dst & E & Ll)]. exists dst. by rewrite lookup_insert_ne by lia.
Qed.
End EndToEnd.

(** ** Examples *)

#[local] Instance ex_K : Core := headless Lpm.pad16 (C := TierManager.w_C).
#[local] Instance ex_S : Slots ex_K := EngineWrite (C := TierManager.w_C).
Definition ex_b : Backend := mkBackend 1 false 8.
Definition ex_order : list bytes := [str "l0"; str "l1"].
Definition ex_data (ln : bytes) : bytes := replicate 8 (if bool_decide (ln = str "l0") then x0a else x0b).
Definition ex_s0 : VllmKVConnector := mkConn ∅ {[0%nat := bytearray 8; 1%nat := bytearray 8]} 2.
Definition ex_dests : list (bytes * nat) := [(str "l0", 0%nat); (str "l1", 1%nat)].
Definition ex_k0 : KVCacheVllmConnector := register_kv_caches ex_order (mkBridge ex_s0 new_accumulator new_splitter).
Notation ex_saving := (bridge_wait_for_save ex_sha1 Lpm.pad16 (str "t") (str "m") (FB := TensorCodec.float32_bits) None ex_b
  (save_layers (str "r") Lpm.tokens16 ex_data [str "l1"; str "l0"] ex_k0)).
Definition ex_k1 : KVCacheVllmConnector := match (run ex_e ex_ctx ex_saving ex_node).1 with inr (_, k) => k | inl _ => ex_k0 end.
Definition ex_n5 : Node TierManager.w_C := (run ex_e ex_ctx ex_saving ex_node).2.

Lemma layers_come_back_witness :
  exists k2 n6 k3, run ex_e ex_ctx (bridge_matched (str "q") Lpm.tokens16 0 ex_k1) ex_n5 = (inr (inr (16, false), k2), n6) /\
    (run ex_e ex_ctx (bridge_start_load_kv (FB := TensorCodec.float32_bits) None ex_b [str "q"] [(str "q", ex_dests)] k2) n6).1 = inr (inr tt, k3) /\
    heap (_inner (bridge_wait_for_layer_load (str "l1") k3)) !! 1%nat = Some (replicate 8 x0b).
Proof.
  destruct (layers_come_back ex_sha1 Lpm.pad16 (str "t") (str "m") (FB := TensorCodec.float32_bits) None Lpm.pad16 true Nvme.w_env TierManager.w_cenv ex_options (CL := TierManager.w_laws)
    ex_new (∅ : Cold.Files) ex_memory None (fun b => ltac:(unfold ex_sha1; rewrite length_take, length_app, length_replicate; lia)) Lpm.pad16_length Lpm.pad16_length ex_create ex_options_ok eq_refl
    ex_ctx ex_b ex_order 8 ex_data Lpm.tokens16 (str "r") (str "q") [str "l1"; str "l0"] ex_s0 ex_node (calls Lpm.pad16 ex_e ex_ctx ex_saving ex_node) ex_k1 ex_n5 ex_env ex_dests)
    as (k2 & n6 & k3 & M & L & H).
  - discriminate.
  - apply (bool_decide_eq_true_1 (NoDup ex_order)). vm_compute. reflexivity.
  - lia.
  - repeat constructor.
  - apply Permutation_swap.
  - reflexivity.
  - vm_compute. reflexivity.
  - constructor.
  - apply NodeCorrect.w_room; [vm_compute; auto|vm_compute; reflexivity].
  - vm_compute. lia.
  - vm_compute. reflexivity.
  - pose proof (run_amid Lpm.pad16 ex_e ex_ctx ex_saving None ex_node) as X. fold ex_n5 in X.
    assert ((run ex_e ex_ctx ex_saving ex_node).1 = inr (inr tt, ex_k1)) as E.
    { unfold ex_k1. assert (match (run ex_e ex_ctx ex_saving ex_node).1 with inr (inr _, _) => true | _ => false end = true) as Y by (vm_compute; reflexivity).
      destruct ((run ex_e ex_ctx ex_saving ex_node).1) as [|[[|[]] k]]; try discriminate Y. reflexivity. }
    exact (eq_ind _ (fun r => amid _ _ _ _ _ _ r _) X _ E).
  - intros h n4 In. assert (forallb (fun x => match x.1 with KvSeal _ _ => bool_decide (TierManager.dram_at (tm_ x.2) (LocatorContentKey (locator_for ex_sha1 Lpm.pad16 (str "t") (str "m") Lpm.tokens16)) = None) | _ => true end)
      (calls Lpm.pad16 ex_e ex_ctx ex_saving ex_node) = true) as F by (vm_compute; reflexivity).
    rewrite forallb_forall in F. apply list_elem_of_In in In. exact (bool_decide_eq_true_1 _ (F _ In)).
  - reflexivity.
  - constructor; [reflexivity|apply (bool_decide_eq_true_1 (NoDup ex_dests.*2)); vm_compute; reflexivity|].
    intros ln ref In. repeat (apply elem_of_cons in In as [[= -> ->]|In]; [split; [cbn; lia|]; eexists; split; reflexivity|]). by apply not_elem_of_nil in In.
  - exists k2, n6, k3. split; [exact M|]. split; [exact L|]. apply (H [str "l1"] (str "l1") 1%nat).
    + repeat constructor.
    + right. left.
    + left.
Defined.

(** The scheduler asks for a request twice before it is admitted: the entry of the second
    lookup replaces the first, whose handle nobody releases. *)
Example asking_twice_loses_a_handle :
  let ask := get_num_new_matched_tokens (str "q") Lpm.tokens16 0 in
  let '(_, n) := run ex_e ex_ctx (r ← ask ex_s0; r ← ask r.2; release_request (str "q") r.2) ex_n5 in
  size (handles_ (C := TierManager.w_C) ex_n5) = O /\ size (handles_ (C := TierManager.w_C) n) = 1%nat.
Proof. vm_compute. split; reflexivity. Qed.

(** Layers without tokens are not kept for the next time. *)
Example unbound_layers_are_dropped :
  let a := accumulate (str "r") (str "l0") [x01] (register_layer_order ex_order new_accumulator) in drain_all a = ([], register_layer_order ex_order new_accumulator).
Proof. reflexivity. Qed.

(** A load that has failed by the time it is popped is taken for zeros. *)
Example failed_load_is_taken :
  let hp := {[0%nat := bytearray 4]} in
  let d := load_done 0 (inl (KVCacheError (str "kv_fetch") KV_E_NOT_FOUND)) (kick_off_load (str "q") 0 (mkAsync ∅ [])) in
  (pop_staging (str "q") hp d).1 = Staged (Some [x00; x00; x00; x00]).
Proof. reflexivity. Qed.

End Vllm.
