(* ===== verification/Identity.v ===== *)
(** * Identities of tenants

    The allow-list of a tenant on its way to the nodes. The operator publishes the
    identities of a tenant to etcd and prunes the ones that were dropped
    (operator/internal/controller/identity_publisher.go); the node keeps the registry of
    Mtls.v in step with what is published (kvstore-node/src/cluster/identity_watcher.cpp).

    etcd is the store of Etcd.v, whose calls by other clients may come between those of the
    publisher; a call of the publisher may fail before or after it took effect. JSON and
    SHA-256 are parameters: a document is read as the values of its members that are strings.

    The theorems: after a publication that returned, the tenant's subtree is the allow-list
    ([publish_exact]); a node that gets every change has in its registry exactly the
    published identities, as long as no two entries share a name and an entry that is
    overwritten keeps its names ([identities_follow]). The example shows what becomes of a
    name that is replaced. *)

From S2P Require Import Prelude Mtls Etcd.
From stdpp Require Import sorting.
From Stdlib Require Import ZArith Lia.

Open Scope Z_scope.

Module Identity.

Import Mtls Etcd.

(** ** The watcher (identity_watcher.cpp) *)

Definition kIdentitiesPrefix : bytes := str "/kvcache/identities/".

Record Entry := mkEntry { spiffe_id : bytes; cn : bytes; identity : Identity }.

Section Json.
(** The string members of a document that is an object. *)
Context (parse : bytes -> option (bytes -> option bytes)).

Definition kind_of_string (k : bytes) : IdentityKind :=
  if bool_decide (k = str "tenant") then kTenant else if bool_decide (k = str "internal") then kInternal
  else if bool_decide (k = str "admin") then kAdmin else kUnknown.

Definition ParseEntry (json : bytes) : option Entry :=
  match parse json with
  | None => None
  | Some j =>
      let s := default [] (j (str "spiffe_id")) in
      let c := default [] (j (str "cn")) in
      match s, c with
      | [], [] => None
      | _, _ => Some (mkEntry s c (mkIdentity (default kUnknown (kind_of_string <$> j (str "kind"))) c (replicate 16 x00) [] (default [] (j (str "tenant")))))
      end
  end.

Definition Apply (e : Entry) (r : Registry) : Registry :=
  let r := match spiffe_id e with [] => r | s => (UpsertSpiffeMapping s (identity e) r).2 end in
  match cn e with [] => r | c => (UpsertMapping c (identity e) r).2 end.

Definition Remove (e : Entry) (r : Registry) : Registry :=
  let r := match spiffe_id e with [] => r | s => (RemoveSpiffeMapping s r).2 end in
  match cn e with [] => r | c => (RemoveMapping c r).2 end.

Definition seed (r : Registry) (x : KeyValue) : Registry := match ParseEntry (value x) with Some e => Apply e r | None => r end.

Definition on_event (r : Registry) (ev : WatchEvent) : Registry :=
  match type ev with
  | kPut => match ParseEntry (value (kv ev)) with Some e => Apply e r | None => r end
  | kDelete => match ParseEntry (value (prev_kv ev)) with Some e => Remove e r | None => r end
  end.

(** [Start]; [listed]: the list could be read. *)
Definition Start (listed : bool) (prefix : bytes) (r : Registry) (c : Client) : option Z * Registry * Client :=
  if negb listed then (None, r, c)
  else
    let r := fold_left seed (GetPrefix prefix c) r in
    let '(h, c) := WatchPrefix prefix c in
    (Some h, r, c).
End Json.

(** ** The publisher (identity_publisher.go) *)

Record TenantIdentity := mkTenantIdentity { SpiffeID : bytes; CN : bytes; Kind : bytes }.
Record IdentityEtcdPayload := mkPayload { p_spiffe : bytes; p_cn : bytes; p_tenant : bytes; p_kind : bytes; p_schema : Z }.
Definition identityEtcdSchemaVersion : Z := 1.

Definition IdentitiesPrefixFor (cluster tenantID : bytes) : bytes := str "/kvcache/identities/" ++ cluster ++ str "/" ++ tenantID ++ str "/".

Section Publisher.
Context (sha256 : bytes -> bytes) (marshal : IdentityEtcdPayload -> option bytes).

(** A rune that a key may hold. *)
Definition key_rune (b : byte) : bool :=
  let z := byte_val b in
  ((97 <=? z) && (z <=? 122)) || ((65 <=? z) && (z <=? 90)) || ((48 <=? z) && (z <=? 57)) || (z =? 46) || (z =? 95) || (z =? 45).
(** The runes of a string in UTF-8: a byte that continues a rune adds nothing. *)
Definition sanitise (raw : bytes) : bytes :=
  concat ((fun b => if key_rune b then [b] else if (128 <=? byte_val b) && (byte_val b <? 192) then [] else [x2d]) <$> raw).

Definition hex_digit (z : Z) : byte := byte_of (if z <? 10 then 48 + z else 87 + z).
Definition hex (l : bytes) : bytes := concat ((fun b => [hex_digit (byte_val b / 16); hex_digit (byte_val b mod 16)]) <$> l).

Definition safeIdentityKey (id : TenantIdentity) : bytes :=
  let raw := match SpiffeID id with [] => str "cn:" ++ CN id | s => s end in
  take 80 (sanitise raw) ++ str "-" ++ take 8 (hex (sha256 raw)).

Fixpoint desired_from (prefix tenantID : bytes) (ids : list TenantIdentity) (out : gmap bytes bytes) : option (gmap bytes bytes) :=
  match ids with
  | [] => Some out
  | id :: ids =>
      match SpiffeID id, CN id with
      | [], [] => desired_from prefix tenantID ids out
      | _, _ =>
          let kind := match Kind id with [] => str "tenant" | k => k end in
          match marshal (mkPayload (SpiffeID id) (CN id) tenantID kind identityEtcdSchemaVersion) with
          | None => None
          | Some body => desired_from prefix tenantID ids (<[prefix ++ safeIdentityKey id := body]> out)
          end
      end
  end.
Definition desiredEntries (cluster tenantID : bytes) (ids : list TenantIdentity) : option (gmap bytes bytes) :=
  desired_from (IdentitiesPrefixFor cluster tenantID) tenantID ids ∅.

(** What comes before a call of the publisher, and what becomes of the call: it is made, it
    fails, or it is made and its answer is lost. *)
Inductive fate := Made | Failed | Lost.
Record call_env := mkCall { meanwhile : list op; fate_ : fate }.

Definition try (e : call_env) (f : Client -> Client) (c : Client) : bool * Client :=
  let c := (run (meanwhile e) c).2 in
  match fate_ e with Made => (true, f c) | Failed => (false, c) | Lost => (false, f c) end.

(** The calls one after the other, up to the first error. *)
Fixpoint each {A} (env : nat -> call_env) (i : nat) (f : A -> Client -> Client) (l : list A) (c : Client) : bool * nat * Client :=
  match l with
  | [] => (true, i, c)
  | x :: l => let '(ok, c) := try (env i) (f x) c in if ok then each env (S i) f l c else (false, S i, c)
  end.

(** [order]: the entries in the order in which the map is iterated. *)
Definition PublishIdentities (env : nat -> call_env) (endpoints : bool) (dialled : bool) (cluster tenantID : bytes) (ids : list TenantIdentity)
    (order : gmap bytes bytes -> list (bytes * bytes)) (c : Client) : bool * Client :=
  if negb endpoints || negb dialled then (false, c)
  else match desiredEntries cluster tenantID ids with
       | None => (false, c)
       | Some desired =>
           let '(ok, i, c) := each env 0 (fun kv c => (Put kv.1 kv.2 kNoLease c).2) (order desired) c in
           if negb ok then (false, c)
           else
             let prefix := IdentitiesPrefixFor cluster tenantID in
             let '(ok, c) := try (env i) (fun c => c) c in
             if negb ok then (false, c)
             else
               let stale := filter (fun k => desired !! k = None) (key <$> GetPrefix prefix c) in
               let '(ok, _, c) := each env (S i) (fun k c => (Delete k c).2) stale c in
               (ok, c)
       end.

(** *** A publication makes the subtree the allow-list *)

Definition held (p : bytes) (c : Client) : gmap bytes bytes := value <$> under p (kvs_ c).

(** What others do meanwhile leaves the subtree alone. *)
Definition quiet (p : bytes) (e : call_env) : Prop := forall c, WF c -> under p (kvs_ (run (meanwhile e) c).2) = under p (kvs_ c).

Lemma held_put p k v c : has_prefix p k = true -> held p (Put k v kNoLease c).2 = <[k := v]> (held p c).
Proof. intros P. unfold held, Put. cbn [Z.eqb kNoLease negb andb]. cbn. by rewrite under_insert, P, fmap_insert. Qed.

Lemma held_delete p k c : has_prefix p k = true -> held p (Delete k c).2 = delete k (held p c).
Proof.
  intros P. unfold held, Delete. destruct (kvs_ c !! k) as [x|] eqn:E; cbn; [by rewrite under_delete, P, fmap_delete|].
  symmetry. apply delete_id. rewrite lookup_fmap. unfold under. assert (filter (fun e => has_prefix p e.1 = true) (kvs_ c) !! k = None) as ->; [|done].
  apply map_lookup_filter_None. by left.
Qed.

(** A sequence of calls that was made, by what each does to the subtree. *)
Lemma each_held {A} (p : bytes) (env : nat -> call_env) (f : A -> Client -> Client) (g : A -> gmap bytes bytes -> gmap bytes bytes) (l : list A) :
  (forall i, quiet p (env i)) -> (forall x c, x ∈ l -> held p (f x c) = g x (held p c)) -> (forall x c, WF c -> WF (f x c)) ->
  forall i c ok j c', WF c -> each env i f l c = (ok, j, c') -> WF c' /\ (ok = true -> held p c' = fold_left (fun m x => g x m) l (held p c)).
Proof.
  intros Q G W. induction l as [|x l IH]; intros i c ok j c' Wc; cbn [each]; [by intros [= <- <- <-]|]. unfold try.
  pose proof (run_WF (meanwhile (env i)) c Wc) as W1. pose proof (Q i c Wc) as H1. set (c1 := (run (meanwhile (env i)) c).2) in *.
  destruct (fate_ (env i)); [|by intros [= <- <- <-]|intros [= <- <- <-]; split; [by apply W|done]]. intros E.
  destruct (IH ltac:(intros; apply G; by right) _ _ _ _ _ (W x c1 W1) E) as [W2 H2]. split; [done|]. intros Ok. rewrite (H2 Ok), G by (by left). cbn [fold_left].
  unfold held. by rewrite H1.
Qed.

Lemma fold_insert_lookup (l : list (bytes * bytes)) : NoDup l.*1 -> forall (m : gmap bytes bytes) k,
  fold_left (fun (m : gmap bytes bytes) (x : bytes * bytes) => <[x.1 := x.2]> m) l m !! k = match (list_to_map l : gmap bytes bytes) !! k with Some v => Some v | None => m !! k end.
Proof.
  induction l as [|[k0 v0] l IH]; intros N m k; cbn [fold_left list_to_map foldr fst snd]; [by rewrite lookup_empty|]. cbn in N. apply NoDup_cons in N as [N0 N].
  rewrite IH by done. destruct (decide (k = k0)) as [->|Ne].
  - rewrite lookup_insert_eq, lookup_insert_eq. by rewrite not_elem_of_list_to_map_1.
  - by rewrite !lookup_insert_ne.
Qed.

Lemma fold_delete_lookup l : forall (m : gmap bytes bytes) k, fold_left (fun m x => delete x m) l m !! k = if bool_decide (k ∈ l) then None else m !! k.
Proof.
  induction l as [|x l IH]; intros m k; cbn [fold_left]; [done|]. rewrite IH. destruct (decide (k = x)) as [->|N].
  - rewrite lookup_delete_eq, (bool_decide_true (x ∈ x :: l)) by constructor. by case_bool_decide.
  - rewrite lookup_delete_ne by done. rewrite (bool_decide_ext (k ∈ x :: l) (k ∈ l)); [done|]. rewrite elem_of_cons. tauto.
Qed.

Lemma elem_GetPrefix p c : WF c -> forall x, x ∈ GetPrefix p c <-> under p (kvs_ c) !! key x = Some x.
Proof.
  intros W x. unfold GetPrefix. rewrite merge_sort_Permutation, list_elem_of_fmap. split.
  - intros ([k y] & -> & I). apply elem_of_map_to_list in I. cbn. pose proof I as I'. apply map_lookup_filter_Some in I' as [E _]. by destruct (wf_kvs c W _ _ E) as [-> _].
  - intros E. exists (key x, x). split; [done|]. by apply elem_of_map_to_list.
Qed.

Lemma desired_prefix (p t : bytes) ids : forall (out m : gmap bytes bytes), (forall k, is_Some (out !! k) -> has_prefix p k = true) -> desired_from p t ids out = Some m -> forall k, is_Some (m !! k) -> has_prefix p k = true.
Proof.
  induction ids as [|id ids IH]; intros out m H; cbn [desired_from]; [by intros [= <-]|].
  assert (forall b k, is_Some (<[p ++ safeIdentityKey id := b]> out !! k) -> has_prefix p k = true) as H'.
  { intros b k [v [[<- _]|[_ E]]%lookup_insert_Some]; [|apply H; by eexists]. apply bool_decide_true. by apply prefix_app_r. }
  destruct (SpiffeID id), (CN id); [by apply IH| | |]; destruct (marshal _); try done; apply IH, H'.
Qed.

(** An identity that has a name, and its document. *)
Definition named (id : TenantIdentity) : Prop := SpiffeID id <> [] \/ CN id <> [].
Definition document (tenantID : bytes) (id : TenantIdentity) : option bytes :=
  marshal (mkPayload (SpiffeID id) (CN id) tenantID (match Kind id with [] => str "tenant" | k => k end) identityEtcdSchemaVersion).

(** The last identity of the list under a key, with its document. *)
Definition last_at (p t : bytes) (ids : list TenantIdentity) (k v : bytes) : Prop :=
  exists l1 id l2, ids = l1 ++ id :: l2 /\ named id /\ k = p ++ safeIdentityKey id /\ document t id = Some v /\
    Forall (fun id' => named id' -> safeIdentityKey id' <> safeIdentityKey id) l2.

Lemma named_cases id : (SpiffeID id = [] /\ CN id = []) \/ named id.
Proof. unfold named. destruct (SpiffeID id), (CN id); auto. Qed.

Lemma desired_from_named p t id ids out : named id ->
  desired_from p t (id :: ids) out = (b ← document t id; desired_from p t ids (<[p ++ safeIdentityKey id := b]> out)).
Proof. unfold document. cbn [desired_from]. intros [N|N]; destruct (SpiffeID id), (CN id); try done; by destruct (marshal _). Qed.

Lemma desired_spec (p t : bytes) ids : forall (out m : gmap bytes bytes), desired_from p t ids out = Some m -> forall k v,
  m !! k = Some v <-> last_at p t ids k v \/ (Forall (fun id => named id -> k <> p ++ safeIdentityKey id) ids /\ out !! k = Some v).
Proof.
  induction ids as [|id ids IH]; intros out m E k v.
  { injection E as <-. split; [intros H; right; by split|]. intros [(l1 & x & l2 & E & _)|[_ H]]; [by destruct l1|done]. }
  destruct (named_cases id) as [[E1 E2]|N].
  - cbn [desired_from] in E. rewrite E1, E2 in E. rewrite (IH _ _ E k v). assert (~ named id) as N by (intros [?|?]; congruence). split.
    + intros [(l1 & x & l2 & -> & H)|[F H]]; [left; by exists (id :: l1), x, l2|right; split; [by constructor|done]].
    + intros [([|y l1] & x & l2 & [= <- ->] & H)|[F H]]; [by destruct H|left; by exists l1, x, l2|right]. by inversion F.
  - rewrite desired_from_named in E by done. destruct (document t id) as [b|] eqn:D; [|done]. cbn in E. rewrite (IH _ _ E k v). split.
    + intros [(l1 & x & l2 & -> & H)|[F H]]; [left; by exists (id :: l1), x, l2|]. apply lookup_insert_Some in H as [[<- <-]|[Ne H]].
      * left. exists [], id, ids. split_and!; [done..|]. eapply Forall_impl; [exact F|]. intros y Hy Ny Ey. apply (Hy Ny). by rewrite Ey.
      * right. split; [|done]. constructor; [by intros _ ->|done].
    + intros [([|y l1] & x & l2 & [= <- ->] & H)|[F H]]; [|left; by exists l1, x, l2|].
      * destruct H as (_ & -> & Dx & F). right. split; [|rewrite lookup_insert_eq; congruence].
        eapply Forall_impl; [exact F|]. intros y Hy Ny Ey%app_inv_head. by apply (Hy Ny).
      * inversion F as [|?? F1 F2]; subst. right. split; [done|]. rewrite lookup_insert_ne; [done|]. by intros <-; apply F1.
Qed.

Lemma desired_documents p t ids id : id ∈ ids -> named id -> forall out m, desired_from p t ids out = Some m -> is_Some (document t id).
Proof.
  intros I N. induction ids as [|x ids IH]; intros out m E; [by apply not_elem_of_nil in I|].
  destruct (named_cases x) as [[E1 E2]|Nx].
  - cbn [desired_from] in E. rewrite E1, E2 in E. apply elem_of_cons in I as [->|I]; [destruct N; congruence|by eapply IH].
  - rewrite desired_from_named in E by done. apply elem_of_cons in I as [->|I]; destruct (document t x) eqn:D; try done. by eapply IH.
Qed.

Lemma last_at_alone p t ids id v : id ∈ ids -> named id -> document t id = Some v ->
  (forall id', id' ∈ ids -> named id' -> safeIdentityKey id' = safeIdentityKey id -> id' = id) -> last_at p t ids (p ++ safeIdentityKey id) v.
Proof.
  induction ids as [|x ids IH]; intros I N D U; [by apply not_elem_of_nil in I|].
  destruct (decide (Exists (fun y => safeIdentityKey y = safeIdentityKey id /\ (SpiffeID y <> [] \/ CN y <> [])) ids)) as [Ex|Nx].
  - apply Exists_exists in Ex as (y & Iy & Ey & Ny). assert (y = id) as -> by (apply U; [by right|done..]).
    destruct IH as (l1 & z & l2 & -> & H); [done..|intros; apply U; [by right|done..]|]. by exists (x :: l1), z, l2.
  - assert (x = id) as ->. { apply elem_of_cons in I as [->|I]; [done|]. destruct Nx. apply Exists_exists. by exists id. }
    exists [], id, ids. split_and!; [done..|]. apply Forall_forall. intros y Iy Ny Ey. apply Nx, Exists_exists. by exists y.
Qed.

Lemma publish_desired before (env : nat -> call_env) cluster tenantID ids order c desired :
  let p := IdentitiesPrefixFor cluster tenantID in
  (forall i, quiet p (env i)) -> (forall m, order m ≡ₚ map_to_list m) -> desiredEntries cluster tenantID ids = Some desired ->
  PublishIdentities env true true cluster tenantID ids order (run before new_client).2 = (true, c) -> held p c = desired.
Proof.
  intros p Q Or De. unfold PublishIdentities. cbn [negb orb]. rewrite De. fold p. set (c0 := (run before new_client).2). assert (WF c0) as W0 by apply run_WF, WF_new.
  pose proof (desired_prefix p tenantID ids ∅ desired ltac:(intros k [v E]; by rewrite lookup_empty in E) De) as Dp.
  destruct (each env 0 _ (order desired) c0) as [[ok i] c1] eqn:E1.
  destruct (each_held p env (fun kv c => (Put kv.1 kv.2 kNoLease c).2) (fun kv m => <[kv.1 := kv.2]> m) (order desired) Q ltac:(intros [k v] x I; apply held_put, Dp; rewrite Or in I; apply elem_of_map_to_list in I; by eexists)
    ltac:(intros; by apply WF_put) _ _ _ _ _ W0 E1) as [W1 H1].
  destruct ok; [|done]. cbn [negb]. specialize (H1 eq_refl). unfold try. pose proof (run_WF (meanwhile (env i)) c1 W1) as W2. pose proof (Q i c1 W1) as H2.
  set (c2 := (run (meanwhile (env i)) c1).2) in *. destruct (fate_ (env i)); [|done|done]. cbn [negb].
  set (stale := filter _ _). destruct (each env (S i) _ stale c2) as [[ok' j] c3] eqn:E3. intros [= -> ->].
  assert (forall k, k ∈ stale <-> is_Some (held p c2 !! k) /\ desired !! k = None) as St.
  { intros k. unfold stale. rewrite list_elem_of_filter, list_elem_of_fmap. unfold held. rewrite lookup_fmap, fmap_is_Some. split.
    - intros [N (x & -> & I)]. apply (elem_GetPrefix p c2 W2) in I. split; [by eexists|done].
    - intros [[x Ex] N]. split; [done|]. assert (key x = k) as <- by (pose proof Ex as Ex'; apply map_lookup_filter_Some in Ex' as [Ek _]; by destruct (wf_kvs c2 W2 _ _ Ek)).
      exists x. split; [done|]. by apply (elem_GetPrefix p c2 W2). }
  destruct (each_held p env (fun k c => (Delete k c).2) (fun k m => delete k m) stale Q ltac:(intros k x I; apply held_delete; apply St in I as [[v Ev] _]; unfold held in Ev; rewrite lookup_fmap in Ev;
    apply fmap_Some in Ev as (y & Ey & _); by apply map_lookup_filter_Some in Ey as [_ ?]) ltac:(intros; by apply (WF_step (ODelete _))) _ _ _ _ _ W2 E3) as [_ H3].
  rewrite (H3 eq_refl). assert (held p c2 = held p c1) as Hc by (unfold held; by rewrite H2).
  apply map_eq. intros k. rewrite fold_delete_lookup. assert (held p c2 !! k = match desired !! k with Some v => Some v | None => held p c0 !! k end) as Hk.
  { rewrite Hc, H1, fold_insert_lookup by (rewrite Or; apply NoDup_fst_map_to_list). by rewrite (list_to_map_proper (order desired) (map_to_list desired)), list_to_map_to_list
      by (try apply Or; rewrite Or; apply NoDup_fst_map_to_list). }
  case_bool_decide as I; [by apply St in I as [_ ->]|]. rewrite Hk. destruct (desired !! k) eqn:Ed; [done|]. destruct (held p c0 !! k) eqn:E0; [|done].
  destruct I. apply St. split; [rewrite Hk; by eexists|done].
Qed.

(** [C35] A publication that returned leaves in etcd, under the tenant's prefix, exactly the
    documents of the tenant's allow-list: under each key the document of the last identity
    of the list that has a name and that key, so that an identity that shares its key with
    no other of the list has its document there, and nothing else; what was dropped from
    the list is gone, whatever was there before, in whatever order the entries are put and
    whatever other clients do elsewhere meanwhile. *)
Theorem publish_exact before (env : nat -> call_env) cluster tenantID ids order c :
  let p := IdentitiesPrefixFor cluster tenantID in
  (forall i, quiet p (env i)) -> (forall m, order m ≡ₚ map_to_list m) ->
  PublishIdentities env true true cluster tenantID ids order (run before new_client).2 = (true, c) ->
  (forall k v, held p c !! k = Some v <-> last_at p tenantID ids k v) /\
  (forall id, id ∈ ids -> named id -> (forall id', id' ∈ ids -> named id' -> safeIdentityKey id' = safeIdentityKey id -> id' = id) ->
     is_Some (document tenantID id) /\ held p c !! (p ++ safeIdentityKey id) = document tenantID id).
Proof.
  intros p Q Or E. destruct (desiredEntries cluster tenantID ids) as [desired|] eqn:D; [|unfold PublishIdentities in E; cbn [negb orb] in E; by rewrite D in E].
  pose proof (publish_desired before env cluster tenantID ids order c desired Q Or D E) as H. fold p in H.
  assert (forall k v, held p c !! k = Some v <-> last_at p tenantID ids k v) as A.
  { intros k v. rewrite H, (desired_spec p tenantID ids ∅ desired D k v). rewrite lookup_empty. split; [by intros [?|[_ ?]]|by left]. }
  split; [exact A|]. intros id I N U. assert (is_Some (document tenantID id)) as [v Dv] by (by eapply desired_documents).
  rewrite Dv. split; [by eexists|]. apply A. by apply last_at_alone.
Qed.
End Publisher.

(** ** Events tell what was there *)

Definition told (m : gmap bytes KeyValue) (ev : WatchEvent) : Prop := type ev = kDelete -> m !! key (kv ev) = Some (prev_kv ev).
Fixpoint exact (m : gmap bytes KeyValue) (l : list WatchEvent) : Prop :=
  match l with [] => True | ev :: l => told m ev /\ exact (apply_event m ev) l end.

Lemma exact_app l1 l2 : forall m, exact m (l1 ++ l2) <-> exact m l1 /\ exact (fold_left apply_event l1 m) l2.
Proof. induction l1 as [|ev l1 IH]; intros m; cbn; [tauto|]. rewrite IH. tauto. Qed.

(** A watcher follows, and what it is told of deletions is right. *)
Definition Exact (h : Z) (p : bytes) (base : gmap bytes KeyValue) (got : list WatchEvent) (c : Client) : Prop :=
  Follows h p base got c /\ exact base (got ++ events_of h (dispatch_q_ c)).

Lemma Exact_put h p base got cur prev r c : Exact h p base got c ->
  Exact h p base got (NotifyLocked (mkEvent kPut cur prev) (set_kvs r (<[key cur := cur]> (kvs_ c)) c)).
Proof.
  intros [F X]. split; [by apply Follows_put|]. destruct F as [W F]. simpl. rewrite events_of_app, events_of_watching, W, app_assoc, exact_app. split; [done|].
  by destruct (has_prefix _ _).
Qed.

Lemma Exact_delete h p base got x r c : kvs_ c !! key x = Some x -> Exact h p base got c ->
  Exact h p base got (set_kvs r (delete (key x) (kvs_ c)) (NotifyLocked (mkEvent kDelete x x) c)).
Proof.
  intros E [F X]. split; [by apply Follows_delete|]. destruct F as [W F]. simpl. rewrite events_of_app, events_of_watching, W, app_assoc, exact_app. split; [done|].
  rewrite F. destruct (has_prefix p (key x)) eqn:P; [|done]. split; [|done]. intros _. by apply map_lookup_filter_Some.
Qed.

Lemma Exact_drop h p base got xs : forall c, NoDup (key <$> xs) -> Forall (fun x => kvs_ c !! key x = Some x) xs -> Exact h p base got c -> Exact h p base got (fold_left drop_key xs c).
Proof.
  induction xs as [|x xs IH]; intros c N F X; [done|]. cbn in N. apply NoDup_cons in N as [Nx N]. inversion F as [|?? Ex F']; subst. cbn [fold_left]. apply IH; [done| |exact (Exact_delete h p base got x (revision_ c) c Ex X)].
  apply Forall_forall. intros y Iy. cbn. rewrite lookup_delete_ne; [by rewrite Forall_forall in F'; apply F'|]. intros E. apply Nx. rewrite E. by apply (list_elem_of_fmap_2 key).
Qed.

Lemma Exact_expire h p base got l c : WF c -> Exact h p base got c -> Exact h p base got (ExpireLeaseLocked l c).
Proof.
  intros W X. unfold ExpireLeaseLocked. assert (Exact h p base got (fold_left drop_key (bound_to l (kvs_ c)) c)) as X'; [|exact X'].
  assert (forall k x, kvs_ c !! k = Some x -> key x = k) as K by (intros k x E; by destruct (wf_kvs c W _ _ E)).
  apply Exact_drop; [| |done].
  - unfold bound_to. rewrite <- list_fmap_compose. assert ((key ∘ snd) <$> map_to_list (filter (fun e => lease e.2 = l) (kvs_ c)) = (map_to_list (filter (fun e => lease e.2 = l) (kvs_ c))).*1) as ->;
      [|apply NoDup_fst_map_to_list]. apply list_fmap_ext. intros i [k x] E. cbn. apply list_elem_of_lookup_2, elem_of_map_to_list, map_lookup_filter_Some in E as [E _]. by apply K.
  - apply Forall_forall. intros x I. apply elem_of_bound_to in I as (k & E & _). by rewrite (K k x E).
Qed.

Lemma Exact_step o h p base got c : WF c -> o <> OUnwatch h -> Exact h p base got c -> Exact h p base (got ++ events_of h (option_list (step o c).1)) (step o c).2.
Proof.
  intros W NU X. destruct o as [k v l|k|k v r l|nw ttl|nw l|l|nw|q|h'|]; cbn [step fst snd];
    try (change (events_of h (option_list None)) with (@nil WatchEvent); rewrite app_nil_r).
  - unfold Put. destruct (_ && _); [done|]. by apply Exact_put.
  - unfold Delete. destruct (kvs_ c !! k) as [x|] eqn:E; [|done]. destruct (wf_kvs c W _ _ E) as [<- _]. exact (Exact_delete h p base got x (revision_ c + 1) c E X).
  - unfold PutIfRevision. destruct (negb (_ =? r)); [done|]. destruct (_ && _); [done|]. by apply Exact_put.
  - exact X.
  - unfold LeaseKeepAlive. by destruct (leases_ c !! l).
  - unfold LeaseRevoke. destruct (leases_ c !! l); [|done]. by apply Exact_expire.
  - enough (WF (Sweep nw c) /\ Exact h p base got (Sweep nw c)) as [_ ?] by done. unfold Sweep. apply (fold_expire_ind (fun c => WF c /\ Exact h p base got c)); [done|].
    intros c' l _ [W' X']. split; [by apply WF_expire|by apply Exact_expire].
  - destruct X as [F X]. split; [|exact X]. pose proof (Follows_step (OWatch q) h p base got c W ltac:(done) F) as F'. cbn [step fst snd] in F'.
    change (events_of h (option_list None)) with (@nil WatchEvent) in F'. by rewrite app_nil_r in F'.
  - destruct X as [F X]. split; [|exact X]. pose proof (Follows_step (OUnwatch h') h p base got c W NU F) as F'. cbn [step fst snd] in F'.
    change (events_of h (option_list None)) with (@nil WatchEvent) in F'. by rewrite app_nil_r in F'.
  - destruct X as [F X]. split; [exact (Follows_step ODispatch h p base got c W ltac:(done) F)|].
    rewrite <- app_assoc, (dispatch_events h p c); [done|apply F].
Qed.

Lemma run_Exact os h p base : forall got c, WF c -> OUnwatch h ∉ os -> Exact h p base got c -> Exact h p base (got ++ events_of h (run os c).1) (run os c).2.
Proof.
  induction os as [|o os IH]; intros got c W NU X; [by rewrite app_nil_r|]. apply not_elem_of_cons in NU as [NU NU']. simpl.
  pose proof (Exact_step o h p base got c W (not_eq_sym NU) X) as X1. pose proof (WF_step o c W) as W1.
  destruct (step o c) as [d c1]. cbn [fst snd] in *. specialize (IH _ c1 W1 NU' X1). destruct (run os c1) as [ds c2]. cbn [fst snd] in *. by rewrite events_of_app, app_assoc.
Qed.

(** ** The registry follows *)

Section Agree.
Context (parse : bytes -> option (bytes -> option bytes)).

Definition entry_at (m : gmap bytes KeyValue) (k : bytes) : option Entry := x ← m !! k; ParseEntry parse (value x).

(** A table of the registry holds the entries by one of their names. *)
Definition Tabled (name : Entry -> bytes) (m : gmap bytes KeyValue) (T : gmap bytes Identity) : Prop :=
  forall n i, T !! n = Some i <-> n <> [] /\ exists k e, entry_at m k = Some e /\ name e = n /\ identity e = i.
Definition Agree (m : gmap bytes KeyValue) (r : Registry) : Prop := Tabled cn m (by_cn_ r) /\ Tabled spiffe_id m (by_spiffe_ r).

(** No two entries share a name. *)
Definition distinct (name : Entry -> bytes) (m : gmap bytes KeyValue) : Prop :=
  forall k1 k2 e1 e2, entry_at m k1 = Some e1 -> entry_at m k2 = Some e2 -> name e1 = name e2 -> name e1 <> [] -> k1 = k2.
Definition Exclusive (m : gmap bytes KeyValue) : Prop := distinct cn m /\ distinct spiffe_id m.

(** An entry that is overwritten is overwritten by one of the same names. *)
Definition steady (m : gmap bytes KeyValue) (ev : WatchEvent) : Prop :=
  type ev = kPut -> forall e0, entry_at m (key (kv ev)) = Some e0 -> exists e1, ParseEntry parse (value (kv ev)) = Some e1 /\ cn e1 = cn e0 /\ spiffe_id e1 = spiffe_id e0.

Fixpoint calm (m : gmap bytes KeyValue) (l : list WatchEvent) : Prop :=
  Exclusive m /\ match l with [] => True | ev :: l => steady m ev /\ calm (apply_event m ev) l end.

Definition put_name (n : bytes) (i : Identity) (T : gmap bytes Identity) : gmap bytes Identity := match n with [] => T | _ => <[n := i]> T end.
Definition drop_name (n : bytes) (T : gmap bytes Identity) : gmap bytes Identity := match n with [] => T | _ => delete n T end.

Lemma Apply_tables e r : by_cn_ (Apply e r) = put_name (cn e) (identity e) (by_cn_ r) /\ by_spiffe_ (Apply e r) = put_name (spiffe_id e) (identity e) (by_spiffe_ r).
Proof. unfold Apply, put_name. by destruct (spiffe_id e), (cn e). Qed.

Lemma Remove_tables e r : by_cn_ (Remove e r) = drop_name (cn e) (by_cn_ r) /\ by_spiffe_ (Remove e r) = drop_name (spiffe_id e) (by_spiffe_ r).
Proof. unfold Remove, drop_name. by destruct (spiffe_id e), (cn e). Qed.

Lemma entry_insert m k x k' : entry_at (<[k := x]> m) k' = if decide (k' = k) then ParseEntry parse (value x) else entry_at m k'.
Proof. unfold entry_at. destruct (decide (k' = k)) as [->|N]; [by rewrite lookup_insert_eq|by rewrite lookup_insert_ne]. Qed.

Lemma entry_delete m k k' : entry_at (delete k m) k' = if decide (k' = k) then None else entry_at m k'.
Proof. unfold entry_at. destruct (decide (k' = k)) as [->|N]; [by rewrite lookup_delete_eq|by rewrite lookup_delete_ne]. Qed.

Lemma Tabled_ext name m m' T : (forall k, entry_at m' k = entry_at m k) -> Tabled name m T -> Tabled name m' T.
Proof. intros E H n i. rewrite (H n i). by setoid_rewrite E. Qed.

Lemma Tabled_put name m k x e T : ParseEntry parse (value x) = Some e -> (forall e0, entry_at m k = Some e0 -> name e = name e0) ->
  distinct name (<[k := x]> m) -> Tabled name m T -> Tabled name (<[k := x]> m) (put_name (name e) (identity e) T).
Proof.
  intros P S D H n i. unfold distinct in D. setoid_rewrite entry_insert in D. setoid_rewrite entry_insert.
  assert (put_name (name e) (identity e) T !! n = if decide (n = name e /\ n <> []) then Some (identity e) else T !! n) as ->.
  { unfold put_name. destruct (name e) as [|b l] eqn:N; [by rewrite decide_False by (by intros [-> ?])|]. destruct (decide (n = b :: l)) as [->|N'].
    - by rewrite lookup_insert_eq, decide_True.
    - rewrite lookup_insert_ne, decide_False by (done || by intros [? ?]). done. }
  destruct (decide (n = name e /\ n <> [])) as [[-> Ne]|N].
  - split; [intros [= <-]; split; [done|]; exists k, e; by rewrite decide_True|]. intros (_ & k' & e' & E' & N' & <-).
    assert (k' = k) as -> by (apply (D k' k e' e); [done|by rewrite decide_True|done|by rewrite N']). rewrite decide_True, P in E' by done. by simplify_eq.
  - rewrite (H n i). split; intros (Ne & k' & e' & E' & N' & I'); (split; [done|]); exists k', e'; (split; [|done]).
    + rewrite decide_False; [done|]. intros ->. apply N. by rewrite (S e' E').
    + destruct (decide (k' = k)) as [->|?]; [|done]. rewrite P in E'. simplify_eq. by destruct N.
Qed.

Lemma Tabled_drop name m k e T : entry_at m k = Some e -> distinct name m -> Tabled name m T -> Tabled name (delete k m) (drop_name (name e) T).
Proof.
  intros P D H n i. setoid_rewrite entry_delete.
  assert (drop_name (name e) T !! n = if decide (n = name e /\ n <> []) then None else T !! n) as ->.
  { unfold drop_name. destruct (name e) as [|b l] eqn:N; [by rewrite decide_False by (by intros [-> ?])|]. destruct (decide (n = b :: l)) as [->|N'].
    - by rewrite lookup_delete_eq, decide_True.
    - rewrite lookup_delete_ne, decide_False by (done || by intros [? ?]). done. }
  destruct (decide (n = name e /\ n <> [])) as [[-> Ne]|N].
  - split; [done|]. intros (_ & k' & e' & E' & N' & _). destruct (decide (k' = k)) as [->|K]; [done|]. exfalso. apply K. apply (D k' k e' e); [done..|by rewrite N'].
  - rewrite (H n i). split; intros (Ne & k' & e' & E' & N' & I'); (split; [done|]); exists k', e'; (split; [|done]).
    + rewrite decide_False; [done|]. intros ->. rewrite P in E'. simplify_eq. by destruct N.
    + by destruct (decide (k' = k)).
Qed.

Lemma Agree_put m k x r : (forall e0, entry_at m k = Some e0 -> exists e1, ParseEntry parse (value x) = Some e1 /\ cn e1 = cn e0 /\ spiffe_id e1 = spiffe_id e0) ->
  Exclusive (<[k := x]> m) -> Agree m r -> Agree (<[k := x]> m) (match ParseEntry parse (value x) with Some e => Apply e r | None => r end).
Proof.
  intros S [Dc Ds] [Ac As]. destruct (ParseEntry parse (value x)) as [e|] eqn:P.
  - destruct (Apply_tables e r) as [Ec Es]. split; [rewrite Ec|rewrite Es]; (eapply Tabled_put; [done| |done..]); intros e0 E0; by destruct (S e0 E0) as (? & [= <-] & ? & ?).
  - assert (forall k', entry_at (<[k := x]> m) k' = entry_at m k') as E.
    { intros k'. rewrite entry_insert. destruct (decide (k' = k)) as [->|]; [|done]. rewrite P. destruct (entry_at m k) as [e0|]; [|done]. by destruct (S e0 eq_refl) as (? & ? & ?). }
    split; by apply (Tabled_ext _ m).
Qed.

Lemma Agree_event m ev r : told m ev -> steady m ev -> Exclusive m -> Exclusive (apply_event m ev) -> Agree m r -> Agree (apply_event m ev) (on_event parse r ev).
Proof.
  unfold told, steady, apply_event, on_event. intros T S D D' A. destruct (type ev); [by apply Agree_put; [apply S| |]|].
  specialize (T eq_refl). destruct D as [Dc Ds], A as [Ac As]. destruct (ParseEntry parse (value (prev_kv ev))) as [e|] eqn:P.
  - assert (entry_at m (key (kv ev)) = Some e) as E by (unfold entry_at; by rewrite T). destruct (Remove_tables e r) as [Ec Es]. split; [rewrite Ec|rewrite Es]; by apply Tabled_drop.
  - assert (forall k', entry_at (delete (key (kv ev)) m) k' = entry_at m k') as E; [|split; by apply (Tabled_ext _ m)].
    intros k'. rewrite entry_delete. destruct (decide (k' = key (kv ev))) as [->|]; [|done]. unfold entry_at. by rewrite T.
Qed.

Lemma calm_exclusive m l : calm m l -> Exclusive m.
Proof. destruct l; by intros [? _]. Qed.

Lemma Agree_events l : forall m r, exact m l -> calm m l -> Agree m r -> Agree (fold_left apply_event l m) (fold_left (on_event parse) l r).
Proof.
  induction l as [|ev l IH]; intros m r X C A; [done|]. destruct X as [T X], C as (D & S & C). cbn. apply IH; [done..|]. apply Agree_event; [done..|by eapply calm_exclusive|done].
Qed.

Lemma Exclusive_subset m M : m ⊆ M -> Exclusive M -> Exclusive m.
Proof.
  intros H [Dc Ds]. assert (forall k e, entry_at m k = Some e -> entry_at M k = Some e) as E.
  { unfold entry_at. intros k e E. destruct (m !! k) as [x|] eqn:L; [|done]. by rewrite (lookup_weaken _ _ _ _ L H). }
  split; intros k1 k2 e1 e2 E1 E2; [by apply Dc; apply E|by apply Ds; apply E].
Qed.

Lemma seed_agree M xs : Exclusive M -> forall m r, m ⊆ M -> Forall (fun x => M !! key x = Some x) xs -> Agree m r ->
  exists m', m ⊆ m' /\ m' ⊆ M /\ Forall (fun x => m' !! key x = Some x) xs /\ Agree m' (fold_left (seed parse) xs r).
Proof.
  intros D. induction xs as [|x xs IH]; intros m r S F A; [by exists m|]. inversion F as [|?? Fx F']; subst.
  assert (<[key x := x]> m ⊆ M) as S' by by apply insert_subseteq_l.
  destruct (IH (<[key x := x]> m) (seed parse r x)) as (m' & S1 & S2 & F1 & A'); [done|done| |].
  - apply Agree_put; [|by eapply Exclusive_subset|done]. intros e0 E0. exists e0. split; [|done]. unfold entry_at in E0. destruct (m !! key x) as [y|] eqn:L; [|done].
    pose proof (lookup_weaken _ _ _ _ L S). by simplify_eq.
  - exists m'. assert (m' !! key x = Some x) as Lx by (eapply lookup_weaken; [|exact S1]; apply lookup_insert_eq). split_and!; [|done|by constructor|done].
    apply map_subseteq_spec. intros k y L. destruct (decide (k = key x)) as [->|N]; [pose proof (lookup_weaken _ _ _ _ L S); by simplify_eq|].
    eapply lookup_weaken; [|exact S1]. by rewrite lookup_insert_ne.
Qed.

Lemma seeded p c r : WF c -> by_cn_ r = ∅ -> by_spiffe_ r = ∅ -> Exclusive (under p (kvs_ c)) -> Agree (under p (kvs_ c)) (fold_left (seed parse) (GetPrefix p c) r).
Proof.
  intros W Ec Es D. destruct (seed_agree _ (GetPrefix p c) D ∅ r) as (m' & _ & S & F & A).
  - apply map_empty_subseteq.
  - apply Forall_forall. intros x. by apply elem_GetPrefix.
  - split; intros n i; rewrite ?Ec, ?Es, lookup_empty; (split; [done|]); unfold entry_at; setoid_rewrite lookup_empty; by intros (_ & k & e & ? & _).
  - enough (m' = under p (kvs_ c)) as <- by done. apply (anti_symm (⊆)); [done|]. apply map_subseteq_spec. intros k x L.
    assert (key x = k) as K by (pose proof L as L'; apply map_lookup_filter_Some in L' as [E _]; by destruct (wf_kvs c W _ _ E)).
    rewrite Forall_forall in F. rewrite <- K. apply F, elem_GetPrefix; [done|]. by rewrite K.
Qed.

(** [C34] A node's registry follows what is published: a watcher that starts on an empty
    registry and has been given every event since has, under each common name and each
    SPIFFE id, exactly the identity of the published entry that carries it, whatever puts,
    deletions and expiries of other clients came between; provided that no two entries ever
    share a name, and that an entry which is overwritten keeps its names. *)
Theorem identities_follow before os p r0 h r1 c1 :
  by_cn_ r0 = ∅ -> by_spiffe_ r0 = ∅ ->
  Start parse true p r0 (run before new_client).2 = (Some h, r1, c1) ->
  OUnwatch h ∉ os ->
  events_of h (dispatch_q_ (run os c1).2) = [] ->
  calm (under p (kvs_ (run before new_client).2)) (events_of h (run os c1).1) ->
  Agree (under p (kvs_ (run os c1).2)) (fold_left (on_event parse) (events_of h (run os c1).1) r1).
Proof.
  intros Ec Es HS NU Q C. set (c := (run before new_client).2) in *. assert (WF c) as W by apply run_WF, WF_new.
  cbn [Start negb] in HS. unfold WatchPrefix in HS. injection HS as <- <- E1.
  assert (Exact (next_watch_ c) p (under p (kvs_ c)) [] (step (OWatch p) c).2) as X.
  { split; [split; simpl; [by rewrite lookup_insert_eq|by rewrite events_of_fresh]|]. simpl. by rewrite events_of_fresh. }
  apply (run_Exact os) in X as [[_ F] X]; [|by apply WF_step|done].
  change (step (OWatch p) c).2 with (WatchPrefix p c).2 in F, X. change ((WatchPrefix p c).2 = c1) in E1. rewrite E1, Q, app_nil_r in F, X. cbn [app] in F, X.
  rewrite <- F. apply Agree_events; [done..|]. apply seeded; [done..|by eapply calm_exclusive].
Qed.

End Agree.

(** ** Instances *)

(** Documents whose members are separated by semicolons. *)
Fixpoint ex_split (cur : bytes) (l : bytes) : list bytes :=
  match l with [] => [cur] | b :: l => if byte_val b =? 59 then cur :: ex_split [] l else ex_split (cur ++ [b]) l end.
Definition ex_marshal (p : IdentityEtcdPayload) : option bytes := Some (p_spiffe p ++ str ";" ++ p_cn p ++ str ";" ++ p_tenant p ++ str ";" ++ p_kind p).
Definition ex_parse (doc : bytes) : option (bytes -> option bytes) :=
  match ex_split [] doc with
  | [s; c; t; k] => Some (fun m => if bool_decide (m = str "spiffe_id") then Some s else if bool_decide (m = str "cn") then Some c
                                   else if bool_decide (m = str "tenant") then Some t else if bool_decide (m = str "kind") then Some k else None)
  | _ => None
  end.
Definition ex_sha (raw : bytes) : bytes := take 32 (raw ++ replicate 32 x00).

Definition ex_alice : TenantIdentity := mkTenantIdentity (str "spiffe://d/a") (str "alice") [].
Definition ex_bob : TenantIdentity := mkTenantIdentity [] (str "bob") (str "admin").
Definition ex_publish (ids : list TenantIdentity) (c : Client) : bool * Client :=
  PublishIdentities ex_sha ex_marshal (fun _ => mkCall [] Made) true true (str "k") (str "t1") ids map_to_list c.

Definition ex_old : list op := [OPut (str "/kvcache/identities/k/t1/old") (str "x") 0].

Lemma publish_exact_witness :
  (ex_publish [ex_alice; ex_bob] (run ex_old new_client).2).1 = true /\
  held (str "/kvcache/identities/k/t1/") (ex_publish [ex_alice; ex_bob] (run ex_old new_client).2).2 !! (str "/kvcache/identities/k/t1/" ++ safeIdentityKey ex_sha ex_bob) = Some (str ";bob;t1;admin").
Proof.
  assert ((ex_publish [ex_alice; ex_bob] (run ex_old new_client).2).1 = true) as P by (vm_compute; reflexivity). split; [exact P|].
  assert (ex_publish [ex_alice; ex_bob] (run ex_old new_client).2 = (true, (ex_publish [ex_alice; ex_bob] (run ex_old new_client).2).2)) as E
    by (rewrite <- P; apply surjective_pairing).
  assert (forall i : nat, quiet (IdentitiesPrefixFor (str "k") (str "t1")) (mkCall [] Made)) as Q by (intros i x W; reflexivity).
  destruct (publish_exact ex_sha ex_marshal ex_old (fun _ => mkCall [] Made) (str "k") (str "t1") [ex_alice; ex_bob] map_to_list _ Q (fun m => Permutation_refl _) E) as [_ H].
  apply (H ex_bob).
  - right. left.
  - right. discriminate.
  - intros id' I N K. apply elem_of_cons in I as [->|I]; [vm_compute in K; discriminate|]. by apply list_elem_of_singleton in I.
Defined.

(** Two identities with one SPIFFE id have one key, and only the last is published. *)
Example shared_spiffe_id_loses_a_name :
  let carol := mkTenantIdentity (str "spiffe://d/a") (str "carol") [] in
  safeIdentityKey ex_sha ex_alice = safeIdentityKey ex_sha carol /\
  (map_to_list (held (str "/kvcache/identities/k/t1/") (ex_publish [ex_alice; carol] new_client).2)).*2 = [str "spiffe://d/a;carol;t1;tenant"].
Proof. vm_compute. split; reflexivity. Qed.

(** Two identities are put and one is withdrawn while the watcher runs. *)
Definition ex_put (n d : bytes) : op := OPut (str "/kvcache/identities/k/t1/" ++ n) d 0.
Definition ex_none : Registry := mkRegistry ∅ ∅ [].
Definition ex_before : list op := [ex_put (str "a") (str "spiffe://d/a;alice;t1;tenant")].
Definition ex_after : list op :=
  [ex_put (str "b") (str ";bob;t1;admin"); ODelete (str "/kvcache/identities/k/t1/a"); ODispatch; ODispatch].
Definition ex_started : option Z * Registry * Client := Start ex_parse true kIdentitiesPrefix ex_none (run ex_before new_client).2.
Definition ex_registry (os : list op) : Registry := fold_left (on_event ex_parse) (events_of 1 (run os ex_started.2).1) ex_started.1.2.

(** Whether no two entries share a name. *)
Definition exclusive_b (name : Entry -> bytes) (m : gmap bytes KeyValue) : bool :=
  forallb (fun x => forallb (fun y =>
    match entry_at ex_parse m x.1, entry_at ex_parse m y.1 with
    | Some a, Some b => negb (bool_decide (name a = name b)) || bool_decide (name a = []) || bool_decide (x.1 = y.1)
    | _, _ => true
    end) (map_to_list m)) (map_to_list m).

Lemma exclusive_check m : exclusive_b cn m && exclusive_b spiffe_id m = true -> Exclusive ex_parse m.
Proof.
  assert (forall name, exclusive_b name m = true -> distinct ex_parse name m) as D; [|intros [C S]%andb_true_iff; split; by apply D].
  intros name H k1 k2 e1 e2 E1 E2 N Ne. unfold exclusive_b in H. rewrite forallb_forall in H.
  assert (forall k e, entry_at ex_parse m k = Some e -> exists x, In (k, x) (map_to_list m)) as I.
  { unfold entry_at. intros k e E. destruct (m !! k) as [x|] eqn:L; [|done]. exists x. by apply list_elem_of_In, elem_of_map_to_list. }
  destruct (I k1 e1 E1) as [x1 I1], (I k2 e2 E2) as [x2 I2]. specialize (H _ I1). rewrite forallb_forall in H. specialize (H _ I2). cbn [fst] in H.
  rewrite E1, E2, bool_decide_true, (bool_decide_false (name e1 = [])) in H by done. by apply bool_decide_eq_true in H.
Qed.

Fixpoint calm_b (m : gmap bytes KeyValue) (l : list WatchEvent) : bool :=
  exclusive_b cn m && exclusive_b spiffe_id m &&
  match l with
  | [] => true
  | ev :: l =>
      match type ev, entry_at ex_parse m (key (kv ev)), ParseEntry ex_parse (value (kv ev)) with
      | kPut, Some e0, Some e1 => bool_decide (cn e1 = cn e0) && bool_decide (spiffe_id e1 = spiffe_id e0)
      | kPut, Some _, None => false
      | _, _, _ => true
      end && calm_b (apply_event m ev) l
  end.

Lemma calm_check l : forall m, calm_b m l = true -> calm ex_parse m l.
Proof.
  induction l as [|ev l IH]; intros m; cbn [calm_b calm]; intros [X H]%andb_true_iff; (split; [by apply exclusive_check|]); [done|].
  apply andb_true_iff in H as [S H]. split; [|by apply IH]. intros T e0 E0. rewrite T, E0 in S. destruct (ParseEntry ex_parse (value (kv ev))) as [e1|]; [|done].
  exists e1. apply andb_true_iff in S as [S1%bool_decide_eq_true S2%bool_decide_eq_true]. done.
Qed.

Lemma identities_follow_witness :
  events_of 1 (dispatch_q_ (run ex_after ex_started.2).2) = [] /\
  Agree ex_parse (under kIdentitiesPrefix (kvs_ (run ex_after ex_started.2).2)) (ex_registry ex_after) /\
  is_Some (Resolve (str "bob") (ex_registry ex_after)) /\ Resolve (str "alice") (ex_registry ex_after) = None.
Proof.
  split; [vm_compute; reflexivity|]. split; [|vm_compute; eauto].
  apply (identities_follow ex_parse ex_before ex_after kIdentitiesPrefix ex_none 1 ex_started.1.2 ex_started.2);
    [reflexivity|reflexivity| | |vm_compute; reflexivity|apply calm_check; vm_compute; reflexivity].
  - assert (ex_started.1.1 = Some 1) as <- by (vm_compute; reflexivity). rewrite <- !surjective_pairing. reflexivity.
  - repeat (apply not_elem_of_cons; split; [discriminate|]). apply not_elem_of_nil.
Defined.

(** A common name that is replaced under the same SPIFFE id keeps its access: the entry is
    put again under the same key, and its deletion later withdraws only the new name. *)
Example changed_cn_stays_authorised :
  let os := [ex_put (str "a") (str "spiffe://d/a;carol;t1;tenant"); ODelete (str "/kvcache/identities/k/t1/a"); ODispatch; ODispatch] in
  safeIdentityKey ex_sha ex_alice = safeIdentityKey ex_sha (mkTenantIdentity (str "spiffe://d/a") (str "carol") []) /\
  map_to_list (under kIdentitiesPrefix (kvs_ (run os ex_started.2).2)) = [] /\
  is_Some (Resolve (str "alice") (ex_registry os)) /\ Resolve (str "carol") (ex_registry os) = None.
Proof. vm_compute. split_and!; eauto. Qed.

End Identity.
